(* ===== verification/_CoqProject ===== *)
-Q . S2P
Prelude.v
Js.v
Calls.v
Draws.v
Json.v
Subnet.v
AwgPeers.v
Utf8.v
GeoDat.v
GeoRules.v
Stats.v
StatsCron.v
Directions.v
CascadeValidation.v
LinkCreds.v
TopologyLinks.v
CascadeTunnel.v
TopologySave.v
EntryGate.v
PolicyEntries.v
XrayLinks.v
TopologyFragments.v
TopologyRoutes.v
CascadeJourney.v
CascadeExclusive.v
CascadeSave.v
CascadeRaces.v
TopologyRead.v
CascadeDelivery.v
HopCascade.v
HopJourney.v
InboundSync.v
Hwid.v
Totp.v
Login.v
SecurityGate.v
Awg3Geometry.v
SingBox.v
ChainPolicy.v
ChainConfig.v
ChainRoutes.v
ChainInput.v
ChainBlocks.v
ChainDial.v
ChainJourney.v
NodeSelection.v
UserReach.v
RouteProfiles.v
SubscriptionLines.v
BindingsCache.v
CoreVersions.v
NodeEngines.v
NodePorts.v
PortSaves.v
UserLife.v
Sessions.v
Scopes.v
LoginCap.v
GuardedFetch.v
RuleFold.v
ResponseRules.v
