(* ===== verification/Prelude.v ===== *)
(** * Verification of the Iceslab panel backend

    Iceslab is a panel for a fleet of proxy nodes.  Its backend
    (apps/panel-backend, TypeScript on Fastify, Prisma and Redis) keeps users,
    nodes and inbounds, allocates addresses, meters and bills traffic, joins
    nodes into cascades, renders configurations, hands out subscriptions, and
    guards its own admin surface.  This library models the backend's own logic
    as written and proves what it is for.

    ** Parts

    Every file models the source files its first comment names; definitions
    keep the source's names, and a definition without a name in the source is a
    step of the function named beside it in the manifest.  Paths below are
    relative to apps/panel-backend/src.

    Shared.
    - [Prelude]: fallible code ([result] and its bind), JavaScript's arrays,
      Map and Set, sorting, sums, tactics ([inv_ok], [bool_prop]) and the hint
      database [iceslab].
    - [Js]: doubles that hold integers ([fl_round]), the int32 operators,
      Number, parseInt and decimal printing, strings.  [Utf8]: text as code
      units, and its decoding.  [Json]: JSON values.
    - [Calls]: asynchronous code.  A [prog] is a chain of atomic calls into a
      shared world; [run] is the function alone, [pool_run] an arbitrary
      interleaving of several; [rg] is rely and guarantee, the rule by which
      one function's behaviour is proved under all interleavings, and [keeps]
      its case of an invariant.
    - [Draws]: the loop that draws distinct numbers from randomness.

    Addresses, traffic, geo files.
    - [Subnet], [AwgPeers]: CIDR arithmetic on int32
      (modules/amneziawg/amneziawg.subnet.ts) and the allocator of tunnel
      addresses (amneziawg.service.ts), whose SQL statement sees one snapshot
      of the table and inserts into another.
    - [Awg3Geometry]: the obfuscation parameters of a node, drawn, checked and
      stored once (modules/nodes/awg3-geometry.ts).
    - [GeoDat], [GeoRules]: the protobuf reader and tag index of xray's geo
      files, and the rule-sets built from a tag (modules/geo-sets/geo-dat.ts).
    - [Stats], [StatsCron]: counters to deltas and deltas to rows
      (modules/stats/stats.compute.ts), and the poll of one node with its
      transaction and snapshots (stats.cron.ts).

    Cascades, from the save to the traffic (modules/cascades).
    - [Directions], [CascadeValidation]: what a save sends matched with what is
      stored (direction-merge.ts), and the rules of a topology
      (cascade.validation.ts).
    - [LinkCreds], [TopologyLinks], [CascadeTunnel], [TopologySave]: the
      credentials of a leg, the legs, the tunnels beneath them
      (cascade.config.ts, cascade-tunnel.ts), and the transaction that writes
      them all (writeTopologyV4 of cascade.service.ts).
    - [CascadeExclusive], [CascadeSave], [CascadeRaces]: which cascade holds a
      node (cascade-exclusive.ts); create, update and delete; and what two
      saves, or a save and a reader, do at once.
    - [EntryGate], [PolicyEntries], [XrayLinks], [TopologyFragments],
      [TopologyRoutes], [CascadeJourney]: what a node's xray is told of its
      cascade (cascade.config.ts) and where traffic then goes, at one node and
      through the cascade.
    - [TopologyRead], [CascadeDelivery]: the rows read back for a node's push
      (cascade.service.ts), and the whole road from a save to the traffic.
    - [HopCascade], [HopJourney]: the older model of one node per position, its
      two renderers (cascade.config.ts) and the branch of the push that draws a
      node from the hop rows (cascade.service.ts); and the way through.
    - [SingBox], [ChainPolicy], [ChainConfig], [ChainRoutes], [ChainInput],
      [ChainBlocks], [ChainDial], [ChainJourney]: the same for a cascade whose
      legs a process of their own carries: how the engine reads rules, the
      policies translated (chain-policy.ts), the configuration of a node
      (chain.config.ts), what it does with a connection, what a node is told
      (cascade.service.ts), that all of it loads, one leg between two nodes,
      and the way through the cascade.

    Nodes.
    - [CoreVersions]: which versions of the cores a node should run, and the
      verdict on those it reports (packages/shared/src/core-versions.ts,
      modules/nodes/node-core-versions.ts).
    - [NodeEngines]: which engines a node runs and what is refused because of
      them (modules/nodes/node-engines.ts, node-intended-engines.ts,
      node-cascade-needs.ts, node-core-gate.ts).
    - [NodePorts], [PortSaves]: who holds a port, and the bindings of a profile
      to nodes (modules/nodes/node-ports.ts, node-adapter-slot.ts,
      modules/profiles/profiles.service.ts); and every other save that takes or
      frees one: hosts that make or move bindings
      (modules/hosts/hosts.service.ts), profiles and nodes deleted
      (nodes.service.ts), cascades created, edited and deleted with their hops,
      legs and tunnels (cascade.service.ts).
    - [InboundSync]: the revision a node should run and the one it has taken,
      the queue of its push, and the users sent after it
      (modules/inbounds/inbounds.queue.ts, inbounds.events.ts,
      modules/nodes/nodes.sync-status.ts).

    Users and subscriptions.
    - [UserLife]: edits of a user, the crons that end and renew it, and the
      queue that makes the nodes follow (modules/users/users.service.ts,
      users.cron.ts, users.events.ts, users.queue.ts).
    - [NodeSelection], [UserReach], [RouteProfiles], [SubscriptionLines]: the
      ranking of nodes for a user (modules/subscription/node-selection.ts),
      where a user may connect (modules/users/user-reach.ts) and which bindings
      a subscription keeps of it (its top N and the entry cap included), the
      ways out offered at a cascade's entry and the gate kept on them
      (cascade.service.ts), and the lines of one subscription
      (modules/subscription).
    - [BindingsCache]: the cache a subscription reads its bindings from
      (subscription.bindings-cache.ts).
    - [RuleFold], [ResponseRules]: the patterns of the User-Agent rules folded
      for a case-blind match, and the rules that choose a format (modules/srr,
      resolveFormat of subscription.routes.ts).
    - [Hwid]: device limits (modules/hwid/hwid.service.ts).

    The admin surface.
    - [SecurityGate]: the hook in front of every route
      (lib/auth/security-gate.ts, lib/util/ip.ts).
    - [Totp], [Login]: two-factor codes (lib/auth/totp.ts) and the sign-in, the
      password change and the enrolment (modules/auth/auth.service.ts,
      twofa.service.ts).
    - [Sessions], [Scopes], [LoginCap]: who is let in with a token
      (auth.hook.ts, revoked-tokens.ts), what it may do and see
      (scope.hook.ts, token-secrets.ts), and the cap on the audit rows of
      refused sign-ins (modules/audit/login-cap.ts).
    - [GuardedFetch]: fetching an address an operator typed
      (lib/util/guarded-fetch.ts).

    [Subnet] serves [AwgPeers], [SecurityGate], [CascadeTunnel], [NodePorts]
    and [GuardedFetch]; [Draws] serves [Awg3Geometry] and [CascadeTunnel];
    [Calls] serves [Login], [SecurityGate], [Awg3Geometry] and the saves of
    cascades; [CascadeValidation] serves everything that reads a topology;
    [CoreVersions] serves [NodeEngines], and both serve [NodePorts];
    [NodePorts] and [TopologySave] serve [PortSaves]; [NodeSelection] serves
    [UserReach] and [SubscriptionLines]; [UserReach] serves [RouteProfiles] and
    [UserLife].  Between components the
    interfaces are type classes with their laws: [Random] and [RandomOk],
    [TunnelRandom] and [TunnelRandomOk], [GeometryRandom], [CaseMap].

    ** State and its operations

    Pure modules are functions.  Where the source writes a table, the table is
    a list of rows (constraints as [NoDup] of keys) or a [gmap] keyed by its
    unique key, and each statement a function on it.  Redis is a [gmap] of
    values with their expiry.  A module variable such as the gate's cache is a
    field of the world.  Arrays that the source shares and writes in place are
    indices into a heap ([SubscriptionLines]).  Concurrency is explicit:
    [AwgPeers] has a schedule of what other transactions do around each
    statement; [Hwid] a system of requests with program counters and locks;
    [BindingsCache], [ResponseRules], [UserLife], [InboundSync] and [LoginCap] a
    step relation with any interleaving of requests, jobs and statements; the files over
    [Calls] a pool of programs.  The engines that read the rendered configurations (xray,
    sing-box) are modelled by their documented reading of rules, so a theorem
    about a configuration speaks of where a connection goes.

    ** What is shown

    - Billing: whatever polls fail, the stored counters of a user grow by what
      the committed polls charge: the gains of every adapter counter in both
      directions since its last committed reading, nothing for a gain above
      the ceiling, the rest times the multiplier; under the ceiling and at
      multiplier one that telescopes to last reading less snapshot.  A poll
      writes each row once; rows and totals are the sums the source describes;
      multiplying by tenths is exact in doubles.
    - Cascades saved: a topology is accepted exactly when it is valid, in
      whatever order it is sent; folding gives hops that the old rules accept,
      but for one shape; a save keeps directions, tags and the credentials of
      legs that did not move (a REALITY leg its user, short id and the key pair
      of its node), closes every leg, gives every leg over a tunnel its own
      subnet and port, and a second save of the same changes nothing.
    - Cascades held: saves in sequence that mix no shapes keep live cascades
      apart; an update that carries hops to a cascade with a topology, or saves
      in parallel, need not.
    - Cascades carried: a configuration loads (its references resolve, its tags
      and listeners are apart); a tag leaves by the pools saved for its
      direction and by no other, at each node and through the whole cascade,
      drawn by xray or by the chain process; the gate lets a user take exactly
      the tags handed to it; a policy translated decides as the policy read.
      The journeys carry conditions, named in [CascadeJourney],
      [CascadeDelivery] and [ChainJourney]: drawn by xray, no QUIC and no
      policy that sends the connection elsewhere; drawn by the chain process,
      a tunnel under every awg leg, one REALITY pair among the vless legs into
      a node and no other leg beside them, and a single next node per direction
      where a transit cannot see the user.  What fails outside them is proved
      too.  A leg dialled over the internet finds its port opened, to its
      dialler alone, where the legs that ride tunnels have them.
    - Nodes: what is installed is what was chosen or pinned; a combination of
      engines or a version the gates name is refused, and with the field to
      blame; through any sequence of saves of bindings, hosts, cascades,
      profiles and nodes no binding shares a socket with another or with a
      cascade's listener (an edit of a profile's configuration, which asks
      nothing of cascades, only where it moves no binding onto one); a node
      shown as up to date has taken a request built after the last edit, a
      node that is behind has a push on the way unless it is one of two losses
      the queue allows, and the roster reaches it whole.
    - Users: a status is what the facts say after an edit; the crons end and
      renew exactly those due; where no two jobs of a user overlap and no edit
      writes over a status it has not read, an empty queue leaves every node
      with what the status asks.
    - Subscriptions: the bindings a user of one squad is offered are those the
      push serves, less the hidden hops and what the top N and the entry cap
      leave out, which is said exactly; where these leave an entry's bindings,
      the gate's tags are lines of the subscription, and a restricted user has
      only the directions named by squads that speak there; a line is dealt to
      one entry, names stay apart, tags are a round trip through the UUID; a
      cached answer is never older than the last change its request could know
      of; a rule runs as it reads, and the format is the one of the first rule
      that matches.
    - Addresses: CIDR arithmetic is division; a quiet allocation takes the
      lowest free address and reports exhaustion exactly; the constraints hold
      under any interleaving.
    - Geo files: reading ends on every buffer, inside its bounds; the index
      answers as xray's own scan; rule-sets hold exactly the values of the tag;
      addresses print as RFC 5952 and injectively.
    - Sign-in: base32 is a round trip in spite of int32 wrap-around; the code
      check finds the earliest step; codes are spent once in sequence; the lock
      is set by the n-th failure and holds.
    - Admission: a token is let in exactly when no sign-out or password change
      ended it; scopes confine and secrets are hidden at any depth; devices
      never exceed the ceiling under any interleaving; a trapped address is
      shut out from the trap's answer on, however requests overlap, when none
      of its own was under way; refused sign-ins are all accounted for within the cap; requests
      to addresses an operator typed stay public through every redirect.
    - Node geometry: minting ends and passes the table; concurrent callers end
      on one geometry.
    - Theorems and examples that show behaviour the source does not intend:
      [wide_balancer_refused], [mixed_shapes_escape_gate],
      [parallel_creates_share_node], [dead_cache_outlives_delete],
      [address_rule_takes_the_name], [rule_set_tag_shared],
      [blank_keeps_unspelled],
      [pool_behind_blind_transit], [second_sender_refused],
      [tunnelless_leg_shut_out] (cascades); [move_takes_tunnel_port],
      [retune_slips_through], [override_subnet_unseen], [transit_overclaims],
      [edit_falls_in_gap] (nodes); [late_request_outlives], [edit_races_expiry],
      [lift_ignores_date], [lift_revives_disabled] (users);
      [served_not_reached], [empty_entry_takes_place], [offered_line_refused], [auto_variant_outgrants],
      [line_lost_to_trojan], [alike_lines_stay], [escaped_capital_lost],
      [range_shrinks], [stale_load_outlives_bust] (subscriptions);
      [allocatePeer_same_user_race], [same_device_denied] (addresses and
      devices); [code_replayed_in_parallel], [long_mapped_form_is_public],
      [lowered_lifetime_revives], [nested_secret_lost], [unblocked_roads] (the
      admin surface).

    ** Bounds and fuel

    Fuel appears where the source loops without a structural bound, and never
    decides a result: the geo reader's fuel is the buffer length, each turn
    consumes a byte, and [parseGeoDat_total] excludes running out; the base32
    emitter's is the number of pending bits; the retry loop of the allocator,
    the four hops of a fetch and the levels of a label's refinement are the
    source's own bounds; the address test recurses at most once per seven
    characters; a free name is found within one try more than the names used;
    the header draws of [Awg3Geometry] and of [CascadeTunnel] are fuelled by
    the patience the randomness promises, of which four times is proved
    enough.

    ** What is not modelled

    HTTP parsing and answers, logging and metrics; Prisma and Redis beyond the
    calls used, which are atomic steps; platform cryptography (HMAC, bcrypt and
    digests are parameters, randomness is an interface); Unicode beyond what
    [Utf8] decodes (elsewhere a string is code units below 256, or UTF-8 bytes
    where the file says so); JSON numbers that are not integers.

    Of the backend: the life cycle of a node (mTLS to its agent, SSH bootstrap,
    certificates); the audit log, dashboards, notifications and webhooks, which
    read and report; listing, mapping and the plain create, read, update and
    delete of users, squads, hosts, profiles, presets and settings; the client
    formats of a subscription, its HTML page and its YAML templates, and the
    share links of the protocol adapters, which are text per client; downloads
    and pushes of geo files and recipes around the parts modelled; key
    generation and WARP, which are platform calls.  The tables and schemas of
    packages/shared are modelled where a modelled function reads them.  The
    frontend, the Go agent, the SQL schema and the deployment are other
    programs; what the code relies on of the schema (unique keys, foreign keys)
    is stated with each table. *)

From stdpp Require Export base list numbers option strings gmap sorting.
From Stdlib Require Export ZArith Lia.

(* ------------------------------------------------------------------ *)
(** ** Fallible code

    A function of the source that may throw returns a [result]: its value, or
    the exception.  The exception type is a parameter, each component has its
    own.  [x ← m; k] is stdpp's bind, as a [throw] leaves every later
    statement unexecuted. *)
Inductive result (E A : Type) : Type :=
  | Ok (a : A)
  | Throw (e : E).
Arguments Ok {E A} a.
Arguments Throw {E A} e.

#[global] Instance result_ret {E} : MRet (result E) := λ A a, Ok a.
#[global] Instance result_bind {E} : MBind (result E) := λ A B f m,
  match m with Ok a => f a | Throw e => Throw e end.
#[global] Instance result_fmap {E} : FMap (result E) := λ A B f m,
  match m with Ok a => Ok (f a) | Throw e => Throw e end.

#[global] Instance result_eq_dec {E A} `{EqDecision E, EqDecision A} :
  EqDecision (result E A).
Proof. solve_decision. Defined.

(** The outcome of a call that succeeded. *)
Definition is_ok {E A} (r : result E A) : Prop :=
  match r with Ok _ => True | Throw _ => False end.

(** [if (b) throw e;] *)
Definition throw_if {E} (b : bool) (e : E) : result E unit :=
  if b then Throw e else Ok tt.

(** [xs.forEach((x) => ...)] where the body may throw. *)
Fixpoint for_each {E A} (f : A → result E unit) (xs : list A) : result E unit :=
  match xs with
  | [] => Ok tt
  | x :: xs => f x ≫= λ _, for_each f xs
  end.

(** The same loop threading an accumulator the body assigns to. *)
Fixpoint fold_res {E S A} (f : S → A → result E S) (s : S) (xs : list A) : result E S :=
  match xs with
  | [] => Ok s
  | x :: xs => f s x ≫= λ s, fold_res f s xs
  end.

(** [xs.map(f)] where [f] may throw. *)
Fixpoint map_res {E A B} (f : A → result E B) (xs : list A) : result E (list B) :=
  match xs with
  | [] => Ok []
  | x :: xs => y ← f x; ys ← map_res f xs; Ok (y :: ys)
  end.

(* ------------------------------------------------------------------ *)
(** ** Arrays

    [Array.prototype.sort] is stable (ES2019).  [sort_by leb] is the stable
    insertion sort for the comparator whose [cmp(a, b) <= 0] is [leb a b]. *)
Section SortBy.
Context {A : Type} (leb : A → A → bool).

Fixpoint insert_by (x : A) (l : list A) : list A :=
  match l with
  | [] => [x]
  | y :: l' => if leb x y then x :: y :: l' else y :: insert_by x l'
  end.

Definition sort_by (l : list A) : list A := foldr insert_by [] l.

Lemma insert_by_perm x l : insert_by x l ≡ₚ x :: l.
Proof.
  induction l as [|y l IH]; simpl; [done|].
  destruct (leb x y); [done|]. rewrite IH. apply Permutation_swap.
Qed.

Lemma sort_by_perm l : sort_by l ≡ₚ l.
Proof. induction l as [|x l IH]; simpl; [done|]. by rewrite insert_by_perm, IH. Qed.

Lemma sort_by_length l : length (sort_by l) = length l.
Proof. by rewrite sort_by_perm. Qed.

Lemma elem_of_sort_by x l : x ∈ sort_by l ↔ x ∈ l.
Proof. by rewrite sort_by_perm. Qed.

Hypothesis leb_total : ∀ x y, leb x y = false → leb y x = true.
Hypothesis leb_trans : ∀ x y z, leb x y = true → leb y z = true → leb x z = true.

Lemma insert_by_sorted x l :
  StronglySorted (λ a b, leb a b = true) l →
  StronglySorted (λ a b, leb a b = true) (insert_by x l).
Proof.
  induction 1 as [|y l Hl IH Hy]; simpl.
  - repeat constructor.
  - destruct (leb x y) eqn:Exy.
    + constructor; [by constructor|]. constructor; [done|].
      eapply Forall_impl; [exact Hy|]. intros z Hz. by eapply leb_trans.
    + constructor; [done|]. rewrite insert_by_perm. constructor; auto.
Qed.

Lemma sort_by_sorted l : StronglySorted (λ a b, leb a b = true) (sort_by l).
Proof. induction l; simpl; [constructor|]. by apply insert_by_sorted. Qed.

Lemma sort_by_sorted_id l :
  StronglySorted (λ a b, leb a b = true) l → sort_by l = l.
Proof.
  induction 1 as [|x l Hl IH Hx]; simpl; [done|]. rewrite IH.
  destruct Hx as [|y l Hxy Hx]; simpl; [done|]. by rewrite Hxy.
Qed.
End SortBy.

(* ------------------------------------------------------------------ *)
(** ** Map and Set

    A JavaScript [Map] iterates in insertion order, and writing an existing
    key keeps its place.  It is modelled as the association list of its
    entries; [jm_set] on a map built from [[]] keeps the keys distinct. *)
Section JsMap.
Context {K V : Type} `{EqDecision K}.

Fixpoint jm_get (k : K) (m : list (K * V)) : option V :=
  match m with
  | [] => None
  | (k', v) :: m => if decide (k = k') then Some v else jm_get k m
  end.

Fixpoint jm_set (k : K) (v : V) (m : list (K * V)) : list (K * V) :=
  match m with
  | [] => [(k, v)]
  | (k', v') :: m => if decide (k = k') then (k', v) :: m else (k', v') :: jm_set k v m
  end.

Definition jm_keys (m : list (K * V)) : list K := m.*1.
Definition jm_wf (m : list (K * V)) : Prop := NoDup (jm_keys m).

Lemma jm_get_set_eq k v m : jm_get k (jm_set k v m) = Some v.
Proof.
  induction m as [|[k' v'] m IH]; simpl; [by rewrite decide_True|].
  destruct (decide (k = k')); simpl; [by rewrite decide_True|by rewrite decide_False].
Qed.

Lemma jm_get_set_ne k k' v m : k ≠ k' → jm_get k (jm_set k' v m) = jm_get k m.
Proof.
  intros Hne. induction m as [|[k'' v''] m IH]; simpl; [by rewrite decide_False|].
  destruct (decide (k' = k'')) as [<-|]; simpl.
  - by rewrite !decide_False.
  - by rewrite IH.
Qed.

Lemma jm_get_set k k' v m :
  jm_get k (jm_set k' v m) = if decide (k = k') then Some v else jm_get k m.
Proof.
  case_decide; [subst; apply jm_get_set_eq | by apply jm_get_set_ne].
Qed.

Lemma elem_of_jm_keys_set k k' v m : k ∈ jm_keys (jm_set k' v m) ↔ k = k' ∨ k ∈ jm_keys m.
Proof.
  unfold jm_keys. induction m as [|[k'' v''] m IH]; simpl.
  - rewrite elem_of_cons. tauto.
  - destruct (decide (k' = k'')) as [<-|]; simpl; rewrite !elem_of_cons, ?IH; tauto.
Qed.

Lemma jm_wf_nil : jm_wf [].
Proof. constructor. Qed.

Lemma jm_wf_set k v m : jm_wf m → jm_wf (jm_set k v m).
Proof.
  unfold jm_wf. induction m as [|[k' v'] m IH]; simpl; intros Hwf.
  - apply NoDup_singleton.
  - apply NoDup_cons in Hwf as [Hni Hwf].
    destruct (decide (k = k')) as [<-|]; simpl; [by constructor|].
    constructor; [|by apply IH].
    intros Hin. apply (elem_of_jm_keys_set k' k v m) in Hin. naive_solver.
Qed.

Lemma jm_get_Some_elem k v m : jm_get k m = Some v → (k, v) ∈ m.
Proof.
  induction m as [|[k' v'] m IH]; simpl; [done|].
  case_decide; intros; simplify_eq; set_solver.
Qed.

Lemma jm_elem_get k v m : jm_wf m → (k, v) ∈ m → jm_get k m = Some v.
Proof.
  unfold jm_wf. induction m as [|[k' v'] m IH]; simpl; [set_solver|].
  intros Hwf Hin. apply NoDup_cons in Hwf as [Hni Hwf].
  apply elem_of_cons in Hin as [Heq|Hin]; [simplify_eq; by rewrite decide_True|].
  rewrite decide_False; [by apply IH|]. intros ->.
  apply Hni, list_elem_of_fmap. by exists (k', v).
Qed.

(** The entries of one key are the one [jm_get] finds. *)
Lemma jm_filter_key k m : jm_wf m →
  filter (λ kv, kv.1 = k) m = match jm_get k m with Some v => [(k, v)] | None => [] end.
Proof.
  unfold jm_wf. induction m as [|[k' v] m IH]; [done|]. intros Hwf. apply NoDup_cons in Hwf as [Hni Hwf].
  rewrite filter_cons. simpl. rewrite IH by done. destruct (decide (k = k')) as [->|Hne].
  - rewrite decide_True by done. f_equal.
    destruct (jm_get k' m) eqn:E; [|done]. apply jm_get_Some_elem in E.
    exfalso. apply Hni. by apply (list_elem_of_fmap_2 fst) in E.
  - by rewrite decide_False by congruence.
Qed.

Lemma jm_get_None k m : jm_get k m = None ↔ k ∉ jm_keys m.
Proof.
  unfold jm_keys. induction m as [|[k' v'] m IH]; simpl.
  - split; [intros _; apply not_elem_of_nil|done].
  - rewrite not_elem_of_cons, <-IH. case_decide; naive_solver.
Qed.

Lemma jm_get_is_Some k m : is_Some (jm_get k m) ↔ k ∈ jm_keys m.
Proof.
  destruct (jm_get k m) eqn:E.
  - split; [intros _|by eauto]. apply jm_get_Some_elem in E.
    apply list_elem_of_fmap. by eexists (_, _).
  - apply jm_get_None in E. split; [by intros []|done].
Qed.
End JsMap.

Lemma jm_get_map {K V W} `{EqDecision K} (f : V → W) (m : list (K * V)) k :
  jm_get k ((λ kv : K * V, (kv.1, f kv.2)) <$> m) = f <$> jm_get k m.
Proof. induction m as [|[k' v] m IH]; [done|]. cbn. by case_decide. Qed.

(** Grouping: each [x] updates the entry of its key, created from [d x]. *)
Section Grouping.
Context {K V X : Type} `{EqDecision K} (key : X → K) (d : X → V) (op : V → X → V).

Definition group_add (m : list (K * V)) (x : X) : list (K * V) :=
  jm_set (key x) (op (default (d x) (jm_get (key x) m)) x) m.

Definition group_value (l : list X) : option V :=
  match l with [] => None | x :: l => Some (foldl op (d x) (x :: l)) end.

Lemma group_value_snoc l x : group_value (l ++ [x]) = Some (op (default (d x) (group_value l)) x).
Proof. destruct l as [|y l]; [done|]. simpl. by rewrite foldl_app. Qed.

Lemma jm_get_group k xs :
  jm_get k (foldl group_add [] xs) = group_value (filter (λ x, key x = k) xs).
Proof.
  induction xs as [|x xs IH] using rev_ind; [done|].
  rewrite foldl_app, filter_app. simpl. unfold group_add at 1. rewrite jm_get_set.
  rewrite filter_cons, filter_nil. destruct (decide (k = key x)) as [->|Hne].
  - rewrite decide_True by done. rewrite group_value_snoc, IH. done.
  - rewrite decide_False by done. by rewrite app_nil_r.
Qed.

Lemma jm_wf_group xs : jm_wf (foldl group_add [] xs).
Proof.
  induction xs as [|x xs IH] using rev_ind; [apply jm_wf_nil|].
  rewrite foldl_app. by apply jm_wf_set.
Qed.
End Grouping.

(** [[...new Set(xs)]]: the first occurrence of each element, in order. *)
Section JsSet.
Context {A : Type} `{EqDecision A}.

Fixpoint uniq_acc (seen xs : list A) : list A :=
  match xs with
  | [] => []
  | x :: xs => if decide (x ∈ seen) then uniq_acc seen xs else x :: uniq_acc (x :: seen) xs
  end.

Definition js_uniq (xs : list A) : list A := uniq_acc [] xs.

Lemma elem_of_uniq_acc seen xs x : x ∈ uniq_acc seen xs ↔ x ∈ xs ∧ x ∉ seen.
Proof.
  revert seen. induction xs as [|y xs IH]; intros seen; simpl; [set_solver|].
  case_decide.
  - rewrite IH. set_solver.
  - rewrite elem_of_cons, IH. destruct (decide (x = y)); set_solver.
Qed.

Lemma elem_of_js_uniq xs x : x ∈ js_uniq xs ↔ x ∈ xs.
Proof. unfold js_uniq. rewrite elem_of_uniq_acc. set_solver. Qed.

Lemma NoDup_uniq_acc seen xs : NoDup (uniq_acc seen xs).
Proof.
  revert seen. induction xs as [|y xs IH]; intros seen; simpl; [constructor|].
  case_decide; [apply IH|]. constructor; [|apply IH]. rewrite elem_of_uniq_acc. set_solver.
Qed.

Lemma NoDup_js_uniq xs : NoDup (js_uniq xs).
Proof. apply NoDup_uniq_acc. Qed.

Lemma uniq_acc_NoDup seen xs : NoDup xs → (∀ x, x ∈ xs → x ∉ seen) → uniq_acc seen xs = xs.
Proof.
  revert seen. induction xs as [|y xs IH]; intros seen Hnd Hs; simpl; [done|].
  apply NoDup_cons in Hnd as [Hy Hnd]. rewrite decide_False by (apply Hs; set_solver).
  f_equal. apply IH; [done|]. intros x Hx. apply not_elem_of_cons.
  split; [by intros ->|apply Hs; set_solver].
Qed.

Lemma js_uniq_NoDup xs : NoDup xs → js_uniq xs = xs.
Proof. intros. apply uniq_acc_NoDup; [done|set_solver]. Qed.

Lemma uniq_acc_length seen xs : length (uniq_acc seen xs) ≤ length xs.
Proof.
  revert seen. induction xs as [|y xs IH]; intros seen; simpl; [done|].
  case_decide; simpl; [etrans; [apply IH|lia] | specialize (IH (y :: seen)); lia].
Qed.

(** [new Set(xs).size === xs.length], the source's duplicate test. *)
Lemma js_uniq_length_NoDup xs : length (js_uniq xs) = length xs ↔ NoDup xs.
Proof.
  split; [|intros Hnd; by rewrite js_uniq_NoDup].
  unfold js_uniq. assert (∀ seen, length (uniq_acc seen xs) = length xs →
    NoDup xs ∧ ∀ x, x ∈ xs → x ∉ seen) as H; [|by intros; apply (H [])].
  induction xs as [|y xs IH]; intros seen; simpl; [split; [constructor|set_solver]|].
  case_decide; simpl; intros Hlen.
  - pose proof (uniq_acc_length seen xs). lia.
  - destruct (IH (y :: seen)) as [Hnd Hd]; [lia|]. split.
    + constructor; [|done]. intros Hin. apply Hd in Hin. set_solver.
    + intros x [->|Hx]%elem_of_cons; [done|]. apply Hd in Hx. set_solver.
Qed.
End JsSet.

(** [xs.find(f)]. *)
Fixpoint js_find {A} (f : A → bool) (xs : list A) : option A :=
  match xs with
  | [] => None
  | x :: xs => if f x then Some x else js_find f xs
  end.

Lemma js_find_app {A} (f : A → bool) xs ys :
  js_find f (xs ++ ys) = match js_find f xs with Some x => Some x | None => js_find f ys end.
Proof. induction xs as [|x xs IH]; simpl; [done|]. by destruct (f x). Qed.

Lemma js_find_Some {A} (f : A → bool) xs x : js_find f xs = Some x → x ∈ xs ∧ f x = true.
Proof.
  induction xs as [|y xs IH]; simpl; [done|]. destruct (f y) eqn:E; [|set_solver].
  intros [= <-]. set_solver.
Qed.

Lemma js_find_elem {A} (f : A → bool) xs x : js_find f xs = Some x → x ∈ xs.
Proof. intros H. by apply js_find_Some in H as [? _]. Qed.

Lemma js_find_None {A} (f : A → bool) xs : js_find f xs = None ↔ ∀ x, x ∈ xs → f x = false.
Proof.
  induction xs as [|y xs IH]; simpl; [set_solver|]. destruct (f y) eqn:E.
  - split; [done|]. intros H. rewrite H in E by set_solver. done.
  - rewrite IH. setoid_rewrite elem_of_cons. naive_solver.
Qed.

(** [set.add(x)] on an insertion-ordered set. *)
Definition set_add {A} `{EqDecision A} (x : A) (s : list A) : list A :=
  if decide (x ∈ s) then s else s ++ [x].

Lemma elem_of_set_add {A} `{EqDecision A} (x y : A) s : y ∈ set_add x s ↔ y = x ∨ y ∈ s.
Proof. unfold set_add. case_decide; set_solver. Qed.

Lemma NoDup_set_add {A} `{EqDecision A} (x : A) s : NoDup s → NoDup (set_add x s).
Proof.
  unfold set_add. intros. case_decide; [done|]. apply NoDup_app. split; [done|].
  split; [set_solver|apply NoDup_singleton].
Qed.

(** Adding to a [Set] one by one is [js_uniq]. *)
Lemma foldl_set_add_uniq {A} `{EqDecision A} (seen acc xs : list A) :
  (∀ x, x ∈ seen ↔ x ∈ acc) → foldl (λ s x, set_add x s) acc xs = acc ++ uniq_acc seen xs.
Proof.
  revert seen acc. induction xs as [|x xs IH]; intros seen acc Hs; simpl; [by rewrite app_nil_r|].
  unfold set_add at 2. rewrite (decide_ext (x ∈ seen) (x ∈ acc) _ _ (Hs x)).
  case_decide; [by apply IH|]. rewrite (IH (x :: seen)) by set_solver. by rewrite <-app_assoc.
Qed.

Lemma foldl_set_add {A} `{EqDecision A} (xs : list A) :
  foldl (λ s x, set_add x s) [] xs = js_uniq xs.
Proof. by rewrite (foldl_set_add_uniq [] []). Qed.

(* ------------------------------------------------------------------ *)
(** ** Sums *)
Definition sumZ (l : list Z) : Z := foldr Z.add 0%Z l.

Lemma sumZ_cons x l : sumZ (x :: l) = (x + sumZ l)%Z.
Proof. done. Qed.

Lemma sumZ_app l1 l2 : sumZ (l1 ++ l2) = (sumZ l1 + sumZ l2)%Z.
Proof. induction l1; simpl; lia. Qed.

#[global] Instance sumZ_perm : Proper ((≡ₚ) ==> eq) sumZ.
Proof. induction 1; simpl; lia. Qed.

Lemma sumZ_nonneg l : Forall (λ x, 0 ≤ x)%Z l → (0 ≤ sumZ l)%Z.
Proof. induction 1; simpl; lia. Qed.

(* ------------------------------------------------------------------ *)
(** ** Lists *)
(** Elements are told apart by a key no two share. *)
Lemma NoDup_fmap_elem {A B} (f : A → B) l x y : NoDup (f <$> l) → x ∈ l → y ∈ l → f x = f y → x = y.
Proof.
  intros Hnd (i & Hi)%list_elem_of_lookup (j & Hj)%list_elem_of_lookup E.
  assert (i = j) as ->; [|congruence]. eapply NoDup_lookup; [exact Hnd| |].
  - by rewrite list_lookup_fmap, Hi.
  - rewrite list_lookup_fmap, Hj. simpl. by rewrite E.
Qed.

Lemma NoDup_fmap_filter {A B} (f : A → B) (P : A → Prop) `{∀ x, Decision (P x)} l :
  NoDup (f <$> l) → NoDup (f <$> filter P l).
Proof.
  induction l as [|x l IH]; [done|].
  rewrite fmap_cons, NoDup_cons. intros [Hx Hnd].
  rewrite filter_cons. case_decide; [|auto]. rewrite fmap_cons. constructor; [|auto].
  intros (y & E & Hy)%list_elem_of_fmap. apply list_elem_of_filter in Hy as [_ Hy].
  apply Hx, list_elem_of_fmap. eauto.
Qed.

Lemma Forall_filter_l {A} (P Q : A → Prop) `{∀ x, Decision (Q x)} l :
  Forall P l → Forall P (filter Q l).
Proof.
  rewrite !Forall_forall. intros HP x [_ Hx]%list_elem_of_filter. auto.
Qed.

Lemma filter_same_in {A} (P Q : A → Prop) `{∀ x, Decision (P x), ∀ x, Decision (Q x)} (l : list A) :
  (∀ x, x ∈ l → P x ↔ Q x) → filter P l = filter Q l.
Proof.
  induction l as [|x l IH]; intros Hl; [done|]. rewrite !filter_cons.
  rewrite IH by set_solver. apply decide_ext. apply Hl. set_solver.
Qed.

Lemma filter_map {A B} (f : A → B) (P : B → Prop) `{∀ y, Decision (P y)} (l : list A) :
  filter P (f <$> l) = f <$> filter (λ x, P (f x)) l.
Proof.
  induction l as [|x l IH]; [done|]. csimpl. rewrite !filter_cons, IH.
  by destruct (decide (P (f x))).
Qed.

Lemma filter_split_length {A} (P : A → Prop) `{∀ x, Decision (P x)} l :
  length l = (length (filter P l) + length (filter (λ x, ¬ P x) l))%nat.
Proof.
  induction l as [|x l IH]; [done|].
  rewrite !filter_cons. repeat case_decide; simpl; try lia; tauto.
Qed.

Lemma filter_none {A} (P : A → Prop) `{∀ x, Decision (P x)} l : (∀ x, x ∈ l → ¬ P x) → filter P l = [].
Proof.
  induction l as [|x l IH]; intros Hl; [done|]. rewrite filter_cons, decide_False by (apply Hl; by left).
  apply IH. intros y Hy. apply Hl. by right.
Qed.

(** The one element of a key, where keys are distinct. *)
Lemma filter_key {A B} `{EqDecision B} (f : A → B) l x : NoDup (f <$> l) → x ∈ l → filter (λ y, f y = f x) l = [x].
Proof.
  induction l as [|y l IH]; intros Hnd Hx; [by apply not_elem_of_nil in Hx|].
  rewrite fmap_cons in Hnd. apply NoDup_cons in Hnd as [Hni Hnd]. rewrite filter_cons.
  apply elem_of_cons in Hx as [->|Hx].
  - rewrite decide_True by done. f_equal. apply filter_none. intros z Hz E. apply Hni.
    rewrite <-E. by apply list_elem_of_fmap_2.
  - rewrite decide_False; [by apply IH|]. intros E. apply Hni. rewrite E. by apply list_elem_of_fmap_2.
Qed.

Lemma filter_full {A} (P : A → Prop) `{∀ x, Decision (P x)} l :
  length (filter P l) = length l ↔ Forall P l.
Proof.
  induction l as [|x l IH]; [by split|]. rewrite filter_cons, Forall_cons, <-IH.
  pose proof (length_filter P l). case_decide; simpl; intuition lia.
Qed.

Lemma head_None {A} (l : list A) : head l = None → l = [].
Proof. by destruct l. Qed.

(* ------------------------------------------------------------------ *)
(** ** Reasoning about [result] *)
Lemma bind_ok {E A B} (m : result E A) (f : A → result E B) b :
  m ≫= f = Ok b ↔ ∃ a, m = Ok a ∧ f a = Ok b.
Proof. destruct m; simpl; naive_solver. Qed.

Lemma bind_cong {E A B} (m : result E A) (f g : A → result E B) :
  (∀ a, f a = g a) → m ≫= f = m ≫= g.
Proof. intros H. destruct m; simpl; [apply H|done]. Qed.

(** A statement for its checks alone. *)
Lemma bind_unit_ok {E B} (m : result E unit) (k : result E B) b :
  (m ≫= λ _, k) = Ok b ↔ m = Ok tt ∧ k = Ok b.
Proof. destruct m as [[]|]; simpl; naive_solver. Qed.

Lemma bind_throw {E A B} (m : result E A) (f : A → result E B) e :
  m ≫= f = Throw e ↔ m = Throw e ∨ ∃ a, m = Ok a ∧ f a = Throw e.
Proof. destruct m; simpl; naive_solver. Qed.

Lemma throw_if_ok {E} (b : bool) (e : E) u : throw_if b e = Ok u ↔ b = false.
Proof. unfold throw_if. destruct b, u; naive_solver. Qed.

Lemma for_each_ok {E A} (f : A → result E unit) xs u :
  for_each f xs = Ok u ↔ Forall (λ x, f x = Ok tt) xs.
Proof.
  destruct u. induction xs as [|x xs IH]; simpl; [by split; [constructor|]|].
  rewrite Forall_cons, bind_ok. split.
  - intros ([] & ? & ?). by rewrite <-IH.
  - intros [??]. exists tt. by rewrite IH.
Qed.

Lemma map_res_ok {E A B} (f : A → result E B) xs ys :
  map_res f xs = Ok ys ↔ Forall2 (λ x y, f x = Ok y) xs ys.
Proof.
  revert ys. induction xs as [|x xs IH]; intros ys; simpl.
  - split; [intros; simplify_eq; constructor|by inversion 1].
  - rewrite bind_ok. setoid_rewrite bind_ok. split.
    + intros (y & ? & ys' & ? & ?); simplify_eq. constructor; [done|]. by apply IH.
    + inversion 1; subst. eexists; split; [done|]. eexists; split; [by apply IH|done].
Qed.

Lemma ok_bind {E A B} (a : A) (f : A → result E B) : (Ok a : result E A) ≫= f = f a.
Proof. done. Qed.

Lemma map_res_pure {E A B} (f : A → result E B) (g : A → B) xs :
  (∀ x, x ∈ xs → f x = Ok (g x)) → map_res f xs = Ok (g <$> xs).
Proof.
  induction xs as [|x xs IH]; intros H; [done|]. cbn [map_res]. rewrite H by set_solver.
  unfold mbind, result_bind. rewrite IH by set_solver. reflexivity.
Qed.

Lemma join_map {A B} (f : A → list B) xs : mjoin (f <$> xs) = xs ≫= f.
Proof. induction xs as [|x xs IH]; [done|]. cbn. f_equal. apply IH. Qed.

Lemma bind_index {A B} (f : A → list B) l i j x y n :
  NoDup (l ≫= f) → l !! i = Some x → l !! j = Some y → n ∈ f x → n ∈ f y → i = j.
Proof.
  revert i j. induction l as [|z l IH]; intros i j Hnd Hi Hj Hx Hy; [done|].
  assert (∀ k w, l !! k = Some w → n ∈ f w → n ∈ l ≫= f) as Hin.
  { intros k w Hk Hw. apply list_elem_of_bind. exists w. split; [done|by eapply list_elem_of_lookup_2]. }
  cbn [mbind list_bind] in Hnd. apply NoDup_app in Hnd as (_ & Hd & Hnd).
  destruct i as [|i], j as [|j]; simpl in Hi, Hj; simplify_eq; [done|exfalso..|].
  - by apply (Hd n Hx), (Hin j y).
  - by apply (Hd n Hy), (Hin i x).
  - f_equal. by eapply IH.
Qed.

(** Each element of a related list has its partner. *)
Lemma Forall2_elem_r {A B} (P : A → B → Prop) xs ys y :
  Forall2 P xs ys → y ∈ ys → ∃ x, x ∈ xs ∧ P x y.
Proof. induction 1; set_solver. Qed.

Lemma Forall2_elem_l {A B} (P : A → B → Prop) xs ys x :
  Forall2 P xs ys → x ∈ xs → ∃ y, y ∈ ys ∧ P x y.
Proof. induction 1; set_solver. Qed.

Lemma fold_res_app {E S A} (f : S → A → result E S) s xs ys :
  fold_res f s (xs ++ ys) = fold_res f s xs ≫= λ s', fold_res f s' ys.
Proof.
  revert s. induction xs as [|x xs IH]; intros s; simpl; [done|].
  destruct (f s x); simpl; auto.
Qed.

(** An invariant of the accumulator holds at the end of the loop. *)
Lemma fold_res_ind {E S A} (P : S → Prop) (f : S → A → result E S) xs s s' :
  P s → (∀ s x s', x ∈ xs → P s → f s x = Ok s' → P s') → fold_res f s xs = Ok s' → P s'.
Proof.
  revert s. induction xs as [|x xs IH]; intros s Hs Hstep; simpl; [naive_solver|].
  intros (s1 & H1 & H2)%bind_ok. eapply IH; [| |exact H2].
  - eapply Hstep; [|done|done]. set_solver.
  - intros ????. apply Hstep. set_solver.
Qed.

(* ------------------------------------------------------------------ *)
(** ** Automation

    [inv_ok] takes a successful run of a [result] program apart into the
    successes of its statements. *)
Ltac inv_ok :=
  repeat match goal with
  | H : Ok _ = Ok _ |- _ => injection H; clear H; intros; subst
  | H : Throw _ = Ok _ |- _ => discriminate H
  | H : Ok _ = Throw _ |- _ => discriminate H
  | H : (_ ≫= _) = Ok _ |- _ => apply bind_ok in H; destruct H as (? & ? & ?)
  | H : throw_if _ _ = Ok _ |- _ => apply throw_if_ok in H
  | H : for_each _ _ = Ok _ |- _ => apply for_each_ok in H
  | H : (if ?b then _ else _) = Ok _ |- _ => let E := fresh "E" in destruct b eqn:E
  end.

(** Booleans of the source read as propositions. *)
Ltac bool_prop :=
  repeat match goal with
  | H : _ && _ = true |- _ => apply andb_true_iff in H; destruct H
  | H : _ || _ = false |- _ => apply orb_false_iff in H; destruct H
  | H : negb _ = true |- _ => apply negb_true_iff in H
  | H : negb _ = false |- _ => apply negb_false_iff in H
  | H : bool_decide _ = true |- _ => apply bool_decide_eq_true in H
  | H : bool_decide _ = false |- _ => apply bool_decide_eq_false in H
  | H : (_ =? _)%Z = true |- _ => apply Z.eqb_eq in H
  | H : (_ =? _)%Z = false |- _ => apply Z.eqb_neq in H
  | H : (_ <? _)%Z = true |- _ => apply Z.ltb_lt in H
  | H : (_ <? _)%Z = false |- _ => apply Z.ltb_ge in H
  | H : (_ <=? _)%Z = true |- _ => apply Z.leb_le in H
  | H : (_ <=? _)%Z = false |- _ => apply Z.leb_gt in H
  | H : (_ =? _)%nat = true |- _ => apply Nat.eqb_eq in H
  | H : (_ =? _)%nat = false |- _ => apply Nat.eqb_neq in H
  | H : (_ <? _)%nat = true |- _ => apply Nat.ltb_lt in H
  | H : (_ <? _)%nat = false |- _ => apply Nat.ltb_ge in H
  end.

Create HintDb iceslab discriminated.
#[export] Hint Resolve jm_wf_nil jm_wf_set NoDup_js_uniq : iceslab.
#[export] Hint Resolve sumZ_nonneg : iceslab.
