(* ===== verification/Js.v ===== *)
(** The part of JavaScript the panel's code relies on: numbers as IEEE-754
    doubles, the 32-bit bitwise operators, [Number(string)], [Math.round], and
    the string operations.

    - A number whose value is known to be an integer below 2^53 in absolute
      value is a [Z]; [fl_round] is the rounding an integer-valued sum or
      product undergoes past that.
    - A number that may be fractional is a [spec_float] of the Standard
      Library (binary64 is [53], [1024]), so rounding is IEEE's.
    - A string is a [string]; every character is one UTF-16 code unit below
      256.  [GeoDat] decodes UTF-8 and uses lists of code units instead. *)

From Stdlib Require Export SpecFloat Ascii String.
From stdpp Require Export strings pretty.
From S2P Require Export Prelude.

Open Scope list_scope.
Local Open Scope Z_scope.

(** ** 32-bit operators *)
Definition to_u32 (z : Z) : Z := z mod 2 ^ 32.
Definition to_i32 (z : Z) : Z :=
  let m := z mod 2 ^ 32 in if m <? 2 ^ 31 then m else m - 2 ^ 32.

(** [a << n], [a >>> n], [a & b], [a | b], [~a], [a ^ b], [Math.imul]. *)
Definition js_shl (a n : Z) : Z := to_i32 (Z.shiftl (to_i32 a) (n mod 32)).
Definition js_ushr (a n : Z) : Z := Z.shiftr (to_u32 a) (n mod 32).
Definition js_and (a b : Z) : Z := Z.land (to_i32 a) (to_i32 b).
Definition js_or (a b : Z) : Z := Z.lor (to_i32 a) (to_i32 b).
Definition js_xor (a b : Z) : Z := Z.lxor (to_i32 a) (to_i32 b).
Definition js_not (a : Z) : Z := Z.lnot (to_i32 a).
Definition js_imul (a b : Z) : Z := to_i32 (a * b).

(** ** Integer-valued doubles *)

(** The double nearest to an integer, ties to even. *)
Definition fl_round (z : Z) : Z :=
  let a := Z.abs z in
  if a <? 2 ^ 53 then z
  else
    let e := Z.log2 a - 52 in
    let q := a / 2 ^ e in
    let r := a mod 2 ^ e in
    let half := 2 ^ (e - 1) in
    let up := (half <? r) || ((r =? half) && Z.odd q) in
    Z.sgn z * ((if up then q + 1 else q) * 2 ^ e).

Definition fl_add (a b : Z) : Z := fl_round (a + b).
Definition fl_mul (a b : Z) : Z := fl_round (a * b).

(** ** [Number(string)] *)
Definition is_ws (c : ascii) : bool :=
  let n := Ascii.nat_of_ascii c in
  ((9 <=? n) && (n <=? 13) || (n =? 32) || (n =? 160))%nat.

Fixpoint drop_ws (l : list ascii) : list ascii :=
  match l with
  | c :: l' => if is_ws c then drop_ws l' else l
  | [] => []
  end.

Definition trim_chars (l : list ascii) : list ascii := reverse (drop_ws (reverse (drop_ws l))).

(** [s.trim()]. *)
Definition js_trim (s : string) : string := string_of_list_ascii (trim_chars (list_ascii_of_string s)).

Definition digit_of (c : ascii) : option Z :=
  let n := Z.of_nat (Ascii.nat_of_ascii c) in
  if (48 <=? n) && (n <=? 57) then Some (n - 48)
  else if (97 <=? n) && (n <=? 122) then Some (n - 87)
  else if (65 <=? n) && (n <=? 90) then Some (n - 55)
  else None.

Definition base_digit (base : Z) (c : ascii) : option Z :=
  match digit_of c with
  | Some d => if d <? base then Some d else None
  | None => None
  end.

(** A longest prefix of digits: its value after [acc], its length after
    [cnt], and what follows it. *)
Fixpoint take_digits (base acc cnt : Z) (l : list ascii) : Z * Z * list ascii :=
  match l with
  | c :: l' =>
      match base_digit base c with
      | Some d => take_digits base (acc * base + d) (cnt + 1) l'
      | None => (acc, cnt, l)
      end
  | [] => (acc, cnt, [])
  end.

Definition all_digits (base : Z) (l : list ascii) : option Z :=
  let '(v, n, rest) := take_digits base 0 0 l in
  if (0 <? n) && bool_decide (rest = []) then Some v else None.

(** [±m · 10^e] correctly rounded. *)
Definition sf_of_decimal (neg : bool) (m e : Z) : spec_float :=
  match m with
  | Zpos p =>
      if 0 <=? e then binary_normalize 53 1024 ((if neg then -1 else 1) * (m * 10 ^ e)) 0 neg
      else SFdiv 53 1024 (S754_finite neg p 0) (S754_finite false (Z.to_pos (10 ^ (- e))) 0)
  | _ => S754_zero neg
  end.

Definition parse_exp (l : list ascii) : option Z :=
  match l with
  | [] => Some 0
  | ("e" | "E")%char :: l' =>
      match l' with
      | "+"%char :: l'' => all_digits 10 l''
      | "-"%char :: l'' => Z.opp <$> all_digits 10 l''
      | _ => all_digits 10 l'
      end
  | _ => None
  end.

Definition parse_decimal (neg : bool) (l : list ascii) : spec_float :=
  if bool_decide (l = list_ascii_of_string "Infinity") then S754_infinity neg else
  let '(i, ni, r1) := take_digits 10 0 0 l in
  let '(f, nf, r2) :=
    match r1 with "."%char :: r => take_digits 10 i 0 r | _ => (i, 0, r1) end in
  if ni + nf =? 0 then S754_nan
  else match parse_exp r2 with
       | Some e => sf_of_decimal neg f (e - nf)
       | None => S754_nan
       end.

Definition sf_of_digits (base : Z) (l : list ascii) : spec_float :=
  match all_digits base l with
  | Some v => binary_normalize 53 1024 v 0 false
  | None => S754_nan
  end.

Definition js_Number (s : string) : spec_float :=
  match trim_chars (list_ascii_of_string s) with
  | [] => S754_zero false
  | "0"%char :: ("x" | "X")%char :: l => sf_of_digits 16 l
  | "0"%char :: ("o" | "O")%char :: l => sf_of_digits 8 l
  | "0"%char :: ("b" | "B")%char :: l => sf_of_digits 2 l
  | "+"%char :: l => parse_decimal false l
  | "-"%char :: l => parse_decimal true l
  | l => parse_decimal false l
  end.

(** [Number.isInteger(x)], with the integer. *)
Definition sf_to_int (x : spec_float) : option Z :=
  match x with
  | S754_zero _ => Some 0
  | S754_finite s m e =>
      let v := if s then Zneg m else Zpos m in
      if 0 <=? e then Some (v * 2 ^ e)
      else if v mod 2 ^ (- e) =? 0 then Some (v / 2 ^ (- e)) else None
  | _ => None
  end.

(** [Math.round(x)] of a finite [x]: the nearest integer, ties upwards. *)
Definition js_round (x : spec_float) : option Z :=
  match x with
  | S754_zero _ => Some 0
  | S754_finite s m e =>
      let v := if s then Zneg m else Zpos m in
      if 0 <=? e then Some (v * 2 ^ e)
      else Some ((2 * v + 2 ^ (- e)) / 2 ^ (1 - e))
  | _ => None
  end.

Definition sf_of_Z (z : Z) : spec_float := binary_normalize 53 1024 z 0 false.

(** ** Strings *)

(** [s.split(c)]. *)
Fixpoint split_chars (c : ascii) (cur : list ascii) (l : list ascii) : list (list ascii) :=
  match l with
  | [] => [reverse cur]
  | d :: l' => if decide (d = c) then reverse cur :: split_chars c [] l' else split_chars c (d :: cur) l'
  end.

Definition js_split (c : ascii) (s : string) : list string :=
  string_of_list_ascii <$> split_chars c [] (list_ascii_of_string s).

(** [xs.join(sep)]. *)
Fixpoint js_join (sep : string) (xs : list string) : string :=
  match xs with
  | [] => ""
  | [x] => x
  | x :: xs => x +:+ sep +:+ js_join sep xs
  end.

(** [s.indexOf(c)], [None] for -1. *)
Fixpoint index_of_char (c : ascii) (s : string) : option nat :=
  match s with
  | EmptyString => None
  | String d s => if decide (d = c) then Some O else S <$> index_of_char c s
  end.

Fixpoint str_drop (n : nat) (s : string) : string :=
  match n, s with
  | O, _ => s
  | S n, String _ s => str_drop n s
  | S _, EmptyString => ""
  end.

Fixpoint str_take (n : nat) (s : string) : string :=
  match n, s with
  | S n, String c s => String c (str_take n s)
  | _, _ => ""
  end.

(** [s.startsWith(p)]. *)
Fixpoint starts_with (p s : string) : bool :=
  match p, s with
  | EmptyString, _ => true
  | String c p, String d s => bool_decide (c = d) && starts_with p s
  | _, _ => false
  end.

Definition char_lower (c : ascii) : ascii :=
  let n := Ascii.nat_of_ascii c in
  if ((65 <=? n) && (n <=? 90) || (192 <=? n) && (n <=? 222) && negb (n =? 215))%nat
  then Ascii.ascii_of_nat (n + 32) else c.

Fixpoint js_lower (s : string) : string :=
  match s with
  | EmptyString => ""
  | String c s => String (char_lower c) (js_lower s)
  end.

(** [if (s)] for an optional string: there and not empty. *)
Definition truthy (s : option string) : bool :=
  match s with Some s => bool_decide (s ≠ "") | None => false end.

(** [a < b] on strings: code unit by code unit, a prefix first. *)
Fixpoint str_ltb (a b : string) : bool :=
  match a, b with
  | EmptyString, String _ _ => true
  | String c a, String d b =>
      let m := Ascii.N_of_ascii c in
      let n := Ascii.N_of_ascii d in
      (m <? n)%N || ((m =? n)%N && str_ltb a b)
  | _, EmptyString => false
  end.

Definition str_leb (a b : string) : bool := negb (str_ltb b a).

(** ** Facts *)
Lemma fl_round_small z : Z.abs z < 2 ^ 53 → fl_round z = z.
Proof. intros H. unfold fl_round. by apply Z.ltb_lt in H as ->. Qed.

Lemma fl_round_large z : 2 ^ 53 <= z → 2 ^ 53 <= fl_round z.
Proof.
  intros H. unfold fl_round. rewrite Z.abs_eq by lia.
  destruct (Z.ltb_spec z (2 ^ 53)); [lia|]. rewrite Z.sgn_pos by lia.
  assert (53 <= Z.log2 z) as Hl by (apply Z.log2_le_pow2; lia).
  pose proof (Z.log2_spec z ltac:(lia)) as [Hlo _].
  assert (2 ^ Z.log2 z = 2 ^ 52 * 2 ^ (Z.log2 z - 52)) as Hp
    by (rewrite <-Z.pow_add_r by lia; f_equal; lia).
  assert (2 <= 2 ^ (Z.log2 z - 52)) as H2
    by (change 2 with (2 ^ 1) at 1; apply Z.pow_le_mono_r; lia).
  assert (2 ^ 52 <= z / 2 ^ (Z.log2 z - 52)) by (apply Z.div_le_lower_bound; lia).
  cbv zeta. destruct (_ || _); nia.
Qed.

Lemma fl_round_nonneg z : 0 <= z → 0 <= fl_round z.
Proof.
  intros H. destruct (decide (2 ^ 53 <= z)).
  - pose proof (fl_round_large z ltac:(done)). lia.
  - by rewrite fl_round_small by lia.
Qed.

Lemma fl_add_small a b : Z.abs (a + b) < 2 ^ 53 → fl_add a b = a + b.
Proof. apply fl_round_small. Qed.

Lemma to_u32_range z : 0 <= to_u32 z < 2 ^ 32.
Proof. by apply Z.mod_pos_bound. Qed.

Lemma to_u32_small z : 0 <= z < 2 ^ 32 → to_u32 z = z.
Proof. apply Z.mod_small. Qed.

Lemma to_i32_range z : - 2 ^ 31 <= to_i32 z < 2 ^ 31.
Proof.
  unfold to_i32. pose proof (Z.mod_pos_bound z (2 ^ 32) eq_refl).
  destruct (Z.ltb_spec (z mod 2 ^ 32) (2 ^ 31)); lia.
Qed.

Lemma to_i32_mod z : to_i32 z mod 2 ^ 32 = z mod 2 ^ 32.
Proof.
  unfold to_i32. destruct (Z.ltb_spec (z mod 2 ^ 32) (2 ^ 31)).
  - by rewrite Z.mod_mod.
  - rewrite Zminus_mod, Z.mod_same, Z.sub_0_r, !Z.mod_mod by done. done.
Qed.

Lemma to_u32_i32 z : to_u32 (to_i32 z) = to_u32 z.
Proof. apply to_i32_mod. Qed.

Lemma to_i32_small z : - 2 ^ 31 <= z < 2 ^ 31 → to_i32 z = z.
Proof.
  intros H. unfold to_i32. destruct (decide (0 <= z)).
  - rewrite Z.mod_small by lia. destruct (Z.ltb_spec z (2 ^ 31)); lia.
  - assert (z mod 2 ^ 32 = z + 2 ^ 32) as ->.
    { rewrite <-(Z_mod_plus_full z 1 (2 ^ 32)). apply Z.mod_small. lia. }
    destruct (Z.ltb_spec (z + 2 ^ 32) (2 ^ 31)); lia.
Qed.

Lemma to_i32_testbit z i : 0 <= i < 32 → Z.testbit (to_i32 z) i = Z.testbit z i.
Proof.
  intros Hi. rewrite <-(Z.mod_pow2_bits_low (to_i32 z) 32 i) by lia.
  rewrite to_i32_mod. apply Z.mod_pow2_bits_low. lia.
Qed.

Lemma str_ltb_irrefl a : str_ltb a a = false.
Proof. induction a as [|c a IH]; simpl; [done|]. rewrite N.ltb_irrefl, N.eqb_refl. done. Qed.

Lemma str_ltb_trichotomy a b : str_ltb a b = false → str_ltb b a = false → a = b.
Proof.
  revert b. induction a as [|c a IH]; intros [|d b]; simpl; try done.
  intros [H1 H2]%orb_false_iff [H3 H4]%orb_false_iff.
  apply N.ltb_ge in H1, H3. assert (Ascii.N_of_ascii c = Ascii.N_of_ascii d) as E by lia.
  rewrite E, N.eqb_refl in H2. rewrite E, N.eqb_refl in H4. simpl in *.
  f_equal; [|by apply IH].
  rewrite <-(Ascii.ascii_N_embedding c), <-(Ascii.ascii_N_embedding d). by f_equal.
Qed.

Lemma str_ltb_trans a b c : str_ltb a b = true → str_ltb b c = true → str_ltb a c = true.
Proof.
  revert b c. induction a as [|x a IH]; intros [|y b] [|z c]; simpl; try done.
  rewrite !orb_true_iff, !andb_true_iff, !N.ltb_lt, !N.eqb_eq.
  intros [?|[? ?]] [?|[? ?]]; try (left; lia). right. split; [lia|]. eauto.
Qed.

Lemma str_ltb_asym a b : str_ltb a b = true → str_ltb b a = false.
Proof.
  intros H. destruct (str_ltb b a) eqn:E; [|done].
  pose proof (str_ltb_trans _ _ _ H E) as C. by rewrite str_ltb_irrefl in C.
Qed.

Lemma str_leb_total a b : str_leb a b = false → str_leb b a = true.
Proof. unfold str_leb. rewrite negb_false_iff, negb_true_iff. apply str_ltb_asym. Qed.

Lemma str_leb_trans a b c : str_leb a b = true → str_leb b c = true → str_leb a c = true.
Proof.
  unfold str_leb. rewrite !negb_true_iff. intros H1 H2.
  destruct (str_ltb c a) eqn:E; [|done].
  destruct (str_ltb c b) eqn:E2; [done|].
  destruct (decide (b = c)) as [->|Hne]; [congruence|].
  destruct (str_ltb b c) eqn:E3.
  - pose proof (str_ltb_trans _ _ _ E3 E). congruence.
  - by destruct Hne; apply str_ltb_trichotomy.
Qed.

Lemma str_leb_antisym a b : str_leb a b = true → str_leb b a = true → a = b.
Proof.
  unfold str_leb. rewrite !negb_true_iff. intros H1 H2. by apply str_ltb_trichotomy.
Qed.

(** [s.includes(c)] for one character. *)
Fixpoint str_has (c : ascii) (s : string) : bool :=
  match s with
  | EmptyString => false
  | String d s => bool_decide (d = c) || str_has c s
  end.

Lemma str_app_assoc (s t u : string) : ((s +:+ t) +:+ u = s +:+ (t +:+ u))%string.
Proof. induction s as [|c s IH]; [done|]. exact (f_equal (String c) IH). Qed.

Lemma str_app_inj (s t u : string) : (s +:+ t = s +:+ u)%string → t = u.
Proof. induction s as [|c s IH]; simpl; [done|]. intros E. injection E. apply IH. Qed.

Lemma str_has_app c (s t : string) : str_has c (s +:+ t)%string = str_has c s || str_has c t.
Proof. induction s as [|d s IH]; simpl; [done|]. by rewrite IH, orb_assoc. Qed.

Lemma str_app_nil (s : string) : (s +:+ "")%string = s.
Proof. induction s as [|c s IH]; simpl; [done|]. unfold String.app in *. by rewrite IH. Qed.

Lemma list_ascii_app s t :
  list_ascii_of_string (s +:+ t) = list_ascii_of_string s ++ list_ascii_of_string t.
Proof. induction s; simpl; by f_equal. Qed.

(** ** Decimal digits *)
Definition is_digit (c : ascii) : bool :=
  let n := Ascii.nat_of_ascii c in ((48 <=? n) && (n <=? 57))%nat.

Lemma pretty_N_char_digit x : is_digit (pretty_N_char x) = true.
Proof. unfold pretty_N_char. by repeat case_match. Qed.

Lemma pretty_N_go_digits k x s : (x < 10 ^ N.of_nat k)%N →
  Forall (λ c, is_digit c = true) (list_ascii_of_string s) →
  Forall (λ c, is_digit c = true) (list_ascii_of_string (pretty_N_go x s)) ∧
  (String.length (pretty_N_go x s) ≤ k + String.length s)%nat.
Proof.
  revert x s. induction k as [|k IH]; intros x s Hx Hs.
  - assert (x = 0)%N as -> by (simpl in Hx; lia). by rewrite pretty_N_go_0.
  - destruct (decide (x = 0)%N) as [->|Hne]; [rewrite pretty_N_go_0; split; [done|lia]|].
    rewrite pretty_N_go_step by lia.
    destruct (IH (x `div` 10)%N (String (pretty_N_char (x `mod` 10)) s)) as [H1 H2].
    + rewrite Nat2N.inj_succ, N.pow_succ_r' in Hx. apply N.Div0.div_lt_upper_bound. lia.
    + simpl. constructor; [apply pretty_N_char_digit|done].
    + split; [done|]. simpl in H2. lia.
Qed.

(** A number below [10^k] prints as at most [k] digits. *)
Lemma pretty_Z_digits k z : (0 < k)%nat → 0 <= z < 10 ^ Z.of_nat k →
  Forall (λ c, is_digit c = true) (list_ascii_of_string (pretty z)) ∧
  (String.length (pretty z) ≤ k)%nat.
Proof.
  intros Hk Hz. assert (∃ n : N, z = Z.of_N n) as [n ->] by (exists (Z.to_N z); lia).
  assert (Hn : (n < 10 ^ N.of_nat k)%N).
  { apply N2Z.inj_lt. rewrite N2Z.inj_pow, nat_N_Z. apply Hz. }
  assert (pretty (Z.of_N n) = pretty n) as -> by (destruct n; done).
  unfold pretty, pretty_N. case_decide; [split; [by repeat constructor|simpl; lia]|].
  destruct (pretty_N_go_digits k n "" Hn) as [H1 H2]; [constructor|]. split; [done|].
  simpl in H2. lia.
Qed.

(** Reading a printed number back. *)
Lemma take_digits_pretty_go x s acc cnt : ∃ k, 0 <= k ∧ ((0 < x)%N → 0 < k) ∧
  take_digits 10 acc cnt (list_ascii_of_string (pretty_N_go x s)) =
  take_digits 10 (acc * 10 ^ k + Z.of_N x) (cnt + k) (list_ascii_of_string s).
Proof.
  revert s. induction (N.lt_wf_0 x) as [x _ IH]; intros s.
  destruct (decide (x = 0)%N) as [->|Hx].
  { exists 0. rewrite pretty_N_go_0. split_and!; [lia|lia|].
    by rewrite Z.pow_0_r, Z.mul_1_r, !Z.add_0_r. }
  rewrite pretty_N_go_step by lia.
  destruct (IH (x `div` 10)%N ltac:(apply N.div_lt; lia) (String (pretty_N_char (x `mod` 10)) s))
    as (k & Hk & _ & E).
  exists (k + 1). split_and!; [lia|lia|]. rewrite E. simpl.
  assert (∀ d : N, (d < 10)%N → base_digit 10 (pretty_N_char d) = Some (Z.of_N d)) as Hd.
  { intros d Hd. assert (d = 0 ∨ d = 1 ∨ d = 2 ∨ d = 3 ∨ d = 4 ∨ d = 5 ∨ d = 6 ∨ d = 7 ∨ d = 8 ∨ d = 9)%N
      by lia. naive_solver. }
  pose proof (N.mod_lt x 10 ltac:(done)) as Hm. rewrite Hd by done.
  f_equal; [|lia]. rewrite Z.pow_add_r by lia.
  assert (Z.of_N x = 10 * Z.of_N (x `div` 10) + Z.of_N (x `mod` 10)) by
    (pose proof (N.div_mod' x 10); lia). lia.
Qed.

(** What does not go on with a digit. *)
Definition stops (l : list ascii) : Prop := match l with c :: _ => base_digit 10 c = None | [] => True end.

Lemma take_digits_app base acc cnt l rest v n :
  take_digits base acc cnt l = (v, n, []) → match rest with c :: _ => base_digit base c = None | [] => True end →
  take_digits base acc cnt (l ++ rest) = (v, n, rest).
Proof.
  revert acc cnt. induction l as [|c l IH]; intros acc cnt H Hr; simpl in *.
  - injection H as -> ->. destruct rest as [|d rest]; [done|]. simpl. by rewrite Hr.
  - destruct (base_digit base c); [by apply IH|done].
Qed.

Lemma pretty_Z_of_N n : pretty (Z.of_N n) = pretty n.
Proof. by destruct n. Qed.

Lemma take_digits_pretty n rest : 0 <= n → stops rest →
  ∃ k, k ≠ 0 ∧ take_digits 10 0 0 (list_ascii_of_string (pretty n) ++ rest) = (n, k, rest).
Proof.
  intros Hn Hr. assert (∃ k, k ≠ 0 ∧ take_digits 10 0 0 (list_ascii_of_string (pretty n)) = (n, k, [])) as
    (k & Hk & E); [|exists k; split; [done|by apply take_digits_app]].
  rewrite <-(Z2N.id n) by done. rewrite pretty_Z_of_N. unfold pretty, pretty_N.
  case_decide as H0; [rewrite H0; by exists 1|].
  destruct (take_digits_pretty_go (Z.to_N n) "" 0 0) as (k & _ & Hk & E). exists k. split; [lia|].
  by rewrite E.
Qed.

(** [parseInt(s, 10)], [None] for NaN. *)
Definition js_parseInt (s : string) : option Z :=
  let '(neg, l) := match drop_ws (list_ascii_of_string s) with
                   | "-"%char :: l => (true, l)
                   | "+"%char :: l => (false, l)
                   | l => (false, l)
                   end in
  let '(v, n, _) := take_digits 10 0 0 l in
  if n =? 0 then None else Some (if neg then - fl_round v else fl_round v).

(** [s.toUpperCase()].  Two characters below 256 have their upper case above
    it; they are left as they are, which no test for letters A to Z sees. *)
Definition char_upper (c : ascii) : string :=
  let n := Ascii.nat_of_ascii c in
  if (n =? 223)%nat then "SS"
  else if ((97 <=? n) && (n <=? 122) || (224 <=? n) && (n <=? 254) && negb (n =? 247))%nat
  then String (Ascii.ascii_of_nat (n - 32)) "" else String c "".

Fixpoint js_upper (s : string) : string :=
  match s with
  | EmptyString => ""
  | String c s => char_upper c +:+ js_upper s
  end.

(** [s.padStart(n, c)] for a one-character filler. *)
Definition pad_start (n : nat) (c : ascii) (s : string) : string :=
  string_of_list_ascii (replicate (n - String.length s) c) +:+ s.

Lemma pad_start_length n c s : (String.length s ≤ n)%nat → String.length (pad_start n c s) = n.
Proof.
  intros H. unfold pad_start.
  assert (∀ m, String.length (string_of_list_ascii (replicate m c) +:+ s) = (m + String.length s)%nat)
    as ->; [|lia].
  induction m as [|m IH]; [done|]. simpl. unfold String.app in *. by rewrite IH.
Qed.

(** A separator that neither part before it holds splits a string one way. *)
Lemma str_sep_inj c s1 s2 r1 r2 :
  str_has c s1 = false → str_has c s2 = false →
  (s1 +:+ String c r1)%string = (s2 +:+ String c r2)%string → s1 = s2 ∧ r1 = r2.
Proof.
  revert s2. induction s1 as [|d s1 IH]; intros [|d2 s2]; simpl; intros H1 H2 E.
  - by injection E.
  - injection E as -> E. by rewrite bool_decide_true in H2.
  - injection E as -> E. by rewrite bool_decide_true in H1.
  - apply orb_false_iff in H1 as [_ H1]. apply orb_false_iff in H2 as [_ H2]. injection E as -> E.
    destruct (IH s2) as [-> ->]; done.
Qed.

Lemma split_chars_app c cur l1 l2 : c ∉ l1 →
  split_chars c cur (l1 ++ c :: l2) = (reverse cur ++ l1) :: split_chars c [] l2.
Proof.
  revert cur. induction l1 as [|d l1 IH]; intros cur Hc; simpl.
  - rewrite decide_True by done. by rewrite app_nil_r.
  - rewrite decide_False by set_solver. rewrite IH by set_solver.
    by rewrite reverse_cons, <-app_assoc.
Qed.

Lemma split_chars_end c cur l : c ∉ l → split_chars c cur l = [reverse cur ++ l].
Proof.
  revert cur. induction l as [|d l IH]; intros cur Hc; simpl.
  - by rewrite app_nil_r.
  - rewrite decide_False by set_solver. rewrite IH by set_solver.
    by rewrite reverse_cons, <-app_assoc.
Qed.

Definition char_free (c : ascii) (s : string) : Prop := c ∉ list_ascii_of_string s.

(** [split] undoes [join] when no part contains the separator. *)
Lemma js_split_join c xs : xs ≠ [] → Forall (char_free c) xs →
  js_split c (js_join (String c "") xs) = xs.
Proof.
  intros Hne Hxs. unfold js_split. induction Hxs as [|x xs Hx Hxs IH]; [done|].
  destruct xs as [|y xs]; simpl.
  - rewrite split_chars_end by done. simpl. by rewrite string_of_list_ascii_of_string.
  - rewrite !list_ascii_app. simpl. rewrite split_chars_app by done. simpl.
    rewrite string_of_list_ascii_of_string. f_equal. by apply IH.
Qed.

(** [s.includes(p)]. *)
Fixpoint str_includes (p s : string) : bool :=
  starts_with p s || match s with EmptyString => false | String _ s => str_includes p s end.

Lemma list_ascii_inj s t : list_ascii_of_string s = list_ascii_of_string t → s = t.
Proof.
  intros H. rewrite <-(string_of_list_ascii_of_string s), <-(string_of_list_ascii_of_string t). by rewrite H.
Qed.

Lemma char_free_has c s : char_free c s ↔ str_has c s = false.
Proof.
  unfold char_free. induction s as [|d s IH]; simpl; [set_solver|].
  rewrite orb_false_iff, bool_decide_eq_false, <-IH, not_elem_of_cons. naive_solver.
Qed.

(** ** Decimal numbers are exact *)
Lemma iter_xO_pos p k : Z.pos (Pos.iter xO p k) = Z.pos p * 2 ^ Z.pos k.
Proof.
  induction k as [|k IH] using Pos.peano_ind; [simpl; lia|].
  rewrite Pos.iter_succ. rewrite Pos2Z.inj_xO, IH, Pos2Z.inj_succ, Z.pow_succ_r by lia. lia.
Qed.

Lemma digits2_iter_xO p k : digits2_pos (Pos.iter xO p k) = (digits2_pos p + k)%positive.
Proof.
  induction k as [|k IH] using Pos.peano_ind; [simpl; lia|].
  rewrite Pos.iter_succ. simpl. rewrite IH. lia.
Qed.

Lemma digits2_pos_bound p n : Z.pos p < 2 ^ n → 0 <= n → Z.pos (digits2_pos p) <= n.
Proof.
  revert n. induction p as [p IH|p IH|]; intros n Hp Hn; simpl.
  - assert (1 <= n) by (destruct (Z.eq_dec n 0) as [->|]; [simpl in Hp; lia|lia]).
    assert (2 ^ n = 2 * 2 ^ (n - 1)) as E by (rewrite <-Z.pow_succ_r by lia; f_equal; lia).
    specialize (IH (n - 1)). lia.
  - assert (1 <= n) by (destruct (Z.eq_dec n 0) as [->|]; [simpl in Hp; lia|lia]).
    assert (2 ^ n = 2 * 2 ^ (n - 1)) as E by (rewrite <-Z.pow_succ_r by lia; f_equal; lia).
    specialize (IH (n - 1)). lia.
  - destruct (Z.eq_dec n 0) as [->|]; [simpl in Hp; lia|lia].
Qed.

Lemma sf_round_exact m e : Z.pos (digits2_pos m) = 53 → -1074 <= e <= 0 →
  binary_round_aux 53 1024 false (Z.pos m) e loc_Exact = S754_finite false m e.
Proof.
  intros Hd He. unfold binary_round_aux, shr_fexp. simpl shr_record_of_loc.
  change (Zdigits2 (Z.pos m)) with (Z.pos (digits2_pos m)). rewrite Hd.
  assert (fexp 53 1024 (53 + e) - e = 0) as E by (unfold fexp, emin; lia).
  rewrite E. simpl shr. cbv beta iota. simpl shr_m. simpl loc_of_shr_record. simpl round_nearest_even.
  change (Zdigits2 (Z.pos m)) with (Z.pos (digits2_pos m)). rewrite Hd, E. simpl.
  destruct (Z.leb_spec e (1024 - 53)); [done|lia].
Qed.

(** An integer below 2^53 is a double, and read back as itself. *)
Lemma sf_to_int_exact z : 0 <= z < 2 ^ 53 → sf_to_int (binary_normalize 53 1024 z 0 false) = Some z.
Proof.
  intros Hz. destruct z as [|p|p]; [done| |lia]. unfold binary_normalize, binary_round.
  pose proof (digits2_pos_bound p 53 ltac:(lia) ltac:(lia)) as Hd. rewrite Z.add_0_r.
  assert (fexp 53 1024 (Z.pos (digits2_pos p)) = Z.pos (digits2_pos p) - 53) as -> by (unfold fexp, emin; lia).
  unfold shl_align. rewrite Z.sub_0_r.
  destruct (Z.pos (digits2_pos p) - 53) as [|k|k] eqn:Ek; [|lia|].
  - rewrite sf_round_exact by lia. unfold sf_to_int. simpl. f_equal. lia.
  - rewrite sf_round_exact; [|rewrite digits2_iter_xO; lia|lia].
    unfold sf_to_int. replace (0 <=? Z.neg k) with false by (symmetry; apply Z.leb_gt; lia).
    change (- Z.neg k) with (Z.pos k). rewrite iter_xO_pos.
    rewrite Z.mod_mul, Z.eqb_refl by lia. by rewrite Z.div_mul by lia.
Qed.

Lemma is_digit_cases c : is_digit c = true →
  c = "0"%char ∨ c = "1"%char ∨ c = "2"%char ∨ c = "3"%char ∨ c = "4"%char ∨ c = "5"%char ∨
  c = "6"%char ∨ c = "7"%char ∨ c = "8"%char ∨ c = "9"%char.
Proof. destruct c as [[] [] [] [] [] [] [] []]; vm_compute; intros H; try discriminate H; tauto. Qed.

Lemma drop_ws_digits l : Forall (λ c, is_digit c = true) l → drop_ws l = l.
Proof.
  destruct 1 as [|c l Hc _]; [done|]. simpl.
  destruct (is_digit_cases c Hc) as [->|[->|[->|[->|[->|[->|[->|[->|[->| ->]]]]]]]]]; done.
Qed.

Lemma js_Number_digits l : l ≠ [] → Forall (λ c, is_digit c = true) l →
  js_Number (string_of_list_ascii l) = parse_decimal false l.
Proof.
  intros Hne Hl. unfold js_Number, trim_chars. rewrite list_ascii_of_string_of_list_ascii.
  rewrite (drop_ws_digits l) by done. rewrite drop_ws_digits by (by rewrite Forall_reverse). rewrite reverse_involutive.
  destruct Hl as [|c l Hc Hl]; [done|].
  destruct (is_digit_cases c Hc) as [->|[->|[->|[->|[->|[->|[->|[->|[->| ->]]]]]]]]]; try done.
  destruct Hl as [|d l Hd Hl]; [done|].
  destruct (is_digit_cases d Hd) as [->|[->|[->|[->|[->|[->|[->|[->|[->| ->]]]]]]]]]; done.
Qed.

Lemma pretty_digits n : 0 <= n → Forall (λ c, is_digit c = true) (list_ascii_of_string (pretty n)).
Proof.
  intros Hn. destruct (pretty_Z_digits (S (Z.to_nat n)) n) as [H _]; [lia| |done]. split; [done|].
  rewrite Nat2Z.inj_succ, Z2Nat.id by done. pose proof (Z.pow_gt_lin_r 10 (Z.succ n)). lia.
Qed.

(** A non-negative number's decimal form has no other character, is not empty,
    and reads back through [Number]. *)
Lemma js_Number_pretty n : 0 <= n < 2 ^ 53 → sf_to_int (js_Number (pretty n)) = Some n.
Proof.
  intros Hn. pose proof (pretty_digits n ltac:(lia)) as Hd.
  destruct (take_digits_pretty n [] ltac:(lia) I) as (k & Hk & E). rewrite app_nil_r in E.
  assert (list_ascii_of_string (pretty n) ≠ []) as Hne.
  { intros H0. rewrite H0 in E. by injection E as <- <-. }
  rewrite <-(string_of_list_ascii_of_string (pretty n)), js_Number_digits by done.
  unfold parse_decimal. rewrite bool_decide_false.
  2:{ intros H0. rewrite H0 in Hd. by apply Forall_cons in Hd as [? _]. }
  rewrite E, Z.add_0_r. destruct (Z.eqb_spec k 0); [done|]. simpl parse_exp. cbv iota beta.
  unfold sf_of_decimal. destruct n as [|p|p]; [done| |lia]. simpl (0 <=? 0 - 0). cbv iota.
  rewrite Z.pow_0_r, Z.mul_1_r, Z.mul_1_l. by apply sf_to_int_exact.
Qed.

Lemma pretty_char_free c n : 0 <= n → is_digit c = false → char_free c (pretty n).
Proof.
  intros Hn Hc Hin. pose proof (pretty_digits n Hn) as Hd. rewrite Forall_forall in Hd.
  specialize (Hd c Hin). congruence.
Qed.

Lemma pretty_not_empty n : 0 <= n < 2 ^ 53 → pretty n ≠ "".
Proof.
  intros Hn E. destruct (take_digits_pretty n [] ltac:(lia) I) as (k & Hk & Et). rewrite E in Et.
  by injection Et as <- <-.
Qed.

#[export] Hint Resolve str_leb_total str_leb_trans : iceslab.
