(* ===== verification/Calls.v ===== *)
(** Asynchronous code over shared state.

    An [async] function of the source is a [prog]: a chain of calls into what
    it shares with everybody else (the database, Redis, a module's variables,
    the clock), each of them atomic, with its own computation in between.
    [run] is the function with the world to itself; in a [pool] several run at
    once, and between two calls of one any number of the others may happen,
    which is where an [await] leaves the event loop. *)

From S2P Require Import Prelude.

Local Open Scope Z_scope.

Inductive prog (W E A : Type) : Type :=
  | Ret (a : A)
  | Raise (e : E)
  | Call {R : Type} (f : Z → W → R * W) (k : R → prog W E A).
Arguments Ret {W E A} a.
Arguments Raise {W E A} e.
Arguments Call {W E A R} f k.

Fixpoint prog_bind {W E A B} (p : prog W E A) (k : A → prog W E B) : prog W E B :=
  match p with
  | Ret a => k a
  | Raise e => Raise e
  | Call f g => Call f (λ r, prog_bind (g r) k)
  end.

Declare Scope prog_scope.
Delimit Scope prog_scope with prog.
Notation "'await' x '<-' p ; q" := (prog_bind p (λ x, q))
  (at level 100, x pattern, p at level 50, q at level 100, right associativity) : prog_scope.
Notation "'await_' p ; q" := (prog_bind p (λ _, q))
  (at level 100, p at level 50, q at level 100, right associativity) : prog_scope.

Section Prog.
Context {W E : Type}.

(** One call.  [f now w] is its answer and what it leaves. *)
Definition call {R} (f : Z → W → R * W) : prog W E R := Call f Ret.

(** [Date.now()]: reading the clock. *)
Definition clock : prog W E Z := call (λ now w, (now, w)).

(** A computation that may throw. *)
Definition lift {A} (r : result E A) : prog W E A :=
  match r with Ok a => Ret a | Throw e => Raise e end.

(** The program run through with nobody else about, at one reading of the clock. *)
Fixpoint run {A} (p : prog W E A) (now : Z) (w : W) : result E A * W :=
  match p with
  | Ret a => (Ok a, w)
  | Raise e => (Throw e, w)
  | Call f k => let '(r, w) := f now w in run (k r) now w
  end.

(** Its next call. *)
Definition prog_step {A} (p : prog W E A) (now : Z) (w : W) : prog W E A * W :=
  match p with
  | Call f k => let '(r, w) := f now w in (k r, w)
  | _ => (p, w)
  end.

Fixpoint prog_steps {A} (n : nat) (p : prog W E A) (now : Z) (w : W) : prog W E A * W :=
  match n with
  | O => (p, w)
  | S n => let '(p, w) := prog_step p now w in prog_steps n p now w
  end.

(** Program [i] of the pool takes its next call. *)
Definition pool_step {A} (s : list (prog W E A) * W) (e : nat * Z) : list (prog W E A) * W :=
  let '(ps, w) := s in
  match ps !! e.1 with
  | Some p => let '(p, w) := prog_step p e.2 w in (<[e.1 := p]> ps, w)
  | None => s
  end.

Definition pool_run {A} (s : list (prog W E A) * W) (es : list (nat * Z)) : list (prog W E A) * W :=
  foldl pool_step s es.

Lemma pool_run_app {A} (s : list (prog W E A) * W) es es' :
  pool_run s (es ++ es') = pool_run (pool_run s es) es'.
Proof. apply foldl_app. Qed.

(** One program of the pool for a while. *)
Lemma pool_run_replicate {A} (ps : list (prog W E A)) w i p n now p' w' :
  ps !! i = Some p → prog_steps n p now w = (p', w') →
  pool_run (ps, w) (replicate n (i, now)) = (<[i := p']> ps, w').
Proof.
  revert ps w p. induction n as [|n IH]; intros ps w p Hi H.
  - injection H as <- <-. unfold pool_run. simpl. by rewrite list_insert_id.
  - simpl in H. destruct (prog_step p now w) as [p1 w1] eqn:Ep.
    unfold pool_run. simpl. rewrite Hi, Ep. fold (pool_run (<[i:=p1]> ps, w1) (replicate n (i, now))).
    rewrite (IH _ _ p1) with (2 := H); [by rewrite list_insert_insert_eq|].
    apply list_lookup_insert_eq. by eapply lookup_lt_Some.
Qed.

Lemma run_bind {A B} (p : prog W E A) (k : A → prog W E B) now w :
  run (prog_bind p k) now w =
  match run p now w with
  | (Ok a, w) => run (k a) now w
  | (Throw e, w) => (Throw e, w)
  end.
Proof.
  revert w. induction p as [a|e|R f g IH]; intros w; simpl; [done|done|].
  destruct (f now w) as [r w']. apply IH.
Qed.

Lemma run_call {R} (f : Z → W → R * W) now w : run (call f) now w = (Ok (f now w).1, (f now w).2).
Proof. simpl. by destruct (f now w). Qed.

Lemma run_clock {A} (k : Z → prog W E A) now w : run (prog_bind clock k) now w = run (k now) now w.
Proof. done. Qed.

Lemma run_lift {A} (r : result E A) now w : run (lift r) now w = (r, w).
Proof. by destruct r. Qed.

(** Rely and guarantee: whatever the others do within [R], each call of the
    program stays within [R], and the value it returns satisfies [Q] from then
    on. *)
Fixpoint rg {A} (R : W → W → Prop) (Q : A → W → Prop) (p : prog W E A) (w : W) : Prop :=
  match p with
  | Ret a => ∀ w', R w w' → Q a w'
  | Raise _ => True
  | Call f k => ∀ now w', R w w' → R w' (f now w').2 ∧ rg R Q (k (f now w').1) (f now w').2
  end.

Section Rg.
Context {A : Type} (R : W → W → Prop) (Q : A → W → Prop) `{!PreOrder R}.

Lemma rg_rely p w w' : R w w' → rg R Q p w → rg R Q p w'.
Proof.
  destruct p as [a|e|T f k]; simpl; intros Hw H; [|done|]; intros; apply H; by etrans.
Qed.

Lemma rg_step p now w : rg R Q p w →
  R w (prog_step p now w).2 ∧ rg R Q (prog_step p now w).1 (prog_step p now w).2.
Proof.
  destruct p as [a|e|T f k]; simpl; intros H; [by split|by split|].
  destruct (H now w) as [H1 H2]; [done|]. destruct (f now w). by split.
Qed.

Lemma rg_pool ps w es : Forall (λ p, rg R Q p w) ps →
  R w (pool_run (ps, w) es).2 ∧
  Forall (λ p, rg R Q p (pool_run (ps, w) es).2) (pool_run (ps, w) es).1.
Proof.
  revert ps w. induction es as [|[i now] es IH]; intros ps w Hps; [by split|].
  unfold pool_run. simpl foldl. destruct (ps !! i) as [p|] eqn:Hi; [|by apply IH].
  destruct (rg_step p now w) as [HR Hp]; [by eapply (Forall_lookup_1 (λ p, rg R Q p w))|].
  destruct (prog_step p now w) as [p' w']. simpl in HR, Hp.
  destruct (IH (<[i:=p']> ps) w') as [HR' Hps'].
  { apply Forall_insert; [|done]. eapply Forall_impl; [exact Hps|]. intros. by eapply rg_rely. }
  split; [by etrans|done].
Qed.

(** What a program of the pool has returned holds at the end. *)
Lemma rg_returned ps w es i a : Forall (λ p, rg R Q p w) ps →
  (pool_run (ps, w) es).1 !! i = Some (Ret a) → Q a (pool_run (ps, w) es).2.
Proof.
  intros [_ Hps]%(rg_pool _ _ es) Hi. eapply Forall_lookup_1 in Hi; [|exact Hps]. by apply Hi.
Qed.
End Rg.

(** A program each of whose calls, made at a time of [T], keeps [P]. *)
Fixpoint keeps {A} (T : Z → Prop) (P : W → Prop) (p : prog W E A) : Prop :=
  match p with
  | Call f k => ∀ now w, T now → P w → P (f now w).2 ∧ keeps T P (k (f now w).1)
  | _ => True
  end.

Section Keeps.
Context (T : Z → Prop) (P : W → Prop).

Lemma keeps_bind {A B} (p : prog W E A) (k : A → prog W E B) :
  keeps T P p → (∀ a, keeps T P (k a)) → keeps T P (prog_bind p k).
Proof.
  intros Hp Hk. induction p as [a|e|R f g IH]; simpl in *; [apply Hk|done|].
  intros now w Hn Hw. destruct (Hp now w Hn Hw) as [H1 H2]. split; [done|]. by apply IH.
Qed.

Lemma keeps_read {R} (f : Z → W → R) : keeps T P (call (λ now w, (f now w, w))).
Proof. by intros now w _ Hw. Qed.

Lemma keeps_lift {A} (r : result E A) : keeps T P (lift r).
Proof. by destruct r. Qed.

(** An invariant of every program is one of the pool, however it is run. *)
Lemma keeps_pool {A} (ps : list (prog W E A)) w es :
  Forall (keeps T P) ps → P w → Forall (λ e, T e.2) es → P (pool_run (ps, w) es).2.
Proof.
  revert ps w. induction es as [|[i now] es IH]; intros ps w Hps Hw Hes; [done|].
  apply Forall_cons in Hes as [Hnow Hes]. unfold pool_run. simpl. destruct (ps !! i) as [p|] eqn:Hi; [|by apply IH].
  assert (keeps T P p) as Hp by (by eapply (Forall_lookup_1 (keeps T P) ps)).
  assert (P (prog_step p now w).2 ∧ keeps T P (prog_step p now w).1) as [Hw' Hp'].
  { destruct p as [a|e|R f k]; [done|done|]. simpl. destruct (Hp now w Hnow Hw). by destruct (f now w). }
  destruct (prog_step p now w) as [p' w']. by apply IH; [apply Forall_insert| |].
Qed.
End Keeps.
End Prog.

#[export] Hint Resolve keeps_bind keeps_read keeps_lift : iceslab.
