(* ===== verification/Draws.v ===== *)
(** Drawing distinct numbers from a source of randomness: the loop
    [while (set.size < n) set.add(draw())], which Awg3Geometry and
    CascadeTunnel share.

    The loop has no bound in the source.  [fuel] bounds the draws, and
    [draw_distinct_total] shows enough fuel for a source whose patience is
    known: of that many draws in a row one is new among the few already
    held. *)

From S2P Require Import Prelude.

Section Draws.
Context {G : Type} (draw : G → Z * G) (n : nat).

Fixpoint draw_distinct (fuel : nat) (hs : list Z) (s : G) : option (list Z * G) :=
  if (n <=? length hs)%nat then Some (hs, s) else
  match fuel with
  | O => None
  | S fuel =>
      let '(h, s) := draw s in
      draw_distinct fuel (if bool_decide (h ∈ hs) then hs else hs ++ [h]) s
  end.

(** The source after [k] draws. *)
Definition after_draws (k : nat) (s : G) : G := Nat.iter k (λ s, (draw s).2) s.

Definition fresh_within (patience : nat) : Prop :=
  ∀ (old : list Z) s, (length old < n)%nat →
    ∃ k, (k < patience)%nat ∧ (draw (after_draws k s)).1 ∉ old.

Lemma draw_distinct_ok (P : Z → Prop) fuel hs s hs' s' :
  (∀ s, P (draw s).1) → draw_distinct fuel hs s = Some (hs', s') →
  NoDup hs → (length hs <= n)%nat → Forall P hs →
  NoDup hs' ∧ length hs' = n ∧ Forall P hs'.
Proof.
  intros HP. revert hs s. induction fuel as [|fuel IH]; intros hs s Hd Hnd Hl Hr; cbn [draw_distinct] in Hd.
  - destruct (Nat.leb_spec n (length hs)); [|done]. injection Hd as <- <-. split_and!; [done|lia|done].
  - destruct (Nat.leb_spec n (length hs)).
    { injection Hd as <- <-. split_and!; [done|lia|done]. }
    pose proof (HP s) as Hh. destruct (draw s) as [h s1]. case_bool_decide as Hin; [by eapply IH|].
    eapply IH; [exact Hd| | |].
    + apply NoDup_app. split; [done|]. split; [set_solver|apply NoDup_singleton].
    + rewrite length_app. simpl. lia.
    + apply Forall_app. split; [done|]. constructor; [done|constructor].
Qed.

(** Repeats are skipped until the next new number. *)
Lemma next_draw k s fuel hs : (length hs < n)%nat → (k < fuel)%nat → (draw (after_draws k s)).1 ∉ hs →
  ∃ fuel' hs' s', draw_distinct fuel hs s = draw_distinct fuel' hs' s' ∧
    length hs' = S (length hs) ∧ (fuel <= fuel' + k + 1)%nat.
Proof.
  intros Hl. revert s fuel. induction k as [|k IH]; intros s [|fuel] Hf Hni; try lia;
    cbn [draw_distinct]; (destruct (Nat.leb_spec n (length hs)) as [?|_]; [lia|]);
    destruct (draw s) as [h s1] eqn:Es.
  - unfold after_draws in Hni. simpl in Hni. rewrite Es in Hni. simpl in Hni.
    rewrite bool_decide_false by done. exists fuel, (hs ++ [h]), s1.
    split; [done|]. rewrite length_app. simpl. lia.
  - case_bool_decide as Hin.
    + destruct (IH s1 fuel) as (f' & hs' & s' & E & ? & ?); [lia| |exists f', hs', s'; split_and!; [done|done|lia]].
      unfold after_draws in *. rewrite Nat.iter_succ_r, Es in Hni. done.
    + exists fuel, (hs ++ [h]), s1. split; [done|]. rewrite length_app. simpl. lia.
Qed.

Lemma draw_distinct_total patience m fuel hs s : fresh_within patience →
  (length hs + m = n)%nat → (patience * m <= fuel)%nat → is_Some (draw_distinct fuel hs s).
Proof.
  intros Hfresh. revert fuel hs s. induction m as [|m IH]; intros fuel hs s Hl Hf.
  - destruct fuel; cbn [draw_distinct]; (destruct (Nat.leb_spec n (length hs)); [done|lia]).
  - destruct (Hfresh hs s) as (k & Hk & Hni); [lia|].
    destruct (next_draw k s fuel hs) as (f' & hs' & s' & -> & ? & ?); [lia|nia|done|].
    apply IH; lia.
Qed.
End Draws.

(** A source that counts up and is read modulo [m] never repeats itself within
    [m] draws. *)
Section Counting.
Local Open Scope Z_scope.
Context (lo m : Z) (draw : Z → Z * Z).
Hypothesis reads : ∀ s, draw s = (lo + s mod m, s + 1).

Lemma counting_after k s : (draw (after_draws draw k s)).1 = lo + (s + Z.of_nat k) mod m.
Proof.
  assert (after_draws draw k s = s + Z.of_nat k) as ->; [|by rewrite reads].
  unfold after_draws. induction k as [|k IH]; [simpl; lia|].
  rewrite Nat.iter_succ, IH, reads. simpl. lia.
Qed.

Lemma counting_fresh n : Z.of_nat n <= m → fresh_within draw n n.
Proof.
  intros Hn old s Hl. set (v k := (draw (after_draws draw k s)).1).
  destruct (decide (Exists (λ k, v k ∉ old) (seq 0 n))) as [He|Hne].
  { apply Exists_exists in He as (k & Hk%elem_of_seq & Hv). exists k. split; [lia|done]. }
  exfalso. assert (NoDup (v <$> seq 0 n)) as Hnd.
  { apply NoDup_fmap_2_strong; [|apply NoDup_seq]. unfold v. intros i j Hi%elem_of_seq Hj%elem_of_seq.
    rewrite !counting_after. intros E. assert ((Z.of_nat i - Z.of_nat j) mod m = 0) as Hz.
    { replace (Z.of_nat i - Z.of_nat j) with ((s + Z.of_nat i) - (s + Z.of_nat j)) by lia.
      rewrite Zminus_mod. assert ((s + Z.of_nat i) mod m = (s + Z.of_nat j) mod m) as -> by lia.
      by rewrite Z.sub_diag. }
    apply Z.mod_divide in Hz as [q Hq]; [|lia]. assert (q = 0 ∨ 1 <= q ∨ q <= -1) as [->|[?|?]] by lia; nia. }
  assert (v <$> seq 0 n ⊆+ old) as Hs%submseteq_length; [|rewrite length_fmap, length_seq in Hs; lia].
  apply NoDup_submseteq; [done|]. intros x (k & -> & Hk)%list_elem_of_fmap.
  destruct (decide (v k ∈ old)); [done|]. destruct Hne. apply Exists_exists. eauto.
Qed.
End Counting.
