(* ===== verification/Json.v ===== *)
(** JSON values, as the panel stores them in jsonb columns and writes them into
    the configurations of nodes.

    An object is the list of its entries: its keys are distinct, since jsonb
    and object literals keep one entry per key.  Numbers are the integers the
    modelled code writes.  [undefined] is an absent entry. *)

From S2P Require Import Prelude Js.

Local Open Scope string_scope.
Local Open Scope list_scope.
Local Open Scope Z_scope.

Inductive jvalue :=
  | JNull
  | JBool (b : bool)
  | JNum (n : Z)
  | JStr (s : string)
  | JArr (xs : list jvalue)
  | JObj (fields : list (string * jvalue)).

(** [o.k]: [None] is [undefined].  Reading a key of a value that is not an
    object gives [undefined]; the code guards against [null] first. *)
Definition jfield (k : string) (o : jvalue) : option jvalue :=
  match o with JObj fields => jm_get k fields | _ => None end.

(** [typeof o.k === 'string' ? o.k : ...] and the same for numbers. *)
Definition jstr (v : option jvalue) : option string :=
  match v with Some (JStr s) => Some s | _ => None end.
Definition jnum (v : option jvalue) : option Z :=
  match v with Some (JNum n) => Some n | _ => None end.

(** [!raw || typeof raw !== 'object']: [null], booleans, numbers and strings. *)
Definition is_object (v : jvalue) : bool :=
  match v with JArr _ | JObj _ => true | _ => false end.

(** A key that is written only when there is a value: [...(x ? { k: f(x) } : {})]. *)
Definition jopt {A} (k : string) (f : A → jvalue) (x : option A) : list (string * jvalue) :=
  match x with Some a => [(k, f a)] | None => [] end.

(** The strings of an array, and an object's string at a key. *)
Definition jstrs (v : jvalue) : list string :=
  match v with JArr xs => omap (λ x, jstr (Some x)) xs | _ => [] end.
Definition jfield_str (k : string) (o : jvalue) : option string := jstr (jfield k o).

Lemma jstrs_map xs : jstrs (JArr (JStr <$> xs)) = xs.
Proof. induction xs as [|x xs IH]; [done|]. cbn. f_equal. apply IH. Qed.
