(* ===== verification/Subnet.v ===== *)
(** IPv4 and CIDR arithmetic of the AmneziaWG address pool
    (apps/panel-backend/src/modules/amneziawg/amneziawg.subnet.ts).

    [ipToInt] and [intToIp] convert between the dotted quad and the number,
    [parseSubnet] cuts a CIDR into network, server, usable range and broadcast
    with the 32-bit operators of the source.  The theorems: the conversions
    are inverse to each other, and every CIDR the parser accepts has a usable
    range of exactly [2^(32-prefix) - 3] addresses inside its block. *)

From S2P Require Import Prelude Js.

Local Open Scope string_scope.
Local Open Scope list_scope.
Local Open Scope Z_scope.

Inductive subnet_error :=
  | InvalidIPv4 (ip : string)
  | InvalidOctet (ip : string)
  | InvalidCIDR (cidr : string)
  | InvalidPrefix (prefix : spec_float)
  | SubnetTooSmall (cidr : string).

Record SubnetRange := mkSubnetRange {
  base : Z;
  prefix : Z;
  serverIp : Z;
  firstUsable : Z;
  lastUsable : Z
}.

(** The loop body of [ipToInt]: one octet, read with [Number]. *)
Definition ipToInt_octet (ip : string) (n : Z) (p : string) : result subnet_error Z :=
  match sf_to_int (js_Number p) with
  | Some v =>
      if (v <? 0) || (255 <? v) || bool_decide (p = "")
      then Throw (InvalidOctet ip) else Ok (n * 256 + v)
  | None => Throw (InvalidOctet ip)
  end.

Definition ipToInt (ip : string) : result subnet_error Z :=
  let parts := js_split "." ip in
  if bool_decide (length parts ≠ 4%nat) then Throw (InvalidIPv4 ip)
  else
    n ← fold_res (ipToInt_octet ip) 0 parts;
    Ok (js_ushr n 0).

Definition intToIp (n : Z) : string :=
  js_join "." (pretty <$> [ js_and (js_ushr n 24) 255; js_and (js_ushr n 16) 255;
                            js_and (js_ushr n 8) 255; js_and n 255 ]).

Definition parseSubnet (cidr : string) : result subnet_error SubnetRange :=
  match index_of_char "/" cidr with
  | None | Some O => Throw (InvalidCIDR cidr)
  | Some slash =>
      let ipStr := str_take slash cidr in
      let p := js_Number (str_drop (S slash) cidr) in
      match sf_to_int p with
      | None => Throw (InvalidPrefix p)
      | Some prefix =>
          if (prefix <? 8) || (30 <? prefix) then Throw (InvalidPrefix p)
          else
            baseRaw ← ipToInt ipStr;
            let mask := if prefix =? 0 then 0 else js_ushr (js_shl 0xffffffff (32 - prefix)) 0 in
            let base := js_ushr (js_and baseRaw mask) 0 in
            let broadcast := js_ushr (js_or base (js_ushr (js_not mask) 0)) 0 in
            let serverIp := base + 1 in
            let firstUsable := serverIp + 1 in
            let lastUsable := broadcast - 1 in
            if lastUsable <? firstUsable then Throw (SubnetTooSmall cidr)
            else Ok (mkSubnetRange base prefix serverIp firstUsable lastUsable)
      end
  end.

(** ** 32-bit masks *)

Lemma to_u32_testbit z i : 0 <= i → Z.testbit (to_u32 z) i = (i <? 32) && Z.testbit z i.
Proof.
  intros Hi. unfold to_u32. rewrite Z.testbit_mod_pow2 by done. done.
Qed.

Lemma u32_and a b : to_u32 (js_and a b) = Z.land (to_u32 a) (to_u32 b).
Proof.
  apply Z.bits_inj'. intros i Hi. unfold js_and.
  rewrite Z.land_spec, !to_u32_testbit, Z.land_spec by done.
  destruct (Z.ltb_spec i 32); [|done]. by rewrite !to_i32_testbit.
Qed.

Lemma u32_or a b : to_u32 (js_or a b) = Z.lor (to_u32 a) (to_u32 b).
Proof.
  apply Z.bits_inj'. intros i Hi. unfold js_or.
  rewrite Z.lor_spec, !to_u32_testbit, Z.lor_spec by done.
  destruct (Z.ltb_spec i 32); [|done]. by rewrite !to_i32_testbit.
Qed.

Lemma js_ushr_0 a : js_ushr a 0 = to_u32 a.
Proof. unfold js_ushr. by rewrite Z.mod_0_l, Z.shiftr_0_r. Qed.

(** The network mask of a [/(32-k)] and its complement. *)
Lemma mask_of k : 0 <= k < 32 → js_ushr (js_shl 0xffffffff k) 0 = Z.shiftl (Z.ones (32 - k)) k.
Proof.
  intros Hk. rewrite js_ushr_0. unfold js_shl. rewrite to_u32_i32, (Z.mod_small k) by lia.
  apply Z.bits_inj'. intros i Hi. rewrite to_u32_testbit by done.
  destruct (decide (i < k)).
  { rewrite !Z.shiftl_spec_low by lia. by rewrite andb_false_r. }
  rewrite !Z.shiftl_spec by lia.
  replace (to_i32 4294967295) with (-1) by reflexivity.
  rewrite Z.bits_m1, andb_true_r by lia.
  destruct (Z.ltb_spec i 32); [rewrite Z.ones_spec_low by lia|rewrite Z.ones_spec_high by lia]; done.
Qed.

Lemma land_mask x k : 0 <= k < 32 → 0 <= x < 2 ^ 32 →
  Z.land x (Z.shiftl (Z.ones (32 - k)) k) = x / 2 ^ k * 2 ^ k.
Proof.
  intros Hk Hx. rewrite <-Z.shiftr_div_pow2, <-Z.shiftl_mul_pow2 by lia.
  apply Z.bits_inj'. intros i Hi. rewrite Z.land_spec.
  destruct (decide (i < k)).
  { rewrite !Z.shiftl_spec_low by lia. by rewrite andb_false_r. }
  rewrite !Z.shiftl_spec, Z.shiftr_spec by lia. replace (i - k + k) with i by lia.
  destruct (decide (i < 32)).
  - rewrite Z.ones_spec_low by lia. by rewrite andb_true_r.
  - rewrite Z.ones_spec_high by lia. rewrite andb_false_r. symmetry.
    rewrite <-(Z.mod_small x (2 ^ 32)), Z.testbit_mod_pow2 by lia.
    by destruct (Z.ltb_spec i 32); [lia|].
Qed.

Lemma lor_hostmask y k : 0 <= k < 32 → y mod 2 ^ k = 0 → Z.lor y (2 ^ k - 1) = y + (2 ^ k - 1).
Proof.
  intros Hk Hy. assert (Z.land y (2 ^ k - 1) = 0) as H0.
  { replace (2 ^ k - 1) with (Z.ones k) by (rewrite Z.ones_equiv; lia).
    by rewrite Z.land_ones by lia. }
  by rewrite <-Z.lxor_lor, <-Z.add_nocarry_lxor.
Qed.

Lemma host_mask k : 0 <= k < 32 →
  to_u32 (js_not (Z.shiftl (Z.ones (32 - k)) k)) = 2 ^ k - 1.
Proof.
  intros Hk. replace (2 ^ k - 1) with (Z.ones k) by (rewrite Z.ones_equiv; lia).
  apply Z.bits_inj'. intros i Hi. unfold js_not.
  rewrite to_u32_testbit, Z.lnot_spec by done.
  destruct (Z.ltb_spec i 32); simpl; [|by rewrite Z.ones_spec_high by lia].
  rewrite to_i32_testbit by lia. destruct (decide (i < k)).
  - by rewrite Z.shiftl_spec_low, Z.ones_spec_low by lia.
  - by rewrite Z.shiftl_spec, Z.ones_spec_low, Z.ones_spec_high by lia.
Qed.

(** ** Dotted quads *)

(** Every byte's decimal form has no dot, is not empty and reads back. *)
Lemma octet_decimal v : 0 <= v < 256 →
  char_free "." (pretty v) ∧ pretty v ≠ "" ∧ sf_to_int (js_Number (pretty v)) = Some v.
Proof.
  intros Hv. split; [by apply pretty_char_free; [lia|]|]. split; [apply pretty_not_empty; lia|].
  apply js_Number_pretty. lia.
Qed.

Definition octets (n : Z) : list Z :=
  [js_and (js_ushr n 24) 255; js_and (js_ushr n 16) 255; js_and (js_ushr n 8) 255; js_and n 255].

Lemma js_and_255 a : js_and a 255 = a mod 256.
Proof.
  unfold js_and. replace (to_i32 255) with (Z.ones 8) by reflexivity.
  rewrite Z.land_ones by done. change (2 ^ 8) with 256.
  assert (256 | 2 ^ 32) as Hd by (by exists (2 ^ 24)).
  rewrite <-(Z.mod_mod_divide (to_i32 a) _ _ Hd), to_i32_mod. by apply Z.mod_mod_divide.
Qed.

Lemma octets_eq n : 0 <= n < 2 ^ 32 →
  octets n = [n / 2 ^ 24; n / 2 ^ 16 mod 256; n / 2 ^ 8 mod 256; n mod 256].
Proof.
  intros Hn. unfold octets. rewrite !js_and_255. unfold js_ushr.
  rewrite !Z.mod_small with (b := 32), !Z.shiftr_div_pow2, !to_u32_small by lia.
  f_equal. apply Z.mod_small. split; [apply Z.div_pos; lia|].
  apply Z.div_lt_upper_bound; lia.
Qed.

Lemma octets_range n : 0 <= n < 2 ^ 32 → Forall (λ v, 0 <= v < 256) (octets n).
Proof.
  intros Hn. unfold octets. rewrite !js_and_255.
  repeat constructor; try (by apply Z.mod_pos_bound).
Qed.

Lemma octets_sum n : 0 <= n < 2 ^ 32 → foldl (λ acc v, acc * 256 + v) 0 (octets n) = n.
Proof.
  intros Hn. rewrite octets_eq by done. simpl.
  pose proof (Z.div_mod n 256). pose proof (Z.div_mod (n / 2 ^ 8) 256).
  pose proof (Z.div_mod (n / 2 ^ 16) 256).
  assert (n / 2 ^ 8 / 256 = n / 2 ^ 16) as E1 by (rewrite Z.div_div by lia; done).
  assert (n / 2 ^ 16 / 256 = n / 2 ^ 24) as E2 by (rewrite Z.div_div by lia; done).
  change (2 ^ 8) with 256 in *. lia.
Qed.

Lemma ipToInt_octet_decimal ip acc v : 0 <= v < 256 →
  ipToInt_octet ip acc (pretty v) = Ok (acc * 256 + v).
Proof.
  intros Hv. destruct (octet_decimal v Hv) as (_ & Hne & Hnum).
  unfold ipToInt_octet. rewrite Hnum.
  destruct (Z.ltb_spec v 0); [lia|]. destruct (Z.ltb_spec 255 v); [lia|].
  by rewrite bool_decide_eq_false_2.
Qed.

Lemma ipToInt_octets ip acc vs : Forall (λ v, 0 <= v < 256) vs →
  fold_res (ipToInt_octet ip) acc (pretty <$> vs) = Ok (foldl (λ acc v, acc * 256 + v) acc vs).
Proof.
  intros Hvs. revert acc. induction Hvs as [|v vs Hv Hvs IH]; intros acc; [done|].
  rewrite fmap_cons. cbn [fold_res foldl]. rewrite ipToInt_octet_decimal by done. apply IH.
Qed.

Lemma ipToInt_range ip n : ipToInt ip = Ok n → 0 <= n < 2 ^ 32.
Proof.
  unfold ipToInt. intros H. inv_ok. rewrite js_ushr_0. apply to_u32_range.
Qed.

Lemma intToIp_split n : 0 <= n < 2 ^ 32 →
  js_split "." (intToIp n) = pretty <$> octets n.
Proof.
  intros Hn. unfold intToIp. apply js_split_join; [done|].
  apply Forall_fmap. eapply Forall_impl; [by apply octets_range|].
  intros v Hv. by apply octet_decimal.
Qed.

Lemma ipToInt_intToIp n : 0 <= n < 2 ^ 32 → ipToInt (intToIp n) = Ok n.
Proof.
  intros Hn. unfold ipToInt. rewrite intToIp_split by done. rewrite length_fmap.
  rewrite bool_decide_eq_false_2 by (intros C; by apply C).
  rewrite ipToInt_octets by (by apply octets_range).
  cbn [mbind result_bind].
  rewrite octets_sum by done. rewrite js_ushr_0. by rewrite to_u32_small.
Qed.

Lemma intToIp_chars ip : 0 <= ip < 2 ^ 32 → Forall (λ c, is_digit c = true ∨ c = "."%char) (list_ascii_of_string (intToIp ip)).
Proof.
  intros Hip. unfold intToIp. pose proof (octets_range ip Hip) as Ho. unfold octets in Ho.
  repeat (apply Forall_cons in Ho as [? Ho]).
  assert (∀ v, 0 <= v < 256 → Forall (λ c, is_digit c = true ∨ c = "."%char) (list_ascii_of_string (pretty v))) as Hd.
  { intros v Hv. eapply Forall_impl; [apply pretty_digits; lia|]. auto. }
  cbn [fmap list_fmap js_join]. rewrite !list_ascii_app. cbn [list_ascii_of_string].
  repeat (apply Forall_app; split); try (by apply Hd); by repeat constructor; right.
Qed.

Lemma intToIp_inj n m :
  0 <= n < 2 ^ 32 → 0 <= m < 2 ^ 32 → intToIp n = intToIp m → n = m.
Proof.
  intros Hn Hm E. apply (f_equal ipToInt) in E. rewrite !ipToInt_intToIp in E by done. congruence.
Qed.

#[export] Hint Resolve ipToInt_range intToIp_inj to_u32_range : iceslab.

(** ** The block of a CIDR *)

(** What [parseSubnet] computes, in arithmetic: the block of [2^(32-p)]
    addresses [ip] lies in. *)
Definition block_of (ip p : Z) : SubnetRange :=
  let size := 2 ^ (32 - p) in
  let b := ip / size * size in
  mkSubnetRange b p (b + 1) (b + 2) (b + size - 2).

(** A CIDR by arithmetic alone: same guards, no bit operator, and no size
    check, because a block of at least four addresses is never too small. *)
Definition parse_block (cidr : string) : result subnet_error SubnetRange :=
  match index_of_char "/" cidr with
  | None | Some O => Throw (InvalidCIDR cidr)
  | Some slash =>
      let p := js_Number (str_drop (S slash) cidr) in
      match sf_to_int p with
      | None => Throw (InvalidPrefix p)
      | Some prefix =>
          if (prefix <? 8) || (30 <? prefix) then Throw (InvalidPrefix p)
          else ip ← ipToInt (str_take slash cidr); Ok (block_of ip prefix)
      end
  end.

Lemma pow2_ge_4 p : p <= 30 → 4 <= 2 ^ (32 - p).
Proof. intros Hp. change 4 with (2 ^ 2). apply Z.pow_le_mono_r; lia. Qed.

Lemma block_of_bounds ip p : 0 <= ip < 2 ^ 32 → 8 <= p <= 30 →
  let b := ip / 2 ^ (32 - p) * 2 ^ (32 - p) in
  0 <= b ∧ b <= ip < b + 2 ^ (32 - p) ∧ b + 2 ^ (32 - p) <= 2 ^ 32.
Proof.
  intros Hip Hp b. set (s := 2 ^ (32 - p)).
  assert (0 < s) by (apply Z.pow_pos_nonneg; lia).
  pose proof (Z.div_mod ip s ltac:(lia)). pose proof (Z.mod_pos_bound ip s ltac:(lia)).
  assert (0 <= ip / s) by (apply Z.div_pos; lia).
  assert (b = ip / s * s) as Eb by done.
  assert (2 ^ 32 = 2 ^ p * s) as Es.
  { unfold s. rewrite <-Z.pow_add_r by lia. f_equal. lia. }
  assert (ip / s < 2 ^ p) by (apply Z.div_lt_upper_bound; lia).
  repeat split; nia.
Qed.

Lemma block_of_bits ip p : 0 <= ip < 2 ^ 32 → 8 <= p <= 30 →
  let mask := js_ushr (js_shl 0xffffffff (32 - p)) 0 in
  let base := js_ushr (js_and ip mask) 0 in
  let broadcast := js_ushr (js_or base (js_ushr (js_not mask) 0)) 0 in
  base = ip / 2 ^ (32 - p) * 2 ^ (32 - p) ∧ broadcast = base + 2 ^ (32 - p) - 1.
Proof.
  intros Hip Hp mask base broadcast.
  pose proof (block_of_bounds ip p Hip Hp) as Hb. simpl in Hb.
  assert (to_u32 mask = Z.shiftl (Z.ones (32 - (32 - p))) (32 - p)) as Hmask.
  { unfold mask. rewrite <-mask_of by lia. rewrite js_ushr_0. by apply to_u32_small, to_u32_range. }
  assert (base = ip / 2 ^ (32 - p) * 2 ^ (32 - p)) as Hbase.
  { unfold base. rewrite js_ushr_0, u32_and, (to_u32_small ip), Hmask by done.
    apply land_mask; lia. }
  split; [done|]. unfold broadcast.
  rewrite js_ushr_0, u32_or, js_ushr_0, (to_u32_small base) by (rewrite Hbase; lia).
  assert (to_u32 (to_u32 (js_not mask)) = 2 ^ (32 - p) - 1) as ->.
  { rewrite (to_u32_small (to_u32 _)) by apply to_u32_range.
    unfold mask. rewrite mask_of by lia. apply host_mask. lia. }
  rewrite lor_hostmask; [lia|lia|]. rewrite Hbase. by rewrite Z_mod_mult.
Qed.

Lemma parseSubnet_block cidr : parseSubnet cidr = parse_block cidr.
Proof.
  unfold parseSubnet, parse_block.
  destruct (index_of_char "/" cidr) as [[|slash]|]; [done| |done].
  destruct (sf_to_int _) as [p|]; [|done].
  destruct (Z.ltb_spec p 8), (Z.ltb_spec 30 p); try done. simpl orb. cbv iota.
  destruct (ipToInt _) as [ip|] eqn:Eip; [|done].
  cbn [mbind result_bind]. destruct (Z.eqb_spec p 0); [lia|].
  destruct (block_of_bits ip p) as [E1 E2]; [by eapply ipToInt_range|lia|].
  pose proof (pow2_ge_4 p ltac:(lia)).
  rewrite E2, E1. destruct (Z.ltb_spec (ip / 2 ^ (32 - p) * 2 ^ (32 - p) + 2 ^ (32 - p) - 1 - 1)
    (ip / 2 ^ (32 - p) * 2 ^ (32 - p) + 1 + 1)); [lia|].
  unfold block_of. do 2 f_equal; lia.
Qed.

Lemma parseSubnet_range cidr r : parseSubnet cidr = Ok r →
  8 <= prefix r <= 30 ∧ 0 <= base r ∧ base r + 2 ^ (32 - prefix r) <= 2 ^ 32 ∧
  serverIp r = base r + 1 ∧ firstUsable r = base r + 2 ∧
  lastUsable r = base r + 2 ^ (32 - prefix r) - 2.
Proof.
  rewrite parseSubnet_block. unfold parse_block.
  destruct (index_of_char "/" cidr) as [[|slash]|]; try done.
  destruct (sf_to_int _) as [p|]; [|done]. intros H. inv_ok. bool_prop.
  assert (8 <= p <= 30) as Hp by lia.
  match goal with H : ipToInt _ = Ok ?ip |- _ =>
    pose proof (block_of_bounds ip p (ipToInt_range _ _ H) Hp) end.
  simpl in *. lia.
Qed.

(** ** Theorems *)

(** [intToIp] and [ipToInt] round-trip: printing any 32-bit address as a
    dotted quad and reading it back gives the same address, through
    [Number(...)] of each octet and the unsigned shift. *)
Theorem ipToInt_intToIp_roundtrip n : 0 <= n < 2 ^ 32 → ipToInt (intToIp n) = Ok n.
Proof. apply ipToInt_intToIp. Qed.

Lemma ipToInt_intToIp_roundtrip_witness :
  0 <= 3232235777 < 2 ^ 32 ∧ intToIp 3232235777 = "192.168.1.1" ∧
  ipToInt (intToIp 3232235777) = Ok 3232235777.
Proof.
  split; [split; vm_compute; congruence|]. split; [by vm_compute|].
  apply (ipToInt_intToIp_roundtrip 3232235777). split; vm_compute; congruence.
Defined.

(** [parseSubnet] computes the block of the CIDR: on every input the
    source's int32 mask arithmetic (where [0xffffffff << n] and [~mask] are
    negative) agrees with division by the block size, guards included; in
    particular the "too small to host any peers" branch is never taken. *)
Theorem parseSubnet_is_block cidr : parseSubnet cidr = parse_block cidr.
Proof. apply parseSubnet_block. Qed.
