(* ===== verification/AwgPeers.v ===== *)
(** The AmneziaWG address allocator
    (apps/panel-backend/src/modules/amneziawg/amneziawg.service.ts).

    The state is the table [amneziawg_peers] with its two unique constraints,
    (profile_id, ip) and (profile_id, user_id).  A SQL statement is a function
    of two tables: the snapshot its subqueries read, and the table its INSERT
    meets, because other transactions may commit in between.  [schedule] is
    what the rest of the system does to the table around each statement; the
    [idle] schedule is a quiet database.  [id] and [created_at] are generated
    by the database, never read here, and left out. *)

From S2P Require Import Prelude Js Subnet.

Local Open Scope string_scope.
Local Open Scope list_scope.
Local Open Scope Z_scope.

Record peer := mkPeer { p_profile : string; p_user : string; p_ip : string }.

#[global] Instance peer_eq_dec : EqDecision peer.
Proof. solve_decision. Defined.

Definition table := list peer.

Definition ip_key (r : peer) : string * string := (p_profile r, p_ip r).
Definition user_key (r : peer) : string * string := (p_profile r, p_user r).

(** The unique constraints of the table. *)
Definition table_wf (t : table) : Prop :=
  NoDup (ip_key <$> t) ∧ NoDup (user_key <$> t).

(** [WHERE profile_id = $profile]. *)
Definition peers_of (profile : string) (t : table) : list peer :=
  filter (λ r, p_profile r = profile) t.

Definition count_peers (profile : string) (t : table) : Z :=
  Z.of_nat (length (peers_of profile t)).

(** [SELECT host($first::inet + gs)]: the address [gs] places into the usable
    range, in the text form the table stores. *)
Definition address (range : SubnetRange) (gs : Z) : string :=
  intToIp (firstUsable range + gs).

Definition capacity (range : SubnetRange) : Z := lastUsable range - firstUsable range + 1.

Definition is_free (profile : string) (range : SubnetRange) (t : table) (gs : Z) : Prop :=
  address range gs ∉ p_ip <$> peers_of profile t.
#[global] Instance is_free_dec profile range t gs : Decision (is_free profile range t gs).
Proof. unfold is_free. apply _. Defined.

(** The candidates [generate_series(0, LEAST(last - first, bound))] that no
    row of the profile holds, in order. *)
Definition free_slots (profile : string) (range : SubnetRange) (bound : Z) (t : table) : list Z :=
  filter (λ gs, is_free profile range t gs)
    (seqZ 0 (Z.min (lastUsable range - firstUsable range) bound + 1)).

Definition existing (profile user : string) (t : table) : option peer :=
  head (filter (λ r, p_user r = user) (peers_of profile t)).

Inductive alloc_error :=
  | BadSubnet (e : subnet_error)
  | IpExhausted (profile subnet : string)
  | UniqueViolation (profile user : string)
  | TooManyAttempts (profile : string).

(** The one statement of [allocatePeer]: [existing], [free] and [inserted],
    then [inserted UNION ALL existing LIMIT 1].  [ON CONFLICT (profile_id, ip)
    DO NOTHING] names one constraint: a row that breaks the other one,
    (profile_id, user_id), raises. *)
Definition sql_allocate (snap cur : table) (profile user : string) (range : SubnetRange)
    : result alloc_error (table * option peer) :=
  match existing profile user snap with
  | Some r => Ok (cur, Some r)
  | None =>
      match head (free_slots profile range (count_peers profile snap) snap) with
      | None => Ok (cur, None)
      | Some gs =>
          let row := mkPeer profile user (address range gs) in
          if decide (ip_key row ∈ ip_key <$> cur) then Ok (cur, None)
          else if decide (user_key row ∈ user_key <$> cur)
          then Throw (UniqueViolation profile user)
          else Ok (cur ++ [row], Some row)
      end
  end.

(** What other transactions do: [3i] before attempt [i]'s snapshot, [3i+1]
    between snapshot and insert, [3i+2] before the count. *)
Definition schedule := nat → table → table.
Definition idle : schedule := λ _ t, t.

Definition maxAttempts : nat := 12.

Fixpoint alloc_attempts (fuel i : nat) (sched : schedule) (profile user subnet : string)
    (range : SubnetRange) (t : table) : table * result alloc_error peer :=
  match fuel with
  | O => (t, Throw (TooManyAttempts profile))
  | S fuel =>
      let snap := sched (3 * i)%nat t in
      let cur := sched (3 * i + 1)%nat snap in
      match sql_allocate snap cur profile user range with
      | Throw e => (cur, Throw e)
      | Ok (cur, Some row) => (cur, Ok row)
      | Ok (cur, None) =>
          let t := sched (3 * i + 2)%nat cur in
          if capacity range <=? count_peers profile t
          then (t, Throw (IpExhausted profile subnet))
          else alloc_attempts fuel (S i) sched profile user subnet range t
      end
  end.

Definition allocatePeer (sched : schedule) (profile user subnet : string) (t : table)
    : table * result alloc_error peer :=
  match parseSubnet subnet with
  | Throw e => (t, Throw (BadSubnet e))
  | Ok range => alloc_attempts maxAttempts 0 sched profile user subnet range t
  end.

(** [deleteMany({ where: { profileId, userId } })]. *)
Definition releasePeer (profile user : string) (t : table) : table :=
  filter (λ r, ¬ (p_profile r = profile ∧ p_user r = user)) t.

(** One row of the bulk INSERT, [ON CONFLICT DO NOTHING] on either constraint. *)
Definition insert_or_skip (t : table) (row : peer) : table :=
  if decide (ip_key row ∈ ip_key <$> t) then t
  else if decide (user_key row ∈ user_key <$> t) then t
  else t ++ [row].

(** [needed]: the users with no row yet, in id order. *)
Definition needed (profile : string) (userIds : list string) (snap : table) : list string :=
  sort_by str_leb (filter (λ u, u ∉ p_user <$> peers_of profile snap) userIds).

(** [needed n JOIN free f ON n.rn = f.rn]. *)
Definition bulk_rows (profile : string) (userIds : list string) (range : SubnetRange) (snap : table)
    : list peer :=
  let need := needed profile userIds snap in
  let n := Z.of_nat (length need) in
  let free := take (length need) (free_slots profile range (count_peers profile snap + n) snap) in
  zip_with (λ u gs, mkPeer profile u (address range gs)) need free.

(** [preallocatePeers]: the bulk statement (reading [snap], inserting into
    [cur]), then the map of the requested users from the rows read back. *)
Definition preallocatePeers (profile : string) (userIds : list string) (subnet : string)
    (between : table → table) (t : table)
    : result alloc_error (table * list (string * string)) :=
  if bool_decide (userIds = []) then Ok (t, [])
  else
    match parseSubnet subnet with
    | Throw e => Throw (BadSubnet e)
    | Ok range =>
        let t' := foldl insert_or_skip (between t) (bulk_rows profile userIds range t) in
        Ok (t', foldl (λ m r, jm_set (p_user r) (p_ip r) m) []
                  (filter (λ r, p_user r ∈ userIds) (peers_of profile t')))
    end.

(** ** The address range *)

Lemma address_inj cidr range gs gs' : parseSubnet cidr = Ok range →
  0 <= gs <= lastUsable range - firstUsable range →
  0 <= gs' <= lastUsable range - firstUsable range →
  address range gs = address range gs' → gs = gs'.
Proof.
  intros Hr%parseSubnet_range H1 H2 E. unfold address in E.
  assert (firstUsable range + gs = firstUsable range + gs'); [|lia].
  apply intToIp_inj; [lia|lia|exact E].
Qed.

Lemma capacity_pos cidr range : parseSubnet cidr = Ok range →
  0 <= lastUsable range - firstUsable range.
Proof. intros Hr%parseSubnet_range. pose proof (pow2_ge_4 (prefix range)). lia. Qed.

Lemma elem_of_free_slots profile range bound t gs :
  gs ∈ free_slots profile range bound t ↔
  is_free profile range t gs ∧ 0 <= gs <= Z.min (lastUsable range - firstUsable range) bound.
Proof. unfold free_slots. rewrite list_elem_of_filter, elem_of_seqZ. intuition lia. Qed.

(** Pigeonhole: among distinct slots, all but [length held] are free. *)
Lemma free_among_slots profile (range : SubnetRange) t slots :
  NoDup (address range <$> slots) →
  (length slots <= length (filter (λ gs, is_free profile range t gs) slots)
     + length (peers_of profile t))%nat.
Proof.
  intros Hnd.
  rewrite (filter_split_length (λ gs, is_free profile range t gs) slots).
  apply Nat.add_le_mono_l.
  rewrite <-(length_fmap p_ip (peers_of profile t)), <-(length_fmap (address range)).
  apply submseteq_length, NoDup_submseteq.
  - by apply NoDup_fmap_filter.
  - intros a (gs & -> & Hgs)%list_elem_of_fmap. apply list_elem_of_filter in Hgs as [Hgs _].
    by apply dec_stable.
Qed.

Lemma slots_NoDup cidr range k : parseSubnet cidr = Ok range →
  k <= lastUsable range - firstUsable range →
  NoDup (address range <$> seqZ 0 (k + 1)).
Proof.
  intros Hr Hk. apply NoDup_fmap_2_strong; [|apply NoDup_seqZ].
  intros x y Hx%elem_of_seqZ Hy%elem_of_seqZ E. eapply address_inj; eauto; lia.
Qed.

Lemma head_filter_seqZ (P : Z → Prop) `{∀ x, Decision (P x)} m n g :
  head (filter P (seqZ m n)) = Some g →
  P g ∧ m <= g < m + n ∧ ∀ g', m <= g' < g → ¬ P g'.
Proof.
  destruct (decide (0 <= n)) as [Hn|Hn]; [|by rewrite seqZ_nil by lia].
  revert m. pattern n. apply natlike_ind; [by intros m|clear n Hn|done].
  intros n Hn IH m. rewrite seqZ_cons by lia. rewrite filter_cons. case_decide; simpl.
  - intros [= <-]. split; [done|]. split; [lia|]. intros; lia.
  - rewrite Z.pred_succ. intros (H1 & H2 & H3)%IH. split; [done|]. split; [lia|].
    intros g' Hg'. destruct (decide (g' = m)) as [->|]; [done|]. apply H3. lia.
Qed.

(** The bounded scan finds a slot whenever the subnet has one, and then the
    lowest: the claim behind scanning [O(peers)] candidates. *)
Lemma bounded_scan_none cidr range profile t : parseSubnet cidr = Ok range →
  free_slots profile range (count_peers profile t) t = [] →
  capacity range <= count_peers profile t ∧
  ∀ gs, 0 <= gs <= lastUsable range - firstUsable range → ¬ is_free profile range t gs.
Proof.
  intros Hr Hnil. pose proof (capacity_pos _ _ Hr) as Hcap.
  set (k := Z.min (lastUsable range - firstUsable range) (count_peers profile t)).
  pose proof (free_among_slots profile range t (seqZ 0 (k + 1))) as Hlen.
  specialize (Hlen (slots_NoDup cidr range k Hr ltac:(lia))).
  unfold free_slots in Hnil. fold k in Hnil. rewrite Hnil, length_seqZ in Hlen. simpl in Hlen.
  unfold count_peers in *. assert (0 <= k) by lia.
  assert (k = lastUsable range - firstUsable range) as Hk by lia.
  split; [unfold capacity; lia|].
  intros gs Hgs Hfree. apply (not_elem_of_nil gs). rewrite <-Hnil.
  apply list_elem_of_filter. split; [done|]. apply elem_of_seqZ. lia.
Qed.

Lemma bounded_scan_lowest range profile t gs :
  head (free_slots profile range (count_peers profile t) t) = Some gs →
  is_free profile range t gs ∧ 0 <= gs <= lastUsable range - firstUsable range ∧
  ∀ g', 0 <= g' < gs → ¬ is_free profile range t g'.
Proof. intros (H1 & H2 & H3)%head_filter_seqZ. split; [done|]. split; [lia|]. auto. Qed.

(** ** The unique constraints *)

Lemma table_wf_snoc t row :
  table_wf t → ip_key row ∉ ip_key <$> t → user_key row ∉ user_key <$> t → table_wf (t ++ [row]).
Proof.
  intros [H1 H2] Hi Hu. unfold table_wf. rewrite !fmap_app. split; apply NoDup_app;
    (split; [done|]; split; [|apply NoDup_singleton]);
    intros x Hx Hx'; simpl in Hx'; apply list_elem_of_singleton in Hx'; congruence.
Qed.

Lemma sql_allocate_wf snap cur profile user range cur' row :
  table_wf cur → sql_allocate snap cur profile user range = Ok (cur', row) → table_wf cur'.
Proof.
  intros Hwf. unfold sql_allocate. repeat (case_match; try done); intros; simplify_eq; auto.
  by apply table_wf_snoc.
Qed.

Lemma insert_or_skip_wf t row : table_wf t → table_wf (insert_or_skip t row).
Proof.
  intros Hwf. unfold insert_or_skip. repeat case_decide; [done..|]. by apply table_wf_snoc.
Qed.

Lemma releasePeer_wf profile user t : table_wf t → table_wf (releasePeer profile user t).
Proof.
  intros [H1 H2]. split; by apply NoDup_fmap_filter.
Qed.

Lemma alloc_attempts_wf fuel i sched profile user subnet range t :
  (∀ i t, table_wf t → table_wf (sched i t)) → table_wf t →
  table_wf (alloc_attempts fuel i sched profile user subnet range t).1.
Proof.
  intros Hs. revert i t. induction fuel as [|fuel IH]; intros i t Ht; simpl; [done|].
  destruct (sql_allocate _ _ _ _ _) as [[cur' [row|]]|e] eqn:E; simpl.
  - eapply sql_allocate_wf; [|exact E]. auto.
  - assert (table_wf cur') by (eapply sql_allocate_wf; [|exact E]; auto).
    destruct (_ <=? _); simpl; auto.
  - auto.
Qed.

(** ** What an allocation returns *)

Lemma existing_spec profile user t r :
  existing profile user t = Some r → r ∈ t ∧ p_profile r = profile ∧ p_user r = user.
Proof.
  unfold existing. intros H%head_Some_elem_of. unfold peers_of in H.
  rewrite !list_elem_of_filter in H. tauto.
Qed.

Lemma existing_None profile user t :
  existing profile user t = None → ∀ r, r ∈ t → p_profile r = profile → p_user r ≠ user.
Proof.
  unfold existing. intros H%head_None r Hr Hp Hu.
  apply (not_elem_of_nil r). rewrite <-H. unfold peers_of. rewrite !list_elem_of_filter. done.
Qed.

(** What a fresh address must be. *)
Definition lowest_free (profile : string) (range : SubnetRange) (t : table) (gs : Z) : Prop :=
  0 <= gs <= lastUsable range - firstUsable range ∧ is_free profile range t gs ∧
  ∀ g', 0 <= g' < gs → ¬ is_free profile range t g'.

Lemma free_ip_key profile range t gs user :
  is_free profile range t gs → ip_key (mkPeer profile user (address range gs)) ∉ ip_key <$> t.
Proof.
  intros Hf (r & E & Hr)%list_elem_of_fmap. unfold ip_key in E. simpl in E. simplify_eq.
  apply Hf. apply list_elem_of_fmap. exists r. split; [congruence|].
  unfold peers_of. by apply list_elem_of_filter.
Qed.

Lemma no_user_key profile user t ip :
  existing profile user t = None → user_key (mkPeer profile user ip) ∉ user_key <$> t.
Proof.
  intros Hn (r & E & Hr)%list_elem_of_fmap. unfold user_key in E. simpl in E. simplify_eq.
  by eapply existing_None in Hn.
Qed.

(** The specification of one quiet allocation. *)
Definition allocate_spec (profile user subnet : string) (range : SubnetRange) (t : table)
    (out : table * result alloc_error peer) : Prop :=
  match existing profile user t with
  | Some r => out = (t, Ok r)
  | None =>
      (∃ gs, lowest_free profile range t gs ∧
         let row := mkPeer profile user (address range gs) in out = (t ++ [row], Ok row)) ∨
      ((∀ gs, 0 <= gs <= lastUsable range - firstUsable range → ¬ is_free profile range t gs) ∧
       out = (t, Throw (IpExhausted profile subnet)))
  end.

(** Every free slot of the subnet. *)
Definition all_free (profile : string) (range : SubnetRange) (t : table) : list Z :=
  free_slots profile range (lastUsable range - firstUsable range) t.

Lemma free_slots_mono profile range b b' t : b <= b' →
  free_slots profile range b t `sublist_of` free_slots profile range b' t.
Proof.
  intros Hb. unfold free_slots.
  set (k := Z.min _ b + 1). set (k' := Z.min _ b' + 1). assert (k <= k') as Hk by lia.
  destruct (decide (0 <= k)); [|by rewrite seqZ_nil by lia; apply sublist_nil_l].
  replace k' with (k + (k' - k)) by lia. rewrite seqZ_app by lia. rewrite filter_app.
  by apply sublist_inserts_r.
Qed.

(** The bulk scan finds as many free slots as it needs, or all there are. *)
Lemma bulk_scan_enough cidr range profile t n : parseSubnet cidr = Ok range →
  Nat.min n (length (free_slots profile range (count_peers profile t + Z.of_nat n) t)) =
  Nat.min n (length (all_free profile range t)).
Proof.
  intros Hr. pose proof (capacity_pos _ _ Hr) as Hcap.
  set (size1 := lastUsable range - firstUsable range) in *.
  set (b := count_peers profile t + Z.of_nat n).
  destruct (decide (size1 <= b)).
  - unfold all_free, free_slots. fold size1. by rewrite !Z.min_l by lia.
  - pose proof (free_among_slots profile range t (seqZ 0 (b + 1))) as Hlen.
    specialize (Hlen (slots_NoDup cidr range b Hr ltac:(lia))).
    assert (n <= length (free_slots profile range b t))%nat as H1.
    { unfold free_slots. fold size1. rewrite Z.min_r by lia. rewrite length_seqZ in Hlen.
      unfold b, count_peers in *. lia. }
    assert (length (free_slots profile range b t) <= length (all_free profile range t))%nat.
    { apply sublist_length, free_slots_mono. fold size1. lia. }
    lia.
Qed.

Lemma insert_all t rows : table_wf (t ++ rows) → foldl insert_or_skip t rows = t ++ rows.
Proof.
  revert t. induction rows as [|r rows IH]; intros t Hwf; simpl; [by rewrite app_nil_r|].
  assert (insert_or_skip t r = t ++ [r]) as ->.
  { unfold insert_or_skip. destruct Hwf as [Hi Hu]. rewrite !fmap_app, !fmap_cons in *.
    apply NoDup_app in Hi as (_ & Hi & _), Hu as (_ & Hu & _).
    rewrite !decide_False; [done| |]; [intros H%Hu|intros H%Hi]; apply H; left. }
  rewrite IH; rewrite <-app_assoc; [done|]. by rewrite <-app_assoc in Hwf || idtac.
Qed.

Lemma needed_spec profile userIds t u :
  u ∈ needed profile userIds t ↔ u ∈ userIds ∧ u ∉ p_user <$> peers_of profile t.
Proof. unfold needed. rewrite elem_of_sort_by, list_elem_of_filter. tauto. Qed.

Lemma needed_NoDup profile userIds t : NoDup userIds → NoDup (needed profile userIds t).
Proof. intros. unfold needed. rewrite sort_by_perm. by apply NoDup_filter. Qed.

Lemma bulk_rows_users profile userIds range t :
  let rows := bulk_rows profile userIds range t in
  p_user <$> rows = take (length rows) (needed profile userIds t).
Proof.
  unfold bulk_rows. set (need := needed _ _ _). set (slots := take _ _).
  simpl. generalize slots. clear slots. intros slots.
  revert slots. induction need as [|u need IH]; intros [|s slots]; simpl; try done.
  f_equal. apply IH.
Qed.

Lemma bulk_rows_shape profile userIds range t r :
  r ∈ bulk_rows profile userIds range t → p_profile r = profile ∧
  ∃ gs, p_ip r = address range gs ∧ gs ∈ all_free profile range t.
Proof.
  intros (i & Hi)%list_elem_of_lookup. unfold bulk_rows in Hi.
  apply lookup_zip_with_Some in Hi as (u & gs & -> & _ & Hgs). simpl. split; [done|].
  exists gs. split; [done|]. apply list_elem_of_lookup_2, elem_of_take in Hgs as (j & Hgs & _).
  apply list_elem_of_lookup_2, elem_of_free_slots in Hgs.
  apply elem_of_free_slots. split; [tauto|lia].
Qed.

Lemma bulk_rows_ips profile userIds range t cidr : parseSubnet cidr = Ok range →
  NoDup (p_ip <$> bulk_rows profile userIds range t).
Proof.
  intros Hr. unfold bulk_rows. set (need := needed _ _ _).
  set (slots := free_slots _ _ _ _).
  assert (NoDup (address range <$> take (length need) slots)) as Hnd.
  { apply NoDup_fmap_2_strong; [|eapply sublist_NoDup; [|apply sublist_take]].
    - intros x y Hx Hy E.
      assert (∀ z, z ∈ take (length need) slots → 0 <= z <= lastUsable range - firstUsable range) as Hz.
      { intros z Hz. apply elem_of_take in Hz as (j & Hz & _).
        apply list_elem_of_lookup_2, elem_of_free_slots in Hz. lia. }
      eapply address_inj; eauto.
    - unfold slots, free_slots. apply NoDup_filter, NoDup_seqZ. }
  revert Hnd. generalize (take (length need) slots) as l. clear. intros l.
  revert l. induction need as [|u need IH]; intros l Hnd; [by destruct l; constructor|].
  destruct l as [|g l]; [constructor|]. cbn [zip_with].
  rewrite fmap_cons, NoDup_cons in Hnd. destruct Hnd as [Hg Hl].
  rewrite fmap_cons, NoDup_cons. split; [|by apply IH].
  intros (r & E & Hr)%list_elem_of_fmap. apply Hg.
  apply list_elem_of_lookup in Hr as (i & Hi).
  apply lookup_zip_with_Some in Hi as (u' & g' & -> & _ & Hg'). simpl in E.
  rewrite E. apply list_elem_of_fmap. exists g'. split; [done|]. by apply list_elem_of_lookup_2 in Hg'.
Qed.

Lemma bulk_rows_wf profile userIds range t cidr : parseSubnet cidr = Ok range →
  NoDup userIds → table_wf t → table_wf (t ++ bulk_rows profile userIds range t).
Proof.
  intros Hr Hnd [Hi Hu]. set (rows := bulk_rows _ _ _ _).
  assert (∀ r, r ∈ rows → p_profile r = profile) as Hp.
  { intros r [? _]%bulk_rows_shape. done. }
  split; rewrite fmap_app; apply NoDup_app; (split; [done|]); split.
  - intros k Hk (r & -> & Hrow)%list_elem_of_fmap.
    apply bulk_rows_shape in Hrow as (Hpr & gs & Hip & Hgs).
    apply elem_of_free_slots in Hgs as [Hgs _].
    apply (free_ip_key profile range t gs (p_user r) Hgs).
    unfold ip_key in *. simpl. by rewrite <-Hip, <-Hpr.
  - apply (NoDup_fmap_1 snd). rewrite <-list_fmap_compose. unfold compose, ip_key. simpl.
    by eapply bulk_rows_ips.
  - intros k Hk (r & -> & Hrow)%list_elem_of_fmap.
    assert (p_user r ∈ needed profile userIds t) as Hn.
    { apply (list_elem_of_fmap_2 p_user) in Hrow. unfold rows in Hrow.
      rewrite bulk_rows_users in Hrow. apply elem_of_take in Hrow as (j & Hj & _).
      by eapply list_elem_of_lookup_2. }
    apply needed_spec in Hn as [_ Hn]. apply Hn.
    apply list_elem_of_fmap in Hk as (r' & E & Hr'). unfold user_key in E.
    injection E as E1 E2. apply list_elem_of_fmap. exists r'. split; [done|].
    unfold peers_of. apply list_elem_of_filter. split; [|done]. rewrite <-E1. by apply Hp.
  - apply (NoDup_fmap_1 snd). rewrite <-list_fmap_compose. unfold compose, user_key. simpl.
    fold (p_user <$> rows). unfold rows. rewrite bulk_rows_users.
    eapply sublist_NoDup; [by apply needed_NoDup|apply sublist_take].
Qed.

Lemma read_back u rows m : NoDup (p_user <$> rows) →
  jm_get u (foldl (λ m r, jm_set (p_user r) (p_ip r) m) m rows) =
  match head (filter (λ r, p_user r = u) rows) with
  | Some r => Some (p_ip r) | None => jm_get u m
  end.
Proof.
  revert m. induction rows as [|r rows IH]; intros m Hnd; [done|].
  rewrite fmap_cons, NoDup_cons in Hnd. destruct Hnd as [Hr Hnd]. cbn [foldl].
  rewrite IH, jm_get_set by done. rewrite filter_cons. case_decide as Hd; simpl.
  - destruct (head (filter _ rows)) as [r'|] eqn:E; [|by rewrite decide_True by congruence].
    exfalso. apply Hr. apply head_Some_elem_of, list_elem_of_filter in E as [E1 E2].
    apply list_elem_of_fmap. exists r'. split; [congruence|done].
  - by rewrite decide_False by congruence.
Qed.

Lemma filter_user_profile (userIds : list string) u (l : list peer) : u ∈ userIds →
  filter (λ r, p_user r = u) (filter (λ r, p_user r ∈ userIds) l) = filter (λ r, p_user r = u) l.
Proof.
  intros Hu. rewrite list_filter_filter_l; [done|]. by intros r ->.
Qed.

Lemma table_wf_users profile t : table_wf t → NoDup (p_user <$> peers_of profile t).
Proof.
  intros [_ Hu]. unfold peers_of. apply (NoDup_fmap_1 (λ u, (profile, u))).
  rewrite <-list_fmap_compose. unfold compose.
  assert ((λ r, (profile, p_user r)) <$> filter (λ r, p_profile r = profile) t =
          user_key <$> filter (λ r, p_profile r = profile) t) as ->.
  { apply list_fmap_ext. intros i r Hr. apply list_elem_of_lookup_2, list_elem_of_filter in Hr.
    unfold user_key. by destruct Hr as [-> _]. }
  by apply NoDup_fmap_filter.
Qed.

(** ** Theorems *)

(** C27. A quiet [allocatePeer] meets its contract: a user who has a row gets
    it back and the table is unchanged; otherwise the user gets the lowest
    address of the subnet no row of the profile holds, although the statement
    scans only as many candidates as the profile has rows; and
    [IpExhaustedError] is raised exactly when no address of the subnet is
    free.  In no case is a retry needed. *)
Theorem allocatePeer_idle profile user subnet range t :
  parseSubnet subnet = Ok range →
  allocate_spec profile user subnet range t (allocatePeer idle profile user subnet t).
Proof.
  intros Hr. unfold allocatePeer, allocate_spec, maxAttempts. rewrite Hr.
  cbn [alloc_attempts]. change (idle ?i ?t) with t. unfold sql_allocate.
  destruct (existing profile user t) as [r|] eqn:Eex; [done|].
  destruct (head _) as [gs|] eqn:Eh.
  - apply bounded_scan_lowest in Eh as (Hfree & Hgs & Hlow).
    rewrite decide_False by (by apply free_ip_key).
    rewrite decide_False by (by apply no_user_key). left. by exists gs.
  - apply head_None, (bounded_scan_none _ _ _ _ Hr) in Eh as [Hcap Hnone].
    rewrite (proj2 (Z.leb_le _ _)) by done. by right.
Qed.

Lemma allocatePeer_idle_witness :
  ∃ range, parseSubnet "10.0.0.0/30" = Ok range ∧
    allocatePeer idle "p" "u" "10.0.0.0/30" [mkPeer "q" "u" "10.0.0.2"] =
      ([mkPeer "q" "u" "10.0.0.2"; mkPeer "p" "u" "10.0.0.2"], Ok (mkPeer "p" "u" "10.0.0.2")) ∧
    allocate_spec "p" "v" "10.0.0.0/30" range [mkPeer "p" "u" "10.0.0.2"]
      (allocatePeer idle "p" "v" "10.0.0.0/30" [mkPeer "p" "u" "10.0.0.2"]).
Proof.
  eexists. split; [vm_compute; reflexivity|]. split; [vm_compute; reflexivity|].
  apply allocatePeer_idle. vm_compute. reflexivity.
Defined.

(** Whatever other transactions do between its statements, an
    [allocatePeer] keeps both unique constraints: no two users of a profile
    ever share an address and no user ever holds two. *)
Theorem allocatePeer_keeps_constraints sched profile user subnet t :
  (∀ i t, table_wf t → table_wf (sched i t)) → table_wf t →
  table_wf (allocatePeer sched profile user subnet t).1.
Proof.
  intros Hs Ht. unfold allocatePeer. destruct (parseSubnet subnet); [|done].
  by apply alloc_attempts_wf.
Qed.

Lemma table_wf_nil : table_wf [].
Proof. split; constructor. Qed.

(** A concurrent allocation of another user, each time the schedule runs. *)
Definition rival : schedule := λ i t,
  (allocatePeer idle "p" (pretty (Z.of_nat i)) "10.0.0.0/24" t).1.

Lemma rival_wf i t : table_wf t → table_wf (rival i t).
Proof.
  intros Ht. unfold rival, allocatePeer. destruct (parseSubnet _); [|done].
  apply alloc_attempts_wf; [by intros|done].
Qed.

Lemma allocatePeer_keeps_constraints_witness :
  table_wf (allocatePeer rival "p" "u" "10.0.0.0/24" []).1 ∧
  length (allocatePeer rival "p" "u" "10.0.0.0/24" []).1 = 36%nat.
Proof.
  split; [|vm_compute; reflexivity].
  apply (allocatePeer_keeps_constraints rival "p" "u" "10.0.0.0/24" []).
  - exact rival_wf.
  - exact table_wf_nil.
Defined.

(** The bulk allocation: on a quiet database [preallocatePeers] appends
    one row to each of the first [k] users (in id order) that lack one, where
    [k] is the smaller of their number and the free addresses of the subnet;
    the result keeps both constraints, and the returned map is exactly the
    requested users' rows. *)
Theorem preallocatePeers_idle profile userIds subnet range t :
  parseSubnet subnet = Ok range → userIds ≠ [] → NoDup userIds → table_wf t →
  ∃ rows m, preallocatePeers profile userIds subnet id t = Ok (t ++ rows, m) ∧
    table_wf (t ++ rows) ∧
    p_user <$> rows = take (length rows) (needed profile userIds t) ∧
    length rows = Nat.min (length (needed profile userIds t)) (length (all_free profile range t)) ∧
    (∀ r, r ∈ rows → p_profile r = profile ∧
       ∃ gs, p_ip r = address range gs ∧ gs ∈ all_free profile range t) ∧
    ∀ u, u ∈ userIds → jm_get u m = p_ip <$> existing profile u (t ++ rows).
Proof.
  intros Hr Hne Hnd Ht. pose proof (bulk_rows_wf profile userIds range t _ Hr Hnd Ht) as Hwf.
  unfold preallocatePeers. rewrite bool_decide_eq_false_2, Hr by done. unfold id.
  rewrite insert_all by done. eexists _, _. split; [done|]. split; [done|].
  split; [apply bulk_rows_users|]. split; [|split; [apply bulk_rows_shape|]].
  - unfold bulk_rows. rewrite length_zip_with, length_take.
    rewrite <-(bulk_scan_enough _ _ profile t (length (needed profile userIds t)) Hr). lia.
  - intros u Hu. rewrite read_back by (apply NoDup_fmap_filter; by apply table_wf_users).
    rewrite filter_user_profile by done. unfold existing. by destruct (head _).
Qed.

Lemma preallocatePeers_idle_witness :
  ∃ rows m, preallocatePeers "p" ["b"; "a"] "10.0.0.0/29" id [mkPeer "p" "c" "10.0.0.2"] =
      Ok ([mkPeer "p" "c" "10.0.0.2"] ++ rows, m) ∧
    rows = [mkPeer "p" "a" "10.0.0.3"; mkPeer "p" "b" "10.0.0.4"] ∧
    jm_get "b" m = Some "10.0.0.4".
Proof.
  destruct (preallocatePeers_idle "p" ["b"; "a"] "10.0.0.0/29"
    (mkSubnetRange 167772160 29 167772161 167772162 167772166) [mkPeer "p" "c" "10.0.0.2"])
    as (rows & m & E & _).
  - vm_compute. reflexivity.
  - discriminate.
  - apply (bool_decide_unpack _). vm_compute. done.
  - split; apply (bool_decide_unpack _); vm_compute; done.
  - exists rows, m. split; [exact E|].
    assert (preallocatePeers "p" ["b"; "a"] "10.0.0.0/29" id [mkPeer "p" "c" "10.0.0.2"] =
      Ok ([mkPeer "p" "c" "10.0.0.2"; mkPeer "p" "a" "10.0.0.3"; mkPeer "p" "b" "10.0.0.4"],
          [("a", "10.0.0.3"); ("b", "10.0.0.4")])) as E' by (vm_compute; reflexivity).
    rewrite E' in E. injection E as E1 E2. subst. split; [congruence|]. vm_compute. reflexivity.
Defined.

(** The other request of the race below: a neighbour leaves, freeing a lower
    address, and the same user is allocated it by another request. *)
Definition same_user_race : schedule := λ i t,
  if bool_decide (i = 1%nat)
  then (allocatePeer idle "p" "u" "10.0.0.0/24" (releasePeer "p" "n" t)).1 else t.

(** Two requests for one user do not always collapse to one row: the
    statement's [ON CONFLICT] names (profile_id, ip) only, so when a lower
    address is freed and given to the same user between its snapshot and its
    insert, [allocatePeer] raises a unique violation on (profile_id, user_id)
    instead of returning the existing row. *)
Theorem allocatePeer_same_user_race :
  allocatePeer same_user_race "p" "u" "10.0.0.0/24" [mkPeer "p" "n" "10.0.0.2"] =
    ([mkPeer "p" "u" "10.0.0.2"], Throw (UniqueViolation "p" "u")).
Proof. vm_compute. reflexivity. Qed.
