(* ===== verification/Utf8.v ===== *)
(** Text as JavaScript holds it: a string is its list of UTF-16 code units,
    and [new TextDecoder('utf-8', { fatal: true })] turns bytes into one.

    Used where the panel reads text out of binary files (geo-dat.ts).  Case
    mapping is Unicode's; the table is not reproduced, [CaseMap] states what
    is relied on of it, and [ascii_case] is the part of it below 128. *)

From S2P Require Import Prelude.

Local Open Scope Z_scope.

Abbreviation jstr := (list Z) (only parsing).

(** An ASCII literal. *)
Definition js (s : string) : list Z :=
  (λ c, Z.of_nat (Ascii.nat_of_ascii c)) <$> String.list_ascii_of_string s.

Definition is_cont (b : Z) : bool := (0x80 <=? b) && (b <=? 0xBF).

(** UTF-16 code units of a code point. *)
Definition utf16 (cp : Z) : list Z :=
  if cp <? 0x10000 then [cp]
  else [0xD800 + (cp - 0x10000) / 0x400; 0xDC00 + (cp - 0x10000) mod 0x400].

(** The second byte's range depends on the first: no overlong form, no
    surrogate, nothing above U+10FFFF. *)
Definition second_of_3 (b0 b1 : Z) : bool :=
  (if b0 =? 0xE0 then 0xA0 <=? b1 else 0x80 <=? b1) &&
  (if b0 =? 0xED then b1 <=? 0x9F else b1 <=? 0xBF).

Definition second_of_4 (b0 b1 : Z) : bool :=
  (if b0 =? 0xF0 then 0x90 <=? b1 else 0x80 <=? b1) &&
  (if b0 =? 0xF4 then b1 <=? 0x8F else b1 <=? 0xBF).

Fixpoint utf8_decode (l : list Z) : option (list Z) :=
  match l with
  | [] => Some []
  | b0 :: l1 =>
      if b0 <=? 0x7F then (λ r, b0 :: r) <$> utf8_decode l1
      else
        match l1 with
        | [] => None
        | b1 :: l2 =>
            if (0xC2 <=? b0) && (b0 <=? 0xDF) then
              if is_cont b1
              then (λ r, utf16 ((b0 - 0xC0) * 0x40 + (b1 - 0x80)) ++ r) <$> utf8_decode l2
              else None
            else
              match l2 with
              | [] => None
              | b2 :: l3 =>
                  if (0xE0 <=? b0) && (b0 <=? 0xEF) then
                    if second_of_3 b0 b1 && is_cont b2
                    then (λ r, utf16 ((b0 - 0xE0) * 0x1000 + (b1 - 0x80) * 0x40 + (b2 - 0x80)) ++ r)
                           <$> utf8_decode l3
                    else None
                  else
                    match l3 with
                    | [] => None
                    | b3 :: l4 =>
                        if (0xF0 <=? b0) && (b0 <=? 0xF4) then
                          if second_of_4 b0 b1 && is_cont b2 && is_cont b3
                          then (λ r, utf16 ((b0 - 0xF0) * 0x40000 + (b1 - 0x80) * 0x1000
                                            + (b2 - 0x80) * 0x40 + (b3 - 0x80)) ++ r)
                                 <$> utf8_decode l4
                          else None
                        else None
                    end
              end
        end
  end.

(** [utf8.decode(bytes)]: [None] when it throws.  The byte-order mark is not
    part of the text (the decoder's [ignoreBOM] is false). *)
Definition utf8_text (l : list Z) : option (list Z) :=
  match l with
  | 0xEF :: 0xBB :: 0xBF :: r => utf8_decode r
  | _ => utf8_decode l
  end.

Definition is_ascii (s : list Z) : Prop := Forall (λ u, 0 <= u < 128) s.

Definition unit_lower (u : Z) : Z := if (65 <=? u) && (u <=? 90) then u + 32 else u.
Definition unit_upper (u : Z) : Z := if (97 <=? u) && (u <=? 122) then u - 32 else u.

(** [toLowerCase] and [toUpperCase]. *)
Class CaseMap := {
  to_lower : list Z → list Z;
  to_upper : list Z → list Z;
  to_lower_ascii : ∀ s, is_ascii s → to_lower s = unit_lower <$> s;
  to_upper_ascii : ∀ s, is_ascii s → to_upper s = unit_upper <$> s
}.

#[global] Instance ascii_case : CaseMap := {
  to_lower s := unit_lower <$> s;
  to_upper s := unit_upper <$> s;
  to_lower_ascii _ _ := eq_refl;
  to_upper_ascii _ _ := eq_refl
}.

(** [Array.prototype.sort()] of strings compares code units. *)
Fixpoint units_ltb (a b : list Z) : bool :=
  match a, b with
  | [], _ :: _ => true
  | x :: a, y :: b => (x <? y) || ((x =? y) && units_ltb a b)
  | _, [] => false
  end.
Definition units_leb (a b : list Z) : bool := negb (units_ltb b a).

(** [s.split(c)], with the first part apart: there is always one. *)
Fixpoint split_units (c : Z) (l : list Z) : list Z * list (list Z) :=
  match l with
  | [] => ([], [])
  | u :: l =>
      let '(h, t) := split_units c l in
      if u =? c then ([], h :: t) else (u :: h, t)
  end.

(** ** Facts *)
Lemma utf8_decode_ascii s : is_ascii s → utf8_decode s = Some s.
Proof.
  induction 1 as [|u s Hu Hs IH]; simpl; [done|].
  rewrite (proj2 (Z.leb_le u 127)) by lia. by rewrite IH.
Qed.

Lemma utf8_text_ascii s : is_ascii s → utf8_text s = Some s.
Proof.
  intros Hs. rewrite <-(utf8_decode_ascii s Hs). unfold utf8_text.
  destruct Hs as [|u s Hu Hs]; [done|]. repeat (case_match; try done); subst; lia.
Qed.

Lemma is_ascii_js s :
  Forall (λ c, (Ascii.nat_of_ascii c < 128)%nat) (String.list_ascii_of_string s) → is_ascii (js s).
Proof. intros H. unfold is_ascii, js. apply Forall_fmap. eapply Forall_impl; [exact H|]. simpl. lia. Qed.

Lemma unit_lower_upper_inj u v :
  unit_upper u = u → unit_upper v = v → unit_lower u = unit_lower v → u = v.
Proof.
  unfold unit_upper, unit_lower.
  destruct (Z.leb_spec 97 u), (Z.leb_spec u 122), (Z.leb_spec 97 v), (Z.leb_spec v 122),
    (Z.leb_spec 65 u), (Z.leb_spec u 90), (Z.leb_spec 65 v), (Z.leb_spec v 90); simpl; lia.
Qed.

Lemma units_ltb_irrefl a : units_ltb a a = false.
Proof. induction a as [|x a IH]; simpl; [done|]. by rewrite Z.ltb_irrefl, Z.eqb_refl. Qed.

Lemma units_ltb_trans a b c : units_ltb a b = true → units_ltb b c = true → units_ltb a c = true.
Proof.
  revert b c. induction a as [|x a IH]; intros [|y b] [|z c]; simpl; try done.
  rewrite !orb_true_iff, !andb_true_iff, !Z.ltb_lt, !Z.eqb_eq.
  intros [?|[? ?]] [?|[? ?]]; try (left; lia). right. split; [lia|]. eauto.
Qed.

Lemma units_leb_total a b : units_leb a b = false → units_leb b a = true.
Proof.
  unfold units_leb. rewrite negb_false_iff, negb_true_iff. intros H.
  destruct (units_ltb a b) eqn:E; [|done].
  pose proof (units_ltb_trans _ _ _ H E) as C. by rewrite units_ltb_irrefl in C.
Qed.

Lemma units_ltb_trichotomy a b : units_ltb a b = false → units_ltb b a = false → a = b.
Proof.
  revert b. induction a as [|x a IH]; intros [|y b]; simpl; try done.
  rewrite !orb_false_iff, !Z.ltb_ge. intros [H1 H2] [H3 H4].
  assert (x = y) as -> by lia. rewrite Z.eqb_refl in *. simpl in *. f_equal. auto.
Qed.

Lemma units_leb_trans a b c : units_leb a b = true → units_leb b c = true → units_leb a c = true.
Proof.
  unfold units_leb. rewrite !negb_true_iff. intros Hba Hcb.
  destruct (units_ltb c a) eqn:Eca; [|done].
  destruct (units_ltb a b) eqn:Eab.
  - pose proof (units_ltb_trans _ _ _ Eca Eab). congruence.
  - rewrite (units_ltb_trichotomy a b) in Eca by done. congruence.
Qed.
