(* ===== verification/GeoDat.v ===== *)
(** The v2fly geo file reader
    (apps/panel-backend/src/modules/geo-sets/geo-dat.ts, its first half).

    [Reader] is the wire-format cursor: a buffer, a position and the bound it
    may not cross.  Its methods return the new position, or the error with the
    byte where reading stopped.  Every [while (!r.done())] of the source is
    [fields_loop] with that loop's body.  [parseGeoDat] reads a whole file
    under one of the two schemas and indexes its tags. *)

From S2P Require Import Prelude Js Utf8.

Local Open Scope Z_scope.

Inductive geo_kind := geosite | geoip.

#[global] Instance geo_kind_eq_dec : EqDecision geo_kind.
Proof. solve_decision. Defined.

(** The messages of [GeoDatError]. *)
Inductive geo_message :=
  | EndsInNumber
  | NumberTooLong
  | FieldZero
  | RunsPast (len left : Z)
  | NotUtf8 (what : string)
  | EndsInFixed
  | BadWireType (wire : Z)
  | WrongWire (what : string) (got want : Z)
  | DomainType (type : Z)
  | NoDomainValue
  | NoAttributeKey
  | AddressLength (n : Z)
  | NoAddress
  | PrefixTooLong (prefix : Z)
  | TopLevelField (field : Z)
  | NoCode
  | NoEntries
  | OtherKind (file_kind set_kind : geo_kind)
  | NotValid (kind : geo_kind) (inner : geo_message) (at_byte : Z)
  | OutOfFuel.

Record GeoDatError := mkGeoDatError { ge_message : geo_message; ge_offset : Z }.

Abbreviation read := (result GeoDatError).
Definition fail {A} (m : geo_message) (offset : Z) : read A := Throw (mkGeoDatError m offset).

(** ** The cursor *)
Section Reader.
Context (buf : list Z) (stop : Z).

(** [this.buf[pos]]: [undefined] past the buffer, which [&] reads as 0. *)
Definition byte_at (pos : Z) : Z := default 0 (buf !! Z.to_nat pos).

(** [this.pos >= this.end]. *)
Definition done (pos : Z) : bool := stop <=? pos.

Fixpoint varint_loop (n : nat) (acc shift pos : Z) : read (Z * Z) :=
  match n with
  | O => fail NumberTooLong pos
  | S n =>
      if stop <=? pos then fail EndsInNumber pos
      else
        let b := byte_at pos in
        let acc := fl_add acc (Z.land b 0x7f * 2 ^ shift) in
        if Z.land b 0x80 =? 0 then Ok (acc, pos + 1)
        else varint_loop n acc (shift + 7) (pos + 1)
  end.

Definition varint (pos : Z) : read (Z * Z) := varint_loop 10 0 0 pos.

(** (field, wire, at) and the position after the key. *)
Definition key (pos : Z) : read (Z * Z * Z) :=
  '(k, pos') ← varint pos;
  if k / 8 =? 0 then fail FieldZero pos else Ok (k / 8, k mod 8, pos').

(** The bounds of a length-delimited value; reading goes on at its end. *)
Definition bytes (pos : Z) : read (Z * Z) :=
  '(len, start) ← varint pos;
  let e := fl_add start len in
  if stop <? e then fail (RunsPast len (stop - start)) pos else Ok (start, e).

(** [buf.subarray(start, end)]. *)
Definition subarray (start e : Z) : list Z := take (Z.to_nat (e - start)) (drop (Z.to_nat start) buf).

Definition read_string (what : string) (pos : Z) : read (list Z * Z) :=
  '(start, e) ← bytes pos;
  match utf8_text (subarray start e) with
  | Some s => Ok (s, e)
  | None => fail (NotUtf8 what) start
  end.

Definition advance (n at_ pos : Z) : read Z :=
  if stop <? pos + n then fail EndsInFixed at_ else Ok (pos + n).

Definition skip (wire at_ pos : Z) : read Z :=
  match wire with
  | 0 => '(_, pos) ← varint pos; Ok pos
  | 1 => advance 8 at_ pos
  | 2 => '(_, e) ← bytes pos; Ok e
  | 5 => advance 4 at_ pos
  | _ => fail (BadWireType wire) at_
  end.

(** [while (!r.done()) { const { field, wire, at } = r.key(); body }].  Each
    round reads at least the key's one byte, so [stop - pos] rounds suffice
    ([fields_loop_fuel]). *)
Fixpoint fields_loop {S} (body : S → Z → Z → Z → Z → read (S * Z)) (fuel : nat) (s : S) (pos : Z)
    : read S :=
  if done pos then Ok s
  else
    match fuel with
    | O => fail OutOfFuel pos
    | Datatypes.S fuel =>
        '(field, wire, p) ← key pos;
        '(s, p) ← body s field wire pos p;
        fields_loop body fuel s p
    end.

Definition fields {S} (body : S → Z → Z → Z → Z → read (S * Z)) (s : S) (pos : Z) : read S :=
  fields_loop body (Z.to_nat (stop - pos)) s pos.
End Reader.

Definition expectWire (what : string) (got want at_ : Z) : read unit :=
  if got =? want then Ok tt else fail (WrongWire what got want) at_.

(** ** The schemas *)
Record RawEntry := mkRawEntry {
  re_code : list Z;
  re_codeFirst : bool;
  re_start : Z;
  re_end : Z;
  re_entries : Z;
  re_attrs : list (list Z)
}.

Record Domain := mkDomain { d_type : Z; d_value : list Z; d_attrs : list (list Z) }.

Section Schemas.
Context `{CaseMap} (buf : list Z).

Definition readAttribute_body (stop : Z) (k : list Z) (field wire at_ pos : Z) : read (list Z * Z) :=
  if field =? 1 then
    _ ← expectWire "the key of an attribute" wire 2 at_;
    read_string buf stop "the key of an attribute" pos
  else
    pos ← skip buf stop wire at_ pos; Ok (k, pos).

Definition readAttribute (start stop : Z) : read (list Z) :=
  k ← fields buf stop (readAttribute_body stop) [] start;
  if bool_decide (k = []) then fail NoAttributeKey stop else Ok k.

(** The state is the domain read so far and the caller's [attrsSeen]. *)
Definition readDomain_body (stop : Z) (s : Domain * list (list Z)) (field wire at_ pos : Z)
    : read ((Domain * list (list Z)) * Z) :=
  let '(d, seen) := s in
  if field =? 1 then
    _ ← expectWire "the type of a domain" wire 0 at_;
    '(t, pos) ← varint buf stop pos;
    if 3 <? t then fail (DomainType t) at_
    else Ok ((mkDomain t (d_value d) (d_attrs d), seen), pos)
  else if field =? 2 then
    _ ← expectWire "the value of a domain" wire 2 at_;
    '(v, pos) ← read_string buf stop "the value of a domain" pos;
    Ok ((mkDomain (d_type d) v (d_attrs d), seen), pos)
  else if field =? 3 then
    _ ← expectWire "an attribute" wire 2 at_;
    '(start, e) ← bytes buf stop pos;
    k ← readAttribute start e;
    let seen := if bool_decide (k = to_lower k) then set_add k seen else seen in
    Ok ((mkDomain (d_type d) (d_value d) (d_attrs d ++ [k]), seen), e)
  else
    pos ← skip buf stop wire at_ pos; Ok ((d, seen), pos).

Definition readDomain (start stop : Z) (seen : list (list Z)) : read (Domain * list (list Z)) :=
  r ← fields buf stop (readDomain_body stop) (mkDomain 0 [] [], seen) start;
  if bool_decide (d_value r.1 = []) then fail NoDomainValue stop else Ok r.

(** The state is the entry and whether no field was read yet. *)
Definition readSite_body (stop : Z) (s : RawEntry * bool) (field wire at_ pos : Z)
    : read ((RawEntry * bool) * Z) :=
  let '(e, first) := s in
  if field =? 1 then
    _ ← expectWire "the code of a geosite entry" wire 2 at_;
    '(code, pos) ← read_string buf stop "the code of a geosite entry" pos;
    Ok ((mkRawEntry code first (re_start e) (re_end e) (re_entries e) (re_attrs e), false), pos)
  else if field =? 2 then
    _ ← expectWire "a domain" wire 2 at_;
    '(start, fin) ← bytes buf stop pos;
    '(_, attrs) ← readDomain start fin (re_attrs e);
    Ok ((mkRawEntry (re_code e) (re_codeFirst e) (re_start e) (re_end e) (re_entries e + 1) attrs,
         false), fin)
  else
    pos ← skip buf stop wire at_ pos; Ok ((e, false), pos).

Definition readSite (start stop : Z) (into : RawEntry) : read RawEntry :=
  r ← fields buf stop (readSite_body stop) (into, true) start; Ok r.1.

(** The address is [null] until its field is met. *)
Definition readCidr_body (stop : Z) (s : option (list Z) * Z) (field wire at_ pos : Z)
    : read ((option (list Z) * Z) * Z) :=
  let '(ip, prefix) := s in
  if field =? 1 then
    _ ← expectWire "the address of a CIDR" wire 2 at_;
    '(start, e) ← bytes buf stop pos;
    let ip := subarray buf start e in
    let n := Z.of_nat (length ip) in
    if negb (n =? 4) && negb (n =? 16) then fail (AddressLength n) start
    else Ok ((Some ip, prefix), e)
  else if field =? 2 then
    _ ← expectWire "the prefix of a CIDR" wire 0 at_;
    '(p, pos) ← varint buf stop pos;
    Ok ((ip, p), pos)
  else
    pos ← skip buf stop wire at_ pos; Ok ((ip, prefix), pos).

Definition readCidr (start stop : Z) : read (list Z * Z) :=
  '(ip, prefix) ← fields buf stop (readCidr_body stop) (None, 0) start;
  match ip with
  | None => fail NoAddress stop
  | Some ip =>
      if Z.of_nat (length ip) * 8 <? prefix then fail (PrefixTooLong prefix) stop
      else Ok (ip, prefix)
  end.

Definition readIP_body (stop : Z) (s : RawEntry * bool) (field wire at_ pos : Z)
    : read ((RawEntry * bool) * Z) :=
  let '(e, first) := s in
  if field =? 1 then
    _ ← expectWire "the code of a geoip entry" wire 2 at_;
    '(code, pos) ← read_string buf stop "the code of a geoip entry" pos;
    Ok ((mkRawEntry code first (re_start e) (re_end e) (re_entries e) (re_attrs e), false), pos)
  else if field =? 2 then
    _ ← expectWire "a CIDR" wire 2 at_;
    '(start, fin) ← bytes buf stop pos;
    _ ← readCidr start fin;
    Ok ((mkRawEntry (re_code e) (re_codeFirst e) (re_start e) (re_end e) (re_entries e + 1)
           (re_attrs e), false), fin)
  else if field =? 3 then
    _ ← expectWire "reverse_match" wire 0 at_;
    '(_, pos) ← varint buf stop pos;
    Ok ((e, false), pos)
  else
    pos ← skip buf stop wire at_ pos; Ok ((e, false), pos).

Definition readIP (start stop : Z) (into : RawEntry) : read RawEntry :=
  r ← fields buf stop (readIP_body stop) (into, true) start; Ok r.1.

Definition walk_body (kind : geo_kind) (stop : Z) (out : list RawEntry) (field wire at_ pos : Z)
    : read (list RawEntry * Z) :=
  if negb (field =? 1) then fail (TopLevelField field) at_
  else
    _ ← expectWire "an entry" wire 2 at_;
    '(start, e) ← bytes buf stop pos;
    let into := mkRawEntry [] false start e 0 [] in
    entry ← (match kind with geosite => readSite start e into | geoip => readIP start e into end);
    if bool_decide (re_code entry = []) then fail NoCode start
    else Ok (out ++ [entry], e).

Definition walk (kind : geo_kind) : read (list RawEntry) :=
  let stop := Z.of_nat (length buf) in
  out ← fields buf stop (walk_body kind stop) [] 0;
  if bool_decide (length out = 0%nat) then fail NoEntries 0 else Ok out.
End Schemas.

(** ** The index *)
Record GeoDatEntry := mkGeoDatEntry {
  ge_name : list Z; ge_start : Z; ge_end : Z; ge_entries : Z; ge_attrs : list (list Z)
}.

Record GeoDatIndex := mkGeoDatIndex {
  gi_kind : geo_kind; gi_tags : list GeoDatEntry; gi_unreachable : list (list Z)
}.

Definition other_kind (k : geo_kind) : geo_kind :=
  match k with geosite => geoip | geoip => geosite end.

Section Index.
Context `{CaseMap}.

Definition tag_of (e : RawEntry) : GeoDatEntry :=
  mkGeoDatEntry (to_lower (re_code e)) (re_start e) (re_end e) (re_entries e)
    (sort_by units_leb (re_attrs e)).

(** One round of the tag loop: the tags, the unreachable codes and the
    upper-cased codes seen. *)
Definition index_step (s : list GeoDatEntry * list (list Z) * list (list Z)) (e : RawEntry)
    : list GeoDatEntry * list (list Z) * list (list Z) :=
  let '(tags, unreachable, seen) := s in
  let upper := to_upper (re_code e) in
  if bool_decide (re_code e ≠ upper) || negb (re_codeFirst e) || bool_decide (upper ∈ seen)
  then (tags, unreachable ++ [re_code e], seen)
  else (tags ++ [tag_of e], unreachable, seen ++ [upper]).

Definition parseGeoDat (buf : list Z) (kind : geo_kind) : read GeoDatIndex :=
  match walk buf kind with
  | Throw err =>
      match walk buf (other_kind kind) with
      | Ok _ => fail (OtherKind (other_kind kind) kind) (ge_offset err)
      | Throw _ => fail (NotValid kind (ge_message err) (ge_offset err)) (ge_offset err)
      end
  | Ok raw =>
      let '(tags, unreachable, _) := foldl index_step ([], [], []) raw in
      Ok (mkGeoDatIndex kind tags unreachable)
  end.

Record GeoSetTag := mkGeoSetTag { gt_name : list Z; gt_entries : Z; gt_attrs : option (list (list Z)) }.

Definition geoTagList (index : GeoDatIndex) : list GeoSetTag :=
  (λ t, mkGeoSetTag (ge_name t) (ge_entries t)
     (match gi_kind index with geosite => Some (ge_attrs t) | geoip => None end)) <$> gi_tags index.
End Index.

(** Whether the error reports the model's own fuel. *)
Fixpoint out_of_fuel (m : geo_message) : bool :=
  match m with OutOfFuel => true | NotValid _ m _ => out_of_fuel m | _ => false end.

(** ** Reasoning about the reader

    [rd_ok lo hi r Q]: the run [r] ends in a value with [Q], or in an error
    that names a byte of [lo..hi] and is not the model's running out of
    fuel. *)
Definition rd_ok {A} (lo hi : Z) (r : read A) (Q : A → Prop) : Prop :=
  match r with
  | Ok a => Q a
  | Throw e => out_of_fuel (ge_message e) = false ∧ lo <= ge_offset e <= hi
  end.

Lemma rd_bind {A B} lo hi (r : read A) (f : A → read B) Q R :
  rd_ok lo hi r Q → (∀ a, Q a → rd_ok lo hi (f a) R) → rd_ok lo hi (r ≫= f) R.
Proof. destruct r; simpl; auto. Qed.

Lemma rd_mono {A} lo hi lo' hi' (r : read A) (Q R : A → Prop) :
  rd_ok lo hi r Q → lo' <= lo → hi <= hi' → (∀ a, Q a → R a) → rd_ok lo' hi' r R.
Proof. destruct r; simpl; [auto|]. intros [??]. split; [done|lia]. Qed.

Lemma rd_seq {A B} lo hi lo' hi' (r : read A) (f : A → read B) Q R :
  rd_ok lo hi r Q → lo' <= lo → hi <= hi' → (∀ a, Q a → rd_ok lo' hi' (f a) R) →
  rd_ok lo' hi' (r ≫= f) R.
Proof. intros. eapply rd_bind; [|done]. by eapply rd_mono. Qed.

Lemma rd_fail {A} lo hi m off (Q : A → Prop) :
  out_of_fuel m = false → lo <= off <= hi → rd_ok lo hi (fail m off) Q.
Proof. done. Qed.

Lemma rd_ok_inv {A} lo hi (r : read A) Q a : rd_ok lo hi r Q → r = Ok a → Q a.
Proof. by intros H ->. Qed.

Section Reader_facts.
Context (buf : list Z) (stop : Z).
Hypothesis stop_small : stop < 2 ^ 53.

Lemma fl_acc_nonneg acc pos shift :
  0 <= acc → 0 <= fl_add acc (Z.land (byte_at buf pos) 127 * 2 ^ shift).
Proof.
  intros. apply fl_round_nonneg. pose proof (Z.land_nonneg (byte_at buf pos) 127).
  assert (0 <= 2 ^ shift) by (by apply Z.pow_nonneg). nia.
Qed.

Lemma varint_loop_rd n acc shift pos :
  0 <= acc → 0 <= pos <= stop →
  rd_ok pos stop (varint_loop buf stop n acc shift pos)
    (λ '(v, p), 0 <= v ∧ pos <= p <= stop ∧ (n ≠ O → pos < p)).
Proof.
  revert acc shift pos. induction n as [|n IH]; intros acc shift pos Hacc Hpos; simpl.
  - split; [done|simpl; lia].
  - destruct (Z.leb_spec stop pos); [split; [done|simpl; lia]|].
    pose proof (fl_acc_nonneg acc pos shift Hacc) as Ha.
    case_match; [simpl; lia|].
    eapply rd_mono; [apply IH; [done|lia]|lia|lia|]. intros [v p]. lia.
Qed.

Lemma varint_rd pos : 0 <= pos <= stop →
  rd_ok pos stop (varint buf stop pos) (λ '(v, p), 0 <= v ∧ pos < p <= stop).
Proof.
  intros. eapply rd_mono; [by apply varint_loop_rd| | |]; [lia..|]. intros [v p]. lia.
Qed.

Lemma key_rd pos : 0 <= pos <= stop →
  rd_ok pos stop (key buf stop pos) (λ '(_, _, p), pos < p <= stop).
Proof.
  intros. eapply rd_bind; [by apply varint_rd|]. intros [k p] ?.
  case_match; [apply rd_fail; [done|lia] | simpl; lia].
Qed.

Lemma bytes_rd pos : 0 <= pos <= stop →
  rd_ok pos stop (bytes buf stop pos) (λ '(s, e), pos < s ∧ s <= e <= stop).
Proof.
  intros. eapply rd_bind; [by apply varint_rd|]. intros [len s] ?. simpl.
  destruct (Z.ltb_spec stop (fl_add s len)) as [|Hle]; [split; [done|simpl; lia]|].
  simpl. unfold fl_add in *. destruct (decide (2 ^ 53 <= s + len)).
  - pose proof (fl_round_large (s + len) ltac:(done)). lia.
  - rewrite fl_round_small in * by lia. lia.
Qed.

Lemma read_string_rd what pos : 0 <= pos <= stop →
  rd_ok pos stop (read_string buf stop what pos) (λ '(_, p), pos < p <= stop).
Proof.
  intros. eapply rd_bind; [by apply bytes_rd|]. intros [s e] ?.
  case_match; [simpl; lia | apply rd_fail; [done|lia]].
Qed.

Lemma skip_rd wire at_ pos : 0 <= at_ <= pos → pos <= stop →
  rd_ok at_ stop (skip buf stop wire at_ pos) (λ p, pos <= p <= stop).
Proof.
  intros. assert (∀ n, 0 <= n → rd_ok at_ stop (advance stop n at_ pos) (λ p, pos <= p <= stop)).
  { intros n Hn. unfold advance. destruct (Z.ltb_spec stop (pos + n)); simpl; [|lia].
    split; [done|simpl; lia]. }
  assert (rd_ok at_ stop ('(_, p) ← varint buf stop pos; Ok p) (λ p, pos <= p <= stop)).
  { eapply rd_bind; [eapply rd_mono; [by apply varint_rd; lia|lia|done|intros ? HQ; exact HQ]|].
    intros [? ?] ?. simpl. lia. }
  assert (rd_ok at_ stop ('(_, e) ← bytes buf stop pos; Ok e) (λ p, pos <= p <= stop)).
  { eapply rd_bind; [eapply rd_mono; [by apply bytes_rd; lia|lia|done|intros ? HQ; exact HQ]|].
    intros [? ?] ?. simpl. lia. }
  unfold skip. repeat case_match; auto with lia; (apply rd_fail; [done|lia]).
Qed.

Lemma expectWire_rd what got want at_ : at_ <= stop →
  rd_ok at_ stop (expectWire what got want at_) (λ _, got = want).
Proof.
  intros. unfold expectWire. destruct (Z.eqb_spec got want); [done|]. apply rd_fail; [done|lia].
Qed.

(** The loop ends within its fuel, and an invariant of its body holds of the
    result. *)
Lemma fields_rd {S} (I : S → Prop) lo body (s : S) pos :
  0 <= lo <= pos → pos <= stop → I s →
  (∀ s field wire at_ p, I s → lo <= at_ < p → p <= stop →
     rd_ok lo stop (body s field wire at_ p) (λ '(s', p'), p <= p' <= stop ∧ I s')) →
  rd_ok lo stop (fields buf stop body s pos) I.
Proof.
  intros Hlo Hpos Hs Hbody. unfold fields.
  assert (stop - pos <= Z.of_nat (Z.to_nat (stop - pos))) as Hfuel by lia.
  revert Hfuel. generalize (Z.to_nat (stop - pos)) as fuel. intros fuel.
  assert (lo <= pos) as Hlp by lia. assert (0 <= pos) as Hp0 by lia. clear Hlo.
  revert s pos Hs Hpos Hlp Hp0. induction fuel as [|fuel IH]; intros s pos Hs Hpos Hlp Hp0 Hf; simpl;
    unfold done; (destruct (Z.leb_spec stop pos); [done|]); [lia|].
  eapply rd_bind; [eapply rd_mono; [apply key_rd; lia|lia|done|intros ? HQ; exact HQ]|].
  intros [[field wire] p] Hp. eapply rd_bind; [apply Hbody; [done|lia|lia]|].
  intros [s' p'] [? ?]. apply IH; [done|lia..].
Qed.

(** Two loops over the same bytes whose bodies consume the same of them. *)
Lemma fields_sim {S T} (R : S → T → Prop) b1 b2 s t pos s' :
  R s t →
  (∀ s t field wire at_ p s1 p1, R s t → b1 s field wire at_ p = Ok (s1, p1) →
     ∃ t1, b2 t field wire at_ p = Ok (t1, p1) ∧ R s1 t1) →
  fields buf stop b1 s pos = Ok s' → ∃ t', fields buf stop b2 t pos = Ok t' ∧ R s' t'.
Proof.
  intros Hst Hsim. unfold fields. generalize (Z.to_nat (stop - pos)) as fuel. intros fuel.
  revert s t pos Hst. induction fuel as [|fuel IH]; intros s t pos Hst; simpl;
    unfold done; destruct (stop <=? pos); try done; try (intros [= <-]; by eauto).
  destruct (key buf stop pos) as [[[field wire] p]|]; simpl; [|done].
  destruct (b1 s field wire pos p) as [[s1 p1]|] eqn:E1; simpl; [|done]. intros Hrun.
  destruct (Hsim _ _ _ _ _ _ _ _ Hst E1) as (t1 & -> & Ht1). simpl. by eapply IH.
Qed.

Lemma fields_inv {S} (I : S → Prop) b s pos s' :
  I s → (∀ s field wire at_ p s1 p1, I s → b s field wire at_ p = Ok (s1, p1) → I s1) →
  fields buf stop b s pos = Ok s' → I s'.
Proof.
  intros Hs Hb Hf.
  destruct (fields_sim (λ s t, s = t ∧ I s) b b s s pos s') as (t & _ & <- & Ht); [done| |done|done].
  intros x ? ?????? [<- Hx] E. eexists. split; [exact E|]. split; [done|]. by eapply Hb.
Qed.

Lemma varint_loop_nonneg n acc shift pos v p :
  0 <= acc → varint_loop buf stop n acc shift pos = Ok (v, p) → 0 <= v.
Proof.
  revert acc shift pos. induction n as [|n IH]; intros acc shift pos Hacc; simpl; [done|].
  destruct (stop <=? pos); [done|].
  assert (0 <= fl_add acc (Z.land (byte_at buf pos) 127 * 2 ^ shift)) as Ha by (by apply fl_acc_nonneg).
  destruct (_ =? 0); [by intros [= <- <-]|]. by apply IH.
Qed.

Lemma varint_nonneg pos v p : varint buf stop pos = Ok (v, p) → 0 <= v.
Proof. by apply varint_loop_nonneg. Qed.
End Reader_facts.

Create HintDb geo_rd discriminated.
#[export] Hint Resolve varint_rd key_rd bytes_rd read_string_rd skip_rd : geo_rd.
#[export] Hint Extern 1 (Z.le _ _) => lia : geo_rd.
#[export] Hint Extern 1 (Z.lt _ _) => lia : geo_rd.
#[export] Hint Extern 1 (Z.le _ _ ∧ _) => lia : geo_rd.

(** One read of a body: it stays in bounds by its fact in [geo_rd]. *)
Ltac rd_step :=
  match goal with
  | |- rd_ok _ _ (Ok _) _ => simpl
  | |- rd_ok _ _ (fail _ _) _ => apply rd_fail; [done|lia]
  | |- rd_ok _ ?hi (expectWire _ _ _ _ ≫= _) _ =>
      eapply rd_seq; [apply (expectWire_rd hi)|..]; [lia|lia|lia|intros ? ->]
  | |- rd_ok _ _ (_ ≫= _) _ =>
      eapply rd_seq; [solve [eauto with geo_rd]|lia|lia|]; first [intros [??] ? | intros ? ?]
  end.

Section Schema_facts.
Context `{CaseMap} (buf : list Z).

Lemma readAttribute_rd start stop : 0 <= start <= stop → stop < 2 ^ 53 →
  rd_ok start stop (readAttribute buf start stop) (λ k, k ≠ []).
Proof.
  intros. unfold readAttribute. eapply rd_bind.
  - apply (fields_rd buf stop (λ _, True)); [lia|lia|done|].
    intros s field wire at_ p _ ? ?. unfold readAttribute_body. case_match.
    + rd_step. eapply rd_mono; [apply read_string_rd; lia|lia|lia|]. intros [??]. simpl. intuition lia.
    + repeat rd_step. intuition lia.
  - intros k _. case_bool_decide; [rd_step | done].
Qed.
#[local] Hint Resolve readAttribute_rd : geo_rd.

Lemma readDomain_rd start stop seen : 0 <= start <= stop → stop < 2 ^ 53 →
  rd_ok start stop (readDomain buf start stop seen) (λ r, d_value r.1 ≠ [] ∧ 0 <= d_type r.1 <= 3).
Proof.
  intros. unfold readDomain. eapply rd_bind.
  - apply (fields_rd buf stop (λ r, 0 <= d_type r.1 <= 3)); [lia|lia|simpl; lia|].
    intros [d sn] field wire at_ p Hd ? ?. simpl in Hd. unfold readDomain_body.
    repeat case_match; try (repeat rd_step; intuition lia).
    + do 2 rd_step. destruct (Z.ltb_spec 3 z); rd_step. intuition lia.
  - intros r Hr. case_bool_decide; [rd_step|done].
Qed.
#[local] Hint Resolve readDomain_rd : geo_rd.

Lemma readCidr_rd start stop : 0 <= start <= stop → stop < 2 ^ 53 →
  rd_ok start stop (readCidr buf start stop)
    (λ '(ip, prefix), (length ip = 4%nat ∨ length ip = 16%nat) ∧
       0 <= prefix <= Z.of_nat (length ip) * 8).
Proof.
  intros. unfold readCidr. eapply rd_bind.
  - apply (fields_rd buf stop (λ r, 0 <= r.2 ∧
      ∀ ip, r.1 = Some ip → length ip = 4%nat ∨ length ip = 16%nat)); [lia|lia|done|].
    intros [ip pr] field wire at_ p [? Hip] ? ?. simpl in *. unfold readCidr_body.
    repeat case_match; try (repeat rd_step; simpl; intuition lia).
    do 2 rd_step. destruct (_ && _) eqn:E; [rd_step|]. simpl. split; [lia|]. split; [lia|].
    intros ? [= <-]. apply andb_false_iff in E as [E|E]; bool_prop; lia.
  - intros [ip pr] [? Hip]. simpl in *. destruct ip as [ip|]; [|rd_step].
    destruct (Z.ltb_spec (Z.of_nat (length ip) * 8) pr); [rd_step|]. simpl. auto.
Qed.
#[local] Hint Resolve readCidr_rd : geo_rd.

(** An entry's bounds are set by [walk] and never changed. *)
Definition same_slice (e e' : RawEntry) : Prop := re_start e' = re_start e ∧ re_end e' = re_end e.

Lemma readSite_rd start stop into : 0 <= start <= stop → stop < 2 ^ 53 →
  rd_ok start stop (readSite buf start stop into) (λ e, same_slice into e).
Proof.
  intros. unfold readSite. eapply rd_bind.
  - apply (fields_rd buf stop (λ r, same_slice into r.1)); [lia|lia|done|].
    intros [e first] field wire at_ p Hs ? ?. simpl in Hs. unfold readSite_body.
    repeat case_match; try (repeat rd_step; intuition lia).
  - intros r Hr. exact Hr.
Qed.

Lemma readIP_rd start stop into : 0 <= start <= stop → stop < 2 ^ 53 →
  rd_ok start stop (readIP buf start stop into) (λ e, same_slice into e).
Proof.
  intros. unfold readIP. eapply rd_bind.
  - apply (fields_rd buf stop (λ r, same_slice into r.1)); [lia|lia|done|].
    intros [e first] field wire at_ p Hs ? ?. simpl in Hs. unfold readIP_body.
    repeat case_match; try (repeat rd_step; intuition lia).
  - intros r Hr. exact Hr.
Qed.

Definition read_entry (kind : geo_kind) (start stop : Z) (into : RawEntry) : read RawEntry :=
  match kind with geosite => readSite buf start stop into | geoip => readIP buf start stop into end.

(** What [walk] knows of every entry it returns: it is the reading of its own
    slice, which lies in the file, and has a code. *)
Definition entry_ok (kind : geo_kind) (e : RawEntry) : Prop :=
  0 < re_start e ∧ re_start e <= re_end e <= Z.of_nat (length buf) ∧ re_code e ≠ [] ∧
  read_entry kind (re_start e) (re_end e) (mkRawEntry [] false (re_start e) (re_end e) 0 []) = Ok e.

Lemma walk_rd kind : Z.of_nat (length buf) < 2 ^ 53 →
  rd_ok 0 (Z.of_nat (length buf)) (walk buf kind) (λ raw, raw ≠ [] ∧ Forall (entry_ok kind) raw).
Proof.
  intros. unfold walk. eapply rd_bind.
  - apply (fields_rd buf _ (Forall (entry_ok kind))); [lia|lia|constructor|].
    intros out field wire at_ p Hout ? ?. unfold walk_body.
    case_match; [rd_step|]. do 2 rd_step.
    assert (rd_ok z z0 (read_entry kind z z0 (mkRawEntry [] false z z0 0 []))
              (same_slice (mkRawEntry [] false z z0 0 []))) as Hentry.
    { destruct kind; [apply readSite_rd|apply readIP_rd]; lia. }
    match goal with |- rd_ok _ _ (?m ≫= _) _ => change m with (read_entry kind z z0 (mkRawEntry [] false z z0 0 [])) end.
    destruct (read_entry _ _ _ _) as [e|err] eqn:Ee; simpl in *; [|intuition lia].
    destruct Hentry as [Hs He]. simpl in *. case_bool_decide; [rd_step|]. simpl. split; [lia|].
    apply Forall_app; split; [done|]. constructor; [|done].
    unfold entry_ok. rewrite Hs, He. repeat split; try lia; try done.
  - intros raw Hraw. case_bool_decide as Hl; [rd_step|]. split; [by intros ->|done].
Qed.
End Schema_facts.

(** ** The index and xray's scan *)

(** What the panel promises to mirror: xray scans the file for the first entry
    whose code is its first field and equals the rule's upper-cased tag byte
    for byte. *)
Definition xray_scan (raw : list RawEntry) (code : list Z) : option RawEntry :=
  js_find (λ e, re_codeFirst e && bool_decide (re_code e = code)) raw.

Section Index_facts.
Context `{CaseMap}.

Lemma index_step_split raw tags unr seen :
  ∃ ts us, (foldl index_step (tags, unr, seen) raw).1 = (tags ++ ts, unr ++ us) ∧
    (length ts + length us = length raw)%nat ∧
    Forall (λ t, ∃ e, e ∈ raw ∧ t = tag_of e) ts.
Proof.
  revert tags unr seen. induction raw as [|e raw IH]; intros tags unr seen.
  - exists [], []. by rewrite !app_nil_r.
  - simpl. case_match.
    + destruct (IH tags (unr ++ [re_code e]) seen) as (ts & us & -> & Hlen & Hts).
      exists ts, (re_code e :: us). rewrite <-app_assoc. split; [done|]. split; [simpl; lia|].
      eapply Forall_impl; [exact Hts|]. intros t (x & ? & ?). exists x. set_solver.
    + destruct (IH (tags ++ [tag_of e]) unr (seen ++ [to_upper (re_code e)])) as (ts & us & -> & Hlen & Hts).
      exists (tag_of e :: ts), us. rewrite <-app_assoc. split; [done|]. split; [simpl; lia|].
      constructor; [exists e; set_solver|].
      eapply Forall_impl; [exact Hts|]. intros t (x & ? & ?). exists x. set_solver.
Qed.

Lemma upper_lower_eq s name :
  is_ascii s → is_ascii name → to_upper s = s → to_lower s = to_lower name ↔ s = to_upper name.
Proof.
  intros Hs Hn. rewrite (to_upper_ascii s), (to_upper_ascii name), (to_lower_ascii s),
    (to_lower_ascii name) by done.
  clear Hs Hn. revert name.
  induction s as [|u s IH]; intros [|v name] Hup; rewrite ?fmap_cons in *; try done.
  injection Hup as Hu Hs. specialize (IH name Hs).
  assert (unit_lower u = unit_lower v ↔ u = unit_upper v) as Huv.
  { split; [|intros ->]; revert Hu; unfold unit_lower, unit_upper; repeat case_match; bool_prop; lia. }
  split; intros E; injection E as H1 H2; f_equal; tauto.
Qed.

Lemma to_upper_idem name : is_ascii name → to_upper (to_upper name) = to_upper name.
Proof.
  intros Hn. assert (is_ascii (to_upper name)) as Hu.
  { rewrite to_upper_ascii by done. apply Forall_fmap. eapply Forall_impl; [exact Hn|].
    intros u. simpl. unfold unit_upper. case_match; bool_prop; lia. }
  rewrite (to_upper_ascii (to_upper name)) by done. rewrite to_upper_ascii by done.
  rewrite <-list_fmap_compose. apply list_fmap_ext. intros _ u _. simpl.
  unfold unit_upper. repeat case_match; bool_prop; lia.
Qed.

(** The tag loop after a prefix [pre]: the tags answer exactly as xray's scan
    of [pre], and [seen] holds the codes that scan finds. *)
Lemma index_step_scan pre :
  Forall (λ e, is_ascii (re_code e)) pre →
  let '(tags, _, seen) := foldl index_step ([], [], []) pre in
  (∀ name, is_ascii name →
     js_find (λ t, bool_decide (ge_name t = to_lower name)) tags = tag_of <$> xray_scan pre (to_upper name)) ∧
  (∀ q, is_ascii q → to_upper q = q → q ∈ seen ↔ is_Some (xray_scan pre q)).
Proof.
  induction pre as [|e pre IH] using rev_ind.
  - intros _. simpl. split; [done|]. intros q _ _. split; [set_solver|by intros [? ?]].
  - intros [Hpre He]%Forall_app. apply Forall_inv in He. specialize (IH Hpre). rewrite foldl_app. simpl.
    destruct (foldl _ _ pre) as [[tags unr] seen]. destruct IH as [IHf IHs]. unfold index_step.
    assert (∀ q, xray_scan (pre ++ [e]) q = match xray_scan pre q with
      | Some x => Some x
      | None => if re_codeFirst e && bool_decide (re_code e = q) then Some e else None end) as Hscan.
    { intros q. unfold xray_scan. by rewrite js_find_app. }
    destruct (decide (re_code e = to_upper (re_code e))) as [Hup|Hup].
    2:{ rewrite bool_decide_true by done. simpl.
        assert (∀ q, to_upper q = q → xray_scan (pre ++ [e]) q = xray_scan pre q) as Hsame.
        { intros q Hq. rewrite Hscan. destruct (xray_scan pre q); [done|].
          rewrite (bool_decide_false (re_code e = q)) by congruence. by rewrite andb_false_r. }
        split; [intros name Hn; rewrite Hsame; [by apply IHf|by apply to_upper_idem]|].
        intros q Hq Hqu. rewrite Hsame by done. by apply IHs. }
    rewrite bool_decide_false by (intros Hn; by apply Hn). simpl.
    destruct (re_codeFirst e) eqn:Hfirst; simpl.
    2:{ assert (∀ q, xray_scan (pre ++ [e]) q = xray_scan pre q) as Hsame
          by (intros q; rewrite Hscan; by destruct (xray_scan pre q)).
        split; intros; rewrite Hsame; auto. }
    rewrite <-Hup. specialize (IHs _ He (eq_sym Hup)) as Hse.
    case_bool_decide as Hin; simpl.
    + apply Hse in Hin as [x Hx].
      assert (∀ q, xray_scan (pre ++ [e]) q = xray_scan pre q) as Hsame.
      { intros q. rewrite Hscan. destruct (xray_scan pre q) eqn:E; [done|].
        rewrite bool_decide_false; [done|]. intros <-. congruence. }
      split; intros; rewrite Hsame; auto.
    + split.
      * intros name Hn. rewrite js_find_app, IHf by done. rewrite Hscan.
        destruct (xray_scan pre (to_upper name)); simpl; [done|].
        rewrite (bool_decide_ext (to_lower (re_code e) = to_lower name) (re_code e = to_upper name))
          by (apply upper_lower_eq; auto).
        by case_bool_decide.
      * intros q Hq Hqu. rewrite elem_of_app, list_elem_of_singleton, IHs by done. rewrite Hscan.
        destruct (xray_scan pre q) as [x|] eqn:E.
        -- split; intros; eauto.
        -- case_bool_decide as Hc; [naive_solver|].
           split; [intros [H1|H1]; [by destruct H1|congruence]|by intros [? ?]].
Qed.
End Index_facts.

Definition error_in_bounds (len : Z) (e : GeoDatError) : Prop :=
  out_of_fuel (ge_message e) = false ∧ 0 <= ge_offset e <= len.

Section Index_theorems.
Context `{CaseMap}.

Lemma walk_total kind buf : Z.of_nat (length buf) < 2 ^ 53 →
  match walk buf kind with
  | Ok raw => raw ≠ [] ∧ Forall (entry_ok buf kind) raw
  | Throw e => error_in_bounds (Z.of_nat (length buf)) e
  end.
Proof. intros. pose proof (walk_rd buf kind ltac:(done)). by destruct (walk buf kind). Qed.

Lemma parseGeoDat_ok buf kind idx :
  parseGeoDat buf kind = Ok idx →
  ∃ raw tags unr seen, walk buf kind = Ok raw ∧
    foldl index_step ([], [], []) raw = (tags, unr, seen) ∧ idx = mkGeoDatIndex kind tags unr.
Proof.
  unfold parseGeoDat. destruct (walk buf kind) as [raw|]; [|by destruct (walk buf (other_kind kind))].
  destruct (foldl _ _ raw) as [[tags unr] seen] eqn:E. intros [= <-]. by exists raw, tags, unr, seen.
Qed.

Lemma tag_entry buf kind idx t :
  Z.of_nat (length buf) < 2 ^ 53 → parseGeoDat buf kind = Ok idx → t ∈ gi_tags idx →
  ∃ e, t = tag_of e ∧ entry_ok buf kind e.
Proof.
  intros Hl Hp Ht. apply parseGeoDat_ok in Hp as (raw & tags & unr & seen & Hw & Hf & ->).
  pose proof (walk_total kind buf Hl) as Hok. rewrite Hw in Hok. destruct Hok as [_ Hok].
  destruct (index_step_split raw [] [] []) as (ts & us & E & _ & Hts). rewrite Hf in E.
  injection E as -> _. simpl in Ht. rewrite Forall_forall in Hts.
  destruct (Hts t Ht) as (e & He & ->). exists e. split; [done|]. rewrite Forall_forall in Hok. auto.
Qed.

(** C39. Reading any file ends: either every tag's slice lies in the file and
    every entry is a tag or an unreachable code, or the error names a byte of
    the file. *)
Theorem parseGeoDat_total buf kind :
  Z.of_nat (length buf) < 2 ^ 53 →
  match parseGeoDat buf kind with
  | Ok idx =>
      gi_kind idx = kind ∧
      Forall (λ t, 0 < ge_start t ∧ ge_start t <= ge_end t <= Z.of_nat (length buf)) (gi_tags idx) ∧
      ∃ raw, walk buf kind = Ok raw ∧ raw ≠ [] ∧
        (length (gi_tags idx) + length (gi_unreachable idx) = length raw)%nat
  | Throw e => error_in_bounds (Z.of_nat (length buf)) e
  end.
Proof.
  intros Hl. unfold parseGeoDat. pose proof (walk_total kind buf Hl) as Hw.
  destruct (walk buf kind) as [raw|err].
  - destruct Hw as [Hne Hok]. destruct (index_step_split raw [] [] []) as (ts & us & E & Hlen & Hts).
    destruct (foldl index_step ([], [], []) raw) as [[tags unr] seen]. injection E as -> ->.
    split; [done|]. split.
    + eapply Forall_impl; [exact Hts|]. intros t (e & He & ->).
      rewrite Forall_forall in Hok. destruct (Hok e He) as (? & ? & _). done.
    + by exists raw.
  - destruct Hw as [? ?]. by destruct (walk buf (other_kind kind)).
Qed.

(** For files with ASCII codes, the panel's tag lookup answers exactly as
    xray's scan of the file for the same rule: the same entry, or none. *)
Theorem index_mirrors_xray_scan buf kind idx raw name :
  parseGeoDat buf kind = Ok idx → walk buf kind = Ok raw →
  Forall (λ e, is_ascii (re_code e)) raw → is_ascii name →
  js_find (λ t, bool_decide (ge_name t = to_lower name)) (gi_tags idx)
  = tag_of <$> xray_scan raw (to_upper name).
Proof.
  intros Hp Hw Hraw Hname. apply parseGeoDat_ok in Hp as (raw' & tags & unr & seen & Hw' & Hf & ->).
  rewrite Hw in Hw'. injection Hw' as <-. pose proof (index_step_scan raw Hraw) as Hs.
  rewrite Hf in Hs. by apply Hs.
Qed.
End Index_theorems.

(** ** Concrete files

    One geosite entry, code [CN], with the domain [a.b] of type 2 and the
    attribute [x]; and one geoip entry, code [CN], with 10.0.0.0/8. *)
Definition sample_site : list Z :=
  [0x0a; 18; 0x0a; 2; 67; 78; 0x12; 12; 0x08; 2; 0x12; 3; 97; 46; 98; 0x1a; 3; 0x0a; 1; 120].

Definition sample_site_index : GeoDatIndex :=
  mkGeoDatIndex geosite [mkGeoDatEntry (js "cn") 2 20 1 [js "x"]] [].

Definition sample_ip : list Z :=
  [0x0a; 14; 0x0a; 2; 67; 78; 0x12; 8; 0x0a; 4; 10; 0; 0; 0; 0x10; 8].

Definition sample_ip_index : GeoDatIndex :=
  mkGeoDatIndex geoip [mkGeoDatEntry (js "cn") 2 16 1 []] [].

Lemma sample_site_parses : parseGeoDat sample_site geosite = Ok sample_site_index.
Proof. vm_compute. reflexivity. Qed.

Lemma sample_ip_parses : parseGeoDat sample_ip geoip = Ok sample_ip_index.
Proof. vm_compute. reflexivity. Qed.

Lemma parseGeoDat_total_witness :
  ∃ raw, walk sample_site geosite = Ok raw ∧ length raw = 1%nat.
Proof.
  pose proof (parseGeoDat_total sample_site geosite ltac:(vm_compute; reflexivity)) as Ht.
  rewrite sample_site_parses in Ht. destruct Ht as (_ & _ & raw & Hw & _ & Hlen).
  exists raw. split; [exact Hw|]. symmetry. exact Hlen.
Defined.

Lemma index_mirrors_xray_scan_witness : ∃ raw,
  walk sample_site geosite = Ok raw ∧
  js_find (λ t, bool_decide (ge_name t = to_lower (js "cN"))) (gi_tags sample_site_index)
  = tag_of <$> xray_scan raw (to_upper (js "cN")).
Proof.
  eexists. split; [vm_compute; reflexivity|].
  apply (index_mirrors_xray_scan sample_site geosite); [exact sample_site_parses|vm_compute; reflexivity| |];
    vm_compute; repeat constructor; discriminate.
Defined.
