(* ===== verification/GeoRules.v ===== *)
(** Rule-sets from v2fly geo files
    (apps/panel-backend/src/modules/geo-sets/geo-dat.ts, its second half).

    A tag of an indexed file becomes a sing-box rule-set: [geositeRuleSet] for
    domains, [geoipRuleSet] for addresses, [formatIp] for one address.  Text
    is a list of UTF-16 code units, as in [GeoDat]. *)

From S2P Require Import Prelude Js Utf8 GeoDat.

Local Open Scope list_scope.
Local Open Scope Z_scope.

Record HeadlessRule := mkHeadlessRule {
  hr_domain : option (list (list Z));
  hr_domain_suffix : option (list (list Z));
  hr_domain_keyword : option (list (list Z));
  hr_domain_regex : option (list (list Z));
  hr_ip_cidr : option (list (list Z));
  hr_invert : bool
}.

(** [version] is always 2. *)
Definition RuleSetJson := list HeadlessRule.

Inductive rule_error :=
  | WrongKind
  | GeoTagUnknown (tag : list Z)
  | Unreadable (e : GeoDatError).

Definition lift_read {A} (r : result GeoDatError A) : result rule_error A :=
  match r with Ok a => Ok a | Throw e => Throw (Unreadable e) end.

Definition ruleSet (rule : HeadlessRule) : RuleSetJson :=
  match rule with
  | mkHeadlessRule None None None None None _ => []
  | _ => [rule]
  end.

(** [undefined] for an empty set. *)
Definition some_sorted (s : list (list Z)) : option (list (list Z)) :=
  match s with [] => None | _ => Some (sort_by units_leb s) end.

(** ** Addresses *)

(** [n.toString(base)]. *)
Definition digit_unit (d : Z) : Z := if d <? 10 then 48 + d else 87 + d.

Fixpoint radix_digits (fuel : nat) (base n : Z) (acc : list Z) : list Z :=
  match fuel with
  | O => acc
  | S fuel =>
      let acc := digit_unit (n mod base) :: acc in
      if n / base =? 0 then acc else radix_digits fuel base (n / base) acc
  end.

Definition to_radix (base n : Z) : list Z := radix_digits (S (Z.to_nat (Z.log2 n))) base n [].

Definition COLON : Z := 58.
Definition DOT : Z := 46.
Definition AT : Z := 64.
Definition BANG : Z := 33.
Definition SLASH : Z := 47.

Fixpoint join_units (sep : Z) (parts : list (list Z)) : list Z :=
  match parts with
  | [] => []
  | [p] => p
  | p :: parts => p ++ sep :: join_units sep parts
  end.

(** The eight groups, [(ip[i] << 8) | ip[i + 1]]. *)
Fixpoint ip_groups (ip : list Z) : list Z :=
  match ip with
  | a :: b :: ip => js_or (js_shl a 8) b :: ip_groups ip
  | _ => []
  end.

(** [while (j < 8 && groups[j] === 0) j++]. *)
Fixpoint zero_run (groups : list Z) : nat :=
  match groups with
  | g :: groups => if g =? 0 then S (zero_run groups) else O
  | [] => O
  end.

(** The search loop at index [i] with [groups] what is left from there. *)
Fixpoint best_run (fuel i : nat) (groups : list Z) (bestStart bestLen : nat) : nat * nat :=
  match fuel, groups with
  | S fuel, g :: rest =>
      if negb (g =? 0) then best_run fuel (i + 1) rest bestStart bestLen
      else
        let n := zero_run groups in
        let '(bs, bl) := if (bestLen <? n)%nat then (i, n) else (bestStart, bestLen) in
        best_run fuel (i + n) (drop n groups) bs bl
  | _, _ => (bestStart, bestLen)
  end.

Definition hex (g : list Z) : list Z := join_units COLON (to_radix 16 <$> g).

Definition formatIp (ip : list Z) : list Z :=
  if (length ip =? 4)%nat then join_units DOT (to_radix 10 <$> ip)
  else
    let groups := ip_groups ip in
    let '(bestStart, bestLen) := best_run 8 0 groups 0 0 in
    if (bestLen <? 2)%nat then hex groups
    else hex (take bestStart groups) ++ [COLON; COLON] ++ hex (drop (bestStart + bestLen) groups).

(** ** Rule-sets *)
Section Rules.
Context `{CaseMap}.

Definition findTag (index : GeoDatIndex) (name : list Z) : result rule_error GeoDatEntry :=
  match js_find (λ x, bool_decide (ge_name x = to_lower name)) (gi_tags index) with
  | Some t => Ok t
  | None => Throw (GeoTagUnknown name)
  end.

Record site_sets := mkSiteSets {
  s_domain : list (list Z); s_suffix : list (list Z);
  s_keyword : list (list Z); s_regex : list (list Z)
}.

(** The [switch] on a domain that passed the attribute filter. *)
Definition add_domain (s : site_sets) (d : Domain) : site_sets :=
  let '(mkSiteSets dm sf kw rx) := s in
  let v := d_value d in
  match d_type d with
  | 0 => mkSiteSets dm sf (set_add v kw) rx
  | 1 => mkSiteSets dm sf kw (set_add v rx)
  | 2 => mkSiteSets (if decide (DOT ∈ v) then set_add v dm else dm) (set_add (DOT :: v) sf) kw rx
  | 3 => mkSiteSets (set_add v dm) sf kw rx
  | _ => s
  end.

(** [want.every((a) => d.attrs.includes(a))]. *)
Definition wanted (want : list (list Z)) (d : Domain) : bool :=
  forallb (λ a, bool_decide (a ∈ d_attrs d)) want.

Definition geositeRuleSet_body (buf : list Z) (want : list (list Z)) (stop : Z)
    (s : site_sets) (field wire at_ pos : Z) : result GeoDatError (site_sets * Z) :=
  if negb (field =? 2) then
    pos ← skip buf stop wire at_ pos; Ok (s, pos)
  else
    '(start, e) ← bytes buf stop pos;
    '(d, _) ← readDomain buf start e [];
    Ok (if negb (wanted want d) then s else add_domain s d, e).

Definition site_rule (s : site_sets) : RuleSetJson :=
  ruleSet (mkHeadlessRule (some_sorted (s_domain s)) (some_sorted (s_suffix s))
             (some_sorted (s_keyword s)) (some_sorted (s_regex s)) None false).

Definition geositeRuleSet (buf : list Z) (index : GeoDatIndex) (tag : list Z)
    : result rule_error RuleSetJson :=
  if decide (gi_kind index ≠ geosite) then Throw WrongKind
  else
    let '(base, attrParts) := split_units AT tag in
    let want := to_lower <$> attrParts in
    t ← findTag index base;
    s ← lift_read (fields buf (ge_end t) (geositeRuleSet_body buf want (ge_end t))
                     (mkSiteSets [] [] [] []) (ge_start t));
    Ok (site_rule s).

Definition cidr_text (c : list Z * Z) : list Z := formatIp c.1 ++ SLASH :: to_radix 10 c.2.

Definition geoipRuleSet_body (buf : list Z) (stop : Z) (cidrs : list (list Z))
    (field wire at_ pos : Z) : result GeoDatError (list (list Z) * Z) :=
  if negb (field =? 2) then
    pos ← skip buf stop wire at_ pos; Ok (cidrs, pos)
  else
    '(start, e) ← bytes buf stop pos;
    c ← readCidr buf start e;
    Ok (set_add (cidr_text c) cidrs, e).

Definition ip_rule (negated : bool) (cidrs : list (list Z)) : RuleSetJson :=
  if negated && bool_decide (cidrs = [])
  then [mkHeadlessRule None None None None (Some [js "0.0.0.0/0"; js "::/0"]) false]
  else ruleSet (mkHeadlessRule None None None None
                  (if bool_decide (cidrs = []) then None else Some cidrs) negated).

Definition geoipRuleSet (buf : list Z) (index : GeoDatIndex) (tag : list Z)
    : result rule_error RuleSetJson :=
  if decide (gi_kind index ≠ geoip) then Throw WrongKind
  else
    let negated := bool_decide (head tag = Some BANG) in
    t ← findTag index (if negated then tail tag else tag);
    cidrs ← lift_read (fields buf (ge_end t) (geoipRuleSet_body buf (ge_end t)) [] (ge_start t));
    Ok (ip_rule negated cidrs).
End Rules.

(** Runs a second body along the statements a first one passed. *)
Ltac sim_run :=
  repeat match goal with
  | H : (_ ≫= _) = Ok _ |- _ => apply bind_ok in H as (? & ? & ?)
  | H : ?m = Ok _ |- context [?m] => rewrite H; simpl
  | H : (let '(_, _) := ?x in _) = Ok _ |- _ => destruct x; simpl in *
  | H : (if ?b then _ else _) = Ok _ |- _ => destruct b eqn:?; simpl in *
  | H : Throw _ = Ok _ |- _ => discriminate H
  | H : fail _ _ = Ok _ |- _ => discriminate H
  | H : Ok _ = Ok _ |- _ => injection H; clear H; intros; subst
  end.

(** ** What a slice holds *)
Section Contents.
Context `{CaseMap} (buf : list Z).

(** The domains of a geosite slice, and the CIDRs of a geoip slice, in file
    order: the reference the rule-sets are compared with. *)
Definition site_domains (start stop : Z) : result GeoDatError (list Domain) :=
  fields buf stop (λ ds field wire at_ pos,
    if field =? 2 then
      '(s, e) ← bytes buf stop pos;
      '(d, _) ← readDomain buf s e [];
      Ok (ds ++ [d], e)
    else pos ← skip buf stop wire at_ pos; Ok (ds, pos)) [] start.

Definition ip_cidrs (start stop : Z) : result GeoDatError (list (list Z * Z)) :=
  fields buf stop (λ cs field wire at_ pos,
    if field =? 2 then
      '(s, e) ← bytes buf stop pos;
      c ← readCidr buf s e;
      Ok (cs ++ [c], e)
    else pos ← skip buf stop wire at_ pos; Ok (cs, pos)) [] start.

(** The attributes [readDomain] reports to the index are the domain's own
    that a rule can name. *)
Lemma readDomain_seen start stop seen d seen' :
  readDomain buf start stop seen = Ok (d, seen') →
  (∃ s0, readDomain buf start stop [] = Ok (d, s0)) ∧
  ∀ a, a ∈ seen' ↔ a ∈ seen ∨ a ∈ d_attrs d ∧ a = to_lower a.
Proof.
  unfold readDomain. intros ([d1 sn1] & Hf & Hd)%bind_ok. simpl in Hd.
  eapply (fields_sim buf stop (λ s t, t.1 = s.1 ∧
      ∀ a, a ∈ s.2 ↔ a ∈ seen ∨ a ∈ d_attrs s.1 ∧ a = to_lower a) _ (readDomain_body buf stop)
      _ (mkDomain 0 [] [], [])) in Hf as ([d2 sn2] & -> & Hd2 & Hsn).
  - simpl in *. subst d2. case_bool_decide; [done|]. injection Hd as -> ->. eauto.
  - simpl. set_solver.
  - intros [d0 s0] [? t0] field wire at_ p [dd ss] p1 [Heq Hin] Hb. simpl in Heq, Hin. subst.
    unfold readDomain_body in *. sim_run; try (eexists; split; [done|]; done).
    eexists. split; [done|]. split; [done|]. intros a. simpl.
    rewrite elem_of_app, list_elem_of_singleton.
    match goal with |- context [bool_decide ?P] => destruct (bool_decide P) eqn:Hk end;
      bool_prop; rewrite ?elem_of_set_add, Hin; naive_solver.
Qed.

Lemma readDomain_ok start stop seen d seen' :
  readDomain buf start stop seen = Ok (d, seen') → d_value d ≠ [] ∧ 0 <= d_type d <= 3.
Proof.
  unfold readDomain. intros (r & Hf & Hd)%bind_ok.
  assert (0 <= d_type r.1 <= 3) as Ht.
  { apply (fields_inv buf stop (λ r, 0 <= d_type r.1 <= 3)) in Hf; [done|simpl; lia|].
    intros [d0 s0] field wire at_ p [d1 s1] p1 H0 Hb. simpl in H0. unfold readDomain_body in Hb.
    sim_run; try done. simpl. bool_prop.
    match goal with Hv : varint _ _ _ = Ok _ |- _ => apply varint_nonneg in Hv end. lia. }
  sim_run. bool_prop. done.
Qed.

Lemma expectWire_ok what got want at_ u : expectWire what got want at_ = Ok u → got = want.
Proof. unfold expectWire. destruct (Z.eqb_spec got want); done. Qed.

Lemma read_string_skip stop what at_ p v p1 :
  read_string buf stop what p = Ok (v, p1) → skip buf stop 2 at_ p = Ok p1.
Proof.
  unfold read_string. intros ([s e] & Hb & Ht)%bind_ok. simpl. rewrite Hb. simpl.
  destruct (utf8_text _); simplify_eq. done.
Qed.

Lemma varint_skip stop at_ p v p1 : varint buf stop p = Ok (v, p1) → skip buf stop 0 at_ p = Ok p1.
Proof. simpl. by intros ->. Qed.

Lemma readSite_domains start stop into e :
  readSite buf start stop into = Ok e →
  ∃ ds, site_domains start stop = Ok ds ∧ re_entries e = re_entries into + Z.of_nat (length ds) ∧
    ∀ a, a ∈ re_attrs e ↔ a ∈ re_attrs into ∨ ∃ d, d ∈ ds ∧ a ∈ d_attrs d ∧ a = to_lower a.
Proof.
  unfold readSite. intros ([e1 first] & Hf & [= ->])%bind_ok. unfold site_domains.
  eapply (fields_sim buf stop (λ s (ds : list Domain),
      re_entries s.1 = re_entries into + Z.of_nat (length ds) ∧
      ∀ a, a ∈ re_attrs s.1 ↔ a ∈ re_attrs into ∨ ∃ d, d ∈ ds ∧ a ∈ d_attrs d ∧ a = to_lower a)) in Hf
    as (ds & Hds & Hlen & Hat); [by exists ds| |].
  - simpl. split; [lia|set_solver].
  - intros [e0 f0] ds field wire at_ p [e2 f2] p2 [Hlen Hat] Hb. unfold readSite_body in Hb.
    simpl in Hlen, Hat. destruct (Z.eqb_spec field 1) as [->|].
    + sim_run. match goal with He : expectWire _ _ _ _ = _ |- _ => apply expectWire_ok in He as -> end.
      match goal with Hr : read_string _ _ _ _ = _ |- _ => apply (read_string_skip _ _ at_) in Hr; rewrite Hr end.
      simpl. by exists ds.
    + sim_run; [|by exists ds].
      match goal with Hr : readDomain _ _ _ _ = _ |- _ => apply readDomain_seen in Hr as ((s0 & ->) & Hs) end.
      simpl. eexists; split; [done|]. rewrite length_app. simpl. split; [lia|].
      intros a. rewrite Hs, Hat. setoid_rewrite elem_of_app. setoid_rewrite list_elem_of_singleton.
      naive_solver.
Qed.

Lemma readIP_cidrs start stop into e :
  readIP buf start stop into = Ok e →
  ∃ cs, ip_cidrs start stop = Ok cs ∧ re_entries e = re_entries into + Z.of_nat (length cs).
Proof.
  unfold readIP. intros ([e1 first] & Hf & [= ->])%bind_ok. unfold ip_cidrs.
  eapply (fields_sim buf stop (λ s (cs : list (list Z * Z)),
      re_entries s.1 = re_entries into + Z.of_nat (length cs))) in Hf
    as (cs & Hcs & Hlen); [by exists cs|simpl; lia|].
  intros [e0 f0] cs field wire at_ p [e2 f2] p2 Hlen Hb. unfold readIP_body in Hb.
  simpl in Hlen. destruct (Z.eqb_spec field 1) as [->|]; [|destruct (Z.eqb_spec field 2) as [->|]].
  - sim_run. match goal with He : expectWire _ _ _ _ = _ |- _ => apply expectWire_ok in He as -> end.
    match goal with Hr : read_string _ _ _ _ = _ |- _ => apply (read_string_skip _ _ at_) in Hr; rewrite Hr end.
    simpl. by exists cs.
  - sim_run. eexists; split; [done|]. rewrite length_app. simpl. lia.
  - sim_run; [|by exists cs].
    match goal with He : expectWire _ _ _ _ = _ |- _ => apply expectWire_ok in He as -> end.
    match goal with Hr : varint _ _ _ = _ |- _ => apply (varint_skip _ at_) in Hr; rewrite Hr end.
    simpl. by exists cs.
Qed.

Lemma site_loop_domains want start stop s0 ds :
  site_domains start stop = Ok ds →
  fields buf stop (geositeRuleSet_body buf want stop) s0 start
  = Ok (foldl add_domain s0 (filter (λ d, wanted want d = true) ds)).
Proof.
  intros Hf. eapply (fields_sim buf stop (λ (ds : list Domain) s,
      s = foldl add_domain s0 (filter (λ d, wanted want d = true) ds)) _
      (geositeRuleSet_body buf want stop) _ s0) in Hf as (s & -> & ->); [done..|].
  intros ds0 s field wire at_ p ds1 p1 -> Hb. unfold geositeRuleSet_body.
  destruct (Z.eqb_spec field 2) as [->|]; simpl; sim_run.
  - eexists; split; [done|]. rewrite filter_app, foldl_app. f_equal.
    rewrite filter_cons, filter_nil. case_decide as Hw; [by rewrite Hw|]. by destruct (wanted want d).
  - by eexists.
Qed.

Lemma ip_loop_cidrs start stop acc cs :
  ip_cidrs start stop = Ok cs →
  fields buf stop (geoipRuleSet_body buf stop) acc start
  = Ok (foldl (λ s c, set_add (cidr_text c) s) acc cs).
Proof.
  intros Hf. eapply (fields_sim buf stop (λ (cs : list (list Z * Z)) s,
      s = foldl (λ s c, set_add (cidr_text c) s) acc cs) _
      (geoipRuleSet_body buf stop) _ acc) in Hf as (s & -> & ->); [done..|].
  intros cs0 s field wire at_ p cs1 p1 -> Hb. unfold geoipRuleSet_body.
  destruct (Z.eqb_spec field 2) as [->|]; simpl; sim_run.
  - eexists; split; [done|]. by rewrite foldl_app.
  - by eexists.
Qed.

Lemma site_domains_ok start stop ds :
  site_domains start stop = Ok ds → Forall (λ d, d_value d ≠ [] ∧ 0 <= d_type d <= 3) ds.
Proof.
  intros Hf. eapply fields_inv in Hf; [exact Hf|constructor|].
  intros ds0 field wire at_ p ds1 p1 Hds Hb. simpl in Hb. sim_run; [|done].
  apply Forall_app; split; [done|]. apply Forall_singleton.
  match goal with Hr : readDomain _ _ _ _ = _ |- _ => by apply readDomain_ok in Hr end.
Qed.
End Contents.

(** ** Rule-set contents *)

(** An optional sorted list of the values satisfying [P]. *)
Definition lists (o : option (list (list Z))) (P : list Z → Prop) : Prop :=
  match o with
  | None => ∀ v, ¬ P v
  | Some l => l ≠ [] ∧ NoDup l ∧ StronglySorted (λ a b, units_leb a b = true) l ∧ ∀ v, v ∈ l ↔ P v
  end.

(** The rule-set xray's reading of the domains [ds] calls for. *)
Definition site_rules_of (ds : list Domain) (rs : RuleSetJson) : Prop :=
  (rs = [] ∧ ds = []) ∨
  ∃ r, rs = [r] ∧ ds ≠ [] ∧ hr_ip_cidr r = None ∧ hr_invert r = false ∧
    lists (hr_domain r) (λ v, ∃ d, d ∈ ds ∧ d_value d = v ∧ (d_type d = 3 ∨ d_type d = 2 ∧ DOT ∈ v)) ∧
    lists (hr_domain_suffix r) (λ v, ∃ d, d ∈ ds ∧ DOT :: d_value d = v ∧ d_type d = 2) ∧
    lists (hr_domain_keyword r) (λ v, ∃ d, d ∈ ds ∧ d_value d = v ∧ d_type d = 0) ∧
    lists (hr_domain_regex r) (λ v, ∃ d, d ∈ ds ∧ d_value d = v ∧ d_type d = 1).

Lemma lists_some_sorted s (P : list Z → Prop) :
  NoDup s → (∀ v, v ∈ s ↔ P v) → lists (some_sorted s) P.
Proof.
  intros Hnd HP. unfold some_sorted. destruct s as [|x s].
  - intros v Hv. apply HP in Hv. set_solver.
  - cbn [lists]. split; [|split; [|split]].
    + intros E. assert (x ∈ sort_by units_leb (x :: s)) as Hx by (rewrite elem_of_sort_by; set_solver).
      rewrite E in Hx. set_solver.
    + by rewrite sort_by_perm.
    + apply sort_by_sorted; [apply units_leb_total|apply units_leb_trans].
    + intros v. by rewrite elem_of_sort_by.
Qed.

Definition sets_ok (ds : list Domain) (s : site_sets) : Prop :=
  (NoDup (s_domain s) ∧ NoDup (s_suffix s) ∧ NoDup (s_keyword s) ∧ NoDup (s_regex s)) ∧
  (∀ v, v ∈ s_domain s ↔ ∃ d, d ∈ ds ∧ d_value d = v ∧ (d_type d = 3 ∨ d_type d = 2 ∧ DOT ∈ v)) ∧
  (∀ v, v ∈ s_suffix s ↔ ∃ d, d ∈ ds ∧ DOT :: d_value d = v ∧ d_type d = 2) ∧
  (∀ v, v ∈ s_keyword s ↔ ∃ d, d ∈ ds ∧ d_value d = v ∧ d_type d = 0) ∧
  (∀ v, v ∈ s_regex s ↔ ∃ d, d ∈ ds ∧ d_value d = v ∧ d_type d = 1).

Lemma ex_snoc {A} (ds : list A) d (P : A → Prop) :
  (∃ x, x ∈ ds ++ [d] ∧ P x) ↔ (∃ x, x ∈ ds ∧ P x) ∨ P d.
Proof. setoid_rewrite elem_of_app. setoid_rewrite list_elem_of_singleton. naive_solver. Qed.

Lemma add_domain_ok ds s d :
  0 <= d_type d <= 3 → sets_ok ds s → sets_ok (ds ++ [d]) (add_domain s d).
Proof.
  intros Ht ((Hn1 & Hn2 & Hn3 & Hn4) & H1 & H2 & H3 & H4). destruct s as [dm sf kw rx]. simpl in *.
  unfold sets_ok. setoid_rewrite ex_snoc. unfold add_domain.
  assert (d_type d = 0 ∨ d_type d = 1 ∨ d_type d = 2 ∨ d_type d = 3) as [->|[->|[->| ->]]] by lia; simpl;
    (split; [repeat split; try case_decide; auto using NoDup_set_add|]);
    (split; [|split; [|split]]); intros v; try case_decide;
    rewrite ?elem_of_set_add, ?H1, ?H2, ?H3, ?H4; naive_solver lia.
Qed.

Lemma add_domains_ok ds : Forall (λ d, d_value d ≠ [] ∧ 0 <= d_type d <= 3) ds →
  sets_ok ds (foldl add_domain (mkSiteSets [] [] [] []) ds).
Proof.
  induction ds as [|d ds IH] using rev_ind; intros Hds.
  - unfold sets_ok. simpl. split; [repeat split; constructor|]. set_solver.
  - apply Forall_app in Hds as [Hds Hd]. apply Forall_inv in Hd. rewrite foldl_app. simpl.
    apply add_domain_ok; [apply Hd|by apply IH].
Qed.

Lemma site_rule_of ds : Forall (λ d, d_value d ≠ [] ∧ 0 <= d_type d <= 3) ds →
  site_rules_of ds (site_rule (foldl add_domain (mkSiteSets [] [] [] []) ds)).
Proof.
  intros Hds. pose proof (add_domains_ok ds Hds) as ((Hn1 & Hn2 & Hn3 & Hn4) & H1 & H2 & H3 & H4).
  destruct (foldl _ _ ds) as [dm sf kw rx]. simpl in *.
  destruct ds as [|d ds].
  - left. split; [|done]. assert (dm = [] ∧ sf = [] ∧ kw = [] ∧ rx = []) as (-> & -> & -> & ->); [|done].
    (split; [|split; [|split]]); apply elem_of_nil_inv; intros v; rewrite ?H1, ?H2, ?H3, ?H4; set_solver.
  - right. set (r := mkHeadlessRule (some_sorted dm) (some_sorted sf) (some_sorted kw) (some_sorted rx) None false).
    exists r. split; [|split; [done|split; [done|split; [done|]]]].
    + unfold site_rule. simpl. fold r. destruct r as [o1 o2 o3 o4 o5 iv] eqn:Er.
      injection Er as <- <- <- <- <- <-.
      assert (∃ v, v ∈ dm ∨ v ∈ sf ∨ v ∈ kw ∨ v ∈ rx) as [v Hv].
      { apply Forall_inv in Hds as [_ Ht].
        assert (d_type d = 0 ∨ d_type d = 1 ∨ d_type d = 2 ∨ d_type d = 3) as Hc by lia.
        destruct (decide (d_type d = 2)).
        - exists (DOT :: d_value d). right; left. apply H2. exists d. set_solver.
        - exists (d_value d). rewrite H1, H3, H4.
          destruct Hc as [?|[?|[?|?]]]; [right; right; left|do 3 right|done|left]; exists d; set_solver. }
      destruct dm, sf, kw, rx; simpl; try done. set_solver.
    + simpl. repeat split; by apply lists_some_sorted.
Qed.

Section Rule_theorems.
Context `{CaseMap}.

Lemma site_tag_domains buf idx t :
  Z.of_nat (length buf) < 2 ^ 53 → parseGeoDat buf geosite = Ok idx → t ∈ gi_tags idx →
  ∃ ds, site_domains buf (ge_start t) (ge_end t) = Ok ds ∧ ge_entries t = Z.of_nat (length ds) ∧
    ∀ a, a ∈ ge_attrs t ↔ ∃ d, d ∈ ds ∧ a ∈ d_attrs d ∧ a = to_lower a.
Proof.
  intros Hl Hp Ht. destruct (tag_entry _ _ _ _ Hl Hp Ht) as (e & -> & _ & _ & _ & Hr).
  apply readSite_domains in Hr as (ds & Hds & Hlen & Hat). exists ds. simpl. split; [done|].
  simpl in Hlen. split; [lia|]. intros a. rewrite elem_of_sort_by, Hat. set_solver.
Qed.

Lemma geositeRuleSet_found buf idx tag t ds :
  gi_kind idx = geosite →
  js_find (λ x, bool_decide (ge_name x = to_lower (split_units AT tag).1)) (gi_tags idx) = Some t →
  site_domains buf (ge_start t) (ge_end t) = Ok ds →
  geositeRuleSet buf idx tag = Ok (site_rule (foldl add_domain (mkSiteSets [] [] [] [])
    (filter (λ d, wanted (to_lower <$> (split_units AT tag).2) d = true) ds))).
Proof.
  intros Hk Hf Hds. unfold geositeRuleSet. rewrite Hk. destruct (split_units AT tag) as [base parts].
  simpl in *. unfold findTag. rewrite Hf. simpl.
  by rewrite (site_loop_domains _ _ _ _ _ _ Hds).
Qed.

(** On a file that parses as geosite, building the rule-set of any
    [tag@attr@...] fails only when no tag has that name; otherwise the rules
    are those of the entry's domains that carry every attribute, each list
    sorted and without repeats, and no rules when there is no such domain. *)
Theorem geositeRuleSet_spec buf idx tag :
  Z.of_nat (length buf) < 2 ^ 53 → parseGeoDat buf geosite = Ok idx →
  let '(base, attrs) := split_units AT tag in
  match js_find (λ x, bool_decide (ge_name x = to_lower base)) (gi_tags idx) with
  | None => geositeRuleSet buf idx tag = Throw (GeoTagUnknown base)
  | Some t =>
      ∃ ds rs, site_domains buf (ge_start t) (ge_end t) = Ok ds ∧
        ge_entries t = Z.of_nat (length ds) ∧
        geositeRuleSet buf idx tag = Ok rs ∧
        site_rules_of (filter (λ d, wanted (to_lower <$> attrs) d = true) ds) rs
  end.
Proof.
  intros Hl Hp. destruct (split_units AT tag) as [base parts] eqn:Es.
  assert (gi_kind idx = geosite) as Hk by (by apply parseGeoDat_ok in Hp as (?&?&?&?&?&?&->)).
  destruct (js_find _ (gi_tags idx)) as [t|] eqn:Hf.
  - destruct (site_tag_domains _ _ t Hl Hp) as (ds & Hds & Hlen & _); [by eapply js_find_elem|].
    eexists ds, _. split; [done|]. split; [done|]. split.
    + eapply geositeRuleSet_found; [done| |exact Hds]. by rewrite Es.
    + rewrite Es. apply site_rule_of, Forall_filter_l. eapply site_domains_ok, Hds.
  - unfold geositeRuleSet. rewrite Hk, Es. unfold findTag. by rewrite Hf.
Qed.

Lemma split_units_none c s : c ∉ s → split_units c s = (s, []).
Proof.
  induction s as [|u s IH]; intros Hc; simpl; [done|]. rewrite IH by set_solver.
  destruct (Z.eqb_spec u c); [set_solver|done].
Qed.

Lemma split_units_app c s t : c ∉ s → split_units c (s ++ c :: t) =
  (s, (split_units c t).1 :: (split_units c t).2).
Proof.
  intros Hs. induction s as [|u s IH]; simpl.
  - destruct (split_units c t). by rewrite Z.eqb_refl.
  - rewrite IH by set_solver. destruct (Z.eqb_spec u c); [set_solver|done].
Qed.

(** An attribute the tag list offers for a tag always selects something:
    [tag@attr] has a rule. *)
Theorem offered_attribute_matches buf idx t a :
  Z.of_nat (length buf) < 2 ^ 53 → parseGeoDat buf geosite = Ok idx →
  js_find (λ x, bool_decide (ge_name x = to_lower (ge_name t))) (gi_tags idx) = Some t →
  a ∈ ge_attrs t → AT ∉ ge_name t → AT ∉ a →
  ∃ r, geositeRuleSet buf idx (ge_name t ++ AT :: a) = Ok [r].
Proof.
  intros Hl Hp Hf Ha Hn1 Hn2.
  assert (gi_kind idx = geosite) as Hk by (by apply parseGeoDat_ok in Hp as (?&?&?&?&?&?&->)).
  destruct (site_tag_domains _ _ t Hl Hp) as (ds & Hds & _ & Hat); [by eapply js_find_elem|].
  apply Hat in Ha as (d & Hd & Had & Hlow).
  rewrite (geositeRuleSet_found _ _ _ t ds); [|done| |done].
  2:{ by rewrite split_units_app. }
  rewrite split_units_app, split_units_none by done. simpl.
  match goal with |- context [filter ?P ds] => destruct (site_rule_of (filter P ds)) as [[_ Hnil]|(r & -> & _)] end.
  - apply Forall_filter_l. eapply site_domains_ok, Hds.
  - exfalso. eapply (not_elem_of_nil d). rewrite <-Hnil. apply list_elem_of_filter. split; [|done].
    unfold wanted. simpl. rewrite <-Hlow, bool_decide_true by done. done.
  - by exists r.
Qed.

(** On a file that parses as geoip, [tag] and [!tag] fail only when no
    tag has that name.  The rule lists the entry's networks once each in file
    order; with no networks [tag] matches nothing and [!tag] everything. *)
Theorem geoipRuleSet_spec buf idx tag :
  Z.of_nat (length buf) < 2 ^ 53 → parseGeoDat buf geoip = Ok idx →
  let negated := bool_decide (head tag = Some BANG) in
  let name := if negated then drop 1 tag else tag in
  match js_find (λ x, bool_decide (ge_name x = to_lower name)) (gi_tags idx) with
  | None => geoipRuleSet buf idx tag = Throw (GeoTagUnknown name)
  | Some t =>
      ∃ cs rs, ip_cidrs buf (ge_start t) (ge_end t) = Ok cs ∧
        ge_entries t = Z.of_nat (length cs) ∧
        geoipRuleSet buf idx tag = Ok rs ∧
        rs = match cs, negated with
             | [], false => []
             | [], true => [mkHeadlessRule None None None None (Some [js "0.0.0.0/0"; js "::/0"]) false]
             | _, _ => [mkHeadlessRule None None None None (Some (js_uniq (cidr_text <$> cs))) negated]
             end
  end.
Proof.
  intros Hl Hp. cbv zeta.
  assert (gi_kind idx = geoip) as Hk by (by apply parseGeoDat_ok in Hp as (?&?&?&?&?&?&->)).
  assert (tail tag = drop 1 tag) as Htl by (by destruct tag).
  unfold geoipRuleSet, findTag. rewrite Hk, Htl. simpl decide. cbv zeta.
  set (negated := bool_decide (head tag = Some BANG)).
  destruct (js_find _ (gi_tags idx)) as [t|] eqn:Hf; [|done].
  assert (t ∈ gi_tags idx) as Ht by (by eapply js_find_elem).
  destruct (tag_entry _ _ _ _ Hl Hp Ht) as (e & -> & _ & _ & _ & Hr).
  apply readIP_cidrs in Hr as (cs & Hcs & Hlen). exists cs. eexists. simpl. split; [done|].
  simpl in Hlen. split; [lia|]. rewrite (ip_loop_cidrs _ _ _ _ _ Hcs). simpl. split; [done|].
  unfold ip_rule.
  assert (foldl (λ s c, set_add (cidr_text c) s) [] cs = js_uniq (cidr_text <$> cs)) as ->.
  { rewrite <-foldl_set_add. generalize (@nil (list Z)). clear.
    induction cs as [|c cs IH]; intros acc; simpl; [done|]. by rewrite IH. }
  destruct cs as [|c cs]; [by destruct negated|].
  assert (js_uniq (cidr_text <$> c :: cs) ≠ []) as Hne.
  { intros E. eapply (not_elem_of_nil (cidr_text c)). rewrite <-E, elem_of_js_uniq. set_solver. }
  rewrite bool_decide_false by done. rewrite andb_false_r. done.
Qed.
End Rule_theorems.

(** ** Printing addresses *)
Section Printing.

Definition unit_digit (u : Z) : Z := if u <? 58 then u - 48 else u - 87.
Definition from_radix (base : Z) (l : list Z) : Z := foldl (λ acc u, acc * base + unit_digit u) 0 l.

(** A lower-case digit. *)
Definition is_digit (u : Z) : Prop := 48 <= u <= 57 ∨ 97 <= u <= 102.

Lemma digit_unit_ok d : 0 <= d < 16 → is_digit (digit_unit d) ∧ unit_digit (digit_unit d) = d.
Proof.
  intros Hd. unfold digit_unit, is_digit, unit_digit. destruct (Z.ltb_spec d 10).
  - destruct (Z.ltb_spec (48 + d) 58); lia.
  - destruct (Z.ltb_spec (87 + d) 58); lia.
Qed.

Lemma from_radix_app base l k : from_radix base (l ++ k) = foldl (λ acc u, acc * base + unit_digit u) (from_radix base l) k.
Proof. unfold from_radix. apply foldl_app. Qed.

Lemma radix_digits_ok base fuel n acc :
  2 <= base <= 16 → 0 <= n < base ^ Z.of_nat fuel → fuel ≠ O →
  ∃ l, radix_digits fuel base n acc = l ++ acc ∧ l ≠ [] ∧ Forall is_digit l ∧ from_radix base l = n.
Proof.
  intros Hb. revert n acc. induction fuel as [|fuel IH]; intros n acc Hn Hf; [done|]. simpl.
  pose proof (Z.mod_pos_bound n base ltac:(lia)) as Hm.
  destruct (digit_unit_ok (n mod base)) as [Hd Hu]; [lia|].
  pose proof (Z.div_mod n base ltac:(lia)) as Hdm.
  destruct (Z.eqb_spec (n / base) 0) as [Hz|Hz].
  - exists [digit_unit (n mod base)]. split; [done|]. split; [done|]. split; [by constructor|].
    unfold from_radix. simpl. lia.
  - rewrite Nat2Z.inj_succ, Z.pow_succ_r in Hn by lia.
    assert (0 <= n / base) by (apply Z.div_pos; lia).
    destruct (IH (n / base) (digit_unit (n mod base) :: acc)) as (l & -> & Hne & Hl & Hv).
    + split; [done|]. apply Z.div_lt_upper_bound; lia.
    + intros ->. simpl in Hn. assert (n / base < 1) by (apply Z.div_lt_upper_bound; lia). lia.
    + exists (l ++ [digit_unit (n mod base)]). rewrite <-app_assoc. split; [done|].
      split; [by destruct l|]. split; [apply Forall_app; split; [done|by constructor]|].
      rewrite from_radix_app, Hv. simpl. lia.
Qed.

Lemma to_radix_ok base n : 2 <= base <= 16 → 0 <= n →
  to_radix base n ≠ [] ∧ Forall is_digit (to_radix base n) ∧ from_radix base (to_radix base n) = n.
Proof.
  intros Hb Hn. unfold to_radix.
  destruct (radix_digits_ok base (S (Z.to_nat (Z.log2 n))) n []) as (l & -> & ?); [done| |done|].
  2:{ by rewrite app_nil_r. }
  split; [done|]. rewrite Nat2Z.inj_succ, Z2Nat.id by apply Z.log2_nonneg.
  destruct (decide (n = 0)) as [->|]; [simpl; lia|].
  eapply Z.lt_le_trans; [apply Z.log2_spec; lia|].
  apply Z.pow_le_mono_l. lia.
Qed.

Lemma split_join sep p ps :
  Forall (λ p, sep ∉ p) (p :: ps) → split_units sep (join_units sep (p :: ps)) = (p, ps).
Proof.
  revert p. induction ps as [|q ps IH]; intros p [Hp Hps]%Forall_cons.
  - simpl. by rewrite split_units_none.
  - change (join_units sep (p :: q :: ps)) with (p ++ sep :: join_units sep (q :: ps)).
    rewrite split_units_app, IH by done. done.
Qed.

Lemma js_or_byte a b : 0 <= a < 256 → 0 <= b < 256 → js_or (js_shl a 8) b = a * 256 + b.
Proof.
  intros Ha Hb. unfold js_or, js_shl. change (8 mod 32) with 8.
  rewrite (to_i32_small a) by lia. rewrite Z.shiftl_mul_pow2 by lia. change (2 ^ 8) with 256.
  rewrite (to_i32_small (a * 256)) by lia. rewrite (to_i32_small (a * 256)), (to_i32_small b) by lia.
  rewrite Z.add_nocarry_lxor; [apply eq_sym, Z.lxor_lor|];
    (apply Z.bits_inj'; intros i Hi; rewrite Z.land_spec, Z.bits_0;
     change 256 with (2 ^ 8); destruct (decide (i < 8));
     [rewrite Z.mul_pow2_bits_low by lia; done
     |rewrite (Z.bits_above_log2 b), andb_false_r; [done|lia|]]).
  - destruct (decide (b = 0)) as [->|]; [simpl; lia|]. apply Z.log2_lt_pow2; [lia|].
    eapply Z.lt_le_trans with (2 ^ 8); [lia|]. apply Z.pow_le_mono_r; lia.
  - destruct (decide (b = 0)) as [->|]; [simpl; lia|]. apply Z.log2_lt_pow2; [lia|].
    eapply Z.lt_le_trans with (2 ^ 8); [lia|]. apply Z.pow_le_mono_r; lia.
Qed.
End Printing.

(** ** RFC 5952 *)
Section Ipv6.

(** [zeros g s n]: the [n] groups from [s] are there and all zero. *)
Definition zeros (g : list Z) (s n : nat) : Prop :=
  (s + n ≤ length g)%nat ∧ ∀ k, (s ≤ k < s + n)%nat → g !! k = Some 0.

Lemma zero_run_spec g :
  zeros g 0 (zero_run g) ∧ g !! zero_run g ≠ Some 0.
Proof.
  induction g as [|x g [[IH1 IH2] IH3]]; simpl.
  - split; [split; [simpl; lia|lia]|done].
  - destruct (Z.eqb_spec x 0) as [->|Hx].
    + split; [|done]. split; [simpl; lia|]. intros [|k] Hk; simpl; [done|]. apply IH2. lia.
    + split; [split; [simpl; lia|lia]|]. simpl. congruence.
Qed.

Lemma zero_run_drop g i :
  (i ≤ length g)%nat →
  zeros g i (zero_run (drop i g)) ∧ g !! (i + zero_run (drop i g))%nat ≠ Some 0.
Proof.
  intros Hi. destruct (zero_run_spec (drop i g)) as [[H1 H2] H3]. rewrite length_drop in H1.
  rewrite lookup_drop in H3. split; [|done]. split; [lia|].
  intros k Hk. specialize (H2 (k - i)%nat ltac:(lia)). rewrite lookup_drop in H2. rewrite <-H2. f_equal. lia.
Qed.

(** The runs that start before [i] are known to [(bs, bl)]. *)
Definition runs_known (g : list Z) (i bs bl : nat) : Prop :=
  zeros g bs bl ∧ (bs + bl ≤ i)%nat ∧
  ∀ s n, zeros g s n → (0 < n)%nat → (s < i)%nat →
    (s + n ≤ i)%nat ∧ (n ≤ bl)%nat ∧ (n = bl → (bs ≤ s)%nat).

Lemma best_run_spec fuel g i bs bl :
  (length g ≤ i + fuel)%nat → (i ≤ length g)%nat → runs_known g i bs bl →
  let '(s, l) := best_run fuel i (drop i g) bs bl in runs_known g (length g) s l.
Proof.
  revert i bs bl. induction fuel as [|fuel IH]; intros i bs bl Hf Hi Hk.
  - simpl. by replace (length g) with i by lia.
  - destruct (drop i g) as [|x rest] eqn:Ed.
    { simpl. apply (f_equal length) in Ed. rewrite length_drop in Ed. simpl in Ed.
      by replace (length g) with i by lia. }
    assert (g !! i = Some x) as Hx.
    { rewrite <-(Nat.add_0_r i), <-lookup_drop, Ed. done. }
    pose proof (lookup_lt_Some _ _ _ Hx) as Hlt.
    assert (rest = drop (i + 1) g) as -> by (by rewrite <-drop_drop, Ed).
    destruct Hk as (Hz & Hle & Hk). simpl. destruct (Z.eqb_spec x 0) as [->|Hne]; simpl.
    + rewrite <-(Nat.add_0_r i), <-lookup_drop, Ed in Hx.
      destruct (zero_run_drop g i Hi) as [Hzr Hend]. rewrite Ed in Hzr, Hend. simpl in Hzr, Hend.
      set (n := S (zero_run (drop (i + 1) g))) in *.
      assert (drop (zero_run (drop (i + 1) g)) (drop (i + 1) g) = drop (i + n) g) as ->.
      { rewrite drop_drop. f_equal. lia. }
      assert (∀ s m, zeros g s m → (0 < m)%nat → (s < i + n)%nat → (s + m ≤ i + n)%nat) as Hstop.
      { intros s m [_ Hsm] Hm Hs. destruct (decide (s + m ≤ i + n)%nat); [done|].
        exfalso. apply Hend, Hsm. lia. }
      destruct (bl <? n)%nat eqn:Eb; bool_prop; apply IH; try (unfold n in *; destruct Hzr; lia).
      * split; [done|]. split; [lia|]. intros s m Hsm Hm Hs. specialize (Hstop s m Hsm Hm Hs).
        split; [done|]. destruct (decide (s < i)%nat) as [Hsi|]; [|lia].
        destruct (Hk s m Hsm Hm Hsi) as (? & ? & ?). lia.
      * split; [done|]. split; [lia|]. intros s m Hsm Hm Hs. specialize (Hstop s m Hsm Hm Hs).
        split; [done|]. destruct (decide (s < i)%nat) as [Hsi|].
        -- destruct (Hk s m Hsm Hm Hsi) as (? & ? & ?). lia.
        -- lia.
    + apply IH; [lia|lia|]. split; [done|]. split; [lia|]. intros s m Hsm Hm Hs.
      destruct (decide (s < i)%nat) as [Hsi|]; [destruct (Hk s m Hsm Hm Hsi) as (? & ? & ?); lia|].
      exfalso. assert (s = i) as -> by lia. destruct Hsm as [_ Hsm]. specialize (Hsm i ltac:(lia)). congruence.
Qed.
End Ipv6.

Section Address_text.

Definition byte (b : Z) : Prop := 0 <= b < 256.

Lemma ip_groups_16 ip : Forall byte ip → length ip = 16%nat →
  length (ip_groups ip) = 8%nat ∧ Forall (λ g, 0 <= g < 65536) (ip_groups ip).
Proof.
  intros Hb Hl. do 16 (destruct ip as [|? ip]; [done|]). destruct ip; [|done].
  split; [done|]. repeat (apply Forall_cons in Hb as [? Hb]). simpl.
  repeat (constructor; [rewrite js_or_byte by done; unfold byte in *; lia|]). constructor.
Qed.

Lemma ip_groups_inj ip1 ip2 : Forall byte ip1 → Forall byte ip2 →
  length ip1 = 16%nat → length ip2 = 16%nat → ip_groups ip1 = ip_groups ip2 → ip1 = ip2.
Proof.
  assert (∀ n ip1 ip2, length ip1 = (2 * n)%nat → length ip2 = (2 * n)%nat → Forall byte ip1 →
    Forall byte ip2 → ip_groups ip1 = ip_groups ip2 → ip1 = ip2) as Hgen.
  { clear. induction n as [|n IH]; intros ip1 ip2 H1 H2 Hb1 Hb2 E.
    - destruct ip1, ip2; done.
    - destruct ip1 as [|a1 [|b1 ip1]], ip2 as [|a2 [|b2 ip2]]; simpl in H1, H2; try lia.
      repeat match goal with H : Forall byte (_ :: _) |- _ => apply Forall_cons in H as [? H] end.
      simpl in E. injection E as E1 E2. rewrite !js_or_byte in E1 by done. unfold byte in *.
      assert (a1 = a2 ∧ b1 = b2) as [-> ->] by lia. do 2 f_equal. apply IH; auto; lia. }
  intros. by apply (Hgen 8%nat).
Qed.

(** Reading an IPv6 text back: the parts before the first empty one, zeros,
    and the parts after it. *)
Fixpoint before_gap (parts : list (list Z)) : list (list Z) :=
  match parts with
  | [] => []
  | p :: ps => match p with [] => [] | _ => p :: before_gap ps end
  end.

Definition expand6 (s : list Z) : list Z :=
  let '(h, t) := split_units COLON s in
  let b := before_gap (h :: t) in
  let a := filter (λ p, p ≠ []) (drop (length b) (h :: t)) in
  (from_radix 16 <$> b) ++ replicate (8 - length b - length a) 0 ++ (from_radix 16 <$> a).

Definition parts_of (g : list Z) : list (list Z) :=
  match g with [] => [[]] | _ => to_radix 16 <$> g end.

Lemma hex_parts g : hex g = join_units COLON (parts_of g).
Proof. by destruct g. Qed.

Lemma is_digit_seps l : Forall is_digit l → COLON ∉ l ∧ DOT ∉ l ∧ SLASH ∉ l.
Proof.
  rewrite Forall_forall. intros Hl.
  split; [|split]; intros Hin%Hl; unfold is_digit, COLON, DOT, SLASH in Hin; lia.
Qed.

Lemma to_radix_seps base n : 2 <= base <= 16 → 0 <= n →
  COLON ∉ to_radix base n ∧ DOT ∉ to_radix base n ∧ SLASH ∉ to_radix base n.
Proof. intros. by apply is_digit_seps, to_radix_ok. Qed.

Definition group (g : Z) : Prop := 0 <= g < 65536.

Lemma parts_of_no_colon g : Forall group g → Forall (λ p, COLON ∉ p) (parts_of g).
Proof.
  intros Hg. destruct g as [|x g]; [constructor; [set_solver|constructor]|].
  unfold parts_of. apply Forall_fmap. eapply Forall_impl; [exact Hg|]. intros y Hy.
  simpl. apply to_radix_seps; [lia|apply Hy].
Qed.

Lemma join_units_app sep ps qs : ps ≠ [] → qs ≠ [] →
  join_units sep (ps ++ qs) = join_units sep ps ++ sep :: join_units sep qs.
Proof.
  intros Hp Hq. induction ps as [|p ps IH]; [done|]. destruct ps as [|p' ps].
  - simpl. by destruct qs.
  - change (join_units sep ((p :: p' :: ps) ++ qs)) with (p ++ sep :: join_units sep ((p' :: ps) ++ qs)).
    rewrite IH by done. simpl. by rewrite <-!app_assoc.
Qed.

Lemma from_to_groups g : Forall group g → from_radix 16 <$> (to_radix 16 <$> g) = g.
Proof.
  induction 1 as [|x g Hx Hg IH]; [done|]. rewrite !fmap_cons, IH. f_equal.
  apply to_radix_ok; [lia|apply Hx].
Qed.

Lemma before_gap_groups g rest : Forall group g →
  before_gap ((to_radix 16 <$> g) ++ [] :: rest) = to_radix 16 <$> g.
Proof.
  induction 1 as [|x g Hx Hg IH]; [done|]. rewrite fmap_cons. simpl.
  destruct (to_radix 16 x) eqn:E; [|by rewrite IH].
  exfalso. eapply (to_radix_ok 16 x); [lia|apply Hx|done].
Qed.

Lemma before_gap_full g : Forall group g → before_gap (to_radix 16 <$> g) = to_radix 16 <$> g.
Proof.
  induction 1 as [|x g Hx Hg IH]; [done|]. rewrite fmap_cons. simpl.
  destruct (to_radix 16 x) eqn:E; [|by rewrite IH].
  exfalso. eapply (to_radix_ok 16 x); [lia|apply Hx|done].
Qed.

Lemma filter_parts g : Forall group g → filter (λ p, p ≠ []) (parts_of g) = to_radix 16 <$> g.
Proof.
  intros Hg. destruct g as [|y g]; [done|]. unfold parts_of.
  induction Hg as [|x l Hx Hl IH]; [done|]. rewrite fmap_cons, filter_cons, IH.
  rewrite decide_True; [done|]. apply to_radix_ok; [lia|apply Hx].
Qed.

Lemma expand6_full g : length g = 8%nat → Forall group g → expand6 (hex g) = g.
Proof.
  intros Hl Hg. rewrite hex_parts. unfold expand6.
  assert (∃ h t, parts_of g = h :: t ∧ h :: t = to_radix 16 <$> g) as (h & t & Ep & Et)
    by (destruct g; [done|]; eexists _, _; done).
  rewrite Ep, split_join by (rewrite <-Ep; by apply parts_of_no_colon).
  rewrite Et, before_gap_full, length_fmap, Hl by done.
  rewrite drop_ge by (rewrite length_fmap; lia). simpl. rewrite app_nil_r. by apply from_to_groups.
Qed.

Lemma expand6_gap g1 g2 n : (length g1 + n + length g2 = 8)%nat → Forall group g1 → Forall group g2 →
  expand6 (hex g1 ++ [COLON; COLON] ++ hex g2) = g1 ++ replicate n 0 ++ g2.
Proof.
  intros Hl Hg1 Hg2. rewrite !hex_parts.
  assert (parts_of g1 ≠ [] ∧ parts_of g2 ≠ []) as [Hn1 Hn2] by (by destruct g1, g2).
  assert (join_units COLON (parts_of g1) ++ [COLON; COLON] ++ join_units COLON (parts_of g2)
    = join_units COLON (parts_of g1 ++ [] :: parts_of g2)) as ->.
  { rewrite join_units_app by done. f_equal. simpl. f_equal. by destruct (parts_of g2). }
  unfold expand6. destruct (parts_of g1 ++ [] :: parts_of g2) as [|h t] eqn:Ep; [by destruct (parts_of g1)|].
  rewrite split_join.
  2:{ rewrite <-Ep. apply Forall_app; split; [by apply parts_of_no_colon|].
      constructor; [set_solver|by apply parts_of_no_colon]. }
  rewrite <-Ep.
  assert (before_gap (parts_of g1 ++ [] :: parts_of g2) = to_radix 16 <$> g1) as Hb.
  { destruct g1 as [|x g1]; [done|]. by apply before_gap_groups. }
  rewrite Hb. rewrite length_fmap.
  assert (filter (λ p, p ≠ []) (drop (length g1) (parts_of g1 ++ [] :: parts_of g2)) = to_radix 16 <$> g2) as ->.
  { destruct g1 as [|x g1].
    - simpl. rewrite !filter_cons. simpl. by apply filter_parts.
    - unfold parts_of at 1. rewrite drop_app_le by (rewrite length_fmap; done).
      rewrite drop_ge by (by rewrite length_fmap). simpl. rewrite filter_cons. simpl. by apply filter_parts. }
  rewrite length_fmap, !from_to_groups by done. do 2 f_equal. f_equal. lia.
Qed.
End Address_text.

Section Address_theorems.

Lemma zeros_decompose g s n : zeros g s n → g = take s g ++ replicate n 0 ++ drop (s + n) g.
Proof.
  intros [Hl Hz]. rewrite <-(take_drop s g) at 1. f_equal.
  rewrite <-(take_drop n (drop s g)), drop_drop. f_equal.
  apply list_eq. intros k. destruct (decide (k < n)%nat).
  - rewrite lookup_take_lt, lookup_drop, lookup_replicate_2 by lia. apply Hz. lia.
  - rewrite lookup_take_ge by lia. symmetry. apply lookup_ge_None. rewrite length_replicate. lia.
Qed.

(** The two forms of an IPv6 text: which run of zeros it leaves out. *)
Lemma formatIp_v6 ip : Forall byte ip → length ip = 16%nat →
  let g := ip_groups ip in
  (formatIp ip = hex g ∧ ∀ s n, zeros g s n → (n < 2)%nat) ∨
  ∃ s n, formatIp ip = hex (take s g) ++ [COLON; COLON] ++ hex (drop (s + n) g) ∧
    zeros g s n ∧ (2 ≤ n)%nat ∧
    ∀ s' n', zeros g s' n' → (0 < n')%nat → (n' ≤ n)%nat ∧ (n' = n → (s ≤ s')%nat).
Proof.
  intros Hb Hl. cbv zeta. destruct (ip_groups_16 ip Hb Hl) as [Hg _]. unfold formatIp.
  rewrite Hl. change (16 =? 4)%nat with false. cbv iota zeta.
  pose proof (best_run_spec 8 (ip_groups ip) 0 0 0) as Hbest. rewrite drop_0 in Hbest.
  destruct (best_run 8 0 (ip_groups ip) 0 0) as [s n].
  destruct Hbest as (Hz & Hle & Hk); [lia|lia|split; [split; [simpl; lia|lia]|split; lia]|].
  assert (∀ s' n', zeros (ip_groups ip) s' n' → (0 < n')%nat →
    (n' ≤ n)%nat ∧ (n' = n → (s ≤ s')%nat)) as Hmax.
  { intros s' n' Hz' Hn'. apply (Hk s' n' Hz' Hn'). destruct Hz'. lia. }
  destruct (Nat.ltb_spec n 2).
  - left. split; [done|]. intros s' n' Hz'. destruct n' as [|n']; [lia|].
    destruct (Hmax s' (S n') Hz'); lia.
  - right. by exists s, n.
Qed.

Lemma expand6_formatIp ip : Forall byte ip → length ip = 16%nat → expand6 (formatIp ip) = ip_groups ip.
Proof.
  intros Hb Hl. destruct (ip_groups_16 ip Hb Hl) as [Hg Hgr].
  destruct (formatIp_v6 ip Hb Hl) as [[-> _]|(s & n & -> & Hz & Hn & _)].
  - by apply expand6_full.
  - rewrite (expand6_gap _ _ n); [by rewrite <-zeros_decompose| |by apply Forall_take|by apply Forall_drop].
    destruct Hz as [Hle _]. rewrite length_take, length_drop. lia.
Qed.

(** An IPv6 address is printed as RFC 5952 asks: the longest run of two
    or more zero groups, the first of equals, becomes [::]; without such a run
    all eight groups are written. *)
Theorem formatIp_rfc5952 ip : Forall byte ip → length ip = 16%nat →
  let g := ip_groups ip in
  expand6 (formatIp ip) = g ∧
  ((formatIp ip = hex g ∧ ∀ s n, zeros g s n → (n < 2)%nat) ∨
   ∃ s n, formatIp ip = hex (take s g) ++ [COLON; COLON] ++ hex (drop (s + n) g) ∧
     zeros g s n ∧ (2 ≤ n)%nat ∧
     ∀ s' n', zeros g s' n' → (0 < n')%nat → (n' ≤ n)%nat ∧ (n' = n → (s ≤ s')%nat)).
Proof. intros Hb Hl. split; [by apply expand6_formatIp|by apply formatIp_v6]. Qed.

Lemma join_units_elem sep ps p u : p ∈ ps → u ∈ p → u ∈ join_units sep ps.
Proof.
  induction ps as [|q ps IH]; [set_solver|]. intros Hp Hu. destruct ps as [|q' ps].
  - simpl. set_solver.
  - change (u ∈ q ++ sep :: join_units sep (q' :: ps)). rewrite elem_of_app, elem_of_cons.
    apply elem_of_cons in Hp as [->|Hp]; [by left|]. right; right. by apply IH.
Qed.

Lemma elem_of_join sep ps u : u ∈ join_units sep ps → u = sep ∨ ∃ p, p ∈ ps ∧ u ∈ p.
Proof.
  induction ps as [|q ps IH]; [set_solver|]. destruct ps as [|q' ps]; [simpl; set_solver|].
  change (join_units sep (q :: q' :: ps)) with (q ++ sep :: join_units sep (q' :: ps)).
  rewrite elem_of_app, elem_of_cons. intros [?|[?|Hu%IH]]; set_solver.
Qed.

Lemma join_sep_in sep p q ps : sep ∈ join_units sep (p :: q :: ps).
Proof. change (sep ∈ p ++ sep :: join_units sep (q :: ps)). set_solver. Qed.

Lemma formatIp_v4_inj ip1 ip2 : Forall byte ip1 → Forall byte ip2 →
  length ip1 = 4%nat → length ip2 = 4%nat → formatIp ip1 = formatIp ip2 → ip1 = ip2.
Proof.
  intros Hb1 Hb2 H1 H2. unfold formatIp. rewrite H1, H2. cbv iota beta. change (4 =? 4)%nat with true. cbv iota.
  assert (∀ ip, Forall byte ip → length ip = 4%nat →
    (let '(h, t) := split_units DOT (join_units DOT (to_radix 10 <$> ip)) in from_radix 10 <$> h :: t) = ip) as Hrt.
  { intros ip Hb Hl. destruct ip as [|x ip]; [done|]. rewrite fmap_cons, split_join.
    - rewrite fmap_cons. f_equal; [apply to_radix_ok; [lia|by apply Forall_inv in Hb as [? ?]]|].
      apply Forall_inv_tail in Hb. clear Hl. induction Hb as [|y l Hy Hl IH]; [done|].
      rewrite !fmap_cons, IH. f_equal. apply to_radix_ok; [lia|apply Hy].
    - rewrite <-fmap_cons. apply Forall_fmap. eapply Forall_impl; [exact Hb|]. intros y Hy.
      simpl. apply to_radix_seps; [lia|apply Hy]. }
  intros E. rewrite <-(Hrt ip1), <-(Hrt ip2), E by done. done.
Qed.

Lemma hex_no_sep g u : Forall group g → u = DOT ∨ u = SLASH → u ∉ hex g.
Proof.
  intros Hg Hu Hin. apply elem_of_join in Hin as [->|(p & (x & -> & Hx)%list_elem_of_fmap & Hp)];
    [unfold COLON, DOT, SLASH in Hu; lia|].
  rewrite Forall_forall in Hg. specialize (Hg x Hx).
  destruct (to_radix_seps 16 x) as (? & ? & ?); [lia|apply Hg|]. naive_solver.
Qed.

Lemma formatIp_v6_chars ip : Forall byte ip → length ip = 16%nat →
  COLON ∈ formatIp ip ∧ DOT ∉ formatIp ip ∧ SLASH ∉ formatIp ip.
Proof.
  intros Hb Hl. destruct (ip_groups_16 ip Hb Hl) as [Hg Hgr].
  assert (∀ g u, Forall group g → u = DOT ∨ u = SLASH → u ∉ hex g) as Hno by apply hex_no_sep.
  destruct (formatIp_v6 ip Hb Hl) as [[-> _]|(s & n & -> & _)].
  - split; [|split; apply Hno; auto].
    destruct (ip_groups ip) as [|x [|y g]]; [done|done|]. apply join_sep_in.
  - split; [set_solver|]. assert (∀ u, u = DOT ∨ u = SLASH →
      u ∉ hex (take s (ip_groups ip)) ++ [COLON; COLON] ++ hex (drop (s + n) (ip_groups ip))) as Hu.
    { intros u Hu. rewrite !not_elem_of_app. split; [|split].
      - apply Hno; [by apply Forall_take|done].
      - unfold COLON, DOT, SLASH in *. set_unfold. lia.
      - apply Hno; [by apply Forall_drop|done]. }
    split; apply Hu; auto.
Qed.

Lemma formatIp_v4_chars ip : Forall byte ip → length ip = 4%nat →
  DOT ∈ formatIp ip ∧ SLASH ∉ formatIp ip.
Proof.
  intros Hb Hl. unfold formatIp. rewrite Hl. change (4 =? 4)%nat with true. cbv iota. split.
  - destruct ip as [|x [|y ip]]; [done|done|]. apply join_sep_in.
  - intros Hin. apply elem_of_join in Hin as [?|(p & (x & -> & Hx)%list_elem_of_fmap & Hp)]; [done|].
    rewrite Forall_forall in Hb. destruct (Hb x Hx).
    by apply (to_radix_seps 10 x).
Qed.

(** What [readCidr] returns. *)
Definition cidr_ok (c : list Z * Z) : Prop :=
  Forall byte c.1 ∧ (length c.1 = 4%nat ∨ length c.1 = 16%nat) ∧ 0 <= c.2.

(** Two networks never have the same text, so de-duplicating the printed
    list drops no network. *)
Theorem cidr_text_injective c1 c2 :
  cidr_ok c1 → cidr_ok c2 → cidr_text c1 = cidr_text c2 → c1 = c2.
Proof.
  destruct c1 as [ip1 p1], c2 as [ip2 p2]. intros (Hb1 & Hl1 & Hp1) (Hb2 & Hl2 & Hp2). simpl in *.
  unfold cidr_text. simpl.
  assert (∀ ip, Forall byte ip → length ip = 4%nat ∨ length ip = 16%nat → SLASH ∉ formatIp ip) as Hsl.
  { intros ip Hb [?|?]; [by apply formatIp_v4_chars|by apply formatIp_v6_chars]. }
  intros E. apply (f_equal (split_units SLASH)) in E. rewrite !split_units_app in E by auto.
  rewrite !split_units_none in E by (apply to_radix_seps; lia). injection E as E1 E2. f_equal.
  - destruct Hl1 as [H1|H1], Hl2 as [H2|H2].
    + by apply formatIp_v4_inj.
    + destruct (formatIp_v4_chars ip1 Hb1 H1) as [Hd _].
      destruct (formatIp_v6_chars ip2 Hb2 H2) as (_ & Hn & _). congruence.
    + destruct (formatIp_v4_chars ip2 Hb2 H2) as [Hd _].
      destruct (formatIp_v6_chars ip1 Hb1 H1) as (_ & Hn & _). congruence.
    + apply ip_groups_inj; auto. rewrite <-!expand6_formatIp by done. by f_equal.
  - destruct (to_radix_ok 10 p1) as (_ & _ & <-); [lia|done|].
    destruct (to_radix_ok 10 p2) as (_ & _ & <-); [lia|done|]. by rewrite E2.
Qed.
End Address_theorems.

(** ** Concrete inputs *)
Lemma geositeRuleSet_spec_witness : ∃ rs,
  geositeRuleSet sample_site sample_site_index (js "CN@x") = Ok rs ∧
  ∃ ds, length ds = 1%nat ∧
    site_rules_of (filter (λ d, wanted (to_lower <$> [js "x"]) d = true) ds) rs.
Proof.
  pose proof (geositeRuleSet_spec sample_site sample_site_index (js "CN@x")
    ltac:(vm_compute; reflexivity) sample_site_parses) as (ds & rs & _ & Hlen & Hr & Hs).
  exists rs. split; [exact Hr|]. exists ds. split; [|exact Hs].
  apply Nat2Z.inj. rewrite <-Hlen. reflexivity.
Defined.

Lemma offered_attribute_matches_witness : ∃ r,
  geositeRuleSet sample_site sample_site_index (js "cn" ++ AT :: js "x") = Ok [r].
Proof.
  apply (offered_attribute_matches sample_site sample_site_index (mkGeoDatEntry (js "cn") 2 20 1 [js "x"])).
  - vm_compute. reflexivity.
  - exact sample_site_parses.
  - vm_compute. reflexivity.
  - vm_compute. constructor.
  - apply (bool_decide_unpack _). vm_compute. exact I.
  - apply (bool_decide_unpack _). vm_compute. exact I.
Defined.

Lemma geoipRuleSet_spec_witness : ∃ cs rs,
  geoipRuleSet sample_ip sample_ip_index (js "!cn") = Ok rs ∧ length cs = 1%nat ∧
  rs = match cs with
       | [] => [mkHeadlessRule None None None None (Some [js "0.0.0.0/0"; js "::/0"]) false]
       | _ => [mkHeadlessRule None None None None (Some (js_uniq (cidr_text <$> cs))) true]
       end.
Proof.
  pose proof (geoipRuleSet_spec sample_ip sample_ip_index (js "!cn")
    ltac:(vm_compute; reflexivity) sample_ip_parses) as (cs & rs & _ & Hlen & Hr & Hs).
  exists cs, rs. split; [exact Hr|]. split; [apply Nat2Z.inj; rewrite <-Hlen; reflexivity|].
  exact Hs.
Defined.

Definition sample_v6 : list Z := [0x20; 1; 0x0d; 0xb8; 0; 0; 0; 0; 0; 0; 0xff; 0; 0; 0; 0; 0x42].

Lemma formatIp_rfc5952_witness :
  formatIp sample_v6 = js "2001:db8::ff00:0:42" ∧ expand6 (formatIp sample_v6) = ip_groups sample_v6.
Proof.
  split; [vm_compute; reflexivity|].
  apply (formatIp_rfc5952 sample_v6); [|reflexivity].
  repeat (constructor; [vm_compute; split; congruence|]). constructor.
Defined.

Lemma cidr_text_injective_witness :
  cidr_text ([10; 0; 0; 0], 8) = js "10.0.0.0/8" ∧
  cidr_text ([10; 0; 0; 0], 8) ≠ cidr_text ([1; 0; 0; 0], 8).
Proof.
  split; [vm_compute; reflexivity|]. intros E. apply cidr_text_injective in E; [discriminate|..];
    (split; [|split; [left; reflexivity|simpl; lia]]);
    repeat (constructor; [vm_compute; split; congruence|]); constructor.
Defined.
