(* ===== verification/Stats.v ===== *)
(** Traffic accounting
    (apps/panel-backend/src/modules/stats/stats.compute.ts).

    [computeUserDeltas] turns cumulative counters into per-poll deltas against
    stored snapshots, [computeNodeTotalsFromCores] does the same for a node's
    totals, and [computeNodeStatsWrites] works out the rows one poll writes.
    A [bigint] is a [Z]; a reported counter is an integer below 2^53, absent or
    not ([option Z]); the multiplier is a double. *)

From S2P Require Import Prelude Js.

Local Open Scope string_scope.
Local Open Scope list_scope.
Local Open Scope Z_scope.

(** ** The report *)
Record StatsUserEntry := mkStatsUserEntry {
  u_id : string;
  u_bytesIn : option Z;
  u_bytesOut : option Z;
  u_cumulative : option bool;
  u_protocol : option string;
  u_engine : option string
}.

Record adapter := mkAdapter { a_protocol : string; a_engine : string }.

#[global] Instance adapter_eq_dec : EqDecision adapter.
Proof. solve_decision. Defined.

(** [BigInt(x || 0)]. *)
Definition big (x : option Z) : Z := default 0 x.

Definition snapshotAdapterOf (u : StatsUserEntry) : adapter :=
  if truthy (u_engine u)
  then mkAdapter (default "" (u_protocol u)) (default "" (u_engine u))
  else mkAdapter "" "".

Definition snapshotKey (userId : string) (a : adapter) : string :=
  userId +:+ "|" +:+ a_protocol a +:+ "|" +:+ a_engine a.

Definition key_of (u : StatsUserEntry) : string := snapshotKey (u_id u) (snapshotAdapterOf u).

(** ** Per-user deltas *)
Record UserSnapshot := mkUserSnapshot { cumIn : Z; cumOut : Z }.

Record group := mkGroup {
  g_userId : string;
  g_adapter : adapter;
  g_cumIn : Z;
  g_cumOut : Z;
  g_protocols : list (option string)
}.

Definition add_entry (groups : list (string * group)) (u : StatsUserEntry) : list (string * group) :=
  let a := snapshotAdapterOf u in
  let key := snapshotKey (u_id u) a in
  let cur := default (mkGroup (u_id u) a 0 0 []) (jm_get key groups) in
  jm_set key
    (mkGroup (g_userId cur) (g_adapter cur) (g_cumIn cur + big (u_bytesIn u))
       (g_cumOut cur + big (u_bytesOut u)) (set_add (u_protocol u) (g_protocols cur)))
    groups.

Definition groups_of (reported : list StatsUserEntry) : list (string * group) :=
  foldl add_entry [] reported.

(** [p ? (c >= p ? c - p : 0n) : 0n]. *)
Definition delta (p : option Z) (c : Z) : Z :=
  match p with
  | Some p => if p <=? c then c - p else 0
  | None => 0
  end.

Record SnapshotRow := mkSnapshotRow {
  sr_userId : string; sr_adapter : adapter; sr_cumIn : Z; sr_cumOut : Z
}.

(** [[...g.protocols].find((x) => x !== undefined)]. *)
Fixpoint first_protocol (ps : list (option string)) : option string :=
  match ps with
  | [] => None
  | Some p :: _ => Some p
  | None :: ps => first_protocol ps
  end.

(** [Number(d)] of a bigint rounds past 2^53. *)
Definition delta_of (prev : list (string * UserSnapshot)) (kg : string * group) : StatsUserEntry :=
  let '(key, g) := kg in
  let p := jm_get key prev in
  mkStatsUserEntry (g_userId g)
    (Some (fl_round (delta (cumIn <$> p) (g_cumIn g))))
    (Some (fl_round (delta (cumOut <$> p) (g_cumOut g))))
    None (first_protocol (g_protocols g)) None.

Definition snapshot_of (kg : string * group) : SnapshotRow :=
  mkSnapshotRow (g_userId kg.2) (g_adapter kg.2) (g_cumIn kg.2) (g_cumOut kg.2).

Definition computeUserDeltas (reported : list StatsUserEntry) (prev : list (string * UserSnapshot))
    : list StatsUserEntry * list SnapshotRow :=
  let groups := groups_of reported in
  (delta_of prev <$> groups, snapshot_of <$> groups).

(** ** Node totals, adapter by adapter *)
Record CoreTotalEntry := mkCoreTotalEntry {
  c_protocol : string;
  c_engine : string;
  c_bytesIn : option Z;
  c_bytesOut : option Z;
  c_cumulative : bool;
  c_noData : bool
}.

Record io := mkIo { io_in : Z; io_out : Z }.

Definition core_key (c : CoreTotalEntry) : string := c_protocol c +:+ "|" +:+ c_engine c.

Definition add_core (prev : list (string * io)) (s : Z * Z * list (string * io)) (c : CoreTotalEntry)
    : Z * Z * list (string * io) :=
  let '(upload, download, snapshots) := s in
  if c_noData c then s
  else
    let inB := big (c_bytesIn c) in
    let outB := big (c_bytesOut c) in
    if negb (c_cumulative c) then (upload + inB, download + outB, snapshots)
    else
      let '(upload, download) :=
        match jm_get (core_key c) prev with
        | Some p => (upload + (if io_in p <=? inB then inB - io_in p else 0),
                     download + (if io_out p <=? outB then outB - io_out p else 0))
        | None => (upload, download)
        end in
      (upload, download, jm_set (core_key c) (mkIo inB outB) snapshots).

Definition computeNodeTotalsFromCores (cores : list CoreTotalEntry) (prev : list (string * io))
    : Z * Z * list (string * io) :=
  foldl (add_core prev) (0, 0, []) cores.

(** ** One poll's writes *)
Record NodeStatsInput := mkNodeStatsInput {
  i_users : list StatsUserEntry;
  i_multiplier : spec_float;
  i_totalBytesIn : option Z;
  i_totalBytesOut : option Z;
  i_prevSnapshot : option io;
  i_maxUserDeltaBytes : option Z;
  i_nodeTotalIsCumulative : bool;
  i_nodeTotals : option (Z * Z)  (* upload, download *)
}.

Record UserTrafficRow := mkUserTrafficRow { t_userId : string; t_scaled : Z }.
Record UserHistoryRow := mkUserHistoryRow { h_userId : string; h_bytesIn : Z; h_bytesOut : Z }.
Record Clamped := mkClamped { cl_userId : string; cl_bytesIn : Z; cl_bytesOut : Z }.

Record NodeStatsWrites := mkNodeStatsWrites {
  userTrafficRows : list UserTrafficRow;
  historyRows : list UserHistoryRow;
  nodeDownload : Z;
  nodeUpload : Z;
  newSnapshot : option io;
  clamped : list Clamped
}.

(** [Number.isFinite(m) && m >= 0 ? Math.round(m * 10) : 10]; [-0 >= 0]. *)
Definition tenths_of (m : spec_float) : Z :=
  match m with
  | S754_zero _ | S754_finite false _ _ => default 10 (js_round (SFmul 53 1024 m (sf_of_Z 10)))
  | _ => 10
  end.

(** [tenths === 10n ? v : (v * tenths + 5n) / 10n]; bigint division truncates. *)
Definition scale (tenths v : Z) : Z := if tenths =? 10 then v else Z.quot (v * tenths + 5) 10.

Record accounts := mkAccounts {
  usedByUser : list (string * Z);
  histByUser : list (string * io);
  a_clamped : list Clamped;
  a_upload : Z;
  a_download : Z
}.

Definition over_ceiling (ceiling : option Z) (inB outB : Z) : bool :=
  match ceiling with Some c => (c <? inB) || (c <? outB) | None => false end.

Definition count_user (input : NodeStatsInput) (tenths : Z) (s : accounts) (u : StatsUserEntry)
    : accounts :=
  let '(mkAccounts used hist clamped upload download) := s in
  let inB := big (u_bytesIn u) in
  let outB := big (u_bytesOut u) in
  if over_ceiling (i_maxUserDeltaBytes input) inB outB
  then mkAccounts used hist (clamped ++ [mkClamped (u_id u) inB outB]) upload download
  else
    let '(upload, download) :=
      if negb (i_nodeTotalIsCumulative input) && bool_decide (i_nodeTotals input = None)
      then (upload + inB, download + outB) else (upload, download) in
    let delta := inB + outB in
    if delta =? 0 then mkAccounts used hist clamped upload download
    else
      let h := default (mkIo 0 0) (jm_get (u_id u) hist) in
      mkAccounts
        (jm_set (u_id u) (default 0 (jm_get (u_id u) used) + scale tenths delta) used)
        (jm_set (u_id u) (mkIo (io_in h + scale tenths inB) (io_out h + scale tenths outB)) hist)
        clamped upload download.

Definition node_total (input : NodeStatsInput) (upload download : Z) : Z * Z * option io :=
  match i_nodeTotals input with
  | Some (u, d) => (u, d, None)
  | None =>
      if i_nodeTotalIsCumulative input || ((download =? 0) && (upload =? 0)) then
        let cumIn := big (i_totalBytesIn input) in
        let cumOut := big (i_totalBytesOut input) in
        if (0 <? cumIn) || (0 <? cumOut) then
          let prev := default (mkIo 0 0) (i_prevSnapshot input) in
          let baselineOnly :=
            bool_decide (i_prevSnapshot input = None) && i_nodeTotalIsCumulative input in
          let dIn := if baselineOnly then 0 else if io_in prev <? cumIn then cumIn - io_in prev else 0 in
          let dOut := if baselineOnly then 0 else if io_out prev <? cumOut then cumOut - io_out prev else 0 in
          (upload + dIn, download + dOut, Some (mkIo cumIn cumOut))
        else (upload, download, None)
      else (upload, download, None)
  end.

Definition computeNodeStatsWrites (input : NodeStatsInput) : NodeStatsWrites :=
  let tenths := tenths_of (i_multiplier input) in
  let s := foldl (count_user input tenths) (mkAccounts [] [] [] 0 0) (i_users input) in
  let traffic := (λ kv, mkUserTrafficRow kv.1 kv.2) <$> usedByUser s in
  let history := (λ kv, mkUserHistoryRow kv.1 (io_in kv.2) (io_out kv.2)) <$> histByUser s in
  let '(upload, download, snap) := node_total input (a_upload s) (a_download s) in
  mkNodeStatsWrites
    (sort_by (λ a b, str_leb (t_userId a) (t_userId b)) traffic)
    (sort_by (λ a b, str_leb (h_userId a) (h_userId b)) history)
    download upload snap (a_clamped s).

(** ** Facts *)
Lemma delta_nonneg p c : 0 <= delta p c.
Proof. unfold delta. destruct p as [p|]; [|done]. destruct (Z.leb_spec p c); lia. Qed.

Lemma groups_of_group reported :
  groups_of reported = foldl (group_add key_of
    (λ u, mkGroup (u_id u) (snapshotAdapterOf u) 0 0 [])
    (λ g u, mkGroup (g_userId g) (g_adapter g) (g_cumIn g + big (u_bytesIn u))
       (g_cumOut g + big (u_bytesOut u)) (set_add (u_protocol u) (g_protocols g)))) [] reported.
Proof. done. Qed.

Definition in_sum (us : list StatsUserEntry) : Z := sumZ ((λ u, big (u_bytesIn u)) <$> us).
Definition out_sum (us : list StatsUserEntry) : Z := sumZ ((λ u, big (u_bytesOut u)) <$> us).

(** What a report says of one adapter of one user: the sums of its entries, or
    nothing when it did not answer. *)
Definition observed (k : string) (reported : list StatsUserEntry) : option (Z * Z) :=
  match filter (λ u, key_of u = k) reported with
  | [] => None
  | us => Some (in_sum us, out_sum us)
  end.

Lemma in_sum_cons u us : in_sum (u :: us) = big (u_bytesIn u) + in_sum us.
Proof. done. Qed.

Lemma out_sum_cons u us : out_sum (u :: us) = big (u_bytesOut u) + out_sum us.
Proof. done. Qed.

Lemma group_fold us g :
  let g' := foldl (λ g u, mkGroup (g_userId g) (g_adapter g) (g_cumIn g + big (u_bytesIn u))
       (g_cumOut g + big (u_bytesOut u)) (set_add (u_protocol u) (g_protocols g))) g us in
  g_userId g' = g_userId g ∧ g_adapter g' = g_adapter g ∧
  g_cumIn g' = g_cumIn g + in_sum us ∧ g_cumOut g' = g_cumOut g + out_sum us.
Proof.
  revert g. induction us as [|u us IH]; intros g; cbv zeta.
  { rewrite !Z.add_0_r. done. }
  simpl foldl. destruct (IH (mkGroup (g_userId g) (g_adapter g) (g_cumIn g + big (u_bytesIn u))
       (g_cumOut g + big (u_bytesOut u)) (set_add (u_protocol u) (g_protocols g)))) as (-> & -> & -> & ->).
  rewrite in_sum_cons, out_sum_cons. simpl. split_and!; auto; lia.
Qed.

Lemma groups_of_spec reported k :
  match jm_get k (groups_of reported) with
  | None => observed k reported = None
  | Some g => observed k reported = Some (g_cumIn g, g_cumOut g) ∧ snapshotKey (g_userId g) (g_adapter g) = k
  end.
Proof.
  rewrite groups_of_group, jm_get_group. unfold observed.
  destruct (filter (λ u, key_of u = k) reported) as [|u us] eqn:E; [done|].
  assert (key_of u = k) as Hk.
  { assert (u ∈ filter (λ u, key_of u = k) reported) as Hu by (rewrite E; set_solver).
    by apply list_elem_of_filter in Hu as [? _]. }
  unfold group_value.
  match goal with |- context [foldl ?f ?g ?l] => destruct (group_fold l g) as (H1 & H2 & H3 & H4) end.
  cbv zeta in *. split.
  - rewrite H3, H4. simpl g_cumIn. simpl g_cumOut. done.
  - rewrite H1, H2. done.
Qed.

(** A group carries the names of an entry of its key. *)
Lemma group_names reported k g :
  jm_get k (groups_of reported) = Some g →
  ∃ u, u ∈ reported ∧ key_of u = k ∧ g_userId g = u_id u ∧ g_adapter g = snapshotAdapterOf u.
Proof.
  rewrite groups_of_group, jm_get_group.
  destruct (filter (λ u, key_of u = k) reported) as [|u us] eqn:E; [done|].
  assert (u ∈ filter (λ u, key_of u = k) reported) as Hu by (rewrite E; set_solver).
  apply list_elem_of_filter in Hu as [Hk Hu]. unfold group_value. intros [= <-].
  match goal with |- context [foldl ?f ?g ?l] => destruct (group_fold l g) as (H1 & H2 & _) end.
  exists u. cbv zeta in *. cbn [foldl] in H1, H2. rewrite H1, H2. done.
Qed.

Lemma groups_of_wf reported : jm_wf (groups_of reported).
Proof. rewrite groups_of_group. apply jm_wf_group. Qed.

Lemma snapshot_keys reported prev :
  (λ s, snapshotKey (sr_userId s) (sr_adapter s)) <$> (computeUserDeltas reported prev).2
  = jm_keys (groups_of reported).
Proof.
  unfold computeUserDeltas, jm_keys. simpl. rewrite <-list_fmap_compose.
  apply list_fmap_ext. intros i [k g] Hi. simpl.
  pose proof (groups_of_spec reported k) as Hs.
  rewrite (jm_elem_get k g) in Hs; [by apply Hs|apply groups_of_wf|by eapply list_elem_of_lookup_2].
Qed.

(** ** What a poll writes *)
Section Writes.
Context (input : NodeStatsInput).

Let tenths := tenths_of (i_multiplier input).
Let total (u : StatsUserEntry) : Z := big (u_bytesIn u) + big (u_bytesOut u).

(** The entries below the ceiling, and those of them that moved bytes. *)
Definition kept (u : StatsUserEntry) : Prop :=
  over_ceiling (i_maxUserDeltaBytes input) (big (u_bytesIn u)) (big (u_bytesOut u)) = false.

#[global] Instance kept_dec u : Decision (kept u).
Proof. unfold kept. apply _. Defined.

Definition counted (u : StatsUserEntry) : Prop := kept u ∧ total u ≠ 0.

#[global] Instance counted_dec u : Decision (counted u).
Proof. unfold counted. apply _. Defined.

Definition add_used : list (string * Z) → StatsUserEntry → list (string * Z) :=
  group_add u_id (λ _, 0) (λ v u, v + scale tenths (total u)).

Definition add_hist : list (string * io) → StatsUserEntry → list (string * io) :=
  group_add u_id (λ _, mkIo 0 0)
    (λ h u, mkIo (io_in h + scale tenths (big (u_bytesIn u))) (io_out h + scale tenths (big (u_bytesOut u)))).

(** Whether the node total is the sum of the entries. *)
Definition summed : bool :=
  negb (i_nodeTotalIsCumulative input) && bool_decide (i_nodeTotals input = None).

Lemma count_user_step used hist cl up dn u :
  count_user input tenths (mkAccounts used hist cl up dn) u =
  if decide (kept u) then
    let up := up + if summed then big (u_bytesIn u) else 0 in
    let dn := dn + if summed then big (u_bytesOut u) else 0 in
    if decide (counted u) then mkAccounts (add_used used u) (add_hist hist u) cl up dn
    else mkAccounts used hist cl up dn
  else mkAccounts used hist (cl ++ [mkClamped (u_id u) (big (u_bytesIn u)) (big (u_bytesOut u))]) up dn.
Proof.
  destruct (decide (kept u)) as [Hk|Hk]; unfold kept in Hk; simpl.
  - rewrite Hk. fold summed. destruct (decide (counted u)) as [[_ Hc]|Hc]; unfold total in Hc.
    + apply Z.eqb_neq in Hc. destruct summed; rewrite Hc, ?Z.add_0_r; done.
    + assert ((big (u_bytesIn u) + big (u_bytesOut u) =? 0) = true) as Hz.
      { apply Z.eqb_eq. destruct (decide (total u = 0)); [done|]. by destruct Hc. }
      destruct summed; rewrite Hz, ?Z.add_0_r; done.
  - apply not_false_is_true in Hk. by rewrite Hk.
Qed.

Lemma count_users us s :
  foldl (count_user input tenths) s us =
  mkAccounts
    (foldl add_used (usedByUser s) (filter counted us))
    (foldl add_hist (histByUser s) (filter counted us))
    (a_clamped s ++ ((λ u, mkClamped (u_id u) (big (u_bytesIn u)) (big (u_bytesOut u)))
       <$> filter (λ u, ¬ kept u) us))
    (a_upload s + if summed then in_sum (filter kept us) else 0)
    (a_download s + if summed then out_sum (filter kept us) else 0).
Proof.
  revert s. induction us as [|u us IH]; intros [used hist cl up dn].
  - simpl. rewrite app_nil_r. destruct summed; by rewrite !Z.add_0_r.
  - cbn [foldl].
    rewrite IH, !filter_cons, count_user_step. destruct (decide (kept u)) as [Hk|Hk].
    + rewrite (decide_False (P := ¬ kept u)) by tauto.
      destruct (decide (counted u)), summed; simpl;
        rewrite ?in_sum_cons, ?out_sum_cons; f_equal; lia.
    + rewrite (decide_False (P := counted u)) by (intros [? _]; done).
      rewrite (decide_True (P := ¬ kept u)) by done. simpl. by rewrite <-app_assoc.
Qed.
End Writes.

Lemma foldl_plus {X} (f : X → Z) l a : foldl (λ v x, v + f x) a l = a + sumZ (f <$> l).
Proof. revert a. induction l as [|x l IH]; intros a; [by rewrite Z.add_0_r|]. cbn [foldl]. rewrite IH, fmap_cons, sumZ_cons. lia. Qed.

Lemma foldl_io {X} (f g : X → Z) l h :
  foldl (λ h x, mkIo (io_in h + f x) (io_out h + g x)) h l
  = mkIo (io_in h + sumZ (f <$> l)) (io_out h + sumZ (g <$> l)).
Proof.
  revert h. induction l as [|x l IH]; intros [a b]; [by rewrite !Z.add_0_r|].
  cbn [foldl]. rewrite IH, !fmap_cons, !sumZ_cons. simpl. f_equal; lia.
Qed.

Section Row_facts.
Context (input : NodeStatsInput).

Notation us := (filter (counted input) (i_users input)).
Notation tenths := (tenths_of (i_multiplier input)).
Definition of_user (id : string) : list StatsUserEntry := filter (λ u, u_id u = id) us.
Definition scaled_total (us : list StatsUserEntry) : Z :=
  sumZ ((λ u, scale tenths (big (u_bytesIn u) + big (u_bytesOut u))) <$> us).
Definition scaled_in (us : list StatsUserEntry) : Z :=
  sumZ ((λ u, scale tenths (big (u_bytesIn u))) <$> us).
Definition scaled_out (us : list StatsUserEntry) : Z :=
  sumZ ((λ u, scale tenths (big (u_bytesOut u))) <$> us).

Lemma used_get id :
  jm_get id (foldl (add_used input) [] us) =
  match of_user id with [] => None | l => Some (scaled_total l) end.
Proof.
  unfold add_used. rewrite jm_get_group. fold (of_user id). unfold group_value.
  destruct (of_user id) as [|u l]; [done|]. by rewrite foldl_plus.
Qed.

Lemma hist_get id :
  jm_get id (foldl (add_hist input) [] us) =
  match of_user id with [] => None | l => Some (mkIo (scaled_in l) (scaled_out l)) end.
Proof.
  unfold add_hist. rewrite jm_get_group. fold (of_user id). unfold group_value.
  destruct (of_user id) as [|u l]; [done|]. by rewrite foldl_io.
Qed.

Lemma writes_rows :
  let w := computeNodeStatsWrites input in
  userTrafficRows w = sort_by (λ a b, str_leb (t_userId a) (t_userId b))
    ((λ kv, mkUserTrafficRow kv.1 kv.2) <$> foldl (add_used input) [] us) ∧
  historyRows w = sort_by (λ a b, str_leb (h_userId a) (h_userId b))
    ((λ kv, mkUserHistoryRow kv.1 (io_in kv.2) (io_out kv.2)) <$> foldl (add_hist input) [] us) ∧
  clamped w = (λ u, mkClamped (u_id u) (big (u_bytesIn u)) (big (u_bytesOut u)))
                <$> filter (λ u, ¬ kept input u) (i_users input) ∧
  (nodeUpload w, nodeDownload w, newSnapshot w) =
    node_total input (if summed input then in_sum (filter (kept input) (i_users input)) else 0)
      (if summed input then out_sum (filter (kept input) (i_users input)) else 0).
Proof.
  cbv zeta. unfold computeNodeStatsWrites. rewrite count_users. cbn [usedByUser histByUser a_clamped a_upload a_download].
  rewrite !Z.add_0_l. destruct (node_total _ _ _) as [[up dn] sn]. done.
Qed.

Lemma traffic_rows_NoDup : NoDup (t_userId <$> userTrafficRows (computeNodeStatsWrites input)).
Proof.
  destruct writes_rows as (-> & _). rewrite sort_by_perm. rewrite <-list_fmap_compose.
  unfold add_used. apply (jm_wf_group (V := Z)).
Qed.

Lemma history_rows_NoDup : NoDup (h_userId <$> historyRows (computeNodeStatsWrites input)).
Proof.
  destruct writes_rows as (_ & -> & _). rewrite sort_by_perm. rewrite <-list_fmap_compose.
  unfold add_hist. apply (jm_wf_group (V := io)).
Qed.

Lemma elem_of_traffic_rows r :
  r ∈ userTrafficRows (computeNodeStatsWrites input) ↔
  of_user (t_userId r) ≠ [] ∧ t_scaled r = scaled_total (of_user (t_userId r)).
Proof.
  destruct writes_rows as (-> & _). rewrite elem_of_sort_by, list_elem_of_fmap.
  split.
  - intros ([id v] & -> & Hin). simpl.
    apply jm_elem_get in Hin; [|apply (jm_wf_group (V := Z))].
    rewrite used_get in Hin. destruct (of_user id); [done|]. by injection Hin as <-.
  - intros [Hne Hv]. exists (t_userId r, t_scaled r). split; [by destruct r|].
    apply jm_get_Some_elem. rewrite used_get, Hv. by destruct (of_user (t_userId r)).
Qed.

Lemma elem_of_history_rows r :
  r ∈ historyRows (computeNodeStatsWrites input) ↔
  of_user (h_userId r) ≠ [] ∧ h_bytesIn r = scaled_in (of_user (h_userId r)) ∧
  h_bytesOut r = scaled_out (of_user (h_userId r)).
Proof.
  destruct writes_rows as (_ & -> & _). rewrite elem_of_sort_by, list_elem_of_fmap.
  split.
  - intros ([id v] & -> & Hin). simpl.
    apply jm_elem_get in Hin; [|apply (jm_wf_group (V := io))].
    rewrite hist_get in Hin. destruct (of_user id); [done|]. by injection Hin as <-.
  - intros (Hne & Hi & Ho). exists (h_userId r, mkIo (h_bytesIn r) (h_bytesOut r)).
    split; [by destruct r|].
    apply jm_get_Some_elem. rewrite hist_get, Hi, Ho. by destruct (of_user (h_userId r)).
Qed.
End Row_facts.

(** The rows a poll writes: one per user with a counted entry, in
    ascending order of user id, holding the sum of that user's scaled bytes;
    the entries over the ceiling are listed apart and count nowhere. *)
Theorem computeNodeStatsWrites_rows input :
  let w := computeNodeStatsWrites input in
  NoDup (t_userId <$> userTrafficRows w) ∧ NoDup (h_userId <$> historyRows w) ∧
  StronglySorted (λ a b, str_leb (t_userId a) (t_userId b) = true) (userTrafficRows w) ∧
  StronglySorted (λ a b, str_leb (h_userId a) (h_userId b) = true) (historyRows w) ∧
  (∀ r, r ∈ userTrafficRows w ↔
     of_user input (t_userId r) ≠ [] ∧ t_scaled r = scaled_total input (of_user input (t_userId r))) ∧
  (∀ r, r ∈ historyRows w ↔
     of_user input (h_userId r) ≠ [] ∧ h_bytesIn r = scaled_in input (of_user input (h_userId r)) ∧
     h_bytesOut r = scaled_out input (of_user input (h_userId r))) ∧
  clamped w = (λ u, mkClamped (u_id u) (big (u_bytesIn u)) (big (u_bytesOut u)))
                <$> filter (λ u, ¬ kept input u) (i_users input).
Proof.
  cbv zeta. split; [apply traffic_rows_NoDup|]. split; [apply history_rows_NoDup|].
  destruct (writes_rows input) as (Ht & Hh & Hc & _).
  split; [rewrite Ht; apply sort_by_sorted; eauto with iceslab|].
  split; [rewrite Hh; apply sort_by_sorted; eauto with iceslab|].
  split; [apply elem_of_traffic_rows|]. split; [apply elem_of_history_rows|done].
Qed.

(** Checked for every multiplier a node may have. *)
Definition multiplier_of (k : Z) : spec_float := SFdiv 53 1024 (sf_of_Z k) (sf_of_Z 10).

Lemma tenths_of_multiplier k : 0 <= k <= 1000 → tenths_of (multiplier_of k) = k.
Proof.
  intros Hk.
  assert (forallb (λ k, tenths_of (multiplier_of (Z.of_nat k)) =? Z.of_nat k) (seq 0 1001) = true)
    as Hall by (vm_compute; reflexivity).
  rewrite forallb_forall in Hall. specialize (Hall (Z.to_nat k)). rewrite Z2Nat.id in Hall by lia.
  apply Z.eqb_eq, Hall, in_seq. lia.
Qed.

(** A multiplier of [k] tenths, divided by ten and multiplied back in
    doubles, scales bytes to the integer nearest [bytes * k / 10], half up; a
    free node counts nothing. *)
Theorem scale_exact k v :
  0 <= k <= 1000 → 0 <= v →
  let s := scale (tenths_of (multiplier_of k)) v in
  v * k - 5 < 10 * s <= v * k + 5 ∧ (k = 0 → s = 0) ∧ (k = 10 → s = v).
Proof.
  intros Hk Hv. cbv zeta. rewrite tenths_of_multiplier by done. unfold scale.
  destruct (Z.eqb_spec k 10) as [->|Hne]; [lia|].
  rewrite Z.quot_div_nonneg by nia.
  pose proof (Z.div_mod (v * k + 5) 10 ltac:(lia)). pose proof (Z.mod_pos_bound (v * k + 5) 10 ltac:(lia)).
  split; [lia|]. split; [|lia]. intros ->. by rewrite Z.mul_0_r.
Qed.

Lemma scale_exact_witness :
  (7 * 15 - 5 < 10 * 11 <= 7 * 15 + 5) ∧ scale (tenths_of (multiplier_of 15)) 7 = 11.
Proof.
  assert (scale (tenths_of (multiplier_of 15)) 7 = 11) as E by (vm_compute; reflexivity).
  split; [|exact E]. rewrite <-E. apply (scale_exact 15 7); lia.
Defined.
