(* ===== verification/StatsCron.v ===== *)
(** One node's stats poll (apps/panel-backend/src/modules/stats/stats.cron.ts).

    The state is what the poll keeps: the four tables its transaction writes
    (restricted to this node where they are keyed by node) and the two
    in-memory snapshots.  [poll] is the body of the per-node callback; whether
    the agent answers and whether the database commits are inputs.  A bulk
    upsert that names a row twice aborts the transaction, as Postgres does. *)

From S2P Require Import Prelude Js Stats.

Local Open Scope string_scope.
Local Open Scope list_scope.
Local Open Scope Z_scope.

(** [1024 ** 4]. *)
Definition NODE_STATS_MAX_USER_DELTA_BYTES : Z := 1024 ^ 4.

(** ** State *)
Record TrafficRow := mkTrafficRow {
  used_traffic_bytes : Z;
  lifetime_traffic_bytes : Z;
  online_at : Z;
  first_connected_at : Z;
  last_connected_node_id : string
}.

Record db := mkDb {
  user_traffic : gmap string TrafficRow;
  user_history : gmap (string * string) io;              (* date, user *)
  usage_history : gmap Z (Z * Z);                        (* hour: download, upload *)
  traffic_snapshot : gmap (string * string * string) io  (* user, protocol, engine *)
}.

Record state := mkState {
  st_db : db;
  totalSnapshot : option io;
  adapterTotalSnapshot : option (list (string * io))
}.

Record stats_response := mkStatsResponse {
  r_users : list StatsUserEntry;
  r_cumulative : bool;
  r_cores : list CoreTotalEntry;
  r_totalBytesIn : option Z;
  r_totalBytesOut : option Z
}.

(** What a poll knows besides the response. *)
Record tick := mkTick {
  now : Z; hourBucket : Z; dateStr : string; node_id : string; multiplier : spec_float
}.

(** ** Bulk upserts: [None] is error 21000 *)
Definition bulk_upsert {K V R} `{Countable K} (key : R → K) (merge : option V → R → V)
    (rows : list R) (m : gmap K V) : option (gmap K V) :=
  if decide (NoDup (key <$> rows))
  then Some (foldl (λ m r, <[key r := merge (m !! key r) r]> m) m rows)
  else None.

Definition merge_traffic (t : tick) (old : option TrafficRow) (r : UserTrafficRow) : TrafficRow :=
  match old with
  | None => mkTrafficRow (t_scaled r) (t_scaled r) (now t) (now t) (node_id t)
  | Some o =>
      mkTrafficRow (used_traffic_bytes o + t_scaled r) (lifetime_traffic_bytes o + t_scaled r)
        (now t) (first_connected_at o) (node_id t)
  end.

Definition merge_history (old : option io) (r : UserHistoryRow) : io :=
  let o := default (mkIo 0 0) old in mkIo (io_in o + h_bytesIn r) (io_out o + h_bytesOut r).

Definition merge_snapshot (_ : option io) (r : SnapshotRow) : io := mkIo (sr_cumIn r) (sr_cumOut r).

Definition row_key (r : SnapshotRow) : string * string * string :=
  (sr_userId r, a_protocol (sr_adapter r), a_engine (sr_adapter r)).

(** The transaction; a statement without rows is not sent. *)
Definition transaction (t : tick) (w : NodeStatsWrites) (snapshotUpserts : list SnapshotRow)
    (adapterKeyedUsers : list string) (d : db) : option db :=
  traffic ← bulk_upsert t_userId (merge_traffic t) (userTrafficRows w) (user_traffic d);
  history ← bulk_upsert (λ r, (dateStr t, h_userId r)) merge_history (historyRows w) (user_history d);
  let usage :=
    if (0 <? nodeDownload w) || (0 <? nodeUpload w) then
      let '(dl, ul) := default (0, 0) (usage_history d !! hourBucket t) in
      <[hourBucket t := (dl + nodeDownload w, ul + nodeUpload w)]> (usage_history d)
    else usage_history d in
  snaps ← bulk_upsert row_key merge_snapshot
            (sort_by (λ a b, str_leb (sr_userId a) (sr_userId b)) snapshotUpserts) (traffic_snapshot d);
  let snaps := foldr (λ u m, delete (u, "", "") m) snaps adapterKeyedUsers in
  Some (mkDb traffic history usage snaps).

(** [stmts.length > 0]. *)
Definition has_stmts (w : NodeStatsWrites) (snapshotUpserts : list SnapshotRow)
    (adapterKeyedUsers : list string) : bool :=
  bool_decide (userTrafficRows w ≠ []) || bool_decide (historyRows w ≠ []) ||
  ((0 <? nodeDownload w) || (0 <? nodeUpload w)) ||
  bool_decide (snapshotUpserts ≠ []) || bool_decide (adapterKeyedUsers ≠ []).

(** ** The poll *)

(** [new Map(prevRows.map(...))] of the stored rows of [ids]. *)
Definition prev_map (ids : list string) (snaps : gmap (string * string * string) io)
    : list (string * UserSnapshot) :=
  foldl (λ m r, let '((u, p, e), v) := r in
           jm_set (snapshotKey u (mkAdapter p e)) (mkUserSnapshot (io_in v) (io_out v)) m)
    [] (filter (λ r, r.1.1.1 ∈ ids) (map_to_list snaps)).

(** The entries on cumulative counters: the tagged ones, or all of them when
    no entry carries the flag; and the others. *)
Definition tagged (users : list StatsUserEntry) : bool :=
  existsb (λ u, bool_decide (u_cumulative u ≠ None)) users.
Definition cumulative_users (users : list StatsUserEntry) : list StatsUserEntry :=
  if tagged users then filter (λ u, u_cumulative u = Some true) users else users.
Definition delta_users (users : list StatsUserEntry) : list StatsUserEntry :=
  if tagged users then filter (λ u, u_cumulative u ≠ Some true) users else [].

(** The user list to bill, the snapshot rows to store, the users whose old
    summed row goes. *)
Definition poll_users (res : stats_response) (snaps : gmap (string * string * string) io)
    : list StatsUserEntry * list SnapshotRow * list string :=
  let users := r_users res in
  if r_cumulative res && bool_decide (users ≠ []) then
    let cumulativeUsers := cumulative_users users in
    let deltaUsers := delta_users users in
    if decide (cumulativeUsers = []) then (users, [], [])
    else
      let prev := prev_map (u_id <$> cumulativeUsers) snaps in
      let '(deltas, snapshots) := computeUserDeltas cumulativeUsers prev in
      (deltas ++ deltaUsers, snapshots,
       js_uniq (u_id <$> filter (λ u, truthy (u_engine u) = true) cumulativeUsers))
  else (users, [], []).

(** [new Map([...old, ...new])]. *)
Definition map_merge {V} (old new : list (string * V)) : list (string * V) :=
  foldl (λ m kv, jm_set kv.1 kv.2 m) old new.

(** The node totals by adapter, and the adapter snapshots to keep. *)
Definition poll_cores (res : stats_response) (kept : option (list (string * io)))
    : option (Z * Z) * option (list (string * io)) :=
  match r_cores res with
  | [] => (None, None)
  | cores =>
      let old := default [] kept in
      let '(upload, download, snapshots) := computeNodeTotalsFromCores cores old in
      (Some (upload, download), Some (map_merge old snapshots))
  end.

(** The callback's [try] block: [None] is the [catch].  [committed] is whether
    the database accepts the transaction. *)
Definition poll (t : tick) (answer : option stats_response) (committed : bool) (s : state)
    : option state :=
  res ← answer;
  let '(userList, snapshotUpserts, adapterKeyedUsers) := poll_users res (traffic_snapshot (st_db s)) in
  let '(nodeTotals, newAdapterTotals) := poll_cores res (adapterTotalSnapshot s) in
  let w := computeNodeStatsWrites
    (mkNodeStatsInput userList (multiplier t) (r_totalBytesIn res) (r_totalBytesOut res)
       (totalSnapshot s) (Some NODE_STATS_MAX_USER_DELTA_BYTES) (r_cumulative res) nodeTotals) in
  d ← (if has_stmts w snapshotUpserts adapterKeyedUsers then
         if committed then transaction t w snapshotUpserts adapterKeyedUsers (st_db s) else None
       else Some (st_db s));
  Some (mkState d
    (match newSnapshot w with Some n => Some n | None => totalSnapshot s end)
    (match newAdapterTotals with Some n => Some n | None => adapterTotalSnapshot s end)).

(** Ticks in sequence; a failed one leaves the state as it was. *)
Definition poll_or_skip (s : state) (x : tick * option stats_response * bool) : state :=
  let '(t, answer, committed) := x in default s (poll t answer committed s).

(** ** Facts *)
Lemma snapshotKey_inj u1 u2 a1 a2 :
  str_has "|" u1 = false → str_has "|" u2 = false →
  str_has "|" (a_protocol a1) = false → str_has "|" (a_protocol a2) = false →
  snapshotKey u1 a1 = snapshotKey u2 a2 → u1 = u2 ∧ a1 = a2.
Proof.
  intros Hu1 Hu2 Hp1 Hp2 E. unfold snapshotKey in E. simpl in E.
  destruct (str_sep_inj _ _ _ _ _ Hu1 Hu2 E) as [-> E2].
  destruct (str_sep_inj _ _ _ _ _ Hp1 Hp2 E2) as [Hp He].
  split; [done|]. destruct a1, a2. simpl in *. by subst.
Qed.

(** Every name before a separator is free of it. *)
Definition names_ok (us : list StatsUserEntry) : Prop :=
  Forall (λ u, str_has "|" (u_id u) = false ∧ str_has "|" (default "" (u_protocol u)) = false) us.

Definition table_names_ok (snaps : gmap (string * string * string) io) : Prop :=
  ∀ u p e v, snaps !! (u, p, e) = Some v → str_has "|" u = false ∧ str_has "|" p = false.

Lemma adapter_names_ok u :
  str_has "|" (default "" (u_protocol u)) = false → str_has "|" (a_protocol (snapshotAdapterOf u)) = false.
Proof. unfold snapshotAdapterOf. by destruct (truthy (u_engine u)). Qed.

Lemma prev_fold_get rows m u p e :
  str_has "|" u = false → str_has "|" p = false →
  Forall (λ r : (string * string * string) * io, str_has "|" r.1.1.1 = false ∧ str_has "|" r.1.1.2 = false) rows →
  NoDup rows.*1 →
  jm_get (snapshotKey u (mkAdapter p e))
    (foldl (λ m r, let '((u, p, e), v) := r in
           jm_set (snapshotKey u (mkAdapter p e)) (mkUserSnapshot (io_in v) (io_out v)) m) m rows)
  = match (list_to_map rows : gmap _ io) !! (u, p, e) with
    | Some v => Some (mkUserSnapshot (io_in v) (io_out v))
    | None => jm_get (snapshotKey u (mkAdapter p e)) m
    end.
Proof.
  intros Hu Hp. revert m. induction rows as [|[[[u1 p1] e1] v1] rows IH]; intros m Hok Hnd; [done|].
  apply Forall_cons in Hok as [[Hu1 Hp1] Hok]. rewrite fmap_cons, NoDup_cons in Hnd.
  destruct Hnd as [Hni Hnd]. simpl in *. rewrite (IH _ Hok Hnd).
  destruct (decide ((u1, p1, e1) = (u, p, e))) as [[= -> -> ->]|Hne].
  - rewrite lookup_insert_eq, not_elem_of_list_to_map_1 by done. by rewrite jm_get_set_eq.
  - rewrite lookup_insert_ne by done. destruct (_ !! _); [done|].
    apply jm_get_set_ne. intros E. apply Hne.
    apply snapshotKey_inj in E as [-> [= -> ->]]; done.
Qed.

Lemma prev_map_get ids snaps u p e :
  table_names_ok snaps → str_has "|" u = false → str_has "|" p = false → u ∈ ids →
  jm_get (snapshotKey u (mkAdapter p e)) (prev_map ids snaps)
  = (λ v, mkUserSnapshot (io_in v) (io_out v)) <$> snaps !! (u, p, e).
Proof.
  intros Hok Hu Hp Hin. unfold prev_map. rewrite prev_fold_get; [|done..| |].
  - assert ((list_to_map (filter (λ r, r.1.1.1 ∈ ids) (map_to_list snaps)) : gmap _ io) !! (u, p, e)
      = snaps !! (u, p, e)) as ->; [|by destruct (snaps !! (u, p, e))].
    apply option_eq. intros v. rewrite <-elem_of_list_to_map.
    + rewrite list_elem_of_filter, elem_of_map_to_list. naive_solver.
    + apply NoDup_fmap_filter, NoDup_fst_map_to_list.
  - apply Forall_filter_l, Forall_forall. intros [[[u1 p1] e1] v1] Hr%elem_of_map_to_list.
    simpl. by eapply Hok.
  - apply NoDup_fmap_filter, NoDup_fst_map_to_list.
Qed.

(** ** Upserts *)
Lemma bulk_upsert_get {K V R} `{Countable K} (key : R → K) merge rows (m m' : gmap K V) k :
  bulk_upsert key merge rows m = Some m' →
  m' !! k = match js_find (λ r, bool_decide (key r = k)) rows with
            | Some r => Some (merge (m !! k) r)
            | None => m !! k
            end.
Proof.
  unfold bulk_upsert. case_decide as Hnd; [|done]. intros [= <-].
  revert m. induction rows as [|r rows IH]; intros m; [done|].
  rewrite fmap_cons, NoDup_cons in Hnd. destruct Hnd as [Hni Hnd]. cbn [foldl js_find].
  rewrite (IH Hnd). case_bool_decide as Hk.
  - subst k. assert (js_find (λ r0, bool_decide (key r0 = key r)) rows = None) as ->.
    { apply js_find_None. intros x Hx. apply bool_decide_eq_false. intros E. apply Hni.
      rewrite <-E. by apply list_elem_of_fmap_2. }
    by rewrite lookup_insert_eq.
  - rewrite lookup_insert_ne by done. done.
Qed.

Lemma bulk_upsert_Some {K V R} `{Countable K} (key : R → K) merge rows (m : gmap K V) :
  NoDup (key <$> rows) → is_Some (bulk_upsert key merge rows m).
Proof. unfold bulk_upsert. intros. by rewrite decide_True. Qed.

Lemma snapshot_rows_NoDup reported prev : NoDup (row_key <$> (computeUserDeltas reported prev).2).
Proof.
  eapply (NoDup_fmap_1 (λ k : string * string * string,
    let '(u, p, e) := k in snapshotKey u (mkAdapter p e))).
  rewrite <-list_fmap_compose.
  assert ((λ k : string * string * string, let '(u, p, e) := k in snapshotKey u (mkAdapter p e)) ∘ row_key
    = λ s, snapshotKey (sr_userId s) (sr_adapter s)) as -> by done.
  rewrite snapshot_keys. apply groups_of_wf.
Qed.

Lemma poll_users_NoDup res snaps : NoDup (row_key <$> (poll_users res snaps).1.2).
Proof.
  unfold poll_users. repeat case_match; simpl; try (by constructor).
  all: match goal with H : computeUserDeltas ?r ?p = _ |- _ => pose proof (snapshot_rows_NoDup r p) as Hn; rewrite H in Hn; exact Hn end.
Qed.

Lemma transaction_some t w res snaps adk d input :
  w = computeNodeStatsWrites input →
  is_Some (transaction t w (poll_users res snaps).1.2 adk d).
Proof.
  intros ->. unfold transaction.
  destruct (bulk_upsert_Some t_userId (merge_traffic t) _ (user_traffic d) (traffic_rows_NoDup input)) as [m1 ->].
  simpl.
  destruct (bulk_upsert_Some (λ r, (dateStr t, h_userId r)) merge_history
    (historyRows (computeNodeStatsWrites input)) (user_history d)) as [m2 ->].
  { pose proof (history_rows_NoDup input) as Hn.
    eapply (NoDup_fmap_1 snd). rewrite <-list_fmap_compose. exact Hn. }
  simpl.
  match goal with |- context [bulk_upsert row_key _ ?rows ?m] =>
    destruct (bulk_upsert_Some row_key merge_snapshot rows m) as [m3 ->] end; [|simpl; by destruct (default _ _)].
  rewrite sort_by_perm. apply poll_users_NoDup.
Qed.

(** When the agent answers and the database is up, the poll goes through:
    none of its bulk upserts names a row twice, whatever the agent reported.
    When either fails, nothing is written and no baseline moves. *)
Theorem poll_commits t answer committed s :
  match answer with
  | Some _ => committed = true → is_Some (poll t answer committed s)
  | None => poll t answer committed s = None
  end ∧
  (poll t answer committed s = None → poll_or_skip s (t, answer, committed) = s).
Proof.
  split; [|intros Hn; simpl; by rewrite Hn].
  destruct answer as [res|]; [|done]. intros ->. unfold poll. simpl.
  destruct (poll_users res (traffic_snapshot (st_db s))) as [[us rows] adk] eqn:Eu.
  destruct (poll_cores res (adapterTotalSnapshot s)) as [nt na].
  match goal with |- context [transaction t ?w rows adk] =>
    pose proof (transaction_some t w res (traffic_snapshot (st_db s)) adk (st_db s) _ eq_refl) as [d Hd];
    rewrite Eu in Hd; simpl in Hd; rewrite Hd;
    destruct (has_stmts w rows adk)
  end; simpl; by eexists.
Qed.

(** ** Billing of one adapter *)
Abbreviation key3 := (string * string * string)%type (only parsing).
Definition key3_text (k : key3) : string := let '(u, p, e) := k in snapshotKey u (mkAdapter p e).

(** What an answer says of [k]: its two cumulative counters. *)
Definition answered (k : key3) (res : stats_response) : option io :=
  if r_cumulative res then (λ v, mkIo v.1 v.2) <$> observed (key3_text k) (cumulative_users (r_users res)) else None.

(** The entries of an answer that are billed as they come. *)
Definition direct (res : stats_response) : list StatsUserEntry :=
  if r_cumulative res then delta_users (r_users res) else r_users res.

(** What a poll charges for bytes that moved: nothing for a gain no link can
    carry, else the two directions together, scaled by the node's multiplier. *)
Definition charge (t : tick) (i o : Z) : Z :=
  if over_ceiling (Some NODE_STATS_MAX_USER_DELTA_BYTES) i o then 0 else scale (tenths_of (multiplier t)) (i + o).

Definition charge_entry (t : tick) (u : StatsUserEntry) : Z := charge t (big (u_bytesIn u)) (big (u_bytesOut u)).

Definition direct_charge (t : tick) (id : string) (res : stats_response) : Z :=
  sumZ (charge_entry t <$> filter (λ u, u_id u = id) (direct res)).

Definition key3_ok (k : key3) : Prop := str_has "|" k.1.1 = false ∧ str_has "|" k.1.2 = false.

Section One_poll.
Context (us : list StatsUserEntry) (snaps : gmap key3 io) (k : key3).
Hypothesis us_ok : names_ok us.
Hypothesis snaps_ok : table_names_ok snaps.
Hypothesis k_ok : key3_ok k.

Lemma group_key_iff kg : kg ∈ groups_of us → row_key (snapshot_of kg) = k ↔ kg.1 = key3_text k.
Proof.
  destruct kg as [key g]. intros Hin. apply jm_elem_get in Hin; [|apply groups_of_wf].
  destruct (group_names _ _ _ Hin) as (u & Hu & Hk & Hid & Ha).
  assert (str_has "|" (u_id u) = false ∧ str_has "|" (a_protocol (snapshotAdapterOf u)) = false) as [Hn1 Hn2].
  { unfold names_ok in us_ok. rewrite Forall_forall in us_ok. destruct (us_ok u Hu) as [? ?].
    split; [done|]. by apply adapter_names_ok. }
  destruct k as [[ku kp] ke], k_ok as [Hk1 Hk2]. unfold row_key, snapshot_of, key3_text. simpl in *.
  rewrite Hid, Ha. split.
  - intros [= <- <- <-]. rewrite <-Hk. unfold key_of. by destruct (snapshotAdapterOf u).
  - intros ->. apply snapshotKey_inj in Hk as [-> Hk]; [|done..]. by rewrite Hk.
Qed.

Lemma filter_groups :
  filter (λ kg, row_key (snapshot_of kg) = k) (groups_of us)
  = match jm_get (key3_text k) (groups_of us) with Some g => [(key3_text k, g)] | None => [] end.
Proof.
  rewrite <-jm_filter_key by apply groups_of_wf.
  apply filter_same_in. intros kg. apply group_key_iff.
Qed.

(** The group of [k] and what is made of it. *)
Lemma entry_of_key prev_io :
  snaps !! k = prev_io → (∀ v, prev_io = Some v → 0 <= io_in v ∧ 0 <= io_out v) →
  (∀ i o, observed (key3_text k) us = Some (i, o) → 0 <= i < 2 ^ 53 ∧ 0 <= o < 2 ^ 53) →
  match observed (key3_text k) us with
  | Some (i, o) => ∃ kg, filter (λ kg, row_key (snapshot_of kg) = k) (groups_of us) = [kg] ∧
      snapshot_of kg = mkSnapshotRow k.1.1 (mkAdapter k.1.2 k.2) i o ∧
      u_bytesIn (delta_of (prev_map (u_id <$> us) snaps) kg) = Some (delta (io_in <$> prev_io) i) ∧
      u_bytesOut (delta_of (prev_map (u_id <$> us) snaps) kg) = Some (delta (io_out <$> prev_io) o)
  | None => filter (λ kg, row_key (snapshot_of kg) = k) (groups_of us) = []
  end.
Proof.
  intros Hprev Hpos Hsmall. rewrite filter_groups. pose proof (groups_of_spec us (key3_text k)) as Hg.
  destruct (jm_get (key3_text k) (groups_of us)) as [g|] eqn:Eg; [|by rewrite Hg].
  destruct Hg as [Hobs _]. rewrite Hobs. destruct (Hsmall _ _ Hobs) as [Hi Ho].
  destruct (group_names _ _ _ Eg) as (u & Hu & Hk & Hid & Ha).
  assert (u_id u = k.1.1 ∧ snapshotAdapterOf u = mkAdapter k.1.2 k.2) as [Hu1 Hu2].
  { pose proof us_ok as Hok. unfold names_ok in Hok. rewrite Forall_forall in Hok.
    destruct (Hok u Hu) as [? ?]. destruct k as [[ku kp] ke], k_ok as [? ?]. simpl in *.
    apply snapshotKey_inj in Hk; [done|done|done| |done]. by apply adapter_names_ok. }
  eexists. split; [done|]. split; [unfold snapshot_of; simpl; by rewrite Hid, Ha, Hu1, Hu2|].
  assert (jm_get (key3_text k) (prev_map (u_id <$> us) snaps)
    = (λ v, mkUserSnapshot (io_in v) (io_out v)) <$> prev_io) as Ep.
  { destruct k as [[ku kp] ke], k_ok as [Hk1 Hk2]. simpl in Hu1, Hu2. unfold key3_text.
    rewrite prev_map_get; [by rewrite Hprev|done..|]. rewrite <-Hu1. by apply list_elem_of_fmap_2. }
  unfold delta_of. cbn [u_bytesIn u_bytesOut]. rewrite Ep. clear Ep.
  destruct prev_io as [v|]; cbn; [|split; f_equal; by apply fl_round_small].
  destruct (Hpos v eq_refl). split; f_equal; apply fl_round_small; case_match; lia.
Qed.
End One_poll.

(** ** Billing over many polls *)
Definition event : Type := tick * option stats_response * bool.

(** What the polls that went through read of [k], each at its tick. *)
Fixpoint readings (k : key3) (s : state) (xs : list event) : list (tick * io) :=
  match xs with
  | [] => []
  | (t, a, c) :: xs =>
      match poll t a c s, a with
      | Some _, Some res => match answered k res with Some v => [(t, v)] | None => [] end
      | _, _ => []
      end ++ readings k (poll_or_skip s (t, a, c)) xs
  end.

(** What they charge a user for the entries billed as they come. *)
Fixpoint direct_over (id : string) (s : state) (xs : list event) : Z :=
  match xs with
  | [] => 0
  | (t, a, c) :: xs =>
      match poll t a c s, a with
      | Some _, Some res => direct_charge t id res
      | _, _ => 0
      end + direct_over id (poll_or_skip s (t, a, c)) xs
  end.

(** The charges for a counter by its readings alone: for each what it gained
    since the one before; the first of all sets the baseline, a drop a new one. *)
Fixpoint charges (p : option io) (obs : list (tick * io)) : Z :=
  match obs with
  | [] => 0
  | (t, v) :: obs => charge t (delta (io_in <$> p) (io_in v)) (delta (io_out <$> p) (io_out v)) + charges (Some v) obs
  end.

(** Readings of a counter that only grows, by gains a link can carry, on a node
    whose multiplier is one. *)
Fixpoint plain (p : io) (obs : list (tick * io)) : Prop :=
  match obs with
  | [] => True
  | (t, v) :: obs => tenths_of (multiplier t) = 10 ∧ io_in p <= io_in v ∧ io_out p <= io_out v ∧
      io_in v - io_in p <= NODE_STATS_MAX_USER_DELTA_BYTES ∧ io_out v - io_out p <= NODE_STATS_MAX_USER_DELTA_BYTES ∧
      plain v obs
  end.

(** What one answer is trusted with: names without the separator, counters a
    double holds, and no adapter of the user besides [ks]. *)
Definition event_ok (id : string) (ks : list key3) (x : event) : Prop :=
  ∀ res, x.1.2 = Some res →
    names_ok (cumulative_users (r_users res)) ∧
    (∀ k v, answered k res = Some v → 0 <= io_in v < 2 ^ 53 ∧ 0 <= io_out v < 2 ^ 53) ∧
    (∀ u, r_cumulative res = true → u ∈ cumulative_users (r_users res) → u_id u = id →
      (id, a_protocol (snapshotAdapterOf u), a_engine (snapshotAdapterOf u)) ∈ ks).

Definition used_of (id : string) (s : state) : Z :=
  match user_traffic (st_db s) !! id with Some r => used_traffic_bytes r | None => 0 end.
Definition lifetime_of (id : string) (s : state) : Z :=
  match user_traffic (st_db s) !! id with Some r => lifetime_traffic_bytes r | None => 0 end.

Lemma delete_summed_ne (k : key3) (adk : list string) (m : gmap key3 io) :
  k.2 ≠ "" → foldr (λ u m, delete (u, "", "") m) m adk !! k = m !! k.
Proof.
  intros Hk. induction adk as [|u adk IH]; [done|]. cbn [foldr].
  rewrite lookup_delete_ne; [done|]. intros <-. by apply Hk.
Qed.

Lemma delete_summed_sub (adk : list string) (m : gmap key3 io) k v :
  foldr (λ u m, delete (u, "", "") m) m adk !! k = Some v → m !! k = Some v.
Proof.
  induction adk as [|u adk IH]; [done|]. cbn [foldr]. rewrite lookup_delete_Some. intros [_ ?]. auto.
Qed.

(** The snapshot table after a poll: a row replaced for each that was sent. *)
Lemma poll_snapshot t res c s s' :
  poll t (Some res) c s = Some s' →
  let plan := poll_users res (traffic_snapshot (st_db s)) in
  ∃ m, bulk_upsert row_key merge_snapshot
         (sort_by (λ a b, str_leb (sr_userId a) (sr_userId b)) plan.1.2) (traffic_snapshot (st_db s)) = Some m ∧
    traffic_snapshot (st_db s') = foldr (λ u m, delete (u, "", "") m) m plan.2.
Proof.
  unfold poll. simpl. destruct (poll_users res _) as [[us rows] adk].
  destruct (poll_cores res _) as [nt na]. cbv zeta. cbn [fst snd].
  match goal with |- context [has_stmts ?w rows adk] => destruct (has_stmts w rows adk) eqn:Eh end.
  - destruct c; [|done]. unfold transaction. simpl.
    destruct (bulk_upsert t_userId _ _ _); simpl; [|done].
    destruct (bulk_upsert _ merge_history _ _); simpl; [|done].
    destruct (bulk_upsert row_key _ _ _) as [m|]; simpl; [|done].
    intros E. exists m. split; [done|]. injection E as <-. done.
  - simpl. intros [= <-]. simpl. unfold has_stmts in Eh. bool_prop.
    assert (rows = []) as -> by (destruct rows; naive_solver).
    assert (adk = []) as -> by (destruct adk; naive_solver).
    eexists. split; [|done]. unfold bulk_upsert. simpl. done.
Qed.

(** The list of a poll that reads counters, and of one that does not. *)
Lemma poll_users_cases res snaps :
  let us := cumulative_users (r_users res) in
  if decide (r_cumulative res = true ∧ us ≠ []) then
    poll_users res snaps = ((delta_of (prev_map (u_id <$> us) snaps) <$> groups_of us) ++ direct res,
      snapshot_of <$> groups_of us, js_uniq (u_id <$> filter (λ u, truthy (u_engine u) = true) us))
  else poll_users res snaps = (direct res, [], []).
Proof.
  cbv zeta. unfold poll_users, direct. destruct (r_cumulative res) eqn:Ec; cbn [andb].
  2:{ rewrite decide_False; [done|]. by intros []. }
  destruct (decide (cumulative_users (r_users res) = [])) as [Hnil|Hne].
  - rewrite (decide_False (P := _ ∧ _)) by tauto. assert (delta_users (r_users res) = r_users res) as ->; [|by case_bool_decide].
    unfold cumulative_users, delta_users in *. destruct (tagged (r_users res)); [|done].
    clear Ec. induction (r_users res) as [|u us IH]; [done|]. rewrite !filter_cons in *. case_decide; [done|].
    rewrite decide_True by done. f_equal. by apply IH.
  - rewrite (decide_True (P := _ ∧ _)) by done. rewrite bool_decide_true; [done|].
    intros E. apply Hne. unfold cumulative_users. rewrite E. done.
Qed.

Lemma poll_snapshot_key t res c s s' k :
  poll t (Some res) c s = Some s' →
  table_names_ok (traffic_snapshot (st_db s)) → names_ok (cumulative_users (r_users res)) →
  key3_ok k → k.2 ≠ "" → (∀ v, answered k res = Some v → 0 <= io_in v < 2 ^ 53 ∧ 0 <= io_out v < 2 ^ 53) →
  (∀ v, traffic_snapshot (st_db s) !! k = Some v → 0 <= io_in v ∧ 0 <= io_out v) →
  traffic_snapshot (st_db s') !! k =
    match answered k res with
    | Some v => Some v
    | None => traffic_snapshot (st_db s) !! k
    end.
Proof.
  intros Hp Ht Hn Hk Hke Hsm Hpos. destruct (poll_snapshot _ _ _ _ _ Hp) as (m & Hm & ->).
  rewrite delete_summed_ne by done. rewrite (bulk_upsert_get _ _ _ _ _ k Hm).
  set (rows := (poll_users res (traffic_snapshot (st_db s))).1.2) in *.
  assert (filter (λ r, row_key r = k) rows = match answered k res with
    | Some v => [mkSnapshotRow k.1.1 (mkAdapter k.1.2 k.2) (io_in v) (io_out v)] | None => [] end) as Hrows.
  { unfold rows, answered. pose proof (poll_users_cases res (traffic_snapshot (st_db s))) as Hc. cbv zeta in Hc.
    case_decide as Hd; rewrite Hc; cbn [fst snd].
    - destruct Hd as [Ec _]. rewrite Ec in *. unfold answered in Hsm. rewrite Ec in Hsm.
      pose proof (entry_of_key _ _ k Hn Ht Hk _ eq_refl Hpos) as He.
      assert (∀ gs, filter (λ r, row_key r = k) (snapshot_of <$> gs)
        = snapshot_of <$> filter (λ kg, row_key (snapshot_of kg) = k) gs) as ->.
      { clear. induction gs as [|kg gs IH]; [done|]. rewrite fmap_cons, !filter_cons, IH. by case_decide. }
      destruct (observed _ _) as [[i o]|]; cbn.
      + destruct He as (kg & -> & Hs & _); [|by rewrite <-Hs]. intros i' o' [= <- <-]. by apply (Hsm (mkIo i o)).
      + by rewrite He.
    - destruct (r_cumulative res); [|done]. destruct (cumulative_users (r_users res)); [done|]. by destruct Hd. }
  assert (∀ r, r ∈ sort_by (λ a b, str_leb (sr_userId a) (sr_userId b)) rows ∧ row_key r = k ↔
    r ∈ filter (λ r, row_key r = k) rows) as Hin.
  { intros r. rewrite elem_of_sort_by, list_elem_of_filter. tauto. }
  rewrite Hrows in Hin. destruct (js_find _ _) as [r|] eqn:Ef.
  - apply js_find_Some in Ef as [Hr Hrk]. bool_prop. specialize (proj1 (Hin r) (conj Hr Hrk)) as Hr2.
    destruct (answered k res) as [[i o]|]; [|set_solver]. by apply list_elem_of_singleton in Hr2 as ->.
  - destruct (answered k res) as [[i o]|]; [|done]. exfalso. rewrite js_find_None in Ef.
    destruct (proj2 (Hin (mkSnapshotRow k.1.1 (mkAdapter k.1.2 k.2) i o)) ltac:(set_solver)) as [Hr Hrk].
    specialize (Ef _ Hr). by rewrite bool_decide_true in Ef.
Qed.

Lemma poll_table_names t res c s s' :
  poll t (Some res) c s = Some s' →
  table_names_ok (traffic_snapshot (st_db s)) → names_ok (cumulative_users (r_users res)) →
  table_names_ok (traffic_snapshot (st_db s')).
Proof.
  intros Hp Ht Hn. destruct (poll_snapshot _ _ _ _ _ Hp) as (m & Hm & ->).
  intros u p e v Hv%delete_summed_sub. rewrite (bulk_upsert_get _ _ _ _ _ _ Hm) in Hv.
  destruct (js_find _ _) as [r|] eqn:Ef; [|by eapply Ht].
  apply js_find_Some in Ef as [Hr Hrk]. bool_prop. rewrite elem_of_sort_by in Hr.
  assert (r ∈ snapshot_of <$> groups_of (cumulative_users (r_users res))) as Hg.
  { unfold poll_users in Hr. destruct (_ && _); [|set_solver]. destruct (decide _); [set_solver|exact Hr]. }
  apply list_elem_of_fmap in Hg as ([key g] & -> & Hg).
  apply jm_elem_get in Hg; [|apply groups_of_wf].
  destruct (group_names _ _ _ Hg) as (x & Hx & _ & Hid & Ha).
  unfold names_ok in Hn. rewrite Forall_forall in Hn. destruct (Hn x Hx) as [Hn1 Hn2].
  unfold row_key, snapshot_of in Hrk. simpl in Hrk. injection Hrk as <- <- <-.
  rewrite Hid, Ha. split; [done|]. by apply adapter_names_ok.
Qed.

(** The input [poll] hands to [computeNodeStatsWrites]. *)
Definition poll_input (t : tick) (res : stats_response) (s : state) : NodeStatsInput :=
  mkNodeStatsInput (poll_users res (traffic_snapshot (st_db s))).1.1 (multiplier t)
    (r_totalBytesIn res) (r_totalBytesOut res) (totalSnapshot s)
    (Some NODE_STATS_MAX_USER_DELTA_BYTES) (r_cumulative res)
    (poll_cores res (adapterTotalSnapshot s)).1.

Lemma poll_traffic t res c s s' :
  poll t (Some res) c s = Some s' →
  bulk_upsert t_userId (merge_traffic t)
    (userTrafficRows (computeNodeStatsWrites (poll_input t res s))) (user_traffic (st_db s))
  = Some (user_traffic (st_db s')).
Proof.
  unfold poll, poll_input. simpl. destruct (poll_users res _) as [[us rows] adk].
  destruct (poll_cores res _) as [nt na]. cbn [fst snd].
  match goal with |- context [has_stmts ?w rows adk] => destruct (has_stmts w rows adk) eqn:Eh end.
  - destruct c; [|done]. unfold transaction. simpl.
    destruct (bulk_upsert t_userId _ _ _); simpl; [|done].
    destruct (bulk_upsert _ merge_history _ _); simpl; [|done].
    destruct (bulk_upsert row_key _ _ _) as [m|]; simpl; [|done].
    intros E. injection E as <-. done.
  - simpl. intros [= <-]. simpl. unfold has_stmts in Eh. bool_prop.
    match goal with H : ¬ userTrafficRows ?w ≠ [] |- _ =>
      assert (userTrafficRows w = []) as -> by (destruct (userTrafficRows w); naive_solver) end.
    done.
Qed.

(** A poll that goes through adds each user's scaled bytes, once, to both
    counters of that user's row, and touches no other user. *)
Theorem poll_bills_users t res c s s' id :
  poll t (Some res) c s = Some s' →
  let input := poll_input t res s in
  user_traffic (st_db s') !! id =
    match of_user input id with
    | [] => user_traffic (st_db s) !! id
    | us => Some (merge_traffic t (user_traffic (st_db s) !! id)
                    (mkUserTrafficRow id (scaled_total input us)))
    end.
Proof.
  intros Hp. cbv zeta. rewrite (bulk_upsert_get _ _ _ _ _ id (poll_traffic _ _ _ _ _ Hp)).
  set (input := poll_input t res s).
  destruct (js_find _ _) as [r|] eqn:Ef.
  - apply js_find_Some in Ef as [Hr Hid]. bool_prop.
    apply elem_of_traffic_rows in Hr as [Hne Hv]. rewrite Hid in Hne, Hv.
    destruct (of_user input id) as [|u us]; [done|]. rewrite <-Hv. subst id. by destruct r.
  - destruct (of_user input id) as [|u us] eqn:Eo; [done|]. exfalso.
    rewrite js_find_None in Ef. specialize (Ef (mkUserTrafficRow id (scaled_total input (of_user input id)))).
    rewrite bool_decide_true in Ef by done. discriminate Ef. apply elem_of_traffic_rows. simpl.
    by rewrite Eo.
Qed.

(** ** What many polls charge *)
Lemma scale_zero tenths : scale tenths 0 = 0.
Proof. unfold scale. by destruct (tenths =? 10). Qed.

Lemma scaled_total_charges t res s us :
  let input := poll_input t res s in
  scaled_total input (filter (counted input) us) = sumZ (charge_entry t <$> us).
Proof.
  cbv zeta. induction us as [|u us IH]; [done|]. rewrite filter_cons, fmap_cons, sumZ_cons. case_decide as Hd.
  - unfold scaled_total. rewrite fmap_cons, sumZ_cons. fold (scaled_total (poll_input t res s) (filter (counted (poll_input t res s)) us)).
    rewrite IH. destruct Hd as [Hk _]. unfold kept in Hk. unfold charge_entry, charge. cbn in Hk |- *. by rewrite Hk.
  - rewrite IH. cut (charge_entry t u = 0); [lia|]. unfold charge_entry.
    destruct (over_ceiling (Some NODE_STATS_MAX_USER_DELTA_BYTES) (big (u_bytesIn u)) (big (u_bytesOut u))) eqn:Eo;
      [unfold charge; by rewrite Eo|].
    assert (big (u_bytesIn u) + big (u_bytesOut u) = 0) as Ez.
    { destruct (decide (big (u_bytesIn u) + big (u_bytesOut u) = 0)); [done|]. destruct Hd. by split. }
    unfold charge. by rewrite Eo, Ez, scale_zero.
Qed.

(** Both counters of a user gain what the poll charges for the user's entries. *)
Lemma poll_charges t res c s s' uid : poll t (Some res) c s = Some s' →
  let more := sumZ (charge_entry t <$> filter (λ u, u_id u = uid) (poll_users res (traffic_snapshot (st_db s))).1.1) in
  used_of uid s' = used_of uid s + more ∧ lifetime_of uid s' = lifetime_of uid s + more.
Proof.
  intros Hp. cbv zeta. unfold used_of, lifetime_of. rewrite (poll_bills_users _ _ _ _ _ uid Hp).
  set (input := poll_input t res s).
  assert (scaled_total input (of_user input uid) =
    sumZ (charge_entry t <$> filter (λ u, u_id u = uid) (poll_users res (traffic_snapshot (st_db s))).1.1)) as <-.
  { rewrite <-(scaled_total_charges t res s). unfold of_user. fold input. rewrite !list_filter_filter. f_equal.
    apply filter_same_in. intros. tauto. }
  destruct (of_user input uid) as [|u us]; [cbn; lia|].
  unfold merge_traffic. destruct (user_traffic (st_db s) !! uid); cbn [t_scaled used_traffic_bytes lifetime_traffic_bytes]; lia.
Qed.

(** A sum over a list is the sum over its parts by key. *)
Lemma sum_by_key {A K} `{EqDecision K} (key : A → K) (f : A → Z) (ks : list K) (l : list A) :
  NoDup ks → (∀ x, x ∈ l → key x ∈ ks) →
  sumZ (f <$> l) = sumZ ((λ k, sumZ (f <$> filter (λ x, key x = k) l)) <$> ks).
Proof.
  intros Hks. revert l. induction Hks as [|k ks Hk Hks IH]; intros l Hin.
  { destruct l as [|x l]; [done|]. specialize (Hin x ltac:(set_solver)). by apply not_elem_of_nil in Hin. }
  rewrite fmap_cons, sumZ_cons. assert (sumZ (f <$> l) = sumZ (f <$> filter (λ x, key x = k) l) + sumZ (f <$> filter (λ x, key x ≠ k) l)) as ->.
  { clear. induction l as [|x l IH]; [done|]. rewrite fmap_cons, !filter_cons, sumZ_cons, IH.
    destruct (decide (key x = k)) as [E|E], (decide (key x ≠ k)) as [F|F]; try tauto; rewrite fmap_cons, sumZ_cons; lia. }
  f_equal. rewrite (IH (filter (λ x, key x ≠ k) l)).
  - f_equal. apply list_fmap_ext. intros i k' Hk'%list_elem_of_lookup_2. do 2 f_equal. rewrite list_filter_filter.
    apply filter_same_in. intros x _. split; [by intros []|]. intros E. split; [done|]. intros E2. apply Hk. by rewrite <-E2, E.
  - intros x [Hne Hx]%list_elem_of_filter. specialize (Hin x Hx). by apply elem_of_cons in Hin as [?|?].
Qed.

Lemma sum_split {A} (f g h : A → Z) (l : list A) : (∀ x, x ∈ l → f x = g x + h x) →
  sumZ (f <$> l) = sumZ (g <$> l) + sumZ (h <$> l).
Proof. induction l as [|x l IH]; intros H; [done|]. rewrite !fmap_cons, !sumZ_cons, (H x), IH by set_solver. lia. Qed.

Lemma last_from {A} (l : list A) v p : List.last (v :: l) p = List.last l v.
Proof. revert v p. induction l as [|w l IH]; intros v p; [done|]. change (List.last (w :: l) p = List.last (w :: l) v). by rewrite !IH. Qed.

Lemma charges_plain p obs : plain p obs →
  let p' := List.last (snd <$> obs) p in charges (Some p) obs = (io_in p' - io_in p) + (io_out p' - io_out p).
Proof.
  revert p. induction obs as [|[t v] obs IH]; intros p; [cbn; lia|]. intros (Hm & Hi & Ho & Hci & Hco & Hp). cbn [charges].
  cbv zeta in *. rewrite (IH v Hp). unfold charge, over_ceiling, delta.
  change (io_in <$> Some p) with (Some (io_in p)). change (io_out <$> Some p) with (Some (io_out p)). cbv beta iota.
  rewrite (proj2 (Z.leb_le _ _) Hi), (proj2 (Z.leb_le _ _) Ho), (proj2 (Z.ltb_ge _ _) Hci), (proj2 (Z.ltb_ge _ _) Hco).
  cbn [orb]. unfold scale. rewrite Hm. cbn [Z.eqb Pos.eqb].
  rewrite fmap_cons, last_from. cbn [snd]. lia.
Qed.

Section Charges.
Context (uid : string) (ks : list key3).
Hypothesis ks_distinct : NoDup ks.
Hypothesis ks_ok : ∀ k, k ∈ ks → key3_ok k ∧ k.2 ≠ "" ∧ k.1.1 = uid.

Definition table_ok (s : state) : Prop :=
  table_names_ok (traffic_snapshot (st_db s)) ∧
  ∀ k v, k ∈ ks → traffic_snapshot (st_db s) !! k = Some v → 0 <= io_in v ∧ 0 <= io_out v.

(** One answer: the entries billed as they come, and each counter's gain. *)
Lemma poll_entries t res s c : table_ok s → event_ok uid ks (t, Some res, c) →
  sumZ (charge_entry t <$> filter (λ u, u_id u = uid) (poll_users res (traffic_snapshot (st_db s))).1.1) =
  direct_charge t uid res + sumZ ((λ k, match answered k res with
    | Some v => charge t (delta (io_in <$> traffic_snapshot (st_db s) !! k) (io_in v))
                         (delta (io_out <$> traffic_snapshot (st_db s) !! k) (io_out v))
    | None => 0 end) <$> ks).
Proof.
  intros [Ht Hpos] He. destruct (He res eq_refl) as (Hn & Hsm & Hcov).
  pose proof (poll_users_cases res (traffic_snapshot (st_db s))) as Hc. cbv zeta in Hc. case_decide as Hd; rewrite Hc; cbn [fst snd].
  2:{ assert (∀ k, answered k res = None) as Hno.
      { intros k. unfold answered. destruct (r_cumulative res); [|done]. destruct (cumulative_users (r_users res)); [done|]. by destruct Hd. }
      replace (sumZ _) with (direct_charge t uid res) by done.
      assert (∀ l : list key3, sumZ ((λ k, match answered k res with
        | Some v => charge t (delta (io_in <$> traffic_snapshot (st_db s) !! k) (io_in v))
                         (delta (io_out <$> traffic_snapshot (st_db s) !! k) (io_out v))
        | None => 0 end) <$> l) = 0) as ->; [|lia].
      induction l as [|k l IH]; [done|]. rewrite fmap_cons, sumZ_cons, IH, Hno. done. }
  destruct Hd as [Ec _]. set (us := cumulative_users (r_users res)) in *. set (prev := prev_map _ _).
  rewrite filter_app, fmap_app, sumZ_app, Z.add_comm. f_equal.
  assert (∀ gs, filter (λ u, u_id u = uid) (delta_of prev <$> gs) = delta_of prev <$> filter (λ kg, g_userId kg.2 = uid) gs) as ->.
  { clear. induction gs as [|[key g] gs IH]; [done|]. rewrite fmap_cons, !filter_cons, IH. cbn. by case_decide. }
  rewrite <-list_fmap_compose.
  rewrite (sum_by_key (λ kg, row_key (snapshot_of kg)) _ ks) by
    (done || (intros [key g] Hin; apply list_elem_of_filter in Hin as [Hid Hin]; cbn in Hid;
      apply jm_elem_get in Hin; [|apply groups_of_wf]; destruct (group_names _ _ _ Hin) as (u & Hu & _ & Hgid & Ha);
      unfold row_key, snapshot_of; cbn; rewrite Hid, Ha; apply Hcov; [done|done|by rewrite <-Hgid])).
  f_equal. apply list_fmap_ext. intros i k Hk%list_elem_of_lookup_2. destruct (ks_ok k Hk) as (Hk3 & _ & Hkid).
  assert (filter (λ kg, row_key (snapshot_of kg) = k) (filter (λ kg, g_userId kg.2 = uid) (groups_of us))
    = filter (λ kg, row_key (snapshot_of kg) = k) (groups_of us)) as ->.
  { rewrite list_filter_filter. apply filter_same_in. intros [key g] _. unfold row_key, snapshot_of. cbn. split; [by intros []|].
    intros <-. split; [done|]. by cbn in Hkid. }
  pose proof (entry_of_key us _ k Hn Ht Hk3 _ eq_refl (λ v, Hpos k v Hk)) as Hent. unfold answered in *. rewrite Ec in *.
  specialize (Hsm k). fold us in Hsm |- *. destruct (observed (key3_text k) us) as [[vi vo]|]; cbn in *.
  - destruct Hent as (kg & -> & _ & Hi & Ho). { intros i' o' [= <- <-]. by apply (Hsm (mkIo vi vo)). }
    cbn. unfold charge_entry, prev. rewrite Hi, Ho. cbn. lia.
  - by rewrite Hent.
Qed.

Lemma poll_table_ok t res c s s' : poll t (Some res) c s = Some s' → table_ok s → event_ok uid ks (t, Some res, c) → table_ok s'.
Proof.
  intros Hp [Ht Hpos] He. destruct (He res eq_refl) as (Hn & Hsm & _). split; [by eapply poll_table_names|].
  intros k v Hk Hv. destruct (ks_ok k Hk) as (Hk3 & Hke & _).
  rewrite (poll_snapshot_key _ _ _ _ _ k Hp Ht Hn Hk3 Hke (Hsm k) (λ v, Hpos k v Hk)) in Hv.
  destruct (answered k res) as [v'|] eqn:Ea; [|by eapply Hpos]. injection Hv as <-. specialize (Hsm k _ Ea). lia.
Qed.

Lemma charged_over s xs : table_ok s → Forall (event_ok uid ks) xs →
  let more := direct_over uid s xs + sumZ ((λ k, charges (traffic_snapshot (st_db s) !! k) (readings k s xs)) <$> ks) in
  let s' := foldl poll_or_skip s xs in
  used_of uid s' = used_of uid s + more ∧ lifetime_of uid s' = lifetime_of uid s + more.
Proof.
  cbv zeta. intros Hs Hxs. revert s Hs. induction Hxs as [|[[t a] c] xs Hx Hxs IH]; intros s Hs.
  - cbn [direct_over readings foldl]. assert (sumZ ((λ k, charges (traffic_snapshot (st_db s) !! k) []) <$> ks) = 0) as ->; [|lia].
    clear. induction ks as [|k l IH]; [done|]. rewrite fmap_cons, sumZ_cons, IH. done.
  - cbn [direct_over readings foldl poll_or_skip]. destruct (poll t a c s) as [s'|] eqn:Ep; cbn [default from_option]; unfold id; [|by apply IH].
    destruct a as [res|]; [|done]. pose proof (poll_table_ok _ _ _ _ _ Ep Hs Hx) as Hs'.
    destruct (poll_charges _ _ _ _ _ uid Ep) as [E1 E2]. rewrite (poll_entries _ _ _ _ Hs Hx) in E1, E2.
    destruct (IH s' Hs') as [F1 F2]. rewrite F1, F2, E1, E2.
    rewrite (sum_split (λ k, charges (traffic_snapshot (st_db s) !! k)
        (match answered k res with Some v => [(t, v)] | None => [] end ++ readings k s' xs))
      (λ k, match answered k res with
            | Some v => charge t (delta (io_in <$> traffic_snapshot (st_db s) !! k) (io_in v))
                                 (delta (io_out <$> traffic_snapshot (st_db s) !! k) (io_out v))
            | None => 0 end)
      (λ k, charges (traffic_snapshot (st_db s') !! k) (readings k s' xs))); [lia|].
    intros k Hk. destruct (ks_ok k Hk) as (Hk3 & Hke & _). destruct Hs as [Ht Hpos]. destruct (Hx res eq_refl) as (Hn & Hsm & _).
    rewrite (poll_snapshot_key _ _ _ _ _ k Ep Ht Hn Hk3 Hke (Hsm k) (λ v, Hpos k v Hk)).
    by destruct (answered k res).
Qed.

(** C1. Whatever polls fail in between, both counters of a user grow by exactly
    what the polls that went through charge: for every adapter with a counter,
    what the counter gained in both directions since its last committed reading,
    the stored snapshot to begin with, and for the other entries what they
    report; nothing for a gain above the ceiling, the rest scaled by the node's
    multiplier.  So on a node of multiplier one a counter that only grows, by no
    more than the ceiling a poll, is charged its last reading less the snapshot. *)
Theorem billing_telescopes s xs :
  table_ok s → Forall (event_ok uid ks) xs →
  let counted k := charges (traffic_snapshot (st_db s) !! k) (readings k s xs) in
  let more := direct_over uid s xs + sumZ (counted <$> ks) in
  let s' := foldl poll_or_skip s xs in
  used_of uid s' = used_of uid s + more ∧ lifetime_of uid s' = lifetime_of uid s + more ∧
  ∀ k v, k ∈ ks → traffic_snapshot (st_db s) !! k = Some v → plain v (readings k s xs) →
    let v' := List.last (snd <$> readings k s xs) v in
    counted k = (io_in v' - io_in v) + (io_out v' - io_out v).
Proof.
  intros Hs Hxs counted more s'. destruct (charged_over s xs Hs Hxs) as [H1 H2]. split; [exact H1|]. split; [exact H2|].
  intros k v _ Hv Hp v'. unfold counted. rewrite Hv. by apply charges_plain.
Qed.
End Charges.

(** ** Node totals by adapter *)

(** What one adapter's entry adds, against the snapshots kept. *)
Definition core_in (kept : list (string * io)) (c : CoreTotalEntry) : Z :=
  if c_noData c then 0
  else if c_cumulative c then delta (io_in <$> jm_get (core_key c) kept) (big (c_bytesIn c))
  else big (c_bytesIn c).

Definition core_out (kept : list (string * io)) (c : CoreTotalEntry) : Z :=
  if c_noData c then 0
  else if c_cumulative c then delta (io_out <$> jm_get (core_key c) kept) (big (c_bytesOut c))
  else big (c_bytesOut c).

Definition reads (k : string) (c : CoreTotalEntry) : Prop :=
  c_noData c = false ∧ c_cumulative c = true ∧ core_key c = k.

#[global] Instance reads_dec k c : Decision (reads k c).
Proof. unfold reads. apply _. Defined.

(** The last cumulative reading of [k] in the report. *)
Definition reading (k : string) (cores : list CoreTotalEntry) : option io :=
  (λ c, mkIo (big (c_bytesIn c)) (big (c_bytesOut c))) <$> last (filter (reads k) cores).

Lemma core_totals kept cores up dn snaps :
  let '(up', dn', snaps') := foldl (add_core kept) (up, dn, snaps) cores in
  up' = up + sumZ (core_in kept <$> cores) ∧ dn' = dn + sumZ (core_out kept <$> cores) ∧
  ∀ k, jm_get k snaps' = match reading k cores with Some v => Some v | None => jm_get k snaps end.
Proof.
  revert up dn snaps. induction cores as [|c cores IH]; intros up dn snaps.
  - simpl. rewrite !Z.add_0_r. done.
  - cbn [foldl]. rewrite !fmap_cons, !sumZ_cons.
    assert (∃ snaps1, add_core kept (up, dn, snaps) c = (up + core_in kept c, dn + core_out kept c, snaps1) ∧
      ∀ k, jm_get k snaps1 = if decide (reads k c)
        then Some (mkIo (big (c_bytesIn c)) (big (c_bytesOut c))) else jm_get k snaps) as (snaps1 & -> & Hs1).
    { unfold add_core, core_in, core_out. destruct (c_noData c) eqn:En.
      - exists snaps. rewrite !Z.add_0_r. split; [done|]. intros k.
        rewrite decide_False; [done|]. intros (? & _). congruence.
      - destruct (c_cumulative c) eqn:Ecu; simpl.
        + eexists. split; [destruct (jm_get (core_key c) kept); simpl; rewrite ?Z.add_0_r; reflexivity|].
          intros k. rewrite jm_get_set. apply decide_ext. unfold reads. naive_solver.
        + exists snaps. split; [done|]. intros k.
          rewrite decide_False; [done|]. intros (_ & ? & _). congruence. }
    specialize (IH (up + core_in kept c) (dn + core_out kept c) snaps1).
    destruct (foldl _ _ cores) as [[up' dn'] snaps']. destruct IH as (-> & -> & Hk).
    split; [lia|]. split; [lia|]. intros k. rewrite Hk, Hs1. unfold reading. rewrite filter_cons.
    destruct (decide (reads k c)); [|done]. rewrite last_cons.
    by destruct (last (filter (reads k) cores)).
Qed.

Lemma map_merge_get {V} (old new : list (string * V)) k :
  jm_wf new → jm_get k (map_merge old new) = match jm_get k new with Some v => Some v | None => jm_get k old end.
Proof.
  unfold map_merge, jm_wf. revert old. induction new as [|[k' v] new IH]; intros old Hwf; [done|].
  apply NoDup_cons in Hwf as [Hni Hwf]. cbn [foldl]. rewrite IH by done. simpl.
  rewrite jm_get_set. destruct (decide (k = k')) as [->|]; [|done].
  assert (jm_get k' new = None) as -> by (by apply jm_get_None). done.
Qed.

Lemma core_snapshots_wf kept cores : jm_wf (computeNodeTotalsFromCores cores kept).2.
Proof.
  unfold computeNodeTotalsFromCores. assert (jm_wf ((0, 0, []) : Z * Z * list (string * io)).2) as Hwf by apply jm_wf_nil.
  revert Hwf. generalize ((0, 0, []) : Z * Z * list (string * io)).
  induction cores as [|c cores IH]; intros [[u d] m] Hwf; [done|]. cbn [foldl]. apply IH.
  unfold add_core. simpl in Hwf. destruct (c_noData c); [done|]. destruct (c_cumulative c); simpl; [|done].
  by destruct (jm_get (core_key c) kept); apply jm_wf_set.
Qed.

(** The node total of an agent that reports its cores is the sum over the
    adapters of what each moved: a cumulative one against its own snapshot.
    Afterwards each adapter that answered has its reading as the snapshot, and
    one that stayed silent keeps the snapshot it had. *)
Theorem poll_cores_spec res kept :
  r_cores res ≠ [] →
  let old := default [] kept in
  ∃ new, poll_cores res kept =
    (Some (sumZ (core_in old <$> r_cores res), sumZ (core_out old <$> r_cores res)), Some new) ∧
    ∀ k, jm_get k new = match reading k (r_cores res) with
                        | Some v => Some v
                        | None => jm_get k old
                        end.
Proof.
  intros Hne. cbv zeta. unfold poll_cores. destruct (r_cores res) as [|c cores] eqn:Ec; [done|].
  pose proof (core_totals (default [] kept) (c :: cores) 0 0 []) as Ht.
  pose proof (core_snapshots_wf (default [] kept) (c :: cores)) as Hwf.
  unfold computeNodeTotalsFromCores in *.
  destruct (foldl _ _ (c :: cores)) as [[up dn] snaps]. destruct Ht as (-> & -> & Hk).
  eexists. split; [done|]. intros k. rewrite map_merge_get by exact Hwf. rewrite Hk. simpl.
  by destruct (reading k (c :: cores)).
Qed.

(** ** Concrete polls

    One user on one xray: a snapshot of 100 bytes in, then a reading of 150
    whose commit fails and one of 180 that goes through. *)
Definition sample_tick : tick := mkTick 1000 0 "2026-01-01" "node-1" (multiplier_of 10).

Definition sample_answer (n : Z) : stats_response :=
  mkStatsResponse [mkStatsUserEntry "u1" (Some n) None (Some true) (Some "vless") (Some "xray")]
    true [mkCoreTotalEntry "vless" "xray" (Some n) None true false] (Some n) None.

Definition sample_snapshots : gmap key3 io := {[ ("u1", "vless", "xray") := mkIo 100 0 ]}.
Definition sample_state : state := mkState (mkDb ∅ ∅ ∅ sample_snapshots) None (Some [("vless|xray", mkIo 100 0)]).

Definition sample_events : list event :=
  [(sample_tick, Some (sample_answer 150), false); (sample_tick, None, true);
   (sample_tick, Some (sample_answer 180), true)].

Lemma sample_names : table_names_ok sample_snapshots.
Proof.
  intros u p e v Hv. unfold sample_snapshots in Hv. apply lookup_singleton_Some in Hv as [[= <- <- <-] _].
  split; reflexivity.
Qed.

Lemma sample_event_ok n c : 0 <= n < 2 ^ 53 → event_ok "u1" [("u1", "vless", "xray")] (sample_tick, Some (sample_answer n), c).
Proof.
  intros Hn res [= <-]. split; [repeat constructor|]. split.
  - intros k v Hv. unfold answered, observed in Hv.
    change (cumulative_users _) with (r_users (sample_answer n)) in Hv. cbn [r_cumulative sample_answer r_users] in Hv.
    rewrite filter_cons, filter_nil in Hv. destruct (decide _); [|discriminate Hv].
    cbn in Hv. injection Hv as <-. cbn. lia.
  - intros u _ ->%list_elem_of_singleton _. by apply list_elem_of_singleton.
Qed.

(** The first poll that goes through after two that do not charges all 80
    bytes since the snapshot. *)
Lemma billing_telescopes_witness :
  let s' := foldl poll_or_skip sample_state sample_events in
  let seen := readings ("u1", "vless", "xray") sample_state sample_events in
  let last := List.last (snd <$> seen) (mkIo 100 0) in
  last = mkIo 180 0 ∧ used_of "u1" s' = 80 ∧
  charges (Some (mkIo 100 0)) seen = (io_in last - 100) + (io_out last - 0).
Proof.
  destruct (billing_telescopes "u1" [("u1", "vless", "xray")]) with (s := sample_state) (xs := sample_events)
    as (H1 & _ & H2).
  - apply NoDup_singleton.
  - intros k ->%list_elem_of_singleton. split; [split; reflexivity|]. split; [discriminate|reflexivity].
  - split; [exact sample_names|]. intros k v ->%list_elem_of_singleton Hv. vm_compute in Hv. injection Hv as <-. simpl. lia.
  - constructor; [by apply sample_event_ok|]. constructor; [intros res E; discriminate E|].
    constructor; [by apply sample_event_ok|constructor].
  - cbv zeta. split; [vm_compute; reflexivity|]. split.
    + etransitivity; [exact H1|]. vm_compute. reflexivity.
    + specialize (H2 ("u1", "vless", "xray") (mkIo 100 0)). cbv zeta in H2.
      assert (traffic_snapshot (st_db sample_state) !! ("u1", "vless", "xray") = Some (mkIo 100 0)) as E by (vm_compute; reflexivity).
      rewrite E in H2. apply H2; [by apply list_elem_of_singleton|reflexivity|].
      vm_compute. repeat split; discriminate.
Defined.

Lemma poll_commits_witness : is_Some (poll sample_tick (Some (sample_answer 180)) true sample_state).
Proof.
  exact (proj1 (poll_commits sample_tick (Some (sample_answer 180)) true sample_state) eq_refl).
Defined.

Lemma poll_bills_users_witness :
  ∃ s', poll sample_tick (Some (sample_answer 180)) true sample_state = Some s' ∧
    user_traffic (st_db s') !! "u1" = Some (mkTrafficRow 80 80 1000 1000 "node-1").
Proof.
  destruct (poll sample_tick (Some (sample_answer 180)) true sample_state) as [s'|] eqn:E;
    [|vm_compute in E; discriminate E].
  exists s'. split; [reflexivity|].
  pose proof (poll_bills_users _ _ _ _ _ "u1" E) as Hb. etransitivity; [exact Hb|].
  vm_compute. reflexivity.
Defined.

Lemma poll_cores_spec_witness :
  ∃ new, poll_cores (sample_answer 180) (Some [("vless|xray", mkIo 100 0)]) = (Some (80, 0), Some new) ∧
    jm_get "vless|xray" new = Some (mkIo 180 0).
Proof.
  destruct (poll_cores_spec (sample_answer 180) (Some [("vless|xray", mkIo 100 0)])) as (new & E & Hk);
    [discriminate|].
  exists new. split; [exact E|]. rewrite Hk. vm_compute. reflexivity.
Defined.
