(* ===== verification/Directions.v ===== *)
(** The directions of a cascade and how a save merges them with what is stored
    (apps/panel-backend/src/modules/cascades/direction-merge.ts).

    A key of a request that may be absent, [null] or a value is an
    [option (option A)].  In a resolved direction absent and [null] are read
    the same by every user of it, and are both [None]. *)

From S2P Require Import Prelude Js.

Local Open Scope string_scope.
Local Open Scope list_scope.
Local Open Scope Z_scope.

(** [LINK_CONGESTIONS] and [LINK_UNDERLAYS]. *)
Definition LINK_CONGESTIONS : list string := ["bbr"; "cubic"; "new_reno"].
Definition LINK_UNDERLAYS : list string := ["direct"; "awg"].

Record LegParams := mkLegParams { congestion : option string; underlay : option string }.

#[global] Instance LegParams_eq_dec : EqDecision LegParams.
Proof. solve_decision. Defined.

(** A jsonb value, as far as its reader looks: an object with its keys, or
    anything else ([null], an array, a string, a number). *)
Inductive json_leaf := LString (s : string) | LOther.
Inductive json := JObject (fields : list (string * json_leaf)) | JNotObject.

(** [list.includes(value)] for a value of unknown type. *)
Definition known (values : list string) (v : option json_leaf) : option string :=
  match v with
  | Some (LString s) => if decide (s ∈ values) then Some s else None
  | _ => None
  end.

Definition storedLinkParams (raw : json) : option LegParams :=
  match raw with
  | JObject fields =>
      let out := mkLegParams (known LINK_CONGESTIONS (jm_get "congestion" fields))
                   (known LINK_UNDERLAYS (jm_get "underlay" fields)) in
      if decide (out = mkLegParams None None) then None else Some out
  | JNotObject => None
  end.

Record StoredDirection := mkStoredDirection {
  sd_id : string;
  sd_nodes : list string;
  sd_outboundId : option string
}.

Record IncomingDirection := mkIncomingDirection {
  in_id : option string;
  in_nodeIds : option (list string);
  in_outboundId : option (option string);
  in_countryCode : option (option string);
  in_linkProtocol : option (option string);
  in_linkParams : option (option LegParams)
}.

Record ResolvedDirection := mkResolvedDirection {
  rd_id : option string;
  rd_tag : option Z;
  rd_nodeIds : list string;
  rd_outboundId : option string;
  rd_countryCode : option string;
  rd_linkProtocol : option string;
  rd_linkParams : option LegParams
}.

(** What [read] gives of a stored direction: a resolved one without its id and
    pool. *)
Record Kept := mkKept {
  k_tag : option Z;
  k_outboundId : option string;
  k_countryCode : option string;
  k_linkProtocol : option string;
  k_linkParams : option LegParams
}.

Definition nothing_kept : Kept := mkKept None None None None None.

Section Merge.
Context (stored : list StoredDirection).

(** [new Map(stored.map((d) => [d.id, d]))]. *)
Definition byId : list (string * StoredDirection) :=
  foldl (λ m d, jm_set (sd_id d) d m) [] stored.

Definition has_pool (d : IncomingDirection) : bool :=
  match in_nodeIds d with Some (_ :: _) => true | _ => false end.

(** [s] holds exactly the nodes of [want], compared as a set. *)
Definition same_pool (want : list string) (s : StoredDirection) : bool :=
  (length (sd_nodes s) =? length (js_uniq want))%nat &&
  forallb (λ n, bool_decide (n ∈ want)) (sd_nodes s).

(** The three ways to match, in order. *)
Definition match_one (unclaimed : list string) (d : IncomingDirection) : option StoredDirection :=
  let byid := if truthy (in_id d) then jm_get (default "" (in_id d)) byId else None in
  let bypool :=
    match byid with
    | Some s => Some s
    | None =>
        if has_pool d then
          js_find (λ s, bool_decide (sd_id s ∈ unclaimed) && same_pool (default [] (in_nodeIds d)) s) stored
        else None
    end in
  match bypool with
  | Some s => Some s
  | None =>
      match in_outboundId d with
      | Some (Some o) =>
          if bool_decide (o ≠ "") && negb (has_pool d) then
            js_find (λ s, bool_decide (sd_id s ∈ unclaimed) && bool_decide (sd_nodes s = []) &&
                          bool_decide (sd_outboundId s = Some o)) stored
          else None
      | _ => None
      end
  end.

Fixpoint match_loop (unclaimed : list string) (incoming : list IncomingDirection)
    : list (option StoredDirection) :=
  match incoming with
  | [] => []
  | d :: incoming =>
      match match_one unclaimed d with
      | Some s =>
          if decide (sd_id s ∈ unclaimed)
          then Some s :: match_loop (filter (λ i, i ≠ sd_id s) unclaimed) incoming
          else None :: match_loop unclaimed incoming
      | None => None :: match_loop unclaimed incoming
      end
  end.

Definition matchStoredDirections (incoming : list IncomingDirection) : list (option StoredDirection) :=
  match_loop (js_uniq (sd_id <$> stored)) incoming.

(** ['k' in d ? d.k : kept.k]. *)
Definition merge_key {A} (sent : option (option A)) (kept : option A) : option A :=
  match sent with Some v => v | None => kept end.

Definition resolve_one (read : StoredDirection → Kept) (d : IncomingDirection)
    (m : option StoredDirection) : ResolvedDirection :=
  let kept := match m with Some s => read s | None => nothing_kept end in
  mkResolvedDirection
    (match m with
     | Some s => Some (sd_id s)
     | None => if truthy (in_id d) then in_id d else None
     end)
    (k_tag kept)
    (match in_nodeIds d with
     | Some ns => ns
     | None => match m with Some s => sd_nodes s | None => [] end
     end)
    (merge_key (in_outboundId d) (k_outboundId kept))
    (merge_key (in_countryCode d) (k_countryCode kept))
    (merge_key (in_linkProtocol d) (k_linkProtocol kept))
    (merge_key (in_linkParams d) (k_linkParams kept)).

Definition resolveDirections (read : StoredDirection → Kept) (incoming : list IncomingDirection)
    : list ResolvedDirection :=
  zip_with (resolve_one read) incoming (matchStoredDirections incoming).
End Merge.

(** ** Facts *)
Section Merge_facts.
Context (stored : list StoredDirection).

Lemma byId_get i :
  jm_get i (byId stored) = last (filter (λ s, sd_id s = i) stored).
Proof.
  unfold byId. induction stored as [|s l IH] using rev_ind; [done|].
  rewrite foldl_app, filter_app, filter_cons, filter_nil. cbn [foldl]. rewrite jm_get_set.
  destruct (decide (i = sd_id s)) as [->|Hne].
  - rewrite decide_True by done. by rewrite last_snoc.
  - rewrite decide_False by congruence. by rewrite app_nil_r.
Qed.

Lemma byId_elem i s : jm_get i (byId stored) = Some s → s ∈ stored ∧ sd_id s = i.
Proof.
  rewrite byId_get. intros H. apply last_Some in H as [l H].
  assert (s ∈ filter (λ s, sd_id s = i) stored) as Hs by (rewrite H; set_solver).
  apply list_elem_of_filter in Hs. tauto.
Qed.

Lemma byId_unique i s :
  NoDup (sd_id <$> stored) → s ∈ stored → sd_id s = i → jm_get i (byId stored) = Some s.
Proof.
  intros Hnd Hs <-. rewrite byId_get. revert Hs Hnd. clear.
  induction stored as [|x l IH]; intros Hs Hnd; [set_solver|].
  rewrite fmap_cons, NoDup_cons in Hnd. destruct Hnd as [Hx Hnd]. rewrite filter_cons.
  apply elem_of_cons in Hs as [->|Hs].
  - rewrite decide_True by done.
    assert (filter (λ s, sd_id s = sd_id x) l = []) as ->; [|done].
    apply elem_of_nil_inv. intros y [Hy Hyl]%list_elem_of_filter. apply Hx. rewrite <-Hy.
    by apply list_elem_of_fmap_2.
  - specialize (IH Hs Hnd). destruct (decide (sd_id x = sd_id s)) as [E|]; [|done].
    exfalso. apply Hx. rewrite E. by apply list_elem_of_fmap_2.
Qed.

Lemma match_one_elem unclaimed d s : match_one stored unclaimed d = Some s → s ∈ stored.
Proof.
  unfold match_one.
  destruct (if truthy (in_id d) then jm_get (default "" (in_id d)) (byId stored) else None) as [s1|] eqn:E1.
  - intros [= <-]. destruct (truthy (in_id d)); [|done]. by apply byId_elem in E1 as [? _].
  - destruct (if has_pool d then _ else None) as [s2|] eqn:E2.
    + intros [= <-]. destruct (has_pool d); [|done]. by apply js_find_elem in E2.
    + destruct (in_outboundId d) as [[o|]|]; [|done..]. destruct (_ && _); [|done].
      apply js_find_elem.
Qed.

Lemma match_loop_claims unclaimed incoming :
  NoDup unclaimed →
  length (match_loop stored unclaimed incoming) = length incoming ∧
  (∀ s, Some s ∈ match_loop stored unclaimed incoming → s ∈ stored ∧ sd_id s ∈ unclaimed) ∧
  NoDup (sd_id <$> omap id (match_loop stored unclaimed incoming)).
Proof.
  revert unclaimed. induction incoming as [|d incoming IH]; intros unclaimed Hnd; cbn [match_loop].
  - split; [done|]. split; [set_solver|constructor].
  - destruct (match_one stored unclaimed d) as [s|] eqn:Em.
    + destruct (decide (sd_id s ∈ unclaimed)) as [Hin|Hin].
      * destruct (IH (filter (λ i, i ≠ sd_id s) unclaimed)) as (Hl & Hs & Hn);
          [by apply NoDup_filter|].
        split; [simpl; lia|]. split.
        -- intros x [[= ->]|Hx]%elem_of_cons; [split; [by eapply match_one_elem|done]|].
           apply Hs in Hx as [? Hx]. apply list_elem_of_filter in Hx. tauto.
        -- cbn [omap list_omap]. simpl. apply NoDup_cons. split; [|done].
           intros (y & Ey & Hy)%list_elem_of_fmap.
           apply list_elem_of_omap in Hy as ([z|] & Hz & [= ->]).
           apply Hs in Hz as [_ Hz]. apply list_elem_of_filter in Hz as [Hne _]. congruence.
      * destruct (IH unclaimed Hnd) as (Hl & Hs & Hn). split; [simpl; lia|]. split; [|done].
        intros x [?|Hx]%elem_of_cons; [done|]. by apply Hs.
    + destruct (IH unclaimed Hnd) as (Hl & Hs & Hn). split; [simpl; lia|]. split; [|done].
      intros x [?|Hx]%elem_of_cons; [done|]. by apply Hs.
Qed.
End Merge_facts.

Section Merge_theorems.
Context (stored : list StoredDirection) (read : StoredDirection → Kept).

(** Every incoming direction gets an answer, every match is a stored row,
    and no stored row is matched twice. *)
Theorem matchStoredDirections_once incoming :
  let ms := matchStoredDirections stored incoming in
  length ms = length incoming ∧ (∀ s, Some s ∈ ms → s ∈ stored) ∧ NoDup (sd_id <$> omap id ms).
Proof.
  cbv zeta. unfold matchStoredDirections.
  destruct (match_loop_claims stored (js_uniq (sd_id <$> stored)) incoming) as (Hl & Hs & Hn);
    [apply NoDup_js_uniq|].
  split; [done|]. split; [|done]. intros s Hin. by apply Hs.
Qed.

Lemma resolved_tags incoming ms :
  length ms = length incoming →
  omap rd_tag (zip_with (resolve_one read) incoming ms) = omap (λ s, k_tag (read s)) (omap id ms).
Proof.
  revert incoming. induction ms as [|m ms IH]; intros [|d incoming] Hl; try done.
  injection Hl as Hl. cbn [zip_with omap list_omap]. rewrite (IH incoming Hl).
  destruct m as [s|]; simpl; [|done]. by destruct (k_tag (read s)).
Qed.

Lemma NoDup_omap_sub (l : list StoredDirection) :
  NoDup (omap (λ s, k_tag (read s)) stored) → NoDup (sd_id <$> stored) →
  (∀ s, s ∈ l → s ∈ stored) → NoDup (sd_id <$> l) → NoDup (omap (λ s, k_tag (read s)) l).
Proof.
  intros Ht Hs Hsub Hl.
  assert (∀ s1 s2 t, s1 ∈ stored → s2 ∈ stored → k_tag (read s1) = Some t → k_tag (read s2) = Some t → s1 = s2)
    as Hinj.
  { clear Hsub Hl. induction stored as [|x st IH]; [set_solver|].
    rewrite fmap_cons, NoDup_cons in Hs. destruct Hs as [_ Hs].
    assert (NoDup (omap (λ s, k_tag (read s)) st)) as Ht'.
    { cbn [omap list_omap] in Ht. destruct (k_tag (read x)); [by apply NoDup_cons in Ht as [_ ?]|done]. }
    assert (∀ s t, s ∈ st → k_tag (read s) = Some t → k_tag (read x) = Some t → False) as Hx.
    { intros s t Hin E1 E2. cbn [omap list_omap] in Ht. rewrite E2 in Ht.
      apply NoDup_cons in Ht as [Hni _]. apply Hni, list_elem_of_omap. by exists s. }
    intros s1 s2 t H1 H2 E1 E2. apply elem_of_cons in H1 as [->|H1], H2 as [->|H2]; [done|..].
    - exfalso. eapply (Hx s2); eauto.
    - exfalso. eapply (Hx s1); eauto.
    - by eapply IH. }
  induction l as [|s l IH]; [constructor|]. rewrite fmap_cons, NoDup_cons in Hl. destruct Hl as [Hsl Hl].
  cbn [omap list_omap]. specialize (IH ltac:(set_solver) Hl).
  destruct (k_tag (read s)) as [t|] eqn:Et; [|done]. apply NoDup_cons. split; [|done].
  intros (s2 & Hs2 & E2)%list_elem_of_omap.
  assert (s = s2) as <- by (eapply Hinj; eauto; set_solver). apply Hsl. by apply list_elem_of_fmap_2.
Qed.

(** A save never gives one stored tag to two directions. *)
Theorem resolveDirections_tags incoming :
  NoDup (sd_id <$> stored) → NoDup (omap (λ s, k_tag (read s)) stored) →
  NoDup (omap rd_tag (resolveDirections stored read incoming)).
Proof.
  intros Hs Ht. unfold resolveDirections, matchStoredDirections.
  destruct (match_loop_claims stored (js_uniq (sd_id <$> stored)) incoming) as (Hl & Hin & Hn);
    [apply NoDup_js_uniq|].
  rewrite resolved_tags by done. apply NoDup_omap_sub; [done|done| |done].
  intros s (m & Hm & Em)%list_elem_of_omap. simpl in Em. subst m. by apply Hin.
Qed.

(** A direction sent with its id and nothing else. *)
Definition only_id (s : StoredDirection) : IncomingDirection :=
  mkIncomingDirection (Some (sd_id s)) None None None None None.

(** A stored direction, as a resolved one. *)
Definition as_stored (s : StoredDirection) : ResolvedDirection :=
  mkResolvedDirection (Some (sd_id s)) (k_tag (read s)) (sd_nodes s) (k_outboundId (read s))
    (k_countryCode (read s)) (k_linkProtocol (read s)) (k_linkParams (read s)).

Lemma resolve_only_ids unclaimed keep :
  NoDup (sd_id <$> stored) → (∀ s, s ∈ stored → sd_id s ≠ "") →
  (∀ s, s ∈ keep → s ∈ stored ∧ sd_id s ∈ unclaimed) → NoDup (sd_id <$> keep) →
  zip_with (resolve_one read) (only_id <$> keep) (match_loop stored unclaimed (only_id <$> keep))
  = as_stored <$> keep.
Proof.
  intros Hs Hne. revert unclaimed. induction keep as [|s keep IH]; intros unclaimed Hk Hnd; [done|].
  rewrite !fmap_cons in *. apply NoDup_cons in Hnd as [Hsk Hnd]. cbn [match_loop].
  destruct (Hk s) as [Hst Hun]; [set_solver|].
  assert (match_one stored unclaimed (only_id s) = Some s) as ->.
  { unfold match_one. simpl. rewrite bool_decide_true by auto. by rewrite (byId_unique stored _ s). }
  rewrite decide_True by done. cbn [zip_with]. f_equal.
  apply IH; [|done]. intros x Hx. destruct (Hk x) as [? ?]; [set_solver|]. split; [done|].
  apply list_elem_of_filter. split; [|done]. intros E. apply Hsk. rewrite <-E. by apply list_elem_of_fmap_2.
Qed.

(** A save that names directions by id and mentions nothing else leaves
    each of them, its pool and its tag included, exactly as stored. *)
Theorem resolveDirections_absent_keeps keep :
  NoDup (sd_id <$> stored) → (∀ s, s ∈ stored → sd_id s ≠ "") →
  (∀ s, s ∈ keep → s ∈ stored) → NoDup (sd_id <$> keep) →
  resolveDirections stored read (only_id <$> keep) = as_stored <$> keep.
Proof.
  intros Hs Hne Hk Hnd. unfold resolveDirections, matchStoredDirections.
  apply resolve_only_ids; [done|done| |done]. intros s Hin. split; [by apply Hk|].
  rewrite elem_of_js_uniq. by apply list_elem_of_fmap_2, Hk.
Qed.
End Merge_theorems.

(** ** Concrete directions *)
Definition sample_stored : list StoredDirection :=
  [mkStoredDirection "d1" ["n1"; "n2"] None; mkStoredDirection "d2" [] (Some "out")].
Definition sample_read (s : StoredDirection) : Kept :=
  mkKept (Some (if decide (sd_id s = "d1") then 1 else 2)) (sd_outboundId s) (Some "NL") (Some "vless") None.

Lemma resolveDirections_tags_witness :
  NoDup (omap rd_tag (resolveDirections sample_stored sample_read
    [mkIncomingDirection None (Some ["n2"; "n1"]) None None None None; only_id (mkStoredDirection "d1" [] None)])).
Proof.
  apply resolveDirections_tags; apply (bool_decide_unpack _); vm_compute; exact I.
Defined.

Lemma resolveDirections_absent_keeps_witness :
  resolveDirections sample_stored sample_read (only_id <$> reverse sample_stored)
  = [mkResolvedDirection (Some "d2") (Some 2) [] (Some "out") (Some "NL") (Some "vless") None;
     mkResolvedDirection (Some "d1") (Some 1) ["n1"; "n2"] None (Some "NL") (Some "vless") None].
Proof.
  rewrite (resolveDirections_absent_keeps sample_stored sample_read (reverse sample_stored)).
  - reflexivity.
  - apply (bool_decide_unpack _). vm_compute. exact I.
  - intros s Hs. repeat (apply elem_of_cons in Hs as [->|Hs]; [discriminate|]). by apply elem_of_nil in Hs.
  - intros s. by rewrite elem_of_reverse.
  - apply (bool_decide_unpack _). vm_compute. exact I.
Defined.
