(* ===== verification/CascadeValidation.v ===== *)
(** The topology rules of a cascade
    (apps/panel-backend/src/modules/cascades/cascade.validation.ts, with
    [linkCellFor] of cascade.config.ts, the lists of packages/shared
    transport.ts, and the save's fold step of cascade.service.ts).

    A thrown error is a constructor of [validation_error] with what its
    message names.  Link protocols reach these functions through the schemas'
    enum, so a lookup in the alias table finds its own keys only. *)

From S2P Require Import Prelude Js Directions.

Local Open Scope string_scope.
Local Open Scope list_scope.
Local Open Scope Z_scope.

(** ** The shared lists and limits *)
Definition MAX_CASCADE_HOPS : Z := 5.
Definition MAX_CASCADE_PATH : Z := 5.
Definition MAX_CASCADE_POSITIONS : Z := MAX_CASCADE_PATH - 1.
Definition MAX_CASCADE_LINKS : Z := 64.
Definition LINK_CELLS : list string := ["vless"; "shadowsocks"; "hy2"; "tuic"].
Definition LINK_CELL_ENGINES (cell : string) : list string :=
  if decide (cell = "vless") then ["singbox"; "xray"]
  else if decide (cell = "shadowsocks") then ["singbox"; "xray"]
  else if decide (cell = "hy2") then ["singbox"]
  else if decide (cell = "tuic") then ["singbox"]
  else [].
Definition CHAIN_ENTRY_PROTOCOLS : list string := ["xray"; "hysteria"; "amneziawg"].
Definition ENTRIES_ONLY_THROUGH_CHAIN : list string := ["hysteria"; "amneziawg"].
Definition LEGACY_CELL_ALIASES : list (string * string) := [("xray", "vless")].

Definition linkCellFor (p : option string) : option string :=
  match p with
  | None => Some "vless"
  | Some p =>
      if decide (p = "") then Some "vless"
      else if decide (p ∈ LINK_CELLS) then Some p
      else jm_get p LEGACY_CELL_ALIASES
  end.

Definition entryReachesCascadeOnlyThroughChain (protocol : option string) : bool :=
  match protocol with
  | Some p => bool_decide (p ∈ ENTRIES_ONLY_THROUGH_CHAIN)
  | None => false
  end.

(** ** The payload *)
Record CascadePositionInput := mkPosition {
  p_nodeIds : list string;
  p_position : Z;
  p_entryProtocol : option string;
  p_linkProtocol : option string;
  p_linkParams : option LegParams
}.

Record CascadeHopInput := mkHop {
  h_nodeId : string;
  h_position : Z;
  h_entryProtocol : option string;
  h_linkProtocol : option string
}.

Inductive place := AtPosition (n : Z) | AtHop (n : Z).

Inductive shape_code := DIRECTION_OUTBOUND_AND_NODES | DIRECTION_EMPTY.

Inductive validation_error :=
  | NoLinkCell (where_ : place) (protocol : option string)
  | EntryNotChainable (protocol : string)
  | DirectionShape (code : shape_code) (index : nat) (tag : option Z)
  | OutboundTwice (index : nat)
  | NoEntry
  | TooManyPositions (got : Z)
  | NoDirection
  | PathTooLong
  | NotContiguous (got : list Z)
  | EntryNeedsProtocol
  | ProtocolNotOnEntry (where_ : place)
  | NeedsLinkProtocol (where_ : place) (last : bool)
  | NoNodes (position : Z)
  | PositionListsTwice (position : Z)
  | BlindTransit (from transit : Z) (cell : string)
  | DirectionListsTwice
  | BehindTwoDirections (node : string) (holders : list nat)
  | NodeTwice
  | TooManyLinks (got : Z)
  | PoolOnPosition (position nodes : Z)
  | PoolBehindDirection (nodes : Z)
  | EmptyDirection
  | TransitsAndDirections
  | CellNeedsChain (position : option Z)
  | TooFewHops
  | TooManyHops (got : Z)
  | ExitHasLink (where_ : place) (balancer : bool).

Abbreviation checked := (result validation_error).

Definition assertLinkCellExists (protocol : option string) (where_ : place) : checked unit :=
  match linkCellFor protocol with
  | Some _ => Ok tt
  | None => Throw (NoLinkCell where_ protocol)
  end.

Definition assertEntryIsChainable (protocol : string) : checked unit :=
  throw_if (bool_decide (protocol ∉ CHAIN_ENTRY_PROTOCOLS)) (EntryNotChainable protocol).

(** [xs.forEach((x, i) => ...)]. *)
Fixpoint for_each_i {A} (f : nat → A → checked unit) (i : nat) (xs : list A) : checked unit :=
  match xs with
  | [] => Ok tt
  | x :: xs => f i x ≫= λ _, for_each_i f (S i) xs
  end.

(** ** Direction shapes *)
Definition direction_shape (seen : list string) (i : nat) (d : ResolvedDirection)
    : checked (list string) :=
  let ob := truthy (rd_outboundId d) in
  _ ← throw_if (ob && bool_decide (rd_nodeIds d ≠ []))
        (DirectionShape DIRECTION_OUTBOUND_AND_NODES i (rd_tag d));
  _ ← throw_if (negb ob && bool_decide (rd_nodeIds d = [])) (DirectionShape DIRECTION_EMPTY i (rd_tag d));
  if ob then
    let o := default "" (rd_outboundId d) in
    if decide (o ∈ seen) then Throw (OutboundTwice i) else Ok (o :: seen)
  else Ok seen.

Fixpoint shapes_loop (seen : list string) (i : nat) (ds : list ResolvedDirection) : checked unit :=
  match ds with
  | [] => Ok tt
  | d :: ds => seen ← direction_shape seen i d; shapes_loop seen (S i) ds
  end.

Definition assertDirectionShapes (directions : list ResolvedDirection) : checked unit :=
  shapes_loop [] 0 directions.

(** ** Topology *)
Definition by_position (l : list CascadePositionInput) : list CascadePositionInput :=
  sort_by (λ a b, p_position a <=? p_position b) l.

Fixpoint contiguous_from (i : Z) (l : list Z) : bool :=
  match l with
  | [] => true
  | x :: l => (x =? i) && contiguous_from (i + 1) l
  end.

(** [[...positions].sort(...)] already applied. *)
Fixpoint blind_steps (l : list CascadePositionInput) : list (Z * Z * string) :=
  match l with
  | a :: (b :: _) as l' =>
      match linkCellFor (p_linkProtocol a) with
      | Some cell =>
          if decide (cell ≠ "vless") then (p_position a, p_position b, cell) :: blind_steps l'
          else blind_steps l'
      | None => blind_steps l'
      end
  | _ => []
  end.

Definition blindTransitSteps (positions : list CascadePositionInput) (directionCount : Z)
    : list (Z * Z * string) :=
  if directionCount <=? 1 then [] else blind_steps (by_position positions).

Fixpoint step_links (l : list CascadePositionInput) : Z :=
  match l with
  | a :: (b :: _) as l' =>
      Z.of_nat (length (p_nodeIds a)) * Z.of_nat (length (p_nodeIds b)) + step_links l'
  | _ => 0
  end.

Definition countLinks (positions : list CascadePositionInput) (directions : list ResolvedDirection) : Z :=
  step_links positions +
  match last positions with
  | Some p => sumZ ((λ d, Z.of_nat (length (p_nodeIds p)) * Z.of_nat (length (rd_nodeIds d))) <$> directions)
  | None => 0
  end.

Definition check_position (count : nat) (i : nat) (p : CascadePositionInput) : checked unit :=
  let isEntry := bool_decide (i = 0%nat) in
  let entry := truthy (p_entryProtocol p) in
  let at_ := AtPosition (p_position p) in
  _ ← throw_if (isEntry && negb entry) EntryNeedsProtocol;
  _ ← (if isEntry && entry then assertEntryIsChainable (default "" (p_entryProtocol p)) else Ok tt);
  _ ← throw_if (negb isEntry && entry) (ProtocolNotOnEntry at_);
  _ ← throw_if (negb (truthy (p_linkProtocol p))) (NeedsLinkProtocol at_ (S i =? count)%nat);
  _ ← assertLinkCellExists (p_linkProtocol p) at_;
  _ ← throw_if (bool_decide (p_nodeIds p = [])) (NoNodes (p_position p));
  throw_if (negb (length (js_uniq (p_nodeIds p)) =? length (p_nodeIds p))%nat)
    (PositionListsTwice (p_position p)).

(** [byNode]: the directions each node is behind. *)
Definition add_holder (i : nat) (m : list (string * list nat)) (n : string) : list (string * list nat) :=
  jm_set n (default [] (jm_get n m) ++ [i]) m.

Fixpoint holders_of (m : list (string * list nat)) (i : nat) (ds : list ResolvedDirection)
    : list (string * list nat) :=
  match ds with
  | [] => m
  | d :: ds => holders_of (foldl (add_holder i) m (rd_nodeIds d)) (S i) ds
  end.

Definition check_holders (kv : string * list nat) : checked unit :=
  throw_if (1 <? length kv.2)%nat (BehindTwoDirections kv.1 kv.2).

(** The loop over [seen]. *)
Fixpoint all_distinct (seen l : list string) : checked unit :=
  match l with
  | [] => Ok tt
  | n :: l => if decide (n ∈ seen) then Throw NodeTwice else all_distinct (n :: seen) l
  end.

Record ValidatedTopology := mkValidated {
  v_positions : list CascadePositionInput;
  v_directions : list ResolvedDirection;
  v_linkCount : Z
}.

Definition validateCascadeTopology (positions : list CascadePositionInput)
    (directions : list ResolvedDirection) : checked ValidatedTopology :=
  let n := Z.of_nat (length positions) in
  _ ← throw_if (n <? 1) NoEntry;
  _ ← throw_if (MAX_CASCADE_POSITIONS <? n) (TooManyPositions n);
  _ ← throw_if (Z.of_nat (length directions) <? 1) NoDirection;
  _ ← throw_if (MAX_CASCADE_PATH <? n + 1) PathTooLong;
  let sorted := by_position positions in
  _ ← throw_if (negb (contiguous_from 0 (p_position <$> sorted))) (NotContiguous (p_position <$> sorted));
  _ ← for_each_i (check_position (length sorted)) 0 sorted;
  _ ← match blindTransitSteps sorted (Z.of_nat (length directions)) with
      | (from, transit, cell) :: _ => Throw (BlindTransit from transit cell)
      | [] => Ok tt
      end;
  _ ← assertDirectionShapes directions;
  _ ← for_each (λ d, throw_if (negb (length (js_uniq (rd_nodeIds d)) =? length (rd_nodeIds d))%nat)
                       DirectionListsTwice) directions;
  _ ← for_each check_holders (holders_of [] 0 directions);
  _ ← all_distinct [] ((sorted ≫= p_nodeIds) ++ (directions ≫= rd_nodeIds));
  let linkCount := countLinks sorted directions in
  _ ← throw_if (MAX_CASCADE_LINKS <? linkCount) (TooManyLinks linkCount);
  Ok (mkValidated sorted directions linkCount).

(** ** The hop model *)
Inductive mode := chain | balancer.

#[global] Instance mode_eq_dec : EqDecision mode.
Proof. solve_decision. Defined.

Definition unfoldable (p : option string) : bool :=
  match linkCellFor p with
  | Some cell => bool_decide ("xray" ∉ LINK_CELL_ENGINES cell)
  | None => false
  end.

(** [...(x ? { key: x } : {})]. *)
Definition keep_truthy (x : option string) : option string := if truthy x then x else None.

(** [nodeIds[0]!], of a pool checked to hold one node. *)
Definition the_node (ns : list string) : string := default "" (head ns).

Fixpoint exit_hops (i : Z) (ds : list ResolvedDirection) : list CascadeHopInput :=
  match ds with
  | [] => []
  | d :: ds => mkHop (the_node (rd_nodeIds d)) i None None :: exit_hops (i + 1) ds
  end.

Fixpoint transit_hops (i : Z) (ps : list CascadePositionInput) : list CascadeHopInput :=
  match ps with
  | [] => []
  | p :: ps => mkHop (the_node (p_nodeIds p)) i None (keep_truthy (p_linkProtocol p)) :: transit_hops (i + 1) ps
  end.

(** [None] where the source dereferences an entry that is not there. *)
Definition foldPositionsIntoHops (positions : list CascadePositionInput)
    (directions : list ResolvedDirection) : option (checked (list CascadeHopInput * mode)) :=
  let sorted := by_position positions in
  let checks : checked unit :=
    _ ← for_each (λ p, throw_if (1 <? length (p_nodeIds p))%nat
                         (PoolOnPosition (p_position p) (Z.of_nat (length (p_nodeIds p))))) sorted;
    _ ← for_each (λ d, _ ← throw_if (1 <? length (rd_nodeIds d))%nat
                              (PoolBehindDirection (Z.of_nat (length (rd_nodeIds d))));
                       throw_if (bool_decide (rd_nodeIds d = [])) EmptyDirection) directions;
    _ ← throw_if ((1 <? length directions)%nat && (1 <? length sorted)%nat) TransitsAndDirections;
    _ ← for_each (λ p, throw_if (unfoldable (p_linkProtocol p)) (CellNeedsChain (Some (p_position p)))) sorted;
    for_each (λ d, throw_if (unfoldable (rd_linkProtocol d)) (CellNeedsChain None)) directions in
  match checks with
  | Throw e => Some (Throw e)
  | Ok _ =>
      match sorted with
      | [] => None
      | entry :: rest =>
          let first := mkHop (the_node (p_nodeIds entry)) 0 (keep_truthy (p_entryProtocol entry))
                         (keep_truthy (p_linkProtocol entry)) in
          if (1 <? length directions)%nat then
            Some (Ok (first :: exit_hops 1 directions, balancer))
          else
            match directions with
            | [] => None
            | d :: _ =>
                Some (Ok (first :: transit_hops 1 rest ++
                          [mkHop (the_node (rd_nodeIds d)) (Z.of_nat (length sorted)) None None], chain))
            end
      end
  end.

Definition by_hop_position (l : list CascadeHopInput) : list CascadeHopInput :=
  sort_by (λ a b, h_position a <=? h_position b) l.

Definition check_hop (m : mode) (count : nat) (i : nat) (h : CascadeHopInput) : checked unit :=
  let isEntry := bool_decide (i = 0%nat) in
  let isBalancer := bool_decide (m = balancer) in
  let isExit := if isBalancer then (1 <=? i)%nat else (S i =? count)%nat in
  let entry := truthy (h_entryProtocol h) in
  let at_ := AtHop (h_position h) in
  _ ← throw_if (isEntry && negb entry) EntryNeedsProtocol;
  _ ← (if isEntry && entry then assertEntryIsChainable (default "" (h_entryProtocol h)) else Ok tt);
  _ ← throw_if (negb isEntry && entry) (ProtocolNotOnEntry at_);
  let carriesLink := if isBalancer then isEntry else negb isExit in
  _ ← throw_if (carriesLink && negb (truthy (h_linkProtocol h))) (NeedsLinkProtocol at_ isBalancer);
  _ ← (if carriesLink then assertLinkCellExists (h_linkProtocol h) at_ else Ok tt);
  throw_if (negb carriesLink && truthy (h_linkProtocol h)) (ExitHasLink at_ isBalancer).

Definition validateCascadeHops (hops : list CascadeHopInput) (m : mode) : checked (list CascadeHopInput) :=
  let n := Z.of_nat (length hops) in
  _ ← throw_if (n <? 2) TooFewHops;
  _ ← throw_if (MAX_CASCADE_HOPS <? n) (TooManyHops n);
  let sorted := by_hop_position hops in
  _ ← throw_if (negb (contiguous_from 0 (h_position <$> sorted))) (NotContiguous (h_position <$> sorted));
  _ ← for_each_i (check_hop m (length sorted)) 0 sorted;
  _ ← throw_if (negb (length (js_uniq (h_nodeId <$> sorted)) =? length sorted)%nat) NodeTwice;
  Ok sorted.

(** ** The save

    What [createCascade] does with a payload of positions and directions: an
    unfoldable shape is stored without hops ([tryFoldPositions]), a folded one
    passes the hop rules, and then the topology rules decide. *)
Definition tryFoldPositions (positions : list CascadePositionInput) (directions : list ResolvedDirection)
    : option (option (list CascadeHopInput * mode)) :=
  match foldPositionsIntoHops positions directions with
  | None => None
  | Some (Throw _) => Some None
  | Some (Ok hm) => Some (Some hm)
  end.

Definition save_topology (positions : list CascadePositionInput) (directions : list ResolvedDirection)
    : option (checked (list CascadeHopInput * ValidatedTopology)) :=
  match tryFoldPositions positions directions with
  | None => None
  | Some folded =>
      Some (hops ← match folded with Some (hops, m) => validateCascadeHops hops m | None => Ok [] end;
            t ← validateCascadeTopology positions directions;
            Ok (hops, t))
  end.

(** ** Loops *)
Lemma for_each_i_ok {A} (f : nat → A → checked unit) i xs u :
  for_each_i f i xs = Ok u ↔ ∀ j x, xs !! j = Some x → f (i + j)%nat x = Ok tt.
Proof.
  destruct u. revert i. induction xs as [|x xs IH]; intros i; simpl.
  - split; [by intros _ j x|done].
  - rewrite bind_ok. split.
    + intros ([] & Hx & Hxs) [|j] y Hy; simpl in Hy.
      * injection Hy as <-. by rewrite Nat.add_0_r.
      * rewrite Nat.add_succ_r, <-Nat.add_succ_l. by apply (proj1 (IH (S i))).
    + intros H. exists tt. split.
      * rewrite <-(Nat.add_0_r i). by apply H.
      * apply IH. intros j y Hy. rewrite Nat.add_succ_l, <-Nat.add_succ_r. by apply H.
Qed.

Lemma contiguous_seqZ i l : contiguous_from i l = true ↔ l = seqZ i (Z.of_nat (length l)).
Proof.
  revert i. induction l as [|x l IH]; intros i; simpl; [done|].
  rewrite andb_true_iff, Z.eqb_eq, IH, (seqZ_cons i) by lia.
  replace (Z.pred (Z.of_nat (S (length l)))) with (Z.of_nat (length l)) by lia.
  change (Z.succ i) with (i + 1). split; [intros [-> E]; by rewrite <-E|intros [= -> E]; by rewrite <-E].
Qed.

Lemma all_distinct_ok seen l u :
  all_distinct seen l = Ok u ↔ NoDup l ∧ ∀ x, x ∈ l → x ∉ seen.
Proof.
  destruct u. revert seen. induction l as [|n l IH]; intros seen; simpl.
  - split; [intros _; split; [constructor|set_solver]|done].
  - case_decide as Hn.
    + split; [done|]. intros [_ H]. exfalso. by apply (H n); [set_solver|].
    + rewrite IH, NoDup_cons. setoid_rewrite elem_of_cons. split.
      * intros [Hnd H]. split; [split; [|done]|].
        -- intros Hin. apply (H n Hin). by left.
        -- intros x [->|Hx]; [done|]. intros Hs. apply (H x Hx). by right.
      * intros [[Hni Hnd] H]. split; [done|]. intros x Hx [->|Hs]; [done|].
        by apply (H x); [right|].
Qed.

Definition outbounds (ds : list ResolvedDirection) : list string :=
  omap (λ d, keep_truthy (rd_outboundId d)) ds.

(** Exactly one of a pool and an outbound. *)
Definition shape_ok (d : ResolvedDirection) : Prop :=
  truthy (rd_outboundId d) = true ↔ rd_nodeIds d = [].

Lemma direction_shape_ok seen i d seen' :
  direction_shape seen i d = Ok seen' ↔
  shape_ok d ∧
  match keep_truthy (rd_outboundId d) with
  | Some o => o ∉ seen ∧ seen' = o :: seen
  | None => seen' = seen
  end.
Proof.
  unfold direction_shape, shape_ok, keep_truthy, truthy.
  destruct (rd_outboundId d) as [o|]; simpl.
  - destruct (decide (o = "")) as [->|Ho]; simpl.
    + destruct (rd_nodeIds d); simpl; naive_solver.
    + rewrite !bool_decide_true by done. simpl. destruct (rd_nodeIds d) as [|n ns]; simpl.
      * case_decide; naive_solver.
      * split; [done|]. intros [H _]. naive_solver.
  - destruct (rd_nodeIds d); simpl; naive_solver.
Qed.

Lemma shapes_loop_ok seen i ds u :
  shapes_loop seen i ds = Ok u ↔
  Forall shape_ok ds ∧ NoDup (outbounds ds) ∧ ∀ o, o ∈ outbounds ds → o ∉ seen.
Proof.
  destruct u. revert seen i. induction ds as [|d ds IH]; intros seen i; simpl.
  - split; [intros _; repeat split; [constructor..|set_solver]|done].
  - rewrite bind_ok, Forall_cons. setoid_rewrite direction_shape_ok. unfold outbounds. cbn [omap list_omap].
    fold (outbounds ds). destruct (keep_truthy (rd_outboundId d)) as [o|].
    + rewrite NoDup_cons. setoid_rewrite elem_of_cons. split.
      * intros (s & (Hs & Ho & ->) & Hl). apply IH in Hl as (Hf & Hn & Hd).
        split; [done|]. split; [split; [|done]|].
        -- intros Hin. apply (Hd o Hin). set_solver.
        -- intros x [->|Hx]; [done|]. intros Hs'. apply (Hd x Hx). set_solver.
      * intros ((Hs & Hf) & (Hni & Hn) & Hd). exists (o :: seen). split; [split; [done|]|].
        -- split; [|done]. apply Hd. by left.
        -- apply IH. split; [done|]. split; [done|]. intros x Hx [->|Hs']%elem_of_cons; [done|].
           by apply (Hd x); [right|].
    + split.
      * intros (s & (Hs & ->) & Hl). apply IH in Hl as (Hf & Hn & Hd). done.
      * intros ((Hs & Hf) & Hn & Hd). exists seen. split; [done|]. by apply IH.
Qed.

Lemma throw_if_iff (b : bool) (e : validation_error) u : throw_if b e = Ok u ↔ b = false.
Proof. apply throw_if_ok. Qed.

Lemma linkCell_ok p w u : assertLinkCellExists p w = Ok u ↔ is_Some (linkCellFor p).
Proof. unfold assertLinkCellExists. destruct u, (linkCellFor p); naive_solver. Qed.

Lemma chainable_ok p u : assertEntryIsChainable p = Ok u ↔ p ∈ CHAIN_ENTRY_PROTOCOLS.
Proof.
  unfold assertEntryIsChainable. rewrite throw_if_ok, bool_decide_eq_false.
  destruct (decide (p ∈ CHAIN_ENTRY_PROTOCOLS)); naive_solver.
Qed.

(** What each position must be, told by whether it is the entry. *)
Definition position_ok (is_entry : bool) (p : CascadePositionInput) : Prop :=
  (if is_entry then ∃ e, p_entryProtocol p = Some e ∧ e ∈ CHAIN_ENTRY_PROTOCOLS
   else truthy (p_entryProtocol p) = false) ∧
  truthy (p_linkProtocol p) = true ∧ is_Some (linkCellFor (p_linkProtocol p)) ∧
  p_nodeIds p ≠ [] ∧ NoDup (p_nodeIds p).

Lemma uniq_length_ok (l : list string) :
  negb (length (js_uniq l) =? length l)%nat = false ↔ NoDup l.
Proof. rewrite negb_false_iff, Nat.eqb_eq. apply js_uniq_length_NoDup. Qed.

Lemma entry_truthy p : (∃ e, p = Some e ∧ e ∈ CHAIN_ENTRY_PROTOCOLS) ↔
  truthy p = true ∧ default "" p ∈ CHAIN_ENTRY_PROTOCOLS.
Proof.
  destruct p as [e|]; simpl; [|naive_solver]. rewrite bool_decide_eq_true.
  split; [intros (? & [= <-] & H)|intros [_ H]; by exists e]. split; [|done]. intros ->.
  unfold CHAIN_ENTRY_PROTOCOLS in H. set_solver.
Qed.

Lemma check_position_ok n i p u :
  check_position n i p = Ok u ↔ position_ok (bool_decide (i = 0%nat)) p.
Proof.
  destruct u. unfold check_position, position_ok. cbv zeta.
  rewrite !bind_unit_ok, !throw_if_ok, linkCell_ok, uniq_length_ok, bool_decide_eq_false.
  destruct (bool_decide (i = 0%nat)); [rewrite entry_truthy|];
    destruct (truthy (p_entryProtocol p)), (truthy (p_linkProtocol p)); simpl;
    rewrite ?chainable_ok; naive_solver.
Qed.

Lemma NoDup_bind_elem {A B} (f : A → list B) l x : NoDup (l ≫= f) → x ∈ l → NoDup (f x).
Proof.
  induction l as [|y l IH]; [set_solver|]. cbn [mbind list_bind].
  intros (H1 & _ & H2)%NoDup_app [->|Hx]%elem_of_cons; auto.
Qed.

Section Holders.
Implicit Types m : list (string * list nat).

Lemma add_holders_get i m ns n :
  NoDup ns →
  jm_get n (foldl (add_holder i) m ns) =
  if decide (n ∈ ns) then Some (default [] (jm_get n m) ++ [i]) else jm_get n m.
Proof.
  revert m. induction ns as [|x ns IH]; intros m Hnd; [done|].
  apply NoDup_cons in Hnd as [Hx Hnd]. cbn [foldl]. rewrite IH by done.
  unfold add_holder. rewrite jm_get_set. destruct (decide (n = x)) as [->|Hne].
  - rewrite decide_False by done. by rewrite decide_True by set_solver.
  - apply decide_ext. set_solver.
Qed.

Lemma add_holders_wf i m ns : jm_wf m → jm_wf (foldl (add_holder i) m ns).
Proof. revert m. induction ns as [|x ns IH]; intros m Hm; [done|]. cbn [foldl]. apply IH. by apply jm_wf_set. Qed.

Lemma holders_single m i ds :
  jm_wf m → NoDup (ds ≫= rd_nodeIds) →
  (∀ n l, jm_get n m = Some l → (length l ≤ 1)%nat ∧ n ∉ ds ≫= rd_nodeIds) →
  Forall (λ kv, check_holders kv = Ok tt) (holders_of m i ds).
Proof.
  revert m i. induction ds as [|d ds IH]; intros m i Hm Hnd Hg; cbn [holders_of].
  - apply Forall_forall. intros [n l] Hin. apply jm_elem_get in Hin; [|done].
    apply Hg in Hin as [Hl _]. unfold check_holders. apply throw_if_ok. simpl. apply Nat.ltb_ge. done.
  - cbn [mbind list_bind] in Hnd. apply NoDup_app in Hnd as (Hd & Hdis & Hnd).
    apply IH; [by apply add_holders_wf|done|]. intros n l.
    rewrite add_holders_get by done. case_decide as Hn.
    + intros [= <-]. split; [|by apply Hdis].
      destruct (jm_get n m) as [l|] eqn:E; [|simpl; lia].
      exfalso. apply Hg in E as [_ E]. apply E. cbn [mbind list_bind]. set_solver.
    + intros E. apply Hg in E as [Hl E]. split; [done|]. cbn [mbind list_bind] in E. set_solver.
Qed.
End Holders.

Lemma blind_steps_nil l :
  (∀ p, p ∈ l → is_Some (linkCellFor (p_linkProtocol p))) →
  blind_steps l = [] ↔
  ∀ j p, l !! j = Some p → (S j < length l)%nat → linkCellFor (p_linkProtocol p) = Some "vless".
Proof.
  induction l as [|a [|b l] IH]; intros Hc.
  { split; [by intros _ j p|done]. }
  { split; [|done]. intros _ [|j] p ?; simpl; lia. }
  assert (blind_steps (a :: b :: l) = match linkCellFor (p_linkProtocol a) with
    | Some cell => if decide (cell ≠ "vless") then (p_position a, p_position b, cell) :: blind_steps (b :: l)
                   else blind_steps (b :: l)
    | None => blind_steps (b :: l) end) as -> by done.
  destruct (Hc a) as [cell Hcell]; [set_solver|]. rewrite Hcell.
  assert (blind_steps (b :: l) = [] ↔ ∀ j p, (b :: l) !! j = Some p → (S j < length (b :: l))%nat →
    linkCellFor (p_linkProtocol p) = Some "vless") as IH' by (apply IH; set_solver).
  destruct (decide (cell ≠ "vless")) as [Hne|Heq].
  - split; [done|]. intros H. exfalso. apply Hne.
    specialize (H 0%nat a eq_refl ltac:(simpl; lia)). congruence.
  - apply dec_stable in Heq. rewrite IH'. split.
    + intros H [|j] p Hj Hlt; [injection Hj as <-; congruence|]. apply (H j p Hj). simpl in *. lia.
    + intros H j p Hj Hlt. apply (H (S j) p Hj). simpl in *. lia.
Qed.

(** ** Order *)
Lemma by_position_perm ps : by_position ps ≡ₚ ps.
Proof. apply sort_by_perm. Qed.

Lemma by_position_sorted ps : StronglySorted Z.le (p_position <$> by_position ps).
Proof.
  assert (StronglySorted (λ a b, (p_position a <=? p_position b) = true) (by_position ps)) as Hs.
  { apply sort_by_sorted; intros *; rewrite ?Z.leb_le, ?Z.leb_gt; lia. }
  induction Hs as [|p l Hl IH Hp]; [constructor|]. constructor; [done|]. apply Forall_fmap.
  eapply Forall_impl; [exact Hp|]. intros q Hq. simpl in *. lia.
Qed.

Lemma positions_sorted_eq ps ps' :
  ps ≡ₚ ps' → p_position <$> by_position ps = p_position <$> by_position ps'.
Proof.
  intros Hp. eapply (StronglySorted_unique Z.le); [apply by_position_sorted..|].
  rewrite !by_position_perm. by rewrite Hp.
Qed.

Lemma contiguous_perm ps :
  contiguous_from 0 (p_position <$> by_position ps) = true ↔
  p_position <$> ps ≡ₚ seqZ 0 (Z.of_nat (length ps)).
Proof.
  rewrite contiguous_seqZ, length_fmap, (Permutation_length (by_position_perm ps)). split.
  - intros E. rewrite <-E, by_position_perm. done.
  - intros Hp. eapply (StronglySorted_unique Z.le); [apply by_position_sorted| |].
    + generalize 0, (Z.of_nat (length ps)). intros m n.
      assert (n <= 0 ∨ 0 <= n) as [Hn|Hn] by lia; [by rewrite seqZ_nil by done; constructor|].
      clear Hp ps. revert m. pattern n. apply natlike_ind; [| |done]; clear n Hn.
      * intros m. constructor.
      * intros n Hn IH m. rewrite seqZ_cons by lia. rewrite Z.pred_succ. constructor; [apply IH|].
        apply Forall_forall. intros x Hx. apply elem_of_seqZ in Hx. lia.
    + by rewrite by_position_perm.
Qed.

(** With contiguous positions the order is the only one. *)
Lemma by_position_unique ps ps' :
  ps ≡ₚ ps' → contiguous_from 0 (p_position <$> by_position ps) = true → by_position ps = by_position ps'.
Proof.
  intros Hp Hc. pose proof (positions_sorted_eq _ _ Hp) as E.
  rewrite contiguous_seqZ in Hc. assert (by_position ps ≡ₚ by_position ps') as Hperm
    by (by rewrite !by_position_perm).
  assert (NoDup (p_position <$> by_position ps)) as Hnd by (rewrite Hc; apply NoDup_seqZ).
  apply list_eq_same_length with (length (by_position ps)); [by rewrite <-?Hperm..|].
  intros i x y _ Hx Hy.
  assert (p_position x = p_position y) as Exy.
  { apply (f_equal (λ l : list Z, l !! i)) in E. rewrite !list_lookup_fmap, Hx, Hy in E. by injection E. }
  assert (y ∈ by_position ps) as Hyin by (rewrite Hperm; by eapply list_elem_of_lookup_2).
  apply list_elem_of_lookup in Hyin as [j Hj].
  assert (i = j) as ->; [|congruence].
  eapply NoDup_lookup; [exact Hnd| |].
  - rewrite list_lookup_fmap, Hx. reflexivity.
  - rewrite list_lookup_fmap, Hj. simpl. by rewrite Exy.
Qed.

(** ** What a valid topology is *)
Definition valid_topology (ps : list CascadePositionInput) (ds : list ResolvedDirection) : Prop :=
  (1 ≤ length ps ≤ 4)%nat ∧ ds ≠ [] ∧
  p_position <$> ps ≡ₚ seqZ 0 (Z.of_nat (length ps)) ∧
  (∀ p, p ∈ ps →
     (if decide (p_position p = 0)
      then ∃ e, p_entryProtocol p = Some e ∧ e ∈ CHAIN_ENTRY_PROTOCOLS
      else truthy (p_entryProtocol p) = false) ∧
     truthy (p_linkProtocol p) = true ∧ is_Some (linkCellFor (p_linkProtocol p)) ∧ p_nodeIds p ≠ []) ∧
  ((2 ≤ length ds)%nat → ∀ p, p ∈ ps → p_position p < Z.of_nat (length ps) - 1 →
     linkCellFor (p_linkProtocol p) = Some "vless") ∧
  Forall shape_ok ds ∧ NoDup (outbounds ds) ∧
  NoDup ((ps ≫= p_nodeIds) ++ (ds ≫= rd_nodeIds)) ∧
  countLinks (by_position ps) ds <= MAX_CASCADE_LINKS.

Section Sorted_facts.
Context (ps : list CascadePositionInput).
Hypothesis contig : contiguous_from 0 (p_position <$> by_position ps) = true.

Lemma sorted_index j p : by_position ps !! j = Some p → p_position p = Z.of_nat j.
Proof.
  intros Hj. pose proof contig as Hc. rewrite contiguous_seqZ in Hc.
  apply (f_equal (λ l : list Z, l !! j)) in Hc. rewrite list_lookup_fmap, Hj in Hc. simpl in Hc.
  symmetry in Hc. apply lookup_seqZ in Hc as [? ?]. lia.
Qed.

Lemma positions_all (P : bool → CascadePositionInput → Prop) :
  (∀ j p, by_position ps !! j = Some p → P (bool_decide ((0 + j)%nat = 0%nat)) p) ↔
  ∀ p, p ∈ ps → P (bool_decide (p_position p = 0)) p.
Proof.
  split.
  - intros H p Hp. rewrite <-(by_position_perm ps) in Hp. apply list_elem_of_lookup in Hp as [j Hj].
    specialize (H j p Hj). rewrite (sorted_index j p Hj).
    by rewrite (bool_decide_ext (Z.of_nat j = 0) ((0 + j)%nat = 0%nat)) by lia.
  - intros H j p Hj. specialize (H p). rewrite (sorted_index j p Hj) in H.
    rewrite (bool_decide_ext ((0 + j)%nat = 0%nat) (Z.of_nat j = 0)) by lia. apply H.
    rewrite <-(by_position_perm ps). by eapply list_elem_of_lookup_2.
Qed.

Lemma blind_ok k :
  (∀ p, p ∈ ps → is_Some (linkCellFor (p_linkProtocol p))) →
  blindTransitSteps (by_position ps) k = [] ↔
  (1 < k → ∀ p, p ∈ ps → p_position p < Z.of_nat (length ps) - 1 →
     linkCellFor (p_linkProtocol p) = Some "vless").
Proof.
  intros Hc. unfold blindTransitSteps. destruct (Z.leb_spec k 1); [split; [intros _; lia|done]|].
  rewrite <-(by_position_unique ps (by_position ps)) by (by rewrite ?by_position_perm).
  rewrite blind_steps_nil.
  2:{ intros p Hp. apply Hc. by rewrite <-(by_position_perm ps). }
  rewrite (Permutation_length (by_position_perm ps)). split.
  - intros Hv _ p Hp Hlt. rewrite <-(by_position_perm ps) in Hp. apply list_elem_of_lookup in Hp as [j Hj].
    rewrite (sorted_index j p Hj) in Hlt. apply (Hv j p Hj). lia.
  - intros Hv j p Hj Hlt. apply Hv; [lia| |rewrite (sorted_index j p Hj); lia].
    rewrite <-(by_position_perm ps). by eapply list_elem_of_lookup_2.
Qed.
End Sorted_facts.

Lemma NoDup_nodes_perm (ps ps' : list CascadePositionInput) (l : list string) :
  ps ≡ₚ ps' → NoDup ((ps ≫= p_nodeIds) ++ l) ↔ NoDup ((ps' ≫= p_nodeIds) ++ l).
Proof. intros Hp. assert (ps ≫= p_nodeIds ≡ₚ ps' ≫= p_nodeIds) as -> by (by rewrite Hp). done. Qed.

(** Each check of [validateCascadeTopology], read as a proposition. *)
Lemma validate_ok_iff ps ds v :
  validateCascadeTopology ps ds = Ok v ↔
  (1 ≤ length ps ≤ 4)%nat ∧ ds ≠ [] ∧ contiguous_from 0 (p_position <$> by_position ps) = true ∧
  (∀ j p, by_position ps !! j = Some p → position_ok (bool_decide ((0 + j)%nat = 0%nat)) p) ∧
  blindTransitSteps (by_position ps) (Z.of_nat (length ds)) = [] ∧
  (Forall shape_ok ds ∧ NoDup (outbounds ds)) ∧
  (Forall (λ d, NoDup (rd_nodeIds d)) ds ∧
   Forall (λ kv, check_holders kv = Ok tt) (holders_of [] 0 ds) ∧
   NoDup ((ps ≫= p_nodeIds) ++ (ds ≫= rd_nodeIds))) ∧
  countLinks (by_position ps) ds <= MAX_CASCADE_LINKS ∧
  v = mkValidated (by_position ps) ds (countLinks (by_position ps) ds).
Proof.
  unfold validateCascadeTopology. cbv zeta.
  rewrite !bind_unit_ok, !throw_if_ok, !for_each_ok, for_each_i_ok, all_distinct_ok.
  unfold assertDirectionShapes. rewrite shapes_loop_ok, negb_false_iff, !Z.ltb_ge.
  setoid_rewrite check_position_ok.
  rewrite (NoDup_nodes_perm _ _ _ (by_position_perm ps)).
  assert (∀ ds : list ResolvedDirection,
    Forall (λ d, throw_if (negb (length (js_uniq (rd_nodeIds d)) =? length (rd_nodeIds d))%nat) DirectionListsTwice = Ok tt) ds
    ↔ Forall (λ d, NoDup (rd_nodeIds d)) ds) as ->.
  { intros l. apply Forall_proper; [|done]. intros d. rewrite throw_if_ok. apply uniq_length_ok. }
  assert (match blindTransitSteps (by_position ps) (Z.of_nat (length ds)) with
      | (from, transit, cell) :: _ => Throw (BlindTransit from transit cell) | [] => Ok tt end = Ok tt
    ↔ blindTransitSteps (by_position ps) (Z.of_nat (length ds)) = []) as ->
    by (by destruct (blindTransitSteps _ _) as [|[[? ?] ?] ?]).
  assert (ds ≠ [] ↔ 1 <= Z.of_nat (length ds)) as -> by (destruct ds; simpl; naive_solver lia).
  unfold MAX_CASCADE_POSITIONS, MAX_CASCADE_PATH.
  assert ((1 ≤ length ps ≤ 4)%nat ↔ 1 <= Z.of_nat (length ps) ∧ Z.of_nat (length ps) <= 5 - 1 ∧ Z.of_nat (length ps) + 1 <= 5)
    as -> by lia.
  assert (∀ a : ValidatedTopology, Ok a = (Ok v : checked ValidatedTopology) ↔ v = a) as -> by naive_solver.
  split; [|naive_solver set_solver].
  intros (? & ? & ? & ? & ? & ? & ? & (? & ? & _) & ? & ? & (? & _) & ? & ?). naive_solver.
Qed.

(** C2. A topology is accepted exactly when it is valid, and what is returned
    is its positions in order, its directions and its link count. *)
Theorem validateCascadeTopology_iff ps ds v :
  validateCascadeTopology ps ds = Ok v ↔
  valid_topology ps ds ∧ v = mkValidated (by_position ps) ds (countLinks (by_position ps) ds).
Proof.
  rewrite validate_ok_iff. unfold valid_topology. split.
  - intros (Hn & Hd & Hc & Hp & Hb & [Hs Ho] & (_ & _ & Hnd) & Hl & ->).
    assert (∀ p, p ∈ ps → position_ok (bool_decide (p_position p = 0)) p) as Hp'
      by (by apply (positions_all ps Hc position_ok)).
    assert (∀ p, p ∈ ps → is_Some (linkCellFor (p_linkProtocol p))) as Hcell by (intros p Hin; by apply Hp').
    split; [|done]. split; [done|]. split; [done|]. split; [by apply contiguous_perm|].
    split; [|split; [|done]].
    + intros p Hin. destruct (Hp' p Hin) as (He & Hl' & Hc' & Hn' & _). split; [|done].
      destruct (decide (p_position p = 0)) as [E|E].
      * by rewrite bool_decide_true in He.
      * by rewrite bool_decide_false in He.
    + intros H2. apply (proj1 (blind_ok ps Hc (Z.of_nat (length ds)) Hcell) Hb). lia.
  - intros ((Hn & Hd & Hperm & Hp & Hb & Hs & Ho & Hnd & Hl) & ->).
    assert (contiguous_from 0 (p_position <$> by_position ps) = true) as Hc by (by apply contiguous_perm).
    pose proof Hnd as (Hnd1 & _ & Hnd2)%NoDup_app.
    split; [done|]. split; [done|]. split; [done|]. split.
    { apply (positions_all ps Hc position_ok). intros p Hin. destruct (Hp p Hin) as (He & Hl' & Hc' & Hn').
      split; [|split; [done|split; [done|split; [done|by eapply NoDup_bind_elem]]]].
      destruct (decide (p_position p = 0)); [by rewrite bool_decide_true|by rewrite bool_decide_false]. }
    split.
    { apply blind_ok; [done|intros p Hin; by apply Hp|]. intros Hk. apply Hb. lia. }
    split; [done|]. split; [|done]. split.
    { apply Forall_forall. intros d Hin. by eapply NoDup_bind_elem. }
    split; [|done]. apply holders_single; [apply jm_wf_nil|done|done].
Qed.

(** The order positions are sent in never matters: the same answer, value
    or error. *)
Theorem validateCascadeTopology_order ps ps' ds :
  ps ≡ₚ ps' → validateCascadeTopology ps ds = validateCascadeTopology ps' ds.
Proof.
  intros Hp. unfold validateCascadeTopology. cbv zeta.
  rewrite (positions_sorted_eq ps ps' Hp), (Permutation_length Hp).
  destruct (contiguous_from 0 (p_position <$> by_position ps')) eqn:Hc.
  - rewrite (by_position_unique ps ps' Hp); [done|]. by rewrite (positions_sorted_eq ps ps' Hp).
  - do 4 (apply bind_cong; intros _). done.
Qed.

(** ** Links *)

Definition pairs (xs ys : list string) : list (string * string) := xs ≫= λ x, (λ y, (x, y)) <$> ys.

(** The pairs of nodes on adjacent steps. *)
Fixpoint step_pairs (l : list CascadePositionInput) : list (string * string) :=
  match l with
  | a :: (b :: _) as l' =>
      pairs (p_nodeIds a) (p_nodeIds b) ++ step_pairs l'
  | _ => []
  end.

Definition link_pairs (l : list CascadePositionInput) (ds : list ResolvedDirection) : list (string * string) :=
  step_pairs l ++
  match last l with
  | Some p => ds ≫= λ d, pairs (p_nodeIds p) (rd_nodeIds d)
  | None => []
  end.

Lemma pairs_length (xs ys : list string) :
  Z.of_nat (length (pairs xs ys)) = Z.of_nat (length xs) * Z.of_nat (length ys).
Proof.
  unfold pairs. induction xs as [|x xs IH]; [done|].
  rewrite bind_cons, length_app, length_fmap, Nat2Z.inj_add, IH. cbn [length]. lia.
Qed.

Lemma countLinks_pairs l ds : countLinks l ds = Z.of_nat (length (link_pairs l ds)).
Proof.
  unfold countLinks, link_pairs. rewrite length_app, Nat2Z.inj_add. f_equal.
  - induction l as [|a [|b l] IH]; [done..|].
    change (step_links (a :: b :: l)) with
      (Z.of_nat (length (p_nodeIds a)) * Z.of_nat (length (p_nodeIds b)) + step_links (b :: l)).
    change (step_pairs (a :: b :: l)) with
      (pairs (p_nodeIds a) (p_nodeIds b) ++ step_pairs (b :: l)).
    rewrite length_app, Nat2Z.inj_add, IH, pairs_length. done.
  - destruct (last l) as [p|]; [|done]. induction ds as [|d ds IH]; [done|].
    rewrite fmap_cons, sumZ_cons, IH, bind_cons, length_app, Nat2Z.inj_add, pairs_length. done.
Qed.

(** The link count is the number of node pairs on adjacent steps: each
    pair of nodes of one step and the next, and of the last step and a
    direction. *)
Theorem linkCount_pairs ps ds v :
  validateCascadeTopology ps ds = Ok v →
  v_linkCount v = Z.of_nat (length (link_pairs (v_positions v) ds)) ∧
  (length (link_pairs (v_positions v) ds) ≤ 64)%nat.
Proof.
  rewrite validate_ok_iff. intros (_ & _ & _ & _ & _ & _ & _ & Hl & ->). simpl.
  rewrite countLinks_pairs in *. unfold MAX_CASCADE_LINKS in Hl. lia.
Qed.

(** ** The fold *)
Lemma exit_hops_spec i ds :
  h_position <$> exit_hops i ds = seqZ i (Z.of_nat (length ds)) ∧
  h_nodeId <$> exit_hops i ds = (λ d, the_node (rd_nodeIds d)) <$> ds ∧
  Forall (λ h, h_entryProtocol h = None ∧ h_linkProtocol h = None) (exit_hops i ds).
Proof.
  revert i. induction ds as [|d ds IH]; intros i; [done|]. destruct (IH (i + 1)) as (H1 & H2 & H3).
  cbn [exit_hops length]. rewrite !fmap_cons, H1, H2, (seqZ_cons i) by lia. simpl.
  split; [do 2 f_equal; lia|]. split; [done|]. by constructor.
Qed.

Lemma transit_hops_spec i ps :
  h_position <$> transit_hops i ps = seqZ i (Z.of_nat (length ps)) ∧
  h_nodeId <$> transit_hops i ps = (λ p, the_node (p_nodeIds p)) <$> ps ∧
  Forall2 (λ p h, h_entryProtocol h = None ∧ h_linkProtocol h = keep_truthy (p_linkProtocol p))
    ps (transit_hops i ps).
Proof.
  revert i. induction ps as [|p ps IH]; intros i; [done|]. destruct (IH (i + 1)) as (H1 & H2 & H3).
  cbn [transit_hops length]. rewrite !fmap_cons, H1, H2, (seqZ_cons i) by lia. simpl.
  split; [do 2 f_equal; lia|]. split; [done|]. by constructor.
Qed.

Lemma the_node_single (ns : list string) : ns ≠ [] → (length ns ≤ 1)%nat → [the_node ns] = ns.
Proof. destruct ns as [|n [|? ?]]; simpl; [done|done|lia]. Qed.

Lemma nodes_single {A} (f : A → list string) l :
  Forall (λ x, f x ≠ [] ∧ (length (f x) ≤ 1)%nat) l → (λ x, the_node (f x)) <$> l = l ≫= f.
Proof.
  induction 1 as [|x l [Hne Hl] _ IH]; [done|].
  rewrite fmap_cons, bind_cons, IH, <-(the_node_single (f x)) by done. done.
Qed.

(** What a fold that goes through has checked, and what it builds. *)
Lemma fold_ok ps ds hops m :
  foldPositionsIntoHops ps ds = Some (Ok (hops, m)) →
  Forall (λ p, (length (p_nodeIds p) ≤ 1)%nat) (by_position ps) ∧
  Forall (λ d, (length (rd_nodeIds d) ≤ 1)%nat ∧ rd_nodeIds d ≠ []) ds ∧
  ∃ entry rest, by_position ps = entry :: rest ∧
    let first := mkHop (the_node (p_nodeIds entry)) 0 (keep_truthy (p_entryProtocol entry))
                   (keep_truthy (p_linkProtocol entry)) in
    ((2 ≤ length ds)%nat ∧ rest = [] ∧ m = balancer ∧ hops = first :: exit_hops 1 ds) ∨
    (∃ d, ds = [d] ∧ m = chain ∧
       hops = first :: transit_hops 1 rest ++
                [mkHop (the_node (rd_nodeIds d)) (Z.of_nat (length (by_position ps))) None None]).
Proof.
  unfold foldPositionsIntoHops. cbv zeta.
  match goal with |- context [match ?c with Ok _ => _ | Throw _ => _ end] => destruct c as [u|] eqn:Hc end; [|done].
  rewrite !bind_unit_ok, !for_each_ok, throw_if_ok in Hc. destruct Hc as (H1 & H2 & H3 & _).
  assert (Forall (λ p, (length (p_nodeIds p) ≤ 1)%nat) (by_position ps)) as Hp.
  { eapply Forall_impl; [exact H1|]. intros p Hp. simpl in Hp. apply throw_if_ok, Nat.ltb_ge in Hp. done. }
  assert (Forall (λ d, (length (rd_nodeIds d) ≤ 1)%nat ∧ rd_nodeIds d ≠ []) ds) as Hd.
  { eapply Forall_impl; [exact H2|]. intros d Hd. simpl in Hd. rewrite bind_unit_ok, !throw_if_ok in Hd.
    destruct Hd as [Hl Hn]. apply Nat.ltb_ge in Hl. bool_prop. done. }
  destruct (by_position ps) as [|entry rest] eqn:Es; [done|].
  intros E. split; [done|]. split; [done|]. exists entry, rest. split; [done|].
  destruct (1 <? length ds)%nat eqn:El; bool_prop.
  - injection E as <- <-. left. split; [lia|]. split; [|done].
    apply andb_false_iff in H3 as [H3|H3]; [done|]. apply Nat.ltb_ge in H3. simpl in H3. destruct rest; [done|simpl in H3; lia].
  - destruct ds as [|d [|? ?]]; [done| |simpl in El; lia]. injection E as <- <-. right. by exists d.
Qed.

Lemma by_hop_position_id hops n :
  h_position <$> hops = seqZ 0 n → by_hop_position hops = hops.
Proof.
  intros E. apply sort_by_sorted_id.
  assert (∀ i n hs, h_position <$> hs = seqZ i n →
    StronglySorted (λ a b, (h_position a <=? h_position b) = true) hs) as H; [|by eapply H].
  clear. intros i n hs. revert i n. induction hs as [|h hs IH]; intros i n E; [constructor|].
  destruct (decide (0 < n)) as [Hn|Hn]; [|by rewrite seqZ_nil in E by lia].
  rewrite fmap_cons, seqZ_cons in E by lia. injection E as Ei E. constructor; [by eapply IH|].
  apply Forall_forall. intros x Hx. apply (list_elem_of_fmap_2 h_position) in Hx. rewrite E in Hx.
  apply elem_of_seqZ in Hx. apply Z.leb_le. lia.
Qed.

Lemma keep_truthy_truthy x : truthy x = true → keep_truthy x = x.
Proof. unfold keep_truthy. by intros ->. Qed.

Lemma truthy_default x : truthy x = true → x = Some (default "" x).
Proof. by destruct x. Qed.

Definition hop_count_ok (hops : list CascadeHopInput) : checked (list CascadeHopInput) :=
  if Z.of_nat (length hops) <=? MAX_CASCADE_HOPS then Ok hops
  else Throw (TooManyHops (Z.of_nat (length hops))).

(** The hop rules say nothing more of well-formed hops than their count. *)
Lemma validate_hops_count hops m :
  (2 ≤ length hops)%nat → h_position <$> hops = seqZ 0 (Z.of_nat (length hops)) →
  NoDup (h_nodeId <$> hops) →
  (∀ i h, hops !! i = Some h → check_hop m (length hops) i h = Ok tt) →
  validateCascadeHops hops m = hop_count_ok hops.
Proof.
  intros H2 Hp Hnd Hc. unfold validateCascadeHops, hop_count_ok. cbv zeta.
  rewrite (by_hop_position_id _ _ Hp).
  rewrite (proj2 (Z.ltb_ge (Z.of_nat (length hops)) 2)) by lia. unfold throw_if at 1. cbn [mbind result_bind].
  rewrite Z.leb_antisym. destruct (MAX_CASCADE_HOPS <? Z.of_nat (length hops)); [done|].
  assert (contiguous_from 0 (h_position <$> hops) = true) as -> by (by rewrite contiguous_seqZ, length_fmap).
  assert (for_each_i (check_hop m (length hops)) 0 hops = Ok tt) as -> by (by apply for_each_i_ok).
  assert ((length (js_uniq (h_nodeId <$> hops)) =? length hops)%nat = true) as ->.
  { apply Nat.eqb_eq. rewrite (js_uniq_NoDup _ Hnd). apply length_fmap. }
  done.
Qed.

Lemma check_hop_entry m n h :
  (2 ≤ n)%nat → (∃ e, h_entryProtocol h = Some e ∧ e ∈ CHAIN_ENTRY_PROTOCOLS) →
  truthy (h_linkProtocol h) = true → is_Some (linkCellFor (h_linkProtocol h)) →
  check_hop m n 0 h = Ok tt.
Proof.
  intros Hn He Hl Hc. apply entry_truthy in He as [Ht He]. unfold check_hop. cbv zeta.
  rewrite Ht, Hl. rewrite !bind_unit_ok, !throw_if_ok. simpl.
  rewrite chainable_ok. destruct m; simpl.
  - destruct n as [|[|n]]; [lia|lia|]. simpl. by rewrite linkCell_ok.
  - by rewrite linkCell_ok.
Qed.

Lemma check_hop_transit n i h :
  i ≠ 0%nat → (S i < n)%nat → h_entryProtocol h = None →
  truthy (h_linkProtocol h) = true → is_Some (linkCellFor (h_linkProtocol h)) →
  check_hop chain n i h = Ok tt.
Proof.
  intros Hi Hn He Hl Hc. unfold check_hop. cbv zeta. rewrite He, Hl, (bool_decide_false (i = 0%nat)) by done.
  rewrite (bool_decide_false (chain = balancer)) by done.
  rewrite (proj2 (Nat.eqb_neq (S i) n)) by lia. cbn [negb andb truthy]. rewrite !bind_unit_ok, !throw_if_ok.
  by rewrite linkCell_ok.
Qed.

Lemma check_hop_exit m n i h :
  i ≠ 0%nat → m = balancer ∨ S i = n → h_entryProtocol h = None → h_linkProtocol h = None →
  check_hop m n i h = Ok tt.
Proof.
  intros Hi Hm He Hl. unfold check_hop. cbv zeta. rewrite He, Hl, (bool_decide_false (i = 0%nat)) by done.
  cbn [negb andb truthy]. destruct Hm as [->| <-].
  - done.
  - destruct m; cbn; [by rewrite Nat.eqb_refl|done].
Qed.

Section Fold_valid.
Context (ps : list CascadePositionInput) (ds : list ResolvedDirection).
Hypothesis pos_ok : ∀ j p, by_position ps !! j = Some p → position_ok (bool_decide (j = 0%nat)) p.
Hypothesis nodes_ok : NoDup ((ps ≫= p_nodeIds) ++ (ds ≫= rd_nodeIds)).

Lemma first_hop_ok m n entry rest :
  (2 ≤ n)%nat → by_position ps = entry :: rest →
  check_hop m n 0 (mkHop (the_node (p_nodeIds entry)) 0 (keep_truthy (p_entryProtocol entry))
                   (keep_truthy (p_linkProtocol entry))) = Ok tt.
Proof.
  intros Hn E. destruct (pos_ok 0 entry) as (He & Hl & Hc & _); [by rewrite E|]. simpl in He.
  pose proof He as [Ht _]%entry_truthy. apply check_hop_entry; simpl; rewrite ?keep_truthy_truthy; done.
Qed.

Lemma fold_hops_facts hops m :
  foldPositionsIntoHops ps ds = Some (Ok (hops, m)) →
  (2 ≤ length hops)%nat ∧ h_position <$> hops = seqZ 0 (Z.of_nat (length hops)) ∧
  h_nodeId <$> hops = (by_position ps ≫= p_nodeIds) ++ (ds ≫= rd_nodeIds) ∧
  ∀ i h, hops !! i = Some h → check_hop m (length hops) i h = Ok tt.
Proof.
  intros (Hp1 & Hd1 & entry & rest & Es & Hcase)%fold_ok. cbv zeta in Hcase.
  assert ((λ p, the_node (p_nodeIds p)) <$> by_position ps = by_position ps ≫= p_nodeIds) as Hpn.
  { apply nodes_single. rewrite Forall_forall in *. intros p Hin. split; [|by apply Hp1].
    apply list_elem_of_lookup in Hin as [j Hj]. by apply (pos_ok j p Hj). }
  assert ((λ d, the_node (rd_nodeIds d)) <$> ds = ds ≫= rd_nodeIds) as Hdn.
  { apply nodes_single. eapply Forall_impl; [exact Hd1|]. naive_solver. }
  destruct Hcase as [(H2 & -> & -> & ->)|(d & -> & -> & ->)].
  - destruct (exit_hops_spec 1 ds) as (E1 & E2 & E3).
    assert (length (exit_hops 1 ds) = length ds) as El
      by (by rewrite <-(length_fmap h_nodeId), E2, length_fmap).
    cbn [length]. rewrite El. split; [lia|]. split; [|split].
    + rewrite fmap_cons, E1, (seqZ_cons 0) by lia. simpl. do 2 f_equal. lia.
    + rewrite fmap_cons, E2, Hdn, <-Hpn, Es. done.
    + intros [|i] h Hi; [injection Hi as <-; eapply first_hop_ok; [lia|exact Es]|].
      rewrite Forall_lookup in E3. destruct (E3 i h Hi). apply check_hop_exit; auto.
  - destruct (transit_hops_spec 1 rest) as (E1 & E2 & E3).
    assert (length (transit_hops 1 rest) = length rest) as El
      by (by rewrite <-(length_fmap h_nodeId), E2, length_fmap).
    rewrite Es. cbn [length]. rewrite length_app, El. cbn [length]. split; [lia|]. split; [|split].
    + rewrite fmap_cons, fmap_app, E1, (seqZ_cons 0) by lia. cbn [h_position]. f_equal.
      replace (Z.pred (Z.of_nat (S (length rest + 1)))) with (Z.of_nat (length rest) + 1) by lia.
      rewrite seqZ_app by lia. f_equal.
      rewrite seqZ_cons, seqZ_nil by lia. cbn [fmap list_fmap h_position]. f_equal. lia.
    + rewrite fmap_cons, fmap_app, E2. rewrite <-Es, <-Hpn, <-Hdn, Es. done.
    + intros [|i] h Hi; [injection Hi as <-; eapply first_hop_ok; [lia|exact Es]|].
      cbn [lookup list_lookup] in Hi. change ((transit_hops 1 rest ++ [mkHop (the_node (rd_nodeIds d)) (Z.of_nat (S (length rest))) None None]) !! i = Some h) in Hi.
      apply lookup_app_Some in Hi as [Hi|[Hge Hi]].
      * destruct (Forall2_lookup_r _ _ _ _ _ E3 Hi) as (p & Hpi & He & Hl).
        apply lookup_lt_Some in Hpi as Hlt.
        destruct (pos_ok (S i) p) as (_ & Ht & Hc & _); [by rewrite Es|].
        rewrite keep_truthy_truthy in Hl by done.
        apply check_hop_transit; [lia|lia|done|by rewrite Hl|by rewrite Hl].
      * apply list_lookup_singleton_Some in Hi as [Hi <-]. apply check_hop_exit; [lia| |done|done].
        right. rewrite El in Hi. lia.
Qed.

Lemma fold_hops_count hops m :
  foldPositionsIntoHops ps ds = Some (Ok (hops, m)) →
  validateCascadeHops hops m = hop_count_ok hops.
Proof.
  intros Hf. destruct (fold_hops_facts _ _ Hf) as (H2 & Hp & Hn & Hc).
  apply validate_hops_count; [done..| |done]. rewrite Hn.
  by rewrite (NoDup_nodes_perm _ _ _ (by_position_perm ps)).
Qed.
End Fold_valid.

(** A valid topology that folds gives hops holding its nodes in order,
    and the hop rules accept them as they are unless there are more than five. *)
Theorem fold_of_valid ps ds v hops m :
  validateCascadeTopology ps ds = Ok v → foldPositionsIntoHops ps ds = Some (Ok (hops, m)) →
  h_nodeId <$> hops = (v_positions v ≫= p_nodeIds) ++ (ds ≫= rd_nodeIds) ∧
  validateCascadeHops hops m = hop_count_ok hops.
Proof.
  rewrite validate_ok_iff. intros (_ & _ & _ & Hpos & _ & _ & (_ & _ & Hnd) & _ & ->) Hf. split.
  - by destruct (fold_hops_facts ps ds Hpos Hnd _ _ Hf) as (_ & _ & ? & _).
  - by eapply fold_hops_count.
Qed.

(** A valid topology of one entry and five or more single-node directions
    is refused by the save, because its fold has more hops than the old model
    holds; the same topology is saved when it does not fold. *)
Theorem wide_balancer_refused ps ds v hops m :
  validateCascadeTopology ps ds = Ok v →
  (foldPositionsIntoHops ps ds = Some (Ok (hops, m)) → (5 < length hops)%nat →
     save_topology ps ds = Some (Throw (TooManyHops (Z.of_nat (length hops))))) ∧
  (∀ e, foldPositionsIntoHops ps ds = Some (Throw e) → save_topology ps ds = Some (Ok ([], v))).
Proof.
  intros Hv. split.
  - intros Hf Hl. unfold save_topology, tryFoldPositions. rewrite Hf.
    apply validate_ok_iff in Hv as (_ & _ & _ & Hpos & _ & _ & (_ & _ & Hnd) & _).
    rewrite (fold_hops_count ps ds Hpos Hnd hops m Hf). unfold hop_count_ok, MAX_CASCADE_HOPS.
    rewrite (proj2 (Z.leb_gt (Z.of_nat (length hops)) 5)) by lia. done.
  - intros e Hf. unfold save_topology, tryFoldPositions. rewrite Hf. simpl. by rewrite Hv.
Qed.

(** ** Concrete cascades *)
Definition entry_at (nodes : list string) : CascadePositionInput :=
  mkPosition nodes 0 (Some "xray") (Some "vless") None.
Definition way_out (n : string) : ResolvedDirection :=
  mkResolvedDirection None None [n] None None None None.
Definition five_ways : list ResolvedDirection := way_out <$> ["a"; "b"; "c"; "d"; "e"].

Lemma validateCascadeTopology_order_witness :
  validateCascadeTopology [mkPosition ["t"] 1 None (Some "vless") None; entry_at ["n"]] five_ways
  = validateCascadeTopology [entry_at ["n"]; mkPosition ["t"] 1 None (Some "vless") None] five_ways.
Proof. apply validateCascadeTopology_order. apply Permutation_swap. Defined.

Lemma linkCount_pairs_witness : ∃ v,
  validateCascadeTopology [entry_at ["n"]] five_ways = Ok v ∧ v_linkCount v = 5.
Proof.
  eexists. split; [vm_compute; reflexivity|].
  match goal with |- v_linkCount ?v = _ =>
    etransitivity; [exact (proj1 (linkCount_pairs [entry_at ["n"]] five_ways v eq_refl))|] end.
  vm_compute. reflexivity.
Defined.

Lemma fold_of_valid_witness : ∃ hops,
  foldPositionsIntoHops [entry_at ["n"]] (way_out <$> ["a"; "b"]) = Some (Ok (hops, balancer)) ∧
  validateCascadeHops hops balancer = Ok hops.
Proof.
  eexists. split; [vm_compute; reflexivity|].
  match goal with |- validateCascadeHops ?h _ = _ =>
    etransitivity; [exact (proj2 (fold_of_valid [entry_at ["n"]] (way_out <$> ["a"; "b"]) _ h balancer eq_refl eq_refl))|] end.
  vm_compute. reflexivity.
Defined.

Lemma wide_balancer_refused_witness :
  save_topology [entry_at ["n"]] five_ways = Some (Throw (TooManyHops 6)) ∧
  ∃ v, save_topology [entry_at ["n"; "n2"]] five_ways = Some (Ok ([], v)).
Proof.
  split.
  - refine (proj1 (wide_balancer_refused [entry_at ["n"]] five_ways _ _ balancer eq_refl) eq_refl _).
    vm_compute. lia.
  - eexists. refine (proj2 (wide_balancer_refused [entry_at ["n"; "n2"]] five_ways _ [] balancer eq_refl) _ eq_refl).
Defined.
