(* ===== verification/TopologyLinks.v ===== *)
(** The legs of a cascade
    (apps/panel-backend/src/modules/cascades/cascade.config.ts): which node
    dials which for which direction, with what credentials, kept across saves;
    and which ports a topology will listen on, asked before it is saved.

    [existing] is [[]] where the source passes no map. *)

From S2P Require Import Prelude Js Json Directions CascadeValidation LinkCreds.

Local Open Scope string_scope.
Local Open Scope list_scope.
Local Open Scope Z_scope.

(** ** The plan *)

(** One entry of [plan]. *)
Record Leg := mkLeg {
  l_from : string;
  l_to : string;
  l_tag : Z;
  l_protocol : string;
  l_step : nat;
  l_congestion : option string
}.

#[global] Instance Leg_eq_dec : EqDecision Leg.
Proof. solve_decision. Defined.

(** A direction with the tag its row has. *)
Notation TaggedDirection := (prod Z ResolvedDirection).

(** [o.linkParams?.congestion]. *)
Definition congestion_of (p : option LegParams) : option string := p ≫= congestion.

Definition step_legs (step : nat) (a b : CascadePositionInput) (proto : string)
    (directions : list TaggedDirection) : list Leg :=
  p_nodeIds a ≫= λ from, p_nodeIds b ≫= λ to,
    (λ d : TaggedDirection, mkLeg from to d.1 proto step (congestion_of (p_linkParams a))) <$> directions.

Fixpoint plan_steps (step : nat) (positions : list CascadePositionInput)
    (directions : list TaggedDirection) : result link_error (list Leg) :=
  match positions with
  | a :: (b :: _) as rest =>
      proto ← normalizeLinkProtocol (p_linkProtocol a);
      more ← plan_steps (S step) rest directions;
      Ok (step_legs step a b proto directions ++ more)
  | _ => Ok []
  end.

Definition last_legs (step : nat) (last : CascadePositionInput) (fallback from : string)
    (d : TaggedDirection) : result link_error (list Leg) :=
  proto ← (if truthy (rd_linkProtocol d.2) then normalizeLinkProtocol (rd_linkProtocol d.2)
           else Ok fallback);
  let cong := match congestion_of (rd_linkParams d.2) with
              | Some c => Some c
              | None => congestion_of (p_linkParams last)
              end in
  Ok ((λ to, mkLeg from to d.1 proto step cong) <$> rd_nodeIds d.2).

Definition plan_last (positions : list CascadePositionInput) (directions : list TaggedDirection)
    : result link_error (list Leg) :=
  match last positions with
  | None => Ok []
  | Some p =>
      let step := (length positions - 1)%nat in
      fallback ← normalizeLinkProtocol (p_linkProtocol p);
      legs ← map_res (λ from, @mjoin list _ Leg <$> map_res (last_legs step p fallback from) directions) (p_nodeIds p);
      Ok (@mjoin list _ Leg legs)
  end.

Definition plan (positions : list CascadePositionInput) (directions : list TaggedDirection)
    : result link_error (list Leg) :=
  steps ← plan_steps 0 positions directions;
  lasts ← plan_last positions directions;
  Ok (steps ++ lasts).

(** ** Credentials for the plan *)
Definition topologyLinkKey (from to : string) (tag : Z) : string :=
  from +:+ "|" +:+ to +:+ "|" +:+ pretty tag.

Definition leg_key (p : Leg) : string := topologyLinkKey (l_from p) (l_to p) (l_tag p).

Definition leg_port (p : Leg) : Z := LINK_PORT_BASE + Z.of_nat (l_step p).

Record TopologyLink := mkLink {
  fromNodeId : string;
  toNodeId : string;
  directionTag : Z;
  link_protocol : string;
  cred : LinkCred
}.

#[global] Instance TopologyLink_eq_dec : EqDecision TopologyLink.
Proof. solve_decision. Defined.

Section Generate.
Context {R : Type} `{Random R} (existing : list (string * LinkCred)).

Definition keptFor (p : Leg) : option LinkCred :=
  reuseLinkCred (jm_get (leg_key p) existing) (l_protocol p) (leg_port p) (l_congestion p).

(** [stored] of the key loop: the block of the first kept leg of the node. *)
Definition stored_block (legs : list Leg) (to : string) : option Reality :=
  head (omap (λ q, keptFor q ≫= reality_of)
          (filter (λ q, l_to q = to ∧ l_protocol q = "vless") legs)).

Definition key_step (legs : list Leg) (p : Leg) (keyByNode : list (string * Reality))
    : gen R (list (string * Reality)) :=
  if decide (l_protocol p ≠ "vless" ∨ l_to p ∈ jm_keys keyByNode) then mret keyByNode
  else
    key ← match stored_block legs (l_to p) with
          | Some r => mret (linkCamouflage r)
          | None => newLinkReality
          end;
    mret (jm_set (l_to p) key keyByNode).

Fixpoint key_loop (legs todo : list Leg) (keyByNode : list (string * Reality))
    : gen R (list (string * Reality)) :=
  match todo with
  | [] => mret keyByNode
  | p :: todo => m ← key_step legs p keyByNode; key_loop legs todo m
  end.

(** What the log says of one leg: its keys were replaced, or its target. *)
Inductive change := Unchanged | Rotated | Retargeted.

Definition change_of (kept : option LinkCred) (r : option Reality) (nodeKey : Reality) : change :=
  if bool_decide (is_Some kept) then
    if decide (privateKey <$> r ≠ Some (privateKey nodeKey)) then Rotated
    else if decide (serverName <$> r ≠ Some (serverName nodeKey)) then Retargeted
    else Unchanged
  else Unchanged.

(** One turn of the last loop.  Every vless leg of the plan has a key. *)
Definition link_step (keyByNode : list (string * Reality)) (p : Leg) : gen R (TopologyLink * change) :=
  let kept := keptFor p in
  c ← match kept with
      | Some c => mret c
      | None => newLinkCred (l_protocol p) (leg_port p) (l_congestion p)
      end;
  match c with
  | Vless q u r =>
      match jm_get (l_to p) keyByNode with
      | Some k =>
          sid ← match r with Some r => mret (shortId r) | None => k' ← newLinkReality; mret (shortId k') end;
          mret (mkLink (l_from p) (l_to p) (l_tag p) (l_protocol p)
                  (Vless q u (Some (mkReality (privateKey k) (publicKey k) sid (serverName k) (dest k)))),
                change_of kept r k)
      | None => of_result (Throw (NoCredentials (l_to p)))
      end
  | _ => mret (mkLink (l_from p) (l_to p) (l_tag p) (l_protocol p) c, Unchanged)
  end.

Fixpoint link_loop (keyByNode : list (string * Reality)) (todo : list Leg)
    : gen R (list (TopologyLink * change)) :=
  match todo with
  | [] => mret []
  | p :: todo => l ← link_step keyByNode p; ls ← link_loop keyByNode todo; mret (l :: ls)
  end.

(** The links, with what is logged of each. *)
Definition generateTopologyLinks (positions : list CascadePositionInput) (directions : list TaggedDirection)
    : gen R (list (TopologyLink * change)) :=
  legs ← of_result (plan positions directions);
  keyByNode ← key_loop legs legs [];
  link_loop keyByNode legs.
End Generate.

(** ** Asked before a save *)
Inductive Transport := tcp | udp.

#[global] Instance Transport_eq_dec : EqDecision Transport.
Proof. solve_decision. Defined.

Definition LINK_CELL_TRANSPORTS (cell : string) : list Transport :=
  if decide (cell = "vless") then [tcp]
  else if decide (cell = "shadowsocks") then [tcp; udp]
  else if decide (cell = "hy2") then [udp]
  else if decide (cell = "tuic") then [udp]
  else [].

(** One leg of [walkReceivingLegs]: the node that listens, the step, the cell. *)
Definition walk_leg (cell : option string) (step : nat) (to : string) : list (string * nat * string) :=
  match cell with Some c => [(to, step, c)] | None => [] end.

Fixpoint walk_steps (step : nat) (ordered : list CascadePositionInput) : list (string * nat * string) :=
  match ordered with
  | a :: (b :: _) as rest =>
      (p_nodeIds b ≫= walk_leg (linkCellFor (p_linkProtocol a)) step) ++ walk_steps (S step) rest
  | _ => []
  end.

(** Every position of a payload carries its number, so the walk is over the
    sorted positions. *)
Definition walkReceivingLegs (positions : list CascadePositionInput) (directions : list ResolvedDirection)
    : list (string * nat * string) :=
  let ordered := by_position positions in
  walk_steps 0 ordered ++
  match last ordered with
  | None => []
  | Some p =>
      let fallback := linkCellFor (p_linkProtocol p) in
      directions ≫= λ d,
        rd_nodeIds d ≫= walk_leg (if truthy (rd_linkProtocol d) then linkCellFor (rd_linkProtocol d) else fallback)
                          (length ordered - 1)%nat
  end.

Definition topologyReceivingPorts (positions : list CascadePositionInput) (directions : list ResolvedDirection)
    : list (string * Z * Transport) :=
  js_uniq (walkReceivingLegs positions directions ≫= λ '(node, step, cell),
             (λ t, (node, LINK_PORT_BASE + Z.of_nat step, t)) <$> LINK_CELL_TRANSPORTS cell).

Definition topologyReceivingCells (positions : list CascadePositionInput) (directions : list ResolvedDirection)
    : list (string * string) :=
  js_uniq ((λ '(node, _, cell), (node, cell)) <$> walkReceivingLegs positions directions).

(** ** The plan, when every cell can be read *)
Definition cells_ok (ps : list CascadePositionInput) (ds : list TaggedDirection) : Prop :=
  Forall (λ p, is_Some (linkCellFor (p_linkProtocol p))) ps ∧
  Forall (λ d : TaggedDirection, truthy (rd_linkProtocol d.2) = true → is_Some (linkCellFor (rd_linkProtocol d.2))) ds.

Definition position_cell (p : CascadePositionInput) : string := default "" (linkCellFor (p_linkProtocol p)).

Definition direction_cell (p : CascadePositionInput) (d : ResolvedDirection) : string :=
  if truthy (rd_linkProtocol d) then default "" (linkCellFor (rd_linkProtocol d)) else position_cell p.

Fixpoint steps_of (step : nat) (ps : list CascadePositionInput) (ds : list TaggedDirection) : list Leg :=
  match ps with
  | a :: (b :: _) as rest => step_legs step a b (position_cell a) ds ++ steps_of (S step) rest ds
  | _ => []
  end.

Definition last_congestion (p : CascadePositionInput) (d : ResolvedDirection) : option string :=
  match congestion_of (rd_linkParams d) with
  | Some c => Some c
  | None => congestion_of (p_linkParams p)
  end.

Definition lasts_of (ps : list CascadePositionInput) (ds : list TaggedDirection) : list Leg :=
  match last ps with
  | None => []
  | Some p => p_nodeIds p ≫= λ from, ds ≫= λ d,
      (λ to, mkLeg from to d.1 (direction_cell p d.2) (length ps - 1) (last_congestion p d.2)) <$> rd_nodeIds d.2
  end.

Definition legs_of (ps : list CascadePositionInput) (ds : list TaggedDirection) : list Leg :=
  steps_of 0 ps ds ++ lasts_of ps ds.

Lemma normalize_ok p : is_Some (linkCellFor p) → normalizeLinkProtocol p = Ok (default "" (linkCellFor p)).
Proof. unfold normalizeLinkProtocol. by intros [c ->]. Qed.

Lemma plan_steps_eq step ps ds : Forall (λ p, is_Some (linkCellFor (p_linkProtocol p))) ps →
  plan_steps step ps ds = Ok (steps_of step ps ds).
Proof.
  revert step. induction ps as [|a [|b ps] IH]; intros step H; [done|done|].
  apply Forall_cons in H as [Ha H].
  change (plan_steps step (a :: b :: ps) ds) with
    (proto ← normalizeLinkProtocol (p_linkProtocol a);
     more ← plan_steps (S step) (b :: ps) ds;
     Ok (step_legs step a b proto ds ++ more) : result link_error (list Leg)).
  rewrite normalize_ok by done. unfold mbind, result_bind. by rewrite IH.
Qed.

Definition leg_to (ps : list CascadePositionInput) (p : CascadePositionInput) (from : string)
    (d : TaggedDirection) (to : string) : Leg :=
  mkLeg from to d.1 (direction_cell p d.2) (length ps - 1) (last_congestion p d.2).

Lemma last_legs_eq ps p from d : is_Some (linkCellFor (p_linkProtocol p)) →
  (truthy (rd_linkProtocol d.2) = true → is_Some (linkCellFor (rd_linkProtocol d.2))) →
  last_legs (length ps - 1) p (position_cell p) from d = Ok (leg_to ps p from d <$> rd_nodeIds d.2).
Proof.
  intros Hp Hd. unfold last_legs, leg_to, direction_cell.
  destruct (truthy (rd_linkProtocol d.2)); [|done]. rewrite normalize_ok by auto. done.
Qed.

Lemma plan_last_eq ps ds : cells_ok ps ds → plan_last ps ds = Ok (lasts_of ps ds).
Proof.
  intros [Hp Hd]. unfold plan_last, lasts_of. destruct (last ps) as [p|] eqn:El; [|done].
  assert (is_Some (linkCellFor (p_linkProtocol p))) as Hcell.
  { rewrite Forall_forall in Hp. by apply Hp, last_Some_elem_of. }
  rewrite normalize_ok, ok_bind by done.
  rewrite (map_res_pure _ (λ from, ds ≫= λ d, leg_to ps p from d <$> rd_nodeIds d.2)).
  - rewrite ok_bind. by rewrite join_map.
  - intros from _. rewrite (map_res_pure _ (λ d : TaggedDirection, leg_to ps p from d <$> rd_nodeIds d.2)).
    + change (@Ok link_error (list Leg) (mjoin ((λ d : TaggedDirection, leg_to ps p from d <$> rd_nodeIds d.2) <$> ds))
        = Ok (ds ≫= λ d, leg_to ps p from d <$> rd_nodeIds d.2)). by rewrite join_map.
    + intros d Hin. apply last_legs_eq; [done|]. rewrite Forall_forall in Hd. by apply Hd.
Qed.

Lemma plan_eq ps ds : cells_ok ps ds → plan ps ds = Ok (legs_of ps ds).
Proof.
  intros Hc. unfold plan. rewrite plan_steps_eq by apply Hc. rewrite ok_bind.
  rewrite plan_last_eq by done. done.
Qed.

(** ** Which legs there are *)

(** A leg between two steps, or from the last step to a direction's pool. *)
Definition inner_leg (ps : list CascadePositionInput) (ds : list TaggedDirection) (l : Leg) : Prop :=
  ∃ a b d, ps !! l_step l = Some a ∧ ps !! S (l_step l) = Some b ∧ d ∈ ds ∧
    l_from l ∈ p_nodeIds a ∧ l_to l ∈ p_nodeIds b ∧
    l = mkLeg (l_from l) (l_to l) d.1 (position_cell a) (l_step l) (congestion_of (p_linkParams a)).

Definition final_leg (ps : list CascadePositionInput) (ds : list TaggedDirection) (l : Leg) : Prop :=
  ∃ p d, last ps = Some p ∧ d ∈ ds ∧ l_from l ∈ p_nodeIds p ∧ l_to l ∈ rd_nodeIds d.2 ∧
    l = mkLeg (l_from l) (l_to l) d.1 (direction_cell p d.2) (length ps - 1) (last_congestion p d.2).

Lemma elem_of_steps step ps ds l : l ∈ steps_of step ps ds ↔
  ∃ j a b d, ps !! j = Some a ∧ ps !! S j = Some b ∧ d ∈ ds ∧
    l_from l ∈ p_nodeIds a ∧ l_to l ∈ p_nodeIds b ∧
    l = mkLeg (l_from l) (l_to l) d.1 (position_cell a) (step + j) (congestion_of (p_linkParams a)).
Proof.
  revert step. induction ps as [|a [|b ps] IH]; intros step.
  - split; [set_solver|]. intros (j & ? & ? & ? & ? & _). done.
  - split; [set_solver|]. intros (j & ? & ? & ? & _ & ? & _). done.
  - change (steps_of step (a :: b :: ps) ds) with
      (step_legs step a b (position_cell a) ds ++ steps_of (S step) (b :: ps) ds).
    rewrite elem_of_app, IH. unfold step_legs.
    rewrite list_elem_of_bind. setoid_rewrite list_elem_of_bind. setoid_rewrite list_elem_of_fmap. split.
    + intros [(from & (to & (d & -> & Hd) & Hto) & Hfrom)|(j & a' & b' & d & Ha & Hb & Hd & Hf & Ht & E)].
      * exists 0%nat, a, b, d. rewrite Nat.add_0_r. done.
      * exists (S j), a', b', d. replace (step + S j)%nat with (S step + j)%nat by lia. done.
    + intros ([|j] & a' & b' & d & Ha & Hb & Hd & Hf & Ht & E).
      * left. simpl in Ha, Hb. simplify_eq. rewrite Nat.add_0_r in E. exists (l_from l).
        split; [|done]. exists (l_to l). split; [|done]. by exists d.
      * right. exists j, a', b', d. by replace (S step + j)%nat with (step + S j)%nat by lia.
Qed.

Lemma elem_of_legs ps ds l : l ∈ legs_of ps ds ↔ inner_leg ps ds l ∨ final_leg ps ds l.
Proof.
  unfold legs_of. rewrite elem_of_app, elem_of_steps. apply Morphisms_Prop.or_iff_morphism; unfold inner_leg, final_leg, lasts_of.
  - split.
    + intros (j & a & b & d & Ha & Hb & Hd & Hf & Ht & E). assert (l_step l = j) as <- by (by rewrite E).
      exists a, b, d. done.
    + intros (a & b & d & Ha & Hb & Hd & Hf & Ht & E). by exists (l_step l), a, b, d.
  - destruct (last ps) as [p|]; [|split; [set_solver|naive_solver]].
    rewrite list_elem_of_bind. setoid_rewrite list_elem_of_bind. setoid_rewrite list_elem_of_fmap. split.
    + intros (from & (d & (to & -> & Hto) & Hd) & Hf). by exists p, d.
    + intros (p' & d & [= <-] & Hd & Hf & Ht & E). exists (l_from l). split; [|done].
      exists d. split; [|done]. by exists (l_to l).
Qed.

(** ** One leg per pair and direction *)
Definition distinct_topology (ps : list CascadePositionInput) (ds : list TaggedDirection) : Prop :=
  NoDup ((ps ≫= p_nodeIds) ++ (ds ≫= λ d, rd_nodeIds d.2)) ∧ NoDup ds.*1.

(** Who dials whom for which direction. *)
Definition leg_ends (l : Leg) : string * string * Z := (l_from l, l_to l, l_tag l).

Section Distinct.
Context (ps : list CascadePositionInput) (ds : list TaggedDirection).
Hypothesis distinct : distinct_topology ps ds.

Lemma step_unique i j a b n :
  ps !! i = Some a → ps !! j = Some b → n ∈ p_nodeIds a → n ∈ p_nodeIds b → i = j.
Proof. apply bind_index. by destruct (proj1 (NoDup_app _ _) (proj1 distinct)). Qed.

Lemma direction_unique (d d' : TaggedDirection) : d ∈ ds → d' ∈ ds → d.1 = d'.1 → d = d'.
Proof. apply (NoDup_fmap_elem fst), distinct. Qed.

Lemma last_index p : last ps = Some p → ps !! (length ps - 1)%nat = Some p.
Proof. rewrite last_lookup. by replace (pred (length ps)) with (length ps - 1)%nat by lia. Qed.

Lemma leg_unique l l' : l ∈ legs_of ps ds → l' ∈ legs_of ps ds → leg_ends l = leg_ends l' → l = l'.
Proof.
  rewrite !elem_of_legs. unfold leg_ends. intros Hl Hl' [= Ef Et Eg].
  destruct Hl as [(a & b & d & Ha & Hb & Hd & Hf & Ht & E)|(p & d & Hp & Hd & Hf & Ht & E)],
    Hl' as [(a' & b' & d' & Ha' & Hb' & Hd' & Hf' & Ht' & E')|(p' & d' & Hp' & Hd' & Hf' & Ht' & E')];
    rewrite Ef in Hf; rewrite E, E' in Eg; simpl in Eg; pose proof (direction_unique d d' Hd Hd' Eg) as <-.
  - pose proof (step_unique _ _ _ _ _ Ha Ha' Hf Hf') as Es. rewrite Es in *. simplify_eq. congruence.
  - exfalso. apply last_index in Hp'. pose proof (step_unique _ _ _ _ _ Ha Hp' Hf Hf') as Es.
    apply lookup_lt_Some in Hb. lia.
  - exfalso. apply last_index in Hp. pose proof (step_unique _ _ _ _ _ Hp Ha' Hf Hf') as Es.
    apply lookup_lt_Some in Hb'. lia.
  - simplify_eq. congruence.
Qed.

Lemma directions_NoDup : NoDup ds.
Proof. eapply NoDup_fmap_1, distinct. Qed.

Lemma position_NoDup p : p ∈ ps → NoDup (p_nodeIds p).
Proof. apply NoDup_bind_elem. by destruct (proj1 (NoDup_app _ _) (proj1 distinct)). Qed.

Lemma direction_NoDup d : d ∈ ds → NoDup (rd_nodeIds d.2).
Proof. apply (NoDup_bind_elem (λ d : TaggedDirection, rd_nodeIds d.2)). by destruct (proj1 (NoDup_app _ _) (proj1 distinct)) as (_ & _ & ?). Qed.

Lemma step_legs_NoDup step a b proto : a ∈ ps → b ∈ ps → NoDup (step_legs step a b proto ds).
Proof.
  intros Ha Hb. unfold step_legs. apply NoDup_bind; [| |by apply position_NoDup].
  - intros x y l _ _. rewrite !list_elem_of_bind. setoid_rewrite list_elem_of_fmap. naive_solver.
  - intros from _. apply NoDup_bind; [| |by apply position_NoDup].
    + intros x y l _ _. rewrite !list_elem_of_fmap. naive_solver.
    + intros to _. apply NoDup_fmap_2_strong; [|apply directions_NoDup].
      intros d d' Hd Hd' [= E]. by apply direction_unique.
Qed.

Lemma steps_of_NoDup step l : (∀ p, p ∈ l → p ∈ ps) → NoDup (steps_of step l ds).
Proof.
  revert step. induction l as [|a [|b l] IH]; intros step Hl; [constructor|constructor|].
  change (NoDup (step_legs step a b (position_cell a) ds ++ steps_of (S step) (b :: l) ds)).
  apply NoDup_app. split; [apply step_legs_NoDup; set_solver|]. split; [|apply IH; set_solver].
  intros x Hx Hx'. apply elem_of_steps in Hx' as (j & ? & ? & ? & _ & _ & _ & _ & _ & E).
  unfold step_legs in Hx. apply list_elem_of_bind in Hx as (? & Hx & _).
  apply list_elem_of_bind in Hx as (? & Hx & _). apply list_elem_of_fmap in Hx as (? & E' & _).
  rewrite E in E'. injection E'. lia.
Qed.

Lemma lasts_of_NoDup : NoDup (lasts_of ps ds).
Proof.
  unfold lasts_of. destruct (last ps) as [p|] eqn:El; [|constructor].
  apply NoDup_bind; [| |by apply position_NoDup, last_Some_elem_of].
  - intros x y l _ _. rewrite !list_elem_of_bind. setoid_rewrite list_elem_of_fmap. naive_solver.
  - intros from _. apply NoDup_bind; [| |apply directions_NoDup].
    + intros d d' l Hd Hd'. rewrite !list_elem_of_fmap. intros (? & -> & _) (? & [= _ E] & _).
      by apply direction_unique.
    + intros d Hd. apply NoDup_fmap_2; [|by apply direction_NoDup]. by intros x y [= ->].
Qed.

Lemma legs_ends_NoDup : NoDup (leg_ends <$> legs_of ps ds).
Proof.
  apply NoDup_fmap_2_strong; [apply leg_unique|]. unfold legs_of. apply NoDup_app.
  split; [by apply steps_of_NoDup|]. split; [|apply lasts_of_NoDup].
  intros l (j & a & b & d & Ha & Hb & _ & _ & _ & E)%elem_of_steps Hl. unfold lasts_of in Hl.
  destruct (last ps) as [p|]; [|set_solver].
  apply list_elem_of_bind in Hl as (? & Hl & _). apply list_elem_of_bind in Hl as (? & Hl & _).
  apply list_elem_of_fmap in Hl as (? & E' & _). rewrite E in E'. injection E' as _ _ Es.
  apply lookup_lt_Some in Hb. lia.
Qed.
End Distinct.

(** ** What generation gives *)

(** The block points at today's target. *)
Definition on_target (k : Reality) : Prop :=
  serverName k = LINK_CAMOUFLAGE_SNI ∧ dest k = (LINK_CAMOUFLAGE_SNI +:+ ":443")%string.

(** [k] with another short id. *)
Definition with_shortId (k : Reality) (sid : string) : Reality :=
  mkReality (privateKey k) (publicKey k) sid (serverName k) (dest k).

(** [c'] keeps the secrets of the stored [c]; only a missing or an outdated
    REALITY block may change. *)
Definition keeps_secrets (c c' : LinkCred) : Prop :=
  match c, c' with
  | Vless p u r, Vless p' u' r' =>
      p' = p ∧ u' = u ∧ ∀ k, r = Some k → shortId <$> r' = Some (shortId k)
  | _, _ => c' = c
  end.

(** A kept leg's block came with the leg as it was stored. *)
Lemma kept_block existing p k : keptFor existing p ≫= reality_of = Some k →
  ∃ c, jm_get (leg_key p) existing = Some c ∧ reality_of c = Some k.
Proof.
  unfold keptFor, reuseLinkCred. destruct (jm_get _ _) as [c|] eqn:E; [|done]. destruct (_ || _); [done|].
  destruct c; try done; [intros [= <-]; eauto|]. by destruct (_ && _).
Qed.

(** The block of one of the node's kept legs. *)
Lemma stored_block_source existing legs to k : stored_block existing legs to = Some k →
  ∃ p c, p ∈ legs ∧ l_to p = to ∧ jm_get (leg_key p) existing = Some c ∧ reality_of c = Some k.
Proof.
  unfold stored_block. destruct (omap _ _) as [|k' ks] eqn:E; [done|]. intros [= ->].
  assert (k ∈ k :: ks) as Hk by set_solver. rewrite <-E in Hk.
  apply list_elem_of_omap in Hk as (p & [[Ht _] Hp]%list_elem_of_filter & Hk).
  apply kept_block in Hk as (c & ? & ?). by exists p, c.
Qed.

Lemma stored_block_is existing legs p k : p ∈ legs → l_protocol p = "vless" → keptFor existing p ≫= reality_of = Some k →
  is_Some (stored_block existing legs (l_to p)).
Proof.
  intros Hp Hv Hk. unfold stored_block. destruct (omap _ _) as [|k' ks] eqn:E; [|by exists k'].
  exfalso. apply (not_elem_of_nil k). rewrite <-E. apply list_elem_of_omap. exists p. split; [|done].
  by apply list_elem_of_filter.
Qed.

Section GenerateFacts.
Context {R : Type} `{RandomOk R} (existing : list (string * LinkCred)) (legs : list Leg).

(** [keyByNode]: on target, and the pair already stored against the node. *)
Definition key_ok (m : list (string * Reality)) : Prop :=
  ∀ to k, jm_get to m = Some k → on_target k ∧
    ∀ s, stored_block existing legs to = Some s → k = linkCamouflage s.

Lemma newLinkReality_target r : ∃ k r', newLinkReality r = Ok (k, r') ∧ on_target k.
Proof.
  destruct (newLinkReality_ok r) as (k & r' & E). exists k, r'. split; [done|].
  revert E. unfold newLinkReality, mbind, gen_bind.
  destruct (generateRealityKeyPair r) as [[? ?]|]; [|done]. destruct (randomBytes _ _ _) as [[? ?]|]; [|done].
  by intros [= <- _].
Qed.

Lemma key_loop_ok todo : ∀ m r, key_ok m → ∃ m' r',
  key_loop existing legs todo m r = Ok (m', r') ∧ key_ok m' ∧ extends m m' ∧
  (∀ p, p ∈ todo → l_protocol p = "vless" → is_Some (jm_get (l_to p) m')) ∧
  ((∀ p, p ∈ todo → l_protocol p = "vless" → is_Some (stored_block existing legs (l_to p))) → r' = r).
Proof.
  induction todo as [|p todo IH]; intros m r Hm.
  { exists m, r. split; [done|]. split; [done|]. split; [by intros ? ?|]. split; [set_solver|done]. }
  assert (∃ m1 r1, key_step existing legs p m r = Ok (m1, r1) ∧ key_ok m1 ∧ extends m m1 ∧
    (l_protocol p = "vless" → is_Some (jm_get (l_to p) m1)) ∧
    ((l_protocol p = "vless" → is_Some (stored_block existing legs (l_to p))) → r1 = r))
    as (m1 & r1 & E1 & Hm1 & He1 & Hp1 & Hr1).
  { unfold key_step. case_decide as Hd.
    - exists m, r. split; [done|]. split; [done|]. split; [by intros ? ?|]. split; [|done].
      intros Hv. destruct Hd as [?|Hin]; [done|]. by apply jm_get_is_Some.
    - apply Decidable.not_or in Hd as [Hv Hnk]. apply dec_stable in Hv.
      assert (∃ k r1, (match stored_block existing legs (l_to p) with
        | Some r => mret (linkCamouflage r) | None => newLinkReality end : gen R Reality) r = Ok (k, r1) ∧
        on_target k ∧ (∀ s, stored_block existing legs (l_to p) = Some s → k = linkCamouflage s ∧ r1 = r))
        as (k & r1 & E & Ht & Hs).
      { destruct (stored_block _ _ _) as [s|] eqn:Es.
        - exists (linkCamouflage s), r. split; [done|]. split; [done|]. by intros ? [= <-].
        - destruct (newLinkReality_target r) as (k & r1 & E & Ht). by exists k, r1. }
      exists (jm_set (l_to p) k m), r1. unfold mbind, gen_bind. rewrite E. split; [done|]. split.
      { intros to k'. rewrite jm_get_set. case_decide as Hto; [|apply Hm]. subst to. intros [= <-].
        split; [done|]. intros s Hs'. by apply Hs. }
      split; [|split].
      + intros to k' Hk'. rewrite jm_get_set. case_decide as Hto; [|done]. subst to.
        exfalso. apply Hnk. apply jm_get_is_Some. by eexists.
      + intros _. rewrite jm_get_set_eq. by eexists.
      + intros Hst. destruct (Hst Hv) as [s Es]. by apply (Hs s). }
  destruct (IH m1 r1 Hm1) as (m' & r' & E & Hm' & He & Hp & Hr).
  exists m', r'. cbn [key_loop]. unfold mbind, gen_bind. rewrite E1. split; [done|]. split; [done|]. split.
  { intros to k Hk. by apply He, He1. } split.
  - intros q [->|Hq]%elem_of_cons Hv; [|by apply Hp]. destruct (Hp1 Hv) as [k Hk]. exists k. by apply He.
  - intros Hst. rewrite Hr, Hr1; [done|..]; intros; apply Hst; set_solver.
Qed.

(** The link a leg is given once the nodes' pairs are [m]. *)
Record made (m : list (string * Reality)) (p : Leg) (l : TopologyLink) : Prop := {
  made_ends : (fromNodeId l, toNodeId l, directionTag l) = leg_ends p;
  made_protocol : link_protocol l = l_protocol p;
  made_cell : protocol (cred l) = l_protocol p;
  made_port : port (cred l) = leg_port p;
  made_whole : whole (cred l) = true;
  made_vless : l_protocol p = "vless" → ∃ k u sid, jm_get (l_to p) m = Some k ∧
    cred l = Vless (leg_port p) u (Some (with_shortId k sid));
  made_kept c : keptFor existing p = Some c → keeps_secrets c (cred l);
  made_knob q u w k t : cred l = Tuic q u w k t → truthy (l_congestion p) = true → l_congestion p = Some k
}.

Hypothesis stored_whole : ∀ k c, jm_get k existing = Some c → whole c = true.
Hypothesis plan_typed : Forall (λ p : Leg, l_protocol p ∈ LINK_CELLS ∧
  ∀ k, l_congestion p = Some k → k ∈ LINK_CONGESTIONS) legs.

Lemma kept_facts p c : p ∈ legs → keptFor existing p = Some c →
  protocol c = l_protocol p ∧ port c = leg_port p ∧ whole c = true ∧
  (∀ q u w k t, c = Tuic q u w k t → truthy (l_congestion p) = true → l_congestion p = Some k).
Proof.
  intros Hp. rewrite Forall_forall in plan_typed. destruct (plan_typed p Hp) as [_ Hk].
  unfold keptFor, reuseLinkCred. destruct (jm_get _ _) as [c0|] eqn:Ec; [|done].
  pose proof (stored_whole _ _ Ec) as Hw. destruct (negb _ || negb _) eqn:Eg; [done|].
  apply orb_false_iff in Eg as [E1%negb_false_iff%bool_decide_eq_true E2%negb_false_iff%Z.eqb_eq].
  destruct c0 as [q u r|q k m|q a o t|q u w k t]; intros Hc; simplify_eq/=; try done.
  destruct (truthy (l_congestion p)) eqn:Et; simpl in Hc.
  - destruct (l_congestion p) as [k'|] eqn:Ek; [|done]. simpl in Hw. apply andb_true_iff in Hw as [Hw _].
    case_bool_decide as Hne.
    + simplify_eq/=. rewrite Hw, bool_decide_true by auto. naive_solver.
    + simplify_eq/=. rewrite Hw, bool_decide_true by auto. naive_solver.
  - simplify_eq/=. split; [done|]. split; [done|]. split; [done|]. naive_solver.
Qed.

Lemma link_step_ok m p r : p ∈ legs → (l_protocol p = "vless" → is_Some (jm_get (l_to p) m)) →
  ∃ l ch r', link_step existing m p r = Ok ((l, ch), r') ∧ made m p l.
Proof.
  intros Hp Hm. pose proof plan_typed as Ht. rewrite Forall_forall in Ht. destruct (Ht p Hp) as [Hcell Hk].
  unfold link_step.
  assert (∃ c r1, (match keptFor existing p with
      | Some c => mret c | None => newLinkCred (l_protocol p) (leg_port p) (l_congestion p) end : gen R LinkCred) r
      = Ok (c, r1) ∧ protocol c = l_protocol p ∧ port c = leg_port p ∧ whole c = true ∧
      (∀ c0, keptFor existing p = Some c0 → c0 = c) ∧
      (∀ q u w k t, c = Tuic q u w k t → truthy (l_congestion p) = true → l_congestion p = Some k))
    as (c & r1 & E & Hpr & Hpo & Hw & Hkept & Hkn).
  { destruct (keptFor existing p) as [c|] eqn:Ec.
    - exists c, r. destruct (kept_facts p c Hp Ec) as (? & ? & ? & ?). split_and!; try done. congruence.
    - destruct (newLinkCred_ok (l_protocol p) (leg_port p) (l_congestion p) r Hcell Hk)
        as (c & r1 & E & Hw & Hpr & Hpo & _ & Hkn).
      exists c, r1. split_and!; try done. intros q u w k t -> Htr. rewrite (Hkn q u w k t eq_refl).
      by destruct (l_congestion p). }
  unfold mbind at 1, gen_bind at 1. rewrite E.
  destruct c as [q u b|q k me|q a o t|q u w k t].
  2-4: do 3 eexists; split; [done|]; split; cbn [fromNodeId toNodeId directionTag link_protocol cred]; try done;
    [by rewrite <-Hpr|by intros c0 ->%Hkept].
  destruct (Hm (eq_sym Hpr)) as [key Ekey]. rewrite Ekey.
  assert (∃ sid r2, (match b with Some r => mret (shortId r)
    | None => k' ← newLinkReality; mret (shortId k') end : gen R string) r1 = Ok (sid, r2) ∧
    ∀ k, b = Some k → sid = shortId k) as (sid & r2 & E2 & Hsid).
  { destruct b as [k|]; [exists (shortId k), r1; naive_solver|].
    unfold mbind, gen_bind. destruct (newLinkReality_ok r1) as (k & r2 & ->). naive_solver. }
  unfold mbind at 1, gen_bind at 1. rewrite E2. do 3 eexists. split; [done|]. simpl in Hpr, Hpo.
  split; cbn [fromNodeId toNodeId directionTag link_protocol cred]; try done.
  - intros _. exists key, u, sid. split; [done|]. by rewrite <-Hpo.
  - intros c0 ->%Hkept. split; [done|]. split; [done|]. intros k Hb. simpl. by rewrite (Hsid k Hb).
Qed.

Lemma link_loop_ok m todo : (∀ p, p ∈ todo → p ∈ legs) →
  (∀ p, p ∈ todo → l_protocol p = "vless" → is_Some (jm_get (l_to p) m)) →
  ∀ r, ∃ ls r', link_loop existing m todo r = Ok (ls, r') ∧ Forall2 (made m) todo ls.*1.
Proof.
  induction todo as [|p todo IH]; intros Hl Hm r; [exists [], r; by split; [|constructor]|].
  destruct (link_step_ok m p r) as (l & ch & r1 & E & Hmade); [set_solver|apply Hm; set_solver|].
  destruct (IH ltac:(set_solver) ltac:(set_solver) r1) as (ls & r' & E' & Hls).
  exists ((l, ch) :: ls), r'. cbn [link_loop]. unfold mbind, gen_bind. rewrite E, E'.
  split; [done|]. by constructor.
Qed.
End GenerateFacts.

(** ** A validated topology *)

(** What the request's schema promises of cells and knobs. *)
Definition typed_topology (ps : list CascadePositionInput) (ds : list TaggedDirection) : Prop :=
  (∀ p k, p ∈ ps → congestion_of (p_linkParams p) = Some k → k ∈ LINK_CONGESTIONS) ∧
  ∀ d, d ∈ ds → (truthy (rd_linkProtocol d.2) = true → is_Some (linkCellFor (rd_linkProtocol d.2))) ∧
    ∀ k, congestion_of (rd_linkParams d.2) = Some k → k ∈ LINK_CONGESTIONS.

(** A stored map whose credentials came out of [parseLinkCred]. *)
Definition parsed (existing : list (string * LinkCred)) : Prop :=
  ∀ k c, jm_get k existing = Some c → whole c = true.

Lemma linkCellFor_known p c : linkCellFor p = Some c → c ∈ LINK_CELLS.
Proof.
  unfold linkCellFor. destruct p as [p|]; [|intros [= <-]; unfold LINK_CELLS; set_solver].
  repeat case_decide; [intros [= <-]; unfold LINK_CELLS; set_solver|by intros [= <-]|].
  unfold LEGACY_CELL_ALIASES. simpl. case_decide; [|done]. intros [= <-]. unfold LINK_CELLS. set_solver.
Qed.

Lemma default_cell p : is_Some (linkCellFor p) → default "" (linkCellFor p) ∈ LINK_CELLS.
Proof. intros [c E]. rewrite E. by apply (linkCellFor_known p). Qed.

Lemma legs_typed ps ds : cells_ok ps ds → typed_topology ps ds →
  Forall (λ p : Leg, l_protocol p ∈ LINK_CELLS ∧ ∀ k, l_congestion p = Some k → k ∈ LINK_CONGESTIONS) (legs_of ps ds).
Proof.
  intros [Hp Hd] [Tp Td]. rewrite Forall_forall in Hp. rewrite Forall_forall in Hd. apply Forall_forall. intros l Hl.
  apply elem_of_legs in Hl as [(a & b & d & Ha & _ & _ & _ & _ & E)|(p & d & Hlast & Hin & _ & _ & E)];
    rewrite E; cbn [l_protocol l_congestion].
  - apply list_elem_of_lookup_2 in Ha. split; [by apply default_cell, Hp|]. intros k. by apply Tp.
  - apply last_Some_elem_of in Hlast. destruct (Td d Hin) as [Hc Hk]. split.
    + unfold direction_cell. destruct (truthy _) eqn:Et; [by apply default_cell, Hc|by apply default_cell, Hp].
    + intros k. unfold last_congestion. destruct (congestion_of (rd_linkParams d.2)); [apply Hk|by apply Tp].
Qed.

Lemma validated_facts ps ds v :
  validateCascadeTopology ps ds.*2 = Ok v → NoDup ds.*1 → typed_topology (v_positions v) ds →
  cells_ok (v_positions v) ds ∧ distinct_topology (v_positions v) ds ∧ v_positions v = by_position ps.
Proof.
  intros Hv Hnd Ht. apply validate_ok_iff in Hv as (_ & _ & _ & Hp & _ & _ & (_ & _ & Hn) & _ & ->).
  simpl in *. split; [|split; [|done]].
  - split.
    + apply Forall_forall. intros p (j & Hj)%list_elem_of_lookup. by destruct (Hp j p Hj) as (_ & _ & ? & _).
    + apply Forall_forall. intros d Hd. by apply Ht.
  - split; [|done]. rewrite (NoDup_nodes_perm _ _ _ (by_position_perm ps)).
    revert Hn. by rewrite list_fmap_bind.
Qed.

Section Making.
Context {R : Type} `{RandomOk R}.

Lemma generate_ok existing ps ds r :
  parsed existing → cells_ok ps ds → typed_topology ps ds →
  ∃ m ls r', generateTopologyLinks existing ps ds r = Ok (ls, r') ∧
    key_ok existing (legs_of ps ds) m ∧ Forall2 (made existing m) (legs_of ps ds) ls.*1.
Proof.
  intros He Hc Ht. pose proof (legs_typed ps ds Hc Ht) as Hl.
  destruct (key_loop_ok existing (legs_of ps ds) (legs_of ps ds) [] r) as (m & r1 & E & Hm & _ & Hk & _); [done|].
  destruct (link_loop_ok existing (legs_of ps ds) He Hl m (legs_of ps ds) ltac:(done) Hk r1) as (ls & r' & E' & Hf).
  exists m, ls, r'. split; [|done]. unfold generateTopologyLinks, mbind, gen_bind, of_result.
  rewrite plan_eq by done. simpl. by rewrite E.
Qed.

Definition landing (ls : list TopologyLink) : list (string * LinkCred) := (λ l, (toNodeId l, cred l)) <$> ls.

Lemma made_one_pair existing m legs ls : Forall2 (made existing m) legs ls → one_pair (landing ls).
Proof.
  intros Hf to c c' k k' Hc Hc' Hk Hk'.
  assert (∀ c k, (to, c) ∈ landing ls → reality_of c = Some k →
    ∃ key sid, jm_get to m = Some key ∧ k = with_shortId key sid) as Hkey.
  { intros c0 k0 Hin Hr. apply list_elem_of_fmap in Hin as (l & [= -> ->] & Hl).
    destruct (Forall2_elem_r _ _ _ _ Hf Hl) as (p & Hp & Hm). pose proof (made_cell _ _ _ _ Hm) as Hcell.
    destruct (cred l) as [q u b|q x me|q a o t|q u w x t] eqn:Ecr; try done. simpl in Hcell, Hr.
    destruct (made_vless _ _ _ _ Hm (eq_sym Hcell)) as (key & u' & sid & Hkey & Ec). rewrite Ecr in Ec.
    simplify_eq. exists key, sid. split; [|done]. pose proof (made_ends _ _ _ _ Hm) as Ee.
    unfold leg_ends in Ee. injection Ee as _ -> _. done. }
  destruct (Hkey c k Hc Hk) as (key & sid & E1 & ->). destruct (Hkey c' k' Hc' Hk') as (key' & sid' & E2 & ->).
  simplify_eq. done.
Qed.

Lemma made_not_plain existing m p l : made existing m p l → plain (cred l) = false.
Proof.
  intros Hm. pose proof (made_cell _ _ _ _ Hm) as Hc. destruct (cred l) as [q u [k|]|q x me|q a o t|q u w x t] eqn:E; try done.
  simpl in Hc. destruct (made_vless _ _ _ _ Hm (eq_sym Hc)) as (? & ? & ? & _ & Ec). congruence.
Qed.

(** A validated topology gets exactly one link per pair of adjacent nodes
    and direction (the last step's into the direction's pool), of the cell and
    port of its step; every vless link wears REALITY and the links that land
    on one node hold one pair; a link already stored with the same cell and
    port keeps its secrets. *)
Theorem topology_links_made ps ds v existing r :
  validateCascadeTopology ps ds.*2 = Ok v → NoDup ds.*1 → typed_topology (v_positions v) ds →
  parsed existing →
  ∃ legs ls r', generateTopologyLinks existing (v_positions v) ds r = Ok (ls, r') ∧
    NoDup (leg_ends <$> legs) ∧
    (∀ l, l ∈ legs ↔ inner_leg (v_positions v) ds l ∨ final_leg (v_positions v) ds l) ∧
    Forall2 (λ p l, (fromNodeId l, toNodeId l, directionTag l) = leg_ends p ∧
      link_protocol l = l_protocol p ∧ protocol (cred l) = l_protocol p ∧ port (cred l) = leg_port p ∧
      plain (cred l) = false ∧ ∀ c, keptFor existing p = Some c → keeps_secrets c (cred l)) legs ls.*1 ∧
    one_pair (landing ls.*1).
Proof.
  intros Hv Hnd Ht He. destruct (validated_facts ps ds v Hv Hnd Ht) as (Hc & Hd & _).
  destruct (generate_ok existing (v_positions v) ds r He Hc Ht) as (m & ls & r' & E & _ & Hf).
  exists (legs_of (v_positions v) ds), ls, r'. split; [done|]. split; [by apply legs_ends_NoDup|].
  split; [apply elem_of_legs|]. split; [|by eapply made_one_pair].
  eapply Forall2_impl; [exact Hf|]. intros p l Hm. split_and!.
  - apply (made_ends _ _ _ _ Hm).
  - apply (made_protocol _ _ _ _ Hm).
  - apply (made_cell _ _ _ _ Hm).
  - apply (made_port _ _ _ _ Hm).
  - by eapply made_not_plain.
  - apply (made_kept _ _ _ _ Hm).
Qed.
End Making.

(** ** Saving again *)

(** [storedLinks] of a save: the rows of the last one, as their column reads
    back. *)
Definition link_row (l : TopologyLink) : string * jvalue :=
  (topologyLinkKey (fromNodeId l) (toNodeId l) (directionTag l), serializeLinkCred (cred l)).

Definition storedLinks (rows : list (string * jvalue)) : list (string * LinkCred) :=
  foldl (λ m row, match parseLinkCred row.2 with Some c => jm_set row.1 c m | None => m end) [] rows.

Lemma storedLinks_parsed rows : parsed (storedLinks rows).
Proof.
  unfold parsed, storedLinks. induction rows as [|[k' j] rows IH] using rev_ind; [done|].
  intros k c. rewrite foldl_app. cbn [foldl fst snd]. destruct (parseLinkCred j) as [c'|] eqn:E; [|apply IH].
  rewrite jm_get_set. case_decide; [|apply IH]. intros [= <-]. by eapply parse_whole.
Qed.

Lemma storedLinks_lookup rows k j c : NoDup rows.*1 → (k, j) ∈ rows → parseLinkCred j = Some c →
  jm_get k (storedLinks rows) = Some c.
Proof.
  unfold storedLinks. induction rows as [|[k' j'] rows IH] using rev_ind; [set_solver|].
  rewrite fmap_app, foldl_app. intros Hnd Hin Hc. cbn [foldl fst snd].
  apply NoDup_app in Hnd as (Hnd & Hd & _).
  apply elem_of_app in Hin as [Hin|[= -> ->]%list_elem_of_singleton].
  - assert (k ≠ k') as Hne.
    { intros ->. apply (Hd k'); [by apply (list_elem_of_fmap_2 fst) in Hin|cbn; set_solver]. }
    destruct (parseLinkCred j'); [|by apply IH]. rewrite jm_get_set, decide_False by done. by apply IH.
  - by rewrite Hc, jm_get_set_eq.
Qed.

Lemma storedLinks_source rows k c : jm_get k (storedLinks rows) = Some c → ∃ j, (k, j) ∈ rows ∧ parseLinkCred j = Some c.
Proof.
  unfold storedLinks. induction rows as [|[k' j'] rows IH] using rev_ind; [done|]. rewrite foldl_app. cbn [foldl fst snd].
  setoid_rewrite elem_of_app. destruct (parseLinkCred j') as [c'|] eqn:E; [|naive_solver].
  rewrite jm_get_set. case_decide as Hk; [|naive_solver]. intros [= <-]. exists j'. subst. split; [|done]. right. by left.
Qed.

Lemma storedLinks_get ls l :
  Forall (λ l, whole (cred l) = true) ls → NoDup (link_row <$> ls).*1 → l ∈ ls →
  jm_get (link_row l).1 (storedLinks (link_row <$> ls)) = Some (cred l).
Proof.
  intros Hw Hnd Hl. eapply storedLinks_lookup; [done|by apply (list_elem_of_fmap_2 link_row) in Hl; exact Hl|].
  apply parse_serialize_cred. rewrite Forall_forall in Hw. by apply Hw.
Qed.

(** Node ids without a bar keep the keys apart. *)
Lemma topologyLinkKey_inj f t g f' t' g' :
  char_free "|" f → char_free "|" t → char_free "|" f' → char_free "|" t' →
  topologyLinkKey f t g = topologyLinkKey f' t' g' → (f, t, g) = (f', t', g').
Proof.
  rewrite !char_free_has. unfold topologyLinkKey. intros Hf Ht Hf' Ht' E.
  apply str_sep_inj in E as [-> E]; [|done..]. change (t +:+ String "|" (pretty g) = t' +:+ String "|" (pretty g'))%string in E.
  apply str_sep_inj in E as [-> E]; [|done..]. apply (inj pretty) in E. by subst.
Qed.

Lemma made_row existing m p l : made existing m p l → (link_row l).1 = leg_key p.
Proof.
  intros Hm. pose proof (made_ends _ _ _ _ Hm) as E. unfold leg_ends in E. injection E as E1 E2 E3.
  simpl. unfold leg_key. by rewrite E1, E2, E3.
Qed.

Lemma made_rows existing m legs ls : Forall2 (made existing m) legs ls →
  (link_row <$> ls).*1 = leg_key <$> legs.
Proof.
  induction 1 as [|q x qs xs Hq _ IH]; [done|]. cbn [fmap list_fmap]. f_equal; [|exact IH].
  by rewrite (made_row _ _ q x Hq).
Qed.

Section Again.
Context {R : Type} `{RandomOk R} (ps : list CascadePositionInput) (ds : list TaggedDirection).
Hypothesis cells : cells_ok ps ds.
Hypothesis typed : typed_topology ps ds.
Hypothesis distinct : distinct_topology ps ds.
Hypothesis ids : ∀ n, n ∈ ps ≫= p_nodeIds ∨ n ∈ ds ≫= (λ d, rd_nodeIds d.2) → char_free "|" n.

Lemma leg_nodes l : l ∈ legs_of ps ds → char_free "|" (l_from l) ∧ char_free "|" (l_to l).
Proof.
  assert (∀ j a n, ps !! j = Some a → n ∈ p_nodeIds a → char_free "|" n) as Hin.
  { intros j a n Ha Hn. apply ids. left. apply list_elem_of_bind. exists a.
    split; [done|by eapply list_elem_of_lookup_2]. }
  intros [(a & b & d & Ha & Hb & _ & Hf & Ht & _)|(p & d & Hp & Hd & Hf & Ht & _)]%elem_of_legs.
  - split; [by apply (Hin (l_step l) a)|by apply (Hin (S (l_step l)) b)].
  - split; [by eapply (Hin _ p); [by apply last_index|]|]. apply ids. right. apply list_elem_of_bind. by exists d.
Qed.

Lemma leg_keys_NoDup : NoDup (leg_key <$> legs_of ps ds).
Proof.
  apply NoDup_fmap_2_strong; [|eapply NoDup_fmap_1, (legs_ends_NoDup ps ds distinct)].
  intros l l' Hl Hl' E. apply (leg_unique ps ds distinct l l' Hl Hl').
  destruct (leg_nodes l Hl), (leg_nodes l' Hl'). by apply topologyLinkKey_inj.
Qed.

Context (existing : list (string * LinkCred)) (m : list (string * Reality)) (ls : list TopologyLink).
Hypothesis key_m : key_ok existing (legs_of ps ds) m.
Hypothesis made_ls : Forall2 (made existing m) (legs_of ps ds) ls.

Let again := storedLinks (link_row <$> ls).

Lemma again_get p l : l ∈ ls → made existing m p l → jm_get (leg_key p) again = Some (cred l).
Proof.
  intros Hl Hm. rewrite <-(made_row _ _ p l Hm). apply storedLinks_get; [| |done].
  - apply Forall_forall. intros x Hx. destruct (Forall2_elem_r _ _ _ _ made_ls Hx) as (q & _ & Hq).
    apply (made_whole _ _ _ _ Hq).
  - rewrite (made_rows _ _ _ _ made_ls). apply leg_keys_NoDup.
Qed.

(** Every leg is kept. *)
Lemma again_kept p l : l ∈ ls → made existing m p l → keptFor again p = Some (cred l).
Proof.
  intros Hl Hm. unfold keptFor, reuseLinkCred. rewrite (again_get p l Hl Hm).
  rewrite (made_cell _ _ _ _ Hm), (made_port _ _ _ _ Hm), bool_decide_true, Z.eqb_refl by done. simpl.
  destruct (cred l) as [q u b|q k me|q a o t|q u w k t] eqn:Ec; try done.
  destruct (truthy (l_congestion p)) eqn:Et; [|done].
  rewrite (made_knob _ _ _ _ Hm q u w k t Ec Et). rewrite bool_decide_false by naive_solver. done.
Qed.

Lemma again_key p l : l ∈ ls → made existing m p l → l_protocol p = "vless" →
  ∃ key sid u, jm_get (l_to p) m = Some key ∧ on_target key ∧
    keptFor again p = Some (Vless (leg_port p) u (Some (with_shortId key sid))).
Proof.
  intros Hl Hm Hv. destruct (made_vless _ _ _ _ Hm Hv) as (key & u & sid & Hkey & Ec).
  exists key, sid, u. split; [done|]. split; [by apply key_m in Hkey as [? _]|].
  by rewrite (again_kept p l Hl Hm), Ec.
Qed.

Lemma again_block p : p ∈ legs_of ps ds → l_protocol p = "vless" →
  ∃ key sid, jm_get (l_to p) m = Some key ∧ on_target key ∧
    stored_block again (legs_of ps ds) (l_to p) = Some (with_shortId key sid).
Proof.
  intros Hp Hv. unfold stored_block.
  assert (∀ q, q ∈ legs_of ps ds → l_to q = l_to p ∧ l_protocol q = "vless" →
    ∃ key sid, jm_get (l_to p) m = Some key ∧ on_target key ∧
      keptFor again q ≫= reality_of = Some (with_shortId key sid)) as Hq.
  { intros q Hq [Hto Hvq]. destruct (Forall2_elem_l _ _ _ _ made_ls Hq) as (l & Hl & Hm).
    destruct (again_key q l Hl Hm Hvq) as (key & sid & u & Hkey & Ht & E). rewrite Hto in Hkey.
    exists key, sid. by rewrite E. }
  destruct (filter (λ q : Leg, l_to q = l_to p ∧ l_protocol q = "vless") (legs_of ps ds)) as [|q qs] eqn:Ef.
  - exfalso. assert (p ∈ filter (λ q : Leg, l_to q = l_to p ∧ l_protocol q = "vless") (legs_of ps ds)) as Hin.
    { by apply list_elem_of_filter. }
    rewrite Ef in Hin. set_solver.
  - assert (q ∈ filter (λ q : Leg, l_to q = l_to p ∧ l_protocol q = "vless") (legs_of ps ds)) as Hin
      by (rewrite Ef; set_solver).
    apply list_elem_of_filter in Hin as [Hqp Hin]. destruct (Hq q Hin Hqp) as (key & sid & Hk & Ht & E).
    exists key, sid. cbn [omap list_omap]. by rewrite E.
Qed.

Lemma again_link p l m' r : p ∈ legs_of ps ds → l ∈ ls → made existing m p l →
  key_ok again (legs_of ps ds) m' → (l_protocol p = "vless" → is_Some (jm_get (l_to p) m')) →
  link_step again m' p r = Ok ((l, Unchanged), r).
Proof.
  intros Hp Hl Hm Hk Hs. unfold link_step. rewrite (again_kept p l Hl Hm).
  pose proof (made_ends _ _ _ _ Hm) as E. unfold leg_ends in E. injection E as E1 E2 E3.
  pose proof (made_protocol _ _ _ _ Hm) as E4. pose proof (made_cell _ _ _ _ Hm) as E5.
  assert (∀ c, c = cred l → mkLink (l_from p) (l_to p) (l_tag p) (l_protocol p) c = l) as El.
  { intros c ->. rewrite <-E1, <-E2, <-E3, <-E4. by destruct l. }
  unfold mbind, gen_bind. simpl. destruct (cred l) as [q u b|q k me|q a o t|q u w k t] eqn:Ec; simpl in E5.
  2-4: unfold mret, gen_ret; by rewrite El.
  destruct (again_block p Hp (eq_sym E5)) as (key & sid & Hkey & [Ht1 Ht2] & Hblock).
  destruct (Hs (eq_sym E5)) as [key' Hkey']. destruct (Hk _ _ Hkey') as [_ Hk']. specialize (Hk' _ Hblock).
  destruct (made_vless _ _ _ _ Hm (eq_sym E5)) as (key2 & u2 & sid2 & Hkey2 & Ec2).
  rewrite Ec in Ec2. simplify_eq. rewrite Hkey'. unfold mret, gen_ret. f_equal. f_equal.
  unfold change_of. rewrite bool_decide_true by by eexists. simpl. rewrite Ht1.
  rewrite !decide_False by naive_solver. f_equal. apply El. f_equal.
  unfold with_shortId. simpl. by rewrite Ht1, Ht2.
Qed.

Lemma again_loop m' todo xs r : Forall2 (made existing m) todo xs →
  (∀ p, p ∈ todo → p ∈ legs_of ps ds) → (∀ l, l ∈ xs → l ∈ ls) →
  key_ok again (legs_of ps ds) m' → (∀ p, p ∈ todo → l_protocol p = "vless" → is_Some (jm_get (l_to p) m')) →
  link_loop again m' todo r = Ok ((λ l, (l, Unchanged)) <$> xs, r).
Proof.
  intros Hf. induction Hf as [|p l todo xs Hm Hf IH]; intros Hp Hl Hk Hs; [done|].
  cbn [link_loop]. unfold mbind, gen_bind. rewrite (again_link p l) by (set_solver || auto with set_solver).
  rewrite IH by set_solver. done.
Qed.

Lemma generate_again r : generateTopologyLinks again ps ds r = Ok ((λ l, (l, Unchanged)) <$> ls, r).
Proof.
  unfold generateTopologyLinks, mbind, gen_bind, of_result. rewrite plan_eq by done. simpl.
  destruct (key_loop_ok again (legs_of ps ds) (legs_of ps ds) [] r) as (m' & r1 & -> & Hk & _ & Hs & Hr); [done|].
  rewrite Hr.
  - apply again_loop; auto.
  - intros p Hp Hv. destruct (again_block p Hp Hv) as (key & sid & _ & _ & E). by eexists.
Qed.
End Again.

(** Saving the same topology again rotates nothing: every link comes out
    as it is stored, secrets included, no log line is written, and nothing is
    drawn from the source of randomness. *)
Theorem second_save_changes_nothing `{RandomOk R} ps ds v existing (r r2 : R) ls r' :
  validateCascadeTopology ps ds.*2 = Ok v → NoDup ds.*1 → typed_topology (v_positions v) ds →
  (∀ n, n ∈ ps ≫= p_nodeIds ∨ n ∈ ds ≫= (λ d, rd_nodeIds d.2) → char_free "|" n) →
  parsed existing →
  generateTopologyLinks existing (v_positions v) ds r = Ok (ls, r') →
  generateTopologyLinks (storedLinks (link_row <$> ls.*1)) (v_positions v) ds r2
  = Ok ((λ l, (l, Unchanged)) <$> ls.*1, r2).
Proof.
  intros Hv Hnd Ht Hids He E. destruct (validated_facts ps ds v Hv Hnd Ht) as (Hc & Hd & Eps).
  destruct (generate_ok existing (v_positions v) ds r He Hc Ht) as (m & ls' & r1 & E' & Hm & Hf).
  rewrite E in E'. injection E' as <- <-.
  apply (generate_again (v_positions v) ds Hc Ht Hd) with (existing := existing) (m := m); [|done|done].
  intros n [Hn|Hn]; apply Hids; [left|by right].
  rewrite Eps in Hn. by rewrite <-(by_position_perm ps).
Qed.

(** ** The ports asked for before a save *)
Lemma elem_of_walk_leg c s to x : x ∈ walk_leg c s to ↔ ∃ cell, c = Some cell ∧ x = (to, s, cell).
Proof. unfold walk_leg. destruct c; set_solver. Qed.

Lemma elem_of_walk_steps step ps n s c :
  (n, s, c) ∈ walk_steps step ps ↔
  ∃ j a b, ps !! j = Some a ∧ ps !! S j = Some b ∧ n ∈ p_nodeIds b ∧
    linkCellFor (p_linkProtocol a) = Some c ∧ s = (step + j)%nat.
Proof.
  revert step. induction ps as [|a [|b ps] IH]; intros step.
  - split; [set_solver|]. by intros (j & ? & ? & ? & _).
  - split; [set_solver|]. by intros (j & ? & ? & _ & ? & _).
  - change (walk_steps step (a :: b :: ps)) with
      ((p_nodeIds b ≫= walk_leg (linkCellFor (p_linkProtocol a)) step) ++ walk_steps (S step) (b :: ps)).
    rewrite elem_of_app, IH, list_elem_of_bind. setoid_rewrite elem_of_walk_leg. split.
    + intros [(to & (cell & Ec & [= <- <- <-]) & Hto)|(j & a' & b' & Ha & Hb & Hn & Ec & ->)].
      * exists 0%nat, a, b. rewrite Nat.add_0_r. done.
      * exists (S j), a', b'. split_and!; [done..|lia].
    + intros ([|j] & a' & b' & Ha & Hb & Hn & Ec & ->).
      * left. simpl in Ha, Hb. simplify_eq. exists n. split; [|done]. exists c. by rewrite Nat.add_0_r.
      * right. exists j, a', b'. split_and!; [done..|lia].
Qed.

(** The walk is the plan seen from its receiving side. *)
Lemma elem_of_walk ps ds n s c :
  cells_ok (by_position ps) ds → ds ≠ [] → (∀ p, p ∈ by_position ps → p_nodeIds p ≠ []) →
  (n, s, c) ∈ walkReceivingLegs ps ds.*2 ↔
  ∃ l, l ∈ legs_of (by_position ps) ds ∧ l_to l = n ∧ l_step l = s ∧ l_protocol l = c.
Proof.
  intros [Hp Hd] Hds Hne. rewrite Forall_forall in Hp. rewrite Forall_forall in Hd.
  assert (∀ p, p ∈ by_position ps → ∃ f, f ∈ p_nodeIds p) as Hsome.
  { intros p Hin. specialize (Hne p Hin). destruct (p_nodeIds p) as [|f fs]; [done|]. exists f. by left. }
  unfold walkReceivingLegs. cbv zeta. rewrite elem_of_app, elem_of_walk_steps. setoid_rewrite elem_of_legs. split.
  - intros [(j & a & b & Ha & Hb & Hn & Ec & ->)|Hl].
    + destruct ds as [|d ds]; [done|]. destruct (Hsome a) as [f Hf]; [by eapply list_elem_of_lookup_2|].
      exists (mkLeg f n d.1 (position_cell a) j (congestion_of (p_linkParams a))). cbn [l_to l_step l_protocol].
      split; [|split; [done|split; [done|unfold position_cell; by rewrite Ec]]].
      left. exists a, b, d. split_and!; try done. by left.
    + destruct (last (by_position ps)) as [p|] eqn:El; [|set_solver].
      destruct (Hsome p) as [f Hf]; [by apply last_Some_elem_of|].
      apply list_elem_of_bind in Hl as (d2 & Hl & Hd2). apply list_elem_of_fmap in Hd2 as (d & -> & Hin).
      apply list_elem_of_bind in Hl as (to & Hl & Hto). apply elem_of_walk_leg in Hl as (cell & Ec & [= <- -> <-]).
      exists (leg_to (by_position ps) p f d n). cbn [leg_to l_to l_step l_protocol].
      split; [|split; [done|split; [done|]]].
      * right. exists p, d. done.
      * unfold direction_cell, position_cell. by destruct (truthy _); rewrite Ec.
  - intros (l & [(a & b & d & Ha & Hb & _ & Hf & Ht & E)|(p & d & El & Hin & Hf & Ht & E)] & <- & <- & <-).
    + left. exists (l_step l), a, b. split_and!; try done. rewrite E. cbn [l_protocol]. unfold position_cell.
      destruct (Hp a) as [c Ec]; [by eapply list_elem_of_lookup_2|]. by rewrite Ec.
    + right. rewrite El. apply list_elem_of_bind. exists d.2. split; [|by apply list_elem_of_fmap_2].
      apply list_elem_of_bind. exists (l_to l). split; [|done]. apply elem_of_walk_leg.
      exists (l_protocol l). rewrite E. cbn [l_protocol l_step]. split; [|done].
      unfold direction_cell, position_cell. destruct (truthy (rd_linkProtocol d.2)) eqn:Et.
      * destruct (Hd d Hin Et) as [c Ec]. by rewrite Ec.
      * destruct (Hp p) as [c Ec]; [by apply last_Some_elem_of|]. by rewrite Ec.
Qed.

Lemma validateCascadeTopology_facts ps (ds : list TaggedDirection) v :
  validateCascadeTopology ps ds.*2 = Ok v →
  ds ≠ [] ∧ ∀ p, p ∈ by_position ps → p_nodeIds p ≠ [].
Proof.
  intros (_ & Hds & _ & Hp & _)%validate_ok_iff. split.
  - intros ->. done.
  - intros p (j & Hj)%list_elem_of_lookup. by destruct (Hp j p Hj) as (_ & _ & _ & ? & _).
Qed.

(** The ports and cells a topology is asked about before it is saved are
    those of the links the save will make: the same node, step, cell and
    transports, each asked once, in whatever order the positions are sent. *)
Theorem receiving_matches_links ps ds v :
  validateCascadeTopology ps ds.*2 = Ok v → NoDup ds.*1 → typed_topology (v_positions v) ds →
  ∃ legs, plan (v_positions v) ds = Ok legs ∧
    NoDup (topologyReceivingPorts ps ds.*2) ∧ NoDup (topologyReceivingCells ps ds.*2) ∧
    (∀ node port t, (node, port, t) ∈ topologyReceivingPorts ps ds.*2 ↔
      ∃ l, l ∈ legs ∧ l_to l = node ∧ leg_port l = port ∧ t ∈ LINK_CELL_TRANSPORTS (l_protocol l)) ∧
    (∀ node cell, (node, cell) ∈ topologyReceivingCells ps ds.*2 ↔
      ∃ l, l ∈ legs ∧ l_to l = node ∧ l_protocol l = cell).
Proof.
  intros Hv Hnd Ht. destruct (validated_facts ps ds v Hv Hnd Ht) as (Hc & Hd & Eps).
  apply validateCascadeTopology_facts in Hv as (Hds & Hne). rewrite Eps in *.
  exists (legs_of (by_position ps) ds). split; [by apply plan_eq|]. split; [apply NoDup_js_uniq|].
  split; [apply NoDup_js_uniq|]. split.
  - intros n q t. unfold topologyReceivingPorts. rewrite elem_of_js_uniq, list_elem_of_bind. split.
    + intros ([[n' s] c] & Hx & Hw). apply list_elem_of_fmap in Hx as (t' & [= -> -> ->] & Htr).
      apply elem_of_walk in Hw as (l & Hl & <- & <- & <-); [|done|done|done]. by exists l.
    + intros (l & Hl & <- & <- & Htr). exists (l_to l, l_step l, l_protocol l). split.
      * apply list_elem_of_fmap. by exists t.
      * apply elem_of_walk; [done..|]. by exists l.
  - intros n c. unfold topologyReceivingCells. rewrite elem_of_js_uniq, list_elem_of_fmap. split.
    + intros ([[n' s] c'] & [= -> ->] & Hw). apply elem_of_walk in Hw as (l & Hl & <- & <- & <-); [|done|done|done].
      by exists l.
    + intros (l & Hl & <- & <-). exists (l_to l, l_step l, l_protocol l). split; [done|].
      apply elem_of_walk; [done..|]. by exists l.
Qed.

(** ** A concrete cascade *)
Definition sample_positions : list CascadePositionInput :=
  [mkPosition ["n2"] 1 None (Some "vless") None; mkPosition ["n1"] 0 (Some "xray") (Some "vless") None].

Definition sample_directions : list TaggedDirection :=
  [(1, mkResolvedDirection None None ["n3"; "n5"] None None (Some "tuic") (Some (mkLegParams (Some "cubic") None)));
   (2, mkResolvedDirection None None ["n4"] None None None None)].

Definition sample_validated : ValidatedTopology :=
  mkValidated (reverse sample_positions) sample_directions.*2 4.

Lemma sample_typed : typed_topology (v_positions sample_validated) sample_directions.
Proof.
  split.
  - intros p k Hp Hk. cbn in Hp. apply elem_of_cons in Hp as [->|Hp]; [done|].
    by apply list_elem_of_singleton in Hp as ->.
  - intros d Hd. cbn in Hd. apply elem_of_cons in Hd as [->|Hd]; [|apply list_elem_of_singleton in Hd as ->].
    + split; [intros _; by eexists|]. intros k [= <-]. unfold LINK_CONGESTIONS. set_solver.
    + split; done.
Qed.

Lemma topology_links_made_witness :
  ∃ ls r', generateTopologyLinks [] (v_positions sample_validated) sample_directions 0 = Ok (ls, r') ∧
    length ls = 5%nat ∧ one_pair (landing ls.*1).
Proof.
  destruct (topology_links_made sample_positions sample_directions sample_validated [] 0)
    as (legs & ls & r' & E & _ & _ & Hf & Ho).
  - reflexivity.
  - apply (bool_decide_unpack _). vm_compute. exact I.
  - exact sample_typed.
  - intros k c Hk. discriminate Hk.
  - exists ls, r'. split; [exact E|]. split; [|exact Ho]. vm_compute in E. injection E as <- _. reflexivity.
Defined.

Lemma second_save_changes_nothing_witness :
  ∃ ls, generateTopologyLinks [] (v_positions sample_validated) sample_directions 0 = Ok (ls, 19) ∧
    generateTopologyLinks (storedLinks (link_row <$> ls.*1)) (v_positions sample_validated) sample_directions 7
    = Ok ((λ l, (l, Unchanged)) <$> ls.*1, 7).
Proof.
  eexists. split; [vm_compute; reflexivity|].
  apply (second_save_changes_nothing sample_positions sample_directions sample_validated [] 0 7 _ 19).
  - reflexivity.
  - apply (bool_decide_unpack _). vm_compute. exact I.
  - exact sample_typed.
  - intros n Hn. assert (n ∈ ["n1"; "n2"; "n3"; "n4"; "n5"]) as Hn'.
    { cbn in Hn. set_solver. }
    clear Hn. unfold char_free. repeat (apply elem_of_cons in Hn' as [->|Hn']; [set_solver|]).
    by apply elem_of_nil in Hn'.
  - intros k c Hk. discriminate Hk.
  - vm_compute. reflexivity.
Defined.

Lemma receiving_matches_links_witness :
  ("n2", 24000, tcp) ∈ topologyReceivingPorts sample_positions sample_directions.*2 ∧
  ∃ legs, plan (v_positions sample_validated) sample_directions = Ok legs ∧
    ∃ l, l ∈ legs ∧ l_to l = "n2" ∧ leg_port l = 24000 ∧ tcp ∈ LINK_CELL_TRANSPORTS (l_protocol l).
Proof.
  assert (("n2", 24000, tcp) ∈ topologyReceivingPorts sample_positions sample_directions.*2) as Hin.
  { apply (bool_decide_unpack _). vm_compute. exact I. }
  split; [exact Hin|].
  destruct (receiving_matches_links sample_positions sample_directions sample_validated) as (legs & E & _ & _ & Hp & _).
  - reflexivity.
  - apply (bool_decide_unpack _). vm_compute. exact I.
  - exact sample_typed.
  - exists legs. split; [exact E|]. by apply (Hp "n2" 24000 tcp).
Defined.
