(* ===== verification/CascadeTunnel.v ===== *)
(** The AmneziaWG tunnels under cascade legs
    (apps/panel-backend/src/modules/cascades/cascade-tunnel.ts, and
    [writeTunnels] of cascade.service.ts).

    A tunnel's interface, /30 and port follow from its index, which is unique
    in the panel.  Pairs of nodes are compared as the pairs they are, where
    the source joins the two ids with a bar. *)

From S2P Require Import Prelude Js Json Draws Subnet Directions CascadeValidation TopologyLinks.

Local Open Scope string_scope.
Local Open Scope list_scope.
Local Open Scope Z_scope.

Definition LINK_TUNNEL_NET_PREFIX : string := "10.67".
Definition LINK_TUNNEL_PORT_BASE : Z := 27000.
Definition MAX_LINK_TUNNELS : Z := 1000.
Definition LINK_TUNNEL_IFACE_PREFIX : string := "awg-l".

(** ** What follows from the index *)
Definition tunnelIface (index : Z) : string := LINK_TUNNEL_IFACE_PREFIX +:+ pretty index.
Definition tunnelPort (index : Z) : Z := LINK_TUNNEL_PORT_BASE + index.

Inductive tunnel_error :=
  | IndexOutOfRange (index : Z)
  | NoFreeIndex
  | LinkPortInUse (conflicts : list (string * Z * string)).

Record TunnelAddresses := mkAddresses { net_cidr : string; addr_from : string; addr_to : string }.

Definition tunnelAddresses (index : Z) : result tunnel_error TunnelAddresses :=
  if (index <? 0) || (MAX_LINK_TUNNELS <=? index) then Throw (IndexOutOfRange index) else
  let third := index / 64 in
  let base := index mod 64 * 4 in
  let net := LINK_TUNNEL_NET_PREFIX +:+ "." +:+ pretty third in
  Ok (mkAddresses (net +:+ "." +:+ pretty base +:+ "/30")
        (net +:+ "." +:+ pretty (base + 1)) (net +:+ "." +:+ pretty (base + 2))).

(** ** Credentials *)
Record TunnelObfuscation := mkObfuscation {
  jc : Z; jmin : Z; jmax : Z; s1 : Z; s2 : Z; s3 : Z; s4 : Z; h1 : Z; h2 : Z; h3 : Z; h4 : Z
}.
Record TunnelEnd := mkEnd { end_private : string; end_public : string }.
Record TunnelCred := mkTunnelCred { c_from : TunnelEnd; c_to : TunnelEnd; obfuscation : TunnelObfuscation }.

#[global] Instance TunnelObfuscation_eq_dec : EqDecision TunnelObfuscation.
Proof. solve_decision. Defined.
#[global] Instance TunnelEnd_eq_dec : EqDecision TunnelEnd.
Proof. solve_decision. Defined.
#[global] Instance TunnelCred_eq_dec : EqDecision TunnelCred.
Proof. solve_decision. Defined.

(** [randomInt(lo, hi)] answers in [lo, hi). *)
Class TunnelRandom (G : Type) := {
  randomInt : Z → Z → G → Z * G;
  generateWireguardKeyPair : G → TunnelEnd * G
}.

Class TunnelRandomOk (G : Type) `{TunnelRandom G} (patience : nat) : Prop := {
  randomInt_range lo hi s : lo < hi → lo <= (randomInt lo hi s).1 < hi;
  randomInt_fresh : fresh_within (randomInt 5 (2 ^ 31)) 4 patience
}.

Section Drawing.
Context {G : Type} `{TunnelRandom G} (fuel : nat).

(** Property initialisers run in order: the headers are drawn before [jc]. *)
Definition newTunnelObfuscation (g : G) : option (TunnelObfuscation * G) :=
  let '(jmin, g) := randomInt 64 257 g in
  let '(jmax, g) := randomInt (jmin + 64) (Z.min (jmin + 512) 1024 + 1) g in
  let '(s1, g) := randomInt 16 65 g in
  let '(s2, g) := randomInt 16 65 g in
  let s2 := if s1 + 56 =? s2 then (if s2 =? 64 then 63 else s2 + 1) else s2 in
  '(headers, g) ← draw_distinct (randomInt 5 (2 ^ 31)) 4 fuel [] g;
  let '(jc, g) := randomInt 3 9 g in
  let '(s3, g) := randomInt 8 65 g in
  let '(s4, g) := randomInt 1 33 g in
  match headers with
  | [h1; h2; h3; h4] => Some (mkObfuscation jc jmin jmax s1 s2 s3 s4 h1 h2 h3 h4, g)
  | _ => None
  end.

Definition newTunnelCred (g : G) : option (TunnelCred * G) :=
  let '(from, g) := generateWireguardKeyPair g in
  let '(to, g) := generateWireguardKeyPair g in
  '(o, g) ← newTunnelObfuscation g;
  Some (mkTunnelCred from to o, g).
End Drawing.

Definition end_json (e : TunnelEnd) : jvalue :=
  JObj [("privateKey", JStr (end_private e)); ("publicKey", JStr (end_public e))].

Definition obfuscation_json (o : TunnelObfuscation) : jvalue :=
  JObj [("jc", JNum (jc o)); ("jmin", JNum (jmin o)); ("jmax", JNum (jmax o)); ("s1", JNum (s1 o));
        ("s2", JNum (s2 o)); ("s3", JNum (s3 o)); ("s4", JNum (s4 o)); ("h1", JNum (h1 o));
        ("h2", JNum (h2 o)); ("h3", JNum (h3 o)); ("h4", JNum (h4 o))].

(** The column holds the credential as it is. *)
Definition cred_json (c : TunnelCred) : jvalue :=
  JObj [("from", end_json (c_from c)); ("to", end_json (c_to c)); ("obfuscation", obfuscation_json (obfuscation c))].

Definition parse_end (e : option jvalue) : option TunnelEnd :=
  x ← e;
  priv ← jfield_str "privateKey" x;
  pub ← jfield_str "publicKey" x;
  Some (mkEnd priv pub).

Definition parseTunnelCred (raw : jvalue) : option TunnelCred :=
  if negb (is_object raw) then None else
  from ← parse_end (jfield "from" raw);
  to ← parse_end (jfield "to" raw);
  ob ← jfield "obfuscation" raw;
  let num k := jnum (jfield k ob) in
  jc ← num "jc"; jmin ← num "jmin"; jmax ← num "jmax";
  s1 ← num "s1"; s2 ← num "s2"; s3 ← num "s3"; s4 ← num "s4";
  h1 ← num "h1"; h2 ← num "h2"; h3 ← num "h3"; h4 ← num "h4";
  Some (mkTunnelCred from to (mkObfuscation jc jmin jmax s1 s2 s3 s4 h1 h2 h3 h4)).

(** ** Which legs ride a tunnel *)
Definition underlay_of (p : option LegParams) : option string := p ≫= underlay.

(** [d.linkParams?.underlay ?? last.linkParams?.underlay]. *)
Definition last_underlay (last : CascadePositionInput) (d : ResolvedDirection) : option string :=
  match underlay_of (rd_linkParams d) with
  | Some u => Some u
  | None => underlay_of (p_linkParams last)
  end.

(** One call of [add]. *)
Definition tunnel_pair (u : option string) (from to : string) : list (string * string) :=
  if bool_decide (u ≠ Some "awg") || bool_decide (from = to) then [] else [(from, to)].

Fixpoint tunnel_steps (ordered : list CascadePositionInput) : list (string * string) :=
  match ordered with
  | a :: (b :: _) as rest =>
      (p_nodeIds a ≫= λ from, p_nodeIds b ≫= λ to, tunnel_pair (underlay_of (p_linkParams a)) from to)
      ++ tunnel_steps rest
  | _ => []
  end.

Definition topologyTunnelPairs (positions : list CascadePositionInput) (directions : list ResolvedDirection)
    : list (string * string) :=
  let ordered := by_position positions in
  js_uniq (tunnel_steps ordered ++
    match last ordered with
    | None => []
    | Some p => directions ≫= λ d, p_nodeIds p ≫= λ from, rd_nodeIds d ≫= λ to,
                  tunnel_pair (last_underlay p d) from to
    end).

(** The first adjacent steps the pair stands on. *)
Fixpoint step_underlay (ordered : list CascadePositionInput) (from to : string) : option (option string) :=
  match ordered with
  | a :: (b :: _) as rest =>
      if bool_decide (from ∈ p_nodeIds a) && bool_decide (to ∈ p_nodeIds b)
      then Some (underlay_of (p_linkParams a)) else step_underlay rest from to
  | _ => None
  end.

Definition legUnderlay (positions : list CascadePositionInput) (directions : list TaggedDirection)
    (from to : string) (tag : Z) : string :=
  let ordered := by_position positions in
  let by_steps := default "direct" (default None (step_underlay ordered from to)) in
  match last ordered, js_find (λ d : TaggedDirection, d.1 =? tag) directions with
  | Some p, Some d =>
      if bool_decide (from ∈ p_nodeIds p) && bool_decide (to ∈ rd_nodeIds d.2)
      then default "direct" (last_underlay p d.2) else by_steps
  | _, _ => by_steps
  end.

(** [linkInListen]: [None] is the wildcard.  A tunnel is its index. *)
Definition linkInListen {L} (incoming : list L) (tunnelUnder : L → option Z)
    : result tunnel_error (option (list string)) :=
  if bool_decide (incoming = []) then Ok None else
  match mapM tunnelUnder incoming with
  | None => Ok None
  | Some under => tos ← map_res (λ i, addr_to <$> tunnelAddresses i) under; Ok (Some (js_uniq tos))
  end.

(** ** The files the agent writes *)
Inductive tunnel_end := from_end | to_end.

Record TopologyTunnel := mkTunnel {
  tun_from : string; tun_to : string; tun_index : Z; tun_port : Z; tun_cred : TunnelCred }.

Definition renderTunnelConf (t : TopologyTunnel) (e : tunnel_end) (peerHost : option string)
    : result tunnel_error string :=
  addr ← tunnelAddresses (tun_index t);
  let dialling := match e with from_end => true | to_end => false end in
  let me := if dialling then c_from (tun_cred t) else c_to (tun_cred t) in
  let peer := if dialling then c_to (tun_cred t) else c_from (tun_cred t) in
  let o := obfuscation (tun_cred t) in
  Ok (js_join (String "010" "")
    (["[Interface]";
      "PrivateKey = " +:+ end_private me;
      "Address = " +:+ (if dialling then addr_from addr else addr_to addr) +:+ "/30"] ++
     (if dialling then [] else ["ListenPort = " +:+ pretty (tun_port t)]) ++
     ["Table = off";
      "Jc = " +:+ pretty (jc o); "Jmin = " +:+ pretty (jmin o); "Jmax = " +:+ pretty (jmax o);
      "S1 = " +:+ pretty (s1 o); "S2 = " +:+ pretty (s2 o); "S3 = " +:+ pretty (s3 o); "S4 = " +:+ pretty (s4 o);
      "H1 = " +:+ pretty (h1 o); "H2 = " +:+ pretty (h2 o); "H3 = " +:+ pretty (h3 o); "H4 = " +:+ pretty (h4 o);
      "";
      "[Peer]";
      "PublicKey = " +:+ end_public peer;
      "AllowedIPs = " +:+ (if dialling then addr_to addr else addr_from addr) +:+ "/32"] ++
     (if dialling && truthy peerHost then
        let host := default "" peerHost in
        ["Endpoint = " +:+ (if str_has ":" host then "[" +:+ host +:+ "]" else host) +:+ ":" +:+ pretty (tun_port t);
         "PersistentKeepalive = 25"]
      else []) ++ [""])).

(** ** Allocation *)
Fixpoint free_loop (steps : nat) (i : Z) (used : list Z) (count : nat) (out : list Z) : list Z :=
  match steps with
  | O => out
  | S steps =>
      if (length out <? count)%nat
      then free_loop steps (i + 1) used count (if bool_decide (i ∈ used) then out else out ++ [i])
      else out
  end.

Definition freeTunnelIndexes (used : list Z) (count : nat) : result tunnel_error (list Z) :=
  let out := free_loop (Z.to_nat MAX_LINK_TUNNELS) 0 used count [] in
  if (length out <? count)%nat then Throw NoFreeIndex else Ok out.

(** A row of [cascade_tunnels]. *)
Record TunnelRow := mkRow {
  t_cascade : string; t_from : string; t_to : string; t_index : Z; t_port : Z; t_config : jvalue }.

Definition t_pair (t : TunnelRow) : string * string := (t_from t, t_to t).

Section Write.
Context {G : Type} `{TunnelRandom G} (fuel : nat).
(** The profiles that hold a UDP port of a node, and a node's name
    ([portOwnersOnNode] and [tx.node.findUnique]). *)
Context (udp_profiles : string → Z → list string) (node_name : string → string).

(** The credential of each created row, in order. *)
Fixpoint create_rows (cascadeId : string) (new : list ((string * string) * Z)) (g : G)
    : option (list TunnelRow * G) :=
  match new with
  | [] => Some ([], g)
  | (p, index) :: new =>
      '(c, g) ← newTunnelCred fuel g;
      '(rows, g) ← create_rows cascadeId new g;
      Some (mkRow cascadeId p.1 p.2 index (tunnelPort index) (cred_json c) :: rows, g)
  end.

Definition kept_row (wanted : list (string * string)) (t : TunnelRow) : bool :=
  bool_decide (t_pair t ∈ wanted) && bool_decide (is_Some (parseTunnelCred (t_config t))).

(** [stored.filter((t) => !kept.includes(t))] deleted by id: a row of this
    cascade that is not kept. *)
Definition surviving (cascadeId : string) (wanted : list (string * string)) (t : TunnelRow) : bool :=
  bool_decide (t_cascade t ≠ cascadeId) || kept_row wanted t.

Definition conflicts (created : list TunnelRow) : list (string * Z * string) :=
  created ≫= λ t, (λ name, (node_name (t_to t), t_port t, name)) <$> udp_profiles (t_to t) (t_port t).

Definition writeTunnels (cascadeId : string) (positions : list CascadePositionInput)
    (directions : list ResolvedDirection) (table : list TunnelRow) (g : G)
    : option (result tunnel_error (list TunnelRow) * G) :=
  let wanted := topologyTunnelPairs positions directions in
  let table := filter (λ t, surviving cascadeId wanted t = true) table in
  let have := t_pair <$> filter (λ t, t_cascade t = cascadeId) table in
  let missing := filter (λ p, p ∉ have) wanted in
  if bool_decide (missing = []) then Some (Ok table, g) else
  match freeTunnelIndexes (t_index <$> table) (length missing) with
  | Throw e => Some (Throw e, g)
  | Ok indexes =>
      '(created, g) ← create_rows cascadeId (zip missing indexes) g;
      Some (match conflicts created with
            | [] => Ok (table ++ created)
            | cs => Throw (LinkPortInUse cs)
            end, g)
  end.
End Write.

(** ** Allocation takes the smallest free indexes *)
Lemma free_loop_spec steps i used count out : (length out <= count)%nat →
  free_loop steps i used count out =
  out ++ take (count - length out) (filter (λ j, j ∉ used) (seqZ i (Z.of_nat steps))).
Proof.
  revert i out. induction steps as [|steps IH]; intros i out Hl.
  { cbn [free_loop]. rewrite seqZ_nil by lia. by rewrite filter_nil, take_nil, app_nil_r. }
  cbn [free_loop]. destruct (Nat.ltb_spec (length out) count) as [Hlt|Hge].
  - rewrite seqZ_cons by lia. replace (Z.pred (Z.of_nat (S steps))) with (Z.of_nat steps) by lia.
    replace (Z.succ i) with (i + 1) by lia. rewrite filter_cons. case_bool_decide as Hin.
    + rewrite decide_False by naive_solver. by rewrite IH by lia.
    + rewrite decide_True by done. rewrite IH by (rewrite length_app; simpl; lia).
      rewrite <-app_assoc, length_app. simpl. replace (count - length out)%nat with (S (count - (length out + 1)))%nat by lia.
      done.
  - replace (count - length out)%nat with 0%nat by lia. by rewrite take_0, app_nil_r.
Qed.

Definition free_indexes (used : list Z) : list Z := filter (λ j, j ∉ used) (seqZ 0 MAX_LINK_TUNNELS).

Lemma freeTunnelIndexes_spec used count :
  freeTunnelIndexes used count =
  if (length (free_indexes used) <? count)%nat then Throw NoFreeIndex else Ok (take count (free_indexes used)).
Proof.
  unfold freeTunnelIndexes. rewrite free_loop_spec by (simpl; lia).
  change ([] ++ take (count - length (@nil Z)) (filter (λ j, j ∉ used) (seqZ 0 (Z.of_nat (Z.to_nat MAX_LINK_TUNNELS)))))
    with (take (count - 0) (free_indexes used)).
  rewrite Nat.sub_0_r, length_take.
  destruct (Nat.ltb_spec (length (free_indexes used)) count), (Nat.ltb_spec (count `min` length (free_indexes used)) count);
    (done || lia).
Qed.

Lemma elem_of_free_indexes used i : i ∈ free_indexes used ↔ i ∉ used ∧ 0 <= i < MAX_LINK_TUNNELS.
Proof. unfold free_indexes. rewrite list_elem_of_filter, elem_of_seqZ. split; intros; intuition lia. Qed.

Lemma free_indexes_NoDup used : NoDup (free_indexes used).
Proof. apply NoDup_filter, NoDup_seqZ. Qed.

(** ** Addresses, ports and names *)
Definition tunnel_net : Z := 10 * 2 ^ 24 + 67 * 2 ^ 16.

#[global] Instance spec_float_eq_dec : EqDecision spec_float.
Proof. solve_decision. Defined.
#[global] Instance subnet_error_eq_dec : EqDecision subnet_error.
Proof. solve_decision. Defined.
#[global] Instance SubnetRange_eq_dec : EqDecision SubnetRange.
Proof. solve_decision. Defined.

(** What the index gives, as numbers. *)
Definition addresses_ok (i : Z) : bool :=
  match tunnelAddresses i with
  | Ok a =>
      bool_decide (parseSubnet (net_cidr a) =
        Ok (mkSubnetRange (tunnel_net + 4 * i) 30 (tunnel_net + 4 * i + 1)
              (tunnel_net + 4 * i + 2) (tunnel_net + 4 * i + 2))) &&
      bool_decide (ipToInt (addr_from a) = Ok (tunnel_net + 4 * i + 1)) &&
      bool_decide (ipToInt (addr_to a) = Ok (tunnel_net + 4 * i + 2))
  | Throw _ => false
  end.

Lemma addresses_all : forallb addresses_ok (seqZ 0 MAX_LINK_TUNNELS) = true.
Proof. vm_compute. reflexivity. Qed.

(** Every index the panel can hold names its own /30 of 10.67.0.0/16, the
    dialling end at its first host and the receiving end at its second, its
    own UDP port below 28000, and its own interface; any other index is
    refused. *)
Theorem tunnel_index_apart i :
  if decide (0 <= i < MAX_LINK_TUNNELS) then
    ∃ a, tunnelAddresses i = Ok a ∧
      parseSubnet (net_cidr a) = Ok (mkSubnetRange (tunnel_net + 4 * i) 30 (tunnel_net + 4 * i + 1)
                                       (tunnel_net + 4 * i + 2) (tunnel_net + 4 * i + 2)) ∧
      ipToInt (addr_from a) = Ok (tunnel_net + 4 * i + 1) ∧
      ipToInt (addr_to a) = Ok (tunnel_net + 4 * i + 2) ∧
      tunnel_net + 4 * i + 3 < tunnel_net + 2 ^ 16 ∧
      27000 <= tunnelPort i < 28000 ∧
      ∀ j, tunnelIface i = tunnelIface j → i = j
  else tunnelAddresses i = Throw (IndexOutOfRange i).
Proof.
  case_decide as Hi.
  - pose proof addresses_all as Hall. rewrite forallb_forall in Hall. specialize (Hall i).
    assert (In i (seqZ 0 MAX_LINK_TUNNELS)) as Hin by (apply list_elem_of_In, elem_of_seqZ; lia).
    specialize (Hall Hin). unfold addresses_ok in Hall. destruct (tunnelAddresses i) as [a|] eqn:E; [|done].
    exists a. split; [done|]. apply andb_prop in Hall as [H1 H3].
    apply andb_prop in H1 as [H1 H2]. apply bool_decide_eq_true in H1, H2, H3.
    unfold MAX_LINK_TUNNELS in Hi. unfold tunnelPort, LINK_TUNNEL_PORT_BASE. split_and!; try done; try lia.
    intros j Ej. unfold tunnelIface in Ej. apply (inj pretty). by injection Ej.
  - unfold tunnelAddresses. destruct (Z.ltb_spec i 0); [done|].
    destruct (Z.leb_spec MAX_LINK_TUNNELS i); [done|lia].
Qed.

(** ** Credentials *)

(** What the users' schema and the node accept. *)
Record obfuscation_ok (o : TunnelObfuscation) : Prop := {
  ok_jc : 0 <= jc o <= 10;
  ok_jmin : 64 <= jmin o;
  ok_jmax : jmin o < jmax o <= 1024;
  ok_sizes : Forall (λ s, 1 <= s <= 64) [s1 o; s2 o; s3 o] ∧ 1 <= s4 o <= 32;
  ok_handshake : s1 o + 56 ≠ s2 o;
  ok_headers : NoDup [h1 o; h2 o; h3 o; h4 o] ∧ Forall (λ h, 4 < h < 2 ^ 31) [h1 o; h2 o; h3 o; h4 o]
}.

Lemma parse_cred_json c : parseTunnelCred (cred_json c) = Some c.
Proof. by destruct c as [[] [] []]. Qed.

Section DrawingFacts.
Context {G : Type} `{TunnelRandomOk G patience} (fuel : nat).
Hypothesis enough : (4 * patience <= fuel)%nat.

Lemma newTunnelObfuscation_ok g :
  ∃ o g', newTunnelObfuscation fuel g = Some (o, g') ∧ obfuscation_ok o.
Proof.
  unfold newTunnelObfuscation.
  pose proof (randomInt_range 64 257 g ltac:(lia)) as H1. destruct (randomInt 64 257 g) as [jmin g1]. simpl in H1.
  pose proof (randomInt_range (jmin + 64) (Z.min (jmin + 512) 1024 + 1) g1 ltac:(lia)) as H2.
  destruct (randomInt (jmin + 64) _ g1) as [jmax g2]. simpl in H2.
  pose proof (randomInt_range 16 65 g2 ltac:(lia)) as H3. destruct (randomInt 16 65 g2) as [s1 g3]. simpl in H3.
  pose proof (randomInt_range 16 65 g3 ltac:(lia)) as H4. destruct (randomInt 16 65 g3) as [s2 g4]. simpl in H4.
  destruct (draw_distinct_total (randomInt 5 (2 ^ 31)) 4 patience 4 fuel [] g4) as [[hs g5] E];
    [exact randomInt_fresh|done|lia|].
  rewrite E. apply (draw_distinct_ok _ _ (λ h, 4 < h < 2 ^ 31)) in E as (Hnd & Hl & Hh);
    [|intros s; pose proof (randomInt_range 5 (2 ^ 31) s ltac:(lia)); lia|constructor|simpl; lia|constructor].
  cbn [mbind option_bind].
  pose proof (randomInt_range 3 9 g5 ltac:(lia)) as H5. destruct (randomInt 3 9 g5) as [jc g6]. simpl in H5.
  pose proof (randomInt_range 8 65 g6 ltac:(lia)) as H6. destruct (randomInt 8 65 g6) as [s3 g7]. simpl in H6.
  pose proof (randomInt_range 1 33 g7 ltac:(lia)) as H7. destruct (randomInt 1 33 g7) as [s4 g8]. simpl in H7.
  destruct hs as [|h1 [|h2 [|h3 [|h4 [|]]]]]; try done. do 2 eexists. split; [done|].
  destruct (Z.eqb_spec (s1 + 56) s2); [lia|].
  constructor; cbn; try lia; [split; [|lia]; repeat constructor; lia|done].
Qed.

(** Minting a tunnel always ends; its obfuscation keeps every bound the
    node accepts, never looks like a plain WireGuard handshake, and the whole
    credential reads back from its column. *)
Theorem tunnel_cred_sound g :
  ∃ c g', newTunnelCred fuel g = Some (c, g') ∧ obfuscation_ok (obfuscation c) ∧
    parseTunnelCred (cred_json c) = Some c.
Proof.
  unfold newTunnelCred. destruct (generateWireguardKeyPair g) as [from g1].
  destruct (generateWireguardKeyPair g1) as [to g2]. destruct (newTunnelObfuscation_ok g2) as (o & g3 & -> & Ho).
  cbn [mbind option_bind]. do 2 eexists. split; [done|]. split; [done|apply parse_cred_json].
Qed.

Lemma create_rows_ok cid new : ∀ g, ∃ rows g', create_rows fuel cid new g = Some (rows, g') ∧
  Forall2 (λ (n : (string * string) * Z) t, t_cascade t = cid ∧ t_pair t = n.1 ∧ t_index t = n.2 ∧
    t_port t = tunnelPort n.2 ∧ is_Some (parseTunnelCred (t_config t))) new rows.
Proof.
  induction new as [|[p i] new IH]; intros g; [by exists [], g|].
  destruct (newTunnelObfuscation_ok g) as (o & g' & _ & Ho). clear o g' Ho.
  assert (∃ c g', newTunnelCred fuel g = Some (c, g')) as (c & g1 & E).
  { unfold newTunnelCred. destruct (generateWireguardKeyPair g) as [from g1].
    destruct (generateWireguardKeyPair g1) as [to g2]. destruct (newTunnelObfuscation_ok g2) as (o & g3 & -> & _).
    by do 2 eexists. }
  destruct (IH g1) as (rows & g' & E' & Hf). cbn [create_rows]. rewrite E. cbn [mbind option_bind].
  rewrite E'. do 2 eexists. split; [done|]. constructor; [|done]. destruct p as [f t].
  split_and!; try done; simpl; rewrite parse_cred_json; by eexists.
Qed.
End DrawingFacts.

(** ** A save leaves exactly the tunnels its legs want *)

(** The table's constraints, the port that follows from the index included. *)
Record tunnels_ok (table : list TunnelRow) : Prop := {
  index_unique : NoDup (t_index <$> table);
  index_range : Forall (λ t, 0 <= t_index t < MAX_LINK_TUNNELS ∧ t_port t = tunnelPort (t_index t)) table;
  pair_unique : NoDup ((λ t, (t_cascade t, t_pair t)) <$> table)
}.

Lemma tunnels_ok_filter (P : TunnelRow → Prop) `{∀ t, Decision (P t)} table :
  tunnels_ok table → tunnels_ok (filter P table).
Proof.
  intros [H1 H2 H3]. constructor; [by apply NoDup_fmap_filter| |by apply NoDup_fmap_filter].
  by apply Forall_filter_l.
Qed.

Lemma tunnels_ok_app table created cid new :
  tunnels_ok table →
  Forall2 (λ (n : (string * string) * Z) t, t_cascade t = cid ∧ t_pair t = n.1 ∧ t_index t = n.2 ∧
    t_port t = tunnelPort n.2 ∧ is_Some (parseTunnelCred (t_config t))) new created →
  NoDup new.*1 → NoDup new.*2 →
  (∀ n, n ∈ new → n.2 ∉ t_index <$> table ∧ 0 <= n.2 < MAX_LINK_TUNNELS ∧
    ∀ t, t ∈ table → t_cascade t = cid → t_pair t ≠ n.1) →
  tunnels_ok (table ++ created).
Proof.
  intros [H1 H2 H3] Hf Hp Hi Hn.
  assert (t_index <$> created = new.*2) as Ei.
  { clear -Hf. induction Hf as [|n t new created (_ & _ & E & _) _ IH]; [done|]. cbn. by f_equal. }
  assert (t_pair <$> created = new.*1) as Ep.
  { clear -Hf. induction Hf as [|n t new created (_ & E & _) _ IH]; [done|]. cbn. by f_equal. }
  assert (Forall (λ t, t_cascade t = cid) created) as Ec.
  { clear -Hf. induction Hf as [|n t new created (E & _) _ IH]; by constructor. }
  constructor.
  - rewrite fmap_app, Ei. apply NoDup_app. split; [done|]. split; [|done].
    intros i Hin (n & -> & Hn')%list_elem_of_fmap. by destruct (Hn n Hn') as [Hni _].
  - apply Forall_app. split; [done|]. apply Forall_forall. intros t Ht.
    destruct (Forall2_elem_r _ _ _ _ Hf Ht) as (n & Hn' & _ & _ & -> & -> & _). split; [|done]. by apply Hn.
  - rewrite fmap_app. apply NoDup_app. split; [done|]. split.
    + intros x (t & -> & Ht)%list_elem_of_fmap (t' & E & Ht')%list_elem_of_fmap.
      apply pair_equal_spec in E as [E1 E2]. destruct (Forall2_elem_r _ _ _ _ Hf Ht') as (n & Hn' & Hc & Hpr & _).
      destruct (Hn n Hn') as (_ & _ & Hne). apply (Hne t Ht); congruence.
    + apply (NoDup_fmap_1 snd). rewrite <-list_fmap_compose.
      change (NoDup (t_pair <$> created)). by rewrite Ep.
Qed.

Section WriteFacts.
Context {G : Type} `{TunnelRandomOk G patience} (fuel : nat).
Hypothesis enough : (4 * patience <= fuel)%nat.
Context (udp_profiles : string → Z → list string) (node_name : string → string).
Context (cid : string) (ps : list CascadePositionInput) (ds : list ResolvedDirection).

Let wanted := topologyTunnelPairs ps ds.
Let kept (table : list TunnelRow) := filter (λ t, surviving cid wanted t = true) table.
Let pairs_of (table : list TunnelRow) := t_pair <$> filter (λ t, t_cascade t = cid) table.
Let missing (table : list TunnelRow) := filter (λ p, p ∉ pairs_of (kept table)) wanted.

Lemma elem_of_pairs_of table p : p ∈ pairs_of table ↔ ∃ t, t ∈ table ∧ t_cascade t = cid ∧ t_pair t = p.
Proof.
  unfold pairs_of. rewrite list_elem_of_fmap. setoid_rewrite list_elem_of_filter. naive_solver.
Qed.

Lemma elem_of_kept table t :
  t ∈ kept table ↔ t ∈ table ∧ (t_cascade t ≠ cid ∨ t_pair t ∈ wanted ∧ is_Some (parseTunnelCred (t_config t))).
Proof.
  unfold kept, surviving, kept_row. rewrite list_elem_of_filter, orb_true_iff, andb_true_iff, !bool_decide_eq_true.
  naive_solver.
Qed.

Lemma missing_NoDup table : NoDup (missing table).
Proof. apply NoDup_filter, NoDup_js_uniq. Qed.

(** What the save promises of the table it leaves. *)
Definition save_exact (table table' : list TunnelRow) : Prop :=
  tunnels_ok table' ∧
  (∀ p, p ∈ wanted ↔ ∃ t, t ∈ table' ∧ t_cascade t = cid ∧ t_pair t = p) ∧
  (∀ t, t ∈ table' → t_cascade t = cid → is_Some (parseTunnelCred (t_config t))) ∧
  (∀ t, t ∈ table → t_cascade t ≠ cid ∨ t_pair t ∈ wanted ∧ is_Some (parseTunnelCred (t_config t)) → t ∈ table') ∧
  (∀ t, t ∈ table' → t_cascade t ≠ cid → t ∈ table).

Lemma kept_exact table : tunnels_ok table → missing table = [] → save_exact table (kept table).
Proof.
  intros Hok Hm. split; [by apply tunnels_ok_filter|]. split; [|split; [|split]].
  - intros p. split.
    + intros Hp. apply elem_of_pairs_of. destruct (decide (p ∈ pairs_of (kept table))); [done|].
      assert (p ∈ missing table) as Hin by (by apply list_elem_of_filter). rewrite Hm in Hin. set_solver.
    + intros (t & Ht & Hc & <-). apply elem_of_kept in Ht. naive_solver.
  - intros t Ht Hc. apply elem_of_kept in Ht. naive_solver.
  - intros t Ht Hk. by apply elem_of_kept.
  - intros t Ht _. by apply elem_of_kept in Ht as [? _].
Qed.

Lemma created_exact table created indexes :
  tunnels_ok table → length indexes = length (missing table) → NoDup indexes →
  (∀ i, i ∈ indexes → i ∉ t_index <$> kept table ∧ 0 <= i < MAX_LINK_TUNNELS) →
  Forall2 (λ (n : (string * string) * Z) t, t_cascade t = cid ∧ t_pair t = n.1 ∧ t_index t = n.2 ∧
    t_port t = tunnelPort n.2 ∧ is_Some (parseTunnelCred (t_config t))) (zip (missing table) indexes) created →
  save_exact table (kept table ++ created).
Proof.
  intros Hok Hlen Hnd Hfree Hf.
  assert ((zip (missing table) indexes).*1 = missing table) as E1 by (apply fst_zip; lia).
  assert ((zip (missing table) indexes).*2 = indexes) as E2 by (apply snd_zip; lia).
  assert (∀ n, n ∈ zip (missing table) indexes → n.1 ∈ missing table ∧ n.2 ∈ indexes) as Hz.
  { intros n Hn. split; [rewrite <-E1|rewrite <-E2]; by apply list_elem_of_fmap_2. }
  assert (∀ p, p ∈ missing table → p ∈ wanted ∧ p ∉ pairs_of (kept table)) as Hmiss.
  { intros p Hp. apply list_elem_of_filter in Hp. naive_solver. }
  split; [|split; [|split; [|split]]].
  - eapply tunnels_ok_app; [by apply tunnels_ok_filter|exact Hf|rewrite E1; apply missing_NoDup|by rewrite E2|].
    intros n Hn. apply Hz in Hn as [Hn1 Hn2]. destruct (Hfree _ Hn2) as [? ?]. split; [done|]. split; [done|].
    intros t Ht Hc E. destruct (Hmiss _ Hn1) as [_ Hno]. apply Hno, elem_of_pairs_of. by exists t.
  - intros p. split.
    + intros Hp. destruct (decide (p ∈ pairs_of (kept table))) as [Hin|Hin].
      * apply elem_of_pairs_of in Hin as (t & Ht & ?). exists t. set_solver.
      * assert (p ∈ missing table) as Hm by (by apply list_elem_of_filter). rewrite <-E1 in Hm.
        apply list_elem_of_fmap in Hm as (n & -> & Hn). destruct (Forall2_elem_l _ _ _ _ Hf Hn) as (t & Ht & Hc & Hpr & _).
        exists t. set_solver.
    + intros (t & [Ht|Ht]%elem_of_app & Hc & <-).
      * apply elem_of_kept in Ht. naive_solver.
      * destruct (Forall2_elem_r _ _ _ _ Hf Ht) as (n & Hn & _ & -> & _). by apply Hmiss, Hz.
  - intros t [Ht|Ht]%elem_of_app Hc; [apply elem_of_kept in Ht; naive_solver|].
    by destruct (Forall2_elem_r _ _ _ _ Hf Ht) as (n & _ & _ & _ & _ & _ & ?).
  - intros t Ht Hk. apply elem_of_app. left. by apply elem_of_kept.
  - intros t [Ht|Ht]%elem_of_app Hc; [by apply elem_of_kept in Ht as [? _]|].
    destruct (Forall2_elem_r _ _ _ _ Hf Ht) as (n & _ & Hc' & _). by destruct Hc.
Qed.

(** Saving a cascade's tunnels leaves its table with one tunnel per node
    pair a leg wants and none else, each with a whole credential; a pair still
    wanted keeps its row, keys and index, other cascades' rows stay, and
    indexes, ports and pairs stay unique in the panel.  It is refused only
    when fewer indexes are free than are needed, or when a new tunnel's port
    is held by a profile. *)
Theorem writeTunnels_exact table g : tunnels_ok table →
  ∃ res g', writeTunnels fuel udp_profiles node_name cid ps ds table g = Some (res, g') ∧
    match res with
    | Ok table' => save_exact table table'
    | Throw NoFreeIndex => (length (free_indexes (t_index <$> kept table)) < length (missing table))%nat
    | Throw (LinkPortInUse cs) => cs ≠ [] ∧ ∀ c, c ∈ cs → ∃ n i name,
        i ∈ free_indexes (t_index <$> kept table) ∧ n ∈ (missing table).*2 ∧
        name ∈ udp_profiles n (tunnelPort i) ∧ c = (node_name n, tunnelPort i, name)
    | Throw (IndexOutOfRange _) => False
    end.
Proof.
  intros Hok. unfold writeTunnels. cbv zeta. fold wanted.
  change (filter (λ t, surviving cid wanted t = true) table) with (kept table).
  change (t_pair <$> filter (λ t, t_cascade t = cid) (kept table)) with (pairs_of (kept table)).
  change (filter (λ p, p ∉ pairs_of (kept table)) wanted) with (missing table).
  case_bool_decide as Hm.
  { eexists _, _. split; [done|]. by apply kept_exact. }
  rewrite freeTunnelIndexes_spec. destruct (Nat.ltb_spec (length (free_indexes (t_index <$> kept table))) (length (missing table))).
  { eexists _, _. split; [done|]. done. }
  set (indexes := take (length (missing table)) (free_indexes (t_index <$> kept table))).
  assert (∀ i, i ∈ indexes → i ∈ free_indexes (t_index <$> kept table)) as Hsub.
  { intros i (j & Hj)%list_elem_of_lookup. apply lookup_take_Some in Hj as [Hj _]. by eapply list_elem_of_lookup_2. }
  destruct (create_rows_ok fuel enough cid (zip (missing table) indexes) g) as (created & g' & E & Hf).
  rewrite E. cbn [mbind option_bind]. eexists _, _. split; [done|].
  assert (length indexes = length (missing table)) as Hlen by (unfold indexes; rewrite length_take; lia).
  destruct (conflicts udp_profiles node_name created) as [|c cs] eqn:Ecs.
  - eapply created_exact; [done|exact Hlen| | |exact Hf].
    + unfold indexes. apply (NoDup_app (take _ _) (drop (length (missing table)) (free_indexes (t_index <$> kept table)))).
      rewrite take_drop. apply free_indexes_NoDup.
    + intros i Hi. apply elem_of_free_indexes. by apply Hsub.
  - split; [done|]. intros c' Hc'. rewrite <-Ecs in Hc'. unfold conflicts in Hc'.
    apply list_elem_of_bind in Hc' as (t & Hc' & Ht). apply list_elem_of_fmap in Hc' as (name & -> & Hn).
    destruct (Forall2_elem_r _ _ _ _ Hf Ht) as (n & Hz & _ & Hp & Hi & Hport & _).
    exists (t_to t), (t_index t), name. rewrite Hi, <-Hport. split_and!; try done.
    + apply Hsub. rewrite <-(snd_zip (missing table) indexes) by lia. by apply list_elem_of_fmap_2.
    + replace (t_to t) with (t_pair t).2 by done. rewrite Hp. apply list_elem_of_fmap_2.
      rewrite <-(fst_zip (missing table) indexes) by lia. by apply list_elem_of_fmap_2.
Qed.
End WriteFacts.

(** ** Pairs and legs agree *)
Lemma elem_of_tunnel_pair u f t x : x ∈ tunnel_pair u f t ↔ u = Some "awg" ∧ f ≠ t ∧ x = (f, t).
Proof.
  unfold tunnel_pair. do 2 case_bool_decide; simpl; split;
    (set_solver || (intros (? & ? & ->); set_solver) || naive_solver).
Qed.

Lemma elem_of_tunnel_steps ps f t : (f, t) ∈ tunnel_steps ps ↔
  ∃ j a b, ps !! j = Some a ∧ ps !! S j = Some b ∧ f ∈ p_nodeIds a ∧ t ∈ p_nodeIds b ∧
    underlay_of (p_linkParams a) = Some "awg" ∧ f ≠ t.
Proof.
  induction ps as [|a [|b ps] IH].
  - split; [set_solver|]. by intros (j & ? & ? & ? & _).
  - split; [set_solver|]. by intros (j & ? & ? & _ & ? & _).
  - change (tunnel_steps (a :: b :: ps)) with
      ((p_nodeIds a ≫= λ from, p_nodeIds b ≫= λ to, tunnel_pair (underlay_of (p_linkParams a)) from to)
       ++ tunnel_steps (b :: ps)).
    rewrite elem_of_app, IH, list_elem_of_bind. setoid_rewrite list_elem_of_bind.
    setoid_rewrite elem_of_tunnel_pair. split.
    + intros [(f' & (t' & (Hu & Hne & [= <- <-]) & Ht) & Hf)|(j & a' & b' & Ha & Hb & Hrest)].
      * by exists 0%nat, a, b.
      * by exists (S j), a', b'.
    + intros ([|j] & a' & b' & Ha & Hb & Hf & Ht & Hu & Hne).
      * left. simpl in Ha, Hb. simplify_eq. exists f. split; [|done]. exists t. done.
      * right. by exists j, a', b'.
Qed.

Lemma step_underlay_spec ps f t j a b :
  (∀ i a', ps !! i = Some a' → f ∈ p_nodeIds a' → i = j) →
  ps !! j = Some a → ps !! S j = Some b → f ∈ p_nodeIds a → t ∈ p_nodeIds b →
  step_underlay ps f t = Some (underlay_of (p_linkParams a)).
Proof.
  revert j. induction ps as [|x [|y ps] IH]; intros j Huniq Ha Hb Hf Ht; [done|by destruct j|].
  change (step_underlay (x :: y :: ps) f t) with
    (if bool_decide (f ∈ p_nodeIds x) && bool_decide (t ∈ p_nodeIds y)
     then Some (underlay_of (p_linkParams x)) else step_underlay (y :: ps) f t).
  destruct j as [|j]; simpl in Ha, Hb.
  - simplify_eq. by rewrite !bool_decide_true.
  - rewrite bool_decide_false by (intros Hx; by specialize (Huniq 0%nat x eq_refl Hx)). simpl.
    apply (IH j); [|done..]. intros i a' Hi Hin. specialize (Huniq (S i) a' Hi Hin). lia.
Qed.

Lemma js_find_tag (ds : list TaggedDirection) d : NoDup ds.*1 → d ∈ ds →
  js_find (λ d' : TaggedDirection, d'.1 =? d.1) ds = Some d.
Proof.
  intros Hnd Hin. destruct (js_find _ ds) as [d'|] eqn:E.
  - apply js_find_Some in E as [Hin' Eq%Z.eqb_eq].
    apply list_elem_of_lookup in Hin as [i Hi]. apply list_elem_of_lookup in Hin' as [k Hk].
    assert (i = k) as ->; [|congruence]. eapply (NoDup_lookup ds.*1); [done|..].
    + rewrite list_lookup_fmap, Hi. done.
    + rewrite list_lookup_fmap, Hk. simpl. by rewrite Eq.
  - apply js_find_None with (x := d) in E; [|done]. by rewrite Z.eqb_refl in E.
Qed.

Section Underlay.
Context (ps : list CascadePositionInput) (ds : list TaggedDirection).
Hypothesis distinct : distinct_topology (by_position ps) ds.

Lemma legUnderlay_inner l j a b : by_position ps !! j = Some a → by_position ps !! S j = Some b →
  l_from l ∈ p_nodeIds a → l_to l ∈ p_nodeIds b →
  legUnderlay ps ds (l_from l) (l_to l) (l_tag l) = default "direct" (underlay_of (p_linkParams a)).
Proof.
  intros Ha Hb Hf Ht. unfold legUnderlay. cbv zeta.
  rewrite (step_underlay_spec _ _ _ j a b);
    [|intros i a' Hi Hin; by apply (step_unique _ _ distinct i j a' a (l_from l))|done..].
  destruct (last (by_position ps)) as [p|] eqn:El; [|done]. destruct (js_find _ ds) as [d|]; [|done].
  rewrite bool_decide_false; [done|]. intros Hin. apply last_index in El.
  pose proof (step_unique _ _ distinct _ _ _ _ _ Ha El Hf Hin). apply lookup_lt_Some in Hb. lia.
Qed.

Lemma legUnderlay_final l p d : last (by_position ps) = Some p → d ∈ ds → l_tag l = d.1 →
  l_from l ∈ p_nodeIds p → l_to l ∈ rd_nodeIds d.2 →
  legUnderlay ps ds (l_from l) (l_to l) (l_tag l) = default "direct" (last_underlay p d.2).
Proof.
  intros El Hd Eg Hf Ht. unfold legUnderlay. cbv zeta. rewrite El, Eg, (js_find_tag ds d) by (apply distinct || done).
  by rewrite !bool_decide_true.
Qed.
End Underlay.

Lemma default_awg (u : option string) : default "direct" u = "awg" ↔ u = Some "awg".
Proof. destruct u; naive_solver. Qed.

(** A validated topology gets a tunnel between two nodes exactly when one
    of its legs between them, asked one at a time as the renderers ask, rides
    on AmneziaWG; each pair gets one. *)
Theorem tunnels_match_legs ps ds v :
  validateCascadeTopology ps ds.*2 = Ok v → NoDup ds.*1 → typed_topology (v_positions v) ds →
  ∃ legs, plan (v_positions v) ds = Ok legs ∧ NoDup (topologyTunnelPairs ps ds.*2) ∧
    ∀ f t, (f, t) ∈ topologyTunnelPairs ps ds.*2 ↔
      ∃ l, l ∈ legs ∧ l_from l = f ∧ l_to l = t ∧ legUnderlay ps ds f t (l_tag l) = "awg".
Proof.
  intros Hv Hnd Ht. destruct (validated_facts ps ds v Hv Hnd Ht) as (Hc & Hd & Eps).
  apply validateCascadeTopology_facts in Hv as Hfacts. destruct Hfacts as [Hds Hne]. rewrite Eps in *.
  exists (legs_of (by_position ps) ds). split; [by apply plan_eq|]. split; [apply NoDup_js_uniq|].
  intros f t. unfold topologyTunnelPairs. cbv zeta. rewrite elem_of_js_uniq, elem_of_app, elem_of_tunnel_steps.
  setoid_rewrite elem_of_legs. split.
  - intros [(j & a & b & Ha & Hb & Hf & Hto & Hu & _)|Hl].
    + destruct ds as [|d ds']; [done|]. set (l := mkLeg f t d.1 (position_cell a) j (congestion_of (p_linkParams a))).
      exists l. split; [left; exists a, b, d; split_and!; try done; by left|]. split; [done|]. split; [done|].
      pose proof (legUnderlay_inner ps _ Hd l j a b Ha Hb Hf Hto) as El. by rewrite Hu in El.
    + destruct (last (by_position ps)) as [p|] eqn:El; [|set_solver].
      apply list_elem_of_bind in Hl as (d2 & Hl & Hd2). apply list_elem_of_fmap in Hd2 as (d & -> & Hin).
      apply list_elem_of_bind in Hl as (f' & Hl & Hf). apply list_elem_of_bind in Hl as (t' & Hl & Hto).
      apply elem_of_tunnel_pair in Hl as (Hu & _ & [= -> ->]).
      exists (leg_to (by_position ps) p f' d t'). split; [right; by exists p, d|]. split; [done|]. split; [done|].
      pose proof (legUnderlay_final ps _ Hd (leg_to (by_position ps) p f' d t') p d El Hin eq_refl Hf Hto) as Eu.
      by rewrite Hu in Eu.
  - intros (l & [(a & b & d & Ha & Hb & Hin & Hf & Hto & E)|(p & d & El & Hin & Hf & Hto & E)] & <- & <- & Hu).
    + left. rewrite (legUnderlay_inner ps _ Hd l _ a b), default_awg in Hu by done.
      exists (l_step l), a, b. split_and!; try done. intros Eft. rewrite <-Eft in Hto.
      pose proof (step_unique _ _ Hd _ _ _ _ _ Ha Hb Hf Hto). lia.
    + right. rewrite (legUnderlay_final ps _ Hd l p d), default_awg in Hu by (done || by rewrite E).
      rewrite El. apply list_elem_of_bind. exists d.2. split; [|by apply list_elem_of_fmap_2].
      apply list_elem_of_bind. exists (l_from l). split; [|done].
      apply list_elem_of_bind. exists (l_to l). split; [|done]. apply elem_of_tunnel_pair. split; [done|]. split; [|done].
      intros Eft. destruct Hd as [(_ & Hdis & _)%NoDup_app _]. apply (Hdis (l_from l)).
      * apply list_elem_of_bind. exists p. split; [done|by apply last_Some_elem_of].
      * rewrite Eft. apply list_elem_of_bind. by exists d.
Qed.

(** ** Concrete tunnels *)
#[export] Instance counting_tunnels : TunnelRandom Z := {
  randomInt lo hi g := (lo + g mod Z.max 1 (hi - lo), g + 1);
  generateWireguardKeyPair g := (mkEnd ("priv-" +:+ pretty g) ("pub-" +:+ pretty g), g + 1)
}.

#[export] Instance counting_tunnels_ok : TunnelRandomOk Z 4.
Proof.
  split.
  - intros lo hi s Hlt. simpl. pose proof (Z.mod_pos_bound s (Z.max 1 (hi - lo)) ltac:(lia)). lia.
  - by apply (counting_fresh 5 (2 ^ 31 - 5)).
Qed.

Lemma tunnel_cred_sound_witness :
  ∃ c g', newTunnelCred 16 7 = Some (c, g') ∧ obfuscation_ok (obfuscation c) ∧ jc (obfuscation c) = 8.
Proof.
  destruct (tunnel_cred_sound (patience := 4) 16 ltac:(lia) 7) as (c & g' & E & Ho & _).
  exists c, g'. split; [exact E|]. split; [exact Ho|]. vm_compute in E. injection E as <- _. reflexivity.
Defined.

(** One cascade with a tunnelled first leg; another cascade holds index 0. *)
Definition tunnelled_positions : list CascadePositionInput :=
  [mkPosition ["n1"] 0 (Some "xray") (Some "vless") (Some (mkLegParams None (Some "awg")));
   mkPosition ["n2"] 1 None (Some "vless") None].

Definition tunnelled_directions : list TaggedDirection :=
  [(1, mkResolvedDirection None None ["n3"; "n5"] None None None None);
   (2, mkResolvedDirection None None ["n4"] None None None (Some (mkLegParams None (Some "awg"))))].

Definition tunnelled_validated : ValidatedTopology :=
  mkValidated tunnelled_positions tunnelled_directions.*2 4.

Definition held_table : list TunnelRow := [mkRow "other" "n8" "n9" 0 27000 JNull].

Lemma writeTunnels_exact_witness :
  ∃ rows, writeTunnels 16 (λ _ _, []) (λ n, n) "c" tunnelled_positions tunnelled_directions.*2 held_table 7
    = Some (Ok (held_table ++ rows), 33) ∧ t_pair <$> rows = [("n1", "n2"); ("n2", "n4")] ∧
      t_index <$> rows = [1; 2] ∧ tunnels_ok (held_table ++ rows).
Proof.
  eexists. split; [vm_compute; reflexivity|]. split; [reflexivity|]. split; [reflexivity|].
  destruct (writeTunnels_exact (patience := 4) 16 ltac:(lia) (λ _ _, []) (λ n, n) "c" tunnelled_positions
    tunnelled_directions.*2 held_table 7) as (res & g' & E & Hres).
  - constructor.
    + apply (bool_decide_unpack _). vm_compute. exact I.
    + repeat constructor; vm_compute; congruence.
    + apply (bool_decide_unpack _). vm_compute. exact I.
  - vm_compute in E. injection E as <- _. destruct Hres as [Hok _]. exact Hok.
Defined.

Lemma tunnels_match_legs_witness :
  topologyTunnelPairs tunnelled_positions tunnelled_directions.*2 = [("n1", "n2"); ("n2", "n4")] ∧
  ∃ l, l_from l = "n2" ∧ l_to l = "n4" ∧
    legUnderlay tunnelled_positions tunnelled_directions "n2" "n4" (l_tag l) = "awg".
Proof.
  split; [reflexivity|].
  destruct (tunnels_match_legs tunnelled_positions tunnelled_directions tunnelled_validated) as (legs & _ & _ & Hiff).
  - reflexivity.
  - apply (bool_decide_unpack _). vm_compute. exact I.
  - split.
    + intros p k Hp Hk. cbn in Hp. apply elem_of_cons in Hp as [->|Hp]; [discriminate Hk|].
      apply list_elem_of_singleton in Hp as ->. discriminate Hk.
    + intros d Hd. cbn in Hd. apply elem_of_cons in Hd as [->|Hd]; [split; discriminate|].
      apply list_elem_of_singleton in Hd as ->. split; discriminate.
  - destruct (proj1 (Hiff "n2" "n4")) as (l & _ & Hf & Ht & Hu).
    + apply (bool_decide_unpack _). vm_compute. exact I.
    + exists l. split; [exact Hf|]. split; [exact Ht|exact Hu].
Defined.
