(* ===== verification/TopologySave.v ===== *)
(** Writing a cascade's topology
    (apps/panel-backend/src/modules/cascades/cascade.service.ts,
    [writeTopologyV4]): which stored direction each sent one is, the tags the
    new ones draw, the rows of directions and positions, the links with their
    kept credentials, and the tunnels.

    One save runs in one transaction on one cascade's rows, so it is a function
    from the rows before to the rows after; an error leaves them as they were.
    Row ids of new directions are drawn by the database and are an argument. *)

From S2P Require Import Prelude Js Json Draws Directions CascadeValidation LinkCreds TopologyLinks CascadeTunnel.

Local Open Scope string_scope.
Local Open Scope list_scope.
Local Open Scope Z_scope.

Definition MAX_DIRECTION_TAG : Z := 255.

(** ** Rows *)
Record DirectionRow := mkDirectionRow {
  dr_id : string;
  dr_tag : Z;
  dr_nodes : list string;
  dr_outboundId : option string;
  dr_countryCode : option string;
  dr_linkProtocol : option string;
  dr_linkParams : option LegParams;
  dr_linkPort : option Z
}.

Record LinkRow := mkLinkRow {
  lr_from : string; lr_to : string; lr_tag : Z; lr_protocol : string; lr_config : jvalue; lr_port : Z }.

(** A cascade's rows.  A position row holds what was sent. *)
Record Topology := mkTopology {
  nextDirectionTag : Z;
  direction_rows : list DirectionRow;
  position_rows : list CascadePositionInput;
  link_rows : list LinkRow
}.

Inductive save_error :=
  | TagsExhausted (wanted left : Z)
  | DirectionInUseByPolicy (names : list string)
  | LinkError (e : link_error)
  | TunnelError (e : tunnel_error).

(** ** Which direction each one is *)
Definition stored_direction (r : DirectionRow) : StoredDirection :=
  mkStoredDirection (dr_id r) (dr_nodes r) (dr_outboundId r).

(** The keys of a resolved direction the matching reads. *)
Definition as_incoming (d : ResolvedDirection) : IncomingDirection :=
  mkIncomingDirection (rd_id d) (Some (rd_nodeIds d)) (Some (rd_outboundId d)) None None None.

(** A direction of [resolved]: its tag, the row it keeps, and itself. *)
Record Resolved := mkResolved { r_tag : Z; r_keepId : option string; r_direction : ResolvedDirection }.

(** [match.tag]: a match is one of the stored rows. *)
Definition row_tag (rows : list DirectionRow) (id : string) : Z :=
  default 0 (dr_tag <$> js_find (λ r, bool_decide (dr_id r = id)) rows).

Fixpoint resolve_tags (rows : list DirectionRow) (nextTag : Z) (ds : list ResolvedDirection)
    (ms : list (option StoredDirection)) : list Resolved * Z :=
  match ds, ms with
  | d :: ds, Some s :: ms =>
      let '(rs, n) := resolve_tags rows nextTag ds ms in
      (mkResolved (row_tag rows (sd_id s)) (Some (sd_id s)) d :: rs, n)
  | d :: ds, None :: ms =>
      let '(rs, n) := resolve_tags rows (nextTag + 1) ds ms in
      (mkResolved nextTag None d :: rs, n)
  | _, _ => ([], nextTag)
  end.

(** ** The rows written *)
Definition storedLinkMap (rows : list LinkRow) : list (string * LinkCred) :=
  storedLinks ((λ l, (topologyLinkKey (lr_from l) (lr_to l) (lr_tag l), lr_config l)) <$> rows).

Definition directionLinkPort (positions : list CascadePositionInput) : Z :=
  LINK_PORT_BASE + Z.max 0 (Z.of_nat (length positions) - 1).

Definition direction_row (positions : list CascadePositionInput) (id : string) (r : Resolved) : DirectionRow :=
  let d := r_direction r in
  if truthy (rd_outboundId d)
  then mkDirectionRow id (r_tag r) (rd_nodeIds d) (rd_outboundId d) (rd_countryCode d) None None None
  else mkDirectionRow id (r_tag r) (rd_nodeIds d) None (rd_countryCode d) (rd_linkProtocol d)
         (rd_linkParams d) (Some (directionLinkPort positions)).

(** The loop over [resolved]: a kept row is updated in place, its tag is not
    written; a new one is created with the next id. *)
Fixpoint write_directions (positions : list CascadePositionInput) (rows : list DirectionRow)
    (ids : list string) (rs : list Resolved) : list DirectionRow :=
  match rs with
  | [] => rows
  | r :: rs =>
      match r_keepId r, ids with
      | Some id, _ =>
          write_directions positions
            ((λ row, if bool_decide (dr_id row = id)
                     then direction_row positions id (mkResolved (dr_tag row) (Some id) (r_direction r)) else row) <$> rows)
            ids rs
      | None, id :: ids => write_directions positions (rows ++ [direction_row positions id r]) ids rs
      | None, [] => rows
      end
  end.

Definition link_row_of (l : TopologyLink) : LinkRow :=
  mkLinkRow (fromNodeId l) (toNodeId l) (directionTag l) (link_protocol l)
    (serializeLinkCred (cred l)) (port (cred l)).

Section Write.
Context {R G : Type} `{Random R} `{TunnelRandom G} (fuel : nat).
Context (udp_profiles : string → Z → list string) (node_name : string → string).

Definition tagged (r : Resolved) : TaggedDirection := (r_tag r, r_direction r).

(** [policies]: the policy rules that name a direction, with their policy. *)
Definition writeTopologyV4 (cascadeId : string) (policies : list (string * string)) (ids : list string)
    (positions : list CascadePositionInput) (directions : list ResolvedDirection)
    (db : Topology) (tunnels : list TunnelRow) (r : R) (g : G)
    : option (result save_error (Topology * list TunnelRow) * R * G) :=
  let rows := direction_rows db in
  let matches := matchStoredDirections (stored_direction <$> rows) (as_incoming <$> directions) in
  let '(resolved, nextTag) := resolve_tags rows (nextDirectionTag db) directions matches in
  let claimed := omap r_keepId resolved in
  let unclaimed := filter (λ id, id ∉ claimed) (dr_id <$> rows) in
  if MAX_DIRECTION_TAG <? nextTag - 1 then
    Some (Throw (TagsExhausted (nextTag - nextDirectionTag db)
                   (Z.max 0 (MAX_DIRECTION_TAG + 1 - nextDirectionTag db))), r, g)
  else
  let blocking := filter (λ p : string * string, p.1 ∈ unclaimed) policies in
  if negb (bool_decide (blocking = [])) then Some (Throw (DirectionInUseByPolicy (js_uniq blocking.*2)), r, g)
  else
  let kept_rows := filter (λ row, dr_id row ∉ unclaimed) rows in
  let rows' := write_directions positions kept_rows ids resolved in
  match generateTopologyLinks (storedLinkMap (link_rows db)) positions (tagged <$> resolved) r with
  | Throw e => Some (Throw (LinkError e), r, g)
  | Ok (links, r') =>
      '(res, g') ← writeTunnels fuel udp_profiles node_name cascadeId positions directions tunnels g;
      Some (match res with
            | Throw e => Throw (TunnelError e)
            | Ok tunnels' => Ok (mkTopology nextTag rows' positions (link_row_of <$> links.*1), tunnels')
            end, r', g')
  end.
End Write.

(** ** Resolving tags *)
Section Resolve.
Context (rows : list DirectionRow).

Lemma resolve_tags_spec ds : ∀ ms n rs n', length ms = length ds →
  resolve_tags rows n ds ms = (rs, n') →
  n <= n' ∧ r_direction <$> rs = ds ∧ omap r_keepId rs = sd_id <$> omap id ms ∧
  (∀ r, r ∈ rs → match r_keepId r with
                  | Some i => i ∈ sd_id <$> omap id ms ∧ r_tag r = row_tag rows i
                  | None => n <= r_tag r < n'
                  end).
Proof.
  induction ds as [|d ds IH]; intros [|m ms] n rs n' Hl E; try done.
  { injection E as <- <-. split; [lia|]. split; [done|]. split; [done|]. set_solver. }
  injection Hl as Hl. destruct m as [s|]; cbn [resolve_tags] in E.
  - destruct (resolve_tags rows n ds ms) as [rs1 n1] eqn:E1. injection E as <- <-.
    destruct (IH ms n rs1 n1 Hl E1) as (Hle & Hd & Hk & Hr). split; [done|].
    split; [cbn; by f_equal|]. cbn [omap list_omap r_keepId id]. split; [cbn; by f_equal|].
    intros r [->|Hin]%elem_of_cons; [cbn; set_solver|]. specialize (Hr r Hin).
    destruct (r_keepId r); [|done]. destruct Hr. split; [|done]. cbn. set_solver.
  - destruct (resolve_tags rows (n + 1) ds ms) as [rs1 n1] eqn:E1. injection E as <- <-.
    destruct (IH ms (n + 1) rs1 n1 Hl E1) as (Hle & Hd & Hk & Hr). split; [lia|].
    split; [cbn; by f_equal|]. split; [done|].
    intros r [->|Hin]%elem_of_cons; [cbn; lia|]. specialize (Hr r Hin).
    destruct (r_keepId r); [done|lia].
Qed.

Lemma resolve_tags_NoDup ds : ∀ ms n rs n', length ms = length ds →
  resolve_tags rows n ds ms = (rs, n') →
  NoDup (row_tag rows <$> (sd_id <$> omap id ms)) →
  Forall (λ t, t < n) (row_tag rows <$> (sd_id <$> omap id ms)) → NoDup (r_tag <$> rs).
Proof.
  induction ds as [|d ds IH]; intros [|m ms] n rs n' Hl E Hnd Hlt; try done.
  { injection E as <- <-. constructor. }
  injection Hl as Hl. destruct m as [s|]; cbn [resolve_tags] in E; cbn [omap list_omap id] in Hnd, Hlt.
  - destruct (resolve_tags rows n ds ms) as [rs1 n1] eqn:E1. injection E as <- <-.
    rewrite !fmap_cons in Hnd, Hlt. apply NoDup_cons in Hnd as [Hni Hnd]. apply Forall_cons in Hlt as [Hs Hlt].
    rewrite fmap_cons. apply NoDup_cons. split; [|by eapply IH].
    intros (r & Er & Hr)%list_elem_of_fmap. cbn in Er.
    destruct (resolve_tags_spec ds ms n rs1 n1 Hl E1) as (_ & _ & _ & Hspec). specialize (Hspec r Hr).
    destruct (r_keepId r) as [i|]; [|lia]. destruct Hspec as [Hi Et]. apply Hni. rewrite Er, Et.
    by apply list_elem_of_fmap_2.
  - destruct (resolve_tags rows (n + 1) ds ms) as [rs1 n1] eqn:E1. injection E as <- <-.
    rewrite fmap_cons. apply NoDup_cons. split.
    + intros (r & Er & Hr)%list_elem_of_fmap. cbn in Er.
      destruct (resolve_tags_spec ds ms (n + 1) rs1 n1 Hl E1) as (_ & _ & _ & Hspec). specialize (Hspec r Hr).
      destruct (r_keepId r) as [i|]; [|lia]. destruct Hspec as [Hi Et].
      rewrite Forall_forall in Hlt. specialize (Hlt (row_tag rows i)). rewrite <-Et, <-Er in Hlt.
      assert (n < n); [|lia]. apply Hlt. rewrite Er, Et. by apply list_elem_of_fmap_2.
    + eapply IH; [done|exact E1|done|]. eapply Forall_impl; [exact Hlt|]. intros t Ht. cbn in Ht. lia.
Qed.
End Resolve.

(** ** Writing the rows *)
Definition id_tag (r : DirectionRow) : string * Z := (dr_id r, dr_tag r).
Definition news (rs : list Resolved) : list Resolved := filter (λ r, r_keepId r = None) rs.

Lemma news_cons r rs : news (r :: rs) = match r_keepId r with None => r :: news rs | Some _ => news rs end.
Proof. unfold news. rewrite filter_cons. by destruct (r_keepId r). Qed.

Lemma direction_row_id_tag ps id r : id_tag (direction_row ps id r) = (id, r_tag r).
Proof. unfold direction_row, id_tag. by destruct (truthy _). Qed.

Lemma write_directions_id_tag ps rs : ∀ rows ids, (length (news rs) <= length ids)%nat →
  id_tag <$> write_directions ps rows ids rs = (id_tag <$> rows) ++ zip ids (r_tag <$> news rs).
Proof.
  induction rs as [|r rs IH]; intros rows ids Hl; cbn [write_directions].
  { cbn. destruct ids; by rewrite app_nil_r. }
  rewrite news_cons in *. destruct (r_keepId r) as [k|].
  - rewrite IH by done. f_equal. rewrite <-list_fmap_compose. apply list_fmap_ext. intros i row _. cbn.
    case_bool_decide as E; [|done]. by rewrite direction_row_id_tag, <-E.
  - destruct ids as [|i ids]; [simpl in Hl; lia|]. rewrite IH by (simpl in Hl; lia).
    rewrite fmap_app, <-app_assoc. cbn. by rewrite direction_row_id_tag.
Qed.

Lemma write_directions_keeps ps rs : ∀ rows ids row, (length (news rs) <= length ids)%nat →
  row ∈ rows → dr_id row ∉ omap r_keepId rs → row ∈ write_directions ps rows ids rs.
Proof.
  induction rs as [|r rs IH]; intros rows ids row Hl Hin Hni; cbn [write_directions]; [done|].
  rewrite news_cons in Hl. cbn [omap list_omap] in Hni. destruct (r_keepId r) as [k|].
  - apply not_elem_of_cons in Hni as [Hne Hni]. apply IH; [done| |done].
    apply list_elem_of_fmap. exists row. by rewrite bool_decide_false by done.
  - destruct ids as [|i ids]; [simpl in Hl; lia|]. apply IH; [simpl in Hl; lia|set_solver|done].
Qed.

Lemma write_directions_wrote ps rs : ∀ rows ids r, (length (news rs) <= length ids)%nat →
  NoDup (omap r_keepId rs) → NoDup (dr_id <$> rows) →
  (∀ i, i ∈ omap r_keepId rs → ∃ row, row ∈ rows ∧ dr_id row = i) →
  (∀ i, i ∈ ids → i ∉ dr_id <$> rows) → NoDup ids →
  (∀ r row i, r ∈ rs → r_keepId r = Some i → row ∈ rows → dr_id row = i → dr_tag row = r_tag r) →
  r ∈ rs → ∃ i, direction_row ps i r ∈ write_directions ps rows ids rs ∧ ∀ k, r_keepId r = Some k → i = k.
Proof.
  assert (∀ i r, dr_id (direction_row ps i r) = i) as Hid.
  { intros i r. by pose proof (f_equal fst (direction_row_id_tag ps i r)). }
  induction rs as [|x rs IH]; intros rows ids r Hl Hk Hrows Hin Hfresh Hids Htag Hr; [set_solver|].
  cbn [write_directions]. rewrite news_cons in Hl. cbn [omap list_omap] in Hk, Hin.
  destruct (r_keepId x) as [k|] eqn:Ek.
  - apply NoDup_cons in Hk as [Hkn Hk]. set (upd := λ row, if bool_decide (dr_id row = k)
      then direction_row ps k (mkResolved (dr_tag row) (Some k) (r_direction x)) else row).
    assert (dr_id <$> (upd <$> rows) = dr_id <$> rows) as Eid.
    { rewrite <-list_fmap_compose. apply list_fmap_ext. intros j row _. cbn. unfold upd. case_bool_decide; [by rewrite Hid|done]. }
    assert (∀ row, row ∈ upd <$> rows → ∃ row0, row0 ∈ rows ∧ id_tag row0 = id_tag row) as Hback.
    { intros row (row0 & -> & H0)%list_elem_of_fmap. exists row0. split; [done|]. unfold upd.
      case_bool_decide as E; [|done]. by rewrite direction_row_id_tag, <-E. }
    apply elem_of_cons in Hr as [->|Hr].
    + exists k. split; [|naive_solver]. apply write_directions_keeps; [done| |by rewrite Hid].
      destruct (Hin k) as (row & Hrow & Erow); [by left|]. apply list_elem_of_fmap. exists row. split; [|done].
      unfold upd. rewrite bool_decide_true by done. rewrite (Htag x row k); [|by left|done..].
      unfold direction_row. done.
    + apply IH; try done.
      * by rewrite Eid.
      * intros i Hi. destruct (Hin i) as (row & Hrow & Erow); [by right|]. exists (upd row).
        split; [by apply list_elem_of_fmap_2|]. unfold upd. case_bool_decide; [rewrite Hid; congruence|done].
      * by rewrite Eid.
      * intros r' row i Hr' Ei Hrow Erow. destruct (Hback row Hrow) as (row0 & H0 & [= E1 E2]).
        rewrite <-E2. eapply Htag; [by right|exact Ei|done|congruence].
  - destruct ids as [|i ids]; [simpl in Hl; lia|]. apply NoDup_cons in Hids as [Hii Hids].
    assert (i ∉ omap r_keepId rs) as Hik.
    { intros Hi. destruct (Hin i Hi) as (row & Hrow & <-). apply (Hfresh (dr_id row)); [by left|].
      by apply list_elem_of_fmap_2. }
    apply elem_of_cons in Hr as [->|Hr].
    + exists i. split; [|naive_solver]. apply write_directions_keeps; [simpl in Hl; lia|set_solver|by rewrite Hid].
    + apply IH; [simpl in Hl; lia|done| | | |done| |done].
      * rewrite fmap_app. apply NoDup_app. split; [done|]. split; [|apply NoDup_singleton].
        cbn. rewrite Hid. intros j Hj ->%list_elem_of_singleton. apply (Hfresh i); [by left|done].
      * intros j Hj. destruct (Hin j Hj) as (row & ? & ?). exists row. set_solver.
      * intros j Hj. rewrite fmap_app. cbn. rewrite Hid. specialize (Hfresh j). set_solver.
      * intros r' row j Hr' Ej [Hrow|Hrow%list_elem_of_singleton]%elem_of_app Erow.
        -- eapply Htag; [by right|done..].
        -- subst row. rewrite Hid in Erow. subst j. exfalso. apply Hik. apply list_elem_of_omap. by exists r'.
Qed.

(** ** What a save keeps *)
Record topology_ok (db : Topology) : Prop := {
  ids_unique : NoDup (dr_id <$> direction_rows db);
  tags_unique : NoDup (dr_tag <$> direction_rows db);
  tags_issued : Forall (λ r, 1 <= dr_tag r < nextDirectionTag db) (direction_rows db);
  counter_range : 1 <= nextDirectionTag db <= MAX_DIRECTION_TAG + 1
}.

Lemma row_tag_of rows row : NoDup (dr_id <$> rows) → row ∈ rows → row_tag rows (dr_id row) = dr_tag row.
Proof.
  unfold row_tag. intros Hnd Hin. destruct (js_find _ rows) as [row'|] eqn:E.
  - apply js_find_Some in E as [Hin' Eq%bool_decide_eq_true].
    simpl. f_equal. by apply (NoDup_fmap_elem dr_id rows).
  - apply js_find_None with (x := row) in E; [|done]. by rewrite bool_decide_true in E.
Qed.

(** The directions of a save with their tags. *)
Record resolution (db : Topology) (ds : list ResolvedDirection) (rs : list Resolved) (n : Z) : Prop := {
  res_le : nextDirectionTag db <= n;
  res_directions : r_direction <$> rs = ds;
  res_keeps : NoDup (omap r_keepId rs);
  res_tags : NoDup (r_tag <$> rs);
  res_kept r i : r ∈ rs → r_keepId r = Some i →
    ∃ row, row ∈ direction_rows db ∧ dr_id row = i ∧ dr_tag row = r_tag r;
  res_new r : r ∈ rs → r_keepId r = None → nextDirectionTag db <= r_tag r < n
}.

Lemma resolve_ok db ds rs n : topology_ok db →
  resolve_tags (direction_rows db) (nextDirectionTag db) ds
    (matchStoredDirections (stored_direction <$> direction_rows db) (as_incoming <$> ds)) = (rs, n) →
  resolution db ds rs n.
Proof.
  intros [Hids Htags Hiss Hcnt] E. set (rows := direction_rows db) in *.
  unfold matchStoredDirections in E.
  destruct (match_loop_claims (stored_direction <$> rows) (js_uniq (sd_id <$> (stored_direction <$> rows)))
    (as_incoming <$> ds)) as (Hl & Hs & Hn); [apply NoDup_js_uniq|].
  set (ms := match_loop _ _ _) in *. rewrite length_fmap in Hl.
  assert (∀ i, i ∈ sd_id <$> omap id ms → ∃ row, row ∈ rows ∧ dr_id row = i ∧ row_tag rows i = dr_tag row) as Hrow.
  { intros i (s & -> & (o & Ho & Es)%list_elem_of_omap)%list_elem_of_fmap. simpl in Es. subst o.
    destruct (Hs s Ho) as [Hst _]. apply list_elem_of_fmap in Hst as (row & -> & Hin).
    exists row. split; [done|]. split; [done|]. by apply row_tag_of. }
  destruct (resolve_tags_spec rows ds ms _ rs n Hl E) as (Hle & Hd & Hk & Hr). constructor; try done.
  - by rewrite Hk.
  - apply (resolve_tags_NoDup rows ds ms _ rs n Hl E).
    + apply NoDup_fmap_2_strong; [|done]. intros x y Hx Hy Exy.
      destruct (Hrow x Hx) as (rx & Hrx & <- & Ex). destruct (Hrow y Hy) as (ry & Hry & <- & Ey).
      f_equal. apply (NoDup_fmap_elem dr_tag rows); [done..|congruence].
    + apply Forall_forall. intros t (i & -> & Hi)%list_elem_of_fmap. destruct (Hrow i Hi) as (row & Hin & _ & ->).
      rewrite Forall_forall in Hiss. by apply Hiss.
  - intros r i Hin Ei. specialize (Hr r Hin). rewrite Ei in Hr. destruct Hr as [Hi ->].
    destruct (Hrow i Hi) as (row & ? & ? & ?). by exists row.
  - intros r Hin Ei. specialize (Hr r Hin). by rewrite Ei in Hr.
Qed.

(** The rows a save leaves, given its resolved directions. *)
Section Rows.
Context (db : Topology) (ds : list ResolvedDirection) (rs : list Resolved) (n : Z).
Context (ps : list CascadePositionInput) (ids : list string).
Hypothesis ok : topology_ok db.
Hypothesis res : resolution db ds rs n.
Hypothesis ids_distinct : NoDup ids.
Hypothesis ids_fresh : ∀ i, i ∈ ids → i ∉ dr_id <$> direction_rows db.
Hypothesis ids_enough : (length ds <= length ids)%nat.

Let kept := filter (λ row, dr_id row ∈ omap r_keepId rs) (direction_rows db).
Let rows' := write_directions ps kept ids rs.

Lemma news_enough : (length (news rs) <= length ids)%nat.
Proof.
  transitivity (length ds); [|done]. rewrite <-(res_directions _ _ _ _ res), length_fmap. apply length_filter.
Qed.

Lemma rows_id_tag : id_tag <$> rows' = (id_tag <$> kept) ++ zip ids (r_tag <$> news rs).
Proof. apply write_directions_id_tag, news_enough. Qed.

Lemma elem_of_new_row p : p ∈ zip ids (r_tag <$> news rs) →
  p.1 ∈ ids ∧ ∃ r, r ∈ rs ∧ r_keepId r = None ∧ r_tag r = p.2.
Proof.
  intros Hp. destruct p as [i t]. apply elem_of_zip_l in Hp as Hi. apply elem_of_zip_r in Hp as Ht.
  split; [done|]. apply list_elem_of_fmap in Ht as (r & -> & Hr). apply list_elem_of_filter in Hr as [? ?].
  by exists r.
Qed.

Lemma row_origin row : row ∈ rows' →
  (∃ row0, row0 ∈ kept ∧ id_tag row0 = id_tag row) ∨
  (dr_id row ∈ ids ∧ nextDirectionTag db <= dr_tag row < n).
Proof.
  intros Hin. apply (list_elem_of_fmap_2 id_tag) in Hin. rewrite rows_id_tag in Hin.
  apply elem_of_app in Hin as [(row0 & E & H0)%list_elem_of_fmap|Hnew]; [left; by exists row0|right].
  destruct (elem_of_new_row _ Hnew) as (Hi & r & Hr & Hk & Et). split; [done|].
  replace (dr_tag row) with (r_tag r) by done. by apply (res_new _ _ _ _ res).
Qed.

Lemma rows_ids : NoDup (dr_id <$> rows').
Proof.
  assert (dr_id <$> rows' = (dr_id <$> kept) ++ take (length (news rs)) ids) as ->.
  { transitivity ((id_tag <$> rows').*1); [by rewrite <-list_fmap_compose|].
    rewrite rows_id_tag, fmap_app, <-list_fmap_compose. f_equal.
    rewrite <-(take_drop (length (news rs)) ids) at 1. pose proof news_enough.
    rewrite <-(app_nil_r (r_tag <$> news rs)), zip_with_app by (rewrite length_take, length_fmap; lia).
    rewrite fmap_app, fst_zip by (rewrite length_take, length_fmap; lia).
    by rewrite zip_with_nil_r, app_nil_r. }
  apply NoDup_app. split; [apply NoDup_fmap_filter, ok|]. split.
  - intros i (row & -> & Hr)%list_elem_of_fmap Hi. apply list_elem_of_filter in Hr as [_ Hr].
    apply list_elem_of_lookup in Hi as [j Hj]. apply lookup_take_Some in Hj as [Hj _].
    apply (ids_fresh (dr_id row)); [by eapply list_elem_of_lookup_2|by apply list_elem_of_fmap_2].
  - apply (NoDup_app (take (length (news rs)) ids) (drop (length (news rs)) ids)). by rewrite take_drop.
Qed.

Lemma wrote r : r ∈ rs → ∃ i, direction_row ps i r ∈ rows' ∧ ∀ k, r_keepId r = Some k → i = k.
Proof.
  intros Hr. apply write_directions_wrote; [apply news_enough|apply res|apply NoDup_fmap_filter, ok| | |done| |done].
  - intros i Hi. apply list_elem_of_omap in Hi as Hi'. destruct Hi' as (x & Hx & Ek).
    destruct (res_kept _ _ _ _ res x i Hx Ek) as (row & Hrow & <- & _). exists row. split; [|done].
    by apply list_elem_of_filter.
  - intros i Hi (row & -> & Hrow)%list_elem_of_fmap. apply list_elem_of_filter in Hrow as [_ Hrow].
    apply (ids_fresh _ Hi). by apply list_elem_of_fmap_2.
  - intros x row i Hx Ek Hrow <-. apply list_elem_of_filter in Hrow as [_ Hrow].
    destruct (res_kept _ _ _ _ res x _ Hx Ek) as (row' & Hrow' & Eid & <-).
    f_equal. by apply (NoDup_fmap_elem dr_id (direction_rows db)); [apply ok|..].
Qed.

Lemma rows_tags : NoDup (dr_tag <$> rows') ∧ dr_tag <$> rows' ≡ₚ r_tag <$> rs.
Proof.
  assert (∀ t, t ∈ dr_tag <$> rows' ↔ t ∈ r_tag <$> rs) as Hiff.
  { intros t. split.
    - intros (row & -> & Hin)%list_elem_of_fmap. apply (list_elem_of_fmap_2 id_tag) in Hin. rewrite rows_id_tag in Hin.
      apply elem_of_app in Hin as [(row0 & [= _ ->] & H0)%list_elem_of_fmap|Hnew].
      + apply list_elem_of_filter in H0 as [Hk H0]. apply list_elem_of_omap in Hk as (x & Hx & Ek).
        destruct (res_kept _ _ _ _ res x _ Hx Ek) as (row1 & H1 & Eid & Et).
        assert (row0 = row1) as -> by (by apply (NoDup_fmap_elem dr_id (direction_rows db)); [apply ok|..]).
        rewrite Et. by apply list_elem_of_fmap_2.
      + destruct (elem_of_new_row _ Hnew) as (_ & r & Hr & _ & Et). cbn in Et. rewrite <-Et. by apply list_elem_of_fmap_2.
    - intros (r & -> & Hr)%list_elem_of_fmap. destruct (wrote r Hr) as (i & Hin & _).
      apply (list_elem_of_fmap_2 dr_tag) in Hin. by rewrite (f_equal snd (direction_row_id_tag ps i r) : dr_tag _ = _) in Hin. }
  assert (length (dr_tag <$> rows') <= length (r_tag <$> rs))%nat as Hlen.
  { rewrite length_fmap. transitivity (length (id_tag <$> rows')); [by rewrite length_fmap|].
    rewrite rows_id_tag, length_app, length_fmap, length_zip_with, length_fmap.
    assert (length (omap r_keepId rs) + length (news rs) = length rs)%nat as E.
    { clear. induction rs as [|r l IH]; [done|]. rewrite news_cons. cbn [omap list_omap].
      destruct (r_keepId r); simpl in *; lia. }
    assert (length kept <= length (omap r_keepId rs))%nat; [|rewrite length_fmap; lia].
    rewrite <-(length_fmap dr_id). apply submseteq_length, NoDup_submseteq; [apply NoDup_fmap_filter, ok|].
    intros i (row & -> & Hr)%list_elem_of_fmap. by apply list_elem_of_filter in Hr as [? _]. }
  assert (r_tag <$> rs ≡ₚ dr_tag <$> rows') as Hp.
  { apply submseteq_length_Permutation; [|lia]. apply NoDup_submseteq; [apply res|]. intros t. by rewrite Hiff. }
  split; [|done]. rewrite <-Hp. apply res.
Qed.

Lemma rows_ok : n <= MAX_DIRECTION_TAG + 1 → topology_ok (mkTopology n rows' ps []).
Proof.
  intros Hn. pose proof (res_le _ _ _ _ res). destruct ok as [_ _ Hi Hc].
  constructor; cbn; [apply rows_ids|apply rows_tags| |lia].
  apply Forall_forall. intros row [(row0 & H0 & [= _ <-])|[_ ?]]%row_origin; [|lia].
  apply list_elem_of_filter in H0 as [_ H0]. rewrite Forall_forall in Hi. specialize (Hi row0 H0). cbn in Hi. lia.
Qed.
End Rows.

Lemma kept_rows_eq (rows : list DirectionRow) (claimed : list string) :
  filter (λ row, dr_id row ∉ filter (λ id, id ∉ claimed) (dr_id <$> rows)) rows
  = filter (λ row, dr_id row ∈ claimed) rows.
Proof.
  apply filter_same_in. intros row Hin. rewrite list_elem_of_filter.
  pose proof (list_elem_of_fmap_2 dr_id rows row Hin). split; [|naive_solver].
  intros Hn. destruct (decide (dr_id row ∈ claimed)); [done|]. exfalso. by apply Hn.
Qed.

(** A leg's credential kept: the same secrets, whatever becomes of its knob and
    of a REALITY block that is missing or points at an outdated target. *)
Definition same_secrets (c c' : LinkCred) : Prop :=
  match c, c' with
  | Vless p u r, Vless p' u' r' => p' = p ∧ u' = u ∧ ∀ k, r = Some k → ∃ k', r' = Some k' ∧
      shortId k' = shortId k ∧ privateKey k' = privateKey k ∧ publicKey k' = publicKey k
  | Tuic p u w _ t, Tuic p' u' w' _ t' => p' = p ∧ u' = u ∧ w' = w ∧ t' = t
  | _, _ => c' = c
  end.

(** What the rows hold, with the node that listens. *)
Definition landing_rows (rows : list LinkRow) : list (string * LinkCred) :=
  omap (λ row, (λ c, (lr_to row, c)) <$> parseLinkCred (lr_config row)) rows.

Lemma landing_rows_elem rows to c : (to, c) ∈ landing_rows rows ↔
  ∃ row, row ∈ rows ∧ lr_to row = to ∧ parseLinkCred (lr_config row) = Some c.
Proof.
  unfold landing_rows. rewrite list_elem_of_omap. split.
  - intros (row & Hr & E). destruct (parseLinkCred _) as [c'|] eqn:Ec; [|done]. injection E as <- <-. eauto.
  - intros (row & Hr & <- & E). exists row. by rewrite E.
Qed.

Definition lr_ends (l : LinkRow) : string * string * Z := (lr_from l, lr_to l, lr_tag l).
Definition lr_key (l : LinkRow) : string := topologyLinkKey (lr_from l) (lr_to l) (lr_tag l).

Lemma one_pair_distinct (legs : list (string * LinkCred)) : NoDup legs.*1 → one_pair legs.
Proof.
  intros Hnd to c c' k k' Hc Hc' Hk Hk'. assert ((to, c) = (to, c')) as [= <-] by (by apply (NoDup_fmap_elem fst legs)).
  by rewrite Hk in Hk'; injection Hk' as <-.
Qed.

(** Node ids, as the panel makes them, in the topology and in the rows. *)
Definition plain_nodes (ps : list CascadePositionInput) (ds : list TaggedDirection) (rows : list LinkRow) : Prop :=
  (∀ n, n ∈ ps ≫= p_nodeIds ∨ n ∈ ds ≫= (λ d, rd_nodeIds d.2) → char_free "|" n) ∧
  ∀ row, row ∈ rows → char_free "|" (lr_from row) ∧ char_free "|" (lr_to row).

(** The pair stored against a node is the one its legs keep. *)
Lemma block_pair rows ps ds p k s :
  plain_nodes ps ds rows → one_pair (landing_rows rows) → p ∈ legs_of ps ds →
  stored_block (storedLinkMap rows) (legs_of ps ds) (l_to p) = Some s →
  (∃ row c, row ∈ rows ∧ lr_to row = l_to p ∧ parseLinkCred (lr_config row) = Some c ∧ reality_of c = Some k) →
  privateKey s = privateKey k ∧ publicKey s = publicKey k.
Proof.
  intros [Hids Hrows] Hone Hp Hs (row & c & Hrow & Hto & Hc & Hk).
  apply stored_block_source in Hs as (q & cq & Hq & Hqto & Hget & Hkq).
  apply storedLinks_source in Hget as (j & Hj & Hparse).
  apply list_elem_of_fmap in Hj as (row' & [= Ekey ->] & Hrow').
  destruct (leg_nodes ps ds Hids q Hq) as [Hf Ht]. destruct (Hrows row' Hrow') as [Hf' Ht'].
  apply topologyLinkKey_inj in Ekey as [= Efrom Eto Etag]; [|done..].
  apply (Hone (l_to p) cq c).
  - apply landing_rows_elem. exists row'. split; [done|]. split; [congruence|done].
  - apply landing_rows_elem. by exists row.
  - done.
  - done.
Qed.

(** A stored leg of the same cell and port comes out with its secrets. *)
Lemma made_same_secrets rows ps ds m p l row c :
  plain_nodes ps ds rows → one_pair (landing_rows rows) → NoDup (lr_key <$> rows) →
  key_ok (storedLinkMap rows) (legs_of ps ds) m → p ∈ legs_of ps ds → made (storedLinkMap rows) m p l →
  row ∈ rows → lr_ends row = leg_ends p → parseLinkCred (lr_config row) = Some c →
  protocol c = l_protocol p → port c = leg_port p → same_secrets c (cred l).
Proof.
  intros Hids Hone Hkeys Hm Hp Hmade Hrow Hends Hc Hpr Hpo.
  assert (lr_to row = l_to p) as Hto by (unfold lr_ends, leg_ends in Hends; congruence).
  assert (jm_get (leg_key p) (storedLinkMap rows) = Some c) as Hget.
  { apply (storedLinks_lookup _ _ (lr_config row)); [by rewrite <-list_fmap_compose| |done].
    apply list_elem_of_fmap. exists row. split; [|done]. f_equal. unfold lr_ends, leg_ends in Hends. unfold leg_key. congruence. }
  assert (keptFor (storedLinkMap rows) p = reuseLinkCred (Some c) (l_protocol p) (leg_port p) (l_congestion p)) as Hkept
    by (unfold keptFor; by rewrite Hget).
  unfold reuseLinkCred in Hkept. rewrite Hpr, Hpo, bool_decide_true, Z.eqb_refl in Hkept by done. cbn [negb orb] in Hkept.
  destruct c as [q u b|q k me|q a o t|q u w k t].
  2-3: pose proof (made_kept _ _ _ _ Hmade _ Hkept) as E; simpl in E; by rewrite E.
  2: { destruct (_ && _); pose proof (made_kept _ _ _ _ Hmade _ Hkept) as E; simpl in E; by rewrite E. }
  pose proof (made_kept _ _ _ _ Hmade _ Hkept) as E. destruct (made_vless _ _ _ _ Hmade (eq_sym Hpr)) as (key & u' & sid & Hkey & Ec).
  rewrite Ec in E |- *. destruct E as (Eq & Eu & Esid). split; [done|]. split; [done|]. intros k Hk.
  eexists. split; [done|]. specialize (Esid k Hk). simpl in Esid. injection Esid as Esid. split; [done|].
  destruct (stored_block_is (storedLinkMap rows) (legs_of ps ds) p k Hp (eq_sym Hpr)) as [s Hs]; [by rewrite Hkept|].
  destruct (block_pair rows ps ds p k s) as [E1 E2]; [done..| |].
  { exists row, (Vless q u b). done. }
  destruct (Hm _ _ Hkey) as [_ Hkeep]. rewrite (Hkeep s Hs). simpl. by rewrite E1, E2.
Qed.

Section Save.
Context {R G : Type} `{RandomOk R} `{TunnelRandomOk G patience} (fuel : nat).
Context (udp_profiles : string → Z → list string) (node_name : string → string).
Context (cascadeId : string) (policies : list (string * string)) (ids : list string).
Context (ps : list CascadePositionInput) (ds : list ResolvedDirection) (db : Topology).
Context (tunnels : list TunnelRow) (r : R) (g : G).

Notation save := (writeTopologyV4 fuel udp_profiles node_name cascadeId policies ids ps ds db tunnels r g).

Lemma save_inv db' tunnels' r' g' : save = Some (Ok (db', tunnels'), r', g') →
  ∃ rs n ls, resolve_tags (direction_rows db) (nextDirectionTag db) ds
      (matchStoredDirections (stored_direction <$> direction_rows db) (as_incoming <$> ds)) = (rs, n) ∧
    n <= MAX_DIRECTION_TAG + 1 ∧
    (∀ p, p ∈ policies → p.1 ∈ dr_id <$> direction_rows db → p.1 ∈ omap r_keepId rs) ∧
    (∃ r0, generateTopologyLinks (storedLinkMap (link_rows db)) ps (tagged <$> rs) r = Ok (ls, r0)) ∧
    db' = mkTopology n (write_directions ps (filter (λ row, dr_id row ∈ omap r_keepId rs) (direction_rows db)) ids rs)
            ps (link_row_of <$> ls.*1).
Proof.
  unfold writeTopologyV4. cbv zeta. destruct (resolve_tags _ _ _ _) as [rs n] eqn:E.
  destruct (Z.ltb_spec MAX_DIRECTION_TAG (n - 1)); [done|].
  case_bool_decide as Hb; [|done]. cbn [negb].
  destruct (generateTopologyLinks _ _ _ r) as [[ls r0]|] eqn:El; [|done].
  destruct (writeTunnels _ _ _ _ _ _ _ g) as [[[t|] g1]|]; [|done..]. cbn [mbind option_bind].
  intros [= <- <- <- <-]. exists rs, n, ls. split; [done|]. split; [lia|]. split; [|split; [by exists r0|]].
  - intros p Hp Hin. destruct (decide (p.1 ∈ omap r_keepId rs)); [done|]. exfalso.
    assert (p ∈ filter (λ p : string * string, p.1 ∈ filter (λ id, id ∉ omap r_keepId rs) (dr_id <$> direction_rows db)) policies)
      as Hbad by (apply list_elem_of_filter; split; [by apply list_elem_of_filter|done]).
    rewrite Hb in Hbad. set_solver.
  - by rewrite kept_rows_eq.
Qed.

(** C24. A save keeps every direction's tag for good: afterwards row ids and
    tags are distinct and below the counter, which never goes down; a row is
    either one that was there, with its tag, or new, with a tag never issued
    before; every direction sent has its row and no other row is left, and a
    direction a node policy names is never dropped. *)
Theorem save_keeps_tags db' tunnels' r' g' :
  topology_ok db → NoDup ids → (∀ i, i ∈ ids → i ∉ dr_id <$> direction_rows db) → (length ds <= length ids)%nat →
  save = Some (Ok (db', tunnels'), r', g') →
  topology_ok db' ∧ nextDirectionTag db <= nextDirectionTag db' ∧
  (∀ row, row ∈ direction_rows db' →
     (∃ row0, row0 ∈ direction_rows db ∧ id_tag row0 = id_tag row) ∨
     (dr_id row ∈ ids ∧ nextDirectionTag db <= dr_tag row)) ∧
  (∃ rs, r_direction <$> rs = ds ∧ dr_tag <$> direction_rows db' ≡ₚ r_tag <$> rs ∧
     ∀ x, x ∈ rs → ∃ i, direction_row ps i x ∈ direction_rows db') ∧
  (∀ p, p ∈ policies → p.1 ∈ dr_id <$> direction_rows db → p.1 ∈ dr_id <$> direction_rows db').
Proof.
  intros Hok Hids Hfresh Hen Hs. destruct (save_inv _ _ _ _ Hs) as (rs & n & ls & E & Hn & Hp & _ & ->).
  pose proof (resolve_ok _ _ _ _ Hok E) as Hres. cbn [direction_rows nextDirectionTag].
  pose proof (rows_ok db ds rs n ps ids Hok Hres Hids Hfresh Hen Hn) as Hok'.
  split; [by destruct Hok'|]. split; [apply Hres|]. split; [|split].
  - intros row Hrow. destruct (row_origin db ds rs n ps ids Hres Hen row Hrow) as [(row0 & Hr0 & E0)|[? ?]]; [left|right].
    + exists row0. split; [|done]. by apply list_elem_of_filter in Hr0 as [_ ?].
    + split; [done|lia].
  - exists rs. split; [apply Hres|]. split; [by apply (rows_tags db ds rs n ps ids Hok Hres)|].
    intros x Hx. destruct (wrote db ds rs n ps ids Hok Hres Hids Hfresh Hen x Hx) as (i & Hi & _). by exists i.
  - intros p Hin Hrow. specialize (Hp p Hin Hrow). apply list_elem_of_omap in Hp as (x & Hx & Ek).
    destruct (wrote db ds rs n ps ids Hok Hres Hids Hfresh Hen x Hx) as (i & Hi & Hk). rewrite <-(Hk _ Ek).
    apply list_elem_of_fmap. exists (direction_row ps i x). split; [|done].
    by rewrite (f_equal fst (direction_row_id_tag ps i x) : dr_id _ = _).
Qed.

(** C15. A save of a validated topology leaves exactly one link row per leg of
    the topology under the tags it resolved, each with a credential that
    parses, of the row's cell and port, and never a plain one; and a leg that
    was already stored, whatever else the save changed, keeps its secrets
    unless its cell or port changed: a REALITY leg its user, its short id and
    the key pair of the node it lands on.  Afterwards the legs that land on one
    node hold one pair, as they must have before; node ids have no bar. *)
Theorem save_keeps_links ps0 v db' tunnels' r' g' :
  topology_ok db → NoDup (lr_key <$> link_rows db) → one_pair (landing_rows (link_rows db)) →
  plain_nodes ps (pair 0 <$> ds) (link_rows db) →
  validateCascadeTopology ps0 ds = Ok v → ps = v_positions v → typed_topology ps (pair 0 <$> ds) →
  save = Some (Ok (db', tunnels'), r', g') →
  ∃ rs, r_direction <$> rs = ds ∧ NoDup (lr_ends <$> link_rows db') ∧
    (∀ ends, ends ∈ lr_ends <$> link_rows db' ↔
       ∃ l, (inner_leg ps (tagged <$> rs) l ∨ final_leg ps (tagged <$> rs) l) ∧ leg_ends l = ends) ∧
    one_pair (landing_rows (link_rows db')) ∧
    ∀ row, row ∈ link_rows db' → ∃ c, parseLinkCred (lr_config row) = Some c ∧
      protocol c = lr_protocol row ∧ port c = lr_port row ∧ plain c = false ∧
      ∀ row0 c0, row0 ∈ link_rows db → lr_ends row0 = lr_ends row → parseLinkCred (lr_config row0) = Some c0 →
        protocol c0 = protocol c → port c0 = port c → same_secrets c0 c.
Proof.
  intros Hok Hkeys Hone Hids Hv Eps Ht Hs. destruct (save_inv _ _ _ _ Hs) as (rs & n & ls & E & _ & _ & (r0 & El) & ->).
  rewrite Eps in *.
  pose proof (resolve_ok _ _ _ _ Hok E) as Hres.
  assert ((tagged <$> rs).*2 = ds) as Eds.
  { rewrite <-list_fmap_compose. apply (res_directions _ _ _ _ Hres). }
  assert (typed_topology (v_positions v) (tagged <$> rs)) as Ht'.
  { split; [apply Ht|]. intros d Hd. apply (list_elem_of_fmap_2 snd) in Hd. rewrite Eds in Hd.
    by apply (proj2 Ht (0, d.2)), (list_elem_of_fmap_2 (pair 0)). }
  assert (plain_nodes (v_positions v) (tagged <$> rs) (link_rows db)) as Hids'.
  { destruct Hids as [Hi Hr]. split; [|done]. intros x [Hx|(d & Hx & Hd)%list_elem_of_bind]; [by apply Hi; left|].
    apply Hi. right. apply list_elem_of_bind. exists (0, d.2). split; [done|].
    apply (list_elem_of_fmap_2 (pair 0)). rewrite <-Eds. by apply list_elem_of_fmap_2. }
  assert (NoDup (tagged <$> rs).*1) as Hnd.
  { rewrite <-list_fmap_compose. apply (res_tags _ _ _ _ Hres). }
  rewrite <-Eds in Hv. destruct (validated_facts _ _ _ Hv Hnd Ht') as (Hc & Hd & _).
  assert (parsed (storedLinkMap (link_rows db))) as Hp by apply storedLinks_parsed.
  destruct (generate_ok (storedLinkMap (link_rows db)) (v_positions v) (tagged <$> rs) r Hp Hc Ht') as (m & ls' & r1 & E' & Hm & Hf).
  rewrite El in E'. injection E' as <- <-. cbn [link_rows].
  assert (lr_ends <$> (link_row_of <$> ls.*1) = leg_ends <$> legs_of (v_positions v) (tagged <$> rs)) as Eends.
  { rewrite <-list_fmap_compose. clear -Hf. induction Hf as [|p l legs links Hm _ IH]; [done|]. cbn [fmap list_fmap].
    f_equal; [|exact IH]. apply (made_ends _ _ _ _ Hm). }
  assert (∀ l, l ∈ ls.*1 → ∃ p, p ∈ legs_of (v_positions v) (tagged <$> rs) ∧ made (storedLinkMap (link_rows db)) m p l ∧
    parseLinkCred (lr_config (link_row_of l)) = Some (cred l)) as Hmade.
  { intros l Hl. destruct (Forall2_elem_r _ _ _ _ Hf Hl) as (p & Hleg & Hml). exists p. split; [done|]. split; [done|].
    apply parse_serialize_cred, (made_whole _ _ _ _ Hml). }
  exists rs. split; [apply Hres|]. split; [rewrite Eends; by apply legs_ends_NoDup|]. split.
  { intros ends. rewrite Eends, list_elem_of_fmap. setoid_rewrite elem_of_legs. naive_solver. }
  split.
  - pose proof (made_one_pair _ _ _ _ Hf) as Hpair.
    assert (∀ to c, (to, c) ∈ landing_rows (link_row_of <$> ls.*1) → (to, c) ∈ landing ls.*1) as Hsub.
    { intros to c (row & (l & -> & Hl)%list_elem_of_fmap & <- & Hc')%landing_rows_elem. destruct (Hmade l Hl) as (_ & _ & _ & Hpl).
      rewrite Hpl in Hc'. injection Hc' as <-. unfold landing. apply list_elem_of_fmap. by exists l. }
    intros to c c' k k' Hc1 Hc2. by eapply Hpair; apply Hsub.
  - intros row (l & -> & Hl)%list_elem_of_fmap. destruct (Hmade l Hl) as (p & Hleg & Hml & Hpl). exists (cred l).
    split; [done|]. cbn [link_row_of lr_config lr_protocol lr_port].
    split; [by rewrite (made_cell _ _ _ _ Hml), (made_protocol _ _ _ _ Hml)|].
    split; [done|]. split; [by eapply made_not_plain|].
    intros row0 c0 Hr0 Ee Ec Epr Epo. pose proof (made_ends _ _ _ _ Hml) as Em.
    eapply (made_same_secrets (link_rows db) (v_positions v) (tagged <$> rs) m p l row0); try done.
    + rewrite Ee. exact Em.
    + by rewrite Epr, (made_cell _ _ _ _ Hml).
    + by rewrite Epo, (made_port _ _ _ _ Hml).
Qed.
End Save.

(** ** Two saves *)
Definition empty_topology : Topology := mkTopology 1 [] [] [].

Definition direction_to (id : option string) (nodes : list string) (country : string) : ResolvedDirection :=
  mkResolvedDirection id None nodes None (Some country) None None.

Definition save_of (ids : list string) (ps : list CascadePositionInput) (ds : list ResolvedDirection) (db : Topology) :=
  writeTopologyV4 (R := Z) (G := Z) 16 (λ _ _, []) (λ n, n) "c" [("row-1", "policy")] ids ps ds db [] 100 0.

Definition saved (x : option (result save_error (Topology * list TunnelRow) * Z * Z)) : Topology :=
  match x with Some (Ok (db, _), _, _) => db | _ => empty_topology end.

Definition entry_position : list CascadePositionInput := [mkPosition ["n1"] 0 (Some "xray") (Some "vless") None].

(** Two directions; then the first is renamed, the second dropped and a third
    added. *)
Definition first_save : Topology :=
  saved (save_of ["row-1"; "row-2"] entry_position
           [direction_to None ["n2"] "NL"; direction_to None ["n3"] "DE"] empty_topology).

Definition second_directions : list ResolvedDirection :=
  [direction_to (Some "row-1") ["n2"] "BE"; direction_to None ["n4"] "FR"].

Lemma first_save_ok : topology_ok first_save.
Proof.
  constructor.
  - apply (bool_decide_unpack _). vm_compute. exact I.
  - apply (bool_decide_unpack _). vm_compute. exact I.
  - apply (bool_decide_unpack _). vm_compute. exact I.
  - vm_compute. split; congruence.
Qed.

Lemma save_keeps_tags_witness :
  topology_ok (saved (save_of ["row-3"; "row-4"] entry_position second_directions first_save)) ∧
  id_tag <$> direction_rows (saved (save_of ["row-3"; "row-4"] entry_position second_directions first_save))
  = [("row-1", 1); ("row-3", 3)].
Proof.
  split; [|vm_compute; reflexivity].
  eapply (save_keeps_tags (patience := 4) 16 (λ _ _, []) (λ n, n) "c" [("row-1", "policy")] ["row-3"; "row-4"]
    entry_position second_directions first_save [] 100 0).
  - exact first_save_ok.
  - apply (bool_decide_unpack _). vm_compute. exact I.
  - intros i Hi. apply (bool_decide_unpack _). repeat (apply elem_of_cons in Hi as [->|Hi]; [vm_compute; exact I|]).
    by apply elem_of_nil in Hi.
  - vm_compute. lia.
  - vm_compute. reflexivity.
Defined.

(** The leg that stays is a REALITY leg and keeps its pair. *)
Definition kept_row (rows : list LinkRow) : option LinkCred :=
  js_find (λ row, bool_decide (lr_ends row = ("n1", "n2", 1))) rows ≫= λ row, parseLinkCred (lr_config row).

Lemma save_keeps_links_witness :
  let db' := saved (save_of ["row-3"; "row-4"] entry_position second_directions first_save) in
  (∃ rs, r_direction <$> rs = second_directions ∧ ∀ ends, ends ∈ lr_ends <$> link_rows db' ↔
      ∃ l, (inner_leg entry_position (tagged <$> rs) l ∨ final_leg entry_position (tagged <$> rs) l) ∧ leg_ends l = ends) ∧
  ∃ c k c' k', kept_row (link_rows first_save) = Some c ∧ reality_of c = Some k ∧
    kept_row (link_rows db') = Some c' ∧ reality_of c' = Some k' ∧ privateKey k' = privateKey k.
Proof.
  intros db'. edestruct (save_keeps_links (patience := 4) 16 (λ _ _, []) (λ n, n) "c" [("row-1", "policy")] ["row-3"; "row-4"]
    entry_position second_directions first_save [] 100 0 entry_position
    (mkValidated entry_position second_directions 2) db') as (rs & Hd & _ & Hends & _ & Hsame).
  - exact first_save_ok.
  - apply (bool_decide_unpack _). vm_compute. exact I.
  - apply one_pair_distinct. apply (bool_decide_unpack _). vm_compute. exact I.
  - split.
    + intros n Hn. assert (n ∈ ["n1"; "n2"; "n4"]) as Hn' by (cbn in Hn; set_solver). clear Hn. unfold char_free.
      repeat (apply elem_of_cons in Hn' as [->|Hn']; [apply (bool_decide_unpack _); vm_compute; exact I|]).
      by apply not_elem_of_nil in Hn'.
    + intros row Hrow. unfold char_free. vm_compute in Hrow.
      repeat (apply elem_of_cons in Hrow as [->|Hrow]; [split; apply (bool_decide_unpack _); vm_compute; exact I|]).
      by apply not_elem_of_nil in Hrow.
  - reflexivity.
  - reflexivity.
  - split.
    + intros p k Hp Hk. cbn in Hp. apply list_elem_of_singleton in Hp as ->. discriminate Hk.
    + intros d Hd. cbn in Hd. repeat (apply elem_of_cons in Hd as [->|Hd]; [split; discriminate|]).
      by apply elem_of_nil in Hd.
  - vm_compute. reflexivity.
  - split; [by exists rs|].
    destruct (js_find (λ row, bool_decide (lr_ends row = ("n1", "n2", 1))) (link_rows db')) as [row|] eqn:Erow;
      [|vm_compute in Erow; discriminate Erow].
    destruct (js_find (λ row, bool_decide (lr_ends row = ("n1", "n2", 1))) (link_rows first_save)) as [row0|] eqn:Erow0;
      [|vm_compute in Erow0; discriminate Erow0].
    unfold kept_row. rewrite Erow, Erow0. cbn [mbind option_bind].
    pose proof Erow as E1. apply js_find_Some in Erow as [Hrow Hre%bool_decide_eq_true].
    pose proof Erow0 as E0. apply js_find_Some in Erow0 as [Hrow0 Hre0%bool_decide_eq_true].
    destruct (Hsame row Hrow) as (c & Hc & _ & _ & _ & Hkeep).
    vm_compute in E1, E0. injection E1 as E1. injection E0 as E0.
    destruct (parseLinkCred (lr_config row0)) as [c0|] eqn:Hc0; [|rewrite <-E0 in Hc0; vm_compute in Hc0; discriminate Hc0].
    specialize (Hkeep row0 c0 Hrow0 ltac:(congruence) Hc0).
    pose proof Hc as Ec. pose proof Hc0 as Ec0. rewrite <-E1 in Ec. rewrite <-E0 in Ec0. vm_compute in Ec, Ec0.
    injection Ec as Ec. injection Ec0 as Ec0. rewrite <-Ec, <-Ec0 in Hkeep. destruct Hkeep as (_ & _ & Hkeep); [reflexivity..|].
    destruct (Hkeep _ eq_refl) as (k' & Hk' & _ & Hpair & _). rewrite <-Ec0, <-Ec in *.
    eexists _, _, _, k'. split; [reflexivity|]. split; [reflexivity|]. split; [exact Hc|]. split; [exact Hk'|exact Hpair].
Defined.
