(* ===== verification/EntryGate.v ===== *)
(** Route tags and the gate on who may take them
    (apps/panel-backend/src/modules/cascades/cascade.config.ts and
    chain.ports.ts).

    A client's choice of way out is a 16-bit tag in its UUID, which xray reads
    as [vlessRoute].  The rules of an entry are xray routing rules, of which
    the first that matches decides; [applyEntryUserGate] rewrites them so that
    a tag is taken only by whom it was handed to.

    A rule's field that is absent is [None].  xray drops an empty condition.
    What a rule matches by name and by address is a parameter of a connection:
    which lists of entries it hits. *)

From S2P Require Import Prelude Js.

Local Open Scope string_scope.
Local Open Scope list_scope.
Local Open Scope Z_scope.

(** ** Tags *)
Definition MAX_DIRECTION_ORDINAL : Z := 254.

Definition routeTag (policyOrdinal exitIndex : Z) : Z := policyOrdinal * 256 + exitIndex + 1.
Definition autoRouteTag (policyOrdinal : Z) : Z := 0xffff - policyOrdinal.
Definition isAutoRouteTag (tag : Z) : bool := autoRouteTag MAX_DIRECTION_ORDINAL <=? tag.
Definition directionOfRouteTag (tag : Z) : option Z :=
  if isAutoRouteTag tag then None else Some (tag mod 256).

(** ** Ports of the hand-off to the chain process *)
Definition CHAIN_SOCKS_BASE : Z := 26000.
Definition CHAIN_TPROXY_PORT : Z := 25000.
Definition CHAIN_TPROXY_MARK_BASE : Z := 0x10000.
Definition chainSocksUser (ordinal : Z) : string := "p" +:+ pretty ordinal.
Definition CHAIN_SOCKS_USER : string := chainSocksUser 0.
Definition chainSocksPort (directionTag : Z) : Z := CHAIN_SOCKS_BASE + directionTag.

(** [None] is the RangeError. *)
Definition chainTProxyMark (listenPort : Z) : option Z :=
  if (listenPort <? 1) || (65535 <? listenPort) then None else Some (CHAIN_TPROXY_MARK_BASE + listenPort).

(** ** Rules *)
Record Rule := mkRule {
  vlessRoute : option string;
  user : option (list string);
  inboundTag : option (list string);
  network : option string;
  rule_port : option Z;
  domain : option (list string);
  ip : option (list string);
  outboundTag : option string;
  balancerTag : option string
}.

#[global] Instance Rule_eq_dec : EqDecision Rule.
Proof. solve_decision. Defined.

(** A rule with a route and a target, and no other condition. *)
Definition route_rule (route : string) (out : string) : Rule :=
  mkRule (Some route) None None None None None None (Some out) None.

Definition with_route (r : Rule) (route : string) (u : option (list string)) : Rule :=
  mkRule (Some route) (match u with Some us => Some us | None => user r end) (inboundTag r) (network r)
    (rule_port r) (domain r) (ip r) (outboundTag r) (balancerTag r).

(** [Number(x)] of a part of a route: an integer, or NaN. *)
Definition route_number (s : string) : option Z := sf_to_int (js_Number s).
Definition number_text (n : option Z) : string := match n with Some z => pretty z | None => "NaN" end.

Definition tagsOf (r : Rule) : option (list (option Z)) :=
  (λ s, route_number <$> js_split "," s) <$> vlessRoute r.

(** ** The gate *)
Section Gate.
Context (allowedTagsOf : list (string * list Z)).

Definition users : list string := sort_by str_leb (jm_keys allowedTagsOf).

Definition may_take (u : string) (t : option Z) : bool :=
  match t, jm_get u allowedTagsOf with
  | Some z, Some ts => bool_decide (z ∈ ts)
  | _, _ => false
  end.

(** Who may take a tag; [None] is everybody. *)
Definition allowed_list (t : option Z) : option (list string) :=
  let l := filter (λ u, may_take u t = true) users in
  if bool_decide (length l = length users) && negb (bool_decide (users = [])) then None else Some l.

Definition allowed_step (m : list (option Z * option (list string))) (t : option Z) :=
  if bool_decide (t ∈ jm_keys m) then m else jm_set t (allowed_list t) m.

Definition allowed (rules : list Rule) : list (option Z * option (list string)) :=
  foldl allowed_step [] (rules ≫= λ r, default [] (tagsOf r)).

(** [allowed.get(t) ?? null]. *)
Definition allowed_get (m : list (option Z * option (list string))) (t : option Z) : option (list string) :=
  default None (jm_get t m).

Definition group_key (l : option (list string)) : string :=
  match l with None => "*" | Some us => js_join "," us end.

(** [groups]: the tags and the users of each key. *)
Definition groups (m : list (option Z * option (list string))) (tags : list (option Z))
    : list (string * (list (option Z) * option (list string))) :=
  foldl (group_add (λ t, group_key (allowed_get m t)) (λ t, ([], allowed_get m t))
           (λ g t, (g.1 ++ [t], g.2))) [] tags.

Definition group_rule (r : Rule) (g : list (option Z) * option (list string)) : list Rule :=
  match g.2 with
  | Some [] => []
  | us => [with_route r (js_join "," (number_text <$> g.1)) us]
  end.

(** What one rule becomes.  [every] asks [allowed.get(t) === null]: every tag
    of a rule is a key of the map. *)
Definition gate_rule (m : list (option Z * option (list string))) (r : Rule) : list Rule :=
  match tagsOf r with
  | None => [r]
  | Some tags =>
      if forallb (λ t, bool_decide (allowed_get m t = None)) tags then [r]
      else (groups m tags).*2 ≫= group_rule r
  end.

Definition number_leb (a b : option Z) : bool :=
  match a, b with Some x, Some y => x <=? y | _, _ => true end.

Definition gated_tags (m : list (option Z * option (list string))) : list (option Z) :=
  (filter (λ kv : option Z * option (list string), kv.2 ≠ None) m).*1.

Definition trap (m : list (option Z * option (list string))) : list Rule :=
  match gated_tags m with
  | [] => []
  | ts => [route_rule (js_join "," (number_text <$> sort_by number_leb ts)) "blocked"]
  end.

Definition applyEntryUserGate (rules : list Rule) : list Rule :=
  let m := allowed rules in (rules ≫= gate_rule m) ++ trap m.
End Gate.

(** ** How xray reads the rules *)
Record Connection := mkConnection {
  c_route : option Z;
  c_user : string;
  c_inbound : string;
  c_network : string;
  c_port : Z;
  c_domain : list string → bool;
  c_ip : list string → bool
}.

(** A condition of a rule: absent or empty, it holds. *)
Definition cond_list (p : list string → bool) (o : option (list string)) : bool :=
  match o with Some (x :: xs) => p (x :: xs) | _ => true end.

Definition takes_route (c : Connection) (r : Rule) : bool :=
  match tagsOf r with
  | None => true
  | Some ts => match c_route c with Some t => bool_decide (Some t ∈ ts) | None => false end
  end.

Definition takes_user (c : Connection) (r : Rule) : bool :=
  cond_list (λ us, bool_decide (c_user c ∈ us)) (user r).

Definition takes_rest (c : Connection) (r : Rule) : bool :=
  cond_list (λ ts, bool_decide (c_inbound c ∈ ts)) (inboundTag r) &&
  match network r with Some n => bool_decide (c_network c ∈ js_split "," n) | None => true end &&
  match rule_port r with Some p => c_port c =? p | None => true end &&
  cond_list (c_domain c) (domain r) && cond_list (c_ip c) (ip r).

Definition takes (c : Connection) (r : Rule) : bool :=
  takes_route c r && takes_user c r && takes_rest c r.

Definition target (r : Rule) : option string * option string := (outboundTag r, balancerTag r).

(** Where a connection goes; [None] is past the last rule. *)
Definition route (rules : list Rule) (c : Connection) : option (option string * option string) :=
  target <$> js_find (takes c) rules.

(** ** Lemmas on the tags of a rule *)

(** A rule as the panel draws it: its route lists 16-bit tags, and a rule with a
    route names no users yet. *)
Definition drawn_tags (r : Rule) (ts : list Z) : Prop :=
  ts ≠ [] ∧ Forall (λ t, 0 <= t < 65536) ts ∧
  vlessRoute r = Some (js_join "," (pretty <$> ts)) ∧ user r = None.

Definition drawn (r : Rule) : Prop := vlessRoute r = None ∨ ∃ ts, drawn_tags r ts.

Lemma tags_read ts : ts ≠ [] → Forall (λ t, 0 <= t < 65536) ts →
  route_number <$> js_split "," (js_join "," (pretty <$> ts)) = Some <$> ts.
Proof.
  intros Hne Hts. rewrite js_split_join.
  - rewrite <-list_fmap_compose. apply list_fmap_ext. intros i t Hi.
    rewrite Forall_forall in Hts. specialize (Hts t (list_elem_of_lookup_2 _ _ _ Hi)).
    apply js_Number_pretty. lia.
  - by destruct ts.
  - apply Forall_fmap, (Forall_impl _ _ _ Hts). intros t Ht. by apply pretty_char_free; [simpl; lia|].
Qed.

Lemma tagsOf_drawn r ts : drawn_tags r ts → tagsOf r = Some (Some <$> ts).
Proof. intros (Hne & Hts & Hr & _). unfold tagsOf. rewrite Hr. simpl. by rewrite tags_read. Qed.

Lemma tagsOf_with r ts u : ts ≠ [] → Forall (λ t, 0 <= t < 65536) ts →
  tagsOf (with_route r (js_join "," (number_text <$> (Some <$> ts))) u) = Some (Some <$> ts).
Proof.
  intros Hne Hts. unfold tagsOf. simpl. rewrite <-list_fmap_compose.
  change (number_text ∘ Some) with (pretty : Z → string). by rewrite tags_read.
Qed.

(** ** Who may take a tag *)
Section GateFacts.
Context (may : list (string * list Z)).

Lemma allowed_spec ts t m : jm_wf m → (∀ t l, jm_get t m = Some l → l = allowed_list may t) →
  jm_get t (foldl (allowed_step may) m ts)
  = if decide (t ∈ jm_keys m ∨ t ∈ ts) then Some (allowed_list may t) else None.
Proof.
  revert m. induction ts as [|x ts IH]; intros m Hwf Hm; simpl.
  - case_decide as Ht.
    + destruct Ht as [Ht|Ht]; [|by apply not_elem_of_nil in Ht].
      apply jm_get_is_Some in Ht as [l Hl]. rewrite Hl. f_equal. by apply Hm.
    + apply jm_get_None. tauto.
  - unfold allowed_step at 2. case_bool_decide as Hx.
    + rewrite IH by done. apply decide_ext. set_solver.
    + rewrite IH.
      * apply decide_ext. rewrite elem_of_jm_keys_set. set_solver.
      * by apply jm_wf_set.
      * intros t' l. rewrite jm_get_set. destruct (decide (t' = x)) as [->|]; [|apply Hm].
        intros H. by injection H as <-.
Qed.

Lemma allowed_all rules t :
  jm_get t (allowed may rules)
  = if decide (t ∈ rules ≫= λ r, default [] (tagsOf r)) then Some (allowed_list may t) else None.
Proof.
  unfold allowed. rewrite allowed_spec; [|apply jm_wf_nil|done].
  apply decide_ext. unfold jm_keys. set_solver.
Qed.

Lemma allowed_wf_steps ts m : jm_wf m → jm_wf (foldl (allowed_step may) m ts).
Proof.
  revert m. induction ts as [|t ts IH]; intros m Hm; simpl; [done|]. apply IH.
  unfold allowed_step. case_bool_decide; [done|]. by apply jm_wf_set.
Qed.

Lemma allowed_wf rules : jm_wf (allowed may rules).
Proof. apply allowed_wf_steps, jm_wf_nil. Qed.

Lemma allowed_drawn rules r ts t : r ∈ rules → drawn_tags r ts → t ∈ ts →
  allowed_get (allowed may rules) (Some t) = allowed_list may (Some t).
Proof.
  intros Hr Hd Ht. unfold allowed_get. rewrite allowed_all, decide_True; [done|].
  apply list_elem_of_bind. exists r. split; [|done]. rewrite (tagsOf_drawn _ _ Hd). simpl.
  by apply list_elem_of_fmap_2.
Qed.
End GateFacts.

(** ** Groups of tags *)

(** A user id as the panel makes them. *)
Definition id_ok (u : string) : Prop := u ≠ "" ∧ u ≠ "*" ∧ char_free "," u.

Lemma join_split_ids us s : us ≠ [] → Forall id_ok us → js_join "," us = s → js_split "," s = us.
Proof.
  intros Hne Hus <-. apply js_split_join; [done|]. apply (Forall_impl _ _ _ Hus). by intros u (_ & _ & ?).
Qed.

Lemma group_key_inj l l' :
  (∀ us, l = Some us → Forall id_ok us) → (∀ us, l' = Some us → Forall id_ok us) →
  group_key l = group_key l' → l = l'.
Proof.
  assert (∀ us s, Forall id_ok us → js_join "," us = s → js_split "," s = [s] → s = "" ∨ s = "*" → us = [])
    as Hspecial.
  { intros us s Hus Hj Hs Hc. destruct us as [|u us]; [done|].
    apply join_split_ids in Hj; [|done|done]. rewrite Hs in Hj. injection Hj as <- <-.
    apply Forall_cons in Hus as [(? & ? & _) _]. by destruct Hc. }
  intros Hl Hl'. destruct l as [us|], l' as [us'|]; simpl; intros Hk; [| | |done].
  - specialize (Hl us eq_refl). specialize (Hl' us' eq_refl). f_equal.
    destruct (decide (us = [])) as [->|Hne].
    { symmetry. apply (Hspecial us' ""); auto. }
    destruct (decide (us' = [])) as [->|Hne'].
    { apply (Hspecial us ""); auto. }
    rewrite <-(join_split_ids us' _ Hne' Hl' eq_refl), <-Hk. symmetry. by apply join_split_ids.
  - assert (us = []) as -> by (apply (Hspecial us "*"); auto). done.
  - assert (us' = []) as -> by (apply (Hspecial us' "*"); auto). done.
Qed.

Lemma users_elem may u : u ∈ users may ↔ u ∈ jm_keys may.
Proof. apply elem_of_sort_by. Qed.

Lemma allowed_list_ids may t us : Forall id_ok (jm_keys may) → allowed_list may t = Some us → Forall id_ok us.
Proof.
  intros Hids. unfold allowed_list. case_match; [done|]. intros [= <-]. apply Forall_forall. intros u Hu.
  apply list_elem_of_filter in Hu as [_ Hu]. rewrite Forall_forall in Hids. by apply Hids, users_elem.
Qed.

(** A group's fold collects its tags and keeps the users of the first. *)
Lemma groups_value m key tags : 
  jm_get key (groups m tags)
  = match filter (λ t, group_key (allowed_get m t) = key) tags with
    | [] => None
    | t :: ts => Some (t :: ts, allowed_get m t)
    end.
Proof.
  unfold groups. rewrite jm_get_group. destruct (filter _ tags) as [|t ts]; [done|].
  unfold group_value. f_equal. simpl.
  assert (∀ ts acc v, foldl (λ (g : list (option Z) * option (list string)) t, (g.1 ++ [t], g.2)) (acc, v) ts
            = (acc ++ ts, v)) as ->; [|done].
  clear. intros ts. induction ts as [|t ts IH]; intros acc v; simpl; [by rewrite app_nil_r|].
  rewrite IH. by rewrite <-app_assoc.
Qed.

(** What the groups of a rule's tags are. *)
Lemma groups_elem m tags g : g ∈ (groups m tags).*2 ↔ ∃ t ts key,
  filter (λ t, group_key (allowed_get m t) = key) tags = t :: ts ∧ g = (t :: ts, allowed_get m t).
Proof.
  rewrite list_elem_of_fmap. split.
  - intros ([key g'] & -> & Hin). apply jm_elem_get in Hin; [|apply jm_wf_group].
    rewrite groups_value in Hin. case_match; [done|]. injection Hin as <-. simpl. by eauto.
  - intros (t & ts & key & Hf & ->). exists (key, (t :: ts, allowed_get m t)). split; [done|].
    apply jm_get_Some_elem. by rewrite groups_value, Hf.
Qed.

(** Under distinct keys for distinct lists, a group is the tags of one list. *)
Lemma groups_uniform m tags g :
  (∀ t us, t ∈ tags → allowed_get m t = Some us → Forall id_ok us) →
  g ∈ (groups m tags).*2 ↔ g.1 ≠ [] ∧ g.1 = filter (λ t, allowed_get m t = g.2) tags.
Proof.
  intros Hids. assert (∀ t t', t ∈ tags → t' ∈ tags →
    (group_key (allowed_get m t) = group_key (allowed_get m t') ↔ allowed_get m t = allowed_get m t')) as Hinj.
  { intros t t' Ht Ht'. split; [|congruence]. apply group_key_inj; intros us; by eapply Hids. }
  rewrite groups_elem. split.
  - intros (t & ts & key & Hf & ->). simpl. split; [done|]. rewrite <-Hf.
    assert (t ∈ tags ∧ group_key (allowed_get m t) = key) as [Ht <-].
    { assert (t ∈ t :: ts) as Ht by set_solver. rewrite <-Hf in Ht. apply list_elem_of_filter in Ht. tauto. }
    apply filter_same_in. intros t' Ht'. by apply Hinj.
  - destruct g as [gs us]. simpl. intros [Hne Hg]. destruct gs as [|t ts]; [done|].
    assert (t ∈ tags ∧ allowed_get m t = us) as [Ht <-].
    { assert (t ∈ t :: ts) as Ht by set_solver. rewrite Hg in Ht. apply list_elem_of_filter in Ht. tauto. }
    exists t, ts, (group_key (allowed_get m t)). split; [|done]. rewrite Hg.
    apply filter_same_in. intros t' Ht'. by apply Hinj.
Qed.

(** ** Routing through the gate *)
Section GateRouting.
Context (m : list (option Z * option (list string))) (c : Connection).

(** The connection's tag is open, or lists its user. *)
Definition passes : bool :=
  match c_route c with
  | Some t => match allowed_get m (Some t) with Some us => bool_decide (c_user c ∈ us) | None => true end
  | None => true
  end.

Lemma takes_route_tags r ts : tagsOf r = Some (Some <$> ts) →
  takes_route c r = true ↔ ∃ t, c_route c = Some t ∧ t ∈ ts.
Proof.
  intros E. unfold takes_route. rewrite E. destruct (c_route c) as [t|]; [|naive_solver].
  rewrite bool_decide_eq_true, list_elem_of_fmap. naive_solver.
Qed.

Lemma takes_group r ts us r' : user r = None → ts ≠ [] → Forall (λ t, 0 <= t < 65536) ts →
  r' ∈ group_rule r (Some <$> ts, us) →
  takes c r' = true
  ↔ (∃ t, c_route c = Some t ∧ t ∈ ts) ∧ (∀ l, us = Some l → c_user c ∈ l) ∧ takes_rest c r = true.
Proof.
  intros Hu Hne Hts Hr'. assert (us ≠ Some [] ∧
    r' = with_route r (js_join "," (number_text <$> (Some <$> ts))) us) as [Hus ->].
  { unfold group_rule in Hr'. simpl in Hr'. destruct us as [[|u us]|]; set_solver. }
  unfold takes. rewrite !andb_true_iff, (takes_route_tags _ ts) by by apply tagsOf_with.
  replace (takes_rest c (with_route r _ us)) with (takes_rest c r) by done.
  assert (takes_user c (with_route r (js_join "," (number_text <$> (Some <$> ts))) us) = true
          ↔ ∀ l, us = Some l → c_user c ∈ l) as ->; [|tauto].
  unfold takes_user. destruct us as [[|u us]|]; simpl; [done| |].
  - rewrite bool_decide_eq_true. naive_solver.
  - rewrite Hu. naive_solver.
Qed.

Lemma route_same_target l T : (∀ r, r ∈ l → target r = T) →
  route l c = if existsb (takes c) l then Some T else None.
Proof.
  unfold route. induction l as [|r l IH]; intros HT; simpl; [done|].
  destruct (takes c r); simpl; [by rewrite HT by set_solver|]. apply IH. set_solver.
Qed.

Lemma route_app l1 l2 : route (l1 ++ l2) c = match route l1 c with Some x => Some x | None => route l2 c end.
Proof. unfold route. rewrite js_find_app. by destruct (js_find _ l1). Qed.

Lemma takes_drawn r ts : drawn_tags r ts →
  takes c r = true ↔ (∃ t, c_route c = Some t ∧ t ∈ ts) ∧ takes_rest c r = true.
Proof.
  intros Hd. unfold takes, takes_user. rewrite !andb_true_iff, (takes_route_tags _ ts) by by apply tagsOf_drawn.
  destruct Hd as (_ & _ & _ & ->). simpl. tauto.
Qed.

Lemma groups_take r ts : drawn_tags r ts →
  (∀ t us, t ∈ (Some <$> ts) → allowed_get m t = Some us → Forall id_ok us) →
  existsb (takes c) ((groups m (Some <$> ts)).*2 ≫= group_rule r) = takes c r && passes.
Proof.
  intros Hd Hids. pose proof Hd as (Hne & Hts & _ & Hu). apply eq_true_iff_eq.
  rewrite existsb_exists, andb_true_iff, (takes_drawn _ _ Hd). unfold passes. split.
  - intros (r' & Hr' & Ht). apply list_elem_of_In, list_elem_of_bind in Hr' as ([gs us] & Hr' & Hg).
    apply groups_uniform in Hg as [Hgne Hg]; [|done]. simpl in *. rewrite filter_map in Hg. subst gs.
    destruct (proj1 (takes_group r _ us r' Hu ltac:(by intros E; rewrite E in Hgne)
      ltac:(by apply Forall_filter_l) Hr') Ht) as ((t & Hc & Htg) & Hus & Hrest). clear Ht.
    apply list_elem_of_filter in Htg as [Hus' Ht]. rewrite Hc, Hus'. split; [by eauto|].
    destruct us; [by apply bool_decide_eq_true, Hus | done].
  - intros [((t & Hc & Ht) & Hrest) Hp]. rewrite Hc in Hp.
    set (us := allowed_get m (Some t)) in *. set (gs := filter (λ x, allowed_get m (Some x) = us) ts).
    assert (t ∈ gs) as Htg by by apply list_elem_of_filter.
    assert ((Some <$> gs, us) ∈ (groups m (Some <$> ts)).*2) as Hg.
    { apply groups_uniform; [done|]. simpl. rewrite filter_map. split; [|done].
      intros E. apply fmap_nil_inv in E. rewrite E in Htg. by apply not_elem_of_nil in Htg. }
    assert (∃ r', r' ∈ group_rule r (Some <$> gs, us)) as [r' Hr'].
    { unfold group_rule. simpl. destruct us as [[|u us]|]; [|eexists; apply list_elem_of_singleton; done..].
      apply bool_decide_eq_true in Hp. by apply not_elem_of_nil in Hp. }
    exists r'. split; [apply list_elem_of_In, list_elem_of_bind; by eauto|].
    eapply takes_group; [done| | |exact Hr'|].
    + intros E. rewrite E in Htg. by apply not_elem_of_nil in Htg.
    + by apply Forall_filter_l.
    + repeat split; [by eauto| |done]. intros l ->. by apply bool_decide_eq_true in Hp.
Qed.

Lemma group_rule_target r g r' : r' ∈ group_rule r g → target r' = target r.
Proof. unfold group_rule. destruct g as [ts [[|u us]|]]; set_solver. Qed.

(** One rule: gone for a connection that may not take its tag, else as it was. *)
Lemma gate_rule_route r : drawn r →
  (∀ t us, t ∈ default [] (tagsOf r) → allowed_get m t = Some us → Forall id_ok us) →
  route (gate_rule m r) c = if bool_decide (vlessRoute r = None) || passes then route [r] c else None.
Proof.
  intros [Hn|[ts Hd]] Hids.
  { unfold gate_rule, tagsOf. rewrite Hn. done. }
  rewrite bool_decide_false by (destruct Hd as (_ & _ & -> & _); done). simpl.
  unfold gate_rule. rewrite (tagsOf_drawn _ _ Hd) in *. simpl in Hids.
  assert (route [r] c = if takes c r then Some (target r) else None) as Hr.
  { unfold route. simpl. by destruct (takes c r). }
  destruct (forallb _ _) eqn:Hopen.
  - rewrite Hr. destruct (takes c r) eqn:Ht; [|by destruct passes].
    apply (takes_drawn _ _ Hd) in Ht as ((t & Hc & Ht) & _). unfold passes. rewrite Hc.
    rewrite forallb_forall in Hopen. specialize (Hopen (Some t)).
    rewrite bool_decide_eq_true in Hopen. rewrite Hopen; [done|]. by apply list_elem_of_In, list_elem_of_fmap_2.
  - rewrite (route_same_target _ (target r)).
    + rewrite (groups_take r ts), Hr by done. by destruct (takes c r), passes.
    + intros r' Hr'. apply list_elem_of_bind in Hr' as (g & Hr' & _). by eapply group_rule_target.
Qed.
End GateRouting.

(** ** The gate against what it promises *)
Inductive Verdict := Open | Listed | Refused.

Section Promise.
#[local] Arguments may_take : simpl never.
Context (may : list (string * list Z)) (rules : list Rule).

(** Some rule names the tag. *)
Definition names_tag (t : Z) : bool :=
  existsb (λ r, bool_decide (Some t ∈ default [] (tagsOf r))) rules.

Definition everyone_may (t : Z) : bool :=
  negb (bool_decide (jm_keys may = [])) && forallb (λ u, may_take may u (Some t)) (jm_keys may).

(** Said of the maps alone: is the tag named by a rule, given to every user,
    given to this one? *)
Definition verdict (c : Connection) : Verdict :=
  match c_route c with
  | Some t => if negb (names_tag t) || everyone_may t then Open
              else if may_take may (c_user c) (Some t) then Listed else Refused
  | None => Open
  end.

Lemma names_tag_spec t : names_tag t = true ↔ Some t ∈ rules ≫= λ r, default [] (tagsOf r).
Proof.
  unfold names_tag. rewrite existsb_exists, list_elem_of_bind. setoid_rewrite <-list_elem_of_In.
  setoid_rewrite bool_decide_eq_true. naive_solver.
Qed.

Lemma allowed_list_spec t : allowed_list may (Some t)
  = if everyone_may t then None else Some (filter (λ u, may_take may u (Some t) = true) (users may)).
Proof.
  unfold allowed_list, everyone_may. rewrite (andb_comm (negb _)).
  replace (bool_decide (users may = [])) with (bool_decide (jm_keys may = [])).
  2:{ apply bool_decide_ext. rewrite <-!length_zero_iff_nil. unfold users. by rewrite sort_by_length. }
  replace (bool_decide (length _ = length (users may))) with (forallb (λ u, may_take may u (Some t)) (jm_keys may));
    [done|].
  apply eq_true_iff_eq. rewrite bool_decide_eq_true, filter_full, forallb_forall, Forall_forall.
  setoid_rewrite <-list_elem_of_In. by setoid_rewrite users_elem.
Qed.

Lemma passes_verdict c :
  passes (allowed may rules) c = match verdict c with Refused => false | _ => true end.
Proof.
  unfold passes, verdict. destruct (c_route c) as [t|]; [|done].
  unfold allowed_get. rewrite allowed_all, (decide_ext _ _ _ _ (iff_sym (names_tag_spec t))).
  destruct (names_tag t); [|done]. rewrite decide_True by done. simpl. rewrite allowed_list_spec.
  destruct (everyone_may t); simpl; [done|]. destruct (may_take may (c_user c) (Some t)) eqn:E.
  - apply bool_decide_eq_true, list_elem_of_filter. split; [done|]. apply users_elem, jm_get_is_Some.
    unfold may_take in E. destruct (jm_get _ _); [by eauto|done].
  - apply bool_decide_eq_false. rewrite list_elem_of_filter, E. by intros [].
Qed.
End Promise.

Section TheGate.
Context (may : list (string * list Z)) (rules : list Rule).
Hypothesis Hdrawn : Forall drawn rules.
Hypothesis Hids : Forall id_ok (jm_keys may).

Lemma names_tag_range t : names_tag rules t = true → 0 <= t < 65536.
Proof.
  intros Ht. apply names_tag_spec, list_elem_of_bind in Ht as (r & Ht & Hr).
  rewrite Forall_forall in Hdrawn. destruct (Hdrawn r Hr) as [Hn|[ts Hd]].
  - unfold tagsOf in Ht. rewrite Hn in Ht. by apply not_elem_of_nil in Ht.
  - rewrite (tagsOf_drawn _ _ Hd) in Ht. apply list_elem_of_fmap in Ht as (t' & [= <-] & Ht).
    destruct Hd as (_ & Hr' & _). rewrite Forall_forall in Hr'. by apply Hr'.
Qed.

(** The keys of the map are the tags the rules name. *)
Lemma allowed_key o v : (o, v) ∈ allowed may rules →
  ∃ t, o = Some t ∧ names_tag rules t = true ∧ v = allowed_list may (Some t).
Proof.
  intros Hin. apply jm_elem_get in Hin; [|apply allowed_wf]. rewrite allowed_all in Hin.
  case_decide as Ht; [|done]. injection Hin as <-. pose proof Ht as Ht'.
  apply list_elem_of_bind in Ht as (r & Ht & Hr). rewrite Forall_forall in Hdrawn.
  destruct (Hdrawn r Hr) as [Hn|[ts Hd]].
  - unfold tagsOf in Ht. rewrite Hn in Ht. by apply not_elem_of_nil in Ht.
  - rewrite (tagsOf_drawn _ _ Hd) in Ht. apply list_elem_of_fmap in Ht as (t & -> & Ht).
    exists t. split; [done|]. split; [|done]. by apply names_tag_spec.
Qed.

Lemma allowed_ids o us : allowed_get (allowed may rules) o = Some us → Forall id_ok us.
Proof.
  unfold allowed_get. rewrite allowed_all. case_decide; [|done]. simpl. by apply allowed_list_ids.
Qed.

(** The tags of the closing rule, as numbers. *)
Lemma gated_tags_Z : ∃ ts, gated_tags (allowed may rules) = Some <$> ts ∧
  ∀ t, t ∈ ts ↔ names_tag rules t = true ∧ everyone_may may t = false.
Proof.
  assert (∀ o, o ∈ gated_tags (allowed may rules) →
    ∃ t, o = Some t ∧ names_tag rules t = true ∧ everyone_may may t = false) as Hg.
  { intros o Ho. apply list_elem_of_fmap in Ho as ([o' v] & -> & Ho). simpl.
    apply list_elem_of_filter in Ho as [Hv Ho]. simpl in Hv. apply allowed_key in Ho as (t & -> & Ht & ->).
    exists t. rewrite allowed_list_spec in Hv. by destruct (everyone_may may t). }
  exists (omap id (gated_tags (allowed may rules))). split.
  - induction (gated_tags _) as [|o l IH]; [done|]. destruct (Hg o) as (t & -> & _); [set_solver|].
    simpl. f_equal. apply IH. set_solver.
  - intros t. rewrite list_elem_of_omap. split.
    + intros (o & Ho & E). simpl in E. subst o. apply Hg in Ho as (t' & [= <-] & ?). done.
    + intros [Hn He]. exists (Some t). split; [|done]. apply list_elem_of_fmap.
      exists (Some t, allowed_list may (Some t)). split; [done|]. apply list_elem_of_filter.
      split; [simpl; by rewrite allowed_list_spec, He|]. apply jm_get_Some_elem.
      rewrite allowed_all, decide_True; [done|]. by apply names_tag_spec.
Qed.

Lemma trap_route c :
  route (trap (allowed may rules)) c
  = match verdict may rules c with Open => None | _ => Some (Some "blocked", None) end.
Proof.
  destruct gated_tags_Z as (ts & E & Hts). unfold trap. rewrite E.
  assert (∃ us, sort_by number_leb (Some <$> ts) = Some <$> us ∧ us ≡ₚ ts) as (us & Es & Hus).
  { pose proof (sort_by_perm number_leb (Some <$> ts)) as Hp.
    apply Permutation_map_inv in Hp as (us & ? & Hp). exists us. by split. }
  assert (match verdict may rules c with Open => false | _ => true end = true
          ↔ ∃ t, c_route c = Some t ∧ t ∈ us) as Hv.
  { unfold verdict. destruct (c_route c) as [t|]; [|split; [done|by intros (? & [=] & _)]].
    transitivity (t ∈ us); [|by split; [eauto|intros (? & [= <-] & ?)]]. rewrite Hus, Hts.
    destruct (names_tag rules t), (everyone_may may t), (may_take _ _ _); simpl; intuition congruence. }
  destruct ts as [|t ts].
  - simpl. symmetry in Hus. apply Permutation_nil in Hus as ->.
    destruct (verdict may rules c); [done|..]; destruct (proj1 Hv eq_refl) as (? & _ & []%not_elem_of_nil).
  - rewrite fmap_cons in Es |- *. rewrite Es.
    assert (us ≠ []) as Hne by (intros ->; by apply Permutation_nil in Hus).
    assert (Forall (λ t, 0 <= t < 65536) us) as Hr.
    { apply Forall_forall. intros x Hx. apply names_tag_range, Hts. by rewrite <-Hus. }
    unfold route. cbn [js_find]. 
    assert (takes c (route_rule (js_join "," (number_text <$> (Some <$> us))) "blocked")
            = match verdict may rules c with Open => false | _ => true end) as ->.
    { apply eq_true_iff_eq. rewrite Hv. unfold takes. rewrite !andb_true_iff.
      rewrite (takes_route_tags _ _ us); [tauto|].
      by apply (tagsOf_with (route_rule "" "blocked") us None). }
    by destruct (verdict may rules c).
Qed.
End TheGate.

(** What the gate makes of every connection. *)
Lemma gate_route may rules c : Forall drawn rules → Forall id_ok (jm_keys may) →
  let blocked_else r := Some (default (Some "blocked", None) r) in
  route (applyEntryUserGate may rules) c
  = match verdict may rules c with
    | Open => route rules c
    | Listed => blocked_else (route rules c)
    | Refused => blocked_else (route (filter (λ r, vlessRoute r = None) rules) c)
    end.
Proof.
  intros Hd Hids. simpl. unfold applyEntryUserGate. rewrite route_app, trap_route by done.
  assert (∀ rs, (∀ r, r ∈ rs → r ∈ rules) → route (rs ≫= gate_rule (allowed may rules)) c
    = match verdict may rules c with Refused => route (filter (λ r, vlessRoute r = None) rs) c | _ => route rs c end)
    as ->; [|by destruct (verdict may rules c), (route _ c)|done].
  intros rs. induction rs as [|r rs IH]; intros Hin; [by destruct (verdict may rules c)|].
  rewrite bind_cons, route_app, IH by set_solver. rewrite Forall_forall in Hd.
  rewrite gate_rule_route, passes_verdict; [|by apply Hd, Hin; left|].
  2:{ intros t us _. by apply allowed_ids. }
  pose proof (route_app c [r]) as Happ. simpl in Happ. rewrite filter_cons.
  destruct (verdict may rules c); [by rewrite orb_true_r, <-Happ..|]. rewrite orb_false_r.
  case_decide as Hr; [by rewrite bool_decide_true, <-Happ|by rewrite bool_decide_false].
Qed.

(** C17. The gate keeps its promise, for every rule list the panel draws and
    every connection.  A tag no rule names, or every user may take, routes as
    before.  A listed user's tag routes as before, and into the blackhole where
    nothing took it.  Anyone else reaches no rule that names a tag: what the
    rules without a route leave of him goes into the blackhole. *)
Theorem gate_enforced may rules c : Forall drawn rules → Forall id_ok (jm_keys may) →
  let blocked_else r := Some (default (Some "blocked", None) r) in
  route (applyEntryUserGate may rules) c
  = match verdict may rules c with
    | Open => route rules c
    | Listed => blocked_else (route rules c)
    | Refused => blocked_else (route (filter (λ r, vlessRoute r = None) rules) c)
    end.
Proof. apply gate_route. Qed.

(** The rules of an entry with two directions and an open one, and the users
    who may take them. *)
Definition gate_example_rules : list Rule :=
  [ route_rule "1,257" "out-d1"; route_rule "2" "out-d2"; route_rule "3" "out-d3";
    mkRule None None (Some ["in-vless"]) None None None None (Some "DIRECT") None ].
Definition gate_example_users : list (string * list Z) := [("ann", [1; 3; 257]); ("bob", [2; 3; 257])].
Definition gate_example_connection : Connection :=
  mkConnection (Some 2) "ann" "in-other" "tcp" 443 (λ _, false) (λ _, false).

Theorem gate_enforced_witness :
  verdict gate_example_users gate_example_rules gate_example_connection = Refused ∧
  route gate_example_rules gate_example_connection = Some (Some "out-d2", None) ∧
  route (applyEntryUserGate gate_example_users gate_example_rules) gate_example_connection
  = Some (Some "blocked", None).
Proof.
  split; [vm_compute; done|]. split; [vm_compute; done|].
  rewrite (gate_enforced gate_example_users gate_example_rules); [vm_compute; done| |].
  - unfold gate_example_rules. repeat apply Forall_cons_2; [| | | |apply Forall_nil_2].
    1: right; exists [1; 257]. 2: right; exists [2]. 3: right; exists [3]. 4: by left.
    all: split; [done|]; split; [repeat apply Forall_cons_2; try apply Forall_nil_2; lia | by vm_compute].
  - repeat apply Forall_cons_2; try apply Forall_nil_2; (split; [done|split; [done|]]);
      unfold char_free; vm_compute; set_solver.
Defined.

Lemma chainTProxyMark_Some a m : chainTProxyMark a = Some m → 1 <= a <= 65535 ∧ m = 65536 + a.
Proof.
  unfold chainTProxyMark, CHAIN_TPROXY_MARK_BASE.
  destruct (Z.ltb_spec a 1), (Z.ltb_spec 65535 a); simpl; [done..|]. intros [= <-]. lia.
Qed.

(** The tags and the ports of the hand-off.  Within 255 policies and 255
    directions every route tag and every Auto tag is a 16-bit number, not 0;
    no two profiles share one, Auto or not; the direction is read back from its
    tag and an Auto tag names none.  The hand-off's sockets for the directions'
    tags and Auto are ports, and none is the tproxy listener; its marks are
    distinct and above every port. *)
Theorem route_tags p p' d d' : 
  0 <= p <= MAX_DIRECTION_ORDINAL → 0 <= p' <= MAX_DIRECTION_ORDINAL → 1 <= d <= 255 → 1 <= d' <= 255 →
  0 < routeTag p (d - 1) < 2 ^ 16 ∧ 0 < autoRouteTag p < 2 ^ 16 ∧
  (routeTag p (d - 1) = routeTag p' (d' - 1) → p = p' ∧ d = d') ∧
  (autoRouteTag p = autoRouteTag p' → p = p') ∧
  isAutoRouteTag (autoRouteTag p) = true ∧ isAutoRouteTag (routeTag p (d - 1)) = false ∧
  directionOfRouteTag (routeTag p (d - 1)) = Some d ∧ directionOfRouteTag (autoRouteTag p) = None ∧
  CHAIN_TPROXY_PORT < chainSocksPort 0 < chainSocksPort d ∧ chainSocksPort d < 2 ^ 16 ∧
  (∀ a b m, chainTProxyMark a = Some m → chainTProxyMark b = Some m → a = b ∧ 2 ^ 16 < m < 2 ^ 17).
Proof.
  unfold MAX_DIRECTION_ORDINAL, directionOfRouteTag, isAutoRouteTag, routeTag, autoRouteTag, chainSocksPort,
    CHAIN_SOCKS_BASE, CHAIN_TPROXY_PORT, MAX_DIRECTION_ORDINAL.
  intros Hp Hp' Hd Hd'. replace (p * 256 + (d - 1) + 1) with (d + p * 256) by lia.
  rewrite (proj2 (Z.leb_gt (65535 - 254) (d + p * 256))), (proj2 (Z.leb_le (65535 - 254) (65535 - p))) by lia.
  rewrite Z.mod_add, Z.mod_small by lia. repeat split; try lia.
  all: apply chainTProxyMark_Some in H as [? ->]; apply chainTProxyMark_Some in H0 as [? ?]; lia.
Qed.

Theorem route_tags_witness :
  directionOfRouteTag (routeTag 254 254) = Some 255 ∧ directionOfRouteTag (autoRouteTag 254) = None.
Proof.
  destruct (route_tags 254 0 255 1) as (_ & _ & _ & _ & _ & _ & ? & ? & _);
    unfold MAX_DIRECTION_ORDINAL; [lia..|]. by split.
Defined.
