(* ===== verification/PolicyEntries.v ===== *)
(** How a rule names what it matches, and which address family a leg dials
    (apps/panel-backend/src/modules/geo-sets/geo-names.ts, and
    cascades/policy-entries.ts and dial-family.ts).

    [isIP] of node:net is a parameter, and so is the test whether a pattern is a
    regular expression. *)

From S2P Require Import Prelude Js Json.

Local Open Scope string_scope.
Local Open Scope list_scope.
Local Open Scope Z_scope.

(** ** Geo references *)

(** [s.slice(p.length)] after [s.startsWith(p)]. *)
Definition after (p s : string) : string := str_drop (String.length p) s.

Definition nodeFileName (name sourceType : string) : string :=
  if decide (sourceType = "builtin") then name +:+ ".dat" else "iceslab-" +:+ name +:+ ".dat".

Definition chainRuleSetFileName (set tag : string) : string :=
  "iceslab-" +:+ set +:+ "." +:+ js_lower tag +:+ ".json".

Definition GEO_PREFIXES : list string := ["ext:"; "ext-domain:"; "ext-ip:"].

(** [s.endsWith('.dat')]. *)
Definition ends_with (p s : string) : bool :=
  (String.length p <=? String.length s)%nat && bool_decide (str_drop (String.length s - String.length p) s = p).

Definition xrayGeoEntry (entry : string) : string :=
  match js_find (λ p, starts_with p entry) GEO_PREFIXES with
  | None => entry
  | Some prefix =>
      let rest := after prefix entry in
      match index_of_char ":" rest with
      | None | Some O => entry
      | Some cut =>
          let set := str_take cut rest in
          if ends_with ".dat" set then entry
          else prefix +:+ "iceslab-" +:+ set +:+ ".dat" +:+ str_drop cut rest
      end
  end.

Record GeoRef := mkGeoRef { g_set : string; g_tag : string; g_baseTag : string; g_field : string; g_entry : string }.

(** [tag.replace(/^!/, '').split('@')[0].toLowerCase()]. *)
Definition base_tag (tag : string) : string :=
  js_lower (default "" (head (js_split "@" (if starts_with "!" tag then after "!" tag else tag)))).

(** The set and the tag an entry spells. *)
Definition geo_parts (e : string) : option (string * string) :=
  if starts_with "geosite:" e then Some ("geosite", after "geosite:" e)
  else if starts_with "geoip:" e then Some ("geoip", after "geoip:" e)
  else match js_find (λ p, starts_with p e) GEO_PREFIXES with
       | None => None
       | Some prefix => match js_split ":" (after prefix e) with [set; tag] => Some (set, tag) | _ => None end
       end.

Definition parseGeoRef (entry field : string) : option GeoRef :=
  let e := js_trim entry in
  '(set, tag) ← geo_parts e;
  if bool_decide (set = "") || bool_decide (base_tag tag = "") then None
  else Some (mkGeoRef set tag (base_tag tag) field e).

(** ** The kind of an entry *)
Inductive PolicyEntryKind := KDomain | KIp.

#[global] Instance PolicyEntryKind_eq_dec : EqDecision PolicyEntryKind.
Proof. solve_decision. Defined.

(** [[A-Za-z0-9_]], and the two wider classes of [HOSTNAME]. *)
Definition is_word (c : ascii) : bool :=
  let n := Ascii.nat_of_ascii c in
  ((48 <=? n) && (n <=? 57) || (65 <=? n) && (n <=? 90) || (97 <=? n) && (n <=? 122) || (n =? 95))%nat.
Definition host_first (c : ascii) : bool := is_word c || bool_decide (c = "*"%char).
Definition host_middle (c : ascii) : bool :=
  host_first c || bool_decide (c = "."%char) || bool_decide (c = "-"%char).

(** [HOSTNAME.test(e)]. *)
Definition is_hostname (e : string) : bool :=
  match list_ascii_of_string e with
  | [] => false
  | [c] => host_first c
  | c :: l => host_first c && forallb host_middle (removelast l) && match last l with Some d => is_word d | None => false end
  end.

(** [/^\S+$/] and [/^\d{1,3}$/]. *)
Definition no_blank (s : string) : bool :=
  negb (bool_decide (s = "")) && forallb (λ c, negb (is_ws c)) (list_ascii_of_string s).
Definition few_digits (s : string) : bool :=
  let l := list_ascii_of_string s in
  forallb is_digit l && (1 <=? length l)%nat && (length l <=? 3)%nat.

Section Entries.
Context (isIP : string → Z) (isRegExp : string → bool).

Definition isCidr (e : string) : bool :=
  match index_of_char "/" e with
  | None | Some O => false
  | Some cut =>
      let addr := str_take cut e in
      let bits := str_drop (S cut) e in
      let family := isIP addr in
      if (family =? 0) || negb (few_digits bits) then false
      else match sf_to_int (js_Number bits) with
           | Some n => n <=? (if family =? 4 then 32 else 128)
           | None => false
           end
  end.

Definition classifyPolicyEntry (raw : string) : option PolicyEntryKind :=
  let e := js_trim raw in
  if bool_decide (e = "") then None
  else if starts_with "geoip:" e || starts_with "ext-ip:" e
  then match parseGeoRef e "ip" with Some _ => Some KIp | None => None end
  else if starts_with "geosite:" e || starts_with "ext:" e || starts_with "ext-domain:" e
  then match parseGeoRef e "domain" with Some _ => Some KDomain | None => None end
  else match js_find (λ p, starts_with p e) ["domain:"; "full:"; "keyword:"] with
  | Some prefix => if no_blank (after prefix e) then Some KDomain else None
  | None =>
      if starts_with "regexp:" e
      then if isRegExp (after "regexp:" e) && negb (bool_decide (after "regexp:" e = "")) then Some KDomain else None
      else if negb (isIP e =? 0) || isCidr e then Some KIp
      else if is_hostname e then Some KDomain else None
  end.

(** The entries of a kind, trimmed, in their order. *)
Definition entries_of (k : PolicyEntryKind) (entries : list string) : list string :=
  js_trim <$> filter (λ e, classifyPolicyEntry e = Some k) entries.

Definition splitPolicyEntries (entries : list string) : list string * list string :=
  (entries_of KDomain entries, entries_of KIp entries).

(** ** The family of a dial *)
Inductive DialFamily := IPv4 | IPv6.

Definition dialFamilyOf (selfHost : option string) (peerHost : string) : option DialFamily :=
  match selfHost with
  | Some h =>
      if bool_decide (h = "") || negb (isIP peerHost =? 0) then None
      else if isIP h =? 4 then Some IPv4 else if isIP h =? 6 then Some IPv6 else None
  | None => None
  end.
End Entries.

Definition LEG_DNS_TAG : string := "leg-dns".

Definition singboxDialFields (family : option DialFamily) : list (string * jvalue) :=
  match family with
  | None => []
  | Some f => [("domain_resolver", JObj [("server", JStr LEG_DNS_TAG);
                 ("strategy", JStr match f with IPv4 => "ipv4_only" | IPv6 => "ipv6_only" end)])]
  end.

(** [{ ...o, k: v }] of an object. *)
Definition jset (k : string) (v : jvalue) (o : jvalue) : jvalue :=
  match o with JObj fields => JObj (jm_set k v fields) | _ => o end.

Definition withXrayDialFamily (outbound : jvalue) (family : option DialFamily) : jvalue :=
  match family with
  | None => outbound
  | Some f =>
      let stream := default (JObj []) (jfield "streamSettings" outbound) in
      let sockopt := default (JObj []) (jfield "sockopt" stream) in
      jset "streamSettings"
        (jset "sockopt"
           (jset "domainStrategy" (JStr match f with IPv4 => "ForceIPv4" | IPv6 => "ForceIPv6" end) sockopt)
           stream) outbound
  end.
