(* ===== verification/XrayLinks.v ===== *)
(** The legs of a cascade as xray draws them
    (apps/panel-backend/src/modules/cascades/cascade.config.ts): the inbound and
    the outbound of a link cell, and the rules of a route policy. *)

From S2P Require Import Prelude Js Json LinkCreds PolicyEntries EntryGate.

Local Open Scope string_scope.
Local Open Scope list_scope.
Local Open Scope Z_scope.

Definition LINK_IN_TAG : string := "cascade-link-in".
Definition LINK_OUT_TAG : string := "cascade-link-out".
Definition DIRECT_TAG : string := "direct".

(** What drawing refuses. *)
Inductive draw_error :=
  | NoPeerAddress (node from : string)
  | NoNextAddress (node : string) (tag : Z) (to : string)
  | NamedOutboundWithoutChain (node : string) (tag : Z)
  | QuicCell (cell : string).

Definition out_rule (out : string) : Rule := mkRule None None None None None None None (Some out) None.

Definition QUIC_BLOCK_RULE : Rule :=
  mkRule None None None (Some "udp") (Some 443) None None (Some "blocked") None.

Definition link_in_rule (out : string) : Rule :=
  mkRule None None (Some [LINK_IN_TAG]) None None None None (Some out) None.

Definition freedomOutbound : jvalue := JObj [("tag", JStr DIRECT_TAG); ("protocol", JStr "freedom")].

Definition LINK_SOCKOPT : jvalue := JObj [("tcpCongestion", JStr "bbr"); ("tcpFastOpen", JBool true)].
Definition LINK_MUX : jvalue := JObj [("enabled", JBool true); ("concurrency", JNum 8)].

(** [flow], named when the credential has a block. *)
Definition flow_of (r : option Reality) : list (string * jvalue) :=
  jopt "flow" (λ _, JStr "xtls-rprx-vision") r.

(** ** Receiving *)
Definition reality_in (r : Reality) (shortIds : list string) : jvalue :=
  JObj [("network", JStr "raw"); ("security", JStr "reality");
        ("realitySettings", JObj [("dest", JStr (dest r)); ("serverNames", JArr [JStr (serverName r)]);
                                  ("privateKey", JStr (privateKey r)); ("shortIds", JArr (JStr <$> shortIds))])].
Definition raw_in : jvalue := JObj [("network", JStr "raw"); ("security", JStr "none")].

Definition link_listener (p : Z) (proto : string) (settings : list (string * jvalue))
    (stream : list (string * jvalue)) : jvalue :=
  JObj ([("tag", JStr LINK_IN_TAG); ("port", JNum p); ("listen", JStr "0.0.0.0"); ("protocol", JStr proto);
         ("settings", JObj settings)] ++ stream).

Definition vlessLinkInbound (p : Z) (uuid : string) (r : option Reality) : jvalue :=
  link_listener p "vless"
    [("clients", JArr [JObj ([("id", JStr uuid)] ++ flow_of r)]); ("decryption", JStr "none")]
    [("streamSettings", match r with Some r => reality_in r [shortId r] | None => raw_in end)].

Definition ssLinkInbound (p : Z) (psk method : string) : jvalue :=
  link_listener p "shadowsocks"
    [("method", JStr method); ("password", JStr psk); ("network", JStr "tcp,udp")] [].

Definition linkInbound (c : LinkCred) : result draw_error jvalue :=
  match c with
  | Ss2022 p psk method => Ok (ssLinkInbound p psk method)
  | Vless p uuid r => Ok (vlessLinkInbound p uuid r)
  | _ => Throw (QuicCell (protocol c))
  end.

(** ** Dialling *)
Definition vlessLinkOutbound (host : string) (p : Z) (uuid : string) (r : option Reality) : jvalue :=
  JObj ([("tag", JStr LINK_OUT_TAG); ("protocol", JStr "vless");
    ("settings", JObj [("vnext", JArr [JObj [("address", JStr host); ("port", JNum p);
       ("users", JArr [JObj ([("id", JStr uuid); ("encryption", JStr "none")] ++ flow_of r)])]])]);
    ("streamSettings",
      match r with
      | Some r => JObj [("network", JStr "raw"); ("security", JStr "reality");
          ("realitySettings", JObj [("serverName", JStr (serverName r)); ("publicKey", JStr (publicKey r));
             ("shortId", JStr (shortId r)); ("fingerprint", JStr "firefox")]);
          ("sockopt", LINK_SOCKOPT)]
      | None => JObj [("network", JStr "raw"); ("security", JStr "none"); ("sockopt", LINK_SOCKOPT)]
      end)]
   ++ match r with Some _ => [] | None => [("mux", LINK_MUX)] end).

Definition ssLinkOutbound (host : string) (p : Z) (psk method : string) : jvalue :=
  JObj [("tag", JStr LINK_OUT_TAG); ("protocol", JStr "shadowsocks");
    ("settings", JObj [("servers", JArr [JObj [("address", JStr host); ("port", JNum p);
       ("method", JStr method); ("password", JStr psk)]])]);
    ("streamSettings", JObj [("sockopt", LINK_SOCKOPT)]);
    ("mux", LINK_MUX)].

Section Dial.
Context (isIP : string → Z) (isRegExp : string → bool).

Definition linkOutbound (host : string) (c : LinkCred) (selfHost : option string) : result draw_error jvalue :=
  let family := dialFamilyOf isIP selfHost host in
  match c with
  | Ss2022 p psk method => Ok (withXrayDialFamily (ssLinkOutbound host p psk method) family)
  | Vless p uuid r => Ok (withXrayDialFamily (vlessLinkOutbound host p uuid r) family)
  | _ => Throw (QuicCell (protocol c))
  end.

Definition linkOutboundTagged (host : string) (c : LinkCred) (tag : string) (selfHost : option string)
    : result draw_error jvalue :=
  o ← linkOutbound host c selfHost; Ok (jset "tag" (JStr tag) o).

(** ** Route policies *)
Record CascadePolicy := mkPolicy {
  cp_ordinal : Z;
  directDomains : list string;
  blockDomains : list string
}.

Definition domain_rule (route : string) (entries : list string) (out : string) : Rule :=
  mkRule (Some route) None None None None (Some entries) None (Some out) None.
Definition ip_rule (route : string) (entries : list string) (out : string) : Rule :=
  mkRule (Some route) None None None None None (Some entries) (Some out) None.

(** The gate is a rule with a route alone. *)
Definition xrayPolicyRules (route : string) (entries : list string) (out : string) (spell : string → string)
    : list Rule :=
  let '(domain, ip) := splitPolicyEntries isIP isRegExp entries in
  (if (0 <? length domain)%nat then [domain_rule route (spell <$> domain) out] else []) ++
  (if (0 <? length ip)%nat then [ip_rule route (spell <$> ip) out] else []).
End Dial.

(** ** What a reader of the configuration sees *)
Definition out_tag (o : jvalue) : option string := jfield_str "tag" o.

(** The peer an outbound dials: address, port and secret. *)
Definition dial_of (o : jvalue) : option (string * Z * string) :=
  settings ← jfield "settings" o;
  match jfield "vnext" settings, jfield "servers" settings with
  | Some (JArr [v]), _ =>
      a ← jfield_str "address" v; p ← jnum (jfield "port" v);
      match jfield "users" v with
      | Some (JArr [u]) => s ← jfield_str "id" u; Some (a, p, s)
      | _ => None
      end
  | None, Some (JArr [v]) =>
      a ← jfield_str "address" v; p ← jnum (jfield "port" v);
      match jfield "users" v with
      | Some (JArr [u]) => s ← jfield_str "user" u; Some (a, p, s)
      | _ => s ← jfield_str "password" v; Some (a, p, s)
      end
  | _, _ => None
  end.

(** What a leg's credential is dialled with. *)
Definition secret_of (c : LinkCred) : string :=
  match c with
  | Vless _ uuid _ | Tuic _ uuid _ _ _ => uuid
  | Ss2022 _ psk _ => psk
  | Hy2 _ auth _ _ => auth
  end.

Definition drawable (c : LinkCred) : bool :=
  match c with Vless _ _ _ | Ss2022 _ _ _ => true | _ => false end.

Lemma linkOutboundTagged_ok isIP host c tag selfHost o :
  linkOutboundTagged isIP host c tag selfHost = Ok o →
  drawable c = true ∧ out_tag o = Some tag ∧ dial_of o = Some (host, port c, secret_of c).
Proof.
  unfold linkOutboundTagged, linkOutbound. destruct c as [p u r|p k m| |]; simpl; [| |done|done]; intros [= <-];
    (split; [done|]); unfold withXrayDialFamily; destruct (dialFamilyOf _ _ _); split; try done; by destruct r.
Qed.

Lemma linkOutboundTagged_iff isIP host c tag selfHost :
  is_ok (linkOutboundTagged isIP host c tag selfHost) ↔ drawable c = true.
Proof. by destruct c. Qed.

(** The dial is pinned exactly to the family of the dialling address. *)
Lemma linkOutbound_pinned isIP host c self o : linkOutbound isIP host c self = Ok o →
  (stream ← jfield "streamSettings" o; sockopt ← jfield "sockopt" stream; jfield_str "domainStrategy" sockopt)
  = (λ f, match f with IPv4 => "ForceIPv4" | IPv6 => "ForceIPv6" end) <$> dialFamilyOf isIP self host.
Proof.
  unfold linkOutbound. destruct c as [p u r|p k m| |]; simpl; [| |done|done]; intros [= <-];
    destruct (dialFamilyOf _ _ _) as [[]|]; try done; by destruct r.
Qed.
