(* ===== verification/TopologyFragments.v ===== *)
(** What a node's xray is told of its cascade
    (apps/panel-backend/src/modules/cascades/cascade.config.ts,
    [buildTopologyFragmentsForNode]): the listener of the legs that end here, an
    outbound per leg that starts here, and the rules that steer traffic by
    direction; with or without the chain process that carries the legs.

    A tag of the configuration is a string; xray's selectors match tags by
    prefix.  [isIP] and the test for a regular expression are parameters. *)

From S2P Require Import Prelude Js Json LinkCreds PolicyEntries EntryGate XrayLinks.

Local Open Scope string_scope.
Local Open Scope list_scope.
Local Open Scope Z_scope.

(** ** Input and output *)
Record TopologyLinkRow := mkLinkRow {
  tl_from : string;
  tl_to : string;
  tl_tag : Z;
  tl_cred : LinkCred
}.

Record TopologyDirection := mkTDirection {
  td_tag : Z;
  td_nodeIds : list string;
  td_outbound : option (string * jvalue)
}.

Record TopologyInput := mkTopology {
  ti_positions : list (list string);
  ti_directions : list TopologyDirection;
  ti_links : list TopologyLinkRow;
  ti_hosts : list (string * string);
  ti_policies : option (list CascadePolicy);
  ti_auto : bool;
  ti_chainSocksPassword : option string;
  ti_entryUserGate : option (list (string * list Z))
}.

Inductive HopRole := REntry | RTransit | RExit.

#[global] Instance HopRole_eq_dec : EqDecision HopRole.
Proof. solve_decision. Defined.

(** A balancer; its strategy is always leastPing. *)
Record Balancer := mkBalancer { b_tag : string; b_selector : list string }.

Record HopConfig := mkHop {
  hc_node : string;
  hc_position : nat;
  hc_role : HopRole;
  hc_inbounds : list jvalue;
  hc_outbounds : list jvalue;
  hc_rules : list Rule;
  hc_linkIngressPort : option Z;
  hc_linkAllowFrom : option (list string);
  hc_balancers : option (list Balancer);
  hc_observatory : option jvalue
}.

(** ** Names *)
Definition CHAIN_AUTO_TAG : Z := 0.
Definition AUTO_BALANCER_TAG : string := "bal-auto".
Definition OBSERVATORY_PROBE_URL : string := "https://www.gstatic.com/generate_204".
Definition OBSERVATORY_PROBE_INTERVAL : string := "1m".

Definition chainOutTag (directionTag ordinal : Z) : string :=
  let base := LINK_OUT_TAG +:+ "-chain-d" +:+ pretty directionTag in
  if ordinal =? 0 then base else base +:+ "-p" +:+ pretty ordinal.

Definition dirOutTag (directionTag : Z) (idx : nat) : string :=
  LINK_OUT_TAG +:+ "-d" +:+ pretty directionTag +:+ "-" +:+ pretty (Z.of_nat idx).

Definition balancerTagOf (directionTag : Z) : string := "bal-d" +:+ pretty directionTag.

Definition linkClientEmail (directionTag : Z) (fromNodeId : string) : string :=
  "lnk-d" +:+ pretty directionTag +:+ "-" +:+ fromNodeId.

(** Which drawing a push gives xray. *)
Inductive CascadeXrayDrawing := DLegacy | DHandover | DNone.

(** [chain]: the engine of the chain's user core, where there is a chain. *)
Definition cascadeXrayDrawingOf (chain : option (option string)) (legacyFragments : bool) : CascadeXrayDrawing :=
  match chain with
  | Some engine => if bool_decide (engine = Some "xray") then DHandover else DNone
  | None => if legacyFragments then DLegacy else DNone
  end.

Definition policyCascadeOutTag (directionTag : Z) (drawing : CascadeXrayDrawing) : option string :=
  match drawing with
  | DLegacy => Some (dirOutTag directionTag 0)
  | DHandover => Some (chainOutTag directionTag 0)
  | DNone => None
  end.

(** ** Parts of the drawing *)
Definition chainSocksOutbound (directionTag : Z) (password : string) (ordinal : Z) : jvalue :=
  JObj [("tag", JStr (chainOutTag directionTag ordinal)); ("protocol", JStr "socks");
    ("settings", JObj [("servers", JArr [JObj [("address", JStr "127.0.0.1");
       ("port", JNum (chainSocksPort directionTag));
       ("users", JArr [JObj [("user", JStr (chainSocksUser ordinal)); ("pass", JStr password)]])]])])].

Definition handoverOrdinals (policies : option (list CascadePolicy)) : list Z :=
  0 :: js_uniq (sort_by Z.leb (cp_ordinal <$> default [] policies)).

Definition vless_links (links : list TopologyLinkRow) : list (string * option Reality * string) :=
  omap (λ l, match tl_cred l with
             | Vless _ uuid r => Some (uuid, r, linkClientEmail (tl_tag l) (tl_from l))
             | _ => None
             end) links.

Definition ss_links (links : list TopologyLinkRow) : list (string * string * string) :=
  omap (λ l, match tl_cred l with
             | Ss2022 _ psk method => Some (psk, method, linkClientEmail (tl_tag l) (tl_from l))
             | _ => None
             end) links.

(** The block of the listener: of the first leg that has one. *)
Definition listener_reality (links : list TopologyLinkRow) : option Reality :=
  head (omap (λ v : string * option Reality * string, v.1.2) (vless_links links)).

Definition listener_shortIds (links : list TopologyLinkRow) : list string :=
  js_uniq (filter (λ s, s ≠ "") (omap (λ v : string * option Reality * string, shortId <$> v.1.2) (vless_links links))).

Definition multiClientLinkInbound (first : LinkCred) (links : list TopologyLinkRow) : jvalue :=
  match first with
  | Ss2022 p _ _ =>
      link_listener p "shadowsocks"
        [("clients", JArr ((λ v : string * string * string,
            JObj [("email", JStr v.2); ("password", JStr v.1.1); ("method", JStr v.1.2)]) <$> ss_links links));
         ("network", JStr "tcp,udp")] []
  | _ =>
      let reality := listener_reality links in
      link_listener (port first) "vless"
        [("clients", JArr ((λ v : string * option Reality * string,
            JObj ([("id", JStr v.1.1); ("email", JStr v.2)] ++ flow_of reality)) <$> vless_links links));
         ("decryption", JStr "none")]
        [("streamSettings", match reality with Some r => reality_in r (listener_shortIds links) | None => raw_in end)]
  end.

Definition observatory : jvalue :=
  JObj [("subjectSelector", JArr [JStr LINK_OUT_TAG]); ("probeURL", JStr OBSERVATORY_PROBE_URL);
        ("probeInterval", JStr OBSERVATORY_PROBE_INTERVAL)].

(** ** The builder *)
Section Build.
Context (isIP : string → Z) (isRegExp : string → bool) (nodeId : string) (input : TopologyInput).

Definition incoming : list TopologyLinkRow := filter (λ l, tl_to l = nodeId) (ti_links input).
Definition outgoing : list TopologyLinkRow := filter (λ l, tl_from l = nodeId) (ti_links input).

(** [positions.findIndex(...)]; [None] is -1. *)
Definition posIndex : option nat := fst <$> list_find (λ p, nodeId ∈ p) (ti_positions input).

Definition outbound_directions : list Z :=
  td_tag <$> filter (λ d, is_Some (td_outbound d)) (ti_directions input).

Definition foreignTags : list Z :=
  match posIndex with
  | Some k => if bool_decide (S k = length (ti_positions input)) then outbound_directions else []
  | None => []
  end.

Definition isEntry : bool := bool_decide (posIndex = Some O).
Definition isDirection : bool := existsb (λ d, bool_decide (nodeId ∈ td_nodeIds d)) (ti_directions input).
Definition role : HopRole := if isEntry then REntry else if isDirection then RExit else RTransit.

(** [hosts.get(id)], where an empty address counts as none. *)
Definition host_of (id : string) : option string :=
  h ← jm_get id (ti_hosts input); if bool_decide (h = "") then None else Some h.

Definition allow_host (l : TopologyLinkRow) : result draw_error string :=
  match host_of (tl_from l) with Some h => Ok h | None => Throw (NoPeerAddress nodeId (tl_from l)) end.

Definition policies : list CascadePolicy := default [] (ti_policies input).

(** The password, at an entry that hands over. *)
Definition handover : option string := if isEntry then ti_chainSocksPassword input else None.

(** *** Outbounds *)
Record Drawn := mkDrawn {
  dr_outbounds : list jvalue;
  dr_byDirection : list (Z * list string);
  dr_counter : list (Z * nat)
}.

Definition socks_outbounds (tag : Z) (password : string) : list jvalue :=
  chainSocksOutbound tag password <$> handoverOrdinals (ti_policies input).

(** One turn of the loop over the legs that start here. *)
Definition draw_leg (st : Drawn) (l : TopologyLinkRow) : result draw_error Drawn :=
  let d := tl_tag l in
  match host_of (tl_to l) with
  | None => Throw (NoNextAddress nodeId d (tl_to l))
  | Some host =>
      match handover with
      | Some password =>
          if bool_decide (d ∈ jm_keys (dr_byDirection st)) then Ok st
          else Ok (mkDrawn (dr_outbounds st ++ socks_outbounds d password)
                     (jm_set d [chainOutTag d 0] (dr_byDirection st)) (dr_counter st))
      | None =>
          let idx := default O (jm_get d (dr_counter st)) in
          let tag := dirOutTag d idx in
          o ← linkOutboundTagged isIP host (tl_cred l) tag (jm_get nodeId (ti_hosts input));
          Ok (mkDrawn (dr_outbounds st ++ [o])
                (jm_set d (default [] (jm_get d (dr_byDirection st)) ++ [tag]) (dr_byDirection st))
                (jm_set d (S idx) (dr_counter st)))
      end
  end.

Definition draw_foreign (st : Drawn) (tag : Z) : result draw_error Drawn :=
  match handover with
  | None => Throw (NamedOutboundWithoutChain nodeId tag)
  | Some password =>
      Ok (mkDrawn (dr_outbounds st ++ socks_outbounds tag password)
            (jm_set tag [chainOutTag tag 0] (dr_byDirection st)) (dr_counter st))
  end.

Definition draw_outbounds : result draw_error Drawn :=
  st ← fold_res draw_leg (mkDrawn [] [] []) outgoing;
  fold_res draw_foreign st foreignTags.

(** *** Rules *)
Definition route_text (tags : list Z) : string := js_join "," (pretty <$> tags).

Definition autoOn (byDirection : list (Z * list string)) : bool := ti_auto input && (1 <? length byDirection)%nat.

(** The tags of a policy across every direction, and Auto where it is offered. *)
Definition policy_tags (byDirection : list (Z * list string)) (p : CascadePolicy) : list Z :=
  ((λ d, routeTag (cp_ordinal p) (td_tag d - 1)) <$> ti_directions input) ++
  (if autoOn byDirection then [autoRouteTag (cp_ordinal p)] else []).

Definition policy_rules (byDirection : list (Z * list string)) (p : CascadePolicy) : list Rule :=
  let route := route_text (policy_tags byDirection p) in
  xrayPolicyRules isIP isRegExp route (blockDomains p) "blocked" xrayGeoEntry ++
  xrayPolicyRules isIP isRegExp route (directDomains p) DIRECT_TAG xrayGeoEntry.

(** Rules and balancers, in the order they are pushed. *)
Definition Steering : Type := list Rule * list Balancer.

Definition to_target (r : Rule) (t : option string * option string) : Rule :=
  mkRule (vlessRoute r) (user r) (inboundTag r) (network r) (rule_port r) (domain r) (ip r) t.1 t.2.

Definition bare : Rule := mkRule None None None None None None None None None.
Definition with_tags (tags : list Z) : Rule := with_route bare (route_text tags) None.
Definition with_network (n : string) (r : Rule) : Rule :=
  mkRule (vlessRoute r) (user r) (inboundTag r) (Some n) (rule_port r) (domain r) (ip r) (outboundTag r) (balancerTag r).

(** The target of a direction: its only outbound, or a balancer of them. *)
Definition direction_target (d : Z) (tags : list string) : (option string * option string) * list Balancer :=
  match tags with
  | [t] => ((Some t, None), [])
  | _ => ((None, Some (balancerTagOf d)), [mkBalancer (balancerTagOf d) tags])
  end.

Definition leg_users (d : Z) : list string :=
  (λ l, linkClientEmail (tl_tag l) (tl_from l)) <$> filter (λ l, tl_to l = nodeId ∧ tl_tag l = d) (ti_links input).

Definition steer_direction (e : Z * list string) : Steering :=
  let '(d, tags) := e in
  let '(t, balancers) := direction_target d tags in
  let rules :=
    match handover with
    | Some _ => (λ o, to_target (with_tags [routeTag o (d - 1)]) (Some (chainOutTag d o), None))
                  <$> handoverOrdinals (ti_policies input)
    | None =>
        if isEntry then [to_target (with_tags (routeTag 0 (d - 1) ::
                           ((λ p, routeTag (cp_ordinal p) (d - 1)) <$> policies))) t]
        else [to_target (mkRule None (Some (leg_users d)) None None None None None None None) t]
    end in
  (rules, balancers).

Definition steer_auto : list jvalue * Steering :=
  match handover with
  | Some password =>
      (chainSocksOutbound CHAIN_AUTO_TAG password <$> handoverOrdinals (ti_policies input),
       ((λ o, to_target (with_network "tcp,udp" (with_tags [autoRouteTag o])) (Some (chainOutTag CHAIN_AUTO_TAG o), None))
          <$> handoverOrdinals (ti_policies input), []))
  | None =>
      ([], ([to_target (with_network "tcp,udp" (with_tags (autoRouteTag 0 :: ((λ p, autoRouteTag (cp_ordinal p)) <$> policies))))
               (None, Some AUTO_BALANCER_TAG)],
            [mkBalancer AUTO_BALANCER_TAG [LINK_OUT_TAG]]))
  end.

Definition direction_leb (a b : Z * list string) : bool := a.1 <=? b.1.

Definition steer (byDirection : list (Z * list string)) : list jvalue * Steering :=
  let parts := steer_direction <$> sort_by direction_leb byDirection in
  let '(outs, (auto_rules, auto_balancers)) :=
    if isEntry && autoOn byDirection then steer_auto else ([], ([], [])) in
  let rules :=
    (if isEntry then [QUIC_BLOCK_RULE] else []) ++
    (if isEntry && negb (bool_decide (is_Some handover)) then policies ≫= policy_rules byDirection else []) ++
    (parts ≫= fst) ++ auto_rules in
  (outs, (rules, (parts ≫= snd) ++ auto_balancers)).

Definition gated (rules : list Rule) : list Rule :=
  match ti_entryUserGate input with
  | Some may => if isEntry then applyEntryUserGate may rules else rules
  | None => rules
  end.

(** *** The whole *)
Definition non_empty {A} (l : list A) : option (list A) := if bool_decide (length l = O) then None else Some l.

Definition inbound_side : result draw_error (list jvalue * option Z * list string) :=
  match incoming with
  | [] => Ok ([], None, [])
  | l :: _ =>
      allowFrom ← map_res allow_host incoming;
      Ok ([multiClientLinkInbound (tl_cred l) incoming], Some (port (tl_cred l)), allowFrom)
  end.

Definition buildTopologyFragmentsForNode : result draw_error (option HopConfig) :=
  if (length incoming =? 0)%nat && (length outgoing =? 0)%nat && (length foreignTags =? 0)%nat then Ok None
  else
    '(inbounds, linkIngressPort, allowFrom) ← inbound_side;
    st ← draw_outbounds;
    let allow := non_empty (js_uniq allowFrom) in
    match role with
    | RExit =>
        Ok (Some (mkHop nodeId (length (ti_positions input)) RExit inbounds [freedomOutbound]
                    [link_in_rule DIRECT_TAG] linkIngressPort allow None None))
    | _ =>
        let '(outs, (rules, balancers)) := steer (dr_byDirection st) in
        Ok (Some (mkHop nodeId (default (length (ti_positions input)) posIndex) role inbounds
                    (dr_outbounds st ++ [freedomOutbound] ++ outs) (gated rules) linkIngressPort allow
                    (non_empty balancers) (if bool_decide (balancers = []) then None else Some observatory)))
    end.
End Build.

(** ** Reading a configuration *)

(** xray's selectors match tags by prefix. *)
Definition selects (selector : list string) (o : jvalue) : bool :=
  match out_tag o with Some t => existsb (λ s, starts_with s t) selector | None => false end.

(** Where a connection may go: through outbounds of the node, into the
    blackhole, or past the last rule. *)
Inductive way := Ways (os : list jvalue) | Blackhole | PastRules.

Definition leaves (cfg : HopConfig) (c : Connection) : way :=
  match route (hc_rules cfg) c with
  | None => PastRules
  | Some (Some t, _) =>
      if bool_decide (t = "blocked") then Blackhole
      else Ways (filter (λ o, out_tag o = Some t) (hc_outbounds cfg))
  | Some (None, Some b) =>
      Ways (match js_find (λ x, bool_decide (b_tag x = b)) (default [] (hc_balancers cfg)) with
            | Some x => filter (λ o, selects (b_selector x) o = true) (hc_outbounds cfg)
            | None => []
            end)
  | Some (None, None) => Ways []
  end.

(** ** Lemmas on names *)
Lemma starts_with_spec p s : starts_with p s = true ↔ ∃ r, s = p +:+ r.
Proof.
  revert s. induction p as [|c p IH]; intros s; simpl; [naive_solver|].
  destruct s as [|d s]; [split; [done|by intros []]|].
  rewrite andb_true_iff, bool_decide_eq_true, IH. split.
  - intros [-> [r ->]]. by exists r.
  - intros [r [= -> ->]]. by eauto.
Qed.

Lemma starts_with_app_l p s t : starts_with (p +:+ s) (p +:+ t) = starts_with s t.
Proof. induction p as [|c p IH]; [done|]. simpl. by rewrite bool_decide_true, IH. Qed.

Lemma pretty_Z_inj a b : 0 <= a → 0 <= b → pretty a = pretty b → a = b.
Proof.
  intros Ha Hb E.
  destruct (take_digits_pretty a [] Ha I) as (k & _ & Ea), (take_digits_pretty b [] Hb I) as (k' & _ & Eb).
  rewrite E in Ea. rewrite Ea in Eb. by injection Eb.
Qed.

Lemma number_sep_inj c a b r r' : 0 <= a → 0 <= b → is_digit c = false →
  pretty a +:+ String c r = pretty b +:+ String c r' → a = b ∧ r = r'.
Proof.
  intros Ha Hb Hc E. apply str_sep_inj in E as [E ->]; [|by apply char_free_has, pretty_char_free..].
  split; [by apply pretty_Z_inj|done].
Qed.

Lemma dirOutTag_prefix d d' i i' r : 0 <= d → 0 <= d' →
  dirOutTag d' i' = dirOutTag d i +:+ r → d = d'.
Proof.
  intros Hd Hd' E. unfold dirOutTag in E. rewrite !str_app_assoc in E. do 2 apply str_app_inj in E.
  symmetry in E. by apply number_sep_inj in E as [? _].
Qed.

Lemma dirOutTag_inj d d' i i' : 0 <= d → 0 <= d' → dirOutTag d i = dirOutTag d' i' → d = d' ∧ i = i'.
Proof.
  intros Hd Hd' E. unfold dirOutTag in E. do 2 apply str_app_inj in E.
  apply number_sep_inj in E as [-> E]; [|done..]. split; [done|]. apply pretty_Z_inj in E; lia.
Qed.

Lemma linkClientEmail_inj d d' n n' : 0 <= d → 0 <= d' → linkClientEmail d n = linkClientEmail d' n' → d = d' ∧ n = n'.
Proof. intros Hd Hd' E. unfold linkClientEmail in E. apply str_app_inj in E. by apply number_sep_inj in E. Qed.

Lemma pretty_no_dash d s : 0 <= d → pretty d = s → str_has "-" s = false.
Proof. intros Hd <-. by apply char_free_has, pretty_char_free. Qed.

Lemma chainOutTag_inj d d' o o' : 0 <= d → 0 <= d' → 0 <= o → 0 <= o' →
  chainOutTag d o = chainOutTag d' o' → d = d' ∧ o = o'.
Proof.
  intros Hd Hd' Ho Ho'. unfold chainOutTag.
  destruct (Z.eqb_spec o 0) as [->|Hz], (Z.eqb_spec o' 0) as [->|Hz']; rewrite ?str_app_assoc; intros E;
    do 2 apply str_app_inj in E.
  - split; [by apply pretty_Z_inj|done].
  - apply pretty_no_dash in E; [|done]. rewrite str_has_app in E. by apply orb_false_iff in E as [_ ?].
  - symmetry in E. apply pretty_no_dash in E; [|done]. rewrite str_has_app in E. by apply orb_false_iff in E as [_ ?].
  - apply (number_sep_inj "-") in E as [-> E]; [|done..]. apply (str_app_inj "p") in E.
    split; [done|]. by apply pretty_Z_inj.
Qed.

(** ** The legs drawn by xray itself *)

(** How many legs of a direction there are. *)
Definition count (d : Z) (ls : list TopologyLinkRow) : nat := length (filter (λ l, tl_tag l = d) ls).

Lemma count_snoc d ls l : count d (ls ++ [l]) = (count d ls + if decide (tl_tag l = d) then 1 else 0)%nat.
Proof. unfold count. rewrite filter_app, length_app, filter_cons, filter_nil. by case_decide. Qed.

(** The tags of the outbounds of a list of legs. *)
Definition leg_tags (ls : list TopologyLinkRow) : list string :=
  imap (λ i l, dirOutTag (tl_tag l) (count (tl_tag l) (take i ls))) ls.

Lemma leg_tags_snoc ls l : leg_tags (ls ++ [l]) = leg_tags ls ++ [dirOutTag (tl_tag l) (count (tl_tag l) ls)].
Proof.
  unfold leg_tags. rewrite imap_app. simpl. rewrite Nat.add_0_r, take_app_length. f_equal.
  apply imap_ext. intros i x Hi. simpl. rewrite take_app_le; [done|]. apply lookup_lt_Some in Hi. lia.
Qed.

Lemma elem_of_leg_tags t ls : t ∈ leg_tags ls ↔ ∃ d i, t = dirOutTag d i ∧ (i < count d ls)%nat.
Proof.
  induction ls as [|l ls IH] using rev_ind.
  - split; [by intros ?%not_elem_of_nil|intros (d & i & _ & H)]. unfold count in H. simpl in H. lia.
  - rewrite leg_tags_snoc, elem_of_app, IH, list_elem_of_singleton. split.
    + intros [(d & i & -> & Hi)| ->].
      * exists d, i. split; [done|]. rewrite count_snoc. lia.
      * exists (tl_tag l), (count (tl_tag l) ls). split; [done|]. rewrite count_snoc, decide_True by done. lia.
    + intros (d & i & -> & Hi). rewrite count_snoc in Hi. case_decide as Hd; [|left; exists d, i; split; [done|lia]].
      destruct (decide (i = count d ls)) as [->|]; [right; by rewrite Hd|left; exists d, i; split; [done|lia]].
Qed.

Lemma leg_tags_NoDup ls : Forall (λ l, 0 <= tl_tag l) ls → NoDup (leg_tags ls).
Proof.
  induction ls as [|l ls IH] using rev_ind; intros Hls; [constructor|].
  apply Forall_app in Hls as [Hls Hl]. rewrite Forall_singleton in Hl. rewrite leg_tags_snoc.
  apply NoDup_app. split; [by apply IH|]. split; [|apply NoDup_singleton].
  intros t Ht Ht'. apply list_elem_of_singleton in Ht' as ->. apply elem_of_leg_tags in Ht as (d & i & E & Hi).
  assert (0 <= d) as Hd.
  { unfold count in Hi. destruct (filter _ ls) as [|x xs] eqn:Ef; [simpl in Hi; lia|].
    assert (x ∈ x :: xs) as Hx by set_solver. rewrite <-Ef in Hx. apply list_elem_of_filter in Hx as [<- Hx].
    rewrite Forall_forall in Hls. by apply Hls. }
  apply dirOutTag_inj in E as [E1 E2]; [subst; lia|exact Hl|done].
Qed.

Section Drawing.
Context (isIP : string → Z) (nodeId : string) (input : TopologyInput).

(** An outbound that dials the far end of a leg. *)
Definition dials (l : TopologyLinkRow) (o : jvalue) : Prop :=
  ∃ h, host_of input (tl_to l) = Some h ∧ drawable (tl_cred l) = true ∧
  dial_of o = Some (h, port (tl_cred l), secret_of (tl_cred l)).

Definition drawn_legs (ls : list TopologyLinkRow) (st : Drawn) : Prop :=
  Forall2 dials ls (dr_outbounds st) ∧ out_tag <$> dr_outbounds st = Some <$> leg_tags ls ∧
  jm_wf (dr_byDirection st) ∧
  (∀ d, jm_get d (dr_byDirection st) = (if decide (count d ls = 0%nat) then None
                                        else Some (dirOutTag d <$> seq 0 (count d ls)))) ∧
  (∀ d, default O (jm_get d (dr_counter st)) = count d ls).

Lemma draw_leg_legacy ls st l st' : handover nodeId input = None → drawn_legs ls st →
  draw_leg isIP nodeId input st l = Ok st' → drawn_legs (ls ++ [l]) st'.
Proof.
  intros Hh (Hd & Ht & Hwf & Hb & Hc) E. unfold draw_leg in E. rewrite Hh in E.
  destruct (host_of input (tl_to l)) as [h|] eqn:Eh; [|done]. apply bind_ok in E as (o & Eo & E).
  injection E as <-. apply linkOutboundTagged_ok in Eo as (Hdr & Hot & Hdi). rewrite Hc in Hot.
  split; [|split; [|split; [|split]]]; simpl.
  - apply Forall2_app; [done|]. constructor; [|done]. by exists h.
  - rewrite !fmap_app, Ht, leg_tags_snoc, fmap_app. simpl. by rewrite Hot.
  - by apply jm_wf_set.
  - intros d. rewrite jm_get_set, count_snoc. destruct (decide (d = tl_tag l)) as [->|Hne].
    + rewrite (decide_True (P:=tl_tag l = tl_tag l)), decide_False by (done || lia). f_equal.
      rewrite Hc, Hb, Nat.add_1_r, seq_S, fmap_app. by case_decide as E; [rewrite E|].
    + rewrite (decide_False (P:=tl_tag l = d)), Nat.add_0_r by done. apply Hb.
  - intros d. rewrite jm_get_set, count_snoc. destruct (decide (d = tl_tag l)) as [->|Hne]; simpl.
    + rewrite decide_True, Hc by done. lia.
    + rewrite decide_False, Hc by done. lia.
Qed.

Lemma draw_legs_legacy ls ls0 st0 st : handover nodeId input = None → drawn_legs ls0 st0 →
  fold_res (draw_leg isIP nodeId input) st0 ls = Ok st → drawn_legs (ls0 ++ ls) st.
Proof.
  intros Hh. revert ls0 st0. induction ls as [|l ls IH]; intros ls0 st0 Hd E; simpl in E.
  - injection E as <-. by rewrite app_nil_r.
  - apply bind_ok in E as (st1 & E1 & E). rewrite (assoc_L _ ls0 [l] ls : ls0 ++ l :: ls = _).
    eapply IH; [|exact E]. by eapply draw_leg_legacy.
Qed.

Lemma draw_outbounds_legacy st : handover nodeId input = None →
  draw_outbounds isIP nodeId input = Ok st →
  foreignTags nodeId input = [] ∧ drawn_legs (outgoing nodeId input) st.
Proof.
  intros Hh E. unfold draw_outbounds in E. apply bind_ok in E as (st1 & E1 & E).
  destruct (foreignTags nodeId input) as [|t ts] eqn:Ef.
  2:{ simpl in E. unfold draw_foreign in E. by rewrite Hh in E. }
  simpl in E. injection E as <-. split; [done|]. eapply (draw_legs_legacy _ []); [done| |exact E1].
  split; [constructor|]. split; [done|]. split; [apply jm_wf_nil|]. by split.
Qed.

(** ** The hand-off drawn for the chain process *)
Definition drawn_chain (password : string) (ds : list Z) (st : Drawn) : Prop :=
  NoDup ds ∧ dr_outbounds st = ds ≫= (λ d, socks_outbounds input d password) ∧
  dr_byDirection st = (λ d, (d, [chainOutTag d 0])) <$> ds.

Lemma jm_set_new {K V} `{EqDecision K} (k : K) (v : V) m : k ∉ jm_keys m → jm_set k v m = m ++ [(k, v)].
Proof.
  unfold jm_keys. induction m as [|[k' v'] m IH]; simpl; [done|]. intros Hk.
  rewrite decide_False by set_solver. f_equal. apply IH. set_solver.
Qed.

Lemma drawn_chain_keys password ds st : drawn_chain password ds st → jm_keys (dr_byDirection st) = ds.
Proof. intros (_ & _ & ->). unfold jm_keys. rewrite <-list_fmap_compose. apply list_fmap_id. Qed.

Lemma drawn_chain_add password ds st d : drawn_chain password ds st → d ∉ ds →
  drawn_chain password (ds ++ [d])
    (mkDrawn (dr_outbounds st ++ socks_outbounds input d password)
       (jm_set d [chainOutTag d 0] (dr_byDirection st)) (dr_counter st)).
Proof.
  intros Hst Hd. pose proof (drawn_chain_keys _ _ _ Hst) as Hk. destruct Hst as (Hnd & Ho & Hb).
  split; [|split]; simpl.
  - apply NoDup_app. split; [done|]. split; [set_solver|apply NoDup_singleton].
  - rewrite Ho, bind_app. simpl. by rewrite app_nil_r.
  - rewrite jm_set_new by by rewrite Hk. by rewrite Hb, fmap_app.
Qed.

Lemma draw_legs_chain password ls ds st st' : handover nodeId input = Some password →
  drawn_chain password ds st → fold_res (draw_leg isIP nodeId input) st ls = Ok st' →
  drawn_chain password (foldl (λ s x, set_add x s) ds (tl_tag <$> ls)) st'.
Proof.
  intros Hh. revert ds st. induction ls as [|l ls IH]; intros ds st Hst E; simpl in *; [by injection E as <-|].
  apply bind_ok in E as (st1 & E1 & E). eapply IH; [|exact E]. clear IH E.
  unfold draw_leg in E1. rewrite Hh in E1. destruct (host_of _ _); [|done].
  pose proof (drawn_chain_keys _ _ _ Hst) as Hk. unfold set_add. case_bool_decide as Hd; injection E1 as <-.
  - by rewrite decide_True by by rewrite <-Hk.
  - rewrite decide_False by by rewrite <-Hk. apply drawn_chain_add; [done|by rewrite <-Hk].
Qed.

Lemma draw_foreign_chain password ts ds st st' : handover nodeId input = Some password →
  drawn_chain password ds st → NoDup (ds ++ ts) → fold_res (draw_foreign nodeId input) st ts = Ok st' →
  drawn_chain password (ds ++ ts) st'.
Proof.
  intros Hh. revert ds st. induction ts as [|t ts IH]; intros ds st Hst Hnd E; simpl in E.
  - injection E as <-. by rewrite app_nil_r.
  - apply bind_ok in E as (st1 & E1 & E). unfold draw_foreign in E1. rewrite Hh in E1. injection E1 as <-.
    rewrite (assoc_L _ ds [t] ts : ds ++ t :: ts = _) in Hnd |- *. eapply IH; [|done|exact E].
    apply drawn_chain_add; [done|]. apply NoDup_app in Hnd as (Hnd & _ & _). apply NoDup_app in Hnd. set_solver.
Qed.

(** Every direction this node sends anywhere, once. *)
Definition here : list Z := js_uniq (tl_tag <$> outgoing nodeId input) ++ foreignTags nodeId input.

Lemma draw_outbounds_chain password st : handover nodeId input = Some password → NoDup here →
  draw_outbounds isIP nodeId input = Ok st → drawn_chain password here st.
Proof.
  intros Hh Hnd E. unfold draw_outbounds in E. apply bind_ok in E as (st1 & E1 & E).
  eapply draw_foreign_chain; [done| |done|exact E]. rewrite <-foldl_set_add.
  eapply draw_legs_chain; [done| |exact E1]. split; [constructor|done].
Qed.
End Drawing.
