(* ===== verification/TopologyRoutes.v ===== *)
(** Where the traffic of a cascade goes, node by node, under the configurations
    of TopologyFragments: what an entry's rules decide for a client's tag, with
    and without the gate; what a transit decides for the leg it came on; that a
    configuration holds together; and the way through the whole cascade. *)

From S2P Require Import Prelude Js Json LinkCreds PolicyEntries EntryGate XrayLinks TopologyFragments.

Local Open Scope string_scope.
Local Open Scope list_scope.
Local Open Scope Z_scope.

(** ** What the builder is given *)
Record legal (input : TopologyInput) : Prop := {
  legal_some : ti_directions input ≠ [];
  legal_tags : Forall (λ d, 1 <= td_tag d <= 255) (ti_directions input);
  legal_distinct : NoDup (td_tag <$> ti_directions input);
  legal_policies : Forall (λ p, 1 <= cp_ordinal p <= MAX_DIRECTION_ORDINAL) (policies input);
  legal_ordinals : NoDup (cp_ordinal <$> policies input);
  legal_links : ∀ l, l ∈ ti_links input → ∃ d, d ∈ ti_directions input ∧ td_tag d = tl_tag l ∧ td_outbound d = None;
  legal_users : ∀ may, ti_entryUserGate input = Some may → Forall id_ok (jm_keys may)
}.

Section Legal.
Context (nodeId : string) (input : TopologyInput).
Hypothesis Hlegal : legal input.

Lemma link_tag_range l : l ∈ ti_links input → 1 <= tl_tag l <= 255.
Proof.
  intros Hl. destruct (legal_links _ Hlegal l Hl) as (d & Hd & <- & _).
  pose proof (legal_tags _ Hlegal) as H. rewrite Forall_forall in H. by apply H.
Qed.

Lemma elem_of_here d : d ∈ here nodeId input ↔
  (∃ l, l ∈ outgoing nodeId input ∧ tl_tag l = d) ∨ d ∈ foreignTags nodeId input.
Proof. unfold here. rewrite elem_of_app, elem_of_js_uniq, list_elem_of_fmap. naive_solver. Qed.

Lemma foreign_direction d : d ∈ foreignTags nodeId input →
  ∃ x, x ∈ ti_directions input ∧ td_tag x = d ∧ is_Some (td_outbound x).
Proof.
  unfold foreignTags. destruct (posIndex _ _); [|by intros ?%not_elem_of_nil].
  case_bool_decide; [|by intros ?%not_elem_of_nil]. unfold outbound_directions.
  intros Hd. apply list_elem_of_fmap in Hd as (x & -> & Hx). apply list_elem_of_filter in Hx as [? ?]. by exists x.
Qed.

Lemma here_range d : d ∈ here nodeId input → 1 <= d <= 255.
Proof.
  rewrite elem_of_here. intros [(l & Hl & <-)|Hf].
  - apply link_tag_range. unfold outgoing in Hl. by apply list_elem_of_filter in Hl as [_ ?].
  - apply foreign_direction in Hf as (x & Hx & <- & _).
    pose proof (legal_tags _ Hlegal) as H. rewrite Forall_forall in H. by apply H.
Qed.

Lemma here_direction d : d ∈ here nodeId input → d ∈ td_tag <$> ti_directions input.
Proof.
  rewrite elem_of_here. intros [(l & Hl & <-)|Hf].
  - unfold outgoing in Hl. apply list_elem_of_filter in Hl as [_ Hl].
    destruct (legal_links _ Hlegal l Hl) as (x & Hx & <- & _). by apply list_elem_of_fmap_2.
  - apply foreign_direction in Hf as (x & Hx & <- & _). by apply list_elem_of_fmap_2.
Qed.

Lemma tagged_once x y : x ∈ ti_directions input → y ∈ ti_directions input → td_tag x = td_tag y → x = y.
Proof. apply NoDup_fmap_elem, (legal_distinct _ Hlegal). Qed.

Lemma here_NoDup : NoDup (here nodeId input).
Proof.
  unfold here. apply NoDup_app. split; [apply NoDup_js_uniq|]. split.
  - intros d Hd Hf. apply elem_of_js_uniq, list_elem_of_fmap in Hd as (l & -> & Hl).
    unfold outgoing in Hl. apply list_elem_of_filter in Hl as [_ Hl].
    destruct (legal_links _ Hlegal l Hl) as (x & Hx & Ex & Hn).
    apply foreign_direction in Hf as (y & Hy & Ey & Hs).
    assert (x = y) as -> by (apply tagged_once; [done|done|congruence]). rewrite Hn in Hs. by destruct Hs.
  - unfold foreignTags. destruct (posIndex _ _); [|constructor]. case_bool_decide; [|constructor].
    unfold outbound_directions. apply NoDup_fmap_filter, (legal_distinct _ Hlegal).
Qed.
End Legal.

(** ** Routing by first match *)
Lemma route_bind_none {A} (f : A → list Rule) l c : (∀ x, x ∈ l → route (f x) c = None) → route (l ≫= f) c = None.
Proof.
  induction l as [|x l IH]; intros H; [done|]. rewrite bind_cons, route_app, H by set_solver. apply IH. set_solver.
Qed.

Lemma route_bind_one {A} `{EqDecision A} (f : A → list Rule) l x c :
  (∀ y, y ∈ l → y ≠ x → route (f y) c = None) → x ∈ l → route (l ≫= f) c = route (f x) c.
Proof.
  induction l as [|y l IH]; intros H Hx; [by apply not_elem_of_nil in Hx|]. rewrite bind_cons, route_app.
  destruct (decide (y = x)) as [->|Hne].
  - destruct (route (f x) c) eqn:E; [done|]. apply route_bind_none. intros z Hz.
    destruct (decide (z = x)) as [->|]; [done|]. apply H; [by right|done].
  - rewrite H by (done || by left). apply IH; [|set_solver]. intros z Hz. apply H. by right.
Qed.

Lemma route_none rules c : route rules c = None ↔ ∀ r, r ∈ rules → takes c r = false.
Proof. unfold route. rewrite fmap_None. apply js_find_None. Qed.

Lemma route_map_one {A} `{EqDecision A} (f : A → Rule) l x c :
  (∀ y, y ∈ l → takes c (f y) = true ↔ y = x) →
  route (f <$> l) c = if decide (x ∈ l) then Some (target (f x)) else None.
Proof.
  intros H. destruct (decide (x ∈ l)) as [Hx|Hx].
  - assert (f <$> l = l ≫= λ y, [f y]) as ->.
    { clear. induction l as [|y l IH]; [done|]. csimpl. by f_equal. }
    rewrite (route_bind_one _ l x); [|intros y Hy Hne|done].
    + unfold route. simpl. by rewrite (proj2 (H x Hx) eq_refl).
    + apply route_none. intros r Hr. apply list_elem_of_singleton in Hr as ->.
      apply not_true_iff_false. by rewrite H.
  - apply route_none. intros r Hr. apply list_elem_of_fmap in Hr as (y & -> & Hy).
    apply not_true_iff_false. rewrite H by done. by intros ->.
Qed.

(** Of lists with a key each, the one of the key the connection asks for. *)
Lemma route_by {A} (k : A → Z) (f : A → list Rule) (X : A → option (option string * option string)) x l c : NoDup (k <$> l) →
  (∀ p, p ∈ l → route (f p) c = if decide (k p = x) then X p else None) →
  route (l ≫= f) c = js_find (λ p, k p =? x) l ≫= X.
Proof.
  induction l as [|p l IH]; intros Hnd Hp; [done|]. rewrite bind_cons, route_app, Hp by set_solver.
  rewrite fmap_cons in Hnd. apply NoDup_cons in Hnd as [Hni Hnd]. simpl.
  destruct (Z.eqb_spec (k p) x) as [Ep|Hne].
  - rewrite decide_True by done. assert (route (l ≫= f) c = None) as ->; [|csimpl; by destruct (X p)].
    apply route_bind_none. intros q Hq. rewrite Hp by set_solver. rewrite decide_False; [done|]. intros E.
    apply Hni, list_elem_of_fmap. exists q. by rewrite Ep.
  - rewrite decide_False by done. apply IH; [done|]. intros q Hq. apply Hp. by right.
Qed.

(** A rule of the entry names its tags and nothing else, but the network. *)
Definition tags_ok (ts : list Z) : Prop := ts ≠ [] ∧ Forall (λ t, 0 <= t < 65536) ts.

Lemma drawn_tags_rule ts t : tags_ok ts → drawn_tags (to_target (with_tags ts) t) ts.
Proof. by intros []. Qed.

Lemma takes_tags c ts t : tags_ok ts →
  takes c (to_target (with_tags ts) t) = match c_route c with Some x => bool_decide (x ∈ ts) | None => false end.
Proof.
  intros Hts. apply eq_true_iff_eq. unfold takes.
  rewrite !andb_true_iff, (takes_route_tags _ _ ts) by by apply tagsOf_drawn, drawn_tags_rule.
  destruct (c_route c) as [x|]; simpl; [rewrite bool_decide_eq_true|]; naive_solver.
Qed.

Lemma takes_tags_network c ts t : tags_ok ts → c_network c ∈ ["tcp"; "udp"] →
  takes c (to_target (with_network "tcp,udp" (with_tags ts)) t)
  = match c_route c with Some x => bool_decide (x ∈ ts) | None => false end.
Proof.
  intros Hts Hn. rewrite <-(takes_tags c ts t) by done. unfold takes. f_equal. unfold takes_rest. simpl.
  by rewrite bool_decide_true.
Qed.

Lemma routeTag_range o d : 0 <= o <= MAX_DIRECTION_ORDINAL → 1 <= d <= 255 → 0 < routeTag o (d - 1) < autoRouteTag MAX_DIRECTION_ORDINAL.
Proof. unfold routeTag, autoRouteTag, MAX_DIRECTION_ORDINAL. lia. Qed.

Lemma autoTag_range o : 0 <= o <= MAX_DIRECTION_ORDINAL → autoRouteTag MAX_DIRECTION_ORDINAL <= autoRouteTag o < 65536.
Proof. unfold autoRouteTag, MAX_DIRECTION_ORDINAL. lia. Qed.

Lemma routeTag_inj o o' d d' : 1 <= d <= 255 → 1 <= d' <= 255 → routeTag o (d - 1) = routeTag o' (d' - 1) → o = o' ∧ d = d'.
Proof. unfold routeTag. lia. Qed.

(** ** What an entry's rules decide *)
Section Entry.
Context (isIP : string → Z) (isRegExp : string → bool) (nodeId : string) (input : TopologyInput).

(** A connection meets a list of a policy: a name or an address of it. *)
Definition hits_spelled (spell : string → string) (c : Connection) (entries : list string) : bool :=
  let '(domain, ip) := splitPolicyEntries isIP isRegExp entries in
  (negb (bool_decide (domain = [])) && c_domain c (spell <$> domain)) ||
  (negb (bool_decide (ip = [])) && c_ip c (spell <$> ip)).

Definition hits : Connection → list string → bool := hits_spelled xrayGeoEntry.

(** What the policy of a profile decides itself; profile 0 has none. *)
Definition policy_way (o : Z) (c : Connection) : option way :=
  match js_find (λ p, cp_ordinal p =? o) (policies input) with
  | None => None
  | Some p => if hits c (blockDomains p) then Some Blackhole
              else if hits c (directDomains p) then Some (Ways [freedomOutbound]) else None
  end.

(** The gate keeps the connection's user from the tag. *)
Definition closed_to (c : Connection) (t : Z) : bool :=
  match ti_entryUserGate input with
  | Some may => negb (everyone_may may t) && negb (may_take may (c_user c) (Some t))
  | None => false
  end.

Definition quic (c : Connection) : bool := bool_decide (c_network c = "udp") && (c_port c =? 443).

Definition in_tags (c : Connection) (ts : list Z) : bool :=
  match c_route c with Some x => bool_decide (x ∈ ts) | None => false end.

Lemma route_policy_spelled spell c ts entries out : tags_ok ts →
  route (xrayPolicyRules isIP isRegExp (route_text ts) entries out spell) c
  = if in_tags c ts && hits_spelled spell c entries then Some (Some out, None) else None.
Proof.
  intros Hts. unfold xrayPolicyRules, hits_spelled. destruct (splitPolicyEntries _ _ _) as [dom ip].
  assert (∀ r, drawn_tags r ts → takes_route c r = in_tags c ts) as Hr.
  { intros r Hd. apply eq_true_iff_eq. rewrite (takes_route_tags _ _ ts) by by apply tagsOf_drawn.
    unfold in_tags. destruct (c_route c); [rewrite bool_decide_eq_true|]; naive_solver. }
  rewrite route_app. assert (∀ r, route [r] c = if takes c r then Some (target r) else None) as H1.
  { intros r. unfold route. simpl. by destruct (takes c r). }
  assert (∀ l : list string, bool_decide (l = []) = match l with [] => true | _ => false end) as Hnil.
  { intros []; by apply bool_decide_decide. }
  rewrite !Hnil. destruct dom as [|d dom], ip as [|i ip]; simpl; rewrite ?H1; unfold takes;
    rewrite ?Hr by (by destruct Hts); unfold takes_user, takes_rest; simpl;
    rewrite ?andb_false_r, ?andb_true_r; try done; destruct (in_tags c ts); simpl; try done;
    repeat (destruct (c_domain _ _) || destruct (c_ip _ _)); done.
Qed.

Lemma route_policy_list c ts entries out : tags_ok ts →
  route (xrayPolicyRules isIP isRegExp (route_text ts) entries out xrayGeoEntry) c
  = if in_tags c ts && hits c entries then Some (Some out, None) else None.
Proof. apply route_policy_spelled. Qed.

Definition policy_target (o : Z) (c : Connection) : option (option string * option string) :=
  match js_find (λ p, cp_ordinal p =? o) (policies input) with
  | None => None
  | Some p => if hits c (blockDomains p) then Some (Some "blocked", None)
              else if hits c (directDomains p) then Some (Some DIRECT_TAG, None) else None
  end.

Hypothesis Hlegal : legal input.

Lemma policy_ordinal p : p ∈ policies input → 1 <= cp_ordinal p <= MAX_DIRECTION_ORDINAL.
Proof. intros Hp. pose proof (legal_policies _ Hlegal) as H. rewrite Forall_forall in H. by apply H. Qed.

Lemma direction_range x : x ∈ ti_directions input → 1 <= td_tag x <= 255.
Proof. intros Hx. pose proof (legal_tags _ Hlegal) as H. rewrite Forall_forall in H. by apply H. Qed.

Lemma routeTag_u16 o d : 0 <= o <= MAX_DIRECTION_ORDINAL → 1 <= d <= 255 → 0 <= routeTag o (d - 1) < 65536.
Proof. unfold routeTag, MAX_DIRECTION_ORDINAL. lia. Qed.

Lemma autoTag_u16 o : 0 <= o <= MAX_DIRECTION_ORDINAL → 0 <= autoRouteTag o < 65536.
Proof. unfold autoRouteTag, MAX_DIRECTION_ORDINAL. lia. Qed.

Lemma policy_tags_ok by_dir p : p ∈ policies input → tags_ok (policy_tags input by_dir p).
Proof.
  intros Hp. apply policy_ordinal in Hp. split.
  - unfold policy_tags. pose proof (legal_some _ Hlegal). by destruct (ti_directions input).
  - unfold policy_tags. apply Forall_app_2.
    + apply Forall_fmap, Forall_forall. intros x Hx. apply routeTag_u16; [lia|by apply direction_range].
    + case_match; [|constructor]. apply Forall_singleton. apply autoTag_u16. lia.
Qed.

Lemma elem_of_policy_tags by_dir p o d : p ∈ policies input → 0 <= o <= MAX_DIRECTION_ORDINAL →
  d ∈ td_tag <$> ti_directions input →
  routeTag o (d - 1) ∈ policy_tags input by_dir p ↔ cp_ordinal p = o.
Proof.
  intros Hp Ho Hd. apply policy_ordinal in Hp as Hr. apply list_elem_of_fmap in Hd as (x & -> & Hx).
  pose proof (direction_range _ Hx) as Hxr. unfold policy_tags. rewrite elem_of_app, list_elem_of_fmap. split.
  - intros [(y & E & Hy)|Hin].
    + apply routeTag_inj in E as [-> _]; [done|done|by apply direction_range].
    + case_match; [|by apply not_elem_of_nil in Hin]. apply list_elem_of_singleton in Hin.
      pose proof (routeTag_range o (td_tag x) Ho Hxr). pose proof (autoTag_range (cp_ordinal p) ltac:(lia)). lia.
  - intros <-. left. by exists x.
Qed.

Lemma route_policies by_dir o d c : 0 <= o <= MAX_DIRECTION_ORDINAL → d ∈ td_tag <$> ti_directions input →
  c_route c = Some (routeTag o (d - 1)) →
  route (policies input ≫= policy_rules isIP isRegExp input by_dir) c = policy_target o c.
Proof.
  intros Ho Hd Hc. assert (∀ p, p ∈ policies input →
    route (policy_rules isIP isRegExp input by_dir p) c
    = if decide (cp_ordinal p = o) then
        if hits c (blockDomains p) then Some (Some "blocked", None)
        else if hits c (directDomains p) then Some (Some DIRECT_TAG, None) else None
      else None) as Hp.
  { intros p Hp. unfold policy_rules. rewrite route_app, !route_policy_list by by apply policy_tags_ok.
    unfold in_tags. rewrite Hc, (bool_decide_ext _ _ (elem_of_policy_tags by_dir p o d Hp Ho Hd)).
    case_bool_decide; [rewrite decide_True|rewrite decide_False]; try done. simpl. by destruct (hits c _). }
  unfold policy_target. rewrite (route_by cp_ordinal _ (λ p, if hits c (blockDomains p) then Some (Some "blocked", None)
    else if hits c (directDomains p) then Some (Some DIRECT_TAG, None) else None) o _ _ (legal_ordinals _ Hlegal) Hp).
  by destruct (js_find _ _).
Qed.

(** The profiles a client's tag may name: plain, or a policy of the cascade. *)
Definition profile (o : Z) : Prop := o = 0 ∨ o ∈ cp_ordinal <$> policies input.

Lemma profile_ordinals o : o ∈ handoverOrdinals (ti_policies input) ↔ profile o.
Proof. unfold handoverOrdinals, profile. by rewrite elem_of_cons, elem_of_js_uniq, elem_of_sort_by. Qed.

Lemma profile_range o : profile o → 0 <= o <= MAX_DIRECTION_ORDINAL.
Proof.
  intros [->|Ho]; [by unfold MAX_DIRECTION_ORDINAL|]. apply list_elem_of_fmap in Ho as (p & -> & Hp).
  apply policy_ordinal in Hp. lia.
Qed.

Lemma singleton_tags_ok t : 0 <= t < 65536 → tags_ok [t].
Proof. intros Ht. split; [done|]. by apply Forall_singleton. Qed.

Lemma profile_tags_ok (f : Z → Z) : (∀ o, 0 <= o <= MAX_DIRECTION_ORDINAL → 0 <= f o < 65536) →
  tags_ok (f 0 :: ((λ p, f (cp_ordinal p)) <$> policies input)).
Proof.
  intros Hf. split; [done|]. constructor; [apply Hf; by unfold MAX_DIRECTION_ORDINAL|].
  apply Forall_fmap, Forall_forall. intros p Hp. apply policy_ordinal in Hp. apply Hf. lia.
Qed.

Lemma elem_of_profile_tags (f : Z → Z) t :
  t ∈ f 0 :: ((λ p, f (cp_ordinal p)) <$> policies input) ↔ ∃ o, profile o ∧ t = f o.
Proof.
  rewrite elem_of_cons, list_elem_of_fmap. unfold profile. split.
  - intros [->|(p & -> & Hp)]; [by exists 0; split; [left|]|].
    exists (cp_ordinal p). split; [|done]. right. by apply list_elem_of_fmap_2.
  - intros (o & [->|Ho] & ->); [by left|]. right. apply list_elem_of_fmap in Ho as (p & -> & Hp). by exists p.
Qed.

Section AtEntry.
Hypothesis Hentry : isEntry nodeId input = true.

Lemma route_direction e o d c : 1 <= e.1 <= 255 → profile o → 1 <= d <= 255 →
  c_route c = Some (routeTag o (d - 1)) →
  route (steer_direction nodeId input e).1 c
  = if decide (e.1 = d) then
      Some (match handover nodeId input with
            | Some _ => (Some (chainOutTag d o), None)
            | None => (direction_target d e.2).1
            end)
    else None.
Proof.
  destruct e as [d' tags]. cbn [fst snd]. intros He Ho Hd Hc. apply profile_range in Ho as Hor. unfold steer_direction.
  destruct (direction_target d' tags) as [t bs] eqn:Et.
  destruct (handover nodeId input) as [pw|] eqn:Eh; cbn [fst].
  - assert (∀ o', o' ∈ handoverOrdinals (ti_policies input) →
      takes c (to_target (with_tags [routeTag o' (d' - 1)]) (Some (chainOutTag d' o'), None)) = true
      ↔ o' = o ∧ d' = d) as Ht.
    { intros o' Ho'. apply profile_ordinals, profile_range in Ho'.
      rewrite takes_tags, Hc, bool_decide_eq_true, list_elem_of_singleton by by apply singleton_tags_ok, routeTag_u16.
      split; [intros E; by apply routeTag_inj in E as [-> ->]|by intros [-> ->]]. }
    case_decide as Hdd.
    + subst d'. rewrite (route_map_one _ _ o); [|intros o' Ho'; rewrite Ht by done; tauto].
      rewrite decide_True; [done|]. by apply profile_ordinals.
    + apply route_none. intros r Hr. apply list_elem_of_fmap in Hr as (o' & -> & Ho'). apply not_true_iff_false.
      rewrite Ht by done. tauto.
  - rewrite Hentry. simpl. unfold route. simpl.
    rewrite takes_tags, Hc by (apply (profile_tags_ok (λ o, routeTag o (d' - 1))); intros; by apply routeTag_u16).
    rewrite (bool_decide_ext _ (d' = d)).
    { case_bool_decide; [rewrite decide_True by done|by rewrite decide_False]. simpl. subst d'. rewrite Et.
      unfold target. simpl. by destruct t. }
    rewrite (elem_of_profile_tags (λ o, routeTag o (d' - 1))). split.
    + intros (o' & _ & E). by apply routeTag_inj in E as [_ ->].
    + intros ->. by exists o.
Qed.

Lemma route_parts by_dir o d c : jm_wf by_dir → (∀ d', d' ∈ jm_keys by_dir → 1 <= d' <= 255) →
  profile o → 1 <= d <= 255 → c_route c = Some (routeTag o (d - 1)) →
  route ((steer_direction nodeId input <$> sort_by direction_leb by_dir) ≫= fst) c
  = tags ← jm_get d by_dir;
    Some (match handover nodeId input with
          | Some _ => (Some (chainOutTag d o), None)
          | None => (direction_target d tags).1
          end).
Proof.
  intros Hwf Hr Ho Hd Hc.
  assert (∀ l, (steer_direction nodeId input <$> l) ≫= fst = l ≫= λ e, (steer_direction nodeId input e).1) as ->.
  { intros l. induction l as [|x l IH]; [done|]. csimpl. by rewrite IH. }
  assert (∀ e, e ∈ sort_by direction_leb by_dir → 1 <= e.1 <= 255 ∧ e ∈ by_dir) as He.
  { intros e He. apply elem_of_sort_by in He. split; [|done]. apply Hr. by apply list_elem_of_fmap_2. }
  destruct (jm_get d by_dir) as [tags|] eqn:Eg; simpl.
  - apply jm_get_Some_elem in Eg as Hin. rewrite (route_bind_one _ _ (d, tags)).
    + by rewrite (route_direction _ o d), decide_True.
    + intros e Hel Hne. destruct (He e Hel) as [Her Heb]. rewrite (route_direction _ o d), decide_False; try done.
      intros E. apply Hne. destruct e as [d' tags']. simpl in E. subst d'.
      apply jm_elem_get in Heb; [|done]. congruence.
    + by apply elem_of_sort_by.
  - apply route_bind_none. intros e Hel. destruct (He e Hel) as [Her Heb].
    rewrite (route_direction _ o d), decide_False; try done. intros E.
    apply jm_get_None in Eg. apply Eg. rewrite <-E. by apply list_elem_of_fmap_2.
Qed.

Lemma route_auto o d c : profile o → 1 <= d <= 255 → c_network c ∈ ["tcp"; "udp"] →
  c_route c = Some (routeTag o (d - 1)) → route (steer_auto nodeId input).2.1 c = None.
Proof.
  intros Ho Hd Hn Hc. apply profile_range in Ho. pose proof (routeTag_range o d Ho Hd) as Hr.
  unfold steer_auto. destruct (handover nodeId input) as [pw|]; cbn [fst snd]; apply route_none; intros r Hin.
  - apply list_elem_of_fmap in Hin as (o' & -> & Ho'). apply profile_ordinals, profile_range in Ho'.
    rewrite takes_tags_network, Hc by (done || by apply singleton_tags_ok, autoTag_u16).
    apply bool_decide_eq_false. rewrite list_elem_of_singleton. pose proof (autoTag_range o' Ho'). lia.
  - apply list_elem_of_singleton in Hin as ->.
    rewrite takes_tags_network, Hc by (done || apply (profile_tags_ok autoRouteTag), autoTag_u16).
    apply bool_decide_eq_false. rewrite (elem_of_profile_tags autoRouteTag). intros (o' & Ho' & E).
    apply profile_range in Ho'. pose proof (autoTag_range o' Ho'). lia.
Qed.

Lemma route_entry by_dir o d c : jm_wf by_dir → (∀ d', d' ∈ jm_keys by_dir → 1 <= d' <= 255) →
  profile o → d ∈ td_tag <$> ti_directions input → c_network c ∈ ["tcp"; "udp"] →
  c_route c = Some (routeTag o (d - 1)) →
  route (steer isIP isRegExp nodeId input by_dir).2.1 c
  = if quic c then Some (Some "blocked", None)
    else match (if handover nodeId input then None else policy_target o c) with
         | Some t => Some t
         | None => tags ← jm_get d by_dir;
             Some (match handover nodeId input with
                   | Some _ => (Some (chainOutTag d o), None)
                   | None => (direction_target d tags).1
                   end)
         end.
Proof.
  intros Hwf Hr Ho Hd Hn Hc. assert (1 <= d <= 255) as Hdr.
  { apply list_elem_of_fmap in Hd as (x & -> & Hx). by apply direction_range. }
  assert (∀ b : bool, route (let '(_, (auto_rules, _)) := if b then steer_auto nodeId input else ([], ([], [])) in auto_rules) c = None) as Ha.
  { intros []; [|done]. rewrite <-(route_auto o d c); [|done..]. by destruct (steer_auto nodeId input) as [? [? ?]]. }
  specialize (Ha (isEntry nodeId input && autoOn input by_dir)). unfold steer.
  destruct (if isEntry nodeId input && autoOn input by_dir then _ else _) as [outs [ar ab]]. cbn [fst snd].
  rewrite !route_app, (route_parts by_dir o d), Ha, Hentry by done. cbn [andb].
  assert (route [QUIC_BLOCK_RULE] c = if quic c then Some (Some "blocked", None) else None) as ->.
  { unfold route, quic, takes, takes_route, takes_rest. simpl. rewrite andb_true_r, andb_true_r.
    by rewrite (bool_decide_ext (c_network c ∈ ["udp"]) (c_network c = "udp")) by set_solver; destruct (_ && _). }
  destruct (quic c); [done|]. destruct (handover nodeId input) as [pw|]; simpl.
  - by destruct (jm_get d by_dir).
  - rewrite (route_policies by_dir o d) by (done || by apply profile_range).
    destruct (policy_target o c); [done|]. by destruct (jm_get d by_dir).
Qed.

Lemma policy_rules_drawn by_dir p r : p ∈ policies input → r ∈ policy_rules isIP isRegExp input by_dir p →
  drawn_tags r (policy_tags input by_dir p).
Proof.
  intros Hp Hr. pose proof (policy_tags_ok by_dir p Hp) as [Hne Hts]. unfold policy_rules, xrayPolicyRules in Hr.
  destruct (splitPolicyEntries _ _ (blockDomains p)) as [bd bi], (splitPolicyEntries _ _ (directDomains p)) as [dd di].
  rewrite !elem_of_app in Hr. destruct Hr as [[Hr|Hr]|[Hr|Hr]]; case_match;
    (apply list_elem_of_singleton in Hr as -> || by apply not_elem_of_nil in Hr); by repeat split.
Qed.

Lemma direction_rules_drawn e r : 1 <= e.1 <= 255 → r ∈ (steer_direction nodeId input e).1 → ∃ ts, drawn_tags r ts.
Proof.
  destruct e as [d tags]. intros Hd Hr. unfold steer_direction in Hr. simpl in Hd.
  destruct (direction_target d tags) as [t bs]. destruct (handover nodeId input); cbn [fst] in Hr.
  - apply list_elem_of_fmap in Hr as (o & -> & Ho). apply profile_ordinals, profile_range in Ho.
    eexists. by apply drawn_tags_rule, singleton_tags_ok, routeTag_u16.
  - rewrite Hentry in Hr. apply list_elem_of_singleton in Hr as ->. eexists. apply drawn_tags_rule.
    apply (profile_tags_ok (λ o, routeTag o (d - 1))). intros. by apply routeTag_u16.
Qed.

Lemma auto_rules_drawn r : r ∈ (steer_auto nodeId input).2.1 → ∃ ts, drawn_tags r ts.
Proof.
  unfold steer_auto. destruct (handover nodeId input); cbn [fst snd]; intros Hr.
  - apply list_elem_of_fmap in Hr as (o & -> & Ho). apply profile_ordinals, profile_range in Ho.
    eexists. apply (drawn_tags_rule _ (Some (chainOutTag CHAIN_AUTO_TAG o), None)). by apply singleton_tags_ok, autoTag_u16.
  - apply list_elem_of_singleton in Hr as ->. eexists. apply (drawn_tags_rule _ (None, Some AUTO_BALANCER_TAG)).
    apply (profile_tags_ok autoRouteTag), autoTag_u16.
Qed.

(** Every rule of an entry is drawn, and but for QUIC names tags. *)
Lemma entry_rules_drawn by_dir r : (∀ d, d ∈ jm_keys by_dir → 1 <= d <= 255) →
  r ∈ (steer isIP isRegExp nodeId input by_dir).2.1 → r = QUIC_BLOCK_RULE ∨ ∃ ts, drawn_tags r ts.
Proof.
  intros Hr Hin. unfold steer in Hin.
  assert (∀ b : bool, r ∈ (let '(_, (auto_rules, _)) := if b then steer_auto nodeId input else ([], ([], [])) in auto_rules) →
    ∃ ts, drawn_tags r ts) as Ha.
  { intros []; [|by intros ?%not_elem_of_nil]. intros H. apply auto_rules_drawn.
    by destruct (steer_auto nodeId input) as [? [? ?]]. }
  specialize (Ha (isEntry nodeId input && autoOn input by_dir)).
  destruct (if isEntry nodeId input && autoOn input by_dir then _ else _) as [outs [ar ab]]. cbn [fst snd] in Hin.
  rewrite Hentry in Hin. rewrite !elem_of_app in Hin. destruct Hin as [Hq|[Hp|[Hd|Hx]]].
  - left. by apply list_elem_of_singleton in Hq.
  - case_match; [|by apply not_elem_of_nil in Hp]. apply list_elem_of_bind in Hp as (p & Hp & Hpin).
    right. eexists. by eapply policy_rules_drawn.
  - apply list_elem_of_bind in Hd as (x & Hx & Hd). apply list_elem_of_fmap in Hd as (e & -> & He).
    apply elem_of_sort_by in He. right. eapply direction_rules_drawn; [|exact Hx]. apply Hr.
    by apply list_elem_of_fmap_2.
  - right. by apply Ha.
Qed.

(** The rules that steer a direction name the tags of every profile. *)
Lemma entry_names_tag by_dir o d : (∀ d, d ∈ jm_keys by_dir → 1 <= d <= 255) → profile o → d ∈ jm_keys by_dir →
  names_tag (steer isIP isRegExp nodeId input by_dir).2.1 (routeTag o (d - 1)) = true.
Proof.
  intros Hr Ho Hd. apply names_tag_spec, list_elem_of_bind. apply jm_get_is_Some in Hd as [tags Hg].
  apply jm_get_Some_elem in Hg as Hin. assert (1 <= d <= 255) as Hdr.
  { apply Hr. by apply (list_elem_of_fmap_2 fst) in Hin. }
  assert (∃ r ts, r ∈ (steer_direction nodeId input (d, tags)).1 ∧ drawn_tags r ts ∧ routeTag o (d - 1) ∈ ts)
    as (r & ts & Hrin & Hdr' & Hts).
  { unfold steer_direction. destruct (direction_target d tags) as [t bs]. destruct (handover nodeId input); cbn [fst].
    - eexists _, [routeTag o (d - 1)]. split; [apply list_elem_of_fmap; exists o; by split; [|apply profile_ordinals]|].
      split; [|by left]. apply drawn_tags_rule, singleton_tags_ok, routeTag_u16; [by apply profile_range|done].
    - rewrite Hentry. eexists _, _. split; [by left|]. split.
      + apply drawn_tags_rule, (profile_tags_ok (λ o, routeTag o (d - 1))). intros. by apply routeTag_u16.
      + apply (elem_of_profile_tags (λ o, routeTag o (d - 1))). by exists o. }
  exists r. split; [rewrite (tagsOf_drawn _ _ Hdr'); by apply list_elem_of_fmap_2|].
  unfold steer. destruct (if isEntry nodeId input && autoOn input by_dir then _ else _) as [outs [ar ab]].
  cbn [fst snd]. rewrite !elem_of_app. right; right; left. apply list_elem_of_bind. eexists. split; [exact Hrin|].
  apply list_elem_of_fmap_2, elem_of_sort_by, Hin.
Qed.

(** The gate over the rules of an entry. *)
Lemma route_gated by_dir o d c : (∀ d, d ∈ jm_keys by_dir → 1 <= d <= 255) → profile o → d ∈ jm_keys by_dir →
  c_route c = Some (routeTag o (d - 1)) →
  route (steer isIP isRegExp nodeId input by_dir).2.1 c ≠ None →
  route (gated nodeId input (steer isIP isRegExp nodeId input by_dir).2.1) c
  = if closed_to c (routeTag o (d - 1)) then Some (Some "blocked", None)
    else route (steer isIP isRegExp nodeId input by_dir).2.1 c.
Proof.
  intros Hr Ho Hd Hc Hsome. unfold gated, closed_to. rewrite Hentry.
  destruct (ti_entryUserGate input) as [may|] eqn:Eg; [|done].
  pose proof (λ r, entry_rules_drawn by_dir r Hr) as Hdrawn. rewrite gate_route.
  - pose proof (entry_names_tag by_dir o d Hr Ho Hd) as Hn. unfold verdict. rewrite Hc, Hn. cbn [negb orb].
    destruct (everyone_may may _); [done|]. cbn [negb andb].
    destruct (may_take may (c_user c) _); cbn [negb]; [by destruct (route _ c)|].
    assert (∀ l, (∀ r, r ∈ l → r = QUIC_BLOCK_RULE) →
      default (Some "blocked", None) (route l c) = (Some "blocked", None)) as ->; [|done|].
    { intros [|r l] Hl; [done|]. unfold route. destruct (js_find _ _) as [x|] eqn:E; [|done].
      apply js_find_elem in E. by rewrite (Hl x E). }
    intros r Hin. apply list_elem_of_filter in Hin as [Hv Hin].
    destruct (Hdrawn r Hin) as [->|[ts (_ & _ & Hv' & _)]]; [done|congruence].
  - apply Forall_forall. intros r Hin. destruct (Hdrawn r Hin) as [->|?]; [by left|by right].
  - by apply (legal_users _ Hlegal).
Qed.
End AtEntry.
End Entry.

(** ** Where an entry's traffic goes *)
Section LegWays.
Context (input : TopologyInput).

(** An outbound drawn for a leg, under the tag of one of its direction's legs. *)
Definition drawn_for (ls : list TopologyLinkRow) (l : TopologyLinkRow) (o : jvalue) : Prop :=
  dials input l o ∧ ∃ i, (i < count (tl_tag l) ls)%nat ∧ out_tag o = Some (dirOutTag (tl_tag l) i).

Lemma drawn_legs_for ls st : drawn_legs input ls st → Forall2 (drawn_for ls) ls (dr_outbounds st).
Proof.
  intros (Hd & Ht & _). apply Forall2_same_length_lookup. split; [by eapply Forall2_length|].
  intros i l o Hl Ho. split; [by eapply Forall2_lookup_lr|].
  assert ((Some <$> leg_tags ls) !! i = Some (out_tag o)) as E by (by rewrite <-Ht, list_lookup_fmap, Ho).
  rewrite list_lookup_fmap in E. unfold leg_tags in E. rewrite list_lookup_imap, Hl in E. injection E as E.
  exists (count (tl_tag l) (take i ls)). split; [|done].
  rewrite <-(take_drop_middle _ _ _ Hl) at 2. unfold count. rewrite filter_app, length_app, filter_cons.
  rewrite decide_True by done. simpl. lia.
Qed.

(** A test that holds of an outbound exactly when its leg is of the direction
    picks the outbounds of the direction's legs. *)
Lemma pick_legs (P : jvalue → Prop) `{∀ o, Decision (P o)} all d ls os :
  Forall2 (drawn_for all) ls os → (∀ l o, drawn_for all l o → l ∈ ls → P o ↔ tl_tag l = d) →
  Forall2 (dials input) (filter (λ l, tl_tag l = d) ls) (filter P os).
Proof.
  intros Hf HP. induction Hf as [|l o ls os Hlo Hf IH]; [constructor|]. rewrite !filter_cons.
  specialize (IH (λ l o H Hin, HP l o H (list_elem_of_further _ _ _ Hin))).
  rewrite (decide_ext (P o) (tl_tag l = d)) by (apply HP; [done|by left]).
  case_decide; [|done]. constructor; [|done]. by destruct Hlo.
Qed.

Lemma one_leg_picks ls d l o : count d ls = 1%nat → 1 <= d → 1 <= tl_tag l → drawn_for ls l o →
  out_tag o = Some (dirOutTag d 0) ↔ tl_tag l = d.
Proof.
  intros Hc Hd Hl (_ & i & Hi & Ho). rewrite Ho. split.
  - intros E. apply (inj Some) in E. by apply dirOutTag_inj in E as [? _]; [|lia..].
  - intros E. rewrite E in *. assert (i = 0%nat) as -> by lia. done.
Qed.

Lemma balancer_picks ls d l o : 1 <= d → 1 <= tl_tag l → drawn_for ls l o →
  selects (dirOutTag d <$> seq 0 (count d ls)) o = true ↔ tl_tag l = d.
Proof.
  intros Hd Hl (_ & i & Hi & Ho). unfold selects. rewrite Ho, existsb_exists. split.
  - intros (s & Hs & Hp). apply list_elem_of_In, list_elem_of_fmap in Hs as (k & -> & _).
    apply starts_with_spec in Hp as [r E]. symmetry. by apply (dirOutTag_prefix d (tl_tag l) k i r); [lia..|].
  - intros E. rewrite E in *. exists (dirOutTag d i). split.
    + apply list_elem_of_In, list_elem_of_fmap_2, elem_of_seq. lia.
    + apply starts_with_spec. exists "". by rewrite str_app_nil.
Qed.
End LegWays.

Lemma selects_freedom d n : selects (dirOutTag d <$> seq 0 n) freedomOutbound = false.
Proof.
  unfold selects. simpl. apply not_true_iff_false. rewrite existsb_exists. intros (s & Hs & Hp).
  apply list_elem_of_In, list_elem_of_fmap in Hs as (k & -> & _). done.
Qed.

Lemma balancerTag_inj d d' : 0 <= d → 0 <= d' → balancerTagOf d = balancerTagOf d' → d = d'.
Proof. intros ? ? E. unfold balancerTagOf in E. apply str_app_inj in E. by apply pretty_Z_inj. Qed.

(** The balancers of the directions that have more than one leg here. *)
Lemma find_balancer nodeId input by_dir extra d tags : jm_wf by_dir → (∀ d, d ∈ jm_keys by_dir → 1 <= d <= 255) →
  jm_get d by_dir = Some tags → (2 ≤ length tags)%nat →
  js_find (λ x, bool_decide (b_tag x = balancerTagOf d))
    (((steer_direction nodeId input <$> sort_by direction_leb by_dir) ≫= snd) ++ extra)
  = Some (mkBalancer (balancerTagOf d) tags).
Proof.
  intros Hwf Hr Hg Hlen. apply jm_get_Some_elem in Hg as Hin.
  assert (∀ e, (steer_direction nodeId input e).2 = (direction_target e.1 e.2).2) as Hsnd.
  { intros [d' ts]. unfold steer_direction. cbn [fst snd]. by destruct (direction_target d' ts). }
  assert (∀ e x, e ∈ by_dir → x ∈ (steer_direction nodeId input e).2 →
    b_tag x = balancerTagOf d → x = mkBalancer (balancerTagOf d) tags) as Huniq.
  { intros [d' ts] x He Hx Hb. rewrite Hsnd in Hx. simpl in Hx. unfold direction_target in Hx.
    assert (x = mkBalancer (balancerTagOf d') ts) as ->.
    { destruct ts as [|t [|t' ts]]; simpl in Hx; set_solver. }
    simpl in Hb. assert (1 <= d' <= 255) by (apply Hr; exact (list_elem_of_fmap_2 fst _ _ He)).
    assert (1 <= d <= 255) by (apply Hr; exact (list_elem_of_fmap_2 fst _ _ Hin)).
    apply balancerTag_inj in Hb as ->; [|lia..]. apply jm_elem_get in He; [|done]. congruence. }
  rewrite js_find_app. destruct (js_find _ _) as [x|] eqn:E.
  - apply js_find_Some in E as [Hx Hb]. apply bool_decide_eq_true in Hb. f_equal.
    apply list_elem_of_bind in Hx as (y & Hx & Hy). apply list_elem_of_fmap in Hy as (e & -> & He).
    apply elem_of_sort_by in He. by eapply Huniq.
  - exfalso. rewrite js_find_None in E. specialize (E (mkBalancer (balancerTagOf d) tags)).
    simpl in E. rewrite bool_decide_true in E by done. discriminate E.
    apply list_elem_of_bind. exists (steer_direction nodeId input (d, tags)). split.
    + rewrite Hsnd. simpl. destruct tags as [|t [|t' tags]]; simpl in *; [lia|lia|by left].
    + by apply list_elem_of_fmap_2, elem_of_sort_by.
Qed.

Section Configured.
Context (isIP : string → Z) (isRegExp : string → bool) (nodeId : string) (input : TopologyInput).
Hypothesis Hlegal : legal input.

(** Either drawing, the directions steered are those that leave the node. *)
Lemma drawn_directions st : draw_outbounds isIP nodeId input = Ok st →
  jm_wf (dr_byDirection st) ∧ ∀ d, d ∈ jm_keys (dr_byDirection st) ↔ d ∈ here nodeId input.
Proof.
  intros E. destruct (handover nodeId input) as [pw|] eqn:Eh.
  - pose proof (draw_outbounds_chain isIP nodeId input pw st Eh (here_NoDup _ _ Hlegal) E) as Hc.
    pose proof (drawn_chain_keys _ _ _ _ Hc) as Hk. unfold jm_wf. rewrite Hk. split; [apply here_NoDup, Hlegal|done].
  - destruct (draw_outbounds_legacy isIP nodeId input st Eh E) as (Hf & _ & _ & Hwf & Hb & _). split; [done|].
    intros d. rewrite <-jm_get_is_Some, Hb, elem_of_here, Hf. case_decide as Hc.
    + split; [by intros []|]. intros [(l & Hl & Hd)|[]%not_elem_of_nil]. exfalso. unfold count in Hc.
      assert (l ∈ filter (λ l, tl_tag l = d) (outgoing nodeId input)) as Hin by by apply list_elem_of_filter.
      apply nil_length_inv in Hc. rewrite Hc in Hin. by apply not_elem_of_nil in Hin.
    + split; [intros _; left|by eauto]. unfold count in Hc.
      destruct (filter _ _) as [|l ls] eqn:Ef; [done|]. exists l.
      assert (l ∈ l :: ls) as Hin by by left. rewrite <-Ef in Hin. by apply list_elem_of_filter in Hin as [? ?].
Qed.

Lemma drawn_range st d : draw_outbounds isIP nodeId input = Ok st → d ∈ jm_keys (dr_byDirection st) → 1 <= d <= 255.
Proof. intros E Hd. apply (drawn_directions _ E) in Hd. by apply (here_range nodeId input). Qed.

(** The parts of a configuration that is not an exit's. *)
Lemma build_parts cfg : role nodeId input ≠ RExit →
  buildTopologyFragmentsForNode isIP isRegExp nodeId input = Ok (Some cfg) →
  ∃ st, draw_outbounds isIP nodeId input = Ok st ∧
  let s := steer isIP isRegExp nodeId input (dr_byDirection st) in
  hc_rules cfg = gated nodeId input s.2.1 ∧
  hc_outbounds cfg = dr_outbounds st ++ [freedomOutbound] ++ s.1 ∧ hc_balancers cfg = non_empty s.2.2.
Proof.
  intros Hr E. unfold buildTopologyFragmentsForNode in E. case_match; [done|].
  apply bind_ok in E as ([[ins lp] af] & Ei & E). apply bind_ok in E as (st & Es & E). exists st. split; [done|].
  destruct (steer isIP isRegExp nodeId input (dr_byDirection st)) as [outs [rules bals]].
  destruct (role nodeId input); [|..]; try done; by injection E as <-.
Qed.

Lemma entry_role : isEntry nodeId input = true → role nodeId input = REntry.
Proof. intros H. unfold role. by rewrite H. Qed.

Lemma non_empty_default {A} (l : list A) : default [] (non_empty l) = l.
Proof. unfold non_empty. by destruct l. Qed.

Lemma steer_balancers by_dir : ∃ extra, (steer isIP isRegExp nodeId input by_dir).2.2
  = ((steer_direction nodeId input <$> sort_by direction_leb by_dir) ≫= snd) ++ extra.
Proof. unfold steer. destruct (if isEntry nodeId input && autoOn input by_dir then _ else _) as [? [? ?]]. by eexists. Qed.

Lemma steer_legacy_outs by_dir : handover nodeId input = None → (steer isIP isRegExp nodeId input by_dir).1 = [].
Proof. intros Hh. unfold steer, steer_auto. rewrite Hh. by destruct (_ && _). Qed.

(** The outbounds a direction's target stands for. *)
Definition target_outs (outs : list jvalue) (balancers : list Balancer) (t : option string * option string) : list jvalue :=
  match t with
  | (Some t, _) => filter (λ o, out_tag o = Some t) outs
  | (None, Some b) =>
      match js_find (λ x, bool_decide (b_tag x = b)) balancers with
      | Some x => filter (λ o, selects (b_selector x) o = true) outs
      | None => []
      end
  | (None, None) => []
  end.

Lemma leaves_target cfg c t : route (hc_rules cfg) c = Some t → t.1 ≠ Some "blocked" →
  leaves cfg c = Ways (target_outs (hc_outbounds cfg) (default [] (hc_balancers cfg)) t).
Proof.
  intros Hr Ht. unfold leaves. rewrite Hr. destruct t as [[t|] [b|]]; simpl; try done;
    rewrite bool_decide_false; try done; simpl in Ht; congruence.
Qed.

(** Legs drawn by xray: the target of a direction stands for the outbounds of
    its legs, whether there is one or a balancer of several. *)
Lemma legacy_target_outs st d tags extra : draw_outbounds isIP nodeId input = Ok st → handover nodeId input = None →
  jm_get d (dr_byDirection st) = Some tags →
  Forall2 (dials input) (filter (λ l, tl_tag l = d) (outgoing nodeId input))
    (target_outs (dr_outbounds st ++ [freedomOutbound])
       (((steer_direction nodeId input <$> sort_by direction_leb (dr_byDirection st)) ≫= snd) ++ extra)
       (direction_target d tags).1).
Proof.
  intros E Hh Hg. pose proof (drawn_directions st E) as [Hwf _]. pose proof (λ d, drawn_range st d E) as Hr.
  destruct (draw_outbounds_legacy isIP nodeId input st Hh E) as (_ & Hd).
  pose proof (drawn_legs_for input _ _ Hd) as Hfor. destruct Hd as (_ & _ & _ & Hb & _).
  assert (1 <= d <= 255) as Hdr by (apply Hr, jm_get_is_Some; by eauto).
  assert (∀ l, l ∈ outgoing nodeId input → 1 <= tl_tag l) as Hl.
  { intros l Hl. unfold outgoing in Hl. apply list_elem_of_filter in Hl as [_ Hl].
    pose proof (link_tag_range _ Hlegal l Hl). lia. }
  rewrite Hb in Hg. case_decide as Hc; [done|]. injection Hg as <-.
  destruct (decide (count d (outgoing nodeId input) = 1%nat)) as [H1|H1].
  - rewrite H1. simpl. rewrite filter_app, filter_cons, filter_nil, decide_False, app_nil_r by done.
    eapply pick_legs; [done|]. intros l o Ho Hin. eapply one_leg_picks; [done|lia| |done]. by apply Hl.
  - assert (∀ ts : list string, (2 ≤ length ts)%nat → (direction_target d ts).1 = (None, Some (balancerTagOf d))) as ->.
    { intros [|t [|t' ts]] Hlen; [simpl in Hlen; lia..|done]. }
    2:{ rewrite length_fmap, length_seq. lia. }
    simpl. rewrite (find_balancer nodeId input _ extra d (dirOutTag d <$> seq 0 (count d (outgoing nodeId input))));
      [|done|done|by rewrite Hb, decide_False|rewrite length_fmap, length_seq; lia].
    simpl. rewrite filter_app, filter_cons, filter_nil, decide_False, app_nil_r by by rewrite selects_freedom.
    eapply pick_legs; [done|]. intros l o Ho Hin. eapply balancer_picks; [lia| |done]. by apply Hl.
Qed.

(** *** Tags of outbounds *)
Definition chain_tags (ds : list Z) : list string := ds ≫= λ d, chainOutTag d <$> handoverOrdinals (ti_policies input).

Lemma handoverOrdinals_NoDup : NoDup (handoverOrdinals (ti_policies input)).
Proof.
  unfold handoverOrdinals. apply NoDup_cons. split; [|apply NoDup_js_uniq].
  rewrite elem_of_js_uniq, elem_of_sort_by. intros H. apply list_elem_of_fmap in H as (p & E & Hp).
  apply (policy_ordinal _ Hlegal) in Hp. lia.
Qed.

Lemma chain_tags_NoDup ds : NoDup ds → Forall (λ d, 0 <= d) ds → NoDup (chain_tags ds).
Proof.
  intros Hnd Hds. rewrite Forall_forall in Hds.
  assert (∀ o, o ∈ handoverOrdinals (ti_policies input) → 0 <= o) as Ho.
  { intros o Ho. apply profile_ordinals, (profile_range _ Hlegal) in Ho. lia. }
  apply NoDup_bind; [| |done].
  - intros d d' t Hd Hd' Ht Ht'. apply list_elem_of_fmap in Ht as (o & -> & H1), Ht' as (o' & E & H2).
    apply chainOutTag_inj in E as [-> _]; auto.
  - intros d Hd. apply NoDup_fmap_2_strong; [|apply handoverOrdinals_NoDup].
    intros o o' H1 H2 E. apply chainOutTag_inj in E as [_ ->]; auto.
Qed.

Lemma socks_tags ds pw : out_tag <$> (ds ≫= λ d, socks_outbounds input d pw) = Some <$> chain_tags ds.
Proof.
  induction ds as [|d ds IH]; [done|]. unfold chain_tags in *. rewrite !bind_cons, !fmap_app, IH. f_equal.
  unfold socks_outbounds. by rewrite <-!list_fmap_compose.
Qed.

Definition auto_dirs (by_dir : list (Z * list string)) : list Z :=
  if isEntry nodeId input && autoOn input by_dir then [CHAIN_AUTO_TAG] else [].

Lemma steer_chain_outs by_dir pw : handover nodeId input = Some pw →
  (steer isIP isRegExp nodeId input by_dir).1 = auto_dirs by_dir ≫= λ d, socks_outbounds input d pw.
Proof.
  intros Hh. unfold steer, steer_auto, auto_dirs. rewrite Hh. destruct (_ && _); [|done].
  cbn [fst mbind list_bind]. by rewrite app_nil_r.
Qed.

Lemma config_tags_NoDup st : draw_outbounds isIP nodeId input = Ok st →
  let outs := dr_outbounds st ++ [freedomOutbound] ++ (steer isIP isRegExp nodeId input (dr_byDirection st)).1 in
  NoDup (out_tag <$> outs).
Proof.
  intros E. cbv zeta. destruct (handover nodeId input) as [pw|] eqn:Eh.
  - rewrite (steer_chain_outs _ pw Eh).
    pose proof (draw_outbounds_chain isIP nodeId input pw st Eh (here_NoDup _ _ Hlegal) E) as (Hnd & Ho & _).
    rewrite Ho, !fmap_app, !socks_tags.
    assert (Some <$> chain_tags (here nodeId input ++ auto_dirs (dr_byDirection st))
      = (Some <$> chain_tags (here nodeId input)) ++ (Some <$> chain_tags (auto_dirs (dr_byDirection st)))) as Happ.
    { unfold chain_tags. by rewrite bind_app, fmap_app. }
    rewrite (Permutation_app_comm (out_tag <$> [freedomOutbound])), (assoc_L (++)), <-Happ.
    apply NoDup_app. split; [|split; [|apply NoDup_singleton]].
    + apply NoDup_fmap_2; [apply _|]. apply chain_tags_NoDup.
      * apply NoDup_app. split; [done|]. unfold auto_dirs. case_match; [|by split; [set_solver|constructor]].
        split; [|apply NoDup_singleton]. intros d Hd Hd'. apply list_elem_of_singleton in Hd' as ->.
        apply (here_range nodeId input Hlegal) in Hd. unfold CHAIN_AUTO_TAG in Hd. lia.
      * apply Forall_app_2; apply Forall_forall; intros d Hd.
        -- apply (here_range nodeId input Hlegal) in Hd. lia.
        -- unfold auto_dirs in Hd. case_match; [|by apply not_elem_of_nil in Hd].
           by apply list_elem_of_singleton in Hd as ->.
    + intros t Ht Ht'. apply list_elem_of_singleton in Ht' as ->. apply list_elem_of_fmap in Ht as (x & Ex & Hx).
      injection Ex as <-. apply list_elem_of_bind in Hx as (d & Hx & _).
      apply list_elem_of_fmap in Hx as (o & Ex & _). unfold chainOutTag in Ex. by destruct (o =? 0).
  - rewrite (steer_legacy_outs _ Eh), app_nil_r.
    destruct (draw_outbounds_legacy isIP nodeId input st Eh E) as (_ & _ & Ht & _).
    rewrite fmap_app, Ht. apply NoDup_app. split; [|split; [|apply NoDup_singleton]].
    + apply NoDup_fmap_2; [apply _|]. apply leg_tags_NoDup, Forall_forall. intros l Hl.
      unfold outgoing in Hl. apply list_elem_of_filter in Hl as [_ Hl]. pose proof (link_tag_range _ Hlegal l Hl). lia.
    + intros t Hin Ht'. apply list_elem_of_singleton in Ht' as ->. apply list_elem_of_fmap in Hin as (x & Ex & Hx).
      injection Ex as <-. apply elem_of_leg_tags in Hx as (d & i & Ex & _). done.
Qed.
End Configured.

(** ** The entry *)

(** The two readings of a profile's policy agree. *)
Lemma policy_way_target isIP isRegExp input o c w : policy_way isIP isRegExp input o c = Some w →
  ∃ t, policy_target isIP isRegExp input o c = Some t ∧
  (t = (Some "blocked", None) ∧ w = Blackhole ∨ t = (Some DIRECT_TAG, None) ∧ w = Ways [freedomOutbound]).
Proof.
  unfold policy_way, policy_target. destruct (js_find _ _) as [p|]; [|done].
  destruct (hits isIP isRegExp c (blockDomains p)); [|destruct (hits isIP isRegExp c (directDomains p))]; intros [= <-]; eauto.
Qed.

Lemma policy_way_none isIP isRegExp input o c : policy_way isIP isRegExp input o c = None →
  policy_target isIP isRegExp input o c = None.
Proof.
  unfold policy_way, policy_target. destruct (js_find _ _) as [p|]; [|done].
  by destruct (hits isIP isRegExp c (blockDomains p)), (hits isIP isRegExp c (directDomains p)).
Qed.

(** What an entry does with the traffic of a direction. *)
Lemma entry_leaves isIP isRegExp nodeId input cfg c o d :
  legal input → isEntry nodeId input = true →
  buildTopologyFragmentsForNode isIP isRegExp nodeId input = Ok (Some cfg) →
  profile input o → d ∈ here nodeId input →
  c_network c ∈ ["tcp"; "udp"] → c_route c = Some (routeTag o (d - 1)) →
  if quic c || closed_to input c (routeTag o (d - 1)) then leaves cfg c = Blackhole
  else match handover nodeId input with
       | Some password => leaves cfg c = Ways [chainSocksOutbound d password o]
       | None =>
           match policy_way isIP isRegExp input o c with
           | Some w => leaves cfg c = w
           | None => ∃ os, leaves cfg c = Ways os ∧
               Forall2 (dials input) (filter (λ l, tl_tag l = d) (outgoing nodeId input)) os
           end
       end.
Proof.
  intros Hlegal Hentry Hb Ho Hd Hn Hc.
  apply build_parts in Hb as (st & Es & Hrules & Houts & Hbals); [|by rewrite entry_role].
  pose proof (drawn_directions isIP nodeId input Hlegal st Es) as [Hwf Hkeys].
  pose proof (λ d, drawn_range isIP nodeId input Hlegal st d Es) as Hr.
  pose proof (config_tags_NoDup isIP isRegExp nodeId input Hlegal st Es) as Hnd. cbv zeta in *.
  rewrite <-Houts in Hnd. apply Hkeys in Hd as Hk. apply jm_get_is_Some in Hk as [tags Hg].
  assert (d ∈ td_tag <$> ti_directions input) as Hdir by by apply (here_direction nodeId).
  pose proof (route_entry isIP isRegExp nodeId input Hlegal Hentry (dr_byDirection st) o d c Hwf Hr Ho Hdir Hn Hc) as Hroute.
  rewrite Hg in Hroute. cbn [mbind option_bind] in Hroute.
  pose proof (route_gated isIP isRegExp nodeId input Hlegal Hentry (dr_byDirection st) o d c Hr Ho
    (proj2 (Hkeys d) Hd) Hc) as Hgate. rewrite <-Hrules, Hroute in Hgate. clear Hroute Hrules.
  destruct (closed_to input c _); [rewrite orb_true_r|rewrite orb_false_r].
  { unfold leaves. rewrite Hgate; [done|]. destruct (quic c); [done|]. by destruct (if handover _ _ then _ else _). }
  destruct (quic c); [unfold leaves; by rewrite Hgate|].
  destruct (handover nodeId input) as [pw|] eqn:Eh.
  - rewrite (leaves_target cfg c _ (Hgate ltac:(done))) by (simpl; unfold chainOutTag; by destruct (o =? 0)).
    f_equal. apply (filter_key out_tag (hc_outbounds cfg) (chainSocksOutbound d pw o)); [done|].
    destruct (draw_outbounds_chain isIP nodeId input pw st Eh (here_NoDup _ _ Hlegal) Es) as (_ & Ho' & _).
    rewrite Houts, Ho'. apply elem_of_app. left. apply list_elem_of_bind. exists d. split; [|done].
    by apply list_elem_of_fmap_2, profile_ordinals.
  - destruct (policy_way isIP isRegExp input o c) as [w|] eqn:Ew.
    + destruct (policy_way_target _ _ _ _ _ _ Ew) as (t & Et & Hw). rewrite Et in Hgate.
      specialize (Hgate ltac:(done)). destruct Hw as [[-> ->]|[-> ->]]; [unfold leaves; by rewrite Hgate|].
      rewrite (leaves_target cfg c _ Hgate) by done. f_equal.
      apply (filter_key out_tag (hc_outbounds cfg) freedomOutbound); [done|].
      rewrite Houts. apply elem_of_app. right. by left.
    + rewrite (policy_way_none _ _ _ _ _ Ew) in Hgate. specialize (Hgate ltac:(done)).
      assert ((direction_target d tags).1.1 ≠ Some "blocked") as Hnb.
      { destruct (draw_outbounds_legacy isIP nodeId input st Eh Es) as (_ & _ & _ & _ & Hby & _).
        rewrite Hby in Hg. case_decide; [done|]. injection Hg as <-.
        by destruct (count d (outgoing nodeId input)) as [|[|n]]. }
      eexists. split; [by apply (leaves_target cfg c _ Hgate)|].
      destruct (steer_balancers isIP isRegExp nodeId input (dr_byDirection st)) as [extra Hx].
      rewrite Houts, Hbals, non_empty_default, Hx, steer_legacy_outs, app_nil_r by done.
      by apply legacy_target_outs with (isIP := isIP).
Qed.

(** C16. What an entry does with the traffic of a direction it sends on.  QUIC
    and a tag the gate keeps from the user end in the blackhole.  Under the
    chain process everything else of the direction is handed to it, on the
    direction's port and as the profile's user.  Drawn by xray, the profile's
    policy blocks or lets out here what its lists name, and all the rest leaves
    by exactly the outbounds of the direction's legs, each dialling the far end
    of its leg with the leg's credential. *)
Theorem entry_steers isIP isRegExp nodeId input cfg c o d :
  legal input → isEntry nodeId input = true →
  buildTopologyFragmentsForNode isIP isRegExp nodeId input = Ok (Some cfg) →
  profile input o → d ∈ here nodeId input →
  c_network c ∈ ["tcp"; "udp"] → c_route c = Some (routeTag o (d - 1)) →
  if quic c || closed_to input c (routeTag o (d - 1)) then leaves cfg c = Blackhole
  else match handover nodeId input with
       | Some password => leaves cfg c = Ways [chainSocksOutbound d password o]
       | None =>
           match policy_way isIP isRegExp input o c with
           | Some w => leaves cfg c = w
           | None => ∃ os, leaves cfg c = Ways os ∧
               Forall2 (dials input) (filter (λ l, tl_tag l = d) (outgoing nodeId input)) os
           end
       end.
Proof. apply entry_leaves. Qed.

(** ** Transits and exits *)

(** The credential a leg's traffic is let in with names the leg. *)
Definition client_secret (v : jvalue) : option string :=
  match jfield_str "id" v with Some s => Some s | None => jfield_str "password" v end.

Definition listener_clients (o : jvalue) : list jvalue :=
  match settings ← jfield "settings" o; jfield "clients" settings with Some (JArr xs) => xs | _ => [] end.

(** The user a node's listener takes a dial to one of its ports for. *)
Definition listener_user (cfg : HopConfig) (p : Z) (secret : string) : option string :=
  match hc_inbounds cfg with
  | [o] =>
      if bool_decide (jnum (jfield "port" o) = Some p ∧ hc_linkIngressPort cfg = Some p)
      then client ← js_find (λ v, bool_decide (client_secret v = Some secret)) (listener_clients o);
           jfield_str "email" client
      else None
  | _ => None
  end.

Lemma js_find_map {A B} (f : A → B) (P : B → bool) l : js_find P (f <$> l) = f <$> js_find (λ x, P (f x)) l.
Proof. induction l as [|x l IH]; [done|]. csimpl. by destruct (P (f x)). Qed.

Lemma js_find_unique {A} (P : A → bool) l x : x ∈ l → P x = true → (∀ y, y ∈ l → P y = true → y = x) → js_find P l = Some x.
Proof.
  intros Hx HP Hu. destruct (js_find P l) as [y|] eqn:E.
  - apply js_find_Some in E as [Hy Hp]. f_equal. by apply Hu.
  - rewrite js_find_None in E. by rewrite (E x Hx) in HP.
Qed.

(** Legs that land on one node share the cell and the port of its listener, and
    each has a secret of its own. *)
Definition one_listener (ls : list TopologyLinkRow) : Prop :=
  (∀ l l', l ∈ ls → l' ∈ ls → protocol (tl_cred l) = protocol (tl_cred l') ∧ port (tl_cred l) = port (tl_cred l')) ∧
  (∀ l l', l ∈ ls → l' ∈ ls → secret_of (tl_cred l) = secret_of (tl_cred l') → l = l') ∧
  (∀ l, l ∈ ls → drawable (tl_cred l) = true).

Definition client_of (reality : option Reality) (l : TopologyLinkRow) : jvalue :=
  match tl_cred l with
  | Ss2022 _ psk method =>
      JObj [("email", JStr (linkClientEmail (tl_tag l) (tl_from l))); ("password", JStr psk); ("method", JStr method)]
  | c => JObj ([("id", JStr (secret_of c)); ("email", JStr (linkClientEmail (tl_tag l) (tl_from l)))] ++ flow_of reality)
  end.

Lemma listener_clients_of first ls : one_listener ls → first ∈ ls →
  listener_clients (multiClientLinkInbound (tl_cred first) ls) = client_of (listener_reality ls) <$> ls ∧
  jfield "port" (multiClientLinkInbound (tl_cred first) ls) = Some (JNum (port (tl_cred first))).
Proof.
  intros (Hcell & _ & Hdraw) Hf. pose proof (Hdraw _ Hf) as Hd.
  assert (∀ l, l ∈ ls → protocol (tl_cred l) = protocol (tl_cred first)) as Hp by (intros l Hl; by apply Hcell).
  unfold multiClientLinkInbound. destruct (tl_cred first) as [p u r|p k m|p a o t|p u w g t] eqn:Ec; try done.
  - assert (∀ R, ((λ v : string * option Reality * string, JObj ([("id", JStr v.1.1); ("email", JStr v.2)] ++ flow_of R))
      <$> vless_links ls) = client_of R <$> ls) as Hl; [|split; [apply Hl|done]].
    intros R. clear Hf Hcell Ec. induction ls as [|l ls IH]; [done|]. unfold vless_links in *. csimpl.
    pose proof (Hp l ltac:(by left)) as Hpl. pose proof (IH ltac:(set_solver) ltac:(set_solver)) as IH'.
    unfold client_of at 1. destruct (tl_cred l); try done. csimpl. by f_equal.
  - assert (((λ v : string * string * string, JObj [("email", JStr v.2); ("password", JStr v.1.1); ("method", JStr v.1.2)])
      <$> ss_links ls) = client_of (listener_reality ls) <$> ls) as Hl; [|split; [apply Hl|done]].
    generalize (listener_reality ls). intros R. clear Hf Hcell Ec. induction ls as [|l ls IH]; [done|].
    unfold ss_links in *. csimpl.
    pose proof (Hp l ltac:(by left)) as Hpl. pose proof (IH ltac:(set_solver) ltac:(set_solver)) as IH'.
    unfold client_of at 1. destruct (tl_cred l); try done. csimpl. by f_equal.
Qed.

Lemma client_of_secret R l : drawable (tl_cred l) = true → client_secret (client_of R l) = Some (secret_of (tl_cred l)).
Proof. unfold client_of. by destruct (tl_cred l). Qed.

Lemma client_of_email R l : jfield_str "email" (client_of R l) = Some (linkClientEmail (tl_tag l) (tl_from l)).
Proof. unfold client_of. by destruct (tl_cred l). Qed.

(** A dial with a leg's credential is let in as the leg. *)
Lemma listener_user_of isIP isRegExp nodeId input cfg l :
  buildTopologyFragmentsForNode isIP isRegExp nodeId input = Ok (Some cfg) →
  one_listener (incoming nodeId input) → l ∈ incoming nodeId input →
  listener_user cfg (port (tl_cred l)) (secret_of (tl_cred l)) = Some (linkClientEmail (tl_tag l) (tl_from l)).
Proof.
  intros Hb Hone Hl. assert (∃ first, first ∈ incoming nodeId input ∧
    hc_inbounds cfg = [multiClientLinkInbound (tl_cred first) (incoming nodeId input)] ∧
    hc_linkIngressPort cfg = Some (port (tl_cred first))) as (first & Hf & Hi & Hlp).
  { unfold buildTopologyFragmentsForNode in Hb. case_match; [done|]. apply bind_ok in Hb as ([[ins lp] af] & Ei & Hb).
    apply bind_ok in Hb as (st & _ & Hb). unfold inbound_side in Ei.
    destruct (incoming nodeId input) as [|first ls]; [by apply not_elem_of_nil in Hl|].
    apply bind_ok in Ei as (af' & _ & Ei). injection Ei as <- <- <-. exists first. split; [by left|].
    destruct (steer _ _ _ _ _) as [outs [rules bals]]. by destruct (role nodeId input); injection Hb as <-. }
  unfold listener_user. rewrite Hi, Hlp. destruct (listener_clients_of first _ Hone Hf) as [-> ->].
  destruct Hone as (Hcell & Hsec & Hdraw). destruct (Hcell l first Hl Hf) as [_ ->].
  rewrite bool_decide_true by done. rewrite js_find_map, (js_find_unique _ _ l); [apply client_of_email|done| |].
  - apply bool_decide_eq_true. by apply client_of_secret, Hdraw.
  - intros y Hy E. apply bool_decide_eq_true in E. rewrite client_of_secret in E by by apply Hdraw.
    injection E as E. by apply Hsec.
Qed.

Section AtTransit.
Context (isIP : string → Z) (isRegExp : string → bool) (nodeId : string) (input : TopologyInput).
Hypothesis Hlegal : legal input.
Hypothesis Htransit : role nodeId input = RTransit.

Lemma transit_not_entry : isEntry nodeId input = false.
Proof. unfold role in Htransit. by destruct (isEntry _ _). Qed.

Lemma transit_handover : handover nodeId input = None.
Proof. unfold handover. by rewrite transit_not_entry. Qed.

Lemma elem_of_leg_users u d : u ∈ leg_users nodeId input d ↔
  ∃ l, l ∈ incoming nodeId input ∧ tl_tag l = d ∧ u = linkClientEmail d (tl_from l).
Proof.
  unfold leg_users, incoming. rewrite list_elem_of_fmap. split.
  - intros (l & -> & Hl). apply list_elem_of_filter in Hl as [[Ht <-] Hl]. exists l. split; [|done].
    by apply list_elem_of_filter.
  - intros (l & Hl & <- & ->). apply list_elem_of_filter in Hl as [Ht Hl]. exists l. split; [done|].
    by apply list_elem_of_filter.
Qed.

(** Every direction that leaves a transit also arrives there.  Without a leg
    that arrives, the rule of a direction would list no user, and xray drops an
    empty condition: it would take everybody. *)
Definition arrives_too : Prop :=
  ∀ d, d ∈ here nodeId input → ∃ l, l ∈ incoming nodeId input ∧ tl_tag l = d.

Lemma transit_rule e c l : arrives_too → e.1 ∈ here nodeId input → l ∈ incoming nodeId input →
  c_user c = linkClientEmail (tl_tag l) (tl_from l) →
  route (steer_direction nodeId input e).1 c
  = if decide (e.1 = tl_tag l) then Some (direction_target e.1 e.2).1 else None.
Proof.
  intros Ha He Hl Hc. destruct e as [d tags]. cbn [fst snd] in *. unfold steer_direction.
  rewrite transit_handover, transit_not_entry. destruct (direction_target d tags) as [t bs] eqn:Et. cbn [fst].
  assert (takes c (to_target (mkRule None (Some (leg_users nodeId input d)) None None None None None None None) t) = true
          ↔ d = tl_tag l) as Ht.
  { unfold takes, takes_route, takes_user, takes_rest. simpl.
    destruct (Ha d He) as (l' & Hl' & Hd'). destruct (leg_users nodeId input d) as [|u us] eqn:Eu.
    { exfalso. assert (linkClientEmail d (tl_from l') ∈ leg_users nodeId input d) as Hu
        by (apply elem_of_leg_users; by exists l'). rewrite Eu in Hu. by apply not_elem_of_nil in Hu. }
    simpl. rewrite andb_true_r, bool_decide_eq_true, <-Eu, elem_of_leg_users, Hc.
    assert (∀ x, x ∈ incoming nodeId input → 1 <= tl_tag x <= 255) as Hr.
    { intros x Hx. unfold incoming in Hx. apply list_elem_of_filter in Hx as [_ Hx]. by apply (link_tag_range _ Hlegal). }
    split.
    - intros (x & Hx & Hxd & E). pose proof (Hr x Hx). pose proof (Hr l Hl).
      apply linkClientEmail_inj in E as [E _]; [congruence|lia..].
    - intros ->. by exists l. }
  unfold route. simpl. destruct (takes c _) eqn:Etk; [rewrite decide_True by tauto|].
  - by destruct t.
  - rewrite decide_False; [done|]. intros E. apply Ht in E. congruence.
Qed.

(** What arrives at a transit on a leg leaves by the outbounds of its
    direction's legs. *)
Lemma transit_leaves cfg c l : buildTopologyFragmentsForNode isIP isRegExp nodeId input = Ok (Some cfg) →
  arrives_too → l ∈ incoming nodeId input → tl_tag l ∈ here nodeId input →
  c_user c = linkClientEmail (tl_tag l) (tl_from l) →
  ∃ os, leaves cfg c = Ways os ∧
    Forall2 (dials input) (filter (λ x, tl_tag x = tl_tag l) (outgoing nodeId input)) os.
Proof.
  intros Hb Ha Hl Hd Hc. apply build_parts in Hb as (st & Es & Hrules & Houts & Hbals); [|by rewrite Htransit].
  pose proof (drawn_directions isIP nodeId input Hlegal st Es) as [Hwf Hkeys].
  apply Hkeys in Hd as Hk. apply jm_get_is_Some in Hk as [tags Hg]. apply jm_get_Some_elem in Hg as Hin.
  assert (route (hc_rules cfg) c = Some (direction_target (tl_tag l) tags).1) as Hroute.
  { rewrite Hrules. unfold gated, steer. rewrite transit_not_entry. cbn [andb fst snd]. rewrite !app_nil_l, app_nil_r.
    match goal with |- route ?r c = _ =>
      replace r with ((steer_direction nodeId input <$> sort_by direction_leb (dr_byDirection st)) ≫= fst)
        by (by destruct (ti_entryUserGate input)) end.
    assert (∀ x, x ∈ dr_byDirection st → route (steer_direction nodeId input x).1 c
      = if decide (x.1 = tl_tag l) then Some (direction_target x.1 x.2).1 else None) as Hx.
    { intros x Hx. apply transit_rule; try done. apply Hkeys. by apply (list_elem_of_fmap_2 fst). }
    assert (∀ ps : list (Z * list string), (steer_direction nodeId input <$> ps) ≫= fst
      = ps ≫= λ e, (steer_direction nodeId input e).1) as Hmap.
    { intros ps. induction ps as [|x ps IH]; [done|]. csimpl. by rewrite IH. }
    rewrite Hmap, (route_bind_one _ _ (tl_tag l, tags)).
    - by rewrite Hx, decide_True.
    - intros y Hy Hne. apply elem_of_sort_by in Hy. rewrite Hx, decide_False; try done. intros E. apply Hne.
      destruct y as [d' ts]. simpl in E. subst d'. apply jm_elem_get in Hy; [|done]. congruence.
    - by apply elem_of_sort_by. }
  assert ((direction_target (tl_tag l) tags).1.1 ≠ Some "blocked") as Hnb.
  { destruct (draw_outbounds_legacy isIP nodeId input st transit_handover Es) as (_ & _ & _ & _ & Hby & _).
    rewrite Hby in Hg. case_decide; [done|]. injection Hg as <-.
    by destruct (count (tl_tag l) (outgoing nodeId input)) as [|[|n]]. }
  eexists. split; [by apply (leaves_target cfg c _ Hroute)|].
  destruct (steer_balancers isIP isRegExp nodeId input (dr_byDirection st)) as [extra Hx].
  rewrite Houts, Hbals, non_empty_default, Hx, steer_legacy_outs, app_nil_r by by apply transit_handover.
  apply legacy_target_outs with (isIP := isIP); [done|done|apply transit_handover|done].
Qed.
End AtTransit.

Lemma exit_leaves isIP isRegExp nodeId input cfg c : role nodeId input = RExit →
  buildTopologyFragmentsForNode isIP isRegExp nodeId input = Ok (Some cfg) → c_inbound c = LINK_IN_TAG →
  leaves cfg c = Ways [freedomOutbound].
Proof.
  intros Hr Hb Hc. unfold buildTopologyFragmentsForNode in Hb. case_match; [done|].
  apply bind_ok in Hb as ([[ins lp] af] & _ & Hb). apply bind_ok in Hb as (st & _ & Hb). rewrite Hr in Hb.
  injection Hb as <-. unfold leaves, route, takes, takes_rest, link_in_rule. simpl.
  rewrite bool_decide_true; [done|]. rewrite Hc. by left.
Qed.

(** ** When a configuration is drawn at all *)
Section Drawable.
Context (isIP : string → Z) (isRegExp : string → bool) (nodeId : string) (input : TopologyInput).

Lemma map_res_is_ok {E A B} (f : A → result E B) xs : is_ok (map_res f xs) ↔ ∀ x, x ∈ xs → is_ok (f x).
Proof.
  induction xs as [|x xs IH]; simpl; [split; [by intros _ ? ?%not_elem_of_nil|done]|].
  destruct (f x) as [y|e] eqn:Ef; cbn [mbind result_bind].
  - assert (is_ok (map_res f xs ≫= λ ys, Ok (y :: ys)) ↔ is_ok (map_res f xs)) as -> by by destruct (map_res f xs).
    rewrite IH. split; [|by intros H z Hz; apply H; right].
    intros H z Hz. apply elem_of_cons in Hz as [->|Hz]; [by rewrite Ef|by apply H].
  - split; [done|]. intros H. specialize (H x ltac:(by left)). by rewrite Ef in H.
Qed.

Definition known (id : string) : Prop := is_Some (host_of input id).

Lemma inbound_side_ok : is_ok (inbound_side nodeId input) ↔ ∀ l, l ∈ incoming nodeId input → known (tl_from l).
Proof.
  unfold inbound_side. destruct (incoming nodeId input) as [|l ls] eqn:E.
  { split; [by intros _ ? ?%not_elem_of_nil|done]. }
  rewrite <-E. transitivity (is_ok (map_res (allow_host nodeId input) (incoming nodeId input))).
  { by destruct (map_res _ _). }
  rewrite map_res_is_ok. apply forall_proper. intros x. unfold allow_host, known.
  destruct (host_of input (tl_from x)); simpl; split; intros H Hx; try done; specialize (H Hx); by destruct H.
Qed.

(** A leg that can be drawn: its far end has an address, and xray has the cell
    or hands the leg over. *)
Definition leg_ok (l : TopologyLinkRow) : Prop :=
  known (tl_to l) ∧ (handover nodeId input = None → drawable (tl_cred l) = true).

Lemma draw_leg_ok st l : is_ok (draw_leg isIP nodeId input st l) ↔ leg_ok l.
Proof.
  unfold draw_leg, leg_ok, known. destruct (host_of input (tl_to l)) as [h|]; [|by split; [|intros [[? ?] _]]].
  destruct (handover nodeId input) as [pw|].
  - case_bool_decide; split; try done; by split; [eexists|].
  - pose proof (linkOutboundTagged_iff isIP h (tl_cred l)
      (dirOutTag (tl_tag l) (default 0%nat (jm_get (tl_tag l) (dr_counter st)))) (jm_get nodeId (ti_hosts input))) as Hi.
    destruct (linkOutboundTagged _ _ _ _ _); cbn [mbind result_bind is_ok] in *.
    + split; [intros _; split; [by eexists|intros _; by apply Hi]|done].
    + split; [done|]. intros [_ H]. by apply Hi, H.
Qed.

Lemma draw_legs_ok st ls : is_ok (fold_res (draw_leg isIP nodeId input) st ls) ↔ ∀ l, l ∈ ls → leg_ok l.
Proof.
  revert st. induction ls as [|l ls IH]; intros st; simpl; [split; [by intros _ ? ?%not_elem_of_nil|done]|].
  pose proof (draw_leg_ok st l) as Hl. destruct (draw_leg isIP nodeId input st l) as [st'|e]; cbn [mbind result_bind].
  - rewrite IH. split; [|by intros H z Hz; apply H; right].
    intros H z Hz. apply elem_of_cons in Hz as [->|Hz]; [by apply Hl|by apply H].
  - split; [done|]. intros H. apply Hl, H. by left.
Qed.

Lemma draw_foreign_ok st ts : is_ok (fold_res (draw_foreign nodeId input) st ts) ↔ (ts = [] ∨ is_Some (handover nodeId input)).
Proof.
  assert (∀ st t, is_ok (draw_foreign nodeId input st t) ↔ is_Some (handover nodeId input)) as Hd.
  { intros. unfold draw_foreign. destruct (handover nodeId input); simpl; [|by split; [|intros []]].
    split; [by eexists|done]. }
  revert st. induction ts as [|t ts IH]; intros st; [by split; [left|]|]. simpl. specialize (Hd st t).
  destruct (draw_foreign nodeId input st t) as [st'|e]; cbn [mbind result_bind].
  - rewrite IH. split; [|intros [?|?]; [done|by right]]. intros _. right. by apply Hd.
  - split; [done|]. intros [?|?]; [done|]. by apply Hd.
Qed.

Lemma bind_is_ok {E A B} (m : result E A) (f : A → result E B) :
  is_ok (m ≫= f) ↔ ∃ a, m = Ok a ∧ is_ok (f a).
Proof. destruct m; cbn [mbind result_bind]; naive_solver. Qed.

Lemma is_ok_ex {E A} (m : result E A) : is_ok m ↔ ∃ a, m = Ok a.
Proof. destruct m; naive_solver. Qed.

Lemma draw_outbounds_ok : is_ok (draw_outbounds isIP nodeId input) ↔
  (∀ l, l ∈ outgoing nodeId input → leg_ok l) ∧ (foreignTags nodeId input = [] ∨ is_Some (handover nodeId input)).
Proof.
  unfold draw_outbounds. rewrite bind_is_ok, <-(draw_legs_ok (mkDrawn [] [] [])), is_ok_ex. split.
  - intros (st & E & H). split; [by exists st|]. by apply draw_foreign_ok in H.
  - intros [(st & E) H]. exists st. split; [done|]. by apply draw_foreign_ok.
Qed.

(** When the whole is drawn. *)
Lemma build_drawn : 
  let touched := (incoming nodeId input ++ outgoing nodeId input ≠ [] ∨ foreignTags nodeId input ≠ []) in
  (¬ touched ↔ buildTopologyFragmentsForNode isIP isRegExp nodeId input = Ok None) ∧
  (touched →
    (∃ cfg, buildTopologyFragmentsForNode isIP isRegExp nodeId input = Ok (Some cfg))
    ↔ (∀ l, l ∈ incoming nodeId input → known (tl_from l)) ∧ (∀ l, l ∈ outgoing nodeId input → leg_ok l) ∧
      (foreignTags nodeId input = [] ∨ is_Some (handover nodeId input))).
Proof.
  cbv zeta. unfold buildTopologyFragmentsForNode.
  destruct ((length (incoming nodeId input) =? 0)%nat && (length (outgoing nodeId input) =? 0)%nat &&
            (length (foreignTags nodeId input) =? 0)%nat) eqn:Ez.
  - rewrite !andb_true_iff, !Nat.eqb_eq, !length_zero_iff_nil in Ez. destruct Ez as [[-> ->] ->]. simpl.
    split; [split; [done|intros _ [[] | []]; done]|]. intros [[] | []]; done.
  - assert (incoming nodeId input ++ outgoing nodeId input ≠ [] ∨ foreignTags nodeId input ≠ []) as Ht.
    { destruct (incoming nodeId input), (outgoing nodeId input), (foreignTags nodeId input); simpl in *; try done; try (by left); by right. }
    split; [split; [done|]|intros _].
    { intros E. apply bind_ok in E as ([[ins lp] af] & _ & E). apply bind_ok in E as (st & _ & E).
      destruct (steer _ _ _ _ _) as [outs [rules bals]]. by destruct (role nodeId input). }
    rewrite <-inbound_side_ok, <-draw_outbounds_ok, !is_ok_ex. split.
    + intros (cfg & E). apply bind_ok in E as (x & Ei & E). split; [by exists x|].
      destruct x as [[ins lp] af]. apply bind_ok in E as (st & Es & _). by exists st.
    + intros [([[ins lp] af] & ->) (st & ->)]. cbn [mbind result_bind].
      destruct (steer _ _ _ _ _) as [outs [rules bals]]. destruct (role nodeId input); by eexists.
Qed.

(** A node's configuration is drawn, whole, exactly when every node it
    exchanges traffic with has an address, every leg it starts is of a cell xray
    has (unless the chain process carries it), and a named outbound has a chain
    process to dial it; a node that touches no leg and no named outbound has
    nothing drawn. *)
Theorem build_verdict : 
  let touched := (incoming nodeId input ++ outgoing nodeId input ≠ [] ∨ foreignTags nodeId input ≠ []) in
  (¬ touched ↔ buildTopologyFragmentsForNode isIP isRegExp nodeId input = Ok None) ∧
  (touched →
    (∃ cfg, buildTopologyFragmentsForNode isIP isRegExp nodeId input = Ok (Some cfg))
    ↔ (∀ l, l ∈ incoming nodeId input → known (tl_from l)) ∧ (∀ l, l ∈ outgoing nodeId input → leg_ok l) ∧
      (foreignTags nodeId input = [] ∨ is_Some (handover nodeId input))).
Proof. apply build_drawn. Qed.
End Drawable.

(** ** That a configuration holds together *)

(** What a rule names is there. *)
Definition resolves (cfg : HopConfig) (t : option string * option string) : Prop :=
  match t with
  | (Some o, None) => o = "blocked" ∨ Some o ∈ out_tag <$> hc_outbounds cfg
  | (None, Some b) => ∃ x, x ∈ default [] (hc_balancers cfg) ∧ b_tag x = b ∧
      ∃ o, o ∈ hc_outbounds cfg ∧ selects (b_selector x) o = true
  | _ => False
  end.

Lemma gate_target may rules r : r ∈ applyEntryUserGate may rules →
  target r = (Some "blocked", None) ∨ ∃ r', r' ∈ rules ∧ target r = target r'.
Proof.
  unfold applyEntryUserGate. rewrite elem_of_app, list_elem_of_bind. intros [(r' & Hr & Hr')|Ht].
  - right. exists r'. split; [done|]. unfold gate_rule in Hr.
    repeat case_match; try (by apply list_elem_of_singleton in Hr as ->).
    apply list_elem_of_bind in Hr as (g & Hr & _). by eapply group_rule_target.
  - left. unfold trap in Ht. case_match; [by apply not_elem_of_nil in Ht|].
    by apply list_elem_of_singleton in Ht as ->.
Qed.

Section Together.
Context (isIP : string → Z) (isRegExp : string → bool) (nodeId : string) (input : TopologyInput).
Hypothesis Hlegal : legal input.
Context (st : Drawn) (Hst : draw_outbounds isIP nodeId input = Ok st) (cfg : HopConfig).
Notation by_dir := (dr_byDirection st).
Hypothesis Houts : hc_outbounds cfg = dr_outbounds st ++ [freedomOutbound] ++ (steer isIP isRegExp nodeId input by_dir).1.
Hypothesis Hbals : default [] (hc_balancers cfg) = (steer isIP isRegExp nodeId input by_dir).2.2.

Lemma legacy_outbound d i : handover nodeId input = None → (i < count d (outgoing nodeId input))%nat →
  ∃ o, o ∈ hc_outbounds cfg ∧ out_tag o = Some (dirOutTag d i).
Proof.
  intros Hh Hi. destruct (draw_outbounds_legacy isIP nodeId input st Hh Hst) as (_ & _ & Ht & _).
  assert (Some (dirOutTag d i) ∈ out_tag <$> dr_outbounds st) as Hin.
  { rewrite Ht. apply list_elem_of_fmap_2, elem_of_leg_tags. by exists d, i. }
  apply list_elem_of_fmap in Hin as (o & E & Ho). exists o. split; [|done]. rewrite Houts. apply elem_of_app. by left.
Qed.

Lemma chain_outbound pw ds d o : handover nodeId input = Some pw →
  (∀ x, x ∈ ds ≫= (λ d, socks_outbounds input d pw) → x ∈ hc_outbounds cfg) → d ∈ ds → o ∈ handoverOrdinals (ti_policies input) →
  Some (chainOutTag d o) ∈ out_tag <$> hc_outbounds cfg.
Proof.
  intros Hh Hin Hd Ho. apply list_elem_of_fmap. exists (chainSocksOutbound d pw o). split; [done|].
  apply Hin, list_elem_of_bind. exists d. split; [|done]. by apply list_elem_of_fmap_2.
Qed.

Lemma direction_resolves e r : e ∈ by_dir → r ∈ (steer_direction nodeId input e).1 → resolves cfg (target r).
Proof.
  intros He Hr. destruct e as [d tags]. pose proof (drawn_directions isIP nodeId input Hlegal st Hst) as [Hwf Hk].
  apply jm_elem_get in He as Hg; [|done].
  assert (d ∈ here nodeId input) as Hd by (apply Hk; exact (list_elem_of_fmap_2 fst _ _ He)).
  unfold steer_direction in Hr. destruct (direction_target d tags) as [t bs] eqn:Et.
  destruct (handover nodeId input) as [pw|] eqn:Eh; cbn [fst] in Hr.
  - apply list_elem_of_fmap in Hr as (o & -> & Ho). right.
    apply (chain_outbound pw (here nodeId input)); [done| |done|done].
    destruct (draw_outbounds_chain isIP nodeId input pw st Eh (here_NoDup _ _ Hlegal) Hst) as (_ & Ho' & _).
    intros x Hx. rewrite Houts, Ho'. apply elem_of_app. by left.
  - assert (target r = t) as -> by (destruct (isEntry nodeId input); apply list_elem_of_singleton in Hr as ->; by destruct t).
    destruct (draw_outbounds_legacy isIP nodeId input st Eh Hst) as (_ & _ & _ & _ & Hby & _).
    rewrite Hby in Hg. case_decide as Hc; [done|]. injection Hg as <-. clear Hr.
    destruct (count d (outgoing nodeId input)) as [|[|n]] eqn:Ec; [done| |]; injection Et as <- <-.
    + right. destruct (legacy_outbound d 0 Eh ltac:(lia)) as (o & Ho & Eo). apply list_elem_of_fmap.
      exists o. by split.
    + destruct (legacy_outbound d 0 Eh ltac:(lia)) as (o & Ho & Eo).
      exists (mkBalancer (balancerTagOf d) (dirOutTag d <$> seq 0 (S (S n)))). split; [|split; [done|]].
      * rewrite Hbals. destruct (steer_balancers isIP isRegExp nodeId input by_dir) as [extra ->]. apply elem_of_app. left.
        apply list_elem_of_bind. exists (steer_direction nodeId input (d, dirOutTag d <$> seq 0 (S (S n)))).
        split; [by left|]. apply list_elem_of_fmap_2. by apply elem_of_sort_by.
      * exists o. split; [done|]. unfold selects. rewrite Eo. apply existsb_exists. exists (dirOutTag d 0).
        split; [apply list_elem_of_In; by left|]. apply starts_with_spec. exists "". by rewrite str_app_nil.
Qed.

Lemma auto_resolves r : isEntry nodeId input && autoOn input by_dir = true →
  r ∈ (steer_auto nodeId input).2.1 → resolves cfg (target r).
Proof.
  intros Ha Hr. unfold steer_auto in Hr. destruct (handover nodeId input) as [pw|] eqn:Eh; cbn [fst snd] in Hr.
  - apply list_elem_of_fmap in Hr as (o & -> & Ho). right.
    apply (chain_outbound pw [CHAIN_AUTO_TAG]); [done| |by left|done].
    intros x Hx. rewrite Houts, (steer_chain_outs isIP isRegExp nodeId input by_dir pw Eh), !elem_of_app.
    right; right. unfold auto_dirs. by rewrite Ha.
  - apply list_elem_of_singleton in Hr as ->. simpl. exists (mkBalancer AUTO_BALANCER_TAG [LINK_OUT_TAG]).
    split; [|split; [done|]].
    + rewrite Hbals. unfold steer, steer_auto. rewrite Ha, Eh. cbn [fst snd]. apply elem_of_app. right. by left.
    + destruct (draw_outbounds_legacy isIP nodeId input st Eh Hst) as (_ & _ & _ & _ & Hby & _).
      apply andb_true_iff in Ha as [_ Ha]. unfold autoOn in Ha. apply andb_true_iff in Ha as [_ Ha].
      assert (∃ d ts m, by_dir = (d, ts) :: m) as (d & ts & m & Em).
      { clear -Ha. destruct by_dir as [|[d ts] m]; [done|by eexists _, _, _]. }
      specialize (Hby d). rewrite Em in Hby. simpl in Hby.
      rewrite decide_True in Hby by done. case_decide as Hc; [done|].
      destruct (legacy_outbound d 0 Eh ltac:(lia)) as (o & Ho & Eo). exists o. split; [done|].
      unfold selects. rewrite Eo. done.
Qed.

Lemma steer_resolves r : r ∈ (steer isIP isRegExp nodeId input by_dir).2.1 → resolves cfg (target r).
Proof.
  intros Hin. unfold steer in Hin.
  pose proof (λ H, auto_resolves r H) as Ha. destruct (isEntry nodeId input && autoOn input by_dir) eqn:Eb;
    [destruct (steer_auto nodeId input) as [outs [ar ab]]|]; cbn [fst snd] in Hin, Ha; rewrite !elem_of_app in Hin;
    (destruct Hin as [Hq|[Hp|[Hd|Hx]]]; [| | |try by apply not_elem_of_nil in Hx]).
  all: try (by apply Ha).
  all: try (case_match; [apply list_elem_of_singleton in Hq as ->; by left|by apply not_elem_of_nil in Hq]).
  all: try (apply list_elem_of_bind in Hd as (x & Hx & Hd); apply list_elem_of_fmap in Hd as (e & -> & He);
    apply elem_of_sort_by in He; by eapply direction_resolves).
  all: case_match; [|by apply not_elem_of_nil in Hp]; apply list_elem_of_bind in Hp as (p & Hp & _);
    unfold policy_rules, xrayPolicyRules in Hp;
    destruct (splitPolicyEntries _ _ (blockDomains p)) as [bd bi], (splitPolicyEntries _ _ (directDomains p)) as [dd di];
    rewrite !elem_of_app in Hp; destruct Hp as [[Hp|Hp]|[Hp|Hp]]; case_match;
    (apply list_elem_of_singleton in Hp as -> || by apply not_elem_of_nil in Hp);
    [by left..|right|right]; rewrite Houts, !fmap_app, !elem_of_app; right; left; by left.
Qed.
End Together.

Lemma balancer_tags_NoDup isIP isRegExp nodeId input by_dir : jm_wf by_dir →
  (∀ d, d ∈ jm_keys by_dir → 1 <= d <= 255) →
  NoDup (b_tag <$> (steer isIP isRegExp nodeId input by_dir).2.2).
Proof.
  intros Hwf Hr. assert (∃ extra, (steer isIP isRegExp nodeId input by_dir).2.2
    = ((steer_direction nodeId input <$> sort_by direction_leb by_dir) ≫= snd) ++ extra ∧
    (extra = [] ∨ extra = [mkBalancer AUTO_BALANCER_TAG [LINK_OUT_TAG]])) as (extra & -> & Hx).
  { unfold steer, steer_auto. destruct (isEntry nodeId input && autoOn input by_dir); [|eexists; split; [done|by left]].
    destruct (handover nodeId input); eexists; (split; [done|]); [by left|by right]. }
  set (parts := sort_by direction_leb by_dir).
  assert (∀ e x, e ∈ parts → x ∈ (steer_direction nodeId input e).2 → b_tag x = balancerTagOf e.1 ∧ 1 <= e.1 <= 255) as He.
  { intros [d tags] x Hin Hb. apply elem_of_sort_by in Hin. unfold steer_direction in Hb. cbn [fst].
    split; [|apply Hr; exact (list_elem_of_fmap_2 fst _ _ Hin)].
    destruct tags as [|t [|t' ts]]; simpl in Hb; set_solver. }
  rewrite fmap_app. apply NoDup_app. split; [|split].
  - assert (NoDup parts.*1) as Hnd by (unfold parts; by rewrite sort_by_perm).
    revert He Hnd. clear -Hr. generalize parts. clear parts. intros ps He Hnd.
    induction ps as [|e ps IH]; [constructor|]. rewrite fmap_cons, bind_cons, fmap_app.
    rewrite fmap_cons in Hnd. apply NoDup_cons in Hnd as [Hni Hnd]. apply NoDup_app. split; [|split].
    + destruct e as [d tags]. unfold steer_direction. destruct tags as [|t [|t' ts]]; simpl; repeat constructor; set_solver.
    + intros b Hb Hb'. apply list_elem_of_fmap in Hb as (x & -> & Hx). apply list_elem_of_fmap in Hb' as (y & Ey & Hy).
      apply list_elem_of_bind in Hy as (z & Hy & Hz). apply list_elem_of_fmap in Hz as (e' & -> & He').
      destruct (He e x ltac:(by left) Hx) as [E1 H1], (He e' y ltac:(by right) Hy) as [E2 H2].
      rewrite E1, E2 in Ey. apply balancerTag_inj in Ey; [|lia..]. apply Hni. rewrite Ey. by apply list_elem_of_fmap_2.
    + apply IH; [|done]. intros e' x He'. apply He. by right.
  - intros b Hb Hb'. destruct Hx as [->| ->]; [by apply not_elem_of_nil in Hb'|].
    apply list_elem_of_singleton in Hb' as ->. apply list_elem_of_fmap in Hb as (x & Ex & Hx).
    apply list_elem_of_bind in Hx as (z & Hx & Hz). apply list_elem_of_fmap in Hz as (e & -> & He').
    destruct (He e x He' Hx) as [E _]. rewrite E in Ex. done.
  - destruct Hx as [->| ->]; [constructor|apply NoDup_singleton].
Qed.

(** C21. A configuration holds together: no two outbounds share a tag and no two
    balancers; every rule, gated or not, has one target, which is the node's
    blackhole, an outbound of the configuration, or a balancer of it that has
    an outbound to pick; and the probe that balancers need is there exactly
    when there is a balancer. *)
Theorem config_holds_together isIP isRegExp nodeId input cfg : legal input →
  buildTopologyFragmentsForNode isIP isRegExp nodeId input = Ok (Some cfg) →
  NoDup (out_tag <$> hc_outbounds cfg) ∧ NoDup (b_tag <$> default [] (hc_balancers cfg)) ∧
  Forall (λ r, resolves cfg (target r)) (hc_rules cfg) ∧
  (is_Some (hc_observatory cfg) ↔ is_Some (hc_balancers cfg)).
Proof.
  intros Hlegal Hb. destruct (decide (role nodeId input = RExit)) as [Hx|Hx].
  - unfold buildTopologyFragmentsForNode in Hb. case_match; [done|]. apply bind_ok in Hb as ([[ins lp] af] & _ & Hb).
    apply bind_ok in Hb as (st & _ & Hb). rewrite Hx in Hb. injection Hb as <-. simpl.
    split; [apply NoDup_singleton|]. split; [constructor|]. split; [|done].
    apply Forall_singleton. right. by left.
  - pose proof Hb as Hb'. apply build_parts in Hb as (st & Es & Hrules & Houts & Hbals); [|done].
    pose proof (drawn_directions isIP nodeId input Hlegal st Es) as [Hwf _].
    assert (default [] (hc_balancers cfg) = (steer isIP isRegExp nodeId input (dr_byDirection st)).2.2) as Hbals'.
    { rewrite Hbals. apply non_empty_default. }
    split; [rewrite Houts; by apply config_tags_NoDup|]. split.
    { rewrite Hbals'. apply balancer_tags_NoDup; [done|]. intros d. by apply (drawn_range isIP nodeId input). }
    split.
    + apply Forall_forall. intros r Hr. rewrite Hrules in Hr.
      pose proof (λ r, steer_resolves isIP isRegExp nodeId input Hlegal st Es cfg Houts Hbals' r) as Hres.
      unfold gated in Hr. destruct (ti_entryUserGate input) as [may|]; [|by apply Hres].
      destruct (isEntry nodeId input); [|by apply Hres].
      apply gate_target in Hr as [->|(r' & Hr' & ->)]; [by left|by apply Hres].
    + unfold buildTopologyFragmentsForNode in Hb'. case_match; [done|]. apply bind_ok in Hb' as ([[ins lp] af] & _ & Hb').
      apply bind_ok in Hb' as (st' & _ & Hb'). clear -Hx Hb'.
      destruct (steer _ _ _ _ _) as [outs [rules bals]].
      destruct (role nodeId input); [|..]; try done; injection Hb' as <-; simpl; unfold non_empty; destruct bals; simpl;
        (split; [intros []|intros []]; done || by eexists).
Qed.

(** ** A cascade: an entry, a transit, a direction with a pool of two and one
    with a single node, and a policy. *)
Definition ex_leg (from to : string) (tag p : Z) (uuid : string) : TopologyLinkRow :=
  mkLinkRow from to tag (Vless p uuid None).

Definition ex_first : TopologyDirection := mkTDirection 1 ["x"; "y"] None.
Definition ex_second : TopologyDirection := mkTDirection 2 ["z"] None.

Definition ex_input : TopologyInput :=
  mkTopology [["e"]; ["t"]] [ex_first; ex_second]
    [ex_leg "e" "t" 1 24000 "u1"; ex_leg "e" "t" 2 24000 "u2"; ex_leg "t" "x" 1 24001 "u3";
     ex_leg "t" "y" 1 24001 "u4"; ex_leg "t" "z" 2 24001 "u5"]
    [("e", "10.0.0.1"); ("t", "10.0.0.2"); ("x", "10.0.0.3"); ("y", "10.0.0.4"); ("z", "10.0.0.5")]
    (Some [mkPolicy 1 ["geosite:ru"] ["geosite:ads"]]) true None
    (Some [("ann", [1; 2; 257; 258]); ("bob", [2; 258])]).

Definition ex_connection (route : Z) (u : string) : Connection :=
  mkConnection (Some route) u "in-vless" "tcp" 443 (λ _, false) (λ _, false).

Ltac each_in H := repeat (apply elem_of_cons in H as [->|H]); [..|by apply not_elem_of_nil in H].

Lemma ex_legal : legal ex_input.
Proof.
  constructor.
  - done.
  - repeat apply Forall_cons_2; try apply Forall_nil_2; simpl; lia.
  - by apply (bool_decide_unpack _).
  - repeat apply Forall_cons_2; try apply Forall_nil_2; unfold MAX_DIRECTION_ORDINAL; simpl; lia.
  - by apply (bool_decide_unpack _).
  - intros l Hl. simpl in Hl. each_in Hl; first [by exists ex_first; split; [left|] | by exists ex_second; split; [right; left|]].
  - intros may [= <-]. repeat apply Forall_cons_2; try apply Forall_nil_2; (split; [done|split; [done|]]);
      apply char_free_has; by vm_compute.
Qed.


Theorem entry_steers_witness :
  ∃ cfg, buildTopologyFragmentsForNode (λ _, 0) (λ _, false) "e" ex_input = Ok (Some cfg) ∧
  leaves cfg (ex_connection (routeTag 0 0) "bob") = Blackhole ∧
  ∃ os, leaves cfg (ex_connection (routeTag 0 0) "ann") = Ways os ∧
    Forall2 (dials ex_input) [ex_leg "e" "t" 1 24000 "u1"] os.
Proof.
  destruct (buildTopologyFragmentsForNode (λ _, 0) (λ _, false) "e" ex_input) as [[cfg|]|e] eqn:E;
    [|vm_compute in E; discriminate E..].
  exists cfg. split; [done|]. split.
  - apply (entry_steers (λ _, 0) (λ _, false) "e" ex_input cfg (ex_connection (routeTag 0 0) "bob") 0 1 ex_legal);
      [done|done|by left|by apply (bool_decide_unpack _)|by left|done].
  - apply (entry_steers (λ _, 0) (λ _, false) "e" ex_input cfg (ex_connection (routeTag 0 0) "ann") 0 1 ex_legal);
      [done|done|by left|by apply (bool_decide_unpack _)|by left|done].
Defined.

Theorem config_holds_together_witness :
  ∃ cfg, buildTopologyFragmentsForNode (λ _, 0) (λ _, false) "t" ex_input = Ok (Some cfg) ∧
  NoDup (out_tag <$> hc_outbounds cfg) ∧ Forall (λ r, resolves cfg (target r)) (hc_rules cfg).
Proof.
  destruct (buildTopologyFragmentsForNode (λ _, 0) (λ _, false) "t" ex_input) as [[cfg|]|e] eqn:E;
    [|vm_compute in E; discriminate E..].
  exists cfg. destruct (config_holds_together (λ _, 0) (λ _, false) "t" ex_input cfg ex_legal E) as (? & _ & ? & _).
  by repeat split.
Defined.

Theorem build_verdict_witness :
  (∃ cfg, buildTopologyFragmentsForNode (λ _, 0) (λ _, false) "t" ex_input = Ok (Some cfg)) ∧
  buildTopologyFragmentsForNode (λ _, 0) (λ _, false) "stranger" ex_input = Ok None.
Proof.
  split.
  - apply (build_verdict (λ _, 0) (λ _, false) "t" ex_input); [left; by vm_compute|].
    split; [|split; [|by left]]; intros l Hl; vm_compute in Hl; each_in Hl; try split; by vm_compute; eexists.
  - apply (build_verdict (λ _, 0) (λ _, false) "stranger" ex_input). intros [H|H]; by vm_compute in H.
Defined.
