(* ===== verification/CascadeJourney.v ===== *)
(** The way through a cascade whose legs xray draws itself: from the tag in a
    client's UUID, through the configuration of every node on the way, to the
    node the traffic leaves at. *)

From S2P Require Import Prelude Js Json LinkCreds PolicyEntries EntryGate XrayLinks TopologyFragments TopologyRoutes.

Local Open Scope string_scope.
Local Open Scope list_scope.
Local Open Scope Z_scope.

(** The connection as the next node sees it: on its listener, as the user of
    the credential it was dialled with, its tag unread. *)
Definition arrive (email : string) (c : Connection) : Connection :=
  mkConnection None email LINK_IN_TAG (c_network c) (c_port c) (c_domain c) (c_ip c).

Section Travels.
Context (drawn : string → option HopConfig) (address : string → option string).

(** A connection at a node may leave the cascade there, or be dialled on to the
    node that has the address, if its listener knows the credential. *)
Inductive travels : string → Connection → list string → Prop :=
  | leaves_here n c cfg os :
      drawn n = Some cfg → leaves cfg c = Ways os → freedomOutbound ∈ os → travels n c [n]
  | goes_on n c cfg os o h p s m cfg' email path :
      drawn n = Some cfg → leaves cfg c = Ways os → o ∈ os → dial_of o = Some (h, p, s) →
      address m = Some h → drawn m = Some cfg' → listener_user cfg' p s = Some email →
      travels m (arrive email c) path → travels n c (n :: path).
End Travels.

(** The topology as the reader of one node gets it: the gate is that node's. *)
Definition with_gate (input : TopologyInput) (gate : option (list (string * list Z))) : TopologyInput :=
  mkTopology (ti_positions input) (ti_directions input) (ti_links input) (ti_hosts input) (ti_policies input)
    (ti_auto input) (ti_chainSocksPassword input) gate.

(** ** The shape of a cascade *)
Section Shape.
Context (input : TopologyInput).

Definition leg_between (a b : string) (x : TopologyDirection) : Prop :=
  (∃ i p q, ti_positions input !! i = Some p ∧ ti_positions input !! S i = Some q ∧ a ∈ p ∧ b ∈ q) ∨
  (∃ p, last (ti_positions input) = Some p ∧ a ∈ p ∧ b ∈ td_nodeIds x).

Definition leg_of (l : TopologyLinkRow) (a b : string) (x : TopologyDirection) : Prop :=
  l ∈ ti_links input ∧ tl_from l = a ∧ tl_to l = b ∧ tl_tag l = td_tag x.

(** No node twice, every direction a pool, and a leg for every direction
    between adjacent nodes and no other. *)
Record shape : Prop := {
  shape_nodes : NoDup (mjoin (ti_positions input) ++ (ti_directions input ≫= td_nodeIds));
  shape_pools : Forall (λ p, p ≠ []) (ti_positions input) ∧ Forall (λ d, td_nodeIds d ≠ []) (ti_directions input);
  shape_links : ∀ a b x, x ∈ ti_directions input → (∃ l, leg_of l a b x) ↔ leg_between a b x
}.

Hypothesis Hs : shape.

Lemma position_nodes i p n : ti_positions input !! i = Some p → n ∈ p → n ∈ mjoin (ti_positions input).
Proof. intros Hp Hn. apply list_elem_of_join. exists p. split; [done|]. by eapply list_elem_of_lookup_2. Qed.

(** A node stands on one position. *)
Lemma position_unique i j p q n : ti_positions input !! i = Some p → ti_positions input !! j = Some q →
  n ∈ p → n ∈ q → i = j.
Proof.
  pose proof (shape_nodes Hs) as Hnd. apply NoDup_app in Hnd as (Hnd & _ & _).
  revert i j Hnd. generalize (ti_positions input). intros ps.
  induction ps as [|p0 ps IH]; intros i j Hnd Hi Hj Hp Hq; [done|]. simpl in Hnd. apply NoDup_app in Hnd as (_ & Hdis & Hnd).
  assert (∀ k r, ps !! k = Some r → n ∈ r → n ∈ mjoin ps) as Hin.
  { intros k r Hk Hr. apply list_elem_of_join. exists r. split; [done|]. by eapply list_elem_of_lookup_2. }
  destruct i as [|i], j as [|j]; simpl in *; [done| | |f_equal; by apply IH].
  - injection Hi as ->. exfalso. apply (Hdis n Hp). by eapply Hin.
  - injection Hj as ->. exfalso. apply (Hdis n Hq). by eapply Hin.
Qed.

Lemma position_index i p n : ti_positions input !! i = Some p → n ∈ p → posIndex n input = Some i.
Proof.
  intros Hp Hn. unfold posIndex. assert (list_find (λ q, n ∈ q) (ti_positions input) = Some (i, p)) as ->; [|done].
  apply list_find_Some. split; [done|]. split; [done|]. intros j q Hq Hlt Hin.
  assert (j = i); [by eapply position_unique|lia].
Qed.

Lemma direction_not_position x i p n : x ∈ ti_directions input → n ∈ td_nodeIds x → ti_positions input !! i = Some p → n ∉ p.
Proof.
  intros Hx Hn Hp Hin. pose proof (shape_nodes Hs) as Hnd. apply NoDup_app in Hnd as (_ & Hdis & _).
  apply (Hdis n); [by eapply position_nodes|]. apply list_elem_of_bind. by exists x.
Qed.

Lemma position_not_direction i p n : ti_positions input !! i = Some p → n ∈ p → isDirection n input = false.
Proof.
  intros Hp Hn. apply not_true_iff_false. unfold isDirection. rewrite existsb_exists.
  intros (x & Hx & Hin). apply list_elem_of_In in Hx. apply bool_decide_eq_true in Hin.
  by eapply direction_not_position.
Qed.

Lemma leg_ends_nodes a b x : x ∈ ti_directions input → leg_between a b x →
  let all := mjoin (ti_positions input) ++ (ti_directions input ≫= td_nodeIds) in a ∈ all ∧ b ∈ all.
Proof.
  intros Hx Hl. cbv zeta. rewrite !elem_of_app. destruct Hl as [(i & p & q & Hp & Hq & Ha & Hb)|(p & Hp & Ha & Hb)].
  - split; left; [by apply (position_nodes i p)|by apply (position_nodes (S i) q)].
  - rewrite last_lookup in Hp. split; [left; by eapply position_nodes|]. right. apply list_elem_of_bind. by exists x.
Qed.

(** The nodes a direction goes on to from a position. *)
Definition next_pool (i : nat) (x : TopologyDirection) : list string :=
  match ti_positions input !! S i with Some q => q | None => td_nodeIds x end.

Lemma leg_from_position i p n b x : ti_positions input !! i = Some p → n ∈ p →
  leg_between n b x ↔ b ∈ next_pool i x.
Proof.
  intros Hp Hn. unfold leg_between, next_pool. rewrite last_lookup. split.
  - intros [(j & p' & q & Hp' & Hq & Hn' & Hb)|(p' & Hp' & Hn' & Hb)].
    + assert (j = i) as -> by by apply (position_unique j i p' p n). by rewrite Hq.
    + assert (pred (length (ti_positions input)) = i) as E by by apply (position_unique _ i p' p n).
      assert (i < length (ti_positions input))%nat by by eapply lookup_lt_Some.
      assert (ti_positions input !! S i = None) as -> by (apply lookup_ge_None; lia). done.
  - destruct (ti_positions input !! S i) as [q|] eqn:Eq; intros Hb; [left; by exists i, p, q|].
    right. exists p. apply lookup_lt_Some in Hp as Hlt. apply lookup_ge_None in Eq.
    replace (pred (length (ti_positions input))) with i by lia. done.
Qed.

Lemma next_pool_filled i x : x ∈ ti_directions input → next_pool i x ≠ [].
Proof.
  intros Hx. destruct (shape_pools Hs) as [Hp Hd]. unfold next_pool. rewrite Forall_forall in Hp. rewrite Forall_forall in Hd.
  destruct (ti_positions input !! S i) as [q|] eqn:Eq; [|by apply Hd]. apply Hp. by eapply list_elem_of_lookup_2.
Qed.

(** The pools on the way of a direction. *)
Definition pools (x : TopologyDirection) : list (list string) := ti_positions input ++ [td_nodeIds x].

Lemma pools_next i p x : ti_positions input !! i = Some p → pools x !! S i = Some (next_pool i x).
Proof.
  intros Hp. apply lookup_lt_Some in Hp. unfold pools, next_pool.
  destruct (ti_positions input !! S i) as [q|] eqn:Eq; [by apply lookup_app_l_Some|].
  apply lookup_ge_None in Eq. rewrite lookup_app_r by done.
  by replace (S i - length (ti_positions input))%nat with 0%nat by lia.
Qed.

Definition picks (qs : list (list string)) (ms : list string) : Prop := Forall2 (λ q m, m ∈ q) qs ms.

End Shape.

Section Journey.
Context (isIP : string → Z) (isRegExp : string → bool) (input : TopologyInput).
Context (gate : string → option (list (string * list Z))) (address : string → option string).

Definition input_at (n : string) : TopologyInput := with_gate input (gate n).

Definition config (n : string) : result draw_error (option HopConfig) :=
  buildTopologyFragmentsForNode isIP isRegExp n (input_at n).

Definition drawn (n : string) : option HopConfig :=
  match config n with Ok cfg => cfg | Throw _ => None end.

(** The topology a save has accepted and made links for: no node twice, a leg
    for every direction between adjacent nodes and no other, addresses and
    secrets of their own; every direction a pool, and no chain process. *)
Record whole : Prop := {
  whole_legal : ∀ n, legal (input_at n);
  whole_shape : shape input;
  whole_hosts : ∀ n, n ∈ mjoin (ti_positions input) ++ (ti_directions input ≫= td_nodeIds) → known input n;
  whole_addresses : ∀ n h, host_of input n = Some h → address n = Some h;
  whole_host_inj : ∀ n m h, address n = Some h → address m = Some h → n = m;
  whole_listeners : ∀ n, one_listener (incoming n input);
  whole_direct : (∀ d, d ∈ ti_directions input → td_outbound d = None) ∧ ti_chainSocksPassword input = None
}.

Hypothesis Hw : whole.

Notation Hs := (whole_shape Hw).
Notation leg_of := (leg_of input).
Notation leg_between := (leg_between input).
Notation next_pool := (next_pool input).
Notation pools := (pools input).

Notation travels := (travels drawn address).

Lemma drawn_iff n cfg : drawn n = Some cfg ↔ config n = Ok (Some cfg).
Proof. unfold drawn. destruct (config n) as [cfg'|e]; split; by intros [= <-]. Qed.

Lemma drawn_at n cfg cfg' : config n = Ok (Some cfg) → drawn n = Some cfg' → cfg' = cfg.
Proof. intros E. unfold drawn. rewrite E. by intros [= ->]. Qed.

Lemma no_handover n : handover n input = None.
Proof. unfold handover. rewrite (proj2 (whole_direct Hw)). by destruct (isEntry n input). Qed.

Lemma no_foreign n : foreignTags n input = [].
Proof.
  unfold foreignTags. destruct (posIndex n input); [|done]. case_bool_decide; [|done].
  unfold outbound_directions. rewrite filter_none; [done|]. intros d Hd.
  rewrite (proj1 (whole_direct Hw) d Hd). by intros [].
Qed.

Lemma role_entry p n : ti_positions input !! 0%nat = Some p → n ∈ p → isEntry n input = true.
Proof. intros Hp Hn. unfold isEntry. rewrite (position_index input Hs 0 p) by done. done. Qed.

Lemma role_transit i p n : ti_positions input !! S i = Some p → n ∈ p → role n input = RTransit.
Proof.
  intros Hp Hn. unfold role, isEntry. rewrite (position_index input Hs (S i) p), (position_not_direction input Hs (S i) p) by done.
  done.
Qed.

Lemma role_exit x n : x ∈ ti_directions input → n ∈ td_nodeIds x → role n input = RExit.
Proof.
  intros Hx Hn. unfold role, isEntry. assert (posIndex n input = None) as ->.
  { unfold posIndex. apply fmap_None, list_find_None, Forall_forall. intros p Hp Hin.
    apply list_elem_of_lookup in Hp as [i Hi]. by eapply (direction_not_position input Hs). }
  rewrite bool_decide_false by done. assert (isDirection n input = true) as ->; [|done].
  apply existsb_exists. exists x. split; [by apply list_elem_of_In|by apply bool_decide_eq_true].
Qed.

(** ** Legs and configurations *)
Lemma link_leg l : l ∈ ti_links input → ∃ x, x ∈ ti_directions input ∧ leg_of l (tl_from l) (tl_to l) x.
Proof.
  intros Hl. destruct (legal_links _ (whole_legal Hw (tl_from l)) l Hl) as (x & Hx & E & _). exists x. by repeat split.
Qed.

Lemma link_known l : l ∈ ti_links input → known input (tl_from l) ∧ known input (tl_to l).
Proof.
  intros Hl. destruct (link_leg l Hl) as (x & Hx & Hlx).
  destruct (leg_ends_nodes input (tl_from l) (tl_to l) x Hx) as [Ha Hb]; [apply (shape_links _ Hs); [done|by exists l]|].
  split; by apply (whole_hosts Hw).
Qed.

Lemma link_drawable l : l ∈ ti_links input → drawable (tl_cred l) = true.
Proof.
  intros Hl. destruct (whole_listeners Hw (tl_to l)) as (_ & _ & Hd). apply Hd. by apply list_elem_of_filter.
Qed.

(** A node with a leg has a configuration. *)
Lemma config_of l n : l ∈ ti_links input → tl_from l = n ∨ tl_to l = n → ∃ cfg, config n = Ok (Some cfg).
Proof.
  intros Hl Hn. apply (build_drawn isIP isRegExp n (input_at n)).
  - left. change (incoming n input ++ outgoing n input ≠ []). intros E. apply app_eq_nil in E as [Ei Eo]. destruct Hn as [Hn|Hn].
    + assert (l ∈ outgoing n input) as Hin by by apply list_elem_of_filter. rewrite Eo in Hin. by apply not_elem_of_nil in Hin.
    + assert (l ∈ incoming n input) as Hin by by apply list_elem_of_filter. rewrite Ei in Hin. by apply not_elem_of_nil in Hin.
  - split; [|split; [|left; apply no_foreign]]; intros l' Hl'; apply list_elem_of_filter in Hl' as [_ Hl'].
    + by apply link_known.
    + split; [by apply link_known|]. intros _. by apply link_drawable.
Qed.

Lemma here_position i p n x : ti_positions input !! i = Some p → n ∈ p → x ∈ ti_directions input →
  td_tag x ∈ here n input.
Proof.
  intros Hp Hn Hx. apply elem_of_here. left. pose proof (next_pool_filled input Hs i x Hx) as Hf.
  destruct (next_pool i x) as [|b bs] eqn:Eb; [done|].
  destruct (proj2 (shape_links _ Hs n b x Hx)) as (l & Hl & Hfrom & _ & Ht).
  - apply (leg_from_position input Hs i p n b x Hp Hn). rewrite Eb. by left.
  - exists l. split; [by apply list_elem_of_filter|done].
Qed.

(** One step: where the outbounds of a direction's legs lead. *)
Lemma one_step i p n x c cfg os path : ti_positions input !! i = Some p → n ∈ p → x ∈ ti_directions input →
  config n = Ok (Some cfg) → leaves cfg c = Ways os →
  Forall2 (dials input) (filter (λ l, tl_tag l = td_tag x) (outgoing n input)) os →
  travels n c path ↔ ∃ m rest, m ∈ next_pool i x ∧ path = n :: rest ∧
    travels m (arrive (linkClientEmail (td_tag x) n) c) rest.
Proof.
  intros Hp Hn Hx Hcfg Hlv Hos. assert (∀ l, l ∈ filter (λ l, tl_tag l = td_tag x) (outgoing n input) →
    leg_of l n (tl_to l) x) as Hleg.
  { intros l Hl. apply list_elem_of_filter in Hl as [Ht Hl]. apply list_elem_of_filter in Hl as [Hf Hl]. done. }
  split.
  - intros Htr. inversion Htr as [n' c' cfg' os' Hc' Hl' Hfree|n' c' cfg1 os' o h pt s m cfg' email path' Hc' Hl' Ho Hdial Hh Hcm Hu Hrest]; subst;
      apply (drawn_at _ _ _ Hcfg) in Hc' as ->; rewrite Hlv in Hl'; injection Hl' as <-.
    + exfalso. destruct (Forall2_elem_r _ _ _ _ Hos Hfree) as (l & _ & h & _ & _ & Hd). done.
    + destruct (Forall2_elem_r _ _ _ _ Hos Ho) as (l & Hl & h' & Hh' & _ & Hd). rewrite Hdial in Hd.
      injection Hd as -> -> ->. destruct (Hleg l Hl) as (Hin & Hfrom & _ & Htag).
      apply (whole_addresses Hw) in Hh'. assert (m = tl_to l) as -> by by eapply (whole_host_inj Hw).
      apply drawn_iff in Hcm.
      exists (tl_to l), path'. split; [|split; [done|]].
      * apply (leg_from_position input Hs i p n (tl_to l) x Hp Hn). apply (shape_links _ Hs); [done|]. exists l. by apply Hleg.
      * assert (l ∈ incoming (tl_to l) input) as Hli by by apply list_elem_of_filter.
        rewrite (listener_user_of isIP isRegExp (tl_to l) (input_at (tl_to l)) cfg' l Hcm (whole_listeners Hw _) Hli) in Hu.
        injection Hu as <-. by rewrite <-Hfrom, <-Htag.
  - intros (m & rest & Hm & -> & Hrest). apply (leg_from_position input Hs i p n m x Hp Hn) in Hm.
    apply (shape_links _ Hs) in Hm as (l & Hin & Hfrom & Hto & Htag); [|done].
    assert (l ∈ filter (λ l, tl_tag l = td_tag x) (outgoing n input)) as Hl.
    { apply list_elem_of_filter. split; [done|]. by apply list_elem_of_filter. }
    destruct (Forall2_elem_l _ _ _ _ Hos Hl) as (o & Ho & h & Hh & _ & Hd).
    destruct (config_of l m Hin) as [cfg' Hcm]; [by right|]. rewrite Hto in Hh.
    assert (l ∈ incoming m input) as Hli by by apply list_elem_of_filter.
    apply drawn_iff in Hcfg, Hcm as Hcm'.
    eapply goes_on; [exact Hcfg|exact Hlv|exact Ho|exact Hd|by apply (whole_addresses Hw)|exact Hcm'| |].
    + by apply (listener_user_of isIP isRegExp m (input_at m) cfg' l Hcm (whole_listeners Hw _)).
    + by rewrite Hfrom, Htag.
Qed.

(** ** The whole way *)
Lemma exit_step x n c path a : x ∈ ti_directions input → n ∈ td_nodeIds x → leg_between a n x →
  c_inbound c = LINK_IN_TAG → travels n c path ↔ path = [n].
Proof.
  intros Hx Hn Hl Hc. apply (shape_links _ Hs) in Hl as (l & Hin & _ & Hto & _); [|done].
  destruct (config_of l n Hin) as [cfg Hcfg]; [by right|].
  pose proof (exit_leaves isIP isRegExp n (input_at n) cfg c (role_exit x n Hx Hn) Hcfg Hc) as Hlv. split.
  - intros Htr. inversion Htr as [|n' c' cfg1 os' o h pt s m cfg' email path' Hc' Hl' Ho Hdial _ _ _ _]; subst; [done|].
    apply (drawn_at _ _ _ Hcfg) in Hc' as ->. rewrite Hlv in Hl'. injection Hl' as <-.
    apply list_elem_of_singleton in Ho as ->. done.
  - intros ->. eapply leaves_here; [by apply drawn_iff|exact Hlv|by left].
Qed.

(** A transit: its configuration and where it sends what arrives on a leg. *)
Lemma transit_config i p x n c a : x ∈ ti_directions input → ti_positions input !! S i = Some p → n ∈ p →
  leg_between a n x → c_user c = linkClientEmail (td_tag x) a →
  ∃ cfg os, config n = Ok (Some cfg) ∧ leaves cfg c = Ways os ∧
    Forall2 (dials input) (filter (λ l, tl_tag l = td_tag x) (outgoing n input)) os.
Proof.
  intros Hx Hp Hn Hl Hu. apply lookup_lt_Some in Hp as Hlt.
  destruct (proj2 (shape_links _ Hs a n x Hx) Hl) as (l & Hin & Hfrom & Hto & Htag).
  destruct (config_of l n Hin) as [cfg Hcfg]; [by right|]. exists cfg.
  assert (l ∈ incoming n input) as Hli by by apply list_elem_of_filter.
  assert (arrives_too n input) as Harr.
  { intros d Hd. apply (here_direction n (input_at n) (whole_legal Hw n)), list_elem_of_fmap in Hd as (y & -> & Hy).
    destruct (lookup_lt_is_Some_2 (ti_positions input) i ltac:(lia)) as [q Hq].
    destruct (shape_pools _ Hs) as [Hpool _]. rewrite Forall_forall in Hpool.
    destruct q as [|b bs]; [by apply list_elem_of_lookup_2, Hpool in Hq|].
    destruct (proj2 (shape_links _ Hs b n y Hy)) as (l' & Hin' & _ & Hto' & Htag').
    { left. exists i, (b :: bs), p. by repeat split; [..|left|]. }
    exists l'. split; [by apply list_elem_of_filter|done]. }
  destruct (transit_leaves isIP isRegExp n (input_at n) (whole_legal Hw n) (role_transit i p n Hp Hn) cfg c l Hcfg Harr Hli)
    as (os & Hlv & Hos).
  - rewrite Htag. by eapply here_position.
  - by rewrite Hu, Hfrom, Htag.
  - exists os. by rewrite Htag in Hos.
Qed.

(** From the second pool on: every choice of one node per pool, and no other. *)
Lemma way_on x k j q n c path a : x ∈ ti_directions input → (length (pools x) - j = k)%nat → (0 < j)%nat →
  pools x !! j = Some q → n ∈ q → leg_between a n x →
  c_user c = linkClientEmail (td_tag x) a → c_inbound c = LINK_IN_TAG →
  travels n c path ↔ ∃ rest, path = n :: rest ∧ picks (drop (S j) (pools x)) rest.
Proof.
  intros Hx. revert j q n c path a. induction k as [k IH] using lt_wf_ind.
  intros j q n c path a Hk Hj Hq Hn Hl Hu Hc. apply lookup_lt_Some in Hq as Hlt.
  destruct j as [|i]; [lia|]. destruct (ti_positions input !! S i) as [p|] eqn:Ep.
  - assert (p = q) as ->.
    { unfold pools in Hq. rewrite (lookup_app_l_Some _ _ _ _ Ep) in Hq. by injection Hq. }
    destruct (transit_config i q x n c a Hx Ep Hn Hl Hu) as (cfg & os & Hcfg & Hlv & Hos).
    rewrite (one_step (S i) q n x c cfg os path Ep Hn Hx Hcfg Hlv Hos).
    pose proof (pools_next input (S i) q x Ep) as Hnext. rewrite (drop_S _ _ _ Hnext).
    assert (∀ m rest, m ∈ next_pool (S i) x → travels m (arrive (linkClientEmail (td_tag x) n) c) rest ↔
      ∃ rest', rest = m :: rest' ∧ picks (drop (S (S (S i))) (pools x)) rest') as Hm.
    { intros m rest Hm. apply (IH (length (pools x) - S (S i))%nat ltac:(lia) (S (S i)) (next_pool (S i) x) m _ _ n); try done.
      - lia.
      - by apply (leg_from_position input Hs (S i) q). }
    split; [intros (m & rest & H1 & -> & H2)|intros (rest & -> & H2)].
    + apply Hm in H2 as (rest' & -> & H2); [|done]. exists (m :: rest'). split; [done|]. by constructor.
    + inversion H2 as [|? m ? rest' H1 H3]; subst. exists m, (m :: rest'). split; [done|]. split; [done|].
      apply Hm; [done|]. by exists rest'.
  - apply lookup_ge_None in Ep. assert (q = td_nodeIds x ∧ S i = length (ti_positions input)) as [-> E].
    { unfold pools in *. rewrite lookup_app_r in Hq by done. rewrite length_app in Hlt. simpl in Hlt.
      replace (S i - length (ti_positions input))%nat with 0%nat in Hq by lia. injection Hq as <-. split; [done|lia]. }
    rewrite (exit_step x n c path a Hx Hn Hl Hc).
    rewrite drop_ge by (unfold pools; rewrite length_app; simpl; lia). split.
    + intros ->. exists []. by split; [|constructor].
    + intros (rest & -> & H). by apply Forall2_nil_inv_l in H as ->.
Qed.

(** The way through a cascade.  A connection that carries a direction's tag
    and that the entry neither blocks, gates nor lets out by policy can be
    carried along a list of nodes, by the configurations as drawn, exactly when
    the list starts at the entry, has one node of every later position in
    order, and ends with a node of the direction's own pool, where it leaves
    for the internet.  So it never leaves on the way, never in another
    direction's country, never stops, and every member of a pool is in use. *)
Theorem journey p n c o x path : x ∈ ti_directions input → ti_positions input !! 0%nat = Some p → n ∈ p →
  profile input o → c_network c ∈ ["tcp"; "udp"] → c_route c = Some (routeTag o (td_tag x - 1)) →
  quic c = false → closed_to (input_at n) c (routeTag o (td_tag x - 1)) = false →
  policy_way isIP isRegExp input o c = None →
  travels n c path ↔ ∃ rest, path = n :: rest ∧ picks (tail (pools x)) rest.
Proof.
  intros Hx Hp Hn Ho Hnet Hroute Hquic Hopen Hpol. pose proof (here_position 0 p n x Hp Hn Hx) as Hh.
  assert (∃ cfg, config n = Ok (Some cfg)) as [cfg Hcfg].
  { apply elem_of_here in Hh as [(l & Hl & _)|Hf].
    - apply list_elem_of_filter in Hl as [Hf Hl]. eapply config_of; [done|by left].
    - rewrite no_foreign in Hf. by apply not_elem_of_nil in Hf. }
  pose proof (entry_leaves isIP isRegExp n (input_at n) cfg c o (td_tag x) (whole_legal Hw n) (role_entry p n Hp Hn) Hcfg
    Ho Hh Hnet Hroute) as Hlv.
  rewrite Hquic, Hopen, (no_handover n : handover n (input_at n) = None) in Hlv.
  rewrite (Hpol : policy_way isIP isRegExp (input_at n) o c = None) in Hlv. destruct Hlv as (os & Hlv & Hos).
  rewrite (one_step 0 p n x c cfg os path Hp Hn Hx Hcfg Hlv Hos).
  pose proof (pools_next input 0 p x Hp) as Hnext.
  assert (tail (pools x) = drop 1 (pools x)) as -> by by destruct (pools x). rewrite (drop_S _ _ _ Hnext).
  assert (∀ m rest, m ∈ next_pool 0 x → travels m (arrive (linkClientEmail (td_tag x) n) c) rest ↔
    ∃ rest', rest = m :: rest' ∧ picks (drop 2 (pools x)) rest') as Hm.
  { intros m rest Hm. apply (way_on x (length (pools x) - 1) 1 (next_pool 0 x) m _ _ n); try done; [lia|].
    by apply (leg_from_position input Hs 0 p). }
  split; [intros (m & rest & H1 & -> & H2)|intros (rest & -> & H2)].
  - apply Hm in H2 as (rest' & -> & H2); [|done]. exists (m :: rest'). split; [done|]. by constructor.
  - inversion H2 as [|? m ? rest' H1 H3]; subst. exists m, (m :: rest'). split; [done|]. split; [done|].
    apply Hm; [done|]. by exists rest'.
Qed.
End Journey.

(** ** The example cascade is whole. *)
Lemma ex_host n h : host_of ex_input n = Some h → (n, h) ∈ ti_hosts ex_input.
Proof.
  unfold host_of. destruct (jm_get n (ti_hosts ex_input)) as [h'|] eqn:E; [|done]. simpl. case_bool_decide; [done|].
  intros [= <-]. by apply jm_get_Some_elem.
Qed.

Lemma ex_shape : shape ex_input.
Proof.
  constructor.
  - by apply (bool_decide_unpack _).
  - by repeat constructor.
  - intros a b x Hx. split.
    + intros (l & Hl & <- & <- & Ht). simpl in Hl, Hx. unfold leg_between.
      each_in Hl; each_in Hx; try done; first
        [ left; exists 0%nat, ["e"], ["t"]; by repeat split; try left
        | right; exists ["t"]; split; [done|]; split; [by left|]; simpl; set_solver ].
    + intros [(i & p & q & Hp & Hq & Ha & Hb)|(p & Hp & Ha & Hb)].
      * destruct i as [|[|i]]; [|done|done]. injection Hp as <-. injection Hq as <-.
        each_in Ha. each_in Hb. simpl in Hx. each_in Hx.
        -- exists (ex_leg "e" "t" 1 24000 "u1"). split; [by left|done].
        -- exists (ex_leg "e" "t" 2 24000 "u2"). split; [by right; left|done].
      * injection Hp as <-. each_in Ha. simpl in Hx. each_in Hx; simpl in Hb; each_in Hb.
        -- exists (ex_leg "t" "x" 1 24001 "u3"). split; [simpl; set_solver|done].
        -- exists (ex_leg "t" "y" 1 24001 "u4"). split; [simpl; set_solver|done].
        -- exists (ex_leg "t" "z" 2 24001 "u5"). split; [simpl; set_solver|done].
Qed.

Lemma ex_whole : whole ex_input (λ _, ti_entryUserGate ex_input) (host_of ex_input).
Proof.
  constructor.
  - intros n. apply ex_legal.
  - exact ex_shape.
  - intros n Hn. simpl in Hn. each_in Hn; by eexists.
  - done.
  - intros n m h Hn Hm. apply ex_host in Hn, Hm.
    assert (NoDup (ti_hosts ex_input).*2) as Hnd by by apply (bool_decide_unpack _).
    apply list_elem_of_lookup in Hn as [i Hi], Hm as [k Hk].
    assert (i = k) as ->; [|congruence]. eapply NoDup_lookup; [exact Hnd| |].
    + by rewrite list_lookup_fmap, Hi.
    + by rewrite list_lookup_fmap, Hk.
  - intros n. unfold one_listener, incoming.
    assert (∀ l, l ∈ filter (λ l, tl_to l = n) (ti_links ex_input) → tl_to l = n ∧ l ∈ ti_links ex_input) as Hin.
    { intros l Hl. by apply list_elem_of_filter in Hl. }
    split; [|split].
    + intros l l' Hl Hl'. apply Hin in Hl as [Ht Hl], Hl' as [Ht' Hl']. simpl in Hl, Hl'.
      each_in Hl; each_in Hl'; simpl in *; try done; congruence.
    + intros l l' Hl Hl' Es. apply Hin in Hl as [_ Hl], Hl' as [_ Hl']. simpl in Hl, Hl'.
      each_in Hl; each_in Hl'; done.
    + intros l Hl. apply Hin in Hl as [_ Hl]. simpl in Hl. by each_in Hl.
  - split; [|done]. intros d Hd. simpl in Hd. by each_in Hd.
Qed.

Theorem journey_witness :
  let goes := travels (drawn (λ _, 0) (λ _, false) ex_input (λ _, ti_entryUserGate ex_input)) (host_of ex_input) "e" (ex_connection (routeTag 1 0) "ann") in
  goes ["e"; "t"; "x"] ∧ goes ["e"; "t"; "y"] ∧ ¬ goes ["e"; "t"; "z"] ∧ ¬ goes ["e"; "t"] ∧ ¬ goes ["e"].
Proof.
  cbv zeta. rewrite !(journey (λ _, 0) (λ _, false) ex_input _ _ ex_whole ["e"] "e" _ 1 ex_first);
    try first [by left | done | by vm_compute | right; by left].
  assert (∀ rest, picks (tail (pools ex_input ex_first)) rest → rest = ["t"; "x"] ∨ rest = ["t"; "y"]) as Hp.
  { intros rest H. unfold picks, pools in H. simpl in H.
    inversion H as [|? m ? r H1 H2]; subst. inversion H2 as [|? m' ? r' H3 H4]; subst.
    apply Forall2_nil_inv_l in H4 as ->. each_in H1. each_in H3; [by left|by right]. }
  split; [eexists; split; [done|]; repeat constructor; set_solver|].
  split; [eexists; split; [done|]; repeat constructor; set_solver|].
  split; [|split]; intros (rest & E & H); apply Hp in H as [->| ->]; discriminate E.
Defined.
