(* ===== verification/CascadeExclusive.v ===== *)
(** Who holds a node (apps/panel-backend/src/modules/cascades/cascade-exclusive.ts).

    A node runs one chain, so of the enabled cascades that name it one holds
    it: the oldest, by [CASCADE_OWNERSHIP_ORDER].  A cascade is kept as the
    node ids of its hops, of its positions' pools and of its directions' pools,
    which is all that [memberSelect] reads.  Ids are uuids: Postgres orders
    them as their text.  The world holds the table, the nodes' names and the
    module's cache. *)

From S2P Require Import Prelude Js Calls CascadeValidation.

Local Open Scope string_scope.
Local Open Scope list_scope.
Local Open Scope Z_scope.
Local Open Scope prog_scope.

(** ** The table *)
Record Cascade := mkCascade {
  c_id : string;
  c_name : string;
  c_createdAt : Z;
  c_enabled : bool;
  c_mode : mode;
  c_hops : list string;
  c_positions : list (list string);
  c_directions : list (list string)
}.

#[global] Instance Cascade_eq_dec : EqDecision Cascade.
Proof. solve_decision. Defined.

Record world := mkWorld {
  cascades : list Cascade;
  nodes : gmap string string;                  (* a node's name *)
  deadCache : option (list string * Z)         (* ids, expiresAt *)
}.

Inductive save_error :=
  | NodeInOtherCascade (nodeName cascadeId cascadeName : string)
  | Invalid (e : validation_error)
  | NameTaken (n : string)
  | CascadeNotFound (id : string)
  | InternalError.

Abbreviation io := (prog world save_error).

(** [CASCADE_OWNERSHIP_ORDER], as the comparison of a sort. *)
Definition CASCADE_OWNERSHIP_ORDER (a b : Cascade) : bool :=
  (c_createdAt a <? c_createdAt b) ||
  ((c_createdAt a =? c_createdAt b) && str_leb (c_id a) (c_id b)).

Definition memberWhere (nodeIds : list string) (c : Cascade) : bool :=
  let named n := bool_decide (n ∈ nodeIds) in
  existsb named (c_hops c) || existsb (existsb named) (c_positions c) ||
  existsb (existsb named) (c_directions c).

Definition membersOf (c : Cascade) : list string :=
  js_uniq (c_hops c ++ mjoin (c_positions c) ++ mjoin (c_directions c)).

(** ** The gate of a save *)
Definition others (selfId : option string) (nodeIds : list string) (t : list Cascade) : list Cascade :=
  sort_by CASCADE_OWNERSHIP_ORDER
    (filter (λ c, c_enabled c && (negb (truthy selfId) || negb (bool_decide (Some (c_id c) = selfId))) &&
                  memberWhere nodeIds c = true) t).

Definition shared_node (nodeIds : list string) (other : Cascade) : option string :=
  js_find (λ n, bool_decide (n ∈ membersOf other)) nodeIds.

Fixpoint refuse_first (nodeIds : list string) (os : list Cascade) : io unit :=
  match os with
  | [] => Ret tt
  | other :: os =>
      let shared := shared_node nodeIds other in
      if truthy shared then
        await node <- call (λ _ w, (nodes w !! default "" shared, w));
        Raise (NodeInOtherCascade (default (default "" shared) node) (c_id other) (c_name other))
      else refuse_first nodeIds os
  end.

Definition assertNodesInNoOtherCascade (selfId : option string) (nodeIds : list string) : io unit :=
  if decide (nodeIds = []) then Ret tt
  else
    await os <- call (λ _ w, (others selfId nodeIds (cascades w), w));
    refuse_first nodeIds os.

(** ** Ownership *)
Record OwnershipPair := mkPair {
  op_nodeId : string;
  op_ownerId : string;
  op_ownerName : string;
  op_deadId : string;
  op_deadName : string
}.

(** The loop's [owner] map and its [pairs]. *)
Abbreviation owning := (list (string * (string * string)) * list OwnershipPair)%type.

Definition own_node (c : Cascade) (st : owning) (nodeId : string) : owning :=
  let '(owner, pairs) := st in
  match jm_get nodeId owner with
  | None => (jm_set nodeId (c_id c, c_name c) owner, pairs)
  | Some (ownerId, ownerName) =>
      (owner, pairs ++ [mkPair nodeId ownerId ownerName (c_id c) (c_name c)])
  end.

Definition own_cascade (st : owning) (c : Cascade) : owning := foldl (own_node c) st (membersOf c).

Definition enabled_in_order (t : list Cascade) : list Cascade :=
  sort_by CASCADE_OWNERSHIP_ORDER (filter (λ c, c_enabled c = true) t).

Definition pairs_of (t : list Cascade) : list OwnershipPair :=
  (foldl own_cascade ([], []) (enabled_in_order t)).2.

Definition ownershipPairs : io (list OwnershipPair) :=
  await cs <- call (λ _ w, (enabled_in_order (cascades w), w));
  Ret (foldl own_cascade ([], []) cs).2.

(** ** The dead set and its cache *)
Definition DEAD_TTL_MS : Z := 60000.

Definition set_cache (v : option (list string * Z)) (w : world) : world :=
  mkWorld (cascades w) (nodes w) v.

Definition invalidateDeadCascadeCache : io unit := call (λ _ w, (tt, set_cache None w)).

(** What the cache answers now. *)
Definition cached (now : Z) (w : world) : option (list string) :=
  match deadCache w with
  | Some (ids, expiresAt) => if now <? expiresAt then Some ids else None
  | None => None
  end.

Definition deadCascadeIdsNow : io (list string) :=
  await pairs <- ownershipPairs;
  Ret (js_uniq (op_deadId <$> pairs)).

Definition deadCascadeIds : io (list string) :=
  await hit <- call (λ now w, (cached now w, w));
  match hit with
  | Some ids => Ret ids
  | None =>
      await pairs <- ownershipPairs;
      let ids := js_uniq (op_deadId <$> pairs) in
      await_ call (λ now w, (tt, set_cache (Some (ids, now + DEAD_TTL_MS)) w));
      Ret ids
  end.

Definition nodesOfCascades (ids : list string) : io (list string) :=
  if decide (ids = []) then Ret []
  else
    await rows <- call (λ _ w, (filter (λ c, c_id c ∈ ids) (cascades w), w));
    Ret (js_uniq (rows ≫= membersOf)).

(** ** The start-up report *)
Record CascadeNodeConflict := mkConflict {
  nodeName : string;
  ownerCascade : string;
  deadCascade : string
}.

Definition findCascadeNodeConflicts : io (list CascadeNodeConflict) :=
  await pairs <- ownershipPairs;
  if decide (pairs = []) then Ret []
  else
    await nameOf <- call (λ _ w, (filter (λ kv, kv.1 ∈ op_nodeId <$> pairs) (nodes w), w));
    Ret ((λ p, mkConflict (default (op_nodeId p) (nameOf !! op_nodeId p)) (op_ownerName p) (op_deadName p)) <$> pairs).

(** ** Members and the order *)
Definition has_member (c : Cascade) (n : string) : Prop := n ∈ membersOf c.

#[global] Instance has_member_dec c n : Decision (has_member c n).
Proof. unfold has_member. apply _. Defined.

(** Two cascades name a common node. *)
Definition share (a b : Cascade) : Prop := ∃ n, has_member a n ∧ has_member b n.

Definition older (a b : Cascade) : Prop :=
  c_createdAt a < c_createdAt b ∨ (c_createdAt a = c_createdAt b ∧ str_ltb (c_id a) (c_id b) = true).

Lemma elem_of_members c n :
  n ∈ membersOf c ↔ n ∈ c_hops c ∨ (∃ ns, ns ∈ c_positions c ∧ n ∈ ns) ∨ (∃ ns, ns ∈ c_directions c ∧ n ∈ ns).
Proof.
  unfold membersOf. rewrite elem_of_js_uniq, !elem_of_app, !list_elem_of_join. naive_solver.
Qed.

Lemma NoDup_members c : NoDup (membersOf c).
Proof. apply NoDup_js_uniq. Qed.

(** The database's filter is the code's. *)
Lemma memberWhere_spec ns c : memberWhere ns c = true ↔ ∃ n, n ∈ ns ∧ has_member c n.
Proof.
  unfold memberWhere, has_member. setoid_rewrite elem_of_members.
  rewrite !orb_true_iff, !existsb_exists. setoid_rewrite existsb_exists.
  setoid_rewrite bool_decide_eq_true. setoid_rewrite <-list_elem_of_In. naive_solver.
Qed.

Lemma order_older a b : CASCADE_OWNERSHIP_ORDER a b = true ↔ older a b ∨ (c_createdAt a = c_createdAt b ∧ c_id a = c_id b).
Proof.
  unfold CASCADE_OWNERSHIP_ORDER, older, str_leb.
  rewrite orb_true_iff, andb_true_iff, negb_true_iff, Z.ltb_lt, Z.eqb_eq. split.
  - intros [?|[? H]]; [by left; left|]. destruct (str_ltb (c_id a) (c_id b)) eqn:E; [by left; right|].
    right. split; [done|]. by apply str_ltb_trichotomy.
  - intros [[?|[? H]]|[? H]]; [by left|right; split; [done|]..].
    + by apply str_ltb_asym.
    + rewrite H. apply str_ltb_irrefl.
Qed.

Lemma older_irrefl a : ¬ older a a.
Proof. intros [?|[_ H]]; [lia|]. by rewrite str_ltb_irrefl in H. Qed.

Lemma older_asym a b : older a b → ¬ older b a.
Proof.
  intros [?|[? H]] [?|[? H']]; try lia. rewrite (str_ltb_asym _ _ H) in H'. done.
Qed.

Lemma older_total a b : c_id a ≠ c_id b → older a b ∨ older b a.
Proof.
  intros Hne. unfold older. destruct (Z.lt_trichotomy (c_createdAt a) (c_createdAt b)) as [?|[?|?]]; [by left; left| |by right; left].
  destruct (str_ltb (c_id a) (c_id b)) eqn:E; [by left; right|]. right; right. split; [done|].
  destruct (str_ltb (c_id b) (c_id a)) eqn:E'; [done|]. exfalso. by apply Hne, str_ltb_trichotomy.
Qed.

Lemma order_total a b : CASCADE_OWNERSHIP_ORDER a b = false → CASCADE_OWNERSHIP_ORDER b a = true.
Proof.
  unfold CASCADE_OWNERSHIP_ORDER. destruct (Z.ltb_spec (c_createdAt a) (c_createdAt b)); [done|].
  destruct (Z.eqb_spec (c_createdAt a) (c_createdAt b)); simpl.
  - intros H'. rewrite (proj2 (Z.eqb_eq _ _)), (str_leb_total _ _ H') by done. by destruct (_ <? _).
  - intros _. by rewrite (proj2 (Z.ltb_lt _ _)) by lia.
Qed.

Lemma order_trans a b c :
  CASCADE_OWNERSHIP_ORDER a b = true → CASCADE_OWNERSHIP_ORDER b c = true → CASCADE_OWNERSHIP_ORDER a c = true.
Proof.
  unfold CASCADE_OWNERSHIP_ORDER. rewrite !orb_true_iff, !andb_true_iff, !Z.ltb_lt, !Z.eqb_eq.
  intros [?|[? H]] [?|[? H']]; [left; lia..|]. right. split; [lia|]. by eapply str_leb_trans.
Qed.

Lemma in_order_elem t c : c ∈ enabled_in_order t ↔ c ∈ t ∧ c_enabled c = true.
Proof. unfold enabled_in_order. rewrite elem_of_sort_by, list_elem_of_filter. tauto. Qed.

Lemma in_order_sorted t : StronglySorted (λ a b, CASCADE_OWNERSHIP_ORDER a b = true) (enabled_in_order t).
Proof. apply sort_by_sorted; [apply order_total|apply order_trans]. Qed.

Lemma in_order_ids t : NoDup (c_id <$> t) → NoDup (c_id <$> enabled_in_order t).
Proof.
  intros H. unfold enabled_in_order. rewrite (fmap_Permutation c_id _ _ (sort_by_perm _ _)).
  by apply NoDup_fmap_filter.
Qed.

Lemma id_unique t a b : NoDup (c_id <$> t) → a ∈ t → b ∈ t → c_id a = c_id b → a = b.
Proof. apply NoDup_fmap_elem. Qed.

(** Before it in the order is older, and the other way round. *)
Lemma in_order_older t cs1 d cs2 o :
  NoDup (c_id <$> t) → enabled_in_order t = cs1 ++ d :: cs2 →
  o ∈ cs1 ↔ o ∈ t ∧ c_enabled o = true ∧ older o d.
Proof.
  intros Hnd E. pose proof (in_order_sorted t) as Hs. pose proof (in_order_ids t Hnd) as Hids.
  rewrite E in Hs, Hids. rewrite fmap_app, NoDup_app in Hids. destruct Hids as (_ & Hid & _).
  assert (∀ x, x ∈ cs1 → CASCADE_OWNERSHIP_ORDER x d = true) as H1.
  { intros x Hx. clear -Hs Hx. induction cs1 as [|y cs1 IH]; [set_solver|].
    apply StronglySorted_inv in Hs as [Hs Hy]. apply elem_of_cons in Hx as [->|Hx]; [|by apply IH].
    rewrite Forall_forall in Hy. apply Hy. set_solver. }
  assert (∀ x, x ∈ cs2 → CASCADE_OWNERSHIP_ORDER d x = true) as H2.
  { intros x Hx. apply StronglySorted_app_1_r in Hs. apply StronglySorted_inv in Hs as [_ Hs].
    rewrite Forall_forall in Hs. by apply Hs. }
  split.
  - intros Ho. assert (o ∈ enabled_in_order t) as Hin by (rewrite E; set_solver).
    apply in_order_elem in Hin as [??]. split; [done|]. split; [done|].
    destruct (proj1 (order_older o d) (H1 o Ho)) as [|[_ Heq]]; [done|].
    exfalso. apply (Hid (c_id o)); [by apply list_elem_of_fmap_2|]. rewrite fmap_cons, Heq. set_solver.
  - intros (Ht & He & Hold). assert (o ∈ enabled_in_order t) as Hin by (by apply in_order_elem).
    rewrite E in Hin. apply elem_of_app in Hin as [|[->|Ho]%elem_of_cons]; [done|by apply older_irrefl in Hold|].
    destruct (proj1 (order_older d o) (H2 o Ho)) as [Hold'|[Ht' Heq]]; [by apply older_asym in Hold'|].
    destruct Hold as [?|[_ Hlt]]; [lia|]. by rewrite Heq, str_ltb_irrefl in Hlt.
Qed.

(** ** Who owns a node *)
Definition owner_in (cs : list Cascade) (n : string) : option Cascade :=
  js_find (λ c, bool_decide (has_member c n)) cs.

(** The pairs a cascade adds, given who holds what before it. *)
Definition lost (held : string → option (string * string)) (c : Cascade) (ns : list string) : list OwnershipPair :=
  omap (λ n, (λ o, mkPair n o.1 o.2 (c_id c) (c_name c)) <$> held n) ns.

Lemma own_nodes_spec c ns owner pairs : NoDup ns →
  let st := foldl (own_node c) (owner, pairs) ns in
  (∀ n, jm_get n st.1 = match jm_get n owner with
                        | Some o => Some o
                        | None => if decide (n ∈ ns) then Some (c_id c, c_name c) else None
                        end) ∧
  st.2 = pairs ++ lost (λ n, jm_get n owner) c ns.
Proof.
  revert owner pairs. induction ns as [|m ns IH]; intros owner pairs Hnd; cbv zeta; simpl.
  - split; [|by rewrite app_nil_r]. intros n. by destruct (jm_get n owner).
  - apply NoDup_cons in Hnd as [Hm Hnd]. destruct (jm_get m owner) as [[oi on]|] eqn:Em; simpl.
    + destruct (IH owner (pairs ++ [mkPair m oi on (c_id c) (c_name c)]) Hnd) as [H1 H2].
      split; [|rewrite H2, <-app_assoc; done].
      intros n. rewrite H1. destruct (jm_get n owner) eqn:En; [done|].
      assert (n ≠ m) by congruence. do 2 case_decide; set_solver.
    + destruct (IH (jm_set m (c_id c, c_name c) owner) pairs Hnd) as [H1 H2]. split.
      * intros n. rewrite H1, jm_get_set. destruct (decide (n = m)) as [->|Hne].
        -- rewrite Em, decide_True by set_solver. done.
        -- destruct (jm_get n owner); [done|]. do 2 case_decide; set_solver.
      * rewrite H2. f_equal. unfold lost. apply list_omap_ext, Forall_Forall2_diag, Forall_forall. intros n Hn.
        rewrite jm_get_set_ne; [done|]. by intros ->.
Qed.

Lemma owner_in_app cs c n :
  owner_in (cs ++ [c]) n = match owner_in cs n with
                           | Some o => Some o
                           | None => if decide (has_member c n) then Some c else None
                           end.
Proof.
  unfold owner_in. rewrite js_find_app. destruct (js_find _ cs); [done|]. simpl.
  case_bool_decide; by case_decide.
Qed.

Lemma owning_spec cs :
  let st := foldl own_cascade ([], []) cs in
  (∀ n, jm_get n st.1 = (λ o, (c_id o, c_name o)) <$> owner_in cs n) ∧
  (∀ p, p ∈ st.2 ↔ ∃ cs1 d cs2 o n, cs = cs1 ++ d :: cs2 ∧ owner_in cs1 n = Some o ∧ has_member d n ∧
                     p = mkPair n (c_id o) (c_name o) (c_id d) (c_name d)).
Proof.
  cbv zeta. induction cs as [|c cs [IH1 IH2]] using rev_ind.
  - split; [done|]. intros p. simpl. split; [set_solver|]. intros (cs1 & ? & ? & ? & ? & E & _). by destruct cs1.
  - rewrite foldl_app. simpl. unfold own_cascade at 1 3. destruct (foldl own_cascade ([], []) cs) as [owner pairs].
    simpl in IH1, IH2. destruct (own_nodes_spec c (membersOf c) owner pairs (NoDup_members c)) as [H1 H2]. split.
    + intros n. rewrite H1, IH1, owner_in_app. unfold has_member. destruct (owner_in cs n); [done|]. simpl.
      by repeat case_decide.
    + intros p. rewrite H2, elem_of_app, IH2. unfold lost. rewrite list_elem_of_omap. split.
      * intros [(cs1 & d & cs2 & o & n & -> & ? & ? & ->)|(n & Hn & Hp)].
        -- exists cs1, d, (cs2 ++ [c]), o, n. by rewrite <-app_assoc.
        -- rewrite IH1 in Hp. destruct (owner_in cs n) as [o|] eqn:Eo; [|done]. injection Hp as <-.
           by exists cs, c, [], o, n.
      * intros (cs1 & d & cs2 & o & n & E & Ho & Hn & ->). destruct cs2 as [|d' cs2 _] using rev_ind.
        -- apply app_inj_tail in E as [-> ->]. right. exists n. split; [done|]. by rewrite IH1, Ho.
        -- rewrite app_comm_cons, app_assoc in E. apply app_inj_tail in E as [-> ->]. left.
           by exists cs1, d, cs2, o, n.
Qed.

(** ** The dead *)
Definition dead_ids (t : list Cascade) : list string := js_uniq (op_deadId <$> pairs_of t).

Definition live (t : list Cascade) (c : Cascade) : Prop := c ∈ t ∧ c_enabled c = true ∧ c_id c ∉ dead_ids t.

Lemma dead_iff t d : NoDup (c_id <$> t) → d ∈ t →
  c_id d ∈ dead_ids t ↔ c_enabled d = true ∧ ∃ o, o ∈ t ∧ c_enabled o = true ∧ older o d ∧ share o d.
Proof.
  intros Hnd Hd. unfold dead_ids. rewrite elem_of_js_uniq, list_elem_of_fmap.
  unfold pairs_of. destruct (owning_spec (enabled_in_order t)) as [_ H]. setoid_rewrite H. clear H. split.
  - intros (p & Hid & cs1 & d' & cs2 & o & n & E & Ho & Hn & ->). simpl in Hid.
    assert (d' ∈ enabled_in_order t) as [Ht' He']%in_order_elem by (rewrite E; set_solver).
    assert (d' = d) as -> by (by apply (id_unique t)). split; [done|].
    apply js_find_Some in Ho as [Hin Hn']. bool_prop.
    apply (in_order_older t _ _ _ o Hnd E) in Hin as (? & ? & ?). exists o. repeat split; [done..|]. by exists n.
  - intros (He & o & Ho & Heo & Hold & n & Hn & Hn').
    assert (d ∈ enabled_in_order t) as Hin by (by apply in_order_elem).
    apply list_elem_of_split in Hin as (cs1 & cs2 & E).
    assert (o ∈ cs1) as Ho1 by (by apply (in_order_older t _ _ _ o Hnd E)).
    destruct (owner_in cs1 n) as [o'|] eqn:Eo.
    + exists (mkPair n (c_id o') (c_name o') (c_id d) (c_name d)). split; [done|].
      by exists cs1, d, cs2, o', n.
    + exfalso. unfold owner_in in Eo. rewrite js_find_None in Eo. specialize (Eo o Ho1). by bool_prop.
Qed.

Lemma live_disjoint t a b : NoDup (c_id <$> t) → live t a → live t b → share a b → a = b.
Proof.
  intros Hnd (Ha & Hae & Hal) (Hb & Hbe & Hbl) Hs. destruct (decide (c_id a = c_id b)) as [|Hne]; [by apply (id_unique t)|].
  exfalso. destruct (older_total a b Hne) as [Ho|Ho].
  - apply Hbl, dead_iff; [done..|]. split; [done|]. by exists a.
  - apply Hal, dead_iff; [done..|]. split; [done|]. exists b. repeat split; [done..|].
    destruct Hs as (n & ? & ?). by exists n.
Qed.

Lemma no_dead_iff t : NoDup (c_id <$> t) →
  dead_ids t = [] ↔ ∀ a b, a ∈ t → b ∈ t → c_enabled a = true → c_enabled b = true → share a b → a = b.
Proof.
  intros Hnd. split.
  - intros E a b Ha Hb Hae Hbe Hs. apply (live_disjoint t); [done|..|done]; unfold live; rewrite E; set_solver.
  - intros H. destruct (dead_ids t) as [|i l] eqn:E; [done|]. exfalso.
    assert (i ∈ dead_ids t) as Hi by (rewrite E; set_solver). pose proof Hi as Hi'.
    unfold dead_ids in Hi'. rewrite elem_of_js_uniq, list_elem_of_fmap in Hi'. destruct Hi' as (p & -> & Hp).
    apply owning_spec in Hp as (cs1 & d & cs2 & o & n & Ed & _ & _ & ->). simpl in Hi.
    assert (d ∈ enabled_in_order t) as [Hd Hde]%in_order_elem by (rewrite Ed; set_solver).
    apply dead_iff in Hi as (_ & o' & Ho & Hoe & Hold & Hs); [|done..].
    rewrite (H o' d) in Hold by done. by apply older_irrefl in Hold.
Qed.

Lemma elem_of_dead_ids t i : i ∈ dead_ids t ↔ ∃ p, i = op_deadId p ∧ p ∈ pairs_of t.
Proof. unfold dead_ids. by rewrite elem_of_js_uniq, list_elem_of_fmap. Qed.

(** The start-up report names the dead cascades. *)
Lemma report_run w now : NoDup (c_id <$> cascades w) → ∃ report,
  run findCascadeNodeConflicts now w = (Ok report, w) ∧
  ∀ nm, nm ∈ deadCascade <$> report ↔
    ∃ d, d ∈ cascades w ∧ c_id d ∈ dead_ids (cascades w) ∧ c_name d = nm.
Proof.
  intros Hid. exists ((λ p, mkConflict (default (op_nodeId p) (filter (λ kv, kv.1 ∈ op_nodeId <$> pairs_of (cascades w)) (nodes w) !! op_nodeId p))
    (op_ownerName p) (op_deadName p)) <$> pairs_of (cascades w)). split.
  - unfold findCascadeNodeConflicts, ownershipPairs. simpl. fold (pairs_of (cascades w)).
    case_decide as E; [by rewrite E|done].
  - intros nm. rewrite <-list_fmap_compose, list_elem_of_fmap. setoid_rewrite elem_of_dead_ids. split.
    + intros (p & -> & Hp). pose proof Hp as (cs1 & d & cs2 & o & n & E & _ & _ & ->)%owning_spec. simpl in *.
      assert (d ∈ enabled_in_order (cascades w)) as [Hd _]%in_order_elem by (rewrite E; set_solver).
      exists d. split; [done|]. split; [|done]. eexists. by split; [|exact Hp].
    + intros (d & Hd & (p & Hi & Hp) & <-). exists p. split; [|done].
      pose proof Hp as (cs1 & d' & cs2 & o & n & E & _ & _ & ->)%owning_spec. simpl in *.
      assert (d' ∈ enabled_in_order (cascades w)) as [Hd' _]%in_order_elem by (rewrite E; set_solver).
      by rewrite (id_unique (cascades w) d d').
Qed.

(** The oldest enabled cascade is alive. *)
Lemma some_live t a : NoDup (c_id <$> t) → a ∈ t → c_enabled a = true →
  ∃ o, o ∈ t ∧ c_enabled o = true ∧ c_id o ∉ dead_ids t.
Proof.
  intros Hid Ha Hae. assert (a ∈ enabled_in_order t) as Hin by (by apply in_order_elem).
  destruct (enabled_in_order t) as [|o cs] eqn:E; [set_solver|].
  assert (o ∈ enabled_in_order t) as [Ho Hoe]%in_order_elem by (rewrite E; set_solver).
  exists o. split; [done|]. split; [done|]. intros (_ & o' & Ho' & Hoe' & Hold & _)%dead_iff; [|done..].
  assert (o' ∈ []) as Hn by (by apply (in_order_older t [] o cs)). set_solver.
Qed.

(** ** The gate *)
Definition another (selfId : option string) (c : Cascade) : Prop :=
  truthy selfId = true → Some (c_id c) ≠ selfId.

Definition conflicts (selfId : option string) (ns : list string) (t : list Cascade) (c : Cascade) : Prop :=
  c ∈ t ∧ c_enabled c = true ∧ another selfId c ∧ ∃ n, n ∈ ns ∧ has_member c n.

Lemma elem_of_others selfId ns t c : c ∈ others selfId ns t ↔ conflicts selfId ns t c.
Proof.
  unfold others, conflicts, another. rewrite elem_of_sort_by, list_elem_of_filter, <-memberWhere_spec.
  rewrite !andb_true_iff, orb_true_iff, !negb_true_iff, bool_decide_eq_false.
  destruct (truthy selfId); naive_solver.
Qed.

Lemma js_find_first {A} (f : A → bool) xs x : js_find f xs = Some x →
  ∃ l1 l2, xs = l1 ++ x :: l2 ∧ ∀ y, y ∈ l1 → f y = false.
Proof.
  induction xs as [|y xs IH]; simpl; [done|]. destruct (f y) eqn:E.
  - intros [= ->]. exists [], xs. split; [done|set_solver].
  - intros H. destruct (IH H) as (l1 & l2 & -> & Hl). exists (y :: l1), l2. split; [done|].
    intros z [->|?]%elem_of_cons; auto.
Qed.

Lemma refuse_first_run ns os now w : "" ∉ ns → (∀ o, o ∈ os → ∃ n, n ∈ ns ∧ has_member o n) →
  run (refuse_first ns os) now w =
  match os with
  | [] => (Ok tt, w)
  | o :: _ =>
      let n := default "" (shared_node ns o) in
      (Throw (NodeInOtherCascade (default n (nodes w !! n)) (c_id o) (c_name o)), w)
  end.
Proof.
  intros Hne Hos. destruct os as [|o os]; [done|]. simpl.
  destruct (shared_node ns o) as [n|] eqn:E.
  - apply js_find_Some in E as [Hn _]. assert (truthy (Some n) = true) as -> by (destruct n; [done|done]). done.
  - exfalso. destruct (Hos o) as (n & Hn & Hm); [set_solver|].
    unfold shared_node in E. rewrite js_find_None in E. specialize (E n Hn). by bool_prop.
Qed.

Lemma sorted_head o os t : StronglySorted (λ a b, CASCADE_OWNERSHIP_ORDER a b = true) (o :: os) →
  t ∈ o :: os → CASCADE_OWNERSHIP_ORDER o t = true.
Proof.
  intros [_ H]%StronglySorted_inv [->|Ht]%elem_of_cons; [|rewrite Forall_forall in H; auto].
  apply order_older. by right.
Qed.

(** The verdict of the gate, as a specification. *)
Definition gate_spec (selfId : option string) (ns : list string) (w : world) (r : result save_error unit) : Prop :=
  match r with
  | Ok _ => ∀ c, ¬ conflicts selfId ns (cascades w) c
  | Throw e => ∃ o n l1 l2,
      e = NodeInOtherCascade (default n (nodes w !! n)) (c_id o) (c_name o) ∧
      conflicts selfId ns (cascades w) o ∧ has_member o n ∧
      ns = l1 ++ n :: l2 ∧ (∀ m, m ∈ l1 → ¬ has_member o m) ∧
      ∀ c, conflicts selfId ns (cascades w) c → CASCADE_OWNERSHIP_ORDER o c = true
  end.

Lemma gate_run selfId ns now w : "" ∉ ns →
  ∃ r, run (assertNodesInNoOtherCascade selfId ns) now w = (r, w) ∧ gate_spec selfId ns w r.
Proof.
  intros Hne. unfold assertNodesInNoOtherCascade. case_decide as Hns.
  { subst. exists (Ok tt). split; [done|]. intros c (_ & _ & _ & n & Hn & _). set_solver. }
  assert (∀ o, o ∈ others selfId ns (cascades w) → ∃ n, n ∈ ns ∧ has_member o n) as Hos.
  { by intros o (_ & _ & _ & ?)%elem_of_others. }
  rewrite run_bind, run_call. simpl. rewrite refuse_first_run by done.
  assert (StronglySorted (λ a b, CASCADE_OWNERSHIP_ORDER a b = true) (others selfId ns (cascades w))) as Hs
    by (apply sort_by_sorted; [apply order_total|apply order_trans]).
  destruct (others selfId ns (cascades w)) as [|o os] eqn:E; eexists; (split; [reflexivity|]).
  { intros c Hc%elem_of_others. rewrite E in Hc. set_solver. }
  assert (conflicts selfId ns (cascades w) o) as Ho by (apply elem_of_others; rewrite E; set_solver).
  destruct (shared_node ns o) as [n|] eqn:En.
  - pose proof (js_find_first _ _ _ En) as (l1 & l2 & El & Hl). apply js_find_Some in En as [_ Hn]. bool_prop.
    exists o, n, l1, l2. split; [done|]. split; [done|]. split; [done|]. split; [done|]. split.
    + intros m Hm%Hl. by bool_prop.
    + intros c Hc%elem_of_others. rewrite E in Hc. by apply (sorted_head o os).
  - exfalso. destruct Ho as (_ & _ & _ & n & Hn & Hm). unfold shared_node in En. rewrite js_find_None in En.
    specialize (En n Hn). by bool_prop.
Qed.

(** ** Properties *)

(** Of the enabled cascades those the panel treats as dead are exactly the
    ones that share a node with an older enabled cascade; the others share no
    node with one another, and the oldest is never dead.  The start-up report
    names the same cascades. *)
Theorem live_cascades_disjoint w now (Hid : NoDup (c_id <$> cascades w)) :
  let t := cascades w in
  ∃ ids report,
    run deadCascadeIdsNow now w = (Ok ids, w) ∧
    run findCascadeNodeConflicts now w = (Ok report, w) ∧
    (∀ d, d ∈ t → c_id d ∈ ids ↔
       c_enabled d = true ∧ ∃ o, o ∈ t ∧ c_enabled o = true ∧ older o d ∧ share o d) ∧
    (∀ a b, a ∈ t → b ∈ t → c_enabled a = true → c_enabled b = true →
       c_id a ∉ ids → c_id b ∉ ids → share a b → a = b) ∧
    (∀ a, a ∈ t → c_enabled a = true → ∃ o, o ∈ t ∧ c_enabled o = true ∧ c_id o ∉ ids) ∧
    (∀ nm, nm ∈ deadCascade <$> report ↔ ∃ d, d ∈ t ∧ c_id d ∈ ids ∧ c_name d = nm).
Proof.
  cbv zeta. destruct (report_run w now Hid) as (report & Hr & Hn).
  exists (dead_ids (cascades w)), report. split; [done|]. split; [done|].
  split; [by intros; apply dead_iff|]. split; [|split; [|done]].
  - intros a b ??????. by apply (live_disjoint (cascades w)).
  - intros a Ha Hae. by eapply some_live.
Qed.

(** A save that would leave an enabled cascade on a node of another enabled
    one is refused, and only such a save: the answer names the oldest cascade
    in the way and the first node of the payload that it holds. *)
Theorem gate_verdict selfId ns now w (Hne : "" ∉ ns) :
  ∃ r, run (assertNodesInNoOtherCascade selfId ns) now w = (r, w) ∧ gate_spec selfId ns w r.
Proof. by apply gate_run. Qed.

(** ** Examples *)
Definition sample (i : string) (at_ : Z) (on : bool) (ns : list string) : Cascade :=
  mkCascade i ("cascade " +:+ i)%string at_ on chain ns [] [].

Definition sample_fleet : list Cascade :=
  [sample "c" 3 true ["n2"; "n3"]; sample "a" 1 true ["n1"; "n2"]; sample "d" 0 false ["n1"]; sample "b" 1 true ["n3"]].

Lemma live_cascades_disjoint_witness :
  NoDup (c_id <$> sample_fleet) ∧
  (run deadCascadeIdsNow 0 (mkWorld sample_fleet ∅ None)).1 = Ok ["c"] ∧
  ∃ o, o ∈ sample_fleet ∧ c_enabled o = true ∧ c_id o ∉ dead_ids sample_fleet.
Proof.
  assert (NoDup (c_id <$> sample_fleet)) as H by (vm_compute; repeat constructor; set_solver).
  split; [done|]. split; [vm_compute; reflexivity|].
  destruct (live_cascades_disjoint (mkWorld sample_fleet ∅ None) 0 H) as (ids & report & Hr & _ & _ & _ & Hl & _).
  assert (ids = dead_ids sample_fleet) as -> by (vm_compute in Hr |- *; congruence).
  apply (Hl (sample "a" 1 true ["n1"; "n2"])); [set_solver|done].
Defined.

Lemma gate_verdict_witness :
  (run (assertNodesInNoOtherCascade (Some "c") ["n4"; "n3"]) 0 (mkWorld sample_fleet {["n3" := "Oslo"]} None)).1 =
    Throw (NodeInOtherCascade "Oslo" "b" "cascade b") ∧
  ∃ r, run (assertNodesInNoOtherCascade (Some "c") ["n4"; "n3"]) 0 (mkWorld sample_fleet {["n3" := "Oslo"]} None) = (r, mkWorld sample_fleet {["n3" := "Oslo"]} None) ∧
    gate_spec (Some "c") ["n4"; "n3"] (mkWorld sample_fleet {["n3" := "Oslo"]} None) r.
Proof. split; [vm_compute; reflexivity|]. apply gate_verdict. set_solver. Defined.
