(* ===== verification/CascadeSave.v ===== *)
(** Saves of cascades and the nodes they hold
    (createCascade, updateCascade and deleteCascade of
    apps/panel-backend/src/modules/cascades/cascade.service.ts).

    A save is followed from its payload, with what it leaves out already
    filled in ([Directions]), to the rows it writes, kept to what decides which
    nodes a cascade names.  The gates on anything else (ports, cells, engines,
    outbounds, policies) are parameters: they refuse or let pass, and write
    nothing.  So is what [writeTopologyV4] refuses inside the transaction. *)

From S2P Require Import Prelude Js Calls Directions CascadeValidation CascadeExclusive.

Local Open Scope string_scope.
Local Open Scope list_scope.
Local Open Scope Z_scope.
Local Open Scope prog_scope.

(** ** Payloads *)
Record Payload := mkPayload {
  pl_mode : option mode;
  pl_hops : option (list CascadeHopInput);
  (* positions and directions, which the schema asks for together *)
  pl_topology : option (list CascadePositionInput * list ResolvedDirection)
}.

Record CreateCascadeInput := mkCreate {
  cr_name : string; cr_enabled : bool; cr_payload : Payload }.

Record UpdateCascadeInput := mkUpdate {
  up_name : option string; up_enabled : option bool; up_payload : Payload }.

Definition checked_io {A} (c : checked A) : io A :=
  match c with Ok a => Ret a | Throw e => Raise (Invalid e) end.

(** [positions && directions ? tryFoldPositions(positions, directions) : null]. *)
Definition fold_payload (p : Payload) : io (option (list CascadeHopInput * mode)) :=
  match pl_topology p with
  | None => Ret None
  | Some (ps, ds) =>
      match tryFoldPositions ps ds with
      | None => Raise InternalError
      | Some folded => Ret folded
      end
  end.

(** [folded ? folded.hops : input.hops], and its mode. *)
Definition legacy_hops (folded : option (list CascadeHopInput * mode)) (p : Payload) : option (list CascadeHopInput) :=
  match folded with Some (hops, _) => Some hops | None => pl_hops p end.

Definition effective_mode (folded : option (list CascadeHopInput * mode)) (p : Payload) (kept : mode) : mode :=
  match folded with Some (_, m) => m | None => default kept (pl_mode p) end.

Definition checked_hops (l : option (list CascadeHopInput)) (m : mode) : io (option (list CascadeHopInput)) :=
  match l with
  | None => Ret None
  | Some l => await hops <- checked_io (validateCascadeHops l m); Ret (Some hops)
  end.

Definition topology_nodes (t : list CascadePositionInput * list ResolvedDirection) : list string :=
  (t.1 ≫= p_nodeIds) ++ (t.2 ≫= rd_nodeIds).

(** ** Storage *)
Definition set_cascades (t : list Cascade) (w : world) : world := mkWorld t (nodes w) (deadCache w).

Definition name_taken (name self : string) (t : list Cascade) : bool :=
  existsb (λ c, bool_decide (c_name c = name) && negb (bool_decide (c_id c = self))) t.

Definition pools (t : ValidatedTopology) : list (list string) * list (list string) :=
  (p_nodeIds <$> v_positions t, rd_nodeIds <$> v_directions t).

Definition created_row (new_id : string) (now : Z) (i : CreateCascadeInput) (m : mode)
    (hops : list CascadeHopInput) (t : option ValidatedTopology) : Cascade :=
  let '(ps, ds) := match t with Some t => pools t | None => ([], []) end in
  mkCascade new_id (cr_name i) now (cr_enabled i) m (h_nodeId <$> hops) ps ds.

Definition updated_row (c : Cascade) (i : UpdateCascadeInput)
    (hops : option (list CascadeHopInput)) (t : option ValidatedTopology) : Cascade :=
  mkCascade (c_id c) (default (c_name c) (up_name i)) (c_createdAt c) (default (c_enabled c) (up_enabled i))
    (default (c_mode c) (pl_mode (up_payload i)))
    (match hops, t with
     | Some hops, _ => h_nodeId <$> hops
     | None, Some _ => []
     | None, None => c_hops c
     end)
    (match t with Some t => (pools t).1 | None => c_positions c end)
    (match t with Some t => (pools t).2 | None => c_directions c end).

Definition find_cascade (id : string) (t : list Cascade) : option Cascade :=
  js_find (λ c, bool_decide (c_id c = id)) t.

Definition write_row (row : Cascade) (t : list Cascade) : list Cascade :=
  (λ c, if decide (c_id c = c_id row) then row else c) <$> t.

Section Saves.
Context (create_gates : CreateCascadeInput → io unit) (update_gates : string → UpdateCascadeInput → io unit)
        (delete_gates : string → io unit) (tx_refuses : world → string → option save_error).

(** ** Create *)
Definition create_nodes (legacy : option (list CascadeHopInput)) (hops : list CascadeHopInput) (p : Payload) : list string :=
  match legacy with
  | Some _ => h_nodeId <$> hops
  | None => js_uniq match pl_topology p with Some t => topology_nodes t | None => [] end
  end.

Definition insert_cascade (row : Cascade) (w : world) : result save_error unit * world :=
  if bool_decide (c_id row ∈ c_id <$> cascades w) then (Throw InternalError, w)
  else if name_taken (c_name row) (c_id row) (cascades w) then (Throw (NameTaken (c_name row)), w)
  else match tx_refuses w (c_id row) with
       | Some e => (Throw e, w)
       | None => (Ok tt, set_cascades (cascades w ++ [row]) w)
       end.

Definition valid_topology (p : Payload) : io (option ValidatedTopology) :=
  match pl_topology p with
  | Some (ps, ds) => await t <- checked_io (validateCascadeTopology ps ds); Ret (Some t)
  | None => Ret None
  end.

(** The id is the one the database draws; the answer is the nodes told. *)
Definition createCascade (new_id : string) (i : CreateCascadeInput) : io (list string) :=
  let p := cr_payload i in
  await folded <- fold_payload p;
  let m := effective_mode folded p chain in
  let legacy := legacy_hops folded p in
  await hops <- checked_hops legacy m;
  let hops := default [] hops in
  let allNodeIds := create_nodes legacy hops p in
  await_ create_gates i;
  await_ (if cr_enabled i then assertNodesInNoOtherCascade None allNodeIds else Ret tt);
  await topology <- valid_topology p;
  await r <- call (λ now w, insert_cascade (created_row new_id now i m hops topology) w);
  await_ lift r;
  await_ invalidateDeadCascadeCache;
  Ret allNodeIds.

(** ** Update *)
Definition stored_nodes (c : Cascade) : list string := mjoin (c_positions c) ++ mjoin (c_directions c).

Definition gate_topology (p : Payload) (stored : option (list string)) : list string :=
  match pl_topology p with Some t => topology_nodes t | None => default [] stored end.

Definition update_target (hops : option (list CascadeHopInput)) (gate : list string) (oldNodeIds : list string) : list string :=
  let target := js_uniq ((h_nodeId <$> default [] hops) ++ gate) in
  if decide (target = []) then oldNodeIds else target.

Definition names_nodes (hops : option (list CascadeHopInput)) (p : Payload) : bool :=
  bool_decide (is_Some hops) || bool_decide (is_Some (pl_topology p)).

Definition update_tx (id : string) (i : UpdateCascadeInput) (hops : option (list CascadeHopInput)) (w : world)
    : result save_error unit * world :=
  match find_cascade id (cascades w) with
  | None => (Throw InternalError, w)
  | Some c =>
      if match up_name i with Some n => name_taken n id (cascades w) | None => false end
      then (Throw (NameTaken (default "" (up_name i))), w)
      else match run (valid_topology (up_payload i)) 0 w with
           | (Throw e, _) => (Throw e, w)
           | (Ok t, _) =>
               match tx_refuses w id with
               | Some e => (Throw e, w)
               | None => (Ok tt, set_cascades (write_row (updated_row c i hops t) (cascades w)) w)
               end
           end
  end.

Definition nodesOfDeadMoved (before : list string) : io (list string) :=
  await after <- deadCascadeIdsNow;
  nodesOfCascades (filter (λ x, x ∉ after) before ++ filter (λ x, x ∉ before) after).

Definition updateCascade (id : string) (i : UpdateCascadeInput) : io (list string) :=
  let p := up_payload i in
  await found <- call (λ _ w, (find_cascade id (cascades w), w));
  match found with
  | None => Raise (CascadeNotFound id)
  | Some existing =>
      let oldNodeIds := membersOf existing in
      let switchingOn := bool_decide (up_enabled i = Some true) && negb (c_enabled existing) in
      await stored <- (if switchingOn && negb (bool_decide (is_Some (pl_topology p)))
                       then call (λ _ w, (fmap (M:=option) stored_nodes (find_cascade id (cascades w)), w)) else Ret None);
      let gate := gate_topology p stored in
      await folded <- fold_payload p;
      await hops <- checked_hops (legacy_hops folded p) (effective_mode folded p (c_mode existing));
      let willBeEnabled := default (c_enabled existing) (up_enabled i) in
      await_ update_gates id i;
      await_ (if willBeEnabled && (switchingOn || names_nodes hops p)
              then assertNodesInNoOtherCascade (Some id) (update_target hops gate oldNodeIds) else Ret tt);
      await deadBefore <- deadCascadeIdsNow;
      await r <- call (λ _ w, update_tx id i hops w);
      await_ lift r;
      await moved <- nodesOfDeadMoved deadBefore;
      await_ invalidateDeadCascadeCache;
      let newNodeIds := (h_nodeId <$> default [] hops) ++
                        match pl_topology p with Some t => topology_nodes t | None => [] end in
      Ret (js_uniq (oldNodeIds ++ newNodeIds ++ moved))
  end.

(** ** Delete *)
Definition delete_row (id : string) (w : world) : result save_error unit * world :=
  match find_cascade id (cascades w) with
  | None => (Throw (CascadeNotFound id), w)
  | Some _ => (Ok tt, set_cascades (filter (λ c, c_id c ≠ id) (cascades w)) w)
  end.

Definition deleteCascade (id : string) : io (list string) :=
  await existing <- call (λ _ w, (find_cascade id (cascades w), w));
  await_ delete_gates id;
  await deadBefore <- deadCascadeIdsNow;
  await r <- call (λ _ w, delete_row id w);
  await_ lift r;
  let members := match existing with Some c => membersOf c | None => [] end in
  await moved <- nodesOfDeadMoved deadBefore;
  await_ invalidateDeadCascadeCache;
  Ret (js_uniq (members ++ moved)).

Inductive save :=
  | Create (new_id : string) (i : CreateCascadeInput)
  | Update (id : string) (i : UpdateCascadeInput)
  | Delete (id : string).

Definition save_prog (s : save) : io (list string) :=
  match s with
  | Create new_id i => createCascade new_id i
  | Update id i => updateCascade id i
  | Delete id => deleteCascade id
  end.

(** One save after another, each at its time. *)
Definition saves (ss : list (save * Z)) (w : world) : world :=
  foldl (λ w s, (run (save_prog s.1) s.2 w).2) w ss.
End Saves.

(** ** Programs that only read *)
Definition read_only {A} (p : io A) : Prop := ∀ now w, (run p now w).2 = w.

(** What a program leaves behind, whatever it answers. *)
Definition leaves {A} (p : io A) (now : Z) (w : world) (Q : world → Prop) : Prop := Q (run p now w).2.

Lemma leaves_read {A B} (p : io A) (k : A → io B) now w Q :
  read_only p → Q w → (∀ a, run p now w = (Ok a, w) → leaves (k a) now w Q) → leaves (prog_bind p k) now w Q.
Proof.
  unfold leaves. intros Hp Hw Hk. rewrite run_bind. specialize (Hp now w).
  destruct (run p now w) as [[a|e] w'] eqn:E; simpl in Hp; subst w'; [by apply Hk|done].
Qed.

Lemma leaves_call {A B} (f : Z → world → A * world) (k : A → io B) now w Q :
  leaves (k (f now w).1) now (f now w).2 Q → leaves (prog_bind (call f) k) now w Q.
Proof. unfold leaves. by rewrite run_bind, run_call. Qed.

Lemma leaves_lift {A B} (r : result save_error A) (k : A → io B) now w Q :
  match r with Ok a => leaves (k a) now w Q | Throw _ => Q w end → leaves (prog_bind (lift r) k) now w Q.
Proof. unfold leaves. rewrite run_bind, run_lift. by destruct r. Qed.

Lemma read_bind {A B} (p : io A) (k : A → io B) : read_only p → (∀ a, read_only (k a)) → read_only (prog_bind p k).
Proof.
  intros Hp Hk now w. rewrite run_bind. specialize (Hp now w).
  destruct (run p now w) as [[a|e] w']; simpl in Hp; subst; [apply Hk|done].
Qed.

Lemma read_call {A} (f : world → A) : read_only (call (λ _ w, (f w, w))).
Proof. done. Qed.

Lemma read_lift {A} (r : result save_error A) : read_only (lift r).
Proof. intros now w. by rewrite run_lift. Qed.

Lemma read_ret {A} (a : A) : read_only (Ret a : io A).
Proof. done. Qed.

#[local] Hint Resolve read_bind read_call read_lift read_ret : iceslab.

Lemma read_fold p : read_only (fold_payload p).
Proof.
  intros now w. unfold fold_payload. destruct (pl_topology p) as [[ps ds]|]; [|done].
  by destruct (tryFoldPositions ps ds).
Qed.

Lemma read_checked {A} (c : checked A) : read_only (checked_io c).
Proof. by destruct c. Qed.

Lemma read_hops l m : read_only (checked_hops l m).
Proof. destruct l; [|done]. apply read_bind; [apply read_checked|by intros]. Qed.

Lemma read_topology p : read_only (valid_topology p).
Proof.
  unfold valid_topology. destruct (pl_topology p) as [[ps ds]|]; [|done].
  apply read_bind; [apply read_checked|by intros].
Qed.

Lemma read_refuse ns os : read_only (refuse_first ns os).
Proof. induction os as [|o os IH]; [done|]. simpl. by destruct (truthy _). Qed.

Lemma read_gate selfId ns : read_only (assertNodesInNoOtherCascade selfId ns).
Proof.
  unfold assertNodesInNoOtherCascade. case_decide; [done|].
  apply read_bind; [apply read_call|intros; apply read_refuse].
Qed.

Lemma read_gate_if (b : bool) selfId ns : read_only (if b then assertNodesInNoOtherCascade selfId ns else Ret tt).
Proof. destruct b; [apply read_gate|done]. Qed.

Lemma read_nodes ids : read_only (nodesOfCascades ids).
Proof. unfold nodesOfCascades. by case_decide. Qed.

Lemma read_moved before : read_only (nodesOfDeadMoved before).
Proof. apply read_bind; [done|]. intros. apply read_nodes. Qed.

Lemma run_checked {A} (c : checked A) now w a : run (checked_io c) now w = (Ok a, w) → c = Ok a.
Proof. destruct c; simpl; congruence. Qed.

Lemma run_hops l m now w h : run (checked_hops l m) now w = (Ok h, w) →
  match l with
  | None => h = None
  | Some l => ∃ hops, h = Some hops ∧ validateCascadeHops l m = Ok hops
  end.
Proof.
  destruct l as [l|]; simpl; [|congruence]. destruct (validateCascadeHops l m) as [hops|]; simpl; [|done].
  intros [= <-]. by exists hops.
Qed.

Lemma run_topology p now w t : run (valid_topology p) now w = (Ok t, w) →
  match pl_topology p with
  | None => t = None
  | Some (ps, ds) => ∃ v, t = Some v ∧ validateCascadeTopology ps ds = Ok v
  end.
Proof.
  unfold valid_topology. destruct (pl_topology p) as [[ps ds]|]; simpl; [|congruence].
  destruct (validateCascadeTopology ps ds) as [v|]; simpl; [|done]. intros [= <-]. by exists v.
Qed.

Lemma run_fold p now w f : run (fold_payload p) now w = (Ok f, w) →
  match f with
  | None => True
  | Some (hops, m) => ∃ ps ds, pl_topology p = Some (ps, ds) ∧ foldPositionsIntoHops ps ds = Some (Ok (hops, m))
  end.
Proof.
  unfold fold_payload. destruct (pl_topology p) as [[ps ds]|]; simpl; [|by intros [= <-]].
  unfold tryFoldPositions. destruct (foldPositionsIntoHops ps ds) as [[hm|e]|] eqn:E; simpl; [|by intros [= <-]|done].
  intros [= <-]. destruct hm as [hops m]. by exists ps, ds.
Qed.

Lemma run_gate (b : bool) selfId ns now w u : "" ∉ ns →
  run (if b then assertNodesInNoOtherCascade selfId ns else Ret tt) now w = (Ok u, w) →
  b = true → ∀ c, ¬ conflicts selfId ns (cascades w) c.
Proof.
  intros Hne H ->. destruct (gate_run selfId ns now w Hne) as (r & E & Hr).
  rewrite E in H. injection H as ->. exact Hr.
Qed.

(** ** Nodes of what is stored *)
Lemma member_stored c n : has_member c n ↔ n ∈ c_hops c ∨ n ∈ stored_nodes c.
Proof.
  unfold has_member, stored_nodes. rewrite elem_of_members, elem_of_app, !list_elem_of_join. naive_solver.
Qed.

Lemma hops_nodes l m hops n : validateCascadeHops l m = Ok hops → n ∈ h_nodeId <$> hops ↔ n ∈ h_nodeId <$> l.
Proof.
  intros H. assert (hops = by_hop_position l) as ->.
  { unfold validateCascadeHops in H. by inv_ok. }
  unfold by_hop_position. by rewrite (sort_by_perm _ l).
Qed.

Lemma elem_of_join_fmap {A} (f : A → list string) l n : n ∈ mjoin (f <$> l) ↔ n ∈ l ≫= f.
Proof. rewrite list_elem_of_join, list_elem_of_bind. setoid_rewrite list_elem_of_fmap. naive_solver. Qed.

Lemma valid_nodes ps ds v n : validateCascadeTopology ps ds = Ok v →
  n ∈ mjoin (pools v).1 ++ mjoin (pools v).2 ↔ n ∈ topology_nodes (ps, ds).
Proof.
  intros (_ & _ & _ & _ & _ & _ & _ & _ & ->)%validate_ok_iff. unfold topology_nodes, pools. simpl.
  rewrite !elem_of_app, !elem_of_join_fmap. by rewrite (by_position_perm ps).
Qed.

Lemma folded_nodes ps ds v hops m n : validateCascadeTopology ps ds = Ok v →
  foldPositionsIntoHops ps ds = Some (Ok (hops, m)) →
  n ∈ h_nodeId <$> hops ↔ n ∈ topology_nodes (ps, ds).
Proof.
  intros (_ & _ & _ & Hpos & _ & _ & (_ & _ & Hnd) & _ & ->)%validate_ok_iff Hf.
  destruct (fold_hops_facts ps ds Hpos Hnd _ _ Hf) as (_ & _ & -> & _).
  unfold topology_nodes. simpl. rewrite !elem_of_app.
  by rewrite (by_position_perm ps).
Qed.

(** ** The invariant *)
Definition exclusive (t : list Cascade) : Prop := ∀ a b, a ∈ t → b ∈ t →
  c_enabled a = true → c_enabled b = true → share a b → a = b.

(** Hops, where there is a topology too, name nodes of it. *)
Definition aligned (c : Cascade) : Prop :=
  stored_nodes c = [] ∨ ∀ n, n ∈ c_hops c → n ∈ stored_nodes c.

Definition inv (w : world) : Prop :=
  NoDup (c_id <$> cascades w) ∧ exclusive (cascades w) ∧
  ∀ c, c ∈ cascades w → aligned c ∧ ¬ has_member c "".

(** A row whose nodes no other enabled cascade names. *)
Definition clear (t : list Cascade) (row : Cascade) : Prop := c_enabled row = true →
  ∀ c n, c ∈ t → c_enabled c = true → c_id c ≠ c_id row → has_member c n → ¬ has_member row n.

Lemma inv_cache v w : inv (set_cache v w) ↔ inv w.
Proof. done. Qed.

Lemma inv_insert row w : inv w → c_id row ∉ c_id <$> cascades w → aligned row → ¬ has_member row "" →
  clear (cascades w) row → inv (set_cascades (cascades w ++ [row]) w).
Proof.
  intros (Hid & Hex & Hal) Hni Ha Hne Hcl. split; [|split]; simpl.
  - rewrite fmap_app. apply NoDup_app. split; [done|]. split; [|apply NoDup_singleton].
    intros x Hx [->|?%not_elem_of_nil]%elem_of_cons; done.
  - assert (∀ c, c ∈ cascades w → c_id c ≠ c_id row) as Hne' by (intros c Hc E; apply Hni; rewrite <-E; by apply list_elem_of_fmap_2).
    intros a b [Ha'| ->%list_elem_of_singleton]%elem_of_app [Hb'| ->%list_elem_of_singleton]%elem_of_app Hae Hbe (n & Hn & Hn').
    + apply Hex; [done..|]. by exists n.
    + exfalso. by eapply (Hcl Hbe a n); eauto.
    + exfalso. by eapply (Hcl Hae b n); eauto.
    + done.
  - intros c [Hc| ->%list_elem_of_singleton]%elem_of_app; [by apply Hal|done].
Qed.

Lemma elem_of_write row t c : c ∈ write_row row t → (c ∈ t ∧ c_id c ≠ c_id row) ∨ c = row.
Proof. intros (c0 & -> & Hc)%list_elem_of_fmap. case_decide; [by right|by left]. Qed.

Lemma inv_write row w : inv w → aligned row → ¬ has_member row "" →
  clear (cascades w) row → inv (set_cascades (write_row row (cascades w)) w).
Proof.
  intros (Hid & Hex & Hal) Ha Hne Hcl. split; [|split]; simpl.
  - assert (c_id <$> write_row row (cascades w) = c_id <$> cascades w) as ->; [|done].
    unfold write_row. rewrite <-list_fmap_compose. apply list_fmap_ext. intros i c _. simpl. by case_decide.
  - intros a b [[Ha' Hai]| ->]%elem_of_write [[Hb' Hbi]| ->]%elem_of_write Hae Hbe (n & Hn & Hn').
    + apply Hex; [done..|]. by exists n.
    + exfalso. by eapply (Hcl Hbe a n); eauto.
    + exfalso. by eapply (Hcl Hae b n); eauto.
    + done.
  - intros c [[Hc _]| ->]%elem_of_write; [by apply Hal|done].
Qed.

(** What the gate lets through is clear. *)
Lemma gate_clear w selfId ns row : (selfId = None ∨ selfId = Some (c_id row)) →
  (∀ c, ¬ conflicts selfId ns (cascades w) c) → (∀ n, has_member row n → n ∈ ns) → clear (cascades w) row.
Proof.
  intros Hs Hg Hm _ c n Hc Hce Hne Hn Hr. apply (Hg c). split; [done|]. split; [done|]. split; [|by exists n; auto].
  intros _. destruct Hs as [->| ->]; congruence.
Qed.

(** ** Payloads *)
Definition payload_nodes (p : Payload) : list string :=
  (h_nodeId <$> default [] (pl_hops p)) ++ match pl_topology p with Some t => topology_nodes t | None => [] end.

(** What the rows of a payload name, once its checks have passed. *)
Lemma payload_rows p m now w f h t now' :
  pl_hops p = None ∨ pl_topology p = None →
  run (fold_payload p) now w = (Ok f, w) →
  run (checked_hops (legacy_hops f p) m) now w = (Ok h, w) →
  run (valid_topology p) now' w = (Ok t, w) →
  let hn := h_nodeId <$> default [] h in
  let tn := match t with Some t => mjoin (pools t).1 ++ mjoin (pools t).2 | None => [] end in
  (∀ n, n ∈ hn ++ tn ↔ n ∈ payload_nodes p) ∧
  (∀ n, n ∈ hn ++ tn ↔ n ∈ create_nodes (legacy_hops f p) (default [] h) p) ∧
  (tn = [] ∨ ∀ n, n ∈ hn → n ∈ tn) ∧
  (is_Some h ↔ is_Some (legacy_hops f p)) ∧ (is_Some t ↔ is_Some (pl_topology p)) ∧
  (∀ n, n ∈ tn ↔ n ∈ match pl_topology p with Some t => topology_nodes t | None => [] end).
Proof.
  intros Hone Hf%run_fold Hh%run_hops Ht%run_topology. cbv zeta. unfold payload_nodes, create_nodes.
  destruct (pl_topology p) as [[ps ds]|] eqn:Etop.
  - destruct Hone as [Ehops|]; [|done]. destruct Ht as (v & -> & Hv). rewrite Ehops in *.
    assert (∀ n, n ∈ mjoin (pools v).1 ++ mjoin (pools v).2 ↔ n ∈ topology_nodes (ps, ds)) as Hvn
      by (intros; by apply valid_nodes).
    cbn match. remember (mjoin (pools v).1 ++ mjoin (pools v).2) as tn eqn:Etn. clear Etn.
    remember (topology_nodes (ps, ds)) as pn eqn:Epn. destruct f as [[fh fm]|]; simpl in Hh, Hf |- *.
    + destruct Hf as (ps' & ds' & [= <- <-] & Hfold). destruct Hh as (hops & -> & Hvh).
      assert (∀ n, n ∈ h_nodeId <$> hops ↔ n ∈ pn) as Hn.
      { intros n. by rewrite (hops_nodes _ _ _ n Hvh), (folded_nodes _ _ _ _ _ n Hv Hfold), Epn. }
      simpl. split_and!; try done; try (intros; rewrite ?elem_of_app, ?Hn, ?Hvn; tauto).
      right. intros n. by rewrite Hn, Hvn.
    + rewrite ?Ehops in Hh |- *. subst h. simpl. split_and!; try done; intros; rewrite ?elem_of_js_uniq; simpl; rewrite ?Hvn; try done.
      right. by intros n ?%not_elem_of_nil.
  - assert (f = None) as -> by (destruct f as [[? ?]|]; [by destruct Hf as (? & ? & ? & _)|done]).
    subst t. simpl in Hh. simpl. destruct (pl_hops p) as [l|] eqn:El; simpl; rewrite ?El in Hh.
    + destruct Hh as (hops & -> & Hvh). simpl. rewrite ?El. split_and!; try done; try (by left); intros; rewrite ?app_nil_r; try done.
      by apply (hops_nodes l m).
    + subst h. simpl. rewrite ?El. split_and!; try done; try (by left); intros; rewrite ?elem_of_js_uniq; done.
Qed.

Definition row_topology (t : option ValidatedTopology) : list string :=
  match t with Some t => mjoin (pools t).1 ++ mjoin (pools t).2 | None => [] end.

Lemma created_stored new_id now i m hops t : stored_nodes (created_row new_id now i m hops t) = row_topology t.
Proof. by destruct t. Qed.

Lemma created_hops new_id now i m hops t : c_hops (created_row new_id now i m hops t) = h_nodeId <$> hops.
Proof. by destruct t. Qed.

(** The end of every save: the cache is dropped, which the invariant does not see. *)
Lemma leaves_dropped {A} (a : A) now w : inv w → leaves (await_ invalidateDeadCascadeCache; Ret a) now w inv.
Proof. done. Qed.

(** What an update writes: all of the payload's topology and its fold, or the
    members it found. *)
Lemma updated_members c i h t n :
  match t with
  | Some _ => has_member (updated_row c i h t) n ↔ n ∈ (h_nodeId <$> default [] h) ++ row_topology t
  | None => h = None → has_member (updated_row c i h t) n ↔ has_member c n
  end.
Proof.
  destruct t as [t|].
  - rewrite member_stored, elem_of_app. by destruct h.
  - intros ->. by rewrite !member_stored.
Qed.

Lemma updated_aligned c i h t : aligned c →
  match t with
  | Some _ => row_topology t = [] ∨ ∀ n, n ∈ h_nodeId <$> default [] h → n ∈ row_topology t
  | None => h = None
  end → aligned (updated_row c i h t).
Proof.
  intros Hc Ht. destruct t as [t|]; [|by subst h; apply Hc].
  destruct h as [h|]; [exact Ht|]. right. by intros n ?%not_elem_of_nil.
Qed.

(** An enabled cascade that keeps its nodes stays clear. *)
Lemma clear_kept w c row : inv w → c ∈ cascades w → c_enabled c = true → c_id row = c_id c →
  (∀ n, has_member row n → has_member c n) → clear (cascades w) row.
Proof.
  intros (Hid & Hex & _) Hc He Hrow Hm _ d n Hd Hde Hne Hn Hr. apply Hne.
  assert (d = c) as -> by (apply Hex; [done..|exists n; auto]). done.
Qed.

(** The gate of an update is asked about every node the row will name. *)
Lemma update_target_members h gate old n :
  n ∈ (h_nodeId <$> default [] h) ++ gate → n ∈ update_target h gate old.
Proof.
  intros Hn. unfold update_target. rewrite decide_False; [by apply elem_of_js_uniq|].
  intros E. rewrite <-elem_of_js_uniq, E in Hn. set_solver.
Qed.

Lemma update_target_old h gate old n :
  n ∈ update_target h gate old → n ∈ (h_nodeId <$> default [] h) ++ gate ∨ n ∈ old.
Proof.
  unfold update_target. cbv zeta. case_decide; intros Hn; [by right|]. left. by rewrite elem_of_js_uniq in Hn.
Qed.

Lemma toggle_target c n : aligned c → has_member c n → n ∈ update_target None (stored_nodes c) (membersOf c).
Proof.
  intros Hal Hn. destruct (decide (n ∈ stored_nodes c)); [by apply update_target_members|].
  apply member_stored in Hn as Hn'. destruct Hn' as [Hh|]; [|done]. destruct Hal as [E|Hal]; [|by apply Hal in Hh].
  unfold update_target. rewrite E. simpl. done.
Qed.

Section Sequential.
Context (create_gates : CreateCascadeInput → io unit) (update_gates : string → UpdateCascadeInput → io unit)
        (delete_gates : string → io unit) (tx_refuses : world → string → option save_error).
Hypothesis create_reads : ∀ i, read_only (create_gates i).
Hypothesis update_reads : ∀ id i, read_only (update_gates id i).
Hypothesis delete_reads : ∀ id, read_only (delete_gates id).

Lemma create_inv new_id i now w :
  pl_hops (cr_payload i) = None ∨ pl_topology (cr_payload i) = None → "" ∉ payload_nodes (cr_payload i) →
  inv w → leaves (createCascade create_gates tx_refuses new_id i) now w inv.
Proof.
  intros Hone Hne Hinv. unfold createCascade.
  apply leaves_read; [apply read_fold|done|intros f Hf].
  apply leaves_read; [apply read_hops|done|intros h Hh].
  apply leaves_read; [apply create_reads|done|intros _ _].
  apply leaves_read; [apply read_gate_if|done|intros u Hg].
  apply leaves_read; [apply read_topology|done|intros t Ht].
  apply leaves_call. set (row := created_row _ _ _ _ _ _).
  destruct (payload_rows _ _ _ _ _ _ _ _ Hone Hf Hh Ht) as (Hp & Hn & Hal & _). fold (row_topology t) in *.
  assert (∀ n, has_member row n ↔ n ∈ (h_nodeId <$> default [] h) ++ row_topology t) as Hm.
  { intros n. unfold row. by rewrite member_stored, created_stored, created_hops, elem_of_app. }
  apply leaves_lift. unfold insert_cascade. case_bool_decide as Hid; [done|].
  destruct (name_taken _ _ _); [done|]. destruct (tx_refuses _ _); [done|].
  apply leaves_dropped, inv_insert; [done|done|..].
  - unfold aligned, row. rewrite created_stored, created_hops. done.
  - by rewrite Hm, Hp.
  - intros He. apply (gate_clear w None (create_nodes (legacy_hops f (cr_payload i)) (default [] h) (cr_payload i)));
      [by left| |by intros n ?%Hm%Hn|done].
    eapply (run_gate (cr_enabled i)); [|exact Hg|unfold row in He; by destruct t].
    intros Hin%Hn%Hp. done.
Qed.

Lemma find_cascade_Some id t c : find_cascade id t = Some c → c ∈ t ∧ c_id c = id.
Proof. intros [H1 H2]%js_find_Some. by bool_prop. Qed.

Lemma delete_inv id now w : inv w → leaves (deleteCascade delete_gates id) now w inv.
Proof.
  intros Hinv. unfold deleteCascade.
  apply leaves_read; [apply read_call|done|intros ex _].
  apply leaves_read; [apply delete_reads|done|intros _ _].
  apply leaves_read; [done|done|intros before _].
  apply leaves_call, leaves_lift. unfold delete_row. destruct (find_cascade id (cascades w)); [|done]. cbn [fst snd].
  assert (inv (set_cascades (filter (λ c, c_id c ≠ id) (cascades w)) w)) as Hw'.
  { destruct Hinv as (Hid & Hex & Hal). split; [|split]; simpl.
    - by apply NoDup_fmap_filter.
    - intros a b [_ Ha]%list_elem_of_filter [_ Hb]%list_elem_of_filter. by apply Hex.
    - intros c' [_ Hc]%list_elem_of_filter. by apply Hal. }
  apply leaves_read; [apply read_moved|done|intros moved _]. by apply leaves_dropped.
Qed.

(** An update in the shape of the row: a topology, or hops for a cascade that
    has none stored. *)
Definition row_shape (w : world) (id : string) (p : Payload) : Prop :=
  pl_hops p = None ∨
  (pl_topology p = None ∧ ∀ c, c ∈ cascades w → c_id c = id → stored_nodes c = []).

Lemma row_shape_one w id p : row_shape w id p → pl_hops p = None ∨ pl_topology p = None.
Proof. intros [?|[? _]]; auto. Qed.

(** Hops written over hops. *)
Lemma hops_over_hops c i hs : stored_nodes c = [] →
  stored_nodes (updated_row c i (Some hs) None) = [] ∧
  ∀ n, has_member (updated_row c i (Some hs) None) n ↔ n ∈ h_nodeId <$> hs.
Proof.
  intros E. assert (stored_nodes (updated_row c i (Some hs) None) = []) as E' by done. split; [done|].
  intros n. rewrite member_stored, E'. simpl. set_solver.
Qed.

Lemma update_inv id i now w :
  row_shape w id (up_payload i) → "" ∉ payload_nodes (up_payload i) →
  inv w → leaves (updateCascade update_gates tx_refuses id i) now w inv.
Proof.
  intros Hone Hne Hinv. unfold updateCascade.
  apply leaves_read; [apply read_call|done|intros found Hfound]. simpl in Hfound. injection Hfound as <-.
  destruct (find_cascade id (cascades w)) as [ex|] eqn:Eex; [|done].
  apply leaves_read; [by destruct (_ && _)|done|intros stored Hs].
  apply leaves_read; [apply read_fold|done|intros f Hf].
  apply leaves_read; [apply read_hops|done|intros h Hh].
  apply leaves_read; [apply update_reads|done|intros _ _].
  apply leaves_read; [apply read_gate_if|done|intros u Hg].
  apply leaves_read; [done|done|intros before _].
  apply leaves_call, leaves_lift. unfold update_tx. rewrite Eex.
  destruct (match up_name i with Some n => _ | None => _ end); [done|].
  pose proof (read_topology (up_payload i) 0 w) as Hro.
  destruct (run (valid_topology (up_payload i)) 0 w) as [[t|e] w'] eqn:Ht; simpl in Hro; subst w'; [|done].
  destruct (tx_refuses w id); [done|]. cbn [fst snd].
  assert (inv (set_cascades (write_row (updated_row ex i h t) (cascades w)) w)) as Hw'.
  { assert (Hex : ex ∈ cascades w ∧ c_id ex = id) by (by apply find_cascade_Some). destruct Hex as [Hin Hid].
    destruct (payload_rows _ _ _ _ _ _ _ _ (row_shape_one _ _ _ Hone) Hf Hh Ht) as (Hp & _ & Hal & Hish & Hist & Htn).
    fold (row_topology t) in *. destruct Hinv as (Hids & Hexcl & Hrows).
    destruct (Hrows ex Hin) as [Hexal Hexne]. set (row := updated_row ex i h t).
    unfold gate_topology in Hg.
    assert (c_enabled row = default (c_enabled ex) (up_enabled i)) as Hen by done.
    pose proof (updated_members ex i h t) as Hm. fold row in Hm.
    destruct t as [v|].
    - apply inv_write; [done|by apply updated_aligned|by rewrite Hm, Hp|].
      assert (is_Some (pl_topology (up_payload i))) as [top Etop] by (by apply Hist). rewrite Etop in Htn, Hg.
      intros He. apply (gate_clear w (Some id) (update_target h (topology_nodes top) (membersOf ex)));
        [right; by rewrite <-Hid| | |done].
      + eapply run_gate; [|exact Hg|].
        * intros [Hn|Hn]%update_target_old; [|by apply Hexne]. apply Hne, Hp.
          rewrite elem_of_app in Hn |- *. by rewrite Htn.
        * rewrite <-Hen, He. unfold names_nodes. rewrite Etop. simpl. by rewrite !orb_true_r.
      + intros n Hn. apply update_target_members. apply Hm in Hn. rewrite elem_of_app in Hn |- *. by rewrite <-Htn.
    - assert (pl_topology (up_payload i) = None) as Etop
        by (destruct (pl_topology (up_payload i)); [by destruct (proj2 Hist) as [? ?]; eauto|done]).
      destruct h as [hs|].
      { assert (f = None) as -> by (apply run_fold in Hf; destruct f as [[? ?]|]; [destruct Hf as (? & ? & ? & _); congruence|done]).
        simpl in Hish. destruct Hone as [Hno|[_ Hst]]; [rewrite Hno in Hish; by destruct (proj1 Hish) as [? ?]; eauto|].
        specialize (Hst ex Hin Hid). destruct (hops_over_hops ex i hs Hst) as [Est Hmem]. fold row in Est, Hmem.
        assert (∀ n, n ∈ h_nodeId <$> hs ↔ n ∈ payload_nodes (up_payload i)) as Hpn
          by (intros n; rewrite <-Hp; simpl; by rewrite app_nil_r).
        assert (default [] stored = []) as Egate.
        { destruct (_ && negb _) eqn:E in Hs; simpl in Hs; [|by injection Hs as <-].
          rewrite Eex in Hs. simpl in Hs. injection Hs as <-. exact Hst. }
        apply inv_write; [done|by left|by rewrite Hmem, Hpn|]. intros He. rewrite Etop, Egate in Hg.
        apply (gate_clear w (Some id) (update_target (Some hs) [] (membersOf ex))); [right; by rewrite <-Hid| | |done].
        + eapply run_gate; [|exact Hg|].
          * intros [Hn|Hn]%update_target_old; [|by apply Hexne]. rewrite app_nil_r in Hn. by apply Hne, Hpn.
          * rewrite <-Hen, He. unfold names_nodes. rewrite (bool_decide_true (is_Some (Some hs))) by by eexists. simpl. by rewrite orb_true_r.
        + intros n Hn%Hmem. apply update_target_members. by rewrite app_nil_r. }
      specialize (λ n, Hm n eq_refl) as Hm'.
      apply inv_write; [done|by apply updated_aligned|by rewrite Hm'|]. intros He. rewrite Etop in Hs, Hg.
      destruct (bool_decide (up_enabled i = Some true) && negb (c_enabled ex)) eqn:Esw.
      + simpl in Hs. rewrite Eex in Hs. injection Hs as <-.
        apply (gate_clear w (Some id) (update_target None (stored_nodes ex) (membersOf ex)));
          [right; by rewrite <-Hid| |intros n Hn; apply toggle_target; [done|by apply Hm']|done].
        eapply run_gate; [|exact Hg|by rewrite <-Hen, He].
        intros [Hn|Hn]%update_target_old; [|by apply Hexne]. by apply Hexne, member_stored; right.
      + eapply clear_kept; [done|exact Hin| |done|intros n; apply Hm'|done].
        rewrite Hen in He. destruct (up_enabled i) as [[]|]; simpl in He; [|done|done].
        by destruct (c_enabled ex). }
  apply leaves_read; [apply read_moved|done|intros moved _]. by apply leaves_dropped.
Qed.
End Sequential.

(** ** Properties *)

(** A save that mixes no shapes: a new cascade is sent as hops or as a topology,
    and hops alone are sent only to a cascade without a stored topology.  No node
    id is empty. *)
Definition one_shape (w : world) (s : save) : Prop :=
  match s with
  | Create _ i =>
      (pl_hops (cr_payload i) = None ∨ pl_topology (cr_payload i) = None) ∧ "" ∉ payload_nodes (cr_payload i)
  | Update id i => row_shape w id (up_payload i) ∧ "" ∉ payload_nodes (up_payload i)
  | Delete _ => True
  end.

Section Gates.
Context (create_gates : CreateCascadeInput → io unit) (update_gates : string → UpdateCascadeInput → io unit)
        (delete_gates : string → io unit) (tx_refuses : world → string → option save_error).

Definition save_step (w : world) (s : save * Z) : world := saves create_gates update_gates delete_gates tx_refuses [s] w.

(** Each save is asked in the world it finds. *)
Fixpoint one_shapes (ss : list (save * Z)) (w : world) : Prop :=
  match ss with
  | [] => True
  | s :: ss => one_shape w s.1 ∧ one_shapes ss (save_step w s)
  end.

(** C25. Saves, one after another, that mix no shapes keep every node in at most
    one enabled cascade, so that no enabled cascade is ever dead, whatever else
    the saves are refused for.  A create carries hops or a topology, not both; an
    update carries a topology, or names no members, or carries hops to a cascade
    that has no topology stored. *)
Theorem saves_keep_exclusive ss w
    (create_reads : ∀ i, read_only (create_gates i)) (update_reads : ∀ id i, read_only (update_gates id i))
    (delete_reads : ∀ id, read_only (delete_gates id)) (Hinv : inv w) (Hss : one_shapes ss w) :
  let w' := saves create_gates update_gates delete_gates tx_refuses ss w in
  inv w' ∧ dead_ids (cascades w') = [].
Proof.
  cbv zeta. assert (inv (saves create_gates update_gates delete_gates tx_refuses ss w)) as H.
  { revert w Hinv Hss. induction ss as [|[s now] ss IH]; intros w Hinv Hss; [done|]. destruct Hss as [Hs Hss].
    apply IH; [|done]. destruct s as [new_id i|id i|id]; simpl in Hs |- *; [destruct Hs|destruct Hs|].
    - by apply create_inv.
    - by apply (update_inv create_gates update_gates delete_gates tx_refuses).
    - by apply delete_inv. }
  split; [done|]. destruct H as (Hid & Hex & _). by apply no_dead_iff.
Qed.
End Gates.

(** ** Examples *)
Definition no_create (_ : CreateCascadeInput) : io unit := Ret tt.
Definition no_update (_ : string) (_ : UpdateCascadeInput) : io unit := Ret tt.
Definition no_delete (_ : string) : io unit := Ret tt.
Definition no_refusal (_ : world) (_ : string) : option save_error := None.

(** Every gate but the one modelled lets everything pass. *)
Definition ungated (ss : list (save * Z)) (w : world) : world := saves no_create no_update no_delete no_refusal ss w.

Definition entry_pool (ns : list string) : CascadePositionInput := mkPosition ns 0 (Some "xray") (Some "vless") None.
Definition exit_pool (ns : list string) : ResolvedDirection := mkResolvedDirection None None ns None None None None.
Definition topology_payload (entry exit_ : list string) : Payload :=
  mkPayload None None (Some ([entry_pool entry], [exit_pool exit_])).
Definition two_hops (a b : string) : list CascadeHopInput :=
  [mkHop a 0 (Some "xray") (Some "vless"); mkHop b 1 None None].

Definition holder : Cascade := mkCascade "a" "first" 0 true chain ["n1"; "n2"] [["n1"]] [["n2"]].
Definition fleet (cs : list Cascade) : world := mkWorld cs ∅ None.

(** The invariant, decided. *)
Definition row_ok (c : Cascade) : bool :=
  (bool_decide (stored_nodes c = []) || bool_decide (Forall (λ n, n ∈ stored_nodes c) (c_hops c))) &&
  bool_decide ("" ∉ membersOf c).

Lemma inv_fleet t :
  bool_decide (NoDup (c_id <$> t)) && bool_decide (dead_ids t = []) && forallb row_ok t = true → inv (fleet t).
Proof.
  intros H. bool_prop. split; [done|]. split; [exact (proj1 (no_dead_iff t H) H1)|]. simpl. intros c Hc.
  assert (row_ok c = true) as Hr by (by eapply forallb_forall; [|apply list_elem_of_In]).
  unfold row_ok in Hr. bool_prop. split; [|done]. rewrite orb_true_iff in H2.
  destruct H2; bool_prop; [by left|]. right. by apply Forall_forall.
Qed.

(** A pool at the entry, which no hop list can hold, and hops elsewhere. *)
Definition both_shapes : CreateCascadeInput :=
  mkCreate "second" true (mkPayload None (Some (two_hops "n3" "n4")) (Some ([entry_pool ["n1"; "n5"]], [exit_pool ["n6"]]))).

(** A switched-off cascade stored with a topology only. *)
Definition sleeper : Cascade := mkCascade "b" "second" 1 false chain [] [["n3"; "n5"]] [["n4"]].

Definition hops_only : UpdateCascadeInput := mkUpdate None None (mkPayload None (Some (two_hops "n1" "n6")) None).
Definition switch_on : UpdateCascadeInput := mkUpdate None (Some true) (mkPayload None None None).

(** A payload that carries hops and a topology the old model cannot hold
    is gated on its hops alone, so a create puts an enabled cascade on a node
    another one holds; and a cascade whose hops were replaced while it was off
    is switched on with its topology gated and its hops not.  Both are dead
    from then on. *)
Theorem mixed_shapes_escape_gate :
  inv (fleet [holder]) ∧
  (run (createCascade no_create no_refusal "b" both_shapes) 1 (fleet [holder])).1 = Ok ["n3"; "n4"] ∧
  dead_ids (cascades (ungated [(Create "b" both_shapes, 1)] (fleet [holder]))) = ["b"] ∧
  inv (fleet [holder; sleeper]) ∧
  let w := ungated [(Update "b" hops_only, 2)] (fleet [holder; sleeper]) in
  dead_ids (cascades w) = [] ∧
  is_ok (run (updateCascade no_update no_refusal "b" switch_on) 3 w).1 ∧
  dead_ids (cascades (ungated [(Update "b" switch_on, 3)] w)) = ["b"].
Proof.
  cbv zeta. split_and!; try (by apply inv_fleet); vm_compute; done.
Qed.

(** [updateCascade] stores the mode its payload names, or keeps the old one:
    never the mode of the shape it has just folded. *)
Example update_keeps_mode :
  let i := mkUpdate None None (mkPayload None None (Some ([entry_pool ["n1"]], [exit_pool ["n2"]; exit_pool ["n3"]]))) in
  let w := ungated [(Update "a" i, 1)] (fleet [holder]) in
  (c_mode <$> cascades w) = [chain] ∧
  effective_mode (default None (tryFoldPositions [entry_pool ["n1"]] [exit_pool ["n2"]; exit_pool ["n3"]]))
    (up_payload i) chain = balancer.
Proof. vm_compute. done. Qed.

(** A cascade of hops is edited in its shape; one with a topology in its own. *)
Lemma saves_keep_exclusive_witness :
  let ss := [(Create "b" (mkCreate "second" true (topology_payload ["n3"; "n5"] ["n4"])), 1);
             (Create "c" (mkCreate "third" true (topology_payload ["n1"] ["n6"])), 2);
             (Update "a" (mkUpdate None (Some false) (mkPayload None None None)), 3);
             (Create "c" (mkCreate "third" true (topology_payload ["n1"] ["n6"])), 4);
             (Update "a" switch_on, 5); (Delete "c", 6); (Update "a" switch_on, 7);
             (Update "d" hops_only, 8); (Update "d" (mkUpdate None None (mkPayload None (Some (two_hops "n8" "n9")) None)), 9)] in
  let w := ungated ss (fleet [holder; mkCascade "d" "hops" 1 true chain ["n7"; "n8"] [] []]) in
  ((λ c, (c_id c, c_enabled c, c_hops c)) <$> cascades w)
    = [("a", true, ["n1"; "n2"]); ("d", true, ["n8"; "n9"]); ("b", true, [])] ∧ dead_ids (cascades w) = [].
Proof.
  cbv zeta. split; [vm_compute; reflexivity|].
  apply (saves_keep_exclusive no_create no_update no_delete no_refusal); try done.
  - by apply inv_fleet.
  - do 5 (split; [split; [by left|vm_compute; set_solver]|]). split; [exact I|].
    split; [split; [by left|vm_compute; set_solver]|].
    split; [|split; [|exact I]]; (split; [right; split; [reflexivity|]|vm_compute; set_solver]).
    all: intros c Hc E; vm_compute in Hc; repeat (apply elem_of_cons in Hc as [->|Hc]; [first [discriminate E|reflexivity]|]);
      by apply not_elem_of_nil in Hc.
Defined.
