(* ===== verification/CascadeRaces.v ===== *)
(** Saves and readers of cascades at the same time
    (apps/panel-backend/src/modules/cascades/cascade-exclusive.ts and
    cascade.service.ts).

    The gate of a save is asked before its transaction and nothing is locked
    in between; the cache of the dead set is filled by a reader that waits for
    the database between missing the cache and storing. *)

From S2P Require Import Prelude Js Calls CascadeValidation CascadeExclusive CascadeSave.

Local Open Scope string_scope.
Local Open Scope list_scope.
Local Open Scope Z_scope.
Local Open Scope prog_scope.

(** ** How long the cache can be wrong *)
Definition expires_by (t : Z) (w : world) : Prop :=
  match deadCache w with Some (_, e) => e <= t | None => True end.

Section Cache.
Context (create_gates : CreateCascadeInput → io unit) (update_gates : string → UpdateCascadeInput → io unit)
        (delete_gates : string → io unit) (tx_refuses : world → string → option save_error) (T : Z).

Abbreviation bounded := (keeps (λ now, now <= T) (expires_by (T + DEAD_TTL_MS))).

Hypothesis create_bounded : ∀ i, bounded (create_gates i).
Hypothesis update_bounded : ∀ id i, bounded (update_gates id i).
Hypothesis delete_bounded : ∀ id, bounded (delete_gates id).

Lemma bounded_write {R} (f : Z → world → R * world) :
  (∀ now w, deadCache (f now w).2 = deadCache w) → bounded (call f : io R).
Proof. intros Hf now w _ Hw. split; [|done]. unfold expires_by. by rewrite Hf. Qed.

Lemma bounded_refuse ns os : bounded (refuse_first ns os).
Proof. induction os as [|o os IH]; [done|]. simpl. destruct (truthy _); [|done]. by intros now w _ Hw. Qed.

Lemma bounded_gate (b : bool) selfId ns : bounded (if b then assertNodesInNoOtherCascade selfId ns else Ret tt).
Proof.
  destruct b; [|done]. unfold assertNodesInNoOtherCascade. case_decide; [done|].
  apply keeps_bind; [apply keeps_read|intros; apply bounded_refuse].
Qed.

Lemma bounded_checked {A} (c : checked A) : bounded (checked_io c).
Proof. by destruct c. Qed.

Lemma bounded_fold p : bounded (fold_payload p).
Proof. unfold fold_payload. destruct (pl_topology p) as [[ps ds]|]; [|done]. by destruct (tryFoldPositions ps ds). Qed.

Lemma bounded_hops l m : bounded (checked_hops l m).
Proof. destruct l; [|done]. apply keeps_bind; [apply bounded_checked|done]. Qed.

Lemma bounded_topology p : bounded (valid_topology p).
Proof.
  unfold valid_topology. destruct (pl_topology p) as [[ps ds]|]; [|done].
  apply keeps_bind; [apply bounded_checked|done].
Qed.

Lemma bounded_dead : bounded deadCascadeIdsNow.
Proof. by intros now w _ Hw. Qed.

Lemma bounded_nodes ids : bounded (nodesOfCascades ids).
Proof. unfold nodesOfCascades. case_decide; [done|]. by intros now w _ Hw. Qed.

Lemma bounded_moved before : bounded (nodesOfDeadMoved before).
Proof. apply keeps_bind; [apply bounded_dead|intros; apply bounded_nodes]. Qed.

Lemma bounded_invalidate : bounded invalidateDeadCascadeCache.
Proof. by intros now w _ Hw. Qed.

Lemma bounded_reader : bounded deadCascadeIds.
Proof.
  intros now w Hn Hw. split; [done|]. simpl. destruct (cached now w); [done|].
  intros now' w' Hn' Hw'. split; [done|]. intros now'' w'' Hn'' Hw''. split; [|done].
  unfold expires_by, set_cache, DEAD_TTL_MS. simpl. lia.
Qed.

Lemma insert_cache row w : deadCache (insert_cascade tx_refuses row w).2 = deadCache w.
Proof. unfold insert_cascade. case_bool_decide; [done|]. destruct (name_taken _ _ _); [done|]. by destruct (tx_refuses _ _). Qed.

Lemma update_cache id i h w : deadCache (update_tx tx_refuses id i h w).2 = deadCache w.
Proof.
  unfold update_tx. destruct (find_cascade _ _); [|done]. destruct (match up_name i with Some n => _ | None => _ end); [done|].
  destruct (run _ _ _) as [[t|e] ?]; [|done]. by destruct (tx_refuses _ _).
Qed.

Lemma delete_cache id w : deadCache (delete_row id w).2 = deadCache w.
Proof. unfold delete_row. by destruct (find_cascade _ _). Qed.

#[local] Hint Resolve bounded_gate bounded_fold bounded_hops bounded_topology bounded_dead bounded_moved
  bounded_invalidate bounded_reader : iceslab.

Lemma bounded_save s : bounded (save_prog create_gates update_gates delete_gates tx_refuses s).
Proof.
  destruct s as [new_id i|id i|id]; cbn [save_prog].
  - unfold createCascade. repeat (apply keeps_bind; [auto with iceslab|intros]); try done.
    apply bounded_write. intros. apply insert_cache.
  - unfold updateCascade. apply keeps_bind; [apply keeps_read|intros [ex|]]; [|done].
    apply keeps_bind; [by destruct (_ && _); [intros now w _ Hw|]|intros].
    repeat (apply keeps_bind; [auto with iceslab|intros]); try done.
    apply bounded_write. intros. apply update_cache.
  - unfold deleteCascade. repeat (apply keeps_bind; [auto with iceslab|intros]); try done.
    apply bounded_write. intros. apply delete_cache.
Qed.
End Cache.

(** A reader that misses the cache answers with the table. *)
Lemma read_missed now w : cached now w = None →
  run deadCascadeIds now w =
  (Ok (dead_ids (cascades w)), set_cache (Some (dead_ids (cascades w), now + DEAD_TTL_MS)) w).
Proof. intros H. unfold deadCascadeIds. simpl. by rewrite H. Qed.

Lemma read_hit now w ids : cached now w = Some ids → run deadCascadeIds now w = (Ok ids, w).
Proof. intros H. unfold deadCascadeIds. simpl. by rewrite H. Qed.

Section Properties.
Context (create_gates : CreateCascadeInput → io unit) (update_gates : string → UpdateCascadeInput → io unit)
        (delete_gates : string → io unit) (tx_refuses : world → string → option save_error).

(** C36. Whatever saves and readers ran at the same time and however their calls
    fell between one another, a minute after the last of them the dead set is
    read as the table has it. *)
Theorem dead_cache_heals T ps w es now
    (create_bounded : ∀ i, keeps (λ t, t <= T) (expires_by (T + DEAD_TTL_MS)) (create_gates i))
    (update_bounded : ∀ id i, keeps (λ t, t <= T) (expires_by (T + DEAD_TTL_MS)) (update_gates id i))
    (delete_bounded : ∀ id, keeps (λ t, t <= T) (expires_by (T + DEAD_TTL_MS)) (delete_gates id))
    (Hps : Forall (λ p, p = deadCascadeIds ∨
                        ∃ s, p = save_prog create_gates update_gates delete_gates tx_refuses s) ps)
    (Hw : expires_by (T + DEAD_TTL_MS) w) (Hes : Forall (λ e, e.2 <= T) es) (Hnow : T + DEAD_TTL_MS <= now) :
  let w' := (pool_run (ps, w) es).2 in
  (run deadCascadeIds now w').1 = Ok (dead_ids (cascades w')).
Proof.
  cbv zeta. set (w' := (pool_run (ps, w) es).2).
  assert (expires_by (T + DEAD_TTL_MS) w') as He.
  { apply (keeps_pool (λ t, t <= T)); [|done|done]. eapply Forall_impl; [exact Hps|].
    intros p [->|[s ->]]; [apply bounded_reader|by apply bounded_save]. }
  rewrite read_missed; [done|]. unfold cached, expires_by in *. destruct (deadCache w') as [[ids e]|]; [|done].
  destruct (Z.ltb_spec now e); [lia|done].
Qed.
End Properties.

(** ** The races *)
Lemma delete_steps id c now w : find_cascade id (cascades w) = Some c →
  ∃ told, prog_steps 6 (deleteCascade no_delete id) now w =
    (Ret told, mkWorld (filter (λ c, c_id c ≠ id) (cascades w)) (nodes w) None).
Proof.
  intros Hc. unfold deleteCascade. simpl. rewrite Hc. simpl. unfold delete_row. rewrite Hc. simpl.
  unfold nodesOfCascades. case_decide; simpl; by eexists.
Qed.

(** Alone, a reader after a deletion answers with what is left.  A reader
    that missed the cache before the deletion and stores after it fills the
    cache with the set the deletion has changed, and every reader of the next
    minute answers with that. *)
Theorem dead_cache_outlives_delete id c now now' w
    (Hmiss : cached now w = None) (Hc : find_cascade id (cascades w) = Some c)
    (Hnow : now <= now' < now + DEAD_TTL_MS) :
  let left := filter (λ c, c_id c ≠ id) (cascades w) in
  (∃ w1, (run (deleteCascade no_delete id) now w).2 = w1 ∧ cascades w1 = left ∧
     (run deadCascadeIds now' w1).1 = Ok (dead_ids left)) ∧
  (∃ told w2,
     pool_run ([deadCascadeIds; deleteCascade no_delete id], w)
       (replicate 2 (0%nat, now) ++ replicate 6 (1%nat, now) ++ replicate 1 (0%nat, now)) =
     ([Ret (dead_ids (cascades w)); Ret told], w2) ∧
     cascades w2 = left ∧ (run deadCascadeIds now' w2).1 = Ok (dead_ids (cascades w))).
Proof.
  cbv zeta. destruct (delete_steps id c now w Hc) as [told Hd]. split.
  - assert (∃ a, run (deleteCascade no_delete id) now w =
      (Ok a, mkWorld (filter (λ c, c_id c ≠ id) (cascades w)) (nodes w) None)) as [a ->].
    { unfold deleteCascade. simpl. rewrite Hc. simpl. unfold delete_row. rewrite Hc. simpl.
      unfold nodesOfCascades. case_decide; simpl; by eexists. }
    eexists. split; [done|]. split; [done|]. by rewrite read_missed.
  - exists told. eexists. rewrite !pool_run_app. split.
    + erewrite pool_run_replicate; [|done|simpl; rewrite Hmiss; reflexivity].
      erewrite pool_run_replicate; [|done|exact Hd].
      erewrite pool_run_replicate; [|done|reflexivity]. done.
    + split; [done|]. rewrite (read_hit now' _ (dead_ids (cascades w))); [done|].
      unfold cached, DEAD_TTL_MS in *. simpl. destruct (Z.ltb_spec now' (now + 60000)); [done|lia].
Qed.

Definition create_on (name : string) (entry exit_ : list string) : CreateCascadeInput :=
  mkCreate name true (topology_payload entry exit_).

(** Two creates at once on one node both pass the gate when each asks it
    before the other has written: both answer with success and the second is
    dead from the start.  One after the other the second is refused. *)
Theorem parallel_creates_share_node :
  let first := createCascade no_create no_refusal "a" (create_on "first" ["n1"] ["n2"]) in
  let second := createCascade no_create no_refusal "b" (create_on "second" ["n1"] ["n3"]) in
  let s := pool_run ([first; second], fleet [])
             ([(0%nat, 1); (1%nat, 1)] ++ replicate 2 (0%nat, 1) ++ replicate 2 (1%nat, 2)) in
  s.1 = [Ret ["n1"; "n2"]; Ret ["n1"; "n3"]] ∧ dead_ids (cascades s.2) = ["b"] ∧
  (run second 2 (run first 1 (fleet [])).2).1 = Throw (NodeInOtherCascade "n1" "a" "first").
Proof. vm_compute. done. Qed.

Definition rival : Cascade := mkCascade "b" "second" 1 true chain ["n1"; "n3"] [["n1"]] [["n3"]].

Lemma dead_cache_heals_witness :
  let w' := (pool_run ([deadCascadeIds; save_prog no_create no_update no_delete no_refusal (Delete "a")], fleet [holder; rival])
               [(0%nat, 1); (0%nat, 2); (1%nat, 3); (1%nat, 3); (1%nat, 4); (1%nat, 5); (1%nat, 6); (1%nat, 7); (0%nat, 8)]).2 in
  deadCache w' = Some (["b"], 60008) ∧ (run deadCascadeIds 70000 w').1 = Ok [].
Proof.
  cbv zeta. split; [vm_compute; reflexivity|].
  apply (dead_cache_heals no_create no_update no_delete no_refusal 8); try done.
  - apply Forall_cons_2; [by left|]. apply Forall_cons_2; [right; by exists (Delete "a")|done].
  - repeat constructor; simpl; lia.
Defined.

Lemma dead_cache_outlives_delete_witness :
  dead_ids [holder; rival] = ["b"] ∧ dead_ids [rival] = [] ∧
  ∃ told w2, pool_run ([deadCascadeIds; deleteCascade no_delete "a"], fleet [holder; rival])
       (replicate 2 (0%nat, 0) ++ replicate 6 (1%nat, 0) ++ replicate 1 (0%nat, 0)) =
     ([Ret ["b"]; Ret told], w2) ∧ cascades w2 = [rival] ∧ (run deadCascadeIds 59999 w2).1 = Ok ["b"].
Proof.
  split; [vm_compute; reflexivity|]. split; [vm_compute; reflexivity|].
  assert (0 <= 59999 < 0 + DEAD_TTL_MS) as H by (unfold DEAD_TTL_MS; lia).
  exact (proj2 (dead_cache_outlives_delete "a" holder 0 59999 (fleet [holder; rival]) eq_refl eq_refl H)).
Defined.
