(* ===== verification/TopologyRead.v ===== *)
(** A node's push of its cascade
    (apps/panel-backend/src/modules/cascades/cascade.service.ts): which stored
    cascade a node draws, its rows read back as the builder wants them, and the
    fragments that go to the node; with the address other nodes dial
    (modules/subscription/subscription.formats.ts, [hostFromAddress]).

    The store is what the reads see: the cascades, each with the rows
    [writeTopologyV4] left, the nodes, the named outbounds and the policies.
    The gate of an entry is computed from squads and users ([entryGateFor]) and
    is a function of the store here, as is the answer of [deadCascadeIds].
    Underlays, tunnels and the entry policy go to the chain renderer only. *)

From S2P Require Import CascadeExclusive.
From S2P Require Import Prelude Js Json Directions CascadeValidation LinkCreds PolicyEntries EntryGate XrayLinks.
From S2P Require Import TopologyLinks TopologySave TopologyFragments TopologyRoutes CascadeJourney.

Local Open Scope string_scope.
Local Open Scope list_scope.
Local Open Scope Z_scope.

(** ** The address of a node *)
Fixpoint last_index_of_char (c : ascii) (s : string) : option nat :=
  match s with
  | EmptyString => None
  | String d s =>
      match last_index_of_char c s with
      | Some i => Some (S i)
      | None => if decide (d = c) then Some O else None
      end
  end.

Definition hostFromAddress (address : string) : string :=
  if starts_with "[" address then
    match index_of_char "]" address with
    | None => address
    | Some close => str_take (S close) address
    end
  else if negb (bool_decide (index_of_char ":" address = last_index_of_char ":" address)) then address
  else match index_of_char ":" address with
       | None => address
       | Some idx => str_take idx address
       end.

(** The closing [replace], whose dot takes no line terminator. *)
Definition line_end (c : ascii) : bool := bool_decide (c = "010"%char ∨ c = "013"%char).

Definition unbracket (h : string) : string :=
  match h with
  | String "["%char rest =>
      match reverse (list_ascii_of_string rest) with
      | "]"%char :: inner => if existsb line_end inner then h else string_of_list_ascii (reverse inner)
      | _ => h
      end
  | _ => h
  end.

Definition linkHostOf (address : string) : string := unbracket (hostFromAddress address).

(** ** The store *)
Record StoredCascade := mkStored {
  sc_row : CascadeExclusive.Cascade;
  sc_rows : Topology;
  sc_autoProfile : bool
}.

Record NodeRow := mkNode {
  n_id : string;
  n_address : string;
  n_deleted : bool;
  n_chainRunning : bool
}.

Record Store := mkStore {
  st_cascades : list StoredCascade;
  st_dead : list string;
  st_nodes : list NodeRow;
  st_outbound : string → string * jvalue;
  st_policies : list CascadePolicy;
  st_gate : string → string → list (string * list Z)
}.

Definition sc_id (s : StoredCascade) : string := CascadeExclusive.c_id (sc_row s).

Inductive read_error :=
  | UndrawableOutbound (nodeId : string) (tag : Z) (type : string)
  | Drawing (e : draw_error).

Definition DIRECTION_OUTBOUND_TYPES : list string := ["vless"; "socks"].

(** ** Reading *)
Section Read.
Context (store : Store).

(** The [where] of the cascade a node draws. *)
Definition touches (nodeId : string) (db : Topology) : bool :=
  existsb (λ l, bool_decide (lr_from l = nodeId) || bool_decide (lr_to l = nodeId)) (link_rows db) ||
  (existsb (λ p, bool_decide (nodeId ∈ p_nodeIds p)) (position_rows db) &&
   existsb (λ d, bool_decide (is_Some (dr_outboundId d))) (direction_rows db)).

Definition owner_leb (a b : StoredCascade) : bool :=
  CascadeExclusive.CASCADE_OWNERSHIP_ORDER (sc_row a) (sc_row b).

Definition owner (nodeId : string) : option StoredCascade :=
  head (sort_by owner_leb
    (filter (λ s, CascadeExclusive.c_enabled (sc_row s) && negb (bool_decide (sc_id s ∈ st_dead store)) &&
                  touches nodeId (sc_rows s) = true) (st_cascades store))).

Definition position_leb (a b : CascadePositionInput) : bool := p_position a <=? p_position b.
Definition tag_leb (a b : DirectionRow) : bool := dr_tag a <=? dr_tag b.

(** The last key of the order, the id, never decides: the first three are
    unique in a cascade. *)
Definition link_leb (a b : LinkRow) : bool :=
  (lr_tag a <? lr_tag b) ||
  ((lr_tag a =? lr_tag b) && (str_ltb (lr_from a) (lr_from b) ||
    (bool_decide (lr_from a = lr_from b) && str_leb (lr_to a) (lr_to b)))).
Definition ordinal_leb (a b : CascadePolicy) : bool := cp_ordinal a <=? cp_ordinal b.

Definition read_link (l : LinkRow) : option TopologyLinkRow :=
  c ← parseLinkCred (lr_config l);
  Some (TopologyFragments.mkLinkRow (lr_from l) (lr_to l) (lr_tag l) c).

Definition drawableOutbound (nodeId : string) (tag : Z) (o : string * jvalue) : result read_error (string * jvalue) :=
  if negb (bool_decide (o.1 ∈ DIRECTION_OUTBOUND_TYPES)) then Throw (UndrawableOutbound nodeId tag o.1)
  else Ok (o.1, match o.2 with JNull => JObj [] | config => config end).

Definition read_direction (nodeId : string) (d : DirectionRow) : result read_error TopologyDirection :=
  o ← (match dr_outboundId d with
       | Some id => Some <$> drawableOutbound nodeId (dr_tag d) (st_outbound store id)
       | None => Ok None
       end);
  Ok (mkTDirection (dr_tag d) (sort_by str_leb (dr_nodes d)) o).

Definition read_hosts (links : list LinkRow) : list (string * string) :=
  let nodeIds := js_uniq (links ≫= λ l, [lr_from l; lr_to l]) in
  let nodeRows := filter (λ n, n_id n ∈ nodeIds ∧ n_deleted n = false) (st_nodes store) in
  foldl (λ m n, jm_set (n_id n) (linkHostOf (n_address n)) m) [] nodeRows.

(** [entryGateFor]: no gate where the node is no entry, nor where its users
    arrive through the chain. *)
Definition entryGateFor (nodeId cascadeId : string) (positions : list CascadePositionInput)
    : option (list (string * list Z)) :=
  match js_find (λ p, p_position p =? 0) positions with
  | Some entry =>
      if negb (bool_decide (nodeId ∈ p_nodeIds entry)) || entryReachesCascadeOnlyThroughChain (p_entryProtocol entry)
      then None else Some (st_gate store nodeId cascadeId)
  | None => None
  end.

Definition entryProtocol (positions : list CascadePositionInput) : option string :=
  js_find (λ p, p_position p =? 0) positions ≫= p_entryProtocol.

(** The topology, with the protocol of its entry. *)
Definition readTopologyForNode (nodeId : string) : result read_error (option (TopologyInput * option string)) :=
  match owner nodeId with
  | None => Ok None
  | Some s =>
      let db := sc_rows s in
      let positions := sort_by position_leb (position_rows db) in
      let links := sort_by link_leb (link_rows db) in
      match mapM read_link links with
      | None => Ok None
      | Some rows =>
          directions ← map_res (read_direction nodeId) (sort_by tag_leb (direction_rows db));
          Ok (Some (TopologyFragments.mkTopology ((λ p, sort_by str_leb (p_nodeIds p)) <$> positions) directions rows
                      (read_hosts links) (Some (sort_by ordinal_leb (st_policies store))) (sc_autoProfile s) None
                      (entryGateFor nodeId (sc_id s) positions),
                    entryProtocol positions))
      end
  end.

(** ** The push *)
Record XrayCascadeFragments := mkFragments {
  w_inbounds : list jvalue;
  w_outbounds : list jvalue;
  w_rules : list Rule;
  w_linkIngressPort : option Z;
  w_linkAllowFrom : option (list string);
  w_balancers : option (list Balancer);
  w_observatory : option jvalue
}.

Definition toWireFragments (mine : HopConfig) : XrayCascadeFragments :=
  mkFragments (hc_inbounds mine) (filter (λ o, out_tag o ≠ Some "direct") (hc_outbounds mine)) (hc_rules mine)
    (hc_linkIngressPort mine) (hc_linkAllowFrom mine) (hc_balancers mine) (hc_observatory mine).

(** [foreignOf(nodeId, v4).length > 0]. *)
Definition dials_foreign (nodeId : string) (t : TopologyInput) : bool :=
  match last (ti_positions t) with
  | Some p => bool_decide (nodeId ∈ p) && existsb (λ d, bool_decide (is_Some (td_outbound d))) (ti_directions t)
  | None => false
  end.

(** [LINK_CELL_ENGINES[cell].includes('xray')]. *)
Definition xray_carries (c : LinkCred) : bool :=
  match c with Vless _ _ _ | Ss2022 _ _ _ => true | Hy2 _ _ _ _ | Tuic _ _ _ _ _ => false end.

Definition chain_running (nodeId : string) : bool :=
  match js_find (λ n, bool_decide (n_id n = nodeId)) (st_nodes store) with
  | Some n => n_chainRunning n
  | None => false
  end.

Definition legacyDrawingIsMoot (nodeId : string) (links : list TopologyLinkRow) (dialsForeign : bool) : bool :=
  if dialsForeign then true
  else if existsb (λ l, (bool_decide (tl_from l = nodeId) || bool_decide (tl_to l = nodeId)) &&
                        negb (xray_carries (tl_cred l))) links then true
  else chain_running nodeId.

Definition entersOnAnotherCore (nodeId : string) (protocol : option string) (entryNodeIds : list string) : bool :=
  entryReachesCascadeOnlyThroughChain protocol && bool_decide (nodeId ∈ entryNodeIds).

(** The topology branch: [HopPath] is the fall-through to the hop rows. *)
Inductive Pushed := NoLegacyDrawing | Fragments (w : XrayCascadeFragments) | HopPath.

Context (isIP : string → Z) (isRegExp : string → bool).

Definition draw_for (nodeId : string) (t : TopologyInput) : result read_error (option HopConfig) :=
  match buildTopologyFragmentsForNode isIP isRegExp nodeId t with
  | Ok mine => Ok mine
  | Throw e => Throw (Drawing e)
  end.

Definition buildCascadeFragmentsForNode (nodeId : string) : result read_error Pushed :=
  v4 ← readTopologyForNode nodeId;
  match v4 with
  | None => Ok HopPath
  | Some (t, protocol) =>
      if entersOnAnotherCore nodeId protocol (default [] (head (ti_positions t))) then Ok NoLegacyDrawing
      else if legacyDrawingIsMoot nodeId (ti_links t) (dials_foreign nodeId t) then Ok NoLegacyDrawing
      else
        mine ← draw_for nodeId t;
        Ok (match mine with Some cfg => Fragments (toWireFragments cfg) | None => HopPath end)
  end.
End Read.

(** ** What a host is *)
Lemma index_of_char_app c s t : char_free c s → index_of_char c (s +:+ String c t) = Some (String.length s).
Proof.
  unfold char_free. induction s as [|d s IH]; simpl; intros Hf; [by rewrite decide_True|].
  apply not_elem_of_cons in Hf as [Hne Hf]. rewrite decide_False, IH by done. done.
Qed.

Lemma index_of_char_none c s : char_free c s → index_of_char c s = None ∧ last_index_of_char c s = None.
Proof.
  unfold char_free. induction s as [|d s IH]; simpl; intros Hf; [done|].
  apply not_elem_of_cons in Hf as [Hne Hf]. destruct (IH Hf) as [-> ->]. by rewrite !decide_False.
Qed.

Lemma last_index_of_char_app c s t : char_free c t → last_index_of_char c (s +:+ String c t) = Some (String.length s).
Proof.
  intros Ht. induction s as [|d s IH]; simpl; [by rewrite (proj2 (index_of_char_none c t Ht)), decide_True|]. by rewrite IH.
Qed.

Lemma str_take_app s t : str_take (String.length s) (s +:+ t) = s.
Proof. induction s as [|c s IH]; simpl; [by destruct t|]. by rewrite IH. Qed.

Lemma unbracket_plain h : starts_with "[" h = false → unbracket h = h.
Proof. destruct h as [|[[] [] [] [] [] [] [] []] h]; done. Qed.

Lemma unbracket_bracketed h : char_free "010" h → char_free "013" h → unbracket ("[" +:+ h +:+ "]") = h.
Proof.
  unfold char_free. intros Hlf Hcr.
  assert (reverse (list_ascii_of_string (h +:+ "]")) = "]"%char :: reverse (list_ascii_of_string h)) as E.
  { assert (list_ascii_of_string (h +:+ "]") = list_ascii_of_string h ++ ["]"%char]) as ->; [|by rewrite reverse_app].
    clear. induction h as [|c h IH]; [done|]. exact (f_equal (cons c) IH). }
  change (unbracket (String "[" (h +:+ "]")) = h). unfold unbracket. cbv iota beta. rewrite E.
  assert (existsb line_end (reverse (list_ascii_of_string h)) = false) as ->.
  { apply not_true_iff_false. rewrite existsb_exists. intros (c & Hin & Hc). apply list_elem_of_In in Hin.
    rewrite elem_of_reverse in Hin. apply bool_decide_eq_true in Hc. by destruct Hc as [->| ->]. }
  by rewrite reverse_involutive, string_of_list_ascii_of_string.
Qed.

(** A name or an IPv4 address, with a port or without. *)
Lemma linkHostOf_plain h p : char_free ":" h → starts_with "[" h = false → char_free ":" p →
  linkHostOf h = h ∧ (h ≠ "" → linkHostOf (h +:+ ":" +:+ p) = h).
Proof.
  intros Hh Hb Hp. unfold linkHostOf, hostFromAddress. split.
  - rewrite Hb. destruct (index_of_char_none _ _ Hh) as [-> ->]. rewrite bool_decide_true by done. by apply unbracket_plain.
  - intros Hne. change (h +:+ ":" +:+ p) with (h +:+ String ":" p).
    assert (starts_with "[" (h +:+ String ":" p) = false) as -> by by destruct h.
    rewrite (index_of_char_app _ h p Hh), (last_index_of_char_app _ h p Hp), bool_decide_true by done. cbn [negb].
    rewrite str_take_app. by apply unbracket_plain.
Qed.

(** An IPv6 address, bare, bracketed, or bracketed with a port. *)
Lemma linkHostOf_ipv6 h rest : char_free "]" h → char_free "[" h → char_free "010" h → char_free "013" h →
  linkHostOf ("[" +:+ h +:+ "]" +:+ rest) = h ∧
  (index_of_char ":" h ≠ last_index_of_char ":" h → linkHostOf h = h).
Proof.
  intros Hc Ho Hlf Hcr. unfold linkHostOf, hostFromAddress. split.
  - change ("[" +:+ h +:+ "]" +:+ rest) with ("[" +:+ (h +:+ String "]" rest)).
    assert (starts_with "[" ("[" +:+ (h +:+ String "]" rest)) = true) as -> by by destruct h.
    assert (index_of_char "]" ("[" +:+ (h +:+ String "]" rest)) = Some (S (String.length h))) as ->.
    { transitivity (S <$> index_of_char "]" (h +:+ String "]" rest)); [reflexivity|]. by rewrite index_of_char_app. }
    assert (str_take (S (S (String.length h))) ("[" +:+ (h +:+ String "]" rest)) = "[" +:+ h +:+ "]") as ->.
    { transitivity (String "[" (str_take (S (String.length h)) (h +:+ String "]" rest))); [reflexivity|].
      apply (f_equal (String "[")). clear. induction h as [|c h IH]; [by destruct rest|]. exact (f_equal (String c) IH). }
    by apply unbracket_bracketed.
  - intros Hne. assert (starts_with "[" h = false) as Hb.
    { destruct h as [|c h]; [done|]. cbn. apply andb_false_iff. left. apply bool_decide_eq_false. intros <-.
      apply Ho. by left. }
    rewrite Hb, bool_decide_false by done. cbn. by apply unbracket_plain.
Qed.
