(* ===== verification/CascadeDelivery.v ===== *)
(** From a save to the traffic: the topology an operator saved is the one every
    node of the cascade reads back, draws and is pushed, so a connection under a
    direction's tag goes through the pools that were saved and out of the
    direction's own.  Joins TopologySave, CascadeExclusive, TopologyRead and
    CascadeJourney. *)

From S2P Require Import CascadeExclusive.
From S2P Require Import Prelude Js Json Draws Directions CascadeValidation LinkCreds PolicyEntries EntryGate XrayLinks.
From S2P Require Import TopologyLinks CascadeTunnel TopologySave TopologyFragments TopologyRoutes CascadeJourney TopologyRead.

Local Open Scope string_scope.
Local Open Scope list_scope.
Local Open Scope Z_scope.

(** ** What a save leaves *)
Record stored_as (ps : list CascadePositionInput) (tds : list TaggedDirection) (db : Topology) : Prop := {
  saved_positions : position_rows db = ps;
  saved_ok : topology_ok db;
  saved_tags : dr_tag <$> direction_rows db ≡ₚ tds.*1;
  saved_row d : d ∈ tds → ∃ row, row ∈ direction_rows db ∧ dr_tag row = d.1 ∧ dr_nodes row = rd_nodeIds d.2 ∧
    dr_countryCode row = rd_countryCode d.2 ∧ (truthy (rd_outboundId d.2) = false → dr_outboundId row = None);
  saved_ends : NoDup (lr_ends <$> link_rows db);
  saved_leg e : e ∈ lr_ends <$> link_rows db ↔ ∃ p, p ∈ legs_of ps tds ∧ leg_ends p = e;
  saved_link l : l ∈ link_rows db → ∃ p c, p ∈ legs_of ps tds ∧ lr_ends l = leg_ends p ∧
    parseLinkCred (lr_config l) = Some c ∧ protocol c = l_protocol p ∧ port c = leg_port p
}.

Section Save.
Context {R G : Type} `{RandomOk R} `{TunnelRandomOk G patience} (fuel : nat).
Context (udp_profiles : string → Z → list string) (node_name : string → string).
Context (cascadeId : string) (policies : list (string * string)) (ids : list string).
Context (ps : list CascadePositionInput) (ds : list ResolvedDirection) (db : Topology).
Context (tunnels : list TunnelRow) (r : R) (g : G).

Notation save := (writeTopologyV4 fuel udp_profiles node_name cascadeId policies ids ps ds db tunnels r g).

Lemma save_saved ps0 v db' tunnels' r' g' :
  topology_ok db → NoDup ids → (∀ i, i ∈ ids → i ∉ dr_id <$> direction_rows db) → (length ds <= length ids)%nat →
  validateCascadeTopology ps0 ds = Ok v → ps = v_positions v → typed_topology ps (pair 0 <$> ds) →
  save = Some (Ok (db', tunnels'), r', g') →
  ∃ rs, r_direction <$> rs = ds ∧ stored_as ps (tagged <$> rs) db' ∧ distinct_topology ps (tagged <$> rs).
Proof.
  intros Hok Hids Hfresh Hen Hv Eps Ht Hs. destruct (save_inv _ _ _ _ _ _ _ _ _ _ _ _ _ _ _ _ Hs)
    as (rs & n & ls & E & Hn & _ & (r0 & El) & ->).
  pose proof (resolve_ok _ _ _ _ Hok E) as Hres. subst ps.
  assert ((tagged <$> rs).*2 = ds) as Eds.
  { rewrite <-list_fmap_compose. apply (res_directions _ _ _ _ Hres). }
  assert ((tagged <$> rs).*1 = r_tag <$> rs) as Etag by by rewrite <-list_fmap_compose.
  assert (typed_topology (v_positions v) (tagged <$> rs)) as Ht'.
  { split; [apply Ht|]. intros d Hd. apply (list_elem_of_fmap_2 snd) in Hd. rewrite Eds in Hd.
    by apply (proj2 Ht (0, d.2)), (list_elem_of_fmap_2 (pair 0)). }
  assert (NoDup (tagged <$> rs).*1) as Hnd by (rewrite Etag; apply (res_tags _ _ _ _ Hres)).
  rewrite <-Eds in Hv. destruct (validated_facts _ _ _ Hv Hnd Ht') as (Hc & Hd & _).
  exists rs. split; [apply Hres|]. split; [|done].
  pose proof (rows_ok db ds rs n (v_positions v) ids Hok Hres Hids Hfresh Hen Hn) as Hok'.
  pose proof (rows_tags db ds rs n (v_positions v) ids Hok Hres) as [_ Htags]; [done..|].
  destruct (generate_ok (storedLinkMap (link_rows db)) (v_positions v) (tagged <$> rs) r
    (storedLinks_parsed _) Hc Ht') as (m & ls' & r1 & E' & _ & Hf).
  rewrite El in E'. injection E' as <- <-.
  assert (lr_ends <$> (link_row_of <$> ls.*1) = leg_ends <$> legs_of (v_positions v) (tagged <$> rs)) as Eends.
  { rewrite <-list_fmap_compose. clear -Hf. induction Hf as [|p l legs links Hm _ IH]; [done|]. cbn [fmap list_fmap].
    f_equal; [|exact IH]. apply (made_ends _ _ _ _ Hm). }
  constructor; cbn [position_rows direction_rows link_rows]; [done|by destruct Hok'|by rewrite Etag| | | |].
  - intros d (x & -> & Hx)%list_elem_of_fmap.
    destruct (wrote db ds rs n (v_positions v) ids Hok Hres Hids Hfresh Hen x Hx) as (i & Hi & _).
    exists (direction_row (v_positions v) i x). split; [done|]. unfold direction_row.
    destruct (truthy _) eqn:Eo; (split; [done|split; [done|split; [done|]]]); [|done]. cbn in *. congruence.
  - rewrite Eends. by apply legs_ends_NoDup.
  - intros e. rewrite Eends, list_elem_of_fmap. naive_solver.
  - intros l (k & -> & Hk)%list_elem_of_fmap. destruct (Forall2_elem_r _ _ _ _ Hf Hk) as (p & Hp & Hm).
    exists p, (cred k). split; [done|]. split; [apply (made_ends _ _ _ _ Hm)|]. cbn [link_row_of lr_config].
    split; [apply parse_serialize_cred, (made_whole _ _ _ _ Hm)|]. by split; [apply (made_cell _ _ _ _ Hm)|apply (made_port _ _ _ _ Hm)].
Qed.
End Save.

(** ** The legs of a topology, by the node they land on *)
Section Legs.
Context (ps : list CascadePositionInput) (tds : list TaggedDirection).
Hypothesis distinct : distinct_topology ps tds.

Lemma pool_unique (d d' : TaggedDirection) n : d ∈ tds → d' ∈ tds → n ∈ rd_nodeIds d.2 → n ∈ rd_nodeIds d'.2 → d = d'.
Proof.
  intros (i & Hi)%list_elem_of_lookup (j & Hj)%list_elem_of_lookup Hn Hn'.
  destruct (proj1 (NoDup_app _ _) (proj1 distinct)) as (_ & _ & Hnd).
  pose proof (bind_index _ _ _ _ _ _ _ Hnd Hi Hj Hn Hn') as ->. congruence.
Qed.

Lemma pool_apart i p (d : TaggedDirection) n : ps !! i = Some p → n ∈ p_nodeIds p → d ∈ tds → n ∉ rd_nodeIds d.2.
Proof.
  intros Hp Hn Hd Hin. destruct (proj1 (NoDup_app _ _) (proj1 distinct)) as (_ & Hdis & _).
  apply (Hdis n); apply list_elem_of_bind; [exists p; split; [done|by eapply list_elem_of_lookup_2]|by exists d].
Qed.

Lemma legs_land p p' : p ∈ legs_of ps tds → p' ∈ legs_of ps tds → l_to p = l_to p' →
  l_protocol p = l_protocol p' ∧ leg_port p = leg_port p'.
Proof.
  rewrite !elem_of_legs. unfold leg_port.
  intros [(a & b & d & Ha & Hb & Hd & Hf & Ht & E)|(q & d & Hq & Hd & Hf & Ht & E)]
    [(a' & b' & d' & Ha' & Hb' & Hd' & Hf' & Ht' & E')|(q' & d' & Hq' & Hd' & Hf' & Ht' & E')] Eto; rewrite Eto in Ht.
  - pose proof (step_unique _ _ distinct _ _ _ _ _ Hb Hb' Ht Ht') as [= Es]. rewrite Es in Ha.
    rewrite Ha in Ha'. injection Ha' as <-. rewrite Es, E, E'. done.
  - exfalso. by eapply (pool_apart _ b d').
  - exfalso. by eapply (pool_apart _ b' d).
  - pose proof (pool_unique d d' _ Hd Hd' Ht Ht') as <-. rewrite Hq in Hq'. injection Hq' as <-. by rewrite E, E'.
Qed.
End Legs.

(** ** Reading it back *)
Lemma jm_get_rows {A V} (key : A → string) (f : A → V) (rows : list A) k : NoDup (key <$> rows) →
  ∀ v, jm_get k (foldl (λ m n, jm_set (key n) (f n) m) [] rows) = Some v ↔ ∃ n, n ∈ rows ∧ key n = k ∧ f n = v.
Proof.
  induction rows as [|n rows IH] using rev_ind; intros Hnd v.
  { split; [done|]. intros (n & Hn & _). by apply not_elem_of_nil in Hn. }
  rewrite fmap_app in Hnd. apply NoDup_app in Hnd as (Hnd & Hdis & _).
  rewrite foldl_app. simpl. rewrite jm_get_set. setoid_rewrite elem_of_app. setoid_rewrite list_elem_of_singleton.
  destruct (decide (k = key n)) as [->|Hne].
  - split; [intros [= <-]; exists n; by split; [right|]|]. intros (n' & [Hn'| ->] & Ek & <-); [|done].
    exfalso. apply (Hdis (key n)); [rewrite <-Ek; by apply list_elem_of_fmap_2|cbn; by left].
  - rewrite IH by done. split; intros (n' & Hn' & Ek & Ev); exists n'; [naive_solver|].
    destruct Hn' as [Hn'| ->]; [done|by rewrite Ek in Hne].
Qed.

(** The address the rest of the fleet knows a node by. *)
Definition address (store : Store) (n : string) : option string :=
  row ← js_find (λ x, bool_decide (n_id x = n) && negb (n_deleted x)) (st_nodes store);
  let h := linkHostOf (n_address row) in if bool_decide (h = "") then None else Some h.

Lemma jm_get_hosts store links n : NoDup (n_id <$> st_nodes store) → n ∈ (links ≫= λ l, [lr_from l; lr_to l]) →
  (h ← jm_get n (read_hosts store links); if bool_decide (h = "") then None else Some h) = address store n.
Proof.
  intros Hnd Hn. unfold address, read_hosts.
  set (rows := filter _ (st_nodes store)).
  assert (NoDup (n_id <$> rows)) as Hnd' by by apply NoDup_fmap_filter.
  assert (∀ x, x ∈ rows ∧ n_id x = n ↔ x ∈ st_nodes store ∧ n_id x = n ∧ n_deleted x = false) as Hrows.
  { intros x. unfold rows. rewrite list_elem_of_filter, elem_of_js_uniq. naive_solver. }
  destruct (jm_get n _) as [h|] eqn:E.
  - apply (jm_get_rows n_id (λ x, linkHostOf (n_address x))) in E as (x & Hx & Ex & <-); [|done].
    assert (js_find (λ x, bool_decide (n_id x = n) && negb (n_deleted x)) (st_nodes store) = Some x) as ->; [|done].
    destruct (js_find _ _) as [y|] eqn:Ey.
    + apply js_find_Some in Ey as [Hy Ey]. bool_prop. f_equal.
      destruct (Hrows x) as [[Hx' _] _]; [done|]. by apply (NoDup_fmap_elem n_id (st_nodes store)); [..|congruence].
    + exfalso. rewrite js_find_None in Ey. destruct (proj1 (Hrows x)) as (Hx1 & Hx2 & Hx3); [done|].
      specialize (Ey x Hx1). rewrite Hx3, bool_decide_true in Ey by done. done.
  - destruct (js_find _ _) as [y|] eqn:Ey; [|done]. exfalso. apply js_find_Some in Ey as [Hy Ey]. bool_prop.
    assert (jm_get n (foldl (λ m x, jm_set (n_id x) (linkHostOf (n_address x)) m) [] rows)
      = Some (linkHostOf (n_address y))) as E'.
    { apply (jm_get_rows n_id (λ x, linkHostOf (n_address x))); [done|]. exists y. destruct (proj2 (Hrows y)); naive_solver. }
    by rewrite E in E'.
Qed.

Definition all_nodes (ps : list CascadePositionInput) (tds : list TaggedDirection) : list string :=
  (ps ≫= p_nodeIds) ++ (tds ≫= λ d, rd_nodeIds d.2).

(** What the cascade must be for xray to carry it by itself: positions numbered
    and filled, every direction a pool, and legs of the cells xray has. *)
Record xray_cascade (ps : list CascadePositionInput) (tds : list TaggedDirection) : Prop := {
  xc_some : tds ≠ [];
  xc_numbered j p : ps !! j = Some p → p_position p = Z.of_nat j;
  xc_filled p : p ∈ ps → p_nodeIds p ≠ [];
  xc_pools d : d ∈ tds → rd_nodeIds d.2 ≠ [] ∧ truthy (rd_outboundId d.2) = false;
  xc_cells p : p ∈ legs_of ps tds → l_protocol p ∈ ["vless"; "shadowsocks"];
  xc_entry p : ps !! 0%nat = Some p → entryReachesCascadeOnlyThroughChain (p_entryProtocol p) = false
}.

(** No two legs drew the same secret. *)
Definition secrets_apart (db : Topology) : Prop :=
  ∀ l l' c c', l ∈ link_rows db → l' ∈ link_rows db → parseLinkCred (lr_config l) = Some c →
    parseLinkCred (lr_config l') = Some c' → secret_of c = secret_of c' → l = l'.

(** The rest of the panel: route policies with ordinals of their own, node ids
    unique, every node of the cascade reachable at an address of its own and
    without a chain process, and user ids that a rule can list. *)
Record fleet_ok (store : Store) (nodes : list string) : Prop := {
  fl_policies : Forall (λ p, 1 <= cp_ordinal p <= MAX_DIRECTION_ORDINAL) (st_policies store);
  fl_ordinals : NoDup (cp_ordinal <$> st_policies store);
  fl_ids : NoDup (n_id <$> st_nodes store);
  fl_known n : n ∈ nodes → is_Some (address store n);
  fl_apart n m h : address store n = Some h → address store m = Some h → n = m;
  fl_chain n : n ∈ nodes → chain_running store n = false;
  fl_users n i : Forall id_ok (jm_keys (st_gate store n i))
}.

Section ReadBack.
Context (ps : list CascadePositionInput) (tds : list TaggedDirection) (s : StoredCascade) (store : Store).
Notation db := (sc_rows s).
Hypothesis Hs : stored_as ps tds db.
Hypothesis Hd : distinct_topology ps tds.
Hypothesis Hx : xray_cascade ps tds.
Hypothesis Hsec : secrets_apart db.
Hypothesis Hfl : fleet_ok store (all_nodes ps tds).

Lemma read_positions : sort_by position_leb (position_rows db) = ps.
Proof.
  rewrite (saved_positions _ _ _ Hs). apply sort_by_sorted_id.
  assert (∀ k l, (∀ j p, l !! j = Some p → p_position p = Z.of_nat (k + j)) →
    StronglySorted (λ a b, position_leb a b = true) l) as Hl.
  2:{ apply (Hl 0%nat). apply (xc_numbered _ _ Hx). }
  intros k l. revert k. induction l as [|p l IH]; intros k Hk; constructor.
  - apply (IH (S k)). intros j q Hq. rewrite (Hk (S j) q Hq). f_equal. lia.
  - apply Forall_forall. intros q (j & Hq)%list_elem_of_lookup. unfold position_leb.
    rewrite (Hk 0%nat p eq_refl), (Hk (S j) q Hq). apply Z.leb_le. lia.
Qed.

(** *** Directions *)
Definition dir_of (d : TaggedDirection) : Z * list string := (d.1, rd_nodeIds d.2).

Lemma saved_dirs : (λ row, (dr_tag row, dr_nodes row)) <$> direction_rows db ≡ₚ dir_of <$> tds.
Proof.
  symmetry. apply submseteq_length_Permutation.
  - apply NoDup_submseteq.
    + apply (NoDup_fmap_1 fst). rewrite <-list_fmap_compose. apply Hd.
    + intros x (d & -> & Hin)%list_elem_of_fmap. destruct (saved_row _ _ _ Hs d Hin) as (row & Hrow & Et & En & _ & _).
      apply list_elem_of_fmap. exists row. split; [|done]. unfold dir_of. by rewrite <-Et, <-En.
  - rewrite !length_fmap, <-(length_fmap dr_tag), (saved_tags _ _ _ Hs). by rewrite length_fmap.
Qed.

Lemma row_direct row : row ∈ direction_rows db → dr_outboundId row = None.
Proof.
  intros Hrow. pose proof (list_elem_of_fmap_2 dr_tag _ _ Hrow) as Ht. rewrite (saved_tags _ _ _ Hs) in Ht.
  apply list_elem_of_fmap in Ht as (d & Et & Hin). destruct (saved_row _ _ _ Hs d Hin) as (row' & Hrow' & Et' & _ & _ & Ho).
  assert (row = row') as ->.
  { apply (NoDup_fmap_elem dr_tag (direction_rows db)); [apply (saved_ok _ _ _ Hs)|done..|congruence]. }
  apply Ho, (xc_pools _ _ Hx), Hin.
Qed.

Definition base_directions : list TopologyDirection :=
  (λ d, mkTDirection (dr_tag d) (sort_by str_leb (dr_nodes d)) None) <$> sort_by tag_leb (direction_rows db).

Lemma read_directions n : map_res (read_direction store n) (sort_by tag_leb (direction_rows db)) = Ok base_directions.
Proof.
  apply map_res_pure. intros d Hin. apply elem_of_sort_by in Hin. unfold read_direction. by rewrite row_direct.
Qed.

Lemma elem_of_directions x : x ∈ base_directions ↔
  ∃ d, d ∈ tds ∧ td_tag x = d.1 ∧ td_nodeIds x = sort_by str_leb (rd_nodeIds d.2) ∧ td_outbound x = None.
Proof.
  unfold base_directions. rewrite list_elem_of_fmap. setoid_rewrite elem_of_sort_by. split.
  - intros (row & -> & Hrow). pose proof (list_elem_of_fmap_2 (λ row, (dr_tag row, dr_nodes row)) _ _ Hrow) as Hin.
    rewrite saved_dirs in Hin. apply list_elem_of_fmap in Hin as (d & [= E1 E2] & Hin). exists d. cbn.
    by rewrite E1, E2.
  - intros (d & Hin & Et & En & Eo). destruct (saved_row _ _ _ Hs d Hin) as (row & Hrow & Et' & En' & _).
    exists row. split; [|done]. rewrite Et', En'. destruct x. cbn in *. congruence.
Qed.

Lemma direction_tags : td_tag <$> base_directions ≡ₚ tds.*1.
Proof.
  unfold base_directions. rewrite <-list_fmap_compose. rewrite <-(saved_tags _ _ _ Hs).
  apply fmap_Permutation, sort_by_perm.
Qed.

Lemma nodes_perm : mjoin ((λ p, sort_by str_leb (p_nodeIds p)) <$> ps) ++ (base_directions ≫= td_nodeIds)
  ≡ₚ all_nodes ps tds.
Proof.
  unfold all_nodes. f_equiv.
  - rewrite join_map. clear. induction ps as [|p l IH]; [done|]. cbn. by rewrite sort_by_perm, IH.
  - transitivity (((λ row, (dr_tag row, dr_nodes row)) <$> direction_rows db) ≫= snd).
    + unfold base_directions. rewrite <-(sort_by_perm tag_leb (direction_rows db)) at 2.
      generalize (sort_by tag_leb (direction_rows db)). intros rows.
      induction rows as [|row rows IH]; [done|]. cbn. by rewrite sort_by_perm, IH.
    + rewrite saved_dirs. unfold dir_of. clear. induction tds as [|d l IH]; [done|]. cbn. by rewrite IH.
Qed.

(** *** Links *)
Definition read_as (l : LinkRow) (x : TopologyLinkRow) : Prop := read_link l = Some x.

Lemma read_links : ∃ rows, mapM read_link (sort_by link_leb (link_rows db)) = Some rows ∧
  Forall2 read_as (sort_by link_leb (link_rows db)) rows.
Proof.
  destruct (mapM_is_Some_2 read_link (sort_by link_leb (link_rows db))) as [rows E].
  - apply Forall_forall. intros l Hl. apply elem_of_sort_by in Hl.
    destruct (saved_link _ _ _ Hs l Hl) as (p & c & _ & _ & E & _). exists (TopologyFragments.mkLinkRow (lr_from l) (lr_to l) (lr_tag l) c).
    unfold read_link. by rewrite E.
  - exists rows. split; [done|]. by apply mapM_Some.
Qed.

Context (rows : list TopologyLinkRow) (Hrows : Forall2 read_as (sort_by link_leb (link_rows db)) rows).

Definition tl_ends (x : TopologyLinkRow) : string * string * Z := (tl_from x, tl_to x, tl_tag x).

Lemma read_link_ok l x : read_link l = Some x ↔ tl_ends x = lr_ends l ∧ parseLinkCred (lr_config l) = Some (tl_cred x).
Proof.
  unfold read_link, tl_ends, lr_ends. destruct (parseLinkCred (lr_config l)) as [c|]; cbn.
  - split; [by intros [= <-]|]. destruct x. cbn. by intros [[= -> -> ->] [= ->]].
  - split; [done|]. by intros [].
Qed.

Lemma row_of x : x ∈ rows → ∃ l, l ∈ link_rows db ∧ tl_ends x = lr_ends l ∧ parseLinkCred (lr_config l) = Some (tl_cred x).
Proof.
  intros Hin. destruct (Forall2_elem_r _ _ _ _ Hrows Hin) as (l & Hl & E). apply elem_of_sort_by in Hl.
  exists l. split; [done|]. by apply read_link_ok.
Qed.

Lemma rows_ends e : (∃ x, x ∈ rows ∧ tl_ends x = e) ↔ ∃ p, p ∈ legs_of ps tds ∧ leg_ends p = e.
Proof.
  rewrite <-(saved_leg _ _ _ Hs), list_elem_of_fmap. split.
  - intros (x & Hin & <-). destruct (row_of x Hin) as (l & Hl & E & _). by exists l.
  - intros (l & -> & Hl). apply (elem_of_sort_by link_leb) in Hl as Hl'.
    destruct (Forall2_elem_l _ _ _ _ Hrows Hl') as (x & Hin & E). exists x. split; [done|]. by apply read_link_ok in E as [? _].
Qed.

Lemma row_once x y l : x ∈ rows → y ∈ rows → tl_ends x = lr_ends l → tl_ends y = lr_ends l →
  l ∈ link_rows db → parseLinkCred (lr_config l) = Some (tl_cred x) → x = y.
Proof.
  intros Hx' Hy Ex Ey Hl Ec. destruct (row_of y Hy) as (l' & Hl' & Ey' & Ec').
  assert (l' = l) as -> by (apply (NoDup_fmap_elem lr_ends (link_rows db)); [apply (saved_ends _ _ _ Hs)|done..|congruence]).
  unfold tl_ends in *. destruct x, y. cbn in *. congruence.
Qed.

(** The legs that land on a node share its listener. *)
Lemma row_leg x : x ∈ rows → ∃ p, p ∈ legs_of ps tds ∧ tl_ends x = leg_ends p ∧
  protocol (tl_cred x) = l_protocol p ∧ port (tl_cred x) = leg_port p.
Proof.
  intros Hin. destruct (row_of x Hin) as (l & Hl & E & Ec).
  destruct (saved_link _ _ _ Hs l Hl) as (p & c & Hp & Ep & Ec' & Epr & Epo).
  rewrite Ec in Ec'. injection Ec' as <-. exists p. by rewrite E.
Qed.

Lemma rows_listener n : one_listener (filter (λ x, tl_to x = n) rows).
Proof.
  split; [|split].
  - intros x y [Hn Hin]%list_elem_of_filter [Hn' Hin']%list_elem_of_filter.
    destruct (row_leg x Hin) as (p & Hp & [= _ Et _] & -> & ->), (row_leg y Hin') as (p' & Hp' & [= _ Et' _] & -> & ->).
    apply (legs_land ps tds Hd); congruence.
  - intros x y [_ Hin]%list_elem_of_filter [_ Hin']%list_elem_of_filter E.
    destruct (row_of x Hin) as (l & Hl & El & Ec), (row_of y Hin') as (l' & Hl' & El' & Ec').
    assert (l = l') as <- by by apply (Hsec l l' (tl_cred x) (tl_cred y)).
    by apply (row_once x y l).
  - intros x [_ Hin]%list_elem_of_filter. destruct (row_leg x Hin) as (p & Hp & _ & Epr & _).
    pose proof (xc_cells _ _ Hx p Hp) as Hc. rewrite <-Epr in Hc. destruct (tl_cred x); try done; set_solver.
Qed.

(** *** The topology read *)
Definition base : TopologyInput :=
  TopologyFragments.mkTopology ((λ p, sort_by str_leb (p_nodeIds p)) <$> ps) base_directions rows
    (read_hosts store (sort_by link_leb (link_rows db))) (Some (sort_by ordinal_leb (st_policies store)))
    (sc_autoProfile s) None None.

Definition gate_at (n : string) : option (list (string * list Z)) := entryGateFor store n (sc_id s) ps.

Lemma base_position i q : ti_positions base !! i = Some q ↔ ∃ p, ps !! i = Some p ∧ q = sort_by str_leb (p_nodeIds p).
Proof. cbn. rewrite list_lookup_fmap. destruct (ps !! i); cbn; naive_solver. Qed.

Lemma base_last q : last (ti_positions base) = Some q ↔ ∃ p, last ps = Some p ∧ q = sort_by str_leb (p_nodeIds p).
Proof. cbn. rewrite fmap_last. destruct (last ps); cbn; naive_solver. Qed.

Lemma links_between a b x : x ∈ base_directions → (∃ l, leg_of base l a b x) ↔ leg_between base a b x.
Proof.
  intros Hin. apply elem_of_directions in Hin as (d & Hind & Et & En & _).
  transitivity (∃ p, p ∈ legs_of ps tds ∧ leg_ends p = (a, b, td_tag x)).
  { rewrite <-rows_ends. unfold leg_of, tl_ends. apply exist_proper. intros l.
    split; [by intros (? & -> & -> & ->)|by intros (? & [= -> -> ->])]. }
  unfold leg_between. setoid_rewrite base_position. setoid_rewrite base_last. setoid_rewrite elem_of_legs. split.
  - intros (p & [(q & q' & d' & Hq & Hq' & Hd' & Hf & Hto & E)|(q & d' & Hq & Hd' & Hf & Hto & E)] & Ee);
      unfold leg_ends in Ee; injection Ee as <- <- Eg; [left|right].
    + exists (l_step p), (sort_by str_leb (p_nodeIds q)), (sort_by str_leb (p_nodeIds q')). rewrite !elem_of_sort_by.
      split; [by exists q|]. split; [by exists q'|done].
    + exists (sort_by str_leb (p_nodeIds q)). rewrite elem_of_sort_by. split; [by exists q|]. split; [done|].
      rewrite En, elem_of_sort_by. rewrite E in Eg. cbn in Eg.
      by rewrite (direction_unique ps tds Hd d d') by congruence.
  - intros [(i & ? & ? & (q & Hq & ->) & (q' & Hq' & ->) & Ha & Hb)|(? & (q & Hq & ->) & Ha & Hb)];
      apply elem_of_sort_by in Ha.
    + apply elem_of_sort_by in Hb. exists (mkLeg a b d.1 (position_cell q) i (congestion_of (p_linkParams q))).
      split; [left; by exists q, q', d|]. unfold leg_ends. cbn. by rewrite Et.
    + rewrite En in Hb. apply elem_of_sort_by in Hb.
      exists (mkLeg a b d.1 (direction_cell q d.2) (length ps - 1) (last_congestion q d.2)).
      split; [right; by exists q, d|]. unfold leg_ends. cbn. by rewrite Et.
Qed.

Lemma all_nodes_cases n : n ∈ all_nodes ps tds →
  (∃ i p, ps !! i = Some p ∧ n ∈ p_nodeIds p) ∨ ∃ d, d ∈ tds ∧ n ∈ rd_nodeIds d.2.
Proof.
  unfold all_nodes. rewrite elem_of_app, !list_elem_of_bind. intros [(p & Hn & Hp)|(d & Hn & Hin)]; [left|right; by exists d].
  apply list_elem_of_lookup in Hp as [i Hi]. by exists i, p.
Qed.

Lemma elem_of_ends n l : l ∈ link_rows db → n = lr_from l ∨ n = lr_to l →
  n ∈ (sort_by link_leb (link_rows db) ≫= λ l, [lr_from l; lr_to l]).
Proof.
  intros Hl Hn. apply list_elem_of_bind. exists l. split; [|by apply elem_of_sort_by]. set_solver.
Qed.

(** Every node of the cascade has a leg, so its address is read. *)
Lemma node_linked n : ps ≠ [] → n ∈ all_nodes ps tds → ∃ l, l ∈ link_rows db ∧ (n = lr_from l ∨ n = lr_to l).
Proof.
  intros Hps Hn. assert (∃ p, p ∈ legs_of ps tds ∧ (n = l_from p ∨ n = l_to p)) as (p & Hp & Hend).
  2:{ assert (leg_ends p ∈ lr_ends <$> link_rows db) as Hin by (apply (saved_leg _ _ _ Hs); by exists p).
      apply list_elem_of_fmap in Hin as (l & E & Hl). exists l. split; [done|].
      unfold leg_ends, lr_ends in E. injection E as <- <- _. done. }
  setoid_rewrite elem_of_legs. destruct tds as [|d0 tds0] eqn:Etds; [by destruct (xc_some _ _ Hx)|]. rewrite <-Etds in *.
  assert (d0 ∈ tds) as Hd0 by (rewrite Etds; by left). clear Etds.
  assert (∀ i p, ps !! i = Some p → ∃ f, f ∈ p_nodeIds p) as Hpool.
  { intros i p Hi. pose proof (xc_filled _ _ Hx p (list_elem_of_lookup_2 _ _ _ Hi)). destruct (p_nodeIds p) as [|f fs]; [done|].
    exists f. by left. }
  destruct (all_nodes_cases n Hn) as [(i & p & Hi & Hin)|(d & Hind & Hin)].
  - destruct (ps !! S i) as [q|] eqn:Eq.
    + destruct (Hpool _ _ Eq) as [f Hf]. exists (mkLeg n f d0.1 (position_cell p) i (congestion_of (p_linkParams p))).
      split; [left; by exists p, q, d0|by left].
    + destruct (xc_pools _ _ Hx d0 Hd0) as [Hne _]. destruct (rd_nodeIds d0.2) as [|f fs] eqn:Ef; [done|].
      exists (mkLeg n f d0.1 (direction_cell p d0.2) (length ps - 1) (last_congestion p d0.2)).
      split; [right|by left]. exists p, d0. rewrite last_lookup. apply lookup_lt_Some in Hi as Hlt.
      apply lookup_ge_None in Eq. replace (pred (length ps)) with i by lia. rewrite Ef. split; [done|]. split; [done|].
      split; [done|]. split; [by left|done].
  - destruct (last ps) as [p|] eqn:El; [|by apply last_None in El].
    destruct (Hpool (length ps - 1)%nat p) as [f Hf].
    { rewrite last_lookup in El. by replace (length ps - 1)%nat with (pred (length ps)) by lia. }
    exists (mkLeg f n d.1 (direction_cell p d.2) (length ps - 1) (last_congestion p d.2)).
    split; [right; by exists p, d|by right].
Qed.

Hypothesis Hps : ps ≠ [].

Lemma base_host n : n ∈ all_nodes ps tds → host_of base n = address store n.
Proof.
  intros Hn. destruct (node_linked n Hps Hn) as (l & Hl & Hend).
  exact (jm_get_hosts store _ n (fl_ids _ _ Hfl) (elem_of_ends n l Hl Hend)).
Qed.

Lemma host_node n h : host_of base n = Some h → n ∈ all_nodes ps tds.
Proof.
  unfold host_of. destruct (jm_get n (ti_hosts base)) as [h'|] eqn:E; [|done]. intros _.
  apply (jm_get_rows n_id (λ x, linkHostOf (n_address x))) in E as (x & Hin & <- & _);
    [|apply NoDup_fmap_filter, (fl_ids _ _ Hfl)].
  apply list_elem_of_filter in Hin as [[Hin _] _]. rewrite elem_of_js_uniq, list_elem_of_bind in Hin.
  destruct Hin as (l & Hn & Hl). apply elem_of_sort_by in Hl.
  destruct (saved_link _ _ _ Hs l Hl) as (p & c & Hp & E & _). unfold lr_ends, leg_ends in E. injection E as E1 E2 _.
  assert (n_id x = l_from p ∨ n_id x = l_to p) as Hend.
  { apply elem_of_cons in Hn as [->|Hn]; [by left|]. apply list_elem_of_singleton in Hn as ->. by right. }
  clear Hn. unfold all_nodes.
  rewrite elem_of_app, !list_elem_of_bind.
  apply elem_of_legs in Hp as [(q & q' & d & Hq & Hq' & Hd' & Hf & Ht & _)|(q & d & Hq & Hd' & Hf & Ht & _)].
  - left. destruct Hend as [->| ->]; [exists q|exists q']; (split; [done|]); by eapply list_elem_of_lookup_2.
  - destruct Hend as [->| ->]; [left; exists q; split; [done|by apply last_Some_elem_of]|right; by exists d].
Qed.

Lemma base_legal n : legal (with_gate base (gate_at n)).
Proof.
  constructor; cbn.
  - intros E. pose proof direction_tags as Hp. rewrite E in Hp. apply Permutation_nil in Hp.
    destruct tds; [by apply (xc_some _ _ Hx)|done].
  - apply Forall_forall. intros x (row & -> & Hrow)%list_elem_of_fmap. apply elem_of_sort_by in Hrow. cbn.
    destruct (saved_ok _ _ _ Hs) as [_ _ Hi Hc]. rewrite Forall_forall in Hi. specialize (Hi row Hrow).
    unfold MAX_DIRECTION_TAG in Hc. cbn in Hi. lia.
  - rewrite direction_tags. apply Hd.
  - unfold policies. cbn. rewrite sort_by_perm. apply Hfl.
  - unfold policies. cbn. rewrite sort_by_perm. apply Hfl.
  - intros x Hin. destruct (row_leg x Hin) as (p & Hp & [= _ _ Et] & _).
    assert (∃ d, d ∈ tds ∧ d.1 = l_tag p) as (d & Hind & Ed).
    { apply elem_of_legs in Hp as [(a & b & d & _ & _ & Hind & _ & _ & E)|(q & d & _ & Hind & _ & _ & E)];
        exists d; by rewrite E. }
    exists (mkTDirection d.1 (sort_by str_leb (rd_nodeIds d.2)) None).
    split; [apply elem_of_directions; by exists d|]. split; [cbn; congruence|done].
  - intros may. unfold gate_at, entryGateFor. destruct (js_find _ _); [|done].
    destruct (_ || _); [done|]. intros [= <-]. apply Hfl.
Qed.

Lemma base_shape : shape base.
Proof.
  constructor.
  - cbn. rewrite nodes_perm. apply Hd.
  - split; apply Forall_forall.
    + intros q (p & -> & Hp)%list_elem_of_fmap E. apply (xc_filled _ _ Hx p Hp).
      apply Permutation_nil. by rewrite <-E, sort_by_perm.
    + intros x Hin E. apply elem_of_directions in Hin as (d & Hind & _ & En & _). apply (proj1 (xc_pools _ _ Hx d Hind)).
      apply Permutation_nil. by rewrite <-E, En, sort_by_perm.
  - intros a b x Hin. by apply links_between.
Qed.

Lemma base_whole : whole base gate_at (address store).
Proof.
  constructor.
  - apply base_legal.
  - exact base_shape.
  - intros n Hn. unfold known. assert (n ∈ all_nodes ps tds) as Hn' by by rewrite <-nodes_perm.
    rewrite base_host by done. by apply (fl_known _ _ Hfl).
  - intros n h Hh. by rewrite <-base_host by (by eapply host_node).
  - intros n m h. apply (fl_apart _ _ Hfl).
  - intros n. apply rows_listener.
  - split; [|done]. intros x Hin. apply elem_of_directions in Hin as (d & _ & _ & _ & ?). done.
Qed.
End ReadBack.

(** ** Which cascade a node draws *)

(** The cascade's row names the nodes of its rows. *)
Definition coherent (s : StoredCascade) : Prop :=
  CascadeExclusive.c_positions (sc_row s) = p_nodeIds <$> position_rows (sc_rows s) ∧
  ∀ l, l ∈ link_rows (sc_rows s) →
    CascadeExclusive.has_member (sc_row s) (lr_from l) ∧ CascadeExclusive.has_member (sc_row s) (lr_to l).

Record stored_fleet (store : Store) : Prop := {
  sf_ids : NoDup (CascadeExclusive.c_id <$> (sc_row <$> st_cascades store));
  sf_dead : st_dead store = CascadeExclusive.dead_ids (sc_row <$> st_cascades store);
  sf_coherent s : s ∈ st_cascades store → coherent s
}.

Lemma touches_member s n : coherent s → touches n (sc_rows s) = true → CascadeExclusive.has_member (sc_row s) n.
Proof.
  intros [Hp Hl] Ht. unfold touches in Ht. apply orb_true_iff in Ht as [Ht|Ht].
  - apply existsb_exists in Ht as (l & Hin & Ht). apply list_elem_of_In in Hin. destruct (Hl l Hin) as [Hf Hto].
    apply orb_true_iff in Ht as [Ht|Ht]; bool_prop; by subst.
  - apply andb_true_iff in Ht as [Ht _]. apply existsb_exists in Ht as (p & Hin & Ht). apply list_elem_of_In in Hin.
    bool_prop. apply CascadeExclusive.elem_of_members. right; left. rewrite Hp. exists (p_nodeIds p).
    split; [by apply list_elem_of_fmap_2|done].
Qed.

(** A live cascade is the one its nodes draw. *)
Lemma owner_live store s n : stored_fleet store → s ∈ st_cascades store →
  CascadeExclusive.live (sc_row <$> st_cascades store) (sc_row s) → touches n (sc_rows s) = true →
  owner store n = Some s.
Proof.
  intros [Hids Hdead Hcoh] Hin Hlive Ht. unfold owner.
  set (mine := filter _ (st_cascades store)).
  assert (∀ x, x ∈ mine → x = s) as Honly.
  { intros x [Hc Hx]%list_elem_of_filter. bool_prop.
    assert (sc_row x = sc_row s) as E.
    { apply (CascadeExclusive.live_disjoint (sc_row <$> st_cascades store)); [done| |done|].
      - split; [by apply list_elem_of_fmap_2|]. split; [done|]. by rewrite <-Hdead.
      - exists n. split; apply touches_member; auto. }
    rewrite <-list_fmap_compose in Hids. apply (NoDup_fmap_elem _ _ _ _ Hids); [done..|]. cbn. by rewrite E. }
  assert (s ∈ mine) as Hs.
  { apply list_elem_of_filter. split; [|done]. destruct Hlive as (_ & He & Hd). rewrite He, Ht, Hdead.
    by rewrite bool_decide_false. }
  apply (elem_of_sort_by owner_leb) in Hs as Hs'. destruct (sort_by owner_leb mine) as [|x xs] eqn:E.
  - by apply not_elem_of_nil in Hs'.
  - cbn. f_equal. apply Honly. apply (elem_of_sort_by owner_leb). rewrite E. by left.
Qed.

(** ** What the nodes run *)

(** The agent adds the fragments to a configuration that has its own [direct]
    outbound; the position and the role are not sent. *)
Definition node_config (nodeId : string) (w : XrayCascadeFragments) : HopConfig :=
  mkHop nodeId 0 RTransit (w_inbounds w) (freedomOutbound :: w_outbounds w) (w_rules w) (w_linkIngressPort w)
    (w_linkAllowFrom w) (w_balancers w) (w_observatory w).

Definition runs (store : Store) (isIP : string → Z) (isRegExp : string → bool) (n : string) : option HopConfig :=
  match buildCascadeFragmentsForNode store isIP isRegExp n with
  | Ok (Fragments w) => Some (node_config n w)
  | _ => None
  end.

(** Two configurations let traffic out and in alike. *)
Definition same_ways (a b : HopConfig) : Prop :=
  (∀ c os, leaves a c = Ways os → ∃ os', leaves b c = Ways os' ∧ ∀ o, o ∈ os ↔ o ∈ os') ∧
  ∀ p secret, listener_user a p secret = listener_user b p secret.

Lemma same_leaves a b : hc_rules a = hc_rules b → hc_balancers a = hc_balancers b →
  (∀ o, o ∈ hc_outbounds a ↔ o ∈ hc_outbounds b) →
  ∀ c os, leaves a c = Ways os → ∃ os', leaves b c = Ways os' ∧ ∀ o, o ∈ os ↔ o ∈ os'.
Proof.
  intros Hr Hb Ho c os E. unfold leaves in *. rewrite <-Hr, <-Hb. destruct (route (hc_rules a) c) as [[[t|] [bal|]]|]; try done.
  1,2: case_bool_decide; [done|]; injection E as <-; eexists; split; [done|]; intros o;
    by rewrite !list_elem_of_filter, Ho.
  - injection E as <-. eexists. split; [done|]. intros o. destruct (js_find _ _); [|done].
    by rewrite !list_elem_of_filter, Ho.
  - injection E as <-. by eexists.
Qed.

Lemma wire_ways n cfg : freedomOutbound ∈ hc_outbounds cfg → NoDup (out_tag <$> hc_outbounds cfg) →
  same_ways cfg (node_config n (toWireFragments cfg)) ∧ same_ways (node_config n (toWireFragments cfg)) cfg.
Proof.
  intros Hf Hnd. assert (∀ o, o ∈ hc_outbounds cfg ↔ o ∈ hc_outbounds (node_config n (toWireFragments cfg))) as Ho.
  { intros o. cbn. rewrite elem_of_cons, list_elem_of_filter. split; [|intros [->|[_ ?]]; done].
    intros Hin. destruct (decide (out_tag o = Some "direct")) as [E|E]; [left|by right].
    by apply (NoDup_fmap_elem out_tag (hc_outbounds cfg)). }
  split; (split; [|done]); by apply same_leaves.
Qed.

Lemma config_outbounds isIP isRegExp n input cfg : legal input → handover n input = None →
  buildTopologyFragmentsForNode isIP isRegExp n input = Ok (Some cfg) →
  freedomOutbound ∈ hc_outbounds cfg ∧ NoDup (out_tag <$> hc_outbounds cfg) ∧
  ∀ o h p s, o ∈ hc_outbounds cfg → dial_of o = Some (h, p, s) →
    ∃ l, l ∈ outgoing n input ∧ host_of input (tl_to l) = Some h.
Proof.
  intros Hl Hh Hb. destruct (decide (role n input = RExit)) as [Hr|Hr].
  - assert (hc_outbounds cfg = [freedomOutbound]) as ->.
    { unfold buildTopologyFragmentsForNode in Hb. case_match; [done|]. apply bind_ok in Hb as ([[ins lp] af] & _ & Hb).
      apply bind_ok in Hb as (st & _ & Hb). rewrite Hr in Hb. by injection Hb as <-. }
    split; [by left|]. split; [apply NoDup_singleton|]. by intros o h p s ->%list_elem_of_singleton.
  - apply build_parts in Hb as (st & Es & _ & Houts & _); [|done].
    pose proof (config_tags_NoDup isIP isRegExp n input Hl st Es) as Hnd. cbv zeta in Hnd.
    rewrite Houts. split; [set_solver|]. split; [exact Hnd|].
    destruct (draw_outbounds_legacy isIP n input st Hh Es) as (_ & Hd & _).
    rewrite steer_legacy_outs, app_nil_r by done. intros o h p s [Ho|Ho]%elem_of_app Hdial; [|by apply list_elem_of_singleton in Ho as ->].
    destruct (Forall2_elem_r _ _ _ _ Hd Ho) as (l & Hin & h' & Hh' & _ & Hdial'). exists l. split; [done|]. congruence.
Qed.

Lemma travels_within (nodes : list string) d1 d2 addr n c path :
  (∀ n cfg, n ∈ nodes → d1 n = Some cfg → ∃ cfg', d2 n = Some cfg' ∧ same_ways cfg cfg') →
  (∀ n cfg c os o h p s m, n ∈ nodes → d1 n = Some cfg → leaves cfg c = Ways os → o ∈ os →
     dial_of o = Some (h, p, s) → addr m = Some h → m ∈ nodes) →
  n ∈ nodes → travels d1 addr n c path → travels d2 addr n c path.
Proof.
  intros Hsame Hin Hn Ht. revert Hn.
  induction Ht as [n c cfg os Hc Hl Hf|n c cfg os o h p s m cfg' email path Hc Hl Ho Hdial Hm Hc' Hu _ IH]; intros Hn.
  - destruct (Hsame n cfg Hn Hc) as (cfg2 & Hc2 & Hw & _). destruct (Hw c os Hl) as (os' & Hl' & Hos).
    eapply leaves_here; [done|exact Hl'|by apply Hos].
  - pose proof (Hin n cfg c os o h p s m Hn Hc Hl Ho Hdial Hm) as Hmn.
    destruct (Hsame n cfg Hn Hc) as (cfg2 & Hc2 & Hw & _). destruct (Hw c os Hl) as (os' & Hl' & Hos).
    destruct (Hsame m cfg' Hmn Hc') as (cfg2' & Hc2' & _ & Hlu). rewrite Hlu in Hu.
    eapply goes_on; [exact Hc2|exact Hl'|by apply Hos|exact Hdial|exact Hm|exact Hc2'|exact Hu|by apply IH].
Qed.

(** ** From the store to the way through *)
Section Delivery.
Context (isIP : string → Z) (isRegExp : string → bool).
Context (ps : list CascadePositionInput) (tds : list TaggedDirection) (s : StoredCascade) (store : Store).
Hypothesis Hs : stored_as ps tds (sc_rows s).
Hypothesis Hd : distinct_topology ps tds.
Hypothesis Hx : xray_cascade ps tds.
Hypothesis Hsec : secrets_apart (sc_rows s).
Hypothesis Hfl : fleet_ok store (all_nodes ps tds).
Hypothesis Hps : ps ≠ [].
Hypothesis Hfleet : stored_fleet store.
Hypothesis Hin : s ∈ st_cascades store.
Hypothesis Hlive : CascadeExclusive.live (sc_row <$> st_cascades store) (sc_row s).
Context (rows : list TopologyLinkRow) (Hread : mapM read_link (sort_by link_leb (link_rows (sc_rows s))) = Some rows).

Notation topology := (base ps s store rows).
Notation gate_of := (gate_at ps s store).

Lemma rows_read : Forall2 read_as (sort_by link_leb (link_rows (sc_rows s))) rows.
Proof. by apply mapM_Some. Qed.

Lemma topology_whole : whole topology gate_of (address store).
Proof. apply (base_whole ps tds); try done. apply rows_read. Qed.

Lemma node_owner n : n ∈ all_nodes ps tds → owner store n = Some s.
Proof.
  intros Hn. apply owner_live; [done..|].
  destruct (node_linked ps tds s store Hs Hd Hx Hfl n Hps Hn) as (l & Hl & Hend). unfold touches.
  apply orb_true_iff. left. apply existsb_exists. exists l. split; [by apply list_elem_of_In|].
  apply orb_true_iff. destruct Hend as [->| ->]; [left|right]; by apply bool_decide_eq_true.
Qed.

Lemma node_reads n : n ∈ all_nodes ps tds →
  readTopologyForNode store n = Ok (Some (with_gate topology (gate_of n), entryProtocol ps)).
Proof.
  intros Hn. unfold readTopologyForNode. rewrite node_owner by done. cbv zeta.
  rewrite (read_positions ps tds s Hs Hx), Hread, (read_directions ps tds s store Hs Hx). done.
Qed.

Lemma entry_on_xray : entryReachesCascadeOnlyThroughChain (entryProtocol ps) = false.
Proof.
  destruct ps as [|p l] eqn:E; [done|]. unfold entryProtocol. cbn. rewrite <-E in *.
  assert (ps !! 0%nat = Some p) as Hp by by rewrite E.
  rewrite (xc_numbered _ _ Hx 0 p Hp). cbn. by apply (xc_entry _ _ Hx).
Qed.

Lemma node_draws n : n ∈ all_nodes ps tds →
  buildCascadeFragmentsForNode store isIP isRegExp n =
  match config isIP isRegExp topology gate_of n with
  | Ok (Some cfg) => Ok (Fragments (toWireFragments cfg))
  | Ok None => Ok HopPath
  | Throw e => Throw (Drawing e)
  end.
Proof.
  intros Hn. unfold buildCascadeFragmentsForNode. rewrite node_reads by done. rewrite ok_bind.
  unfold entersOnAnotherCore. rewrite entry_on_xray. cbn [andb].
  assert (dials_foreign n (with_gate topology (gate_of n)) = false) as ->.
  { unfold dials_foreign. destruct (last _) as [p|]; [|done]. apply andb_false_iff. right.
    apply not_true_iff_false. rewrite existsb_exists. intros (x & Hin' & Ho). apply list_elem_of_In in Hin'.
    rewrite (proj1 (whole_direct _ _ _ topology_whole) x Hin') in Ho. done. }
  assert (legacyDrawingIsMoot store n (ti_links (with_gate topology (gate_of n))) false = false) as ->.
  { unfold legacyDrawingIsMoot. rewrite (fl_chain _ _ Hfl n Hn). destruct (existsb _ _) eqn:E; [|done].
    apply existsb_exists in E as (x & Hin' & Ho). apply list_elem_of_In in Hin'. apply andb_true_iff in Ho as [_ Ho].
    pose proof (link_drawable _ _ _ topology_whole x Hin') as Hdr. by destruct (tl_cred x). }
  unfold draw_for, config. by destruct (buildTopologyFragmentsForNode _ _ _ _) as [[cfg|]|e].
Qed.

Notation drawn_here := (drawn isIP isRegExp topology gate_of).

Lemma topology_handover n : handover n (with_gate topology (gate_of n)) = None.
Proof. unfold handover. by destruct (isEntry _ _). Qed.

Lemma runs_drawn n : n ∈ all_nodes ps tds →
  runs store isIP isRegExp n = (λ cfg, node_config n (toWireFragments cfg)) <$> drawn_here n.
Proof.
  intros Hn. unfold runs. rewrite node_draws by done. unfold drawn.
  by destruct (config isIP isRegExp topology gate_of n) as [[cfg|]|e].
Qed.

Lemma drawn_outbounds n cfg : drawn_here n = Some cfg →
  freedomOutbound ∈ hc_outbounds cfg ∧ NoDup (out_tag <$> hc_outbounds cfg) ∧
  ∀ o h p x, o ∈ hc_outbounds cfg → dial_of o = Some (h, p, x) → ∃ m, m ∈ all_nodes ps tds ∧ address store m = Some h.
Proof.
  intros E. apply drawn_iff in E.
  destruct (config_outbounds isIP isRegExp n (with_gate topology (gate_of n)) cfg) as (Hf & Hnd & Hdial);
    [apply (whole_legal _ _ _ topology_whole)|apply topology_handover|exact E|].
  split; [done|]. split; [done|]. intros o h p x Ho Hd'. destruct (Hdial o h p x Ho Hd') as (l & _ & Hh).
  exists (tl_to l). split; [by apply (host_node ps tds s store Hs Hfl rows (tl_to l) h)|].
  by apply (whole_addresses _ _ _ topology_whole).
Qed.

Lemma leaves_outbounds cfg c os o : leaves cfg c = Ways os → o ∈ os → o ∈ hc_outbounds cfg.
Proof.
  unfold leaves. destruct (route _ c) as [[[t|] [b|]]|]; try done; intros E.
  1,2: case_bool_decide; [done|]; injection E as <-; by intros [_ ?]%list_elem_of_filter.
  - injection E as <-. destruct (js_find _ _); [|by intros ?%not_elem_of_nil]. by intros [_ ?]%list_elem_of_filter.
  - injection E as <-. by intros ?%not_elem_of_nil.
Qed.

Lemma stays n cfg c os o h p x m : drawn_here n = Some cfg → leaves cfg c = Ways os → o ∈ os →
  dial_of o = Some (h, p, x) → address store m = Some h → m ∈ all_nodes ps tds.
Proof.
  intros Hc Hl Ho Hdial Hm. destruct (drawn_outbounds n cfg Hc) as (_ & _ & Hd').
  destruct (Hd' o h p x (leaves_outbounds _ _ _ _ Hl Ho) Hdial) as (m' & Hm' & Ha).
  by rewrite (fl_apart _ _ Hfl m m' h Hm Ha).
Qed.

(** What the nodes run carries a connection exactly as the drawing does. *)
Lemma runs_travels n c path : n ∈ all_nodes ps tds →
  travels (runs store isIP isRegExp) (address store) n c path ↔ travels drawn_here (address store) n c path.
Proof.
  intros Hn.
  assert (∀ n cfg, drawn_here n = Some cfg → same_ways cfg (node_config n (toWireFragments cfg)) ∧
    same_ways (node_config n (toWireFragments cfg)) cfg) as Hw.
  { intros n' cfg Hc. destruct (drawn_outbounds n' cfg Hc) as (Hf & Hnd & _). by apply wire_ways. }
  split; apply (travels_within (all_nodes ps tds)); try done.
  - intros n' cfg Hn' Hc. rewrite runs_drawn in Hc by done. apply fmap_Some in Hc as (cfg0 & Hc & ->).
    exists cfg0. split; [done|]. by apply Hw.
  - intros n' cfg c' os o h p x m Hn' Hc Hl Ho Hdial Hm. rewrite runs_drawn in Hc by done.
    apply fmap_Some in Hc as (cfg0 & Hc & ->). destruct (Hw n' cfg0 Hc) as [_ [Hw' _]].
    destruct (Hw' c' os Hl) as (os' & Hl' & Hos). eapply stays; [exact Hc|exact Hl'|by apply Hos|exact Hdial|exact Hm].
  - intros n' cfg Hn' Hc. exists (node_config n' (toWireFragments cfg)). rewrite runs_drawn, Hc by done.
    split; [done|]. by apply Hw.
  - intros n' cfg c' os o h p x m _ Hc Hl Ho Hdial Hm. by eapply stays.
Qed.

Lemma delivered d n p c o path : d ∈ tds → ps !! 0%nat = Some p → n ∈ p_nodeIds p →
  profile (with_gate topology (gate_of n)) o → c_network c ∈ ["tcp"; "udp"] → c_route c = Some (routeTag o (d.1 - 1)) →
  quic c = false → closed_to (with_gate topology (gate_of n)) c (routeTag o (d.1 - 1)) = false →
  policy_way isIP isRegExp (with_gate topology (gate_of n)) o c = None →
  travels (runs store isIP isRegExp) (address store) n c path ↔
  ∃ rest, path = n :: rest ∧ Forall2 (λ q m, m ∈ q) (tail ((p_nodeIds <$> ps) ++ [rd_nodeIds d.2])) rest.
Proof.
  intros Hind Hp Hn Ho Hnet Hroute Hq Hc Hpol. rewrite runs_travels.
  2:{ apply elem_of_app. left. apply list_elem_of_bind. exists p. split; [done|]. by eapply list_elem_of_lookup_2. }
  set (x := mkTDirection d.1 (sort_by str_leb (rd_nodeIds d.2)) None).
  assert (x ∈ ti_directions topology) as Hx'.
  { apply (elem_of_directions ps tds s Hs Hd). by exists d. }
  rewrite (journey isIP isRegExp topology gate_of (address store) topology_whole
    (sort_by str_leb (p_nodeIds p)) n c o x path); try done.
  2:{ cbn. by rewrite list_lookup_fmap, Hp. }
  2:{ by apply elem_of_sort_by. }
  assert (∀ rest, picks (tail (pools topology x)) rest ↔
    Forall2 (λ q m, m ∈ q) (tail ((p_nodeIds <$> ps) ++ [rd_nodeIds d.2])) rest) as Hpick.
  { intros rest. unfold picks, pools. cbn [ti_positions topology base x td_nodeIds].
    assert (((λ p, sort_by str_leb (p_nodeIds p)) <$> ps) ++ [sort_by str_leb (rd_nodeIds d.2)]
      = sort_by str_leb <$> ((p_nodeIds <$> ps) ++ [rd_nodeIds d.2])) as ->
      by by rewrite fmap_app, <-list_fmap_compose.
    assert (∀ l : list (list string), tail (sort_by str_leb <$> l) = sort_by str_leb <$> tail l) as -> by by intros [].
    rewrite Forall2_fmap_l. split; intros H; (eapply Forall2_impl; [exact H|]); intros q m; apply elem_of_sort_by. }
  by setoid_rewrite Hpick.
Qed.
End Delivery.

(** ** The whole of it *)

(** What is asked of a payload beyond validity: an entry whose users come in on
    xray, legs of the cells xray has, and a pool for every direction. *)
Record xray_payload (ps : list CascadePositionInput) (ds : list ResolvedDirection) : Prop := {
  xp_entry p : ps !! 0%nat = Some p → p_entryProtocol p = Some "xray";
  xp_positions p : p ∈ ps → linkCellFor (p_linkProtocol p) ∈ [Some "vless"; Some "shadowsocks"];
  xp_directions d : d ∈ ds → truthy (rd_outboundId d) = false ∧
    (truthy (rd_linkProtocol d) = true → linkCellFor (rd_linkProtocol d) ∈ [Some "vless"; Some "shadowsocks"])
}.

Lemma payload_cascade ps0 tds v : validateCascadeTopology ps0 tds.*2 = Ok v →
  xray_payload (v_positions v) tds.*2 → xray_cascade (v_positions v) tds ∧ v_positions v ≠ [].
Proof.
  intros Hv [He Hp Hdir]. apply validate_ok_iff in Hv as (Hn & Hne & Hc & Hpos & _ & [Hsh _] & _ & _ & ->).
  cbn [v_positions] in *.
  assert (∀ p, p ∈ by_position ps0 → default "" (linkCellFor (p_linkProtocol p)) ∈ ["vless"; "shadowsocks"]) as Hcell.
  { intros p Hin. specialize (Hp p Hin). apply elem_of_cons in Hp as [->|Hp]; [by left|].
    apply list_elem_of_singleton in Hp as ->. by right; left. }
  split.
  - constructor.
    + by intros ->.
    + intros j p. by apply sorted_index.
    + intros p (j & Hj)%list_elem_of_lookup. by destruct (Hpos j p Hj) as (_ & _ & _ & ? & _).
    + intros d Hin. apply (list_elem_of_fmap_2 snd) in Hin. destruct (Hdir d.2 Hin) as [Ho _]. split; [|done].
      rewrite Forall_forall in Hsh. pose proof (Hsh d.2 Hin) as Hd. intros E. apply Hd in E. by rewrite Ho in E.
    + intros p Hin. apply elem_of_legs in Hin as [(a & b & d & Ha & _ & _ & _ & _ & ->)|(q & d & Hq & Hin & _ & _ & ->)];
        cbn [l_protocol].
      * by apply Hcell, (list_elem_of_lookup_2 _ (l_step p)).
      * unfold direction_cell. destruct (truthy (rd_linkProtocol d.2)) eqn:Et; [|by apply Hcell, last_Some_elem_of].
        destruct (Hdir d.2) as [_ Hc']; [by apply list_elem_of_fmap_2|]. specialize (Hc' Et).
        apply elem_of_cons in Hc' as [->|Hc']; [by left|]. apply list_elem_of_singleton in Hc' as ->. by right; left.
    + intros p H0. by rewrite (He p H0).
  - intros E. apply (f_equal length) in E. rewrite (Permutation_length (by_position_perm ps0)) in E. cbn in E. lia.
Qed.

Lemma tagged_nodes ps rs : all_nodes ps (tagged <$> rs) = (ps ≫= p_nodeIds) ++ ((r_direction <$> rs) ≫= rd_nodeIds).
Proof. unfold all_nodes. f_equal. induction rs as [|x rs IH]; [done|]. cbn. by rewrite IH. Qed.

(** C3. A saved cascade carries its users as it was saved.  Let a validated
    topology be written whose entry is xray's, whose legs are of xray's cells
    with no two of one secret, and whose directions are pools of nodes; let its
    cascade be live in a store whose rows agree, and its nodes have addresses,
    no two of one, and run no chain process; and let the policies' ordinals be
    distinct and in range and the gate's user names well formed.  Then every
    node of it reads one topology back, with the pools as they were saved; and
    what the nodes are pushed carries a TCP or UDP connection that comes in at an
    entry node under a direction's tag, is not QUIC, is not gated and that no
    entry policy sends elsewhere, along exactly the lists that start at that
    node, take one node of every later position as saved, and end with a node of
    the direction's own pool. *)
Theorem saved_cascade_carries {R G} `{RandomOk R} `{TunnelRandomOk G patience} isIP isRegExp fuel udp_profiles node_name
    cascadeId named ids ps0 v ds db tunnels (r : R) (g : G) s tunnels' r' g' store :
  topology_ok db → NoDup ids → (∀ i, i ∈ ids → i ∉ dr_id <$> direction_rows db) → (length ds <= length ids)%nat →
  validateCascadeTopology ps0 ds = Ok v → typed_topology (v_positions v) (pair 0 <$> ds) →
  xray_payload (v_positions v) ds →
  writeTopologyV4 fuel udp_profiles node_name cascadeId named ids (v_positions v) ds db tunnels r g
    = Some (Ok (sc_rows s, tunnels'), r', g') →
  secrets_apart (sc_rows s) → stored_fleet store → s ∈ st_cascades store →
  CascadeExclusive.live (sc_row <$> st_cascades store) (sc_row s) →
  fleet_ok store ((v_positions v ≫= p_nodeIds) ++ (ds ≫= rd_nodeIds)) →
  length (direction_rows (sc_rows s)) = length ds ∧
  ∃ read, Forall2 (≡ₚ) (ti_positions read) (p_nodeIds <$> v_positions v) ∧ length (ti_directions read) = length ds ∧
  (∀ n, n ∈ (v_positions v ≫= p_nodeIds) ++ (ds ≫= rd_nodeIds) →
     ∃ gate, readTopologyForNode store n = Ok (Some (with_gate read gate, Some "xray"))) ∧
  ∀ d, d ∈ ds → ∃ row, row ∈ direction_rows (sc_rows s) ∧
  dr_nodes row = rd_nodeIds d ∧ dr_countryCode row = rd_countryCode d ∧
  (∃ x, x ∈ ti_directions read ∧ td_tag x = dr_tag row ∧ td_nodeIds x ≡ₚ rd_nodeIds d ∧ td_outbound x = None) ∧
  ∀ p n, v_positions v !! 0%nat = Some p → n ∈ p_nodeIds p →
  ∃ t, readTopologyForNode store n = Ok (Some (t, Some "xray")) ∧
  ∀ c o path, profile t o → c_network c ∈ ["tcp"; "udp"] → c_route c = Some (routeTag o (dr_tag row - 1)) →
    quic c = false → closed_to t c (routeTag o (dr_tag row - 1)) = false → policy_way isIP isRegExp t o c = None →
    travels (runs store isIP isRegExp) (address store) n c path ↔
    ∃ rest, path = n :: rest ∧ Forall2 (λ q m, m ∈ q) (tail ((p_nodeIds <$> v_positions v) ++ [rd_nodeIds d])) rest.
Proof.
  intros Hok Hids Hfresh Hen Hv Ht Hxp Hsave Hsec Hfleet Hin Hlive Hfl.
  destruct (save_saved fuel udp_profiles node_name cascadeId named ids (v_positions v) ds db tunnels r g ps0 v _ _ _ _
    Hok Hids Hfresh Hen Hv eq_refl Ht Hsave) as (rs & Eds & Hs & Hd).
  assert ((tagged <$> rs).*2 = ds) as Esnd by by rewrite <-list_fmap_compose.
  rewrite <-Esnd in Hv, Hxp. destruct (payload_cascade ps0 (tagged <$> rs) v Hv Hxp) as [Hx Hps].
  rewrite <-Eds, <-tagged_nodes in Hfl.
  destruct (read_links (v_positions v) (tagged <$> rs) s Hs) as (rows & Hread & _).
  assert (length (direction_rows (sc_rows s)) = length ds) as Hlen.
  { rewrite <-(length_fmap dr_tag), (saved_tags _ _ _ Hs), <-Eds. by rewrite !length_fmap. }
  assert (∀ n, n ∈ all_nodes (v_positions v) (tagged <$> rs) → readTopologyForNode store n =
    Ok (Some (with_gate (base (v_positions v) s store rows) (gate_at (v_positions v) s store n), Some "xray"))) as Hreads.
  { intros n Hn. rewrite (node_reads (v_positions v) (tagged <$> rs) s store Hs Hd Hx Hfl Hps Hfleet Hin Hlive rows Hread n Hn).
    do 3 f_equal. destruct (v_positions v) as [|q l] eqn:E; [done|].
    unfold entryProtocol. cbn. rewrite <-E in *. assert (v_positions v !! 0%nat = Some q) as Hp0 by by rewrite E.
    rewrite (xc_numbered _ _ Hx 0 q Hp0). cbn. by apply (xp_entry _ _ Hxp). }
  split; [done|]. exists (base (v_positions v) s store rows). split; [|split; [|split]].
  - cbn [base ti_positions]. clear. induction (v_positions v) as [|p l IH]; constructor; [apply sort_by_perm|done].
  - cbn [base ti_directions]. unfold base_directions. by rewrite length_fmap, sort_by_length, Hlen.
  - intros n Hn. exists (gate_at (v_positions v) s store n). apply Hreads. by rewrite tagged_nodes, Eds.
  - intros d Hin'. rewrite <-Esnd in Hin'. apply list_elem_of_fmap in Hin' as (td & -> & Htd).
    destruct (saved_row _ _ _ Hs td Htd) as (row & Hrow & Et & En & Ec & _). exists row. do 3 (split; [done|]). split.
    { exists (mkTDirection td.1 (sort_by str_leb (rd_nodeIds td.2)) None). split; [|by rewrite Et; split_and!; [|apply sort_by_perm|]].
      apply (elem_of_directions (v_positions v) (tagged <$> rs) s Hs Hd). by exists td. }
    intros p n Hp Hn. exists (with_gate (base (v_positions v) s store rows) (gate_at (v_positions v) s store n)).
    split.
    { apply Hreads, elem_of_app. left. apply list_elem_of_bind. exists p. split; [done|]. by eapply list_elem_of_lookup_2. }
    intros c o path Ho Hnet Hroute Hq Hc Hpol. rewrite Et in *.
    by apply (delivered isIP isRegExp (v_positions v) (tagged <$> rs) s store Hs Hd Hx Hsec Hfl Hps Hfleet Hin Hlive rows Hread
      td n p c o path).
Qed.

(** ** A cascade saved and run: an entry, a transit, a pool of two and a pool
    of one. *)
Definition run_positions : list CascadePositionInput :=
  [mkPosition ["n2"] 1 None (Some "shadowsocks") None; mkPosition ["n1"] 0 (Some "xray") (Some "vless") None].

Definition to_nl : ResolvedDirection := direction_to None ["n3"; "n4"] "NL".
Definition to_de : ResolvedDirection := direction_to None ["n5"] "DE".

Definition run_rows : Topology :=
  saved (save_of ["row-1"; "row-2"] (by_position run_positions) [to_nl; to_de] empty_topology).

Definition run_stored : StoredCascade :=
  mkStored (CascadeExclusive.mkCascade "c" "c" 1 true chain [] [["n1"]; ["n2"]] [["n3"; "n4"]; ["n5"]]) run_rows true.

Definition run_node (n : string) (a : string) : NodeRow := mkNode n a false false.

Definition run_store : Store :=
  mkStore [run_stored] []
    [run_node "n1" "10.0.0.1:8443"; run_node "n2" "10.0.0.2:8443"; run_node "n3" "[2001:db8::3]:8443";
     run_node "n4" "2001:db8::4"; run_node "n5" "n5.example"]
    (λ _, ("", JNull)) [] (λ _ _, [("ann", [1; 2])]).

Ltac decide_it := apply (bool_decide_unpack _); vm_compute; exact I.

Lemma run_addresses n h : address run_store n = Some h →
  (n, h) ∈ [("n1", "10.0.0.1"); ("n2", "10.0.0.2"); ("n3", "2001:db8::3"); ("n4", "2001:db8::4"); ("n5", "n5.example")].
Proof.
  unfold address. destruct (js_find _ _) as [row|] eqn:E; [|done]. apply js_find_Some in E as [Hin E]. bool_prop.
  cbn in Hin. each_in Hin; cbn in *; subst n; intros [= <-]; decide_it.
Qed.

Lemma run_fleet : stored_fleet run_store ∧ fleet_ok run_store ["n1"; "n2"; "n3"; "n4"; "n5"].
Proof.
  split; constructor.
  - decide_it.
  - vm_compute. reflexivity.
  - intros x Hx. cbn in Hx. each_in Hx. split; [vm_compute; reflexivity|].
    intros l Hl. vm_compute in Hl. each_in Hl; split; decide_it.
  - constructor.
  - constructor.
  - decide_it.
  - intros n Hn. each_in Hn; vm_compute; by eexists.
  - intros n m h Hn Hm. apply run_addresses in Hn, Hm.
    eapply (NoDup_fmap_elem snd _ (n, h) (m, h)) in Hn; [by injection Hn|decide_it|done|done].
  - intros n Hn. each_in Hn; vm_compute; reflexivity.
  - intros n i. cbn. repeat constructor; try done. apply char_free_has. by vm_compute.
Qed.

Lemma run_secrets : secrets_apart run_rows.
Proof.
  intros l l' c c' Hl Hl' E E' Es.
  assert (∀ x, x ∈ link_rows run_rows → secret_of <$> parseLinkCred (lr_config x) = secret_of <$> parseLinkCred (lr_config l) →
    x = l) as Hx.
  { intros x Hx. apply (NoDup_fmap_elem (λ x, secret_of <$> parseLinkCred (lr_config x)) (link_rows run_rows)); [|done..].
    decide_it. }
  symmetry. apply Hx; [done|]. rewrite E, E'. cbn. by rewrite Es.
Qed.

Definition run_connection (tag : Z) : Connection :=
  mkConnection (Some (routeTag 0 (tag - 1))) "ann" "in-vless" "tcp" 443 (λ _, false) (λ _, false).

Lemma saved_cascade_carries_witness :
  (∃ t, readTopologyForNode run_store "n5" = Ok (Some (t, Some "xray"))) ∧
  ∃ tag, let goes := travels (runs run_store (λ _, 0) (λ _, false)) (address run_store) "n1" (run_connection tag) in
  goes ["n1"; "n2"; "n3"] ∧ goes ["n1"; "n2"; "n4"] ∧ ¬ goes ["n1"; "n2"; "n5"] ∧ ¬ goes ["n1"].
Proof.
  destruct (saved_cascade_carries (patience := 4) (λ _, 0) (λ _, false) 16 (λ _ _, []) (λ n, n) "c" [("row-1", "policy")]
    ["row-1"; "row-2"] run_positions (mkValidated (by_position run_positions) [to_nl; to_de] 4) [to_nl; to_de]
    empty_topology [] 100 0 run_stored [] 111 0 run_store) as (_ & read & _ & _ & Hreads & Hall).
  - constructor; [constructor|constructor|constructor|vm_compute; split; congruence].
  - decide_it.
  - intros i Hi. by intros ?%not_elem_of_nil.
  - vm_compute. lia.
  - vm_compute. reflexivity.
  - split.
    + intros p k Hp. cbn in Hp. each_in Hp; discriminate.
    + intros d Hd. cbn in Hd. each_in Hd; split; discriminate.
  - constructor.
    + intros p [= <-]. reflexivity.
    + intros p Hp. cbn in Hp. each_in Hp; decide_it.
    + intros d Hd. each_in Hd; (split; [reflexivity|discriminate]).
  - vm_compute. reflexivity.
  - exact run_secrets.
  - apply run_fleet.
  - by left.
  - split; [by left|]. split; [reflexivity|]. vm_compute. by intros ?%not_elem_of_nil.
  - apply run_fleet.
  - split.
    { destruct (Hreads "n5") as [gate E]; [apply (bool_decide_unpack _); vm_compute; exact I|]. eexists. exact E. }
    destruct (Hall to_nl) as (row & Hrow & En & _ & _ & Hrun); [by left|].
    destruct (Hrun (mkPosition ["n1"] 0 (Some "xray") (Some "vless") None) "n1" eq_refl ltac:(by left)) as (t & Et & Hgo).
    exists (dr_tag row). cbv zeta.
    assert (dr_tag row = 1) as Etag.
    { vm_compute in Hrow. each_in Hrow; [reflexivity|discriminate En]. }
    vm_compute in Et. injection Et as <-. rewrite Etag in *.
    rewrite !(Hgo _ 0); try first [by left | reflexivity | by vm_compute].
    split; [eexists; split; [reflexivity|]; repeat constructor; set_solver|].
    split; [eexists; split; [reflexivity|]; repeat constructor; set_solver|].
    split; intros (rest & [= <-] & H).
    + apply Forall2_cons in H as [_ H]. apply Forall2_cons in H as [H _]. cbn in H. set_solver.
    + by apply Forall2_nil_inv_r in H.
Defined.
