(* ===== verification/HopCascade.v ===== *)
(** Cascades of hops: the older model, one node per position
    (apps/panel-backend/src/modules/cascades/cascade.config.ts,
    [buildCascadeConfigs] and [buildBalancerCascadeConfigs], and the branch of
    cascade.service.ts that draws a node from the hop rows where no topology
    answers).

    A chain goes from node to node; a balancer is one entry that dials every
    exit.  A hop's row comes with the address of its node; [linkConfig] is the
    stored JSON.  [isIP] and the test for a regular expression are parameters. *)

From S2P Require Import CascadeExclusive.
From S2P Require Import Prelude Js Json Directions CascadeValidation LinkCreds PolicyEntries EntryGate XrayLinks.
From S2P Require Import TopologyLinks TopologySave TopologyFragments TopologyRoutes CascadeJourney TopologyRead CascadeDelivery.

Local Open Scope string_scope.
Local Open Scope list_scope.
Local Open Scope Z_scope.

(** ** Input *)
Record CascadeConfigHopInput := mkHopInput {
  hi_nodeId : string;
  hi_position : nat;
  hi_nodeHost : string
}.

(** [HopCredMissing]: reading a field of a credential that is not there. *)
Inductive hop_error := HopDraw (e : draw_error) | HopCredMissing.

Definition drawing {A} (r : result draw_error A) : result hop_error A :=
  match r with Ok a => Ok a | Throw e => Throw (HopDraw e) end.

Definition hop_leb (a b : CascadeConfigHopInput) : bool := (hi_position a <=? hi_position b)%nat.

(** A rule without a gate of its own. *)
Definition all_rule (t : option string * option string) : Rule :=
  mkRule None None None (Some "tcp,udp") None None None t.1 t.2.

Section Build.
Context (isIP : string → Z) (isRegExp : string → bool) (policies : list CascadePolicy).

(** The lists of one policy, for the profile of one tag. *)
Definition hop_policy (tag : Z) (p : CascadePolicy) : list Rule :=
  xrayPolicyRules isIP isRegExp (pretty tag) (blockDomains p) "blocked" id ++
  xrayPolicyRules isIP isRegExp (pretty tag) (directDomains p) DIRECT_TAG id.

(** ** A chain *)
Definition hop_role (i n : nat) : HopRole :=
  if (i =? 0)%nat then REntry else if (S i =? n)%nat then RExit else RTransit.

Definition chain_rules (r : HopRole) : list Rule :=
  match r with
  | REntry => QUIC_BLOCK_RULE :: (policies ≫= λ p, hop_policy (routeTag (cp_ordinal p) 0) p) ++ [all_rule (Some LINK_OUT_TAG, None)]
  | RTransit => [link_in_rule LINK_OUT_TAG]
  | RExit => [link_in_rule DIRECT_TAG]
  end.

Definition host_at (sorted : list CascadeConfigHopInput) (i : nat) : string := default "" (hi_nodeHost <$> sorted !! i).

Definition build_hop (sorted : list CascadeConfigHopInput) (linkCreds : list LinkCred) (i : nat) (hop : CascadeConfigHopInput)
    : result draw_error HopConfig :=
  let n := length sorted in
  let linkIn := match i with O => None | S j => linkCreds !! j end in
  let linkOut := if (S i <? n)%nat then linkCreds !! i else None in
  inbounds ← match linkIn with Some c => o ← linkInbound c; Ok [o] | None => Ok [] end;
  outs ← match linkOut with
         | Some c => o ← linkOutbound isIP (host_at sorted (S i)) c (Some (hi_nodeHost hop)); Ok [o]
         | None => Ok []
         end;
  Ok (mkHop (hi_nodeId hop) (hi_position hop) (hop_role i n) inbounds (outs ++ [freedomOutbound]) (chain_rules (hop_role i n))
        (port <$> linkIn) ((λ _, [host_at sorted (i - 1)]) <$> linkIn) None None).

Definition indexed {A} (l : list A) : list (nat * A) := zip (seq 0 (length l)) l.

Definition buildCascadeConfigs (hops : list CascadeConfigHopInput) (linkCreds : list LinkCred) : result draw_error (list HopConfig) :=
  let sorted := sort_by hop_leb hops in
  map_res (λ e, build_hop sorted linkCreds e.1 e.2) (indexed sorted).

(** ** A balancer *)
Definition BALANCER_TAG : string := "auto".

Definition exit_tag (i : nat) : string := LINK_OUT_TAG +:+ "-" +:+ pretty (Z.of_nat i).

Definition tag_rule (t : Z) (i : nat) : Rule :=
  mkRule (Some (pretty t)) None None (Some "tcp,udp") None None None (Some (exit_tag i)) None.

Definition balancer_rules (exits : nat) : list Rule :=
  QUIC_BLOCK_RULE ::
  ((λ i, tag_rule (routeTag 0 (Z.of_nat i)) i) <$> seq 0 exits) ++
  (policies ≫= λ p, seq 0 exits ≫= λ i,
     let tag := routeTag (cp_ordinal p) (Z.of_nat i) in hop_policy tag p ++ [tag_rule tag i]) ++
  (policies ≫= λ p, hop_policy (autoRouteTag (cp_ordinal p)) p) ++
  [all_rule (None, Some BALANCER_TAG)].

Definition exit_cred (linkCreds : list LinkCred) (i : nat) : result hop_error LinkCred :=
  match linkCreds !! i with Some c => Ok c | None => Throw HopCredMissing end.

Definition build_exit (entry : CascadeConfigHopInput) (linkCreds : list LinkCred) (e : nat * CascadeConfigHopInput)
    : result hop_error HopConfig :=
  cred ← exit_cred linkCreds e.1;
  inbound ← drawing (linkInbound cred);
  Ok (mkHop (hi_nodeId e.2) (hi_position e.2) RExit [inbound] [freedomOutbound] [link_in_rule DIRECT_TAG]
        (Some (port cred)) (Some [hi_nodeHost entry]) None None).

Definition exit_outbound (entry : CascadeConfigHopInput) (linkCreds : list LinkCred) (e : nat * CascadeConfigHopInput)
    : result hop_error jvalue :=
  cred ← exit_cred linkCreds e.1;
  drawing (linkOutboundTagged isIP (hi_nodeHost e.2) cred (exit_tag e.1) (Some (hi_nodeHost entry))).

Definition buildBalancerCascadeConfigs (entry : CascadeConfigHopInput) (exits : list CascadeConfigHopInput)
    (linkCreds : list LinkCred) : result hop_error (list HopConfig) :=
  outs ← map_res (exit_outbound entry linkCreds) (indexed exits);
  rest ← map_res (build_exit entry linkCreds) (indexed exits);
  Ok (mkHop (hi_nodeId entry) (hi_position entry) REntry [] (outs ++ [freedomOutbound]) (balancer_rules (length exits))
        None None (Some [mkBalancer BALANCER_TAG [LINK_OUT_TAG]]) (Some observatory) :: rest).
End Build.

(** ** The push from the hop rows *)
Record HopRow := mkHopRow {
  hr_nodeId : string;
  hr_position : nat;
  hr_entryProtocol : option string;
  hr_linkConfig : jvalue;
  hr_address : string
}.

Record HopCascade := mkHopCascade {
  hc_row : CascadeExclusive.Cascade;
  hc_mode : mode;
  hc_hops : list HopRow
}.

Inductive HopPushed := HNoLegacyDrawing | HFragments (w : XrayCascadeFragments) | HNothing.

Section Push.
Context (isIP : string → Z) (isRegExp : string → bool).
Context (cascades : list HopCascade) (dead : list string) (routePolicies : list CascadePolicy).

Definition hop_owner_leb (a b : HopCascade) : bool := CascadeExclusive.CASCADE_OWNERSHIP_ORDER (hc_row a) (hc_row b).
Definition row_leb (a b : HopRow) : bool := (hr_position a <=? hr_position b)%nat.

Definition hop_member (nodeId : string) : option HopCascade :=
  head (sort_by hop_owner_leb
    (filter (λ s, CascadeExclusive.c_enabled (hc_row s) && negb (bool_decide (CascadeExclusive.c_id (hc_row s) ∈ dead)) &&
                  existsb (λ h, bool_decide (hr_nodeId h = nodeId)) (hc_hops s) = true) cascades)).

Definition hop_input (h : HopRow) : CascadeConfigHopInput :=
  mkHopInput (hr_nodeId h) (hr_position h) (linkHostOf (hr_address h)).

(** The policies as the node's xray spells their lists. *)
Definition hop_policies : list CascadePolicy :=
  (λ p, mkPolicy (cp_ordinal p) (xrayGeoEntry <$> directDomains p) (xrayGeoEntry <$> blockDomains p)) <$> routePolicies.

Definition hop_cred (h : HopRow) : option LinkCred := parseLinkCred (hr_linkConfig h).

(** The configurations of the whole cascade; [None] where a credential is
    missing or malformed. *)
Definition hop_configs (m : mode) (hops : list HopRow) : result hop_error (option (list HopConfig)) :=
  match m, hops with
  | balancer, entry :: exits =>
      match mapM hop_cred exits with
      | None => Ok None
      | Some creds => Some <$> buildBalancerCascadeConfigs isIP isRegExp hop_policies (hop_input entry) (hop_input <$> exits) creds
      end
  | _, _ =>
      match mapM hop_cred (take (length hops - 1) hops) with
      | None => Ok None
      | Some creds => Some <$> drawing (buildCascadeConfigs isIP isRegExp hop_policies (hop_input <$> hops) creds)
      end
  end.

Definition hop_path (nodeId : string) : result hop_error HopPushed :=
  match hop_member nodeId with
  | None => Ok HNothing
  | Some s =>
      let hops := sort_by row_leb (hc_hops s) in
      if (length hops <? 2)%nat then Ok HNothing else
      if match js_find (λ h, (hr_position h =? 0)%nat) hops with
         | Some h => entersOnAnotherCore nodeId (hr_entryProtocol h) [hr_nodeId h]
         | None => false
         end then Ok HNoLegacyDrawing else
      configs ← hop_configs (hc_mode s) hops;
      Ok (match configs ≫= js_find (λ c, bool_decide (hc_node c = nodeId)) with
          | Some mine => HFragments (toWireFragments mine)
          | None => HNothing
          end)
  end.
End Push.

(** The two branches together: the topology, else the hop rows. *)
Inductive push_error := TopologyError (e : read_error) | HopError (e : hop_error).

Definition fragments_for (store : Store) (isIP : string → Z) (isRegExp : string → bool) (cascades : list HopCascade)
    (nodeId : string) : result push_error HopPushed :=
  match buildCascadeFragmentsForNode store isIP isRegExp nodeId with
  | Throw e => Throw (TopologyError e)
  | Ok NoLegacyDrawing => Ok HNoLegacyDrawing
  | Ok (Fragments w) => Ok (HFragments w)
  | Ok HopPath =>
      match hop_path isIP isRegExp cascades (st_dead store) (st_policies store) nodeId with
      | Ok p => Ok p
      | Throw e => Throw (HopError e)
      end
  end.

(** ** What the entry decides *)
Lemma route_cons r rs c : route (r :: rs) c = if takes c r then Some (target r) else route rs c.
Proof. unfold route. simpl. by destruct (takes c r). Qed.

Lemma takes_quic c : takes c QUIC_BLOCK_RULE = quic c.
Proof.
  unfold takes, takes_route, takes_user, takes_rest, quic. simpl. rewrite !andb_true_r. f_equal.
  apply bool_decide_ext. change (js_split "," "udp") with ["udp"]. by rewrite list_elem_of_singleton.
Qed.

Lemma takes_all c t : c_network c ∈ ["tcp"; "udp"] → takes c (all_rule t) = true.
Proof.
  intros Hn. unfold takes, takes_route, takes_user, takes_rest. simpl. change (js_split "," "tcp,udp") with ["tcp"; "udp"].
  by rewrite bool_decide_true.
Qed.

Section Decide.
Context (isIP : string → Z) (isRegExp : string → bool) (ps : list CascadePolicy).
Hypothesis Hps : NoDup (cp_ordinal <$> ps).
Hypothesis Hord : Forall (λ p, 1 <= cp_ordinal p <= MAX_DIRECTION_ORDINAL) ps.

Definition listed (c : Connection) (entries : list string) : bool := hits_spelled isIP isRegExp id c entries.

(** What a policy decides itself. *)
Definition policy_says (c : Connection) (p : CascadePolicy) : option (option string * option string) :=
  if listed c (blockDomains p) then Some (Some "blocked", None)
  else if listed c (directDomains p) then Some (Some DIRECT_TAG, None) else None.

Lemma route_hop_policy t p c : 0 <= t < 65536 →
  route (hop_policy isIP isRegExp t p) c = if decide (c_route c = Some t) then policy_says c p else None.
Proof.
  intros Ht. unfold hop_policy. change (pretty t) with (route_text [t]).
  rewrite route_app, !route_policy_spelled by by apply singleton_tags_ok. unfold policy_says, listed, in_tags.
  destruct (c_route c) as [x|]; [|by rewrite decide_False]. destruct (decide (x = t)) as [->|Hne].
  - rewrite bool_decide_true, decide_True by (done || by left). simpl. by destruct (hits_spelled _ _ _ _ _).
  - rewrite bool_decide_false, decide_False by set_solver. done.
Qed.

Lemma takes_tag_rule t i c : 0 <= t < 65536 → c_network c ∈ ["tcp"; "udp"] →
  takes c (tag_rule t i) = bool_decide (c_route c = Some t).
Proof.
  intros Ht Hn. change (tag_rule t i) with (to_target (with_network "tcp,udp" (with_tags [t])) (Some (exit_tag i), None)).
  rewrite takes_tags_network by (done || by apply singleton_tags_ok). destruct (c_route c) as [x|]; [|by rewrite bool_decide_false].
  apply bool_decide_ext. rewrite list_elem_of_singleton. naive_solver.
Qed.

Lemma policy_range p : p ∈ ps → 1 <= cp_ordinal p <= MAX_DIRECTION_ORDINAL.
Proof. rewrite Forall_forall in Hord. apply Hord. Qed.

(** A chain's entry: the policies of its one profile, else the first leg. *)
Definition chain_target (c : Connection) : option string * option string :=
  if quic c then (Some "blocked", None)
  else default (Some LINK_OUT_TAG, None)
         (t ← c_route c; js_find (λ p, routeTag (cp_ordinal p) 0 =? t) ps ≫= policy_says c).

Lemma route_chain c : c_network c ∈ ["tcp"; "udp"] →
  route (chain_rules isIP isRegExp ps REntry) c = Some (chain_target c).
Proof.
  intros Hn. unfold chain_rules, chain_target. rewrite route_cons, takes_quic. destruct (quic c); [done|].
  rewrite route_app, route_cons, takes_all by done.
  assert (route (ps ≫= λ p, hop_policy isIP isRegExp (routeTag (cp_ordinal p) 0) p) c =
    (t ← c_route c; js_find (λ p, routeTag (cp_ordinal p) 0 =? t) ps ≫= policy_says c)) as ->; [|by destruct (c_route c ≫= _)].
  assert (∀ p, p ∈ ps → 0 <= routeTag (cp_ordinal p) 0 < 65536) as Hr.
  { intros p Hp%policy_range. unfold MAX_DIRECTION_ORDINAL, routeTag in *. lia. }
  destruct (c_route c) as [t|] eqn:Et; csimpl.
  - apply (route_by (λ p, routeTag (cp_ordinal p) 0)).
    + rewrite (list_fmap_compose cp_ordinal (λ o, routeTag o 0)). apply NoDup_fmap_2_strong; [|done]. intros o o' _ _. unfold routeTag. lia.
    + intros p Hp. rewrite route_hop_policy, Et by by apply Hr. apply decide_ext. naive_solver.
  - apply route_bind_none. intros p Hp. rewrite route_hop_policy, Et by by apply Hr. by rewrite decide_False.
Qed.

(** A balancer's entry: the profile a tag names, as the exit and the policy it
    encodes; a tag of no profile, or none, leaves the choice to the balancer. *)
Definition profile_of (n : nat) (t : Z) : option (Z * option nat) :=
  if isAutoRouteTag t then Some (0xffff - t, None)
  else if (0 <? t mod 256) && (t mod 256 <=? Z.of_nat n) then Some (t / 256, Some (Z.to_nat (t mod 256 - 1)))
  else None.

Definition way_out (w : option nat) : option string * option string :=
  match w with Some i => (Some (exit_tag i), None) | None => (None, Some BALANCER_TAG) end.

Definition balancer_target (n : nat) (c : Connection) : option string * option string :=
  if quic c then (Some "blocked", None)
  else match c_route c ≫= profile_of n with
       | None => way_out None
       | Some (o, w) =>
           if o =? 0 then way_out w
           else match js_find (λ p, cp_ordinal p =? o) ps with
                | Some p => default (way_out w) (policy_says c p)
                | None => way_out None
                end
       end.

Section Balancer.
Context (n : nat) (c : Connection).
Hypothesis Hnet : c_network c ∈ ["tcp"; "udp"].
Hypothesis Hn : (n <= 255)%nat.
Hypothesis Ht : ∀ t, c_route c = Some t → 0 <= t < 65536.

Lemma routeTag_fits o i : 0 <= o <= MAX_DIRECTION_ORDINAL → (i < n)%nat → 0 <= routeTag o (Z.of_nat i) < 65536.
Proof. unfold routeTag, MAX_DIRECTION_ORDINAL. lia. Qed.

Lemma profile_pinned o i : 0 <= o <= MAX_DIRECTION_ORDINAL → (i < n)%nat →
  c_route c = Some (routeTag o (Z.of_nat i)) ↔ c_route c ≫= profile_of n = Some (o, Some i).
Proof.
  intros Ho Hi. unfold MAX_DIRECTION_ORDINAL in *. destruct (c_route c) as [t|] eqn:Et; csimpl; [|naive_solver].
  specialize (Ht t eq_refl). unfold profile_of, isAutoRouteTag, autoRouteTag, routeTag, MAX_DIRECTION_ORDINAL.
  pose proof (Z.div_mod t 256 ltac:(lia)). pose proof (Z.mod_pos_bound t 256 ltac:(lia)). split.
  - intros [= ->]. replace (o * 256 + Z.of_nat i + 1) with (Z.of_nat i + 1 + o * 256) in * by lia.
    rewrite Z.div_add, Z.mod_add, Z.div_small, Z.mod_small in * by lia.
    rewrite (proj2 (Z.leb_gt _ _)), (proj2 (Z.ltb_lt _ _)), (proj2 (Z.leb_le _ _)) by lia. cbn. do 3 f_equal. lia.
  - destruct (Z.leb_spec (0xffff - 254) t); [done|]. destruct (Z.ltb_spec 0 (t mod 256)); [|done].
    destruct (Z.leb_spec (t mod 256) (Z.of_nat n)); [|done]. cbn. intros [= E1 E2]. f_equal. lia.
Qed.

Lemma profile_auto o : 0 <= o <= MAX_DIRECTION_ORDINAL →
  c_route c = Some (autoRouteTag o) ↔ c_route c ≫= profile_of n = Some (o, None).
Proof.
  intros Ho. unfold MAX_DIRECTION_ORDINAL in *. destruct (c_route c) as [t|] eqn:Et; csimpl; [|naive_solver].
  unfold profile_of, isAutoRouteTag, autoRouteTag, MAX_DIRECTION_ORDINAL.
  destruct (Z.leb_spec (0xffff - 254) t).
  - split; intros [=]; do 2 f_equal; lia.
  - split; [intros [=]; lia|]. by destruct (_ && _).
Qed.

Lemma profile_exit o i : c_route c ≫= profile_of n = Some (o, Some i) → (i < n)%nat ∧ 0 <= o <= MAX_DIRECTION_ORDINAL.
Proof.
  destruct (c_route c) as [t|] eqn:Et; csimpl; [|done]. specialize (Ht t eq_refl).
  unfold profile_of, isAutoRouteTag, autoRouteTag, MAX_DIRECTION_ORDINAL.
  destruct (Z.leb_spec (0xffff - 254) t); [done|]. destruct (Z.ltb_spec 0 (t mod 256)); [|done].
  destruct (Z.leb_spec (t mod 256) (Z.of_nat n)); [|done]. cbn. intros [= <- <-].
  pose proof (Z.div_mod t 256 ltac:(lia)). pose proof (Z.mod_pos_bound t 256 ltac:(lia)). lia.
Qed.

Lemma route_plain : route ((λ i, tag_rule (routeTag 0 (Z.of_nat i)) i) <$> seq 0 n) c =
  match c_route c ≫= profile_of n with Some (0, Some i) => Some (way_out (Some i)) | _ => None end.
Proof.
  assert (∀ i, i ∈ seq 0 n → takes c (tag_rule (routeTag 0 (Z.of_nat i)) i) = true ↔
    c_route c ≫= profile_of n = Some (0, Some i)) as Htk.
  { intros i Hi%elem_of_seq. rewrite takes_tag_rule by (done || (apply routeTag_fits; unfold MAX_DIRECTION_ORDINAL; lia)).
    rewrite bool_decide_eq_true. apply profile_pinned; unfold MAX_DIRECTION_ORDINAL; lia. }
  assert (∀ i, c_route c ≫= profile_of n = Some (0, Some i) → i ∈ seq 0 n) as Hin.
  { intros i Hi%profile_exit. apply elem_of_seq. lia. }
  destruct (c_route c ≫= profile_of n) as [[[|o|o] [i|]]|] eqn:E; csimpl.
  1: { rewrite (route_map_one _ _ i); [rewrite decide_True; [done|by apply Hin]|]. 
       intros j Hj. rewrite Htk by done. naive_solver. }
  all: apply route_none; intros r Hr; apply list_elem_of_fmap in Hr as (j & -> & Hj); apply not_true_iff_false;
    rewrite Htk by done; done.
Qed.

Lemma route_pinned : route (ps ≫= λ p, seq 0 n ≫= λ i,
    hop_policy isIP isRegExp (routeTag (cp_ordinal p) (Z.of_nat i)) p ++ [tag_rule (routeTag (cp_ordinal p) (Z.of_nat i)) i]) c =
  match c_route c ≫= profile_of n with
  | Some (o, Some i) => p ← js_find (λ p, cp_ordinal p =? o) ps; Some (default (way_out (Some i)) (policy_says c p))
  | _ => None
  end.
Proof.
  assert (∀ p i, p ∈ ps → i ∈ seq 0 n →
    route (hop_policy isIP isRegExp (routeTag (cp_ordinal p) (Z.of_nat i)) p ++ [tag_rule (routeTag (cp_ordinal p) (Z.of_nat i)) i]) c =
    if decide (c_route c ≫= profile_of n = Some (cp_ordinal p, Some i))
    then Some (default (way_out (Some i)) (policy_says c p)) else None) as Hone.
  { intros p i Hp Hi%elem_of_seq. pose proof (policy_range p Hp).
    rewrite route_app, route_cons, takes_tag_rule, route_hop_policy by (done || (apply routeTag_fits; lia)).
    pose proof (profile_pinned (cp_ordinal p) i ltac:(lia) ltac:(lia)) as Hiff.
    destruct (decide (c_route c = Some (routeTag (cp_ordinal p) (Z.of_nat i)))) as [E|E].
    - rewrite bool_decide_true, (decide_True (P := c_route c ≫= profile_of n = _)) by tauto. by destruct (policy_says c p).
    - rewrite bool_decide_false, (decide_False (P := c_route c ≫= profile_of n = _)) by tauto. done. }
  destruct (c_route c ≫= profile_of n) as [[o [i|]]|] eqn:E.
  1: { apply (route_by cp_ordinal); [done|]. intros p Hp. 
       destruct (decide (cp_ordinal p = o)) as [Eo|Hne].
       - rewrite (route_bind_one _ _ i); [rewrite Hone by (done || (apply elem_of_seq; apply profile_exit in E; lia))|..].
         + by rewrite decide_True by congruence.
         + intros j Hj Hne. rewrite Hone by done. by rewrite decide_False by congruence.
         + apply elem_of_seq. apply profile_exit in E. lia.
       - apply route_bind_none. intros j Hj. rewrite Hone by done. by rewrite decide_False by congruence. }
  all: apply route_bind_none; intros p Hp; apply route_bind_none; intros i Hi; rewrite Hone by done; by rewrite decide_False.
Qed.

Lemma route_autos : route (ps ≫= λ p, hop_policy isIP isRegExp (autoRouteTag (cp_ordinal p)) p) c =
  match c_route c ≫= profile_of n with Some (o, None) => js_find (λ p, cp_ordinal p =? o) ps ≫= policy_says c | _ => None end.
Proof.
  assert (∀ p, p ∈ ps → route (hop_policy isIP isRegExp (autoRouteTag (cp_ordinal p)) p) c =
    if decide (c_route c ≫= profile_of n = Some (cp_ordinal p, None)) then policy_says c p else None) as Hone.
  { intros p Hp. pose proof (policy_range p Hp). rewrite route_hop_policy by (apply autoTag_u16; lia).
    apply decide_ext. apply profile_auto. lia. }
  destruct (c_route c ≫= profile_of n) as [[o [i|]]|] eqn:E.
  2: { apply (route_by cp_ordinal); [done|]. intros p Hp. rewrite Hone by done. apply decide_ext. naive_solver. }
  all: apply route_bind_none; intros p Hp; rewrite Hone by done; by rewrite decide_False.
Qed.

Lemma route_balancer : route (balancer_rules isIP isRegExp ps n) c = Some (balancer_target n c).
Proof.
  unfold balancer_rules, balancer_target. rewrite route_cons, takes_quic. destruct (quic c); [done|].
  rewrite !route_app. rewrite route_plain, route_pinned, route_autos, route_cons, takes_all by done.
  destruct (c_route c ≫= profile_of n) as [[o w]|]; [|done].
  destruct (Z.eqb_spec o 0) as [->|Ho].
  - assert (js_find (λ p, cp_ordinal p =? 0) ps = None) as ->.
    { apply js_find_None. intros p Hp%policy_range. apply Z.eqb_neq. lia. }
    by destruct w.
  - destruct o as [|o|o]; [done|..]; destruct w as [i|]; destruct (js_find _ ps) as [p|]; csimpl; try done; by destruct (policy_says c p).
Qed.
End Balancer.
End Decide.

(** ** What becomes of a connection at the entry *)
Inductive fate := Blocked | AtEntry | Onward (pin : option nat).

Section Fate.
Context (isIP : string → Z) (isRegExp : string → bool) (ps : list CascadePolicy).

Definition said (c : Connection) (p : CascadePolicy) : option fate :=
  if listed isIP isRegExp c (blockDomains p) then Some Blocked
  else if listed isIP isRegExp c (directDomains p) then Some AtEntry else None.

(** A chain has one profile for each policy; a balancer one for each policy and
    exit, and Auto. *)
Definition fate_of (m : mode) (exits : nat) (c : Connection) : fate :=
  if quic c then Blocked
  else match m with
       | chain => default (Onward None) (t ← c_route c; js_find (λ p, routeTag (cp_ordinal p) 0 =? t) ps ≫= said c)
       | balancer =>
           match c_route c ≫= profile_of exits with
           | None => Onward None
           | Some (o, w) =>
               if o =? 0 then Onward w
               else match js_find (λ p, cp_ordinal p =? o) ps with
                    | Some p => default (Onward w) (said c p)
                    | None => Onward None
                    end
           end
       end.

Definition leads (m : mode) (f : fate) : option string * option string :=
  match f with
  | Blocked => (Some "blocked", None)
  | AtEntry => (Some DIRECT_TAG, None)
  | Onward w => match m with chain => (Some LINK_OUT_TAG, None) | balancer => way_out w end
  end.

Lemma policy_said m c p : policy_says isIP isRegExp c p = leads m <$> said c p.
Proof. unfold policy_says, said. by destruct (listed isIP isRegExp c (blockDomains p)), (listed isIP isRegExp c (directDomains p)). Qed.

Lemma chain_leads n c : chain_target isIP isRegExp ps c = leads chain (fate_of chain n c).
Proof.
  unfold chain_target, fate_of. destruct (quic c); [done|]. destruct (c_route c) as [t|]; csimpl; [|done].
  destruct (js_find _ ps) as [p|]; csimpl; [|done]. rewrite (policy_said chain). by destruct (said c p).
Qed.

Lemma balancer_leads n c : balancer_target isIP isRegExp ps n c = leads balancer (fate_of balancer n c).
Proof.
  unfold balancer_target, fate_of. destruct (quic c); [done|]. destruct (c_route c ≫= _) as [[o w]|]; [|done].
  destruct (o =? 0); [done|]. destruct (js_find _ ps) as [p|]; [|done].
  rewrite (policy_said balancer). by destruct (said c p).
Qed.
End Fate.

(** ** From node to node *)

(** The secrets a listener takes: of its clients, or the one it has. *)
Definition link_secrets (o : jvalue) : list string :=
  match jfield "settings" o with
  | Some settings =>
      match jfield "clients" settings with
      | Some (JArr xs) => omap client_secret xs
      | _ => match jfield_str "password" settings with Some x => [x] | None => [] end
      end
  | None => []
  end.

(** A dial is let in by a listener of its port, opened by the agent, that knows
    its secret. *)
Definition lets_in (cfg : HopConfig) (p : Z) (secret : string) : bool :=
  bool_decide (hc_linkIngressPort cfg = Some p) &&
  existsb (λ o, bool_decide (jnum (jfield "port" o) = Some p) && bool_decide (secret ∈ link_secrets o)) (hc_inbounds cfg).

Definition receives (cfg : HopConfig) (c : LinkCred) : Prop := lets_in cfg (port c) (secret_of c) = true.

(** A connection leaves for the internet at a node, or goes on to the node that
    has the address dialled, if that node lets it in. *)
Inductive hops_on (runs : string → option HopConfig) (address : string → option string)
    : string → Connection → list string → Prop :=
  | out_here n c cfg os :
      runs n = Some cfg → leaves cfg c = Ways os → freedomOutbound ∈ os → hops_on runs address n c [n]
  | on_to n c cfg os o h p x m cfg' path :
      runs n = Some cfg → leaves cfg c = Ways os → o ∈ os → dial_of o = Some (h, p, x) → address m = Some h →
      runs m = Some cfg' → lets_in cfg' p x = true → hops_on runs address m (arrive "" c) path →
      hops_on runs address n c (n :: path).

Lemma linkInbound_lets c o : linkInbound c = Ok o →
  jnum (jfield "port" o) = Some (port c) ∧ link_secrets o = [secret_of c].
Proof. destruct c as [p u r|p k m| |]; simpl; intros [= <-]; by destruct r || done. Qed.

Lemma linkOutbound_ok isIP host c selfHost o : linkOutbound isIP host c selfHost = Ok o →
  out_tag o = Some LINK_OUT_TAG ∧ dial_of o = Some (host, port c, secret_of c).
Proof.
  unfold linkOutbound. destruct c as [p u r|p k m| |]; simpl; [| |done|done]; intros [= <-];
    unfold withXrayDialFamily; destruct (dialFamilyOf _ _ _); split; try done; by destruct r.
Qed.

Lemma drawable_draws isIP host c selfHost tag : drawable c = true →
  (∃ o, linkInbound c = Ok o) ∧ (∃ o, linkOutbound isIP host c selfHost = Ok o) ∧
  ∃ o, linkOutboundTagged isIP host c tag selfHost = Ok o.
Proof. destruct c; try done; intros _; repeat split; by eexists. Qed.

Lemma exit_tag_inj i j : exit_tag i = exit_tag j → i = j.
Proof. unfold exit_tag. intros E. do 2 apply str_app_inj in E. apply pretty_Z_inj in E; lia. Qed.

Lemma exit_tag_other i : exit_tag i ≠ DIRECT_TAG ∧ exit_tag i ≠ "blocked".
Proof. by split. Qed.
