(* ===== verification/HopJourney.v ===== *)
(** The way through a cascade of hops
    (apps/panel-backend/src/modules/cascades/cascade.config.ts and
    cascade.service.ts): from the entry, through the fragments each of its nodes
    is pushed, to the node the traffic leaves at. *)

From S2P Require Import CascadeExclusive.
From S2P Require Import Prelude Js Json Directions CascadeValidation LinkCreds PolicyEntries EntryGate XrayLinks.
From S2P Require Import TopologyLinks TopologySave TopologyFragments TopologyRoutes CascadeJourney TopologyRead CascadeDelivery.
From S2P Require Import HopCascade.

Local Open Scope string_scope.
Local Open Scope list_scope.
Local Open Scope Z_scope.

(** ** What the builders draw *)
Lemma lookup_indexed {A} (l : list A) i x : l !! i = Some x → indexed l !! i = Some (i, x).
Proof.
  intros E. unfold indexed. apply lookup_zip_with_Some. exists i, x. split; [done|]. split; [|done].
  apply lookup_seq. split; [lia|]. by apply lookup_lt_Some in E.
Qed.

Lemma indexed_lookup {A} (l : list A) e : e ∈ indexed l → l !! e.1 = Some e.2.
Proof.
  intros (i & Hi)%list_elem_of_lookup. unfold indexed in Hi. apply lookup_zip_with_Some in Hi as (j & x & -> & Hj & Hx).
  apply lookup_seq in Hj as [-> _]. done.
Qed.

Lemma indexed_snd {A} (l : list A) : (indexed l).*2 = l.
Proof. unfold indexed. apply snd_zip. by rewrite length_seq. Qed.

Lemma map_res_lookup {E A B} (f : A → result E B) xs ys i x : map_res f xs = Ok ys → xs !! i = Some x →
  ∃ y, ys !! i = Some y ∧ f x = Ok y.
Proof. rewrite map_res_ok. intros H Hi. destruct (Forall2_lookup_l _ _ _ _ _ H Hi) as (y & ? & ?). by exists y. Qed.

Section Builders.
Context (isIP : string → Z) (isRegExp : string → bool) (ps : list CascadePolicy).

(** One leg: the outbound at one end. *)
Definition leg_out (tag : string) (host : string) (c : LinkCred) (o : jvalue) : Prop :=
  out_tag o = Some tag ∧ dial_of o = Some (host, port c, secret_of c).

Lemma listener_receives cfg o c : hc_linkIngressPort cfg = Some (port c) → hc_inbounds cfg = [o] → linkInbound c = Ok o →
  lets_in cfg (port c) (secret_of c) = true.
Proof.
  intros Hp Hi [H1 H2]%linkInbound_lets. unfold lets_in. rewrite Hp, Hi. cbn. rewrite H1, H2.
  rewrite !bool_decide_true by (done || by left). done.
Qed.

Lemma build_hop_ok sorted creds i hop : (i < length sorted)%nat →
  (∀ j, (S j < length sorted)%nat → ∃ c, creds !! j = Some c ∧ drawable c = true) →
  ∃ cfg, build_hop isIP isRegExp ps sorted creds i hop = Ok cfg ∧ hc_node cfg = hi_nodeId hop ∧
    hc_rules cfg = chain_rules isIP isRegExp ps (hop_role i (length sorted)) ∧ hc_balancers cfg = None ∧
    ((S i < length sorted)%nat → ∃ c o, creds !! i = Some c ∧ hc_outbounds cfg = [o; freedomOutbound] ∧
       leg_out LINK_OUT_TAG (host_at sorted (S i)) c o) ∧
    (S i = length sorted → hc_outbounds cfg = [freedomOutbound]) ∧
    (∀ j c, i = S j → creds !! j = Some c → receives cfg c).
Proof.
  intros Hi Hc. unfold build_hop.
  assert (∃ ins, match (match i with O => None | S j => creds !! j end) with Some c => o ← linkInbound c; Ok [o] | None => Ok [] end = Ok ins ∧
    ∀ j c, i = S j → creds !! j = Some c → ∃ o, linkInbound c = Ok o ∧ ins = [o]) as (ins & -> & Hins).
  { destruct i as [|j]; [by exists []|]. destruct (Hc j Hi) as (c & Ec & Hd). rewrite Ec.
    destruct (drawable_draws isIP "" c None "" Hd) as ((o & Eo) & _). rewrite Eo. exists [o]. split; [done|].
    intros j' c' [= <-] E. exists o. split; [|done]. congruence. }
  rewrite ok_bind. destruct (Nat.ltb_spec (S i) (length sorted)) as [Hlt|Hge].
  - destruct (Hc i Hlt) as (c & Ec & Hd). rewrite Ec.
    destruct (drawable_draws isIP (host_at sorted (S i)) c (Some (hi_nodeHost hop)) "" Hd) as (_ & (o & Eo) & _). rewrite Eo, !ok_bind.
    eexists. split; [done|]. split; [done|]. split; [done|]. split; [done|]. split; [|split; [lia|]].
    + intros _. exists c, o. split; [done|]. split; [done|]. by apply linkOutbound_ok in Eo.
    + intros j c' -> E. destruct (Hins j c' eq_refl E) as (o' & Eo' & ->). unfold receives. by eapply (listener_receives _ o'); [unfold hc_linkIngressPort; rewrite E|..].
  - rewrite ok_bind. eexists. split; [done|]. split; [done|]. split; [done|]. split; [done|]. split; [lia|]. split; [done|].
    intros j c' -> E. destruct (Hins j c' eq_refl E) as (o' & Eo' & ->). unfold receives. by eapply (listener_receives _ o'); [unfold hc_linkIngressPort; rewrite E|..].
Qed.
End Builders.

(** A leg's outbound and the node's own way out, as the node runs them. *)
Lemma run_outbounds n cfg os : hc_outbounds cfg = os ++ [freedomOutbound] → (∀ o, o ∈ os → out_tag o ≠ Some DIRECT_TAG) →
  hc_outbounds (node_config n (toWireFragments cfg)) = freedomOutbound :: os.
Proof.
  intros E Ho. cbn. rewrite E. f_equal. rewrite filter_app. clear E.
  assert (filter (λ o, out_tag o ≠ Some "direct") os = os) as ->; [|by rewrite app_nil_r].
  induction os as [|o os IH]; [done|]. rewrite filter_cons_True by (apply Ho; by left). f_equal. apply IH. set_solver.
Qed.

(** ** A cascade that holds its nodes *)
Section Held.
Context (isIP : string → Z) (isRegExp : string → bool).
Context (cascades : list HopCascade) (store : Store) (s : HopCascade).
Notation routePolicies := (st_policies store).

Definition placed : list HopRow := sort_by row_leb (hc_hops s).
Definition nodes : list string := hr_nodeId <$> placed.
Definition row_host (h : HopRow) : string := linkHostOf (hr_address h).

(** The hops whose row holds the credential of a leg. *)
Definition carriers : list HopRow :=
  match hc_mode s with chain => take (length placed - 1) placed | balancer => drop 1 placed end.

Record hop_sound : Prop := mkSound {
  hs_alone : ∀ n, n ∈ nodes → readTopologyForNode store n = Ok None;
  hs_held : ∀ n, n ∈ nodes → hop_member cascades (st_dead store) n = Some s;
  hs_two : (2 <= length placed <= 256)%nat;
  hs_nodes : NoDup nodes;
  hs_hosts : NoDup (row_host <$> placed);
  hs_entry : ∀ h, h ∈ placed → hr_position h = O → entryReachesCascadeOnlyThroughChain (hr_entryProtocol h) = false;
  hs_creds : ∀ h, h ∈ carriers → ∃ c, hop_cred h = Some c ∧ drawable c = true;
  hs_ordinals : NoDup (cp_ordinal <$> routePolicies);
  hs_range : Forall (λ p, 1 <= cp_ordinal p <= MAX_DIRECTION_ORDINAL) routePolicies
}.

(** What a node of it runs, and the address it is dialled at. *)
Definition hop_runs (n : string) : option HopConfig :=
  match fragments_for store isIP isRegExp cascades n with
  | Ok (HFragments w) => Some (node_config n w)
  | _ => None
  end.

Definition hop_address (n : string) : option string := row_host <$> js_find (λ h, bool_decide (hr_nodeId h = n)) placed.

Hypothesis Hs : hop_sound.

Lemma ordinals_spelled : cp_ordinal <$> hop_policies routePolicies = cp_ordinal <$> routePolicies.
Proof. unfold hop_policies. rewrite <-list_fmap_compose. done. Qed.

Lemma spelled_range : Forall (λ p, 1 <= cp_ordinal p <= MAX_DIRECTION_ORDINAL) (hop_policies routePolicies).
Proof. unfold hop_policies. rewrite Forall_fmap. apply (hs_range Hs). Qed.

Lemma spelled_NoDup : NoDup (cp_ordinal <$> hop_policies routePolicies).
Proof. rewrite ordinals_spelled. apply (hs_ordinals Hs). Qed.

Lemma node_at i h : placed !! i = Some h → nodes !! i = Some (hr_nodeId h).
Proof. intros E. unfold nodes. by rewrite list_lookup_fmap, E. Qed.

Lemma row_of_node i h h' : placed !! i = Some h → h' ∈ placed → hr_nodeId h' = hr_nodeId h → h' = h.
Proof.
  intros E Hin En. apply (NoDup_fmap_elem hr_nodeId placed); [apply (hs_nodes Hs)|done|by eapply list_elem_of_lookup_2|done].
Qed.

Lemma hop_address_at i h : placed !! i = Some h → hop_address (hr_nodeId h) = Some (row_host h).
Proof.
  intros E. unfold hop_address. rewrite (js_find_unique _ _ h); [done|by eapply list_elem_of_lookup_2|by apply bool_decide_eq_true|].
  intros y Hy Hb%bool_decide_eq_true. by eapply row_of_node.
Qed.

(** An address leads to one node. *)
Lemma address_leads i h m : placed !! i = Some h → hop_address m = Some (row_host h) → m = hr_nodeId h.
Proof.
  intros E Hm. unfold hop_address in Hm. apply fmap_Some in Hm as (h' & Hf & Eh). apply js_find_Some in Hf as [Hin Hb].
  apply bool_decide_eq_true in Hb as <-. f_equal. symmetry.
  apply (NoDup_fmap_elem row_host placed); [apply (hs_hosts Hs)|by eapply list_elem_of_lookup_2|done|done].
Qed.

(** *** What a node is pushed *)
Lemma pushed_config i h configs cfg : placed !! i = Some h →
  hop_configs isIP isRegExp routePolicies (hc_mode s) placed = Ok (Some configs) →
  hc_node <$> configs = nodes → configs !! i = Some cfg →
  hop_runs (hr_nodeId h) = Some (node_config (hr_nodeId h) (toWireFragments cfg)).
Proof.
  intros E Hc Hn Hi. unfold hop_runs, fragments_for, buildCascadeFragmentsForNode.
  assert (hr_nodeId h ∈ nodes) as Hin by (eapply list_elem_of_lookup_2; by apply (node_at i)).
  rewrite (hs_alone Hs _ Hin), ok_bind. unfold hop_path. rewrite (hs_held Hs _ Hin). fold placed. pose proof (hs_two Hs) as H2. rewrite (proj2 (Nat.ltb_ge _ _)) by lia.
  assert (match js_find (λ h0, (hr_position h0 =? 0)%nat) placed with
    | Some h0 => entersOnAnotherCore (hr_nodeId h) (hr_entryProtocol h0) [hr_nodeId h0] | None => false end = false) as ->.
  { destruct (js_find _ placed) as [x|] eqn:Ex; [|done]. apply js_find_Some in Ex as [Hx Hz%Nat.eqb_eq].
    unfold entersOnAnotherCore. by rewrite (hs_entry Hs x Hx Hz). }
  rewrite Hc, ok_bind. csimpl.
  assert (hc_node cfg = hr_nodeId h) as Ec.
  { apply (inj Some). rewrite <-(node_at i h E), <-Hn, list_lookup_fmap, Hi. done. }
  rewrite (js_find_unique _ _ cfg); [done|by eapply list_elem_of_lookup_2|by apply bool_decide_eq_true|].
  intros y Hy Hb%bool_decide_eq_true. apply (NoDup_fmap_elem hc_node configs); [rewrite Hn; apply (hs_nodes Hs)|done| |congruence].
  by eapply list_elem_of_lookup_2.
Qed.

(** *** Steps *)
Lemma dials_on i h cfg os c path : placed !! i = Some h → hop_runs (hr_nodeId h) = Some cfg → leaves cfg c = Ways os →
  freedomOutbound ∉ os →
  (∀ o, o ∈ os → ∃ j x cred cfg', placed !! j = Some x ∧ dial_of o = Some (row_host x, port cred, secret_of cred) ∧
     hop_runs (hr_nodeId x) = Some cfg' ∧ receives cfg' cred) →
  hops_on hop_runs hop_address (hr_nodeId h) c path ↔
  ∃ o j x cred rest, o ∈ os ∧ placed !! j = Some x ∧ dial_of o = Some (row_host x, port cred, secret_of cred) ∧
    path = hr_nodeId h :: rest ∧ hops_on hop_runs hop_address (hr_nodeId x) (arrive "" c) rest.
Proof.
  intros Ei Hr Hl Hf Ho. split.
  - intros Ht. inversion Ht as [n c' cfg' os' Hr' Hl' Hf'|n c' cfg' os' o hh p x m cfg'' rest Hr' Hl' Ho' Hd Ha Hm Hlet Hrest]; subst.
    + rewrite Hr in Hr'. injection Hr' as <-. rewrite Hl in Hl'. by injection Hl' as <-.
    + rewrite Hr in Hr'. injection Hr' as <-. rewrite Hl in Hl'. injection Hl' as <-.
      destruct (Ho o Ho') as (j & y & cred & cfg2 & Hy & Hdy & _). rewrite Hd in Hdy. injection Hdy as -> -> ->.
      apply (address_leads j y m Hy) in Ha as ->. by exists o, j, y, cred, rest.
  - intros (o & j & x & cred & rest & Hin & Hx & Hd & -> & Hrest).
    destruct (Ho o Hin) as (j' & y & cred' & cfg' & Hy & Hd' & Hry & Hrec). rewrite Hd in Hd'. injection Hd' as E1 E2 E3.
    assert (y = x) as ->.
    { apply (NoDup_fmap_elem row_host placed); [apply (hs_hosts Hs)|by eapply list_elem_of_lookup_2..|done]. }
    eapply (on_to _ _ _ _ _ _ o); [done|done|done|exact Hd|by apply (hop_address_at j)|exact Hry| |done].
    unfold receives in Hrec. by rewrite E2, E3.
Qed.

Lemma leaves_out n cfg c path : hop_runs n = Some cfg → leaves cfg c = Ways [freedomOutbound] →
  hops_on hop_runs hop_address n c path ↔ path = [n].
Proof.
  intros Hr Hl. split.
  - intros Ht. inversion Ht as [|n' c' cfg' os o hh p x m cfg'' rest Hr' Hl' Ho Hd]; subst; [done|].
    rewrite Hr in Hr'. injection Hr' as <-. rewrite Hl in Hl'. injection Hl' as <-. by apply list_elem_of_singleton in Ho as ->.
  - intros ->. eapply out_here; [done|done|by left].
Qed.

Lemma stopped n cfg c path : hop_runs n = Some cfg → leaves cfg c = Blackhole → ¬ hops_on hop_runs hop_address n c path.
Proof. intros Hr Hl Ht. inversion Ht; subst; congruence. Qed.


(** *** Readings of a running configuration *)
Lemma leaves_blocked cfg c b : route (hc_rules cfg) c = Some (Some "blocked", b) → leaves cfg c = Blackhole.
Proof. intros E. unfold leaves. rewrite E. by destruct b. Qed.

Lemma leaves_direct cfg c os : hc_outbounds cfg = freedomOutbound :: os → (∀ o, o ∈ os → out_tag o ≠ Some DIRECT_TAG) →
  route (hc_rules cfg) c = Some (Some DIRECT_TAG, None) → leaves cfg c = Ways [freedomOutbound].
Proof.
  intros E Ho Hr. unfold leaves. rewrite Hr, bool_decide_false, E by done. rewrite filter_cons_True by done.
  do 2 f_equal. destruct (filter _ os) as [|o l] eqn:E'; [done|]. exfalso.
  assert (o ∈ filter (λ o, out_tag o = Some DIRECT_TAG) os) as [Ht Hin]%list_elem_of_filter by (rewrite E'; by left). by apply (Ho o).
Qed.

Lemma leaves_leg cfg c o t : hc_outbounds cfg = [freedomOutbound; o] → out_tag o = Some t →
  route (hc_rules cfg) c = Some (Some t, None) → t ≠ DIRECT_TAG → t ≠ "blocked" → leaves cfg c = Ways [o].
Proof.
  intros E Ht Hr Hd Hb. unfold leaves. rewrite Hr, bool_decide_false, E by done.
  rewrite filter_cons_False by (intros [=]; congruence). by rewrite filter_cons_True.
Qed.

Lemma route_leg_in out c : route [link_in_rule out] (arrive "" c) = Some (Some out, None).
Proof.
  rewrite route_cons. assert (takes (arrive "" c) (link_in_rule out) = true) as ->; [reflexivity|done].
Qed.

Lemma arrive_twice c : arrive "" (arrive "" c) = arrive "" c.
Proof. done. Qed.

Lemma inputs_sorted : sort_by hop_leb (hop_input <$> placed) = hop_input <$> placed.
Proof.
  apply sort_by_sorted_id. assert (StronglySorted (λ a b, row_leb a b = true) placed) as H.
  { apply sort_by_sorted; unfold row_leb; intros *; [rewrite Nat.leb_gt|rewrite !Nat.leb_le]; rewrite ?Nat.leb_le; lia. }
  induction H as [|x l Hl IH Hx]; csimpl; constructor; [done|]. by rewrite Forall_fmap.
Qed.

Lemma host_at_placed i h : placed !! i = Some h → host_at (hop_input <$> placed) i = row_host h.
Proof. intros E. unfold host_at. by rewrite list_lookup_fmap, E. Qed.

Lemma carriers_creds : ∃ creds, mapM hop_cred carriers = Some creds ∧
  ∀ i h, carriers !! i = Some h → ∃ c, creds !! i = Some c ∧ drawable c = true.
Proof.
  assert (is_Some (mapM hop_cred carriers)) as [creds E].
  { apply mapM_is_Some_2, Forall_forall. intros h Hh. destruct (hs_creds Hs h Hh) as (c & E & _). by exists c. }
  exists creds. split; [done|]. intros i h Hi. apply mapM_Some in E.
  destruct (Forall2_lookup_l _ _ _ _ _ E Hi) as (c & Hc & Eh). exists c. split; [done|].
  destruct (hs_creds Hs h) as (c' & E' & Hd); [by eapply list_elem_of_lookup_2|]. congruence.
Qed.

(** *** A chain *)
Section Chain.
Hypothesis Hm : hc_mode s = chain.

Notation draw creds i h := (build_hop isIP isRegExp (hop_policies routePolicies) (hop_input <$> placed) creds i (hop_input h)).

Definition all_legs (creds : list LinkCred) : Prop :=
  ∀ j, (S j < length placed)%nat → ∃ c, creds !! j = Some c ∧ drawable c = true.

Lemma built creds i h : all_legs creds → placed !! i = Some h → ∃ cfg, draw creds i h = Ok cfg ∧ hc_node cfg = hr_nodeId h ∧
  hc_rules cfg = chain_rules isIP isRegExp (hop_policies routePolicies) (hop_role i (length placed)) ∧
  (∀ h', placed !! S i = Some h' → ∃ c o, creds !! i = Some c ∧ hc_outbounds cfg = [o; freedomOutbound] ∧
     leg_out LINK_OUT_TAG (row_host h') c o) ∧
  (S i = length placed → hc_outbounds cfg = [freedomOutbound]) ∧
  (∀ j c, i = S j → creds !! j = Some c → receives cfg c).
Proof.
  intros Hd Hi. destruct (build_hop_ok isIP isRegExp (hop_policies routePolicies) (hop_input <$> placed) creds i (hop_input h))
    as (cfg & E & Hn & Hr & _ & Hout & Hend & Hrec); [rewrite length_fmap; by eapply lookup_lt_Some|by rewrite length_fmap|].
  rewrite length_fmap in *. exists cfg. split; [done|]. split; [done|]. split; [done|]. split; [|by split].
  intros h' Hh'. rewrite <-(host_at_placed _ _ Hh'). apply Hout. by eapply lookup_lt_Some.
Qed.

Lemma chain_configs : ∃ configs creds, hop_configs isIP isRegExp routePolicies (hc_mode s) placed = Ok (Some configs) ∧
  hc_node <$> configs = nodes ∧ all_legs creds ∧ ∀ i h, placed !! i = Some h → ∃ cfg, configs !! i = Some cfg ∧ draw creds i h = Ok cfg.
Proof.
  destruct carriers_creds as (creds & Ec & Hcr). unfold carriers in *. rewrite Hm in *.
  assert (all_legs creds) as Hd.
  { intros j Hj. destruct (lookup_lt_is_Some_2 placed j ltac:(lia)) as [h Hh]. apply (Hcr j h). by rewrite lookup_take_lt by lia. }
  assert (∃ configs, buildCascadeConfigs isIP isRegExp (hop_policies routePolicies) (hop_input <$> placed) creds = Ok configs) as [configs Eb].
  { apply (proj1 (is_ok_ex isIP isRegExp "" _)). unfold buildCascadeConfigs. rewrite inputs_sorted. apply map_res_is_ok. intros e He%indexed_lookup.
    rewrite list_lookup_fmap in He. apply fmap_Some in He as (h & Hh & Eh). apply (proj2 (is_ok_ex isIP isRegExp "" _)).
    rewrite Eh. destruct (built creds e.1 h Hd Hh) as (cfg & E & _). by exists cfg. }
  unfold buildCascadeConfigs in Eb. rewrite inputs_sorted in Eb.
  assert (∀ i h, placed !! i = Some h → ∃ cfg, configs !! i = Some cfg ∧ draw creds i h = Ok cfg) as Hb.
  { intros i h Hi. apply (map_res_lookup _ _ _ i (i, hop_input h) Eb). apply lookup_indexed. by rewrite list_lookup_fmap, Hi. }
  exists configs, creds. split; [|split; [|by split]].
  - unfold hop_configs, buildCascadeConfigs. cbv beta iota. rewrite Ec. rewrite inputs_sorted, Eb. done.
  - apply map_res_ok, Forall2_length in Eb. rewrite <-(length_fmap snd), indexed_snd, length_fmap in Eb.
    apply list_eq. intros i. unfold nodes. rewrite !list_lookup_fmap. destruct (placed !! i) as [h|] eqn:Hh.
    + destruct (Hb i h Hh) as (cfg & -> & E), (built creds i h Hd Hh) as (cfg' & E' & Hn & _). csimpl. f_equal. congruence.
    + rewrite lookup_ge_None_2; [done|]. rewrite <-Eb. by apply lookup_ge_None.
Qed.

Lemma chain_runs i h : placed !! i = Some h → ∃ cfg, hop_runs (hr_nodeId h) = Some cfg ∧
  hc_rules cfg = chain_rules isIP isRegExp (hop_policies routePolicies) (hop_role i (length placed)) ∧
  (∀ h', placed !! S i = Some h' → ∃ o cred cfg', hc_outbounds cfg = [freedomOutbound; o] ∧
     leg_out LINK_OUT_TAG (row_host h') cred o ∧ hop_runs (hr_nodeId h') = Some cfg' ∧ receives cfg' cred) ∧
  (S i = length placed → hc_outbounds cfg = [freedomOutbound]).
Proof.
  intros Hi. destruct chain_configs as (configs & creds & Hc & Hn & Hd & Hb).
  assert (∀ j x, placed !! j = Some x → ∃ cfg, hop_runs (hr_nodeId x) = Some (node_config (hr_nodeId x) (toWireFragments cfg)) ∧
    draw creds j x = Ok cfg) as Hr.
  { intros j x Hj. destruct (Hb j x Hj) as (cfg & Hcfg & E). exists cfg. split; [|done]. by apply (pushed_config j x configs). }
  destruct (Hr i h Hi) as (cfg & Hcfg & E), (built creds i h Hd Hi) as (cfg' & E' & _ & Hrl & Hout & Hend & _).
  rewrite E in E'. injection E' as <-. eexists. split; [exact Hcfg|]. split; [exact Hrl|]. split.
  - intros h' Hh'. destruct (Hout h' Hh') as (cred & o & Ecr & Eo & Hleg).
    destruct (Hr (S i) h' Hh') as (cfg2 & Hcfg2 & E2), (built creds (S i) h' Hd Hh') as (cfg3 & E3 & _ & _ & _ & _ & Hrec).
    rewrite E2 in E3. injection E3 as <-. eexists o, cred, _. split; [|split; [exact Hleg|split; [exact Hcfg2|by apply (Hrec i)]]].
    apply (run_outbounds _ _ [o]); [done|]. intros x ->%list_elem_of_singleton. by rewrite (proj1 Hleg).
  - intros Hlast. apply (run_outbounds _ _ []); [by apply Hend|]. by intros x ?%not_elem_of_nil.
Qed.

(** From the second node on, a chain is followed to its end. *)
Lemma chain_on k : ∀ i h c path, placed !! i = Some h → (0 < i)%nat → (length placed - i = k)%nat →
  hops_on hop_runs hop_address (hr_nodeId h) (arrive "" c) path ↔ path = drop i nodes.
Proof.
  induction k as [|k IH]; intros i h c path Hi H0 Hk; apply lookup_lt_Some in Hi as Hlt; [lia|].
  destruct (chain_runs i h Hi) as (cfg & Hcfg & Hrules & Hnext & Hlast).
  assert (hop_role i (length placed) = if (S i =? length placed)%nat then RExit else RTransit) as Hrole.
  { unfold hop_role. by rewrite (proj2 (Nat.eqb_neq i 0)) by lia. }
  rewrite (drop_S _ _ _ (node_at i h Hi)). destruct (Nat.eqb_spec (S i) (length placed)) as [E|E]; rewrite Hrole in Hrules.
  - rewrite (leaves_out _ cfg); [|done|].
    + by rewrite drop_ge by (unfold nodes; rewrite length_fmap; lia).
    + apply (leaves_direct _ _ []); [by apply Hlast|by intros o ?%not_elem_of_nil|]. rewrite Hrules. apply route_leg_in.
  - destruct (lookup_lt_is_Some_2 placed (S i) ltac:(lia)) as [h' Hh'].
    destruct (Hnext h' Hh') as (o & cred & cfg' & Houts & [Htag Hdial] & Hr' & Hrec).
    rewrite (dials_on i h cfg [o]); [|done|done| | |].
    + split.
      * intros (o' & j & x & cred' & rest & ->%list_elem_of_singleton & Hx & Hd & -> & Hrest).
        rewrite Hdial in Hd. injection Hd as Eh _ _.
        assert (h' = x) as <- by (apply (NoDup_fmap_elem row_host placed); [apply (hs_hosts Hs)|by eapply list_elem_of_lookup_2..|done]).
        rewrite arrive_twice, (IH (S i) h') in Hrest by (done || lia). by rewrite Hrest.
      * intros ->. exists o, (S i), h', cred, (drop (S i) nodes). split; [by left|]. split; [done|]. split; [done|]. split; [done|].
        rewrite arrive_twice. apply (IH (S i) h'); [done|lia|lia|done].
    + apply (leaves_leg _ _ _ _ Houts Htag); [|done..]. rewrite Hrules. apply route_leg_in.
    + intros Ho%list_elem_of_singleton. by rewrite <-Ho in Htag.
    + intros o' ->%list_elem_of_singleton. by exists (S i), h', cred, cfg'.
Qed.

Lemma chain_journey_hops e c path : placed !! 0%nat = Some e → c_network c ∈ ["tcp"; "udp"] →
  hops_on hop_runs hop_address (hr_nodeId e) c path ↔
  match fate_of isIP isRegExp (hop_policies routePolicies) chain (length placed - 1) c with
  | Blocked => False
  | AtEntry => path = [hr_nodeId e]
  | Onward _ => path = nodes
  end.
Proof.
  intros He Hnet. pose proof (hs_two Hs) as H2. destruct (chain_runs 0 e He) as (cfg & Hcfg & Hrules & Hnext & _).
  destruct (lookup_lt_is_Some_2 placed 1 ltac:(lia)) as [h' Hh'].
  destruct (Hnext h' Hh') as (o & cred & cfg' & Houts & [Htag Hdial] & Hr' & Hrec).
  assert (route (hc_rules cfg) c = Some (leads chain (fate_of isIP isRegExp (hop_policies routePolicies) chain (length placed - 1) c))) as Hroute.
  { rewrite Hrules, <-chain_leads. apply (route_chain _ _ _ spelled_NoDup spelled_range); done. }
  destruct (fate_of _ _ _ _ _ _) as [| |w]; cbn in Hroute.
  - split; [|done]. by apply (stopped _ cfg c path Hcfg), (leaves_blocked _ _ None).
  - apply (leaves_out _ cfg); [done|]. apply (leaves_direct _ _ [o]); [done| |done]. intros x ->%list_elem_of_singleton. by rewrite Htag.
  - assert (nodes = hr_nodeId e :: drop 1 nodes) as Hnodes by apply (drop_S _ _ 0 (node_at 0 e He)).
    rewrite (dials_on 0 e cfg [o]); [|done|done|by apply (leaves_leg _ _ _ _ Houts Htag Hroute)| |].
    + split.
      * intros (o' & j & x & cred' & rest & ->%list_elem_of_singleton & Hx & Hd & -> & Hrest).
        rewrite Hdial in Hd. injection Hd as Eh _ _.
        assert (h' = x) as <- by (apply (NoDup_fmap_elem row_host placed); [apply (hs_hosts Hs)|by eapply list_elem_of_lookup_2..|done]).
        rewrite (chain_on (length placed - 1) 1 h') in Hrest by (done || lia). by rewrite Hnodes, Hrest.
      * intros ->. exists o, 1%nat, h', cred, (drop 1 nodes). split; [by left|]. split; [done|]. split; [done|]. split; [done|].
        apply (chain_on (length placed - 1) 1 h'); [done|lia|lia|done].
    + intros Ho%list_elem_of_singleton. by rewrite <-Ho in Htag.
    + intros o' ->%list_elem_of_singleton. by exists 1%nat, h', cred, cfg'.
Qed.
End Chain.

(** *** A balancer *)
Section BalancerRuns.
Context (e : HopRow) (exits : list HopRow).
Hypothesis Hm : hc_mode s = balancer.
Hypothesis He : placed = e :: exits.

Lemma exit_at i x : exits !! i = Some x → placed !! S i = Some x.
Proof. intros E. by rewrite He. Qed.

Lemma balancer_runs : ∃ cfg outs, hop_runs (hr_nodeId e) = Some cfg ∧
  hc_rules cfg = balancer_rules isIP isRegExp (hop_policies routePolicies) (length exits) ∧
  hc_balancers cfg = Some [mkBalancer BALANCER_TAG [LINK_OUT_TAG]] ∧ hc_outbounds cfg = freedomOutbound :: outs ∧
  length outs = length exits ∧
  ∀ i x, exits !! i = Some x → ∃ o cred cfg', outs !! i = Some o ∧ leg_out (exit_tag i) (row_host x) cred o ∧
    hop_runs (hr_nodeId x) = Some cfg' ∧ receives cfg' cred ∧ hc_rules cfg' = [link_in_rule DIRECT_TAG] ∧
    hc_outbounds cfg' = [freedomOutbound].
Proof.
  destruct carriers_creds as (creds & Ec & Hcr). unfold carriers in Ec, Hcr. rewrite Hm, He in Ec, Hcr. change (drop 1 (e :: exits)) with exits in Ec, Hcr.
  set (inputs := hop_input <$> exits).
  assert (∀ p, p ∈ indexed inputs → ∃ x c, exits !! p.1 = Some x ∧ p.2 = hop_input x ∧ exit_cred creds p.1 = Ok c ∧ drawable c = true) as Hin.
  { intros p Hp%indexed_lookup. unfold inputs in Hp. rewrite list_lookup_fmap in Hp. apply fmap_Some in Hp as (x & Hx & Ex).
    destruct (Hcr p.1 x Hx) as (c & Hc & Hd). exists x, c. unfold exit_cred. by rewrite Hc. }
  assert (∃ outs, map_res (exit_outbound isIP (hop_input e) creds) (indexed inputs) = Ok outs) as [outs Eo].
  { apply (proj1 (is_ok_ex isIP isRegExp "" _)), map_res_is_ok. intros p Hp. destruct (Hin p Hp) as (x & c & _ & _ & Hc & Hd).
    unfold exit_outbound. rewrite Hc, ok_bind. by destruct c. }
  assert (∃ rest, map_res (build_exit (hop_input e) creds) (indexed inputs) = Ok rest) as [rest Er].
  { apply (proj1 (is_ok_ex isIP isRegExp "" _)), map_res_is_ok. intros p Hp. destruct (Hin p Hp) as (x & c & _ & _ & Hc & Hd).
    unfold build_exit. rewrite Hc, ok_bind. by destruct c. }
  set (entry := mkHop (hr_nodeId e) (hr_position e) REntry [] (outs ++ [freedomOutbound])
    (balancer_rules isIP isRegExp (hop_policies routePolicies) (length inputs)) None None
    (Some [mkBalancer BALANCER_TAG [LINK_OUT_TAG]]) (Some observatory)).
  assert (hop_configs isIP isRegExp routePolicies (hc_mode s) placed = Ok (Some (entry :: rest))) as Hc.
  { rewrite Hm, He. unfold hop_configs. rewrite Ec. unfold buildBalancerCascadeConfigs. fold inputs. by rewrite Eo, ok_bind, Er. }
  assert (∀ i x, exits !! i = Some x → ∃ o cred cfg', outs !! i = Some o ∧ leg_out (exit_tag i) (row_host x) cred o ∧
    rest !! i = Some cfg' ∧ hc_node cfg' = hr_nodeId x ∧ receives cfg' cred ∧ hc_rules cfg' = [link_in_rule DIRECT_TAG] ∧
    hc_outbounds cfg' = [] ++ [freedomOutbound]) as Hx.
  { intros i x Hi. assert (indexed inputs !! i = Some (i, hop_input x)) as Hj by (apply lookup_indexed; unfold inputs; by rewrite list_lookup_fmap, Hi).
    destruct (Hcr i x Hi) as (c & Hci & Hd).
    destruct (map_res_lookup _ _ _ i _ Eo Hj) as (o & Ho & Eo'), (map_res_lookup _ _ _ i _ Er Hj) as (cfg' & Hcfg' & Er').
    assert (exit_cred creds i = Ok c) as Hex by (unfold exit_cred; by rewrite Hci).
    unfold exit_outbound in Eo'. unfold build_exit in Er'. cbn [fst snd] in *. rewrite Hex, ok_bind in Eo'. rewrite Hex, ok_bind in Er'.
    exists o, c, cfg'. split; [done|]. split.
    { destruct (linkOutboundTagged _ _ _ _ _) as [o'|] eqn:E'; [|done]. injection Eo' as <-.
      by destruct (linkOutboundTagged_ok _ _ _ _ _ _ E') as (_ & ? & ?). }
    split; [done|]. destruct (linkInbound c) as [ib|] eqn:Ei; [|done]. cbn in Er'. injection Er' as <-.
    split; [done|]. split; [by apply (listener_receives _ ib)|done]. }
  assert (length rest = length exits ∧ length outs = length exits) as [Hlr Hlo].
  { apply map_res_ok, Forall2_length in Eo, Er. rewrite <-(length_fmap snd), indexed_snd in Eo, Er. unfold inputs in *.
    by rewrite length_fmap in Eo, Er. }
  assert (hc_node <$> (entry :: rest) = nodes) as Hn.
  { unfold nodes. rewrite He. csimpl. f_equal. apply list_eq. intros i. rewrite !list_lookup_fmap. destruct (exits !! i) as [x|] eqn:Hi.
    - destruct (Hx i x Hi) as (_ & _ & cfg' & _ & _ & -> & En & _). csimpl. by f_equal.
    - apply lookup_ge_None in Hi. rewrite lookup_ge_None_2 by lia. done. }
  exists (node_config (hr_nodeId e) (toWireFragments entry)), outs.
  split; [apply (pushed_config 0 e (entry :: rest)); [by rewrite He|done|done|done]|]. split; [cbn; unfold inputs; by rewrite length_fmap|].
  split; [done|]. split; [|split; [done|]].
  - apply run_outbounds; [done|]. intros o (i & Hi)%list_elem_of_lookup. destruct (lookup_lt_is_Some_2 exits i) as [x Hxi];
      [rewrite <-Hlo; by eapply lookup_lt_Some|]. destruct (Hx i x Hxi) as (o' & _ & _ & Ho' & [Ht _] & _). assert (o = o') as -> by congruence. by rewrite Ht.
  - intros i x Hi. destruct (Hx i x Hi) as (o & cred & cfg' & Ho & Hleg & Hr & Hnode & Hrec & Hrules & Houts).
    eexists o, cred, _. split; [done|]. split; [done|]. split; [by apply (pushed_config (S i) x (entry :: rest)); [apply exit_at|..]|].
    split; [done|]. split; [done|]. apply run_outbounds; [done|]. by intros ? ?%not_elem_of_nil.
Qed.
End BalancerRuns.

Lemma balancer_ways cfg outs c w : hc_outbounds cfg = freedomOutbound :: outs →
  hc_balancers cfg = Some [mkBalancer BALANCER_TAG [LINK_OUT_TAG]] → (∀ i o, outs !! i = Some o → out_tag o = Some (exit_tag i)) →
  route (hc_rules cfg) c = Some (way_out w) →
  ∃ os, leaves cfg c = Ways os ∧ ∀ o, o ∈ os ↔ ∃ i, outs !! i = Some o ∧ (w = None ∨ w = Some i).
Proof.
  intros Ho Hb Ht Hr. unfold leaves. rewrite Hr, Ho, Hb. destruct w as [i|]; cbn [way_out].
  - rewrite bool_decide_false by apply exit_tag_other. eexists. split; [done|]. intros o.
    rewrite list_elem_of_filter, elem_of_cons. split.
    + intros [Et [->|(j & Hj)%list_elem_of_lookup]]; [done|]. rewrite (Ht j o Hj) in Et. apply (inj Some) in Et.
      apply (exit_tag_inj j i) in Et as <-. exists j. auto.
    + intros (j & Hj & [|[= <-]]); [done|]. split; [by apply Ht|right; by eapply list_elem_of_lookup_2].
  - exists (filter (λ o, selects [LINK_OUT_TAG] o = true) (freedomOutbound :: outs)). split; [reflexivity|]. intros o. rewrite list_elem_of_filter, elem_of_cons. split.
    + intros [Es [->|(j & Hj)%list_elem_of_lookup]]; [done|]. exists j. auto.
    + intros (j & Hj & _). split; [|right; by eapply list_elem_of_lookup_2]. unfold selects. rewrite (Ht j o Hj). cbn [existsb b_selector].
      unfold exit_tag. rewrite orb_false_r. apply starts_with_spec. by eexists.
Qed.

Lemma balancer_journey_hops e exits c path : hc_mode s = balancer → placed = e :: exits → c_network c ∈ ["tcp"; "udp"] →
  (∀ t, c_route c = Some t → 0 <= t < 65536) →
  hops_on hop_runs hop_address (hr_nodeId e) c path ↔
  match fate_of isIP isRegExp (hop_policies routePolicies) balancer (length exits) c with
  | Blocked => False
  | AtEntry => path = [hr_nodeId e]
  | Onward w => ∃ i x, exits !! i = Some x ∧ (w = None ∨ w = Some i) ∧ path = [hr_nodeId e; hr_nodeId x]
  end.
Proof.
  intros Hm He Hnet Ht. destruct (balancer_runs e exits Hm He) as (cfg & outs & Hcfg & Hrules & Hbal & Houts & Hlen & Hexits).
  assert (placed !! 0%nat = Some e) as H0 by by rewrite He.
  assert (∀ i o, outs !! i = Some o → ∃ x, exits !! i = Some x ∧ ∃ cred cfg', leg_out (exit_tag i) (row_host x) cred o ∧
    hop_runs (hr_nodeId x) = Some cfg' ∧ receives cfg' cred ∧ hc_rules cfg' = [link_in_rule DIRECT_TAG] ∧ hc_outbounds cfg' = [freedomOutbound]) as Hback.
  { intros i o Ho. destruct (lookup_lt_is_Some_2 exits i) as [x Hx]; [rewrite <-Hlen; by eapply lookup_lt_Some|].
    destruct (Hexits i x Hx) as (o' & cred & cfg' & Ho' & Hrest). assert (o' = o) as -> by congruence. exists x. split; [done|]. by exists cred, cfg'. }
  assert (∀ i o, outs !! i = Some o → out_tag o = Some (exit_tag i)) as Htag.
  { intros i o Ho. destruct (Hback i o Ho) as (x & _ & cred & cfg' & [? _] & _). done. }
  assert (route (hc_rules cfg) c = Some (leads balancer (fate_of isIP isRegExp (hop_policies routePolicies) balancer (length exits) c))) as Hroute.
  { rewrite Hrules, <-balancer_leads. apply (route_balancer _ _ _ spelled_NoDup spelled_range); [done| |done].
    pose proof (hs_two Hs) as H2. rewrite He in H2. cbn in H2. lia. }
  destruct (fate_of _ _ _ _ _ _) as [| |w]; cbn in Hroute.
  - split; [|done]. by apply (stopped _ cfg c path Hcfg), (leaves_blocked _ _ None).
  - apply (leaves_out _ cfg); [done|]. apply (leaves_direct _ _ outs); [done| |done].
    intros o (i & Hi)%list_elem_of_lookup. rewrite (Htag i o Hi). intros E%(inj Some). by apply (exit_tag_other i).
  - destruct (balancer_ways cfg outs c w Houts Hbal Htag Hroute) as (os & Hl & Hos).
    assert (∀ x cfg' c', hop_runs (hr_nodeId x) = Some cfg' → hc_rules cfg' = [link_in_rule DIRECT_TAG] → hc_outbounds cfg' = [freedomOutbound] →
      ∀ rest, hops_on hop_runs hop_address (hr_nodeId x) (arrive "" c') rest ↔ rest = [hr_nodeId x]) as Hend.
    { intros x cfg' c' Hr Hru Hou rest. apply (leaves_out _ cfg'); [done|]. apply (leaves_direct _ _ []); [done|by intros ? ?%not_elem_of_nil|].
      rewrite Hru. apply route_leg_in. }
    rewrite (dials_on 0 e cfg os); [|done|done|done| |].
    + split.
      * intros (o & j & x & cred & rest & (i & Hi & Hw)%Hos & Hx & Hd & -> & Hrest).
        destruct (Hback i o Hi) as (y & Hy & cred' & cfg' & [_ Hd'] & Hr & _ & Hru & Hou). rewrite Hd in Hd'. injection Hd' as Eh _ _.
        assert (x = y) as -> by (apply (NoDup_fmap_elem row_host placed); [apply (hs_hosts Hs)| | |done]; eapply list_elem_of_lookup_2;
          [exact Hx|by apply (exit_at e exits He)]).
        apply (Hend y cfg') in Hrest as ->; [|done..]. by exists i, y.
      * intros (i & x & Hx & Hw & ->). destruct (Hexits i x Hx) as (o & cred & cfg' & Ho & [_ Hd] & Hr & _ & Hru & Hou).
        exists o, (S i), x, cred, [hr_nodeId x]. split; [apply Hos; by exists i|]. split; [by apply (exit_at e exits He)|].
        split; [done|]. split; [done|]. by apply (Hend x cfg').
    + intros (i & Hi & _)%Hos. by specialize (Htag i _ Hi).
    + intros o (i & Hi & _)%Hos. destruct (Hback i o Hi) as (x & Hx & cred & cfg' & [_ Hd] & Hr & Hrec & _).
      exists (S i), x, cred, cfg'. split; [by apply (exit_at e exits He)|done].
Qed.

(** C6. The way through a cascade of hops.  With the fragments its nodes are
    pushed, a connection is blocked at the entry or leaves there exactly when
    QUIC or the policy of its profile says so; else through a chain it is carried
    along every node in order and out of the last, and through a balancer to the
    exit its tag pins, or to any one exit where it pins none, and out there; in
    no other way. *)
Theorem hop_journey e c path : placed !! 0%nat = Some e → c_network c ∈ ["tcp"; "udp"] →
  (∀ t, c_route c = Some t → 0 <= t < 65536) →
  hops_on hop_runs hop_address (hr_nodeId e) c path ↔
  match fate_of isIP isRegExp (hop_policies routePolicies) (hc_mode s) (length placed - 1) c with
  | Blocked => False
  | AtEntry => path = [hr_nodeId e]
  | Onward w =>
      match hc_mode s with
      | chain => path = nodes
      | balancer => ∃ i x, tail nodes !! i = Some x ∧ (w = None ∨ w = Some i) ∧ path = [hr_nodeId e; x]
      end
  end.
Proof.
  intros He Hnet Ht. destruct (hc_mode s) eqn:Hm.
  - rewrite (chain_journey_hops Hm e c path He Hnet). by destruct (fate_of _ _ _ _ _ _).
  - assert (∃ exits, placed = e :: exits) as [exits Hp] by (destruct placed as [|h l]; [done|]; injection He as ->; by exists l).
    rewrite (balancer_journey_hops e exits c path Hm Hp Hnet Ht). rewrite Hp. cbn [length]. rewrite Nat.sub_succ, Nat.sub_0_r.
    destruct (fate_of _ _ _ _ _ _) as [| |w]; [done..|]. unfold nodes. rewrite Hp. csimpl. split.
    + intros (i & x & Hx & Hw & ->). exists i, (hr_nodeId x). by rewrite list_lookup_fmap, Hx.
    + intros (i & n & Hx & Hw & ->). rewrite list_lookup_fmap in Hx. apply fmap_Some in Hx as (x & Hx & ->). by exists i, x.
Qed.
End Held.

(** The hop branch spells a policy's entries before it trims them, the topology
    branch after: an entry with a blank in front keeps the operator's name of the
    file here, which no node has. *)
Example blank_keeps_unspelled isIP isRegExp :
  xrayPolicyRules isIP isRegExp "257" (xrayGeoEntry <$> [" ext:geo:ru"]) "blocked" id = [domain_rule "257" ["ext:geo:ru"] "blocked"] ∧
  xrayPolicyRules isIP isRegExp "257" [" ext:geo:ru"] "blocked" xrayGeoEntry = [domain_rule "257" ["ext:iceslab-geo.dat:ru"] "blocked"].
Proof. by split; vm_compute. Qed.

(** ** An example: a balancer of two exits *)
Definition ex_hop (n : string) (p : nat) (cred : option LinkCred) : HopRow :=
  mkHopRow n p (Some "vless") (match cred with Some c => serializeLinkCred c | None => JNull end) (n +:+ ".example:8443").

Definition ex_balancer : HopCascade :=
  mkHopCascade (CascadeExclusive.mkCascade "c" "fleet" 0 true balancer ["e"; "x"; "y"] [] []) balancer
    [ex_hop "y" 2 (Some (Vless 24001 "u2" None)); ex_hop "e" 0 None; ex_hop "x" 1 (Some (Ss2022 24000 "k1" "aes"))].

Definition ex_policies : list CascadePolicy := [mkPolicy 1 ["geosite:google"] ["geosite:ads"]].

Definition ex_client (tag : Z) : Connection :=
  mkConnection (Some tag) "u" "in" "tcp" 443 (λ _, false) (λ _, false).

Definition ex_hop_store : Store := mkStore [] [] [] (λ _, ("", JNull)) ex_policies (λ _ _, []).

Lemma ex_balancer_sound : hop_sound [ex_balancer] ex_hop_store ex_balancer.
Proof.
  constructor.
  - done.
  - intros n Hn. vm_compute in Hn. each_in Hn; by vm_compute.
  - vm_compute. lia.
  - by apply (bool_decide_unpack _).
  - by apply (bool_decide_unpack _).
  - intros h Hh. vm_compute in Hh. by each_in Hh.
  - intros h Hh. vm_compute in Hh. each_in Hh; eexists; (split; [by vm_compute|done]).
  - by apply (bool_decide_unpack _).
  - repeat constructor; vm_compute; done.
Qed.

Theorem hop_journey_witness :
  hops_on (hop_runs (λ _, 0) (λ _, false) [ex_balancer] ex_hop_store) (hop_address ex_balancer) "e" (ex_client (routeTag 1 1)) ["e"; "y"].
Proof.
  apply (hop_journey (λ _, 0) (λ _, false) [ex_balancer] ex_hop_store ex_balancer ex_balancer_sound (ex_hop "e" 0 None)).
  - reflexivity.
  - left.
  - intros t [= <-]. vm_compute. split; discriminate || reflexivity.
  - exists 1%nat, "y". split; [reflexivity|]. split; [right; reflexivity|reflexivity].
Defined.
