(* ===== verification/InboundSync.v ===== *)
(** The push of a node's configuration
    (apps/panel-backend/src/modules/inbounds/inbounds.queue.ts and
    inbounds.events.ts; modules/nodes/nodes.sync-status.ts): the revision an
    edit asks for and the one a node has acknowledged, the queue with one job a
    node, and the roster of users that goes out after a push.

    One node.  What it should run is counted in edits ([conf]); a request is
    kept as the edit its reads are sure to include ([asof]).  An event of an edit
    ([owed]) runs [enqueueNodePush], an UPDATE and an add to the queue, each a
    step.  A job of the queue holds its id until it is removed, and an add under
    a held id is dropped.  A worker's events run [requeueIfMoved].  Statements of
    the panel do not fail here, but for the stamps of a push, which the source
    lets fail; what the agent does is an [Outcome]. *)

From S2P Require Import Prelude.
From stdpp Require Import relations.

Local Open Scope string_scope.
Local Open Scope list_scope.
Local Open Scope Z_scope.

(** ** The row and the queue *)
Record NodeRow := mkRow {
  desiredRevision : Z;
  appliedRevision : Z;
  lastInboundSyncAt : option Z;
  configChangedAt : option Z;
  lastInboundSyncError : bool;
  n_active : bool;       (* not deleted, not disabled *)
  n_answers : bool       (* status online or degraded *)
}.

Inductive QueueJob := NoJob | Waiting (made : nat) | Active (made : nat) (rev builtAt asof : Z) | Ended.

(** [unack]: the revision read by the last run that ended, if the node did not
    acknowledge it.  [dropped]: an add was dropped under the id of a job that had
    ended, and no job has begun since.  The code keeps neither. *)
Record World := mkWorld {
  conf : Z;
  owed : nat;
  row : NodeRow;
  job : QueueJob;
  adds : nat;
  checks : list Z;
  readds : nat;
  reconciled : list (Z * Z);
  holds : option Z;
  unack : option Z;
  dropped : bool
}.

Definition attempts : nat := 3.
Definition RECONCILE_EVERY_S : Z := 3600.

(** [inboundSyncQueue.add(..., { jobId })]. *)
Definition queue_add (j : QueueJob) : QueueJob := match j with NoJob => Waiting 0 | _ => j end.

(** Whether the add is dropped under the id of a job that will not run again. *)
Definition drops (j : QueueJob) : bool := match j with Ended => true | _ => false end.

Definition on_row (f : NodeRow → NodeRow) (w : World) : World :=
  mkWorld (conf w) (owed w) (f (row w)) (job w) (adds w) (checks w) (readds w) (reconciled w) (holds w) (unack w) (dropped w).
Definition on_job (f : QueueJob → QueueJob) (w : World) : World :=
  mkWorld (conf w) (owed w) (row w) (f (job w)) (adds w) (checks w) (readds w) (reconciled w) (holds w) (unack w) (dropped w).

(** An edit of anything the node's configuration is drawn from, and its event. *)
Definition edit (w : World) : World :=
  mkWorld (conf w + 1) (S (owed w)) (row w) (job w) (adds w) (checks w) (readds w) (reconciled w) (holds w) (unack w) (dropped w).

(** *** [enqueueNodePush] *)
Definition enqueue_bump (now : Z) (w : World) : World :=
  let r := row w in
  mkWorld (conf w) (Nat.pred (owed w))
    (mkRow (desiredRevision r + 1) (appliedRevision r) (lastInboundSyncAt r) (Some now) (lastInboundSyncError r) (n_active r) (n_answers r))
    (job w) (S (adds w)) (checks w) (readds w) (reconciled w) (holds w) (unack w) (dropped w).

Definition enqueue_add (w : World) : World :=
  mkWorld (conf w) (owed w) (row w) (queue_add (job w)) (Nat.pred (adds w)) (checks w) (readds w) (reconciled w) (holds w) (unack w)
    (drops (job w) || dropped w).

(** *** The worker *)

(** [readDesiredRevision], and the build that follows. *)
Definition start (made : nat) (now : Z) (w : World) : World :=
  mkWorld (conf w) (owed w) (row w) (Active made (desiredRevision (row w)) now (conf w)) (adds w) (checks w) (readds w)
    (reconciled w) (holds w) (unack w) false.

(** What became of a run: whether the node was found, not deleted and not
    disabled, whether it took the request, whether it answered ok, which stamps
    were written, and whether the job came to its end. *)
Record Outcome := mkOutcome { o_found : bool; o_took : bool; o_ok : bool; o_stamped : bool; o_acked : bool; o_done : bool }.

Definition outcome_ok (o : Outcome) : Prop := (o_ok o = true → o_took o = true) ∧ (o_done o = true → o_ok o = true).

(** The row after [applyInboundsForNode]. *)
Definition stamp (o : Outcome) (rev builtAt : Z) (r : NodeRow) : NodeRow :=
  if o_ok o then
    mkRow (desiredRevision r) (if o_acked o then Z.max (appliedRevision r) rev else appliedRevision r)
      (if o_stamped o then Some builtAt else lastInboundSyncAt r) (configChangedAt r)
      (if o_stamped o then false else lastInboundSyncError r) (n_active r) (n_answers r)
  else mkRow (desiredRevision r) (appliedRevision r) (lastInboundSyncAt r) (configChangedAt r)
    (o_stamped o || lastInboundSyncError r) (n_active r) (n_answers r).

(** The job ends: the worker's event has the revision it read. *)
Definition end_job (rev : Z) (w : World) : World :=
  mkWorld (conf w) (owed w) (row w) Ended (adds w) (checks w ++ [rev]) (readds w) (reconciled w) (holds w)
    (if appliedRevision (row w) <? rev then Some rev else None) (dropped w).

(** [applyInboundsForNode] and the end of its job, or its next attempt. *)
Definition finish (o : Outcome) (made : nat) (rev builtAt asof : Z) (w : World) : World :=
  if negb (o_found o) then end_job rev w else
  let w := mkWorld (conf w) (owed w) (stamp o rev builtAt (row w)) (job w) (adds w) (checks w) (readds w) (reconciled w)
             (if o_took o then Some asof else holds w) (unack w) (dropped w) in
  if negb (o_done o) && (S made <? attempts)%nat then on_job (λ _, Waiting (S made)) w else end_job rev w.

(** [removeOnComplete], [removeOnFail]. *)
Definition remove : World → World := on_job (λ _, NoJob).

(** *** [requeueIfMoved]: the read, and the add. *)
Definition requeue_check (c1 : list Z) (readRevision : Z) (c2 : list Z) (w : World) : World :=
  mkWorld (conf w) (owed w) (row w) (job w) (adds w) (c1 ++ c2)
    (if desiredRevision (row w) <=? readRevision then readds w else S (readds w)) (reconciled w) (holds w) (unack w) (dropped w).

Definition requeue_add (w : World) : World :=
  mkWorld (conf w) (owed w) (row w) (queue_add (job w)) (adds w) (checks w) (Nat.pred (readds w)) (reconciled w) (holds w) (unack w)
    (drops (job w) || dropped w).

(** *** [reconcileNodeRevisions], of one node. *)
Definition key_held (now rev : Z) (keys : list (Z * Z)) : bool := existsb (λ k, (k.1 =? rev) && (now <? k.2)) keys.

Definition reconcileNodeRevisions (now : Z) (w : World) : World :=
  let r := row w in
  if n_active r && n_answers r && (appliedRevision r <? desiredRevision r) then
    if key_held now (desiredRevision r) (reconciled w) then w
    else mkWorld (conf w) (owed w) (row w) (queue_add (job w)) (adds w) (checks w) (readds w)
           ((desiredRevision r, now + RECONCILE_EVERY_S) :: reconciled w) (holds w) (unack w) (drops (job w) || dropped w)
  else w.

(** The status poll finds the node in another state; a node that is back is
    queued. *)
Definition pollNodeStatus (active answers : bool) (w : World) : World :=
  let w := on_row (λ r, mkRow (desiredRevision r) (appliedRevision r) (lastInboundSyncAt r) (configChangedAt r)
                          (lastInboundSyncError r) active answers) w in
  if answers then
    mkWorld (conf w) (owed w) (row w) (queue_add (job w)) (adds w) (checks w) (readds w) (reconciled w) (holds w) (unack w)
      (drops (job w) || dropped w)
  else w.

(** *** [getNodeSyncStatus] *)
Definition applied (r : NodeRow) : bool :=
  bool_decide (lastInboundSyncAt r ≠ None) && (desiredRevision r <=? appliedRevision r).

(** ** Steps, in any order

    [requeueIfMoved] reads at once and adds when the job that ended is gone, or
    after two seconds; here its add may come at any time after its read. *)
Inductive step (w : World) : World → Prop :=
  | step_edit : step w (edit w)
  | step_bump now : (0 < owed w)%nat → step w (enqueue_bump now w)
  | step_add : (0 < adds w)%nat → step w (enqueue_add w)
  | step_start made now : job w = Waiting made → step w (start made now w)
  | step_finish o made rev builtAt asof : outcome_ok o → job w = Active made rev builtAt asof →
      step w (finish o made rev builtAt asof w)
  | step_remove : job w = Ended → step w (remove w)
  | step_check c1 rev c2 : checks w = c1 ++ rev :: c2 → step w (requeue_check c1 rev c2 w)
  | step_readd : (0 < readds w)%nat → step w (requeue_add w)
  | step_poll active answers : step w (pollNodeStatus active answers w)
  | step_reconcile now : step w (reconcileNodeRevisions now w).

Definition fresh_row : NodeRow := mkRow 0 0 None None false true false.
Definition fresh : World := mkWorld 0 0 fresh_row NoJob 0 [] 0 [] None None false.

(** ** What holds throughout *)
Record sound (w : World) : Prop := {
  so_conf : conf w = desiredRevision (row w) + Z.of_nat (owed w);
  so_applied : appliedRevision (row w) <= desiredRevision (row w);
  so_holds : ∀ a, holds w = Some a → appliedRevision (row w) <= a <= conf w;
  so_synced : lastInboundSyncAt (row w) ≠ None → holds w ≠ None;
  so_run : ∀ made rev builtAt asof, job w = Active made rev builtAt asof →
    appliedRevision (row w) <= rev <= desiredRevision (row w) ∧ rev <= asof <= conf w
}.

Lemma queue_add_active j made rev builtAt asof : queue_add j = Active made rev builtAt asof → j = Active made rev builtAt asof.
Proof. by destruct j. Qed.

Lemma queue_add_sound w keys a r c d : sound w → sound (mkWorld (conf w) (owed w) (row w) (queue_add (job w)) a c r keys (holds w) (unack w) d).
Proof. intros [H1 H2 H3 H4 H5]. split; cbn; try done. intros * E%queue_add_active. by eapply H5. Qed.

Lemma end_sound rev w : sound w → sound (end_job rev w).
Proof. intros [H1 H2 H3 H4 H5]. by split. Qed.

Lemma finish_sound o made rev builtAt asof w : outcome_ok o → job w = Active made rev builtAt asof → sound w →
  sound (finish o made rev builtAt asof w).
Proof.
  intros [Ho Hd] Ej Hs. unfold finish. destruct (o_found o); cbn [negb]; [|by apply end_sound].
  set (w' := mkWorld _ _ _ _ _ _ _ _ _ _ _). assert (sound w') as Hw'.
  { destruct Hs as [H1 H2 H3 H4 H5]. destruct (H5 _ _ _ _ Ej) as (Hr & Ha).
    assert (∀ a, (if o_took o then Some asof else holds w) = Some a → appliedRevision (row w) <= a <= conf w) as Ha'.
    { intros a. destruct (o_took o); [intros [= <-]; lia|apply H3]. }
    split; unfold w', stamp; destruct (o_ok o) eqn:Eo; cbn; try done.
    - destruct (o_acked o); lia.
    - rewrite (Ho eq_refl). intros a [= <-]. destruct (o_acked o); lia.
    - by rewrite (Ho eq_refl).
    - intros Hn. destruct (o_took o); [done|by apply H4].
    - rewrite Ej. intros * [= <- <- <- <-]. destruct (o_acked o); lia. }
  destruct (negb (o_done o) && _); [|by apply end_sound]. destruct Hw' as [H1 H2 H3 H4 H5]. by split.
Qed.

Lemma step_sound w w' : step w w' → sound w → sound w'.
Proof.
  intros Hst Hs. destruct Hst as [|now Ho|Ha|made now Ej|o made rev builtAt asof Ho Ej|Ej|c1 rev c2 Ec|Hr|active answers|now].
  - destruct Hs as [H1 H2 H3 H4 H5]. split; cbn; try done; [lia| |]; intros; [specialize (H3 _ H)|specialize (H5 _ _ _ _ H)]; lia.
  - destruct Hs as [H1 H2 H3 H4 H5]. split; cbn; try done; [lia..|]. intros * E. specialize (H5 _ _ _ _ E). lia.
  - by apply queue_add_sound.
  - destruct Hs as [H1 H2 H3 H4 H5]. split; cbn; try done. intros * [= <- <- <- <-]. lia.
  - by apply finish_sound.
  - destruct Hs as [H1 H2 H3 H4 H5]. by split.
  - destruct Hs as [H1 H2 H3 H4 H5]. by split.
  - by apply queue_add_sound.
  - destruct Hs as [H1 H2 H3 H4 H5]. unfold pollNodeStatus. destruct answers; split; cbn; try done. intros * E%queue_add_active. by eapply H5.
  - unfold reconcileNodeRevisions. destruct (_ && _ && _); [|done]. destruct (key_held _ _ _); [done|]. by apply queue_add_sound.
Qed.

(** ** A node behind is pursued *)

(** Something is under way that ends in a push of the present revision. *)
Definition pursued (w : World) : Prop :=
  (0 < adds w)%nat ∨ (0 < readds w)%nat ∨ (∃ made, job w = Waiting made) ∨ (∃ made rev b a, job w = Active made rev b a) ∨
  (∃ c, c ∈ checks w ∧ c < desiredRevision (row w)).

(** The last run read the present revision and was not acknowledged. *)
Definition refused (w : World) : Prop := unack w = Some (desiredRevision (row w)).

(** A node behind is pursued, or was refused, or lost an add. *)
Definition chased (w : World) : Prop :=
  appliedRevision (row w) < desiredRevision (row w) → pursued w ∨ refused w ∨ dropped w = true.

Lemma queue_add_chased w a r keys : 
  chased (mkWorld (conf w) (owed w) (row w) (queue_add (job w)) a (checks w) r keys (holds w) (unack w) (drops (job w) || dropped w)).
Proof.
  intros _. unfold pursued. cbn. destruct (job w) as [|made|made rev b as_|]; cbn; [| | |by right; right];
    left; right; right; [left|left|right; left]; by repeat eexists.
Qed.

Lemma end_chased rev w : rev <= desiredRevision (row w) → chased (end_job rev w).
Proof.
  intros Hr Hb. cbn in Hb. destruct (decide (rev < desiredRevision (row w))) as [Hlt|Hge].
  - left. do 4 right. exists rev. cbn. split; [set_solver|done].
  - right. left. unfold refused. cbn. assert (rev = desiredRevision (row w)) as -> by lia. by rewrite (proj2 (Z.ltb_lt _ _)).
Qed.

Lemma finish_chased o made rev builtAt asof w : job w = Active made rev builtAt asof → sound w →
  chased (finish o made rev builtAt asof w).
Proof.
  intros Ej Hs. destruct (so_run w Hs _ _ _ _ Ej) as (Hr & _). unfold finish.
  destruct (o_found o); cbn [negb]; [|apply end_chased; lia].
  destruct (negb (o_done o) && _).
  - intros _. left. right. right. left. by eexists.
  - apply end_chased. cbn. unfold stamp. destruct (o_ok o); cbn; lia.
Qed.

Lemma step_chased w w' : step w w' → sound w → chased w → chased w'.
Proof.
  intros Hst Hs Hc. destruct Hst as [|now Ho|Ha|made now Ej|o made rev builtAt asof Ho Ej|Ej|c1 rev c2 Ec|Hr|active answers|now].
  - done.
  - intros _. left. left. cbn. lia.
  - by apply queue_add_chased.
  - intros _. left. do 3 right. left. by do 4 eexists.
  - by apply finish_chased.
  - intros Hb. destruct (Hc Hb) as [[H|[H|[[m H]|[(m & r & b & a & H)|H]]]]|H]; try congruence; try (right; exact H); left.
    + by left.
    + right. by left.
    + do 4 right. exact H.
  - intros Hb. destruct (Hc Hb) as [Hp|Hf]; [left|by right].
    unfold pursued in *. cbn. destruct (Z.leb_spec (desiredRevision (row w)) rev); [|right; left; lia].
    destruct Hp as [|[|[|[|(c & Hin & Hlt)]]]]; auto 6. do 4 right. exists c. split; [|done]. rewrite Ec in Hin.
    apply elem_of_app in Hin as [?|[->|?]%elem_of_cons]; [set_solver|lia|set_solver].
  - by apply queue_add_chased.
  - unfold pollNodeStatus. destruct answers; [|done].
    apply (queue_add_chased (on_row (λ r, mkRow (desiredRevision r) (appliedRevision r) (lastInboundSyncAt r) (configChangedAt r)
      (lastInboundSyncError r) active true) w)).
  - unfold reconcileNodeRevisions. destruct (_ && _ && _); [|done]. destruct (key_held _ _ _); [done|]. by apply queue_add_chased.
Qed.

Lemma fresh_sound : sound fresh.
Proof. by split; cbn. Qed.

Lemma fresh_chased : chased fresh.
Proof. intros H. cbn in H. lia. Qed.

Lemma reached w : rtc step fresh w → sound w ∧ chased w.
Proof.
  intros H. assert (∀ v, sound v ∧ chased v → rtc step v w → sound w ∧ chased w) as Hgo.
  { clear H. intros v Hv H. revert Hv. induction H as [|v v' w Hst _ IH]; [done|]. intros [Hs Hc]. apply IH.
    split; [by eapply step_sound|]. by eapply step_chased. }
  apply (Hgo fresh); [|done]. split; [apply fresh_sound|apply fresh_chased].
Qed.

(** C11. What a node card says is so.  However edits, pushes, failures, status
    changes and the queue interleave, once the events of the edits have run a
    node shown as applied has taken a request built after the last of them.  And
    a node that is behind is left alone in two cases only: its last run read that
    very revision and was not acknowledged, or an add was dropped under the id of
    a job that had ended and no job has begun since; else a push of its present
    revision is on its way. *)
Theorem pushes_follow_edits w : rtc step fresh w → owed w = 0%nat →
  (applied (row w) = true → holds w = Some (conf w)) ∧
  (appliedRevision (row w) < desiredRevision (row w) → pursued w ∨ refused w ∨ dropped w = true).
Proof.
  intros [Hs Hc]%reached H0. split; [|exact Hc].
  unfold applied. rewrite andb_true_iff, bool_decide_eq_true, Z.leb_le. intros [Hn Ha].
  destruct (holds w) as [a|] eqn:Eh; [|by destruct (so_synced w Hs Hn)]. f_equal.
  pose proof (so_holds w Hs a Eh). pose proof (so_conf w Hs) as E. rewrite H0 in E. lia.
Qed.

Definition taken : Outcome := mkOutcome true true true true true true.

(** The second case happens: an edit between the read of [requeueIfMoved] and
    the end of the job loses its add, and nothing is under way although no run
    failed. *)
Theorem edit_falls_in_gap : ∃ w, rtc step fresh w ∧ owed w = 0%nat ∧
  appliedRevision (row w) < desiredRevision (row w) ∧ job w = NoJob ∧ ¬ pursued w ∧ ¬ refused w.
Proof.
  set (w1 := start 0 10 (enqueue_add (enqueue_bump 10 (edit fresh)))).
  set (w2 := requeue_check [] 1 [] (finish taken 0 1 10 1 w1)).
  set (w3 := remove (enqueue_add (enqueue_bump 20 (edit w2)))).
  exists w3. split; [|split; [done|split; [done|split; [done|split; [|discriminate]]]]].
  - eapply rtc_l; [apply step_edit|]. eapply rtc_l; [apply (step_bump _ 10); cbn; lia|].
    eapply rtc_l; [apply step_add; cbn; lia|]. eapply rtc_l; [by apply (step_start _ 0 10)|]. fold w1.
    eapply rtc_l; [by apply (step_finish _ taken 0 1 10 1)|]. eapply rtc_l; [by apply (step_check _ [] 1 [])|]. fold w2.
    eapply rtc_l; [apply step_edit|]. eapply rtc_l; [apply (step_bump _ 20); cbn; lia|].
    eapply rtc_l; [apply step_add; cbn; lia|]. eapply rtc_l; [by apply step_remove|]. apply rtc_refl.
  - by vm_compute; intros [H|[H|[[m H]|[(m & r & b & a & H)|(c & H & _)]]]]; inversion H.
Qed.

(** The poll mends it: past the hour of its key, a node that answers is queued,
    and one push that it takes brings it up to date. *)
Theorem poll_mends w now now' : rtc step fresh w → owed w = 0%nat → job w = NoJob →
  n_active (row w) = true → n_answers (row w) = true → appliedRevision (row w) < desiredRevision (row w) →
  key_held now (desiredRevision (row w)) (reconciled w) = false →
  let w1 := reconcileNodeRevisions now w in
  job w1 = Waiting 0 ∧
  let w2 := finish taken 0 (desiredRevision (row w)) now' (conf w) (start 0 now' w1) in
  rtc step w w2 ∧ applied (row w2) = true ∧ holds w2 = Some (conf w2).
Proof.
  intros [Hs _]%reached H0 Hj Ha Hn Hb Hk. cbn zeta.
  assert (reconcileNodeRevisions now w = mkWorld (conf w) (owed w) (row w) (Waiting 0) (adds w) (checks w) (readds w)
    ((desiredRevision (row w), now + RECONCILE_EVERY_S) :: reconciled w) (holds w) (unack w) (dropped w)) as E.
  { unfold reconcileNodeRevisions. rewrite Ha, Hn, (proj2 (Z.ltb_lt _ _) Hb), Hk, Hj. done. }
  split; [by rewrite E|]. split; [|split].
  - eapply rtc_l; [apply (step_reconcile _ now)|]. eapply rtc_l; [apply (step_start _ 0 now'); by rewrite E|].
    apply rtc_once. apply (step_finish _ taken); [done|]. rewrite E. done.
  - rewrite E. unfold finish. cbn. unfold applied. cbn. apply Z.leb_le. lia.
  - by rewrite E.
Qed.

Theorem pushes_follow_edits_witness :
  ∃ w, rtc step fresh w ∧ applied (row w) = true ∧ holds w = Some 1.
Proof.
  set (w := finish taken 0 1 10 1 (start 0 10 (enqueue_add (enqueue_bump 10 (edit fresh))))).
  assert (rtc step fresh w) as H.
  { eapply rtc_l; [apply step_edit|]. eapply rtc_l; [apply (step_bump _ 10); cbn; lia|].
    eapply rtc_l; [apply step_add; cbn; lia|]. eapply rtc_l; [by apply (step_start _ 0 10)|].
    apply rtc_once. by apply (step_finish _ taken 0 1 10 1). }
  exists w. split; [exact H|]. split; [reflexivity|].
  exact (proj1 (pushes_follow_edits w H eq_refl) eq_refl).
Defined.

(** * The roster of users after a push *)
Module Roster.

Definition ADD_USERS_BATCH : nat := 250.
Definition ADD_USER_CHUNK : nat := 25.

Section roster.
Context {A : Type}.

(** [transport.addUsers] of the k-th batch: a result for each entry the agent
    answered for, the 404 of an agent without it, or another error. *)
Inductive Answer := Results (oks : list bool) | NotFound | Refused.
Context (addUsers : nat → list A → Answer) (addUser : A → bool).

Inductive Call := Batch (users : list A) (a : Answer) | One (user : A) (ok : bool).

Definition count_false (oks : list bool) : nat := length (List.filter negb oks).

(** The loop of batches: the calls made, the users that did not land, and the
    requests left when the agent has no [/addUsers]. *)
Fixpoint batches (fuel k : nat) (requests : list A) : list Call * nat * list A :=
  match fuel, requests with
  | 0%nat, _ | _, [] => ([], 0%nat, requests)
  | S fuel, _ =>
      let batch := take ADD_USERS_BATCH requests in
      let a := addUsers k batch in
      let go failed :=
        let '(calls, f, rest) := batches fuel (S k) (drop ADD_USERS_BATCH requests) in
        (Batch batch a :: calls, (failed + f)%nat, rest) in
      match a with
      | NotFound => ([Batch batch a], 0%nat, requests)
      | Refused => go (length batch)
      | Results oks => go (count_false oks + (length batch - length oks))%nat
      end
  end.

(** The loop of chunks. *)
Fixpoint one_by_one (fuel : nat) (requests : list A) : list Call * nat :=
  match fuel, requests with
  | 0%nat, _ | _, [] => ([], 0%nat)
  | S fuel, _ =>
      let chunk := take ADD_USER_CHUNK requests in
      let '(calls, f) := one_by_one fuel (drop ADD_USER_CHUNK requests) in
      (map (λ u, One u (addUser u)) chunk ++ calls, (count_false (map addUser chunk) + f)%nat)
  end.

Definition sendRoster (requests : list A) : list Call * nat :=
  let '(calls, failed, rest) := batches (length requests) 0 requests in
  match rest with
  | [] => (calls, failed)
  | _ => let '(more, f) := one_by_one (length rest) rest in (calls ++ more, (failed + f)%nat)
  end.

(** The users of a call the agent has a handler for, and those it landed. *)
Definition served (c : Call) : list A :=
  match c with Batch _ NotFound => [] | Batch us _ => us | One u _ => [u] end.
Definition landed (c : Call) : nat :=
  match c with
  | Batch us (Results oks) => length (List.filter (λ b : bool, b) oks)
  | One _ true => 1
  | _ => 0
  end.
Definition landed_all (cs : list Call) : nat := sum_list_with landed cs.

Lemma count_split oks : (count_false oks + length (List.filter (λ b : bool, b) oks) = length oks)%nat.
Proof. unfold count_false. induction oks as [|[] oks IH]; cbn in *; lia. Qed.

Lemma ones_landed us : landed_all (map (λ u, One u (addUser u)) us) = length (List.filter (λ b : bool, b) (map addUser us)).
Proof. induction us as [|u us IH]; [done|]. cbn. unfold landed_all in IH. destruct (addUser u); cbn; lia. Qed.

Lemma ones_served us : mbind served (map (λ u, One u (addUser u)) us) = us.
Proof. induction us as [|u us IH]; [done|]. cbn. by f_equal. Qed.

Lemma landed_app cs ds : landed_all (cs ++ ds) = (landed_all cs + landed_all ds)%nat.
Proof. unfold landed_all. induction cs; cbn in *; lia. Qed.

(** A chunk goes out and shortens what is left, so the length is fuel enough. *)
Lemma drop_shorter n (u : A) us fuel : (0 < n → length (u :: us) ≤ S fuel → length (drop n (u :: us)) ≤ fuel)%nat.
Proof. rewrite length_drop. cbn. lia. Qed.

Lemma one_by_one_ok fuel requests : (length requests ≤ fuel)%nat →
  let '(calls, f) := one_by_one fuel requests in
  mbind served calls = requests ∧ (f + landed_all calls = length requests)%nat.
Proof.
  revert requests. induction fuel as [|fuel IH]; intros [|u us] Hl; try (by split); [cbn in Hl; lia|].
  cbn [one_by_one]. specialize (IH (drop ADD_USER_CHUNK (u :: us)) (drop_shorter ADD_USER_CHUNK u us fuel ltac:(unfold ADD_USER_CHUNK; lia) Hl)).
  set (l := u :: us) in *. clearbody l. destruct (one_by_one fuel (drop ADD_USER_CHUNK l)) as [calls f]. destruct IH as [H1 H2]. split.
  - rewrite bind_app, ones_served, H1. apply take_drop.
  - rewrite landed_app, ones_landed. pose proof (count_split (map addUser (take ADD_USER_CHUNK l))) as H.
    rewrite length_map in H. pose proof (f_equal length (take_drop ADD_USER_CHUNK l)) as Hlen. rewrite length_app in Hlen. lia.
Qed.

(** What the agent answers to a batch: at most one result an entry. *)
Definition answers_fit : Prop := ∀ k us oks, addUsers k us = Results oks → (length oks ≤ length us)%nat.

Lemma batches_ok fuel k requests : answers_fit → (length requests ≤ fuel)%nat →
  let '(calls, f, rest) := batches fuel k requests in
  mbind served calls ++ rest = requests ∧ (f + landed_all calls + length rest = length requests)%nat.
Proof.
  intros Hfit. revert k requests. induction fuel as [|fuel IH]; intros k [|u us] Hl; try (by split).
  cbn [batches]. specialize (IH (S k) (drop ADD_USERS_BATCH (u :: us)) (drop_shorter ADD_USERS_BATCH u us fuel ltac:(unfold ADD_USERS_BATCH; lia) Hl)).
  set (l := u :: us) in *. clearbody l. destruct (batches fuel (S k) (drop ADD_USERS_BATCH l)) as [[calls f] rest]. destruct IH as [H1 H2].
  pose proof (f_equal length (take_drop ADD_USERS_BATCH l)) as Hlen. rewrite length_app in Hlen.
  destruct (addUsers k (take ADD_USERS_BATCH l)) as [oks| |] eqn:Ea; [|by split|].
  - split; [cbn; rewrite <- app_assoc, H1; apply take_drop|]. pose proof (count_split oks) as Hc. specialize (Hfit _ _ _ Ea).
    unfold landed_all in *. cbn [sum_list_with landed]. lia.
  - split; [cbn; rewrite <- app_assoc, H1; apply take_drop|]. unfold landed_all in *. cbn [sum_list_with landed]. lia.
Qed.

(** Every user of the roster is sent once, in order, whether the agent knows
    [/addUsers] or not, and stops knowing it midway; the answer counts exactly
    those that did not land. *)
Theorem roster_sent requests : answers_fit →
  mbind served (sendRoster requests).1 = requests ∧
  ((sendRoster requests).2 + landed_all (sendRoster requests).1 = length requests)%nat.
Proof.
  intros Hfit. unfold sendRoster. pose proof (batches_ok (length requests) 0 requests Hfit ltac:(lia)) as H.
  destruct (batches _ _ _) as [[calls f] rest]. destruct H as [H1 H2]. destruct rest as [|u us].
  - rewrite app_nil_r in H1. split; [done|]. cbn [fst snd length] in *. lia.
  - pose proof (one_by_one_ok (length (u :: us)) (u :: us) ltac:(lia)) as Ho. destruct (one_by_one _ _) as [more f'].
    destruct Ho as [H3 H4]. cbn [fst snd]. split; [by rewrite bind_app, H3|]. rewrite landed_app. lia.
Qed.
End roster.

Example old_agent : sendRoster (λ _ _, NotFound) (λ u, negb (u =? 2)%nat) [1; 2; 3]%nat =
  ([Batch [1; 2; 3]%nat NotFound; One 1%nat true; One 2%nat false; One 3%nat true], 1%nat).
Proof. reflexivity. Qed.

End Roster.
