(* ===== verification/Hwid.v ===== *)
(** Device limits (apps/panel-backend/src/modules/hwid/hwid.service.ts).

    A subscription request with an [x-hwid] header is a small program over the
    table [hwid_user_devices]; several run at once.  Its database calls are
    the steps of [advance], in the order the code makes them, and a system
    state holds the table, the advisory locks and each request's place.  A run
    is any list of events: a request arrives, one in flight takes its next
    step, one is cut off (a lost connection, a transaction timeout), an admin
    deletes a device.  The table's constraints are the unique (userId, hwid)
    and the primary key; [hashtext], Postgres's 32-bit hash, is a parameter. *)

From S2P Require Import Prelude Js.

Local Open Scope string_scope.
Local Open Scope list_scope.
Local Open Scope Z_scope.

(** ** The policy *)
Definition effectiveDeviceCeiling (limit : option Z) (systemMax : Z) : Z :=
  match limit with None => systemMax | Some l => Z.min l systemMax end.

Definition resolveSquadHwidLimit (squadDefaults : list (option Z)) : option Z :=
  let vals := filter (λ n, 0 < n) (omap id squadDefaults) in
  match vals with [] => None | v :: vs => Some (foldl Z.max v vs) end.

Definition effectiveHwidLimit (userLimit : option Z) (squadDefaults : list (option Z)) : option Z :=
  match userLimit with
  | Some l => if l =? 0 then None else Some l
  | None => resolveSquadHwidLimit squadDefaults
  end.

(** ** The table and the requests *)
Inductive hwid_status := disabled | allowed | denied.

Record HwidCheckResult := HwidResult {
  status : hwid_status; active : Z; limit : option Z }.

Record HwidUserDevice := Device {
  dev_id : Z; dev_userId : string; dev_hwid : string; dev_lastSeenAt : Z }.

Definition dev_key (d : HwidUserDevice) : string * string := (dev_userId d, dev_hwid d).

(** The arguments of one call of [enforceHwid]. *)
Record request := Request {
  rq_userId : string; rq_hwid : option string; rq_limit : option Z }.

(** Where a call stands: what it has read and not yet used. *)
Inductive hwid_pc :=
  | Begin
  | Existing (id : Z)          (* findUnique found the row *)
  | Touched                    (* lastSeenAt is written *)
  | NotFound (hwid : string)   (* findUnique found none *)
  | Locked (hwid : string)     (* in the transaction, the lock held *)
  | Counted (hwid : string) (current : Z)
  | Returned (r : HwidCheckResult)
  | Failed.                    (* rejected: a Prisma error *)

Record system := System {
  rows : list HwidUserDevice;
  locks : gmap Z nat;          (* advisory lock key -> the request that holds it *)
  calls : list (request * hwid_pc) }.

Definition count_devices (userId : string) (t : list HwidUserDevice) : Z :=
  Z.of_nat (length (filter (λ d, dev_userId d = userId) t)).

Definition find_device (userId hwid : string) (t : list HwidUserDevice) : option HwidUserDevice :=
  js_find (λ d, bool_decide (dev_key d = (userId, hwid))) t.

Definition touch (id now : Z) (d : HwidUserDevice) : HwidUserDevice :=
  if decide (dev_id d = id) then Device (dev_id d) (dev_userId d) (dev_hwid d) now else d.

(** A generated primary key is one no row has. *)
Definition fresh_id (t : list HwidUserDevice) : Z := foldr Z.max 0 (dev_id <$> t) + 1.

Section Enforce.
Context (hashtext : string → Z) (HWID_MAX_DEVICES_PER_USER : Z).

(** The next database call of call [i].  A call that waits for the lock, or
    has returned, does not move. *)
Definition advance (i : nat) (now : Z) (s : system) (rq : request) (pc : hwid_pc) : system * hwid_pc :=
  let u := rq_userId rq in
  let key := hashtext u in
  let unlock := delete key (locks s) in
  match pc with
  | Begin =>
      match rq_hwid rq with
      | None | Some "" => (s, Returned (HwidResult disabled 0 (rq_limit rq)))
      | Some hwid =>
          match find_device u hwid (rows s) with
          | Some d => (s, Existing (dev_id d))
          | None => (s, NotFound hwid)
          end
      end
  | Existing id =>
      if bool_decide (id ∈ dev_id <$> rows s) then
        (System (touch id now <$> rows s) (locks s) (calls s),
         match rq_limit rq with
         | None => Returned (HwidResult allowed 0 None)
         | Some _ => Touched
         end)
      else (s, Failed)
  | Touched => (s, Returned (HwidResult allowed (count_devices u (rows s)) (rq_limit rq)))
  | NotFound hwid =>
      match locks s !! key with
      | Some _ => (s, NotFound hwid)
      | None => (System (rows s) (<[key := i]> (locks s)) (calls s), Locked hwid)
      end
  | Locked hwid => (s, Counted hwid (count_devices u (rows s)))
  | Counted hwid current =>
      if effectiveDeviceCeiling (rq_limit rq) HWID_MAX_DEVICES_PER_USER <=? current then
        (System (rows s) unlock (calls s),
         Returned match rq_limit rq with
                  | None => HwidResult allowed 0 None
                  | Some l => HwidResult denied current (Some l)
                  end)
      else if bool_decide ((u, hwid) ∈ dev_key <$> rows s) then
        (System (rows s) unlock (calls s), Failed)
      else
        (System (rows s ++ [Device (fresh_id (rows s)) u hwid now]) unlock (calls s),
         Returned (HwidResult allowed
           match rq_limit rq with None => 0 | Some _ => current + 1 end (rq_limit rq)))
  | Returned _ | Failed => (s, pc)
  end.

Inductive event :=
  | Arrive (rq : request)
  | Go (i : nat) (now : Z)
  | Cut (i : nat)              (* the transaction, if one is open, is rolled back *)
  | DeleteDevice (id : Z).

Definition deleteDevice (id : Z) (t : list HwidUserDevice) : list HwidUserDevice :=
  filter (λ d, dev_id d ≠ id) t.

Definition in_transaction (pc : hwid_pc) : bool :=
  match pc with Locked _ | Counted _ _ => true | _ => false end.

Definition set_pc (i : nat) (rq : request) (pc : hwid_pc) (s : system) : system :=
  System (rows s) (locks s) (<[i := (rq, pc)]> (calls s)).

Definition is_done (pc : hwid_pc) : bool :=
  match pc with Returned _ | Failed => true | _ => false end.

Definition hwid_step (s : system) (e : event) : system :=
  match e with
  | Arrive rq => System (rows s) (locks s) (calls s ++ [(rq, Begin)])
  | Go i now =>
      match calls s !! i with
      | Some (rq, pc) => let '(s', pc') := advance i now s rq pc in set_pc i rq pc' s'
      | None => s
      end
  | Cut i =>
      match calls s !! i with
      | Some (rq, pc) =>
          if is_done pc then s else
          set_pc i rq Failed
            (if in_transaction pc
             then System (rows s) (delete (hashtext (rq_userId rq)) (locks s)) (calls s) else s)
      | None => s
      end
  | DeleteDevice id => System (deleteDevice id (rows s)) (locks s) (calls s)
  end.

Definition hwid_run (s : system) (es : list event) : system := foldl hwid_step s es.

(** One call with the database to itself. *)
Definition enforceHwid (rq : request) (now : Z) (t : list HwidUserDevice) : system :=
  hwid_run (System t ∅ []) (Arrive rq :: replicate 4 (Go 0 now)).

Definition listUserDevices (userId : string) (t : list HwidUserDevice) : list HwidUserDevice :=
  sort_by (λ a b, dev_lastSeenAt b <=? dev_lastSeenAt a) (filter (λ d, dev_userId d = userId) t).

(** ** The invariant *)

(** The table's constraints. *)
Definition devices_wf (t : list HwidUserDevice) : Prop :=
  NoDup (dev_id <$> t) ∧ NoDup (dev_key <$> t).

(** Who is in a transaction holds its user's lock, and what it counted is
    still an upper bound: rows of the user can go meanwhile, none can come. *)
Definition call_ok (s : system) (i : nat) (c : request * hwid_pc) : Prop :=
  let u := rq_userId c.1 in
  match c.2 with
  | Locked _ => locks s !! hashtext u = Some i
  | Counted _ current => locks s !! hashtext u = Some i ∧ count_devices u (rows s) ≤ current
  | _ => True
  end.

Definition bounded (u : string) (N : Z) (s : system) : Prop :=
  devices_wf (rows s) ∧ count_devices u (rows s) ≤ N ∧
  (∀ i c, calls s !! i = Some c → call_ok s i c) ∧
  (∀ i c, calls s !! i = Some c → rq_userId c.1 = u →
    effectiveDeviceCeiling (rq_limit c.1) HWID_MAX_DEVICES_PER_USER ≤ N).

Lemma count_devices_app u t1 t2 :
  count_devices u (t1 ++ t2) = count_devices u t1 + count_devices u t2.
Proof. unfold count_devices. rewrite filter_app, length_app. lia. Qed.

Lemma count_devices_one u d :
  count_devices u [d] = if decide (dev_userId d = u) then 1 else 0.
Proof. unfold count_devices. rewrite filter_cons, filter_nil. by case_decide. Qed.

Lemma count_devices_filter u (P : HwidUserDevice → Prop) `{∀ d, Decision (P d)} t :
  count_devices u (filter P t) ≤ count_devices u t.
Proof.
  unfold count_devices. induction t as [|d t IH]; [done|].
  rewrite !filter_cons. repeat (case_decide || rewrite filter_cons || simpl); try lia; try tauto.
Qed.

Lemma count_deleteDevice u id t : count_devices u (deleteDevice id t) ≤ count_devices u t.
Proof. apply count_devices_filter. Qed.

Lemma touch_user id now d : dev_userId (touch id now d) = dev_userId d.
Proof. unfold touch. by case_decide. Qed.
Lemma touch_key id now d : dev_key (touch id now d) = dev_key d.
Proof. unfold touch. by case_decide. Qed.
Lemma touch_id id now d : dev_id (touch id now d) = dev_id d.
Proof. unfold touch. by case_decide. Qed.

Lemma count_devices_touch u id now (t : list HwidUserDevice) : count_devices u (touch id now <$> t) = count_devices u t.
Proof.
  unfold count_devices. induction t as [|d t IH]; [done|].
  rewrite fmap_cons, !filter_cons, touch_user. case_decide; simpl; lia.
Qed.

Lemma touch_keys id now (t : list HwidUserDevice) : dev_key <$> (touch id now <$> t) = dev_key <$> t.
Proof. rewrite <-list_fmap_compose. apply list_fmap_ext. intros. apply touch_key. Qed.
Lemma touch_ids id now (t : list HwidUserDevice) : dev_id <$> (touch id now <$> t) = dev_id <$> t.
Proof. rewrite <-list_fmap_compose. apply list_fmap_ext. intros. apply touch_id. Qed.

Lemma fresh_id_fresh t : fresh_id t ∉ dev_id <$> t.
Proof.
  assert (∀ l x, x ∈ l → x ≤ foldr Z.max 0 l) as Hmax.
  { induction l as [|y l IH]; intros x; [set_solver|]. simpl.
    intros [->|Hx]%elem_of_cons; [lia|]. specialize (IH x Hx). lia. }
  intros Hin%Hmax. unfold fresh_id in Hin. lia.
Qed.

Lemma devices_wf_insert t u hwid now :
  devices_wf t → (u, hwid) ∉ dev_key <$> t →
  devices_wf (t ++ [Device (fresh_id t) u hwid now]).
Proof.
  intros [Hid Hk] Hni. unfold devices_wf. rewrite !fmap_app. simpl.
  split; apply NoDup_app; (split; [done|]); (split; [|apply NoDup_singleton]).
  - intros x Hx ->%list_elem_of_singleton. by apply fresh_id_fresh in Hx.
  - intros x Hx ->%list_elem_of_singleton. done.
Qed.

Lemma devices_wf_filter (P : HwidUserDevice → Prop) `{∀ d, Decision (P d)} t :
  devices_wf t → devices_wf (filter P t).
Proof. intros [? ?]. split; by apply NoDup_fmap_filter. Qed.

Lemma devices_wf_touch id now (t : list HwidUserDevice) : devices_wf t → devices_wf (touch id now <$> t).
Proof. unfold devices_wf. by rewrite touch_ids, touch_keys. Qed.

(** What another call's transaction relies on survives a step of call [i]
    that leaves foreign locks alone and only grows the tables of users whose
    lock it holds. *)
Definition keeps (i : nat) (s s' : system) : Prop :=
  (∀ k j, j ≠ i → locks s !! k = Some j → locks s' !! k = Some j) ∧
  (∀ u j, j ≠ i → locks s !! hashtext u = Some j →
    count_devices u (rows s') ≤ count_devices u (rows s)).

Lemma call_ok_keeps i j s s' c : keeps i s s' → j ≠ i → call_ok s j c → call_ok s' j c.
Proof.
  intros [Hl Hc] Hne. destruct c as [rq []]; simpl; try done.
  - intros. by apply Hl.
  - intros [??]. split; [by apply Hl|]. etrans; [by eapply Hc|done].
Qed.

Lemma advance_ok i now s rq pc s' pc' u N :
  advance i now s rq pc = (s', pc') →
  devices_wf (rows s) → count_devices u (rows s) ≤ N →
  call_ok s i (rq, pc) →
  (rq_userId rq = u → effectiveDeviceCeiling (rq_limit rq) HWID_MAX_DEVICES_PER_USER ≤ N) →
  devices_wf (rows s') ∧ count_devices u (rows s') ≤ N ∧ call_ok s' i (rq, pc') ∧ keeps i s s'.
Proof.
  intros Hadv Hwf Hu Hok HN.
  assert (Hid : keeps i s s) by (split; [done|intros; lia]).
  destruct pc as [|id| |hwid|hwid|hwid current|r|]; simpl in Hadv, Hok.
  - by repeat case_match; simplify_eq.
  - case_bool_decide; [|by simplify_eq]. injection Hadv as <- <-. simpl.
    rewrite count_devices_touch. split; [by apply devices_wf_touch|]. split; [done|].
    split; [by repeat case_match|]. split; simpl; [done|].
    intros. by rewrite count_devices_touch.
  - by simplify_eq.
  - destruct (locks s !! hashtext (rq_userId rq)) eqn:El; [by simplify_eq|].
    injection Hadv as <- <-. simpl. split_and!; try done; [unfold call_ok; simpl; by rewrite lookup_insert_eq|].
    split; simpl; [|intros; lia]. intros k j Hne Hk. rewrite lookup_insert_ne; [done|]. congruence.
  - injection Hadv as <- <-. simpl. split_and!; try done; lia.
  - destruct Hok as [Hlock Hcur]; simpl in Hlock, Hcur.
    assert (Hdel : ∀ t k j, j ≠ i → locks s !! k = Some j →
      locks (System t (delete (hashtext (rq_userId rq)) (locks s)) (calls s)) !! k = Some j).
    { intros t k j Hne Hk. simpl. rewrite lookup_delete_ne; [done|]. congruence. }
    destruct (Z.leb_spec (effectiveDeviceCeiling (rq_limit rq) HWID_MAX_DEVICES_PER_USER) current).
    { injection Hadv as <- <-. split_and!; try done. split; [by apply Hdel|]. simpl. intros; lia. }
    case_bool_decide as Hin.
    { injection Hadv as <- <-. split_and!; try done. split; [by apply Hdel|]. simpl. intros; lia. }
    injection Hadv as <- <-. simpl. split_and!; try done.
    + by apply devices_wf_insert.
    + rewrite count_devices_app, count_devices_one. simpl. case_decide; [|lia].
      subst. specialize (HN eq_refl). lia.
    + split; [by apply Hdel|]. simpl. intros v j Hne Hj.
      rewrite count_devices_app, count_devices_one. simpl. rewrite decide_False; [lia|].
      intros <-. congruence.
  - by simplify_eq.
  - by simplify_eq.
Qed.

Lemma lookup_set_pc i j rq pc s c :
  calls (set_pc i rq pc s) !! j = Some c → (j = i ∧ c = (rq, pc)) ∨ (j ≠ i ∧ calls s !! j = Some c).
Proof.
  simpl. intros H. apply list_lookup_insert_Some in H. naive_solver.
Qed.

Lemma advance_calls i now s rq pc : calls (advance i now s rq pc).1 = calls s.
Proof. destruct pc; simpl; repeat (case_match || simpl); done. Qed.

(** Writing back a call that is still well placed. *)
Lemma bounded_set_pc u N i rq pc s s' pc' :
  bounded u N s → calls s !! i = Some (rq, pc) → calls s' = calls s →
  devices_wf (rows s') → count_devices u (rows s') ≤ N →
  call_ok s' i (rq, pc') → keeps i s s' → bounded u N (set_pc i rq pc' s').
Proof.
  intros (_ & _ & Hcalls & Hlim) Hi Ec Hwf Hu Hok Hk. split_and!; [done|done| |].
  - intros j c [[-> ->]|[Hne Hj]]%lookup_set_pc; [by destruct pc'|]. rewrite Ec in Hj.
    pose proof (call_ok_keeps i j s s' c Hk Hne (Hcalls _ _ Hj)). by destruct c as [? []].
  - intros j c [[-> ->]|[Hne Hj]]%lookup_set_pc; [by apply (Hlim _ _ Hi)|].
    rewrite Ec in Hj. by apply (Hlim _ _ Hj).
Qed.

Lemma bounded_step u N s e :
  (match e with
   | Arrive rq => rq_userId rq = u → effectiveDeviceCeiling (rq_limit rq) HWID_MAX_DEVICES_PER_USER ≤ N
   | _ => True end) →
  bounded u N s → bounded u N (hwid_step s e).
Proof.
  intros He Hb. pose proof Hb as (Hwf & Hu & Hcalls & Hlim). destruct e as [rq|i now|i|id]; simpl.
  - split_and!; try done; simpl; intros i c [Hi|[_ [_ <-]%list_lookup_singleton_Some]]%lookup_app_Some;
      try done; [|by apply (Hlim _ _ Hi)].
    apply Hcalls in Hi. by destruct c as [? []].
  - destruct (calls s !! i) as [[rq pc]|] eqn:Hi; [|done].
    pose proof (advance_calls i now s rq pc) as Hc.
    destruct (advance i now s rq pc) as [s' pc'] eqn:Hadv.
    destruct (advance_ok _ _ _ _ _ _ _ u N Hadv Hwf Hu (Hcalls _ _ Hi) (Hlim _ _ Hi)) as (?&?&?&?).
    by eapply bounded_set_pc.
  - destruct (calls s !! i) as [[rq pc]|] eqn:Hi; [|done]. destruct (is_done pc); [done|].
    eapply bounded_set_pc; try done; [by destruct (in_transaction pc)|by destruct (in_transaction pc)
      |by destruct (in_transaction pc)|].
    specialize (Hcalls _ _ Hi). split; [|intros; by destruct (in_transaction pc)].
    intros k j Hne Hk. unfold call_ok in Hcalls. destruct pc; simpl in *; try done; (rewrite lookup_delete_ne; [done|destruct_and?; congruence]).
  - split_and!; try done; simpl.
    + by apply devices_wf_filter.
    + etrans; [apply count_deleteDevice|done].
    + intros i c Hi%Hcalls. destruct c as [rq []]; try done. simpl in *. destruct Hi as [??]. split; [done|].
      etrans; [apply count_deleteDevice|done].
Qed.

Lemma bounded_run u N s es :
  Forall (λ e, match e with
   | Arrive rq => rq_userId rq = u → effectiveDeviceCeiling (rq_limit rq) HWID_MAX_DEVICES_PER_USER ≤ N
   | _ => True end) es →
  bounded u N s → bounded u N (hwid_run s es).
Proof.
  intros Hes. revert s. induction Hes as [|e es He _ IH]; intros s Hb; [done|].
  apply IH. by apply bounded_step.
Qed.

Lemma bounded_init u N t :
  devices_wf t → count_devices u t ≤ N → bounded u N (System t ∅ []).
Proof. intros ??. by split_and!. Qed.

(** C38. However many requests run at once, whatever order their steps take,
    whichever are cut off and whatever an admin deletes meanwhile: no device
    is registered twice, and a user never has more devices than [N] when
    every request of that user carries a ceiling of at most [N] (with
    [N = HWID_MAX_DEVICES_PER_USER] that asks nothing of the requests). *)
Theorem hwid_devices_bounded u N t es :
  devices_wf t → count_devices u t ≤ N →
  Forall (λ e, match e with
   | Arrive rq => rq_userId rq = u → effectiveDeviceCeiling (rq_limit rq) HWID_MAX_DEVICES_PER_USER ≤ N
   | _ => True end) es →
  devices_wf (rows (hwid_run (System t ∅ []) es)) ∧
  count_devices u (rows (hwid_run (System t ∅ []) es)) ≤ N.
Proof.
  intros Ht Hu Hes. destruct (bounded_run u N _ es Hes (bounded_init u N t Ht Hu)) as (?&?&_). done.
Qed.

(** ** A call by itself *)
Definition recorded (rq : request) (t : list HwidUserDevice) : option HwidUserDevice :=
  find_device (rq_userId rq) (default "" (rq_hwid rq)) t.

(** What a call that meets no other does, in one step. *)
Definition hwid_outcome (rq : request) (now : Z) (t : list HwidUserDevice) :
    list HwidUserDevice * HwidCheckResult :=
  let u := rq_userId rq in
  let n := count_devices u t in
  if negb (truthy (rq_hwid rq)) then (t, HwidResult disabled 0 (rq_limit rq)) else
  match recorded rq t with
  | Some d => (touch (dev_id d) now <$> t,
      HwidResult allowed match rq_limit rq with None => 0 | Some _ => n end (rq_limit rq))
  | None =>
      if effectiveDeviceCeiling (rq_limit rq) HWID_MAX_DEVICES_PER_USER <=? n then
        (t, match rq_limit rq with
            | None => HwidResult allowed 0 None
            | Some l => HwidResult denied n (Some l) end)
      else (t ++ [Device (fresh_id t) u (default "" (rq_hwid rq)) now],
            HwidResult allowed match rq_limit rq with None => 0 | Some _ => n + 1 end (rq_limit rq))
  end.

Lemma find_device_Some u h t d : find_device u h t = Some d → d ∈ t ∧ dev_key d = (u, h).
Proof. intros [? ?%bool_decide_eq_true]%js_find_Some. done. Qed.

Lemma find_device_None u h t : find_device u h t = None ↔ (u, h) ∉ dev_key <$> t.
Proof.
  unfold find_device. rewrite js_find_None. setoid_rewrite bool_decide_eq_false.
  rewrite list_elem_of_fmap. naive_solver.
Qed.

Lemma delete_insert_empty k i : delete k (<[k:=i]> (∅ : gmap Z nat)) = ∅.
Proof. by rewrite delete_insert_eq, delete_empty. Qed.

Lemma enforceHwid_outcome rq now t :
  enforceHwid rq now t =
  System (hwid_outcome rq now t).1 ∅ [(rq, Returned (hwid_outcome rq now t).2)].
Proof.
  unfold enforceHwid, hwid_outcome, recorded.
  change (hwid_run _ (Arrive rq :: ?es)) with (hwid_run (System t ∅ [(rq, Begin)]) es).
  change (replicate 4 ?e) with (e :: e :: e :: replicate 1 e).
  destruct rq as [u oh lim]. simpl rq_hwid. simpl rq_userId. simpl rq_limit.
  destruct oh as [[|c h]|]; [done| |done].
  simpl truthy. simpl negb. cbv iota. simpl default. unfold hwid_run. simpl foldl.
  destruct (find_device u (String c h) t) as [d|] eqn:Ed; simpl.
  - apply find_device_Some in Ed as [Hd _].
    rewrite bool_decide_true by (by apply (list_elem_of_fmap_2 dev_id)).
    destruct lim; simpl; [|done]. by rewrite count_devices_touch.
  - rewrite lookup_empty. simpl. apply find_device_None in Ed.
    destruct (_ <=? _); simpl; rewrite ?delete_insert_empty; [done|].
    by rewrite bool_decide_false by done.
Qed.

(** The table a lone call leaves and the answer it gives. *)
Definition table_after (rq : request) (now : Z) (t : list HwidUserDevice) : list HwidUserDevice :=
  rows (enforceHwid rq now t).
Definition answer (rq : request) (now : Z) (t : list HwidUserDevice) : option HwidCheckResult :=
  match calls (enforceHwid rq now t) with [(_, Returned r)] => Some r | _ => None end.

Lemma after_outcome rq now t : table_after rq now t = (hwid_outcome rq now t).1.
Proof. unfold table_after. by rewrite enforceHwid_outcome. Qed.
Lemma answer_outcome rq now t : answer rq now t = Some (hwid_outcome rq now t).2.
Proof. unfold answer. by rewrite enforceHwid_outcome. Qed.

Lemma elem_of_keys_snoc k (t : list HwidUserDevice) d :
  k ∈ dev_key <$> (t ++ [d]) ↔ k ∈ dev_key <$> t ∨ k = dev_key d.
Proof. rewrite fmap_app, elem_of_app. set_solver. Qed.

Lemma outcome_known u h lim now t :
  h ≠ "" → (u, h) ∈ dev_key <$> t →
  ∃ d n, hwid_outcome (Request u (Some h) lim) now t =
         (touch (dev_id d) now <$> t, HwidResult allowed n lim).
Proof.
  intros Hh Hin. unfold hwid_outcome, recorded. simpl.
  rewrite bool_decide_true by done. simpl.
  destruct (find_device u h t) as [d|] eqn:E; [by eauto|]. by apply find_device_None in E.
Qed.

Lemma outcome_unknown u h lim now t :
  h ≠ "" → (u, h) ∉ dev_key <$> t →
  hwid_outcome (Request u (Some h) lim) now t =
  if effectiveDeviceCeiling lim HWID_MAX_DEVICES_PER_USER <=? count_devices u t
  then (t, match lim with
           | None => HwidResult allowed 0 None
           | Some l => HwidResult denied (count_devices u t) (Some l) end)
  else (t ++ [Device (fresh_id t) u h now],
        HwidResult allowed match lim with None => 0 | Some _ => count_devices u t + 1 end lim).
Proof.
  intros Hh Hni%find_device_None. unfold hwid_outcome, recorded. simpl.
  rewrite bool_decide_true by done. simpl. by rewrite Hni.
Qed.

(** A call with a header, by itself, returns. It denies exactly a new
    device of a user with a limit whose devices have reached the ceiling; it
    registers exactly a new device below the ceiling; no other device comes
    or goes. Asking again gives the same verdict and registers nothing. *)
Theorem enforceHwid_verdict u h lim now now' t :
  h ≠ "" →
  let rq := Request u (Some h) lim in
  let full := effectiveDeviceCeiling lim HWID_MAX_DEVICES_PER_USER ≤ count_devices u t in
  let t' := table_after rq now t in
  ∃ r, answer rq now t = Some r ∧
    (status r = denied ↔ (u, h) ∉ dev_key <$> t ∧ full ∧ lim ≠ None) ∧ status r ≠ disabled ∧
    (∀ k, k ∈ dev_key <$> t' ↔ k ∈ dev_key <$> t ∨ (k = (u, h) ∧ ¬ full)) ∧
    status <$> answer rq now' t' = Some (status r) ∧
    dev_key <$> table_after rq now' t' = dev_key <$> t'.
Proof.
  intros Hh rq full t'. unfold t'. rewrite answer_outcome. eexists. split; [done|].
  rewrite !after_outcome, answer_outcome. subst rq full t'.
  set (rq := Request u (Some h) lim).
  destruct (decide ((u, h) ∈ dev_key <$> t)) as [Hin|Hni].
  - destruct (outcome_known u h lim now t Hh Hin) as (d & n & E). fold rq in E. rewrite E. simpl.
    destruct (outcome_known u h lim now' (touch (dev_id d) now <$> t)) as (d' & n' & E');
      [done|by rewrite touch_keys|]. fold rq in E'. rewrite E'. simpl. rewrite !touch_keys.
    split_and!; naive_solver.
  - pose proof (outcome_unknown u h lim now t Hh Hni) as E. fold rq in E. rewrite E.
    destruct (Z.leb_spec (effectiveDeviceCeiling lim HWID_MAX_DEVICES_PER_USER) (count_devices u t)) as [Hf|Hf].
    + simpl. pose proof (outcome_unknown u h lim now' t Hh Hni) as E'. fold rq in E'. rewrite E'.
      rewrite (proj2 (Z.leb_le _ _)) by done. destruct lim; simpl; split_and!; naive_solver.
    + simpl. destruct (outcome_known u h lim now' (t ++ [Device (fresh_id t) u h now])) as (d & n & E');
        [done|rewrite elem_of_keys_snoc; by right|]. fold rq in E'. rewrite E'. simpl. rewrite touch_keys.
      setoid_rewrite elem_of_keys_snoc. unfold dev_key at 3. simpl.
      split_and!; try done; [naive_solver lia|]. intros k. split; [|naive_solver].
      intros [?|?]; [by left|right]. split; [done|lia].
Qed.

Lemma hwid_run_go i now es s rq pc s' pc' :
  calls s !! i = Some (rq, pc) → advance i now s rq pc = (s', pc') →
  hwid_run s (Go i now :: es) = hwid_run (set_pc i rq pc' s') es.
Proof. intros H1 H2. unfold hwid_run. simpl. by rewrite H1, H2. Qed.

(** Two requests of one new device of a user with a limit of one: both
    look before either registers, the first registers the device, and the
    second, which finds the table full of its own device, is denied. *)
Theorem same_device_denied u h now :
  h ≠ "" → 1 ≤ HWID_MAX_DEVICES_PER_USER →
  let rq := Request u (Some h) (Some 1) in
  let s := hwid_run (System [] ∅ [])
             ([Arrive rq; Arrive rq; Go 0 now; Go 1 now] ++ replicate 3 (Go 0 now) ++
              replicate 3 (Go 1 now)) in
  (u, h) ∈ dev_key <$> rows s ∧
  (calls s).*2 = [Returned (HwidResult allowed 1 (Some 1)); Returned (HwidResult denied 1 (Some 1))].
Proof.
  intros Hh Hmax rq s. subst s. set (es := _ ++ _). destruct h as [|c h]; [done|].
  assert (Hn0 : count_devices u [] = 0) by done.
  assert (Hc : effectiveDeviceCeiling (Some 1) HWID_MAX_DEVICES_PER_USER = 1) by (simpl; lia).
  assert (Hr : hwid_run (System [] ∅ []) es =
    System [Device 1 u (String c h) now] ∅
      [(rq, Returned (HwidResult allowed 1 (Some 1)));
       (rq, Returned (HwidResult denied 1 (Some 1)))]).
  { change (hwid_run (System [] ∅ []) es) with (hwid_run (System [] ∅ [(rq, Begin); (rq, Begin)])
      ([Go 0 now; Go 1 now] ++ replicate 3 (Go 0 now) ++ replicate 3 (Go 1 now))).
    simpl app. do 2 (erewrite hwid_run_go by reflexivity).
    erewrite hwid_run_go; [|reflexivity|simpl; by rewrite lookup_empty].
    erewrite hwid_run_go; [|reflexivity|simpl; by rewrite Hn0].
    erewrite hwid_run_go; [|reflexivity|unfold advance; simpl rq_limit; rewrite Hc; simpl; by rewrite delete_insert_empty].
    erewrite hwid_run_go; [|reflexivity|simpl; by rewrite lookup_empty].
    erewrite hwid_run_go; [|reflexivity|simpl; rewrite count_devices_one; simpl; by rewrite decide_True].
    erewrite hwid_run_go; [|reflexivity|unfold advance; simpl rq_limit; rewrite Hc; simpl; by rewrite delete_insert_empty].
    reflexivity. }
  rewrite Hr. clear. split; [by left|done].
Qed.
End Enforce.

(** ** Witnesses *)
Example effectiveHwidLimit_1 : effectiveHwidLimit (Some 0) [Some 3] = None. Proof. reflexivity. Qed.
Example effectiveHwidLimit_2 : effectiveHwidLimit None [None; Some 2; Some 5; Some 0] = Some 5.
Proof. reflexivity. Qed.

(** A toy hash: the length of the id. *)
Definition toy_hash (s : string) : Z := Z.of_nat (String.length s).

Definition ann (h : string) : request := Request "ann" (Some h) (Some 2).

(** Three new devices of one user at once, an interrupted transaction and a
    deletion in between. *)
Definition busy : list event :=
  [Arrive (ann "a"); Arrive (ann "b"); Arrive (ann "c"); Go 0 5; Go 1 5; Go 2 5;
   Go 0 6; Go 1 6; Go 0 6; Go 0 7; Go 1 7; Go 1 7; Cut 1; Go 2 8; Go 2 8; Go 2 8; DeleteDevice 1].

Lemma hwid_devices_bounded_witness :
  rows (hwid_run toy_hash 100 (System [] ∅ []) busy) = [Device 2 "ann" "c" 8] ∧
  count_devices "ann" (rows (hwid_run toy_hash 100 (System [] ∅ []) busy)) ≤ 2.
Proof.
  split; [vm_compute; reflexivity|].
  apply (hwid_devices_bounded toy_hash 100 "ann" 2 [] busy).
  - split; constructor.
  - vm_compute. discriminate.
  - repeat constructor; vm_compute; intros; discriminate.
Defined.

Lemma enforceHwid_verdict_witness :
  "c" ≠ "" ∧ ∃ r, answer toy_hash 100 (ann "c") 9 [Device 1 "ann" "a" 1; Device 2 "ann" "b" 2] = Some r ∧
    (status r = denied ↔ ("ann", "c") ∉ [("ann", "a"); ("ann", "b")] ∧ 2 ≤ 2 ∧ Some 2 ≠ None).
Proof.
  split; [done|].
  destruct (enforceHwid_verdict toy_hash 100 "ann" "c" (Some 2) 9 10
    [Device 1 "ann" "a" 1; Device 2 "ann" "b" 2] ltac:(done)) as (r & Hr & Hd & _).
  exists r. split; [exact Hr|exact Hd].
Defined.

Lemma same_device_denied_witness :
  1 ≤ 100 ∧
  (calls (hwid_run toy_hash 100 (System [] ∅ [])
     [Arrive (Request "bob" (Some "p") (Some 1)); Arrive (Request "bob" (Some "p") (Some 1));
      Go 0 3; Go 1 3; Go 0 3; Go 0 3; Go 0 3; Go 1 3; Go 1 3; Go 1 3])).*2 =
  [Returned (HwidResult allowed 1 (Some 1)); Returned (HwidResult denied 1 (Some 1))].
Proof.
  split; [lia|].
  destruct (same_device_denied toy_hash 100 "bob" "p" 3 ltac:(done) ltac:(lia)) as [_ H]. exact H.
Defined.
