(* ===== verification/Totp.v ===== *)
(** Two-factor codes (apps/panel-backend/src/lib/auth/totp.ts): base32, HOTP
    and the verification window.

    Bytes are [Z], the accumulators of the base32 loops are JavaScript's
    int32, which wraps long before a secret ends.  The HMAC is the platform's:
    a parameter, of which only the length and range of its digest are used. *)

From S2P Require Import Prelude Js.

Local Open Scope string_scope.
Local Open Scope list_scope.
Local Open Scope Z_scope.

(** ** Base32 *)
Definition BASE32_ALPHABET : string := "ABCDEFGHIJKLMNOPQRSTUVWXYZ234567".
Definition PERIOD_SECONDS : Z := 30.
Definition DIGITS : nat := 6.

(** [out += BASE32_ALPHABET[i]]. *)
Definition base32_char (i : Z) : string :=
  match String.get (Z.to_nat i) BASE32_ALPHABET with
  | Some c => String c ""
  | None => "undefined"
  end.

(** [while (bits >= 5)]; each turn takes five bits, so [bits] turns are
    enough. *)
Fixpoint emit_chars (fuel : nat) (value bits : Z) (out : string) : Z * string :=
  match fuel with
  | O => (bits, out)
  | S fuel =>
      if 5 <=? bits then
        emit_chars fuel value (bits - 5) (out +:+ base32_char (js_and (js_ushr value (bits - 5)) 31))
      else (bits, out)
  end.

Definition encode_byte (st : Z * Z * string) (byte : Z) : Z * Z * string :=
  let '(bits, value, out) := st in
  let value := js_or (js_shl value 8) byte in
  let '(bits, out) := emit_chars (Z.to_nat (bits + 8)) value (bits + 8) out in
  (bits, value, out).

Definition base32Encode (buf : list Z) : string :=
  let '(bits, value, out) := foldl encode_byte (0, 0, "") buf in
  if 0 <? bits then out +:+ base32_char (js_and (js_shl value (5 - bits)) 31) else out.

(** [s.toUpperCase().replace(/[^A-Z2-7]/g, '')], one character: a sharp s is
    upper-cased to two letters. *)
Definition clean_char (c : ascii) : list ascii :=
  let n := Ascii.nat_of_ascii c in
  if ((65 <=? n) && (n <=? 90) || (50 <=? n) && (n <=? 55))%nat then [c]
  else if ((97 <=? n) && (n <=? 122))%nat then [Ascii.ascii_of_nat (n - 32)]
  else if (n =? 223)%nat then ["S"%char; "S"%char]
  else [].

Definition decode_char (st : Z * Z * list Z) (ch : ascii) : Z * Z * list Z :=
  let '(bits, value, out) := st in
  match index_of_char ch BASE32_ALPHABET with
  | None => st
  | Some idx =>
      let value := js_or (js_shl value 5) (Z.of_nat idx) in
      let bits := bits + 5 in
      if 8 <=? bits then (bits - 8, value, out ++ [js_and (js_ushr value (bits - 8)) 255])
      else (bits, value, out)
  end.

Definition base32Decode (s : string) : list Z :=
  let clean := concat (clean_char <$> list_ascii_of_string s) in
  (foldl decode_char (0, 0, []) clean).2.

(** ** HOTP *)
Inductive totp_error := RangeError.

(** [buf.writeBigUInt64BE(BigInt(counter))] on eight zero bytes. *)
Definition counter_bytes (counter : Z) : result totp_error (list Z) :=
  if (0 <=? counter) && (counter <? 2 ^ 64)
  then Ok ((λ i, counter / 2 ^ (8 * (7 - i)) mod 256) <$> seqZ 0 8)
  else Throw RangeError.

(** [buf[i]], [undefined] counting as 0 in a bitwise operator. *)
Definition byte_at (buf : list Z) (i : Z) : Z := default 0 (buf !! Z.to_nat i).

Section Hotp.
Context (hmac_sha1 : list Z → list Z → list Z).

Definition truncate (hmac : list Z) : Z :=
  let offset := js_and (byte_at hmac (Z.of_nat (length hmac) - 1)) 15 in
  js_or (js_or (js_or
    (js_shl (js_and (byte_at hmac offset) 127) 24)
    (js_shl (js_and (byte_at hmac (offset + 1)) 255) 16))
    (js_shl (js_and (byte_at hmac (offset + 2)) 255) 8))
    (js_and (byte_at hmac (offset + 3)) 255).

Definition hotp (key : list Z) (counter : Z) : result totp_error string :=
  buf ← counter_bytes counter;
  let hmac := hmac_sha1 key buf in
  Ok (pad_start DIGITS "0" (pretty (Z.rem (truncate hmac) (10 ^ Z.of_nat DIGITS)))).

Definition generateTotp (secretBase32 : string) (timeSec : Z) : result totp_error string :=
  hotp (base32Decode secretBase32) (timeSec / PERIOD_SECONDS).

(** [code.replace(/\s/g, '')]. *)
Definition strip_ws (code : string) : string :=
  string_of_list_ascii (filter (λ c, is_ws c = false) (list_ascii_of_string code)).

(** [/^\d{6}$/]. *)
Definition six_digits (s : string) : bool :=
  (String.length s =? 6)%nat && bool_decide (Forall (λ c, is_digit c = true) (list_ascii_of_string s)).

(** The loop over [w]; [safeEqual] compares the bytes of two strings. *)
Fixpoint try_steps (key : list Z) (normalized : string) (steps : list Z) : result totp_error (option Z) :=
  match steps with
  | [] => Ok None
  | step :: steps =>
      code ← hotp key step;
      if bool_decide (code = normalized) then Ok (Some step)
      else try_steps key normalized steps
  end.

Definition window_steps (counter window : Z) : list Z :=
  (λ w, counter + w) <$> seqZ (- window) (2 * window + 1).

Definition verifyTotpStep (secretBase32 code : string) (nowSec window : Z) :
    result totp_error (option Z) :=
  let normalized := strip_ws code in
  if negb (six_digits normalized) then Ok None else
  let key := base32Decode secretBase32 in
  let counter := nowSec / PERIOD_SECONDS in
  try_steps key normalized (window_steps counter window).

Definition verifyTotp (secretBase32 code : string) (nowSec window : Z) : result totp_error bool :=
  r ← verifyTotpStep secretBase32 code nowSec window;
  Ok (bool_decide (r ≠ None)).
End Hotp.

(** ** Bit strings

    Both base32 loops are read against the big-endian bits of what they have
    taken and given. *)
Fixpoint bits (n : nat) (v : Z) : list bool :=
  match n with
  | O => []
  | S n => Z.testbit v (Z.of_nat n) :: bits n v
  end.

Lemma bits_length n v : length (bits n v) = n.
Proof. induction n; simpl; auto. Qed.

Lemma bits_ext n v w :
  (∀ i, 0 <= i < Z.of_nat n → Z.testbit v i = Z.testbit w i) → bits n v = bits n w.
Proof.
  induction n as [|n IH]; intros H; simpl; [done|].
  f_equal; [apply H; lia|]. apply IH. intros. apply H. lia.
Qed.

Lemma bits_split a b v : bits (a + b) v = bits a (Z.shiftr v (Z.of_nat b)) ++ bits b v.
Proof.
  induction a as [|a IH]; [done|]. simpl. rewrite IH. f_equal.
  rewrite Z.shiftr_spec by lia. f_equal. lia.
Qed.

Lemma bits_inj n v w : 0 <= v < 2 ^ Z.of_nat n → 0 <= w < 2 ^ Z.of_nat n →
  bits n v = bits n w → v = w.
Proof.
  intros Hv Hw H. apply Z.bits_inj'. intros i Hi.
  destruct (decide (i < Z.of_nat n)) as [Hlt|Hge].
  - clear Hv Hw. induction n as [|n IH]; [lia|]. simpl in H. injection H as H1 H2.
    destruct (decide (i = Z.of_nat n)) as [->|]; [done|]. apply IH; [done|lia].
  - assert (∀ x, 0 <= x < 2 ^ Z.of_nat n → Z.testbit x i = false) as Hz.
    { intros x Hx. rewrite <-(Z.mod_small x (2 ^ Z.of_nat n)) by done.
      apply Z.mod_pow2_bits_high. lia. }
    by rewrite !Hz.
Qed.

Lemma js_or_testbit a b i : 0 <= i < 32 →
  Z.testbit (js_or a b) i = Z.testbit a i || Z.testbit b i.
Proof. intros. unfold js_or. by rewrite Z.lor_spec, !to_i32_testbit. Qed.

Lemma js_and_testbit a b i : 0 <= i < 32 →
  Z.testbit (js_and a b) i = Z.testbit a i && Z.testbit b i.
Proof. intros. unfold js_and. by rewrite Z.land_spec, !to_i32_testbit. Qed.

Lemma js_shl_testbit a n i : 0 <= n < 32 → 0 <= i < 32 →
  Z.testbit (js_shl a n) i = if i <? n then false else Z.testbit a (i - n).
Proof.
  intros Hn Hi. unfold js_shl. rewrite to_i32_testbit, Z.mod_small, Z.shiftl_spec by lia.
  destruct (Z.ltb_spec i n); [by apply Z.testbit_neg_r; lia|]. apply to_i32_testbit. lia.
Qed.

Lemma js_ushr_testbit a n i : 0 <= n → 0 <= i → i + n < 32 →
  Z.testbit (js_ushr a n) i = Z.testbit a (i + n).
Proof.
  intros Hn Hi Hin. unfold js_ushr. rewrite Z.mod_small by lia.
  rewrite Z.shiftr_spec by lia. apply Z.mod_pow2_bits_low. lia.
Qed.

(** [(value << k) | x]: the bits of [x] follow those kept of [value]. *)
Lemma bits_push n k v x : 0 <= x < 2 ^ Z.of_nat k → (n + k <= 31)%nat →
  bits (n + k) (js_or (js_shl v (Z.of_nat k)) x) = bits n v ++ bits k x.
Proof.
  intros Hx Hnk. rewrite bits_split. f_equal; apply bits_ext; intros i Hi.
  - rewrite Z.shiftr_spec, js_or_testbit, js_shl_testbit by lia.
    destruct (Z.ltb_spec (i + Z.of_nat k) (Z.of_nat k)); [lia|].
    rewrite <-(Z.mod_small x (2 ^ Z.of_nat k)) by done.
    rewrite Z.mod_pow2_bits_high by lia. rewrite orb_false_r. f_equal. lia.
  - rewrite js_or_testbit, js_shl_testbit by lia. by destruct (Z.ltb_spec i (Z.of_nat k)); [|lia].
Qed.

Lemma bits_masked k v m : 0 <= m → m = Z.ones (Z.of_nat k) → (k <= 31)%nat →
  bits k (js_and v m) = bits k v.
Proof.
  intros Hm -> Hk. apply bits_ext. intros i Hi. rewrite js_and_testbit by lia.
  rewrite Z.ones_spec_low by lia. apply andb_true_r.
Qed.

(** [(value >>> n) & mask]: the top [k] of the [k + n] bits. *)
Lemma bits_pop k n v m : m = Z.ones (Z.of_nat k) → (k + n <= 31)%nat →
  bits (k + n) v = bits k (js_and (js_ushr v (Z.of_nat n)) m) ++ bits n v.
Proof.
  intros Hm Hkn. rewrite bits_split. f_equal.
  rewrite bits_masked; [|subst m; rewrite Z.ones_equiv; pose proof (Z.pow_pos_nonneg 2 (Z.of_nat k)); lia|done|lia].
  apply bits_ext. intros i Hi. rewrite js_ushr_testbit, Z.shiftr_spec by lia. done.
Qed.

Lemma js_and_mask_range k v m : m = Z.ones (Z.of_nat k) → (k <= 31)%nat →
  0 <= js_and v m < 2 ^ Z.of_nat k.
Proof.
  intros -> Hk. unfold js_and.
  assert (Z.ones (Z.of_nat k) < 2 ^ 31) as H.
  { rewrite Z.ones_equiv. assert (2 ^ Z.of_nat k <= 2 ^ 31) by (apply Z.pow_le_mono_r; lia). lia. }
  assert (0 <= Z.ones (Z.of_nat k)) by (rewrite Z.ones_equiv;
    pose proof (Z.pow_pos_nonneg 2 (Z.of_nat k)); lia).
  rewrite (to_i32_small (Z.ones _)) by lia. rewrite Z.land_ones by lia. apply Z.mod_pos_bound. lia.
Qed.

(** ** Base32 round trip *)
Definition char_value (c : ascii) : Z :=
  match index_of_char c BASE32_ALPHABET with Some i => Z.of_nat i | None => 0 end.

(** A character the decoder keeps and reads as a digit. *)
Definition b32 (c : ascii) : Prop :=
  clean_char c = [c] ∧ index_of_char c BASE32_ALPHABET = Some (Z.to_nat (char_value c)) ∧
  0 <= char_value c < 32.

Definition char_stream (cs : list ascii) : list bool := concat ((λ c, bits 5 (char_value c)) <$> cs).
Definition byte_stream (bs : list Z) : list bool := concat (bits 8 <$> bs).
Definition is_byte (b : Z) : Prop := 0 <= b < 256.

Lemma char_stream_app a b : char_stream (a ++ b) = char_stream a ++ char_stream b.
Proof. unfold char_stream. by rewrite fmap_app, concat_app. Qed.
Lemma byte_stream_app a b : byte_stream (a ++ b) = byte_stream a ++ byte_stream b.
Proof. unfold byte_stream. by rewrite fmap_app, concat_app. Qed.
Lemma byte_stream_cons b bs : byte_stream (b :: bs) = bits 8 b ++ byte_stream bs.
Proof. done. Qed.
Lemma byte_stream_one b : byte_stream [b] = bits 8 b.
Proof. by rewrite byte_stream_cons, app_nil_r. Qed.
Lemma char_stream_one c : char_stream [c] = bits 5 (char_value c).
Proof. unfold char_stream. simpl. by rewrite ?app_nil_r. Qed.
Lemma byte_stream_length bs : length (byte_stream bs) = (8 * length bs)%nat.
Proof.
  induction bs as [|b bs IH]; [done|]. rewrite byte_stream_cons, length_app, bits_length, IH.
  simpl. lia.
Qed.

Lemma base32_char_spec d : 0 <= d < 32 →
  ∃ c, base32_char d = String c "" ∧ b32 c ∧ char_value c = d.
Proof.
  intros Hd. assert (Forall (λ d, ∃ c, base32_char d = String c "" ∧ b32 c ∧ char_value c = d)
    (seqZ 0 32)) as H.
  { unfold b32. repeat constructor; (eexists; split; [reflexivity|]; vm_compute;
      split_and!; try done; discriminate). }
  rewrite Forall_forall in H. apply H, elem_of_seqZ. lia.
Qed.

(** Appending the digit of [d]. *)
Lemma out_push out d : 0 <= d < 32 → Forall b32 (list_ascii_of_string out) →
  Forall b32 (list_ascii_of_string (out +:+ base32_char d)) ∧
  char_stream (list_ascii_of_string (out +:+ base32_char d)) =
  char_stream (list_ascii_of_string out) ++ bits 5 d.
Proof.
  intros (c & -> & Hc & Hd)%base32_char_spec Hout. rewrite list_ascii_app, char_stream_app. simpl.
  split; [apply Forall_app; split; [done|by constructor]|]. by rewrite char_stream_one, Hd.
Qed.

Lemma emit_chars_ok fuel v b out b' out' :
  emit_chars fuel v b out = (b', out') → 0 <= b <= 31 → b <= Z.of_nat fuel →
  Forall b32 (list_ascii_of_string out) →
  0 <= b' < 5 ∧ Forall b32 (list_ascii_of_string out') ∧
  char_stream (list_ascii_of_string out') ++ bits (Z.to_nat b') v =
  char_stream (list_ascii_of_string out) ++ bits (Z.to_nat b) v.
Proof.
  revert b out. induction fuel as [|fuel IH]; intros b out He Hb Hf Hout; simpl in He.
  { simplify_eq. split; [lia|done]. }
  destruct (Z.leb_spec 5 b); [|simplify_eq; split; [lia|done]].
  set (d := js_and (js_ushr v (b - 5)) 31) in He.
  assert (0 <= d < 32) as Hd by (apply (js_and_mask_range 5); [done|lia]).
  destruct (out_push out d Hd Hout) as [Hv Hs].
  destruct (IH _ _ He) as (?&?&E); [lia|lia|done|]. split_and!; [lia|lia|done|].
  rewrite E, Hs, <-app_assoc. f_equal.
  replace (Z.to_nat b) with (5 + Z.to_nat (b - 5))%nat by lia.
  rewrite (bits_pop 5 _ v 31) by (done || lia). f_equal. unfold d. do 2 f_equal. f_equal. lia.
Qed.

Lemma encode_byte_ok b v out x done_ b' v' out' :
  encode_byte (b, v, out) x = (b', v', out') →
  0 <= b < 5 → is_byte x → Forall b32 (list_ascii_of_string out) →
  char_stream (list_ascii_of_string out) ++ bits (Z.to_nat b) v = done_ →
  0 <= b' < 5 ∧ Forall b32 (list_ascii_of_string out') ∧
  char_stream (list_ascii_of_string out') ++ bits (Z.to_nat b') v' = done_ ++ bits 8 x.
Proof.
  unfold encode_byte. intros He Hb Hx Hout <-.
  destruct (emit_chars _ _ _ _) as [b1 out1] eqn:E1. simplify_eq.
  destruct (emit_chars_ok _ _ _ _ _ _ E1) as (?&?&E); [lia|lia|done|].
  split_and!; [lia|lia|done|]. rewrite E.
  replace (Z.to_nat (b + 8)) with (Z.to_nat b + 8)%nat by lia.
  rewrite (bits_push _ 8) by (done || lia). by rewrite app_assoc.
Qed.

(** What the encoder prints: valid characters, the bits of the input and up
    to four zero bits behind them. *)
Lemma base32Encode_ok bs : Forall is_byte bs →
  Forall b32 (list_ascii_of_string (base32Encode bs)) ∧
  ∃ pad, (length pad < 5)%nat ∧
    char_stream (list_ascii_of_string (base32Encode bs)) = byte_stream bs ++ pad.
Proof.
  intros Hbs. unfold base32Encode.
  destruct (foldl encode_byte (0, 0, "") bs) as [[b v] out] eqn:E.
  assert (0 <= b < 5 ∧ Forall b32 (list_ascii_of_string out) ∧
    char_stream (list_ascii_of_string out) ++ bits (Z.to_nat b) v = byte_stream bs) as (Hb & Hv & Hs).
  { revert b v out E. induction bs as [|x bs IH] using rev_ind; intros b v out E.
    - simpl in E. injection E as <- <- <-. split; [lia|]. by split.
    - apply Forall_app in Hbs as [Hbs Hx]. apply Forall_cons in Hx as [Hx _].
      rewrite foldl_app in E. cbn [foldl] in E.
      destruct (foldl encode_byte (0, 0, "") bs) as [[b0 v0] out0].
      destruct (IH Hbs _ _ _ eq_refl) as (?&?&?).
      rewrite byte_stream_app, byte_stream_one.
      eapply (encode_byte_ok _ _ _ _ _ _ _ _ E); done. }
  destruct (Z.ltb_spec 0 b).
  - set (d := js_and (js_shl v (5 - b)) 31).
    assert (0 <= d < 32) as Hd by (apply (js_and_mask_range 5); [done|lia]).
    destruct (out_push out d Hd Hv) as [Hv' Hs']. split; [done|].
    exists (bits (Z.to_nat (5 - b)) 0). split; [rewrite bits_length; lia|].
    rewrite Hs', <-Hs, <-app_assoc. f_equal.
    assert (0 <= 0 < 2 ^ Z.of_nat (Z.to_nat (5 - b))) as Hz
      by (split; [lia|apply Z.pow_pos_nonneg; lia]).
    rewrite <-(bits_push _ _ v 0 Hz) by lia.
    replace (Z.to_nat b + Z.to_nat (5 - b))%nat with 5%nat by lia.
    unfold d. rewrite (bits_masked 5 _ 31) by (done || lia).
    apply bits_ext. intros i Hi. rewrite js_or_testbit, Z.testbit_0_l, orb_false_r by lia.
    do 2 f_equal. lia.
  - split; [done|]. exists []. rewrite app_nil_r. split; [simpl; lia|].
    assert (b = 0) as -> by lia. by rewrite app_nil_r in Hs.
Qed.

Lemma decode_char_ok b v out c cs b' v' out' :
  decode_char (b, v, out) c = (b', v', out') → b32 c →
  0 <= b < 8 → Forall is_byte out →
  byte_stream out ++ bits (Z.to_nat b) v = char_stream cs →
  0 <= b' < 8 ∧ Forall is_byte out' ∧
  byte_stream out' ++ bits (Z.to_nat b') v' = char_stream (cs ++ [c]).
Proof.
  unfold decode_char. intros He (_ & Hi & Hc) Hb Hout Hs. rewrite Hi in He. clear Hi.
  rewrite Z2Nat.id in He by lia. rewrite char_stream_app, <-Hs, <-app_assoc.
  assert (Hc' : 0 <= char_value c < 2 ^ Z.of_nat 5) by (change (2 ^ Z.of_nat 5) with 32; lia).
  rewrite char_stream_one, <-(bits_push (Z.to_nat b) 5 v _ Hc') by lia.
  change (Z.of_nat 5) with 5. set (w := js_or (js_shl v 5) (char_value c)) in *.
  destruct (Z.leb_spec 8 (b + 5)).
  - injection He as <- <- <-. split; [lia|]. split.
    + apply Forall_app. split; [done|]. constructor; [|done]. apply (js_and_mask_range 8); [done|lia].
    + rewrite byte_stream_app, <-app_assoc. f_equal. rewrite byte_stream_one.
      replace (Z.to_nat b + 5)%nat with (8 + Z.to_nat (b + 5 - 8))%nat by lia.
      rewrite (bits_pop 8 _ w 255) by (done || lia).
      do 2 f_equal. do 2 f_equal. lia.
  - injection He as <- <- <-. split; [lia|]. split; [done|]. do 2 f_equal. lia.
Qed.

Lemma decode_ok cs : Forall b32 cs →
  ∃ b v out, foldl decode_char (0, 0, []) cs = (b, v, out) ∧ 0 <= b < 8 ∧ Forall is_byte out ∧
    byte_stream out ++ bits (Z.to_nat b) v = char_stream cs.
Proof.
  induction cs as [|c cs IH] using rev_ind; intros Hcs; [by exists 0, 0, []|].
  apply Forall_app in Hcs as [Hcs Hc]. apply Forall_cons in Hc as [Hc _].
  destruct (IH Hcs) as (b & v & out & E & ? & ? & ?). rewrite foldl_app, E. simpl.
  destruct (decode_char (b, v, out) c) as [[b' v'] out'] eqn:E'. exists b', v', out'.
  split; [done|]. eapply (decode_char_ok _ _ _ _ _ _ _ _ E'); done.
Qed.

Lemma clean_b32 cs : Forall b32 cs → concat (clean_char <$> cs) = cs.
Proof.
  induction 1 as [|c cs [Hc _] _ IH]; [done|]. rewrite fmap_cons, concat_cons. by rewrite Hc, IH.
Qed.

Lemma byte_stream_inj bs bs' rest rest' : length bs = length bs' →
  Forall is_byte bs → Forall is_byte bs' →
  byte_stream bs ++ rest = byte_stream bs' ++ rest' → bs = bs'.
Proof.
  intros Hl Hbs. revert bs' Hl. induction Hbs as [|b bs Hb _ IH]; intros [|b' bs'] Hl Hbs' E;
    simpl in Hl; try lia; [done|].
  apply Forall_cons in Hbs' as [Hb' Hbs']. rewrite !byte_stream_cons, <-!app_assoc in E.
  apply app_inj_1 in E as [E1 E2]; [|by rewrite !bits_length].
  f_equal; [by apply (bits_inj 8)|]. apply IH; [lia|done|done].
Qed.

(** A secret of any length survives base32: decoding what was encoded
    gives the bytes back, although both loops keep everything they have read
    in an int32 that wraps. *)
Theorem base32_roundtrip bs : Forall is_byte bs → base32Decode (base32Encode bs) = bs.
Proof.
  intros Hbs. destruct (base32Encode_ok bs Hbs) as (Hv & pad & Hpad & Hs).
  unfold base32Decode. rewrite clean_b32 by done.
  destruct (decode_ok _ Hv) as (b & v & out & E & Hb & Hout & Hd). rewrite E. simpl.
  rewrite Hs in Hd.
  assert (length out = length bs) as Hl.
  { apply (f_equal length) in Hd. rewrite !length_app, !byte_stream_length, bits_length in Hd. lia. }
  by apply (byte_stream_inj _ _ _ _ Hl) in Hd.
Qed.

(** ** Codes *)
Section HotpFacts.
Context (hmac_sha1 : list Z → list Z → list Z).

Lemma js_or_range a b : 0 <= a < 2 ^ 31 → 0 <= b < 2 ^ 31 → 0 <= js_or a b < 2 ^ 31.
Proof.
  intros Ha Hb. unfold js_or. rewrite !to_i32_small by lia.
  assert (0 <= Z.lor a b) by (apply Z.lor_nonneg; lia). split; [done|].
  destruct (decide (Z.lor a b = 0)) as [->|Hne]; [done|]. apply Z.log2_lt_pow2; [lia|].
  rewrite Z.log2_lor by lia.
  apply Z.max_lub_lt; (destruct (decide (a = 0)) as [->|]; destruct (decide (b = 0)) as [->|]; try done;
    apply Z.log2_lt_pow2; lia).
Qed.

Lemma js_shl_small a n k : 0 <= a < 2 ^ k → 0 <= n → 0 <= k → n + k <= 31 →
  0 <= js_shl a n < 2 ^ 31.
Proof.
  intros Ha Hn Hk Hnk.
  assert (2 ^ k * 2 ^ n <= 2 ^ 31) by (rewrite <-Z.pow_add_r by lia; apply Z.pow_le_mono_r; lia).
  assert (2 ^ k <= 2 ^ 31) by (apply Z.pow_le_mono_r; lia).
  assert (0 < 2 ^ n) by (apply Z.pow_pos_nonneg; lia).
  unfold js_shl. rewrite (to_i32_small a) by lia. rewrite Z.mod_small, Z.shiftl_mul_pow2 by lia.
  rewrite to_i32_small by nia. nia.
Qed.

Lemma truncate_range hmac : 0 <= truncate hmac < 2 ^ 31.
Proof.
  unfold truncate. repeat apply js_or_range.
  - apply (js_shl_small _ 24 7); try done. by apply (js_and_mask_range 7); [|lia].
  - apply (js_shl_small _ 16 8); try done. by apply (js_and_mask_range 8); [|lia].
  - apply (js_shl_small _ 8 8); try done. by apply (js_and_mask_range 8); [|lia].
  - pose proof (js_and_mask_range 8 (byte_at hmac
      (js_and (byte_at hmac (Z.of_nat (length hmac) - 1)) 15 + 3)) 255 eq_refl ltac:(lia)) as [? ?].
    split; [done|]. etrans; [done|reflexivity].
Qed.

Lemma list_ascii_length s : length (list_ascii_of_string s) = String.length s.
Proof. induction s; simpl; auto. Qed.

(** Every code is six digits. *)
Lemma hotp_six key counter code : hotp hmac_sha1 key counter = Ok code → six_digits code = true.
Proof.
  unfold hotp. intros (buf & _ & E)%bind_ok. simplify_eq.
  pose proof (truncate_range (hmac_sha1 key buf)) as Hr.
  set (m := Z.rem _ _). assert (0 <= m < 10 ^ Z.of_nat 6) as Hm.
  { unfold m. rewrite Z.rem_mod_nonneg by lia. apply Z.mod_pos_bound. done. }
  destruct (pretty_Z_digits 6 m ltac:(lia) Hm) as [Hd Hl].
  unfold six_digits. apply andb_true_iff. split.
  - apply Nat.eqb_eq. by apply pad_start_length.
  - apply bool_decide_eq_true. unfold pad_start. rewrite list_ascii_app. apply Forall_app.
    split; [|done]. rewrite list_ascii_of_string_of_list_ascii. by apply Forall_replicate.
Qed.

Lemma strip_ws_six code : six_digits code = true → strip_ws code = code.
Proof.
  unfold six_digits. intros [_ H%bool_decide_eq_true]%andb_true_iff. unfold strip_ws.
  rewrite <-(string_of_list_ascii_of_string code) at 2. f_equal.
  induction H as [|c l Hc _ IH]; [done|]. rewrite filter_cons, decide_True; [by f_equal|].
  unfold is_digit, is_ws in *. apply andb_true_iff in Hc as [H1%Nat.leb_le H2%Nat.leb_le].
  rewrite !orb_false_iff, andb_false_iff, !Nat.leb_gt, !Nat.eqb_neq. lia.
Qed.

(** No step of the window is negative or too large for the counter field. *)
Definition representable (now window : Z) : Prop :=
  0 <= window ∧ window <= now / PERIOD_SECONDS ∧ now / PERIOD_SECONDS + window < 2 ^ 64.

Lemma hotp_total key counter : 0 <= counter < 2 ^ 64 → ∃ code, hotp hmac_sha1 key counter = Ok code.
Proof.
  intros H. unfold hotp, counter_bytes.
  rewrite (proj2 (Z.leb_le _ _)), (proj2 (Z.ltb_lt _ _)) by lia. simpl. by eexists.
Qed.

(** The first of an ascending list of steps that gives the code. *)
Lemma try_steps_spec key code steps :
  StronglySorted Z.lt steps → Forall (λ s, 0 <= s < 2 ^ 64) steps →
  ∃ r, try_steps hmac_sha1 key code steps = Ok r ∧
    match r with
    | Some s => s ∈ steps ∧ hotp hmac_sha1 key s = Ok code ∧
        ∀ s', s' ∈ steps → hotp hmac_sha1 key s' = Ok code → s <= s'
    | None => ∀ s, s ∈ steps → hotp hmac_sha1 key s ≠ Ok code
    end.
Proof.
  intros Hsort Hr. induction Hsort as [|s0 steps Hsort IH Hlt].
  - exists None. split; [done|]. set_solver.
  - apply Forall_cons in Hr as [H0 Hr]. destruct (hotp_total key s0 H0) as [c0 Hc0].
    simpl. rewrite Hc0. simpl. rewrite Forall_forall in Hlt. case_bool_decide as Hc.
    + subst. exists (Some s0). split; [done|]. split; [set_solver|]. split; [done|].
      intros s' [->|Hs'%Hlt]%elem_of_cons _; lia.
    + destruct (IH Hr) as (r & -> & Hr'). exists r. split; [done|].
      destruct r as [s|].
      * destruct Hr' as (? & ? & Hmin). split_and!; [set_solver|done|].
        intros s' [->|?]%elem_of_cons ?; [congruence|by apply Hmin].
      * intros s [->|?]%elem_of_cons; [congruence|by apply Hr'].
Qed.

Lemma window_steps_spec c w s : 0 <= w → s ∈ window_steps c w ↔ c - w <= s <= c + w.
Proof.
  intros Hw. unfold window_steps. rewrite list_elem_of_fmap. setoid_rewrite elem_of_seqZ.
  split; [intros (? & -> & ?); lia|]. intros. exists (s - c). lia.
Qed.

Lemma seqZ_sorted a n : StronglySorted Z.lt (seqZ a n).
Proof.
  destruct (decide (0 <= n)); [|rewrite seqZ_nil by lia; constructor].
  revert a. pattern n. apply natlike_ind; [constructor| |done]. intros m Hm IH a.
  rewrite seqZ_cons by lia. replace (Z.pred (Z.succ m)) with m by lia. constructor; [apply IH|].
  apply Forall_forall. intros x Hx%elem_of_seqZ. lia.
Qed.

Lemma window_steps_sorted c w : StronglySorted Z.lt (window_steps c w).
Proof.
  unfold window_steps. induction (seqZ_sorted (- w) (2 * w + 1)) as [|x l ? IH Hx]; [constructor|].
  simpl. constructor; [done|]. apply Forall_fmap. eapply Forall_impl; [done|]. simpl. lia.
Qed.

(** Whatever the HMAC is: the check always returns, and it returns a
    step exactly when the six digits typed (blanks aside) are the code of a
    step within the window, namely the earliest such step. *)
Theorem verifyTotpStep_spec secret code now window :
  representable now window →
  let c := now / PERIOD_SECONDS in
  let gives s := c - window <= s <= c + window ∧
                 hotp hmac_sha1 (base32Decode secret) s = Ok (strip_ws code) in
  ∃ r, verifyTotpStep hmac_sha1 secret code now window = Ok r ∧
    match r with
    | Some s => gives s ∧ ∀ s', gives s' → s <= s'
    | None => ∀ s, ¬ gives s
    end.
Proof.
  intros (Hw & Hlo & Hhi) c gives. unfold verifyTotpStep.
  destruct (six_digits (strip_ws code)) eqn:E6; simpl.
  - destruct (try_steps_spec (base32Decode secret) (strip_ws code) (window_steps c window))
      as (r & Hr & Hs); [apply window_steps_sorted| |].
    { apply Forall_forall. intros s Hs%window_steps_spec; [|done]. unfold c in *. lia. }
    exists r. split; [done|]. pose proof (λ s, window_steps_spec c window s Hw) as Hin.
    unfold gives. destruct r; naive_solver.
  - exists None. split; [done|]. intros s [_ H%hotp_six]. congruence.
Qed.

(** The code the authenticator shows is accepted while its step is within the
    window, and the step recorded for it is never a later one. *)
Lemma generated_code_accepted secret t now window code :
  representable now window → Z.abs (t / PERIOD_SECONDS - now / PERIOD_SECONDS) <= window →
  generateTotp hmac_sha1 secret t = Ok code →
  ∃ s, verifyTotpStep hmac_sha1 secret code now window = Ok (Some s) ∧
    now / PERIOD_SECONDS - window <= s <= t / PERIOD_SECONDS.
Proof.
  intros (Hw & Hlo & Hhi) Ht Hcode. unfold generateTotp in Hcode.
  pose proof (hotp_six _ _ _ Hcode) as H6. unfold verifyTotpStep.
  rewrite (strip_ws_six code H6), H6. simpl.
  destruct (try_steps_spec (base32Decode secret) code (window_steps (now / PERIOD_SECONDS) window))
    as (r & -> & Hs); [apply window_steps_sorted| |].
  { apply Forall_forall. intros s Hs%window_steps_spec; [|done]. lia. }
  destruct r as [s|].
  - exists s. split; [done|]. destruct Hs as (Hs%window_steps_spec & _ & Hmin); [|done].
    split; [lia|]. apply Hmin; [apply window_steps_spec; lia|done].
  - by destruct (Hs (t / PERIOD_SECONDS)); [apply window_steps_spec; lia|].
Qed.
End HotpFacts.

(** ** Witnesses *)

(** A stand-in for the HMAC: twenty bytes that depend on key and counter. *)
Definition toy_hmac (key msg : list Z) : list Z :=
  (λ i, (sumZ key * 7 + sumZ msg * (i + 3) * 31 + i * i) mod 256) <$> seqZ 0 20.

Lemma base32_roundtrip_witness :
  base32Encode [222; 173; 190; 239; 0; 255; 17] = "32W353YA74IQ" ∧
  base32Decode (base32Encode [222; 173; 190; 239; 0; 255; 17]) = [222; 173; 190; 239; 0; 255; 17].
Proof.
  split; [vm_compute; reflexivity|]. apply base32_roundtrip.
  repeat constructor; vm_compute; discriminate.
Defined.

Example base32Decode_spaces : base32Decode "32w3 53ya-74iq" = [222; 173; 190; 239; 0; 255; 17].
Proof. vm_compute. reflexivity. Qed.

Lemma verifyTotpStep_spec_witness :
  representable 1700000000 1 ∧
  verifyTotpStep toy_hmac "32W353YA74IQ"
    (match generateTotp toy_hmac "32W353YA74IQ" 1700000020 with Ok c => c | Throw _ => "" end)
    1700000000 1 = Ok (Some (1700000020 / 30)) ∧
  ∃ r, verifyTotpStep toy_hmac "32W353YA74IQ" "123 456" 1700000000 1 = Ok r.
Proof.
  split; [vm_compute; split_and!; try discriminate; reflexivity|].
  split; [vm_compute; reflexivity|].
  destruct (verifyTotpStep_spec toy_hmac "32W353YA74IQ" "123 456" 1700000000 1) as (r & H & _).
  - vm_compute. split_and!; try discriminate; reflexivity.
  - exists r. exact H.
Defined.
