(* ===== verification/Login.v ===== *)
(** The admin's sign-in, password change and two-factor enrolment
    (apps/panel-backend/src/modules/auth/auth.service.ts and twofa.service.ts,
    with the reads and writes of modules/admin/admin.service.ts): the lock of
    (IP, username), or of the admin, in Redis, the password, the second factor
    and its replay guard.

    The world is Redis (the counters with their expiry) and the table of
    admins.  Time is in seconds.  bcrypt and the HMAC are parameters. *)

From S2P Require Import Prelude Js Totp Calls.

Local Open Scope string_scope.
Local Open Scope list_scope.
Local Open Scope Z_scope.
Local Open Scope prog_scope.

(** ** The world *)
Record AdminUser := Admin {
  a_id : string; a_username : string; a_passwordHash : string; a_deleted : bool;
  totpEnabled : bool; totpSecret : option string; totpLastUsedStep : option Z }.

(** A Redis counter and the second it expires at, if it does. *)
Record counter := Counter { c_value : Z; c_expires : option Z }.

Record auth_world := World { redis : gmap string counter; admins : list AdminUser }.

Inductive auth_error :=
  | AccountLockedError (retryAfterSeconds : Z)
  | InvalidCredentialsError (locked : bool)
  | TotpRequiredError
  | InvalidTotpError (locked : bool)
  | InvalidCurrentPasswordError (locked : bool)
  | PasswordUnchangedError
  | Unauthorized               (* the admin of the session is gone *)
  | TotpNotSetupError
  | TotpAlreadyEnabledError
  | TotpBadCodeError
  | ClockError                 (* the code's counter is out of range *)
  | RecordNotFound.            (* Prisma: no row to update *)

#[global] Instance auth_error_eq_dec : EqDecision auth_error.
Proof. solve_decision. Defined.

Definition live (now : Z) (c : counter) : bool :=
  match c_expires c with None => true | Some t => now <? t end.

Definition redis_at (now : Z) (key : string) (w : auth_world) : option counter :=
  c ← redis w !! key; if live now c then Some c else None.

Definition set_redis (key : string) (c : counter) (w : auth_world) : auth_world :=
  World (<[key := c]> (redis w)) (admins w).

Abbreviation auth := (prog auth_world auth_error).

Definition redis_get (key : string) : auth (option Z) :=
  call (λ now w, (match redis_at now key w with Some c => Some (c_value c) | None => None end, w)).

Definition redis_ttl (key : string) : auth Z :=
  call (λ now w,
    (match redis_at now key w with
     | None => -2
     | Some c => match c_expires c with None => -1 | Some t => t - now end
     end, w)).

(** [INCR]: an expired or missing key starts from nothing, a live one keeps
    its expiry. *)
Definition redis_incr (key : string) : auth Z :=
  call (λ now w,
    let c := match redis_at now key w with
             | None => Counter 1 None
             | Some c => Counter (c_value c + 1) (c_expires c)
             end in
    (c_value c, set_redis key c w)).

Definition redis_expire (key : string) (seconds : Z) : auth unit :=
  call (λ now w,
    (tt, match redis_at now key w with
         | None => w
         | Some c => set_redis key (Counter (c_value c) (Some (now + seconds))) w
         end)).

Definition redis_del (key : string) : auth unit :=
  call (λ _ w, (tt, World (delete key (redis w)) (admins w))).

Definition findAdminByUsername (username : string) : auth (option AdminUser) :=
  call (λ _ w, (js_find (λ a, bool_decide (a_username a = username) && negb (a_deleted a)) (admins w), w)).

Definition findAdminById (id : string) : auth (option AdminUser) :=
  call (λ _ w,
    (if bool_decide (id = "") then None
     else js_find (λ a, bool_decide (a_id a = id) && negb (a_deleted a)) (admins w), w)).

Definition set_step (step : Z) (a : AdminUser) : AdminUser :=
  Admin (a_id a) (a_username a) (a_passwordHash a) (a_deleted a)
    (totpEnabled a) (totpSecret a) (Some step).

Definition set_secret (secret : option string) (enabled : bool) (a : AdminUser) : AdminUser :=
  Admin (a_id a) (a_username a) (a_passwordHash a) (a_deleted a) enabled secret (totpLastUsedStep a).

(** [prisma.adminUser.update({ where: { id }, data })]. *)
Definition updateAdmin (adminId : string) (f : AdminUser → AdminUser) : auth unit :=
  await found <- call (λ _ w,
    if bool_decide (adminId ∈ a_id <$> admins w)
    then (true, World (redis w) ((λ a, if decide (a_id a = adminId) then f a else a) <$> admins w))
    else (false, w));
  (if found : bool then Ret tt else Raise RecordNotFound).

Definition recordTotpStep (adminId : string) (step : Z) : auth unit :=
  updateAdmin adminId (set_step step).

Section Auth.
Context (compare : string → string → bool) (hmac_sha1 : list Z → list Z → list Z).
Context (LOGIN_LOCKOUT_FAILURES LOGIN_LOCKOUT_WINDOW_MIN LOGIN_LOCKOUT_DURATION_MIN : Z).

Definition FAIL_KEY (clientIp username : string) : string :=
  "auth:fail:" +:+ (if bool_decide (clientIp = "") then "unknown" else clientIp) +:+ ":" +:+
  js_lower username.

(** [checkLocked] and [recordFailure] are written twice in the source, for the
    two keys. *)
Definition check_lock (key : string) : auth unit :=
  await current <- redis_get key;
  match current with
  | None => Ret tt
  | Some count =>
      if LOGIN_LOCKOUT_FAILURES <=? count then
        await ttl <- redis_ttl key;
        Raise (AccountLockedError (if 0 <? ttl then ttl else 60))
      else Ret tt
  end.

Definition checkLocked (clientIp username : string) : auth unit :=
  check_lock (FAIL_KEY clientIp username).

Definition count_failure (key : string) : auth bool :=
  await newCount <- redis_incr key;
  await_ (if newCount =? 1 then redis_expire key (LOGIN_LOCKOUT_WINDOW_MIN * 60) else Ret tt);
  await_ (if LOGIN_LOCKOUT_FAILURES <=? newCount
          then redis_expire key (LOGIN_LOCKOUT_DURATION_MIN * 60) else Ret tt);
  Ret (newCount =? LOGIN_LOCKOUT_FAILURES).

Definition recordFailure (clientIp username : string) : auth bool :=
  count_failure (FAIL_KEY clientIp username).

Definition clearFailures (clientIp username : string) : auth unit :=
  redis_del (FAIL_KEY clientIp username).

(** [throw new E(await recordFailure(...))]. *)
Definition fail_with {A} (e : bool → auth_error) (clientIp username : string) : auth A :=
  await locked <- recordFailure clientIp username; Raise (e locked).

(** [step === null || (last !== null && step <= last)]. *)
Definition step_refused (step last : option Z) : bool :=
  match step with
  | None => true
  | Some s => match last with None => false | Some l => s <=? l end
  end.

(** The second factor, the same lines in both callers; [admin] is the row as
    it was read. *)
Definition secondFactor (admin : AdminUser) (totpCode : option string) (clientIp username : string) :
    auth unit :=
  match totpSecret admin with
  | Some secret =>
      if totpEnabled admin && bool_decide (secret ≠ "") then
        if negb (truthy totpCode) then Raise TotpRequiredError else
        await now <- clock;
        match verifyTotpStep hmac_sha1 secret (default "" totpCode) now 1 with
        | Throw _ => Raise ClockError
        | Ok step =>
            if step_refused step (totpLastUsedStep admin)
            then fail_with InvalidTotpError clientIp username
            else recordTotpStep (a_id admin) (default 0 step)
        end
      else Ret tt
  | None => Ret tt
  end.

Record LoginInput := Login { in_username : string; in_password : string; in_totpCode : option string }.

Definition login (input : LoginInput) (clientIp : string) : auth AdminUser :=
  let username := in_username input in
  await_ checkLocked clientIp username;
  await admin <- findAdminByUsername username;
  match admin with
  | None => fail_with InvalidCredentialsError clientIp username
  | Some admin =>
      if negb (compare (in_password input) (a_passwordHash admin))
      then fail_with InvalidCredentialsError clientIp username
      else
        await_ secondFactor admin (in_totpCode input) clientIp username;
        await_ clearFailures clientIp username;
        Ret admin
  end.

Record ChangePasswordInput := ChangePassword {
  currentPassword : string; newPassword : string; cp_totpCode : option string }.

Definition checkPasswordChange (admin : AdminUser) (input : ChangePasswordInput) (clientIp : string) :
    auth unit :=
  let username := a_username admin in
  await_ checkLocked clientIp username;
  if negb (compare (currentPassword input) (a_passwordHash admin))
  then fail_with InvalidCurrentPasswordError clientIp username
  else
    await_ secondFactor admin (cp_totpCode input) clientIp username;
    if bool_decide (newPassword input = currentPassword input) then Raise PasswordUnchangedError
    else clearFailures clientIp username.

(** ** Enrolment *)
Definition TWOFA_FAIL_KEY (adminId : string) : string := "auth:2fa-fail:" +:+ adminId.

(** [prisma.adminUser.findFirst({ where: { id, deletedAt: null } })]. *)
Definition findFirstAdmin (id : string) : auth (option AdminUser) :=
  call (λ _ w, (js_find (λ a, bool_decide (a_id a = id) && negb (a_deleted a)) (admins w), w)).

(** The twenty random bytes are an argument. *)
Definition setupTotp (adminId : string) (random : list Z) : auth string :=
  await admin <- findFirstAdmin adminId;
  match admin with
  | None => Raise TotpNotSetupError
  | Some admin =>
      if totpEnabled admin then Raise TotpAlreadyEnabledError else
      let secret := base32Encode random in
      await_ updateAdmin adminId (set_secret (Some secret) false);
      Ret secret
  end.

Definition spendCode (id secret : string) (last : option Z) (code : string) : auth Z :=
  await_ check_lock (TWOFA_FAIL_KEY id);
  await now <- clock;
  match verifyTotpStep hmac_sha1 secret code now 1 with
  | Throw _ => Raise ClockError
  | Ok step =>
      if step_refused step last then
        await_ count_failure (TWOFA_FAIL_KEY id); Raise TotpBadCodeError
      else
        await_ redis_del (TWOFA_FAIL_KEY id); Ret (default 0 step)
  end.

Definition enableTotp (adminId code : string) : auth unit :=
  await admin <- findFirstAdmin adminId;
  match admin with
  | Some admin =>
      match totpSecret admin with
      | Some ((String _ _) as secret) =>
          if totpEnabled admin then Raise TotpAlreadyEnabledError else
          await step <- spendCode (a_id admin) secret (totpLastUsedStep admin) code;
          updateAdmin adminId (λ a, set_step step (set_secret (totpSecret a) true a))
      | _ => Raise TotpNotSetupError
      end
  | None => Raise TotpNotSetupError
  end.

Definition disableTotp (adminId code : string) : auth unit :=
  await admin <- findFirstAdmin adminId;
  match admin with
  | Some admin =>
      match totpEnabled admin, totpSecret admin with
      | true, Some ((String _ _) as secret) =>
          await step <- spendCode (a_id admin) secret (totpLastUsedStep admin) code;
          updateAdmin adminId (λ a, set_step step (set_secret None false a))
      | _, _ => Raise TotpNotSetupError
      end
  | None => Raise TotpNotSetupError
  end.

(** The password-change route reads the admin and hands the row on. *)
Definition password_change (id : string) (input : ChangePasswordInput) (clientIp : string) : auth unit :=
  await admin <- findAdminById id;
  match admin with
  | None => Raise Unauthorized
  | Some admin => checkPasswordChange admin input clientIp
  end.

(** ** What a call does to the last accepted steps *)
Inductive attempt :=
  | SignIn (clientIp : string) (input : LoginInput)
  | PasswordChange (clientIp id : string) (input : ChangePasswordInput)
  | Enable (id code : string)
  | Disable (id code : string)
  | Setup (id : string) (random : list Z).

Definition attempt_prog (op : attempt) : auth unit :=
  match op with
  | SignIn ip input => await_ login input ip; Ret tt
  | PasswordChange ip id input => password_change id input ip
  | Enable id code => enableTotp id code
  | Disable id code => disableTotp id code
  | Setup id random => await_ setupTotp id random; Ret tt
  end.

(** The attempts of a list, one after the other, each at its time. *)
Definition attempts (w : auth_world) (ops : list (Z * attempt)) : auth_world :=
  foldl (λ w op, (run (attempt_prog op.2) op.1 w).2) w ops.

(** The admin an attempt is made for. *)
Definition target (op : attempt) (w : auth_world) : option AdminUser :=
  let by_id id := js_find (λ a, bool_decide (a_id a = id) && negb (a_deleted a)) (admins w) in
  match op with
  | SignIn _ input =>
      js_find (λ a, bool_decide (a_username a = in_username input) && negb (a_deleted a)) (admins w)
  | PasswordChange _ id _ => if bool_decide (id = "") then None else by_id id
  | Enable id _ | Disable id _ | Setup id _ => by_id id
  end.

(** The secret a code is checked against, when the factor is [on]. *)
Definition checked_with (on : bool) (a : AdminUser) (code : string) : option (string * string) :=
  match totpSecret a with
  | Some secret => if on && bool_decide (secret ≠ "") then Some (secret, code) else None
  | None => None
  end.

Definition code_of (op : attempt) (a : AdminUser) : option (string * string) :=
  match op with
  | SignIn _ input => checked_with (totpEnabled a) a (default "" (in_totpCode input))
  | PasswordChange _ _ input => checked_with (totpEnabled a) a (default "" (cp_totpCode input))
  | Enable _ code => checked_with true a code
  | Disable _ code => checked_with (totpEnabled a) a code
  | Setup _ _ => None
  end.

(** The step a code stands for now. *)
Definition step_for (sc : option (string * string)) (now : Z) : option Z :=
  match sc with
  | Some (secret, code) =>
      match verifyTotpStep hmac_sha1 secret code now 1 with Ok step => step | Throw _ => None end
  | None => None
  end.

Definition step_of (op : attempt) (a : AdminUser) (now : Z) : option Z := step_for (code_of op a) now.

(** The attempt goes through, and its code is one for step [s] of admin [id]. *)
Definition accepts (w : auth_world) (now : Z) (op : attempt) (id : string) (s : Z) : Prop :=
  (run (attempt_prog op) now w).1 = Ok tt ∧
  ∃ a, target op w = Some a ∧ a_id a = id ∧ step_of op a now = Some s.

Definition step_view (w : auth_world) : list (string * option Z) :=
  (λ a, (a_id a, totpLastUsedStep a)) <$> admins w.

Definition write_view (id : string) (s : Z) (v : list (string * option Z)) :=
  (λ p : string * option Z, if decide (p.1 = id) then (p.1, Some s) else p) <$> v.

Definition same_steps {A} (p : auth A) : Prop :=
  ∀ now w, admins (run p now w).2 = admins w.

Lemma same_steps_bind {A B} (p : auth A) (k : A → auth B) :
  same_steps p → (∀ a, same_steps (k a)) → same_steps (prog_bind p k).
Proof.
  intros Hp Hk now w. rewrite run_bind. specialize (Hp now w).
  destruct (run p now w) as [[a|e] w']; [|done]. simpl in *. rewrite Hk. done.
Qed.

Lemma same_steps_call {R} (f : Z → auth_world → R * auth_world) :
  (∀ now w, admins (f now w).2 = admins w) → same_steps (call f).
Proof. intros H now w. rewrite run_call. apply H. Qed.

Lemma same_steps_ret {A} (a : A) : same_steps (Ret a).
Proof. done. Qed.
Lemma same_steps_raise {A} e : same_steps (@Raise auth_world auth_error A e).
Proof. done. Qed.

#[local] Hint Resolve same_steps_bind same_steps_call same_steps_ret same_steps_raise : core.

Lemma check_lock_steps key : same_steps (check_lock key).
Proof.
  unfold check_lock, redis_get, redis_ttl. apply same_steps_bind; [auto|].
  intros [n|]; [|done]. case_match; auto.
Qed.

Lemma redis_expire_steps key n : same_steps (redis_expire key n).
Proof. apply same_steps_call. intros. simpl. by case_match. Qed.

Lemma count_failure_steps key : same_steps (count_failure key).
Proof.
  unfold count_failure, redis_incr. pose proof redis_expire_steps.
  repeat (apply same_steps_bind; [|intros]); auto; case_match; auto.
Qed.

Lemma redis_del_steps key : same_steps (redis_del key).
Proof. by apply same_steps_call. Qed.

Lemma fail_with_steps {A} e ip u : same_steps (A := A) (fail_with e ip u).
Proof. apply same_steps_bind; [apply count_failure_steps|auto]. Qed.

(** An update of one admin: found, or an error. *)
Lemma run_updateAdmin id f now w :
  run (updateAdmin id f) now w =
  if bool_decide (id ∈ a_id <$> admins w)
  then (Ok tt, World (redis w) ((λ a, if decide (a_id a = id) then f a else a) <$> admins w))
  else (Throw RecordNotFound, w).
Proof. unfold updateAdmin. simpl. by case_bool_decide. Qed.

Lemma write_step_view id f s w :
  (∀ a, a_id (f a) = a_id a ∧ totpLastUsedStep (f a) = Some s) →
  step_view (World (redis w) ((λ a, if decide (a_id a = id) then f a else a) <$> admins w)) =
  write_view id s (step_view w).
Proof.
  intros Hf. unfold step_view, write_view. simpl. rewrite <-!list_fmap_compose.
  apply list_fmap_ext. intros _ a _. simpl. case_decide; [|done]. by destruct (Hf a) as [-> ->].
Qed.

Definition step_past (s : Z) (last : option Z) : Prop :=
  match last with None => True | Some l => l < s end.

Lemma step_refused_false step last :
  step_refused step last = false → ∃ s, step = Some s ∧ step_past s last.
Proof.
  destruct step as [s|]; simpl; [|done]. destruct last as [l|]; simpl.
  - intros H%Z.leb_gt. by exists s.
  - intros _. by exists s.
Qed.

(** The two ways an attempt made for admin [a] can end: it leaves the last
    steps alone, and then did not go through on a code, or the code's step,
    past the last one, is the new last one. *)
Definition effect (tgt : option AdminUser) (code : AdminUser → option (string * string))
    (now : Z) (w w' : auth_world) (ok : Prop) : Prop :=
  (step_view w' = step_view w ∧ (ok → ∀ a, tgt = Some a → step_for (code a) now = None)) ∨
  (∃ a s, tgt = Some a ∧ step_for (code a) now = Some s ∧ step_past s (totpLastUsedStep a) ∧
     step_view w' = write_view (a_id a) s (step_view w)).

Lemma effect_none tgt code now w w' (ok : Prop) :
  admins w' = admins w → ¬ ok → effect tgt code now w w' ok.
Proof. intros H Hok. left. unfold step_view. rewrite H. by split. Qed.

Lemma effect_mono tgt code now w w1 w' (ok ok' : Prop) :
  admins w1 = admins w → (ok' → ok) → effect tgt code now w1 w' ok → effect tgt code now w w' ok'.
Proof.
  intros H Hok. unfold effect, step_view. rewrite H. naive_solver.
Qed.

Lemma run_fail_with {A} e ip u now w (r : result auth_error A) w' :
  run (fail_with e ip u) now w = (r, w') → admins w' = admins w ∧ ¬ is_ok r.
Proof.
  intros H. pose proof (fail_with_steps (A := A) e ip u now w) as Hs. rewrite H in Hs.
  split; [done|]. unfold fail_with in H. rewrite run_bind in H.
  destruct (run (recordFailure ip u) now w) as [[] ?]; simpl in H; injection H as <- <-; auto.
Qed.

Lemma secondFactor_effect a code ip u now w r w' :
  run (secondFactor a code ip u) now w = (r, w') →
  effect (Some a) (λ a, checked_with (totpEnabled a) a (default "" code)) now w w' (is_ok r).
Proof.
  unfold secondFactor, checked_with. intros H.
  assert (Hkeep : w' = w → (is_ok r → step_for (match totpSecret a with
      | Some secret => if totpEnabled a && bool_decide (secret ≠ "")
                       then Some (secret, default "" code) else None
      | None => None end) now = None) →
    effect (Some a) (λ a, match totpSecret a with
      | Some secret => if totpEnabled a && bool_decide (secret ≠ "")
                       then Some (secret, default "" code) else None
      | None => None end) now w w' (is_ok r)).
  { intros -> Hr. left. split; [done|]. intros Hok a' [= <-]. auto. }
  destruct (totpSecret a) as [secret|] eqn:Esec; [|injection H as <- <-; by apply Hkeep].
  destruct (totpEnabled a && bool_decide (secret ≠ "")) eqn:Eon; [|injection H as <- <-; by apply Hkeep].
  destruct (negb (truthy code)); [injection H as <- <-; by apply Hkeep|].
  rewrite run_clock in H.
  destruct (verifyTotpStep _ _ _ _ _) as [step|] eqn:Ev; [|injection H as <- <-; by apply Hkeep].
  destruct (step_refused step (totpLastUsedStep a)) eqn:Es.
  - apply run_fail_with in H as [Ha Hr]. apply effect_none; auto.
  - apply step_refused_false in Es as (s & -> & Hpast).
    change (run (updateAdmin (a_id a) (set_step s)) now w = (r, w')) in H.
    rewrite run_updateAdmin in H.
    case_bool_decide; injection H as <- <-; [|by apply Hkeep].
    right. exists a, s. rewrite Esec, Eon. simpl. rewrite Ev. split_and!; [done..|].
    by apply write_step_view.
Qed.

(** The second factor and then something that leaves the admins alone. *)
Lemma secondFactor_then {B} a code ip u (k : auth B) now w r w' :
  same_steps k → run (prog_bind (secondFactor a code ip u) (λ _, k)) now w = (r, w') →
  effect (Some a) (λ a, checked_with (totpEnabled a) a (default "" code)) now w w' (is_ok r).
Proof.
  intros Hk H. rewrite run_bind in H. destruct (run (secondFactor _ _ _ _) now w) as [r2 w2] eqn:E2.
  apply secondFactor_effect in E2. destruct r2 as [[]|e]; [|by injection H as <- <-].
  specialize (Hk now w2). rewrite H in Hk. simpl in Hk. revert E2. unfold effect, step_view.
  rewrite Hk. naive_solver.
Qed.

Lemma spendCode_effect id secret last code now w r w' :
  run (spendCode id secret last code) now w = (r, w') →
  admins w' = admins w ∧
  ∀ s, r = Ok s → step_for (Some (secret, code)) now = Some s ∧ step_past s last.
Proof.
  unfold spendCode. rewrite run_bind. pose proof (check_lock_steps (TWOFA_FAIL_KEY id) now w) as Hl.
  destruct (run (check_lock _) now w) as [[[]|e] w1]; simpl in Hl; [|intros [= <- <-]; by split].
  rewrite run_clock.
  destruct (verifyTotpStep _ _ _ _ _) as [step|] eqn:Ev; [|intros [= <- <-]; by split].
  destruct (step_refused step last) eqn:Es.
  - rewrite run_bind. pose proof (count_failure_steps (TWOFA_FAIL_KEY id) now w1) as Hc.
    destruct (run (count_failure _) now w1) as [[n|e] w2]; simpl in *; intros [= <- <-];
      (split; [congruence|done]).
  - apply step_refused_false in Es as (s & -> & Hpast). intros [= <- <-].
    split; [done|]. intros s' [= <-]. simpl. by rewrite Ev.
Qed.

(** A lock check in front. *)
Lemma locked_first {A} key (k : auth A) now w r w' tgt code :
  run (prog_bind (check_lock key) (λ _, k)) now w = (r, w') →
  (∀ w1, admins w1 = admins w → run k now w1 = (r, w') → effect tgt code now w1 w' (is_ok r)) →
  effect tgt code now w w' (is_ok r).
Proof.
  intros H Hk. rewrite run_bind in H. pose proof (check_lock_steps key now w) as Hl.
  destruct (run (check_lock key) now w) as [[[]|e] w1]; simpl in Hl.
  - eapply effect_mono; [exact Hl|done|auto].
  - injection H as <- <-. apply effect_none; auto.
Qed.

Lemma login_effect ip input now w r w' :
  run (login input ip) now w = (r, w') →
  effect (target (SignIn ip input) w) (code_of (SignIn ip input)) now w w' (is_ok r).
Proof.
  intros H. eapply locked_first; [exact H|]. clear H. intros w1 Hw H.
  rewrite run_bind in H. unfold findAdminByUsername in H. rewrite run_call in H.
  cbn [fst snd] in H. rewrite Hw in H. cbn [target code_of].
  destruct (js_find _ (admins w)) as [a|].
  - destruct (negb _).
    + apply run_fail_with in H as [? ?]. apply effect_none; auto.
    + eapply secondFactor_then in H; [exact H|]. apply same_steps_bind; [apply redis_del_steps|auto].
  - apply run_fail_with in H as [? ?]. apply effect_none; auto.
Qed.

Lemma checkPasswordChange_effect a ip input now w r w' :
  run (checkPasswordChange a input ip) now w = (r, w') →
  effect (Some a) (λ a, checked_with (totpEnabled a) a (default "" (cp_totpCode input))) now w w' (is_ok r).
Proof.
  intros H. eapply locked_first; [exact H|]. clear H. intros w1 Hw H. destruct (negb _).
  - apply run_fail_with in H as [? ?]. apply effect_none; auto.
  - eapply secondFactor_then in H; [exact H|]. case_bool_decide; [auto|apply redis_del_steps].
Qed.

(** Spending a code and then writing its step. *)
Lemma spend_then_write a secret code f now w r w' :
  (∀ s a, a_id (f s a) = a_id a ∧ totpLastUsedStep (f s a) = Some s) →
  run (prog_bind (spendCode (a_id a) secret (totpLastUsedStep a) code)
         (λ s, updateAdmin (a_id a) (f s))) now w = (r, w') →
  effect (Some a) (λ _, Some (secret, code)) now w w' (is_ok r).
Proof.
  intros Hf H. rewrite run_bind in H.
  destruct (run (spendCode _ _ _ _) now w) as [r1 w1] eqn:E1.
  apply spendCode_effect in E1 as [Hw Hs].
  destruct r1 as [s|e]; [|injection H as <- <-; apply effect_none; auto].
  destruct (Hs s eq_refl) as [Hstep Hpast]. rewrite run_updateAdmin in H.
  case_bool_decide; injection H as <- <-; [|apply effect_none; auto].
  right. exists a, s. split_and!; [done..|]. rewrite (write_step_view (a_id a) (f s) s) by apply Hf.
  unfold step_view. by rewrite Hw.
Qed.

Lemma js_find_id id w a :
  js_find (λ a, bool_decide (a_id a = id) && negb (a_deleted a)) (admins w) = Some a → a_id a = id.
Proof. by intros [_ [->%bool_decide_eq_true _]%andb_true_iff]%js_find_Some. Qed.

(** An update that keeps the last step. *)
Lemma run_update_keep id f now w r w' :
  (∀ a, a_id (f a) = a_id a ∧ totpLastUsedStep (f a) = totpLastUsedStep a) →
  run (updateAdmin id f) now w = (r, w') → step_view w' = step_view w.
Proof.
  intros Hf. rewrite run_updateAdmin. case_bool_decide; intros [= <- <-]; [|done].
  unfold step_view. simpl. rewrite <-list_fmap_compose. apply list_fmap_ext. intros _ a _. simpl.
  case_decide; [|done]. by destruct (Hf a) as [-> ->].
Qed.

Lemma effect_code a code code' now w w' ok :
  code a = code' a → effect (Some a) code' now w w' ok → effect (Some a) code now w w' ok.
Proof.
  intros H [[Hv Hk]|(a' & s & [= <-] & Hs)].
  - left. split; [done|]. intros Hok a' [= <-]. rewrite H. by apply Hk.
  - right. exists a, s. by rewrite H.
Qed.

(** Everything an attempt does to the last steps. *)
Lemma attempt_effect op now w r w' :
  run (attempt_prog op) now w = (r, w') →
  effect (target op w) (code_of op) now w w' (is_ok r).
Proof.
  destruct op as [ip input|ip id input|id code|id code|id random]; cbn [attempt_prog]; intros H.
  - rewrite run_bind in H. destruct (run (login input ip) now w) as [r1 w1] eqn:E1.
    apply login_effect in E1. destruct r1; by injection H as <- <-.
  - unfold password_change, findAdminById in H. rewrite run_bind, run_call in H. cbn [fst snd] in H.
    cbn [target code_of]. destruct (if bool_decide (id = "") then None else _) as [a|].
    + by apply checkPasswordChange_effect in H.
    + injection H as <- <-. apply effect_none; auto.
  - unfold enableTotp, findFirstAdmin in H. rewrite run_bind, run_call in H. cbn [fst snd] in H.
    cbn [target code_of]. destruct (js_find _ _) as [a|] eqn:Ea; [|injection H as <- <-; apply effect_none; auto].
    apply js_find_id in Ea as <-. unfold checked_with.
    destruct (totpSecret a) as [[|c secret]|] eqn:Es; try (injection H as <- <-; apply effect_none; auto).
    destruct (totpEnabled a); [injection H as <- <-; apply effect_none; auto|].
    eapply effect_code; [|eapply spend_then_write; [|exact H]; done].
    unfold code_of, checked_with. by rewrite Es.
  - unfold disableTotp, findFirstAdmin in H. rewrite run_bind, run_call in H. cbn [fst snd] in H.
    cbn [target code_of]. destruct (js_find _ _) as [a|] eqn:Ea; [|injection H as <- <-; apply effect_none; auto].
    apply js_find_id in Ea as <-. unfold checked_with.
    destruct (totpEnabled a) eqn:Eon; [|injection H as <- <-; apply effect_none; auto].
    destruct (totpSecret a) as [[|c secret]|] eqn:Es; try (injection H as <- <-; apply effect_none; auto).
    eapply effect_code; [|eapply spend_then_write; [|exact H]; done].
    unfold code_of, checked_with. by rewrite Es, Eon.
  - rewrite run_bind in H. left. split; [|done]. unfold setupTotp, findFirstAdmin in H.
    rewrite run_bind, run_call in H. cbn [fst snd] in H.
    destruct (js_find _ _) as [a|]; [|by injection H as <- <-].
    destruct (totpEnabled a); [by injection H as <- <-|]. rewrite run_bind in H.
    destruct (run (updateAdmin _ _) now w) as [r1 w1] eqn:E1. apply run_update_keep in E1; [|done].
    by destruct r1; injection H as <- <-.
Qed.

(** ** Codes are spent once *)
Definition at_least (id : string) (s : Z) (w : auth_world) : Prop :=
  ∀ last, (id, last) ∈ step_view w → ∃ l, last = Some l ∧ s <= l.

Lemma target_in op w a : target op w = Some a → (a_id a, totpLastUsedStep a) ∈ step_view w.
Proof.
  intros H. apply (list_elem_of_fmap_2 (λ a, (a_id a, totpLastUsedStep a))).
  destruct op; simpl in H; try (by apply js_find_elem in H).
  case_bool_decide; [done|]. by apply js_find_elem in H.
Qed.

Lemma elem_of_write_view id s v id' last :
  (id', last) ∈ write_view id s v → (id' = id ∧ last = Some s) ∨ (id' ≠ id ∧ (id', last) ∈ v).
Proof.
  unfold write_view. intros ([id0 last0] & E & Hin)%list_elem_of_fmap. simpl in E.
  case_decide; simplify_eq; naive_solver.
Qed.

Lemma attempts_at_least id s ops w : at_least id s w → at_least id s (attempts w ops).
Proof.
  revert w. induction ops as [|[now op] ops IH]; intros w Hw; [done|]. apply IH. simpl.
  destruct (run (attempt_prog op) now w) as [r w'] eqn:E. apply attempt_effect in E. simpl.
  unfold at_least. destruct E as [[-> _]|(a & s' & Ht & _ & Hpast & ->)]; [done|].
  intros last [[-> ->]|[_ Hin]]%elem_of_write_view; [|by apply Hw].
  exists s'. split; [done|]. destruct (Hw _ (target_in _ _ _ Ht)) as (l & El & Hl).
  rewrite El in Hpast. simpl in Hpast. lia.
Qed.

(** An accepted code's step is past the last one and becomes it. *)
Lemma accepts_step w now op id s : accepts w now op id s →
  at_least id s (run (attempt_prog op) now w).2 ∧
  ∃ last, (id, last) ∈ step_view w ∧ step_past s last.
Proof.
  intros (Hr & a & Ht & <- & Hs). unfold step_of in Hs.
  destruct (run (attempt_prog op) now w) as [r w'] eqn:E. simpl in Hr. subst r.
  apply attempt_effect in E as [[_ Hno]|(a' & s' & Ht' & Hs' & Hpast & Hv)].
  - rewrite (Hno I a Ht) in Hs. done.
  - rewrite Ht in Ht'. injection Ht' as <-. rewrite Hs in Hs'. injection Hs' as <-.
    split; [|exists (totpLastUsedStep a); split; [by apply target_in in Ht|done]].
    unfold at_least. simpl. rewrite Hv.
    intros last [[_ ->]|[? _]]%elem_of_write_view; [|done]. exists s. split; [done|lia].
Qed.

(** C26. One attempt after another, of whatever kind, over whatever time: two
    codes accepted for the same admin stand for two different steps, the later
    accepted one for the later step.  So no code is taken twice, and the code
    that turned the second factor on cannot then sign in. *)
Theorem codes_spent_once w now1 op1 ops now2 op2 id s1 s2 :
  let w1 := (run (attempt_prog op1) now1 w).2 in
  accepts w now1 op1 id s1 → accepts (attempts w1 ops) now2 op2 id s2 → s1 < s2.
Proof.
  intros w1 [H1 _]%accepts_step (_ & last & Hin & Hpast)%accepts_step.
  apply (attempts_at_least _ _ ops) in H1. destruct (H1 _ Hin) as (l & -> & Hl). simpl in Hpast. lia.
Qed.

(** Two sign-ins with the same code, sent together: each reads the admin
    before the other has recorded its step, and both are let in. *)
Theorem code_replayed_in_parallel a ip input secret s now :
  a_username a = in_username input → a_deleted a = false →
  compare (in_password input) (a_passwordHash a) = true →
  totpEnabled a = true → totpSecret a = Some secret → secret ≠ "" →
  truthy (in_totpCode input) = true →
  verifyTotpStep hmac_sha1 secret (default "" (in_totpCode input)) now 1 = Ok (Some s) →
  step_past s (totpLastUsedStep a) →
  let both := [login input ip; login input ip] in
  let schedule := replicate 2 (0%nat, now) ++ replicate 2 (1%nat, now) ++
                  replicate 3 (0%nat, now) ++ replicate 3 (1%nat, now) in
  (pool_run (both, World ∅ [a]) schedule).1 = [Ret a; Ret a].
Proof.
  intros Hu Hd Hpw Hon Hsec Hne Hcode Hv Hpast both schedule.
  assert (Hstep : step_refused (Some s) (totpLastUsedStep a) = false).
  { simpl. destruct (totpLastUsedStep a); simpl in Hpast; [by apply Z.leb_gt|done]. }
  set (p0 := login input ip) in both.
  set (p2 := prog_bind (secondFactor a (in_totpCode input) ip (in_username input))
               (λ _, await_ clearFailures ip (in_username input); Ret a)).
  assert (H1 : prog_steps 2 p0 now (World ∅ [a]) = (p2, World ∅ [a])).
  { unfold p0, login. simpl. unfold redis_at. simpl. rewrite lookup_empty. simpl.
    rewrite bool_decide_true by done. rewrite Hd. simpl. by rewrite Hpw. }
  assert (H2 : ∀ w, a_id a ∈ a_id <$> admins w → prog_steps 3 p2 now w =
    (Ret a, World (delete (FAIL_KEY ip (in_username input)) (redis w))
      ((λ b, if decide (a_id b = a_id a) then set_step s b else b) <$> admins w))).
  { intros w Hin. unfold p2, secondFactor. rewrite Hsec, Hon, bool_decide_true by done. simpl andb.
    cbv iota. rewrite Hcode. simpl. rewrite Hv, Hstep. simpl. by rewrite bool_decide_true. }
  unfold schedule, both. rewrite !pool_run_app.
  rewrite (pool_run_replicate _ _ 0 p0) with (2 := H1) by done. simpl insert.
  rewrite (pool_run_replicate _ _ 1 p0) with (2 := H1) by done. simpl insert.
  erewrite (pool_run_replicate _ _ 0 p2); [|done|apply H2; by left]. simpl insert.
  erewrite (pool_run_replicate _ _ 1 p2); [done|done|apply H2].
  simpl. rewrite decide_True by done. by left.
Qed.

(** ** The lock *)
Definition key_holds (key : string) (n expires : Z) (w : auth_world) : Prop :=
  redis w !! key = Some (Counter n (Some expires)).

Lemma redis_at_holds key n e now w :
  key_holds key n e w → redis_at now key w = if now <? e then Some (Counter n (Some e)) else None.
Proof. unfold key_holds, redis_at. by intros ->. Qed.

Lemma run_check_lock key now w :
  run (check_lock key) now w =
  (match redis_at now key w with
   | Some (Counter n e) =>
       if LOGIN_LOCKOUT_FAILURES <=? n
       then Throw (AccountLockedError
              (let ttl := match e with None => -1 | Some t => t - now end in
               if 0 <? ttl then ttl else 60))
       else Ok tt
   | None => Ok tt
   end, w).
Proof.
  unfold check_lock. simpl. destruct (redis_at now key w) as [[n e]|] eqn:E; simpl; [|done].
  case_match; [|done]. simpl. by rewrite E.
Qed.

(** The world after one more failure. *)
Definition failed_at (key : string) (now : Z) (w : auth_world) : auth_world :=
  let '(n, e) := match redis_at now key w with
                 | None => (1, Some (now + LOGIN_LOCKOUT_WINDOW_MIN * 60))
                 | Some c => (c_value c + 1, c_expires c) end in
  set_redis key (Counter n (if LOGIN_LOCKOUT_FAILURES <=? n
    then Some (now + LOGIN_LOCKOUT_DURATION_MIN * 60) else e)) w.

Lemma set_redis_twice key c c' w : set_redis key c (set_redis key c' w) = set_redis key c w.
Proof. unfold set_redis. simpl. by rewrite insert_insert_eq. Qed.

Lemma run_redis_expire key s now n e w :
  live now (Counter n e) = true →
  run (redis_expire key s) now (set_redis key (Counter n e) w) =
  (Ok tt, set_redis key (Counter n (Some (now + s))) w).
Proof.
  intros Hl. unfold redis_expire, redis_at. rewrite run_call. cbn [fst snd].
  unfold set_redis at 1. cbn [redis]. rewrite lookup_insert_eq. cbn [mbind option_bind]. rewrite Hl.
  cbn [c_value]. by rewrite set_redis_twice.
Qed.

Lemma redis_at_live now key w c : redis_at now key w = Some c → live now c = true.
Proof.
  unfold redis_at. destruct (redis w !! key) as [c'|]; simpl; [|done].
  destruct (live now c') eqn:E; [|done]. by intros [= <-].
Qed.

Lemma run_count_failure key now w :
  1 <= LOGIN_LOCKOUT_WINDOW_MIN →
  (∀ c, redis_at now key w = Some c → 1 <= c_value c) →
  run (count_failure key) now w =
  (Ok (match redis_at now key w with None => 1 | Some c => c_value c + 1 end =? LOGIN_LOCKOUT_FAILURES),
   failed_at key now w).
Proof.
  intros HW Hpos. unfold count_failure, failed_at. rewrite run_bind. unfold redis_incr. rewrite run_call.
  cbn [fst snd]. destruct (redis_at now key w) as [c|] eqn:E; cbn [c_value c_expires].
  - specialize (Hpos c eq_refl). apply redis_at_live in E.
    destruct (Z.eqb_spec (c_value c + 1) 1); [lia|]. cbn [prog_bind]. rewrite run_bind.
    destruct (_ <=? _); [rewrite run_redis_expire by (by destruct c)|]; done.
  - simpl (1 =? 1). cbv iota. rewrite run_bind, run_redis_expire by done. rewrite run_bind.
    destruct (_ <=? _); [rewrite run_redis_expire by (simpl; apply Z.ltb_lt; lia)|]; done.
Qed.

(** The password is not that of the admin with this name. *)
Definition wrong_password (input : LoginInput) (w : auth_world) : Prop :=
  ∀ a, js_find (λ a, bool_decide (a_username a = in_username input) && negb (a_deleted a)) (admins w)
       = Some a → compare (in_password input) (a_passwordHash a) = false.

Lemma run_login_wrong ip input now w :
  let key := FAIL_KEY ip (in_username input) in
  1 <= LOGIN_LOCKOUT_WINDOW_MIN → wrong_password input w →
  (∀ c, redis_at now key w = Some c → 1 <= c_value c < LOGIN_LOCKOUT_FAILURES) →
  run (login input ip) now w =
  (Throw (InvalidCredentialsError
     (match redis_at now key w with None => 1 | Some c => c_value c + 1 end =? LOGIN_LOCKOUT_FAILURES)),
   failed_at key now w).
Proof.
  intros key HW Hwrong Hc. unfold login, checkLocked. rewrite run_bind, run_check_lock. fold key.
  assert (Hok : ∀ x : auth_error, match redis_at now key w with
      | Some (Counter n e) => if LOGIN_LOCKOUT_FAILURES <=? n then Throw
          (AccountLockedError (let ttl := match e with None => -1 | Some t => t - now end in
               if 0 <? ttl then ttl else 60)) else Ok tt
      | None => Ok tt end = @Ok auth_error unit tt).
  { intros _. destruct (redis_at now key w) as [[n e]|]; [|done]. specialize (Hc _ eq_refl).
    simpl in Hc. by destruct (Z.leb_spec LOGIN_LOCKOUT_FAILURES n); [lia|]. }
  rewrite (Hok TotpRequiredError). clear Hok. rewrite run_bind. unfold findAdminByUsername.
  rewrite run_call. cbn [fst snd].
  assert (Hf : run (fail_with (A := AdminUser) InvalidCredentialsError ip (in_username input)) now w =
    (Throw (InvalidCredentialsError (match redis_at now key w with
       | None => 1 | Some c => c_value c + 1 end =? LOGIN_LOCKOUT_FAILURES)), failed_at key now w)).
  { unfold fail_with, recordFailure. rewrite run_bind, run_count_failure; [done|done|].
    intros c H. apply Hc in H. lia. }
  destruct (js_find _ (admins w)) as [a|] eqn:Ea; [|done]. by rewrite (Hwrong a Ea).
Qed.

(** Sign-ins from one address, one after the other. *)
Fixpoint sign_ins (ip : string) (w : auth_world) (l : list (Z * LoginInput)) :
    list (result auth_error AdminUser) * auth_world :=
  match l with
  | [] => ([], w)
  | (now, input) :: l =>
      let '(r, w) := run (login input ip) now w in
      let '(rs, w) := sign_ins ip w l in (r :: rs, w)
  end.

Lemma sign_ins_cons ip w now input l :
  sign_ins ip w ((now, input) :: l) =
  let '(r, w) := run (login input ip) now w in
  let '(rs, w) := sign_ins ip w l in (r :: rs, w).
Proof. done. Qed.

Definition refusals (from n : Z) : list (result auth_error AdminUser) :=
  (λ i, Throw (InvalidCredentialsError (i =? LOGIN_LOCKOUT_FAILURES))) <$> seqZ from n.

Lemma failed_at_holds key n e now w :
  key_holds key n e w → now < e →
  key_holds key (n + 1) (if LOGIN_LOCKOUT_FAILURES <=? n + 1
    then now + LOGIN_LOCKOUT_DURATION_MIN * 60 else e) (failed_at key now w).
Proof.
  intros Hk Hn. unfold failed_at. rewrite (redis_at_holds _ _ _ _ _ Hk).
  rewrite (proj2 (Z.ltb_lt _ _) Hn). unfold key_holds, set_redis. cbn [redis c_value c_expires].
  rewrite lookup_insert_eq. by case_match.
Qed.

Lemma failed_at_first key now w : redis_at now key w = None →
  key_holds key 1 (now + (if LOGIN_LOCKOUT_FAILURES <=? 1 then LOGIN_LOCKOUT_DURATION_MIN
                          else LOGIN_LOCKOUT_WINDOW_MIN) * 60) (failed_at key now w).
Proof.
  intros Hn. unfold failed_at. rewrite Hn. unfold key_holds, set_redis. cbn [redis].
  rewrite lookup_insert_eq. by case_match.
Qed.

Lemma failed_at_admins key now w : admins (failed_at key now w) = admins w.
Proof. unfold failed_at. by case_match. Qed.

Lemma wrong_failed input key now w : wrong_password input w → wrong_password input (failed_at key now w).
Proof. unfold wrong_password. by rewrite failed_at_admins. Qed.

(** The failures after the first, up to the one that locks. *)
Lemma sign_ins_rest ip u e l k w :
  1 <= LOGIN_LOCKOUT_WINDOW_MIN → 1 <= k →
  l ≠ [] → k + Z.of_nat (length l) = LOGIN_LOCKOUT_FAILURES →
  key_holds (FAIL_KEY ip u) k e w →
  Forall (λ x, in_username x.2 = u ∧ wrong_password x.2 w ∧ x.1 < e) l →
  (sign_ins ip w l).1 = refusals (k + 1) (Z.of_nat (length l)) ∧
  ∃ t, fst <$> last l = Some t ∧
    key_holds (FAIL_KEY ip u) LOGIN_LOCKOUT_FAILURES (t + LOGIN_LOCKOUT_DURATION_MIN * 60)
      (sign_ins ip w l).2.
Proof.
  intros HW. revert k w. induction l as [|[now input] l IH]; intros k w Hk Hne Hlen Hkey Hl; [done|].
  apply Forall_cons in Hl as [(Hu & Hwr & Hnow) Hl]. simpl in Hu, Hwr, Hnow.
  cbn [length] in Hlen |- *. rewrite sign_ins_cons.
  pose proof (redis_at_holds _ _ _ now _ Hkey) as Hat. rewrite (proj2 (Z.ltb_lt _ _) Hnow) in Hat.
  rewrite run_login_wrong; rewrite ?Hu, ?Hat; [|done|done|intros c [= <-]; simpl; lia].
  cbn [c_value]. unfold refusals. rewrite Nat2Z.inj_succ, seqZ_cons by lia. rewrite Z.pred_succ.
  pose proof (failed_at_holds _ _ _ _ _ Hkey Hnow) as Hkey'.
  destruct l as [|x l].
  - rewrite fmap_cons, seqZ_nil by (simpl; lia). split; [done|]. exists now. split; [done|].
    simpl in Hlen. replace (k + 1) with LOGIN_LOCKOUT_FAILURES in Hkey' by lia.
    by rewrite Z.leb_refl in Hkey'.
  - destruct (Z.leb_spec LOGIN_LOCKOUT_FAILURES (k + 1)); [simpl in Hlen; lia|].
    destruct (IH (k + 1) _ ltac:(lia) ltac:(done) ltac:(simpl in *; lia) Hkey') as [E1 (t & Et & Ht)].
    { eapply Forall_impl; [exact Hl|]. simpl. intros y (?&?&?). split_and!; [done| |done].
      by apply wrong_failed. }
    destruct (sign_ins ip (failed_at (FAIL_KEY ip u) now w) (x :: l)) as [rs w'] eqn:E.
    simpl in E1, Ht. cbn [fst snd]. split; [by rewrite fmap_cons, E1|]. exists t. by split.
Qed.

(** [LOGIN_LOCKOUT_FAILURES] wrong passwords for one name from one
    address within the window: each is refused, only the last is reported as
    the one that locked; from then on, for the lock's duration, every sign-in
    with that name (in whatever case) from that address, the right password
    included, is refused with the time left and changes nothing; after that
    the counter is gone. *)
Theorem lockout ip u t0 input0 rest w :
  let key := FAIL_KEY ip u in
  let fails := (t0, input0) :: rest in
  let w' := (sign_ins ip w fails).2 in
  1 <= LOGIN_LOCKOUT_WINDOW_MIN → 1 <= LOGIN_LOCKOUT_DURATION_MIN →
  Z.of_nat (length fails) = LOGIN_LOCKOUT_FAILURES → redis_at t0 key w = None →
  Forall (λ x, in_username x.2 = u ∧ wrong_password x.2 w ∧ t0 <= x.1 < t0 + LOGIN_LOCKOUT_WINDOW_MIN * 60)
    fails →
  (sign_ins ip w fails).1 = refusals 1 LOGIN_LOCKOUT_FAILURES ∧
  ∃ t, fst <$> last fails = Some t ∧
    (∀ input now, js_lower (in_username input) = js_lower u →
       now < t + LOGIN_LOCKOUT_DURATION_MIN * 60 →
       run (login input ip) now w' =
       (Throw (AccountLockedError (t + LOGIN_LOCKOUT_DURATION_MIN * 60 - now)), w')) ∧
    (∀ now, t + LOGIN_LOCKOUT_DURATION_MIN * 60 <= now → redis_at now key w' = None).
Proof.
  intros key fails w' HW HD Hlen Hnone Hall.
  assert (H : (sign_ins ip w fails).1 = refusals 1 LOGIN_LOCKOUT_FAILURES ∧
    ∃ t, fst <$> last fails = Some t ∧
      key_holds key LOGIN_LOCKOUT_FAILURES (t + LOGIN_LOCKOUT_DURATION_MIN * 60) w').
  { apply Forall_cons in Hall as [(Hu & Hwr & _) Hrest]. simpl in Hu, Hwr.
    unfold w', fails in *. rewrite sign_ins_cons. cbn [length] in Hlen.
    rewrite run_login_wrong; rewrite ?Hu; fold key; rewrite ?Hnone; [|done|done|done].
    pose proof (failed_at_first key t0 w Hnone) as Hfirst.
    unfold refusals. rewrite seqZ_cons by lia. destruct rest as [|x rest].
    - simpl in Hlen. rewrite fmap_cons, seqZ_nil by lia. split; [done|]. exists t0. split; [done|].
      rewrite <-Hlen in Hfirst |- *. done.
    - destruct (Z.leb_spec LOGIN_LOCKOUT_FAILURES 1); [simpl in Hlen; lia|].
      destruct (sign_ins_rest ip u (t0 + LOGIN_LOCKOUT_WINDOW_MIN * 60) (x :: rest) 1 (failed_at key t0 w))
        as [E1 (t & Et & Ht)]; [done|done|done|simpl in *; lia|done| |].
      { eapply Forall_impl; [exact Hrest|]. simpl. intros y (?&?&?). split_and!; [done| |lia].
        by apply wrong_failed. }
      destruct (sign_ins ip (failed_at key t0 w) (x :: rest)) as [rs w1] eqn:E. simpl in E1, Ht.
      cbn [fst snd]. split; [|by exists t]. rewrite fmap_cons, E1. unfold refusals. do 3 f_equal. simpl in *. lia. }
  destruct H as [Hrs (t & Ht & Hkey)]. split; [done|]. exists t. split; [done|]. split.
  - intros input now Hu Hnow. unfold login, checkLocked. rewrite run_bind, run_check_lock.
    assert (FAIL_KEY ip (in_username input) = key) as -> by (unfold key, FAIL_KEY; by rewrite Hu).
    rewrite (redis_at_holds _ _ _ _ _ Hkey), (proj2 (Z.ltb_lt _ _) Hnow), Z.leb_refl.
    cbv zeta. by rewrite (proj2 (Z.ltb_lt _ _)) by lia.
  - intros now Hnow. rewrite (redis_at_holds _ _ _ _ _ Hkey). by rewrite (proj2 (Z.ltb_ge _ _)) by lia.
Qed.
End Auth.

(** ** Witnesses *)
Definition toy_compare (pw hash : string) : bool := bool_decide (hash = "h:" +:+ pw).

Definition ann : AdminUser :=
  Admin "1" "ann" "h:pw" false true (Some "32W353YA74IQ") (Some 56666660).

(** The code ann's authenticator shows at a time. *)
Definition ann_code (t : Z) : string :=
  match generateTotp toy_hmac "32W353YA74IQ" t with Ok c => c | Throw _ => "" end.

Definition ann_signs_in (t : Z) : attempt := SignIn "9.9.9.9" (Login "ann" "pw" (Some (ann_code t))).

Lemma codes_spent_once_witness :
  accepts toy_compare toy_hmac 3 10 5 (World ∅ [ann]) 1700000000 (ann_signs_in 1700000000) "1" 56666666 ∧
  56666666 < 56666667.
Proof.
  assert (H1 : accepts toy_compare toy_hmac 3 10 5 (World ∅ [ann]) 1700000000
    (ann_signs_in 1700000000) "1" 56666666).
  { split; [vm_compute; reflexivity|]. exists ann. split_and!; vm_compute; reflexivity. }
  split; [exact H1|].
  apply (codes_spent_once toy_compare toy_hmac 3 10 5 (World ∅ [ann]) 1700000000
    (ann_signs_in 1700000000)
    [(1700000001, ann_signs_in 1700000000); (1700000002, Setup "1" [])] 1700000010
    (Disable "1" (ann_code 1700000010)) "1" 56666666 56666667 H1).
  split; [vm_compute; reflexivity|].
  exists (set_step 56666666 ann). split_and!; vm_compute; reflexivity.
Defined.

Lemma code_replayed_in_parallel_witness :
  (pool_run ([login toy_compare toy_hmac 3 10 5 (Login "ann" "pw" (Some (ann_code 1700000000))) "9.9.9.9";
              login toy_compare toy_hmac 3 10 5 (Login "ann" "pw" (Some (ann_code 1700000000))) "9.9.9.9"],
             World ∅ [ann])
    (replicate 2 (0%nat, 1700000000) ++ replicate 2 (1%nat, 1700000000) ++
     replicate 3 (0%nat, 1700000000) ++ replicate 3 (1%nat, 1700000000))).1 = [Ret ann; Ret ann].
Proof.
  apply (code_replayed_in_parallel toy_compare toy_hmac 3 10 5 ann "9.9.9.9"
    (Login "ann" "pw" (Some (ann_code 1700000000))) "32W353YA74IQ" 56666666 1700000000);
    vm_compute; try reflexivity; discriminate.
Defined.

Lemma lockout_witness :
  let w' := (sign_ins toy_compare toy_hmac 2 10 5 "9.9.9.9" (World ∅ [ann])
    [(100, Login "ann" "x" None); (130, Login "ann" "y" None)]).2 in
  1 <= 10 ∧
  run (login toy_compare toy_hmac 2 10 5 (Login "Ann" "pw" None) "9.9.9.9") 200 w' =
  (Throw (AccountLockedError 230), w').
Proof.
  split; [lia|].
  destruct (lockout toy_compare toy_hmac 2 10 5 "9.9.9.9" "ann" 100 (Login "ann" "x" None)
    [(130, Login "ann" "y" None)] (World ∅ [ann])) as (_ & t & Ht & Hlocked & _); try lia.
  - reflexivity.
  - vm_compute. reflexivity.
  - repeat constructor; simpl; try lia; try reflexivity; intros a [= <-]; reflexivity.
  - injection Ht as <-. apply (Hlocked (Login "Ann" "pw" None) 200); [reflexivity|lia].
Defined.
