(* ===== verification/SecurityGate.v ===== *)
(** The gate in front of every route
    (apps/panel-backend/src/lib/auth/security-gate.ts and lib/util/ip.ts): the
    blacklist with its bounded in-process cache, the honeypot trap, and the
    geo-block of the admin paths.

    The world is the blacklist in Redis (each key with the millisecond it
    expires at), the module's cache, a JavaScript Map, and the counters.
    [isIP], of node:net, is a parameter.  Time is in milliseconds. *)

From S2P Require Import Prelude Js Subnet Calls.

Local Open Scope string_scope.
Local Open Scope list_scope.
Local Open Scope Z_scope.
Local Open Scope prog_scope.

(** ** Addresses *)

(** [trustProxy]: [None] trusts nobody. *)
Definition trustProxyHops (hops : Z) : option (string → Z → bool) :=
  if hops <=? 0 then None else Some (λ _ hop, hop <? hops).

Definition mapped_prefix : string := "::ffff:".

(** [/^::ffff:/i.test(ip)]. *)
Definition is_mapped (ip : string) : bool := starts_with mapped_prefix (js_lower ip).

Definition public_v4 (ip : string) : bool :=
  match mapM js_parseInt (js_split "." ip) with
  | Some [a; b; _; _] =>
      negb ((a =? 10) || (a =? 127) || ((a =? 169) && (b =? 254)) ||
            ((a =? 172) && (16 <=? b) && (b <=? 31)) || ((a =? 192) && (b =? 168)) || (a =? 0) ||
            ((a =? 100) && (64 <=? b) && (b <=? 127)))
  | _ => false
  end.

Definition public_v6 (ip : string) : bool :=
  let lower := js_lower ip in
  negb (bool_decide (lower = "::1") || bool_decide (lower = "::") ||
        starts_with "fe80:" lower || starts_with "fc" lower || starts_with "fd" lower ||
        starts_with "ff" lower ||
        starts_with "2001:db8:" lower || bool_decide (lower = "2001:db8::")).

Section Ip.
Context (isIP : string → Z).

(** The recursion drops seven characters each time; the length of the text is
    fuel enough. *)
Fixpoint public_routable (fuel : nat) (ip : string) : bool :=
  if bool_decide (ip = "") then false else
  let v := isIP ip in
  if v =? 0 then false
  else if (v =? 6) && is_mapped ip then
    match fuel with O => false | S fuel => public_routable fuel (str_drop 7 ip) end
  else if v =? 4 then public_v4 ip
  else public_v6 ip.

Definition isPublicRoutableIp (ip : string) : bool := public_routable (String.length ip) ip.
End Ip.

(** ** Paths *)
Definition HONEYPOT_EXACT : list string :=
  ["/.env"; "/.git/config"; "/.aws/credentials"; "/wp-config.php"; "/xmlrpc.php"; "/phpinfo.php";
   "/server-status"].
Definition HONEYPOT_PREFIXES : list string :=
  ["/wp-admin"; "/wp-login"; "/wordpress"; "/phpmyadmin"; "/.git/"].
Definition PUBLIC_PATH_PREFIXES : list string := ["/sub/"; "/api/internal/"; "/health"; "/healthz"].
Definition PUBLIC_PATH_EXACT : list string := ["/api/auth/status"].

Definition isPublicPath (url : string) : bool :=
  bool_decide (url ∈ PUBLIC_PATH_EXACT) || existsb (λ p, starts_with p url) PUBLIC_PATH_PREFIXES.

Definition isHoneypotPath (url : string) : bool :=
  let path := js_lower (default url (head (js_split "?" url))) in
  bool_decide (path ∈ HONEYPOT_EXACT) || existsb (λ p, starts_with p path) HONEYPOT_PREFIXES.

(** ** The world *)
Record gate_world := Gate {
  blacklist_keys : gmap string Z;
  blacklistCache : list (string * (bool * Z));
  honeypotHits : Z; geoBlockDenials : Z; alerts : list (string * string) }.

Definition NEG_CACHE_TTL_MS : Z := 5000.
Definition BLACKLIST_CACHE_MAX : nat := Z.to_nat 10000.

Definition BLACKLIST_KEY (ip : string) : string := "sec:blacklist:" +:+ ip.

(** [map.delete(k)]. *)
Definition jm_del {V} (k : string) (m : list (string * V)) : list (string * V) :=
  filter (λ kv, kv.1 ≠ k) m.

Definition with_cache (m : list (string * (bool * Z))) (w : gate_world) : gate_world :=
  Gate (blacklist_keys w) m (honeypotHits w) (geoBlockDenials w) (alerts w).

Definition cacheGet (now : Z) (ip : string) (w : gate_world) : option bool * gate_world :=
  match jm_get ip (blacklistCache w) with
  | None => (None, w)
  | Some (hit, expiresAt) =>
      if expiresAt <? now then (None, with_cache (jm_del ip (blacklistCache w)) w) else (Some hit, w)
  end.

Definition evict_oldest {V} (m : list (string * V)) : list (string * V) :=
  match m with [] => [] | (oldest, _) :: _ => jm_del oldest m end.

Definition cacheSet (now : Z) (ip : string) (hit : bool) (ttlMs : Z) (w : gate_world) : gate_world :=
  let m := blacklistCache w in
  let m := if (BLACKLIST_CACHE_MAX <=? length m)%nat then evict_oldest m else m in
  with_cache (jm_set ip (hit, now + ttlMs) m) w.

Definition banned (now : Z) (ip : string) (w : gate_world) : bool :=
  match blacklist_keys w !! BLACKLIST_KEY ip with Some t => now <? t | None => false end.

Inductive gate_error := RedisDown.
Abbreviation gprog := (prog gate_world gate_error).

Definition lookup_cache (ip : string) : gprog (option bool) := call (λ now w, cacheGet now ip w).
Definition store_cache (ip : string) (hit : bool) (ttlMs : Z) : gprog unit :=
  call (λ now w, (tt, cacheSet now ip hit ttlMs w)).
Definition redis_exists (ip : string) : gprog bool := call (λ now w, (banned now ip w, w)).

(** [SET key 1 EX ttl NX]. *)
Definition redis_set_nx (ip : string) (ttlSec : Z) : gprog bool :=
  call (λ now w,
    if banned now ip w then (false, w)
    else (true, Gate (<[BLACKLIST_KEY ip := now + ttlSec * 1000]> (blacklist_keys w))
                     (blacklistCache w) (honeypotHits w) (geoBlockDenials w) (alerts w))).

Definition count_honeypot : gprog unit :=
  call (λ _ w, (tt, Gate (blacklist_keys w) (blacklistCache w) (honeypotHits w + 1)
                         (geoBlockDenials w) (alerts w))).
Definition count_geo_block : gprog unit :=
  call (λ _ w, (tt, Gate (blacklist_keys w) (blacklistCache w) (honeypotHits w)
                         (geoBlockDenials w + 1) (alerts w))).
Definition notify (ip url : string) : gprog unit :=
  call (λ _ w, (tt, Gate (blacklist_keys w) (blacklistCache w) (honeypotHits w)
                         (geoBlockDenials w) (alerts w ++ [(ip, url)]))).

(** ** The hook *)

(** A header: absent, one value, or repeated. *)
Inductive header := Absent | One (v : string) | Many (vs : list string).

Record gate_request := GateRequest {
  rq_ip : string; rq_url : string; cf_ipcountry : header; x_country_code : header }.

(** What the hook does with the request. *)
Inductive verdict :=
  | Forbidden      (* 403, blacklisted *)
  | Fake404        (* the honeypot's answer *)
  | GeoBlocked     (* 403, country *)
  | Pass.          (* on to the route *)

Definition country_of (rq : gate_request) : option string :=
  let raw := match cf_ipcountry rq with Absent => x_country_code rq | h => h end in
  match raw with
  | Absent => None
  | One v => Some (js_upper v)
  | Many vs => js_upper <$> head vs
  end.

(** [/^[A-Z]{2}$/]. *)
Definition two_letters (s : string) : bool :=
  (String.length s =? 2)%nat &&
  forallb (λ c, let n := Ascii.nat_of_ascii c in (65 <=? n) && (n <=? 90))%nat (list_ascii_of_string s).

Definition country_allowed (allowed : list string) (rq : gate_request) : bool :=
  match country_of rq with
  | None => false
  | Some country =>
      bool_decide (country ≠ "") && two_letters country && bool_decide (country ∈ allowed)
  end.

Section Hook.
Context (isIP : string → Z) (HONEYPOT_BLACKLIST_TTL_SEC : Z) (ADMIN_ALLOWED_COUNTRIES : list string).

Definition isBlacklisted (ip : string) : gprog bool :=
  await cached <- lookup_cache ip;
  match cached with
  | Some hit => Ret hit
  | None =>
      await hit <- redis_exists ip;
      await_ store_cache ip hit (if hit : bool then HONEYPOT_BLACKLIST_TTL_SEC * 1000 else NEG_CACHE_TTL_MS);
      Ret hit
  end.

Definition blacklist (ip : string) : gprog bool :=
  await ok <- redis_set_nx ip HONEYPOT_BLACKLIST_TTL_SEC;
  await_ store_cache ip true (HONEYPOT_BLACKLIST_TTL_SEC * 1000);
  Ret ok.

Definition trap (rq : gate_request) : gprog unit :=
  await_ count_honeypot;
  if isPublicRoutableIp isIP (rq_ip rq) then
    await firstHit <- blacklist (rq_ip rq);
    if firstHit : bool then notify (rq_ip rq) (rq_url rq) else Ret tt
  else Ret tt.

Definition geo_block (rq : gate_request) : gprog verdict :=
  if bool_decide (ADMIN_ALLOWED_COUNTRIES = []) then Ret Pass
  else if isPublicPath (rq_url rq) then Ret Pass
  else if negb (starts_with "/api/" (rq_url rq)) then Ret Pass
  else if country_allowed ADMIN_ALLOWED_COUNTRIES rq then Ret Pass
  else await_ count_geo_block; Ret GeoBlocked.

Definition onRequest (rq : gate_request) : gprog verdict :=
  await hit <- isBlacklisted (rq_ip rq);
  if hit : bool then Ret Forbidden
  else if isHoneypotPath (rq_url rq) then await_ trap rq; Ret Fake404
  else geo_block rq.
End Hook.

(** ** Which IPv4 addresses may be blacklisted *)

(** The networks the source's comments name, as (address, prefix length). *)
Definition private_blocks : list (Z * Z) :=
  [(10 * 2 ^ 24, 8); (127 * 2 ^ 24, 8); (169 * 2 ^ 24 + 254 * 2 ^ 16, 16);
   (172 * 2 ^ 24 + 16 * 2 ^ 16, 12); (192 * 2 ^ 24 + 168 * 2 ^ 16, 16); (0, 8);
   (100 * 2 ^ 24 + 64 * 2 ^ 16, 10)].

Definition in_block (n : Z) (block : Z * Z) : Prop :=
  n / 2 ^ (32 - block.2) = block.1 / 2 ^ (32 - block.2).

Lemma parseInt_octet v : 0 <= v < 256 → js_parseInt (pretty v) = Some v.
Proof.
  intros Hv. assert (Forall (λ v, js_parseInt (pretty v) = Some v) (seqZ 0 256)) as H.
  { apply (bool_decide_unpack _). vm_compute. done. }
  rewrite Forall_forall in H. apply H, elem_of_seqZ. lia.
Qed.

Lemma parse_octets vs : Forall (λ v, 0 <= v < 256) vs → mapM js_parseInt (pretty <$> vs) = Some vs.
Proof.
  induction 1 as [|v vs Hv _ IH]; [done|]. rewrite fmap_cons. simpl. rewrite parseInt_octet by done.
  simpl. by rewrite IH.
Qed.

Lemma public_v4_iff n : 0 <= n < 2 ^ 32 →
  public_v4 (intToIp n) = true ↔ Forall (λ b, ¬ in_block n b) private_blocks.
Proof.
  intros Hn. unfold public_v4.
  rewrite intToIp_split by done.
  rewrite parse_octets by (by apply octets_range). rewrite octets_eq by done.
  unfold private_blocks, in_block. rewrite !Forall_cons, Forall_nil. cbn [fst snd].
  set (q := n / 2 ^ 16).
  assert (n / 2 ^ 24 = q / 256) as -> by (unfold q; by rewrite Z.div_div by lia).
  assert (n / 2 ^ (32 - 8) = q / 256) as -> by (unfold q; by rewrite Z.div_div by lia).
  assert (n / 2 ^ (32 - 12) = q / 16) as -> by (unfold q; by rewrite Z.div_div by lia).
  assert (n / 2 ^ (32 - 10) = q / 64) as -> by (unfold q; by rewrite Z.div_div by lia).
  change (n / 2 ^ (32 - 16)) with q.
  assert (0 <= q < 2 ^ 16) by (unfold q; split; [apply Z.div_pos; lia|apply Z.div_lt_upper_bound; lia]).
  rewrite negb_true_iff, !orb_false_iff, !andb_false_iff, !Z.eqb_neq, !Z.leb_gt.
  change (10 * 2 ^ 24 / 2 ^ (32 - 8)) with 10. change (127 * 2 ^ 24 / 2 ^ (32 - 8)) with 127.
  change ((169 * 2 ^ 24 + 254 * 2 ^ 16) / 2 ^ (32 - 16)) with (169 * 256 + 254).
  change ((172 * 2 ^ 24 + 16 * 2 ^ 16) / 2 ^ (32 - 12)) with (172 * 16 + 1).
  change ((192 * 2 ^ 24 + 168 * 2 ^ 16) / 2 ^ (32 - 16)) with (192 * 256 + 168).
  change (0 / 2 ^ (32 - 8)) with 0.
  change ((100 * 2 ^ 24 + 64 * 2 ^ 16) / 2 ^ (32 - 10)) with (100 * 4 + 1).
  clearbody q. split; intros; destruct_and!; split_and!; try done; Z.to_euclidean_division_equations; lia.
Qed.

Lemma js_lower_app a b : js_lower (a +:+ b) = js_lower a +:+ js_lower b.
Proof. induction a as [|c a IH]; [done|]. simpl. unfold String.app in *. by rewrite IH. Qed.

Lemma starts_with_app p s : starts_with p (p +:+ s) = true.
Proof. induction p as [|c p IH]; [done|]. simpl. by rewrite bool_decide_true. Qed.

Section Facts.
Context (isIP : string → Z) (HONEYPOT_BLACKLIST_TTL_SEC : Z) (ADMIN_ALLOWED_COUNTRIES : list string).

(** Of the IPv4 addresses exactly those outside the seven networks
    (private, loopback, link-local, CGNAT, unspecified) may be blacklisted, and
    writing one as an IPv4-mapped IPv6 address, with ::ffff: in any case, makes
    no difference. *)
Theorem public_ipv4_iff n prefix :
  0 <= n < 2 ^ 32 → js_lower prefix = mapped_prefix →
  isIP (intToIp n) = 4 → isIP (prefix +:+ intToIp n) = 6 →
  (isPublicRoutableIp isIP (intToIp n) = true ↔ Forall (λ b, ¬ in_block n b) private_blocks) ∧
  isPublicRoutableIp isIP (prefix +:+ intToIp n) = isPublicRoutableIp isIP (intToIp n).
Proof.
  intros Hn Hp H4 H6.
  assert (Hne : intToIp n ≠ "") by (intros E; pose proof (intToIp_split n Hn) as Hs; by rewrite E in Hs).
  assert (Hv4 : ∀ fuel, public_routable isIP fuel (intToIp n) = public_v4 (intToIp n)).
  { intros fuel. destruct fuel; cbn [public_routable]; rewrite bool_decide_false by done; rewrite H4;
      cbn [Z.eqb Pos.eqb andb]; reflexivity. }
  destruct prefix as [|c1 [|c2 [|c3 [|c4 [|c5 [|c6 [|c7 [|]]]]]]]]; try done.
  set (p := String c1 _) in *.
  assert (Hm : is_mapped (p +:+ intToIp n) = true)
    by (unfold is_mapped; rewrite js_lower_app, Hp; apply starts_with_app).
  unfold isPublicRoutableIp. rewrite Hv4. split; [by apply public_v4_iff|].
  replace (String.length (p +:+ intToIp n)) with (S (6 + String.length (intToIp n))) by done.
  cbn [public_routable]. rewrite bool_decide_false by done. rewrite H6, Hm. cbn [Z.eqb Pos.eqb andb].
  change (str_drop 7 (p +:+ intToIp n)) with (intToIp n). by rewrite Hv4.
Qed.

(** ** The cache stays small *)
Lemma jm_del_length {V} k (m : list (string * V)) : (length (jm_del k m) ≤ length m)%nat.
Proof. apply length_filter. Qed.

Lemma evict_length {V} (m : list (string * V)) : m ≠ [] → (length (evict_oldest m) < length m)%nat.
Proof.
  destruct m as [|[k v] m]; [done|]. intros _. simpl. unfold jm_del. rewrite filter_cons. simpl.
  rewrite decide_False by auto. pose proof (length_filter (λ kv : string * V, kv.1 ≠ k) m). lia.
Qed.

Lemma jm_set_length {V} (k : string) (v : V) m : (length (jm_set k v m) ≤ S (length m))%nat.
Proof. induction m as [|[k' v'] m IH]; simpl; [lia|]. case_decide; simpl; lia. Qed.

Definition cache_fits (w : gate_world) : Prop := (length (blacklistCache w) ≤ BLACKLIST_CACHE_MAX)%nat.

Lemma cacheSet_fits now ip hit ttl w : cache_fits w → cache_fits (cacheSet now ip hit ttl w).
Proof.
  unfold cache_fits, cacheSet. cbn [with_cache blacklistCache]. intros H. etrans; [apply jm_set_length|].
  destruct (Nat.leb_spec BLACKLIST_CACHE_MAX (length (blacklistCache w))); [|lia].
  pose proof (evict_length (blacklistCache w)) as He.
  assert (0 < BLACKLIST_CACHE_MAX)%nat by (by apply Nat.ltb_lt; vm_compute).
  destruct (blacklistCache w); [cbn [length] in *; lia|].
  specialize (He ltac:(done)). lia.
Qed.

Lemma cacheGet_fits now ip w : cache_fits w → cache_fits (cacheGet now ip w).2.
Proof.
  unfold cache_fits, cacheGet. intros H. destruct (jm_get ip (blacklistCache w)) as [[hit e]|]; [|done].
  case_match; simpl; [|done]. etrans; [apply jm_del_length|done].
Qed.

Definition fits_kept (w w' : gate_world) : Prop := cache_fits w → cache_fits w'.
#[local] Instance fits_kept_preorder : PreOrder fits_kept.
Proof. unfold fits_kept. split; [intros ??; done|]. intros ?????. auto. Qed.

Lemma rg_bind {A B} (p : gprog A) (k : A → gprog B) w :
  rg fits_kept (λ _ _, True) p w → (∀ a w, rg fits_kept (λ _ _, True) (k a) w) →
  rg fits_kept (λ _ _, True) (prog_bind p k) w.
Proof.
  revert w. induction p as [a|e|R f g IH]; intros w; simpl; [auto|done|].
  intros H Hk now w' Hw'. destruct (H now w' Hw') as [H1 H2]. auto.
Qed.

Lemma rg_call_fits {R} (f : Z → gate_world → R * gate_world) w :
  (∀ now w, fits_kept w (f now w).2) → rg fits_kept (λ _ _, True) (call (E := gate_error) f) w.
Proof. intros H now w' Hw'. split; [apply H|done]. Qed.

Lemma onRequest_fits rq w :
  rg fits_kept (λ _ _, True)
    (onRequest isIP HONEYPOT_BLACKLIST_TTL_SEC ADMIN_ALLOWED_COUNTRIES rq) w.
Proof.
  assert (Hget : ∀ ip w, rg fits_kept (λ _ _, True) (lookup_cache ip) w).
  { intros. apply rg_call_fits. intros now w' H. by apply cacheGet_fits. }
  assert (Hset : ∀ ip b t w, rg fits_kept (λ _ _, True) (store_cache ip b t) w).
  { intros. apply rg_call_fits. intros now w' H. by apply cacheSet_fits. }
  assert (Hnx : ∀ ip w, rg fits_kept (λ _ _, True) (redis_set_nx ip HONEYPOT_BLACKLIST_TTL_SEC) w).
  { intros. apply rg_call_fits. intros now w'. unfold fits_kept, cache_fits. by destruct (banned now ip w'). }
  unfold onRequest, isBlacklisted, trap, blacklist, geo_block.
  repeat first
    [ apply rg_bind; [|intros] | apply Hget | apply Hset | apply Hnx
    | apply rg_call_fits; intros ???; done | done | case_match ].
Qed.

(** However many requests from however many addresses run at once, the
    cache never holds more than its ten thousand entries. *)
Theorem cache_bounded rqs w es :
  cache_fits w →
  cache_fits (pool_run (onRequest isIP HONEYPOT_BLACKLIST_TTL_SEC ADMIN_ALLOWED_COUNTRIES <$> rqs, w) es).2.
Proof.
  intros Hw. apply (rg_pool fits_kept (λ _ _, True)); [|done].
  apply Forall_fmap, Forall_forall. intros rq _. apply onRequest_fits.
Qed.

(** ** The trap *)

(** The ban of [ip] stands until [t]: Redis has it, and the cache knows no
    better. *)
Definition ban_holds (ip : string) (t : Z) (w : gate_world) : Prop :=
  blacklist_keys w !! BLACKLIST_KEY ip = Some t ∧
  ∀ e, jm_get ip (blacklistCache w) = Some e → e.1 = true.

Lemma jm_get_del_other {V} k k' (m : list (string * V)) : k ≠ k' → jm_get k (jm_del k' m) = jm_get k m.
Proof.
  intros Hne. unfold jm_del. induction m as [|[k0 v0] m IH]; [done|]. rewrite filter_cons. simpl.
  destruct (decide (k0 ≠ k')) as [|Hn]; simpl; [by rewrite IH|].
  apply dec_stable in Hn as ->. by rewrite decide_False.
Qed.

Lemma jm_get_del {V} k k' (m : list (string * V)) e : jm_get k (jm_del k' m) = Some e → jm_get k m = Some e.
Proof.
  destruct (decide (k = k')) as [->|Hne]; [|by rewrite jm_get_del_other].
  intros H%jm_get_Some_elem. unfold jm_del in H. apply list_elem_of_filter in H as [H _]. done.
Qed.

Lemma BLACKLIST_KEY_inj ip ip' : BLACKLIST_KEY ip = BLACKLIST_KEY ip' → ip = ip'.
Proof. unfold BLACKLIST_KEY. intros E. by apply (inj (String.app "sec:blacklist:")) in E. Qed.

Lemma cacheGet_ban ip t now ip' w : ban_holds ip t w → ban_holds ip t (cacheGet now ip' w).2.
Proof.
  intros [Hk Hc]. unfold cacheGet. destruct (jm_get ip' (blacklistCache w)) as [[hit e]|]; [|done].
  case_match; [|done]. split; [done|]. intros e' He'%jm_get_del. by apply Hc.
Qed.

Lemma cacheSet_ban ip t now ip' hit ttl w :
  (ip' = ip → hit = true) → ban_holds ip t w → ban_holds ip t (cacheSet now ip' hit ttl w).
Proof.
  intros Hip [Hk Hc]. split; [done|]. unfold cacheSet. cbn [with_cache blacklistCache].
  intros e. rewrite jm_get_set. case_decide as Hd; [intros [= <-]; by apply Hip|].
  case_match; [|apply Hc]. intros He. apply Hc. unfold evict_oldest in He.
  destruct (blacklistCache w) as [|[k v] m]; [done|]. by apply jm_get_del in He.
Qed.

(** What the requests of other addresses do: the key of [ip] is left alone, and
    the cache may forget [ip] but learns nothing of it. *)
Definition foreign (ip : string) (w w' : gate_world) : Prop :=
  blacklist_keys w' !! BLACKLIST_KEY ip = blacklist_keys w !! BLACKLIST_KEY ip ∧
  ∀ e, jm_get ip (blacklistCache w') = Some e → jm_get ip (blacklistCache w) = Some e.

(** Every call of the program is such a step. *)
Fixpoint within (ip : string) {A} (p : gprog A) : Prop :=
  match p with
  | Call f k => ∀ now w, foreign ip w (f now w).2 ∧ within ip (k (f now w).1)
  | _ => True
  end.

Lemma within_bind ip {A B} (p : gprog A) (k : A → gprog B) :
  within ip p → (∀ a, within ip (k a)) → within ip (prog_bind p k).
Proof.
  intros Hp Hk. induction p as [a|e|R f g IH]; simpl in *; [apply Hk|done|].
  intros now w. destruct (Hp now w) as [H1 H2]. split; [done|]. by apply IH.
Qed.

Lemma within_call ip {R} (f : Z → gate_world → R * gate_world) :
  (∀ now w, foreign ip w (f now w).2) → within ip (call (E := gate_error) f).
Proof. intros H now w. by split. Qed.

Lemma cacheGet_foreign ip now ip' w : foreign ip w (cacheGet now ip' w).2.
Proof.
  unfold cacheGet. destruct (jm_get ip' (blacklistCache w)) as [[hit e]|]; [|by split].
  case_match; [|by split]. split; [done|]. intros e'. apply jm_get_del.
Qed.

Lemma cacheSet_foreign ip now ip' hit ttl w : ip' ≠ ip → foreign ip w (cacheSet now ip' hit ttl w).
Proof.
  intros Hne. split; [done|]. unfold cacheSet. cbn [with_cache blacklistCache]. intros e. rewrite jm_get_set_ne by done.
  case_match; [|done]. unfold evict_oldest. destruct (blacklistCache w) as [|[k v] m]; [done|]. apply jm_get_del.
Qed.

Abbreviation gate := (onRequest isIP HONEYPOT_BLACKLIST_TTL_SEC ADMIN_ALLOWED_COUNTRIES).

Lemma gate_within ip rq : rq_ip rq ≠ ip → within ip (gate rq).
Proof.
  intros Hne. unfold onRequest, isBlacklisted, trap, blacklist, geo_block.
  repeat first
    [ done | apply within_bind; [|intros]
    | apply within_call; intros; apply cacheGet_foreign
    | apply within_call; intros; by apply cacheSet_foreign
    | apply within_call; intros; by split
    | apply within_call; intros ? w; destruct (banned _ _ w); [by split|];
        split; [cbn; apply lookup_insert_ne; by intros E%BLACKLIST_KEY_inj|done]
    | case_match ].
Qed.

(** *** While the ban stands *)

(** Each call of the program, made before [t], leaves the ban standing, and its
    answer is one of [Q]. *)
Fixpoint under_ban (ip : string) (t : Z) (Q : verdict → Prop) (p : gprog verdict) : Prop :=
  match p with
  | Ret v => Q v
  | Raise _ => True
  | Call f k => ∀ now w, now < t → ban_holds ip t w → ban_holds ip t (f now w).2 ∧ under_ban ip t Q (k (f now w).1)
  end.

Lemma under_ban_mono ip t (Q Q' : verdict → Prop) p : (∀ v, Q v → Q' v) → under_ban ip t Q p → under_ban ip t Q' p.
Proof. intros HQ. induction p as [v|e|R f k IH]; cbn; [apply HQ|done|]. intros H now w Hn Hb. destruct (H now w Hn Hb). auto. Qed.

Lemma foreign_ban ip t w w' : foreign ip w w' → ban_holds ip t w → ban_holds ip t w'.
Proof. intros [H1 H2] [H3 H4]. split; [by rewrite H1|]. intros e He. by apply H4, H2. Qed.

Lemma within_ban ip t p : within ip p → under_ban ip t (λ _, True) p.
Proof.
  induction p as [v|e|R f k IH]; cbn; [done|done|]. intros H now w _ Hb. destruct (H now w) as [H1 H2].
  split; [by eapply foreign_ban|]. by apply IH.
Qed.

Lemma banned_true ip t now w : now < t → ban_holds ip t w → banned now ip w = true.
Proof. intros Hn [Hk _]. unfold banned. rewrite Hk. by apply Z.ltb_lt. Qed.

(** The banned address asks: the answer is 403, from the cache or from Redis. *)
Lemma gate_under_ban t rq : under_ban (rq_ip rq) t (λ v, v = Forbidden) (gate rq).
Proof.
  intros now w Hn Hb. cbn. pose proof (cacheGet_ban _ t now (rq_ip rq) w Hb) as Hb'.
  assert (∀ hit, (cacheGet now (rq_ip rq) w).1 = Some hit → hit = true) as Hhit.
  { intros hit. unfold cacheGet. destruct Hb as [_ Hc]. destruct (jm_get _ _) as [[h e]|]; [|done].
    case_match; [done|]. intros [= <-]. by apply (Hc (h, e)). }
  split; [done|]. destruct (cacheGet now (rq_ip rq) w).1 as [hit|]; [by rewrite (Hhit hit eq_refl)|].
  cbn. intros now2 w2 Hn2 Hb2. split; [done|]. rewrite (banned_true _ _ _ _ Hn2 Hb2).
  intros now3 w3 Hn3 Hb3. split; [|done]. by apply cacheSet_ban.
Qed.

Lemma under_ban_pool ip t (Q : nat → verdict → Prop) ps w es :
  (∀ i p, ps !! i = Some p → under_ban ip t (Q i) p) → ban_holds ip t w → Forall (λ e, e.2 < t) es →
  ∀ i v, (pool_run (ps, w) es).1 !! i = Some (Ret v) → Q i v.
Proof.
  revert ps w. induction es as [|[j now] es IH]; intros ps w Hps Hw Hes i v Hi; [by apply (Hps i (Ret v))|].
  apply Forall_cons in Hes as [Hnow Hes]. unfold pool_run in Hi. simpl in Hi. destruct (ps !! j) as [p|] eqn:Hj; [|by eapply IH].
  specialize (Hps j p Hj) as Hp.
  assert (ban_holds ip t (prog_step p now w).2 ∧ under_ban ip t (Q j) (prog_step p now w).1) as [Hw' Hp'].
  { destruct p as [a|e|R f k]; [done|done|]. simpl. destruct (Hp now w Hnow Hw). by destruct (f now w). }
  destruct (prog_step p now w) as [p' w']. apply (IH (<[j:=p']> ps) w'); [|done..].
  intros i' q. destruct (decide (i' = j)) as [->|Hne]; [|rewrite list_lookup_insert_ne by done; apply Hps].
  rewrite list_lookup_insert_eq by (by eapply lookup_lt_Some). by intros [= <-].
Qed.

(** *** Until the trap has answered *)

(** The program with the assertion that holds between its calls, each of which
    survives what other addresses do. *)
Fixpoint outline (ip : string) (T : Z → Prop) (P : gate_world → Prop) (Q : verdict → gate_world → Prop) (p : gprog verdict) : Prop :=
  match p with
  | Ret v => ∀ w, P w → Q v w
  | Raise _ => True
  | @Call _ _ _ R f k => ∃ M : R → gate_world → Prop,
      (∀ r w w', foreign ip w w' → M r w → M r w') ∧
      (∀ now w, T now → P w → M (f now w).1 (f now w).2) ∧
      ∀ r, outline ip T (M r) Q (k r)
  end.

Definition unbanned (ip : string) (from : Z) (w : gate_world) : Prop :=
  ∀ t, blacklist_keys w !! BLACKLIST_KEY ip = Some t → t <= from.

Definition ban_from (ip : string) (till : Z) (w : gate_world) : Prop := ∃ t, till <= t ∧ ban_holds ip t w.

Lemma foreign_unbanned ip from w w' : foreign ip w w' → unbanned ip from w → unbanned ip from w'.
Proof. intros [H _] Hu t. rewrite H. apply Hu. Qed.

Lemma outline_ret ip T (P : gate_world → Prop) (Q : verdict → gate_world → Prop) v :
  (∀ w, Q v w) → outline ip T P Q (Ret v).
Proof. intros H w _. apply H. Qed.

Section Trapped.
Context (rq : gate_request) (from : Z).
Hypothesis public : isPublicRoutableIp isIP (rq_ip rq) = true.
Abbreviation ip := (rq_ip rq).
Abbreviation till := (from + HONEYPOT_BLACKLIST_TTL_SEC * 1000).
Abbreviation T := (λ now, from <= now ∧ now < till).
Abbreviation Q := (λ v w, v = Fake404 → ban_from ip till w).

Lemma geo_outline P : outline ip T P Q (geo_block ADMIN_ALLOWED_COUNTRIES rq).
Proof.
  unfold geo_block. repeat (case_match; [by apply outline_ret|]).
  exists (λ _ _, True). split; [done|]. split; [done|]. intros []. by apply outline_ret.
Qed.

Lemma set_outline : outline ip T (unbanned ip from) Q
  (await_ (await firstHit <- blacklist HONEYPOT_BLACKLIST_TTL_SEC ip;
           if firstHit : bool then notify ip (rq_url rq) else Ret tt); Ret Fake404).
Proof.
  exists (λ _ w, ∃ t, till <= t ∧ blacklist_keys w !! BLACKLIST_KEY ip = Some t). split.
  { intros r w w' [H _] (t & Ht & E). exists t. by rewrite H. }
  split.
  { intros now w [Hn1 Hn2] Hu. assert (banned now ip w = false) as ->.
    { unfold banned. destruct (blacklist_keys w !! BLACKLIST_KEY ip) as [t|] eqn:E; [|done]. specialize (Hu t E). apply Z.ltb_ge. lia. }
    exists (now + HONEYPOT_BLACKLIST_TTL_SEC * 1000). cbn. split; [lia|]. apply lookup_insert_eq. }
  intros ok. exists (λ _ w, ban_from ip till w). split.
  { intros r w w' H (t & Ht & Hb). exists t. split; [done|]. by eapply foreign_ban. }
  split.
  { intros now w _ (t & Ht & E). exists t. split; [done|]. split; [done|]. unfold cacheSet. cbn.
    intros e. rewrite jm_get_set_eq. by intros [= <-]. }
  intros []. cbn. destruct ok; [|by intros w Hw _].
  exists (λ _ w, ban_from ip till w). split.
  { intros r w w' H (t & Ht & Hb). exists t. split; [done|]. by eapply foreign_ban. }
  split; [by intros now w _ (t & Ht & [? ?]); exists t|]. by intros [] w Hw _.
Qed.

Lemma gate_outline : outline ip T (unbanned ip from) Q (gate rq).
Proof.
  assert (∀ hit : bool, outline ip T (unbanned ip from) Q
    (if hit then Ret Forbidden
     else if isHoneypotPath (rq_url rq) then await_ trap isIP HONEYPOT_BLACKLIST_TTL_SEC rq; Ret Fake404
     else geo_block ADMIN_ALLOWED_COUNTRIES rq)) as Hk.
  { intros [|]; [by apply outline_ret|]. case_match; [|apply geo_outline].
    exists (λ _ w, unbanned ip from w). split; [intros []; apply foreign_unbanned|]. split; [by intros now w _ Hu|].
    intros []. cbn [prog_bind call]. rewrite public. apply set_outline. }
  exists (λ _ w, unbanned ip from w). split; [intros r; apply foreign_unbanned|]. split.
  { intros now w _ Hu. eapply foreign_unbanned; [apply cacheGet_foreign|done]. }
  intros [hit|]; [apply Hk|].
  exists (λ _ w, unbanned ip from w). split; [intros r; apply foreign_unbanned|]. split; [by intros now w _ Hu|]. intros hit.
  exists (λ _ w, unbanned ip from w). split; [intros r; apply foreign_unbanned|]. split; [by intros now w _ Hu|]. intros []. apply Hk.
Qed.

(** The pool until then: the trapped request runs, those of other addresses too,
    the others of its own have not begun. *)
Lemma pool_until k (rqs : list gate_request) ps P w es :
  (∀ i p, ps !! i = Some p → i ≠ k → ∃ q, rqs !! i = Some q ∧ (rq_ip q ≠ ip ∧ within ip p ∨ rq_ip q = ip ∧ p = gate q)) →
  (∃ p, ps !! k = Some p ∧ outline ip T P Q p) → (∀ w w', foreign ip w w' → P w → P w') → P w →
  Forall (λ e, T e.2) es →
  (∀ i now q, (i, now) ∈ es → rqs !! i = Some q → rq_ip q = ip → i = k) →
  let '(ps', w') := pool_run (ps, w) es in
  (∀ i p, ps' !! i = Some p → i ≠ k → ∃ q, rqs !! i = Some q ∧ (rq_ip q ≠ ip ∧ within ip p ∨ rq_ip q = ip ∧ p = gate q)) ∧
  (ps' !! k = Some (Ret Fake404) → ban_from ip till w').
Proof.
  revert ps P w. induction es as [|[j now] es IH]; intros ps P w Hps (p & Hk & Ho) HP Hw Hes Hown.
  { cbn. split; [done|]. rewrite Hk. intros [= ->]. by apply Ho. }
  apply Forall_cons in Hes as [Hnow Hes]. unfold pool_run. cbn [foldl pool_step fst snd]. fold (pool_run (A := verdict) (W := gate_world) (E := gate_error)).
  assert (∀ i now q, (i, now) ∈ es → rqs !! i = Some q → rq_ip q = ip → i = k) as Hown' by (intros; eapply Hown; [by right|done|done]).
  destruct (decide (j = k)) as [->|Hjk].
  - rewrite Hk. assert (∃ P', (∀ w w', foreign ip w w' → P' w → P' w') ∧ P' (prog_step p now w).2 ∧
      outline ip T P' Q (prog_step p now w).1) as (P' & HP' & Hw' & Ho').
    { destruct p as [v|e|R f g]; [by exists P|by exists P|]. destruct Ho as (M & HM & Hs & Hg). cbn.
      exists (M (f now w).1). specialize (Hs now w Hnow Hw). specialize (Hg (f now w).1). specialize (HM (f now w).1). by destruct (f now w). }
    destruct (prog_step p now w) as [p' w']. apply (IH _ P' w'); [|eexists; split; [|exact Ho']|done..].
    + intros i q Hi Hne. rewrite list_lookup_insert_ne in Hi by done. by apply Hps.
    + apply list_lookup_insert_eq. by eapply lookup_lt_Some.
  - destruct (ps !! j) as [pj|] eqn:Hj; [|by apply (IH ps P w); try done; exists p].
    destruct (Hps j pj Hj Hjk) as (q & Hq & [[Hne Hin]|[Heq _]]); [|destruct Hjk; eapply Hown; [by left|done|done]].
    assert (foreign ip w (prog_step pj now w).2 ∧ within ip (prog_step pj now w).1) as [Hf Hin'].
    { destruct pj as [v|e|R f g]; [by split|by split|]. cbn. destruct (Hin now w). by destruct (f now w). }
    destruct (prog_step pj now w) as [p' w']. apply (IH _ P w'); [|exists p; split; [by rewrite list_lookup_insert_ne|done]|done|by eapply HP|done|done].
    intros i r Hi Hik. destruct (decide (i = j)) as [->|Hij].
    + rewrite list_lookup_insert_eq in Hi by (by eapply lookup_lt_Some). injection Hi as <-. exists q. auto.
    + rewrite list_lookup_insert_ne in Hi by done. by apply Hps.
Qed.
End Trapped.

(** C34. A public address that steps into the trap is shut out.  However the
    requests of all addresses overlap, call by call, and however often the cache
    drops or forgets it: from the moment the trap has answered until the
    blacklist time is over, every request of that address is answered 403,
    provided none of its others was already under way by then. *)
Theorem trap_blocks (rqs : list gate_request) k rq w from es es' :
  rqs !! k = Some rq → isPublicRoutableIp isIP (rq_ip rq) = true → unbanned (rq_ip rq) from w →
  Forall (λ e, from <= e.2 ∧ e.2 < from + HONEYPOT_BLACKLIST_TTL_SEC * 1000) (es ++ es') →
  (∀ i now q, (i, now) ∈ es → rqs !! i = Some q → rq_ip q = rq_ip rq → i = k) →
  (pool_run (gate <$> rqs, w) es).1 !! k = Some (Ret Fake404) →
  ∀ i q v, i ≠ k → rqs !! i = Some q → rq_ip q = rq_ip rq →
  (pool_run (gate <$> rqs, w) (es ++ es')).1 !! i = Some (Ret v) → v = Forbidden.
Proof.
  intros Hk Hpub Hu Hts Hown Htrap i q v Hik Hq Hip. apply Forall_app in Hts as [Hes Hes']. rewrite pool_run_app.
  pose proof (pool_until rq from k rqs (gate <$> rqs) (unbanned (rq_ip rq) from) w es) as H.
  destruct (pool_run (gate <$> rqs, w) es) as [ps w']. destruct H as [Hps Hban]; [| | |done..|].
  - intros j p Hj Hjk. apply list_lookup_fmap_Some in Hj as (q' & -> & Hq'). exists q'. split; [done|].
    destruct (decide (rq_ip q' = rq_ip rq)) as [E|E]; [by right|left]. split; [done|]. by apply gate_within.
  - eexists. split; [rewrite list_lookup_fmap, Hk; done|]. by apply gate_outline.
  - apply foreign_unbanned.
  - cbn in Htrap. destruct (Hban Htrap) as (t & Ht & Hb).
    intros Hv. apply (under_ban_pool (rq_ip rq) t (λ j v, j ≠ k → ∀ q, rqs !! j = Some q → rq_ip q = rq_ip rq → v = Forbidden) ps w' es') with (i := i) (q := q); try done.
    + intros j p Hj. destruct (decide (j = k)) as [->|Hjk]; [rewrite Htrap in Hj; injection Hj as <-; by intros []|].
      destruct (Hps j p Hj Hjk) as (q' & Hq' & [[Hne Hin]|[Heq ->]]).
      * apply (under_ban_mono _ _ (λ _, True)); [|by apply within_ban]. intros v' _ _ q'' E. rewrite Hq' in E. by injection E as <-.
      * rewrite <-Heq. apply (under_ban_mono _ _ (λ v, v = Forbidden)); [by intros v' Hv' _ _ _ _|]. apply gate_under_ban.
    + eapply Forall_impl; [exact Hes'|]. cbn. lia.
Qed.
End Facts.

(** ** Witnesses *)

(** A stand-in for [isIP] that is right on the addresses below. *)
Definition toy_isIP (s : string) : Z :=
  match mapM js_parseInt (js_split "." s) with
  | Some [_; _; _; _] => 4
  | _ => if str_has ":" s then 6 else 0
  end.

Lemma public_ipv4_iff_witness :
  toy_isIP (intToIp 167772161) = 4 ∧ toy_isIP ("::FFFF:" +:+ intToIp 167772161) = 6 ∧
  isPublicRoutableIp toy_isIP ("::FFFF:" +:+ intToIp 167772161) =
  isPublicRoutableIp toy_isIP (intToIp 167772161).
Proof.
  split; [vm_compute; reflexivity|]. split; [vm_compute; reflexivity|].
  destruct (public_ipv4_iff toy_isIP 167772161 "::FFFF:") as [_ H];
    [lia|reflexivity|vm_compute; reflexivity|vm_compute; reflexivity|exact H].
Defined.

Example public_address : isPublicRoutableIp toy_isIP "8.8.8.8" = true.
Proof. vm_compute. reflexivity. Qed.

(** The mapped form is looked for by its shortest spelling only: the same
    private address behind a leading zero group counts as public. *)
Example long_mapped_form_is_public isIP :
  isIP "0::ffff:10.0.0.1" = 6 → isPublicRoutableIp isIP "0::ffff:10.0.0.1" = true.
Proof. intros H. unfold isPublicRoutableIp. cbn -[public_v6 is_mapped]. rewrite H. reflexivity. Qed.

Definition probe (ip url : string) : gate_request := GateRequest ip url Absent Absent.
Definition fresh_gate : gate_world := Gate ∅ [] 0 0 [].

Lemma cache_bounded_witness :
  cache_fits fresh_gate ∧
  cache_fits (pool_run (onRequest toy_isIP 3600 [] <$> [probe "8.8.8.8" "/.env"; probe "9.9.9.9" "/"],
                        fresh_gate) [(0%nat, 1); (1%nat, 2); (0%nat, 3); (0%nat, 4); (1%nat, 5)]).2.
Proof.
  assert (H : cache_fits fresh_gate) by (unfold cache_fits, fresh_gate; simpl; lia).
  split; [exact H|]. exact (cache_bounded toy_isIP 3600 [] _ _ _ H).
Defined.

(** The trap springs while another address asks, and a request that begins
    after it overlaps with that one. *)
Lemma trap_blocks_witness :
  let rqs := [probe "8.8.8.8" "/.ENV?x=1"; probe "9.9.9.9" "/"; probe "8.8.8.8" "/sub/x"] in
  let es := [(0%nat, 1000); (1%nat, 1000); (0%nat, 1001); (0%nat, 1001); (0%nat, 1002); (0%nat, 1003); (0%nat, 1004); (0%nat, 1005)] in
  let es' := [(2%nat, 1006); (1%nat, 1007); (2%nat, 2000000); (2%nat, 3600999)] in
  (pool_run (onRequest toy_isIP 3600 [] <$> rqs, fresh_gate) es).1 !! 0%nat = Some (Ret Fake404) ∧
  ∃ v, (pool_run (onRequest toy_isIP 3600 [] <$> rqs, fresh_gate) (es ++ es')).1 !! 2%nat = Some (Ret v) ∧ v = Forbidden.
Proof.
  intros rqs es es'. assert (H : (pool_run (onRequest toy_isIP 3600 [] <$> rqs, fresh_gate) es).1 !! 0%nat = Some (Ret Fake404))
    by (vm_compute; reflexivity).
  split; [exact H|]. exists Forbidden. split; [vm_compute; reflexivity|].
  apply (trap_blocks toy_isIP 3600 [] rqs 0 (probe "8.8.8.8" "/.ENV?x=1") fresh_gate 1000 es es') with (i := 2%nat) (q := probe "8.8.8.8" "/sub/x");
    [reflexivity|vm_compute; reflexivity|intros t Ht; vm_compute in Ht; discriminate Ht| | |exact H|discriminate|reflexivity|reflexivity|vm_compute; reflexivity].
  - repeat constructor; simpl; lia.
  - intros i now q Hin. repeat (apply elem_of_cons in Hin as [[= -> ->]|Hin]; [try reflexivity; intros [= <-]; discriminate|]).
    by apply not_elem_of_nil in Hin.
Defined.
