(* ===== verification/Awg3Geometry.v ===== *)
(** A node's AmneziaWG 3.1 geometry
    (apps/panel-backend/src/modules/nodes/awg3-geometry.ts): the draw, the
    table of rules it must pass, and how it is stored once.

    Randomness is an interface ([GeometryRandom], the source's own), with the
    range of its answers and the fact that it does not repeat itself forever
    as laws.  Geometry numbers are [Z]; numbers read from strings are rounded
    to doubles, beyond the largest double [infinity] stands for Infinity. *)

From S2P Require Import Prelude Js Calls Draws.

Local Open Scope string_scope.
Local Open Scope list_scope.
Local Open Scope Z_scope.
Local Open Scope prog_scope.

Definition AWG3_MTU : Z := 1376.

(** ** Randomness *)
Class GeometryRandom (G : Type) := {
  rand_int : Z → Z → G → Z * G;        (* uniform in [lo, hi] *)
  rand_bytes : nat → G → list Z * G }.

(** The state after [k] header draws. *)
Definition header_draw `{GeometryRandom G} (s : G) : Z * G := rand_int 16 2147483646 s.
Definition after_headers `{GeometryRandom G} : nat → G → G := after_draws header_draw.

(** What [randomInt] and [randomBytes] promise.  [patience]: of that many
    header draws in a row one is new among at most three old ones. *)
Class RandomLaws (G : Type) `{GeometryRandom G} (patience : nat) := {
  rand_int_range lo hi s : lo <= hi → lo <= (rand_int lo hi s).1 <= hi;
  rand_bytes_length n s : length (rand_bytes n s).1 = n;
  rand_bytes_range n s : Forall (λ b, 0 <= b < 256) (rand_bytes n s).1;
  rand_int_fresh (old : list Z) s : (length old < 4)%nat →
    ∃ k, (k < patience)%nat ∧ (header_draw (after_headers k s)).1 ∉ old }.

(** ** The geometry *)
Record AwgGeometry3 := Geometry {
  g_mtu : Z; g_jc : Z; g_jmin : Z; g_jmax : Z; g_s1 : Z; g_s2 : Z; g_s3 : Z; g_s4 : Z;
  g_h1 : string; g_h2 : string; g_h3 : string; g_h4 : string;
  g_i1 : string; g_i2 : string; g_i3 : string; g_i4 : string; g_i5 : string;
  headerProtectionKey : string;
  contentPaddingAddition : string; rekeyAfterTime : string; rekeyTimeout : string;
  rejectAfterTime : string; keepaliveTimeout : string; maxHandshakeAttempts : string;
  randomTrailers : bool }.

Definition span (lo hi : Z) : string :=
  if lo =? hi then pretty lo else pretty lo +:+ "-" +:+ pretty hi.

(** [n.toString(16)] of a non-negative [n]; [fuel] hex digits at most. *)
Definition hex_char (d : Z) : string :=
  match String.get (Z.to_nat d) "0123456789abcdef" with Some c => String c "" | None => "" end.
Fixpoint to_hex (fuel : nat) (n : Z) : string :=
  match fuel with
  | O => ""
  | S fuel => (if n <? 16 then "" else to_hex fuel (n / 16)) +:+ hex_char (n mod 16)
  end.

(** [b.toString('base64')]. *)
Definition base64_char (d : Z) : ascii :=
  match String.get (Z.to_nat d) "ABCDEFGHIJKLMNOPQRSTUVWXYZabcdefghijklmnopqrstuvwxyz0123456789+/" with
  | Some c => c | None => "="%char end.

Fixpoint base64_chars (b : list Z) : list ascii :=
  match b with
  | x :: y :: z :: b =>
      base64_char (x / 4) :: base64_char (x mod 4 * 16 + y / 16) ::
      base64_char (y mod 16 * 4 + z / 64) :: base64_char (z mod 64) :: base64_chars b
  | [x; y] => [base64_char (x / 4); base64_char (x mod 4 * 16 + y / 16);
               base64_char (y mod 16 * 4); "="%char]
  | [x] => [base64_char (x / 4); base64_char (x mod 4 * 16); "="%char; "="%char]
  | [] => []
  end.
Definition base64 (b : list Z) : string := string_of_list_ascii (base64_chars b).

Section Draw.
Context {G : Type} `{GeometryRandom G}.

Definition randSpan (s : G) (loMin loMax wMin wMax : Z) : string * G :=
  let '(lo, s) := rand_int loMin loMax s in
  let '(w, s) := rand_int wMin wMax s in
  (span lo (lo + w), s).

(** [while (hs.length < 4)]; [fuel] bounds the draws. *)
Definition draw_headers (fuel : nat) (hs : list Z) (s : G) : option (list Z * G) :=
  draw_distinct header_draw 4 fuel hs s.

Definition stun : string :=
  "<b 0x0001><b 0x000c><b 0x2112a442><r 12><b 0x8022><b 0x0008><rc 8>".

Definition dns_decoy (label : Z) : string :=
  "<r 2><b 0x0100><b 0x00010000><b 0x00000000>" +:+
  "<b 0x" +:+ pad_start 2 "0" (to_hex 8 label) +:+ "><rc " +:+ pretty label +:+ ">" +:+
  "<b 0x03636f6d00><b 0x0001><b 0x0001>".

Definition noise_decoy (n : Z) : string := "<r " +:+ pretty n +:+ ">".

Definition decoy_orders (dns noise : string) : list (list string) :=
  [[dns; stun; noise]; [dns; noise; stun]; [stun; dns; noise];
   [stun; noise; dns]; [noise; dns; stun]; [noise; stun; dns]].

Definition drawOnce (fuel : nat) (mtu : Z) (s : G) : option (AwgGeometry3 * G) :=
  '(hs, s) ← draw_headers fuel [] s;
  let '(jc, s) := rand_int 3 10 s in
  let '(jmin, s) := rand_int 40 100 s in
  let '(jw, s) := rand_int 30 200 s in
  let jmax := jmin + jw in
  let s4Max := Z.min 64 (1500 - 32 - mtu - 28) in
  let '(s1, s) := rand_int 12 150 s in
  let '(s2, s) := rand_int 12 150 s in
  let '(s3, s) := rand_int 12 64 s in
  let '(s4, s) := rand_int 12 (Z.max 12 s4Max) s in
  let '(label, s) := rand_int 3 12 s in
  let dns := dns_decoy label in
  let '(n, s) := rand_int 48 220 s in
  let noise := noise_decoy n in
  let '(order, s) := rand_int 0 5 s in
  let '(many, s) := rand_int 1 3 s in
  let decoys := take (Z.to_nat many) (default [] (decoy_orders dns noise !! Z.to_nat order)) in
  let '(key, s) := rand_bytes 32 s in
  let '(cpa, s) := rand_int 16 64 s in
  let '(rekeyAfter, s) := randSpan s 95 115 25 55 in
  let '(rekeyT, s) := randSpan s 4 6 2 4 in
  let '(rejectAfter, s) := randSpan s 200 230 30 60 in
  let '(keepalive, s) := randSpan s 8 12 5 10 in
  let '(maxHs, s) := randSpan s 12 16 4 8 in
  let h i := match hs !! i with Some h => pretty h | None => "undefined" end in
  let decoy i := default "" (decoys !! i) in
  Some (Geometry mtu jc jmin jmax s1 s2 s3 s4
          (h 0%nat) (h 1%nat) (h 2%nat) (h 3%nat)
          (decoy 0%nat) (decoy 1%nat) (decoy 2%nat) "" ""
          (base64 key) (span 1 cpa) rekeyAfter rekeyT rejectAfter keepalive maxHs true, s).
End Draw.

(** ** The table *)
Record Span := mkSpan { lo : Z; hi : Z }.

Definition infinity : Z := 2 ^ 1024.

(** [Number(digits)]. *)
Definition to_number (v : Z) : Z := Z.min (fl_round v) infinity.

(** [/^(\d+)(?:-(\d+))?$/.exec(s.trim())]. *)
Definition parseSpan (s : string) : option Span :=
  match take_digits 10 0 0 (trim_chars (list_ascii_of_string s)) with
  | (_, 0, _) => None
  | (v, _, []) => Some (mkSpan (to_number v) (to_number v))
  | (v, _, "-"%char :: rest) =>
      match take_digits 10 0 0 rest with
      | (_, 0, _) => None
      | (w, _, []) => Some (mkSpan (to_number v) (to_number w))
      | _ => None
      end
  | _ => None
  end.

Definition is_base64_char (c : ascii) : bool :=
  let n := Ascii.nat_of_ascii c in
  ((65 <=? n) && (n <=? 90) || (97 <=? n) && (n <=? 122) || (48 <=? n) && (n <=? 57) ||
   (n =? 43) || (n =? 47))%nat.

(** [/^[A-Za-z0-9+/]{43}=$/]. *)
Definition WG_KEY (s : string) : bool :=
  let l := list_ascii_of_string s in
  (length l =? 44)%nat && forallb is_base64_char (take 43 l) && bool_decide (drop 43 l = ["="%char]).

(** [Buffer.from(s, 'base64').length] of base64 characters and padding. *)
Definition base64_bytes (s : string) : Z :=
  Z.of_nat (length (filter (λ c, is_base64_char c = true) (list_ascii_of_string s))) * 6 / 8.

(** [/^[0-9a-fA-FxX<> rt]*$/]. *)
Definition is_i_char (c : ascii) : bool :=
  let n := Ascii.nat_of_ascii c in
  ((48 <=? n) && (n <=? 57) || (97 <=? n) && (n <=? 102) || (65 <=? n) && (n <=? 70) ||
   (n =? 120) || (n =? 88) || (n =? 60) || (n =? 62) || (n =? 32) || (n =? 114) || (n =? 116))%nat.
Definition I_CHARS (s : string) : bool := forallb is_i_char (list_ascii_of_string s).

Definition NONCE_FLOOR : Z := 12.
Definition U16 : Z := 65535.

Definition is_blank (s : string) : bool := bool_decide (trim_chars (list_ascii_of_string s) = []).

(** [hs.some((a, i) => hs.some((b, j) => j > i && a.lo <= b.hi && b.lo <= a.hi))]. *)
Fixpoint some_overlap (hs : list Span) : bool :=
  match hs with
  | [] => false
  | a :: hs => existsb (λ b, (lo a <=? hi b) && (lo b <=? hi a)) hs || some_overlap hs
  end.

(** [if (b) out.push(id)]. *)
Definition rule (b : bool) (id : string) : list string := if b then [id] else [].

(** The sizes of the four packet classes. *)
Definition class_sizes (g : AwgGeometry3) : list Z :=
  [g_s1 g + 148; g_s2 g + 92; g_s3 g + 64; g_s4 g + 32].

(** The rules on a geometry whose strings parse. *)
Definition span_rules (g : AwgGeometry3) (hs : list Span)
    (cpa rekeyAfter rekeyTimeout rejectAfter keepalive maxHs : Span) : list string :=
  let timing := [rekeyAfter; rekeyTimeout; rejectAfter; keepalive; maxHs] in
  let u16Spans := timing ++ [cpa] in
  let ss := [g_s1 g; g_s2 g; g_s3 g; g_s4 g] in
  rule (negb (WG_KEY (headerProtectionKey g)) || negb (base64_bytes (headerProtectionKey g) =? 32))
    "hpk-required" ++
  rule (existsb (λ s, s <? NONCE_FLOOR) ss) "s-nonce-floor" ++
  rule (existsb (λ v, (v <? 0) || (U16 <? v)) ([g_jc g; g_jmin g; g_jmax g] ++ ss)) "scalar-uint16" ++
  rule (existsb (λ s, (U16 <? lo s) || (U16 <? hi s)) u16Spans) "range-uint16" ++
  rule (existsb (λ s, (lo s <? 0) || (hi s <? lo s)) (u16Spans ++ hs)) "range-order" ++
  rule ((g_mtu g <? 1280) || (1420 <? g_mtu g)) "mtu-range" ++
  rule (1500 <? g_s4 g + 32 + g_mtu g + 28) "s4-mtu-budget" ++
  rule (negb (length (js_uniq (class_sizes g)) =? length (class_sizes g))%nat) "class-sizes-distinct" ++
  rule (g_jmax g <=? g_jmin g) "junk-order" ++
  rule (1000 <? g_jmax g) "junk-ceiling" ++
  rule (existsb (λ s, (lo s <? 16) || (2 ^ 31 <=? hi s)) hs) "header-bounds" ++
  rule (some_overlap hs) "headers-disjoint" ++
  rule (lo cpa <? 1) "content-padding-set" ++
  rule (existsb (λ s, lo s <? 1) timing) "timings-set" ++
  rule (lo rejectAfter <? 180) "reject-floor" ++
  rule (lo rejectAfter <=? hi rekeyAfter) "rekey-before-reject" ++
  rule (lo rejectAfter <=? to_number (hi keepalive + hi rekeyTimeout)) "reject-after-keepalive" ++
  rule (negb (randomTrailers g)) "random-trailers-on" ++
  rule (is_blank (g_i1 g)) "i1-present" ++
  rule (existsb (λ i, negb (I_CHARS i)) [g_i1 g; g_i2 g; g_i3 g; g_i4 g; g_i5 g]) "i-charset".

Definition awg3GeometryViolations (g : AwgGeometry3) : list string :=
  match mapM parseSpan [g_h1 g; g_h2 g; g_h3 g; g_h4 g],
        parseSpan (contentPaddingAddition g), parseSpan (rekeyAfterTime g), parseSpan (rekeyTimeout g),
        parseSpan (rejectAfterTime g), parseSpan (keepaliveTimeout g), parseSpan (maxHandshakeAttempts g)
  with
  | Some hs, Some cpa, Some rekeyAfter, Some rekeyT, Some rejectAfter, Some keepalive, Some maxHs =>
      span_rules g hs cpa rekeyAfter rekeyT rejectAfter keepalive maxHs
  | _, _, _, _, _, _, _ => ["unparsable"]
  end.

(** ** Minting *)
Section Mint.
Context {G : Type} `{GeometryRandom G}.

(** The loop over attempts; [None] while a draw's header loop still runs. *)
Fixpoint mint_loop (attempts fuel : nat) (mtu : Z) (s : G) : option (result string AwgGeometry3 * G) :=
  match attempts with
  | O => Some (Throw ("could not mint a 3.1 geometry for MTU " +:+ pretty mtu), s)
  | S attempts =>
      '(g, s) ← drawOnce fuel mtu s;
      if bool_decide (awg3GeometryViolations g = []) then Some (Ok g, s)
      else mint_loop attempts fuel mtu s
  end.

Definition mintAwg3Geometry (fuel : nat) (mtu : Z) (s : G) : option (result string AwgGeometry3 * G) :=
  mint_loop 100 fuel mtu s.
End Mint.

(** ** Spans print and parse back *)
Lemma drop_ws_id l : Forall (λ c, is_ws c = false) l → drop_ws l = l.
Proof. destruct 1 as [|c l Hc _]; [done|]. simpl. by rewrite Hc. Qed.

Lemma trim_chars_id l : Forall (λ c, is_ws c = false) l → trim_chars l = l.
Proof.
  intros H. unfold trim_chars. rewrite (drop_ws_id l) by done.
  rewrite drop_ws_id by (by apply Forall_reverse). apply reverse_involutive.
Qed.

Lemma digit_not_ws c : is_digit c = true → is_ws c = false.
Proof.
  unfold is_digit, is_ws. intros [H1%Nat.leb_le H2%Nat.leb_le]%andb_true_iff.
  rewrite !orb_false_iff, andb_false_iff, !Nat.leb_gt, !Nat.eqb_neq. lia.
Qed.

Lemma pretty_not_ws n : 0 <= n → Forall (λ c, is_ws c = false) (list_ascii_of_string (pretty n)).
Proof.
  intros Hn. destruct (pretty_Z_digits (S (Z.to_nat n)) n) as [H _]; [lia| |].
  { split; [done|]. rewrite Nat2Z.inj_succ, Z2Nat.id by done.
    pose proof (Z.pow_gt_lin_r 10 n ltac:(lia) Hn).
    pose proof (Z.pow_le_mono_r 10 n (Z.succ n) ltac:(lia) ltac:(lia)). lia. }
  eapply Forall_impl; [exact H|]. apply digit_not_ws.
Qed.

Lemma to_number_small v : 0 <= v < 2 ^ 53 → to_number v = v.
Proof.
  intros Hv. unfold to_number. rewrite fl_round_small by lia. apply Z.min_l. unfold infinity.
  pose proof (Z.pow_le_mono_r 2 53 1024 ltac:(lia) ltac:(lia)). lia.
Qed.

Lemma parseSpan_one n : 0 <= n < 2 ^ 53 → parseSpan (pretty n) = Some (mkSpan n n).
Proof.
  intros Hn. unfold parseSpan. rewrite trim_chars_id by (apply pretty_not_ws; lia).
  rewrite <-(app_nil_r (list_ascii_of_string (pretty n))).
  destruct (take_digits_pretty n []) as (k & Hk & ->); [lia|done|].
  rewrite to_number_small by done. by destruct k.
Qed.

(** A range survives printing and parsing. *)
Lemma parseSpan_span a b : 0 <= a < 2 ^ 53 → 0 <= b < 2 ^ 53 → parseSpan (span a b) = Some (mkSpan a b).
Proof.
  intros Ha Hb. unfold span. destruct (Z.eqb_spec a b) as [->|_]; [by apply parseSpan_one|].
  unfold parseSpan. rewrite !list_ascii_app.
  rewrite trim_chars_id by (repeat apply Forall_app_2; try (apply pretty_not_ws; lia); by repeat constructor).
  simpl app.
  destruct (take_digits_pretty a ("-"%char :: list_ascii_of_string (pretty b))) as (k & Hk & ->);
    [lia|done|].
  rewrite <-(app_nil_r (list_ascii_of_string (pretty b))).
  destruct (take_digits_pretty b []) as (k' & Hk' & ->); [lia|done|].
  rewrite !to_number_small by done. by destruct k, k'.
Qed.

(** ** Keys *)
Lemma base64_char_ok d : 0 <= d < 64 → is_base64_char (base64_char d) = true.
Proof.
  intros Hd. assert (Forall (λ d, is_base64_char (base64_char d) = true) (seqZ 0 64)) as H.
  { repeat constructor. }
  rewrite Forall_forall in H. apply H, elem_of_seqZ. lia.
Qed.

Lemma base64_chars_ok k b : length b = (3 * k + 2)%nat → Forall (λ b, 0 <= b < 256) b →
  ∃ l, base64_chars b = l ++ ["="%char] ∧ length l = (4 * k + 3)%nat ∧
    Forall (λ c, is_base64_char c = true) l.
Proof.
  revert b. induction k as [|k IH]; intros b Hl Hb.
  - destruct b as [|x [|y [|]]]; try (simpl in Hl; lia). apply Forall_cons in Hb as [Hx Hb].
    apply Forall_cons in Hb as [Hy _]. eexists [_; _; _]. simpl. split; [reflexivity|]. split; [done|].
    repeat constructor; apply base64_char_ok.
    + split; [apply Z.div_pos; lia|apply Z.div_lt_upper_bound; lia].
    + pose proof (Z.mod_pos_bound x 4). assert (0 <= y / 16 < 16)
        by (split; [apply Z.div_pos; lia|apply Z.div_lt_upper_bound; lia]). lia.
    + pose proof (Z.mod_pos_bound y 16). lia.
  - destruct b as [|x [|y [|z b]]]; try (simpl in Hl; lia). apply Forall_cons in Hb as [Hx Hb].
    apply Forall_cons in Hb as [Hy Hb]. apply Forall_cons in Hb as [Hz Hb].
    destruct (IH b ltac:(simpl in Hl; lia) Hb) as (l & E & Hll & Hok).
    exists (base64_char (x / 4) :: base64_char (x mod 4 * 16 + y / 16) ::
      base64_char (y mod 16 * 4 + z / 64) :: base64_char (z mod 64) :: l).
    simpl. rewrite E. split; [done|]. split; [simpl; lia|].
    assert (0 <= y / 16 < 16) by (split; [apply Z.div_pos; lia|apply Z.div_lt_upper_bound; lia]).
    assert (0 <= z / 64 < 4) by (split; [apply Z.div_pos; lia|apply Z.div_lt_upper_bound; lia]).
    pose proof (Z.mod_pos_bound x 4). pose proof (Z.mod_pos_bound y 16). pose proof (Z.mod_pos_bound z 64).
    repeat (constructor; [apply base64_char_ok; try lia|]); [|done].
    split; [apply Z.div_pos; lia|apply Z.div_lt_upper_bound; lia].
Qed.

Lemma key_ok b : length b = 32%nat → Forall (λ b, 0 <= b < 256) b →
  WG_KEY (base64 b) = true ∧ base64_bytes (base64 b) = 32.
Proof.
  intros Hl Hb. destruct (base64_chars_ok 10 b Hl Hb) as (l & E & Hll & Hok).
  unfold WG_KEY, base64_bytes, base64. rewrite list_ascii_of_string_of_list_ascii, E.
  rewrite length_app, Hll, take_app_length', drop_app_length' by done. split.
  - simpl. rewrite andb_true_r. apply forallb_forall. intros c Hc.
    rewrite Forall_forall in Hok. apply Hok. by apply list_elem_of_In.
  - rewrite filter_app. assert (filter (λ c, is_base64_char c = true) l = l) as ->.
    { clear E Hll. induction Hok as [|c l Hc _ IH]; [done|]. by rewrite filter_cons, decide_True, IH. }
    rewrite length_app, Hll. done.
Qed.

(** ** A draw passes every rule but one *)
Definition decoy_ok (d : string) : Prop := I_CHARS d = true ∧ is_blank d = false.
#[global] Instance decoy_ok_dec d : Decision (decoy_ok d).
Proof. unfold decoy_ok. apply _. Defined.

Lemma dns_decoy_ok l : 3 <= l <= 12 → decoy_ok (dns_decoy l).
Proof.
  intros Hl. assert (Forall (λ l, decoy_ok (dns_decoy l)) (seqZ 3 10)) as H.
  { apply (bool_decide_unpack _). vm_compute. done. }
  rewrite Forall_forall in H. apply H, elem_of_seqZ. lia.
Qed.

Lemma noise_decoy_ok n : 48 <= n <= 220 → decoy_ok (noise_decoy n).
Proof.
  intros Hn. assert (Forall (λ n, decoy_ok (noise_decoy n)) (seqZ 48 173)) as H.
  { apply (bool_decide_unpack _). vm_compute. done. }
  rewrite Forall_forall in H. apply H, elem_of_seqZ. lia.
Qed.

Lemma stun_ok : decoy_ok stun.
Proof. by split. Qed.

Definition in_span (loMin loMax wMin wMax : Z) (text : string) : Prop :=
  ∃ lo w, loMin <= lo <= loMax ∧ wMin <= w <= wMax ∧ text = span lo (lo + w).

(** What a draw can be. *)
Inductive drawn (mtu : Z) : AwgGeometry3 → Prop :=
  | Drawn h1 h2 h3 h4 jc jmin jw s1 s2 s3 s4 i1 i2 i3 key cpa rekeyA rekeyT rejectA keep maxHs :
      Forall (λ h, 16 <= h <= 2147483646) [h1; h2; h3; h4] → NoDup [h1; h2; h3; h4] →
      3 <= jc <= 10 → 40 <= jmin <= 100 → 30 <= jw <= 200 →
      12 <= s1 <= 150 → 12 <= s2 <= 150 → 12 <= s3 <= 64 →
      12 <= s4 <= Z.max 12 (Z.min 64 (1500 - 32 - mtu - 28)) →
      decoy_ok i1 → I_CHARS i2 = true → I_CHARS i3 = true →
      length key = 32%nat → Forall (λ b, 0 <= b < 256) key → 16 <= cpa <= 64 →
      in_span 95 115 25 55 rekeyA → in_span 4 6 2 4 rekeyT → in_span 200 230 30 60 rejectA →
      in_span 8 12 5 10 keep → in_span 12 16 4 8 maxHs →
      drawn mtu (Geometry mtu jc jmin (jmin + jw) s1 s2 s3 s4
        (pretty h1) (pretty h2) (pretty h3) (pretty h4) i1 i2 i3 "" ""
        (base64 key) (span 1 cpa) rekeyA rekeyT rejectA keep maxHs true).

Lemma rule_false b id l : b = false → rule b id ++ l = l.
Proof. by intros ->. Qed.

Lemma rule_false_last b id : b = false → rule b id = [].
Proof. by intros ->. Qed.

Lemma not_both a b : a ≠ b → (a <=? b) && (b <=? a) = false.
Proof. intros. apply andb_false_iff. rewrite !Z.leb_gt. lia. Qed.

(** A disjunction of comparisons, none of which holds. *)
Ltac none_holds :=
  simpl; rewrite ?orb_false_iff;
  repeat match goal with |- _ ∧ _ => split end;
  first [done | apply Z.ltb_ge; lia | apply Z.leb_gt; lia | apply not_both; congruence].

Definition sizes_distinct (g : AwgGeometry3) : Prop :=
  NoDup (class_sizes g).
#[global] Instance sizes_distinct_dec g : Decision (sizes_distinct g).
Proof. unfold sizes_distinct. apply _. Defined.

Lemma size_rule g :
  rule (negb (length (js_uniq (class_sizes g)) =? length (class_sizes g))%nat) "class-sizes-distinct" =
  if decide (sizes_distinct g) then [] else ["class-sizes-distinct"].
Proof.
  unfold rule. case_decide as Hd; unfold sizes_distinct in Hd.
  - by rewrite (proj2 (Nat.eqb_eq _ _)) by by apply js_uniq_length_NoDup.
  - rewrite (proj2 (Nat.eqb_neq _ _)); [done|]. by rewrite js_uniq_length_NoDup.
Qed.

Lemma drawn_violations mtu g : 1280 <= mtu <= 1420 → drawn mtu g →
  awg3GeometryViolations g = if decide (sizes_distinct g) then [] else ["class-sizes-distinct"].
Proof.
  intros Hmtu Hd. destruct Hd as [h1 h2 h3 h4 jc jmin jw s1 s2 s3 s4 i1 i2 i3 key cpa
    ? ? ? ? ? Hh Hnd Hjc Hjmin Hjw Hs1 Hs2 Hs3 Hs4 [Hi1 Hb1] Hi2 Hi3 Hkl Hkb Hcpa
    (ra & raw & Hra & Hraw & ->) (rt & rtw & Hrt & Hrtw & ->) (rj & rjw & Hrj & Hrjw & ->)
    (ke & kew & Hke & Hkew & ->) (mh & mhw & Hmh & Hmhw & ->)].
  repeat (apply Forall_cons in Hh as [? Hh]). clear Hh.
  assert (h1 ≠ h2 ∧ h1 ≠ h3 ∧ h1 ≠ h4 ∧ h2 ≠ h3 ∧ h2 ≠ h4 ∧ h3 ≠ h4) as (?&?&?&?&?&?).
  { rewrite !NoDup_cons, !elem_of_cons in Hnd. naive_solver. }
  unfold awg3GeometryViolations. cbn [g_h1 g_h2 g_h3 g_h4 contentPaddingAddition rekeyAfterTime
    rekeyTimeout rejectAfterTime keepaliveTimeout maxHandshakeAttempts].
  simpl mapM. rewrite !parseSpan_one, !parseSpan_span by lia. cbn [mbind option_bind mret option_ret].
  destruct (key_ok key Hkl Hkb) as [Hk1 Hk2].
  unfold span_rules. rewrite size_rule.
  cbn [g_mtu g_jc g_jmin g_jmax g_s1 g_s2 g_s3 g_s4 g_i1 g_i2 g_i3 g_i4 g_i5 headerProtectionKey
       randomTrailers app lo hi].
  rewrite Hk1, Hk2, Hb1. unfold U16, NONCE_FLOOR. rewrite (to_number_small (ke + kew + (rt + rtw))) by lia.
  do 7 (rewrite rule_false by none_holds).
  set (sizes := decide _).
  do 10 (rewrite (rule_false _ _ (rule _ _ ++ _)) by none_holds).
  change (rule false "i1-present" ++ ?l) with l.
  rewrite rule_false_last, app_nil_r; [done|]. simpl. by rewrite Hi1, Hi2, Hi3.
Qed.

(** ** The draw is one of these *)
Section Laws.
Context {G : Type} `{RandomLaws G patience}.

Lemma randSpan_in s a b c d text s' : a <= b → c <= d →
  randSpan s a b c d = (text, s') → in_span a b c d text.
Proof.
  intros Hab Hcd. unfold randSpan. pose proof (rand_int_range a b s Hab) as H1.
  destruct (rand_int a b s) as [x s1]. pose proof (rand_int_range c d s1 Hcd) as H2.
  destruct (rand_int c d s1) as [w s2]. intros [= <- <-]. by exists x, w.
Qed.

Lemma draw_headers_ok fuel hs s hs' s' :
  draw_headers fuel hs s = Some (hs', s') →
  NoDup hs → (length hs <= 4)%nat → Forall (λ h, 16 <= h <= 2147483646) hs →
  NoDup hs' ∧ length hs' = 4%nat ∧ Forall (λ h, 16 <= h <= 2147483646) hs'.
Proof.
  intros Hd Hnd Hl Hr. eapply draw_distinct_ok; [|exact Hd|done..].
  intros s0. unfold header_draw. by apply rand_int_range.
Qed.

(** One more draw of a range. *)
Ltac draw_int H :=
  match type of H with
  | context [rand_int ?a ?b ?s] =>
      let Hr := fresh "Hr" in pose proof (rand_int_range a b s ltac:(lia)) as Hr;
      destruct (rand_int a b s) as [? ?]; simpl in Hr
  end.

Ltac draw_span H :=
  match type of H with
  | context [randSpan ?s ?a ?b ?c ?d] =>
      let E := fresh "E" in destruct (randSpan s a b c d) as [? ?] eqn:E;
      apply randSpan_in in E; [|lia|lia]
  end.

Lemma decoys_ok l n order many d i : 3 <= l <= 12 → 48 <= n <= 220 → 0 <= order <= 5 → 1 <= many <= 3 →
  take (Z.to_nat many) (default [] (decoy_orders (dns_decoy l) (noise_decoy n) !! Z.to_nat order)) = d →
  decoy_ok (default "" (d !! 0%nat)) ∧ I_CHARS (default "" (d !! i)) = true.
Proof.
  intros Hl Hn Ho Hm <-.
  pose proof (dns_decoy_ok l Hl) as Hdns. pose proof (noise_decoy_ok n Hn) as Hnoise. pose proof stun_ok.
  set (os := default [] _). assert (Forall decoy_ok os ∧ ∃ o os', os = o :: os') as [Hos (o & os' & E)].
  { assert (order = 0 ∨ order = 1 ∨ order = 2 ∨ order = 3 ∨ order = 4 ∨ order = 5) as Hc by lia.
    unfold os. destruct Hc as [->|[->|[->|[->|[->| ->]]]]]; simpl; (split; [auto using Forall_cons_2, Forall_nil_2|eauto]). }
  rewrite E in *. replace (Z.to_nat many) with (S (Z.to_nat (many - 1))) by lia. simpl take.
  split; [by apply Forall_cons in Hos as [? _]|].
  destruct (_ !! i) as [x|] eqn:Ex; simpl; [|done].
  apply (Forall_lookup_1 decoy_ok _ i x) in Ex; [by destruct Ex|].
  apply Forall_cons in Hos as [? ?]. constructor; [done|]. by apply Forall_take.
Qed.

Lemma drawOnce_drawn fuel mtu s g s' : drawOnce fuel mtu s = Some (g, s') → drawn mtu g.
Proof.
  unfold drawOnce. intros Hd. destruct (draw_headers fuel [] s) as [[hs s0]|] eqn:Ehs; [|done].
  apply draw_headers_ok in Ehs as (Hnd & Hl & Hh); [|constructor|simpl; lia|constructor].
  destruct hs as [|h1 [|h2 [|h3 [|h4 [|]]]]]; try done. cbn [mbind option_bind] in Hd.
  do 11 draw_int Hd.
  match type of Hd with context [rand_bytes 32 ?s] =>
    pose proof (rand_bytes_length 32 s) as Hkl; pose proof (rand_bytes_range 32 s) as Hkb;
    destruct (rand_bytes 32 s) as [key sk]; simpl in Hkl, Hkb end.
  draw_int Hd. do 5 draw_span Hd. injection Hd as <- _.
  constructor; try done;
    first [eapply decoys_ok; [..|reflexivity]; done | eapply (decoys_ok _ _ _ _ _ 0); [..|reflexivity]; done].
Qed.

(** ** Minting *)

Lemma draw_headers_total n fuel hs s : (length hs + n = 4)%nat → (patience * n <= fuel)%nat →
  is_Some (draw_headers fuel hs s).
Proof. apply draw_distinct_total. intros old s0 Hl. exact (rand_int_fresh old s0 Hl). Qed.

Lemma drawOnce_total fuel mtu s : (4 * patience <= fuel)%nat → is_Some (drawOnce fuel mtu s).
Proof.
  intros Hf. unfold drawOnce. destruct (draw_headers_total 4 fuel [] s) as [[hs s1] ->]; [done|lia|].
  cbn [mbind option_bind].
  repeat match goal with |- context [match ?x with (_, _) => _ end] => destruct x end. by eexists.
Qed.

(** The next [n] draws. *)
Fixpoint draws (n fuel : nat) (mtu : Z) (s : G) : list AwgGeometry3 :=
  match n with
  | O => []
  | S n => match drawOnce fuel mtu s with Some (g, s) => g :: draws n fuel mtu s | None => [] end
  end.

Lemma mint_loop_spec n fuel mtu s : (4 * patience <= fuel)%nat → 1280 <= mtu <= 1420 →
  ∃ r s', mint_loop n fuel mtu s = Some (r, s') ∧
    match r with
    | Ok g => awg3GeometryViolations g = [] ∧ g ∈ draws n fuel mtu s
    | Throw _ => length (draws n fuel mtu s) = n ∧
        Forall (λ g, awg3GeometryViolations g = ["class-sizes-distinct"]) (draws n fuel mtu s)
    end.
Proof.
  intros Hf Hmtu. revert s. induction n as [|n IH]; intros s; [by eexists _, _|].
  cbn [mint_loop draws]. destruct (drawOnce_total fuel mtu s Hf) as [[g s1] Ed]. rewrite Ed.
  cbn [mbind option_bind]. pose proof (drawn_violations mtu g Hmtu (drawOnce_drawn _ _ _ _ _ Ed)) as Hv.
  case_bool_decide as Hok.
  - exists (Ok g), s1. split; [done|]. split; [done|]. by left.
  - destruct (IH s1) as (r & s' & E & Hr). exists r, s'. split; [done|]. destruct r as [g'|e].
    + destruct Hr as [? ?]. split; [done|]. by right.
    + destruct Hr as [Hl Hall]. simpl. split; [by f_equal|]. constructor; [|done].
      rewrite Hv in Hok |- *. by destruct (decide (sizes_distinct g)).
Qed.

(** C40. For every MTU the table allows, minting ends, given randomness that
    keeps its promises.  A geometry it returns breaks no rule; it fails only
    when each of its hundred draws broke exactly one and the same rule, two
    packet classes of one size. *)
Theorem mint_passes fuel mtu s : (4 * patience <= fuel)%nat → 1280 <= mtu <= 1420 →
  ∃ r s', mintAwg3Geometry fuel mtu s = Some (r, s') ∧
    match r with
    | Ok g => awg3GeometryViolations g = [] ∧ g ∈ draws 100 fuel mtu s
    | Throw _ => length (draws 100 fuel mtu s) = 100%nat ∧
        Forall (λ g, awg3GeometryViolations g = ["class-sizes-distinct"]) (draws 100 fuel mtu s)
    end.
Proof. apply mint_loop_spec. Qed.
End Laws.

(** ** Stored once *)

(** The column [nodes.awg3_geometry]: SQL NULL, a geometry, or JSON that is
    none. *)
Inductive stored := DbNull | Stored (g : AwgGeometry3) | OtherJson.

Record node_row := NodeRow { awg3Geometry : stored; linkChangedAt : option Z }.

(** The node, if it exists, and how often the bindings cache was dropped. *)
Record geometry_world := GWorld { node : option node_row; cache_busts : nat }.

Definition readAwg3Geometry (raw : stored) : option AwgGeometry3 :=
  match raw with Stored g => Some g | _ => None end.

Abbreviation gprog := (prog geometry_world string).

Definition find_geometry : gprog (option stored) :=
  call (λ _ w, (match node w with Some r => Some (awg3Geometry r) | None => None end, w)).

(** [updateMany] where the column is NULL: how many rows it wrote. *)
Definition store_if_null (g : AwgGeometry3) : gprog nat :=
  call (λ now w,
    match node w with
    | Some (NodeRow DbNull _) => (1%nat, GWorld (Some (NodeRow (Stored g) (Some now))) (cache_busts w))
    | _ => (0%nat, w)
    end).

Definition bustBindingsCache : gprog unit :=
  call (λ _ w, (tt, GWorld (node w) (S (cache_busts w)))).

(** [minted] is what [mintAwg3Geometry()] gives this call. *)
Definition ensureAwg3Geometry (minted : result string AwgGeometry3) : gprog (option AwgGeometry3) :=
  await node <- find_geometry;
  match node with
  | None => Ret None
  | Some raw =>
      match readAwg3Geometry raw with
      | Some g => Ret (Some g)
      | None =>
          await g <- lift minted;
          await wrote <- store_if_null g;
          await_ (if (0 <? wrote)%nat then bustBindingsCache else Ret tt);
          await after <- find_geometry;
          Ret (match after with Some raw => readAwg3Geometry raw | None => None end)
      end
  end.

Definition readable (w : geometry_world) : option AwgGeometry3 :=
  match node w with Some r => readAwg3Geometry (awg3Geometry r) | None => None end.

(** Storing never replaces, and the node and foreign JSON stay. *)
Definition settled (w w' : geometry_world) : Prop :=
  (∀ g, readable w = Some g → readable w' = Some g) ∧
  (node w = None ↔ node w' = None) ∧
  ((awg3Geometry <$> node w) = Some OtherJson ↔ (awg3Geometry <$> node w') = Some OtherJson).

#[local] Instance settled_preorder : PreOrder settled.
Proof.
  split; [intros w; split; [done|by split]|]. intros w1 w2 w3 (H1 & H2 & H3) (H4 & H5 & H6). split; [auto|].
  split; [by rewrite H2|by rewrite H3].
Qed.

(** What a call answers: the geometry that is stored, or null for a node that
    is not there or holds something else. *)
Definition answers (a : option AwgGeometry3) (w : geometry_world) : Prop :=
  readable w = a ∧
  (a = None → node w = None ∨ (awg3Geometry <$> node w) = Some OtherJson).

(** The column is decided. *)
Definition decided (w : geometry_world) : Prop :=
  node w = None ∨ (awg3Geometry <$> node w) = Some OtherJson ∨ ∃ g, readable w = Some g.

Lemma decided_settled w w' : settled w w' → decided w → decided w'.
Proof. unfold settled, decided. naive_solver. Qed.

Lemma readable_none w :
  node w = None ∨ (awg3Geometry <$> node w) = Some OtherJson → readable w = None.
Proof. unfold readable. destruct (node w) as [[[] ?]|]; naive_solver. Qed.

Lemma answers_settled w w' : settled w w' → decided w → answers (readable w) w'.
Proof.
  intros (Hr & Hn & Ho) [Hd|[Hd|[g Hg]]].
  - rewrite (readable_none w) by auto. split; [|naive_solver]. apply readable_none. naive_solver.
  - rewrite (readable_none w) by auto. split; [|naive_solver]. apply readable_none. naive_solver.
  - rewrite Hg. split; [by apply Hr|done].
Qed.

Lemma ensure_rg minted w : rg settled answers (ensureAwg3Geometry minted) w.
Proof.
  unfold ensureAwg3Geometry, find_geometry. simpl. intros _ w1 _. split; [done|].
  destruct (node w1) as [[st l]|] eqn:E1; simpl.
  2: { intros w' Hw'. rewrite <-(readable_none w1) by auto. apply answers_settled; [done|by left]. }
  destruct (readAwg3Geometry st) as [g0|] eqn:Est; simpl.
  { intros w' Hw'. assert (readable w1 = Some g0) as <- by (unfold readable; by rewrite E1).
    apply answers_settled; [done|]. right; right. exists g0. unfold readable. by rewrite E1. }
  destruct minted as [g|e]; simpl; [|done]. intros now w2 Hw2.
  assert (Hlast : ∀ w, decided w → rg (E := string) settled answers
    (Call (λ (_ : Z) w, (match node w with Some r => Some (awg3Geometry r) | None => None end, w))
      (λ after, Ret (match after with Some raw => readAwg3Geometry raw | None => None end))) w).
  { intros w3 Hd. simpl. intros _ w4 Hw4. split; [done|]. intros w5 Hw5.
    assert (match match node w4 with Some r => Some (awg3Geometry r) | None => None end with
      Some raw => readAwg3Geometry raw | None => None end = readable w4) as ->
      by (unfold readable; by destruct (node w4)).
    apply answers_settled; [done|]. by eapply decided_settled. }
  destruct (node w2) as [[st2 l2]|] eqn:E2; simpl.
  2: { split; [done|]. apply Hlast. by left. }
  destruct st2 as [|g2|]; simpl.
  - split.
    + unfold settled, readable. rewrite E2. simpl. split; [done|]. by split.
    + intros now' w3 Hw3. simpl. split; [by split_and!|]. apply (Hlast (GWorld (node w3) (S (cache_busts w3)))).
      eapply (decided_settled (GWorld (Some (NodeRow (Stored g) (Some now))) (cache_busts w2)));
        [|right; right; by exists g].
      etrans; [exact Hw3|]. by split_and!.
  - split; [done|]. apply Hlast. right; right. exists g2. unfold readable. by rewrite E2.
  - split; [done|]. apply Hlast. right; left. by rewrite E2.
Qed.

(** However many pushes and subscriptions ask for a node's geometry at
    once, each with a freshly minted one of its own, and however their calls
    interleave: whoever got an answer got the geometry the node has at the
    end, so they all got the same; none got null from a node that is there
    and holds no foreign JSON. *)
Theorem one_geometry (minted : list (result string AwgGeometry3)) w es i a :
  let end_ := pool_run (ensureAwg3Geometry <$> minted, w) es in
  end_.1 !! i = Some (Ret a) →
  readable end_.2 = a ∧
  (a = None → node w = None ∨ (awg3Geometry <$> node w) = Some OtherJson).
Proof.
  intros end_ Hi.
  assert (Hps : Forall (λ p, rg settled answers p w) (ensureAwg3Geometry <$> minted)).
  { apply Forall_fmap, Forall_forall. intros m _. apply ensure_rg. }
  destruct (rg_returned settled answers _ w es i a Hps Hi) as [Ha Hn]. split; [done|].
  destruct (rg_pool settled answers _ w es Hps) as [(_ & H1 & H2) _]. intros ->.
  destruct (Hn eq_refl); [left; by apply H1|right; by apply H2].
Qed.

(** ** Witnesses *)

(** A generator that counts. *)
#[export] Instance counting : GeometryRandom Z := {
  rand_int lo hi s := (lo + s mod Z.max 1 (hi - lo + 1), s + 1);
  rand_bytes n s := ((λ i, (s + 37 * i) mod 256) <$> seqZ 0 (Z.of_nat n), s + 1) }.

#[export] Instance counting_laws : RandomLaws Z 4.
Proof.
  split.
  - intros lo hi s Hle. simpl. pose proof (Z.mod_pos_bound s (Z.max 1 (hi - lo + 1)) ltac:(lia)). lia.
  - intros n s. simpl. rewrite length_fmap, length_seqZ. lia.
  - intros n s. simpl. apply Forall_fmap, Forall_forall. intros i _. simpl. by apply Z.mod_pos_bound.
  - by apply (counting_fresh 16 2147483631 header_draw ltac:(done) 4).
Qed.

Lemma mint_passes_witness :
  1280 <= AWG3_MTU <= 1420 ∧
  match mintAwg3Geometry 16 AWG3_MTU 1000 with
  | Some (Ok g, _) => awg3GeometryViolations g = []
  | _ => False
  end ∧
  ∃ r s, mintAwg3Geometry 16 AWG3_MTU 0 = Some (r, s).
Proof.
  split; [unfold AWG3_MTU; lia|]. split; [vm_compute; reflexivity|].
  destruct (mint_passes (G := Z) 16 AWG3_MTU 0) as (r & s & H & _); [lia|unfold AWG3_MTU; lia|].
  exists r, s. exact H.
Defined.

Definition toy_geometry (key : string) : AwgGeometry3 :=
  Geometry 1376 3 40 90 12 13 14 15 "20" "21" "22" "23" "<r 50>" "" "" "" "" key
    "1-20" "100-130" "5-8" "210-250" "9-15" "13-18" true.

Lemma one_geometry_witness :
  let end_ := pool_run (ensureAwg3Geometry <$> [Ok (toy_geometry "a"); Ok (toy_geometry "b")],
                GWorld (Some (NodeRow DbNull None)) 0)
                [(0%nat, 1); (1%nat, 2); (1%nat, 3); (0%nat, 4); (0%nat, 5); (1%nat, 6); (1%nat, 7)] in
  end_.1 = [Ret (Some (toy_geometry "b")); Ret (Some (toy_geometry "b"))] ∧
  readable end_.2 = Some (toy_geometry "b").
Proof.
  intros end_. split; [vm_compute; reflexivity|].
  destruct (one_geometry [Ok (toy_geometry "a"); Ok (toy_geometry "b")]
    (GWorld (Some (NodeRow DbNull None)) 0)
    [(0%nat, 1); (1%nat, 2); (1%nat, 3); (0%nat, 4); (0%nat, 5); (1%nat, 6); (1%nat, 7)]
    0 (Some (toy_geometry "b"))) as [H _]; [vm_compute; reflexivity|exact H].
Defined.
