(* ===== verification/SingBox.v ===== *)
(** Route rules of a sing-box configuration, and how the engine reads them.

    The rules are the records the chain renderer writes
    (apps/panel-backend/src/modules/cascades/chain-policy.ts and
    chain.config.ts); a field that is absent is an empty list, which sing-box
    reads as no condition.

    The engine goes through the rules in order.  [sniff] and [resolve] are
    taken and the reading goes on; [hijack-dns], [reject] and [route] end it;
    past the last rule the connection takes the default way out.  Inside a rule
    the names and the addresses OR together, a rule-set among them, and
    everything else ANDs.  A protocol is known after [sniff]; an address
    condition holds only where the destination is an address or was resolved.
    What a name, an address or a port range hits is a parameter of the flow. *)

From S2P Require Import Prelude Js.

Local Open Scope string_scope.
Local Open Scope list_scope.
Local Open Scope Z_scope.

(** ** Rules *)

(** Domain matchers of one rule. *)
Record ChainMatch := mkMatch {
  cm_domain : list string;
  cm_suffix : list string;
  cm_keyword : list string;
  cm_regex : list string;
  cm_rule_set : list string
}.

(** The address half of a rule. *)
Record ChainIpMatch := mkIpMatch { ci_cidr : list string; ci_rule_set : list string }.

Record Cond := mkCond {
  m_inbound : list string;
  m_auth_user : list string;
  m_protocol : list string;
  m_network : list string;
  m_port : list (option Z);
  m_port_range : list string;
  m_names : ChainMatch;
  m_addresses : ChainIpMatch
}.

Inductive Action :=
  | Sniff
  | HijackDns
  | Reject
  | Resolve
  | RouteTo (outbound : string).

(** A rule, or a logical [and] of conditions. *)
Inductive RouteRule :=
  | When (c : Cond) (a : Action)
  | WhenAll (cs : list Cond) (a : Action).

#[global] Instance ChainMatch_eq_dec : EqDecision ChainMatch.
Proof. solve_decision. Defined.
#[global] Instance ChainIpMatch_eq_dec : EqDecision ChainIpMatch.
Proof. solve_decision. Defined.
#[global] Instance Cond_eq_dec : EqDecision Cond.
Proof. solve_decision. Defined.
#[global] Instance Action_eq_dec : EqDecision Action.
Proof. solve_decision. Defined.
#[global] Instance RouteRule_eq_dec : EqDecision RouteRule.
Proof. solve_decision. Defined.

Definition no_names : ChainMatch := mkMatch [] [] [] [] [].
Definition no_addresses : ChainIpMatch := mkIpMatch [] [].

(** The condition of a rule that has one field only. *)
Definition always : Cond := mkCond [] [] [] [] [] [] no_names no_addresses.
Definition on_network (ns : list string) : Cond := mkCond [] [] [] ns [] [] no_names no_addresses.

(** ** Reading *)
Inductive Field := FDomain | FSuffix | FKeyword | FRegex | FRuleSet | FCidr.

Record Flow := mkFlow {
  fl_inbound : string;
  fl_user : option string;
  fl_network : string;
  fl_port : Z;
  fl_range : string → bool;
  fl_protocol : option string;
  fl_name : Field → string → bool;
  fl_is_address : bool;
  fl_address : Field → string → bool
}.

(** What the engine has learnt so far. *)
Record Seen := mkSeen { sniffed : bool; resolved : bool }.

Definition fresh : Seen := mkSeen false false.

Definition hit {A} (f : A → bool) (l : list A) : bool := bool_decide (l = []) || existsb f l.

Section Flow.
Context (fl : Flow).

Definition address_known (s : Seen) : bool := fl_is_address fl || resolved s.

Definition set_hit (s : Seen) (t : string) : bool :=
  fl_name fl FRuleSet t || (address_known s && fl_address fl FRuleSet t).

Definition names_hit (s : Seen) (m : ChainMatch) : bool :=
  existsb (fl_name fl FDomain) (cm_domain m) || existsb (fl_name fl FSuffix) (cm_suffix m) ||
  existsb (fl_name fl FKeyword) (cm_keyword m) || existsb (fl_name fl FRegex) (cm_regex m) ||
  existsb (set_hit s) (cm_rule_set m).

Definition addresses_hit (s : Seen) (m : ChainIpMatch) : bool :=
  existsb (λ c, address_known s && fl_address fl FCidr c) (ci_cidr m) || existsb (set_hit s) (ci_rule_set m).

Definition destination_hit (s : Seen) (c : Cond) : bool :=
  (bool_decide (m_names c = no_names) && bool_decide (m_addresses c = no_addresses)) ||
  names_hit s (m_names c) || addresses_hit s (m_addresses c).

Definition port_hit (ps : list (option Z)) (rs : list string) : bool :=
  (bool_decide (ps = []) && bool_decide (rs = [])) ||
  existsb (λ p, bool_decide (p = Some (fl_port fl))) ps || existsb (fl_range fl) rs.

Definition protocol_hit (s : Seen) (ps : list string) : bool :=
  hit (λ p, sniffed s && bool_decide (fl_protocol fl = Some p)) ps.

Definition cond_hit (s : Seen) (c : Cond) : bool :=
  hit (λ t, bool_decide (t = fl_inbound fl)) (m_inbound c) &&
  hit (λ u, bool_decide (fl_user fl = Some u)) (m_auth_user c) &&
  protocol_hit s (m_protocol c) &&
  hit (λ n, bool_decide (n = fl_network fl)) (m_network c) &&
  port_hit (m_port c) (m_port_range c) &&
  destination_hit s c.

Definition rule_hit (s : Seen) (r : RouteRule) : bool :=
  match r with When c _ => cond_hit s c | WhenAll cs _ => forallb (cond_hit s) cs end.

Definition rule_action (r : RouteRule) : Action := match r with When _ a | WhenAll _ a => a end.

Inductive Verdict := Hijacked | Dropped | Leaves (outbound : string).

#[global] Instance Verdict_eq_dec : EqDecision Verdict.
Proof. solve_decision. Defined.

(** The answer of the rules; [None] is past the last one. *)
Fixpoint read_rules (rules : list RouteRule) (s : Seen) : option Verdict :=
  match rules with
  | [] => None
  | r :: rest =>
      if rule_hit s r then
        match rule_action r with
        | Sniff => read_rules rest (mkSeen true (resolved s))
        | Resolve => read_rules rest (mkSeen (sniffed s) true)
        | HijackDns => Some Hijacked
        | Reject => Some Dropped
        | RouteTo t => Some (Leaves t)
        end
      else read_rules rest s
  end.

(** ** Lemmas *)

(** What is known after rules that decide nothing. *)
Fixpoint seen_after (rules : list RouteRule) (s : Seen) : Seen :=
  match rules with
  | [] => s
  | r :: rest =>
      seen_after rest
        (if rule_hit s r then
           match rule_action r with
           | Sniff => mkSeen true (resolved s)
           | Resolve => mkSeen (sniffed s) true
           | _ => s
           end
         else s)
  end.

Lemma read_rules_app l1 l2 s :
  read_rules (l1 ++ l2) s =
  match read_rules l1 s with Some v => Some v | None => read_rules l2 (seen_after l1 s) end.
Proof.
  revert s. induction l1 as [|r l1 IH]; intros s; simpl; [done|].
  destruct (rule_hit s r); [|apply IH]. destruct (rule_action r); by rewrite ?IH.
Qed.

Lemma seen_after_app l1 l2 s : seen_after (l1 ++ l2) s = seen_after l2 (seen_after l1 s).
Proof. revert s. induction l1 as [|r l1 IH]; intros s; simpl; [done|]. apply IH. Qed.

Lemma read_rules_cons r l s :
  read_rules (r :: l) s =
  if rule_hit s r then
    match rule_action r with
    | Sniff => read_rules l (mkSeen true (resolved s))
    | Resolve => read_rules l (mkSeen (sniffed s) true)
    | HijackDns => Some Hijacked
    | Reject => Some Dropped
    | RouteTo t => Some (Leaves t)
    end
  else read_rules l s.
Proof. done. Qed.

Lemma hit_nil {A} (f : A → bool) : hit f [] = true.
Proof. done. Qed.
Lemma hit_one {A} (f : A → bool) x : hit f [x] = f x.
Proof. unfold hit. simpl. by rewrite orb_false_r. Qed.
Lemma hit_cons {A} (f : A → bool) x l : hit f (x :: l) = existsb f (x :: l).
Proof. done. Qed.

Lemma names_hit_none s : names_hit s no_names = false.
Proof. done. Qed.
Lemma addresses_hit_none s : addresses_hit s no_addresses = false.
Proof. done. Qed.

Lemma always_hit s : cond_hit s always = true.
Proof. done. Qed.

(** Rules none of which takes the flow. *)
Lemma read_rules_skip l s : (∀ r, r ∈ l → rule_hit s r = false) → read_rules l s = None ∧ seen_after l s = s.
Proof.
  induction l as [|r l IH]; intros H; [done|]. simpl. rewrite (H r) by set_solver.
  apply IH. intros r' Hr'. apply H. set_solver.
Qed.
End Flow.

Lemma existsb_ext {A} (f g : A → bool) l : (∀ x, x ∈ l → f x = g x) → existsb f l = existsb g l.
Proof.
  induction l as [|x l IH]; intros H; [done|]. simpl. rewrite H by set_solver. f_equal.
  apply IH. intros y Hy. apply H. set_solver.
Qed.

Lemma existsb_in {A} (f : A → bool) l : existsb f l = true ↔ ∃ x, x ∈ l ∧ f x = true.
Proof. rewrite existsb_exists. by setoid_rewrite <-list_elem_of_In. Qed.

Lemma existsb_same_elems {A} (f : A → bool) l l' : (∀ x, x ∈ l ↔ x ∈ l') → existsb f l = existsb f l'.
Proof. intros H. apply eq_true_iff_eq. rewrite !existsb_in. by setoid_rewrite H. Qed.
