(* ===== verification/ChainPolicy.v ===== *)
(** Route policies as the chain process carries them out
    (apps/panel-backend/src/modules/cascades/chain-policy.ts): xray matcher
    strings translated into sing-box rules, for the node policy of an exit and
    the route policies of an entry.

    The rule-sets a translation names are a Map threaded through it.
    [localeCompare] and the classification of an entry (isIP, RegExp) are
    parameters. *)

From S2P Require Import Prelude Js Json PolicyEntries XrayLinks SingBox.

Local Open Scope string_scope.
Local Open Scope list_scope.
Local Open Scope Z_scope.

Definition GEO_DIR_ON_NODE : string := "/etc/iceslab-node/geo".
Definition CHAIN_WARP_TAG : string := "warp".

(** ** Rule-sets *)
Record ChainRuleSetRef := mkRef {
  rs_tag : string;
  rs_path : string;
  rs_file : string;
  rs_set : string;
  rs_setTag : string
}.

#[global] Instance ChainRuleSetRef_eq_dec : EqDecision ChainRuleSetRef.
Proof. solve_decision. Defined.

Definition Sets : Type := list (string * ChainRuleSetRef).

(** [`geo-${ref.set}-${setTag}`]. *)
Definition set_tag (set setTag : string) : string := "geo-" +:+ set +:+ "-" +:+ setTag.

Definition ref_of (r : GeoRef) : ChainRuleSetRef :=
  let setTag := js_lower (g_tag r) in
  let file := chainRuleSetFileName (g_set r) setTag in
  mkRef (set_tag (g_set r) setTag) (GEO_DIR_ON_NODE +:+ "/" +:+ file) file (g_set r) setTag.

(** [if (!sets.has(tag)) sets.set(tag, ...)]. *)
Definition declare (r : GeoRef) (sets : Sets) : Sets :=
  match jm_get (rs_tag (ref_of r)) sets with
  | Some _ => sets
  | None => jm_set (rs_tag (ref_of r)) (ref_of r) sets
  end.

(** ** Domain entries *)
Definition push_field (f : Field) (v : string) (m : ChainMatch) : ChainMatch :=
  match f with
  | FDomain => mkMatch (cm_domain m ++ [v]) (cm_suffix m) (cm_keyword m) (cm_regex m) (cm_rule_set m)
  | FSuffix => mkMatch (cm_domain m) (cm_suffix m ++ [v]) (cm_keyword m) (cm_regex m) (cm_rule_set m)
  | FKeyword => mkMatch (cm_domain m) (cm_suffix m) (cm_keyword m ++ [v]) (cm_regex m) (cm_rule_set m)
  | FRegex => mkMatch (cm_domain m) (cm_suffix m) (cm_keyword m) (cm_regex m ++ [v]) (cm_rule_set m)
  | FRuleSet => mkMatch (cm_domain m) (cm_suffix m) (cm_keyword m) (cm_regex m) (cm_rule_set m ++ [v])
  | FCidr => m
  end.

Definition addEntry (st : ChainMatch * Sets) (entry : string) : ChainMatch * Sets :=
  let '(m, sets) := st in
  let e := js_trim entry in
  if bool_decide (e = "") then st
  else match parseGeoRef e "domain" with
  | Some ref =>
      if bool_decide (g_set ref = "geoip") || starts_with "ext-ip:" e then st
      else (push_field FRuleSet (rs_tag (ref_of ref)) m, declare ref sets)
  | None =>
      if starts_with "geoip:" e then st
      else if starts_with "domain:" e then
        let v := after "domain:" e in (push_field FSuffix ("." +:+ v) (push_field FDomain v m), sets)
      else if starts_with "full:" e then (push_field FDomain (after "full:" e) m, sets)
      else if starts_with "keyword:" e then (push_field FKeyword (after "keyword:" e) m, sets)
      else if starts_with "regexp:" e then (push_field FRegex (after "regexp:" e) m, sets)
      else (push_field FSuffix e m, sets)
  end.

Definition matchOf (entries : list string) (sets : Sets) : ChainMatch * Sets :=
  let '(m, sets) := foldl addEntry (no_names, sets) entries in
  (mkMatch (js_uniq (cm_domain m)) (js_uniq (cm_suffix m)) (js_uniq (cm_keyword m)) (js_uniq (cm_regex m))
     (js_uniq (cm_rule_set m)), sets).

Definition chainMatchIsEmpty (m : ChainMatch) : bool := bool_decide (m = no_names).

(** ** Address entries *)

(** A bare address as a prefix. *)
Definition as_prefix (e : string) : string :=
  if str_has "/" e then e else if str_has ":" e then e +:+ "/128" else e +:+ "/32".

Definition addIpEntry (st : ChainIpMatch * Sets) (raw : string) : ChainIpMatch * Sets :=
  let '(m, sets) := st in
  let e := js_trim raw in
  if bool_decide (e = "") then st
  else match parseGeoRef e "ip" with
  | Some ref => (mkIpMatch (ci_cidr m) (ci_rule_set m ++ [rs_tag (ref_of ref)]), declare ref sets)
  | None => (mkIpMatch (ci_cidr m ++ [as_prefix e]) (ci_rule_set m), sets)
  end.

Definition ipMatchOf (entries : list string) (sets : Sets) : ChainIpMatch * Sets :=
  let '(m, sets) := foldl addIpEntry (no_addresses, sets) entries in
  (mkIpMatch (js_uniq (ci_cidr m)) (js_uniq (ci_rule_set m)), sets).

(** ** Ports *)

(** [/^\d+$/]. *)
Definition is_digits (p : string) : bool :=
  negb (bool_decide (p = "")) && forallb is_digit (list_ascii_of_string p).

Definition add_port (st : list (option Z) * list string) (part : string) : list (option Z) * list string :=
  let '(ports, ranges) := st in
  let p := js_trim part in
  if bool_decide (p = "") then st
  else match index_of_char "-" p with
  | Some (S k) =>
      (ports, ranges ++ [js_trim (str_take (S k) p) +:+ ":" +:+ js_trim (str_drop (S (S k)) p)])
  | _ => if is_digits p then (ports ++ [sf_to_int (js_Number p)], ranges) else st
  end.

Definition portMatchOf (port : option string) : list (option Z) * list string :=
  if truthy port then foldl add_port ([], []) (js_split "," (default "" port)) else ([], []).

(** ** The node policy of an exit *)
Inductive ActionKind := KDirect | KBlock | KWarp | KCascade.

#[global] Instance ActionKind_eq_dec : EqDecision ActionKind.
Proof. solve_decision. Defined.

(** An absent list of a rule's match is read as an empty one. *)
Record ChainNodePolicyRule := mkNodeRule {
  pr_domain : list string;
  pr_ip : list string;
  pr_port : option string;
  pr_protocol : list string;
  pr_network : option string;
  pr_action : ActionKind
}.

Definition node_action (k : ActionKind) : Action :=
  match k with
  | KBlock => Reject
  | KWarp => RouteTo CHAIN_WARP_TAG
  | KDirect | KCascade => RouteTo "direct"
  end.

(** [rest]: the port, protocol and network of a rule. *)
Definition rest_network (n : option string) : list string :=
  match n with
  | Some n => if bool_decide (n = "") || bool_decide (n = "tcp,udp") then [] else [n]
  | None => []
  end.

Definition rest_cond (r : ChainNodePolicyRule) (names : ChainMatch) (addresses : ChainIpMatch) : Cond :=
  let '(ports, ranges) := portMatchOf (pr_port r) in
  mkCond [] [] (pr_protocol r) (rest_network (pr_network r)) ports ranges names addresses.

Definition only (names : ChainMatch) (addresses : ChainIpMatch) : Cond := mkCond [] [] [] [] [] [] names addresses.

Definition lostKind (r : ChainNodePolicyRule) (hasDom hasIp : bool) : bool :=
  (negb (bool_decide (pr_domain r = [])) && negb hasDom) ||
  (negb (bool_decide (pr_ip r = [])) && negb hasIp) ||
  (truthy (pr_port r) && bool_decide (portMatchOf (pr_port r) = ([], []))) ||
  (negb (bool_decide (pr_protocol r = [])) && bool_decide (m_protocol (rest_cond r no_names no_addresses) = [])).

(** The state of the loop: the rules so far, [sets], [resolved], [usesWarp]. *)
Record Translated := mkTranslated {
  tr_rules : list RouteRule;
  tr_sets : Sets;
  tr_resolved : bool;
  tr_warp : bool
}.

Definition one_rule (r : ChainNodePolicyRule) (dom : ChainMatch) (ip : ChainIpMatch) : RouteRule :=
  let a := node_action (pr_action r) in
  let rest := rest_cond r no_names no_addresses in
  if negb (chainMatchIsEmpty dom) && negb (bool_decide (ip = no_addresses)) then
    WhenAll ([only dom no_addresses; only no_names ip] ++ (if bool_decide (rest = always) then [] else [rest])) a
  else if chainMatchIsEmpty dom && bool_decide (ip = no_addresses) && bool_decide (rest = always) then
    When (on_network ["tcp"; "udp"]) a
  else When (rest_cond r dom ip) a.

Definition node_step (st : Translated) (r : ChainNodePolicyRule) : Translated :=
  if bool_decide (pr_action r = KCascade) then st
  else
    let '(dom, sets) := matchOf (pr_domain r) (tr_sets st) in
    let '(ip, sets) := ipMatchOf (pr_ip r) sets in
    let warp := tr_warp st || bool_decide (pr_action r = KWarp) in
    let hasDom := negb (chainMatchIsEmpty dom) in
    let hasIp := negb (bool_decide (ip = no_addresses)) in
    if lostKind r hasDom hasIp then mkTranslated (tr_rules st) sets (tr_resolved st) warp
    else
      let resolve := if hasIp && negb (tr_resolved st) then [When always Resolve] else [] in
      mkTranslated (tr_rules st ++ resolve ++ [one_rule r dom ip]) sets (tr_resolved st || hasIp) warp.

Section Sorted.
Context (localeLe : string → string → bool).

Definition sets_sorted (sets : Sets) : list ChainRuleSetRef :=
  sort_by (λ a b, localeLe (rs_tag a) (rs_tag b)) sets.*2.

Definition node_loop (rules : list ChainNodePolicyRule) : Translated :=
  foldl node_step (mkTranslated [] [] false false) rules.

Definition chainNodePolicyOf (rules : list ChainNodePolicyRule)
    : list RouteRule * list ChainRuleSetRef * bool :=
  let st := node_loop rules in (tr_rules st, sets_sorted (tr_sets st), tr_warp st).

(** ** The route policies of an entry *)
Record ChainPolicy := mkChainPolicy {
  po_ordinal : Z;
  po_block : ChainMatch;
  po_direct : ChainMatch;
  po_blockIp : option ChainIpMatch;
  po_directIp : option ChainIpMatch
}.

Context (isIP : string → Z) (isRegExp : string → bool).

Definition ipOf (entries : list string) (sets : Sets) : option ChainIpMatch * Sets :=
  let '(m, sets) := ipMatchOf (splitPolicyEntries isIP isRegExp entries).2 sets in
  (if bool_decide (m = no_addresses) then None else Some m, sets).

Definition chain_policy (st : list ChainPolicy * Sets) (p : CascadePolicy) : list ChainPolicy * Sets :=
  let '(out, sets) := st in
  let '(blockIp, sets) := ipOf (blockDomains p) sets in
  let '(directIp, sets) := ipOf (directDomains p) sets in
  let '(block, sets) := matchOf (splitPolicyEntries isIP isRegExp (blockDomains p)).1 sets in
  let '(direct, sets) := matchOf (splitPolicyEntries isIP isRegExp (directDomains p)).1 sets in
  (out ++ [mkChainPolicy (cp_ordinal p) block direct blockIp directIp], sets).

Definition policies_loop (policies : list CascadePolicy) : list ChainPolicy * Sets :=
  foldl chain_policy ([], []) (sort_by (λ a b, cp_ordinal a <=? cp_ordinal b) policies).

Definition chainPoliciesOf (policies : list CascadePolicy) : list ChainPolicy * list ChainRuleSetRef :=
  let '(out, sets) := policies_loop policies in (out, sets_sorted sets).
End Sorted.

#[local] Arguments names_hit : simpl never.
#[local] Arguments addresses_hit : simpl never.
#[local] Arguments push_field : simpl never.

(** ** What a policy means

    The conditions of a rule AND together and the entries of one kind OR; the
    first rule that takes a connection decides.  A rule of a cascade direction
    has no meaning at an exit and is passed over. *)
Section Meaning.
Context (fl : Flow).

(** An entry of a domain list: what names it takes. *)
Definition name_taken (entry : string) : bool :=
  let e := js_trim entry in
  if bool_decide (e = "") then false
  else match parseGeoRef e "domain" with
  | Some ref =>
      if bool_decide (g_set ref = "geoip") || starts_with "ext-ip:" e then false
      else fl_name fl FRuleSet (rs_tag (ref_of ref))
  | None =>
      if starts_with "geoip:" e then false
      else if starts_with "domain:" e then
        fl_name fl FDomain (after "domain:" e) || fl_name fl FSuffix ("." +:+ after "domain:" e)
      else if starts_with "full:" e then fl_name fl FDomain (after "full:" e)
      else if starts_with "keyword:" e then fl_name fl FKeyword (after "keyword:" e)
      else if starts_with "regexp:" e then fl_name fl FRegex (after "regexp:" e)
      else fl_name fl FSuffix e
  end.

(** An entry of an address list: what addresses it takes. *)
Definition address_taken (raw : string) : bool :=
  let e := js_trim raw in
  if bool_decide (e = "") then false
  else match parseGeoRef e "ip" with
  | Some ref => fl_address fl FRuleSet (rs_tag (ref_of ref))
  | None => fl_address fl FCidr (as_prefix e)
  end.

(** A part of a port string: a range, or a number. *)
Definition port_taken (part : string) : bool :=
  let p := js_trim part in
  if bool_decide (p = "") then false
  else match index_of_char "-" p with
  | Some (S k) => fl_range fl (js_trim (str_take (S k) p) +:+ ":" +:+ js_trim (str_drop (S (S k)) p))
  | _ => is_digits p && bool_decide (sf_to_int (js_Number p) = Some (fl_port fl))
  end.

(** [addresses]: whether the address is looked at. *)
Definition policy_takes (addresses : bool) (r : ChainNodePolicyRule) : bool :=
  hit name_taken (pr_domain r) &&
  hit (λ e, addresses && address_taken e) (pr_ip r) &&
  (negb (truthy (pr_port r)) || existsb port_taken (js_split "," (default "" (pr_port r)))) &&
  hit (λ p, bool_decide (fl_protocol fl = Some p)) (pr_protocol r) &&
  hit (λ n, bool_decide (n = fl_network fl)) (rest_network (pr_network r)).

Definition kind_verdict (k : ActionKind) : Verdict :=
  match k with KBlock => Dropped | KWarp => Leaves CHAIN_WARP_TAG | KDirect | KCascade => Leaves "direct" end.

Definition first_rule (addresses : bool) (rules : list ChainNodePolicyRule) : option Verdict :=
  (λ r, kind_verdict (pr_action r)) <$>
    js_find (λ r, negb (bool_decide (pr_action r = KCascade)) && policy_takes addresses r) rules.

(** xray's reading under [IPIfNonMatch]: a name is looked up only when no rule
    takes the connection without its address. *)
Definition xray_reading (rules : list ChainNodePolicyRule) : option Verdict :=
  match first_rule (fl_is_address fl) rules with
  | Some v => Some v
  | None => first_rule true rules
  end.

(** A rule-set named among names holds names, and one among addresses holds
    addresses. *)
Definition domain_set (entry : string) : option string :=
  let e := js_trim entry in
  if bool_decide (e = "") then None else (λ r, rs_tag (ref_of r)) <$> parseGeoRef e "domain".
Definition ip_set (entry : string) : option string :=
  let e := js_trim entry in
  if bool_decide (e = "") then None else (λ r, rs_tag (ref_of r)) <$> parseGeoRef e "ip".

Definition names_apart (entries : list string) : Prop :=
  ∀ e t, e ∈ entries → domain_set e = Some t → fl_address fl FRuleSet t = false.
Definition addresses_apart (entries : list string) : Prop :=
  ∀ e t, e ∈ entries → ip_set e = Some t → fl_name fl FRuleSet t = false.

(** ** Lemmas on matches *)
Definition field_hit (s : Seen) (f : Field) (v : string) : bool :=
  match f with FRuleSet => set_hit fl s v | FCidr => false | _ => fl_name fl f v end.

Lemma names_hit_push s f v m : names_hit fl s (push_field f v m) = names_hit fl s m || field_hit s f v.
Proof.
  unfold names_hit, push_field. destruct f; simpl; rewrite ?existsb_app; simpl; rewrite ?orb_false_r; try done;
    repeat match goal with |- context [existsb ?f ?l] => generalize (existsb f l) end;
    intros; repeat match goal with b : bool |- _ => destruct b end; simpl; by rewrite ?orb_true_r, ?orb_false_r.
Qed.

Lemma set_hit_name s t : fl_address fl FRuleSet t = false → set_hit fl s t = fl_name fl FRuleSet t.
Proof. intros H. unfold set_hit. by rewrite H, andb_false_r, orb_false_r. Qed.

Lemma set_hit_address s t : fl_name fl FRuleSet t = false →
  set_hit fl s t = address_known fl s && fl_address fl FRuleSet t.
Proof. intros H. unfold set_hit. by rewrite H. Qed.

Lemma addEntry_hit s st e : names_apart [e] →
  names_hit fl s (addEntry st e).1 = names_hit fl s st.1 || name_taken e.
Proof.
  intros Hsets. destruct st as [m sets]. unfold addEntry, name_taken.
  specialize (Hsets e). unfold domain_set in Hsets. cbv zeta in Hsets.
  case_bool_decide as He; [by rewrite orb_false_r|].
  destruct (parseGeoRef _ _) as [ref|].
  - destruct (bool_decide _ || _); simpl; [by rewrite orb_false_r|].
    rewrite names_hit_push. simpl. rewrite set_hit_name; [done|]. eapply Hsets; [set_solver|done].
  - repeat case_match; simpl; rewrite ?names_hit_push; simpl; by rewrite ?orb_false_r, ?orb_assoc.
Qed.

Lemma addEntries_hit s st es : names_apart es →
  names_hit fl s (foldl addEntry st es).1 = names_hit fl s st.1 || existsb name_taken es.
Proof.
  revert st. induction es as [|e es IH]; intros st Hsets; simpl; [by rewrite orb_false_r|].
  rewrite IH by (intros e' t ?; apply Hsets; set_solver).
  rewrite addEntry_hit by (intros e' t ?; apply Hsets; set_solver). by rewrite orb_assoc.
Qed.

Lemma existsb_uniq {A} `{EqDecision A} (f : A → bool) l : existsb f (js_uniq l) = existsb f l.
Proof. apply existsb_same_elems. intros x. apply elem_of_js_uniq. Qed.

Lemma matchOf_hit s es sets : names_apart es → names_hit fl s (matchOf es sets).1 = existsb name_taken es.
Proof.
  intros H. unfold matchOf. pose proof (addEntries_hit s (no_names, sets) es H) as E.
  destruct (foldl addEntry _ es) as [m sets']. simpl in *. rewrite <-E.
  unfold names_hit. simpl. by rewrite !existsb_uniq.
Qed.

Lemma addIpEntry_hit s st e : addresses_apart [e] →
  addresses_hit fl s (addIpEntry st e).1 = addresses_hit fl s st.1 || (address_known fl s && address_taken e).
Proof.
  intros Hsets. destruct st as [m sets]. unfold addIpEntry, address_taken.
  specialize (Hsets e). unfold ip_set in Hsets. cbv zeta in Hsets.
  case_bool_decide as He; [by rewrite andb_false_r, orb_false_r|].
  destruct (parseGeoRef _ _) as [ref|]; unfold addresses_hit; simpl; rewrite existsb_app; simpl.
  - rewrite orb_false_r, set_hit_address; [by rewrite orb_assoc|]. eapply Hsets; [set_solver|done].
  - rewrite orb_false_r. by rewrite <-!orb_assoc, (orb_comm (_ && _)).
Qed.

Lemma ipMatchOf_hit s es sets : addresses_apart es →
  addresses_hit fl s (ipMatchOf es sets).1 = existsb (λ e, address_known fl s && address_taken e) es.
Proof.
  intros H. unfold ipMatchOf.
  assert (∀ st, addresses_hit fl s (foldl addIpEntry st es).1
    = addresses_hit fl s st.1 || existsb (λ e, address_known fl s && address_taken e) es) as E.
  { clear sets. induction es as [|e es IH]; intros st; simpl; [by rewrite orb_false_r|].
    rewrite IH by (intros e' t ?; apply H; set_solver).
    rewrite addIpEntry_hit by (intros e' t ?; apply H; set_solver). by rewrite orb_assoc. }
  specialize (E (no_addresses, sets)). destruct (foldl addIpEntry _ es) as [m sets']. simpl in *.
  rewrite <-E. unfold addresses_hit. simpl. by rewrite !existsb_uniq.
Qed.

Lemma add_ports_hit st parts :
  let '(ps, rs) := foldl add_port st parts in
  existsb (λ p, bool_decide (p = Some (fl_port fl))) ps || existsb (fl_range fl) rs
  = existsb (λ p, bool_decide (p = Some (fl_port fl))) st.1 || existsb (fl_range fl) st.2 || existsb port_taken parts.
Proof.
  revert st. induction parts as [|p parts IH]; intros st; simpl.
  { destruct st as [ps rs]. by rewrite orb_false_r. }
  specialize (IH (add_port st p)). destruct (foldl add_port _ parts) as [ps rs]. rewrite IH, orb_assoc. f_equal.
  destruct st as [ps0 rs0]. unfold add_port, port_taken. clear. cbv zeta.
  generalize (js_trim p). intros q. case_bool_decide; simpl; [by rewrite orb_false_r|].
  assert (∀ x, existsb (λ p, bool_decide (p = Some (fl_port fl))) (ps0 ++ [x]) || existsb (fl_range fl) rs0
    = existsb (λ p, bool_decide (p = Some (fl_port fl))) ps0 || existsb (fl_range fl) rs0 ||
      bool_decide (x = Some (fl_port fl))) as Hp.
  { intros x. rewrite existsb_app. simpl. by rewrite orb_false_r, <-!orb_assoc, (orb_comm (bool_decide _)). }
  destruct (index_of_char "-" q) as [[|k]|].
  - destruct (is_digits q); simpl; [apply Hp|by rewrite orb_false_r].
  - simpl. rewrite existsb_app. simpl. by rewrite orb_false_r, orb_assoc.
  - destruct (is_digits q); simpl; [apply Hp|by rewrite orb_false_r].
Qed.

Lemma portMatchOf_hit p : truthy p = true →
  let '(ps, rs) := portMatchOf p in
  existsb (λ p, bool_decide (p = Some (fl_port fl))) ps || existsb (fl_range fl) rs
  = existsb port_taken (js_split "," (default "" p)).
Proof. intros H. unfold portMatchOf. rewrite H. apply (add_ports_hit ([], [])). Qed.

(** ** One rule *)
Definition on_wire : Prop := fl_network fl = "tcp" ∨ fl_network fl = "udp".

(** The port, protocol and network of a rule. *)
Definition rest_takes (r : ChainNodePolicyRule) : bool :=
  (negb (truthy (pr_port r)) || existsb port_taken (js_split "," (default "" (pr_port r)))) &&
  hit (λ p, bool_decide (fl_protocol fl = Some p)) (pr_protocol r) &&
  hit (λ n, bool_decide (n = fl_network fl)) (rest_network (pr_network r)).

Lemma policy_takes_parts addresses r : policy_takes addresses r =
  hit name_taken (pr_domain r) && hit (λ e, addresses && address_taken e) (pr_ip r) && rest_takes r.
Proof. unfold policy_takes, rest_takes. by rewrite !andb_assoc. Qed.

Lemma hit_ext {A} (f g : A → bool) l : (∀ x, f x = g x) → hit f l = hit g l.
Proof. intros H. unfold hit. f_equal. by apply existsb_ext. Qed.

Lemma rest_cond_hit b r names addresses :
  truthy (pr_port r) && bool_decide (portMatchOf (pr_port r) = ([], [])) = false →
  cond_hit fl (mkSeen true b) (rest_cond r names addresses)
  = rest_takes r && destination_hit fl (mkSeen true b) (only names addresses).
Proof.
  intros Hport. unfold rest_cond, rest_takes. pose proof (portMatchOf_hit (pr_port r)) as Hp.
  assert (truthy (pr_port r) = false → portMatchOf (pr_port r) = ([], [])) as Hno.
  { intros E. unfold portMatchOf. by rewrite E. }
  destruct (portMatchOf (pr_port r)) as [ps rs]. unfold cond_hit. simpl. f_equal.
  assert (port_hit fl ps rs = negb (truthy (pr_port r)) || existsb port_taken (js_split "," (default "" (pr_port r))))
    as ->.
  { unfold port_hit. destruct (truthy (pr_port r)); simpl in *.
    - rewrite <-Hp by done. apply bool_decide_eq_false in Hport.
      destruct (bool_decide (ps = [])) eqn:E1, (bool_decide (rs = [])) eqn:E2; simpl; try done.
      apply bool_decide_eq_true in E1, E2. by subst.
    - specialize (Hno eq_refl). injection Hno as -> ->. by rewrite !bool_decide_true. }
  unfold protocol_hit. simpl. by rewrite andb_comm, andb_assoc.
Qed.

Lemma name_kind s r sets : names_apart (pr_domain r) →
  negb (bool_decide (pr_domain r = [])) && bool_decide ((matchOf (pr_domain r) sets).1 = no_names) = false →
  hit name_taken (pr_domain r)
  = bool_decide ((matchOf (pr_domain r) sets).1 = no_names) || names_hit fl s (matchOf (pr_domain r) sets).1.
Proof.
  intros Hs Hlost. rewrite matchOf_hit by done. unfold hit.
  destruct (pr_domain r) as [|e es]; [done|]. by rewrite (andb_true_l _) in Hlost; rewrite Hlost.
Qed.

Lemma address_kind s r sets : addresses_apart (pr_ip r) → (pr_ip r ≠ [] → address_known fl s = true) →
  negb (bool_decide (pr_ip r = [])) && bool_decide ((ipMatchOf (pr_ip r) sets).1 = no_addresses) = false →
  hit address_taken (pr_ip r)
  = bool_decide ((ipMatchOf (pr_ip r) sets).1 = no_addresses) || addresses_hit fl s (ipMatchOf (pr_ip r) sets).1.
Proof.
  intros Hs Hk Hlost. rewrite ipMatchOf_hit by done. unfold hit.
  destruct (pr_ip r) as [|e es]; [done|]. rewrite (andb_true_l _) in Hlost. rewrite Hlost, Hk by done. done.
Qed.

Lemma one_rule_hit b r dom ip : on_wire →
  truthy (pr_port r) && bool_decide (portMatchOf (pr_port r) = ([], [])) = false →
  rule_hit fl (mkSeen true b) (one_rule r dom ip)
  = (bool_decide (dom = no_names) || names_hit fl (mkSeen true b) dom) &&
    (bool_decide (ip = no_addresses) || addresses_hit fl (mkSeen true b) ip) && rest_takes r.
Proof.
  intros Hw Hport. pose proof (λ n a, rest_cond_hit b r n a Hport) as Hrest.
  set (s := mkSeen true b) in *. unfold one_rule, chainMatchIsEmpty.
  assert (∀ n a, destination_hit fl s (only n a) = (bool_decide (n = no_names) && bool_decide (a = no_addresses)) ||
    names_hit fl s n || addresses_hit fl s a) as Hd by done.
  assert (∀ n a, cond_hit fl s (only n a) = destination_hit fl s (only n a)) as Ho by done.
  assert (cond_hit fl s (rest_cond r no_names no_addresses) = rest_takes r) as Hr.
  { rewrite Hrest. by rewrite Hd, andb_true_r. }
  assert (rest_cond r no_names no_addresses = always → rest_takes r = true) as Hall.
  { intros E. rewrite <-Hr, E. done. }
  destruct (bool_decide (dom = no_names)) eqn:Ed, (bool_decide (ip = no_addresses)) eqn:Ei; simpl.
  - destruct (bool_decide_reflect (rest_cond r no_names no_addresses = always)) as [Ea|Ea]; simpl.
    + rewrite Hall by done. unfold cond_hit. simpl. rewrite hit_cons. simpl. by destruct Hw as [-> | ->].
    + by rewrite Hrest, Hd, Ed, Ei, andb_true_r.
  - apply bool_decide_eq_true in Ed. by rewrite Hrest, Hd, Ei, Ed, andb_comm.
  - apply bool_decide_eq_true in Ei.
    rewrite Hrest, Hd, Ed, Ei, addresses_hit_none. by destruct (names_hit _ _ _), (rest_takes r).
  - rewrite !Ho, !Hd, Ed, Ei. simpl. rewrite addresses_hit_none, orb_false_r. rewrite <-!andb_assoc. do 2 f_equal.
    destruct (bool_decide_reflect (rest_cond r no_names no_addresses = always)) as [Ea|Ea]; simpl; [by rewrite Hall|by rewrite Hr, andb_true_r].
Qed.

(** ** The loop *)
Definition rules_apart (rules : list ChainNodePolicyRule) : Prop :=
  ∀ r, r ∈ rules → names_apart (pr_domain r) ∧ addresses_apart (pr_ip r).

(** The protocols of a rule are copied, never lost. *)
Lemma lostKind_three r hasDom hasIp : lostKind r hasDom hasIp =
  (negb (bool_decide (pr_domain r = [])) && negb hasDom) || (negb (bool_decide (pr_ip r = [])) && negb hasIp) ||
  (truthy (pr_port r) && bool_decide (portMatchOf (pr_port r) = ([], []))).
Proof.
  unfold lostKind, rest_cond. destruct (portMatchOf _). cbn [m_protocol]. by rewrite andb_negb_l, orb_false_r.
Qed.

Lemma lost_takes_nothing b r sets sets' dom ip : names_apart (pr_domain r) → addresses_apart (pr_ip r) →
  (matchOf (pr_domain r) sets).1 = dom → (ipMatchOf (pr_ip r) sets').1 = ip →
  lostKind r (negb (chainMatchIsEmpty dom)) (negb (bool_decide (ip = no_addresses))) = true →
  policy_takes b r = false.
Proof.
  intros Hn Ha <- <-. rewrite lostKind_three. unfold chainMatchIsEmpty. rewrite !negb_involutive.
  rewrite policy_takes_parts. intros Hl. apply orb_prop in Hl as [Hl|Hl]; [apply orb_prop in Hl as [Hl|Hl]|].
  - apply andb_prop in Hl as [Hne He]. apply bool_decide_eq_true in He.
    pose proof (matchOf_hit (mkSeen true true) (pr_domain r) sets Hn) as E. rewrite He in E.
    unfold hit at 1. apply negb_true_iff in Hne. by rewrite Hne, <-E.
  - apply andb_prop in Hl as [Hne He]. apply bool_decide_eq_true in He.
    pose proof (ipMatchOf_hit (mkSeen true true) (pr_ip r) sets' Ha) as E. rewrite He in E.
    apply negb_true_iff in Hne. replace (hit (λ e, b && address_taken e) (pr_ip r)) with false;
      [by rewrite andb_false_r|].
    unfold hit. rewrite Hne. destruct b; simpl; [|symmetry; apply not_true_iff_false; rewrite existsb_in; naive_solver].
    unfold address_known in E. simpl in E. rewrite orb_true_r in E. done.
  - apply andb_prop in Hl as [Ht He]. apply bool_decide_eq_true in He.
    pose proof (portMatchOf_hit (pr_port r) Ht) as E. rewrite He in E. simpl in E.
    unfold rest_takes. rewrite Ht, <-E. by rewrite !andb_false_r.
Qed.

Lemma first_rule_snoc b rules r : first_rule b (rules ++ [r]) =
  match first_rule b rules with
  | Some v => Some v
  | None => if negb (bool_decide (pr_action r = KCascade)) && policy_takes b r
            then Some (kind_verdict (pr_action r)) else None
  end.
Proof.
  unfold first_rule. rewrite js_find_app. destruct (js_find _ rules); [done|]. simpl. by destruct (_ && _).
Qed.

Lemma one_rule_action r dom ip : rule_action (one_rule r dom ip) = node_action (pr_action r).
Proof. unfold one_rule. by repeat case_match. Qed.

Lemma node_loop_reads b rules : on_wire → rules_apart rules →
  let st := node_loop rules in
  read_rules fl (tr_rules st) (mkSeen true b) = first_rule true rules ∧
  seen_after fl (tr_rules st) (mkSeen true b) = mkSeen true (b || tr_resolved st).
Proof.
  intros Hw. induction rules as [|r rules IH] using rev_ind; intros Hap; simpl.
  { by rewrite orb_false_r. }
  assert (rules_apart rules) as Hap' by (intros x Hx; apply Hap; set_solver).
  destruct (Hap r) as [Hn Ha]; [set_solver|]. specialize (IH Hap') as [IH1 IH2].
  unfold node_loop. rewrite foldl_snoc. fold (node_loop rules). rewrite first_rule_snoc.
  set (st := node_loop rules) in *. unfold node_step.
  case_bool_decide as Hk; simpl; [rewrite IH1; split; [by destruct (first_rule true rules)|done]|].
  destruct (matchOf (pr_domain r) (tr_sets st)) as [dom sets] eqn:Edom.
  destruct (ipMatchOf (pr_ip r) sets) as [ip sets'] eqn:Eip.
  assert ((matchOf (pr_domain r) (tr_sets st)).1 = dom) as Edom' by (by rewrite Edom).
  assert ((ipMatchOf (pr_ip r) sets).1 = ip) as Eip' by (by rewrite Eip).
  destruct (lostKind _ _ _) eqn:El; simpl.
  { rewrite (lost_takes_nothing true r (tr_sets st) sets dom ip) by done.
    rewrite IH1. by destruct (first_rule true rules). }
  rewrite lostKind_three in El. unfold chainMatchIsEmpty in El. rewrite !negb_involutive in El.
  apply orb_false_iff in El as [El Hport]. apply orb_false_iff in El as [Hld Hli].
  (* the resolve in front, and the rule *)
  set (hasIp := negb (bool_decide (ip = no_addresses))).
  set (resolve := if hasIp && negb (tr_resolved st) then _ else _).
  assert (∀ rest, read_rules fl (resolve ++ rest) (mkSeen true (b || tr_resolved st))
    = read_rules fl rest (mkSeen true (b || (tr_resolved st || hasIp)))) as Hres.
  { intros rest. subst resolve. destruct hasIp, (tr_resolved st); simpl; rewrite ?orb_true_r; done. }
  assert (seen_after fl resolve (mkSeen true (b || tr_resolved st)) = mkSeen true (b || (tr_resolved st || hasIp))) as Hseen.
  { subst resolve. destruct hasIp, (tr_resolved st); simpl; rewrite ?orb_true_r; done. }
  assert (rule_hit fl (mkSeen true (b || (tr_resolved st || hasIp))) (one_rule r dom ip) = policy_takes true r) as Hhit.
  { rewrite one_rule_hit, policy_takes_parts by done. f_equal. f_equal.
    - rewrite <-Edom'. symmetry. apply name_kind; [done|]. by rewrite Edom'.
    - rewrite <-Eip'. symmetry. apply address_kind; [done| |by rewrite Eip'].
      intros Hne. unfold address_known. simpl.
      rewrite (bool_decide_false (pr_ip r = [])) in Hli by done. subst hasIp. simpl in Hli. rewrite Hli.
      by rewrite !orb_true_r. }
  rewrite read_rules_app, IH1, IH2, Hres. split.
  - destruct (first_rule true rules); [done|]. simpl. rewrite Hhit, one_rule_action.
    destruct (policy_takes true r); [|done]. by destruct (pr_action r).
  - rewrite seen_after_app, IH2, seen_after_app, Hseen. simpl. rewrite one_rule_action.
    by destruct (rule_hit _ _ _), (pr_action r).
Qed.

(** ** xray's order *)

(** The rules with addresses come last. *)
Definition addresses_last (rules : list ChainNodePolicyRule) : Prop := ∃ l1 l2, rules = l1 ++ l2 ∧
  Forall (λ r, pr_ip r = []) l1 ∧ Forall (λ r, pr_action r = KCascade ∨ pr_ip r ≠ []) l2.

Lemma first_rule_app b l1 l2 : first_rule b (l1 ++ l2) =
  match first_rule b l1 with Some v => Some v | None => first_rule b l2 end.
Proof. unfold first_rule. rewrite js_find_app. by destruct (js_find _ l1). Qed.

Lemma first_rule_names l b b' : Forall (λ r, pr_ip r = []) l → first_rule b l = first_rule b' l.
Proof.
  intros H. unfold first_rule. f_equal. induction H as [|r l Hr _ IH]; [done|]. simpl.
  rewrite IH, !policy_takes_parts, Hr. by rewrite !hit_nil.
Qed.

Lemma first_rule_no_address l : Forall (λ r, pr_action r = KCascade ∨ pr_ip r ≠ []) l → first_rule false l = None.
Proof.
  intros H. unfold first_rule. apply fmap_None, js_find_None. intros r Hr. rewrite Forall_forall in H.
  destruct (H r Hr) as [-> | Hip]; [by rewrite bool_decide_true|]. rewrite policy_takes_parts.
  replace (hit (λ e, false && address_taken e) (pr_ip r)) with false; [by rewrite !andb_false_r|].
  unfold hit. rewrite bool_decide_false by done. symmetry. apply not_true_iff_false. simpl.
  rewrite existsb_in. naive_solver.
Qed.

Lemma xray_reading_last rules : addresses_last rules → xray_reading rules = first_rule true rules.
Proof.
  intros (l1 & l2 & -> & H1 & H2). unfold xray_reading. destruct (fl_is_address fl); [by destruct (first_rule true _)|].
  rewrite (first_rule_app false), (first_rule_no_address l2) by done.
  rewrite (first_rule_names l1 false true), first_rule_app by done. by destruct (first_rule true l1).
Qed.
End Meaning.

(** ** The rule-sets a translation names *)
Definition sets_ok (sets : Sets) : Prop := jm_wf sets ∧ ∀ k v, (k, v) ∈ sets → rs_tag v = k.

(** Later sets keep the earlier ones. *)
Definition grows (a b : Sets) : Prop := sets_ok a → sets_ok b ∧ jm_keys a ⊆ jm_keys b.

Lemma grows_refl a : grows a a.
Proof. by intros H. Qed.

Lemma grows_trans a b c : grows a b → grows b c → grows a c.
Proof. intros Hab Hbc Ha. destruct (Hab Ha) as [Hb ?], (Hbc Hb) as [? ?]. split; [done|set_solver]. Qed.

Lemma jm_set_elem {K V} `{EqDecision K} (k : K) (v : V) m x : x ∈ jm_set k v m → x = (k, v) ∨ x ∈ m.
Proof.
  induction m as [|[k' v'] m IH]; simpl; [set_solver|]. case_decide as E; [subst|]; set_solver.
Qed.

Lemma declare_grows r sets : grows sets (declare r sets) ∧ rs_tag (ref_of r) ∈ jm_keys (declare r sets).
Proof.
  unfold declare. destruct (jm_get _ sets) eqn:E.
  - split; [apply grows_refl|]. apply jm_get_is_Some. by rewrite E.
  - split.
    + intros [Hwf Ht]. split; [split; [by apply jm_wf_set|]|].
      * intros k v Hin. apply jm_set_elem in Hin as [[= -> ->]|Hin]; [done|by apply Ht].
      * intros k Hk. apply elem_of_jm_keys_set. by right.
    + apply elem_of_jm_keys_set. by left.
Qed.

Lemma addEntry_sets st e : grows st.2 (addEntry st e).2 ∧
  (cm_rule_set st.1 ⊆ jm_keys st.2 → sets_ok st.2 → cm_rule_set (addEntry st e).1 ⊆ jm_keys (addEntry st e).2).
Proof.
  destruct st as [m sets]. unfold addEntry. cbv zeta. destruct (bool_decide _); [by split; [apply grows_refl|]|].
  destruct (parseGeoRef _ _) as [ref|].
  - destruct (_ || _); [by split; [apply grows_refl|]|]. destruct (declare_grows ref sets) as [Hg Hin].
    split; [done|]. intros Hm Hok. destruct (Hg Hok) as [_ Hk]. simpl. set_solver.
  - repeat destruct (starts_with _ _); by split; [apply grows_refl|].
Qed.

Lemma matchOf_sets es sets : grows sets (matchOf es sets).2 ∧
  (sets_ok sets → cm_rule_set (matchOf es sets).1 ⊆ jm_keys (matchOf es sets).2).
Proof.
  assert (∀ st, grows st.2 (foldl addEntry st es).2 ∧ (cm_rule_set st.1 ⊆ jm_keys st.2 → sets_ok st.2 →
    cm_rule_set (foldl addEntry st es).1 ⊆ jm_keys (foldl addEntry st es).2)) as H.
  { induction es as [|e es IH]; intros st; simpl; [by split; [apply grows_refl|]|].
    destruct (addEntry_sets st e) as [Hg Hs], (IH (addEntry st e)) as [Hg' Hs'].
    split; [by eapply grows_trans|]. intros Hm Hok. apply Hs'; [by apply Hs|]. by apply Hg. }
  unfold matchOf. destruct (H (no_names, sets)) as [Hg Hs]. destruct (foldl addEntry _ es) as [m sets'].
  split; [done|]. intros Hok. simpl. intros t Ht. rewrite elem_of_js_uniq in Ht.
  refine (Hs _ Hok t Ht). set_solver.
Qed.

Lemma ipMatchOf_sets es sets : grows sets (ipMatchOf es sets).2 ∧
  (sets_ok sets → ci_rule_set (ipMatchOf es sets).1 ⊆ jm_keys (ipMatchOf es sets).2).
Proof.
  assert (∀ st, grows st.2 (foldl addIpEntry st es).2 ∧ (ci_rule_set st.1 ⊆ jm_keys st.2 → sets_ok st.2 →
    ci_rule_set (foldl addIpEntry st es).1 ⊆ jm_keys (foldl addIpEntry st es).2)) as H.
  { induction es as [|e es IH]; intros st; simpl; [by split; [apply grows_refl|]|].
    destruct (IH (addIpEntry st e)) as [Hg' Hs'].
    assert (grows st.2 (addIpEntry st e).2 ∧ (ci_rule_set st.1 ⊆ jm_keys st.2 → sets_ok st.2 →
      ci_rule_set (addIpEntry st e).1 ⊆ jm_keys (addIpEntry st e).2)) as [Hg Hs].
    { destruct st as [m sets0]. unfold addIpEntry. cbv zeta. destruct (bool_decide _); [by split; [apply grows_refl|]|].
      destruct (parseGeoRef _ _) as [ref|]; [|by split; [apply grows_refl|]].
      destruct (declare_grows ref sets0) as [Hg Hin]. split; [done|]. intros Hm Hok. destruct (Hg Hok) as [_ Hk].
      simpl. set_solver. }
    split; [by eapply grows_trans|]. intros Hm Hok. apply Hs'; [by apply Hs|]. by apply Hg. }
  unfold ipMatchOf. destruct (H (no_addresses, sets)) as [Hg Hs]. destruct (foldl addIpEntry _ es) as [m sets'].
  split; [done|]. intros Hok. simpl. intros t Ht. rewrite elem_of_js_uniq in Ht.
  refine (Hs _ Hok t Ht). set_solver.
Qed.

(** The rule-sets a rule reads. *)
Definition cond_sets (c : Cond) : list string := cm_rule_set (m_names c) ++ ci_rule_set (m_addresses c).
Definition rule_sets (r : RouteRule) : list string :=
  match r with When c _ => cond_sets c | WhenAll cs _ => cs ≫= cond_sets end.

Lemma one_rule_sets r dom ip t : t ∈ rule_sets (one_rule r dom ip) → t ∈ cm_rule_set dom ∨ t ∈ ci_rule_set ip.
Proof.
  unfold one_rule, rest_cond. destruct (portMatchOf _) as [ps rs]. destruct (_ && _); unfold rule_sets.
  - rewrite list_elem_of_bind. destruct (bool_decide (_ = always)); intros (c & Hc & Hin);
      simpl in Hin; rewrite ?elem_of_cons, elem_of_nil in Hin; destruct_or? Hin; subst; unfold cond_sets in Hc; simpl in Hc;
      rewrite ?app_nil_r in Hc; first [done | by left | by right | by apply not_elem_of_nil in Hc].
  - destruct (_ && _); unfold cond_sets; simpl; set_solver.
Qed.

Lemma node_loop_sets rules :
  let st := node_loop rules in
  sets_ok (tr_sets st) ∧ (∀ r t, r ∈ tr_rules st → t ∈ rule_sets r → t ∈ jm_keys (tr_sets st)) ∧
  (∀ r, r ∈ tr_rules st → rule_action r = RouteTo CHAIN_WARP_TAG → tr_warp st = true) ∧
  (∀ r, r ∈ tr_rules st → rule_action r = Resolve ∨ ∃ k, rule_action r = node_action k).
Proof.
  induction rules as [|r rules IH] using rev_ind; simpl.
  { split; [split; [apply jm_wf_nil|set_solver]|]. set_solver. }
  unfold node_loop. rewrite foldl_snoc. fold (node_loop rules). set (st := node_loop rules) in *.
  destruct IH as (Hok & Hr & Hwarp & Hact). unfold node_step. case_bool_decide as Hk; [done|].
  destruct (matchOf_sets (pr_domain r) (tr_sets st)) as [Hg Hs].
  destruct (matchOf (pr_domain r) (tr_sets st)) as [dom sets]. specialize (Hs Hok). destruct (Hg Hok) as [Hok1 Hk1].
  destruct (ipMatchOf_sets (pr_ip r) sets) as [Hg' Hs'].
  destruct (ipMatchOf (pr_ip r) sets) as [ip sets']. specialize (Hs' Hok1). destruct (Hg' Hok1) as [Hok2 Hk2].
  simpl in *. destruct (lostKind _ _ _); simpl.
  { split; [done|]. split; [|split; [|done]].
    - intros x t Hx Ht. apply Hk2, Hk1. by eapply Hr.
    - intros x Hx Ha. by rewrite (Hwarp x). }
  assert (∀ x, x ∈ tr_rules st ++ (if negb (bool_decide (ip = no_addresses)) && negb (tr_resolved st)
                then [When always Resolve] else []) ++ [one_rule r dom ip] →
    x ∈ tr_rules st ∨ x = When always Resolve ∨ x = one_rule r dom ip) as Hcases.
  { intros x. rewrite !elem_of_app. destruct (_ && _); set_solver. }
  split; [done|]. split; [|split].
  - intros x t Hx Ht. apply Hcases in Hx as [Hx|[-> | ->]]; [| |].
    + apply Hk2, Hk1. by eapply Hr.
    + by apply not_elem_of_nil in Ht.
    + apply one_rule_sets in Ht as [Ht|Ht]; [apply Hk2|]; auto.
  - intros x Hx Ha. apply Hcases in Hx as [Hx|[-> | ->]]; [by rewrite (Hwarp x)|done|].
    rewrite one_rule_action in Ha. destruct (pr_action r); try done. by rewrite orb_true_r.
  - intros x Hx. apply Hcases in Hx as [Hx|[-> | ->]]; [by apply Hact|by left|].
    right. exists (pr_action r). apply one_rule_action.
Qed.

Lemma sets_sorted_tags localeLe sets t : sets_ok sets → t ∈ rs_tag <$> sets_sorted localeLe sets ↔ t ∈ jm_keys sets.
Proof.
  intros [_ Ht]. unfold sets_sorted, jm_keys. rewrite !list_elem_of_fmap. split.
  - intros (v & -> & Hv). apply elem_of_sort_by, list_elem_of_fmap in Hv as ([k v'] & -> & Hin).
    exists (k, v'). split; [by apply Ht|done].
  - intros ([k v] & -> & Hin). exists v. split; [symmetry; by apply Ht|].
    apply elem_of_sort_by, list_elem_of_fmap. by exists (k, v).
Qed.

Lemma sets_sorted_NoDup localeLe sets : sets_ok sets → NoDup (rs_tag <$> sets_sorted localeLe sets).
Proof.
  intros [Hwf Ht]. unfold sets_sorted. rewrite sort_by_perm. replace (rs_tag <$> sets.*2) with (jm_keys sets); [done|].
  unfold jm_keys. rewrite <-list_fmap_compose. apply list_fmap_ext. intros i [k v] Hi. symmetry. simpl. apply Ht.
  by eapply list_elem_of_lookup_2.
Qed.

(** C19. The node policy of an exit, translated into route rules of its chain,
    decides as the policy means: read after [sniff], with a name resolved or
    not before, the rules give the action of the first rule all of whose kinds
    of condition hold, and pass on a connection none takes.  Where the rules
    with addresses come last, that is xray's own answer under [IPIfNonMatch].
    [usesWarp] is set whenever a rule routes into WARP, and every rule-set a
    rule reads is declared, once. *)
Theorem node_policy_translated localeLe fl b rules : on_wire fl → rules_apart fl rules →
  let '(routes, ruleSets, usesWarp) := chainNodePolicyOf localeLe rules in
  read_rules fl routes (mkSeen true b) = first_rule fl true rules ∧
  (addresses_last rules → read_rules fl routes (mkSeen true b) = xray_reading fl rules) ∧
  (∀ r, r ∈ routes → rule_action r = RouteTo CHAIN_WARP_TAG → usesWarp = true) ∧
  NoDup (rs_tag <$> ruleSets) ∧ (∀ r t, r ∈ routes → t ∈ rule_sets r → t ∈ rs_tag <$> ruleSets).
Proof.
  intros Hw Hap. unfold chainNodePolicyOf. destruct (node_loop_reads fl b rules Hw Hap) as [Hr _].
  destruct (node_loop_sets rules) as (Hok & Hsets & Hwarp & _).
  split; [done|]. split; [intros H; by rewrite xray_reading_last|]. split; [done|].
  split; [by apply sets_sorted_NoDup|]. intros r t Hin Ht. apply sets_sorted_tags; [done|]. by eapply Hsets.
Qed.

(** A connection by name: [n] as its whole name, whose address is in [cidrs]. *)
Definition flow_to (n : string) (sets cidrs : list string) : Flow :=
  mkFlow "link-in" None "tcp" 443 (λ _, false) (Some "tls")
    (λ f v, match f with FDomain => bool_decide (v = n) | FSuffix => ends_with v n | _ => false end)
    false
    (λ f v, match f with FRuleSet => bool_decide (v ∈ sets) | FCidr => bool_decide (v ∈ cidrs) | _ => false end).

Definition policy_rule (domain ip : list string) (k : ActionKind) : ChainNodePolicyRule :=
  mkNodeRule domain ip None [] None k.

Definition shop_policy : list ChainNodePolicyRule :=
  [policy_rule ["domain:bank.ru"] [] KBlock; policy_rule ["geoip:ru"] [] KBlock;
   policy_rule [] ["geoip:ru"; "10.0.0.1"] KDirect; policy_rule ["domain:shop.ru"] ["10.0.0.0/8"] KWarp].

Lemma shop_apart : rules_apart (flow_to "shop.ru" [] ["10.0.0.0/8"]) shop_policy.
Proof.
  intros r Hr. unfold shop_policy in Hr. rewrite !elem_of_cons, elem_of_nil in Hr. destruct_or? Hr; subst; [..|done].
  all: split; intros e t _ _; [by apply bool_decide_eq_false, not_elem_of_nil|done].
Qed.

Theorem node_policy_translated_witness :
  read_rules (flow_to "shop.ru" [] ["10.0.0.0/8"]) (chainNodePolicyOf str_leb shop_policy).1.1 (mkSeen true false)
  = Some (Leaves CHAIN_WARP_TAG).
Proof.
  pose proof (node_policy_translated str_leb (flow_to "shop.ru" [] ["10.0.0.0/8"]) false shop_policy) as H.
  destruct H as (H & _); [by left|exact shop_apart|]. etransitivity; [exact H|by vm_compute].
Defined.

(** An address rule in front of a name rule takes the name first: xray looks
    a name up only when no rule takes the connection by name, so it sends
    [shop.ru] into WARP by the second rule, while the chain resolves before the
    first rule and sends it out directly. *)
Theorem address_rule_takes_the_name :
  let rules := [policy_rule [] ["geoip:ru"] KDirect; policy_rule ["domain:shop.ru"] [] KWarp] in
  let fl := flow_to "shop.ru" ["geo-geoip-ru"] [] in
  read_rules fl (chainNodePolicyOf str_leb rules).1.1 (mkSeen true false) = Some (Leaves "direct") ∧
  xray_reading fl rules = Some (Leaves CHAIN_WARP_TAG).
Proof. by vm_compute. Qed.

(** Two entries of different sets and tags may share a rule-set tag in the
    configuration, since a set's name and a tag may both hold dashes: only the
    first is declared, and the second reads its file. *)
Theorem rule_set_tag_shared :
  let rules := [policy_rule ["ext:ru:shops-big"] [] KBlock; policy_rule ["ext:ru-shops:big"] [] KWarp] in
  let '(routes, ruleSets, _) := chainNodePolicyOf str_leb rules in
  (routes ≫= rule_sets) = ["geo-ru-shops-big"; "geo-ru-shops-big"] ∧
  ((λ r, (rs_set r, rs_file r)) <$> ruleSets) = [("ru", "iceslab-ru.shops-big.json")] ∧
  chainRuleSetFileName "ru-shops" "big" = "iceslab-ru-shops.big.json".
Proof. by vm_compute. Qed.
