(* ===== verification/ChainConfig.v ===== *)
(** The chain as its own process: one sing-box configuration per node
    (apps/panel-backend/src/modules/cascades/chain.config.ts).

    Inbounds, outbounds and endpoints are the JSON the renderer writes, the
    route rules the records of [SingBox].  An optional list of the input that
    is absent is read as an empty one, as every use of it does; [log] is always
    the same.  [isIP] is a parameter. *)

From S2P Require Import Prelude Js Json LinkCreds PolicyEntries EntryGate XrayLinks SingBox ChainPolicy.
From S2P Require Import CascadeExclusive TopologyRead.

Local Open Scope string_scope.
Local Open Scope list_scope.
Local Open Scope Z_scope.

(** ** Input *)
Inductive ChainRole := CEntry | CTransit | CExit.

#[global] Instance ChainRole_eq_dec : EqDecision ChainRole.
Proof. solve_decision. Defined.

Record ChainLegOut := mkLegOut {
  lo_tag : Z;
  lo_host : string;
  lo_cred : LinkCred;
  lo_via : option string
}.

Inductive ForeignType := FVless | FSocks.

Record ChainForeignOut := mkForeign {
  fo_tag : Z;
  fo_type : ForeignType;
  fo_config : jvalue
}.

Record ChainClient := mkClient {
  cc_tag : Z;
  cc_uuid : option string;
  cc_shortId : option string
}.

Record ChainLegIn := mkLegIn {
  li_cred : LinkCred;
  li_clients : list ChainClient;
  li_listen : option (list string)
}.

Record ChainWarp := mkWarp {
  w_privateKey : string;
  w_address : list string;
  w_publicKey : option string;
  w_endpoint : option string;
  w_reserved : option (list Z);
  w_mtu : option Z
}.

Record ChainRenderInput := mkRender {
  ri_role : ChainRole;
  ri_socksPassword : string;
  ri_directionTags : list Z;
  ri_out : list ChainLegOut;
  ri_foreign : list ChainForeignOut;
  ri_in : option ChainLegIn;
  ri_policies : list ChainPolicy;
  ri_ruleSets : list (string * string);
  ri_tproxy : option Z;
  ri_exitPolicy : option (list RouteRule * option ChainWarp);
  ri_selfHost : option string
}.

Record ChainConfig := mkChainConfig {
  cf_dns : list jvalue;
  cf_inbounds : list jvalue;
  cf_outbounds : list jvalue;
  cf_endpoints : list jvalue;
  cf_rules : list RouteRule;
  cf_final : option string;
  cf_rule_set : list jvalue
}.

(** ** Names and numbers *)
Definition CHAIN_PROBE_URL : string := "https://www.gstatic.com/generate_204".
Definition CHAIN_PROBE_INTERVAL : string := "1m".
Definition CHAIN_PROBE_TOLERANCE_MS : Z := 50.
Definition TPROXY_IN_TAG : string := "in-tproxy".
Definition AUTO_TAG : Z := 0.
Definition LINK_TLS_SERVER_NAME : string := "link.iceslab.local".
Definition WARP_DEFAULT_PUBLIC_KEY : string := "bmXOC+F1FxEMF9dyiK2H5/1SUtzH0JuVo51h2wPfgyo=".
Definition WARP_DEFAULT_ENDPOINT : string := "162.159.192.1:2408".
Definition WARP_DEFAULT_MTU : Z := 1280.

Definition outTag (tag : Z) : string := "out-d" +:+ pretty tag.
Definition socksTag (tag : Z) : string := "in-d" +:+ pretty tag.
Definition poolLegTag (tag : Z) (idx : nat) : string := outTag tag +:+ "-" +:+ pretty (Z.of_nat idx).
Definition chainLinkUser (tag : Z) : string := "lnk-d" +:+ pretty tag.

Definition urltestOutbound (tag : string) (over : list string) : jvalue :=
  JObj [("type", JStr "urltest"); ("tag", JStr tag); ("outbounds", JArr (JStr <$> over));
        ("url", JStr CHAIN_PROBE_URL); ("interval", JStr CHAIN_PROBE_INTERVAL);
        ("tolerance", JNum CHAIN_PROBE_TOLERANCE_MS)].

(** ** WARP *)

(** [s.replace(/^\[|\]$/g, '')]. *)
Definition strip_brackets (s : string) : string :=
  let s := match s with String "["%char rest => rest | _ => s end in
  match reverse (list_ascii_of_string s) with
  | "]"%char :: inner => string_of_list_ascii (reverse inner)
  | _ => s
  end.

(** [x || d] of an optional string, and of a number. *)
Definition str_or (x : option string) (d : string) : string := if truthy x then default d x else d.
Definition num_or (x : option Z) (d : Z) : Z := match x with Some 0 | None => d | Some n => n end.

Definition warp_host_port (ep : string) : string * Z :=
  match last_index_of_char ":" ep with
  | Some (S k) => (strip_brackets (str_take (S k) ep), num_or (js_parseInt (str_drop (S (S k)) ep)) 2408)
  | _ => (ep, 2408)
  end.

Definition warpEndpoint (w : ChainWarp) : jvalue :=
  let '(host, port) := warp_host_port (str_or (w_endpoint w) WARP_DEFAULT_ENDPOINT) in
  JObj [("type", JStr "wireguard"); ("tag", JStr CHAIN_WARP_TAG); ("system", JBool false);
        ("mtu", JNum (num_or (w_mtu w) WARP_DEFAULT_MTU));
        ("address", JArr ((λ a, JStr (as_prefix a)) <$> w_address w));
        ("private_key", JStr (w_privateKey w));
        ("peers", JArr [JObj ([("address", JStr host); ("port", JNum port);
            ("public_key", JStr (str_or (w_publicKey w) WARP_DEFAULT_PUBLIC_KEY));
            ("allowed_ips", JArr [JStr "0.0.0.0/0"; JStr "::/0"])] ++
          match w_reserved w with
          | Some [a; b; c] => [("reserved", JArr (JNum <$> [a; b; c]))]
          | _ => []
          end)])].

(** ** TLS of a QUIC leg *)

(** [pem.trim().split(/\r?\n/)]. *)
Definition drop_cr (l : string) : string :=
  match reverse (list_ascii_of_string l) with
  | c :: inner => if bool_decide (c = "013"%char) then string_of_list_ascii (reverse inner) else l
  | [] => l
  end.

Definition pemLines (pem : string) : list string :=
  match reverse (js_split "010" (js_trim pem)) with
  | l :: ls => reverse (l :: (drop_cr <$> ls))
  | [] => []
  end.

Definition pem_json (pem : string) : jvalue := JArr (JStr <$> pemLines pem).

Definition legTlsIn (t : LinkTls) : jvalue :=
  JObj [("enabled", JBool true); ("server_name", JStr LINK_TLS_SERVER_NAME);
        ("certificate", pem_json (certPem t)); ("key", pem_json (keyPem t))].

Definition legTlsOut (t : LinkTls) : jvalue :=
  JObj [("enabled", JBool true); ("insecure", JBool false); ("server_name", JStr LINK_TLS_SERVER_NAME);
        ("certificate", pem_json (certPem t))].

(** ** Legs out *)
Definition server_fields (type tag host : string) (p : Z) : list (string * jvalue) :=
  [("type", JStr type); ("tag", JStr tag); ("server", JStr host); ("server_port", JNum p)].

Definition salamander (password : string) : jvalue :=
  JObj [("type", JStr "salamander"); ("password", JStr password)].

Definition hy2Outbound (tag : Z) (host : string) (p : Z) (auth obfs : string) (t : LinkTls) : jvalue :=
  JObj (server_fields "hysteria2" (outTag tag) host p ++
    [("password", JStr auth); ("obfs", salamander obfs); ("tls", legTlsOut t)]).

Definition tuicOutbound (tag : Z) (host : string) (p : Z) (uuid password congestion : string) (t : LinkTls)
    : jvalue :=
  JObj (server_fields "tuic" (outTag tag) host p ++
    [("uuid", JStr uuid); ("password", JStr password); ("congestion_control", JStr congestion);
     ("tls", legTlsOut t)]).

Definition utls (fingerprint : string) : jvalue :=
  JObj [("enabled", JBool true); ("fingerprint", JStr fingerprint)].

Definition reality_out (r : Reality) : jvalue :=
  JObj [("enabled", JBool true); ("server_name", JStr (serverName r)); ("utls", utls "firefox");
        ("reality", JObj [("enabled", JBool true); ("public_key", JStr (publicKey r));
                          ("short_id", JStr (shortId r))])].

Definition vlessOutbound (tag : Z) (host : string) (p : Z) (uuid : string) (r : option Reality) : jvalue :=
  JObj (server_fields "vless" (outTag tag) host p ++ [("uuid", JStr uuid)] ++ flow_of r ++ jopt "tls" reality_out r).

Definition ssOutbound (tag : Z) (host : string) (p : Z) (psk method : string) : jvalue :=
  JObj (server_fields "shadowsocks" (outTag tag) host p ++ [("method", JStr method); ("password", JStr psk)]).

Definition renderLegCell (tag : string) (leg : ChainLegOut) : jvalue :=
  let t := lo_tag leg in
  let h := lo_host leg in
  jset "tag" (JStr tag)
    match lo_cred leg with
    | Ss2022 p psk method => ssOutbound t h p psk method
    | Hy2 p auth obfs tls => hy2Outbound t h p auth obfs tls
    | Tuic p uuid password congestion tls => tuicOutbound t h p uuid password congestion tls
    | Vless p uuid r => vlessOutbound t h p uuid r
    end.

(** ** Named outbounds *)

(** A field copied from the stored configuration. *)
Definition copied (k from : string) (c : jvalue) : list (string * jvalue) := jopt k id (jfield from c).

(** [{ k: c.from }] when it is a string. *)
Definition copied_str (k from : string) (c : jvalue) : list (string * jvalue) :=
  jopt k JStr (jfield_str from c).

(** [x ?? '']. *)
Definition or_empty (v : option jvalue) : jvalue :=
  match v with Some JNull | None => JStr "" | Some v => v end.

Definition foreign_fingerprint (c : jvalue) (reality : bool) : option string :=
  match jfield_str "fingerprint" c with
  | Some f => Some f
  | None => if reality then Some "firefox" else None
  end.

Definition foreign_tls (c : jvalue) (reality : bool) : jvalue :=
  let fp := foreign_fingerprint c reality in
  JObj ([("enabled", JBool true)] ++ copied_str "server_name" "sni" c ++
        match jfield "alpn" c with Some (JArr (x :: xs)) => [("alpn", JArr (x :: xs))] | _ => [] end ++
        (if truthy fp then jopt "utls" utls fp else []) ++
        (if reality then
           [("reality", JObj ([("enabled", JBool true)] ++ copied "public_key" "realityPublicKey" c ++
                              [("short_id", or_empty (jfield "realityShortId" c))]))]
         else [])).

Definition foreignOutbound (f : ChainForeignOut) : jvalue :=
  let c := fo_config f in
  match fo_type f with
  | FSocks =>
      JObj ([("type", JStr "socks"); ("tag", JStr (outTag (fo_tag f)))] ++ copied "server" "server" c ++
            copied "server_port" "port" c ++ [("version", JStr "5")] ++
            (if bool_decide (is_Some (jfield_str "username" c))
             then copied "username" "username" c ++ copied "password" "password" c else []))
  | FVless =>
      let security := jfield_str "security" c in
      JObj ([("type", JStr "vless"); ("tag", JStr (outTag (fo_tag f)))] ++ copied "server" "server" c ++
            copied "server_port" "port" c ++ copied "uuid" "uuid" c ++ copied_str "flow" "flow" c ++
            (if bool_decide (security = Some "tls" ∨ security = Some "reality")
             then [("tls", foreign_tls c (bool_decide (security = Some "reality")))] else []))
  end.

(** ** The leg in *)

(** [host:port], with the server name as the fallback. *)
Definition splitDest (dest serverName : string) : string * Z :=
  match last_index_of_char ":" dest with
  | Some (S k) =>
      (str_take (S k) dest,
       match js_parseInt (str_drop (S (S k)) dest) with Some p => if 0 <? p then p else 443 | None => 443 end)
  | _ => (serverName, 443)
  end.

Definition shortIdsOf (leg : ChainLegIn) : list string :=
  js_uniq (filter (λ s, s ≠ "")
    (omap cc_shortId (li_clients leg) ++ match reality_of (li_cred leg) with Some r => [shortId r] | None => [] end)).

Definition listener (type : string) (p : Z) : list (string * jvalue) :=
  [("type", JStr type); ("tag", JStr "link-in"); ("listen", JStr "0.0.0.0"); ("listen_port", JNum p)].

Definition vless_client (uuid : string) (r : option Reality) (c : ChainClient) : jvalue :=
  JObj ([("uuid", JStr (default uuid (cc_uuid c))); ("name", JStr (chainLinkUser (cc_tag c)))] ++ flow_of r).

Definition reality_listener (leg : ChainLegIn) (r : Reality) : jvalue :=
  let '(server, p) := splitDest (dest r) (serverName r) in
  JObj [("enabled", JBool true); ("server_name", JStr (serverName r));
        ("reality", JObj [("enabled", JBool true);
           ("handshake", JObj [("server", JStr server); ("server_port", JNum p)]);
           ("private_key", JStr (privateKey r)); ("short_id", JArr (JStr <$> shortIdsOf leg))])].

Definition vlessInbound (leg : ChainLegIn) (p : Z) (uuid : string) (r : option Reality) : jvalue :=
  JObj (listener "vless" p ++ [("users", JArr (vless_client uuid r <$> li_clients leg))] ++
        jopt "tls" (reality_listener leg) r).

Definition ssInbound (p : Z) (psk method : string) : jvalue :=
  JObj (listener "shadowsocks" p ++ [("method", JStr method); ("password", JStr psk)]).

Definition hy2Inbound (p : Z) (auth obfs : string) (t : LinkTls) : jvalue :=
  JObj (listener "hysteria2" p ++ [("users", JArr [JObj [("password", JStr auth)]]); ("obfs", salamander obfs);
    ("tls", legTlsIn t)]).

Definition tuicInbound (p : Z) (uuid password congestion : string) (t : LinkTls) : jvalue :=
  JObj (listener "tuic" p ++ [("users", JArr [JObj [("uuid", JStr uuid); ("password", JStr password)]]);
    ("congestion_control", JStr congestion); ("tls", legTlsIn t)]).

Definition linkInbound (leg : ChainLegIn) : jvalue :=
  match li_cred leg with
  | Ss2022 p psk method => ssInbound p psk method
  | Hy2 p auth obfs tls => hy2Inbound p auth obfs tls
  | Tuic p uuid password congestion tls => tuicInbound p uuid password congestion tls
  | Vless p uuid r => vlessInbound leg p uuid r
  end.

Definition linkInTag (i : nat) : string :=
  match i with O => "link-in" | S _ => "link-in-" +:+ pretty (Z.of_nat i) end.

Definition link_inbounds (leg : ChainLegIn) : list jvalue :=
  let base := linkInbound leg in
  let addrs := match li_listen leg with Some (a :: l) => a :: l | _ => ["0.0.0.0"] end in
  imap (λ i listen,
    if bool_decide (i = O) && bool_decide (listen = "0.0.0.0") then base
    else jset "listen" (JStr listen) (jset "tag" (JStr (linkInTag i)) base)) addrs.

(** ** Rules *)
Definition on_protocol (p : string) (inbounds : list string) : Cond :=
  mkCond inbounds [] [p] [] [] [] no_names no_addresses.
Definition on_port (p : Z) : Cond := mkCond [] [] [] [] [Some p] [] no_names no_addresses.
Definition on_inbound (t : string) : Cond := mkCond [t] [] [] [] [] [] no_names no_addresses.
Definition on_user (u : string) : Cond := mkCond [] [u] [] [] [] [] no_names no_addresses.

Definition protectionRules (hijackOnlyOn : option (list string)) : list RouteRule :=
  [When always Sniff;
   When (on_protocol "dns" (default [] hijackOnlyOn)) HijackDns;
   When (on_port 25) Reject;
   When (on_protocol "bittorrent" []) Reject].

Definition CHAIN_PROTECTION_RULES : nat := 4.

(** [{ ...gate, ...names }] and [{ ...gate, ...addresses }]. *)
Definition gate_names (g : Cond) (m : ChainMatch) : Cond :=
  mkCond (m_inbound g) (m_auth_user g) [] [] [] [] m no_addresses.
Definition gate_addresses (g : Cond) (m : ChainIpMatch) : Cond :=
  mkCond (m_inbound g) (m_auth_user g) [] [] [] [] no_names m.

Definition gates_of (tproxy : option Z) (p : ChainPolicy) : list Cond :=
  [on_user (chainSocksUser (po_ordinal p))] ++
  (if bool_decide (tproxy = Some (po_ordinal p)) then [on_inbound TPROXY_IN_TAG] else []).

Definition gate_rules (p : ChainPolicy) (g : Cond) : list RouteRule :=
  (if chainMatchIsEmpty (po_block p) then [] else [When (gate_names g (po_block p)) Reject]) ++
  (if bool_decide (po_blockIp p = None ∧ po_directIp p = None) then [] else [When g Resolve]) ++
  (match po_blockIp p with Some m => [When (gate_addresses g m) Reject] | None => [] end) ++
  (if chainMatchIsEmpty (po_direct p) then [] else [When (gate_names g (po_direct p)) (RouteTo "direct")]) ++
  (match po_directIp p with Some m => [When (gate_addresses g m) (RouteTo "direct")] | None => [] end).

Definition policyRules (policies : list ChainPolicy) (tproxy : option Z) : list RouteRule :=
  policies ≫= λ p, gates_of tproxy p ≫= gate_rules p.

(** ** One node *)
Section Render.
Context (isIP : string → Z) (input : ChainRenderInput).

Definition is_entry : bool := bool_decide (ri_role input = CEntry).
Definition entry_policies : list ChainPolicy := if is_entry then ri_policies input else [].
Definition entry_tproxy : option Z := if is_entry then ri_tproxy input else None.
Definition exit_policy : option (list RouteRule * option ChainWarp) :=
  if bool_decide (ri_role input = CExit) then ri_exitPolicy input else None.

Definition first_rules : list RouteRule :=
  protectionRules (match entry_tproxy with Some _ => Some (socksTag <$> ri_directionTags input) | None => None end) ++
  policyRules entry_policies entry_tproxy ++
  match exit_policy with Some (rules, _) => rules | None => [] end.

(** Listeners. *)
Definition socks_users : list jvalue :=
  (λ o, JObj [("username", JStr (chainSocksUser o)); ("password", JStr (ri_socksPassword input))]) <$>
    js_uniq (0 :: (po_ordinal <$> entry_policies)).

Definition socks_inbound (tag : Z) : jvalue :=
  JObj [("type", JStr "socks"); ("tag", JStr (socksTag tag)); ("listen", JStr "127.0.0.1");
        ("listen_port", JNum (chainSocksPort tag)); ("users", JArr socks_users)].

Definition tproxy_inbound : jvalue :=
  JObj [("type", JStr "tproxy"); ("tag", JStr TPROXY_IN_TAG); ("listen", JStr "127.0.0.1");
        ("listen_port", JNum CHAIN_TPROXY_PORT)].

Definition inbounds : list jvalue :=
  if is_entry then
    (socks_inbound <$> ri_directionTags input) ++ match entry_tproxy with Some _ => [tproxy_inbound] | None => [] end
  else match ri_in input with Some leg => link_inbounds leg | None => [] end.

(** Ways out. *)
Definition legsByDirection : list (Z * list ChainLegOut) :=
  foldl (group_add lo_tag (λ _, []) (λ l leg, l ++ [leg])) [] (ri_out input).

(** The family a leg over the internet is pinned to. *)
Definition leg_family (leg : ChainLegOut) : option DialFamily :=
  if truthy (lo_via leg) then None else dialFamilyOf isIP (ri_selfHost input) (lo_host leg).

Definition renderLeg (tag : string) (leg : ChainLegOut) : jvalue :=
  let rendered := renderLegCell tag leg in
  if truthy (lo_via leg) then jset "bind_interface" (JStr (default "" (lo_via leg))) rendered
  else foldl (λ o kv, jset kv.1 kv.2 o) rendered (singboxDialFields (leg_family leg)).

(** [legDns]: set while a leg is rendered, and every leg is. *)
Definition legDns : bool := existsb (λ leg, bool_decide (is_Some (leg_family leg))) (ri_out input).

Definition direction_outbounds (e : Z * list ChainLegOut) : list jvalue :=
  match e with
  | (tag, [leg]) => [renderLeg (outTag tag) leg]
  | (tag, legs) =>
      imap (λ i leg, renderLeg (poolLegTag tag i) leg) legs ++
      [urltestOutbound (outTag tag) (imap (λ i _, poolLegTag tag i) legs)]
  end.

Definition by_direction : list (Z * list ChainLegOut) := sort_by (λ a b, a.1 <=? b.1) legsByDirection.

Definition foreign_drawn : list ChainForeignOut :=
  filter (λ f, fo_tag f ∉ jm_keys legsByDirection) (sort_by (λ a b, fo_tag a <=? fo_tag b) (ri_foreign input)).

Definition directionsWithLegs : list Z := sort_by Z.leb ((fst <$> by_direction) ++ (fo_tag <$> foreign_drawn)).

Definition wantsAuto : bool :=
  is_entry && bool_decide (AUTO_TAG ∈ ri_directionTags input) && bool_decide (AUTO_TAG ∉ jm_keys legsByDirection).

Definition auto_outbounds : list jvalue :=
  if wantsAuto && (0 <? length directionsWithLegs)%nat
  then [urltestOutbound (outTag AUTO_TAG) (outTag <$> directionsWithLegs)] else [].

Definition direct_outbound : jvalue := JObj [("type", JStr "direct"); ("tag", JStr "direct")].

Definition outbounds : list jvalue :=
  (by_direction ≫= direction_outbounds) ++ (foreignOutbound <$> foreign_drawn) ++ auto_outbounds ++ [direct_outbound].

(** Doors. *)
Definition has_way_out (tag : Z) : bool := existsb (λ o, bool_decide (out_tag o = Some (outTag tag))) outbounds.

Definition ways_out : list Z := js_uniq ((lo_tag <$> ri_out input) ++ (fo_tag <$> ri_foreign input)).

Definition is_vless (c : LinkCred) : bool := bool_decide (protocol c = "vless").

Definition transit_rules (leg : ChainLegIn) : list RouteRule :=
  if negb (is_vless (li_cred leg)) && (1 <? length ways_out)%nat then [When (on_network ["tcp"; "udp"]) Reject]
  else if is_vless (li_cred leg) then
    (λ c, When (on_user (chainLinkUser (cc_tag c))) (RouteTo (outTag (cc_tag c)))) <$>
      filter (λ c, cc_tag c ∈ (lo_tag <$> ri_out input) ++ (fo_tag <$> ri_foreign input)) (li_clients leg)
  else [].

Definition last_rules : list RouteRule :=
  match ri_role input with
  | CEntry =>
      ((λ tag, When (on_inbound (socksTag tag)) (RouteTo (outTag tag))) <$>
         filter (λ tag, has_way_out tag = true) (ri_directionTags input)) ++
      (match entry_tproxy with
       | Some _ => if has_way_out AUTO_TAG then [When (on_inbound TPROXY_IN_TAG) (RouteTo (outTag AUTO_TAG))] else []
       | None => []
       end)
  | CTransit => match ri_in input with Some leg => transit_rules leg | None => [] end
  | CExit => []
  end.

Definition rule_set_refs : list (string * string) :=
  if (is_entry && (0 <? length entry_policies)%nat) ||
     match exit_policy with Some (rules, _) => (0 <? length rules)%nat | None => false end
  then ri_ruleSets input else [].

Definition rule_set_json (r : string * string) : jvalue :=
  JObj [("type", JStr "local"); ("tag", JStr r.1); ("format", JStr "source"); ("path", JStr r.2)].

Definition renderChainConfig : ChainConfig :=
  mkChainConfig
    (if legDns then [JObj [("type", JStr "local"); ("tag", JStr LEG_DNS_TAG)]] else [])
    inbounds outbounds
    (match exit_policy with Some (_, Some w) => [warpEndpoint w] | _ => [] end)
    (first_rules ++ last_rules)
    (match exit_policy with Some _ => Some "direct" | None => None end)
    (rule_set_json <$> rule_set_refs).
End Render.
