(* ===== verification/ChainRoutes.v ===== *)
(** What a chain configuration does with a connection
    (apps/panel-backend/src/modules/cascades/chain.config.ts): a configuration
    the engine loads, the way a connection handed over at an entry takes, and
    the doors of a transit and an exit. *)

From S2P Require Import Prelude Js Json LinkCreds PolicyEntries EntryGate XrayLinks TopologyFragments.
From S2P Require Import SingBox ChainPolicy ChainConfig.

Local Open Scope string_scope.
Local Open Scope list_scope.
Local Open Scope Z_scope.

(** ** Reading a configuration *)
Definition ob_type (o : jvalue) : option string := jfield_str "type" o.

(** The members of a group that picks the fastest. *)
Definition group_members (o : jvalue) : option (list string) :=
  if bool_decide (ob_type o = Some "urltest") then Some (jstrs (default JNull (jfield "outbounds" o))) else None.

(** The outbounds a tag may lead to: a group leads to any of its members. *)
Inductive way_out (outs : list jvalue) : string → jvalue → Prop :=
  | way_leaf t o : o ∈ outs → out_tag o = Some t → group_members o = None → way_out outs t o
  | way_group t g ms m o : g ∈ outs → out_tag g = Some t → group_members g = Some ms → m ∈ ms →
      way_out outs m o → way_out outs t o.

(** What a tag of a route names: an outbound or an endpoint. *)
Definition exits (cfg : ChainConfig) : list jvalue := cf_outbounds cfg ++ cf_endpoints cfg.

(** The default way out: named, or the first outbound. *)
Definition default_out (cfg : ChainConfig) : string :=
  default (default "" (o ← head (cf_outbounds cfg); out_tag o)) (cf_final cfg).

Definition leaves_by (cfg : ChainConfig) (fl : Flow) : Verdict :=
  default (Leaves (default_out cfg)) (read_rules fl (cf_rules cfg) fresh).

(** ** Names *)
Lemma outTag_inj a b : 0 <= a → 0 <= b → outTag a = outTag b → a = b.
Proof. intros Ha Hb E. apply str_app_inj in E. by apply pretty_Z_inj. Qed.

Lemma socksTag_inj a b : 0 <= a → 0 <= b → socksTag a = socksTag b → a = b.
Proof. intros Ha Hb E. apply str_app_inj in E. by apply pretty_Z_inj. Qed.

Lemma chainSocksUser_inj a b : 0 <= a → 0 <= b → chainSocksUser a = chainSocksUser b → a = b.
Proof. intros Ha Hb E. unfold chainSocksUser in E. apply (str_app_inj "p") in E. by apply pretty_Z_inj. Qed.

Lemma chainLinkUser_inj a b : 0 <= a → 0 <= b → chainLinkUser a = chainLinkUser b → a = b.
Proof. intros Ha Hb E. apply str_app_inj in E. by apply pretty_Z_inj. Qed.

Lemma poolLegTag_inj a b i j : 0 <= a → 0 <= b → poolLegTag a i = poolLegTag b j → a = b ∧ i = j.
Proof.
  intros Ha Hb E. unfold poolLegTag, outTag in E. rewrite !str_app_assoc in E. apply str_app_inj in E.
  apply (number_sep_inj "-") in E as [-> E]; [|done..]. split; [done|]. apply pretty_Z_inj in E; lia.
Qed.

Lemma pool_not_out a b i : 0 <= a → 0 <= b → poolLegTag a i ≠ outTag b.
Proof.
  intros Ha Hb E. unfold poolLegTag, outTag in E. rewrite str_app_assoc in E. apply str_app_inj in E.
  symmetry in E. apply pretty_no_dash in E; [|done]. rewrite str_has_app in E. by apply orb_false_iff in E as [_ ?].
Qed.

Lemma out_not_fixed t : t = "direct" ∨ t = CHAIN_WARP_TAG → ∀ r, "out-d" +:+ r ≠ t.
Proof. by intros [-> | ->] r. Qed.

Lemma socks_not_tproxy a : 0 <= a → socksTag a ≠ TPROXY_IN_TAG.
Proof. intros Ha E. apply (str_app_inj "in-") in E. done. Qed.

(** ** Shapes of the JSON *)
Lemma jset_obj k v fs : ∃ fs', jset k v (JObj fs) = JObj fs'.
Proof. by eexists. Qed.

Lemma jfield_jset k k' v fs :
  jfield k (jset k' v (JObj fs)) = if decide (k = k') then Some v else jfield k (JObj fs).
Proof. simpl. apply jm_get_set. Qed.

(** A leg's outbound under a tag. *)
Record leg_shape (tag : string) (leg : ChainLegOut) (o : jvalue) : Prop := {
  ls_obj : ∃ fs, o = JObj fs;
  ls_tag : out_tag o = Some tag;
  ls_group : group_members o = None
}.

Lemma renderLegCell_shape tag leg : leg_shape tag leg (renderLegCell tag leg).
Proof.
  destruct leg as [t h c via]. destruct c; split; try (by eexists); try done; by destruct reality.
Qed.

Lemma jset_shape tag leg k v o : k ≠ "tag" → k ≠ "type" → k ≠ "outbounds" → leg_shape tag leg o →
  leg_shape tag leg (jset k v o).
Proof.
  intros H1 H2 H3 [[fs ->] Ht Hg]. split; [by eexists| |].
  - unfold out_tag, jfield_str in *. by rewrite jfield_jset, decide_False.
  - unfold group_members, ob_type, jfield_str in *. by rewrite jfield_jset, decide_False, !jfield_jset, decide_False.
Qed.

Section Config.
Context (isIP : string → Z) (input : ChainRenderInput).

Notation cfg := (renderChainConfig isIP input).

Lemma renderLeg_shape tag leg : leg_shape tag leg (renderLeg isIP input tag leg).
Proof.
  unfold renderLeg. destruct (truthy (lo_via leg)); [apply jset_shape; try done; apply renderLegCell_shape|].
  unfold singboxDialFields. destruct (leg_family isIP input leg); simpl; [|apply renderLegCell_shape].
  apply jset_shape; try done. apply renderLegCell_shape.
Qed.

Lemma foreign_shape f : out_tag (foreignOutbound f) = Some (outTag (fo_tag f)) ∧ group_members (foreignOutbound f) = None.
Proof. by destruct f as [t [] c]. Qed.

Lemma urltest_shape t over : out_tag (urltestOutbound t over) = Some t ∧ group_members (urltestOutbound t over) = Some over.
Proof. split; [done|]. unfold group_members. simpl. f_equal. apply jstrs_map. Qed.

(** ** Legs by direction *)
Definition legs_to (d : Z) : list ChainLegOut := filter (λ l, lo_tag l = d) (ri_out input).

Lemma group_legs (l : list ChainLegOut) : foldl (λ l leg, l ++ [leg]) [] l = l.
Proof.
  assert (∀ acc, foldl (λ (l : list ChainLegOut) leg, l ++ [leg]) acc l = acc ++ l) as H; [|apply H].
  induction l as [|x l IH]; intros acc; simpl; [by rewrite app_nil_r|]. by rewrite IH, <-app_assoc.
Qed.

Lemma legs_wf : jm_wf (legsByDirection input).
Proof. apply jm_wf_group. Qed.

Lemma legs_get d : jm_get d (legsByDirection input) = if bool_decide (legs_to d = []) then None else Some (legs_to d).
Proof.
  unfold legsByDirection. rewrite jm_get_group. fold (legs_to d). destruct (legs_to d) as [|x l]; [done|].
  unfold group_value. by rewrite group_legs.
Qed.

Lemma legs_keys d : d ∈ jm_keys (legsByDirection input) ↔ legs_to d ≠ [].
Proof. rewrite <-jm_get_is_Some, legs_get. case_bool_decide as E; rewrite E || idtac; split; try done; by intros []. Qed.

Lemma legs_to_nil d : legs_to d ≠ [] ↔ d ∈ lo_tag <$> ri_out input.
Proof.
  unfold legs_to. split.
  - intros H. destruct (filter _ _) as [|x l] eqn:E; [done|]. assert (x ∈ x :: l) as Hx by set_solver.
    rewrite <-E in Hx. apply list_elem_of_filter in Hx as [<- ?]. by apply list_elem_of_fmap_2.
  - intros (x & -> & Hx)%list_elem_of_fmap E.
    assert (x ∈ filter (λ l, lo_tag l = lo_tag x) (ri_out input)) as H by (by apply list_elem_of_filter).
    rewrite E in H. by apply not_elem_of_nil in H.
Qed.

Lemma by_direction_elem e : e ∈ by_direction input ↔ legs_to e.1 ≠ [] ∧ e.2 = legs_to e.1.
Proof.
  unfold by_direction. rewrite elem_of_sort_by. destruct e as [d legs]. simpl. split.
  - intros H. apply (jm_elem_get _ _ _ legs_wf) in H. rewrite legs_get in H. case_bool_decide; [done|].
    by injection H as <-.
  - intros [Hne ->]. apply jm_get_Some_elem. rewrite legs_get. by rewrite bool_decide_false.
Qed.

Lemma by_direction_NoDup : NoDup (by_direction input).*1.
Proof. unfold by_direction. rewrite sort_by_perm. apply legs_wf. Qed.

Lemma by_direction_keys d : d ∈ (by_direction input).*1 ↔ legs_to d ≠ [].
Proof. unfold by_direction. rewrite sort_by_perm. apply legs_keys. Qed.

(** The tag a leg wears: the direction's, or one of its own in a pool. *)
Definition leg_tag (d : Z) (i : nat) : string :=
  if bool_decide (length (legs_to d) = 1%nat) then outTag d else poolLegTag d i.

Definition dir_tags (e : Z * list ChainLegOut) : list string :=
  match e with
  | (d, [_]) => [outTag d]
  | (d, legs) => imap (λ i _, poolLegTag d i) legs ++ [outTag d]
  end.

Lemma imap_tags {A} (f : nat → A → jvalue) (g : nat → A → string) l :
  (∀ i x, out_tag (f i x) = Some (g i x)) → out_tag <$> imap f l = Some <$> imap g l.
Proof. intros H. rewrite !fmap_imap. apply imap_ext. intros i x _. apply H. Qed.

Lemma direction_outbounds_tags e : out_tag <$> direction_outbounds isIP input e = Some <$> dir_tags e.
Proof.
  assert (∀ d legs, out_tag <$> imap (λ i leg, renderLeg isIP input (poolLegTag d i) leg) legs
    = Some <$> imap (λ i _, poolLegTag d i) legs) as H.
  { intros d legs. apply imap_tags. intros i x. apply renderLeg_shape. }
  destruct e as [d [|x [|y legs]]]; [done| |].
  - simpl. f_equal. apply renderLeg_shape.
  - unfold direction_outbounds, dir_tags. rewrite !fmap_app. f_equal; apply H || done.
Qed.

Lemma dir_tags_elem e t : t ∈ dir_tags e → t = outTag e.1 ∨ ∃ i, t = poolLegTag e.1 i.
Proof.
  destruct e as [d legs]. intros H. assert (t ∈ imap (λ i _, poolLegTag d i) legs ++ [outTag d]) as H'.
  { destruct legs as [|x [|y legs]]; [done| |done]. simpl in *. set_solver. }
  apply elem_of_app in H' as [H'|H']; [|set_solver]. right. apply elem_of_lookup_imap in H' as (i & x & -> & _).
  by exists i.
Qed.

Lemma dir_tags_out e : e.2 ≠ [] → outTag e.1 ∈ dir_tags e.
Proof. destruct e as [d [|x [|y legs]]]; simpl; [done|set_solver..]. Qed.

(** ** An input the panel makes *)

(** Tags are issued from 1 up, to one direction each; a way out for every
    direction offered; the policies are numbered from 1; what a rule of the
    exit policy routes to and reads is there. *)
Record chain_legal : Prop := {
  cl_legs : ∀ l, l ∈ ri_out input → 0 < lo_tag l;
  cl_foreign : ∀ f, f ∈ ri_foreign input → 0 < fo_tag f;
  cl_foreign_once : NoDup (fo_tag <$> ri_foreign input);
  cl_tags : NoDup (ri_directionTags input);
  cl_offered : ∀ d, d ∈ ri_directionTags input → d = 0 ∨ d ∈ ways_out input;
  cl_entry : ri_role input = CEntry → ways_out input ≠ [];
  cl_tproxy : is_Some (entry_tproxy input) → 0 ∈ ri_directionTags input;
  cl_ordinals : NoDup (po_ordinal <$> entry_policies input) ∧ ∀ p, p ∈ entry_policies input → 0 < po_ordinal p;
  cl_listen : ∀ leg a, ri_in input = Some leg → li_listen leg = Some a → NoDup a;
  cl_sets : NoDup (rule_set_refs input).*1 ∧
    ∀ r s, r ∈ first_rules input → s ∈ rule_sets r → s ∈ (rule_set_refs input).*1;
  cl_exit : ∀ rules w r t, exit_policy input = Some (rules, w) → r ∈ rules → rule_action r = RouteTo t →
    t = "direct" ∨ (t = CHAIN_WARP_TAG ∧ is_Some w)
}.

Hypothesis Hl : chain_legal.

Lemma ways_out_elem d : d ∈ ways_out input ↔ legs_to d ≠ [] ∨ d ∈ fo_tag <$> ri_foreign input.
Proof. unfold ways_out. rewrite elem_of_js_uniq, elem_of_app. by rewrite legs_to_nil. Qed.

Lemma legs_to_range d : legs_to d ≠ [] → 0 < d.
Proof. rewrite legs_to_nil. intros (l & -> & H)%list_elem_of_fmap. by apply (cl_legs Hl). Qed.

Lemma ways_out_range d : d ∈ ways_out input → 0 < d.
Proof.
  rewrite ways_out_elem. intros [H|(f & -> & H)%list_elem_of_fmap]; [by apply legs_to_range|by apply (cl_foreign Hl)].
Qed.

Lemma offered_range d : d ∈ ri_directionTags input → 0 <= d.
Proof. intros H. destruct (cl_offered Hl d H) as [->|Hd%ways_out_range]; lia. Qed.

Lemma foreign_drawn_elem f : f ∈ foreign_drawn input ↔ f ∈ ri_foreign input ∧ legs_to (fo_tag f) = [].
Proof.
  unfold foreign_drawn. rewrite list_elem_of_filter, elem_of_sort_by, legs_keys. split.
  - intros [H ?]. split; [done|]. destruct (decide (legs_to (fo_tag f) = [])); [done|tauto].
  - intros [? H]. split; [by rewrite H; intros []|done].
Qed.

Lemma foreign_drawn_NoDup : NoDup (fo_tag <$> foreign_drawn input).
Proof.
  unfold foreign_drawn. apply NoDup_fmap_filter. rewrite sort_by_perm. apply (cl_foreign_once Hl).
Qed.

Lemma directions_elem d : d ∈ directionsWithLegs input ↔ d ∈ ways_out input.
Proof.
  unfold directionsWithLegs. rewrite elem_of_sort_by, elem_of_app, ways_out_elem, by_direction_keys. split.
  - intros [?|(f & -> & H)%list_elem_of_fmap]; [by left|]. right. apply foreign_drawn_elem in H as [? _].
    by apply list_elem_of_fmap_2.
  - intros [?|H]; [by left|]. destruct (decide (legs_to d = [])) as [E|]; [|by left]. right.
    apply list_elem_of_fmap in H as (f & -> & H). apply list_elem_of_fmap_2, foreign_drawn_elem. done.
Qed.

(** ** Distinct tags *)
Definition auto_on : bool := wantsAuto input && (0 <? length (directionsWithLegs input))%nat.

Definition all_tags : list string :=
  (by_direction input ≫= dir_tags) ++ ((λ f, outTag (fo_tag f)) <$> foreign_drawn input) ++
  (if auto_on then [outTag AUTO_TAG] else []) ++ ["direct"].

Lemma outbounds_tags : out_tag <$> outbounds isIP input = Some <$> all_tags.
Proof.
  unfold outbounds, all_tags. rewrite !fmap_app. f_equal; [|f_equal; [|f_equal]].
  - induction (by_direction input) as [|e l IH]; [done|]. rewrite !bind_cons, !fmap_app, IH.
    by rewrite direction_outbounds_tags.
  - rewrite <-!list_fmap_compose. apply list_fmap_ext. intros i f _. apply foreign_shape.
  - unfold auto_outbounds, auto_on. by destruct (_ && _).
Qed.

Lemma directional t : t ∈ by_direction input ≫= dir_tags →
  ∃ d, legs_to d ≠ [] ∧ 0 < d ∧ (t = outTag d ∨ ∃ i, t = poolLegTag d i).
Proof.
  intros (e & Ht & He)%list_elem_of_bind. apply by_direction_elem in He as [Hne _]. apply dir_tags_elem in Ht.
  exists e.1. split; [done|]. split; [by apply legs_to_range|done].
Qed.

Lemma dir_tags_NoDup e : 0 < e.1 → NoDup (dir_tags e).
Proof.
  destruct e as [d legs]. simpl. intros Hd.
  assert (NoDup (imap (λ i (_ : ChainLegOut), poolLegTag d i) legs ++ [outTag d])) as H.
  { apply NoDup_app. split; [|split; [|apply NoDup_singleton]].
    - apply NoDup_alt. intros i j x Hi Hj. rewrite list_lookup_imap in Hi, Hj.
      destruct (legs !! i), (legs !! j); try done. assert (poolLegTag d i = poolLegTag d j) as E by (simpl in *; congruence).
      apply poolLegTag_inj in E as [_ ?]; [done|lia..].
    - intros x (i & y & -> & _)%elem_of_lookup_imap Hx. apply list_elem_of_singleton in Hx.
      apply pool_not_out in Hx; [done|lia..]. }
  destruct legs as [|x [|y legs]]; [done|apply NoDup_singleton|exact H].
Qed.

Lemma all_tags_NoDup : NoDup all_tags.
Proof.
  assert (∀ t d, t ∈ by_direction input ≫= dir_tags → t = outTag d → 0 <= d → legs_to d ≠ []) as Hout.
  { intros t d Ht E Hd. apply directional in Ht as (d' & Hne & Hd' & [->|[i ->]]).
    - apply outTag_inj in E; [by subst|lia..].
    - by apply pool_not_out in E; [|lia..]. }
  unfold all_tags. apply NoDup_app. split; [|split].
  - apply NoDup_bind.
    + intros e1 e2 t H1 H2 Ht1 Ht2. pose proof H1 as H1'. pose proof H2 as H2'.
      apply by_direction_elem in H1 as [Hn1 E1], H2 as [Hn2 E2]. apply legs_to_range in Hn1, Hn2.
      apply dir_tags_elem in Ht1, Ht2. apply (NoDup_fmap_elem fst (by_direction input)); [apply by_direction_NoDup|done..|].
      destruct Ht1 as [->|[i ->]], Ht2 as [E|[j E]].
      * apply outTag_inj in E; lia.
      * symmetry in E. apply pool_not_out in E; [done|lia..].
      * apply pool_not_out in E; [done|lia..].
      * apply poolLegTag_inj in E; lia.
    + intros e He. apply dir_tags_NoDup. apply by_direction_elem in He as [Hne _]. by apply legs_to_range.
    + apply (NoDup_fmap_1 fst), by_direction_NoDup.
  - intros t Ht. rewrite !elem_of_app. intros [H|[H|H]].
    + apply list_elem_of_fmap in H as (f & E & Hf). apply foreign_drawn_elem in Hf as [Hf Hno].
      apply (Hout t (fo_tag f)); [done..| |done]. pose proof (cl_foreign Hl f Hf). lia.
    + destruct auto_on; [|by apply not_elem_of_nil in H]. apply list_elem_of_singleton in H.
      pose proof (legs_to_range 0 (Hout t 0 Ht H ltac:(lia))). lia.
    + apply list_elem_of_singleton in H. apply directional in Ht as (d & _ & _ & [->|[i ->]]); [done|].
      unfold poolLegTag, outTag in H. rewrite str_app_assoc in H. by eapply (out_not_fixed "direct"); [by left|].
  - apply NoDup_app. split; [|split].
    + rewrite (list_fmap_compose fo_tag outTag). apply NoDup_fmap_2_strong; [|apply foreign_drawn_NoDup].
      intros a b Ha Hb E. apply outTag_inj in E; [done|..].
      all: apply list_elem_of_fmap in Ha as (f & -> & Hf), Hb as (g & -> & Hg);
        apply foreign_drawn_elem in Hf as [Hf _], Hg as [Hg _];
        pose proof (cl_foreign Hl f Hf); pose proof (cl_foreign Hl g Hg); lia.
    + intros t (f & -> & Hf)%list_elem_of_fmap. apply foreign_drawn_elem in Hf as [Hf _].
      pose proof (cl_foreign Hl f Hf) as Hpos. rewrite elem_of_app. intros [H|H].
      * destruct auto_on; [|by apply not_elem_of_nil in H]. apply list_elem_of_singleton, outTag_inj in H; unfold AUTO_TAG in *; lia.
      * by apply list_elem_of_singleton in H.
    + apply NoDup_app. split; [|split; [|apply NoDup_singleton]].
      * destruct auto_on; [apply NoDup_singleton|apply NoDup_nil_2].
      * intros t H1 H2. apply list_elem_of_singleton in H2 as ->. destruct auto_on; [|by apply not_elem_of_nil in H1].
        by apply list_elem_of_singleton in H1.
Qed.

(** ** Where a tag leads *)
Notation outs := (outbounds isIP input).

Lemma outbounds_NoDup : NoDup (out_tag <$> outs).
Proof. rewrite outbounds_tags. apply NoDup_fmap_2; [intros ?? [=]; done|apply all_tags_NoDup]. Qed.

Lemma way_out_unfold t g o : g ∈ outs → out_tag g = Some t →
  way_out outs t o ↔ match group_members g with None => o = g | Some ms => ∃ m, m ∈ ms ∧ way_out outs m o end.
Proof.
  intros Hg Ht. assert (∀ g', g' ∈ outs → out_tag g' = Some t → g' = g) as Hu.
  { intros g' Hg' Ht'. apply (NoDup_fmap_elem out_tag outs); [apply outbounds_NoDup|done..|congruence]. }
  split.
  - inversion 1 as [? o' Ho Hto Hno|? g' ms m o' Hg' Htg Hms Hm Hw]; subst.
    + rewrite <-(Hu o) by done. by rewrite Hno.
    + rewrite <-(Hu g') by done. rewrite Hms. by exists m.
  - destruct (group_members g) as [ms|] eqn:E; [|intros ->; by apply way_leaf].
    intros (m & Hm & Hw). by eapply way_group.
Qed.

(** The outbounds of a direction: its legs, or its named outbound. *)
Definition reaches (d : Z) (o : jvalue) : Prop :=
  (∃ i leg, legs_to d !! i = Some leg ∧ o = renderLeg isIP input (leg_tag d i) leg) ∨
  (legs_to d = [] ∧ ∃ f, f ∈ ri_foreign input ∧ fo_tag f = d ∧ o = foreignOutbound f).

Lemma direction_in e o : e ∈ by_direction input → o ∈ direction_outbounds isIP input e → o ∈ outs.
Proof.
  intros He Ho. unfold outbounds. rewrite elem_of_app. left. apply list_elem_of_bind. by exists e.
Qed.

Lemma way_direction d o : d ∈ ways_out input → way_out outs (outTag d) o ↔ reaches d o.
Proof.
  intros Hd. unfold reaches. destruct (decide (legs_to d = [])) as [E|Hne].
  - apply ways_out_elem in Hd as [?|Hd]; [done|]. apply list_elem_of_fmap in Hd as (f & -> & Hf).
    destruct (foreign_shape f) as [Ht Hg]. assert (foreignOutbound f ∈ outs) as Hin.
    { unfold outbounds. rewrite !elem_of_app. right. left. by apply list_elem_of_fmap_2, foreign_drawn_elem. }
    rewrite (way_out_unfold _ _ _ Hin Ht), Hg. split.
    + intros ->. right. split; [done|]. by exists f.
    + rewrite E. intros [(i & leg & H & _)|(_ & f' & Hf' & Etag & ->)]; [done|]. f_equal.
      by apply (NoDup_fmap_elem fo_tag (ri_foreign input)); [apply (cl_foreign_once Hl)|..].
  - assert ((d, legs_to d) ∈ by_direction input) as He by (by apply by_direction_elem).
    pose proof (λ o, direction_in _ o He) as Hin. unfold leg_tag.
    transitivity (∃ i leg, legs_to d !! i = Some leg ∧ o = renderLeg isIP input
      (if bool_decide (length (legs_to d) = 1%nat) then outTag d else poolLegTag d i) leg).
    2: { split; [by left|]. intros [?|[? _]]; done. }
    destruct (legs_to d) as [|x [|y legs]] eqn:El; [done| |].
    + assert (renderLeg isIP input (outTag d) x ∈ outs) as Hx by (apply Hin; simpl; set_solver).
      destruct (renderLeg_shape (outTag d) x) as [_ Ht Hg].
      rewrite (way_out_unfold _ _ _ Hx Ht), Hg. rewrite bool_decide_true by done. split.
      * intros ->. by exists 0%nat, x.
      * intros ([|i] & leg & Hi & ->); [by injection Hi as <-|done].
    + set (ls := x :: y :: legs) in *.
      assert (urltestOutbound (outTag d) (imap (λ i _, poolLegTag d i) ls) ∈ outs) as Hg.
      { apply Hin. unfold direction_outbounds, ls. rewrite elem_of_app. right. set_solver. }
      destruct (urltest_shape (outTag d) (imap (λ i _, poolLegTag d i) ls)) as [Ht Hm].
      rewrite (way_out_unfold _ _ _ Hg Ht), Hm. rewrite bool_decide_false by done.
      assert (∀ i leg, ls !! i = Some leg → renderLeg isIP input (poolLegTag d i) leg ∈ outs) as Hleg.
      { intros i leg Hi. apply Hin. unfold direction_outbounds, ls. rewrite elem_of_app. left.
        apply elem_of_lookup_imap. by exists i, leg. }
      split.
      * intros (m & (i & leg & -> & Hi)%elem_of_lookup_imap & Hw). exists i, leg. split; [done|].
        destruct (renderLeg_shape (poolLegTag d i) leg) as [_ Ht' Hg'].
        by rewrite (way_out_unfold _ _ _ (Hleg i leg Hi) Ht'), Hg' in Hw.
      * intros (i & leg & Hi & ->). exists (poolLegTag d i). split; [apply elem_of_lookup_imap; by exists i, leg|].
        destruct (renderLeg_shape (poolLegTag d i) leg) as [_ Ht' Hg'].
        apply way_leaf; [by apply Hleg|done..].
Qed.

Lemma legs_to_zero : legs_to 0 = [].
Proof. destruct (decide (legs_to 0 = [])) as [|H]; [done|]. apply legs_to_range in H. lia. Qed.

Lemma auto_drawn : ri_role input = CEntry → 0 ∈ ri_directionTags input →
  auto_outbounds input = [urltestOutbound (outTag AUTO_TAG) (outTag <$> directionsWithLegs input)].
Proof.
  intros Hr H0. unfold auto_outbounds, wantsAuto, is_entry. rewrite Hr.
  rewrite (bool_decide_true (CEntry = CEntry)) by done. rewrite (bool_decide_true (AUTO_TAG ∈ ri_directionTags input) H0).
  rewrite bool_decide_true by (intros ?%legs_keys%legs_to_range; unfold AUTO_TAG in *; lia).
  assert (directionsWithLegs input ≠ []) as Hne.
  { intros E. apply (cl_entry Hl Hr). apply elem_of_nil_inv. intros d Hd. apply directions_elem in Hd.
    rewrite E in Hd. by apply not_elem_of_nil in Hd. }
  by destruct (directionsWithLegs input).
Qed.

Lemma way_auto o : ri_role input = CEntry → 0 ∈ ri_directionTags input →
  way_out outs (outTag 0) o ↔ ∃ d, d ∈ ways_out input ∧ reaches d o.
Proof.
  intros Hr H0. pose proof (auto_drawn Hr H0) as Ha.
  assert (urltestOutbound (outTag 0) (outTag <$> directionsWithLegs input) ∈ outs) as Hin.
  { unfold outbounds. rewrite Ha, !elem_of_app. right. right. left. set_solver. }
  destruct (urltest_shape (outTag 0) (outTag <$> directionsWithLegs input)) as [Ht Hm].
  rewrite (way_out_unfold _ _ _ Hin Ht), Hm. split.
  - intros (m & (d & -> & Hd)%list_elem_of_fmap & Hw). apply directions_elem in Hd. exists d. split; [done|].
    by apply way_direction.
  - intros (d & Hd & Hw). exists (outTag d). split; [by apply list_elem_of_fmap_2, directions_elem|].
    by apply way_direction.
Qed.

Lemma direct_in : direct_outbound ∈ outs.
Proof. unfold outbounds. rewrite !elem_of_app. do 3 right. set_solver. Qed.

Lemma out_tag_in d : d ∈ ways_out input → outTag d ∈ all_tags.
Proof.
  intros Hd. unfold all_tags. rewrite !elem_of_app. destruct (decide (legs_to d = [])) as [E|Hne].
  - right. left. apply ways_out_elem in Hd as [?|Hd]; [done|]. apply list_elem_of_fmap in Hd as (f & -> & Hf).
    apply list_elem_of_fmap. exists f. split; [done|]. by apply foreign_drawn_elem.
  - left. apply list_elem_of_bind. exists (d, legs_to d). split; [by apply (dir_tags_out (d, legs_to d))|].
    by apply by_direction_elem.
Qed.

Lemma has_way_out_iff d : has_way_out isIP input d = true ↔ outTag d ∈ all_tags.
Proof.
  unfold has_way_out. rewrite existsb_in. split.
  - intros (o & Ho & Ht%bool_decide_eq_true). apply (list_elem_of_fmap_2 out_tag) in Ho.
    rewrite outbounds_tags, Ht in Ho. apply list_elem_of_fmap in Ho as (x & [= <-] & ?). done.
  - intros H. assert (Some (outTag d) ∈ out_tag <$> outs) as Hin by (rewrite outbounds_tags; by apply list_elem_of_fmap_2).
    apply list_elem_of_fmap in Hin as (o & Ht & Ho). exists o. split; [done|]. by rewrite bool_decide_true.
Qed.

Lemma has_way_offered d : ri_role input = CEntry → d ∈ ri_directionTags input → has_way_out isIP input d = true.
Proof.
  intros Hr Hd. apply has_way_out_iff. destruct (cl_offered Hl d Hd) as [->|Hw]; [|by apply out_tag_in].
  unfold all_tags, auto_on. pose proof (auto_drawn Hr Hd) as Ha. unfold auto_outbounds in Ha.
  rewrite !elem_of_app. right. right. left. destruct (_ && _); [set_solver|done].
Qed.
End Config.

#[local] Arguments splitPolicyEntries : simpl never.
#[local] Arguments names_hit : simpl never.
#[local] Arguments addresses_hit : simpl never.

(** ** The rules in front *)

(** The protections: [hijack] is whether the lookups of this connection are
    answered here. *)
Definition protected (fl : Flow) (hijack : bool) : option Verdict :=
  if hijack && bool_decide (fl_protocol fl = Some "dns") then Some Hijacked
  else if fl_port fl =? 25 then Some Dropped
  else if bool_decide (fl_protocol fl = Some "bittorrent") then Some Dropped
  else None.

Definition hijacks (fl : Flow) (only : option (list string)) : bool :=
  hit (λ t, bool_decide (t = fl_inbound fl)) (default [] only).

Lemma protection_reads fl only rest :
  read_rules fl (protectionRules only ++ rest) fresh =
  match protected fl (hijacks fl only) with Some v => Some v | None => read_rules fl rest (mkSeen true false) end.
Proof.
  unfold protectionRules, protected, hijacks. simpl.
  assert (∀ s p ins, cond_hit fl s (on_protocol p ins)
    = hit (λ t, bool_decide (t = fl_inbound fl)) ins && (sniffed s && bool_decide (fl_protocol fl = Some p))) as Hp.
  { intros s p ins. unfold cond_hit, on_protocol, protocol_hit. simpl. rewrite hit_one. by rewrite !andb_true_r. }
  assert (cond_hit fl (mkSeen true false) (on_port 25) = (fl_port fl =? 25)) as H25.
  { unfold cond_hit. simpl. unfold port_hit. simpl. rewrite !orb_false_r, andb_true_r.
    destruct (Z.eqb_spec (fl_port fl) 25) as [->|Hne]; [by apply bool_decide_eq_true|].
    apply bool_decide_eq_false. intros [= E]. congruence. }
  rewrite !Hp, H25. simpl. by repeat case_match.
Qed.

(** What holds a policy's rules for a connection. *)
Definition gate_hit (fl : Flow) (g : Cond) : bool :=
  hit (λ t, bool_decide (t = fl_inbound fl)) (m_inbound g) &&
  hit (λ u, bool_decide (fl_user fl = Some u)) (m_auth_user g).

(** A gate names users and inbounds only. *)
Definition is_gate (g : Cond) : Prop := ∃ ins us, g = mkCond ins us [] [] [] [] no_names no_addresses.

Lemma gate_cond_hit fl s g : is_gate g → cond_hit fl s g = gate_hit fl g.
Proof. intros (ins & us & ->). unfold cond_hit, gate_hit, protocol_hit, port_hit, destination_hit. simpl. by rewrite !andb_true_r. Qed.

Lemma gate_names_hit fl s g m : m ≠ no_names → cond_hit fl s (gate_names g m) = gate_hit fl g && names_hit fl s m.
Proof.
  intros Hm. unfold cond_hit, gate_hit, gate_names, protocol_hit, port_hit, destination_hit. simpl.
  rewrite !andb_true_r, bool_decide_false by done. simpl. by rewrite orb_false_r.
Qed.

Lemma gate_addresses_hit fl s g m : m ≠ no_addresses →
  cond_hit fl s (gate_addresses g m) = gate_hit fl g && addresses_hit fl s m.
Proof.
  intros Hm. unfold cond_hit, gate_hit, gate_addresses, protocol_hit, port_hit, destination_hit. simpl.
  rewrite !andb_true_r. by rewrite (bool_decide_false (m = no_addresses)).
Qed.

Lemma seen_after_sniffed fl rules b : ∃ b', seen_after fl rules (mkSeen true b) = mkSeen true b'.
Proof.
  revert b. induction rules as [|r rules IH]; intros b; simpl; [by exists b|].
  destruct (rule_hit _ _ r); [|apply IH]. destruct (rule_action r); apply IH.
Qed.

(** ** The route policies *)
Section Policies.
Context (isIP : string → Z) (isRegExp : string → bool) (fl : Flow).

Notation split := (splitPolicyEntries isIP isRegExp).

(** A policy's answer: its blocked names, its blocked addresses, then what it
    sends out here. *)
Definition policy_verdict (p : CascadePolicy) : option Verdict :=
  if existsb (name_taken fl) (split (blockDomains p)).1 then Some Dropped
  else if existsb (address_taken fl) (split (blockDomains p)).2 then Some Dropped
  else if existsb (name_taken fl) (split (directDomains p)).1 then Some (Leaves "direct")
  else if existsb (address_taken fl) (split (directDomains p)).2 then Some (Leaves "direct")
  else None.

Definition policy_apart (p : CascadePolicy) : Prop :=
  ∀ es, es = blockDomains p ∨ es = directDomains p →
    names_apart fl (split es).1 ∧ addresses_apart fl (split es).2.

(** A policy as the chain has it. *)
Definition translates (p : CascadePolicy) (c : ChainPolicy) : Prop :=
  po_ordinal c = cp_ordinal p ∧
  (∃ s, po_block c = (matchOf (split (blockDomains p)).1 s).1) ∧
  (∃ s, po_direct c = (matchOf (split (directDomains p)).1 s).1) ∧
  (∃ s, po_blockIp c = (ipOf isIP isRegExp (blockDomains p) s).1) ∧
  (∃ s, po_directIp c = (ipOf isIP isRegExp (directDomains p) s).1).

Lemma chain_policy_translates st p :
  ∃ c, (chain_policy isIP isRegExp st p).1 = st.1 ++ [c] ∧ translates p c.
Proof.
  destruct st as [out sets]. unfold chain_policy.
  destruct (ipOf isIP isRegExp (blockDomains p) sets) as [bi s1] eqn:E1.
  destruct (ipOf isIP isRegExp (directDomains p) s1) as [di s2] eqn:E2.
  destruct (matchOf (split (blockDomains p)).1 s2) as [b s3] eqn:E3.
  destruct (matchOf (split (directDomains p)).1 s3) as [d s4] eqn:E4.
  eexists. split; [done|]. repeat split.
  - exists s2. by rewrite E3.
  - exists s3. by rewrite E4.
  - exists sets. by rewrite E1.
  - exists s1. by rewrite E2.
Qed.

Lemma chainPoliciesOf_translates localeLe policies :
  Forall2 translates (sort_by (λ a b, cp_ordinal a <=? cp_ordinal b) policies)
    (chainPoliciesOf localeLe isIP isRegExp policies).1.
Proof.
  unfold chainPoliciesOf, policies_loop. set (ps := sort_by _ policies).
  assert (∀ l st done0, Forall2 translates done0 st.1 →
    Forall2 translates (done0 ++ l) (foldl (chain_policy isIP isRegExp) st l).1) as H.
  { induction l as [|p l IH]; intros st d Hd; simpl; [by rewrite app_nil_r|].
    destruct (chain_policy_translates st p) as (c & Hc & Ht).
    specialize (IH (chain_policy isIP isRegExp st p) (d ++ [p])). rewrite <-app_assoc in IH. apply IH.
    rewrite Hc. apply Forall2_app; [done|]. by apply Forall2_cons. }
  specialize (H ps ([], []) [] ltac:(constructor)). simpl in H. by destruct (foldl _ _ ps).
Qed.

Lemma ipOf_hit s es sets : addresses_apart fl (split es).2 →
  match (ipOf isIP isRegExp es sets).1 with
  | Some m => m ≠ no_addresses ∧
      addresses_hit fl s m = existsb (λ e, address_known fl s && address_taken fl e) (split es).2
  | None => existsb (address_taken fl) (split es).2 = false
  end.
Proof.
  intros Hap. unfold ipOf.
  pose proof (ipMatchOf_hit fl s (split es).2 sets Hap) as H.
  pose proof (ipMatchOf_hit fl (mkSeen true true) (split es).2 sets Hap) as H'.
  destruct (ipMatchOf (split es).2 sets) as [m sets']. simpl in *. case_bool_decide as E; [|done].
  subst. rewrite addresses_hit_none in H'. rewrite H'. apply existsb_ext. intros x _.
  unfold address_known. simpl. by rewrite orb_true_r.
Qed.

Lemma gate_rules_skip p g r : is_gate g → gate_hit fl g = false → r ∈ gate_rules p g → ∀ s, rule_hit fl s r = false.
Proof.
  intros Hg Hno Hr s. unfold gate_rules in Hr. rewrite !elem_of_app in Hr.
  assert (∀ m, cond_hit fl s (gate_names g m) = false) as Hn.
  { intros m. unfold cond_hit, gate_names. simpl. unfold gate_hit in Hno. by rewrite Hno. }
  assert (∀ m, cond_hit fl s (gate_addresses g m) = false) as Ha.
  { intros m. unfold cond_hit, gate_addresses. simpl. unfold gate_hit in Hno. by rewrite Hno. }
  destruct Hr as [Hr|[Hr|[Hr|[Hr|Hr]]]].
  - destruct (chainMatchIsEmpty _); [by apply not_elem_of_nil in Hr|]. apply list_elem_of_singleton in Hr as ->. apply Hn.
  - destruct (bool_decide _); [by apply not_elem_of_nil in Hr|]. apply list_elem_of_singleton in Hr as ->.
    simpl. by rewrite gate_cond_hit.
  - destruct (po_blockIp p); [|by apply not_elem_of_nil in Hr]. apply list_elem_of_singleton in Hr as ->. apply Ha.
  - destruct (chainMatchIsEmpty _); [by apply not_elem_of_nil in Hr|]. apply list_elem_of_singleton in Hr as ->. apply Hn.
  - destruct (po_directIp p); [|by apply not_elem_of_nil in Hr]. apply list_elem_of_singleton in Hr as ->. apply Ha.
Qed.

(** A rule of names, present when it has any. *)
Lemma names_rule_reads s g es sets a rest : gate_hit fl g = true → names_apart fl es → a = Reject ∨ (∃ t, a = RouteTo t) →
  let m := (matchOf es sets).1 in
  read_rules fl ((if chainMatchIsEmpty m then [] else [When (gate_names g m) a]) ++ rest) s =
  if existsb (name_taken fl) es then Some (match a with RouteTo t => Leaves t | _ => Dropped end)
  else read_rules fl rest s.
Proof.
  intros Hg Hap Ha m. rewrite <-(matchOf_hit fl s es sets Hap). fold m. unfold chainMatchIsEmpty.
  case_bool_decide as E; [by rewrite E|]. cbn [app]. rewrite read_rules_cons. simpl.
  rewrite gate_names_hit, Hg by done. simpl. destruct (names_hit fl s m); [|done]. by destruct Ha as [-> |[t ->]].
Qed.

(** A rule of addresses, where the name has been looked up if there is one. *)
Lemma addresses_rule_reads s g es sets a rest : gate_hit fl g = true → addresses_apart fl (split es).2 →
  a = Reject ∨ (∃ t, a = RouteTo t) →
  (is_Some (ipOf isIP isRegExp es sets).1 → address_known fl s = true) →
  read_rules fl ((match (ipOf isIP isRegExp es sets).1 with
                  | Some m => [When (gate_addresses g m) a] | None => [] end) ++ rest) s =
  if existsb (address_taken fl) (split es).2 then Some (match a with RouteTo t => Leaves t | _ => Dropped end)
  else read_rules fl rest s.
Proof.
  intros Hg Hap Ha Hk. pose proof (ipOf_hit s es sets Hap) as H.
  destruct (ipOf isIP isRegExp es sets) as [[m|] sets']; simpl in *; [|by rewrite H].
  destruct H as [Hne H]. rewrite gate_addresses_hit, Hg, H by done. simpl.
  rewrite (existsb_ext _ (address_taken fl)) by (intros x _; by rewrite Hk).
  destruct (existsb (address_taken fl) _); [|done]. by destruct Ha as [-> |[t ->]].
Qed.

Lemma gate_rules_read b p c g : is_gate g → gate_hit fl g = true → translates p c → policy_apart p →
  read_rules fl (gate_rules c g) (mkSeen true b) = policy_verdict p.
Proof.
  intros Hgate Hg (_ & [s1 E1] & [s2 E2] & [s3 E3] & [s4 E4]) Hap.
  destruct (Hap (blockDomains p)) as [Hbn Hba]; [by left|]. destruct (Hap (directDomains p)) as [Hdn Hda]; [by right|].
  unfold gate_rules, policy_verdict. rewrite E1, names_rule_reads by (done || by left).
  destruct (existsb (name_taken fl) (split (blockDomains p)).1); [done|].
  set (k := negb (bool_decide (po_blockIp c = None ∧ po_directIp c = None))).
  assert (∀ rest, read_rules fl ((if bool_decide (po_blockIp c = None ∧ po_directIp c = None)
      then [] else [When g Resolve]) ++ rest) (mkSeen true b)
    = read_rules fl rest (mkSeen true (b || k))) as ->.
  { intros rest. subst k. case_bool_decide; simpl; [by rewrite orb_false_r|].
    rewrite gate_cond_hit, Hg by done. by rewrite orb_true_r. }
  assert (is_Some (po_blockIp c) ∨ is_Some (po_directIp c) → address_known fl (mkSeen true (b || k)) = true) as Hk.
  { intros H. unfold address_known. simpl. subst k. rewrite bool_decide_false; [by rewrite !orb_true_r|].
    intros [H1 H2]. rewrite H1, H2 in H. by destruct H as [[]|[]]. }
  rewrite E3, addresses_rule_reads; [|done..|by left|intros; apply Hk; rewrite E3; by left].
  destruct (existsb (address_taken fl) (split (blockDomains p)).2); [done|].
  rewrite E2, names_rule_reads by (done || by right; eexists).
  destruct (existsb (name_taken fl) (split (directDomains p)).1); [done|].
  rewrite <-(app_nil_r (match po_directIp c with Some _ => _ | None => _ end)), E4, addresses_rule_reads;
    [done|done|done|by right; eexists|intros; apply Hk; rewrite E4; by right].
Qed.

(** ** Who carries a policy *)

(** A connection arrives at an entry for a direction and with a policy: on the
    direction's socks port as the policy's user, or off an AmneziaWG interface,
    for Auto and with the entry's policy. *)
Inductive enters (tags : list Z) (tproxy : option Z) : Z → Z → Prop :=
  | by_socks d o : d ∈ tags → fl_inbound fl = socksTag d → fl_user fl = Some (chainSocksUser o) → 0 <= o →
      enters tags tproxy d o
  | by_tproxy o : tproxy = Some o → fl_inbound fl = TPROXY_IN_TAG → fl_user fl = None → enters tags tproxy 0 o.

Context (tags : list Z) (tproxy : option Z).
Hypothesis Htags : ∀ d, d ∈ tags → 0 <= d.

Lemma user_gate u : gate_hit fl (on_user u) = bool_decide (fl_user fl = Some u).
Proof. unfold gate_hit. simpl. by rewrite hit_one. Qed.
Lemma inbound_gate t : gate_hit fl (on_inbound t) = bool_decide (t = fl_inbound fl).
Proof. unfold gate_hit. simpl. by rewrite hit_one, andb_true_r. Qed.

Lemma user_is_gate u : is_gate (on_user u).
Proof. by exists [], [u]. Qed.
Lemma inbound_is_gate t : is_gate (on_inbound t).
Proof. by exists [t], []. Qed.

Lemma gate_rules_pass p g s : is_gate g → gate_hit fl g = false → read_rules fl (gate_rules p g) s = None.
Proof. intros Hg Hno. apply read_rules_skip. intros r Hr. by eapply gate_rules_skip. Qed.

Lemma one_policy_reads d o b p c : enters tags tproxy d o → translates p c → policy_apart p → 0 <= cp_ordinal p →
  read_rules fl (gates_of tproxy c ≫= gate_rules c) (mkSeen true b)
  = if cp_ordinal p =? o then policy_verdict p else None.
Proof.
  intros He Ht Hap Hord. pose proof Ht as (Eo & _). unfold gates_of. rewrite Eo. rewrite bind_app, bind_singleton.
  rewrite read_rules_app. destruct (seen_after_sniffed fl (gate_rules c (on_user (chainSocksUser (cp_ordinal p)))) b)
    as [b' Hb']. rewrite Hb'.
  destruct He as [d o Hd Hin Hu Ho|o Htp Hin Hu].
  - assert (∀ s, read_rules fl ((if bool_decide (tproxy = Some (cp_ordinal p)) then [on_inbound TPROXY_IN_TAG] else [])
      ≫= gate_rules c) s = None) as ->.
    { intros s. case_bool_decide; [|done]. rewrite bind_singleton. apply gate_rules_pass; [apply inbound_is_gate|].
      rewrite inbound_gate, Hin. apply bool_decide_eq_false. intros E. symmetry in E.
      by apply socks_not_tproxy in E; [|apply Htags]. }
    destruct (Z.eqb_spec (cp_ordinal p) o) as [<-|Hne].
    + rewrite (gate_rules_read b p); [by destruct (policy_verdict p)|apply user_is_gate| |done..].
      rewrite user_gate. by apply bool_decide_eq_true.
    + rewrite gate_rules_pass; [done|apply user_is_gate|]. rewrite user_gate, Hu. apply bool_decide_eq_false.
      intros E. apply Hne. symmetry. apply chainSocksUser_inj; [done..|]. by apply (inj Some).
  - rewrite gate_rules_pass; [|apply user_is_gate|by rewrite user_gate, Hu]. rewrite Htp.
    destruct (Z.eqb_spec (cp_ordinal p) o) as [<-|Hne].
    + rewrite bool_decide_true by done. rewrite bind_singleton. apply gate_rules_read; [apply inbound_is_gate| |done..].
      rewrite inbound_gate. by apply bool_decide_eq_true.
    + rewrite bool_decide_false by congruence. done.
Qed.

Lemma policies_read d o ps cs b : enters tags tproxy d o → Forall2 translates ps cs → Forall policy_apart ps →
  Forall (λ p, 0 <= cp_ordinal p) ps → NoDup (cp_ordinal <$> ps) →
  read_rules fl (policyRules cs tproxy) (mkSeen true b)
  = (js_find (λ p, cp_ordinal p =? o) ps) ≫= policy_verdict.
Proof.
  intros He H. revert b. induction H as [|p c ps cs Ht _ IH]; intros b Hap Hord Hnd; [done|].
  apply Forall_cons in Hap as [Hp Hap], Hord as [Ho Hord]. apply NoDup_cons in Hnd as [Hnin Hnd].
  unfold policyRules. rewrite bind_cons, read_rules_app, (one_policy_reads d o b p) by done.
  destruct (seen_after_sniffed fl (gates_of tproxy c ≫= gate_rules c) b) as [b' Hb']. rewrite Hb'.
  fold (policyRules cs tproxy). rewrite IH by done. simpl. destruct (Z.eqb_spec (cp_ordinal p) o) as [<-|Hne]; [|done].
  destruct (policy_verdict p) eqn:E; [done|]. simpl.
  destruct (js_find _ ps) as [q|] eqn:Eq; [|done]. apply js_find_Some in Eq as [Hq Eq]. apply Z.eqb_eq in Eq.
  destruct Hnin. rewrite <-Eq. by apply list_elem_of_fmap_2.
Qed.
End Policies.

Lemma js_find_perm {A} (f : A → bool) l l' : l ≡ₚ l' → (∀ x y, x ∈ l → y ∈ l → f x = true → f y = true → x = y) →
  js_find f l = js_find f l'.
Proof.
  intros Hp Hu. destruct (js_find f l) as [x|] eqn:E, (js_find f l') as [y|] eqn:E'; [| | |done].
  - apply js_find_Some in E as [Hx ?], E' as [Hy ?]. f_equal. apply Hu; [done|by rewrite Hp|done..].
  - apply js_find_Some in E as [Hx ?]. rewrite js_find_None in E'. rewrite (E' x) in *; [done|by rewrite <-Hp].
  - apply js_find_Some in E' as [Hy ?]. rewrite js_find_None in E. rewrite (E y) in *; [done|by rewrite Hp].
Qed.

(** ** An entry *)
Section Entry.
Context (isIP : string → Z) (isRegExp : string → bool) (localeLe : string → string → bool).
Context (input : ChainRenderInput) (policies : list CascadePolicy).

Notation cfg := (renderChainConfig isIP input).

(** What an entry answers: the protections, the policy, then on. *)
Definition entry_verdict (fl : Flow) (d o : Z) : Verdict :=
  match protected fl (hijacks fl ((λ _, socksTag <$> ri_directionTags input) <$> ri_tproxy input)) with
  | Some v => v
  | None =>
      default (Leaves (outTag d))
        (js_find (λ p, cp_ordinal p =? o) policies ≫= policy_verdict isIP isRegExp fl)
  end.

Hypothesis Hl : chain_legal input.
Hypothesis Hrole : ri_role input = CEntry.
Hypothesis Hpol : ri_policies input = (chainPoliciesOf localeLe isIP isRegExp policies).1.

Lemma entry_tproxy_eq : entry_tproxy input = ri_tproxy input.
Proof. unfold entry_tproxy, is_entry. by rewrite Hrole. Qed.

Lemma entry_policies_eq : entry_policies input = ri_policies input.
Proof. unfold entry_policies, is_entry. by rewrite Hrole. Qed.

Lemma doors fl d o s : enters fl (ri_directionTags input) (ri_tproxy input) d o →
  read_rules fl (last_rules isIP input) s = Some (Leaves (outTag d)).
Proof.
  intros He. unfold last_rules. rewrite Hrole, entry_tproxy_eq.
  assert (∀ s t a, rule_hit fl s (When (on_inbound t) a) = bool_decide (t = fl_inbound fl)) as Hhit.
  { intros s0 t a. simpl. rewrite gate_cond_hit by apply inbound_is_gate. apply inbound_gate. }
  assert (∀ (l : list Z) rest, (∀ d', d' ∈ l → socksTag d' ≠ fl_inbound fl) →
    read_rules fl (((λ tag, When (on_inbound (socksTag tag)) (RouteTo (outTag tag))) <$> l) ++ rest) s
    = read_rules fl rest s) as Hskip.
  { intros l rest H. rewrite read_rules_app.
    destruct (read_rules_skip fl ((λ tag, When (on_inbound (socksTag tag)) (RouteTo (outTag tag))) <$> l) s) as [E1 E2].
    - intros r (d' & -> & Hd')%list_elem_of_fmap. rewrite Hhit. apply bool_decide_eq_false. by apply H.
    - by rewrite E1, E2. }
  destruct He as [d o Hd Hin Hu Ho|o Htp Hin Hu].
  - assert (d ∈ filter (λ tag, has_way_out isIP input tag = true) (ri_directionTags input)) as Hin'.
    { apply list_elem_of_filter. split; [by apply has_way_offered|done]. }
    apply list_elem_of_split in Hin' as (l1 & l2 & E). rewrite E, fmap_app, <-app_assoc, Hskip.
    + rewrite fmap_cons. cbn [app]. rewrite read_rules_cons, Hhit, Hin, bool_decide_true by done. done.
    + intros d' Hd' E'. assert (NoDup (l1 ++ d :: l2)) as Hnd.
      { rewrite <-E. apply NoDup_filter, (cl_tags _ Hl). }
      assert (d' ∈ ri_directionTags input) as Hd''.
      { assert (d' ∈ l1 ++ d :: l2) as H by set_solver. rewrite <-E in H. by apply list_elem_of_filter in H as [_ ?]. }
      rewrite Hin in E'. apply socksTag_inj in E'; [|by apply (offered_range _ Hl)..]. subst.
      apply NoDup_app in Hnd as (_ & Hdis & _). apply (Hdis d Hd'). set_solver.
  - rewrite Hskip, Htp.
    + rewrite has_way_offered; [|done..|apply (cl_tproxy _ Hl); rewrite entry_tproxy_eq; by eexists].
      rewrite read_rules_cons, Hhit, Hin, bool_decide_true by done. done.
    + intros d' [_ Hd']%list_elem_of_filter E'. rewrite Hin in E'. apply socks_not_tproxy in E'; [done|].
      by apply (offered_range _ Hl).
Qed.

Lemma entry_reads fl d o : enters fl (ri_directionTags input) (ri_tproxy input) d o →
  Forall (policy_apart isIP isRegExp fl) policies →
  leaves_by cfg fl = entry_verdict fl d o.
Proof.
  intros He Hap. unfold leaves_by, entry_verdict. cbn [cf_rules renderChainConfig]. unfold first_rules.
  rewrite <-!app_assoc, protection_reads, entry_tproxy_eq, entry_policies_eq.
  assert (exit_policy input = None) as -> by (unfold exit_policy; by rewrite Hrole).
  replace (match ri_tproxy input with Some _ => Some (socksTag <$> ri_directionTags input) | None => None end)
    with ((λ _, socksTag <$> ri_directionTags input) <$> ri_tproxy input) by (by destruct (ri_tproxy input)).
  destruct (protected _ _); [done|]. rewrite read_rules_app. rewrite Hpol.
  pose proof (chainPoliciesOf_translates isIP isRegExp localeLe policies) as Htr.
  set (ps := sort_by _ policies) in *. assert (ps ≡ₚ policies) as Hperm by apply sort_by_perm.
  destruct (cl_ordinals _ Hl) as [Hnd Hpos]. rewrite entry_policies_eq, Hpol in Hnd, Hpos.
  assert (po_ordinal <$> (chainPoliciesOf localeLe isIP isRegExp policies).1 = cp_ordinal <$> ps) as Eord.
  { clear -Htr. induction Htr as [|p c ps cs [E _] _ IH]; [done|]. by rewrite !fmap_cons, E, IH. }
  rewrite Eord in Hnd.
  rewrite (policies_read isIP isRegExp fl (ri_directionTags input) (ri_tproxy input) (offered_range _ Hl) d o ps);
    [|done|done| | |done].
  - rewrite (js_find_perm _ ps policies Hperm).
    2: { intros x y Hx Hy Ex Ey. apply Z.eqb_eq in Ex, Ey. apply (NoDup_fmap_elem cp_ordinal ps); [done..|congruence]. }
    destruct (js_find _ policies ≫= _); [done|]. by rewrite (doors _ d o).
  - by rewrite Hperm.
  - apply Forall_forall. intros p Hp. apply (list_elem_of_fmap_2 cp_ordinal) in Hp. rewrite <-Eord in Hp.
    apply list_elem_of_fmap in Hp as (c & -> & Hc). specialize (Hpos c Hc). lia.
Qed.
End Entry.

(** ** A transit *)
Section Transit.
Context (isIP : string → Z) (input : ChainRenderInput).

Notation cfg := (renderChainConfig isIP input).

Hypothesis Hl : chain_legal input.
Hypothesis Hrole : ri_role input = CTransit.

Lemma not_entry_rules role : role ≠ CEntry → ri_role input = role → exit_policy input = None →
  first_rules input = protectionRules None.
Proof.
  intros Hne Hr He. unfold first_rules, entry_policies, entry_tproxy, is_entry.
  rewrite Hr, He, bool_decide_false by done. unfold policyRules. by rewrite app_nil_r.
Qed.

Lemma transit_first rest fl :
  read_rules fl (first_rules input ++ rest) fresh =
  match protected fl true with Some v => Some v | None => read_rules fl rest (mkSeen true false) end.
Proof.
  rewrite (not_entry_rules CTransit) by (done || (unfold exit_policy; by rewrite Hrole)). apply protection_reads.
Qed.

Lemma user_rule_hit fl s u a : rule_hit fl s (When (on_user u) a) = bool_decide (fl_user fl = Some u).
Proof. simpl. rewrite gate_cond_hit by apply user_is_gate. apply user_gate. Qed.

(** The way on from a listener that knows its peers. *)
Lemma transit_by_user fl leg d : ri_in input = Some leg → is_vless (li_cred leg) = true →
  (∀ c, c ∈ li_clients leg → 0 <= cc_tag c) → d ∈ cc_tag <$> li_clients leg → d ∈ ways_out input →
  fl_user fl = Some (chainLinkUser d) →
  leaves_by cfg fl = default (Leaves (outTag d)) (protected fl true).
Proof.
  intros Hin Hv Hpos Hd Hw Hu. unfold leaves_by. cbn [cf_rules renderChainConfig]. rewrite transit_first.
  destruct (protected fl true); [done|]. unfold last_rules, transit_rules. rewrite Hrole, Hin, Hv. cbn [negb andb].
  set (f := λ c, When (on_user (chainLinkUser (cc_tag c))) (RouteTo (outTag (cc_tag c)))).
  set (l := filter _ (li_clients leg)). assert (∀ c, c ∈ l → 0 <= cc_tag c) as Hpos'.
  { intros c [_ Hc]%list_elem_of_filter. by apply Hpos. }
  assert (∃ c, c ∈ l ∧ cc_tag c = d) as (c & Hc & Ec).
  { apply list_elem_of_fmap in Hd as (c & -> & Hc). exists c. split; [|done]. apply list_elem_of_filter. split; [|done].
    apply ways_out_elem in Hw. rewrite elem_of_app, <-legs_to_nil. done. }
  pose proof (Hpos' c Hc) as Hd0. rewrite Ec in Hd0. clear Hw Hd. generalize (mkSeen true false). intros s.
  induction l as [|x l IH]; [by apply not_elem_of_nil in Hc|]. rewrite fmap_cons, read_rules_cons. unfold f at 1.
  rewrite user_rule_hit, Hu. case_bool_decide as E.
  - unfold f. simpl. apply (inj Some), chainLinkUser_inj in E; [by rewrite E|done|]. apply Hpos'. set_solver.
  - apply IH; [intros y Hy; apply Hpos'; set_solver|]. apply elem_of_cons in Hc as [->|Hc]; [|done].
    destruct E. by rewrite Ec.
Qed.

(** A leg that carries no user into a node with several ways on. *)
Lemma transit_closed fl leg : ri_in input = Some leg → is_vless (li_cred leg) = false → (1 < length (ways_out input))%nat →
  on_wire fl → leaves_by cfg fl = default Dropped (protected fl true).
Proof.
  intros Hin Hv Hn Hw. unfold leaves_by. cbn [cf_rules renderChainConfig]. rewrite transit_first.
  destruct (protected fl true); [done|]. unfold last_rules, transit_rules. rewrite Hrole, Hin, Hv.
  rewrite (proj2 (Nat.ltb_lt _ _)) by done. simpl. unfold cond_hit. simpl. rewrite hit_cons. simpl.
  by destruct Hw as [-> | ->].
Qed.

(** And into a node with one: the engine's default, which is its first
    outbound. *)
Lemma transit_default fl leg : ri_in input = Some leg → is_vless (li_cred leg) = false → (length (ways_out input) <= 1)%nat →
  leaves_by cfg fl = default (Leaves (default_out cfg)) (protected fl true).
Proof.
  intros Hin Hv Hn. unfold leaves_by. cbn [cf_rules renderChainConfig]. rewrite transit_first.
  destruct (protected fl true); [done|]. unfold last_rules, transit_rules. rewrite Hrole, Hin, Hv.
  rewrite (proj2 (Nat.ltb_ge _ _)) by done. done.
Qed.

(** One direction: its only leg, its named outbound, or the first of its pool. *)
Lemma single_default d : (∀ d', d' ∈ ways_out input ↔ d' = d) →
  default_out cfg = if bool_decide (legs_to input d = []) then outTag d else leg_tag input d 0.
Proof.
  intros Hone. unfold default_out. cbn [cf_final cf_outbounds renderChainConfig]. unfold exit_policy.
  rewrite Hrole, bool_decide_false by done.
  transitivity (default "" (head (outbounds isIP input) ≫= out_tag)); [done|].
  pose proof (outbounds_tags isIP input) as Htags.
  assert (default "" (head (outbounds isIP input) ≫= out_tag) = default "" (head (all_tags input))) as ->.
  { destruct (outbounds isIP input) as [|o l], (all_tags input) as [|t l']; try done.
    rewrite !fmap_cons in Htags. assert (out_tag o = Some t) as E by congruence. simpl. by rewrite E. }
  unfold all_tags. case_bool_decide as E.
  - assert (by_direction input = []) as ->.
    { apply elem_of_nil_inv. intros [d' legs] [Hne _]%by_direction_elem. simpl in Hne.
      assert (d' = d) as -> by (apply Hone, ways_out_elem; by left). done. }
    assert (∃ f l, foreign_drawn input = f :: l ∧ fo_tag f = d) as (f & l & -> & <-); [|done].
    assert (d ∈ ways_out input) as Hd by by apply Hone. apply ways_out_elem in Hd as [?|Hd]; [done|].
    apply list_elem_of_fmap in Hd as (f & -> & Hf).
    assert (f ∈ foreign_drawn input) as Hin by (by apply foreign_drawn_elem).
    destruct (foreign_drawn input) as [|g l] eqn:Eg; [by apply not_elem_of_nil in Hin|]. exists g, l. split; [done|].
    apply Hone, ways_out_elem. right. apply list_elem_of_fmap_2.
    assert (g ∈ foreign_drawn input) as Hg by (rewrite Eg; set_solver). by apply foreign_drawn_elem in Hg as [? _].
  - assert ((d, legs_to input d) ∈ by_direction input) as Hd by (by apply by_direction_elem).
    destruct (by_direction input) as [|[d' legs] l] eqn:Eb; [by apply not_elem_of_nil in Hd|].
    assert ((d', legs) ∈ by_direction input) as Hd' by (rewrite Eb; set_solver).
    apply by_direction_elem in Hd' as [Hne Hlegs]. simpl in *. subst legs.
    assert (d' = d) as -> by (apply Hone, ways_out_elem; by left).
    unfold leg_tag. destruct (legs_to input d) as [|x [|y legs]]; [done|done|]. by rewrite bool_decide_false.
Qed.
End Transit.

(** A pool behind a transit that cannot tell its users apart.  Where the
    leg in carries no user (any cell but vless) and there is one direction, no
    rule is rendered and the engine takes its first outbound.  For a pool that
    is its first leg alone: the group that would pick the fastest member is
    rendered, over every leg, and nothing leads to it. *)
Theorem pool_behind_blind_transit isIP input leg d fl x y legs : chain_legal input → ri_role input = CTransit →
  ri_in input = Some leg → is_vless (li_cred leg) = false → (∀ d', d' ∈ ways_out input ↔ d' = d) →
  legs_to input d = x :: y :: legs → protected fl true = None →
  let cfg := renderChainConfig isIP input in
  leaves_by cfg fl = Leaves (poolLegTag d 0) ∧
  (∀ o, way_out (cf_outbounds cfg) (poolLegTag d 0) o ↔ o = renderLeg isIP input (poolLegTag d 0) x) ∧
  (∀ i l, (x :: y :: legs) !! i = Some l → way_out (cf_outbounds cfg) (outTag d) (renderLeg isIP input (poolLegTag d i) l)) ∧
  (∀ r, r ∈ cf_rules cfg → rule_action r ≠ RouteTo (outTag d)).
Proof.
  intros Hl Hr Hin Hv Hone Hlegs Hp cfg.
  assert (leg_tag input d 0 = poolLegTag d 0) as Et by (unfold leg_tag; by rewrite Hlegs).
  assert (length (ways_out input) <= 1)%nat as Hlen.
  { assert (NoDup (ways_out input)) as Hnd by apply NoDup_js_uniq. destruct (ways_out input) as [|a [|b l]]; [simpl; lia..|].
    apply NoDup_cons in Hnd as [Ha _]. destruct Ha. assert (a = d) as -> by (apply Hone; by left).
    assert (b = d) as -> by (apply Hone; right; by left). by left. }
  split; [|split; [|split]].
  - unfold cfg. rewrite (transit_default isIP input Hr fl leg), Hp by done.
    by rewrite (single_default isIP input Hl Hr d Hone), bool_decide_false, Et by (by rewrite Hlegs).
  - intros o. assert (renderLeg isIP input (poolLegTag d 0) x ∈ outbounds isIP input) as Ho.
    { apply (direction_in isIP input (d, legs_to input d)); [apply by_direction_elem; cbn [fst snd]; split; [by rewrite Hlegs|done]|].
      rewrite Hlegs. simpl. by left. }
    destruct (renderLeg_shape isIP input (poolLegTag d 0) x) as [_ Ht Hg].
    change (cf_outbounds cfg) with (outbounds isIP input). by rewrite (way_out_unfold isIP input Hl _ _ _ Ho Ht), Hg.
  - intros i l Hi. apply (way_direction isIP input Hl); [by apply Hone|]. left. exists i, l. rewrite Hlegs. split; [done|].
    unfold leg_tag. by rewrite Hlegs.
  - intros r Hin' Ea. assert (cf_rules cfg = protectionRules None) as Er.
    { unfold cfg. cbn [cf_rules renderChainConfig]. unfold last_rules, transit_rules. rewrite Hr, Hin, Hv.
      rewrite (proj2 (Nat.ltb_ge _ _)) by done. cbn [negb andb]. rewrite app_nil_r. apply (not_entry_rules input CTransit); [done..|].
      unfold exit_policy. by rewrite Hr. }
    rewrite Er in Hin'. unfold protectionRules in Hin'. rewrite !elem_of_cons, elem_of_nil in Hin'.
    destruct_or? Hin'; by subst.
Qed.

(** ** An exit *)
Section Exit.
Context (isIP : string → Z) (input : ChainRenderInput).

Notation cfg := (renderChainConfig isIP input).

Hypothesis Hrole : ri_role input = CExit.
Hypothesis Hout : ri_out input = [] ∧ ri_foreign input = [].

Lemma exit_outbounds : outbounds isIP input = [direct_outbound].
Proof.
  destruct Hout as [E1 E2]. unfold outbounds, by_direction, foreign_drawn, auto_outbounds, legsByDirection, wantsAuto, is_entry.
  by rewrite E1, E2, Hrole.
Qed.

Lemma exit_reads fl : leaves_by cfg fl =
  match protected fl true with
  | Some v => v
  | None => default (Leaves "direct")
      (match ri_exitPolicy input with Some (rules, _) => read_rules fl rules (mkSeen true false) | None => None end)
  end.
Proof.
  unfold leaves_by. cbn [cf_rules renderChainConfig]. unfold last_rules. rewrite Hrole, app_nil_r.
  unfold first_rules, entry_policies, entry_tproxy, is_entry, exit_policy.
  rewrite Hrole, (bool_decide_false (CExit = CEntry)), (bool_decide_true (CExit = CExit)) by done.
  rewrite protection_reads. destruct (protected _ _); [done|].
  assert (default_out cfg = "direct") as ->.
  { unfold default_out. cbn [cf_final cf_outbounds renderChainConfig]. unfold exit_policy.
    rewrite Hrole, bool_decide_true, exit_outbounds by done. by destruct (ri_exitPolicy input). }
  unfold policyRules. by destruct (ri_exitPolicy input) as [[]|].
Qed.
End Exit.

(** ** A configuration the engine loads *)

(** The address and the port an inbound listens on. *)
Definition listens (o : jvalue) : option string * option Z := (jfield_str "listen" o, jnum (jfield "listen_port" o)).

Lemma linkInTag_inj i j : linkInTag i = linkInTag j → i = j.
Proof.
  destruct i as [|i], j as [|j]; intros E; [done|done|done|]. unfold linkInTag in E. apply str_app_inj in E.
  apply pretty_Z_inj in E; lia.
Qed.

Lemma linkInbound_shape leg : ∃ fs, linkInbound leg = JObj fs ∧ out_tag (JObj fs) = Some "link-in" ∧
  listens (JObj fs) = (Some "0.0.0.0", Some (port (li_cred leg))).
Proof. destruct leg as [c cs ls]. by destruct c; eexists. Qed.

(** One listener of a leg, at an address. *)
Definition link_inbound_at (leg : ChainLegIn) (i : nat) (a : string) : jvalue :=
  if bool_decide (i = O) && bool_decide (a = "0.0.0.0") then linkInbound leg
  else jset "listen" (JStr a) (jset "tag" (JStr (linkInTag i)) (linkInbound leg)).

Lemma link_inbound_shape leg i a : out_tag (link_inbound_at leg i a) = Some (linkInTag i) ∧
  listens (link_inbound_at leg i a) = (Some a, Some (port (li_cred leg))).
Proof.
  destruct (linkInbound_shape leg) as (fs & E & Ht & Hs). unfold link_inbound_at. rewrite E.
  destruct (bool_decide_reflect (i = O)) as [Ei|Ei], (bool_decide_reflect (a = "0.0.0.0")) as [Ea|Ea];
    cbn [andb]; [by subst|..].
  all: unfold out_tag, listens, jfield_str in *; destruct (jset_obj "tag" (JStr (linkInTag i)) fs) as [fs' E'].
  all: pose proof (f_equal snd Hs) as Hs2; cbn [snd] in Hs2; split;
    [rewrite E', jfield_jset, decide_False, <-E', jfield_jset, decide_True by done; done|].
  all: rewrite E', !jfield_jset, decide_True, decide_False, <-E', jfield_jset, decide_False by done; by rewrite Hs2.
Qed.

Lemma link_inbounds_eq leg : link_inbounds leg =
  imap (link_inbound_at leg) (match li_listen leg with Some (a :: l) => a :: l | _ => ["0.0.0.0"] end).
Proof. done. Qed.

Lemma NoDup_imap {A B} (f : nat → A → B) l :
  (∀ i j x y, l !! i = Some x → l !! j = Some y → f i x = f j y → i = j) → NoDup (imap f l).
Proof.
  intros H. apply NoDup_alt. intros i j b Hi Hj. rewrite list_lookup_imap in Hi, Hj.
  destruct (l !! i) as [x|] eqn:Ex; [|done]. destruct (l !! j) as [y|] eqn:Ey; [|done].
  simpl in *. apply (H i j x y); [done..|congruence].
Qed.

Section Loads.
Context (isIP : string → Z) (input : ChainRenderInput).
Hypothesis Hl : chain_legal input.

Notation cfg := (renderChainConfig isIP input).

Lemma inbounds_distinct : NoDup (out_tag <$> inbounds input) ∧ NoDup (listens <$> inbounds input).
Proof.
  unfold inbounds. destruct (is_entry input) eqn:Ee.
  - assert (out_tag <$> (socks_inbound input <$> ri_directionTags input) = (λ d, Some (socksTag d)) <$> ri_directionTags input)
      as Et by (rewrite <-list_fmap_compose; done).
    assert (listens <$> (socks_inbound input <$> ri_directionTags input)
      = (λ d, (Some "127.0.0.1", Some (chainSocksPort d))) <$> ri_directionTags input)
      as Es by (rewrite <-list_fmap_compose; done).
    rewrite !fmap_app, Et, Es. clear Et Es.
    assert (∀ {B} (f : Z → B) (x : B), (∀ a b, 0 <= a → 0 <= b → f a = f b → a = b) → (∀ a, 0 <= a → f a ≠ x) →
      ∀ l, (l = [] ∨ l = [x]) → NoDup ((f <$> ri_directionTags input) ++ l)) as H.
    { intros B f x Hinj Hx l Hlx. apply NoDup_app. split; [|split].
      - apply NoDup_fmap_2_strong; [|apply (cl_tags _ Hl)]. intros a b Ha Hb. apply Hinj; by apply (offered_range _ Hl).
      - intros y (a & -> & Ha)%list_elem_of_fmap Hy. destruct Hlx as [-> | ->]; [by apply not_elem_of_nil in Hy|].
        apply list_elem_of_singleton in Hy. apply (Hx a); [by apply (offered_range _ Hl)|done].
      - destruct Hlx as [-> | ->]; [apply NoDup_nil_2|apply NoDup_singleton]. }
    split; [eapply (H _ _ (Some TPROXY_IN_TAG))|eapply (H _ _ (Some "127.0.0.1", Some CHAIN_TPROXY_PORT))].
    + intros a b Ha Hb E. apply (inj Some) in E. by apply socksTag_inj.
    + intros a Ha E. apply (inj Some) in E. by apply socks_not_tproxy in E.
    + destruct (entry_tproxy input); [by right|by left].
    + intros a b Ha Hb [= E]. unfold chainSocksPort, CHAIN_SOCKS_BASE in E. lia.
    + intros a Ha [= E]. unfold chainSocksPort, CHAIN_SOCKS_BASE, CHAIN_TPROXY_PORT in E. lia.
    + destruct (entry_tproxy input); [by right|by left].
  - destruct (ri_in input) as [leg|] eqn:Ein; [|split; apply NoDup_nil_2]. rewrite link_inbounds_eq, !fmap_imap.
    set (addrs := match li_listen leg with Some (a :: l) => a :: l | _ => ["0.0.0.0"] end).
    assert (NoDup addrs) as Hnd.
    { unfold addrs. destruct (li_listen leg) as [[|a l]|] eqn:Els; [apply NoDup_singleton| |apply NoDup_singleton].
      by apply (cl_listen _ Hl leg). }
    split; apply NoDup_imap; intros i j x y Hx Hy E; simpl in E.
    + rewrite !(proj1 (link_inbound_shape _ _ _)) in E. apply (inj Some) in E. by apply linkInTag_inj.
    + rewrite !(proj2 (link_inbound_shape _ _ _)) in E. injection E as ->. by eapply NoDup_lookup.
Qed.

Lemma group_declared g ms m : g ∈ outbounds isIP input → group_members g = Some ms → m ∈ ms →
  Some m ∈ out_tag <$> outbounds isIP input.
Proof.
  intros Hg Hms Hm. rewrite outbounds_tags. apply list_elem_of_fmap_2. unfold outbounds in Hg.
  rewrite !elem_of_app in Hg. destruct Hg as [Hg|[Hg|[Hg|Hg]]].
  - apply list_elem_of_bind in Hg as (e & Hg & He). unfold all_tags. rewrite elem_of_app. left.
    apply list_elem_of_bind. exists e. split; [|done].
    assert (∀ t leg, group_members (renderLeg isIP input t leg) = None) as Hno by (intros t leg; apply renderLeg_shape).
    destruct e as [d [|x [|y legs]]]; unfold direction_outbounds in Hg.
    + apply list_elem_of_singleton in Hg as ->. rewrite (proj2 (urltest_shape _ _)) in Hms. injection Hms as <-.
      by apply not_elem_of_nil in Hm.
    + apply list_elem_of_singleton in Hg as ->. by rewrite Hno in Hms.
    + apply elem_of_app in Hg as [(i & l & -> & _)%elem_of_lookup_imap|Hg]; [by rewrite Hno in Hms|].
      apply list_elem_of_singleton in Hg as ->. rewrite (proj2 (urltest_shape _ _)) in Hms. injection Hms as <-.
      unfold dir_tags. rewrite elem_of_app. by left.
  - apply list_elem_of_fmap in Hg as (f & -> & _). by rewrite (proj2 (foreign_shape f)) in Hms.
  - unfold auto_outbounds in Hg. destruct (_ && _); [|by apply not_elem_of_nil in Hg].
    apply list_elem_of_singleton in Hg as ->. rewrite (proj2 (urltest_shape _ _)) in Hms. injection Hms as <-.
    apply list_elem_of_fmap in Hm as (d & -> & Hd). apply (out_tag_in input), (directions_elem input). done.
  - by apply list_elem_of_singleton in Hg as ->.
Qed.

Lemma direct_tag : Some "direct" ∈ out_tag <$> outbounds isIP input.
Proof. apply list_elem_of_fmap. exists direct_outbound. split; [done|]. by apply direct_in. Qed.

Lemma way_tag d : d ∈ ways_out input → Some (outTag d) ∈ out_tag <$> outbounds isIP input.
Proof. intros Hd. rewrite outbounds_tags. by apply list_elem_of_fmap_2, out_tag_in. Qed.

Lemma gate_rules_action p g r t : r ∈ gate_rules p g → rule_action r = RouteTo t → t = "direct".
Proof.
  unfold gate_rules. rewrite !elem_of_app. intros [H|[H|[H|[H|H]]]];
    (match type of H with r ∈ (if ?b then _ else _) => destruct b | r ∈ (match ?o with Some _ => _ | None => _ end) => destruct o end);
    rewrite ?list_elem_of_singleton, ?elem_of_nil in H; try done; subst; simpl; congruence.
Qed.

Lemma route_declared r t : r ∈ cf_rules cfg → rule_action r = RouteTo t → Some t ∈ out_tag <$> exits cfg.
Proof.
  cbn [cf_rules renderChainConfig]. intros Hr Ha. unfold exits. rewrite fmap_app, elem_of_app.
  cbn [cf_outbounds cf_endpoints renderChainConfig].
  apply elem_of_app in Hr as [Hr|Hr].
  - unfold first_rules in Hr. rewrite !elem_of_app in Hr. destruct Hr as [Hr|[Hr|Hr]].
    + unfold protectionRules in Hr. rewrite !elem_of_cons, elem_of_nil in Hr. destruct_or? Hr; subst; done.
    + unfold policyRules in Hr. apply list_elem_of_bind in Hr as (p & Hr & _). apply list_elem_of_bind in Hr as (g & Hr & _).
      rewrite (gate_rules_action p g r t Hr Ha). left. apply direct_tag.
    + destruct (exit_policy input) as [[rules w]|] eqn:Ee; [|by apply not_elem_of_nil in Hr].
      destruct (cl_exit _ Hl rules w r t Ee Hr Ha) as [->|[-> [w' ->]]]; [left; apply direct_tag|]. right.
      unfold warpEndpoint. destruct (warp_host_port _) as [h p]. set_solver.
  - left. unfold last_rules in Hr. destruct (ri_role input) eqn:Er.
    + apply elem_of_app in Hr as [Hr|Hr].
      * apply list_elem_of_fmap in Hr as (d & -> & Hd). injection Ha as <-. apply list_elem_of_filter in Hd as [Hd _].
        rewrite outbounds_tags. by apply list_elem_of_fmap_2, (has_way_out_iff isIP).
      * destruct (entry_tproxy input); [|by apply not_elem_of_nil in Hr].
        destruct (has_way_out isIP input AUTO_TAG) eqn:Ew; [|by apply not_elem_of_nil in Hr].
        apply list_elem_of_singleton in Hr as ->. injection Ha as <-.
        rewrite outbounds_tags. by apply list_elem_of_fmap_2, (has_way_out_iff isIP).
    + destruct (ri_in input) as [leg|]; [|by apply not_elem_of_nil in Hr]. unfold transit_rules in Hr.
      destruct (_ && _); [by apply list_elem_of_singleton in Hr as ->|].
      destruct (is_vless _); [|by apply not_elem_of_nil in Hr].
      apply list_elem_of_fmap in Hr as (c & -> & Hc). injection Ha as <-. apply list_elem_of_filter in Hc as [Hc _].
      apply way_tag. by apply elem_of_js_uniq.
    + by apply not_elem_of_nil in Hr.
Qed.

Lemma default_declared : Some (default_out cfg) ∈ out_tag <$> cf_outbounds cfg.
Proof.
  unfold default_out. cbn [cf_final cf_outbounds renderChainConfig].
  destruct (exit_policy input); cbn [default from_option]; [apply direct_tag|].
  pose proof (outbounds_tags isIP input) as Htags. pose proof direct_tag as Hd.
  destruct (outbounds isIP input) as [|o l]; [by apply not_elem_of_nil in Hd|].
  destruct (all_tags input) as [|t l']; [done|]. rewrite fmap_cons in *.
  assert (out_tag o = Some t) as E by (rewrite fmap_cons in Htags; congruence).
  cbn [head mbind option_bind]. rewrite E. set_solver.
Qed.

Lemma last_rules_sets r s : r ∈ last_rules isIP input → s ∉ rule_sets r.
Proof.
  unfold last_rules, transit_rules. intros Hr Hs. assert (rule_sets r = []) as E.
  { repeat match type of Hr with
    | _ ∈ match ?x with _ => _ end => destruct x
    | _ ∈ _ ++ _ => apply elem_of_app in Hr as [Hr|Hr]
    | _ ∈ _ <$> _ => apply list_elem_of_fmap in Hr as (? & -> & ?)
    | _ ∈ [_] => apply list_elem_of_singleton in Hr as ->
    | _ ∈ [] => by apply not_elem_of_nil in Hr
    end; done. }
  rewrite E in Hs. by apply not_elem_of_nil in Hs.
Qed.
End Loads.

(** What sing-box requires of a configuration before it starts: tags and
    listeners of their own, and every tag that is named declared. *)
Record loadable (cfg : ChainConfig) : Prop := {
  ld_exits : NoDup (out_tag <$> exits cfg);
  ld_inbounds : NoDup (out_tag <$> cf_inbounds cfg);
  ld_listeners : NoDup (listens <$> cf_inbounds cfg);
  ld_routes : ∀ r t, r ∈ cf_rules cfg → rule_action r = RouteTo t → Some t ∈ out_tag <$> exits cfg;
  ld_groups : ∀ g ms m, g ∈ exits cfg → group_members g = Some ms → m ∈ ms → Some m ∈ out_tag <$> cf_outbounds cfg;
  ld_final : Some (default_out cfg) ∈ out_tag <$> cf_outbounds cfg;
  ld_sets : NoDup (out_tag <$> cf_rule_set cfg);
  ld_named : ∀ r s, r ∈ cf_rules cfg → s ∈ rule_sets r → Some s ∈ out_tag <$> cf_rule_set cfg
}.

Lemma loads isIP input : chain_legal input → loadable (renderChainConfig isIP input).
Proof.
  intros Hl. set (cfg := renderChainConfig isIP input).
  assert (∀ e, e ∈ cf_endpoints cfg → out_tag e = Some CHAIN_WARP_TAG ∧ group_members e = None) as Hep.
  { unfold cfg. cbn [cf_endpoints renderChainConfig]. intros e He.
    destruct (exit_policy input) as [[rules [w|]]|]; [|by apply not_elem_of_nil in He..].
    apply list_elem_of_singleton in He as ->. unfold warpEndpoint. by destruct (warp_host_port _). }
  destruct (inbounds_distinct input Hl) as [Hin1 Hin2]. constructor; [|done|done|..].
  - unfold exits. rewrite fmap_app. apply NoDup_app. split; [by apply outbounds_NoDup|]. split.
    + intros t Ht (e & -> & He)%list_elem_of_fmap. rewrite (proj1 (Hep e He)) in Ht.
      change (Some CHAIN_WARP_TAG ∈ out_tag <$> outbounds isIP input) in Ht. rewrite outbounds_tags in Ht.
      apply list_elem_of_fmap in Ht as (x & [= <-] & Ht). unfold all_tags in Ht. rewrite !elem_of_app in Ht.
      destruct Ht as [Ht|[Ht|[Ht|Ht]]].
      * apply (directional isIP input Hl) in Ht as (d & _ & _ & [E|[i E]]); [done|].
        unfold poolLegTag, outTag in E. rewrite str_app_assoc in E. done.
      * by apply list_elem_of_fmap in Ht as (f & ? & _).
      * destruct (auto_on input); [by apply list_elem_of_singleton in Ht|by apply not_elem_of_nil in Ht].
      * by apply list_elem_of_singleton in Ht.
    + unfold cfg. cbn [cf_endpoints renderChainConfig].
      destruct (exit_policy input) as [[rules [w|]]|]; [apply NoDup_singleton|apply NoDup_nil_2..].
  - intros r t. by apply route_declared.
  - intros g ms m [Hg|Hg]%elem_of_app; [by apply group_declared|]. intros E. by rewrite (proj2 (Hep g Hg)) in E.
  - by apply default_declared.
  - unfold cfg. cbn [cf_rule_set renderChainConfig]. rewrite <-list_fmap_compose.
    replace (out_tag ∘ rule_set_json <$> rule_set_refs input) with (Some <$> (rule_set_refs input).*1).
    + apply NoDup_fmap_2; [by intros ?? [=]|]. apply (cl_sets _ Hl).
    + rewrite <-list_fmap_compose. done.
  - intros r s. unfold cfg. cbn [cf_rules cf_rule_set renderChainConfig]. intros [Hr|Hr]%elem_of_app Hs.
    + pose proof (proj2 (cl_sets _ Hl) r s Hr Hs) as H. apply list_elem_of_fmap in H as (x & -> & Hx).
      apply list_elem_of_fmap. exists (rule_set_json x). split; [done|]. by apply list_elem_of_fmap_2.
    + by apply (last_rules_sets isIP input r s) in Hs.
Qed.

(** A transit over shadowsocks in front of a pool of two. *)
Definition ex_blind : ChainRenderInput :=
  mkRender CTransit "password" []
    [mkLegOut 1 "10.0.0.3" (Ss2022 24001 "one" "2022-blake3-aes-128-gcm") None;
     mkLegOut 1 "10.0.0.4" (Ss2022 24001 "two" "2022-blake3-aes-128-gcm") None] []
    (Some (mkLegIn (Ss2022 24000 "in" "2022-blake3-aes-128-gcm") [mkClient 1 None None] None)) [] [] None None None.

Lemma ex_blind_legal : chain_legal ex_blind.
Proof.
  constructor; try done; try apply NoDup_nil_2; try (by intros ? ?%not_elem_of_nil).
  - intros l Hl. simpl in Hl. by repeat (apply elem_of_cons in Hl as [->|Hl]); [..|apply not_elem_of_nil in Hl].
  - by intros [].
  - split; [apply NoDup_nil_2|]. by intros ? ?%not_elem_of_nil.
  - by intros leg a [= <-].
  - split; [apply NoDup_nil_2|]. intros r s Hr Hs. vm_compute in Hr.
    repeat (apply elem_of_cons in Hr as [->|Hr]; [by apply not_elem_of_nil in Hs|]). by apply not_elem_of_nil in Hr.
Qed.

Definition ex_blind_flow : Flow :=
  mkFlow "link-in" None "tcp" 443 (λ _, false) (Some "tls") (λ _ _, false) false (λ _ _, false).

Theorem pool_behind_blind_transit_witness :
  leaves_by (renderChainConfig (λ _, 0) ex_blind) ex_blind_flow = Leaves "out-d1-0" ∧
  ∃ o, way_out (cf_outbounds (renderChainConfig (λ _, 0) ex_blind)) "out-d1" o ∧ jfield_str "server" o = Some "10.0.0.4".
Proof.
  destruct (pool_behind_blind_transit (λ _, 0) ex_blind (mkLegIn (Ss2022 24000 "in" "2022-blake3-aes-128-gcm") [mkClient 1 None None] None)
    1 ex_blind_flow (mkLegOut 1 "10.0.0.3" (Ss2022 24001 "one" "2022-blake3-aes-128-gcm") None)
    (mkLegOut 1 "10.0.0.4" (Ss2022 24001 "two" "2022-blake3-aes-128-gcm") None) [] ex_blind_legal) as (H1 & _ & H3 & _);
    [done|done|done| |done|done|].
  - intros d. assert (ways_out ex_blind = [1]) as -> by done. by rewrite list_elem_of_singleton.
  - split; [exact H1|]. eexists. split; [exact (H3 1%nat _ eq_refl)|done].
Defined.
