(* ===== verification/ChainInput.v ===== *)
(** What a node's chain process is told
    (apps/panel-backend/src/modules/cascades/cascade.service.ts): the topology
    a node reads with the underlay of its legs and the tunnels, the node's end
    of the chain, the input of the renderer, the hand-off of the user core, the
    ports the agent opens, and the block that carries all of it.

    A link of the topology goes with its underlay.  The secret of the node, the
    policy [resolvePolicyForNode] finds and the node's WARP account are what
    the reads answer. *)

From S2P Require Import CascadeExclusive.
From S2P Require Import Prelude Js Json Directions CascadeValidation LinkCreds PolicyEntries EntryGate XrayLinks.
From S2P Require Import TopologyLinks CascadeTunnel TopologySave TopologyFragments TopologyRead.
From S2P Require Import SingBox ChainPolicy ChainConfig.

Local Open Scope string_scope.
Local Open Scope list_scope.
Local Open Scope Z_scope.

(** ** The topology, with what only the chain reads *)
Record ChainTopology := mkChainTopology {
  kt_base : TopologyInput;
  kt_underlays : list string;
  kt_tunnels : list TopologyTunnel;
  kt_entryProtocol : option string;
  kt_entryPolicyOrdinal : option Z
}.

Definition ChainLink : Type := TopologyLinkRow * string.

Definition chain_links (t : ChainTopology) : list ChainLink := zip (ti_links (kt_base t)) (kt_underlays t).

Inductive chain_error :=
  | ReadFailed (e : read_error)
  | TunnelFailed (e : tunnel_error)
  | NoWarpAccount (nodeId : string)
  | NotAPort (port : Z).

Definition of_tunnel {A} (m : result tunnel_error A) : result chain_error A :=
  match m with Ok a => Ok a | Throw e => Throw (TunnelFailed e) end.

(** ** Reading it *)
Section Read.
Context (store : Store) (tunnels : list TunnelRow) (entryPolicy : string → option Z).

Definition read_tunnel (t : TunnelRow) : option TopologyTunnel :=
  c ← parseTunnelCred (t_config t);
  Some (mkTunnel (t_from t) (t_to t) (t_index t) (t_port t) c).

Definition read_tunnels (cascadeId : string) : list TopologyTunnel :=
  omap read_tunnel (sort_by (λ a b, t_index a <=? t_index b) (filter (λ t, t_cascade t = cascadeId) tunnels)).

(** A stored direction as the underlay is read off it. *)
Definition direction_params (d : DirectionRow) : TaggedDirection :=
  (dr_tag d, mkResolvedDirection None None (dr_nodes d) None None None (dr_linkParams d)).

Definition read_underlay (db : Topology) (l : TopologyLinkRow) : string :=
  legUnderlay (position_rows db) (direction_params <$> direction_rows db) (tl_from l) (tl_to l) (tl_tag l).

Definition readChainTopology (nodeId : string) : result chain_error (option ChainTopology) :=
  match readTopologyForNode store nodeId with
  | Throw e => Throw (ReadFailed e)
  | Ok None => Ok None
  | Ok (Some (t, protocol)) =>
      match owner store nodeId with
      | Some s => Ok (Some (mkChainTopology t (read_underlay (sc_rows s) <$> ti_links t) (read_tunnels (sc_id s))
                              protocol (entryPolicy (sc_id s))))
      | None => Ok None
      end
  end.
End Read.

(** ** The node's end *)
Section Node.
Context (nodeId : string) (t : ChainTopology).

Notation base := (kt_base t).

Definition kt_from : list ChainLink := filter (λ l, tl_from l.1 = nodeId) (chain_links t).
Definition kt_to : list ChainLink := filter (λ l, tl_to l.1 = nodeId) (chain_links t).

Definition foreign_type (type : string) : ForeignType := if decide (type = "socks") then FSocks else FVless.

Definition foreignOf : list ChainForeignOut :=
  match last (ti_positions base) with
  | Some p =>
      if bool_decide (nodeId ∈ p)
      then omap (λ d, (λ o : string * jvalue, mkForeign (td_tag d) (foreign_type o.1) o.2) <$> td_outbound d)
             (ti_directions base)
      else []
  | None => []
  end.

Definition chainRoleOf : option ChainRole :=
  let incoming := bool_decide (kt_to ≠ []) in
  let outgoing := bool_decide (kt_from ≠ []) || (0 <? length foreignOf)%nat in
  if negb incoming && negb outgoing then None
  else if bool_decide (nodeId ∈ default [] (head (ti_positions base))) then Some CEntry
  else if existsb (λ d, bool_decide (nodeId ∈ td_nodeIds d)) (ti_directions base) then Some CExit
  else Some CTransit.

(** [tunnelUnder]. *)
Definition tunnelUnder (l : ChainLink) : option TopologyTunnel :=
  if bool_decide (l.2 = "awg")
  then js_find (λ x, bool_decide (tun_from x = tl_from l.1) && bool_decide (tun_to x = tl_to l.1)) (kt_tunnels t)
  else None.

(** A leg out of the node, where the address of its other end is known. *)
Definition leg_out (l : ChainLink) : result tunnel_error (option ChainLegOut) :=
  let host := host_of base (tl_to l.1) in
  if negb (truthy host) then Ok None
  else match tunnelUnder l with
  | Some tun =>
      a ← tunnelAddresses (tun_index tun);
      Ok (Some (mkLegOut (tl_tag l.1) (addr_to a) (tl_cred l.1) (Some (tunnelIface (tun_index tun)))))
  | None => Ok (Some (mkLegOut (tl_tag l.1) (default "" host) (tl_cred l.1) None))
  end.

Definition client_of (l : ChainLink) : ChainClient :=
  match tl_cred l.1 with
  | Vless _ uuid r => mkClient (tl_tag l.1) (Some uuid) (shortId <$> r)
  | _ => mkClient (tl_tag l.1) None None
  end.

Definition leg_in : result tunnel_error (option ChainLegIn) :=
  listen ← linkInListen kt_to (λ l, tun_index <$> tunnelUnder l);
  Ok (match kt_to with
      | first :: _ => Some (mkLegIn (tl_cred first.1) (client_of <$> kt_to) listen)
      | [] => None
      end).

Definition handsWholeEntry : bool :=
  bool_decide (kt_entryProtocol t = Some "hysteria") || bool_decide (kt_entryProtocol t = Some "amneziawg").

Section Render.
Context (localeLe : string → string → bool) (isIP : string → Z) (isRegExp : string → bool).

(** The tags an entry offers its user core. *)
Definition entry_tags (out : list ChainLegOut) : list Z :=
  let tags := sort_by Z.leb (js_uniq ((lo_tag <$> out) ++ (fo_tag <$> foreignOf))) in
  if handsWholeEntry || (ti_auto base && (1 <? length tags)%nat) then 0 :: tags else tags.

Definition ref_pair (r : ChainRuleSetRef) : string * string := (rs_tag r, rs_path r).

Definition entry_input (socksPassword : string) (out : list ChainLegOut) : ChainRenderInput :=
  let '(policies, ruleSets) := chainPoliciesOf localeLe isIP isRegExp (default [] (ti_policies base)) in
  mkRender CEntry socksPassword (entry_tags out) out foreignOf None policies
    (if bool_decide (policies = []) then [] else ref_pair <$> ruleSets)
    (if bool_decide (kt_entryProtocol t = Some "amneziawg") then Some (default 0 (kt_entryPolicyOrdinal t)) else None)
    None (host_of base nodeId).

Definition chainInputFor (role : ChainRole) (socksPassword : string)
    : result tunnel_error (option ChainRenderInput) :=
  legs ← map_res leg_out kt_from;
  let out := omap id legs in
  if negb (bool_decide (length out = length kt_from)) then Ok None
  else
    inLeg ← leg_in;
    Ok (match role, inLeg with
        | CEntry, _ => Some (entry_input socksPassword out)
        | _, None => None
        | CExit, Some leg => Some (mkRender CExit socksPassword [] [] [] (Some leg) [] [] None None None)
        | CTransit, Some leg =>
            Some (mkRender CTransit socksPassword [] out foreignOf (Some leg) [] [] None None (host_of base nodeId))
        end).
End Render.

(** ** The ports the agent opens *)
Definition TRANSPORTS : list Transport := [tcp; udp].

Definition ingress_add (m : list (Z * (list Transport * list string))) (l : ChainLink)
    : list (Z * (list Transport * list string)) :=
  let host := host_of base (tl_from l.1) in
  if bool_decide (tl_to l.1 ≠ nodeId) || bool_decide (l.2 = "awg") || negb (truthy host) then m
  else
    let p := port (tl_cred l.1) in
    let '(ts, from) := default ([], []) (jm_get p m) in
    jm_set p (foldl (λ s x, set_add x s) ts (LINK_CELL_TRANSPORTS (protocol (tl_cred l.1))),
              set_add (default "" host) from) m.

Record ChainLinkIngress := mkIngress {
  ing_port : Z;
  ing_transports : list Transport;
  ing_allowFrom : list string
}.

Definition chainLinkIngressOf : list ChainLinkIngress :=
  (λ e : Z * (list Transport * list string),
     mkIngress e.1 (filter (λ x, x ∈ e.2.1) TRANSPORTS) (sort_by str_leb e.2.2)) <$>
  sort_by (λ a b, a.1 <=? b.1) (foldl ingress_add [] (chain_links t)).

(** ** The hand-off of the user core *)
Inductive ChainUserCore :=
  | UserAmneziawg (tproxy tproxy3 : option (Z * Z))
  | UserHysteria (port : Z) (username password : string)
  | UserXray (w : XrayCascadeFragments).

Definition with_password (input : TopologyInput) (password : string) : TopologyInput :=
  mkTopology (ti_positions input) (ti_directions input) (ti_links input) (ti_hosts input) (ti_policies input)
    (ti_auto input) (Some password) (ti_entryUserGate input).

Definition handoff (p : option Z) : result chain_error (option (Z * Z)) :=
  match p with
  | None => Ok None
  | Some p => match chainTProxyMark p with Some m => Ok (Some (CHAIN_TPROXY_PORT, m)) | None => Throw (NotAPort p) end
  end.

Section UserCore.
Context (isIP : string → Z) (isRegExp : string → bool).

Definition userCoreFor (role : ChainRole) (secret : string) (one three : option Z)
    : result chain_error (option ChainUserCore) :=
  if negb (bool_decide (role = CEntry)) then Ok None
  else if bool_decide (kt_entryProtocol t = Some "amneziawg") then
    tproxy ← handoff one;
    tproxy3 ← handoff three;
    Ok (match tproxy, tproxy3 with None, None => None | _, _ => Some (UserAmneziawg tproxy tproxy3) end)
  else if bool_decide (kt_entryProtocol t = Some "hysteria") then
    Ok (Some (UserHysteria (chainSocksPort 0) (chainSocksUser (default 0 (kt_entryPolicyOrdinal t))) secret))
  else match buildTopologyFragmentsForNode isIP isRegExp nodeId (with_password base secret) with
  | Throw e => Throw (ReadFailed (Drawing e))
  | Ok handover => Ok ((λ h, UserXray (toWireFragments h)) <$> handover)
  end.
End UserCore.

(** ** The exit's policy *)

(** The node's account, as it is stored. *)
Record WarpAccount := mkAccount {
  wa_secretKey : option string;
  wa_address : option (list string);
  wa_publicKey : option string;
  wa_endpoint : option string;
  wa_reserved : option (list Z)
}.

Definition truthy_str (x : option string) : option string := if truthy x then x else None.

Definition warp_of (enabled : bool) (account : option WarpAccount) : option ChainWarp :=
  match (if enabled then account else None) with
  | Some a =>
      match truthy_str (wa_secretKey a), wa_address a with
      | Some key, Some (x :: l) =>
          Some (mkWarp key (x :: l) (truthy_str (wa_publicKey a)) (truthy_str (wa_endpoint a)) (wa_reserved a) None)
      | _, _ => None
      end
  | None => None
  end.

(** The exit policy and the rule-sets it reads; [None] when there is none. *)
Definition exitPolicyFor (localeLe : string → string → bool) (policy : option (list ChainNodePolicyRule))
    (warpEnabled : bool) (warpAccount : option WarpAccount)
    : result chain_error (option (list RouteRule * option ChainWarp * list (string * string))) :=
  match policy with
  | None | Some [] => Ok None
  | Some rules =>
      let '(routes, ruleSets, usesWarp) := chainNodePolicyOf localeLe rules in
      if bool_decide (routes = []) then Ok None
      else if usesWarp then
        match warp_of warpEnabled warpAccount with
        | Some w => Ok (Some (routes, Some w, ref_pair <$> ruleSets))
        | None => Throw (NoWarpAccount nodeId)
        end
      else Ok (Some (routes, None, ref_pair <$> ruleSets))
  end.

(** [{ ...base, ...exitPolicy }]. *)
Definition with_exit (e : option (list RouteRule * option ChainWarp * list (string * string))) (i : ChainRenderInput)
    : ChainRenderInput :=
  match e with
  | None => i
  | Some (routes, w, ruleSets) =>
      mkRender (ri_role i) (ri_socksPassword i) (ri_directionTags i) (ri_out i) (ri_foreign i) (ri_in i)
        (ri_policies i) (if bool_decide (ruleSets = []) then ri_ruleSets i else ruleSets) (ri_tproxy i)
        (Some (routes, w)) (ri_selfHost i)
  end.
End Node.

(** ** The interfaces of an AmneziaWG entry *)
Record Binding := mkBinding {
  bd_nodeId : string;
  bd_enabled : bool;
  bd_port : Z;
  bd_profileEnabled : bool;
  bd_protocol : string;
  bd_awgProtocol : option Z
}.

Definition serves (nodeId : string) (generation : Z) (b : Binding) : bool :=
  bool_decide (bd_nodeId b = nodeId) && bd_enabled b && bd_profileEnabled b &&
  bool_decide (bd_protocol b = "amneziawg") &&
  (if generation =? 3 then bool_decide (bd_awgProtocol b = Some 3)
   else bool_decide (bd_awgProtocol b = None) || bool_decide (bd_awgProtocol b = Some 1)).

(** The highest port first. *)
Definition awgInterfacePort (bindings : list Binding) (nodeId : string) (generation : Z) : option Z :=
  bd_port <$> head (sort_by (λ a b, bd_port b <=? bd_port a) (filter (λ b, serves nodeId generation b = true) bindings)).

(** ** The block *)
Record ChainTunnel := mkChainTunnel { ct_iface : string; ct_conf : string; ct_listenPort : option Z }.

Record NodeChain := mkNodeChain {
  nc_config : ChainConfig;
  nc_socks : list (Z * Z);
  nc_socksPassword : string;
  nc_userCore : option ChainUserCore;
  nc_tunnels : list ChainTunnel;
  nc_linkIngress : list ChainLinkIngress
}.

(** What the reads of one node answer. *)
Record NodeReads := mkReads {
  nr_secret : string;
  nr_policy : option (list ChainNodePolicyRule);
  nr_warpEnabled : bool;
  nr_warpAccount : option WarpAccount;
  nr_bindings : list Binding
}.

Section Chain.
Context (localeLe : string → string → bool) (isIP : string → Z) (isRegExp : string → bool).
Context (nodeId : string) (reads : NodeReads).

Definition tunnel_end_of (t : ChainTopology) (x : TopologyTunnel) : result chain_error ChainTunnel :=
  if bool_decide (tun_from x = nodeId) then
    conf ← of_tunnel (renderTunnelConf x from_end (host_of (kt_base t) (tun_to x)));
    Ok (mkChainTunnel (tunnelIface (tun_index x)) conf None)
  else
    conf ← of_tunnel (renderTunnelConf x to_end None);
    Ok (mkChainTunnel (tunnelIface (tun_index x)) conf (Some (tun_port x))).

Definition node_tunnels (t : ChainTopology) : result chain_error (list ChainTunnel) :=
  map_res (tunnel_end_of t)
    (sort_by (λ a b, tun_index a <=? tun_index b)
       (filter (λ x, tun_from x = nodeId ∨ tun_to x = nodeId) (kt_tunnels t))).

Definition getChainForNode (topology : option ChainTopology) : result chain_error (option NodeChain) :=
  match topology with
  | None => Ok None
  | Some t =>
      match chainRoleOf nodeId t with
      | None => Ok None
      | Some role =>
          let secret := nr_secret reads in
          base ← of_tunnel (chainInputFor nodeId t localeLe isIP isRegExp role secret);
          match base with
          | None => Ok None
          | Some base =>
              exit ← (if bool_decide (role = CExit)
                      then exitPolicyFor nodeId localeLe (nr_policy reads) (nr_warpEnabled reads) (nr_warpAccount reads)
                      else Ok None);
              let input := with_exit exit base in
              let config := renderChainConfig isIP input in
              tunnels ← node_tunnels t;
              userCore ← userCoreFor nodeId t isIP isRegExp role secret
                           (awgInterfacePort (nr_bindings reads) nodeId 1)
                           (awgInterfacePort (nr_bindings reads) nodeId 3);
              Ok (Some (mkNodeChain config ((λ d, (d, chainSocksPort d)) <$> ri_directionTags input) secret userCore
                          tunnels (chainLinkIngressOf nodeId t)))
          end
      end
  end.
End Chain.
