(* ===== verification/ChainBlocks.v ===== *)
(** The chain blocks of a whole cascade: what each of its nodes is told
    (apps/panel-backend/src/modules/cascades/cascade.service.ts,
    [getChainForNode]), and that every one of them loads. *)

From S2P Require Import CascadeExclusive.
From S2P Require Import Prelude Js Json Directions CascadeValidation LinkCreds PolicyEntries EntryGate XrayLinks.
From S2P Require Import TopologyLinks CascadeTunnel TopologySave TopologyFragments TopologyRoutes CascadeJourney TopologyRead.
From S2P Require Import SingBox ChainPolicy ChainConfig ChainRoutes ChainInput.

Local Open Scope string_scope.
Local Open Scope list_scope.
Local Open Scope Z_scope.

(** ** The rule-sets of an entry's policies *)
Definition policy_sets (c : ChainPolicy) : list string :=
  cm_rule_set (po_block c) ++ cm_rule_set (po_direct c) ++
  default [] (ci_rule_set <$> po_blockIp c) ++ default [] (ci_rule_set <$> po_directIp c).

Lemma ipOf_sets isIP isRegExp es sets :
  grows sets (ipOf isIP isRegExp es sets).2 ∧
  (sets_ok sets → default [] (ci_rule_set <$> (ipOf isIP isRegExp es sets).1) ⊆ jm_keys (ipOf isIP isRegExp es sets).2).
Proof.
  unfold ipOf. destruct (ipMatchOf_sets (splitPolicyEntries isIP isRegExp es).2 sets) as [Hg Hs].
  destruct (ipMatchOf _ sets) as [m sets']. split; [done|]. intros Hok. specialize (Hs Hok). cbn in *.
  case_bool_decide; [set_solver|done].
Qed.

Lemma chain_policy_sets isIP isRegExp st p : sets_ok st.2 →
  (∀ c, c ∈ st.1 → policy_sets c ⊆ jm_keys st.2) →
  sets_ok (chain_policy isIP isRegExp st p).2 ∧
  ∀ c, c ∈ (chain_policy isIP isRegExp st p).1 → policy_sets c ⊆ jm_keys (chain_policy isIP isRegExp st p).2.
Proof.
  destruct st as [out sets]. unfold chain_policy. cbn [fst snd]. intros Hok Hout.
  destruct (ipOf_sets isIP isRegExp (blockDomains p) sets) as [G1 S1].
  destruct (ipOf isIP isRegExp (blockDomains p) sets) as [bi s1]. destruct (G1 Hok) as [Hok1 K1]. specialize (S1 Hok).
  destruct (ipOf_sets isIP isRegExp (directDomains p) s1) as [G2 S2].
  destruct (ipOf isIP isRegExp (directDomains p) s1) as [di s2]. destruct (G2 Hok1) as [Hok2 K2]. specialize (S2 Hok1).
  destruct (matchOf_sets (splitPolicyEntries isIP isRegExp (blockDomains p)).1 s2) as [G3 S3].
  destruct (matchOf (splitPolicyEntries isIP isRegExp (blockDomains p)).1 s2) as [b s3].
  destruct (G3 Hok2) as [Hok3 K3]. specialize (S3 Hok2).
  destruct (matchOf_sets (splitPolicyEntries isIP isRegExp (directDomains p)).1 s3) as [G4 S4].
  destruct (matchOf (splitPolicyEntries isIP isRegExp (directDomains p)).1 s3) as [d s4].
  destruct (G4 Hok3) as [Hok4 K4]. specialize (S4 Hok3). cbn [fst snd] in *.
  split; [done|]. intros c [Hc|Hc]%elem_of_app.
  - specialize (Hout c Hc). set_solver.
  - apply list_elem_of_singleton in Hc as ->. unfold policy_sets. cbn. set_solver.
Qed.

Lemma chainPoliciesOf_sets localeLe isIP isRegExp policies :
  let '(cs, refs) := chainPoliciesOf localeLe isIP isRegExp policies in
  NoDup (rs_tag <$> refs) ∧ ∀ c, c ∈ cs → policy_sets c ⊆ rs_tag <$> refs.
Proof.
  unfold chainPoliciesOf, policies_loop.
  assert (∀ l st, sets_ok st.2 → (∀ c, c ∈ st.1 → policy_sets c ⊆ jm_keys st.2) →
    let st' := foldl (chain_policy isIP isRegExp) st l in
    sets_ok st'.2 ∧ ∀ c, c ∈ st'.1 → policy_sets c ⊆ jm_keys st'.2) as H.
  { induction l as [|p l IH]; intros st Hok Hst; [done|]. cbn.
    destruct (chain_policy_sets isIP isRegExp st p Hok Hst) as [Hok' Hst']. by apply IH. }
  specialize (H (sort_by (λ a b, cp_ordinal a <=? cp_ordinal b) policies) ([], [])).
  destruct H as [Hok Hcs]; [split; [apply jm_wf_nil|set_solver]|set_solver|].
  destruct (foldl _ _ _) as [cs sets]. split; [by apply sets_sorted_NoDup|].
  intros c Hc s Hin. apply sets_sorted_tags; [done|]. by apply (Hcs c).
Qed.

Lemma gate_rules_sets c g r s : is_gate g → r ∈ gate_rules c g → s ∈ rule_sets r → s ∈ policy_sets c.
Proof.
  intros (ins & us & ->) Hr Hin. unfold gate_rules in Hr. unfold policy_sets. rewrite !elem_of_app in *.
  destruct Hr as [H|[H|[H|[H|H]]]];
    (match type of H with
     | r ∈ (if ?b then _ else _) => destruct b
     | r ∈ (match ?o with Some _ => _ | None => _ end) => destruct o
     end); rewrite ?list_elem_of_singleton, ?elem_of_nil in H; try done; subst; cbn in Hin;
    unfold cond_sets in Hin; cbn in Hin; rewrite ?app_nil_r in Hin; cbn; tauto || by apply not_elem_of_nil in Hin.
Qed.

Lemma policyRules_sets cs tproxy r s : r ∈ policyRules cs tproxy → s ∈ rule_sets r → ∃ c, c ∈ cs ∧ s ∈ policy_sets c.
Proof.
  unfold policyRules. intros (c & (g & Hr & Hg)%list_elem_of_bind & Hc)%list_elem_of_bind Hin. exists c. split; [done|].
  eapply gate_rules_sets; [|done|done]. unfold gates_of in Hg. apply elem_of_app in Hg as [Hg|Hg].
  - apply list_elem_of_singleton in Hg as ->. apply user_is_gate.
  - destruct (bool_decide _); [|by apply not_elem_of_nil in Hg]. apply list_elem_of_singleton in Hg as ->.
    apply inbound_is_gate.
Qed.

Lemma protection_sets only r s : r ∈ protectionRules only → s ∉ rule_sets r.
Proof. unfold protectionRules. rewrite !elem_of_cons, elem_of_nil. intros H. destruct_or? H; subst; try done; apply not_elem_of_nil. Qed.

(** ** A topology the chain can carry *)

(** The legs into one listener: over vless with the node's one key and a user
    each, or one leg. *)
Definition vless_listener (keypair : string → string → bool) (ls : list TopologyLinkRow) : Prop :=
  ∀ l, l ∈ ls → ∃ p u r, tl_cred l = Vless p u (Some r) ∧ shortId r ≠ "" ∧
    ∀ l', l' ∈ ls → ∃ u' r', tl_cred l' = Vless p u' (Some r') ∧ (u' = u → l' = l) ∧
      serverName r' = serverName r ∧ keypair (privateKey r') (publicKey r) = true.

Definition lone_listener (keypair : string → string → bool) (ls : list TopologyLinkRow) : Prop :=
  ∃ l, ls = [l] ∧ match tl_cred l with
                  | Vless _ _ (Some r) => shortId r ≠ "" ∧ keypair (privateKey r) (publicKey r) = true
                  | _ => True
                  end.

Definition any_vless (ls : list TopologyLinkRow) : Prop := ∀ l, l ∈ ls → is_vless (tl_cred l) = true.

(** What one read of a topology must be for its chain to carry it: the shape of
    a saved cascade with pools only, addresses of its own, a tunnel under
    every leg that rides one, and listeners that know their legs. *)
Record chain_whole (keypair : string → string → bool) (t : ChainTopology) : Prop := {
  cw_legal : legal (kt_base t);
  cw_shape : shape (kt_base t);
  cw_some : ti_positions (kt_base t) ≠ [];
  cw_pools : ∀ x, x ∈ ti_directions (kt_base t) → td_outbound x = None;
  cw_underlays : length (kt_underlays t) = length (ti_links (kt_base t));
  cw_once : NoDup ((λ l, (tl_from l, tl_to l, tl_tag l)) <$> ti_links (kt_base t));
  cw_between : ∀ l, l ∈ ti_links (kt_base t) → ∃ x, x ∈ ti_directions (kt_base t) ∧
    leg_of (kt_base t) l (tl_from l) (tl_to l) x;
  cw_hosts : ∀ n, n ∈ mjoin (ti_positions (kt_base t)) ++ (ti_directions (kt_base t) ≫= td_nodeIds) → known (kt_base t) n;
  cw_apart : ∀ n m h, host_of (kt_base t) n = Some h → host_of (kt_base t) m = Some h → n = m;
  cw_tunnels : (∀ l, l ∈ chain_links t → l.2 = "awg" → is_Some (tunnelUnder t l)) ∧
    NoDup (tun_index <$> kt_tunnels t) ∧ ∀ x, x ∈ kt_tunnels t → 0 <= tun_index x < MAX_LINK_TUNNELS;
  cw_listeners : ∀ n, vless_listener keypair (incoming n (kt_base t)) ∨ lone_listener keypair (incoming n (kt_base t))
}.

Section Whole.
Context (keypair : string → string → bool) (t : ChainTopology).
Hypothesis Hw : chain_whole keypair t.

Notation base := (kt_base t).
Notation Hs := (cw_shape _ _ Hw).

(** ** Links and their underlays *)
Lemma chain_links_fst : (chain_links t).*1 = ti_links base.
Proof. unfold chain_links. apply fst_zip. by rewrite (cw_underlays _ _ Hw). Qed.

Lemma chain_link_in l : l ∈ chain_links t → l.1 ∈ ti_links base.
Proof. intros H. rewrite <-chain_links_fst. by apply list_elem_of_fmap_2. Qed.

Lemma chain_link_of r : r ∈ ti_links base → ∃ u, (r, u) ∈ chain_links t.
Proof. rewrite <-chain_links_fst. intros ([r' u] & -> & H)%list_elem_of_fmap. by exists u. Qed.

Lemma chain_links_NoDup : NoDup ((λ l : ChainLink, (tl_from l.1, tl_to l.1, tl_tag l.1)) <$> chain_links t).
Proof.
  replace ((λ l : ChainLink, (tl_from l.1, tl_to l.1, tl_tag l.1)) <$> chain_links t)
    with ((λ l, (tl_from l, tl_to l, tl_tag l)) <$> (chain_links t).*1); [|by rewrite <-list_fmap_compose].
  rewrite chain_links_fst. apply (cw_once _ _ Hw).
Qed.

Lemma chain_link_unique l l' : l ∈ chain_links t → l' ∈ chain_links t → tl_from l.1 = tl_from l'.1 →
  tl_to l.1 = tl_to l'.1 → tl_tag l.1 = tl_tag l'.1 → l = l'.
Proof.
  intros Hl Hl' E1 E2 E3. apply (NoDup_fmap_elem _ _ _ _ chain_links_NoDup); [done..|]. cbn. congruence.
Qed.

Lemma elem_of_from n l : l ∈ kt_from n t ↔ l ∈ chain_links t ∧ tl_from l.1 = n.
Proof. unfold kt_from. rewrite list_elem_of_filter. tauto. Qed.
Lemma elem_of_to n l : l ∈ kt_to n t ↔ l ∈ chain_links t ∧ tl_to l.1 = n.
Proof. unfold kt_to. rewrite list_elem_of_filter. tauto. Qed.

Lemma to_incoming n : (kt_to n t).*1 = incoming n base.
Proof.
  unfold kt_to, incoming. rewrite <-chain_links_fst. induction (chain_links t) as [|l ls IH]; [done|].
  rewrite filter_cons, fmap_cons, filter_cons. case_decide; [|exact IH]. rewrite fmap_cons. by f_equal.
Qed.

(** ** The leg a link becomes *)
Definition tunnel_address (x : TopologyTunnel) : string :=
  match tunnelAddresses (tun_index x) with Ok a => addr_to a | Throw _ => "" end.

Definition leg_for (l : ChainLink) : ChainLegOut :=
  match tunnelUnder t l with
  | Some x => mkLegOut (tl_tag l.1) (tunnel_address x) (tl_cred l.1) (Some (tunnelIface (tun_index x)))
  | None => mkLegOut (tl_tag l.1) (default "" (host_of base (tl_to l.1))) (tl_cred l.1) None
  end.

Lemma tunnel_in l x : tunnelUnder t l = Some x → x ∈ kt_tunnels t ∧ tun_from x = tl_from l.1 ∧ tun_to x = tl_to l.1.
Proof.
  unfold tunnelUnder. case_bool_decide; [|done]. intros Hf. apply js_find_Some in Hf as [Hx E]. bool_prop. done.
Qed.

Lemma tunnel_range x : x ∈ kt_tunnels t → ∃ a, tunnelAddresses (tun_index x) = Ok a ∧ tunnel_address x = addr_to a.
Proof.
  intros Hx. destruct (proj2 (proj2 (cw_tunnels _ _ Hw)) x Hx) as [H0 H1]. unfold tunnel_address, tunnelAddresses.
  rewrite (proj2 (Z.ltb_ge _ _)), (proj2 (Z.leb_gt _ _)) by lia. simpl. by eexists.
Qed.

Lemma host_text n h : host_of base n = Some h → truthy (Some h) = true.
Proof.
  unfold host_of. destruct (jm_get n (ti_hosts base)); [|done]. simpl. case_bool_decide; [done|]. intros [= ->].
  unfold truthy. by rewrite bool_decide_true.
Qed.

Lemma leg_ends_known l : l ∈ chain_links t → known base (tl_from l.1) ∧ known base (tl_to l.1).
Proof.
  intros Hl. destruct (cw_between _ _ Hw l.1) as (x & Hx & Hlx); [by apply chain_link_in|].
  destruct (leg_ends_nodes base (tl_from l.1) (tl_to l.1) x Hx) as [Ha Hb].
  - apply (shape_links _ Hs); [done|]. by exists l.1.
  - split; by apply (cw_hosts _ _ Hw).
Qed.

Lemma leg_out_ok l : l ∈ chain_links t → leg_out t l = Ok (Some (leg_for l)).
Proof.
  intros Hl. destruct (leg_ends_known l Hl) as [_ [h Hh]]. unfold leg_out, leg_for. rewrite Hh, (host_text _ _ Hh). simpl.
  destruct (tunnelUnder t l) as [x|] eqn:E; [|done]. apply tunnel_in in E as (Hx & _).
  destruct (tunnel_range x Hx) as (a & Ha & ->). by rewrite Ha.
Qed.

Definition legs_from (n : string) : list ChainLegOut := leg_for <$> kt_from n t.

Lemma legs_out_ok n : map_res (leg_out t) (kt_from n t) = Ok (Some <$> legs_from n).
Proof.
  unfold legs_from. rewrite <-list_fmap_compose. apply map_res_pure. intros l Hl. apply leg_out_ok.
  by apply elem_of_from in Hl as [? _].
Qed.

Lemma omap_some {A} (l : list A) : omap id (Some <$> l) = l.
Proof. induction l as [|x l IH]; [done|]. simpl. by f_equal. Qed.

Lemma foreign_none n : foreignOf n t = [].
Proof.
  unfold foreignOf. destruct (last _); [|done]. case_bool_decide; [|done]. apply elem_of_nil_inv. intros f Hf.
  apply list_elem_of_omap in Hf as (d & Hd & E). by rewrite (cw_pools _ _ Hw d Hd) in E.
Qed.

(** ** The leg into a node *)
Definition listen_of (n : string) : option (list string) :=
  (λ under, js_uniq (tunnel_address <$> under)) <$> (if bool_decide (kt_to n t = []) then None else mapM (tunnelUnder t) (kt_to n t)).

Lemma linkInListen_ok n : linkInListen (kt_to n t) (λ l, tun_index <$> tunnelUnder t l) = Ok (listen_of n).
Proof.
  unfold linkInListen, listen_of. case_bool_decide; [done|].
  assert (mapM (λ l, tun_index <$> tunnelUnder t l) (kt_to n t) = fmap tun_index <$> mapM (tunnelUnder t) (kt_to n t)) as ->.
  { clear. induction (kt_to n t) as [|l ls IH]; [done|]. cbn. destruct (tunnelUnder t l); [|done]. cbn. rewrite IH.
    by destruct (mapM (tunnelUnder t) ls). }
  destruct (mapM (tunnelUnder t) (kt_to n t)) as [under|] eqn:E; [|done]. cbn.
  assert (Forall (λ x, x ∈ kt_tunnels t) under) as Hin.
  { apply mapM_Some in E. apply Forall_forall. intros x Hx. destruct (Forall2_elem_r _ _ _ _ E Hx) as (l & _ & Hl).
    by apply tunnel_in in Hl as [? _]. }
  assert (map_res (λ i, addr_to <$> tunnelAddresses i) (tun_index <$> under) = Ok (tunnel_address <$> under)) as ->; [|done].
  clear E. induction Hin as [|x l Hx _ IH]; [done|]. cbn. destruct (tunnel_range x Hx) as (a & Ha & ->). rewrite Ha. cbn.
  by rewrite IH.
Qed.

Definition in_of (n : string) (first : ChainLink) : ChainLegIn :=
  mkLegIn (tl_cred first.1) (ChainInput.client_of <$> kt_to n t) (listen_of n).

Lemma leg_in_ok n : leg_in n t = Ok (in_of n <$> head (kt_to n t)).
Proof. unfold leg_in. rewrite linkInListen_ok. unfold mbind, result_bind, in_of. by destruct (kt_to n t). Qed.

(** ** Where a node stands *)
Lemma directions_some : ti_directions base ≠ [].
Proof. apply (legal_some _ (cw_legal _ _ Hw)). Qed.

Lemma tag_range x : x ∈ ti_directions base → 1 <= td_tag x <= 255.
Proof. pose proof (legal_tags _ (cw_legal _ _ Hw)) as H. rewrite Forall_forall in H. apply H. Qed.

Lemma link_tag_of l : l ∈ chain_links t → ∃ x, x ∈ ti_directions base ∧ tl_tag l.1 = td_tag x ∧
  leg_between base (tl_from l.1) (tl_to l.1) x.
Proof.
  intros Hl. destruct (cw_between _ _ Hw l.1) as (x & Hx & Hlx); [by apply chain_link_in|]. exists x.
  split; [done|]. split; [apply Hlx|]. apply (shape_links _ Hs); [done|]. by exists l.1.
Qed.

Lemma link_between a b x : x ∈ ti_directions base → leg_between base a b x →
  ∃ l, l ∈ chain_links t ∧ tl_from l.1 = a ∧ tl_to l.1 = b ∧ tl_tag l.1 = td_tag x.
Proof.
  intros Hx Hb. apply (shape_links _ Hs) in Hb as (r & Hr & ? & ? & ?); [|done].
  destruct (chain_link_of r Hr) as [u Hu]. by exists (r, u).
Qed.

Lemma from_position i p n x : ti_positions base !! i = Some p → n ∈ p → x ∈ ti_directions base →
  ∃ l, l ∈ kt_from n t ∧ tl_tag l.1 = td_tag x.
Proof.
  intros Hp Hn Hx. pose proof (next_pool_filled base Hs i x Hx) as Hf.
  destruct (next_pool base i x) as [|b bs] eqn:E; [done|].
  destruct (link_between n b x Hx) as (l & Hl & Ef & _ & Et).
  { apply (leg_from_position base Hs i p); [done..|]. rewrite E. by left. }
  exists l. split; [by apply elem_of_from|done].
Qed.

(** The legs of a node on a position: one to every node of the next pool. *)
Lemma leg_to i p n m x : ti_positions base !! i = Some p → n ∈ p → x ∈ ti_directions base → m ∈ next_pool base i x →
  ∃ l, l ∈ kt_from n t ∧ tl_to l.1 = m ∧ tl_tag l.1 = td_tag x.
Proof.
  intros Hp Hn Hx Hm. destruct (link_between n m x Hx) as (l & Hl & Ef & Et & Eg); [by apply (leg_from_position base Hs i p)|].
  exists l. split; [by apply elem_of_from|done].
Qed.

Lemma leg_next i p n l x : ti_positions base !! i = Some p → n ∈ p → x ∈ ti_directions base → l ∈ kt_from n t →
  tl_tag l.1 = td_tag x → tl_to l.1 ∈ next_pool base i x.
Proof.
  intros Hp Hn Hx [Hl Hf]%elem_of_from Et. destruct (link_tag_of l Hl) as (y & Hy & Ey & Hb). rewrite Hf in Hb.
  assert (y = x) as ->.
  { apply (NoDup_fmap_elem td_tag (ti_directions base)); [apply (legal_distinct _ (cw_legal _ _ Hw))|done..|congruence]. }
  by apply (leg_from_position base Hs i p) in Hb.
Qed.

Lemma chain_role_entry p n : ti_positions base !! 0%nat = Some p → n ∈ p → chainRoleOf n t = Some CEntry.
Proof.
  intros Hp Hn. unfold chainRoleOf. pose proof directions_some as Hd.
  destruct (ti_directions base) as [|x ds] eqn:E; [done|].
  destruct (from_position 0 p n x Hp Hn) as (l & Hl & _); [rewrite E; by left|].
  assert (kt_from n t ≠ []) as Hne by (intros E'; rewrite E' in Hl; by apply not_elem_of_nil in Hl).
  rewrite (bool_decide_true (kt_from n t ≠ [])) by done. rewrite andb_false_r.
  destruct (ti_positions base) as [|p0 ps]; [done|]. injection Hp as ->. cbn. by rewrite bool_decide_true.
Qed.

Lemma not_entry i p n : ti_positions base !! S i = Some p → n ∈ p → n ∉ default [] (head (ti_positions base)).
Proof.
  intros Hp Hn Hin. destruct (ti_positions base) as [|p0 ps] eqn:E; [done|]. cbn in Hin.
  assert (S i = 0%nat); [|done]. eapply (position_unique base Hs _ _ p p0 n); rewrite ?E; done.
Qed.

Lemma role_inner n l : l ∈ kt_to n t → n ∉ default [] (head (ti_positions base)) →
  chainRoleOf n t = Some (if existsb (λ d, bool_decide (n ∈ td_nodeIds d)) (ti_directions base) then CExit else CTransit).
Proof.
  intros Hl Hn. unfold chainRoleOf.
  assert (kt_to n t ≠ []) as Hne by (intros E'; rewrite E' in Hl; by apply not_elem_of_nil in Hl).
  rewrite (bool_decide_true (kt_to n t ≠ [])), (bool_decide_false (n ∈ _)) by done. cbn. by destruct (existsb _ _).
Qed.

Lemma chain_role_transit i p n l : ti_positions base !! S i = Some p → n ∈ p → l ∈ kt_to n t →
  chainRoleOf n t = Some CTransit.
Proof.
  intros Hp Hn Hl. rewrite (role_inner n l Hl) by by eapply not_entry.
  pose proof (position_not_direction base Hs (S i) p n Hp Hn) as E. unfold isDirection in E. by rewrite E.
Qed.

Lemma chain_role_exit x n l : x ∈ ti_directions base → n ∈ td_nodeIds x → l ∈ kt_to n t → chainRoleOf n t = Some CExit.
Proof.
  intros Hx Hn Hl. rewrite (role_inner n l Hl).
  - assert (existsb (λ d, bool_decide (n ∈ td_nodeIds d)) (ti_directions base) = true) as ->; [|done].
    apply existsb_in. exists x. split; [done|]. by apply bool_decide_eq_true.
  - intros Hin. destruct (ti_positions base) as [|p0 ps] eqn:E; [by apply not_elem_of_nil in Hin|]. cbn in Hin.
    apply (direction_not_position base Hs x 0 p0 n); rewrite ?E; done.
Qed.

(** ** The inputs *)
Ltac none_in := by intros ? ?%not_elem_of_nil.

Section Inputs.
Context (localeLe : string → string → bool) (isIP : string → Z) (isRegExp : string → bool) (n : string) (pw : string).

Lemma out_complete : bool_decide (length (omap id (Some <$> legs_from n)) = length (kt_from n t)) = true.
Proof. apply bool_decide_eq_true. rewrite omap_some. unfold legs_from. by rewrite length_fmap. Qed.

Lemma input_entry : chainInputFor n t localeLe isIP isRegExp CEntry pw
  = Ok (Some (entry_input n t localeLe isIP isRegExp pw (legs_from n))).
Proof. unfold chainInputFor. rewrite legs_out_ok. cbn. rewrite out_complete, omap_some, leg_in_ok. done. Qed.

Definition transit_input (first : ChainLink) : ChainRenderInput :=
  mkRender CTransit pw [] (legs_from n) [] (Some (in_of n first)) [] [] None None (host_of base n).
Definition exit_input (first : ChainLink) : ChainRenderInput :=
  mkRender CExit pw [] [] [] (Some (in_of n first)) [] [] None None None.

Lemma input_transit first : head (kt_to n t) = Some first →
  chainInputFor n t localeLe isIP isRegExp CTransit pw = Ok (Some (transit_input first)).
Proof.
  intros Hf. unfold chainInputFor. rewrite legs_out_ok. cbn. rewrite out_complete, omap_some, leg_in_ok, Hf. cbn.
  by rewrite foreign_none.
Qed.

Lemma input_exit first : head (kt_to n t) = Some first →
  chainInputFor n t localeLe isIP isRegExp CExit pw = Ok (Some (exit_input first)).
Proof. intros Hf. unfold chainInputFor. rewrite legs_out_ok. cbn. by rewrite out_complete, leg_in_ok, Hf. Qed.

Lemma legs_positive leg : leg ∈ legs_from n → 0 < lo_tag leg.
Proof.
  intros (l & -> & Hl)%list_elem_of_fmap. apply elem_of_from in Hl as [Hl _].
  destruct (link_tag_of l Hl) as (x & Hx & Et & _). pose proof (tag_range x Hx).
  assert (lo_tag (leg_for l) = tl_tag l.1) as -> by (unfold leg_for; by destruct (tunnelUnder t l)). lia.
Qed.

Lemma listen_NoDup a : listen_of n = Some a → NoDup a.
Proof.
  unfold listen_of. destruct (if bool_decide _ then _ else _); [|done]. intros [= <-]. apply NoDup_js_uniq.
Qed.

Lemma plain_sets input : ri_role input ≠ CEntry → exit_policy input = None → rule_set_refs input = [] ∧
  ∀ r s, r ∈ first_rules input → s ∉ rule_sets r.
Proof.
  intros Hr He. split.
  - unfold rule_set_refs, is_entry. by rewrite He, bool_decide_false.
  - intros r s Hin. rewrite (not_entry_rules input (ri_role input)) in Hin by done. by eapply protection_sets.
Qed.

(** An input with nothing but legs. *)
Lemma inner_legal input : ri_role input ≠ CEntry → exit_policy input = None → ri_foreign input = [] →
  ri_directionTags input = [] → (∀ l, l ∈ ri_out input → 0 < lo_tag l) →
  (∀ leg a, ri_in input = Some leg → li_listen leg = Some a → NoDup a) → chain_legal input.
Proof.
  intros Hr He Hf Hd Hl Hi. destruct (plain_sets input Hr He) as [Hs Hfirst].
  assert (entry_policies input = [] ∧ entry_tproxy input = None) as [Ep Et].
  { unfold entry_policies, entry_tproxy, is_entry. by rewrite bool_decide_false. }
  constructor; rewrite ?Hf, ?Hd, ?Ep, ?Et, ?Hs, ?He; try done; try apply NoDup_nil_2; try none_in.
  - split; [apply NoDup_nil_2|none_in].
  - split; [apply NoDup_nil_2|]. intros r s Hin Hx. by destruct (Hfirst r s).
Qed.

Lemma transit_legal first : chain_legal (transit_input first).
Proof. apply inner_legal; try done; [apply legs_positive|]. intros leg a [= <-]. apply listen_NoDup. Qed.

(** What [exitPolicyFor] answers. *)
Lemma exit_policy_of policy enabled account e : exitPolicyFor n localeLe policy enabled account = Ok e →
  e = None ∨ ∃ rules w, policy = Some rules ∧ tr_rules (node_loop rules) ≠ [] ∧
    e = Some (tr_rules (node_loop rules), w, ref_pair <$> sets_sorted localeLe (tr_sets (node_loop rules))) ∧
    (tr_warp (node_loop rules) = true → is_Some w).
Proof.
  unfold exitPolicyFor. destruct policy as [[|r0 rules]|]; [intros [= <-]; by left| |intros [= <-]; by left].
  unfold chainNodePolicyOf. set (st := node_loop (r0 :: rules)).
  case_bool_decide as Hne; [intros [= <-]; by left|]. intros He. right. exists (r0 :: rules).
  destruct (tr_warp st) eqn:Ew.
  - destruct (warp_of enabled account) as [w|]; [|done]. injection He as <-. exists (Some w). fold st. by rewrite Ew.
  - injection He as <-. exists None. fold st. by rewrite Ew.
Qed.

Lemma exit_legal first policy enabled account e : exitPolicyFor n localeLe policy enabled account = Ok e →
  chain_legal (with_exit e (exit_input first)).
Proof.
  assert (∀ leg a, Some (in_of n first) = Some leg → li_listen leg = Some a → NoDup a) as Hi
    by (intros leg a [= <-]; apply listen_NoDup).
  intros [->|(rules & w & _ & Hne & -> & Hw')]%exit_policy_of.
  { apply inner_legal; try done. none_in. }
  pose proof (node_loop_sets rules) as (Hok & Hsets & Hwarp & Hact). set (st := node_loop rules) in *.
  set (refs := ref_pair <$> sets_sorted localeLe (tr_sets st)).
  assert (refs.*1 = rs_tag <$> sets_sorted localeLe (tr_sets st)) as Efst by (unfold refs; by rewrite <-list_fmap_compose).
  unfold with_exit. replace (if bool_decide (refs = []) then _ else refs) with refs by (by case_bool_decide).
  cbn [ri_role ri_socksPassword ri_directionTags ri_out ri_foreign ri_in ri_policies ri_tproxy ri_selfHost exit_input].
  set (input := mkRender _ _ _ _ _ _ _ _ _ _ _).
  assert (exit_policy input = Some (tr_rules st, w)) as Ep by done.
  assert (rule_set_refs input = refs) as Er.
  { unfold rule_set_refs. rewrite Ep. by destruct (tr_rules st). }
  constructor; try done; try apply NoDup_nil_2; try none_in.
  - by intros [].
  - split; [apply NoDup_nil_2|none_in].
  - rewrite Er, Efst. split; [by apply sets_sorted_NoDup|]. intros r s Hr Hin. unfold first_rules in Hr.
    rewrite Ep, !elem_of_app in Hr. destruct Hr as [Hr|[Hr|Hr]].
    + by destruct (protection_sets _ _ s Hr).
    + by apply not_elem_of_nil in Hr.
    + apply sets_sorted_tags; [done|]. by eapply Hsets.
  - intros rules' w' r tt E Hr Ha. rewrite Ep in E. injection E as <- <-.
    destruct (Hact r Hr) as [Hres|[k Hk]]; [congruence|]. rewrite Ha in Hk.
    destruct k; cbn in Hk; simplify_eq; try by left. right. split; [done|]. apply Hw'. by apply (Hwarp r).
Qed.

(** What an entry offers. *)
Lemma entry_tags_elem d : d ∈ entry_tags n t (legs_from n) →
  d ∈ lo_tag <$> legs_from n ∨ d = 0 ∧ (handsWholeEntry t = true ∨ ti_auto base = true).
Proof.
  unfold entry_tags. rewrite foreign_none, app_nil_r.
  assert (∀ e, e ∈ sort_by Z.leb (js_uniq (lo_tag <$> legs_from n)) → e ∈ lo_tag <$> legs_from n) as Hs.
  { intros e He. rewrite sort_by_perm, elem_of_js_uniq in He. done. }
  destruct (handsWholeEntry t || _) eqn:E; [|intros; left; by apply Hs].
  intros [->|Hd]%elem_of_cons; [right|left; by apply Hs]. split; [done|].
  apply orb_true_iff in E as [?|[? _]%andb_true_iff]; auto.
Qed.

Lemma entry_tags_NoDup : NoDup (entry_tags n t (legs_from n)).
Proof.
  unfold entry_tags. rewrite foreign_none, app_nil_r.
  assert (NoDup (sort_by Z.leb (js_uniq (lo_tag <$> legs_from n)))) as Hn by (rewrite sort_by_perm; apply NoDup_js_uniq).
  destruct (handsWholeEntry t || _); [|done]. apply NoDup_cons. split; [|done].
  rewrite sort_by_perm, elem_of_js_uniq. intros (l & E & Hl)%list_elem_of_fmap. pose proof (legs_positive l Hl). lia.
Qed.

Lemma entry_legal p : ti_positions base !! 0%nat = Some p → n ∈ p →
  chain_legal (entry_input n t localeLe isIP isRegExp pw (legs_from n)).
Proof.
  intros Hp Hn. unfold entry_input.
  pose proof (chainPoliciesOf_translates isIP isRegExp localeLe (default [] (ti_policies base))) as Htr.
  pose proof (chainPoliciesOf_sets localeLe isIP isRegExp (default [] (ti_policies base))) as Hsets.
  destruct (chainPoliciesOf _ _ _ _) as [cs refs]. cbn [fst] in Htr. destruct Hsets as [Hr Hsets]. rewrite foreign_none.
  set (input := mkRender _ _ _ _ _ _ _ _ _ _ _).
  assert (entry_policies input = cs) as Ec by done.
  assert (rule_set_refs input = if bool_decide (cs = []) then [] else ref_pair <$> refs) as Er.
  { unfold rule_set_refs. rewrite Ec. by destruct cs. }
  assert (exit_policy input = None) as Ex by done.
  assert ((ref_pair <$> refs).*1 = rs_tag <$> refs) as Efst by (by rewrite <-list_fmap_compose).
  assert (po_ordinal <$> cs = cp_ordinal <$> sort_by (λ a b, cp_ordinal a <=? cp_ordinal b) (default [] (ti_policies base))) as Eo.
  { clear -Htr. induction Htr as [|q c ps cs (E & _) _ IH]; [done|]. cbn. by rewrite E, IH. }
  assert (ways_out input = js_uniq (lo_tag <$> legs_from n)) as Ew by (unfold ways_out; cbn; by rewrite app_nil_r).
  constructor; try done; try apply NoDup_nil_2; try none_in; rewrite ?Ew.
  - apply legs_positive.
  - apply entry_tags_NoDup.
  - intros d [Hd|[-> _]]%entry_tags_elem; [right; by rewrite elem_of_js_uniq|by left].
  - intros _ E. pose proof directions_some as Hd. destruct (ti_directions base) as [|x ds] eqn:Ed; [done|].
    destruct (from_position 0 p n x Hp Hn) as (l & Hl & _); [rewrite Ed; by left|].
    assert (lo_tag (leg_for l) ∈ js_uniq (lo_tag <$> legs_from n)) as Hin
      by (rewrite elem_of_js_uniq; by do 2 apply list_elem_of_fmap_2).
    rewrite E in Hin. by apply not_elem_of_nil in Hin.
  - cbn. intros H. unfold entry_tags, handsWholeEntry.
    destruct (bool_decide_reflect (kt_entryProtocol t = Some "amneziawg")) as [Ea|Ea]; [|by destruct H].
    rewrite orb_true_r. by left.
  - rewrite Ec, Eo. split.
    + rewrite sort_by_perm. apply (legal_ordinals _ (cw_legal _ _ Hw)).
    + intros c Hc. assert (po_ordinal c ∈ po_ordinal <$> cs) as H by (by apply list_elem_of_fmap_2).
      rewrite Eo in H. apply list_elem_of_fmap in H as (q & E & Hq). rewrite sort_by_perm in Hq.
      pose proof (legal_policies _ (cw_legal _ _ Hw)) as Hl. rewrite Forall_forall in Hl. specialize (Hl q Hq). lia.
  - rewrite Er. case_bool_decide as En.
    + split; [apply NoDup_nil_2|]. intros r s Hin Hs. exfalso. unfold first_rules in Hin. rewrite Ec, En, Ex in Hin.
      by destruct (protection_sets _ _ s Hin).
    + rewrite Efst. split; [done|]. intros r s Hin Hs. unfold first_rules in Hin.
      rewrite Ec, Ex, app_nil_r, elem_of_app in Hin. destruct Hin as [Hin|Hin]; [by destruct (protection_sets _ _ s Hin)|].
      destruct (policyRules_sets _ _ _ _ Hin Hs) as (c & Hc & Hx). by apply (Hsets c).
Qed.
End Inputs.

(** ** The blocks *)
Lemma to_leg i p n : ti_positions base !! S i = Some p → n ∈ p → ∃ first, head (kt_to n t) = Some first.
Proof.
  intros Hp Hn. pose proof directions_some as Hd. destruct (ti_directions base) as [|x ds] eqn:Ed; [done|].
  destruct (lookup_lt_is_Some_2 (ti_positions base) i) as [q Hq]; [apply lookup_lt_Some in Hp; lia|].
  pose proof (proj1 (shape_pools _ Hs)) as Hf. rewrite Forall_forall in Hf.
  destruct q as [|a q]; [by destruct (Hf []); [by eapply list_elem_of_lookup_2|]|].
  destruct (link_between a n x) as (l & Hl & _ & Et & _); [rewrite Ed; by left| |].
  { apply (leg_from_position base Hs i (a :: q)); [done|by left|]. unfold next_pool. by rewrite Hp. }
  assert (l ∈ kt_to n t) as Hin by by apply elem_of_to. destruct (kt_to n t) as [|first ls]; [by apply not_elem_of_nil in Hin|].
  by exists first.
Qed.

Lemma exit_leg x n : x ∈ ti_directions base → n ∈ td_nodeIds x → ∃ first, head (kt_to n t) = Some first.
Proof.
  intros Hx Hn. pose proof (cw_some _ _ Hw) as Hne. destruct (last (ti_positions base)) as [q|] eqn:Eq;
    [|by apply last_None in Eq].
  rewrite last_lookup in Eq. pose proof (proj1 (shape_pools _ Hs)) as Hf. rewrite Forall_forall in Hf.
  destruct q as [|a q]; [by destruct (Hf []); [by eapply list_elem_of_lookup_2|]|].
  destruct (link_between a n x) as (l & Hl & _ & Et & _); [done| |].
  { right. exists (a :: q). rewrite last_lookup. split; [done|]. split; [by left|done]. }
  assert (l ∈ kt_to n t) as Hin by by apply elem_of_to. destruct (kt_to n t) as [|first ls]; [by apply not_elem_of_nil in Hin|].
  by exists first.
Qed.

Section Blocks.
Context (localeLe : string → string → bool) (isIP : string → Z) (isRegExp : string → bool).

Lemma tunnel_end_ok n x : x ∈ kt_tunnels t → ∃ c, tunnel_end_of n t x = Ok c ∧ ct_iface c = tunnelIface (tun_index x).
Proof.
  intros Hx. destruct (tunnel_range x Hx) as (a & Ha & _). unfold tunnel_end_of, renderTunnelConf. rewrite Ha.
  case_bool_decide; by eexists.
Qed.

(** A node has its end of every tunnel it is an end of. *)
Lemma node_tunnels_ok n : ∃ ts, node_tunnels n t = Ok ts ∧
  ∀ x, x ∈ kt_tunnels t → tun_from x = n ∨ tun_to x = n → tunnelIface (tun_index x) ∈ ct_iface <$> ts.
Proof.
  unfold node_tunnels. set (xs := sort_by _ _).
  assert (∀ x, x ∈ xs → x ∈ kt_tunnels t) as Hsub.
  { intros x Hx. unfold xs in Hx. rewrite sort_by_perm in Hx. by apply list_elem_of_filter in Hx as [_ ?]. }
  destruct (map_res (tunnel_end_of n t) xs) as [ts|e] eqn:E.
  - exists ts. split; [done|]. intros x Hx He. apply map_res_ok in E.
    assert (x ∈ xs) as Hin by (unfold xs; rewrite sort_by_perm; by apply list_elem_of_filter).
    destruct (Forall2_elem_l _ _ _ _ E Hin) as (c & Hc & Ec). destruct (tunnel_end_ok n x Hx) as (c' & Ec' & <-).
    rewrite Ec in Ec'. injection Ec' as ->. by apply list_elem_of_fmap_2.
  - assert (is_ok (map_res (tunnel_end_of n t) xs)) as Hok; [|by rewrite E in Hok].
    apply map_res_is_ok. intros x Hx. by destruct (tunnel_end_ok n x (Hsub x Hx)) as (c & -> & _).
Qed.

Lemma handoff_ok p : (∀ q, p = Some q → 1 <= q <= 65535) → ∃ h, handoff p = Ok h.
Proof.
  intros Hp. destruct p as [q|]; [|by eexists]. specialize (Hp q eq_refl). unfold handoff, chainTProxyMark.
  rewrite (proj2 (Z.ltb_ge q 1)), (proj2 (Z.ltb_ge 65535 q)) by lia. by eexists.
Qed.

Lemma awgInterfacePort_in bindings n g q : awgInterfacePort bindings n g = Some q → ∃ b, b ∈ bindings ∧ bd_port b = q.
Proof.
  unfold awgInterfacePort. destruct (sort_by _ _) as [|b bs] eqn:E; [done|]. intros [= <-]. exists b. split; [|done].
  assert (b ∈ b :: bs) as Hb by by left. rewrite <-E, sort_by_perm in Hb. by apply list_elem_of_filter in Hb as [_ ?].
Qed.

Lemma no_foreign_tags n input : ti_directions input = ti_directions base → foreignTags n input = [].
Proof.
  intros Ed. unfold foreignTags, outbound_directions. destruct (posIndex n input); [|done]. case_bool_decide; [|done].
  rewrite Ed, filter_none; [done|]. intros d Hd. rewrite (cw_pools _ _ Hw d Hd). by intros [].
Qed.

(** The hand-off of a node is always drawn. *)
Lemma user_core_ok n role secret one three : chainRoleOf n t = Some role →
  (∀ q, one = Some q ∨ three = Some q → 1 <= q <= 65535) → ∃ u, userCoreFor n t isIP isRegExp role secret one three = Ok u.
Proof.
  intros Hrole Hq. unfold userCoreFor. case_bool_decide as Er; [|by eexists]. cbn [negb]. subst role.
  case_bool_decide.
  { destruct (handoff_ok one) as [h ->]; [by intros q ->; apply Hq; left|].
    destruct (handoff_ok three) as [h' ->]; [by intros q ->; apply Hq; right|]. by eexists. }
  case_bool_decide; [by eexists|]. set (input := with_password base secret).
  assert (∀ l, l ∈ ti_links input → known input (tl_from l) ∧ known input (tl_to l)) as Hk.
  { intros r Hr. destruct (chain_link_of r Hr) as [u Hu]. by destruct (leg_ends_known (r, u) Hu). }
  destruct (build_drawn isIP isRegExp n input) as [Hnone Hsome].
  destruct (decide (incoming n input ++ outgoing n input = [])) as [E|E].
  - assert (buildTopologyFragmentsForNode isIP isRegExp n input = Ok None) as ->; [|by eexists].
    apply Hnone. intros [Ht|Ht]; [done|]. by apply Ht, no_foreign_tags.
  - assert (∃ cfg, buildTopologyFragmentsForNode isIP isRegExp n input = Ok (Some cfg)) as [cfg ->]; [|by eexists].
    apply Hsome; [by left|]. split; [|split; [|left; by apply no_foreign_tags]].
    + intros l [_ Hl]%list_elem_of_filter. by apply Hk.
    + intros l [_ Hl]%list_elem_of_filter. split; [by apply Hk|]. intros Hh. exfalso.
      unfold handover in Hh. destruct (isEntry n input) eqn:Ee; [done|].
      unfold chainRoleOf in Hrole. destruct (_ && _); [done|]. case_bool_decide as Hin; [|by destruct (existsb _ _)].
      destruct (ti_positions base) as [|p ps] eqn:Ep; [by apply not_elem_of_nil in Hin|]. cbn in Hin.
      change (isEntry n base = false) in Ee. unfold isEntry in Ee. rewrite (position_index base Hs 0 p n) in Ee by (rewrite ?Ep; done). done.
Qed.

(** What the reads of one node answer is usable: the interfaces it serves are
    on ports, and the WARP its policy wants is there. *)
Definition reads_ok (n : string) (reads : NodeReads) : Prop :=
  (∀ b, b ∈ nr_bindings reads → 1 <= bd_port b <= 65535) ∧
  ∃ e, exitPolicyFor n localeLe (nr_policy reads) (nr_warpEnabled reads) (nr_warpAccount reads) = Ok e.

Notation block n reads := (getChainForNode localeLe isIP isRegExp n reads (Some t)).

(** The block around a rendered input. *)
Definition block_with (n : string) (input : ChainRenderInput) (blk : NodeChain) : Prop :=
  nc_config blk = renderChainConfig isIP input ∧ nc_linkIngress blk = chainLinkIngressOf n t ∧
  ∀ x, x ∈ kt_tunnels t → tun_from x = n ∨ tun_to x = n → tunnelIface (tun_index x) ∈ ct_iface <$> nc_tunnels blk.

Lemma block_of n reads role input e : (∀ b, b ∈ nr_bindings reads → 1 <= bd_port b <= 65535) →
  chainRoleOf n t = Some role → chainInputFor n t localeLe isIP isRegExp role (nr_secret reads) = Ok (Some input) →
  (if bool_decide (role = CExit)
   then exitPolicyFor n localeLe (nr_policy reads) (nr_warpEnabled reads) (nr_warpAccount reads) else Ok None) = Ok e →
  ∃ blk, block n reads = Ok (Some blk) ∧ block_with n (with_exit e input) blk.
Proof.
  intros Hb Hrole Hin He. unfold getChainForNode. rewrite Hrole, Hin. cbn [of_tunnel mbind result_bind]. rewrite He.
  cbn [mbind result_bind]. destruct (node_tunnels_ok n) as (ts & -> & Hts). cbn [mbind result_bind].
  destruct (user_core_ok n role (nr_secret reads) (awgInterfacePort (nr_bindings reads) n 1)
    (awgInterfacePort (nr_bindings reads) n 3) Hrole) as [u ->].
  { intros q [E|E]; apply awgInterfacePort_in in E as (b & Hin' & <-); by apply Hb. }
  by eexists.
Qed.

Lemma block_entry p n reads : reads_ok n reads → ti_positions base !! 0%nat = Some p → n ∈ p →
  ∃ blk, block n reads = Ok (Some blk) ∧
    block_with n (entry_input n t localeLe isIP isRegExp (nr_secret reads) (legs_from n)) blk.
Proof.
  intros [Hb _] Hp Hn. apply (block_of n reads CEntry _ None Hb); [by apply (chain_role_entry p)|apply input_entry|done].
Qed.

Lemma block_transit i p n reads : reads_ok n reads → ti_positions base !! S i = Some p → n ∈ p →
  ∃ first blk, head (kt_to n t) = Some first ∧ block n reads = Ok (Some blk) ∧
    block_with n (transit_input n (nr_secret reads) first) blk.
Proof.
  intros [Hb _] Hp Hn. destruct (to_leg i p n Hp Hn) as [first Hf]. exists first.
  destruct (block_of n reads CTransit (transit_input n (nr_secret reads) first) None Hb) as (blk & ? & ?); [..|by exists blk].
  - destruct (kt_to n t) as [|l ls] eqn:E; [done|]. apply (chain_role_transit i p n l); [done..|]. rewrite E. by left.
  - by apply input_transit.
  - done.
Qed.

Lemma block_exit x n reads : reads_ok n reads → x ∈ ti_directions base → n ∈ td_nodeIds x →
  ∃ first e blk, head (kt_to n t) = Some first ∧
    exitPolicyFor n localeLe (nr_policy reads) (nr_warpEnabled reads) (nr_warpAccount reads) = Ok e ∧
    block n reads = Ok (Some blk) ∧ block_with n (with_exit e (exit_input n (nr_secret reads) first)) blk.
Proof.
  intros [Hb [e He]] Hx Hn. destruct (exit_leg x n Hx Hn) as [first Hf]. exists first, e.
  destruct (block_of n reads CExit (exit_input n (nr_secret reads) first) e Hb) as (blk & ? & ?); [..|by exists blk].
  - destruct (kt_to n t) as [|l ls] eqn:E; [done|]. apply (chain_role_exit x n l); [done..|]. rewrite E. by left.
  - by apply input_exit.
  - done.
Qed.

Lemma no_role n : n ∉ mjoin (ti_positions base) ++ (ti_directions base ≫= td_nodeIds) → chainRoleOf n t = None.
Proof.
  intros Hn.
  assert (∀ l, l ∈ chain_links t → tl_from l.1 ≠ n ∧ tl_to l.1 ≠ n) as Hout.
  { intros l Hl. destruct (link_tag_of l Hl) as (x & Hx & _ & Hb). destruct (leg_ends_nodes _ _ _ _ Hx Hb) as [? ?].
    split; intros E; by rewrite E in *. }
  assert (kt_to n t = [] ∧ kt_from n t = []) as [E1 E2].
  { unfold kt_to, kt_from. split; apply filter_none; intros l Hl; by apply Hout. }
  unfold chainRoleOf. by rewrite E1, E2, foreign_none.
Qed.

(** C5. Every node of a whole cascade gets a chain block, whatever its place,
    as long as its own reads are usable; the configuration in it is one
    sing-box starts on: no outbound, listener or rule-set declared twice, and
    every tag a rule, a group, the default route or a policy names declared.
    A node outside the cascade gets none. *)
Theorem blocks_load n reads : reads_ok n reads →
  (n ∈ mjoin (ti_positions base) ++ (ti_directions base ≫= td_nodeIds) →
     ∃ blk, block n reads = Ok (Some blk) ∧ loadable (nc_config blk)) ∧
  (n ∉ mjoin (ti_positions base) ++ (ti_directions base ≫= td_nodeIds) → block n reads = Ok None).
Proof.
  intros Hr. split; intros Hn.
  - apply elem_of_app in Hn as [(p & Hn & [i Hp]%list_elem_of_lookup)%list_elem_of_join|(x & Hn & Hx)%list_elem_of_bind].
    + destruct i as [|i].
      * destruct (block_entry p n reads Hr Hp Hn) as (blk & Hb & Hc & _). exists blk. split; [done|]. rewrite Hc.
        apply loads. by apply (entry_legal localeLe isIP isRegExp n (nr_secret reads) p).
      * destruct (block_transit i p n reads Hr Hp Hn) as (first & blk & _ & Hb & Hc & _). exists blk. split; [done|].
        rewrite Hc. apply loads, transit_legal.
    + destruct (block_exit x n reads Hr Hx Hn) as (first & e & blk & _ & He & Hb & Hc & _). exists blk. split; [done|].
      rewrite Hc. apply loads. by apply (exit_legal localeLe n (nr_secret reads) first) in He.
  - unfold getChainForNode. by rewrite no_role.
Qed.
End Blocks.
End Whole.

(** ** An example *)
Lemma shape_same a b : ti_positions a = ti_positions b → ti_directions a = ti_directions b →
  ((λ l, (tl_from l, tl_to l, tl_tag l)) <$> ti_links a) = ((λ l, (tl_from l, tl_to l, tl_tag l)) <$> ti_links b) →
  shape a → shape b.
Proof.
  intros Ep Ed El [H1 H2 H3]. constructor; [by rewrite <-Ep, <-Ed|by rewrite <-Ep, <-Ed|].
  intros n m x Hx. rewrite <-Ed in Hx. unfold leg_between. rewrite <-Ep. rewrite <-(H3 n m x Hx).
  assert (∀ a, (∃ l, leg_of a l n m x) ↔ (n, m, td_tag x) ∈ (λ l, (tl_from l, tl_to l, tl_tag l)) <$> ti_links a) as H.
  { clear. intros a. rewrite list_elem_of_fmap. unfold leg_of. split.
    - intros (l & Hl & <- & <- & <-). by exists l.
    - intros (l & [= -> -> ->] & Hl). by exists l. }
  by rewrite !H, El.
Qed.

Definition ex_key (node sid : string) : Reality := mkReality ("key-" +:+ node) ("pub-" +:+ node) sid "www.example.com" "www.example.com:443".
Definition ex_pair (priv pub : string) : bool := bool_decide (("key-" +:+ str_drop 4 pub) = priv).
Definition ex_hop (from to : string) (tag p : Z) (uuid : string) : TopologyLinkRow :=
  mkLinkRow from to tag (Vless p uuid (Some (ex_key to ("s" +:+ uuid)))).

(** Two directions through one transit: a pool of two, one of them under a
    tunnel, and a node over hysteria2. *)
Definition ex_base : TopologyInput :=
  mkTopology [["e"]; ["t"]] [ex_first; ex_second]
    [ex_hop "e" "t" 1 24000 "u1"; ex_hop "e" "t" 2 24000 "u2"; ex_hop "t" "x" 1 24001 "u3"; ex_hop "t" "y" 1 24001 "u4";
     mkLinkRow "t" "z" 2 (Hy2 24001 "secret" "salt" (mkLinkTls "cert" "key"))]
    [("e", "10.0.0.1"); ("t", "10.0.0.2"); ("x", "10.0.0.3"); ("y", "10.0.0.4"); ("z", "10.0.0.5")]
    (Some [mkPolicy 1 ["geosite:ru"] ["geosite:ads"]]) true None None.

Definition ex_tunnel : TopologyTunnel :=
  mkTunnel "t" "x" 3 27003 (mkTunnelCred (mkEnd "a" "A") (mkEnd "b" "B") (mkObfuscation 4 8 80 15 20 25 30 5 6 7 8)).

Definition ex_chain : ChainTopology :=
  mkChainTopology ex_base ["direct"; "direct"; "awg"; "direct"; "direct"] [ex_tunnel] None None.

Definition ex_reads (n : string) : NodeReads := mkReads "password" None false None [].

Lemma ex_base_legal : legal ex_base.
Proof.
  constructor.
  - done.
  - repeat apply Forall_cons_2; try apply Forall_nil_2; simpl; lia.
  - by apply (bool_decide_unpack _).
  - repeat apply Forall_cons_2; try apply Forall_nil_2; unfold MAX_DIRECTION_ORDINAL; simpl; lia.
  - by apply (bool_decide_unpack _).
  - intros l Hl. simpl in Hl. each_in Hl; first [by exists ex_first; split; [left|] | by exists ex_second; split; [right; left|]].
  - done.
Qed.

Lemma ex_chain_whole : chain_whole ex_pair ex_chain.
Proof.
  constructor.
  - exact ex_base_legal.
  - by apply (shape_same ex_input), ex_shape.
  - done.
  - intros x Hx. simpl in Hx. by each_in Hx.
  - done.
  - by apply (bool_decide_unpack _).
  - intros l Hl. simpl in Hl. each_in Hl;
      first [exists ex_first; split; [by left|by repeat split; simpl; set_solver]
            |exists ex_second; split; [by right; left|by repeat split; simpl; set_solver]].
  - intros n Hn. simpl in Hn. each_in Hn; by eexists.
  - intros n m h Hn Hm. by apply (whole_host_inj _ _ _ ex_whole n m h).
  - split; [|split].
    + intros l Hl Ha. vm_compute in Hl. each_in Hl; try done; by eexists.
    + by apply (bool_decide_unpack _).
    + intros x Hx. simpl in Hx. each_in Hx. unfold MAX_LINK_TUNNELS. simpl. lia.
  - intros n. destruct (decide (n ∈ ["t"; "x"; "y"; "z"])) as [Hn|Hn].
    + each_in Hn.
      * left. intros l Hl. vm_compute in Hl. each_in Hl; (eexists _, _, _; split; [reflexivity|]; split; [done|];
          intros l' Hl'; vm_compute in Hl'; each_in Hl'; (eexists _, _; split; [reflexivity|]; split; [done|]; done)).
      * right. eexists. split; [reflexivity|]. done.
      * right. eexists. split; [reflexivity|]. done.
      * right. eexists. split; [reflexivity|]. done.
    + left. intros l [Ht Hl]%list_elem_of_filter. destruct Hn. rewrite <-Ht. simpl in Hl. each_in Hl; simpl; set_solver.
Qed.

Lemma ex_reads_ok n : reads_ok (λ _ _, true) n (ex_reads n).
Proof. split; [by intros b ?%not_elem_of_nil|by eexists]. Qed.

Theorem blocks_load_witness :
  (∃ blk, getChainForNode (λ _ _, true) (λ _, 0) (λ _, false) "t" (ex_reads "t") (Some ex_chain) = Ok (Some blk) ∧
     loadable (nc_config blk)) ∧
  getChainForNode (λ _ _, true) (λ _, 0) (λ _, false) "stranger" (ex_reads "stranger") (Some ex_chain) = Ok None.
Proof.
  split.
  - apply (blocks_load ex_pair ex_chain ex_chain_whole (λ _ _, true) (λ _, 0) (λ _, false) "t" (ex_reads "t"));
      [apply ex_reads_ok|by apply (bool_decide_unpack _)].
  - apply (blocks_load ex_pair ex_chain ex_chain_whole (λ _ _, true) (λ _, 0) (λ _, false) "stranger" (ex_reads "stranger"));
      [apply ex_reads_ok|by apply (bool_decide_unpack _)].
Defined.
