(* ===== verification/ChainDial.v ===== *)
(** One leg of the chain between two nodes
    (apps/panel-backend/src/modules/cascades/chain.config.ts and
    cascade.service.ts): the secret its outbound holds and the listener at its
    other end, and the ports the agent there opens. *)

From S2P Require Import CascadeExclusive.
From S2P Require Import Prelude Js Json Directions CascadeValidation LinkCreds PolicyEntries EntryGate XrayLinks.
From S2P Require Import TopologyLinks CascadeTunnel TopologySave TopologyFragments TopologyRoutes CascadeJourney TopologyRead.
From S2P Require Import SingBox ChainPolicy ChainConfig ChainRoutes ChainInput ChainBlocks.

Local Open Scope string_scope.
Local Open Scope list_scope.
Local Open Scope Z_scope.

(** ** The engine's handshake *)
Definition at_ (ks : list string) (o : jvalue) : option jvalue := foldl (λ v k, v ≫= jfield k) (Some o) ks.
Definition str_at (ks : list string) (o : jvalue) : option string := jstr (at_ ks o).
Definition strs_at (ks : list string) (o : jvalue) : list string := jstrs (default JNull (at_ ks o)).

Definition same_at (ks : list string) (a b : jvalue) : bool := bool_decide (str_at ks a = str_at ks b).

(** Where an outbound dials, and where a listener is. *)
Lemma leg_fields isIP input tag leg k : k ∉ ["tag"; "bind_interface"; "domain_resolver"] →
  jfield k (renderLeg isIP input tag leg) = jfield k (renderLegCell tag leg).
Proof.
  intros Hk. destruct (renderLegCell_shape tag leg) as [[fs E] _ _]. unfold renderLeg. rewrite E.
  destruct (truthy (lo_via leg)).
  - rewrite jfield_jset, decide_False by set_solver. done.
  - unfold singboxDialFields. destruct (leg_family isIP input leg); [|done].
    cbn [foldl fst snd]. rewrite jfield_jset, decide_False by set_solver. done.
Qed.

Lemma link_inbound_fields leg i a k : k ∉ ["tag"; "listen"] →
  jfield k (link_inbound_at leg i a) = jfield k (linkInbound leg).
Proof.
  intros Hk. destruct (linkInbound_shape leg) as (fs & E & _). unfold link_inbound_at. rewrite E.
  destruct (_ && _); [done|]. destruct (jset_obj "tag" (JStr (linkInTag i)) fs) as [fs' E']. rewrite E', jfield_jset,
    decide_False, <-E', jfield_jset, decide_False by set_solver. done.
Qed.

Section Handshake.
Context (keypair : string → string → bool).

(** REALITY: the client holds the public half of the listener's key, names its
    server and shows one of its short ids. *)
Definition reality_fits (inb out : jvalue) : bool :=
  match at_ ["tls"] inb, at_ ["tls"] out with
  | None, None => true
  | Some i, Some o =>
      same_at ["server_name"] i o &&
      match str_at ["reality"; "private_key"] i, str_at ["reality"; "public_key"] o, str_at ["reality"; "short_id"] o with
      | Some a, Some b, Some s => keypair a b && bool_decide (s ∈ strs_at ["reality"; "short_id"] i)
      | _, _, _ => false
      end
  | _, _ => false
  end.

(** TLS with the listener's own certificate as the only root. *)
Definition certificate_fits (inb out : jvalue) : bool :=
  same_at ["tls"; "server_name"] inb out &&
  bool_decide (strs_at ["tls"; "certificate"] inb = strs_at ["tls"; "certificate"] out).

Definition users_of (inb : jvalue) : list jvalue :=
  match at_ ["users"] inb with Some (JArr us) => us | _ => [] end.

Definition wire_port (inb out : jvalue) : bool :=
  bool_decide (jnum (at_ ["listen_port"] inb) = jnum (at_ ["server_port"] out)).

(** What a listener makes of a client: refused, or taken in as a user it knows
    by name, or as nobody in particular. *)
Definition admits (inb out : jvalue) : option (option string) :=
  if negb (wire_port inb out && same_at ["type"] inb out) then None
  else if decide (ob_type inb = Some "vless") then
    u ← js_find (λ u, same_at ["uuid"] u out) (users_of inb);
    if same_at ["flow"] u out && reality_fits inb out then Some (str_at ["name"] u) else None
  else if decide (ob_type inb = Some "shadowsocks") then
    if same_at ["method"] inb out && same_at ["password"] inb out then Some None else None
  else if decide (ob_type inb = Some "hysteria2") then
    if existsb (λ u, same_at ["password"] u out) (users_of inb) && same_at ["obfs"; "type"] inb out &&
       same_at ["obfs"; "password"] inb out && certificate_fits inb out then Some None else None
  else if decide (ob_type inb = Some "tuic") then
    if existsb (λ u, same_at ["uuid"] u out && same_at ["password"] u out) (users_of inb) &&
       certificate_fits inb out then Some None else None
  else None.

Definition read_fields : list string :=
  ["type"; "listen_port"; "server_port"; "users"; "uuid"; "flow"; "tls"; "method"; "password"; "obfs"].

Lemma at_cons k ks o : at_ (k :: ks) o = jfield k o ≫= at_ ks.
Proof.
  unfold at_. simpl. destruct (jfield k o) as [v|]; simpl; [done|]. by induction ks.
Qed.

(** Only the fields above are read. *)
Lemma admits_same inb inb' out out' : (∀ k, k ∈ read_fields → jfield k inb = jfield k inb') →
  (∀ k, k ∈ read_fields → jfield k out = jfield k out') → admits inb out = admits inb' out'.
Proof.
  intros Hi Ho.
  assert (∀ k ks, bool_decide (k ∈ read_fields) = true → at_ (k :: ks) inb = at_ (k :: ks) inb') as H1.
  { intros k ks Hk%bool_decide_eq_true. by rewrite !at_cons, Hi. }
  assert (∀ k ks, bool_decide (k ∈ read_fields) = true → at_ (k :: ks) out = at_ (k :: ks) out') as H2.
  { intros k ks Hk%bool_decide_eq_true. by rewrite !at_cons, Ho. }
  assert (∀ k ks, bool_decide (k ∈ read_fields) = true → same_at (k :: ks) inb out = same_at (k :: ks) inb' out') as S1.
  { intros k ks Hk. unfold same_at, str_at. by rewrite H1, H2. }
  assert (∀ k ks u, bool_decide (k ∈ read_fields) = true → same_at (k :: ks) u out = same_at (k :: ks) u out') as S2.
  { intros k ks u Hk. unfold same_at, str_at. by rewrite H2. }
  assert (ob_type inb = ob_type inb') as E1 by (unfold ob_type, jfield_str; rewrite Hi; [done|by apply (bool_decide_unpack _)]).
  unfold admits, wire_port, users_of, reality_fits, certificate_fits, strs_at.
  rewrite E1, !H1, !H2, !S1 by reflexivity.
  destruct (negb _); [done|].
  set (us := match at_ ["users"] inb' with Some (JArr us) => us | _ => [] end).
  assert (js_find (λ u, same_at ["uuid"] u out) us = js_find (λ u, same_at ["uuid"] u out') us) as ->.
  { induction us as [|u us IH]; [done|]. simpl. by rewrite (S2 "uuid"), IH. }
  rewrite (existsb_ext (λ u, same_at ["password"] u out) (λ u, same_at ["password"] u out')),
    (existsb_ext (λ u, same_at ["uuid"] u out && _) (λ u, same_at ["uuid"] u out' && same_at ["password"] u out')).
  - destruct (js_find _ _) as [u|]; simpl; [|done]. by rewrite (S2 "flow").
  - intros v _. by rewrite (S2 "uuid"), (S2 "password").
  - intros v _. by rewrite (S2 "password").
Qed.

Lemma same_at_eq ks a b : str_at ks a = str_at ks b → same_at ks a b = true.
Proof. intros H. by apply bool_decide_eq_true. Qed.

(** One secret at both ends. *)
Lemma secret_admitted leg tag out : li_cred leg = lo_cred out → is_vless (lo_cred out) = false →
  admits (linkInbound leg) (renderLegCell tag out) = Some None.
Proof.
  destruct leg as [c cs ls], out as [d h c' via]. cbn [li_cred lo_cred]. intros <- Hv. unfold admits, wire_port, certificate_fits.
  destruct c; [done|..]; rewrite bool_decide_true, same_at_eq by done; cbn [negb andb].
  - rewrite decide_False, decide_True, !same_at_eq by done. done.
  - rewrite !decide_False, decide_True by done.
    assert (users_of _ = [JObj [("password", JStr authPassword)]]) as -> by done.
    cbn [existsb]. by rewrite !same_at_eq, bool_decide_true by done.
  - rewrite !decide_False, decide_True by done.
    assert (users_of _ = [JObj [("uuid", JStr uuid); ("password", JStr password)]]) as -> by done.
    cbn [existsb]. by rewrite !same_at_eq, bool_decide_true by done.
Qed.

(** And another secret is refused. *)
Lemma secret_refused leg tag out p psk psk' m m' : li_cred leg = Ss2022 p psk m → lo_cred out = Ss2022 p psk' m' →
  psk' ≠ psk → admits (linkInbound leg) (renderLegCell tag out) = None.
Proof.
  destruct leg as [c cs ls], out as [d h c' via]. cbn [li_cred lo_cred]. intros -> -> Hne. unfold admits, wire_port.
  rewrite bool_decide_true, same_at_eq by done. cbn [negb andb].
  assert (same_at ["password"] (linkInbound (mkLegIn (Ss2022 p psk m) cs ls))
    (renderLegCell tag (mkLegOut d h (Ss2022 p psk' m') via)) = false) as ->; [|by rewrite andb_false_r].
  apply bool_decide_eq_false. intros E. change (Some psk = Some psk') in E. congruence.
Qed.

(** A user of its own behind one key. *)
Lemma user_admitted leg tag out p u r u' r' c : li_cred leg = Vless p u r → lo_cred out = Vless p u' r' →
  js_find (λ c, bool_decide (default u (cc_uuid c) = u')) (li_clients leg) = Some c →
  match r, r' with
  | None, None => True
  | Some r, Some r' => serverName r' = serverName r ∧ keypair (privateKey r) (publicKey r') = true ∧
      shortId r' ∈ shortIdsOf leg
  | _, _ => False
  end →
  admits (linkInbound leg) (renderLegCell tag out) = Some (Some (chainLinkUser (cc_tag c))).
Proof.
  destruct leg as [c0 cs ls], out as [d h c' via]. cbn [li_cred lo_cred li_clients]. intros -> -> Hf Hr.
  unfold admits, wire_port. rewrite bool_decide_true, same_at_eq by done. cbn [negb andb].
  assert (∀ cs, js_find (λ u0, same_at ["uuid"] u0 (renderLegCell tag (mkLegOut d h (Vless p u' r') via)))
     (vless_client u r <$> cs) = vless_client u r <$> js_find (λ c, bool_decide (default u (cc_uuid c) = u')) cs) as Hfind.
  { clear. intros cs. induction cs as [|c cs IH]; [done|]. cbn [fmap list_fmap js_find]. rewrite IH.
    assert (same_at ["uuid"] (vless_client u r c) (renderLegCell tag (mkLegOut d h (Vless p u' r') via))
      = bool_decide (default u (cc_uuid c) = u')) as ->; [|by case_bool_decide].
    apply bool_decide_ext. unfold str_at. cbn. split; [by intros [= ->]|by intros ->]. }
  set (o := renderLegCell tag (mkLegOut d h (Vless p u' r') via)) in *.
  set (leg := mkLegIn (Vless p u r) cs ls) in *.
  assert (users_of (linkInbound leg) = vless_client u r <$> cs) as -> by (by destruct r).
  rewrite decide_True by (by destruct r). rewrite Hfind, Hf. cbn [fmap option_fmap option_map mbind option_bind].
  assert (same_at ["flow"] (vless_client u r c) o = true) as ->.
  { apply same_at_eq. by destruct r, r'. }
  assert (reality_fits (linkInbound leg) o = true) as ->; [|by destruct r].
  destruct r as [r|], r' as [r'|]; [|done..]. destruct Hr as (Es & Hk & Hs). unfold reality_fits.
  assert (at_ ["tls"] (linkInbound leg) = Some (reality_listener leg r)) as -> by done.
  assert (at_ ["tls"] o = Some (reality_out r')) as -> by done.
  unfold reality_listener. destruct (splitDest _ _) as [server q].
  rewrite same_at_eq by (change (Some (serverName r) = Some (serverName r')); by rewrite Es).
  change (keypair (privateKey r) (publicKey r') && bool_decide (shortId r' ∈ jstrs (JArr (JStr <$> shortIdsOf leg))) = true).
  rewrite Hk, jstrs_map. by apply bool_decide_eq_true.
Qed.
End Handshake.

(** ** The ports an agent opens *)
Section Ingress.
Context (n : string) (t : ChainTopology).

(** A leg the allow-list counts, with the address its sender has. *)
Definition comes_in (l : ChainLink) (h : string) : Prop :=
  tl_to l.1 = n ∧ l.2 ≠ "awg" ∧ host_of (kt_base t) (tl_from l.1) = Some h.

Definition opens (p : Z) (h : string) (l : ChainLink) : Prop := comes_in l h ∧ port (tl_cred l.1) = p.
Definition opened (p : Z) (l : ChainLink) : Prop := ∃ h, opens p h l.
Definition opened_over (p : Z) (x : Transport) (l : ChainLink) : Prop :=
  opened p l ∧ x ∈ LINK_CELL_TRANSPORTS (protocol (tl_cred l.1)).

(** The map while it is built. *)
Definition built (ls : list ChainLink) (m : list (Z * (list Transport * list string))) : Prop :=
  jm_wf m ∧ (∀ p, p ∈ jm_keys m ↔ ∃ l, l ∈ ls ∧ opened p l) ∧
  ∀ p ts from, jm_get p m = Some (ts, from) → NoDup from ∧
    (∀ x, x ∈ ts ↔ ∃ l, l ∈ ls ∧ opened_over p x l) ∧ (∀ h, h ∈ from ↔ ∃ l, l ∈ ls ∧ opens p h l).

Lemma elem_of_adds {A} `{EqDecision A} (x : A) xs acc :
  x ∈ foldl (λ s y, set_add y s) acc xs ↔ x ∈ acc ∨ x ∈ xs.
Proof.
  revert acc. induction xs as [|y xs IH]; intros acc; simpl; [set_solver|]. rewrite IH, elem_of_set_add. set_solver.
Qed.

Lemma exists_snoc {A} (P : A → Prop) ls x : (∃ y, y ∈ ls ++ [x] ∧ P y) ↔ (∃ y, y ∈ ls ∧ P y) ∨ P x.
Proof. setoid_rewrite elem_of_app. setoid_rewrite list_elem_of_singleton. naive_solver. Qed.

Lemma built_snoc ls m l : built ls m → built (ls ++ [l]) (ingress_add n t m l).
Proof.
  intros (Hwf & Hk & Hg). unfold ingress_add.
  destruct (bool_decide (tl_to l.1 ≠ n) || bool_decide (l.2 = "awg") || negb (truthy (host_of (kt_base t) (tl_from l.1)))) eqn:Eq.
  - assert (∀ p h, ¬ opens p h l) as Hno.
    { intros p h ((Ht & Hu & Hh) & _). rewrite Hh, (host_text t _ _ Hh), (bool_decide_false (tl_to l.1 ≠ n)),
        (bool_decide_false (l.2 = "awg")) in Eq; [done|done|by intros ?]. }
    assert (∀ p, ¬ opened p l) as Hno' by (intros p [h H]; by apply (Hno p h)).
    split; [done|]. split; [|intros p ts from E; destruct (Hg p ts from E) as (? & H1 & H2); split; [done|split]].
    + intros p. rewrite Hk, exists_snoc. by pose proof (Hno' p); tauto.
    + intros x. rewrite H1, exists_snoc. unfold opened_over at 3. pose proof (Hno' p). tauto.
    + intros h. rewrite H2, exists_snoc. pose proof (Hno p h). tauto.
  - apply orb_false_iff in Eq as [Eq Eh]. apply orb_false_iff in Eq as [Et Eu].
    apply bool_decide_eq_false in Et, Eu. apply negb_false_iff in Eh. apply dec_stable in Et.
    destruct (host_of (kt_base t) (tl_from l.1)) as [h|] eqn:Hh; [|done]. cbn [default from_option].
    set (p := port (tl_cred l.1)). destruct (default ([], []) (jm_get p m)) as [ts from] eqn:Ed.
    assert (∀ q h', opens q h' l ↔ q = p ∧ h' = h) as Hop.
    { intros q h'. unfold opens, comes_in. fold p. rewrite Hh. split; [by intros ((_ & _ & [= ->]) & ->)|by intros [-> ->]]. }
    assert (∀ q, opened q l ↔ q = p) as Hop'.
    { intros q. unfold opened. setoid_rewrite Hop. split; [by intros (h' & -> & _)|intros ->; by exists h]. }
    assert (NoDup from ∧ (∀ x, x ∈ ts ↔ ∃ l, l ∈ ls ∧ opened_over p x l) ∧ (∀ h, h ∈ from ↔ ∃ l, l ∈ ls ∧ opens p h l))
      as (Hnd & H1 & H2).
    { destruct (jm_get p m) as [[ts' from']|] eqn:Em; cbn in Ed; [injection Ed as -> ->; by apply Hg|].
      injection Ed as <- <-. rewrite jm_get_None, Hk in Em. split; [apply NoDup_nil_2|]. split.
      - intros x. split; [by intros ?%not_elem_of_nil|]. intros (l' & Hl' & Ho & _). destruct Em. by exists l'.
      - intros h'. split; [by intros ?%not_elem_of_nil|]. intros (l' & Hl' & Ho). destruct Em. exists l'. split; [done|by exists h']. }
    split; [by apply jm_wf_set|]. split; [|intros q ts' from'; rewrite jm_get_set; case_decide as Eqp].
    + intros q. rewrite elem_of_jm_keys_set, Hk, exists_snoc, Hop'. tauto.
    + intros [= <- <-]. subst q. split; [by apply NoDup_set_add|]. split.
      * intros x. rewrite elem_of_adds, H1, exists_snoc. unfold opened_over at 3. rewrite Hop'. tauto.
      * intros h'. rewrite elem_of_set_add, H2, exists_snoc, Hop. tauto.
    + intros E. destruct (Hg q ts' from' E) as (? & H3 & H4). split; [done|]. split.
      * intros x. rewrite H3, exists_snoc. unfold opened_over at 3. rewrite Hop'. tauto.
      * intros h'. rewrite H4, exists_snoc, Hop. tauto.
Qed.

Lemma built_all ls : built ls (foldl (ingress_add n t) [] ls).
Proof.
  induction ls as [|l ls IH] using rev_ind; [|rewrite foldl_snoc; by apply built_snoc].
  split; [apply jm_wf_nil|]. split; [set_solver|]. by intros p ts from [=].
Qed.

Lemma ingress_ports : NoDup (ing_port <$> chainLinkIngressOf n t) ∧
  ∀ p, p ∈ ing_port <$> chainLinkIngressOf n t ↔ ∃ l, l ∈ chain_links t ∧ opened p l.
Proof.
  destruct (built_all (chain_links t)) as (Hwf & Hk & _). unfold chainLinkIngressOf. rewrite <-list_fmap_compose.
  change (NoDup (fst <$> sort_by (λ a b : Z * (list Transport * list string), a.1 <=? b.1) (foldl (ingress_add n t) [] (chain_links t)))
    ∧ ∀ p, p ∈ fst <$> sort_by (λ a b : Z * (list Transport * list string), a.1 <=? b.1) (foldl (ingress_add n t) [] (chain_links t))
        ↔ ∃ l, l ∈ chain_links t ∧ opened p l).
  rewrite sort_by_perm. split; [exact Hwf|]. intros p. rewrite sort_by_perm. apply Hk.
Qed.

Lemma ingress_entry g : g ∈ chainLinkIngressOf n t → NoDup (ing_allowFrom g) ∧
  (∀ x, x ∈ ing_transports g ↔ ∃ l, l ∈ chain_links t ∧ opened_over (ing_port g) x l) ∧
  (∀ h, h ∈ ing_allowFrom g ↔ ∃ l, l ∈ chain_links t ∧ opens (ing_port g) h l).
Proof.
  destruct (built_all (chain_links t)) as (Hwf & _ & Hg). unfold chainLinkIngressOf.
  intros (e & -> & He)%list_elem_of_fmap. rewrite sort_by_perm in He. destruct e as [p [ts from]].
  destruct (Hg p ts from) as (Hnd & H1 & H2); [by apply jm_elem_get|].
  cbn [ing_allowFrom ing_transports ing_port fst snd]. split; [by rewrite sort_by_perm|]. split.
  - intros x. rewrite <-H1, list_elem_of_filter. split; [by intros [? _]|]. intros Hx. split; [done|].
    unfold TRANSPORTS. destruct x; set_solver.
  - intros h. by rewrite sort_by_perm, H2.
Qed.

(** A leg that its sender dials at this node over the internet: its chain is
    given the leg, and no tunnel to send it through. *)
Definition dialled (p : Z) (h : string) (l : ChainLink) : Prop :=
  l ∈ chain_links t ∧ tl_to l.1 = n ∧ host_of (kt_base t) (tl_from l.1) = Some h ∧ port (tl_cred l.1) = p ∧
  ∃ o, leg_out t l = Ok (Some o) ∧ lo_via o = None.

Lemma dialled_opens hn p h l : host_of (kt_base t) n = Some hn → l ∈ chain_links t →
  (l.2 = "awg" → tl_to l.1 = n → is_Some (tunnelUnder t l)) → dialled p h l ↔ opens p h l.
Proof.
  intros Hn Hl Htun. unfold dialled, opens, comes_in. split.
  - intros (_ & Ht & Hh & Hp & o & Ho & Hv). split; [|done]. split; [done|]. split; [|done]. intros Ha.
    destruct (Htun Ha Ht) as [x Ex]. unfold leg_out in Ho. rewrite Ht, Hn, Ex in Ho. destruct (negb _); [done|].
    destruct (tunnelAddresses _) as [a|e]; [|done]. injection Ho as <-. done.
  - intros ((Ht & Ha & Hh) & Hp). do 4 (split; [done|]). unfold leg_out, tunnelUnder.
    rewrite Ht, Hn, (host_text t _ _ Hn), (bool_decide_false _ Ha). by eexists.
Qed.

(** C20. The agent of a node opens exactly what is dialled: where the node has
    an address and every leg into it that is to ride a tunnel has one, a port is
    open when, and only when, a node's chain dials a leg at this node over the
    internet on it, to the hosts of the nodes that dial and to no other, over the
    transports of those legs' cells and no other; no port is listed twice, and no
    host twice under a port.  A leg inside a tunnel opens nothing. *)
Theorem ingress_exact hn : host_of (kt_base t) n = Some hn →
  (∀ l, l ∈ chain_links t → l.2 = "awg" → tl_to l.1 = n → is_Some (tunnelUnder t l)) →
  NoDup (ing_port <$> chainLinkIngressOf n t) ∧
  (∀ p, p ∈ ing_port <$> chainLinkIngressOf n t ↔ ∃ h l, dialled p h l) ∧
  ∀ g, g ∈ chainLinkIngressOf n t → NoDup (ing_allowFrom g) ∧
    (∀ x, x ∈ ing_transports g ↔ ∃ h l, dialled (ing_port g) h l ∧ x ∈ LINK_CELL_TRANSPORTS (protocol (tl_cred l.1))) ∧
    (∀ h, h ∈ ing_allowFrom g ↔ ∃ l, dialled (ing_port g) h l).
Proof.
  intros Hn Htun. destruct ingress_ports as [Hnd Hports].
  assert (∀ p h l, dialled p h l ↔ l ∈ chain_links t ∧ opens p h l) as Hd.
  { intros p h l. split.
    - intros H. pose proof (proj1 H) as Hl. split; [done|]. by apply (dialled_opens hn p h l Hn Hl (Htun l Hl)).
    - intros [Hl Ho]. by apply (dialled_opens hn p h l Hn Hl (Htun l Hl)). }
  setoid_rewrite Hd. split; [done|]. split; [intros p; rewrite Hports; unfold opened; naive_solver|].
  intros g Hg. destruct (ingress_entry g Hg) as (? & Hx & Hh). split; [done|].
  split; [intros x; rewrite Hx; unfold opened_over, opened; naive_solver|done].
Qed.

Lemma ingress_open p h l : l ∈ chain_links t → opens p h l → ∃ g, g ∈ chainLinkIngressOf n t ∧ ing_port g = p ∧
  h ∈ ing_allowFrom g ∧ ∀ x, x ∈ LINK_CELL_TRANSPORTS (protocol (tl_cred l.1)) → x ∈ ing_transports g.
Proof.
  intros Hl Ho. assert (opened p l) as Ho' by by exists h.
  assert (p ∈ ing_port <$> chainLinkIngressOf n t) as Hp by (apply ingress_ports; by exists l).
  apply list_elem_of_fmap in Hp as (g & -> & Hg). exists g. destruct (ingress_entry g Hg) as (_ & H1 & H2).
  split; [done|]. split; [done|]. split; [apply H2; by exists l|]. intros x Hx. apply H1. by exists l.
Qed.
End Ingress.

(** ** From node to node *)

(** The transports an outbound of a type dials over. *)
Definition dial_transports (type : option string) : list Transport :=
  if decide (type = Some "vless") then [tcp]
  else if decide (type = Some "shadowsocks") then [tcp; udp]
  else if decide (type = Some "hysteria2" ∨ type = Some "tuic") then [udp]
  else [].

Section Reach.
Context (t : ChainTopology) (block : string → option NodeChain).

(** A node's outbound gets to a listener of another node: over the internet,
    at the address of the other node, where its agent has opened the port to
    the address of this one; or through a tunnel of both, at the inner address
    of the far end. *)
Inductive reach (n : string) (o : jvalue) (m : string) (inb : jvalue) : Prop :=
  | over_internet h from p blk g :
      jfield "bind_interface" o = None → jfield_str "server" o = Some h → host_of (kt_base t) m = Some h →
      jfield_str "listen" inb = Some "0.0.0.0" → jnum (jfield "server_port" o) = Some p →
      host_of (kt_base t) n = Some from → block m = Some blk → g ∈ nc_linkIngress blk → ing_port g = p →
      from ∈ ing_allowFrom g → (∀ x, x ∈ dial_transports (ob_type o) → x ∈ ing_transports g) →
      reach n o m inb
  | through_tunnel x blk blk' a :
      x ∈ kt_tunnels t → tun_from x = n → tun_to x = m → tunnelAddresses (tun_index x) = Ok a →
      jfield "bind_interface" o = Some (JStr (tunnelIface (tun_index x))) → jfield_str "server" o = Some (addr_to a) →
      (jfield_str "listen" inb = Some "0.0.0.0" ∨ jfield_str "listen" inb = Some (addr_to a)) →
      block n = Some blk → tunnelIface (tun_index x) ∈ ct_iface <$> nc_tunnels blk →
      block m = Some blk' → tunnelIface (tun_index x) ∈ ct_iface <$> nc_tunnels blk' →
      reach n o m inb.
End Reach.

Lemma tunnelIface_inj i j : tunnelIface i = tunnelIface j → i = j.
Proof. unfold tunnelIface. intros E. apply (inj pretty). by injection E. Qed.

(** What the other end makes of a leg. *)
Definition carried (l : ChainLink) : option string :=
  if is_vless (tl_cred l.1) then Some (chainLinkUser (tl_tag l.1)) else None.

Section Leg.
Context (keypair : string → string → bool) (t : ChainTopology).
Hypothesis Hw : chain_whole keypair t.

Notation base := (kt_base t).

Lemma leg_for_cred l : lo_cred (leg_for t l) = tl_cred l.1.
Proof. unfold leg_for. by destruct (tunnelUnder t l). Qed.
Lemma leg_for_tag l : lo_tag (leg_for t l) = tl_tag l.1.
Proof. unfold leg_for. by destruct (tunnelUnder t l). Qed.

Lemma same_listener m first l : head (kt_to m t) = Some first → l ∈ kt_to m t →
  l.1 = first.1 ∨ is_vless (tl_cred l.1) = true.
Proof.
  intros Hf Hl. assert (l.1 ∈ incoming m base) as Hin by (rewrite <-(to_incoming keypair t Hw); by apply list_elem_of_fmap_2).
  assert (first.1 ∈ incoming m base) as Hin'.
  { rewrite <-(to_incoming keypair t Hw). apply list_elem_of_fmap_2. destruct (kt_to m t); [done|]. injection Hf as ->. by left. }
  destruct (cw_listeners _ _ Hw m) as [Hv|(l0 & E & _)].
  - right. destruct (Hv _ Hin) as (p & u & r & -> & _). done.
  - left. rewrite E in Hin, Hin'. apply list_elem_of_singleton in Hin, Hin'. congruence.
Qed.

(** The listener of a node takes in every leg that was made for it. *)
Lemma leg_admitted m first l i a isIP input tag : head (kt_to m t) = Some first → l ∈ kt_to m t →
  admits keypair (link_inbound_at (in_of t m first) i a) (renderLeg isIP input tag (leg_for t l)) = Some (carried l).
Proof.
  intros Hf Hl. rewrite (admits_same _ _ (linkInbound (in_of t m first)) _ (renderLegCell tag (leg_for t l))).
  2: { intros k Hk. apply link_inbound_fields; unfold read_fields in Hk; set_solver. }
  2: { intros k Hk. apply leg_fields; unfold read_fields in Hk; set_solver. }
  pose proof (to_incoming keypair t Hw m) as Ein.
  assert (l.1 ∈ incoming m base) as Hin by (rewrite <-Ein; by apply list_elem_of_fmap_2).
  assert (first ∈ kt_to m t) as Hfl by (destruct (kt_to m t); [done|]; injection Hf as ->; by left).
  unfold carried. destruct (is_vless (tl_cred l.1)) eqn:Ev.
  2: { destruct (same_listener m first l Hf Hl) as [E|E]; [|congruence]. apply secret_admitted; rewrite leg_for_cred; [|done].
       cbn. by rewrite E. }
  assert (∃ p u r u' r', tl_cred first.1 = Vless p u r ∧ tl_cred l.1 = Vless p u' r' ∧
    (∀ l', l' ∈ kt_to m t → match tl_cred l'.1 with Vless _ u _ => u = u' → l'.1 = l.1 | _ => False end) ∧
    match r, r' with
    | None, None => True
    | Some r, Some r' => serverName r' = serverName r ∧ keypair (privateKey r) (publicKey r') = true ∧ shortId r' ≠ ""
    | _, _ => False
    end) as (p & u & r & u' & r' & Ec & Ec' & Hu & Hr).
  { assert (first.1 ∈ incoming m base) as Hin' by (rewrite <-Ein; by apply list_elem_of_fmap_2).
    destruct (cw_listeners _ _ Hw m) as [Hv|(l0 & E & Hl0)].
    - destruct (Hv _ Hin) as (p & u' & r' & Ec' & Hs & Hall). destruct (Hall _ Hin') as (u & r & Ec & _ & Es & Hk).
      exists p, u, (Some r), u', (Some r'). split; [done|]. split; [done|]. split; [|done].
      intros l' Hl'. destruct (Hall l'.1) as (u2 & r2 & -> & Hu & _); [rewrite <-Ein; by apply list_elem_of_fmap_2|]. done.
    - assert (∀ l', l' ∈ kt_to m t → l'.1 = l0) as Hone.
      { intros l' Hl'. assert (l'.1 ∈ incoming m base) as H by (rewrite <-Ein; by apply list_elem_of_fmap_2).
        rewrite E in H. by apply list_elem_of_singleton in H. }
      pose proof (Hone _ Hl) as El. pose proof (Hone _ Hfl) as Ef. rewrite El in Ev. rewrite El, Ef.
      destruct (tl_cred l0) as [p u r| | |] eqn:Ec; [|done..]. exists p, u, r, u, r. split; [done|]. split; [done|]. split.
      + intros l' Hl'. by rewrite (Hone l' Hl'), Ec.
      + destruct r as [r|]; [|done]. by destruct Hl0. }
  assert (∃ c, js_find (λ c, bool_decide (default u (cc_uuid c) = u')) (ChainInput.client_of <$> kt_to m t) = Some c ∧
    cc_tag c = tl_tag l.1) as (c & Hc & <-).
  { destruct (js_find _ _) as [c|] eqn:E.
    - exists c. split; [done|]. apply js_find_Some in E as [(l' & -> & Hl')%list_elem_of_fmap Eu].
      specialize (Hu l' Hl'). apply bool_decide_eq_true in Eu. unfold ChainInput.client_of in *.
      destruct (tl_cred l'.1) as [p2 u2 r2| | |]; [|done..]. cbn in Eu. cbn. by rewrite (Hu Eu).
    - rewrite js_find_None in E. specialize (E (ChainInput.client_of l) ltac:(by apply list_elem_of_fmap_2)).
      apply bool_decide_eq_false in E. destruct E. unfold ChainInput.client_of. by rewrite Ec'. }
  rewrite (user_admitted _ (in_of t m first) tag _ p u r u' r' c); [done|done|by rewrite leg_for_cred|done|].
  destruct r as [r|], r' as [r'|]; try done. destruct Hr as (Es & Hk & Hs). split; [done|]. split; [done|].
  unfold shortIdsOf. rewrite elem_of_js_uniq, list_elem_of_filter, elem_of_app. split; [done|]. left.
  apply list_elem_of_omap. exists (ChainInput.client_of l). split; [by apply list_elem_of_fmap_2|].
  unfold ChainInput.client_of. by rewrite Ec'.
Qed.

(** Where a leg is rendered to dial. *)
Lemma leg_dials isIP input tag l : l ∈ chain_links t →
  let o := renderLeg isIP input tag (leg_for t l) in
  jnum (jfield "server_port" o) = Some (port (tl_cred l.1)) ∧
  (∀ x, x ∈ dial_transports (ob_type o) → x ∈ LINK_CELL_TRANSPORTS (protocol (tl_cred l.1))) ∧
  match tunnelUnder t l with
  | Some x => jfield "bind_interface" o = Some (JStr (tunnelIface (tun_index x))) ∧
      jfield_str "server" o = Some (tunnel_address x)
  | None => jfield "bind_interface" o = None ∧ jfield_str "server" o = host_of base (tl_to l.1)
  end.
Proof.
  intros Hl o. set (leg := leg_for t l) in *.
  assert (∀ k, k ∉ ["tag"; "bind_interface"; "domain_resolver"] → jfield k o = jfield k (renderLegCell tag leg)) as Ef.
  { intros k Hk. by apply leg_fields. }
  pose proof (leg_for_cred l) as Ec. fold leg in Ec. unfold ob_type, jfield_str. rewrite <-Ec.
  rewrite (Ef "server_port"), (Ef "server"), (Ef "type") by (by apply (bool_decide_unpack _)).
  split; [by destruct leg as [d h [] via]|]. split; [by destruct leg as [d h [] via]|].
  assert (jfield "server" (renderLegCell tag leg) = Some (JStr (lo_host leg))) as -> by (by destruct leg as [d h [] via]).
  destruct (renderLegCell_shape tag leg) as [[fs E] _ _].
  assert (jfield "bind_interface" (renderLegCell tag leg) = None) as Hno.
  { destruct leg as [d h c via]. destruct c as [p u [r|]| | |]; done. }
  assert (jfield "bind_interface" o = if truthy (lo_via leg) then Some (JStr (default "" (lo_via leg))) else None) as ->.
  { unfold o, renderLeg. fold leg. rewrite E in *. destruct (truthy (lo_via leg)); [by rewrite jfield_jset, decide_True|].
    unfold singboxDialFields. destruct (leg_family isIP input leg); [|done]. cbn [foldl fst snd].
    by rewrite jfield_jset, decide_False. }
  unfold leg, leg_for. destruct (tunnelUnder t l) as [x|] eqn:Ex; [done|]. cbn. split; [done|].
  destruct (proj2 (leg_ends_known keypair t Hw l Hl)) as [h ->]. done.
Qed.

Section Blocks.
Context (block : string → option NodeChain).
Hypothesis Hblock : ∀ n blk, block n = Some blk → nc_linkIngress blk = chainLinkIngressOf n t ∧
  ∀ x, x ∈ kt_tunnels t → tun_from x = n ∨ tun_to x = n → tunnelIface (tun_index x) ∈ ct_iface <$> nc_tunnels blk.

(** A leg gets to the node it was made for, and to no other. *)
Lemma leg_reaches_only isIP input tag l n m inb : l ∈ kt_from n t →
  reach t block n (renderLeg isIP input tag (leg_for t l)) m inb → m = tl_to l.1.
Proof.
  intros [Hl Hn]%elem_of_from. destruct (leg_dials isIP input tag l Hl) as (_ & _ & Hd).
  intros [h from p blk g Hb Hs Hh|x blk blk' a Hx Hf Ht Ha Hb Hs].
  - destruct (tunnelUnder t l); [by rewrite (proj1 Hd) in Hb|]. rewrite (proj2 Hd) in Hs. by apply (cw_apart _ _ Hw _ _ h).
  - destruct (tunnelUnder t l) as [y|] eqn:Ey; rewrite (proj1 Hd) in Hb; [|done].
    assert (tunnelIface (tun_index y) = tunnelIface (tun_index x)) as Eb%tunnelIface_inj by congruence. apply tunnel_in in Ey as (Hy & _ & Ey).
    assert (y = x) as ->; [|by rewrite <-Ht].
    apply (NoDup_fmap_elem tun_index (kt_tunnels t)); [apply (proj1 (proj2 (cw_tunnels _ _ Hw)))|done..].
Qed.

(** And there is a listener there that it gets to. *)
Lemma leg_reaches isIP input tag l n m first blk blk' : l ∈ kt_from n t → tl_to l.1 = m → head (kt_to m t) = Some first →
  block n = Some blk → block m = Some blk' →
  ∃ inb, inb ∈ link_inbounds (in_of t m first) ∧ reach t block n (renderLeg isIP input tag (leg_for t l)) m inb.
Proof.
  intros [Hl Hn]%elem_of_from Hm Hf Hbn Hbm. destruct (leg_dials isIP input tag l Hl) as (Hp & Htr & Hd).
  destruct (Hblock n blk Hbn) as [_ Htn]. destruct (Hblock m blk' Hbm) as [Hing Htm].
  assert (l ∈ kt_to m t) as Hlm by by apply elem_of_to.
  assert (∀ a, (match li_listen (in_of t m first) with Some (b :: ls) => b :: ls | _ => ["0.0.0.0"] end) = a →
    ∀ i b, a !! i = Some b → ∃ inb, inb ∈ link_inbounds (in_of t m first) ∧ jfield_str "listen" inb = Some b) as Hin.
  { intros a Ea i b Hb. exists (link_inbound_at (in_of t m first) i b). rewrite link_inbounds_eq, Ea.
    split; [apply elem_of_lookup_imap; by exists i, b|].
    pose proof (proj2 (link_inbound_shape (in_of t m first) i b)) as E. unfold listens in E. by injection E. }
  cbn [in_of li_listen] in Hin. unfold listen_of in Hin.
  rewrite bool_decide_false in Hin by (intros E; rewrite E in Hlm; by apply not_elem_of_nil in Hlm).
  destruct (tunnelUnder t l) as [x|] eqn:Ex.
  - destruct (tunnel_in t l x Ex) as (Hx & Hxf & Hxt). destruct (tunnel_range keypair t Hw x Hx) as (a & Ha & Ea).
    rewrite Ea in Hd.
    assert (∃ inb, inb ∈ link_inbounds (in_of t m first) ∧
      (jfield_str "listen" inb = Some "0.0.0.0" ∨ jfield_str "listen" inb = Some (addr_to a))) as (inb & Hinb & Hlis).
    { destruct (mapM (tunnelUnder t) (kt_to m t)) as [under|] eqn:Eu; cbn [fmap option_fmap option_map] in Hin.
      - apply mapM_Some in Eu. destruct (Forall2_elem_l _ _ _ _ Eu Hlm) as (y & Hy & Ey). rewrite Ex in Ey. injection Ey as <-.
        assert (addr_to a ∈ js_uniq (tunnel_address <$> under)) as Hadd.
        { rewrite elem_of_js_uniq, <-Ea. by apply list_elem_of_fmap_2. }
        destruct (js_uniq (tunnel_address <$> under)) as [|b bs] eqn:Ej; [by apply not_elem_of_nil in Hadd|].
        apply list_elem_of_lookup in Hadd as [i Hi]. destruct (Hin _ eq_refl i _ Hi) as (inb & ? & ?). exists inb. auto.
      - destruct (Hin _ eq_refl 0%nat "0.0.0.0" eq_refl) as (inb & ? & ?). exists inb. auto. }
    exists inb. split; [done|]. apply (through_tunnel t block n _ m inb x blk blk' a); try done; try apply Hd.
    + congruence.
    + congruence.
    + apply Htn; [done|]. left. congruence.
    + apply Htm; [done|]. right. congruence.
  - assert (mapM (tunnelUnder t) (kt_to m t) = None) as Eu.
    { destruct (mapM _ _) as [under|] eqn:Eu; [|done]. apply mapM_Some in Eu.
      destruct (Forall2_elem_l _ _ _ _ Eu Hlm) as (y & _ & Ey). congruence. }
    rewrite Eu in Hin. destruct (Hin _ eq_refl 0%nat "0.0.0.0" eq_refl) as (inb & Hinb & Hlis).
    exists inb. split; [done|]. destruct (leg_ends_known keypair t Hw l Hl) as [[from Hfrom] [h Hh]].
    destruct (ingress_open m t (port (tl_cred l.1)) from l Hl) as (g & Hg & Eg & Hfg & Hx).
    { split; [|done]. split; [done|]. split; [|done]. intros Ea.
      destruct (proj1 (cw_tunnels _ _ Hw) l Hl Ea) as [y Ey]. congruence. }
    apply (over_internet t block n _ m inb h from (port (tl_cred l.1)) blk' g); try done; try apply Hd; try congruence.
    + rewrite (proj2 Hd). done.
    + intros x Hxx. apply Hx, Htr. done.
Qed.
End Blocks.
End Leg.

(** ** Legs that do not get through *)

(** What [chainInputFor] puts in front of an inner node. *)
Lemma inner_listener localeLe isIP isRegExp m t role pw input first : role ≠ CEntry → head (kt_to m t) = Some first →
  chainInputFor m t localeLe isIP isRegExp role pw = Ok (Some input) →
  ∃ leg, inbounds input = link_inbounds leg ∧ li_cred leg = tl_cred first.1.
Proof.
  intros Hr Hf. unfold chainInputFor, leg_in. destruct (map_res (leg_out t) (kt_from m t)) as [legs|e]; [|done].
  cbn [mbind result_bind]. destruct (negb _); [done|]. destruct (linkInListen _ _) as [ls|e]; [|done]. cbn [mbind result_bind].
  destruct (kt_to m t) as [|l0 l]; [done|]. injection Hf as ->. destruct role; [done|..]; intros [= <-]; by eexists.
Qed.

(** Two senders at one shadowsocks listener.  Every leg is minted with a
    secret of its own, and a listener over shadowsocks is given that of the
    first leg alone, so whatever the node's place and however its block is
    rendered, every leg into it that holds another secret is refused at the
    handshake: of an entry pool in front of it only one entry gets through. *)
Theorem second_sender_refused keypair localeLe isIP isRegExp m t role pw input first l p psk psk' method method' out tag inb :
  role ≠ CEntry → chainInputFor m t localeLe isIP isRegExp role pw = Ok (Some input) →
  head (kt_to m t) = Some first → tl_cred first.1 = Ss2022 p psk method →
  l ∈ kt_to m t → tl_cred l.1 = Ss2022 p psk' method' → psk' ≠ psk →
  leg_out t l = Ok (Some out) → inb ∈ inbounds input →
  admits keypair inb (renderLeg isIP input tag out) = None.
Proof.
  intros Hr Hin Hf Hc _ Hc' Hne Hout Hinb. destruct (inner_listener _ _ _ _ _ _ _ _ _ Hr Hf Hin) as (leg & Hi & Hcr).
  rewrite Hi, link_inbounds_eq in Hinb. apply elem_of_lookup_imap in Hinb as (i & a & -> & _).
  rewrite (admits_same _ _ (linkInbound leg) _ (renderLegCell tag out)).
  - apply (secret_refused _ _ _ _ p psk psk' method method'); [congruence| |done].
    unfold leg_out in Hout. destruct (negb _); [done|]. destruct (tunnelUnder t l) as [x|]; [|by injection Hout as <-].
    destruct (tunnelAddresses _) as [b|e]; [|done]. by injection Hout as <-.
  - intros k Hk. apply link_inbound_fields. unfold read_fields in Hk. set_solver.
  - intros k Hk. apply leg_fields. unfold read_fields in Hk. set_solver.
Qed.

(** A leg that rides a tunnel nobody can parse is dialled over the
    internet, at the far node's own address, and the far node's agent opens no
    port for it: the allow-list leaves out every leg whose underlay is a
    tunnel, whether there is one under it or not.  So such a leg never
    connects. *)
Theorem tunnelless_leg_shut_out t l h : l ∈ chain_links t → l.2 = "awg" → tunnelUnder t l = None →
  host_of (kt_base t) (tl_to l.1) = Some h →
  leg_out t l = Ok (Some (mkLegOut (tl_tag l.1) h (tl_cred l.1) None)) ∧
  (port (tl_cred l.1) ∈ ing_port <$> chainLinkIngressOf (tl_to l.1) t →
   ∃ l', l' ∈ chain_links t ∧ l'.2 ≠ "awg" ∧ tl_to l'.1 = tl_to l.1 ∧ port (tl_cred l'.1) = port (tl_cred l.1)).
Proof.
  intros _ Ha Hno Hh. split.
  - unfold leg_out. by rewrite Hh, (host_text t _ _ Hh), Hno.
  - intros Hp. apply ingress_ports in Hp as (l' & Hl' & h' & (Ht & Hu & _) & Ep). by exists l'.
Qed.

(** Two entries in front of one exit over shadowsocks; a leg whose tunnel is
    gone. *)
Definition ex_pool : ChainTopology :=
  mkChainTopology
    (mkTopology [["e"; "f"]] [mkTDirection 1 ["x"] None]
       [mkLinkRow "e" "x" 1 (Ss2022 24000 "first" "2022-blake3-aes-128-gcm");
        mkLinkRow "f" "x" 1 (Ss2022 24000 "second" "2022-blake3-aes-128-gcm")]
       [("e", "10.0.0.1"); ("f", "10.0.0.2"); ("x", "10.0.0.3")] None false None None)
    ["direct"; "direct"] [] None None.

Definition ex_torn : ChainTopology := mkChainTopology ex_base ["direct"; "direct"; "awg"; "direct"; "direct"] [] None None.

Theorem second_sender_refused_witness : ∃ input, 
  chainInputFor "x" ex_pool (λ _ _, true) (λ _, 0) (λ _, false) CExit "pw" = Ok (Some input) ∧
  ∀ inb, inb ∈ inbounds input → admits ex_pair inb (renderLeg (λ _, 0) input (outTag 1)
    (mkLegOut 1 "10.0.0.3" (Ss2022 24000 "second" "2022-blake3-aes-128-gcm") None)) = None.
Proof.
  eexists. split; [reflexivity|]. intros inb Hin.
  apply (second_sender_refused ex_pair (λ _ _, true) (λ _, 0) (λ _, false) "x" ex_pool CExit "pw" _
    (mkLinkRow "e" "x" 1 (Ss2022 24000 "first" "2022-blake3-aes-128-gcm"), "direct")
    (mkLinkRow "f" "x" 1 (Ss2022 24000 "second" "2022-blake3-aes-128-gcm"), "direct")
    24000 "first" "second" "2022-blake3-aes-128-gcm" "2022-blake3-aes-128-gcm");
    [done|reflexivity|done|done|right; by left|done|done|done|exact Hin].
Defined.

(** The transit's agent opens the port the entry dials; the exit's opens none,
    its leg rides a tunnel. *)
Theorem ingress_exact_witness :
  (∃ h l, dialled "t" ex_chain 24000 h l) ∧ ∀ h l, ¬ dialled "x" ex_chain 24001 h l.
Proof.
  destruct (ingress_exact "t" ex_chain "10.0.0.2") as (_ & Ht & _); [reflexivity| |].
  { intros l Hl Ha Hto. vm_compute in Hl. each_in Hl; try discriminate Ha; discriminate Hto. }
  destruct (ingress_exact "x" ex_chain "10.0.0.3") as (_ & Hx & _); [reflexivity| |].
  { intros l Hl Ha Hto. vm_compute in Hl. each_in Hl; try discriminate Ha; try discriminate Hto. by eexists. }
  split; [apply Ht; apply (bool_decide_unpack _); vm_compute; exact I|].
  intros h l Hd. assert (24001 ∈ ing_port <$> chainLinkIngressOf "x" ex_chain) as Hin by (apply Hx; by exists h, l).
  vm_compute in Hin. by apply not_elem_of_nil in Hin.
Defined.

Theorem tunnelless_leg_shut_out_witness :
  leg_out ex_torn (ex_hop "t" "x" 1 24001 "u3", "awg")
    = Ok (Some (mkLegOut 1 "10.0.0.3" (tl_cred (ex_hop "t" "x" 1 24001 "u3")) None)) ∧
  24001 ∉ ing_port <$> chainLinkIngressOf "x" ex_torn.
Proof.
  destruct (tunnelless_leg_shut_out ex_torn (ex_hop "t" "x" 1 24001 "u3", "awg") "10.0.0.3") as [H1 H2];
    [right; right; by left|done|done|done|]. split; [done|].
  intros (l & Hl & Hu & Ht & _)%H2. vm_compute in Hl. each_in Hl; done.
Defined.
