(* ===== verification/ChainJourney.v ===== *)
(** The way through a cascade whose legs the chain process carries
    (apps/panel-backend/src/modules/cascades/chain.config.ts and
    cascade.service.ts): from the socket an entry's user core hands a connection
    to, through the configuration of every node on the way, to the node the
    traffic leaves at. *)

From S2P Require Import CascadeExclusive.
From S2P Require Import Prelude Js Json Directions CascadeValidation LinkCreds PolicyEntries EntryGate XrayLinks.
From S2P Require Import TopologyLinks CascadeTunnel TopologySave TopologyFragments TopologyRoutes CascadeJourney TopologyRead.
From S2P Require Import SingBox ChainPolicy ChainConfig ChainRoutes ChainInput ChainBlocks ChainDial.

Local Open Scope string_scope.
Local Open Scope list_scope.
Local Open Scope Z_scope.

(** ** Travelling *)

(** The connection as the next node sees it. *)
Definition arriving (inbound : string) (user : option string) (fl : Flow) : Flow :=
  mkFlow inbound user (fl_network fl) (fl_port fl) (fl_range fl) (fl_protocol fl) (fl_name fl) (fl_is_address fl)
    (fl_address fl).

(** An outbound that lets traffic out to the internet. *)
Definition lets_out (o : jvalue) : Prop := ob_type o = Some "direct" ∨ ob_type o = Some "wireguard".

Section Travels.
Context (keypair : string → string → bool) (t : ChainTopology) (block : string → option NodeChain).

Inductive chain_travels : string → Flow → list string → Prop :=
  | lands n fl blk tag o :
      block n = Some blk → leaves_by (nc_config blk) fl = Leaves tag → way_out (exits (nc_config blk)) tag o →
      lets_out o → chain_travels n fl [n]
  | hops n fl blk tag o m blk' inb ib user path :
      block n = Some blk → leaves_by (nc_config blk) fl = Leaves tag → way_out (exits (nc_config blk)) tag o →
      block m = Some blk' → inb ∈ cf_inbounds (nc_config blk') → out_tag inb = Some ib → reach t block n o m inb →
      admits keypair inb o = Some user → chain_travels m (arriving ib user fl) path →
      chain_travels n fl (n :: path).
End Travels.

Lemma way_out_single outs g tag o : NoDup (out_tag <$> outs) → g ∈ outs → out_tag g = Some tag → group_members g = None →
  way_out outs tag o ↔ o = g.
Proof.
  intros Hnd Hg Ht Hm. assert (∀ g', g' ∈ outs → out_tag g' = Some tag → g' = g) as Hu.
  { intros g' Hg' Ht'. apply (NoDup_fmap_elem out_tag outs); [done..|congruence]. }
  split; [|intros ->; by apply way_leaf].
  inversion 1 as [? o' Ho Hto Hno|? g' ms m o' Hg' Htg Hms _ _]; subst; [by apply Hu|].
  rewrite (Hu g') in Hms by done. congruence.
Qed.

Lemma read_rules_target fl rules s tag : read_rules fl rules s = Some (Leaves tag) → ∃ r, r ∈ rules ∧ rule_action r = RouteTo tag.
Proof.
  revert s. induction rules as [|r rules IH]; intros s; [done|]. rewrite read_rules_cons.
  assert (∀ s', read_rules fl rules s' = Some (Leaves tag) → ∃ r', r' ∈ r :: rules ∧ rule_action r' = RouteTo tag) as H.
  { intros s' (r' & Hr' & ?)%IH. exists r'. split; [by right|done]. }
  destruct (rule_hit fl s r); [|apply H]. destruct (rule_action r) eqn:Ea; try done; try apply H.
  intros [= ->]. exists r. split; [by left|done].
Qed.

Section Journey.
Context (keypair : string → string → bool) (t : ChainTopology).
Hypothesis Hw : chain_whole keypair t.
Context (localeLe : string → string → bool) (isIP : string → Z) (isRegExp : string → bool).
Context (reads : string → NodeReads).
Hypothesis Hreads : ∀ n, reads_ok localeLe n (reads n).

Notation base := (kt_base t).
Notation Hs := (cw_shape _ _ Hw).

(** The block of every node, as its own read gives it. *)
Definition block (n : string) : option NodeChain :=
  match getChainForNode localeLe isIP isRegExp n (reads n) (Some t) with Ok b => b | Throw _ => None end.

Notation travels := (chain_travels keypair t block).

(** Any block there is belongs to a node of the cascade. *)
Lemma block_places n blk : block n = Some blk →
  (∃ p, ti_positions base !! 0%nat = Some p ∧ n ∈ p) ∨
  (∃ i p, ti_positions base !! S i = Some p ∧ n ∈ p) ∨ (∃ x, x ∈ ti_directions base ∧ n ∈ td_nodeIds x).
Proof.
  intros Hb. destruct (decide (n ∈ mjoin (ti_positions base) ++ (ti_directions base ≫= td_nodeIds))) as [Hn|Hn].
  - apply elem_of_app in Hn as [(p & Hn & [i Hp]%list_elem_of_lookup)%list_elem_of_join|(x & Hn & Hx)%list_elem_of_bind].
    + destruct i as [|i]; [left; by exists p|right; left; by exists i, p].
    + right. right. by exists x.
  - unfold block, getChainForNode in Hb. by rewrite (no_role keypair t Hw n Hn) in Hb.
Qed.

Lemma block_facts n blk : block n = Some blk → nc_linkIngress blk = chainLinkIngressOf n t ∧
  ∀ x, x ∈ kt_tunnels t → tun_from x = n ∨ tun_to x = n → tunnelIface (tun_index x) ∈ ct_iface <$> nc_tunnels blk.
Proof.
  intros Hb. assert (∀ input blk', getChainForNode localeLe isIP isRegExp n (reads n) (Some t) = Ok (Some blk') ∧
    block_with t isIP n input blk' → nc_linkIngress blk = chainLinkIngressOf n t ∧
    ∀ x, x ∈ kt_tunnels t → tun_from x = n ∨ tun_to x = n → tunnelIface (tun_index x) ∈ ct_iface <$> nc_tunnels blk) as H.
  { intros input blk' [E (_ & H)]. unfold block in Hb. rewrite E in Hb. by injection Hb as ->. }
  destruct (block_places n blk Hb) as [(p & Hp & Hn)|[(i & p & Hp & Hn)|(x & Hx & Hn)]].
  - destruct (block_entry keypair t Hw localeLe isIP isRegExp p n (reads n) (Hreads n) Hp Hn) as (blk' & Hb'). by eapply H.
  - destruct (block_transit keypair t Hw localeLe isIP isRegExp i p n (reads n) (Hreads n) Hp Hn) as (first & blk' & _ & Hb').
    by eapply H.
  - destruct (block_exit keypair t Hw localeLe isIP isRegExp x n (reads n) (Hreads n) Hx Hn) as (first & e & blk' & _ & _ & Hb').
    by eapply H.
Qed.

(** ** The configuration at each place *)
Lemma transit_block i p n : ti_positions base !! S i = Some p → n ∈ p →
  ∃ first blk, head (kt_to n t) = Some first ∧ block n = Some blk ∧
    nc_config blk = renderChainConfig isIP (transit_input t n (nr_secret (reads n)) first).
Proof.
  intros Hp Hn.
  destruct (block_transit keypair t Hw localeLe isIP isRegExp i p n (reads n) (Hreads n) Hp Hn) as (first & blk & Hf & E & Hc & _).
  exists first, blk. unfold block. by rewrite E.
Qed.

Lemma exit_block x n : x ∈ ti_directions base → n ∈ td_nodeIds x →
  ∃ first e blk, head (kt_to n t) = Some first ∧ block n = Some blk ∧
    exitPolicyFor n localeLe (nr_policy (reads n)) (nr_warpEnabled (reads n)) (nr_warpAccount (reads n)) = Ok e ∧
    nc_config blk = renderChainConfig isIP (with_exit e (exit_input t n (nr_secret (reads n)) first)).
Proof.
  intros Hx Hn.
  destruct (block_exit keypair t Hw localeLe isIP isRegExp x n (reads n) (Hreads n) Hx Hn)
    as (first & e & blk & Hf & He & E & Hc & _).
  exists first, e, blk. unfold block. by rewrite E.
Qed.

(** Every node a leg leads to has a block with its listener. *)
Lemma inner_config m l : l ∈ kt_to m t →
  ∃ first blk, head (kt_to m t) = Some first ∧ block m = Some blk ∧
    cf_inbounds (nc_config blk) = link_inbounds (in_of t m first).
Proof.
  intros Hl. pose proof (proj1 (elem_of_to t m l) Hl) as [Hin Ht].
  destruct (link_tag_of keypair t Hw l Hin) as (x & Hx & _ & Hb). rewrite Ht in Hb.
  destruct Hb as [(i & p & q & _ & Hq & _ & Hm)|(p & _ & _ & Hm)].
  - destruct (transit_block i q m Hq Hm) as (first & blk & Hf & Hbl & Hc). exists first, blk. by rewrite Hc.
  - destruct (exit_block x m Hx Hm) as (first & e & blk & Hf & Hbl & _ & Hc). exists first, blk. rewrite Hc.
    split; [done|]. split; [done|]. by destruct e as [[[]]|].
Qed.

(** ** One hop *)

(** The legs of a node an outbound may be. *)
Definition leg_of_node (n : string) (input : ChainRenderInput) (D : Z → Prop) (o : jvalue) : Prop :=
  ∃ l tag, l ∈ kt_from n t ∧ D (tl_tag l.1) ∧ o = renderLeg isIP input tag (leg_for t l).

Definition goes_by (n : string) (fl : Flow) (D : Z → Prop) : Prop :=
  ∃ blk input tag, block n = Some blk ∧ leaves_by (nc_config blk) fl = Leaves tag ∧
    (∀ o, way_out (exits (nc_config blk)) tag o → leg_of_node n input D o) ∧
    ∀ l, l ∈ kt_from n t → D (tl_tag l.1) → ∃ tg, way_out (exits (nc_config blk)) tag (renderLeg isIP input tg (leg_for t l)).

Lemma leg_stays input tag leg : ¬ lets_out (renderLeg isIP input tag leg).
Proof.
  unfold lets_out, ob_type, jfield_str. rewrite (leg_fields _ _ _ _ "type") by set_solver.
  by destruct leg as [d h [] via]; intros [].
Qed.

Lemma hop_forth n fl D path : goes_by n fl D → travels n fl path →
  ∃ l ib rest, l ∈ kt_from n t ∧ D (tl_tag l.1) ∧ path = n :: rest ∧
    travels (tl_to l.1) (arriving ib (carried l) fl) rest.
Proof.
  intros (blk & input & tag & Hb & Hl & Hway & _) Htr. inversion Htr as
    [? ? blk' tag' o Hb' Hl' Hw' Hout|? ? blk' tag' o m blk'' inb ib user path' Hb' Hl' Hw' Hbm Hinb Hib Hre Had Hgo]; subst.
  - rewrite Hb in Hb'. injection Hb' as <-. rewrite Hl in Hl'. injection Hl' as <-.
    apply Hway in Hw' as (l & tg & _ & _ & ->). by destruct (leg_stays _ _ _ Hout).
  - rewrite Hb in Hb'. injection Hb' as <-. rewrite Hl in Hl'. injection Hl' as <-.
    apply Hway in Hw' as (l & tg & Hlf & HD & ->). exists l, ib, path'. split; [done|]. split; [done|]. split; [done|].
    assert (m = tl_to l.1) as -> by (by apply (leg_reaches_only keypair t Hw block isIP input tg l n m inb Hlf)).
    pose proof (proj1 (elem_of_from t n l) Hlf) as [Hlc _].
    assert (l ∈ kt_to (tl_to l.1) t) as Hlt by by apply elem_of_to.
    destruct (inner_config _ l Hlt) as (first & blk2 & Hf & Hb2 & Hin). rewrite Hbm in Hb2. injection Hb2 as <-.
    rewrite Hin, link_inbounds_eq in Hinb. apply elem_of_lookup_imap in Hinb as (i & a & -> & _).
    rewrite (leg_admitted keypair t Hw _ first l) in Had by done. by injection Had as <-.
Qed.

Lemma hop_back n fl D l rest : goes_by n fl D → l ∈ kt_from n t → D (tl_tag l.1) →
  (∀ ib, travels (tl_to l.1) (arriving ib (carried l) fl) rest) → travels n fl (n :: rest).
Proof.
  intros (blk & input & tag & Hb & Hl & _ & Hway) Hlf HD Hgo. destruct (Hway l Hlf HD) as [tg Hout].
  pose proof (proj1 (elem_of_from t n l) Hlf) as [Hlc _].
  assert (l ∈ kt_to (tl_to l.1) t) as Hlt by by apply elem_of_to.
  destruct (inner_config _ l Hlt) as (first & blk' & Hf & Hb' & Hin).
  destruct (leg_reaches keypair t Hw block block_facts isIP input tg l n _ first blk blk' Hlf eq_refl Hf Hb Hb')
    as (inb & Hinb & Hre).
  pose proof Hinb as Hinb'. rewrite link_inbounds_eq in Hinb. apply elem_of_lookup_imap in Hinb as (i & a & -> & _).
  eapply (hops _ _ _ _ _ _ _ _ _ blk' _ _ (carried l)); [exact Hb|exact Hl|exact Hout|exact Hb'| |apply link_inbound_shape|exact Hre| |apply Hgo].
  - by rewrite Hin.
  - by apply (leg_admitted keypair t Hw _ first l).
Qed.

(** The legs of an entry or a transit, off its configuration. *)
Lemma config_ways n blk input : block n = Some blk → nc_config blk = renderChainConfig isIP input → chain_legal input →
  ri_role input ≠ CExit → ri_out input = legs_from t n → ri_foreign input = [] →
  (∀ d, d ∈ ways_out input ↔ ∃ l, l ∈ kt_from n t ∧ tl_tag l.1 = d) ∧
  ∀ tag d, (∀ o, way_out (outbounds isIP input) tag o ↔ reaches isIP input d o) →
    (∀ o, way_out (exits (nc_config blk)) tag o → leg_of_node n input (eq d) o) ∧
    ∀ l, l ∈ kt_from n t → d = tl_tag l.1 → ∃ tg, way_out (exits (nc_config blk)) tag (renderLeg isIP input tg (leg_for t l)).
Proof.
  intros Hb Hc Hl Hr Ho Hf.
  assert (∀ d, d ∈ lo_tag <$> legs_from t n ↔ ∃ l, l ∈ kt_from n t ∧ tl_tag l.1 = d) as Htags.
  { intros d. unfold legs_from. rewrite <-list_fmap_compose, list_elem_of_fmap. split.
    - intros (l & -> & Hin). exists l. split; [done|]. cbn. by rewrite leg_for_tag.
    - intros (l & Hin & <-). exists l. split; [|done]. cbn. by rewrite leg_for_tag. }
  split.
  { intros d. unfold ways_out. by rewrite Ho, Hf, app_nil_r, elem_of_js_uniq, Htags. }
  assert (exits (nc_config blk) = outbounds isIP input) as ->.
  { rewrite Hc. unfold exits. cbn [cf_outbounds cf_endpoints renderChainConfig]. unfold exit_policy.
    rewrite bool_decide_false by done. by rewrite app_nil_r. }
  assert (∀ d i leg, legs_to input d !! i = Some leg → leg ∈ legs_from t n ∧ lo_tag leg = d) as Hin.
  { intros d i leg Hi. apply list_elem_of_lookup_2 in Hi. unfold legs_to in Hi. rewrite Ho in Hi.
    by apply list_elem_of_filter in Hi as [? ?]. }
  intros tag d Hway. setoid_rewrite Hway. split.
  - intros o [(i & leg & Hi & ->)|(_ & f & Hin' & _)]; [|rewrite Hf in Hin'; by apply not_elem_of_nil in Hin'].
    apply Hin in Hi as [(l & -> & Hlf)%list_elem_of_fmap <-]. rewrite leg_for_tag. by eexists l, _.
  - intros l Hlf ->. assert (leg_for t l ∈ legs_to input (tl_tag l.1)) as [i Hi]%list_elem_of_lookup.
    { unfold legs_to. rewrite Ho. apply list_elem_of_filter. split; [by rewrite leg_for_tag|]. by apply list_elem_of_fmap_2. }
    eexists. left. by exists i, (leg_for t l).
Qed.

Lemma legs_NoDup n : NoDup (kt_from n t).
Proof. apply NoDup_filter. eapply NoDup_fmap_1, (chain_links_NoDup keypair t Hw). Qed.

(** ** An entry *)
Definition tproxy_of : option Z :=
  if bool_decide (kt_entryProtocol t = Some "amneziawg") then Some (default 0 (kt_entryPolicyOrdinal t)) else None.

(** The directions a tag of an entry stands for: 0 is Auto. *)
Definition stands_for (d d' : Z) : Prop := d = 0 ∨ d = d'.

Lemma entry_fields p n : ti_positions base !! 0%nat = Some p → n ∈ p →
  ∃ blk input, getChainForNode localeLe isIP isRegExp n (reads n) (Some t) = Ok (Some blk) ∧
    nc_config blk = renderChainConfig isIP input ∧ chain_legal input ∧ ri_role input = CEntry ∧
    ri_out input = legs_from t n ∧ ri_foreign input = [] ∧
    ri_directionTags input = entry_tags n t (legs_from t n) ∧ ri_tproxy input = tproxy_of ∧
    ri_policies input = (chainPoliciesOf localeLe isIP isRegExp (default [] (ti_policies base))).1.
Proof.
  intros Hp Hn. destruct (block_entry keypair t Hw localeLe isIP isRegExp p n (reads n) (Hreads n) Hp Hn) as (blk & E & Hc & _).
  exists blk, (entry_input n t localeLe isIP isRegExp (nr_secret (reads n)) (legs_from t n)). split; [done|]. split; [done|].
  split; [by apply (entry_legal keypair t Hw localeLe isIP isRegExp n (nr_secret (reads n)) p Hp Hn)|].
  unfold entry_input, tproxy_of. destruct (chainPoliciesOf _ _ _ _). rewrite (foreign_none keypair t Hw). by repeat split.
Qed.

(** What the rules of an entry answer: the protections, the policy, then on. *)
Definition entry_answer (n : string) (fl : Flow) (d o : Z) : Verdict :=
  match protected fl (hijacks fl ((λ _, socksTag <$> entry_tags n t (legs_from t n)) <$> tproxy_of)) with
  | Some v => v
  | None => default (Leaves (outTag d))
      (js_find (λ p, cp_ordinal p =? o) (default [] (ti_policies base)) ≫= policy_verdict isIP isRegExp fl)
  end.

Lemma entry_goes p n fl d o : ti_positions base !! 0%nat = Some p → n ∈ p →
  enters fl (entry_tags n t (legs_from t n)) tproxy_of d o →
  Forall (policy_apart isIP isRegExp fl) (default [] (ti_policies base)) →
  entry_answer n fl d o = Leaves (outTag d) →
  goes_by n fl (stands_for d).
Proof.
  intros Hp Hn He Hap Hv. destruct (entry_fields p n Hp Hn) as (blk & input & Hb' & Hc & Hl & Hr & Ho & Hf & Ht & Htp & Hpol).
  assert (block n = Some blk) as Hb by (unfold block; by rewrite Hb').
  destruct (config_ways n blk input Hb Hc Hl) as [Hways Hlegs]; [by rewrite Hr|done..|].
  unfold entry_answer in Hv. rewrite <-Ht, <-Htp in He, Hv.
  pose proof (entry_reads isIP isRegExp localeLe input (default [] (ti_policies base)) Hl Hr Hpol fl d o He Hap) as Hread.
  unfold entry_verdict in Hread. rewrite <-Hc, Hv in Hread.
  assert (d ∈ ri_directionTags input) as Hd.
  { destruct He as [d o Hd _ _ _|o Htpo _ _]; [done|]. apply (cl_tproxy _ Hl). unfold entry_tproxy, is_entry.
    rewrite Hr, bool_decide_true, Htpo by done. by eexists. }
  exists blk, input, (outTag d). split; [done|]. split; [done|]. destruct (decide (d = 0)) as [->|Hne].
  - assert (∀ o, way_out (outbounds isIP input) (outTag 0) o ↔ ∃ d', d' ∈ ways_out input ∧ reaches isIP input d' o) as Hauto
      by (intros o'; by apply way_auto).
    assert (exits (nc_config blk) = outbounds isIP input) as Eo.
    { rewrite Hc. unfold exits. cbn [cf_outbounds cf_endpoints renderChainConfig]. unfold exit_policy.
      rewrite Hr, bool_decide_false by done. by rewrite app_nil_r. }
    rewrite Eo in Hlegs. rewrite Eo. split.
    + intros o' (d' & Hd' & Hre)%Hauto. destruct (Hlegs (outTag d') d') as [H _]; [intros o2; by apply way_direction|].
      apply (way_direction isIP input Hl) in Hre; [|done]. destruct (H o' Hre) as (l & tg & Hlf & _ & ->).
      exists l, tg. split; [done|]. split; [by left|done].
    + intros l Hlf _. assert (tl_tag l.1 ∈ ways_out input) as Hd' by (apply Hways; by exists l).
      destruct (Hlegs (outTag (tl_tag l.1)) (tl_tag l.1)) as [_ H]; [intros o2; by apply way_direction|].
      destruct (H l Hlf eq_refl) as [tg Hw']. exists tg. apply Hauto. exists (tl_tag l.1). split; [done|].
      by apply way_direction.
  - assert (d ∈ ways_out input) as Hd' by (by destruct (cl_offered _ Hl d Hd)).
    destruct (Hlegs (outTag d) d) as [H1 H2]; [intros o2; by apply way_direction|]. split.
    + intros o' Ho'. destruct (H1 o' Ho') as (l & tg & Hlf & Ed & ->). exists l, tg. split; [done|]. split; [by right|done].
    + intros l2 Hlf [?|Ed]; [done|]. by apply H2.
Qed.

(** ** A transit *)
Lemma all_one {A} (l : list A) x : NoDup l → x ∈ l → (∀ y, y ∈ l → y = x) → length l = 1%nat.
Proof.
  intros Hnd Hx H. destruct l as [|a l]; [by apply not_elem_of_nil in Hx|]. assert (a = x) as -> by (apply H; by left).
  apply NoDup_cons in Hnd as [Hn _]. destruct l as [|b l]; [done|]. destruct Hn.
  assert (b = x) as -> by (apply H; right; by left). by left.
Qed.

(** A transit that cannot tell its legs apart leads to one node. *)
Definition sighted : Prop := ∀ i p n x, ti_positions base !! S i = Some p → n ∈ p → x ∈ ti_directions base →
  any_vless (incoming n base) ∨ length (next_pool base (S i) x) = 1%nat.

Hypothesis Hsighted : sighted.

Lemma transit_goes i p n l fl ib x : ti_positions base !! S i = Some p → n ∈ p → l ∈ kt_to n t →
  x ∈ ti_directions base → tl_tag l.1 = td_tag x → protected fl true = None →
  goes_by n (arriving ib (carried l) fl) (eq (td_tag x)).
Proof.
  intros Hp Hn Hl Hx Htag Hprot. destruct (transit_block i p n Hp Hn) as (first & blk & Hf & Hb & Hc).
  set (input := transit_input t n (nr_secret (reads n)) first) in *.
  assert (chain_legal input) as Hleg by apply (transit_legal keypair t Hw).
  destruct (config_ways n blk input Hb Hc Hleg) as [Hways Hlegs]; [done..|].
  assert (first ∈ kt_to n t) as Hfirst by (destruct (kt_to n t); [done|]; injection Hf as ->; by left).
  assert (td_tag x ∈ ways_out input) as Hd.
  { apply Hways. destruct (from_position keypair t Hw (S i) p n x Hp Hn Hx) as (l2 & Hl2 & E). by exists l2. }
  exists blk, input. destruct (is_vless (tl_cred first.1)) eqn:Ev.
  - assert (carried l = Some (chainLinkUser (td_tag x))) as Eu.
    { unfold carried. rewrite Htag. destruct (same_listener keypair t Hw n first l Hf Hl) as [E| ->]; [by rewrite E, Ev|done]. }
    exists (outTag (td_tag x)). split; [done|].
    split; [|apply Hlegs; intros o; by apply way_direction].
    rewrite Hc. rewrite (transit_by_user isIP input Hleg eq_refl _ (in_of t n first) (td_tag x)); [|done|done|..|done|done].
    + change (default (Leaves (outTag (td_tag x))) (protected fl true) = Leaves (outTag (td_tag x))). by rewrite Hprot.
    + intros c (l2 & -> & Hl2)%list_elem_of_fmap. apply elem_of_to in Hl2 as [Hl2 _].
      destruct (link_tag_of keypair t Hw l2 Hl2) as (y & Hy & Ey & _). pose proof (tag_range keypair t Hw y Hy).
      assert (cc_tag (ChainInput.client_of l2) = tl_tag l2.1) as -> by (unfold ChainInput.client_of; by destruct (tl_cred l2.1)). lia.
    + apply list_elem_of_fmap. exists (ChainInput.client_of l). split; [|by apply list_elem_of_fmap_2].
      rewrite <-Htag. unfold ChainInput.client_of. by destruct (tl_cred l.1).
  - assert (first.1 ∈ incoming n base) as Hfi by (rewrite <-(to_incoming keypair t Hw); by apply list_elem_of_fmap_2).
    destruct (cw_listeners _ _ Hw n) as [Hv|(l0 & E0 & _)].
    { destruct (Hv _ Hfi) as (q & u & r & E & _). by rewrite E in Ev. }
    assert (∀ l2, l2 ∈ kt_to n t → tl_tag l2.1 = td_tag x) as Hone.
    { intros l2 Hl2. assert (∀ l3, l3 ∈ kt_to n t → l3.1 = l0) as H0.
      { intros l3 Hl3. assert (l3.1 ∈ incoming n base) as H by (rewrite <-(to_incoming keypair t Hw); by apply list_elem_of_fmap_2).
        rewrite E0 in H. by apply list_elem_of_singleton in H. }
      rewrite (H0 l2 Hl2), <-(H0 l Hl). done. }
    assert (∀ d', d' ∈ ways_out input ↔ d' = td_tag x) as Hways'.
    { intros d'. split; [|by intros ->]. intros (l2 & Hl2 & <-)%Hways. apply elem_of_from in Hl2 as [Hl2 _].
      destruct (link_tag_of keypair t Hw l2 Hl2) as (y & Hy & -> & _).
      destruct (lookup_lt_is_Some_2 (ti_positions base) i) as [q Hq]; [apply lookup_lt_Some in Hp; lia|].
      pose proof (proj1 (shape_pools _ Hs)) as Hpf. rewrite Forall_forall in Hpf.
      destruct q as [|a q]; [by destruct (Hpf []); [by eapply list_elem_of_lookup_2|]|].
      destruct (link_between keypair t Hw a n y Hy) as (l3 & Hl3 & _ & Et & <-).
      { apply (leg_from_position base Hs i (a :: q)); [done|by left|]. unfold next_pool. by rewrite Hp. }
      apply Hone. by apply elem_of_to. }
    assert (length (ways_out input) <= 1)%nat as Hlen.
    { assert (length (ways_out input) = 1%nat) as ->; [|lia]. apply (all_one _ (td_tag x)); [apply NoDup_js_uniq|done|].
      intros y Hy. by apply Hways'. }
    assert (length (legs_to input (td_tag x)) = 1%nat) as Hsingle.
    { destruct (Hsighted i p n x Hp Hn Hx) as [Hany|H1]; [by rewrite (Hany _ Hfi) in Ev|].
      destruct (next_pool base (S i) x) as [|b [|? ?]] eqn:En; [done| |done].
      assert (legs_to input (td_tag x) = leg_for t <$> filter (λ l, tl_tag l.1 = td_tag x) (kt_from n t)) as ->.
      { unfold legs_to. cbn [ri_out input transit_input]. unfold legs_from. clear. induction (kt_from n t) as [|l2 ls IH]; [done|].
        rewrite fmap_cons, !filter_cons, leg_for_tag. case_decide; [|done]. by rewrite IH. }
      rewrite length_fmap. destruct (from_position keypair t Hw (S i) p n x Hp Hn Hx) as (l2 & Hl2 & E2).
      apply (all_one _ l2); [apply NoDup_filter, legs_NoDup|by apply list_elem_of_filter|].
      intros l3 [E3 Hl3]%list_elem_of_filter. apply elem_of_from in Hl2 as [Hl2 F2], Hl3 as [Hl3 F3].
      assert (∀ l4, l4 ∈ chain_links t → tl_from l4.1 = n → tl_tag l4.1 = td_tag x → tl_to l4.1 = b) as Hb4.
      { intros l4 Hl4 F4 E4. destruct (link_tag_of keypair t Hw l4 Hl4) as (y & Hy & Ey & Hb4). rewrite F4 in Hb4.
        assert (y = x) as ->.
        { apply (NoDup_fmap_elem td_tag (ti_directions base)); [apply (legal_distinct _ (cw_legal _ _ Hw))|done..|congruence]. }
        apply (leg_from_position base Hs (S i) p) in Hb4; [|done..]. rewrite En in Hb4. by apply list_elem_of_singleton in Hb4. }
      apply (chain_link_unique keypair t Hw); [done|done|congruence| |congruence].
      rewrite (Hb4 l3), (Hb4 l2); done. }
    exists (leg_tag input (td_tag x) 0). split; [done|].
    assert (leg_tag input (td_tag x) 0 = outTag (td_tag x)) as Elt by (unfold leg_tag; by rewrite bool_decide_true).
    split.
    + rewrite Hc, (transit_default isIP input eq_refl _ (in_of t n first)); [|done|done|done].
      rewrite (single_default isIP input Hleg eq_refl (td_tag x) Hways'), bool_decide_false by (by intros E; rewrite E in Hsingle).
      change (default (Leaves (leg_tag input (td_tag x) 0)) (protected fl true) = Leaves (leg_tag input (td_tag x) 0)).
      by rewrite Hprot.
    + rewrite Elt. apply Hlegs. intros o. by apply way_direction.
Qed.

(** ** An exit *)
Lemma dead_end n o m inb : jfield "bind_interface" o = None → jfield "server" o = None → ¬ reach t block n o m inb.
Proof.
  intros Hb Hsv [h from p blk g _ H|y blk blk' a _ _ _ _ H]; [unfold jfield_str in H; by rewrite Hsv in H|congruence].
Qed.

Lemma exit_lands x n fl path : x ∈ ti_directions base → n ∈ td_nodeIds x →
  (∀ blk, block n = Some blk → ∃ tag, leaves_by (nc_config blk) fl = Leaves tag) →
  travels n fl path ↔ path = [n].
Proof.
  intros Hx Hn Hopen. destruct (exit_block x n Hx Hn) as (first & e & blk & Hf & Hb & He & Hc).
  destruct (Hopen blk Hb) as [tag Hl].
  set (input := with_exit e (exit_input t n (nr_secret (reads n)) first)) in *.
  assert (chain_legal input) as Hleg by (eapply exit_legal; exact He).
  assert (ri_role input = CExit ∧ ri_out input = [] ∧ ri_foreign input = []) as (Hr & Ho & Hfo) by (by destruct e as [[[]]|]).
  assert (∃ g, g ∈ exits (nc_config blk) ∧ out_tag g = Some tag ∧ group_members g = None ∧ lets_out g ∧
    jfield "bind_interface" g = None ∧ jfield "server" g = None) as (g & Hg & Ht & Hm & Hout & Hb1 & Hb2).
  { assert (tag = "direct" ∨ ∃ rules w, exit_policy input = Some (rules, Some w) ∧ tag = CHAIN_WARP_TAG) as [->|(rules & w & E & ->)].
    - rewrite Hc, (exit_reads isIP input Hr) in Hl by done. destruct (protected fl true) as [v|] eqn:Ep.
      { unfold protected in Ep. repeat case_match; simplify_eq. }
      destruct (ri_exitPolicy input) as [[rules w]|] eqn:Ee; [|cbn in Hl; injection Hl as <-; by left].
      destruct (read_rules fl rules _) as [v|] eqn:Er; cbn in Hl; [|injection Hl as <-; by left]. subst v.
      apply read_rules_target in Er as (r & Hr' & Ea).
      assert (exit_policy input = Some (rules, w)) as Epol by (unfold exit_policy; by rewrite Hr, bool_decide_true).
      destruct (cl_exit _ Hleg rules w r tag Epol Hr' Ea) as [->|(-> & [w' ->])]; [by left|right; by exists rules, w'].
    - exists direct_outbound. rewrite Hc. unfold exits. cbn [cf_outbounds renderChainConfig].
      rewrite elem_of_app. split; [left; by apply direct_in|]. split_and!; try done. by left.
    - exists (warpEndpoint w). rewrite Hc. unfold exits. cbn [cf_endpoints renderChainConfig]. rewrite E, elem_of_app.
      split; [right; by left|]. unfold warpEndpoint. destruct (warp_host_port _). split_and!; try done. by right. }
  assert (∀ o, way_out (exits (nc_config blk)) tag o ↔ o = g) as Hway.
  { intros o. apply way_out_single; try done. rewrite Hc. apply ld_exits, loads, Hleg. }
  split.
  - inversion 1 as [? ? blk' tag' o Hb' Hl' Hw' _|? ? blk' tag' o m blk'' inb ib user path' Hb' Hl' Hw' _ _ _ Hre _ _]; subst; [done|].
    rewrite Hb in Hb'. injection Hb' as <-. rewrite Hl in Hl'. injection Hl' as <-. apply Hway in Hw' as ->.
    by destruct (dead_end n g m inb Hb1 Hb2).
  - intros ->. apply (lands _ _ _ n fl blk tag g); [done|done|by apply Hway|done].
Qed.

(** ** The way *)

(** The exits of a direction let the connection out, however it comes in. *)
Definition exits_open (x : TopologyDirection) (fl : Flow) : Prop := ∀ n ib u blk,
  n ∈ td_nodeIds x → block n = Some blk → ∃ tag, leaves_by (nc_config blk) (arriving ib u fl) = Leaves tag.

(** From the second pool on: every choice of one node per pool, and no other. *)
Lemma chain_way_on x k j q n fl ib l path : x ∈ ti_directions base → (length (pools base x) - j = k)%nat → (0 < j)%nat →
  pools base x !! j = Some q → n ∈ q → l ∈ kt_to n t → tl_tag l.1 = td_tag x →
  protected fl true = None → exits_open x fl →
  travels n (arriving ib (carried l) fl) path ↔ ∃ rest, path = n :: rest ∧ picks (drop (S j) (pools base x)) rest.
Proof.
  intros Hx. revert j q n fl ib l path. induction k as [k IH] using lt_wf_ind.
  intros j q n fl ib l path Hk Hj Hq Hn Hl Ht Hprot Hopen. apply lookup_lt_Some in Hq as Hlt.
  destruct j as [|i]; [lia|]. destruct (ti_positions base !! S i) as [p|] eqn:Ep.
  - assert (p = q) as ->.
    { unfold pools in Hq. rewrite (lookup_app_l_Some _ _ _ _ Ep) in Hq. by injection Hq. }
    pose proof (transit_goes i q n l fl ib x Ep Hn Hl Hx Ht Hprot) as Hgo.
    pose proof (pools_next base (S i) q x Ep) as Hnext. rewrite (drop_S _ _ _ Hnext).
    assert (∀ l2 ib2 rest, l2 ∈ kt_from n t → tl_tag l2.1 = td_tag x →
      travels (tl_to l2.1) (arriving ib2 (carried l2) (arriving ib (carried l) fl)) rest ↔
      tl_to l2.1 ∈ next_pool base (S i) x ∧ ∃ rest', rest = tl_to l2.1 :: rest' ∧ picks (drop (S (S (S i))) (pools base x)) rest') as Hm.
    { intros l2 ib2 rest Hl2 Ht2. pose proof (proj1 (elem_of_from t n l2) Hl2) as [Hc2 Hf2].
      assert (tl_to l2.1 ∈ next_pool base (S i) x) as Hin by (eapply (leg_next keypair t Hw); eauto).
      rewrite (IH (length (pools base x) - S (S i))%nat ltac:(lia) (S (S i)) (next_pool base (S i) x) (tl_to l2.1) _ ib2 l2); try done.
      - tauto.
      - lia.
      - by apply elem_of_to. }
    split.
    + intros Htr. apply (hop_forth _ _ _ _ Hgo) in Htr as (l2 & ib2 & rest & Hl2 & Ht2 & -> & Htr).
      apply Hm in Htr as (Hin & rest' & -> & Hp); [|done|done]. eexists. split; [done|]. by constructor.
    + intros (rest & -> & H2). inversion H2 as [|? m ? rest' H1 H3]; subst.
      destruct (leg_to keypair t Hw (S i) q n m x Ep Hn Hx H1) as (l2 & Hl2 & Em & Et2).
      apply (hop_back _ _ _ l2 _ Hgo Hl2); [done|]. intros ib2. apply Hm; [done|done|]. rewrite Em. split; [done|]. by exists rest'.
  - apply lookup_ge_None in Ep. assert (q = td_nodeIds x ∧ S i = length (ti_positions base)) as [-> E].
    { unfold pools in *. rewrite lookup_app_r in Hq by done. rewrite length_app in Hlt. simpl in Hlt.
      replace (S i - length (ti_positions base))%nat with 0%nat in Hq by lia. injection Hq as <-. split; [done|lia]. }
    rewrite (exit_lands x n _ path Hx Hn) by (intros blk Hb; by apply (Hopen n)).
    rewrite drop_ge by (unfold pools; rewrite length_app; simpl; lia). split.
    + intros ->. exists []. by split; [|constructor].
    + intros (rest & -> & H). by apply Forall2_nil_inv_l in H as ->.
Qed.

(** An exit with no policy of its own lets everything out but mail and
    torrents. *)
Lemma exits_open_plain x fl : x ∈ ti_directions base → (∀ n, n ∈ td_nodeIds x → nr_policy (reads n) = None) →
  protected fl true = None → exits_open x fl.
Proof.
  intros Hx Hnone Hp n ib u blk Hn Hb. destruct (exit_block x n Hx Hn) as (first & e & blk' & _ & Hb' & He & Hc).
  rewrite Hb in Hb'. injection Hb' as <-. rewrite (Hnone n Hn) in He. injection He as <-. rewrite Hc.
  exists "direct". rewrite exit_reads by done.
  change (match protected fl true with Some v => v | None => Leaves "direct" end = Leaves "direct"). by rewrite Hp.
Qed.

(** C4. The way through a whole cascade the chain carries.  Let the topology
    read be whole: a saved shape whose directions are pools of nodes and none a
    named outbound, every node with an address of its own, a tunnel under every
    leg that is to ride one, and into every node either one leg or vless legs of
    one REALITY pair with a user each; and let a transit whose legs in are not
    all vless have one node to go on to for each direction.  Then a connection
    that the entry's user core hands over for a direction, or for Auto, that
    neither the protections nor the entry's policy stop and that the exits of the
    direction let out, can be carried along a list of nodes, by the
    configurations as rendered, the listeners and tunnels as set up and the ports
    as opened, exactly when the list starts at the entry, has one node of every
    later position in order, and ends with a node of the direction's own pool, of
    any direction for Auto, where it leaves for the internet.  So there no leg is
    refused or shut out on the way, and no connection leaves on the way or in
    another direction's country.  Where the topology is not whole it can be:
    [second_sender_refused], [tunnelless_leg_shut_out],
    [pool_behind_blind_transit]. *)
Theorem chain_journey p n fl d o path : ti_positions base !! 0%nat = Some p → n ∈ p →
  enters fl (entry_tags n t (legs_from t n)) tproxy_of d o →
  Forall (policy_apart isIP isRegExp fl) (default [] (ti_policies base)) →
  entry_answer n fl d o = Leaves (outTag d) →
  protected fl true = None → (∀ x, x ∈ ti_directions base → stands_for d (td_tag x) → exits_open x fl) →
  travels n fl path ↔ ∃ x rest, x ∈ ti_directions base ∧ stands_for d (td_tag x) ∧
    path = n :: rest ∧ picks (tail (pools base x)) rest.
Proof.
  intros Hp Hn He Hap Hv Hprot Hopen. pose proof (entry_goes p n fl d o Hp Hn He Hap Hv) as Hgo.
  assert (∀ x, tail (pools base x) = next_pool base 0 x :: drop 2 (pools base x)) as Htail.
  { intros x. pose proof (pools_next base 0 p x Hp) as Hnext. rewrite <-(drop_S _ _ _ Hnext). by destruct (pools base x). }
  assert (∀ l ib x rest, l ∈ kt_from n t → x ∈ ti_directions base → tl_tag l.1 = td_tag x → stands_for d (td_tag x) →
    travels (tl_to l.1) (arriving ib (carried l) fl) rest ↔
    tl_to l.1 ∈ next_pool base 0 x ∧ ∃ rest', rest = tl_to l.1 :: rest' ∧ picks (drop 2 (pools base x)) rest') as Hm.
  { intros l ib x rest Hl Hx Ht Hd. pose proof (proj1 (elem_of_from t n l) Hl) as [Hc2 Hf2].
    assert (tl_to l.1 ∈ next_pool base 0 x) as Hin by (eapply (leg_next keypair t Hw); eauto).
    rewrite (chain_way_on x (length (pools base x) - 1) 1 (next_pool base 0 x) (tl_to l.1) _ ib l); try done.
    - tauto.
    - lia.
    - by apply (pools_next base 0 p).
    - by apply elem_of_to.
    - by apply Hopen. }
  split.
  - intros Htr. apply (hop_forth _ _ _ _ Hgo) in Htr as (l & ib & rest & Hl & Hd & -> & Htr).
    pose proof (proj1 (elem_of_from t n l) Hl) as [Hlc _].
    destruct (link_tag_of keypair t Hw l Hlc) as (x & Hx & Et & _). rewrite Et in Hd.
    apply (Hm l ib x) in Htr as (Hin & rest' & -> & Hpk); [|done..].
    exists x, (tl_to l.1 :: rest'). split; [done|]. split; [done|]. split; [done|]. rewrite Htail. by constructor.
  - intros (x & rest & Hx & Hd & -> & Hpk). rewrite Htail in Hpk. inversion Hpk as [|? m ? rest' H1 H3]; subst.
    destruct (leg_to keypair t Hw 0 p n m x Hp Hn Hx H1) as (l & Hl & Em & Et).
    apply (hop_back _ _ _ l _ Hgo Hl); [by rewrite Et|]. intros ib. apply (Hm l ib x); [done..|]. rewrite Em.
    split; [done|]. by exists rest'.
Qed.

(** C18. What an entry answers.  A connection that the user core hands over for
    a direction and with a policy, on the direction's socket as the policy's
    user, or off an AmneziaWG interface, is answered as the policy says and
    only that one: lookups, mail and torrents first, then the policy's lists in
    the order of the entry's xray, and what none of them takes goes to the
    direction it was handed over for. *)
Theorem entry_answers p n fl d o : ti_positions base !! 0%nat = Some p → n ∈ p →
  enters fl (entry_tags n t (legs_from t n)) tproxy_of d o →
  Forall (policy_apart isIP isRegExp fl) (default [] (ti_policies base)) →
  ∃ blk, getChainForNode localeLe isIP isRegExp n (reads n) (Some t) = Ok (Some blk) ∧
    leaves_by (nc_config blk) fl = entry_answer n fl d o.
Proof.
  intros Hp Hn He Hap. destruct (entry_fields p n Hp Hn) as (blk & input & Hb & Hc & Hl & Hr & _ & _ & Ht & Htp & Hpol).
  exists blk. split; [done|]. unfold entry_answer. rewrite <-Ht, <-Htp in *. rewrite Hc.
  by apply (entry_reads isIP isRegExp localeLe input (default [] (ti_policies base)) Hl Hr Hpol fl d o).
Qed.
End Journey.

(** ** The example *)
Definition ex_flow (inbound user : string) : Flow :=
  mkFlow inbound (Some user) "tcp" 443 (λ _, false) (Some "tls") (λ _ _, false) false (λ _ _, false).

Lemma ex_apart fl : (∀ f v, fl_name fl f v = false) → (∀ f v, fl_address fl f v = false) →
  Forall (policy_apart (λ _, 0) (λ _, false) fl) (default [] (ti_policies ex_base)).
Proof.
  intros Hn Ha. apply Forall_forall. intros p _ es _. split; intros e s _ _; [apply Ha|apply Hn].
Qed.

Lemma ex_sighted : sighted ex_chain.
Proof.
  intros i p n x Hp Hn Hx. destruct i as [|i]; [|by destruct i]. injection Hp as <-. each_in Hn. left. intros l Hl.
  vm_compute in Hl. by each_in Hl.
Qed.

Lemma ex_open x fl : x ∈ ti_directions ex_base → protected fl true = None →
  exits_open ex_chain (λ _ _, true) (λ _, 0) (λ _, false) ex_reads x fl.
Proof.
  intros Hx Hp. by apply (exits_open_plain ex_pair ex_chain ex_chain_whole (λ _ _, true) (λ _, 0) (λ _, false) ex_reads ex_reads_ok).
Qed.

Theorem entry_answers_witness : ∃ blk,
  getChainForNode (λ _ _, true) (λ _, 0) (λ _, false) "e" (ex_reads "e") (Some ex_chain) = Ok (Some blk) ∧
  leaves_by (nc_config blk) (ex_flow (socksTag 2) (chainSocksUser 1)) = Leaves (outTag 2).
Proof.
  apply (entry_answers ex_pair ex_chain ex_chain_whole (λ _ _, true) (λ _, 0) (λ _, false) ex_reads ex_reads_ok ["e"] "e"
    (ex_flow (socksTag 2) (chainSocksUser 1)) 2 1); [done|by left| |by apply ex_apart].
  apply by_socks; [vm_compute; set_solver|done|done|done].
Defined.

Theorem chain_journey_witness :
  let goes inbound := chain_travels ex_pair ex_chain (block ex_chain (λ _ _, true) (λ _, 0) (λ _, false) ex_reads) "e"
    (ex_flow inbound (chainSocksUser 0)) in
  goes (socksTag 1) ["e"; "t"; "x"] ∧ goes (socksTag 1) ["e"; "t"; "y"] ∧ ¬ goes (socksTag 1) ["e"; "t"; "z"] ∧
  goes (socksTag 0) ["e"; "t"; "z"] ∧ ¬ goes (socksTag 1) ["e"; "t"].
Proof.
  assert (∀ d, d ∈ [0; 1; 2] → enters (ex_flow (socksTag d) (chainSocksUser 0)) (entry_tags "e" ex_chain (legs_from ex_chain "e"))
    (tproxy_of ex_chain) d 0) as He.
  { intros d Hd. apply by_socks; [|done|done|done]. by assert (entry_tags "e" ex_chain (legs_from ex_chain "e") = [0; 1; 2]) as ->. }
  assert (∀ d path, d ∈ [0; 1; 2] →
    chain_travels ex_pair ex_chain (block ex_chain (λ _ _, true) (λ _, 0) (λ _, false) ex_reads) "e"
      (ex_flow (socksTag d) (chainSocksUser 0)) path ↔
    ∃ x rest, x ∈ ti_directions ex_base ∧ stands_for d (td_tag x) ∧ path = "e" :: rest ∧ picks (tail (pools ex_base x)) rest) as H.
  { intros d path Hd. apply (chain_journey ex_pair ex_chain ex_chain_whole (λ _ _, true) (λ _, 0) (λ _, false) ex_reads ex_reads_ok
      ex_sighted ["e"] "e" (ex_flow (socksTag d) (chainSocksUser 0)) d 0); [done|by left|by apply He|by apply ex_apart| |done|].
    - each_in Hd; by vm_compute.
    - intros x Hx _. by apply ex_open. }
  cbv zeta. rewrite !H by set_solver.
  assert (∀ x path rest, x ∈ ti_directions ex_base → path = "e" :: rest → picks (tail (pools ex_base x)) rest →
    x = ex_first ∧ (path = ["e"; "t"; "x"] ∨ path = ["e"; "t"; "y"]) ∨ x = ex_second ∧ path = ["e"; "t"; "z"]) as Hp.
  { intros x path rest Hx -> Hpk. simpl in Hx. each_in Hx; unfold picks, pools in Hpk; simpl in Hpk;
      inversion Hpk as [|? m ? r H1 H2]; subst; inversion H2 as [|? m' ? r' H3 H4]; subst;
      apply Forall2_nil_inv_l in H4 as ->; each_in H1; each_in H3; auto. }
  split; [|split; [|split; [|split]]].
  - exists ex_first, ["t"; "x"]. split; [by left|]. split; [by right|]. split; [done|]. repeat constructor; set_solver.
  - exists ex_first, ["t"; "y"]. split; [by left|]. split; [by right|]. split; [done|]. repeat constructor; set_solver.
  - intros (x & rest & Hx & Hd & E & Hpk). destruct (Hp x _ rest Hx E Hpk) as [[-> [E'|E']]|[-> _]]; [done|done|].
    by destruct Hd.
  - exists ex_second, ["t"; "z"]. split; [by right; left|]. split; [by left|]. split; [done|]. repeat constructor; set_solver.
  - intros (x & rest & Hx & Hd & E & Hpk). destruct (Hp x _ rest Hx E Hpk) as [[-> [E'|E']]|[-> E']]; done.
Defined.
