(* ===== verification/NodeSelection.v ===== *)
(** Which nodes a subscriber gets, and in what order
    (apps/panel-backend/src/modules/subscription/node-selection.ts).

    [rendezvousOrder] orders nodes by a hash of the user and the node, weighted
    by capacity; [rankNodesForUser] by region and load.  A score is a rational
    here and a double in the code.  [weigh h w] orders
    [-w / Math.log((h + 0.5) / 2^32)], which the language leaves to the
    implementation. *)

From Stdlib Require Import QArith Qminmax Lqa.
From S2P Require Import Prelude Js Utf8.

Local Open Scope string_scope.
Local Open Scope list_scope.
Local Open Scope Z_scope.

(** ** Rendezvous order *)
Section Rendezvous.
Context (weigh : Z → Z → Z).

(** The UTF-16 code units of a string. *)
Definition code_units (s : string) : list Z := default (js s) (utf8_decode (js s)).

(** FNV-1a; [h >>> 0] at the end. *)
Definition unitHash (s : string) : Z :=
  js_ushr (foldl (λ h c, js_imul (js_xor h c) 0x01000193) 0x811c9dc5 (code_units s)) 0.

Definition DEFAULT_MAX_USERS : Z := 500.
Definition hrwScore (userId nodeId : string) (weight : Z) : Z :=
  weigh (unitHash (userId +:+ ":" +:+ nodeId)) (Z.max weight 1).

(** A node's id and capacity. *)
Definition hrw_of (userId : string) (n : string * option Z) : Z :=
  hrwScore userId n.1 (default DEFAULT_MAX_USERS n.2).

Definition hrw_leb (userId : string) (a b : string * option Z) : bool :=
  (hrw_of userId b <? hrw_of userId a) || ((hrw_of userId a =? hrw_of userId b) && str_leb a.1 b.1).

Definition rendezvousOrder (nodes : list (string * option Z)) (userId : string) : list (string * option Z) :=
  sort_by (hrw_leb userId) nodes.
End Rendezvous.

(** ** Ranking by region and load *)
Record NodeForRanking := mkRanking {
  nr_id : string;
  nr_regionCode : option string;
  nr_currentUsers : option Z;
  nr_maxUsers : option Z
}.

#[global] Instance NodeForRanking_eq_dec : EqDecision NodeForRanking.
Proof. solve_decision. Defined.

(** [country && n.regionCode === country]. *)
Definition in_region (country : option string) (n : NodeForRanking) : bool :=
  truthy country && bool_decide (nr_regionCode n = country).

Definition scoreNode (n : NodeForRanking) (country : option string) : Q :=
  let regionScore := if in_region country n then 100%Q else 0%Q in
  let cap := default DEFAULT_MAX_USERS (nr_maxUsers n) in
  let used := default 0 (nr_currentUsers n) in
  let utilization := Qmax 0 (1 - inject_Z used / inject_Z (Z.max cap 1)) in
  (regionScore + utilization * 50)%Q.

Definition rank_leb (country : option string) (a b : NodeForRanking) : bool :=
  Qle_bool (scoreNode b country) (scoreNode a country).

Definition rankNodesForUser (nodes : list NodeForRanking) (country : option string) (limit : option Z) : list NodeForRanking :=
  let ranked := sort_by (rank_leb country) nodes in
  match limit with
  | Some n => if 0 <? n then take (Z.to_nat n) ranked else ranked
  | None => ranked
  end.

(** [/^[A-Z]{2}$/], on what is not empty and not [XX]. *)
Definition upper_letter (c : ascii) : bool := (65 <=? nat_of_ascii c)%nat && (nat_of_ascii c <=? 90)%nat.
Definition country_code (raw : option string) : option string :=
  match raw with
  | Some r => match list_ascii_of_string r with
              | [a; b] => if negb (bool_decide (r = "XX")) && upper_letter a && upper_letter b then raw else None
              | _ => None
              end
  | None => None
  end.

(** [cached] is what Redis holds for the address. *)
Definition lookupClientCountry (cached cfCountry : option string) : option string :=
  match cached with
  | Some c => if bool_decide (c = "_") then None else Some c
  | None => country_code ((λ s, js_upper (js_trim s)) <$> cfCountry)
  end.

(** ** Facts *)
Section RendezvousFacts.
Context (weigh : Z → Z → Z) (userId : string).

Lemma hrw_total a b : hrw_leb weigh userId a b = false → hrw_leb weigh userId b a = true.
Proof.
  unfold hrw_leb. rewrite orb_false_iff, andb_false_iff, Z.ltb_ge, Z.eqb_neq, orb_true_iff, andb_true_iff, Z.ltb_lt, Z.eqb_eq.
  intros [H1 [H2|H2]]; [left; lia|]. destruct (Z.eq_dec (hrw_of weigh userId a) (hrw_of weigh userId b)); [right|left; lia].
  split; [done|]. by apply str_leb_total.
Qed.

Lemma hrw_trans a b c : hrw_leb weigh userId a b = true → hrw_leb weigh userId b c = true → hrw_leb weigh userId a c = true.
Proof.
  unfold hrw_leb. rewrite !orb_true_iff, !andb_true_iff, !Z.ltb_lt, !Z.eqb_eq.
  intros [?|[? H1]] [?|[? H2]]; [left; lia..|]. right. split; [lia|]. by eapply str_leb_trans.
Qed.

Lemma hrw_antisym a b : hrw_leb weigh userId a b = true → hrw_leb weigh userId b a = true → a.1 = b.1.
Proof.
  unfold hrw_leb. rewrite !orb_true_iff, !andb_true_iff, !Z.ltb_lt, !Z.eqb_eq.
  intros [?|[? H1]] [?|[? H2]]; [lia..|]. by apply str_leb_antisym.
Qed.

Lemma rendezvous_sorted nodes : StronglySorted (λ a b, hrw_leb weigh userId a b = true) (rendezvousOrder weigh nodes userId).
Proof. apply sort_by_sorted; [apply hrw_total|apply hrw_trans]. Qed.
End RendezvousFacts.

(** How many of these come before one of them, by an order without ties. *)
Definition ahead {A} `{EqDecision A} (leb : A → A → bool) (l : list A) (x : A) : nat :=
  length (filter (λ y, y ≠ x ∧ leb y x = true) l).

Lemma ahead_perm {A} `{EqDecision A} (leb : A → A → bool) (l l' : list A) x : l ≡ₚ l' → ahead leb l x = ahead leb l' x.
Proof. intros H. unfold ahead. by rewrite H. Qed.

Lemma filter_all {A} (P : A → Prop) `{∀ x, Decision (P x)} (l : list A) : (∀ x, x ∈ l → P x) → filter P l = l.
Proof.
  induction l as [|x l IH]; intros H'; [done|]. rewrite filter_cons_True by (apply H'; set_solver).
  f_equal. apply IH. intros y Hy. apply H'. set_solver.
Qed.

(** Among the first [k] of a sorted list: fewer than [k] come before. *)
Lemma first_of_sorted {A} `{EqDecision A} (leb : A → A → bool) (l : list A) k x : NoDup l →
  StronglySorted (λ a b, leb a b = true) l →
  (∀ a b, a ∈ l → b ∈ l → leb a b = true → leb b a = true → a = b) →
  x ∈ l → x ∈ take k l ↔ (ahead leb l x < k)%nat.
Proof.
  intros Hnd Hs Hanti Hx. apply list_elem_of_split in Hx as (l1 & l2 & ->).
  apply NoDup_app in Hnd as (Hnd1 & H1 & Hnd2). apply NoDup_cons in Hnd2 as [Hx2 Hnd2].
  assert (x ∉ l1) as Hx1 by (intros Hx; apply (H1 x Hx); set_solver).
  apply StronglySorted_app in Hs as (Hb & Hs1 & Hs2). inversion Hs2 as [|? ? Hs2' Ha]; subst.
  rewrite Forall_forall in Ha.
  assert (ahead leb (l1 ++ x :: l2) x = length l1) as ->.
  { unfold ahead. rewrite filter_app, filter_cons_False by naive_solver.
    rewrite (filter_all _ l1), (filter_none _ l2); [by rewrite app_nil_r|..].
    - intros y Hy [Hne Hle]. apply Hne, Hanti; [set_solver..|done|by apply Ha].
    - intros y Hy. split; [by intros ->|]. apply Hb; set_solver. }
  split.
  - intros Hin. apply dec_stable. intros Hk. rewrite take_app_le in Hin by lia.
    apply Hx1. rewrite <-(take_drop k l1), elem_of_app. by left.
  - intros Hk. rewrite take_app_ge by lia. apply elem_of_app. right.
    destruct (k - length l1)%nat eqn:E; [lia|]. simpl. by left.
Qed.

(** Where the load of no node is known, the region decides alone. *)
Definition home_first (country : option string) (nodes : list NodeForRanking) : list NodeForRanking :=
  filter (λ n, in_region country n = true) nodes ++ filter (λ n, in_region country n = false) nodes.

Lemma sort_by_two {A} (leb : A → A → bool) (p : A → bool) (l : list A) :
  (∀ a b, a ∈ l → b ∈ l → leb a b = p a || negb (p b)) →
  sort_by leb l = filter (λ x, p x = true) l ++ filter (λ x, p x = false) l.
Proof.
  induction l as [|x l IH]; intros Hleb; [done|]. simpl. rewrite IH by (intros; apply Hleb; set_solver).
  assert (∀ y, y ∈ l → leb x y = p x || negb (p y)) as Hx by (intros; apply Hleb; set_solver).
  destruct (p x) eqn:Ep.
  - rewrite filter_cons_True, (filter_cons_False (λ x, p x = false)) by congruence. simpl.
    destruct (filter _ l ++ _) as [|y ys] eqn:E; [done|]. cbn. rewrite Hx; [done|].
    assert (y ∈ y :: ys) as Hy by set_solver. rewrite <-E in Hy. apply elem_of_app in Hy as [Hy|Hy];
      by apply list_elem_of_filter in Hy as [_ Hy].
  - rewrite filter_cons_False, (filter_cons_True (λ x, p x = false)) by congruence.
    assert (∀ l1 l2, (∀ y, y ∈ l1 → y ∈ l ∧ p y = true) → (∀ y, y ∈ l2 → y ∈ l ∧ p y = false) →
      insert_by leb x (l1 ++ l2) = l1 ++ x :: l2) as H.
    { intros l1 l2 H1 H2. induction l1 as [|y l1 IH1]; cbn.
      - destruct l2 as [|y l2]; cbn; [done|]. destruct (H2 y) as [Hy Hp]; [set_solver|]. by rewrite Hx, Hp.
      - destruct (H1 y) as [Hy Hp]; [set_solver|]. rewrite Hx, Hp by done. f_equal. apply IH1. intros; apply H1; set_solver. }
    apply H; intros y [Hp Hy]%list_elem_of_filter; done.
Qed.

Lemma score_unloaded n country : nr_currentUsers n = None →
  (scoreNode n country == if in_region country n then 150 else 50)%Q.
Proof.
  intros Hn. unfold scoreNode. rewrite Hn. cbn [default from_option id].
  assert (1 - inject_Z 0 / inject_Z (Z.max (default DEFAULT_MAX_USERS (nr_maxUsers n)) 1) == 1)%Q as ->.
  { unfold Qdiv. change (inject_Z 0) with 0%Q. ring. }
  by destruct (in_region country n).
Qed.

Lemma rank_unloaded nodes country limit : (∀ n, n ∈ nodes → nr_currentUsers n = None) →
  rankNodesForUser nodes country limit
  = match limit with
    | Some k => if 0 <? k then take (Z.to_nat k) (home_first country nodes) else home_first country nodes
    | None => home_first country nodes
    end.
Proof.
  intros Hn. unfold rankNodesForUser. assert (sort_by (rank_leb country) nodes = home_first country nodes) as ->; [|done].
  apply sort_by_two. intros a b Ha Hb. unfold rank_leb.
  assert (Qle_bool (scoreNode b country) (scoreNode a country)
    = Qle_bool (if in_region country b then 150 else 50) (if in_region country a then 150 else 50)) as ->.
  { apply eq_true_iff_eq. rewrite !Qle_bool_iff. by rewrite !score_unloaded by auto. }
  by destruct (in_region country a), (in_region country b).
Qed.
