(* ===== verification/UserReach.v ===== *)
(** Where a user may connect
    (apps/panel-backend/src/modules/users/user-reach.ts), what the subscription
    hands out (modules/subscription/subscription.service.ts) and which nodes it
    hides (modules/cascades/cascade.service.ts, [readHiddenCascadeNodes]).

    Two pieces of code answer from the same tables: the push puts a user on the
    bindings of [reachOfUsers]; the subscription finds the bindings a user's
    squads make eligible ([eligibleBindings]), keeps those of the nodes that the
    request's top N and the entry cap leave, and orders them ([servedBindings],
    with [NodeSelection]).  Tables are lists of rows, a row holding what the queries
    select of the rows it refers to; a [Map] is the list of its entries.  The
    answers of [deadCascadeIds] and of the hidden set's query are read from the
    same store. *)

From S2P Require Import Prelude Js NodeSelection.

Local Open Scope string_scope.
Local Open Scope list_scope.
Local Open Scope Z_scope.

(** ** The tables *)
Record ProfileRow := mkProfile { pr_id : string; pr_enabled : bool; pr_protocol : string }.
Record HostRow := mkHost { h_id : string; h_enabled : bool }.
Record ReachNode := mkReachNode {
  n_id : string;
  n_deleted : bool;
  n_status : string;
  n_lastStatusChange : option Z;
  n_createdAt : Z;
  n_region : option string;
  n_maxUsers : option Z
}.
Record BindingRow := mkBinding {
  b_id : string;
  b_enabled : bool;
  b_port : Z;
  b_node : ReachNode;
  b_profile : ProfileRow;
  b_hosts : list HostRow
}.

(** A node of a pool, with what names a way out. *)
Record PoolNode := mkPoolNode { pn_id : string; pn_name : string; pn_country : option string }.
Record PositionRow := mkPositionRow { ps_position : Z; ps_entryProtocol : option string; ps_nodes : list string }.
Record WayOut := mkWayOut {
  w_id : string;
  w_tag : Z;
  w_country : option string;
  w_nodes : list PoolNode;
  w_outbound : option (string * option string)   (* name, countryCode *)
}.
Record CascadeRow := mkCascadeRow {
  k_id : string;
  k_name : string;
  k_enabled : bool;
  k_balancer : bool;
  k_autoProfile : bool;
  k_hideHops : bool;
  k_hops : list (Z * PoolNode);
  k_positions : list PositionRow;
  k_directions : list WayOut
}.

Record ExitRow := mkExitRow { x_group : string; x_cascade : string; x_direction : option string; x_node : option string }.
Record MemberRow := mkMember { m_user : string; m_group : string; m_active : bool }.
Record RoutePolicyRef := mkPolicyRef { rp_ordinal : Z; rp_name : string }.

Record Db := mkDb {
  members : list MemberRow;
  groupProfile : list (string * string);         (* groupId, profileId *)
  groupHost : list (string * string);            (* groupId, hostId *)
  bindings : list BindingRow;
  cascades : list CascadeRow;
  deadIds : list string;
  groupCascadeOff : list (string * string);      (* groupId, cascadeId *)
  groupCascadeExit : list ExitRow;
  groupRoutePolicy : list (string * RoutePolicyRef)
}.

#[global] Instance HostRow_eq_dec : EqDecision HostRow.
Proof. solve_decision. Defined.
#[global] Instance ReachNode_eq_dec : EqDecision ReachNode.
Proof. solve_decision. Defined.
#[global] Instance ProfileRow_eq_dec : EqDecision ProfileRow.
Proof. solve_decision. Defined.
#[global] Instance BindingRow_eq_dec : EqDecision BindingRow.
Proof. solve_decision. Defined.

(** ** The push's side *)
Section Reach.
Context (db : Db).

Definition live_cascade (c : CascadeRow) : bool :=
  k_enabled c && negb (bool_decide (k_id c ∈ deadIds db)).

Definition entries_of (c : CascadeRow) : list PositionRow := filter (λ p, ps_position p = 0) (k_positions c).

Definition chained_entry (p : PositionRow) : bool :=
  (ps_position p =? 0) && bool_decide (ps_entryProtocol p ∈ [Some "hysteria"; Some "amneziawg"]).

Definition find_row (id : string) : option CascadeRow := js_find (λ c, bool_decide (k_id c = id)) (cascades db).

(** The rows of [entriesSwitchedOff], each with the entry positions of its
    cascade. *)
Definition off_rows (groupIds : list string) : list (string * list PositionRow) :=
  omap (λ r, if negb (bool_decide (r.1 ∈ groupIds)) then None else
             match find_row r.2 with
             | Some c => if live_cascade c && existsb chained_entry (k_positions c) then Some (r.1, entries_of c) else None
             | None => None
             end) (groupCascadeOff db).

(** [`${nodeId}|${protocol}`]. *)
Definition inbound_key (nodeId : string) (protocol : option string) : string :=
  nodeId +:+ "|" +:+ default "null" protocol.

Definition switched_keys (ps : list PositionRow) : list string :=
  ps ≫= λ p, (λ n, inbound_key n (ps_entryProtocol p)) <$> ps_nodes p.

Definition entriesSwitchedOff (groupIds : list string) : list (string * list string) :=
  foldl (group_add fst (λ _, []) (λ keys r, foldl (λ s k, set_add k s) keys (switched_keys r.2)))
        [] (off_rows groupIds).

Definition is_off (off : list (string * list string)) (g key : string) : bool :=
  match jm_get g off with Some keys => bool_decide (key ∈ keys) | None => false end.

Definition grants (g profileId : string) : bool := bool_decide ((g, profileId) ∈ groupProfile db).

Definition enabled_hosts (b : BindingRow) : list HostRow := filter (λ h, h_enabled h = true) (b_hosts b).

Definition binding_live (b : BindingRow) : bool :=
  b_enabled b && pr_enabled (b_profile b) &&
  negb (n_deleted (b_node b)) && negb (bool_decide (n_status (b_node b) = "disabled")).

Definition reach_bindings (groupIds : list string) (nodeId : option string) : list BindingRow :=
  filter (λ b, binding_live b && existsb (λ g, grants g (pr_id (b_profile b))) groupIds &&
               match nodeId with Some n => bool_decide (n_id (b_node b) = n) | None => true end = true) (bindings db).

(** The ids a relation lists for a squad; [None] is a squad with no row. *)
Definition ids_of (rows : list (string * string)) (groupIds : list string) : list (string * list string) :=
  foldl (group_add fst (λ _, []) (λ s r, set_add r.2 s)) [] (filter (λ r, r.1 ∈ groupIds) rows).

Definition reached_by (profiles : list string) (narrowed : option (list string)) (off : list (string * list string))
    (g : string) (b : BindingRow) : bool :=
  bool_decide (pr_id (b_profile b) ∈ profiles) && bool_decide (enabled_hosts b ≠ []) &&
  match narrowed with Some hs => existsb (λ h, bool_decide (h_id h ∈ hs)) (enabled_hosts b) | None => true end &&
  negb (is_off off g (inbound_key (n_id (b_node b)) (Some (pr_protocol (b_profile b))))).

(** A squad's entry: the binding ids it reaches, with their nodes. *)
Definition squad_bindings (groupIds : list string) (nodeId : option string) (g : string) : option (list (string * string)) :=
  (λ profiles, (λ b, (b_id b, n_id (b_node b))) <$>
     filter (λ b, reached_by profiles (jm_get g (ids_of (groupHost db) groupIds)) (entriesSwitchedOff groupIds) g b = true)
            (reach_bindings groupIds nodeId)) <$> jm_get g (ids_of (groupProfile db) groupIds).

Definition bindingsReachedBySquads (groupIds : list string) (nodeId : option string)
    : list (string * list (string * string)) :=
  if decide (groupIds = []) then [] else
  foldl (λ m g, match squad_bindings groupIds nodeId g with None => m | Some v => jm_set g v m end) [] groupIds.

(** [userIds] [None] is every active user. *)
Definition memberships (userIds : option (list string)) : list MemberRow :=
  filter (λ m, match userIds with None => m_active m | Some us => bool_decide (m_user m ∈ us) end = true) (members db).

Definition place_binding (userId : string) (out : list (string * list (string * list string))) (b : string * string) :=
  let byNode := default [] (jm_get userId out) in
  jm_set userId (jm_set b.2 (set_add b.1 (default [] (jm_get b.2 byNode))) byNode) out.

Definition reachOfUsers (userIds : option (list string)) (nodeId : option string)
    : list (string * list (string * list string)) :=
  if bool_decide (userIds = Some []) then [] else
  let ms := memberships userIds in
  let reachedBy := bindingsReachedBySquads (js_uniq (m_group <$> ms)) nodeId in
  let out := foldl (λ out m, foldl (place_binding (m_user m)) out (default [] (jm_get (m_group m) reachedBy))) [] ms in
  (λ u : string * list (string * list string),
     (u.1, (λ n : string * list string, (n.1, sort_by str_leb n.2)) <$> u.2)) <$> out.
End Reach.

(** ** The subscription's side *)
Section Served.
Context (db : Db).

Definition UNREACHABLE_GRACE_MS : Z := 90000.

(** The query's liveness of a node. *)
Definition node_served (now : Z) (n : ReachNode) : bool :=
  negb (n_deleted n) && negb (bool_decide (n_status n = "disabled")) &&
  (negb (bool_decide (n_status n = "unreachable")) ||
   match n_lastStatusChange n with None => true | Some t => now - UNREACHABLE_GRACE_MS <? t end).

Definition set_hosts (b : BindingRow) (hs : list HostRow) : BindingRow :=
  mkBinding (b_id b) (b_enabled b) (b_port b) (b_node b) (b_profile b) hs.

(** What the query loads for a set of squads; its hosts are the enabled ones. *)
Definition load_bindings (groupIds : list string) (now : Z) : list BindingRow :=
  if decide (groupIds = []) then [] else
  (λ b, set_hosts b (enabled_hosts b)) <$>
    filter (λ b, b_enabled b && pr_enabled (b_profile b) &&
                 existsb (λ g, grants db g (pr_id (b_profile b))) groupIds && node_served now (b_node b) = true) (bindings db).

Definition names_host (g : string) (h : HostRow) : bool := bool_decide ((g, h_id h) ∈ groupHost db).

Definition narrowedSquads (groupIds : list string) : list string :=
  js_uniq (fst <$> filter (λ r, r.1 ∈ groupIds) (groupHost db)).

(** The host narrowing. *)
Definition narrow_hosts (groupIds : list string) (bs : list BindingRow) : list BindingRow :=
  let narrowed := narrowedSquads groupIds in
  if bool_decide (narrowed = []) || existsb (λ g, negb (bool_decide (g ∈ narrowed))) groupIds then bs
  else (λ b, set_hosts b (filter (λ h, existsb (λ g, names_host g h) groupIds = true) (b_hosts b))) <$> bs.

Definition hands_host (narrowed : list string) (g : string) (b : BindingRow) : bool :=
  negb (bool_decide (g ∈ narrowed)) || existsb (names_host g) (b_hosts b).

(** The entries switched off. *)
Definition keep_on (groupIds : list string) (bs : list BindingRow) : list BindingRow :=
  let narrowed := narrowedSquads groupIds in
  let switchedOff := entriesSwitchedOff db groupIds in
  filter (λ b, let key := inbound_key (n_id (b_node b)) (Some (pr_protocol (b_profile b))) in
               negb (existsb (λ ks, bool_decide (key ∈ ks.2)) switchedOff) ||
               existsb (λ g, negb (is_off switchedOff g key) && grants db g (pr_id (b_profile b)) && hands_host narrowed g b)
                       groupIds = true) bs.

Definition created_leb (a b : BindingRow) : bool :=
  (n_createdAt (b_node a) <? n_createdAt (b_node b)) ||
  ((n_createdAt (b_node a) =? n_createdAt (b_node b)) && (b_port a <=? b_port b)).

(** ** The hidden hops ([readHiddenCascadeNodes], without its cache) *)

(** A cascade that hides its hops. *)
Definition hiding (c : CascadeRow) : bool := live_cascade db c && k_hideHops c.

Definition hide (nonEntry : list (string * (string * string))) (nc : string * CascadeRow) :=
  let '(nodeId, c) := nc in
  match jm_get nodeId nonEntry with
  | Some seen => if str_ltb (k_name c) seen.2 then jm_set nodeId (k_id c, k_name c) nonEntry else nonEntry
  | None => jm_set nodeId (k_id c, k_name c) nonEntry
  end.

Definition pool_members (at_entry : bool) : list (string * CascadeRow) :=
  filter (λ c, hiding c = true) (cascades db) ≫= λ c,
    filter (λ p, bool_decide (ps_position p = 0) = at_entry) (k_positions c) ≫= λ p, (λ n, (n, c)) <$> ps_nodes p.

Definition direction_members : list (string * CascadeRow) :=
  filter (λ c, hiding c = true) (cascades db) ≫= λ c, k_directions c ≫= λ d, (λ n, (pn_id n, c)) <$> w_nodes d.

Definition hop_members (at_entry : bool) : list (string * CascadeRow) :=
  filter (λ c, hiding c = true) (cascades db) ≫= λ c,
    (λ h : Z * PoolNode, (pn_id h.2, c)) <$> filter (λ h : Z * PoolNode, bool_decide (h.1 = 0) = at_entry) (k_hops c).

Definition hidden_nodes : list (string * (string * string)) :=
  let entry := fst <$> (pool_members true ++ hop_members true) in
  let nonEntry := foldl hide [] (pool_members false ++ direction_members ++ hop_members false) in
  filter (λ kv, kv.1 ∉ entry) nonEntry.

Definition getHiddenCascadeNodeIds : list string := jm_keys hidden_nodes.

Definition drop_hidden (bs : list BindingRow) : list BindingRow :=
  filter (λ b, n_id (b_node b) ∉ getHiddenCascadeNodeIds) bs.

(** The bindings the squads make eligible, in order. *)
Definition eligibleBindings (groupIds : list string) (now : Z) : list BindingRow :=
  drop_hidden (sort_by created_leb (keep_on groupIds (narrow_hosts groupIds (load_bindings groupIds now)))).

(** Which squads hand out each node. *)
Definition entry_reach_step (groupIds : list string) (m : list (string * list string)) (b : BindingRow) :=
  let id := n_id (b_node b) in
  jm_set id (foldl (λ s g, if hands_host (narrowedSquads groupIds) g b then set_add g s else s)
               (default [] (jm_get id m)) groupIds) m.

Definition entryReach (groupIds : list string) (bs : list BindingRow) : list (string * list string) :=
  foldl (entry_reach_step groupIds) [] bs.
End Served.

(** ** The two limits *)

(** A request for a subscription: its query, the address it came from with the
    country the edge saw and what Redis holds for the address, and the setting
    of the entry cap. *)
Record SubRequest := mkSubRequest {
  q_now : Z;
  q_topN : option Z;
  q_ip : option string;
  q_cfCountry : option string;
  q_geoip : option string;
  q_entryPoolSize : option Z
}.

Section Limits.
Context (weigh : Z → Z → Z) (q : SubRequest).

(** [typeof ctx.topN === 'number' && ctx.topN > 0 && ctx.ip]. *)
Definition top_of : option Z :=
  match q_topN q with Some k => if (0 <? k) && truthy (q_ip q) then Some k else None | None => None end.

Definition client_country : option string := lookupClientCountry (q_geoip q) (q_cfCountry q).

Definition rank_nodes (bs : list BindingRow) : list NodeForRanking :=
  foldl (λ seen b, let n := b_node b in
           if existsb (λ m, bool_decide (nr_id m = n_id n)) seen then seen
           else seen ++ [mkRanking (n_id n) (n_region n) None None]) [] bs.

Definition keep_top (bs : list BindingRow) : list BindingRow :=
  match top_of with
  | Some k => if bool_decide (bs = []) then bs else
      let keep := nr_id <$> rankNodesForUser (rank_nodes bs) client_country (Some k) in
      filter (λ b, n_id (b_node b) ∈ keep) bs
  | None => bs
  end.

Definition ENTRY_POOL_SIZE_DEFAULT : Z := 0.
Definition pool_size : Z := default ENTRY_POOL_SIZE_DEFAULT (q_entryPoolSize q).

Definition byProfile (bs : list BindingRow) : list (string * list BindingRow) :=
  foldl (group_add (λ b, pr_id (b_profile b)) (λ _, []) (λ l b, l ++ [b])) [] bs.

(** [new Map(list.map((b) => [b.node.id, b.node]))], with the capacities. *)
Definition pool_nodes (l : list BindingRow) : list (string * option Z) :=
  foldl (λ m b, jm_set (n_id (b_node b)) (n_maxUsers (b_node b)) m) [] l.

Definition ranked_pool (u : string) (l : list BindingRow) : list (string * option Z) :=
  let ranked := rendezvousOrder weigh (pool_nodes l) u in
  if 0 <? pool_size then take (Z.to_nat pool_size) ranked else ranked.

Definition rank_at (ids : list string) (id : string) : nat := default O (fst <$> list_find (λ x, x = id) ids).

Definition order_profile (u : string) (l : list BindingRow) : list BindingRow :=
  let ids := fst <$> ranked_pool u l in
  sort_by (λ a b, (rank_at ids (n_id (b_node a)) <=? rank_at ids (n_id (b_node b)))%nat)
          (filter (λ b, n_id (b_node b) ∈ ids) l).

Definition order_entries (u : string) (bs : list BindingRow) : list BindingRow :=
  byProfile bs ≫= λ kl, order_profile u kl.2.

(** The bindings a user of these squads is served. *)
Definition servedBindings (db : Db) (u : string) (groupIds : list string) : list BindingRow :=
  order_entries u (keep_top (eligibleBindings db groupIds (q_now q))).
End Limits.

(** ** Lemmas: grouped sets *)

(** What a grouping of sets of keys holds, where [f] is what a row adds. *)
Lemma group_fold_lookup {X} (key : X → string) (op : list string → X → list string) (f : X → list string) xs g k :
  (∀ s r, k ∈ op s r ↔ k ∈ s ∨ k ∈ f r) →
  k ∈ default [] (jm_get g (foldl (group_add key (λ _, []) op) [] xs)) ↔ ∃ r, r ∈ xs ∧ key r = g ∧ k ∈ f r.
Proof.
  intros Hop. rewrite jm_get_group.
  assert (∀ l s, k ∈ foldl op s l ↔ k ∈ s ∨ ∃ r, r ∈ l ∧ k ∈ f r) as Hf.
  { intros l. induction l as [|r l IH]; intros s; simpl; [set_solver|]. rewrite IH, Hop. set_solver. }
  assert (∀ l, k ∈ default [] (group_value (λ _, []) op l) ↔ ∃ r, r ∈ l ∧ k ∈ f r) as ->.
  { intros [|r l]; [set_solver|]. unfold group_value. cbv [default from_option id].
    rewrite (Hf (r :: l)). set_solver. }
  setoid_rewrite list_elem_of_filter. naive_solver.
Qed.

Lemma elem_of_set_adds (ks s : list string) k : k ∈ foldl (λ s k, set_add k s) s ks ↔ k ∈ s ∨ k ∈ ks.
Proof.
  revert s. induction ks as [|k' ks IH]; intros s; simpl; [set_solver|]. rewrite IH, elem_of_set_add. set_solver.
Qed.

Lemma group_sets {X} (key : X → string) (f : X → list string) xs g k :
  k ∈ default [] (jm_get g (foldl (group_add key (λ _, []) (λ s r, foldl (λ s k, set_add k s) s (f r))) [] xs))
  ↔ ∃ r, r ∈ xs ∧ key r = g ∧ k ∈ f r.
Proof. apply group_fold_lookup. intros s r. apply elem_of_set_adds. Qed.

Lemma group_sets_None {X} (key : X → string) (op : list string → X → list string) xs g :
  jm_get g (foldl (group_add key (λ _, []) op) [] xs) = None ↔ ∀ r, r ∈ xs → key r ≠ g.
Proof.
  rewrite jm_get_group. unfold group_value. destruct (filter _ xs) as [|r l] eqn:E.
  - split; [|done]. intros _ r Hr Hk. assert (r ∈ filter (λ x, key x = g) xs) as Hin by (by apply list_elem_of_filter).
    rewrite E in Hin. by apply not_elem_of_nil in Hin.
  - split; [done|]. intros H. assert (r ∈ filter (λ x, key x = g) xs) as Hin by (rewrite E; set_solver).
    apply list_elem_of_filter in Hin as [Hk Hin]. by destruct (H r Hin).
Qed.

Lemma group_sets_Some {X} (key : X → string) (op : list string → X → list string) xs g s :
  jm_get g (foldl (group_add key (λ _, []) op) [] xs) = Some s → ∃ r, r ∈ xs ∧ key r = g.
Proof.
  rewrite jm_get_group. unfold group_value. destruct (filter _ xs) as [|r l] eqn:E; [done|]. intros _.
  assert (r ∈ filter (λ x, key x = g) xs) as Hin by (rewrite E; set_solver).
  apply list_elem_of_filter in Hin as [? ?]. eauto.
Qed.

(** A map built squad by squad. *)
Lemma reached_map {V} (step : string → option V) gs m g : 
  jm_get g (foldl (λ m g, match step g with None => m | Some v => jm_set g v m end) m gs)
  = if decide (g ∈ gs) then (match step g with Some v => Some v | None => jm_get g m end) else jm_get g m.
Proof.
  revert m. induction gs as [|g' gs IH]; intros m; simpl; [done|]. rewrite IH.
  destruct (decide (g = g')) as [->|Hne].
  - rewrite (decide_True (P := g' ∈ g' :: gs)) by set_solver. destruct (step g') as [v|]; [|by destruct (decide _)].
    rewrite jm_get_set_eq. by destruct (decide _).
  - rewrite (decide_ext (g ∈ g' :: gs) (g ∈ gs)) by set_solver.
    assert (jm_get g (match step g' with None => m | Some v => jm_set g' v m end) = jm_get g m) as ->; [|done].
    destruct (step g'); [|done]. by apply jm_get_set_ne.
Qed.

Section Lemmas.
Context (db : Db).

Lemma off_rows_elem gs g ps : (g, ps) ∈ off_rows db gs ↔ g ∈ gs ∧ ∃ id c, (g, id) ∈ groupCascadeOff db ∧
  find_row db id = Some c ∧ live_cascade db c = true ∧ existsb chained_entry (k_positions c) = true ∧ ps = entries_of c.
Proof.
  unfold off_rows. rewrite list_elem_of_omap. split.
  - intros ([g' id] & Hin & H). simpl in H. case_bool_decide; simpl in H; [|done].
    destruct (find_row db id) as [c|] eqn:Ec; [|done]. destruct (_ && _) eqn:Eb; [|done]. injection H as <- <-.
    bool_prop. naive_solver.
  - intros (Hg & id & c & Hin & Hf & Hl & He & ->). exists (g, id). split; [done|]. simpl.
    rewrite bool_decide_true, Hf, Hl, He by done. done.
Qed.

(** The squad switched off a cascade entered through this inbound. *)
Definition switched (g key : string) : Prop := ∃ id c, (g, id) ∈ groupCascadeOff db ∧
  find_row db id = Some c ∧ live_cascade db c = true ∧ existsb chained_entry (k_positions c) = true ∧
  key ∈ switched_keys (entries_of c).

Lemma is_off_switched gs g key : g ∈ gs → is_off (entriesSwitchedOff db gs) g key = true ↔ switched g key.
Proof.
  intros Hg. assert (is_off (entriesSwitchedOff db gs) g key = true
    ↔ key ∈ default [] (jm_get g (entriesSwitchedOff db gs))) as ->.
  { unfold is_off. destruct (jm_get g _); simpl; [by rewrite bool_decide_eq_true|].
    split; [done|]. by intros ?%not_elem_of_nil. }
  unfold entriesSwitchedOff. rewrite (group_sets fst (λ r, switched_keys r.2)). split.
  - intros ([g' ps] & Hin & Hk & Hkey). simpl in Hk. subst g'. apply off_rows_elem in Hin as (_ & id & c & ? & ? & ? & ? & ->).
    by exists id, c.
  - intros (id & c & ? & ? & ? & ? & ?). exists (g, entries_of c). split; [|done]. apply off_rows_elem. naive_solver.
Qed.

Lemma is_off_foreign gs g key : g ∉ gs → is_off (entriesSwitchedOff db gs) g key = false.
Proof.
  intros Hg. unfold is_off, entriesSwitchedOff.
  rewrite (proj2 (group_sets_None fst _ (off_rows db gs) g)); [done|].
  intros [g' ps] Hin <-. by apply off_rows_elem in Hin as [? _].
Qed.

Lemma ids_of_elem rows gs g i : g ∈ gs → i ∈ default [] (jm_get g (ids_of rows gs)) ↔ (g, i) ∈ rows.
Proof.
  intros Hg. unfold ids_of. rewrite (group_sets fst (λ r, [r.2])). setoid_rewrite list_elem_of_filter.
  setoid_rewrite list_elem_of_singleton. split; [|by exists (g, i)].
  intros ([g' i'] & [_ Hin] & <- & ->). done.
Qed.

Lemma ids_of_None rows gs g : g ∈ gs → jm_get g (ids_of rows gs) = None ↔ g ∉ rows.*1.
Proof.
  intros Hg. unfold ids_of. rewrite group_sets_None. setoid_rewrite list_elem_of_filter.
  rewrite list_elem_of_fmap. naive_solver.
Qed.

(** ** One squad and one binding *)
Definition narrowed (g : string) : Prop := g ∈ (groupHost db).*1.

#[global] Instance narrowed_dec g : Decision (narrowed g).
Proof. unfold narrowed. apply _. Defined.

Definition key_of (b : BindingRow) : string := inbound_key (n_id (b_node b)) (Some (pr_protocol (b_profile b))).

Definition reaches (g : string) (b : BindingRow) : Prop :=
  binding_live b = true ∧ grants db g (pr_id (b_profile b)) = true ∧
  (∃ h, h ∈ enabled_hosts b ∧ (narrowed g → names_host db g h = true)) ∧ ¬ switched g (key_of b).

Lemma reached_by_spec gs g b profiles : g ∈ gs → jm_get g (ids_of (groupProfile db) gs) = Some profiles →
  reached_by profiles (jm_get g (ids_of (groupHost db) gs)) (entriesSwitchedOff db gs) g b = true ↔
  grants db g (pr_id (b_profile b)) = true ∧
  (∃ h, h ∈ enabled_hosts b ∧ (narrowed g → names_host db g h = true)) ∧ ¬ switched g (key_of b).
Proof.
  intros Hg Hp. unfold reached_by. rewrite !andb_true_iff, bool_decide_eq_true, negb_true_iff, bool_decide_eq_true.
  rewrite <-not_true_iff_false, is_off_switched by done.
  assert (pr_id (b_profile b) ∈ profiles ↔ grants db g (pr_id (b_profile b)) = true) as ->.
  { pose proof (ids_of_elem (groupProfile db) gs g (pr_id (b_profile b)) Hg) as H. rewrite Hp in H. simpl in H.
    unfold grants. by rewrite bool_decide_eq_true. }
  assert ((enabled_hosts b ≠ [] ∧
    match jm_get g (ids_of (groupHost db) gs) with
    | Some hs => existsb (λ h, bool_decide (h_id h ∈ hs)) (enabled_hosts b) | None => true end = true)
    ↔ ∃ h, h ∈ enabled_hosts b ∧ (narrowed g → names_host db g h = true)) as Hh; [|unfold key_of; tauto].
  destruct (jm_get g (ids_of (groupHost db) gs)) as [hs|] eqn:Eh.
  - assert (narrowed g) as Hn by (apply dec_stable; intros Hn; by apply (ids_of_None (groupHost db) gs g Hg) in Hn; rewrite Hn in Eh).
    assert (∀ h, h_id h ∈ hs ↔ names_host db g h = true) as Hnames.
    { intros h. unfold names_host. rewrite bool_decide_eq_true, <-(ids_of_elem _ gs) by done. by rewrite Eh. }
    rewrite existsb_exists. split.
    + intros [_ (h & Hin & Hh)]. apply bool_decide_eq_true, Hnames in Hh. apply list_elem_of_In in Hin. eauto.
    + intros (h & Hin & Hh). split; [intros E; rewrite E in Hin; by apply not_elem_of_nil in Hin|].
      exists h. split; [by apply list_elem_of_In|]. by apply bool_decide_eq_true, Hnames, Hh.
  - apply ids_of_None in Eh; [|done]. split.
    + intros [Hne _]. destruct (enabled_hosts b) as [|h hs']; [done|]. exists h. split; [set_solver|done].
    + intros (h & Hin & _). split; [|done]. intros E. rewrite E in Hin. by apply not_elem_of_nil in Hin.
Qed.

Definition on_node (nodeId : option string) (n : string) : Prop :=
  match nodeId with Some m => n = m | None => True end.

Lemma squads_reach gs nodeId g i n : g ∈ gs →
  (i, n) ∈ default [] (jm_get g (bindingsReachedBySquads db gs nodeId)) ↔
  ∃ b, b ∈ bindings db ∧ b_id b = i ∧ n_id (b_node b) = n ∧ on_node nodeId n ∧ reaches g b.
Proof.
  intros Hg. unfold bindingsReachedBySquads. rewrite decide_False by (intros ->; by apply not_elem_of_nil in Hg).
  rewrite reached_map, decide_True by done. unfold squad_bindings.
  destruct (jm_get g (ids_of (groupProfile db) gs)) as [profiles|] eqn:Ep; simpl.
  - rewrite list_elem_of_fmap. split.
    + intros (b & [= -> ->] & [Hr Hb]%list_elem_of_filter).
      apply list_elem_of_filter in Hb as [Hb Hin]. bool_prop. apply (reached_by_spec gs g b profiles) in Hr; [|done..].
      exists b. do 3 (split; [done|]). split; [|by split]. destruct nodeId as [m|]; simpl; [|done]. by bool_prop.
    + intros (b & Hin & <- & <- & Hn & Hl & Hr). exists b. split; [done|]. apply list_elem_of_filter. split; [by apply (reached_by_spec gs g b profiles)|].
      apply list_elem_of_filter. split; [|done]. destruct Hr as [Hgr _]. rewrite Hl. simpl. apply andb_true_iff. split.
      * apply existsb_exists. exists g. split; [by apply list_elem_of_In|done].
      * destruct nodeId as [m|]; [|done]. simpl in Hn. subst m. by apply bool_decide_eq_true.
  - split; [by intros ?%not_elem_of_nil|]. intros (b & _ & _ & _ & _ & _ & Hgr & _).
    apply (ids_of_None (groupProfile db) gs g Hg) in Ep. exfalso. apply Ep.
    unfold grants in Hgr. bool_prop. apply list_elem_of_fmap. eexists (g, _). by split.
Qed.

(** ** Placing users *)
Lemma place_spec u out b u' n i :
  i ∈ default [] (jm_get n (default [] (jm_get u' (place_binding u out b)))) ↔
  i ∈ default [] (jm_get n (default [] (jm_get u' out))) ∨ (u' = u ∧ n = b.2 ∧ i = b.1).
Proof.
  unfold place_binding. rewrite jm_get_set. destruct (decide (u' = u)) as [->|]; [|naive_solver].
  simpl. rewrite jm_get_set. destruct (decide (n = b.2)) as [->|]; [|naive_solver].
  simpl. rewrite elem_of_set_add. naive_solver.
Qed.

Lemma place_all u bs out u' n i :
  i ∈ default [] (jm_get n (default [] (jm_get u' (foldl (place_binding u) out bs)))) ↔
  i ∈ default [] (jm_get n (default [] (jm_get u' out))) ∨ (u' = u ∧ (i, n) ∈ bs).
Proof.
  revert out. induction bs as [|[j m] bs IH]; intros out; simpl; [set_solver|].
  rewrite IH, place_spec, elem_of_cons. naive_solver.
Qed.

Lemma place_members (rb : string → list (string * string)) ms out u n i :
  i ∈ default [] (jm_get n (default [] (jm_get u (foldl (λ out m, foldl (place_binding (m_user m)) out (rb (m_group m))) out ms))))
  ↔ i ∈ default [] (jm_get n (default [] (jm_get u out))) ∨ ∃ m, m ∈ ms ∧ m_user m = u ∧ (i, n) ∈ rb (m_group m).
Proof.
  revert out. induction ms as [|m ms IH]; intros out; simpl; [set_solver|].
  rewrite IH, place_all. setoid_rewrite elem_of_cons. naive_solver.
Qed.

Lemma user_reach us nodeId u n i :
  i ∈ default [] (jm_get n (default [] (jm_get u (reachOfUsers db us nodeId)))) ↔
  ∃ m b, m ∈ memberships db us ∧ m_user m = u ∧ b ∈ bindings db ∧ b_id b = i ∧ n_id (b_node b) = n ∧
    on_node nodeId n ∧ reaches (m_group m) b.
Proof.
  unfold reachOfUsers. case_bool_decide as Hus.
  { subst us. split; [by intros ?%not_elem_of_nil|]. intros (m & b & Hm & _).
    apply list_elem_of_filter in Hm as [Hm _]. bool_prop. by apply not_elem_of_nil in Hm. }
  cbv zeta. set (rb := bindingsReachedBySquads db _ nodeId).
  rewrite jm_get_map.
  assert (∀ (o : option (list (string * list string))),
    i ∈ default [] (jm_get n (default [] ((λ v, (λ p : string * list string, (p.1, sort_by str_leb p.2)) <$> v) <$> o)))
    ↔ i ∈ default [] (jm_get n (default [] o))) as ->.
  { intros [v|]; simpl; [|done]. rewrite jm_get_map. destruct (jm_get n v); simpl; [|done]. apply elem_of_sort_by. }
  rewrite (place_members (λ g, default [] (jm_get g rb))). simpl. split.
  - intros [?%not_elem_of_nil|(m & Hm & Hu & Hi)]; [done|].
    apply squads_reach in Hi as (b & ? & ? & ? & ? & ?); [by exists m, b|]. apply elem_of_js_uniq. set_solver.
  - intros (m & b & Hm & Hu & Hb & Hi & Hn & Ho & Hr). right. exists m. split; [done|]. split; [done|].
    apply squads_reach; [apply elem_of_js_uniq; set_solver|]. by exists b.
Qed.
End Lemmas.

(** ** What is served *)
Section ServedFacts.
Context (db : Db) (gs : list string).

Lemma narrowedSquads_elem g : g ∈ gs → g ∈ narrowedSquads db gs ↔ narrowed db g.
Proof.
  intros Hg. unfold narrowedSquads, narrowed. rewrite elem_of_js_uniq, !list_elem_of_fmap.
  setoid_rewrite list_elem_of_filter. naive_solver.
Qed.

(** Every squad is narrowed, and there is one. *)
Definition all_narrowed : Prop := narrowedSquads db gs ≠ [] ∧ ∀ g, g ∈ gs → g ∈ narrowedSquads db gs.

#[local] Instance all_narrowed_dec : Decision all_narrowed.
Proof.
  refine (cast_if (decide (narrowedSquads db gs ≠ [] ∧ Forall (λ g, g ∈ narrowedSquads db gs) gs)));
    unfold all_narrowed; by rewrite <-Forall_forall.
Defined.

Definition narrow_one (b : BindingRow) : BindingRow :=
  if decide all_narrowed
  then set_hosts b (filter (λ h, existsb (λ g, names_host db g h) gs = true) (b_hosts b)) else b.

Lemma narrow_hosts_map bs : narrow_hosts db gs bs = narrow_one <$> bs.
Proof.
  unfold narrow_hosts, narrow_one. destruct (_ || _) eqn:E; case_decide as Hn; [..|done|].
  - exfalso. destruct Hn as [Hne Hn]. apply orb_true_iff in E as [E|E]; [by bool_prop|].
    apply existsb_exists in E as (g & Hin & Hg). bool_prop. by apply Hg, Hn, list_elem_of_In.
  - symmetry. apply list_fmap_id.
  - exfalso. apply Hn. bool_prop. split; [done|]. intros g Hg. apply dec_stable. intros Hno.
    assert (existsb (λ g, negb (bool_decide (g ∈ narrowedSquads db gs))) gs = true) as Hex; [|congruence].
    apply existsb_exists. exists g. split; [by apply list_elem_of_In|]. by rewrite bool_decide_false.
Qed.

Lemma narrow_one_fields b :
  b_id (narrow_one b) = b_id b ∧ b_node (narrow_one b) = b_node b ∧ b_profile (narrow_one b) = b_profile b.
Proof. unfold narrow_one. by case_decide. Qed.

Lemma narrow_one_hosts b h : h ∈ b_hosts (narrow_one b) → h ∈ b_hosts b.
Proof. unfold narrow_one. case_decide; [|done]. by intros [_ ?]%list_elem_of_filter. Qed.

(** A host one squad reaches stays. *)
Lemma narrow_one_keeps b g h : g ∈ gs → h ∈ b_hosts b → (narrowed db g → names_host db g h = true) →
  h ∈ b_hosts (narrow_one b).
Proof.
  intros Hg Hh Hn. unfold narrow_one. case_decide as Hall; [|done]. apply list_elem_of_filter. split; [|done].
  apply existsb_exists. exists g. split; [by apply list_elem_of_In|]. apply Hn.
  apply narrowedSquads_elem; [done|]. by apply Hall.
Qed.

Definition served_row (now : Z) (b : BindingRow) : Prop :=
  b ∈ bindings db ∧ binding_live b = true ∧ node_served now (b_node b) = true ∧
  ∃ g, g ∈ gs ∧ grants db g (pr_id (b_profile b)) = true.

Lemma node_served_live now n : node_served now n = true →
  negb (n_deleted n) = true ∧ negb (bool_decide (n_status n = "disabled")) = true.
Proof. unfold node_served. intros. bool_prop. split; [by apply negb_true_iff|]. by rewrite bool_decide_false. Qed.

Lemma load_elem now b' : b' ∈ load_bindings db gs now ↔
  ∃ b, served_row now b ∧ b' = set_hosts b (enabled_hosts b).
Proof.
  unfold load_bindings. case_decide as Hgs.
  { split; [by intros ?%not_elem_of_nil|]. intros (b & (_ & _ & _ & g & Hg & _) & _). rewrite Hgs in Hg.
    by apply not_elem_of_nil in Hg. }
  rewrite list_elem_of_fmap. unfold served_row. split.
  - intros (b & -> & [Hb Hin]%list_elem_of_filter). apply andb_true_iff in Hb as [Hb Hs]. apply andb_true_iff in Hb as [Hb Hg].
    exists b. split; [|done]. split; [done|]. split; [|split; [done|]].
    + unfold binding_live. destruct (node_served_live _ _ Hs) as [-> ->]. by rewrite Hb.
    + apply existsb_exists in Hg as (g & Hg & ?). exists g. by split; [apply list_elem_of_In|].
  - intros (b & (Hin & Hl & Hs & g & Hg & Hgr) & ->). exists b. split; [done|]. apply list_elem_of_filter. split; [|done].
    unfold binding_live in Hl. apply andb_true_iff in Hl as [Hl _]. apply andb_true_iff in Hl as [Hl _].
    rewrite Hl, Hs, andb_true_r. apply existsb_exists. exists g. by split; [apply list_elem_of_In|].
Qed.

(** The binding as it is served. *)
Definition shown (b : BindingRow) : BindingRow := narrow_one (set_hosts b (enabled_hosts b)).

Lemma eligible_elem now b' : b' ∈ eligibleBindings db gs now ↔
  n_id (b_node b') ∉ getHiddenCascadeNodeIds db ∧ ∃ b, served_row now b ∧ b' = shown b ∧
    ((∀ ks, ks ∈ (entriesSwitchedOff db gs).*2 → key_of b ∉ ks) ∨
     ∃ g, g ∈ gs ∧ ¬ switched db g (key_of b) ∧ grants db g (pr_id (b_profile b)) = true ∧
       hands_host db (narrowedSquads db gs) g b' = true).
Proof.
  unfold eligibleBindings, drop_hidden. rewrite list_elem_of_filter, elem_of_sort_by. unfold keep_on.
  rewrite list_elem_of_filter, narrow_hosts_map, list_elem_of_fmap, orb_true_iff, negb_true_iff.
  assert (∀ b, narrow_one (set_hosts b (enabled_hosts b)) = shown b) as Hshown by done.
  assert (∀ b, b_node (shown b) = b_node b ∧ b_profile (shown b) = b_profile b) as Hf.
  { intros b. unfold shown. by destruct (narrow_one_fields (set_hosts b (enabled_hosts b))) as (_ & -> & ->). }
  assert (∀ b, existsb (λ ks, bool_decide (key_of b ∈ ks.2)) (entriesSwitchedOff db gs) = false
             ↔ ∀ ks, ks ∈ (entriesSwitchedOff db gs).*2 → key_of b ∉ ks) as Hnone.
  { intros b. rewrite <-not_true_iff_false, existsb_exists. setoid_rewrite list_elem_of_fmap.
    setoid_rewrite bool_decide_eq_true. setoid_rewrite <-list_elem_of_In. naive_solver. }
  assert (∀ b', existsb (λ g, negb (is_off (entriesSwitchedOff db gs) g (key_of b')) &&
      grants db g (pr_id (b_profile b')) && hands_host db (narrowedSquads db gs) g b') gs = true
    ↔ ∃ g, g ∈ gs ∧ ¬ switched db g (key_of b') ∧ grants db g (pr_id (b_profile b')) = true ∧
       hands_host db (narrowedSquads db gs) g b' = true) as Hsome.
  { intros c. rewrite existsb_exists. setoid_rewrite <-list_elem_of_In. split.
    - intros (g & Hg & H). apply andb_true_iff in H as [H Hh]. apply andb_true_iff in H as [H Hgr].
      exists g. repeat split; try done. rewrite <-(is_off_switched db gs) by done. by apply negb_true_iff in H as ->.
    - intros (g & Hg & Ho & Hgr & Hh). exists g. split; [done|]. rewrite Hgr, Hh, !andb_true_r.
      apply negb_true_iff, not_true_iff_false. by rewrite is_off_switched. }
  assert (∀ b, key_of (shown b) = key_of b) as Hk by (intros b; unfold key_of; destruct (Hf b) as [-> ->]; done).
  fold (key_of b'). rewrite Hnone, Hsome. split.
  - intros (Hhid & Hkeep & c & -> & (b & Hrow & ->)%load_elem). split; [done|]. exists b. split; [done|].
    split; [done|]. rewrite Hshown in Hkeep |- *. rewrite (Hk b) in Hkeep. by rewrite (proj2 (Hf b)) in Hkeep.
  - intros (Hhid & b & Hrow & -> & Hkeep). split; [done|]. split.
    + by rewrite (Hk b), (proj2 (Hf b)).
    + exists (set_hosts b (enabled_hosts b)). split; [done|]. apply load_elem. by exists b.
Qed.
End ServedFacts.

(** ** The hidden hops *)
Section Hidden.
Context (db : Db).

Definition enters (c : CascadeRow) (n : string) : Prop :=
  (∃ p, p ∈ k_positions c ∧ ps_position p = 0 ∧ n ∈ ps_nodes p) ∨ (∃ h : Z * PoolNode, h ∈ k_hops c ∧ h.1 = 0 ∧ pn_id h.2 = n).
Definition follows (c : CascadeRow) (n : string) : Prop :=
  (∃ p, p ∈ k_positions c ∧ ps_position p ≠ 0 ∧ n ∈ ps_nodes p) ∨ (∃ d w, d ∈ k_directions c ∧ w ∈ w_nodes d ∧ pn_id w = n) ∨
  (∃ h : Z * PoolNode, h ∈ k_hops c ∧ h.1 ≠ 0 ∧ pn_id h.2 = n).

Lemma hide_keys ms m n : n ∈ jm_keys (foldl hide m ms) ↔ n ∈ jm_keys m ∨ n ∈ ms.*1.
Proof.
  revert m. induction ms as [|[n' c] ms IH]; intros m; simpl; [set_solver|]. rewrite IH, elem_of_cons.
  assert (n ∈ jm_keys (hide m (n', c)) ↔ n = n' ∨ n ∈ jm_keys m) as ->; [|tauto].
  unfold hide. destruct (jm_get n' m) as [seen|] eqn:E; [|apply elem_of_jm_keys_set].
  assert (n' ∈ jm_keys m) by (apply jm_get_is_Some; eauto).
  destruct (str_ltb _ _); [rewrite elem_of_jm_keys_set|]; naive_solver.
Qed.

Lemma keys_filter (E : list string) (l : list (string * (string * string))) n :
  n ∈ jm_keys (filter (λ kv, kv.1 ∉ E) l) ↔ n ∈ jm_keys l ∧ n ∉ E.
Proof. unfold jm_keys. rewrite !list_elem_of_fmap. setoid_rewrite list_elem_of_filter. naive_solver. Qed.

Lemma pool_elem e n : n ∈ (pool_members db e).*1 ↔ ∃ c p, c ∈ cascades db ∧ hiding db c = true ∧
  p ∈ k_positions c ∧ bool_decide (ps_position p = 0) = e ∧ n ∈ ps_nodes p.
Proof.
  unfold pool_members. rewrite list_elem_of_fmap. setoid_rewrite list_elem_of_bind. setoid_rewrite list_elem_of_bind.
  setoid_rewrite list_elem_of_filter. setoid_rewrite list_elem_of_fmap. split.
  - intros ([n' c'] & -> & c & (p & (m & [= -> ->] & Hm) & He & Hp) & Hh & Hc). by exists c, p.
  - intros (c & p & ? & ? & ? & ? & ?). exists (n, c). split; [done|]. exists c. split; [|done].
    exists p. split; [|done]. by exists n.
Qed.

Lemma hop_elem e n : n ∈ (hop_members db e).*1 ↔ ∃ c (h : Z * PoolNode), c ∈ cascades db ∧ hiding db c = true ∧
  h ∈ k_hops c ∧ bool_decide (h.1 = 0) = e ∧ pn_id h.2 = n.
Proof.
  unfold hop_members. rewrite list_elem_of_fmap. setoid_rewrite list_elem_of_bind.
  setoid_rewrite list_elem_of_fmap. setoid_rewrite list_elem_of_filter. split.
  - intros ([n' c'] & -> & c & (h & [= -> ->] & He & Hp) & Hh & Hc). by exists c, h.
  - intros (c & h & ? & ? & ? & ? & <-). exists (pn_id h.2, c). split; [done|]. exists c. split; [|done]. by exists h.
Qed.

Lemma direction_elem n : n ∈ (direction_members db).*1 ↔ ∃ c d w, c ∈ cascades db ∧ hiding db c = true ∧
  d ∈ k_directions c ∧ w ∈ w_nodes d ∧ pn_id w = n.
Proof.
  unfold direction_members. rewrite list_elem_of_fmap. setoid_rewrite list_elem_of_bind. setoid_rewrite list_elem_of_bind.
  setoid_rewrite list_elem_of_filter. setoid_rewrite list_elem_of_fmap. split.
  - intros ([n' c'] & -> & c & (d & (w & [= -> ->] & Hm) & Hp) & Hh & Hc). by exists c, d, w.
  - intros (c & d & w & ? & ? & ? & ? & <-). exists (pn_id w, c). split; [done|]. exists c. split; [|done].
    exists d. split; [|done]. by exists w.
Qed.

Lemma hidden_spec n : n ∈ getHiddenCascadeNodeIds db ↔
  (∃ c, c ∈ cascades db ∧ hiding db c = true ∧ follows c n) ∧
  ¬ ∃ c, c ∈ cascades db ∧ hiding db c = true ∧ enters c n.
Proof.
  unfold getHiddenCascadeNodeIds, hidden_nodes. cbv zeta.
  rewrite keys_filter.
  rewrite hide_keys, !fmap_app, !elem_of_app, !pool_elem, !hop_elem, direction_elem. unfold follows, enters.
  setoid_rewrite bool_decide_eq_true. setoid_rewrite bool_decide_eq_false. split.
  - intros [[?%not_elem_of_nil|H] He]; [done|]. split; [naive_solver|]. intros (c & ? & ? & [H'|H']); apply He; naive_solver.
  - intros [(c & ? & ? & H) He]. split; [right; naive_solver|]. intros [H'|H']; apply He; naive_solver.
Qed.
End Hidden.

(** ** What the limits leave *)
Section Left.
Context (weigh : Z → Z → Z) (q : SubRequest).

(** The first N of the nodes, those of the client's region before the others. *)
Definition in_top (bs : list BindingRow) (n : string) : Prop :=
  match top_of q with
  | Some k => n ∈ nr_id <$> take (Z.to_nat k) (home_first (client_country q) (rank_nodes bs))
  | None => True
  end.

(** Of the nodes of the binding's profile, fewer than the cap come before its
    node for this user. *)
Definition in_pool (u : string) (bs : list BindingRow) (b : BindingRow) : Prop := 0 < pool_size q →
  let nodes := pool_nodes (filter (λ b', pr_id (b_profile b') = pr_id (b_profile b)) bs) in
  ∃ w, (n_id (b_node b), w) ∈ nodes ∧
    Z.of_nat (ahead (hrw_leb weigh u) nodes (n_id (b_node b), w)) < pool_size q.

Definition limits_off : Prop := top_of q = None ∧ pool_size q <= 0.

(** What the limits leave of the eligible bindings [bs]. *)
Definition left_in (u : string) (bs : list BindingRow) (b : BindingRow) : Prop :=
  in_top bs (n_id (b_node b)) ∧ in_pool u (keep_top q bs) b.

Lemma limits_off_left u bs b : limits_off → left_in u bs b.
Proof. intros [Ht Hp]. split; [unfold in_top; by rewrite Ht|]. intros ?. lia. Qed.

Lemma rank_nodes_unloaded bs n : n ∈ rank_nodes bs → nr_currentUsers n = None.
Proof.
  unfold rank_nodes. induction bs as [|b bs IH] using rev_ind; [by intros ?%not_elem_of_nil|]. rewrite foldl_app. simpl.
  destruct (existsb _ _); [done|]. rewrite elem_of_app, list_elem_of_singleton. by intros [?| ->]; [apply IH|].
Qed.

Lemma keep_top_elem bs b : b ∈ keep_top q bs ↔ b ∈ bs ∧ in_top bs (n_id (b_node b)).
Proof.
  unfold keep_top, in_top. destruct (top_of q) as [k|] eqn:Ek; [|tauto].
  assert (0 <? k = true) as Hk.
  { unfold top_of in Ek. destruct (q_topN q) as [k'|]; [|done]. destruct (0 <? k') eqn:E; [|done].
    simpl in Ek. destruct (truthy (q_ip q)); [by injection Ek as <-|done]. }
  case_bool_decide as Hbs; [subst; split; [by intros ?%not_elem_of_nil|by intros [? _]]|].
  rewrite list_elem_of_filter, (rank_unloaded _ _ _ (rank_nodes_unloaded bs)), Hk. tauto.
Qed.

Lemma by_profile_elem bs k l : (k, l) ∈ byProfile bs ↔
  l ≠ [] ∧ l = filter (λ b, pr_id (b_profile b) = k) bs.
Proof.
  assert (∀ (xs l : list BindingRow), foldl (λ l b, l ++ [b]) l xs = l ++ xs) as Hsnoc.
  { intros xs. induction xs as [|x xs IH]; intros l'; simpl; [by rewrite app_nil_r|]. by rewrite IH, <-app_assoc. }
  assert (jm_get k (byProfile bs) = match filter (λ b, pr_id (b_profile b) = k) bs with [] => None | xs => Some xs end) as Hget.
  { unfold byProfile. rewrite jm_get_group. unfold group_value. destruct (filter _ _); [done|]. f_equal. apply (Hsnoc _ []). }
  split.
  - intros Hin. apply jm_elem_get in Hin; [|apply jm_wf_group]. rewrite Hget in Hin.
    destruct (filter _ bs); [done|]. by injection Hin as <-.
  - intros [Hne ->]. apply jm_get_Some_elem. rewrite Hget. by destruct (filter _ bs).
Qed.

Lemma pool_nodes_wf l : NoDup ((pool_nodes l).*1).
Proof.
  unfold pool_nodes. induction l as [|b l IH] using rev_ind; [apply NoDup_nil_2|]. rewrite foldl_app. by apply jm_wf_set.
Qed.

Lemma pool_nodes_elem l n : n ∈ (pool_nodes l).*1 ↔ ∃ b, b ∈ l ∧ n_id (b_node b) = n.
Proof.
  unfold pool_nodes. induction l as [|b l IH] using rev_ind; [set_solver|]. rewrite foldl_app. simpl.
  change ((jm_set (n_id (b_node b)) (n_maxUsers (b_node b))
    (foldl (λ m b, jm_set (n_id (b_node b)) (n_maxUsers (b_node b)) m) [] l)).*1) with
    (jm_keys (jm_set (n_id (b_node b)) (n_maxUsers (b_node b))
    (foldl (λ m b, jm_set (n_id (b_node b)) (n_maxUsers (b_node b)) m) [] l))).
  rewrite elem_of_jm_keys_set. setoid_rewrite elem_of_app. setoid_rewrite list_elem_of_singleton. unfold jm_keys in *.
  naive_solver.
Qed.

Lemma ranked_pool_elem u l n : n ∈ (ranked_pool weigh q u l).*1 ↔ (∃ b, b ∈ l ∧ n_id (b_node b) = n) ∧
  (0 < pool_size q → ∃ w, (n, w) ∈ pool_nodes l ∧ Z.of_nat (ahead (hrw_leb weigh u) (pool_nodes l) (n, w)) < pool_size q).
Proof.
  unfold ranked_pool. rewrite <-pool_nodes_elem. destruct (Z.ltb_spec 0 (pool_size q)) as [Hp|Hp].
  2: { unfold rendezvousOrder. rewrite sort_by_perm. split; [|tauto]. intros Hn. split; [done|lia]. }
  assert (∀ w, (n, w) ∈ pool_nodes l → (n, w) ∈ take (Z.to_nat (pool_size q)) (rendezvousOrder weigh (pool_nodes l) u) ↔
    Z.of_nat (ahead (hrw_leb weigh u) (pool_nodes l) (n, w)) < pool_size q) as Hw.
  { intros w Hin. assert (rendezvousOrder weigh (pool_nodes l) u ≡ₚ pool_nodes l) as Hperm by apply sort_by_perm.
    rewrite (first_of_sorted (hrw_leb weigh u)).
    - rewrite (ahead_perm _ _ _ _ Hperm). lia.
    - rewrite Hperm. apply (NoDup_fmap_1 fst), pool_nodes_wf.
    - apply rendezvous_sorted.
    - intros a b Ha Hb H1 H2. rewrite Hperm in Ha, Hb. apply (NoDup_fmap_elem fst (pool_nodes l)); [apply pool_nodes_wf|done..|].
      by apply (hrw_antisym weigh u).
    - by rewrite Hperm. }
  rewrite list_elem_of_fmap. split.
  - intros ([n' w] & -> & Hin). simpl in *. assert ((n', w) ∈ pool_nodes l) as Hpool.
    { rewrite <-(sort_by_perm (hrw_leb weigh u) (pool_nodes l)), <-(take_drop (Z.to_nat (pool_size q)) (sort_by _ _)), elem_of_app. by left. }
    split; [by apply (list_elem_of_fmap_2 fst) in Hpool|]. intros _. exists w. split; [done|]. by apply Hw.
  - intros [_ H]. destruct (H Hp) as (w & Hin & Hlt). exists (n, w). split; [done|]. by apply Hw.
Qed.

Lemma order_entries_elem u bs b : b ∈ order_entries weigh q u bs ↔ b ∈ bs ∧ in_pool u bs b.
Proof.
  unfold order_entries. rewrite list_elem_of_bind. split.
  - intros ([k l] & Hb & Hkl). apply by_profile_elem in Hkl as [_ ->]. simpl in Hb. unfold order_profile in Hb.
    apply elem_of_sort_by, list_elem_of_filter in Hb as [Hn [<- Hin]%list_elem_of_filter]. split; [done|].
    apply ranked_pool_elem in Hn as [_ Hn]. exact Hn.
  - intros [Hin Hp]. exists (pr_id (b_profile b), filter (λ b', pr_id (b_profile b') = pr_id (b_profile b)) bs).
    assert (b ∈ filter (λ b', pr_id (b_profile b') = pr_id (b_profile b)) bs) as Hf by (by apply list_elem_of_filter).
    split; [|apply by_profile_elem; split; [intros E; rewrite E in Hf; by apply not_elem_of_nil in Hf|done]].
    unfold order_profile. apply elem_of_sort_by, list_elem_of_filter. split; [|done]. apply ranked_pool_elem.
    split; [by exists b|exact Hp].
Qed.

Lemma served_elem db u gs b : b ∈ servedBindings weigh q db u gs ↔
  b ∈ eligibleBindings db gs (q_now q) ∧ left_in u (eligibleBindings db gs (q_now q)) b.
Proof. unfold servedBindings. rewrite order_entries_elem, keep_top_elem. unfold left_in. tauto. Qed.
End Left.

(** ** Who hands a node out *)
Lemma entry_reach_elem db gs bs n g :
  g ∈ default [] (jm_get n (entryReach db gs bs)) ↔
  g ∈ gs ∧ ∃ b, b ∈ bs ∧ n_id (b_node b) = n ∧ hands_host db (narrowedSquads db gs) g b = true.
Proof.
  unfold entryReach.
  assert (∀ m, g ∈ default [] (jm_get n (foldl (entry_reach_step db gs) m bs)) ↔ g ∈ default [] (jm_get n m) ∨
    (g ∈ gs ∧ ∃ b, b ∈ bs ∧ n_id (b_node b) = n ∧ hands_host db (narrowedSquads db gs) g b = true)) as H.
  { induction bs as [|b bs IH]; intros m; simpl; [set_solver|]. rewrite IH. clear IH.
    assert (∀ l s, g ∈ foldl (λ s g, if hands_host db (narrowedSquads db gs) g b then set_add g s else s) s l ↔
      g ∈ s ∨ (g ∈ l ∧ hands_host db (narrowedSquads db gs) g b = true)) as Hl.
    { intros l. induction l as [|x l IHl]; intros s; simpl; [set_solver|]. rewrite IHl, elem_of_cons.
      destruct (hands_host db _ x b) eqn:E; [rewrite elem_of_set_add|]; naive_solver congruence. }
    unfold entry_reach_step. rewrite jm_get_set. setoid_rewrite elem_of_cons.
    destruct (decide (n = n_id (b_node b))) as [->|Hne]; simpl; [rewrite Hl|]; naive_solver. }
  rewrite H. simpl. set_solver.
Qed.

(** ** The two answers *)
Section Agree.
Context (db : Db).

Definition squads_of (u : string) : list string :=
  m_group <$> filter (λ m, m_user m = u ∧ m_active m = true) (members db).

(** The binding ids the push puts a user on, per node. *)
Definition pushed (u n i : string) : Prop := i ∈ default [] (jm_get n (default [] (jm_get u (reachOfUsers db None None)))).

#[global] Instance pushed_dec u n i : Decision (pushed u n i).
Proof. unfold pushed. apply _. Defined.

(** The binding ids a user's subscription lists, per node. *)
Definition listed (weigh : Z → Z → Z) (q : SubRequest) (u n i : string) : Prop :=
  ∃ b, b ∈ servedBindings weigh q db u (squads_of u) ∧ b_id b = i ∧ n_id (b_node b) = n ∧ b_hosts b ≠ [].

Lemma pushed_spec u n i : pushed u n i ↔
  ∃ g b, g ∈ squads_of u ∧ b ∈ bindings db ∧ b_id b = i ∧ n_id (b_node b) = n ∧ reaches db g b.
Proof.
  unfold pushed. rewrite user_reach. unfold memberships, squads_of. split.
  - intros (m & b & Hm & Hu & ? & ? & ? & _ & ?). apply list_elem_of_filter in Hm as [Ha Hm].
    exists (m_group m), b. split; [|done]. apply list_elem_of_fmap. exists m. split; [done|]. by apply list_elem_of_filter.
  - intros (g & b & Hg & ? & ? & ? & ?). apply list_elem_of_fmap in Hg as (m & -> & Hm).
    apply list_elem_of_filter in Hm as [[Hu Ha] Hm]. exists m, b. split; [by apply list_elem_of_filter|]. done.
Qed.

Lemma reaches_shown gs g b : g ∈ gs → reaches db g b →
  (∃ h, h ∈ b_hosts (shown db gs b)) ∧ hands_host db (narrowedSquads db gs) g (shown db gs b) = true.
Proof.
  intros Hg (_ & _ & (h & Hh & Hn) & _).
  assert (h ∈ b_hosts (shown db gs b)) as Hin by (by apply (narrow_one_keeps db gs _ g)).
  split; [by exists h|]. unfold hands_host. destruct (decide (g ∈ narrowedSquads db gs)) as [Hnar|Hnar].
  - rewrite orb_true_iff. right. apply existsb_exists. exists h. split; [by apply list_elem_of_In|].
    apply Hn. by apply (narrowedSquads_elem db gs).
  - by rewrite bool_decide_false.
Qed.

Lemma shown_fields gs b : b_id (shown db gs b) = b_id b ∧ b_node (shown db gs b) = b_node b.
Proof. unfold shown. by destruct (narrow_one_fields db gs (set_hosts b (enabled_hosts b))) as (-> & -> & _). Qed.

Lemma shown_profile gs b : b_profile (shown db gs b) = b_profile b.
Proof. unfold shown. by destruct (narrow_one_fields db gs (set_hosts b (enabled_hosts b))) as (_ & _ & ->). Qed.

(** The limits look at a binding's node and profile. *)
Lemma left_shown weigh q u bs gs b : left_in weigh q u bs (shown db gs b) ↔ left_in weigh q u bs b.
Proof. unfold left_in, in_pool. by rewrite (proj2 (shown_fields gs b)), shown_profile. Qed.

(** What a squad reaches is eligible for its member, on a node the query keeps. *)
Lemma reaches_eligible gs g b now : g ∈ gs → b ∈ bindings db → reaches db g b →
  node_served now (b_node b) = true → n_id (b_node b) ∉ getHiddenCascadeNodeIds db →
  shown db gs b ∈ eligibleBindings db gs now.
Proof.
  intros Hg Hb Hr Hs Hh. pose proof (reaches_shown gs g b Hg Hr) as [_ Hhand]. destruct Hr as (Hl & Hgr & _ & Hoff).
  apply eligible_elem. rewrite (proj2 (shown_fields gs b)). split; [done|]. exists b. split; [|split; [done|right; by exists g]].
  split; [done|]. split; [done|]. split; [done|]. by exists g.
Qed.

(** One squad: what is eligible with a host is reached. *)
Lemma eligible_reaches g b now : served_row db [g] now b → b_hosts (shown db [g] b) ≠ [] →
  (∀ ks, ks ∈ (entriesSwitchedOff db [g]).*2 → key_of b ∉ ks) ∨ ¬ switched db g (key_of b) → reaches db g b.
Proof.
  intros (_ & Hl & _ & g' & ->%list_elem_of_singleton & Hgr) Hne Hoff.
  split; [done|]. split; [done|]. split.
  - destruct (b_hosts (shown db [g] b)) as [|h hs] eqn:E; [done|].
    assert (h ∈ b_hosts (shown db [g] b)) as Hh by (rewrite E; set_solver). exists h.
    split; [by apply (narrow_one_hosts db [g]) in Hh|]. intros Hnar. unfold shown, narrow_one in Hh.
    rewrite decide_True in Hh.
    + apply list_elem_of_filter in Hh as [Hh _]. simpl in Hh. by rewrite orb_false_r in Hh.
    + assert (g ∈ narrowedSquads db [g]) as Hg by (apply (narrowedSquads_elem db [g]); [set_solver|done]).
      split; [intros E'; rewrite E' in Hg; by apply not_elem_of_nil in Hg|]. by intros g' ->%list_elem_of_singleton.
  - destruct Hoff as [Hoff|]; [|done]. rewrite <-(is_off_switched db [g]) by set_solver. unfold is_off.
    destruct (jm_get g (entriesSwitchedOff db [g])) as [ks|] eqn:Ek; [|done].
    rewrite bool_decide_eq_true. apply Hoff. apply list_elem_of_fmap. exists (g, ks). split; [done|].
    by apply jm_get_Some_elem.
Qed.
End Agree.

(** A binding the push puts a user on is in their subscription with a host,
    unless its node is a hidden hop, has been unreachable for longer than the
    grace, or is left out by a limit. *)
Theorem reached_is_served weigh q db u n i : pushed db u n i → n ∉ getHiddenCascadeNodeIds db →
  (∀ b, b ∈ bindings db → n_id (b_node b) = n → node_served (q_now q) (b_node b) = true ∧
     left_in weigh q u (eligibleBindings db (squads_of db u) (q_now q)) b) → listed db weigh q u n i.
Proof.
  intros (g & b & Hg & Hb & <- & <- & Hr)%pushed_spec Hh Hs. destruct (Hs b Hb eq_refl) as [Hsv Hleft].
  exists (shown db (squads_of db u) b). destruct (shown_fields db (squads_of db u) b) as [-> ->].
  split; [apply served_elem; split; [by apply (reaches_eligible db _ g)|by apply left_shown]|]. do 2 (split; [done|]).
  destruct (reaches_shown db (squads_of db u) g b Hg Hr) as [(h & Hin) _].
  intros E. rewrite E in Hin. by apply not_elem_of_nil in Hin.
Qed.

(** C8. For a user of one squad the two answers are one: the subscription lists
    exactly the bindings the push puts them on, less the hidden hops, the nodes
    that have been unreachable for longer than the grace, and what two limits
    leave out.  The request's top N keeps the first N of the eligible nodes,
    those of the client's region before the others; the entry cap keeps, of each
    profile, the nodes that fewer than the cap outrank for this user.  With
    neither limit nothing more is left out. *)
Theorem one_squad_agrees weigh q db u g n i : NoDup (b_id <$> bindings db) → squads_of db u = [g] →
  let reached b := pushed db u n i ∧ n ∉ getHiddenCascadeNodeIds db ∧ b ∈ bindings db ∧ b_id b = i ∧
    node_served (q_now q) (b_node b) = true in
  (listed db weigh q u n i ↔ ∃ b, reached b ∧ left_in weigh q u (eligibleBindings db [g] (q_now q)) b) ∧
  (limits_off q → listed db weigh q u n i ↔ ∃ b, reached b).
Proof.
  intros Hnd Hu reached.
  assert (listed db weigh q u n i ↔ ∃ b, reached b ∧ left_in weigh q u (eligibleBindings db [g] (q_now q)) b) as H.
  { split.
    - intros (b' & Hb' & <- & <- & Hne). rewrite Hu in Hb'. apply served_elem in Hb' as [Hel Hleft].
      apply eligible_elem in Hel as (Hh & b & Hrow & -> & Hoff). destruct (shown_fields db [g] b) as [Hid Hnode].
      unfold reached. rewrite Hid, Hnode in *. pose proof Hrow as (Hin & _ & Hs & _). exists b.
      split; [split; [|done]|by apply left_shown in Hleft].
      apply pushed_spec. exists g, b. rewrite Hu. split; [set_solver|]. do 3 (split; [done|]).
      apply (eligible_reaches db g b (q_now q)); try done.
      destruct Hoff as [|(g' & ->%list_elem_of_singleton & ? & _)]; [by left|by right].
    - intros (b & (Hp & Hh & Hb & Hi & Hs) & Hleft). pose proof Hp as (g' & b2 & Hg' & Hb2 & <- & <- & Hr)%pushed_spec.
      assert (b2 = b) as -> by (by apply (NoDup_fmap_elem b_id (bindings db))).
      destruct (shown_fields db (squads_of db u) b) as [Hid Hn]. exists (shown db (squads_of db u) b). rewrite Hid, Hn.
      split; [apply served_elem; split; [by apply (reaches_eligible db _ g')|rewrite Hu; by apply left_shown]|].
      do 2 (split; [done|]). destruct (reaches_shown db (squads_of db u) g' b Hg' Hr) as [(h & Hin) _].
      intros E. rewrite E in Hin. by apply not_elem_of_nil in Hin. }
  split; [exact H|]. intros Hoff. rewrite H. split; [intros (b & ? & _); by exists b|].
  intros (b & Hb). exists b. split; [done|]. by apply limits_off_left.
Qed.

(** Two squads: one hands out every host it has, but not this profile; the
    other grants the profile and narrowed itself to other hosts.  Neither
    reaches the binding, and the push leaves the user off it; the subscription
    lists it all the same, since its narrowing asks whether some squad is not
    narrowed and not whether that squad grants the profile. *)
Theorem served_not_reached weigh q db u g1 g2 b : NoDup (b_id <$> bindings db) → limits_off q →
  squads_of db u = [g1; g2] → b ∈ bindings db → binding_live b = true → enabled_hosts b ≠ [] →
  ¬ narrowed db g1 → grants db g1 (pr_id (b_profile b)) = false →
  narrowed db g2 → grants db g2 (pr_id (b_profile b)) = true →
  (∀ h, h ∈ enabled_hosts b → names_host db g2 h = false) →
  entriesSwitchedOff db [g1; g2] = [] → node_served (q_now q) (b_node b) = true →
  n_id (b_node b) ∉ getHiddenCascadeNodeIds db →
  listed db weigh q u (n_id (b_node b)) (b_id b) ∧ ¬ pushed db u (n_id (b_node b)) (b_id b).
Proof.
  intros Hnd Hlim Hu Hb Hl Hhosts Hn1 Hg1 Hn2 Hg2 Hother Hoff Hs Hhid. split.
  - destruct (shown_fields db [g1; g2] b) as [Hid Hnode]. exists (shown db [g1; g2] b). rewrite Hu, Hid, Hnode. split.
    + apply served_elem. split; [|by apply limits_off_left]. apply eligible_elem. rewrite Hnode. split; [done|]. exists b. split.
      * split; [done|]. split; [done|]. split; [done|]. exists g2. split; [set_solver|done].
      * split; [done|]. left. rewrite Hoff. by intros ks ?%not_elem_of_nil.
    + do 2 (split; [done|]). unfold shown, narrow_one. rewrite decide_False; [done|].
      intros [_ Hall]. apply Hn1, (narrowedSquads_elem db [g1; g2]); [set_solver|]. apply Hall. set_solver.
  - intros (g & b2 & Hg & Hb2 & Hi & _ & Hr)%pushed_spec.
    assert (b2 = b) as -> by (by apply (NoDup_fmap_elem b_id (bindings db))). destruct Hr as (_ & Hgr & (h & Hh & Hnames) & _).
    rewrite Hu in Hg. apply elem_of_cons in Hg as [->|Hg%list_elem_of_singleton]; [congruence|subst g].
    specialize (Hnames Hn2). by rewrite Hother in Hnames.
Qed.

(** ** A small store *)
Definition ex_profile (i : string) : ProfileRow := mkProfile i true "xray".
Definition ex_node (i : string) : ReachNode := mkReachNode i false "online" None 0 None None.
Definition ex_binding (i node profile host : string) : BindingRow :=
  mkBinding i true 443 (ex_node node) (ex_profile profile) [mkHost host true].

(** [all] hands out profile [q] everywhere; [nl] profile [p], on host [h2]. *)
Definition ex_db : Db :=
  mkDb [mkMember "ann" "all" true; mkMember "ann" "nl" true; mkMember "bob" "nl" true]
       [("all", "q"); ("nl", "p")] [("nl", "h2")]
       [ex_binding "b1" "n1" "p" "h1"; ex_binding "b2" "n2" "p" "h2"; ex_binding "b3" "n3" "q" "h3"]
       [] [] [] [] [].

Example ex_reach : reachOfUsers ex_db None None
  = [("ann", [("n3", ["b3"]); ("n2", ["b2"])]); ("bob", [("n2", ["b2"])])].
Proof. vm_compute. reflexivity. Qed.

(** A request with no limits; one with a cap; weights that grow with capacity. *)
Definition ex_request : SubRequest := mkSubRequest 0 None None None None None.
Definition ex_capped (k : Z) : SubRequest := mkSubRequest 0 None None None None (Some k).
Definition ex_weigh (h w : Z) : Z := w.

Example ex_served : b_id <$> servedBindings ex_weigh ex_request ex_db "ann" ["all"; "nl"] = ["b1"; "b2"; "b3"].
Proof. vm_compute. reflexivity. Qed.

Lemma ex_limits_off : limits_off ex_request.
Proof. split; [done|]. by vm_compute. Qed.

(** One profile on two nodes of which the second is the larger; the second has
    no host. *)
Definition ex_pair (big_hosts : list HostRow) : Db :=
  mkDb [mkMember "eve" "nl" true] [("nl", "p")] []
       [ex_binding "b1" "n1" "p" "h1";
        mkBinding "b2" true 443 (mkReachNode "n2" false "online" None 0 None (Some 1000)) (ex_profile "p") big_hosts]
       [] [] [] [] [].

(** A binding without a host takes a place under the cap: the subscription of a
    user the push puts on a node is empty, with the cap at one. *)
Theorem empty_entry_takes_place : ∃ weigh q db u n i, 0 < pool_size q ∧ pushed db u n i ∧
  n ∉ getHiddenCascadeNodeIds db ∧ (∀ b, b ∈ bindings db → node_served (q_now q) (b_node b) = true) ∧
  ∀ n i, ¬ listed db weigh q u n i.
Proof.
  exists ex_weigh, (ex_capped 1), (ex_pair []), "eve", "n1", "b1". split; [done|].
  split; [apply (bool_decide_unpack _); vm_compute; exact I|].
  split; [apply (bool_decide_unpack _); vm_compute; exact I|]. split.
  - intros b Hb. simpl in Hb. repeat (apply elem_of_cons in Hb as [->|Hb]; [vm_compute; reflexivity|]).
    by apply not_elem_of_nil in Hb.
  - intros n i (b & Hb & _ & _ & Hne). revert Hne.
    assert (servedBindings ex_weigh (ex_capped 1) (ex_pair []) "eve" (squads_of (ex_pair []) "eve")
      = [mkBinding "b2" true 443 (mkReachNode "n2" false "online" None 0 None (Some 1000)) (ex_profile "p") []]) as E
      by (vm_compute; reflexivity).
    rewrite E in Hb. apply list_elem_of_singleton in Hb as ->. by intros [].
Qed.

Theorem reached_is_served_witness :
  pushed ex_db "bob" "n2" "b2" ∧ listed ex_db ex_weigh ex_request "bob" "n2" "b2".
Proof.
  split; [apply (bool_decide_unpack _); vm_compute; exact I|].
  apply (reached_is_served ex_weigh ex_request ex_db "bob" "n2" "b2"); [apply (bool_decide_unpack _); vm_compute; exact I| |].
  - apply (bool_decide_unpack _). vm_compute. exact I.
  - intros b Hb _. split; [|apply limits_off_left, ex_limits_off].
    simpl in Hb. repeat (apply elem_of_cons in Hb as [->|Hb]; [vm_compute; reflexivity|]).
    by apply not_elem_of_nil in Hb.
Defined.

(** Under a cap of one the larger of the two nodes is listed, and alone. *)
Theorem one_squad_agrees_witness : let db := ex_pair [mkHost "h2" true] in
  listed db ex_weigh (ex_capped 1) "eve" "n2" "b2" ∧ ¬ listed db ex_weigh (ex_capped 1) "eve" "n1" "b1" ∧
  listed db ex_weigh ex_request "eve" "n1" "b1".
Proof.
  intros db. assert (NoDup (b_id <$> bindings db)) as Hnd by (apply (bool_decide_unpack _); vm_compute; exact I).
  destruct (one_squad_agrees ex_weigh (ex_capped 1) db "eve" "nl" "n2" "b2" Hnd eq_refl) as [[_ H2] _].
  destruct (one_squad_agrees ex_weigh (ex_capped 1) db "eve" "nl" "n1" "b1" Hnd eq_refl) as [[H1 _] _].
  destruct (one_squad_agrees ex_weigh ex_request db "eve" "nl" "n1" "b1" Hnd eq_refl) as [_ H0].
  split; [|split].
  - apply H2. eexists. split; [split; [apply (bool_decide_unpack _); vm_compute; exact I|]|].
    { split; [apply (bool_decide_unpack _); vm_compute; exact I|]. split; [right; by left|]. by vm_compute. }
    split; [done|]. intros _. exists (Some 1000). split; [vm_compute; right; by left|]. by vm_compute.
  - intros (b & (_ & _ & Hb & Hi & _) & _ & Hp)%H1. simpl in Hb.
    apply elem_of_cons in Hb as [->|Hb]; [|apply list_elem_of_singleton in Hb as ->; done].
    destruct (Hp eq_refl) as (w & Hw & Hlt). vm_compute in Hw.
    apply elem_of_cons in Hw as [[= ->]|Hw%list_elem_of_singleton]; [by vm_compute in Hlt|done].
  - apply H0; [apply ex_limits_off|]. eexists. split; [apply (bool_decide_unpack _); vm_compute; exact I|].
    split; [apply (bool_decide_unpack _); vm_compute; exact I|]. split; [by left|]. by vm_compute.
Defined.

Theorem served_not_reached_witness :
  listed ex_db ex_weigh ex_request "ann" "n1" "b1" ∧ ¬ pushed ex_db "ann" "n1" "b1".
Proof.
  apply (served_not_reached ex_weigh ex_request ex_db "ann" "all" "nl" (ex_binding "b1" "n1" "p" "h1")).
  2: apply ex_limits_off.
  all: try (vm_compute; reflexivity).
  all: try (apply (bool_decide_unpack _); vm_compute; exact I).
  - intros h ->%list_elem_of_singleton. vm_compute. reflexivity.
Defined.
