(* ===== verification/RouteProfiles.v ===== *)
(** The ways out a subscription offers at a cascade's entry, and the gate the
    entry keeps on them
    (apps/panel-backend/src/modules/cascades/cascade.service.ts and
    lib/util/country-flag.ts).

    [getRouteProfilesByEntryNode] lists, per entry node, a line for each way out
    the user's squads grant there; a line carries a tag, which the client's UUID
    encodes.  [entryGateFor] asks the same function for each set of squads and
    turns it around: the tags each user may take, which the entry's xray
    enforces ([EntryGate]).  The two differ in who hands the entry out: the
    subscription reads it off the bindings it serves, the gate off the bindings
    the push reaches ([UserReach]).

    A label is its UTF-8 bytes; [trim] and [toUpperCase] are read on ASCII. *)

From S2P Require Import Prelude Js EntryGate CascadeValidation UserReach.

Local Open Scope string_scope.
Local Open Scope list_scope.
Local Open Scope Z_scope.

(** ** Labels *)

(** A regional indicator symbol: U+1F1E6 and the letter's place, in UTF-8. *)
Definition regional (c : ascii) : string :=
  String "240" (String "159" (String "135" (String (ascii_of_nat (166 + (nat_of_ascii c - 65))) ""))).

Definition capital (c : ascii) : bool := (65 <=? nat_of_ascii c)%nat && (nat_of_ascii c <=? 90)%nat.

Definition countryFlag (code : option string) : string :=
  if negb (truthy code) then "" else
  match list_ascii_of_string (js_upper (js_trim (default "" code))) with
  | [a; b] => if capital a && capital b then regional a +:+ regional b else ""
  | _ => ""
  end.

Definition subscriptionServerName (hostRemark : option string) (nodeName : string) (countryCode : option string) : string :=
  let named := if truthy hostRemark && negb (bool_decide (hostRemark = Some "Default"))
               then default "" hostRemark else nodeName in
  let flag := countryFlag countryCode in
  if truthy (Some flag) then flag +:+ " " +:+ named else named.

Definition cascadeAutoProfileLabel (cascadeName : string) : string := "⚡ " +:+ cascadeName +:+ " → Auto".

Definition cascadeProfileLabel (cascadeName : string) (exitCountryCode : option string) (exitNodeName : string) : string :=
  let flag := countryFlag exitCountryCode in
  if negb (truthy (Some flag)) then cascadeName +:+ " → " +:+ exitNodeName
  else flag +:+ " " +:+ cascadeName +:+ " → " +:+ js_upper (default "" exitCountryCode).

(** ** Who speaks at an entry *)
Abbreviation reach_map := (option (list (string * list string))).

(** [!entryReach || entryReach.get(entryNodeId)?.has(groupId)]. *)
Definition hands_out (entryReach : reach_map) (entryNodeId g : string) : bool :=
  match entryReach with
  | None => true
  | Some m => match jm_get entryNodeId m with Some s => bool_decide (g ∈ s) | None => false end
  end.

Definition in_off (offGroups : option (list string)) (g : string) : bool :=
  match offGroups with Some s => bool_decide (g ∈ s) | None => false end.

Definition add_policy (st : list Z * list RoutePolicyRef) (p : RoutePolicyRef) : list Z * list RoutePolicyRef :=
  if bool_decide (rp_ordinal p ∈ st.1) then st else (rp_ordinal p :: st.1, st.2 ++ [p]).

(** A squad's turn: its policies, unless one of the gates skips it. *)
Definition policies_turn (entryNodeId : string) (policiesByGroup : list (string * list RoutePolicyRef))
    (entryReach : reach_map) (directionIds : option (list string)) (exitAllowByGroup : list (string * list string))
    (offGroups : option (list string)) (groupId : string) : list RoutePolicyRef :=
  if negb (hands_out entryReach entryNodeId groupId) then []
  else if in_off offGroups groupId then []
  else if match directionIds, jm_get groupId exitAllowByGroup with
          | Some ids, Some allows => negb (existsb (λ id, bool_decide (id ∈ allows)) ids)
          | _, _ => false
          end then []
  else default [] (jm_get groupId policiesByGroup).

Definition policiesForEntry (groupIds : list string) (entryNodeId : string)
    (policiesByGroup : list (string * list RoutePolicyRef)) (entryReach : reach_map)
    (directionIds : option (list string)) (exitAllowByGroup : list (string * list string))
    (offGroups : option (list string)) : list RoutePolicyRef :=
  (foldl (λ st g, foldl add_policy st
            (policies_turn entryNodeId policiesByGroup entryReach directionIds exitAllowByGroup offGroups g))
         ([], []) groupIds).2.

Definition cascadeIsOffAt (groupIds : list string) (entryNodeId : string) (entryReach : reach_map)
    (offGroups : option (list string)) : bool :=
  match offGroups with
  | None | Some [] => false
  | Some off =>
      let speaking := filter (λ g, hands_out entryReach entryNodeId g = true) groupIds in
      negb (bool_decide (speaking = [])) && forallb (λ g, bool_decide (g ∈ off)) speaking
  end.

(** The union of the squads' sets; [None] when one of them has no rows. *)
Fixpoint union_allows (allowByGroup : list (string * list string)) (speaking out : list string) : option (list string) :=
  match speaking with
  | [] => Some out
  | g :: speaking =>
      match jm_get g allowByGroup with
      | None => None
      | Some allows => union_allows allowByGroup speaking (foldl (λ s k, set_add k s) out allows)
      end
  end.

Definition exitAllowAt (groupIds : list string) (entryNodeId : string) (entryReach : reach_map)
    (offGroups : option (list string)) (allowByGroup : list (string * list string)) : option (list string) :=
  let speaking := filter (λ g, hands_out entryReach entryNodeId g && negb (in_off offGroups g) = true) groupIds in
  if bool_decide (speaking = []) then None else union_allows allowByGroup speaking [].

Definition aclKey (r : ExitRow) : option string :=
  match x_direction r with Some d => Some d | None => x_node r end.

(** An exit of the hop shape: its name, its index and its node. *)
Definition applyExitAcl (fullExits : list (string * Z * string)) (allowed : option (list string)) : list (string * Z) :=
  fst <$> filter (λ e, match allowed with None => true | Some s => bool_decide (e.2 ∈ s) end = true) fullExits.

(** ** The lines *)
Record CascadeRouteProfile := mkRouteProfile { rt_label : string; rt_tag : Z; rt_cascade : string }.

Definition directionServes (d : WayOut) : bool :=
  negb (bool_decide (w_nodes d = [])) || bool_decide (is_Some (w_outbound d)).

(** [d.nodes[0]?.node ?? d.outbound]: its name and its country. *)
Definition way_exit (d : WayOut) : option (string * option string) :=
  match w_nodes d with n :: _ => Some (pn_name n, pn_country n) | [] => w_outbound d end.

Definition directionProfileLabel (cascadeName : string) (d : WayOut) : option string :=
  (λ exit_ : string * option string,
     cascadeProfileLabel cascadeName (match w_country d with Some c => Some c | None => exit_.2 end) exit_.1) <$> way_exit d.

Definition line_of (label : string) (tag : Z) (c : CascadeRow) : CascadeRouteProfile := mkRouteProfile label tag (k_id c).
Definition variant (label : string) (p : RoutePolicyRef) : string := label +:+ " · " +:+ rp_name p.

(** The plain line and its variants. *)
Definition auto_lines (c : CascadeRow) (ps : list RoutePolicyRef) : list CascadeRouteProfile :=
  let autoLabel := cascadeAutoProfileLabel (k_name c) in
  line_of autoLabel (autoRouteTag 0) c :: ((λ p, line_of (variant autoLabel p) (autoRouteTag (rp_ordinal p)) c) <$> ps).

Definition exit_lines (c : CascadeRow) (label : string) (index : Z) (ps : list RoutePolicyRef) : list CascadeRouteProfile :=
  line_of label (routeTag 0 index) c :: ((λ p, line_of (variant label p) (routeTag (rp_ordinal p) index) c) <$> ps).

Section Profiles.
Context (db : Db) (groupIds : list string) (entryReach : reach_map).

Definition enters_among (nodeIds : list string) (c : CascadeRow) : bool :=
  existsb (λ h : Z * PoolNode, (h.1 =? 0) && bool_decide (pn_id h.2 ∈ nodeIds)) (k_hops c) ||
  existsb (λ p, (ps_position p =? 0) && existsb (λ n, bool_decide (n ∈ nodeIds)) (ps_nodes p)) (k_positions c).

(** The order of the rows inside a cascade: [orderBy] position and tag. *)
Definition hops_in_order (c : CascadeRow) : list (Z * PoolNode) := sort_by (λ a b, a.1 <=? b.1) (k_hops c).
Definition positions_in_order (c : CascadeRow) : list PositionRow := sort_by (λ a b, ps_position a <=? ps_position b) (k_positions c).
Definition directions_in_order (c : CascadeRow) : list WayOut := sort_by (λ a b, w_tag a <=? w_tag b) (k_directions c).

(** [offByCascade], [allowByGroupCascade] and [policiesByGroup], for the
    cascades read. *)
Definition offByCascade (cascadeIds : list string) : list (string * list string) :=
  foldl (group_add snd (λ _, []) (λ s r, set_add r.1 s)) []
        (filter (λ r, r.1 ∈ groupIds ∧ r.2 ∈ cascadeIds) (groupCascadeOff db)).

Definition exit_rows (cascadeIds : list string) : list ExitRow :=
  filter (λ r, negb (in_off (jm_get (x_cascade r) (offByCascade cascadeIds)) (x_group r)) = true)
    (filter (λ r, x_group r ∈ groupIds ∧ x_cascade r ∈ cascadeIds) (groupCascadeExit db)).

Definition acl_key_of (g c : string) : string := g +:+ "|" +:+ c.

Definition allowByGroupCascade (cascadeIds : list string) : list (string * list string) :=
  foldl (group_add (λ r, acl_key_of (x_group r) (x_cascade r)) (λ _, [])
           (λ s r, if truthy (aclKey r) then set_add (default "" (aclKey r)) s else s)) [] (exit_rows cascadeIds).

Definition policiesByGroup : list (string * list RoutePolicyRef) :=
  foldl (group_add fst (λ _, []) (λ l g, if existsb (λ p, rp_ordinal p =? rp_ordinal g.2) l then l else l ++ [g.2])) []
        (filter (λ r, r.1 ∈ groupIds) (groupRoutePolicy db)).

Definition allowByGroupOf (cascadeIds : list string) (cascadeId : string) : list (string * list string) :=
  foldl (λ m g, match jm_get (acl_key_of g cascadeId) (allowByGroupCascade cascadeIds) with
                | Some allows => jm_set g allows m
                | None => m
                end) [] groupIds.
(** ** One entry of a cascade with directions *)
Definition entry_profiles (cascadeIds : list string) (c : CascadeRow) (entryNodeId : string) : list CascadeRouteProfile :=
  let offGroups := jm_get (k_id c) (offByCascade cascadeIds) in
  let exitAllowByGroup := allowByGroupOf cascadeIds (k_id c) in
  if cascadeIsOffAt groupIds entryNodeId entryReach offGroups then [] else
  let allowed := exitAllowAt groupIds entryNodeId entryReach offGroups exitAllowByGroup in
  let policiesForDirection ids :=
    policiesForEntry groupIds entryNodeId policiesByGroup entryReach (Some ids) exitAllowByGroup offGroups in
  let usable := filter (λ d, directionServes d = true) (directions_in_order c) in
  (if k_autoProfile c && bool_decide (allowed = None) && (1 <? length usable)%nat
   then auto_lines c (policiesForDirection (w_id <$> usable)) else []) ++
  (directions_in_order c ≫= λ d,
     if negb (directionServes d) then []
     else if match allowed with Some s => negb (bool_decide (w_id d ∈ s)) | None => false end then []
     else match directionProfileLabel (k_name c) d with
          | Some label => exit_lines c label (w_tag d - 1) (policiesForDirection [w_id d])
          | None => []
          end).

(** ** The entry of a cascade of hops *)
Definition hop_profiles (cascadeIds : list string) (c : CascadeRow) (entryNodeId : string) : option (list CascadeRouteProfile) :=
  let offGroups := jm_get (k_id c) (offByCascade cascadeIds) in
  if cascadeIsOffAt groupIds entryNodeId entryReach offGroups then None else
  let isBalancer := k_balancer c in
  let grantedPolicies := policiesForEntry groupIds entryNodeId policiesByGroup entryReach None [] offGroups in
  if negb isBalancer && bool_decide (grantedPolicies = []) then None else
  let hops := hops_in_order c in
  let exitHops := if isBalancer then filter (λ h : Z * PoolNode, h.1 ≠ 0) hops
                  else match last hops with Some h => [h] | None => [] end in
  let fullExits := imap (λ i (h : Z * PoolNode),
    (cascadeProfileLabel (k_name c) (pn_country h.2) (pn_name h.2), Z.of_nat i, pn_id h.2)) exitHops in
  let allowed := exitAllowAt groupIds entryNodeId entryReach offGroups (allowByGroupOf cascadeIds (k_id c)) in
  let exits := applyExitAcl fullExits allowed in
  if bool_decide (exits = []) then None else
  Some ((if k_autoProfile c && isBalancer && bool_decide (allowed = None) && (1 <? length fullExits)%nat
         then auto_lines c grantedPolicies else []) ++
        (exits ≫= λ ex, exit_lines c ex.1 ex.2 grantedPolicies)).

(** What a cascade adds to the answer. *)
Definition profiles_step (nodeIds cascadeIds : list string) (out : list (string * list CascadeRouteProfile)) (c : CascadeRow)
    : list (string * list CascadeRouteProfile) :=
  if bool_decide (k_directions c ≠ []) then
    let entryPos := js_find (λ p, ps_position p =? 0) (positions_in_order c) in
    let entryNodeIds := match entryPos with
                        | Some p => filter (λ id, id ∈ nodeIds) (ps_nodes p)
                        | None => []
                        end in
    if bool_decide (entryNodeIds = []) then out
    else if entryReachesCascadeOnlyThroughChain (entryPos ≫= ps_entryProtocol) then out
    else foldl (λ out n, match entry_profiles cascadeIds c n with
                         | [] => out
                         | profiles => jm_set n profiles out
                         end) out entryNodeIds
  else
    match js_find (λ h : Z * PoolNode, h.1 =? 0) (hops_in_order c) with
    | Some entry =>
        if negb (bool_decide (pn_id entry.2 ∈ nodeIds)) then out
        else match hop_profiles cascadeIds c (pn_id entry.2) with
             | Some profiles => jm_set (pn_id entry.2) profiles out
             | None => out
             end
    | None => out
    end.

(** The cascades read. *)
Definition cascades_at (nodeIds : list string) : list CascadeRow :=
  filter (λ c, live_cascade db c && enters_among nodeIds c = true) (cascades db).

Definition getRouteProfilesByEntryNode (nodeIds : list string) : list (string * list CascadeRouteProfile) :=
  if bool_decide (nodeIds = []) then [] else
  let cs := cascades_at nodeIds in
  foldl (profiles_step nodeIds (k_id <$> cs)) [] cs.

(** ** The name of an entry whose users arrive through the chain *)
Context (localeCompare : string → string → bool).

Definition hysteria_cascades (protocol : string) (nodeIds : list string) : list CascadeRow :=
  filter (λ c, live_cascade db c && existsb (λ p, (ps_position p =? 0) && bool_decide (ps_entryProtocol p = Some protocol) &&
    existsb (λ n, bool_decide (n ∈ nodeIds)) (ps_nodes p)) (k_positions c) = true) (cascades db).

Definition entry_label (c : CascadeRow) : option string :=
  match filter (λ d, directionServes d = true) (directions_in_order c) with
  | [] => None
  | [d] => directionProfileLabel (k_name c) d
  | _ => Some (cascadeAutoProfileLabel (k_name c))
  end.

Definition getHysteriaEntryLabels (protocol : string) (nodeIds : list string) : list (string * string) :=
  if bool_decide (nodeIds = []) then [] else
  let cs := hysteria_cascades protocol nodeIds in
  let off := offByCascade (k_id <$> cs) in
  foldl (λ out c, match entry_label c with
    | None => out
    | Some label =>
        foldl (λ out n, if negb (bool_decide (n ∈ nodeIds)) || bool_decide (n ∈ jm_keys out) then out
                        else if cascadeIsOffAt groupIds n entryReach (jm_get (k_id c) off) then out
                        else jm_set n label out)
              out (match entries_of c with p :: _ => ps_nodes p | [] => [] end)
    end) [] (sort_by (λ a b, localeCompare (k_name a) (k_name b)) cs).
End Profiles.

(** ** The entry's gate *)
Section EntryGate.
Context (db : Db).

Definition groupsOf : list (string * list string) :=
  foldl (group_add m_user (λ _, []) (λ l m, l ++ [m_group m])) [] (memberships db None).

Definition node_squads (nodeId : string) : list (string * list (string * string)) :=
  bindingsReachedBySquads db (js_uniq (m_group <$> memberships db None)) (Some nodeId).

Definition squad_reaches (nodeId g : string) : bool :=
  match jm_get g (node_squads nodeId) with Some (_ :: _) => true | _ => false end.

(** The users of each set of squads. *)
Definition squad_set_key (gs : list string) : string := js_join "," (sort_by str_leb gs).

Definition bySet (nodeId : string) : list (string * list string) :=
  foldl (group_add (λ ug : string * list string, squad_set_key ug.2) (λ _, []) (λ us ug, us ++ [ug.1])) []
        (filter (λ ug : string * list string, existsb (squad_reaches nodeId) ug.2 = true) groupsOf).

(** The tags a set of squads may take. *)
Definition tags_for (nodeId cascadeId : string) (gs : list string) : list Z :=
  let reach := [(nodeId, js_uniq (filter (λ g, squad_reaches nodeId g = true) gs))] in
  let profiles := default [] (jm_get nodeId (getRouteProfilesByEntryNode db gs (Some reach) [nodeId])) in
  js_uniq (rt_tag <$> filter (λ p, rt_cascade p = cascadeId) profiles).

Definition user_tags (nodeId cascadeId : string) : list (string * list Z) :=
  foldl (λ gate ku, let tags := tags_for nodeId cascadeId (js_split "," ku.1) in
                    foldl (λ gate u, jm_set u tags gate) gate ku.2) [] (bySet nodeId).

Definition entryGateFor (nodeId cascadeId : string) (positions : list PositionRow) : option (list (string * list Z)) :=
  match js_find (λ p, ps_position p =? 0) positions with
  | Some entry =>
      if negb (bool_decide (nodeId ∈ ps_nodes entry)) || entryReachesCascadeOnlyThroughChain (ps_entryProtocol entry)
      then None else Some (user_tags nodeId cascadeId)
  | None => None
  end.

(** What a rule of the node's policy asks. *)
Inductive CascadeEntryGate :=
  | GateNone
  | Ungated
  | Gate (allowedTagsOf : list (string * list Z)).

Definition cascadeEntryGate (nodeId cascadeId : string) : CascadeEntryGate :=
  let positions := match find_row db cascadeId with Some c => k_positions c | None => [] end in
  match js_find (λ p, ps_position p =? 0) positions with
  | Some entry =>
      if negb (bool_decide (nodeId ∈ ps_nodes entry)) then GateNone
      else if entryReachesCascadeOnlyThroughChain (ps_entryProtocol entry) then Ungated
      else match entryGateFor nodeId cascadeId positions with Some g => Gate g | None => GateNone end
  | None => GateNone
  end.
End EntryGate.

(** ** What the pieces mean *)
Section Meaning.
Context (db : Db) (gs : list string) (entryReach : reach_map).

(** Ids of squads and cascades: uuids. *)
Definition plain_ids : Prop := (∀ g, g ∈ gs → char_free "|" g) ∧ (∀ r, r ∈ groupCascadeExit db → char_free "|" (x_group r)).

(** A squad switched the cascade off. *)
Definition off_for (c g : string) : Prop := (g, c) ∈ groupCascadeOff db.
(** A squad's rows for a cascade it did not switch off, and what they name. *)
Definition has_rows (c g : string) : Prop :=
  ¬ off_for c g ∧ ∃ r, r ∈ groupCascadeExit db ∧ x_group r = g ∧ x_cascade r = c.
Definition row_names (c g x : string) : Prop :=
  ¬ off_for c g ∧ ∃ r, r ∈ groupCascadeExit db ∧ x_group r = g ∧ x_cascade r = c ∧ aclKey r = Some x ∧ x ≠ "".

#[global] Instance off_for_dec c g : Decision (off_for c g).
Proof. unfold off_for. apply _. Defined.

Lemma offBy_elem ids c g : g ∈ gs → c ∈ ids →
  in_off (jm_get c (offByCascade db gs ids)) g = true ↔ off_for c g.
Proof.
  intros Hg Hc. unfold in_off, off_for, offByCascade.
  pose proof (group_sets snd (λ r : string * string, [r.1])
    (filter (λ r, r.1 ∈ gs ∧ r.2 ∈ ids) (groupCascadeOff db)) c g) as H. simpl in H.
  destruct (jm_get c _) as [s|]; simpl in H.
  - rewrite bool_decide_eq_true, H. setoid_rewrite list_elem_of_filter. setoid_rewrite list_elem_of_singleton.
    split; [intros ([g' c'] & [_ ?] & ? & ?); simpl in *; by subst|]. intros Hin. by exists (g, c).
  - split; [done|]. intros Hin. exfalso. apply (not_elem_of_nil g), H. exists (g, c).
    split; [by apply list_elem_of_filter|]. split; [done|]. by apply list_elem_of_singleton.
Qed.

(** Switched off by everybody who speaks. *)
Lemma is_off_at n ids c : c ∈ ids →
  cascadeIsOffAt gs n entryReach (jm_get c (offByCascade db gs ids)) = true ↔
  (∃ g, g ∈ gs ∧ hands_out entryReach n g = true) ∧
  ∀ g, g ∈ gs → hands_out entryReach n g = true → off_for c g.
Proof.
  intros Hc. pose proof (λ g Hg, offBy_elem ids c g Hg Hc) as Hoff. unfold cascadeIsOffAt, in_off in *.
  set (sp := filter (λ g, hands_out entryReach n g = true) gs).
  assert (∀ g, g ∈ sp ↔ g ∈ gs ∧ hands_out entryReach n g = true) as Hsp by (intros g; unfold sp; rewrite list_elem_of_filter; tauto).
  assert (sp ≠ [] ↔ ∃ g, g ∈ gs ∧ hands_out entryReach n g = true) as Hne.
  { setoid_rewrite <-Hsp. destruct sp; [split; [done|intros [? ?%not_elem_of_nil]; done]|set_solver]. }
  assert ((negb (bool_decide (sp = [])) = true ∧ ∀ g, g ∈ sp → ∃ s, jm_get c (offByCascade db gs ids) = Some s ∧ g ∈ s) ↔
    (∃ g, g ∈ gs ∧ hands_out entryReach n g = true) ∧ ∀ g, g ∈ gs → hands_out entryReach n g = true → off_for c g) as <-.
  { rewrite negb_true_iff, bool_decide_eq_false, Hne. apply and_iff_compat_l. split.
    - intros H g Hg Hh. destruct (H g) as (s & Hs & Hin); [by apply Hsp|]. apply (Hoff g Hg). rewrite Hs. by apply bool_decide_eq_true.
    - intros H g [Hg Hh]%Hsp. specialize (H g Hg Hh). apply (Hoff g Hg) in H.
      destruct (jm_get c _) as [s|]; [|done]. exists s. split; [done|]. by bool_prop. }
  destruct (jm_get c (offByCascade db gs ids)) as [[|o s]|].
  - split; [done|]. intros [H1 H2]. bool_prop. destruct sp as [|g sp']; [done|]. destruct (H2 g) as (? & [= <-] & Hin); [set_solver|].
    by apply not_elem_of_nil in Hin.
  - rewrite andb_true_iff, forallb_forall. apply and_iff_compat_l. setoid_rewrite <-list_elem_of_In. split.
    + intros H g Hg. exists (o :: s). split; [done|]. specialize (H g Hg). by bool_prop.
    + intros H g Hg. destruct (H g Hg) as (? & [= <-] & ?). by apply bool_decide_eq_true.
  - split; [done|]. intros [H1 H2]. bool_prop. destruct sp as [|g sp']; [done|]. by destruct (H2 g) as (? & ? & Hin); [set_solver|].
Qed.

Lemma acl_key_inj g c g' c' : char_free "|" g → char_free "|" g' → acl_key_of g c = acl_key_of g' c' → g = g' ∧ c = c'.
Proof. unfold acl_key_of. intros Hg Hg'. by apply str_sep_inj; apply char_free_has. Qed.

Lemma exit_rows_elem ids r : r ∈ exit_rows db gs ids ↔ r ∈ groupCascadeExit db ∧ x_group r ∈ gs ∧
  x_cascade r ∈ ids ∧ ¬ off_for (x_cascade r) (x_group r).
Proof.
  unfold exit_rows. rewrite !list_elem_of_filter, negb_true_iff, <-not_true_iff_false. split.
  - intros (Hoff & (Hg & Hc) & Hr). rewrite offBy_elem in Hoff by done. tauto.
  - intros (? & ? & ? & ?). rewrite offBy_elem by done. tauto.
Qed.

(** A squad's set for a cascade. *)
Lemma allows_spec ids c g : plain_ids → g ∈ gs → c ∈ ids →
  match jm_get g (allowByGroupOf db gs ids c) with
  | Some allows => has_rows c g ∧ ∀ x, x ∈ allows ↔ row_names c g x
  | None => ¬ has_rows c g
  end.
Proof.
  intros [Hgs Hrows] Hg Hc. unfold allowByGroupOf.
  pose proof (reached_map (λ g, jm_get (acl_key_of g c) (allowByGroupCascade db gs ids)) gs [] g) as Hmap.
  simpl in Hmap. rewrite Hmap, decide_True by done. clear Hmap.
  assert (∀ r, r ∈ exit_rows db gs ids → acl_key_of (x_group r) (x_cascade r) = acl_key_of g c ↔
    x_group r = g ∧ x_cascade r = c) as Hkey.
  { intros r Hr%exit_rows_elem. split; [|by intros [-> ->]]. apply acl_key_inj; [apply Hrows|apply Hgs]; naive_solver. }
  assert (has_rows c g ↔ ∃ r, r ∈ exit_rows db gs ids ∧ acl_key_of (x_group r) (x_cascade r) = acl_key_of g c) as Hhas.
  { unfold has_rows. split.
    - intros (Ho & r & Hr & <- & <-). exists r. split; [by apply exit_rows_elem|done].
    - intros (r & Hr & Hk). apply Hkey in Hk as [<- <-]; [|done]. apply exit_rows_elem in Hr as (? & ? & ? & ?). eauto. }
  pose proof (λ x, group_fold_lookup (λ r, acl_key_of (x_group r) (x_cascade r))
    (λ s r, if truthy (aclKey r) then set_add (default "" (aclKey r)) s else s)
    (λ r, if truthy (aclKey r) then [default "" (aclKey r)] else []) (exit_rows db gs ids) (acl_key_of g c) x) as Hset.
  fold (allowByGroupCascade db gs ids) in Hset.
  destruct (jm_get _ (allowByGroupCascade db gs ids)) as [allows|] eqn:E; simpl in Hset.
  - split.
    + apply group_sets_Some in E. by apply Hhas.
    + intros x. rewrite Hset by (intros s r; destruct (truthy _); [rewrite elem_of_set_add|]; set_solver).
      unfold row_names. split.
      * intros (r & Hr & Hk & Hx). apply Hkey in Hk as [<- <-]; [|done]. apply exit_rows_elem in Hr as (? & ? & ? & ?).
        split; [done|]. exists r. do 3 (split; [done|]). destruct (aclKey r) as [a|]; simpl in Hx; [|by apply not_elem_of_nil in Hx].
        destruct a as [|ch a]; simpl in Hx; [by apply not_elem_of_nil in Hx|].
        by apply list_elem_of_singleton in Hx as ->.
      * intros (Ho & r & Hr & <- & <- & Hk & Hx). exists r. split; [by apply exit_rows_elem|]. split; [done|].
        rewrite Hk. simpl. destruct x; [done|]. by apply list_elem_of_singleton.
  - rewrite Hhas. intros (r & Hr & Hk).
    by destruct (proj1 (group_sets_None _ _ _ _) E r Hr).
Qed.

(** A squad has a say: it hands the entry out and left the cascade on. *)
Definition speaking (n c g : string) : Prop := g ∈ gs ∧ hands_out entryReach n g = true ∧ ¬ off_for c g.
(** Every exit is open: nobody speaks, or one who does has no rows. *)
Definition every_exit (n c : string) : Prop := (∀ g, ¬ speaking n c g) ∨ ∃ g, speaking n c g ∧ ¬ has_rows c g.
Definition names_exit (n c x : string) : Prop := ∃ g, speaking n c g ∧ row_names c g x.

Lemma union_allows_spec (m : list (string * list string)) sp out :
  match union_allows m sp out with
  | None => ∃ g, g ∈ sp ∧ jm_get g m = None
  | Some u => (∀ g, g ∈ sp → is_Some (jm_get g m)) ∧
      ∀ x, x ∈ u ↔ x ∈ out ∨ ∃ g s, g ∈ sp ∧ jm_get g m = Some s ∧ x ∈ s
  end.
Proof.
  revert out. induction sp as [|g sp IH]; intros out; simpl; [set_solver|].
  destruct (jm_get g m) as [s|] eqn:E; [|exists g; set_solver].
  specialize (IH (foldl (λ s k, set_add k s) out s)). destruct (union_allows _ _ _) as [u|].
  - destruct IH as [H1 H2]. split.
    + intros g' [->|Hg']%elem_of_cons; [by rewrite E|by apply H1].
    + intros x. rewrite H2, elem_of_set_adds. split.
      * intros [[?|?]|(g' & s' & ? & ? & ?)]; [by left|right; exists g, s; set_solver|right; exists g', s'; set_solver].
      * intros [?|(g' & s' & [->|Hg']%elem_of_cons & Hs & ?)]; [by left; left|left; right; by simplify_eq|right; by exists g', s'].
  - destruct IH as (g' & ? & ?). exists g'. set_solver.
Qed.

Lemma exit_allow_spec n ids c : plain_ids → c ∈ ids →
  match exitAllowAt gs n entryReach (jm_get c (offByCascade db gs ids)) (allowByGroupOf db gs ids c) with
  | None => every_exit n c
  | Some s => ¬ every_exit n c ∧ ∀ x, x ∈ s ↔ names_exit n c x
  end.
Proof.
  intros Hids Hc. unfold exitAllowAt.
  set (sp := filter _ gs). assert (∀ g, g ∈ sp ↔ speaking n c g) as Hsp.
  { intros g. unfold sp, speaking. rewrite list_elem_of_filter, andb_true_iff, negb_true_iff, <-not_true_iff_false. split.
    - intros [[? Ho] Hg]. by rewrite offBy_elem in Ho.
    - intros (Hg & ? & Ho). by rewrite offBy_elem. }
  case_bool_decide as Hne.
  { left. intros g Hg%Hsp. rewrite Hne in Hg. by apply not_elem_of_nil in Hg. }
  pose proof (union_allows_spec (allowByGroupOf db gs ids c) sp []) as Hu.
  assert (∀ g, g ∈ sp → g ∈ gs) as Hgs by (intros g (? & _)%Hsp; done).
  destruct (union_allows _ sp []) as [u|].
  - destruct Hu as [H1 H2].
    assert (∀ g, speaking n c g → has_rows c g) as Hall.
    { intros g Hg%Hsp. pose proof (allows_spec ids c g Hids (Hgs g Hg) Hc) as Ha. destruct (H1 g Hg) as [s Hs].
      rewrite Hs in Ha. by destruct Ha. }
    split.
    + intros [Hno|(g & Hg & Hno)]; [|by apply Hno, Hall]. destruct sp as [|g sp']; [done|].
      apply (Hno g), Hsp. set_solver.
    + intros x. rewrite H2. unfold names_exit. split.
      * intros [?%not_elem_of_nil|(g & s & Hg & Hs & Hx)]; [done|]. exists g. split; [by apply Hsp|].
        pose proof (allows_spec ids c g Hids (Hgs g Hg) Hc) as Ha. rewrite Hs in Ha. by apply Ha.
      * intros (g & Hg%Hsp & Hx). right. destruct (H1 g Hg) as [s Hs]. exists g, s. do 2 (split; [done|]).
        pose proof (allows_spec ids c g Hids (Hgs g Hg) Hc) as Ha. rewrite Hs in Ha. by apply Ha.
  - destruct Hu as (g & Hg & Hs). right. exists g. split; [by apply Hsp|].
    pose proof (allows_spec ids c g Hids (Hgs g Hg) Hc) as Ha. by rewrite Hs in Ha.
Qed.

(** ** The policies granted *)
Definition squad_policy (g : string) (o : Z) : Prop := ∃ p, (g, p) ∈ groupRoutePolicy db ∧ rp_ordinal p = o.

(** The squad's rows, if it has any, let one of these directions through. *)
Definition lets_one (c g : string) (ids : list string) : Prop := has_rows c g → ∃ x, x ∈ ids ∧ row_names c g x.

Lemma policies_by_group g o : g ∈ gs →
  o ∈ rp_ordinal <$> default [] (jm_get g (policiesByGroup db gs)) ↔ squad_policy g o.
Proof.
  intros Hg. unfold policiesByGroup, squad_policy. rewrite jm_get_group.
  set (op := λ l (r : string * RoutePolicyRef), if existsb (λ p, rp_ordinal p =? rp_ordinal r.2) l then l else l ++ [r.2]).
  assert (∀ rs l, o ∈ rp_ordinal <$> foldl op l rs ↔ o ∈ rp_ordinal <$> l ∨ ∃ r, r ∈ rs ∧ rp_ordinal r.2 = o) as Hop.
  { intros rs. induction rs as [|r rs IH]; intros l; simpl; [set_solver|]. rewrite IH.
    assert (o ∈ rp_ordinal <$> op l r ↔ o ∈ rp_ordinal <$> l ∨ rp_ordinal r.2 = o) as ->; [|set_solver].
    unfold op. destruct (existsb _ l) eqn:E; [|rewrite fmap_app; set_solver].
    apply existsb_exists in E as (p & Hp & Ho). bool_prop. apply list_elem_of_In in Hp.
    split; [by left|]. intros [?|<-]; [done|]. apply list_elem_of_fmap. by exists p. }
  assert (∀ rs, o ∈ rp_ordinal <$> default [] (group_value (λ _, []) op rs) ↔ ∃ r, r ∈ rs ∧ rp_ordinal r.2 = o) as ->.
  { intros [|r rs]; [set_solver|]. unfold group_value. cbv [default from_option id]. rewrite (Hop (r :: rs)). set_solver. }
  setoid_rewrite list_elem_of_filter. setoid_rewrite list_elem_of_filter. split.
  - intros ([g' p] & (? & ? & Hin) & ?). simpl in *. subst. by exists p.
  - intros (p & Hin & Ho). by exists (g, p).
Qed.

Lemma policies_elem turns st o : (∀ o, o ∈ st.1 ↔ o ∈ rp_ordinal <$> st.2) →
  o ∈ rp_ordinal <$> (foldl add_policy st turns).2 ↔ o ∈ rp_ordinal <$> st.2 ∨ o ∈ rp_ordinal <$> turns.
Proof.
  revert st. induction turns as [|p turns IH]; intros st Hst; simpl; [set_solver|].
  unfold add_policy at 2. case_bool_decide as Hp.
  - rewrite IH by done. rewrite elem_of_cons. apply Hst in Hp. naive_solver.
  - rewrite IH; simpl.
    + rewrite fmap_app, elem_of_app, elem_of_cons. simpl. rewrite list_elem_of_singleton. tauto.
    + intros o'. rewrite elem_of_cons, Hst, fmap_app, elem_of_app. simpl. rewrite list_elem_of_singleton. tauto.
Qed.

Lemma add_policies_sync turns st : (∀ o, o ∈ st.1 ↔ o ∈ rp_ordinal <$> st.2) →
  ∀ o, o ∈ (foldl add_policy st turns).1 ↔ o ∈ rp_ordinal <$> (foldl add_policy st turns).2.
Proof.
  revert st. induction turns as [|p turns IH]; intros st Hst; simpl; [done|]. apply IH.
  unfold add_policy. case_bool_decide; [done|]. intros o. simpl.
  rewrite elem_of_cons, Hst, fmap_app, elem_of_app. simpl. rewrite list_elem_of_singleton. tauto.
Qed.

Lemma policies_all (turn : string → list RoutePolicyRef) l st o : (∀ o, o ∈ st.1 ↔ o ∈ rp_ordinal <$> st.2) →
  o ∈ rp_ordinal <$> (foldl (λ st g, foldl add_policy st (turn g)) st l).2 ↔
  o ∈ rp_ordinal <$> st.2 ∨ ∃ g, g ∈ l ∧ o ∈ rp_ordinal <$> turn g.
Proof.
  revert st. induction l as [|g l IH]; intros st Hst; simpl; [set_solver|].
  rewrite IH by (by apply add_policies_sync). rewrite policies_elem by done. set_solver.
Qed.

Lemma policies_spec n ids c dirs o : plain_ids → c ∈ ids →
  o ∈ rp_ordinal <$> policiesForEntry gs n (policiesByGroup db gs) entryReach (Some dirs) (allowByGroupOf db gs ids c)
        (jm_get c (offByCascade db gs ids)) ↔
  ∃ g, speaking n c g ∧ lets_one c g dirs ∧ squad_policy g o.
Proof.
  intros Hids Hc. unfold policiesForEntry. rewrite policies_all by done. simpl.
  assert (∀ g, g ∈ gs → o ∈ rp_ordinal <$> policies_turn n (policiesByGroup db gs) entryReach (Some dirs)
      (allowByGroupOf db gs ids c) (jm_get c (offByCascade db gs ids)) g ↔
      speaking n c g ∧ lets_one c g dirs ∧ squad_policy g o) as Hturn.
  { intros g Hg. unfold policies_turn, speaking, lets_one. pose proof (offBy_elem ids c g Hg Hc) as Hoff.
    pose proof (allows_spec ids c g Hids Hg Hc) as Ha.
    destruct (hands_out entryReach n g); simpl; [|set_solver].
    destruct (in_off _ g); [set_solver|]. assert (¬ off_for c g) as Hno by (by intros ?%Hoff).
    destruct (jm_get g (allowByGroupOf db gs ids c)) as [allows|].
    - destruct Ha as [Hr Ha]. destruct (existsb (λ id, bool_decide (id ∈ allows)) dirs) eqn:E; simpl.
      + rewrite policies_by_group by done. apply existsb_exists in E as (x & Hx & Hin). bool_prop.
        apply list_elem_of_In in Hx. apply Ha in Hin. naive_solver.
      + split; [by intros ?%not_elem_of_nil|]. intros (_ & Hone & _). destruct (Hone Hr) as (x & Hx & Hin%Ha).
        assert (existsb (λ id, bool_decide (id ∈ allows)) dirs = true) as Hex; [|congruence].
        apply existsb_exists. exists x. split; [by apply list_elem_of_In|]. by apply bool_decide_eq_true.
    - rewrite policies_by_group by done. naive_solver. }
  split.
  - intros [?%not_elem_of_nil|(g & Hg & Ho)]; [done|]. exists g. by apply Hturn.
  - intros (g & Hg & Ho). right. exists g. split; [apply Hg|]. apply Hturn; [apply Hg|done].
Qed.

(** ** The lines of an entry *)

(** Every squad that hands the entry out switched the cascade off. *)
Definition off_at (n c : string) : Prop :=
  (∃ g, g ∈ gs ∧ hands_out entryReach n g = true) ∧
  ∀ g, g ∈ gs → hands_out entryReach n g = true → off_for c g.

Definition granted (n c : string) (dirs : list string) (o : Z) : Prop :=
  ∃ g, speaking n c g ∧ lets_one c g dirs ∧ squad_policy g o.

Definition usable (c : CascadeRow) : list WayOut := filter (λ d, directionServes d = true) (directions_in_order c).

Definition offered (n : string) (c : CascadeRow) (t : Z) : Prop :=
  ¬ off_at n (k_id c) ∧
  ((k_autoProfile c = true ∧ every_exit n (k_id c) ∧ (1 < length (usable c))%nat ∧
    (t = autoRouteTag 0 ∨ ∃ o, granted n (k_id c) (w_id <$> usable c) o ∧ t = autoRouteTag o)) ∨
   ∃ d, d ∈ k_directions c ∧ directionServes d = true ∧ (every_exit n (k_id c) ∨ names_exit n (k_id c) (w_id d)) ∧
     (t = routeTag 0 (w_tag d - 1) ∨ ∃ o, granted n (k_id c) [w_id d] o ∧ t = routeTag o (w_tag d - 1))).

Lemma serves_label name d : directionServes d = true → ∃ l, directionProfileLabel name d = Some l.
Proof.
  unfold directionServes, directionProfileLabel, way_exit. destruct (w_nodes d); simpl; [|by eauto].
  destruct (w_outbound d); simpl; [by eauto|done].
Qed.

Lemma auto_tags c ps t : t ∈ rt_tag <$> auto_lines c ps ↔
  t = autoRouteTag 0 ∨ ∃ o, o ∈ rp_ordinal <$> ps ∧ t = autoRouteTag o.
Proof.
  unfold auto_lines. rewrite fmap_cons, elem_of_cons, <-list_fmap_compose. simpl.
  rewrite list_elem_of_fmap. setoid_rewrite list_elem_of_fmap. naive_solver.
Qed.

Lemma exit_tags c label i ps t : t ∈ rt_tag <$> exit_lines c label i ps ↔
  t = routeTag 0 i ∨ ∃ o, o ∈ rp_ordinal <$> ps ∧ t = routeTag o i.
Proof.
  unfold exit_lines. rewrite fmap_cons, elem_of_cons, <-list_fmap_compose. simpl.
  rewrite list_elem_of_fmap. setoid_rewrite list_elem_of_fmap. naive_solver.
Qed.

Lemma entry_tags ids c n t : plain_ids → k_id c ∈ ids →
  t ∈ rt_tag <$> entry_profiles db gs entryReach ids c n ↔ offered n c t.
Proof.
  intros Hids Hc. unfold entry_profiles, offered. cbv zeta. fold (usable c).
  pose proof (is_off_at n ids (k_id c) Hc) as Hoff. fold (off_at n (k_id c)) in Hoff.
  destruct (cascadeIsOffAt _ _ _ _).
  { split; [by intros ?%not_elem_of_nil|]. intros [Hn _]. by destruct Hn; apply Hoff. }
  assert (¬ off_at n (k_id c)) as Hon by (by intros ?%Hoff). clear Hoff.
  pose proof (exit_allow_spec n ids (k_id c) Hids Hc) as Hallow.
  pose proof (λ dirs o, policies_spec n ids (k_id c) dirs o Hids Hc) as Hpol.
  destruct (exitAllowAt _ _ _ _ _) as [s|].
  all: rewrite fmap_app, elem_of_app, list_elem_of_fmap.
  all: assert (∀ (A B A' B' : Prop), (A ↔ A') → (B ↔ B') → (A ∨ B ↔ ¬ off_at n (k_id c) ∧ (A' ∨ B'))) as Hor by tauto.
  all: apply Hor; clear Hor.
  - destruct Hallow as [Hno _]. rewrite (bool_decide_false (Some s = None)), andb_false_r by done. simpl.
    split; [intros (? & _ & ?%not_elem_of_nil); done|]. by intros (_ & He & _).
  - destruct Hallow as [Hno Hs]. rewrite list_elem_of_fmap. setoid_rewrite list_elem_of_bind. split.
    + intros (p & -> & d & Hp & Hd). exists d. unfold directions_in_order in Hd. apply elem_of_sort_by in Hd.
      destruct (directionServes d) eqn:Hserves; simpl in Hp; [|by apply not_elem_of_nil in Hp].
      case_bool_decide as Hin; simpl in Hp; [|by apply not_elem_of_nil in Hp].
      destruct (serves_label (k_name c) d Hserves) as [l Hl]. rewrite Hl in Hp.
      split; [done|]. split; [done|]. split; [right; by apply Hs|].
      apply (list_elem_of_fmap_2 rt_tag) in Hp. apply exit_tags in Hp. setoid_rewrite Hpol in Hp. done.
    + intros (d & Hd & Hserves & [He|Hn] & Ht); [done|]. destruct (serves_label (k_name c) d Hserves) as [l Hl].
      setoid_rewrite <-Hpol in Ht. apply (exit_tags c l) in Ht. apply list_elem_of_fmap in Ht as (p & -> & Hp).
      exists p. split; [done|]. exists d. rewrite Hserves, Hl. simpl. rewrite bool_decide_true by (by apply Hs).
      split; [done|]. by apply elem_of_sort_by.
  - rewrite bool_decide_true, andb_true_r by done. rewrite <-list_elem_of_fmap.
    destruct (k_autoProfile c); simpl; [|split; [by intros ?%not_elem_of_nil|by intros [? _]]].
    destruct (Nat.ltb_spec 1 (length (usable c))); [|split; [by intros ?%not_elem_of_nil|by intros (_ & _ & ? & _); lia]].
    rewrite auto_tags. setoid_rewrite Hpol. fold (granted n (k_id c) (w_id <$> usable c)). naive_solver.
  - rewrite list_elem_of_fmap. setoid_rewrite list_elem_of_bind. split.
    + intros (p & -> & d & Hp & Hd). exists d. unfold directions_in_order in Hd. apply elem_of_sort_by in Hd.
      destruct (directionServes d) eqn:Hserves; simpl in Hp; [|by apply not_elem_of_nil in Hp].
      destruct (serves_label (k_name c) d Hserves) as [l Hl]. rewrite Hl in Hp.
      split; [done|]. split; [done|]. split; [by left|].
      apply (list_elem_of_fmap_2 rt_tag) in Hp. apply exit_tags in Hp. setoid_rewrite Hpol in Hp. done.
    + intros (d & Hd & Hserves & _ & Ht). destruct (serves_label (k_name c) d Hserves) as [l Hl].
      setoid_rewrite <-Hpol in Ht. apply (exit_tags c l) in Ht. apply list_elem_of_fmap in Ht as (p & -> & Hp).
      exists p. split; [done|]. exists d. rewrite Hserves, Hl. simpl. split; [done|]. by apply elem_of_sort_by.
Qed.
End Meaning.

(** ** The answer at a node *)
Section Answer.
Context (db : Db) (gs : list string) (entryReach : reach_map).

(** What a cascade writes at a node. *)
Definition cascade_lines (nodeIds ids : list string) (c : CascadeRow) (n : string) : option (list CascadeRouteProfile) :=
  if bool_decide (k_directions c ≠ []) then
    match js_find (λ p, ps_position p =? 0) (positions_in_order c) with
    | Some p =>
        if bool_decide (n ∈ ps_nodes p ∧ n ∈ nodeIds) && negb (entryReachesCascadeOnlyThroughChain (ps_entryProtocol p))
        then match entry_profiles db gs entryReach ids c n with [] => None | l => Some l end else None
    | None => None
    end
  else
    match js_find (λ h : Z * PoolNode, h.1 =? 0) (hops_in_order c) with
    | Some e => if bool_decide (n = pn_id e.2 ∧ n ∈ nodeIds) then hop_profiles db gs entryReach ids c n else None
    | None => None
    end.

Lemma step_get nodeIds ids out c n :
  jm_get n (profiles_step db gs entryReach nodeIds ids out c)
  = match cascade_lines nodeIds ids c n with Some l => Some l | None => jm_get n out end.
Proof.
  unfold profiles_step, cascade_lines. destruct (bool_decide (k_directions c ≠ [])).
  - destruct (js_find _ _) as [p|]; simpl; [|done].
    assert (foldl (λ out n, match entry_profiles db gs entryReach ids c n with [] => out | l => jm_set n l out end) out
              (filter (λ id, id ∈ nodeIds) (ps_nodes p))
            = foldl (λ m n, match (match entry_profiles db gs entryReach ids c n with [] => None | l => Some l end)
                            with None => m | Some v => jm_set n v m end) out (filter (λ id, id ∈ nodeIds) (ps_nodes p))) as Heq.
    { generalize (filter (λ id, id ∈ nodeIds) (ps_nodes p)) as l. intros l. revert out.
      induction l as [|x l IH]; intros out; simpl; [done|]. rewrite IH. by destruct (entry_profiles _ _ _ _ _ x). }
    case_bool_decide as Hempty.
    { rewrite bool_decide_false; [done|]. intros Hn. apply (not_elem_of_nil n). rewrite <-Hempty.
      apply list_elem_of_filter. tauto. }
    destruct (entryReachesCascadeOnlyThroughChain _); [by rewrite andb_false_r|]. rewrite andb_true_r, Heq, reached_map.
    rewrite (decide_ext (n ∈ filter (λ id, id ∈ nodeIds) (ps_nodes p)) (n ∈ ps_nodes p ∧ n ∈ nodeIds))
      by (rewrite list_elem_of_filter; tauto).
    case_decide as Hd; [rewrite bool_decide_true by done|by rewrite bool_decide_false].
    simpl. by destruct (entry_profiles _ _ _ _ _ _).
  - destruct (js_find _ _) as [e|]; simpl; [|done]. case_bool_decide as Hin; simpl.
    + destruct (decide (n = pn_id e.2)) as [->|Hne].
      * rewrite bool_decide_true by done. destruct (hop_profiles _ _ _ _ _ _); [by rewrite jm_get_set_eq|done].
      * rewrite bool_decide_false by tauto. destruct (hop_profiles _ _ _ _ _ _); [by rewrite jm_get_set_ne|done].
    + rewrite bool_decide_false; [done|]. intros [-> ?]. done.
Qed.

Lemma steps_keep nodeIds ids cs out n v : jm_get n out = v →
  (∀ c', c' ∈ cs → match cascade_lines nodeIds ids c' n with Some l => v = Some l | None => True end) →
  jm_get n (foldl (profiles_step db gs entryReach nodeIds ids) out cs) = v.
Proof.
  revert out. induction cs as [|c cs IH]; intros out Hv Hall; simpl; [done|]. apply IH; [|set_solver].
  rewrite step_get. specialize (Hall c ltac:(set_solver)). by destruct (cascade_lines _ _ _ _).
Qed.

(** One cascade writes at the node: its lines are the answer. *)
Lemma steps_get nodeIds ids cs c n : c ∈ cs → (∀ c', c' ∈ cs → c' = c ∨ cascade_lines nodeIds ids c' n = None) →
  jm_get n (foldl (profiles_step db gs entryReach nodeIds ids) [] cs) = cascade_lines nodeIds ids c n.
Proof.
  intros Hc Hall. apply list_elem_of_split in Hc as (cs1 & cs2 & ->). rewrite foldl_app. simpl.
  assert (∀ c', c' ∈ cs1 ∨ c' ∈ cs2 → match cascade_lines nodeIds ids c' n with
            Some l => cascade_lines nodeIds ids c n = Some l | None => True end) as H.
  { intros c' Hc'. destruct (Hall c') as [->| ->]; [set_solver|by destruct (cascade_lines _ _ _ _)|done]. }
  apply steps_keep; [|intros; apply H; auto]. rewrite step_get.
  destruct (cascade_lines nodeIds ids c n) as [l|] eqn:E; [done|].
  apply steps_keep; [done|]. intros c' Hc'. specialize (H c' (or_introl Hc')). by destruct (cascade_lines _ _ c' _).
Qed.

Lemma lines_enter nodeIds ids c n l : cascade_lines nodeIds ids c n = Some l → n ∈ nodeIds ∧ enters c n.
Proof.
  unfold cascade_lines, enters. destruct (bool_decide (k_directions c ≠ [])).
  - destruct (js_find _ _) as [p|] eqn:E; [|done]. case_bool_decide as Hn; simpl; [|done]. intros _.
    apply js_find_Some in E as [Hp H0]. unfold positions_in_order in Hp. apply elem_of_sort_by in Hp. bool_prop.
    split; [tauto|]. left. exists p. tauto.
  - destruct (js_find _ _) as [e|] eqn:E; [|done]. case_bool_decide as Hn; [|done]. intros _.
    apply js_find_Some in E as [He H0]. unfold hops_in_order in He. apply elem_of_sort_by in He. bool_prop.
    split; [tauto|]. right. exists e. naive_solver.
Qed.

(** The cascade is the one entered at the node, by this position, over xray. *)
Record entered (c : CascadeRow) (p : PositionRow) (n : string) : Prop := {
  en_row : c ∈ cascades db;
  en_live : live_cascade db c = true;
  en_directions : k_directions c ≠ [];
  en_position : entries_of c = [p];
  en_node : n ∈ ps_nodes p;
  en_xray : entryReachesCascadeOnlyThroughChain (ps_entryProtocol p) = false;
  en_alone : ∀ c', c' ∈ cascades db → live_cascade db c' = true → enters c' n → c' = c
}.

Lemma one_entry c p l : entries_of c = [p] → l ≡ₚ k_positions c → js_find (λ p, ps_position p =? 0) l = Some p.
Proof.
  intros He Hl. destruct (js_find _ l) as [q|] eqn:E.
  - apply js_find_Some in E as [Hq H0]. bool_prop. rewrite Hl in Hq.
    assert (q ∈ entries_of c) as Hin by (by apply list_elem_of_filter). rewrite He in Hin.
    by apply list_elem_of_singleton in Hin as ->.
  - assert (p ∈ entries_of c) as [H0 Hp]%list_elem_of_filter by (rewrite He; set_solver).
    rewrite <-Hl in Hp. apply (proj1 (js_find_None _ l) E) in Hp. by bool_prop.
Qed.

Lemma entered_lines nodeIds c p n : entered c p n → n ∈ nodeIds →
  default [] (jm_get n (getRouteProfilesByEntryNode db gs entryReach nodeIds))
  = entry_profiles db gs entryReach (k_id <$> cascades_at db nodeIds) c n ∧ c ∈ cascades_at db nodeIds.
Proof.
  intros He Hn. assert (c ∈ cascades_at db nodeIds) as Hin.
  { unfold cascades_at. apply list_elem_of_filter. split; [|apply He]. rewrite (en_live _ _ _ He). simpl.
    unfold enters_among. apply orb_true_iff. right. apply existsb_exists. exists p.
    assert (p ∈ entries_of c) as [H0 Hp]%list_elem_of_filter by (rewrite (en_position _ _ _ He); set_solver).
    split; [by apply list_elem_of_In|]. rewrite H0. simpl. apply existsb_exists. exists n.
    split; [apply list_elem_of_In, He|by apply bool_decide_eq_true]. }
  split; [|done]. unfold getRouteProfilesByEntryNode.
  rewrite bool_decide_false by (intros ->; by apply not_elem_of_nil in Hn). cbv zeta.
  rewrite (steps_get _ _ _ c); [|done|].
  - unfold cascade_lines. rewrite bool_decide_true by apply He. unfold positions_in_order.
    rewrite (one_entry c p) by (apply He || apply sort_by_perm).
    rewrite bool_decide_true by (split; [apply He|done]). rewrite (en_xray _ _ _ He). simpl.
    by destruct (entry_profiles _ _ _ _ _ _).
  - intros c' Hc'. destruct (cascade_lines _ _ c' n) as [l|] eqn:El; [|by right]. left.
    apply lines_enter in El as [_ El]. unfold cascades_at in Hc'. apply list_elem_of_filter in Hc' as [Hl Hc'].
    apply andb_true_iff in Hl as [Hl _]. by apply (en_alone _ _ _ He).
Qed.

(** The tags listed at the node are those the squads grant there. *)
Lemma listed_tags nodeIds c p n t : plain_ids db gs → entered c p n → n ∈ nodeIds →
  t ∈ rt_tag <$> default [] (jm_get n (getRouteProfilesByEntryNode db gs entryReach nodeIds)) ↔
  offered db gs entryReach n c t.
Proof.
  intros Hids He Hn. destruct (entered_lines nodeIds c p n He Hn) as [-> Hin].
  apply entry_tags; [done|]. by apply list_elem_of_fmap_2.
Qed.

Lemma entry_lines_cascade ids c n l : l ∈ entry_profiles db gs entryReach ids c n → rt_cascade l = k_id c.
Proof.
  unfold entry_profiles. destruct (cascadeIsOffAt _ _ _ _); [by intros ?%not_elem_of_nil|]. cbv zeta.
  assert (∀ label i ps l, l ∈ exit_lines c label i ps → rt_cascade l = k_id c) as Hexit.
  { intros label i ps x. unfold exit_lines. rewrite elem_of_cons, list_elem_of_fmap. by intros [->|(? & -> & _)]. }
  rewrite elem_of_app, list_elem_of_bind. intros [H|(d & H & _)].
  - destruct (_ && _); [|by apply not_elem_of_nil in H]. unfold auto_lines in H.
    rewrite elem_of_cons, list_elem_of_fmap in H. by destruct H as [->|(? & -> & _)].
  - destruct (directionServes d); simpl in H; [|by apply not_elem_of_nil in H].
    destruct (match exitAllowAt _ _ _ _ _ with Some _ => _ | None => _ end); [by apply not_elem_of_nil in H|].
    destruct (directionProfileLabel _ _); [by apply Hexit in H|by apply not_elem_of_nil in H].
Qed.
End Answer.

(** Squads grant: with more of them speaking, no tag is lost. *)
Lemma offered_mono db gs1 r1 gs2 r2 n c t :
  (∀ g, g ∈ gs1 → hands_out r1 n g = true → g ∈ gs2 ∧ hands_out r2 n g = true) →
  (∃ g, g ∈ gs1 ∧ hands_out r1 n g = true) →
  offered db gs1 r1 n c t → offered db gs2 r2 n c t.
Proof.
  intros Hsub Hsome [Hon Hline].
  assert (∀ g, speaking db gs1 r1 n (k_id c) g → speaking db gs2 r2 n (k_id c) g) as Hsp.
  { intros g (Hg & Hh & Ho). destruct (Hsub g Hg Hh). by split. }
  assert (∃ g, speaking db gs1 r1 n (k_id c) g) as (g0 & Hg0).
  { destruct (decide (Exists (λ g, hands_out r1 n g = true ∧ ¬ off_for db (k_id c) g) gs1)) as [(g & ? & ? & ?)%Exists_exists|Hno];
      [by exists g|]. exfalso. apply Hon. split; [done|]. intros g Hg Hh. apply dec_stable. intros Ho.
    apply Hno, Exists_exists. by exists g. }
  assert (every_exit db gs1 r1 n (k_id c) → every_exit db gs2 r2 n (k_id c)) as Hevery.
  { intros [Hno|(g & Hg & Hr)]; [by destruct (Hno g0)|]. right. exists g. split; [by apply Hsp|done]. }
  assert (∀ x, names_exit db gs1 r1 n (k_id c) x → names_exit db gs2 r2 n (k_id c) x) as Hnames.
  { intros x (g & Hg & Hx). exists g. split; [by apply Hsp|done]. }
  assert (∀ dirs o, granted db gs1 r1 n (k_id c) dirs o → granted db gs2 r2 n (k_id c) dirs o) as Hgr.
  { intros dirs o (g & Hg & Hx). exists g. split; [by apply Hsp|done]. }
  split.
  - intros [_ Hall]. destruct Hg0 as (Hg & Hh & Ho). destruct (Hsub g0 Hg Hh). by apply Ho, Hall.
  - destruct Hline as [(? & ? & ? & Ht)|(d & ? & ? & Hd & Ht)].
    + left. do 3 (split; [by auto|]). destruct Ht as [|(o & ? & ?)]; [by left|right; exists o; auto].
    + right. exists d. do 2 (split; [done|]). split; [naive_solver|].
      destruct Ht as [|(o & ? & ?)]; [by left|right; exists o; auto].
Qed.

(** ** The gate's users *)
Section GateUsers.
Context (db : Db).

Lemma groups_of u g : g ∈ default [] (jm_get u (groupsOf db)) ↔ g ∈ squads_of db u.
Proof.
  unfold groupsOf. rewrite (group_fold_lookup m_user (λ l m, l ++ [m_group m]) (λ m, [m_group m])) by set_solver.
  unfold memberships, squads_of. rewrite list_elem_of_fmap. setoid_rewrite list_elem_of_filter. split.
  - intros (m & [? ?] & ? & ->%list_elem_of_singleton). by exists m.
  - intros (m & -> & [? ?] & ?). exists m. split; [done|]. split; [done|]. by apply list_elem_of_singleton.
Qed.

Lemma squad_reaches_spec n g : g ∈ m_group <$> memberships db None →
  squad_reaches db n g = true ↔ ∃ b, b ∈ bindings db ∧ n_id (b_node b) = n ∧ reaches db g b.
Proof.
  intros Hg. unfold squad_reaches, node_squads.
  pose proof (λ i m, squads_reach db (js_uniq (m_group <$> memberships db None)) (Some n) g i m
                (proj2 (elem_of_js_uniq _ _) Hg)) as H.
  destruct (jm_get g _) as [[|[i m] l]|]; simpl in H.
  - split; [done|]. intros (b & Hb & Hn & Hr). exfalso. apply (not_elem_of_nil (b_id b, n)), H. by exists b.
  - split; [|done]. intros _. destruct (proj1 (H i m)) as (b & Hb & _ & Hm & Ho & Hr); [set_solver|].
    exists b. split; [done|]. split; [|done]. simpl in Ho. congruence.
  - split; [done|]. intros (b & Hb & Hn & Hr). exfalso. apply (not_elem_of_nil (b_id b, n)), H. by exists b.
Qed.

Definition gate_key (n u : string) (key : string) : Prop :=
  ∃ us, (key, us) ∈ bySet db n ∧ u ∈ us.

Lemma bySet_elem n key u : gate_key n u key ↔
  ∃ gs, (u, gs) ∈ groupsOf db ∧ existsb (squad_reaches db n) gs = true ∧ key = squad_set_key gs.
Proof.
  unfold gate_key, bySet.
  set (l := filter (λ ug : string * list string, existsb (squad_reaches db n) ug.2 = true) (groupsOf db)).
  pose proof (group_fold_lookup (λ ug : string * list string, squad_set_key ug.2) (λ us ug, us ++ [ug.1]) (λ ug, [ug.1]) l key u) as H.
  pose proof (jm_wf_group (λ ug : string * list string, squad_set_key ug.2) (λ _, []) (λ us ug, us ++ [ug.1]) l) as Hwf.
  transitivity (u ∈ default [] (jm_get key (foldl (group_add (λ ug : string * list string, squad_set_key ug.2) (λ _, []) (λ us ug, us ++ [ug.1])) [] l))).
  - split.
    + intros (us & Hin & Hu). apply jm_elem_get in Hin; [|done]. by rewrite Hin.
    + destruct (jm_get key _) as [us|] eqn:E; [|by intros ?%not_elem_of_nil]. intros Hu. exists us.
      split; [by apply jm_get_Some_elem|done].
  - rewrite H by set_solver. unfold l. split.
    + intros ([u' gs] & [? ?]%list_elem_of_filter & <- & ->%list_elem_of_singleton). by exists gs.
    + intros (gs & Hin & He & ->). exists (u, gs). split; [by apply list_elem_of_filter|]. split; [done|].
      by apply list_elem_of_singleton.
Qed.

Lemma groupsOf_wf : jm_wf (groupsOf db).
Proof. apply jm_wf_group. Qed.

(** The fold that fills the gate. *)
Lemma gate_fill (tags : string → list Z) entries gate u :
  jm_get u (foldl (λ gate ku, foldl (λ gate u, jm_set u (tags ku.1) gate) gate ku.2) gate entries)
  = match last (filter (λ ku : string * list string, u ∈ ku.2) entries) with
    | Some ku => Some (tags ku.1) | None => jm_get u gate end.
Proof.
  revert gate. induction entries as [|[k us] entries IH] using rev_ind; intros gate; [done|].
  rewrite foldl_app, filter_app. simpl. rewrite filter_cons, filter_nil.
  assert (∀ us gate, jm_get u (foldl (λ gate u, jm_set u (tags k) gate) gate us)
    = if decide (u ∈ us) then Some (tags k) else jm_get u gate) as ->.
  { clear. intros us. induction us as [|x us IH]; intros gate; simpl; [done|]. rewrite IH, jm_get_set.
    destruct (decide (u = x)) as [->|]; [rewrite (decide_True (P := x ∈ x :: us)) by set_solver; by case_decide|].
    apply decide_ext. set_solver. }
  simpl. case_decide; [by rewrite last_snoc|]. by rewrite app_nil_r, IH.
Qed.

Lemma user_tags_spec n c u : let gs := default [] (jm_get u (groupsOf db)) in
  existsb (squad_reaches db n) gs = true →
  jm_get u (user_tags db n c) = Some (tags_for db n c (js_split "," (squad_set_key gs))).
Proof.
  cbv zeta. intros He. destruct (jm_get u (groupsOf db)) as [gs|] eqn:Eu; [|done]. simpl in *.
  unfold user_tags. rewrite (gate_fill (λ key, tags_for db n c (js_split "," key))).
  assert (∀ key us, (key, us) ∈ bySet db n → u ∈ us → key = squad_set_key gs) as Hkey.
  { intros key us Hin Hu. destruct (proj1 (bySet_elem n key u)) as (gs' & Hg & _ & ->); [by exists us|].
    apply jm_elem_get in Hg; [|apply groupsOf_wf]. by simplify_eq. }
  destruct (proj2 (bySet_elem n (squad_set_key gs) u)) as (us & Hin & Hu).
  { exists gs. split; [by apply jm_get_Some_elem|done]. }
  destruct (last _) as [[key us']|] eqn:El.
  - simpl. apply last_Some_elem_of, list_elem_of_filter in El as [Hu' Hin']. by rewrite (Hkey key us').
  - apply last_None in El. exfalso. apply (not_elem_of_nil (squad_set_key gs, us)). rewrite <-El.
    by apply list_elem_of_filter.
Qed.

(** The set of squads is read back from its key. *)
Lemma squad_key_read gs g : gs ≠ [] → Forall (char_free ",") gs → g ∈ js_split "," (squad_set_key gs) ↔ g ∈ gs.
Proof.
  intros Hne Hf. unfold squad_set_key. rewrite js_split_join.
  - apply elem_of_sort_by.
  - intros E. apply Hne. pose proof (sort_by_perm str_leb gs) as Hp. rewrite E in Hp. by apply Permutation_nil in Hp.
  - by rewrite sort_by_perm.
Qed.
End GateUsers.

(** ** The subscription and the gate *)
Section Both.
Context (weigh : Z → Z → Z) (q : SubRequest) (db : Db) (u : string).

Definition served : list BindingRow := servedBindings weigh q db u (squads_of db u).
Definition sub_reach : reach_map := Some (UserReach.entryReach db (squads_of db u) served).
Definition sub_nodes : list string := js_uniq ((λ b, n_id (b_node b)) <$> served).

(** [balancerExits]: the lines of the user's subscription, per entry node. *)
Definition subscription_lines : list (string * list CascadeRouteProfile) :=
  getRouteProfilesByEntryNode db (squads_of db u) sub_reach sub_nodes.

Definition line_tags (n : string) : list Z := rt_tag <$> default [] (jm_get n subscription_lines).

(** Squad and cascade ids, as the panel makes them. *)
Definition ids_ok : Prop := plain_ids db (squads_of db u) ∧ Forall (char_free ",") (squads_of db u).

(** The top N and the entry cap leave the node all the bindings the user's
    squads make eligible there. *)
Definition uncut (n : string) : Prop := ∀ b, b ∈ eligibleBindings db (squads_of db u) (q_now q) →
  n_id (b_node b) = n → left_in weigh q u (eligibleBindings db (squads_of db u) (q_now q)) b.

Lemma limits_off_uncut n : limits_off q → uncut n.
Proof. intros Hoff b _ _. by apply limits_off_left. Qed.

(** The user reaches the entry: a squad of theirs reaches a binding on it, the
    subscription's query keeps the node, and the limits leave it whole. *)
Definition at_entry (n : string) : Prop := uncut n ∧
  ∃ g b, g ∈ squads_of db u ∧ b ∈ bindings db ∧ reaches db g b ∧
    n_id (b_node b) = n ∧ n ∉ getHiddenCascadeNodeIds db ∧
    ∀ b', b' ∈ bindings db → n_id (b_node b') = n → node_served (q_now q) (b_node b') = true.

(** What a squad of the user reaches at the entry is served. *)
Lemma entry_served n g b : at_entry n → g ∈ squads_of db u → b ∈ bindings db → reaches db g b → n_id (b_node b) = n →
  shown db (squads_of db u) b ∈ served.
Proof.
  intros (Hcut & _ & _ & _ & _ & _ & _ & Hhid & Hs) Hg Hb Hr Hn. pose proof (proj2 (shown_fields db (squads_of db u) b)) as Hnode.
  assert (shown db (squads_of db u) b ∈ eligibleBindings db (squads_of db u) (q_now q)) as Hel.
  { apply (reaches_eligible db _ g); [done..|by apply Hs|congruence]. }
  apply served_elem. split; [done|]. apply Hcut; [done|congruence].
Qed.

Lemma sub_hands_out n g : hands_out sub_reach n g = true ↔
  g ∈ squads_of db u ∧ ∃ b, b ∈ served ∧ n_id (b_node b) = n ∧ hands_host db (narrowedSquads db (squads_of db u)) g b = true.
Proof.
  unfold hands_out, sub_reach. rewrite <-entry_reach_elem. destruct (jm_get n _); simpl; [apply bool_decide_eq_true|].
  split; [done|]. by intros ?%not_elem_of_nil.
Qed.

Lemma user_squad g : g ∈ squads_of db u → g ∈ m_group <$> memberships db None.
Proof.
  unfold squads_of, memberships. rewrite !list_elem_of_fmap. setoid_rewrite list_elem_of_filter. naive_solver.
Qed.

(** What a squad reaches, it hands out. *)
Lemma reaches_hands_out n g : at_entry n → g ∈ squads_of db u → squad_reaches db n g = true → hands_out sub_reach n g = true.
Proof.
  intros Hat Hg Hr. apply squad_reaches_spec in Hr as (b & Hb & Hn & Hr); [|by apply user_squad].
  apply sub_hands_out. split; [done|]. exists (shown db (squads_of db u) b).
  split; [by apply (entry_served n g)|]. split; [by rewrite (proj2 (shown_fields db (squads_of db u) b))|].
  by apply (reaches_shown db).
Qed.

Lemma at_entry_squad n : at_entry n → ∃ g, g ∈ squads_of db u ∧ squad_reaches db n g = true.
Proof.
  intros (_ & g & b & Hg & Hb & Hr & Hn & _). exists g. split; [done|].
  apply squad_reaches_spec; [by apply user_squad|]. by exists b.
Qed.

Lemma at_entry_node n : at_entry n → n ∈ sub_nodes.
Proof.
  intros Hat. pose proof Hat as (_ & g & b & Hg & Hb & Hr & Hn & _). unfold sub_nodes.
  rewrite elem_of_js_uniq, list_elem_of_fmap. exists (shown db (squads_of db u) b).
  split; [by rewrite (proj2 (shown_fields db (squads_of db u) b))|]. by apply (entry_served n g).
Qed.

(** The gate's answer for the user, in terms of what is offered. *)
Lemma gate_answer n c p : ids_ok → entered db c p n → at_entry n →
  ∃ ts, jm_get u (user_tags db n (k_id c)) = Some ts ∧
    ∀ t, t ∈ ts ↔ offered db (squads_of db u)
                    (Some [(n, js_uniq (filter (λ g, squad_reaches db n g = true) (squads_of db u)))]) n c t.
Proof.
  intros [Hplain Hcomma] He Hat. destruct (at_entry_squad n Hat) as (g0 & Hg0 & Hr0).
  pose proof (groups_of db u) as Hgs. set (gs := default [] (jm_get u (groupsOf db))) in *.
  assert (existsb (squad_reaches db n) gs = true) as Hex.
  { apply existsb_exists. exists g0. split; [by apply list_elem_of_In, Hgs|done]. }
  exists (tags_for db n (k_id c) (js_split "," (squad_set_key gs))). split; [by apply user_tags_spec|].
  assert (gs ≠ []) as Hne by (intros E; rewrite E in Hgs; by apply Hgs, not_elem_of_nil in Hg0).
  assert (∀ g, g ∈ js_split "," (squad_set_key gs) ↔ g ∈ squads_of db u) as Hkey.
  { intros g. rewrite squad_key_read, Hgs; [done|done|]. apply Forall_forall. intros x Hx%Hgs.
    rewrite Forall_forall in Hcomma. by apply Hcomma. }
  set (gs2 := js_split "," (squad_set_key gs)) in *.
  set (r2 := Some [(n, js_uniq (filter (λ g, squad_reaches db n g = true) gs2))]).
  set (r1 := Some [(n, js_uniq (filter (λ g, squad_reaches db n g = true) (squads_of db u)))]).
  assert (∀ l g, hands_out (Some [(n, js_uniq (filter (λ g, squad_reaches db n g = true) l))]) n g = true ↔
                 g ∈ l ∧ squad_reaches db n g = true) as Hh.
  { intros l g. unfold hands_out. simpl. rewrite decide_True by done.
    rewrite bool_decide_eq_true, elem_of_js_uniq, list_elem_of_filter. tauto. }
  assert (plain_ids db gs2) as Hplain2.
  { destruct Hplain as [H1 H2]. split; [|done]. intros g Hg%Hkey. by apply H1. }
  intros t. unfold tags_for. fold r2. rewrite elem_of_js_uniq.
  transitivity (offered db gs2 r2 n c t).
  - destruct (entered_lines db gs2 r2 [n] c p n He) as [Hl Hc]; [set_solver|].
    rewrite <-(entry_tags db gs2 r2 (k_id <$> cascades_at db [n]) c n t Hplain2) by (by apply list_elem_of_fmap_2).
    rewrite Hl, !list_elem_of_fmap. setoid_rewrite list_elem_of_filter. split.
    + intros (x & -> & _ & ?). by exists x.
    + intros (x & -> & Hx). exists x. split; [done|]. split; [|done]. by apply entry_lines_cascade in Hx.
  - split; apply offered_mono.
    + intros g Hg Hx%Hh. split; [by apply Hkey|]. apply Hh. split; [by apply Hkey|apply Hx].
    + exists g0. split; [by apply Hkey|]. apply Hh. split; [by apply Hkey|done].
    + intros g Hg Hx%Hh. split; [by apply Hkey|]. apply Hh. split; [by apply Hkey|apply Hx].
    + exists g0. split; [done|]. by apply Hh.
Qed.

Lemma lines_answer n c p t : ids_ok → entered db c p n → at_entry n →
  t ∈ line_tags n ↔ offered db (squads_of db u) sub_reach n c t.
Proof.
  intros [Hplain _] He Hat. unfold line_tags, subscription_lines.
  apply (listed_tags db (squads_of db u) sub_reach sub_nodes c p n t Hplain He). by apply at_entry_node.
Qed.
(** What the gate offers, the subscription offers. *)
Lemma gate_offered n c t : at_entry n →
  offered db (squads_of db u) (Some [(n, js_uniq (filter (λ g, squad_reaches db n g = true) (squads_of db u)))]) n c t →
  offered db (squads_of db u) sub_reach n c t.
Proof.
  intros Hat. apply offered_mono.
  - intros g Hg Hh. split; [done|]. apply (reaches_hands_out n g Hat Hg).
    unfold hands_out in Hh. simpl in Hh. rewrite decide_True in Hh by done. bool_prop.
    by apply elem_of_js_uniq, list_elem_of_filter in Hh as [? _].
  - destruct (at_entry_squad n Hat) as (g & Hg & Hr). exists g. split; [done|].
    unfold hands_out. simpl. rewrite decide_True by done. apply bool_decide_eq_true, elem_of_js_uniq, list_elem_of_filter.
    by split.
Qed.
End Both.

(** C7. Where the request's top N and the entry cap leave a user every binding
    of an xray entry they reach, as both do when neither is set, the gate opens no
    more than the subscription lists: a tag the user may take there is the tag of
    a line they are handed there. *)
Theorem gate_within_lines weigh q db u n c p : ids_ok db u → entered db c p n → at_entry weigh q db u n →
  ∃ ts, jm_get u (user_tags db n (k_id c)) = Some ts ∧ ∀ t, t ∈ ts → t ∈ line_tags weigh q db u n.
Proof.
  intros Hids He Hat. destruct (gate_answer weigh q db u n c p Hids He Hat) as (ts & Hts & Hoff).
  exists ts. split; [done|]. intros t Ht%Hoff. apply (lines_answer weigh q db u n c p t Hids He Hat).
  by apply gate_offered.
Qed.

(** The verdict on a tag some rule names, for a user of the gate. *)
Lemma verdict_refused may rules conn u t ts : jm_get u may = Some ts → c_route conn = Some t → c_user conn = u →
  names_tag rules t = true → verdict may rules conn = Refused ↔ t ∉ ts.
Proof.
  intros Hts Hc Hu Hn. assert (may_take may u (Some t) = true ↔ t ∈ ts) as Hmay
    by (unfold may_take; rewrite Hts; apply bool_decide_eq_true).
  unfold verdict. rewrite Hc, Hn, Hu. cbn [negb orb]. destruct (may_take may u (Some t)) eqn:E.
  - split; [by destruct (everyone_may _ _)|]. intros Hno. by destruct Hno; apply Hmay.
  - split; [intros _ Hin; by apply Hmay in Hin|]. intros _.
    assert (everyone_may may t = false) as ->; [|done]. unfold everyone_may. apply andb_false_iff. right.
    apply not_true_iff_false. rewrite forallb_forall. intros Hall. rewrite Hall in E; [done|].
    apply list_elem_of_In, jm_get_is_Some. by rewrite Hts.
Qed.

(** For a user of one squad the gate is the subscription turned around: of
    the tags the entry's rules name, it refuses exactly those that are no line
    of theirs. *)
Theorem one_squad_gate weigh q db u n c p g rules conn t : ids_ok db u → entered db c p n → at_entry weigh q db u n →
  squads_of db u = [g] → c_route conn = Some t → c_user conn = u → names_tag rules t = true →
  verdict (user_tags db n (k_id c)) rules conn = Refused ↔ t ∉ line_tags weigh q db u n.
Proof.
  intros Hids He Hat Hone Hc Hu Hnames. destruct (gate_answer weigh q db u n c p Hids He Hat) as (ts & Hts & Hoff).
  rewrite (verdict_refused _ _ _ u t ts) by done. apply not_iff_compat.
  rewrite Hoff, (lines_answer weigh q db u n c p t Hids He Hat).
  destruct (at_entry_squad weigh q db u n Hat) as (g' & Hg' & Hr). pose proof Hg' as Heq. rewrite Hone in Heq.
  apply list_elem_of_singleton in Heq as ->.
  assert (hands_out (Some [(n, js_uniq (filter (λ g, squad_reaches db n g = true) (squads_of db u)))]) n g = true) as Hgate.
  { unfold hands_out. simpl. rewrite decide_True by done.
    apply bool_decide_eq_true, elem_of_js_uniq, list_elem_of_filter. by split. }
  pose proof (reaches_hands_out weigh q db u n g Hat Hg' Hr) as Hsub.
  assert (∀ x, x ∈ squads_of db u → x = g) as Hx by (intros x; rewrite Hone; apply list_elem_of_singleton).
  split; apply offered_mono; try (by exists g).
  - intros x ->%Hx _. by split.
  - intros x ->%Hx _. by split.
Qed.

(** ** Tags *)

(** The tags of a cascade's directions, and the ordinals of the policies. *)
Definition tags_ok (db : Db) (c : CascadeRow) : Prop :=
  (∀ d, d ∈ k_directions c → 1 <= w_tag d <= 255) ∧
  (∀ d d', d ∈ k_directions c → d' ∈ k_directions c → w_tag d = w_tag d' → d = d') ∧
  (∀ r, r ∈ groupRoutePolicy db → 0 <= rp_ordinal r.2 <= MAX_DIRECTION_ORDINAL).

Lemma line_tag_inj o i o' i' : 0 <= i < 256 → 0 <= i' < 256 → 0 <= o → 0 <= o' →
  i + 1 < 256 → i' + 1 < 256 → routeTag o i = routeTag o' i' → o = o' ∧ i = i'.
Proof. unfold routeTag. lia. Qed.

Lemma not_auto o i : 0 <= i <= 254 → 0 <= o <= MAX_DIRECTION_ORDINAL → isAutoRouteTag (routeTag o i) = false.
Proof. unfold isAutoRouteTag, autoRouteTag, routeTag, MAX_DIRECTION_ORDINAL. intros. apply Z.leb_gt. lia. Qed.

Lemma direction_read o i : 0 <= i <= 254 → 0 <= o <= MAX_DIRECTION_ORDINAL → directionOfRouteTag (routeTag o i) = Some (i + 1).
Proof.
  intros Hi Ho. unfold directionOfRouteTag. rewrite not_auto by done. unfold routeTag.
  replace (o * 256 + i + 1) with (i + 1 + o * 256) by lia. rewrite Z.mod_add, Z.mod_small by lia. done.
Qed.

(** What a user of restricted squads is offered: their directions. *)
Lemma offered_restricted db gs r n c t : tags_ok db c → ¬ every_exit db gs r n (k_id c) → offered db gs r n c t →
  ∃ d, d ∈ k_directions c ∧ directionServes d = true ∧ names_exit db gs r n (k_id c) (w_id d) ∧
    isAutoRouteTag t = false ∧ directionOfRouteTag t = Some (w_tag d).
Proof.
  intros (Htags & _ & Hord) Hno [_ [(_ & ? & _)|(d & Hd & Hs & [?|Hx] & Ht)]]; [done..|].
  exists d. do 3 (split; [done|]). specialize (Htags d Hd).
  assert (∃ o, 0 <= o <= MAX_DIRECTION_ORDINAL ∧ t = routeTag o (w_tag d - 1)) as (o & Ho & ->).
  { destruct Ht as [->|(o & (g & _ & _ & p & Hp & <-) & ->)]; [exists 0; unfold MAX_DIRECTION_ORDINAL; split; [lia|done]|].
    exists (rp_ordinal p). split; [|done]. by apply (Hord (g, p)). }
  split; [apply not_auto; lia|]. rewrite direction_read by lia. f_equal. lia.
Qed.

(** C22. A user whose squads at the entry all have exit rows is confined to the
    directions the rows of those squads name: every line handed to them there,
    and every tag the gate lets them take, is of such a direction and none is
    Auto.  A squad counts at the entry when it hands out one of the bindings the
    subscription serves there and has not switched the cascade off; the rows of
    the user's other squads add nothing.  The top N and the entry cap leave the
    entry its bindings, as in C7. *)
Theorem restricted_confined weigh q db u n c p t : ids_ok db u → tags_ok db c → entered db c p n →
  at_entry weigh q db u n → ¬ every_exit db (squads_of db u) (sub_reach weigh q db u) n (k_id c) →
  t ∈ line_tags weigh q db u n ∨ (∃ ts, jm_get u (user_tags db n (k_id c)) = Some ts ∧ t ∈ ts) →
  ∃ d g b, d ∈ k_directions c ∧ directionServes d = true ∧ isAutoRouteTag t = false ∧
    directionOfRouteTag t = Some (w_tag d) ∧ row_names db (k_id c) g (w_id d) ∧
    g ∈ squads_of db u ∧ ¬ off_for db (k_id c) g ∧ b ∈ servedBindings weigh q db u (squads_of db u) ∧
    n_id (b_node b) = n ∧ hands_host db (narrowedSquads db (squads_of db u)) g b = true.
Proof.
  intros Hids Htags He Hat Hno Ht.
  assert (offered db (squads_of db u) (sub_reach weigh q db u) n c t) as Hoff.
  { destruct Ht as [Ht|(ts & Hts & Ht)]; [by apply (lines_answer weigh q db u n c p t Hids He Hat)|].
    destruct (gate_answer weigh q db u n c p Hids He Hat) as (ts' & Hts' & Hgate). simplify_eq.
    by apply (gate_offered weigh q db u n c t Hat), Hgate. }
  apply offered_restricted in Hoff as (d & Hd & Hs & (g & (Hg & Hh & Hn) & Hx) & ? & ?); [|done..].
  apply sub_hands_out in Hh as (_ & b & Hb & Hbn & Hbh). by exists d, g, b.
Qed.

(** Two squads: one does not grant the entry's profile and never narrowed
    anything; the other grants it, with exit rows.  The subscription lets the
    first speak at the entry, and lists every direction; the gate does not, and
    the entry refuses a direction the rows leave out, though its line was
    handed out. *)
Theorem offered_line_refused weigh q db u n c p g1 g2 d : ids_ok db u → tags_ok db c → entered db c p n → at_entry weigh q db u n →
  squads_of db u = [g1; g2] → ¬ narrowed db g1 → squad_reaches db n g1 = false →
  ¬ off_for db (k_id c) g1 → ¬ off_for db (k_id c) g2 → ¬ has_rows db (k_id c) g1 → has_rows db (k_id c) g2 →
  d ∈ k_directions c → directionServes d = true → ¬ row_names db (k_id c) g2 (w_id d) →
  let t := routeTag 0 (w_tag d - 1) in
  t ∈ line_tags weigh q db u n ∧
  ∀ rules conn, c_route conn = Some t → c_user conn = u → names_tag rules t = true →
    verdict (user_tags db n (k_id c)) rules conn = Refused.
Proof.
  intros Hids Htags He Hat Hsq Hn1 Hr1 Ho1 Ho2 Hrows1 Hrows2 Hd Hs Hnot t.
  destruct (at_entry_squad weigh q db u n Hat) as (g & Hg & Hr).
  assert (g = g2) as -> by (rewrite Hsq in Hg; apply elem_of_cons in Hg as [->|Hg]; [congruence|by apply list_elem_of_singleton in Hg]).
  assert (g1 ∈ squads_of db u) as Hg1 by (rewrite Hsq; set_solver).
  assert (hands_out (sub_reach weigh q db u) n g1 = true) as Hh1.
  { pose proof (reaches_hands_out weigh q db u n g2 Hat Hg Hr) as Hh. apply sub_hands_out in Hh as (_ & b & Hb & Hbn & _).
    apply sub_hands_out. split; [done|]. exists b. do 2 (split; [done|]). unfold hands_host.
    rewrite bool_decide_false; [done|]. intros Hin. by apply Hn1, (narrowedSquads_elem db (squads_of db u)). }
  split.
  - apply (lines_answer weigh q db u n c p t Hids He Hat). split; [by intros [_ Hall]; apply Ho1, Hall|].
    right. exists d. do 2 (split; [done|]). split; [left; right; by exists g1|by left].
  - destruct (gate_answer weigh q db u n c p Hids He Hat) as (ts & Hts & Hoff).
    set (r := Some [(n, js_uniq (filter (λ g, squad_reaches db n g = true) (squads_of db u)))]) in *.
    assert (∀ g, speaking db (squads_of db u) r n (k_id c) g ↔ g = g2) as Hsp.
    { intros g. unfold speaking, hands_out, r. simpl. rewrite decide_True by done.
      rewrite bool_decide_eq_true, elem_of_js_uniq, list_elem_of_filter. split; [|intros ->; tauto].
      intros (Hgin & [Hgr _] & _). rewrite Hsq in Hgin. apply elem_of_cons in Hgin as [->|Hgin]; [congruence|].
      by apply list_elem_of_singleton in Hgin. }
    assert (t ∉ ts) as Hnt.
    { intros Ht%Hoff. pose proof Htags as (Hrange & Hinj & _).
      apply offered_restricted in Ht as (d' & Hd' & _ & (g & ->%Hsp & Hx) & _ & Hdir); [|done|].
      - subst t. rewrite direction_read in Hdir by (unfold MAX_DIRECTION_ORDINAL; specialize (Hrange d Hd); lia).
        injection Hdir as Hdir. assert (d = d') as <- by (apply Hinj; [done..|lia]). done.
      - intros [Hnobody|(g & ->%Hsp & Hno)]; [by apply (Hnobody g2), Hsp|done]. }
    intros rules conn Hc Hu Hnames. by apply (verdict_refused _ _ _ u t ts).
Qed.

(** A policy one squad grants for some directions only, while another squad
    opens every exit: the user gets the policy's variant of Auto, whose balancer
    spans every direction, and no variant of a direction the grant leaves out. *)
Theorem auto_variant_outgrants db gs r nodeIds n c p g1 g2 d d' o :
  plain_ids db gs → tags_ok db c → entered db c p n → n ∈ nodeIds →
  k_autoProfile c = true → d ∈ usable c → d' ∈ usable c → w_id d ≠ w_id d' → 1 <= o <= MAX_DIRECTION_ORDINAL →
  speaking db gs r n (k_id c) g1 → ¬ has_rows db (k_id c) g1 →
  speaking db gs r n (k_id c) g2 → has_rows db (k_id c) g2 → row_names db (k_id c) g2 (w_id d') →
  ¬ row_names db (k_id c) g2 (w_id d) → squad_policy db g2 o →
  (∀ g, speaking db gs r n (k_id c) g → squad_policy db g o → g = g2) →
  let tags := rt_tag <$> default [] (jm_get n (getRouteProfilesByEntryNode db gs r nodeIds)) in
  autoRouteTag o ∈ tags ∧ routeTag 0 (w_tag d - 1) ∈ tags ∧ routeTag o (w_tag d - 1) ∉ tags.
Proof.
  intros Hids Htags He Hn Hauto Hd Hd' Hne Ho Hs1 Hr1 Hs2 Hr2 Hx' Hx Hp Honly. cbv zeta.
  rewrite !(listed_tags db gs r nodeIds c p n _ Hids He Hn).
  assert (¬ off_at db gs r n (k_id c)) as Hon by (intros [_ Hall]; destruct Hs1 as (? & ? & Hno); by apply Hno, Hall).
  assert (every_exit db gs r n (k_id c)) as Hevery by (right; by exists g1).
  assert (∀ d, d ∈ usable c → d ∈ k_directions c ∧ directionServes d = true) as Hu.
  { intros x [? Hin]%list_elem_of_filter. unfold directions_in_order in Hin. by apply elem_of_sort_by in Hin. }
  destruct (Hu d Hd) as [Hdk Hds]. pose proof Htags as (Hrange & Hinj & Hord). specialize (Hrange d Hdk) as Hdr.
  split; [|split].
  - split; [done|]. left. do 2 (split; [done|]). split.
    + destruct (usable c) as [|x [|y l]]; [by apply not_elem_of_nil in Hd| |simpl; lia].
      apply list_elem_of_singleton in Hd as ->. apply list_elem_of_singleton in Hd' as ->. done.
    + right. exists o. split; [|done]. exists g2. split; [done|]. split; [|done]. intros _.
      exists (w_id d'). split; [by apply list_elem_of_fmap_2|done].
  - split; [done|]. right. exists d. split; [done|]. split; [done|]. split; [by left|by left].
  - intros [_ [(_ & _ & _ & Ht)|(x & Hxk & _ & _ & Ht)]].
    + assert (∃ o', 0 <= o' <= MAX_DIRECTION_ORDINAL ∧ routeTag o (w_tag d - 1) = autoRouteTag o') as (o' & Ho' & E).
      { destruct Ht as [E|(o' & (g & _ & _ & q & Hq & <-) & E)]; [exists 0; unfold MAX_DIRECTION_ORDINAL; by split; [lia|]|].
        exists (rp_ordinal q). split; [by apply (Hord (g, q))|done]. }
      unfold routeTag, autoRouteTag, MAX_DIRECTION_ORDINAL in *. lia.
    + specialize (Hrange x Hxk). destruct Ht as [E|(o' & (g & Hg & Hlets & q & Hq & <-) & E)].
      * unfold routeTag in E. lia.
      * assert (0 <= rp_ordinal q <= MAX_DIRECTION_ORDINAL) as Hqr by (by apply (Hord (g, q))).
        assert (rp_ordinal q = o ∧ w_tag x = w_tag d) as [<- Htag]
          by (unfold routeTag, MAX_DIRECTION_ORDINAL in *; lia).
        assert (x = d) as -> by (by apply Hinj). assert (g = g2) as -> by (apply Honly; [done|by exists q]).
        destruct (Hlets Hr2) as (y & ->%list_elem_of_singleton & Hy). done.
Qed.

(** ** A small fleet *)
Definition way (i : string) (tag : Z) (country node : string) : WayOut :=
  mkWayOut i tag (Some country) [mkPoolNode node node (Some country)] None.
Definition ex_cascade : CascadeRow :=
  mkCascadeRow "k" "ru" true true true true [] [mkPositionRow 0 (Some "xray") ["e"]]
    [way "d-nl" 1 "nl" "x1"; way "d-se" 2 "se" "x2"].

(** Squad [nl] grants the entry's profile, with one exit; squad [all] another
    profile.  Ann is in both, Bob in [nl]. *)
Definition ex_fleet : Db :=
  mkDb [mkMember "ann" "all" true; mkMember "ann" "nl" true; mkMember "bob" "nl" true]
       [("all", "q"); ("nl", "p")] []
       [ex_binding "b1" "e" "p" "h1"; ex_binding "b2" "n2" "q" "h2"]
       [ex_cascade] [] [] [mkExitRow "nl" "k" (Some "d-nl") None] [("nl", mkPolicyRef 1 "no ads")].

Example ex_lines : rt_label <$> default [] (jm_get "e" (subscription_lines ex_weigh ex_request ex_fleet "ann"))
  = ["⚡ ru → Auto"; "⚡ ru → Auto · no ads"; "🇳🇱 ru → NL"; "🇳🇱 ru → NL · no ads"; "🇸🇪 ru → SE"].
Proof. vm_compute. reflexivity. Qed.

Example ex_gate : user_tags ex_fleet "e" "k" = [("ann", [1; 257]); ("bob", [1; 257])].
Proof. vm_compute. reflexivity. Qed.

Lemma ex_plain gs : gs = ["all"; "nl"] ∨ gs = ["nl"] → plain_ids ex_fleet gs ∧ Forall (char_free ",") gs.
Proof.
  intros Hgs. split; [split|].
  - apply Forall_forall. destruct Hgs as [-> | ->]; apply (bool_decide_unpack _); vm_compute; exact I.
  - intros r Hr. apply list_elem_of_singleton in Hr as ->. apply (bool_decide_unpack _). vm_compute. exact I.
  - destruct Hgs as [-> | ->]; apply (bool_decide_unpack _); vm_compute; exact I.
Qed.

Lemma ex_entered : entered ex_fleet ex_cascade (mkPositionRow 0 (Some "xray") ["e"]) "e".
Proof.
  split; try (vm_compute; reflexivity); [by left|done|by left|]. by intros c' ->%list_elem_of_singleton _ _.
Qed.

Lemma ex_tags : tags_ok ex_fleet ex_cascade.
Proof.
  split; [|split].
  - intros d Hd. simpl in Hd. repeat (apply elem_of_cons in Hd as [->|Hd]; [simpl; lia|]). by apply not_elem_of_nil in Hd.
  - intros d d' Hd Hd'. simpl in Hd, Hd'. repeat (apply elem_of_cons in Hd as [->|Hd];
      [repeat (apply elem_of_cons in Hd' as [->|Hd']; [done|]); by apply not_elem_of_nil in Hd'|]).
    by apply not_elem_of_nil in Hd.
  - intros r ->%list_elem_of_singleton. vm_compute. split; discriminate.
Qed.

Lemma ex_reaches : reaches ex_fleet "nl" (ex_binding "b1" "e" "p" "h1").
Proof.
  split; [by vm_compute|]. split; [by vm_compute|]. split.
  - exists (mkHost "h1" true). split; [vm_compute; by left|]. by intros ?%not_elem_of_nil.
  - by intros (id & c & ?%not_elem_of_nil & _).
Qed.

Lemma ex_at_entry u : "nl" ∈ squads_of ex_fleet u → at_entry ex_weigh ex_request ex_fleet u "e".
Proof.
  intros Hu. split; [apply limits_off_uncut, ex_limits_off|]. exists "nl", (ex_binding "b1" "e" "p" "h1"). split; [done|]. split; [by left|]. split; [apply ex_reaches|].
  split; [done|]. split; [apply (bool_decide_unpack _); vm_compute; exact I|].
  intros b Hb _. simpl in Hb. repeat (apply elem_of_cons in Hb as [->|Hb]; [vm_compute; reflexivity|]).
  by apply not_elem_of_nil in Hb.
Qed.

Lemma ex_rows : has_rows ex_fleet "k" "nl" ∧ ¬ has_rows ex_fleet "k" "all" ∧
  row_names ex_fleet "k" "nl" "d-nl" ∧ ¬ row_names ex_fleet "k" "nl" "d-se".
Proof.
  assert (∀ g, ¬ off_for ex_fleet "k" g) as Hoff by (by intros g ?%not_elem_of_nil).
  split; [|split; [|split]].
  - split; [done|]. eexists. split; [by left|done].
  - by intros (_ & r & ->%list_elem_of_singleton & ? & _).
  - split; [done|]. eexists. split; [by left|]. done.
  - by intros (_ & r & ->%list_elem_of_singleton & _ & _ & ? & _).
Qed.

Theorem gate_within_lines_witness :
  ∃ ts, jm_get "ann" (user_tags ex_fleet "e" "k") = Some ts ∧ ∀ t, t ∈ ts → t ∈ line_tags ex_weigh ex_request ex_fleet "ann" "e".
Proof.
  apply (gate_within_lines ex_weigh ex_request ex_fleet "ann" "e" ex_cascade (mkPositionRow 0 (Some "xray") ["e"])).
  - apply ex_plain. by left.
  - apply ex_entered.
  - apply ex_at_entry. vm_compute. right. by left.
Defined.

Definition ex_rules : list Rule := [route_rule "1" "out-nl"; route_rule "2" "out-se"].
Definition ex_connection (u : string) (t : Z) : Connection := mkConnection (Some t) u "in" "tcp" 443 (λ _, false) (λ _, false).

Theorem one_squad_gate_witness :
  verdict (user_tags ex_fleet "e" "k") ex_rules (ex_connection "bob" 2) = Refused ↔ 2 ∉ line_tags ex_weigh ex_request ex_fleet "bob" "e".
Proof.
  apply (one_squad_gate ex_weigh ex_request ex_fleet "bob" "e" ex_cascade (mkPositionRow 0 (Some "xray") ["e"]) "nl"); try done.
  - apply ex_plain. by right.
  - apply ex_entered.
  - apply ex_at_entry. vm_compute. by left.
Defined.

Theorem restricted_confined_witness :
  ∃ d g, d ∈ k_directions ex_cascade ∧ directionOfRouteTag 257 = Some (w_tag d) ∧ row_names ex_fleet "k" g (w_id d).
Proof.
  destruct (restricted_confined ex_weigh ex_request ex_fleet "bob" "e" ex_cascade (mkPositionRow 0 (Some "xray") ["e"]) 257)
    as (d & g & b & ? & _ & _ & ? & ? & _).
  - apply ex_plain. by right.
  - apply ex_tags.
  - apply ex_entered.
  - apply ex_at_entry. vm_compute. by left.
  - destruct ex_rows as (Hr & _). intros [Hno|(g & (Hg & _) & Hn)].
    + apply (Hno "nl"). split; [vm_compute; by left|]. split; [by vm_compute|]. by intros ?%not_elem_of_nil.
    + apply list_elem_of_singleton in Hg as ->. done.
  - left. apply (bool_decide_unpack _). vm_compute. exact I.
  - by exists d, g.
Defined.

Theorem offered_line_refused_witness :
  2 ∈ line_tags ex_weigh ex_request ex_fleet "ann" "e" ∧
  ∀ rules conn, c_route conn = Some 2 → c_user conn = "ann" → names_tag rules 2 = true →
    verdict (user_tags ex_fleet "e" "k") rules conn = Refused.
Proof.
  destruct ex_rows as (Hnl & Hall & _ & Hse).
  apply (offered_line_refused ex_weigh ex_request ex_fleet "ann" "e" ex_cascade (mkPositionRow 0 (Some "xray") ["e"]) "all" "nl" (way "d-se" 2 "se" "x2")).
  - apply ex_plain. by left.
  - apply ex_tags.
  - apply ex_entered.
  - apply ex_at_entry. vm_compute. right. by left.
  - by vm_compute.
  - by intros ?%not_elem_of_nil.
  - by vm_compute.
  - by intros ?%not_elem_of_nil.
  - by intros ?%not_elem_of_nil.
  - done.
  - done.
  - right. by left.
  - by vm_compute.
  - done.
Defined.

Theorem auto_variant_outgrants_witness :
  let tags := rt_tag <$> default [] (jm_get "e" (getRouteProfilesByEntryNode ex_fleet ["all"; "nl"] None ["e"])) in
  autoRouteTag 1 ∈ tags ∧ routeTag 0 1 ∈ tags ∧ routeTag 1 1 ∉ tags.
Proof.
  destruct ex_rows as (Hnl & Hall & Hn & Hse).
  apply (auto_variant_outgrants ex_fleet ["all"; "nl"] None ["e"] "e" ex_cascade (mkPositionRow 0 (Some "xray") ["e"])
           "all" "nl" (way "d-se" 2 "se" "x2") (way "d-nl" 1 "nl" "x1") 1).
  - apply ex_plain. by left.
  - apply ex_tags.
  - apply ex_entered.
  - by left.
  - done.
  - vm_compute. right. by left.
  - vm_compute. by left.
  - done.
  - unfold MAX_DIRECTION_ORDINAL. lia.
  - split; [by left|]. split; [done|]. by intros ?%not_elem_of_nil.
  - done.
  - split; [right; by left|]. split; [done|]. by intros ?%not_elem_of_nil.
  - done.
  - done.
  - done.
  - exists (mkPolicyRef 1 "no ads"). split; [by left|done].
  - intros g _ (q & Hq & _). by apply list_elem_of_singleton in Hq as [= -> _].
Defined.
