(* ===== verification/SubscriptionLines.v ===== *)
(** The lines of one subscription
    (apps/panel-backend/src/modules/subscription/subscription.service.ts,
    cascade-entries.ts and endpoint-identity.ts).

    An endpoint is one way in.  The entry of a cascade carries the lines offered
    there ([cascadeExits], [RouteProfiles]); the service names the endpoints
    apart, deals each line to one of the cascade's entries, names the lines
    apart and then draws an endpoint for each, with the line's tag in its UUID.
    The lines of a node are one array, which every endpoint of the node holds
    and whose labels are written in place: a line is its index in a heap.

    A string is its UTF-8 bytes.  [sha256hex] is node:crypto's digest, in
    hexadecimal; [vmess_named] is the payload of a vmess link read as JSON in
    base64, renamed and written again, or nothing when it cannot be read;
    [weigh] is the order of [NodeSelection]. *)

From S2P Require Import Prelude Js Utf8 NodeSelection Awg3Geometry.

Local Open Scope string_scope.
Local Open Scope list_scope.
Local Open Scope Z_scope.

(** ** Endpoints *)
Record CascadeExit := mkExit { x_label : string; x_tag : Z; x_cascadeId : option string }.

Record Endpoint := mkEndpoint {
  e_protocol : string;
  e_nodeId : string;
  e_nodeName : string;
  e_key : option string;
  e_host : string;
  e_port : Z;
  e_uri : string;
  e_hostRemark : option string;
  e_subprotocol : option string;
  e_network : option string;
  e_uuid : string;
  e_exits : option (list nat);
  e_routeLabel : option string
}.

#[global] Instance Endpoint_eq_dec : EqDecision Endpoint.
Proof. solve_decision. Defined.

Definition set_name (e : Endpoint) (n : string) : Endpoint :=
  mkEndpoint (e_protocol e) (e_nodeId e) n (e_key e) (e_host e) (e_port e) (e_uri e) (e_hostRemark e)
    (e_subprotocol e) (e_network e) (e_uuid e) (e_exits e) (e_routeLabel e).
Definition set_exits (e : Endpoint) (xs : option (list nat)) : Endpoint :=
  mkEndpoint (e_protocol e) (e_nodeId e) (e_nodeName e) (e_key e) (e_host e) (e_port e) (e_uri e) (e_hostRemark e)
    (e_subprotocol e) (e_network e) (e_uuid e) xs (e_routeLabel e).

Definition set_uri (e : Endpoint) (u : string) : Endpoint :=
  mkEndpoint (e_protocol e) (e_nodeId e) (e_nodeName e) (e_key e) (e_host e) (e_port e) u (e_hostRemark e)
    (e_subprotocol e) (e_network e) (e_uuid e) (e_exits e) (e_routeLabel e).

Definition isPlainXray (e : Endpoint) : bool :=
  bool_decide (e_protocol e = "xray") && bool_decide (e_subprotocol e ∈ [Some "socks"; Some "http"]).

(** The transport as keys spell it. *)
Definition transport_key (e : Endpoint) : string :=
  if negb (bool_decide (e_protocol e = "xray")) then ""
  else if isPlainXray e then default "undefined" (e_subprotocol e) else default "" (e_network e).

Definition endpointKey (e : Endpoint) : string :=
  if truthy (e_key e) then default "" (e_key e)
  else js_join "|" [e_nodeId e; e_nodeName e; e_host e; pretty (e_port e); e_protocol e; transport_key e].

(** ** The tag in the UUID *)

(** [(tag & 0xffff).toString(16).padStart(4, '0')]. *)
Definition tag_group (tag : Z) : string := pad_start 4 "0" (to_hex 8 (js_and tag 65535)).

Definition withVlessRouteTag (uuid : string) (tag : Z) : string :=
  match js_split "-" uuid with
  | [a; b; c; d; e] => if (String.length c =? 4)%nat then js_join "-" [a; b; tag_group tag; d; e] else uuid
  | _ => uuid
  end.

(** [base.replace(old, new)]: the first occurrence; a UUID has no [$]. *)
Fixpoint replace_first (old new s : string) : string :=
  if starts_with old s then new +:+ str_drop (String.length old) s
  else match s with EmptyString => "" | String c s => String c (replace_first old new s) end.

(** [encodeURIComponent], on UTF-8 bytes. *)
Definition uri_free (c : ascii) : bool :=
  let n := nat_of_ascii c in
  (((48 <=? n) && (n <=? 57)) || ((65 <=? n) && (n <=? 90)) || ((97 <=? n) && (n <=? 122)))%nat ||
  bool_decide (c ∈ ["-"%char; "_"%char; "."%char; "!"%char; "~"%char; "*"%char; "'"%char; "("%char; ")"%char]).

Fixpoint encodeURIComponent (s : string) : string :=
  match s with
  | EmptyString => ""
  | String c s => (if uri_free c then String c ""
                   else "%" +:+ js_upper (pad_start 2 "0" (to_hex 8 (Z.of_nat (nat_of_ascii c))))) +:+ encodeURIComponent s
  end.

(** A cascade's entries: each key with its endpoint's index. *)
Abbreviation per_cascade := (list (string * nat)).

Section Lines.
Context (sha256hex : string → string) (vmess_named : string → string → option string) (weigh : Z → Z → Z).

Definition endpointId (e : Endpoint) : string := str_take 8 (sha256hex (endpointKey e)).
Definition short_id (e : Endpoint) : string := str_take 4 (endpointId e).

(** [pickServer]. *)
Definition pickServer (eps : list Endpoint) (node : option string) : option Endpoint :=
  if negb (truthy node) then head eps else
  match js_find (λ e, bool_decide (Some (endpointId e) = node)) eps with
  | Some e => Some e
  | None => js_find (λ e, bool_decide (Some (e_nodeName e) = node)) eps
  end.

(** ** One endpoint per line *)
Definition expandCascadeEntry (heap : list CascadeExit) (e : Endpoint) : list Endpoint :=
  match e_exits e with
  | Some ((_ :: _) as xs) =>
      if negb (bool_decide (e_protocol e = "xray")) || isPlainXray e ||
         negb (bool_decide (default "vless" (e_subprotocol e) = "vless")) then [e]
      else
        let base := match index_of_char "#" (e_uri e) with Some i => str_take i (e_uri e) | None => e_uri e end in
        let key := endpointKey e in
        omap (λ i, (λ route,
          let uuid := withVlessRouteTag (e_uuid e) (x_tag route) in
          mkEndpoint (e_protocol e) (e_nodeId e) (x_label route) (Some (key +:+ "|route-" +:+ pretty (x_tag route)))
            (e_host e) (e_port e)
            (if truthy (Some (e_uri e))
             then replace_first (e_uuid e) uuid base +:+ "#" +:+ encodeURIComponent (x_label route) else e_uri e)
            (e_hostRemark e) (e_subprotocol e) (e_network e) uuid None (Some (x_label route))) <$> heap !! i) xs
  | _ => [e]
  end.

Definition expandEndpointUris (heap : list CascadeExit) (e : Endpoint) : list string :=
  filter (λ s, s ≠ "") (e_uri <$> expandCascadeEntry heap e).

(** ** Naming the endpoints apart *)
Definition TRANSPORT_LABEL : list (string * string) :=
  [("raw", "TCP"); ("xhttp", "XHTTP"); ("ws", "WS"); ("grpc", "gRPC"); ("httpupgrade", "HTTPUpgrade"); ("kcp", "KCP")].
Definition PROTOCOL_LABEL : list (string * string) :=
  [("hysteria", "Hysteria2"); ("xray", "Xray"); ("amneziawg", "AmneziaWG"); ("naive", "NaiveProxy");
   ("shadowsocks", "Shadowsocks"); ("mtproto", "MTProto"); ("mieru", "Mieru"); ("tuic", "TUIC");
   ("anytls", "AnyTLS"); ("shadowtls", "ShadowTLS")].
Definition PLAIN_LABEL : list (string * string) := [("socks", "SOCKS5"); ("http", "HTTP")].

Definition endpointDescriptors (e : Endpoint) : list (option string) :=
  [ if isPlainXray e then jm_get (default "" (e_subprotocol e)) PLAIN_LABEL
    else if bool_decide (e_protocol e = "xray") then jm_get (default "raw" (e_network e)) TRANSPORT_LABEL
    else jm_get (e_protocol e) PROTOCOL_LABEL;
    (if truthy (e_hostRemark e) && negb (bool_decide (e_hostRemark e = Some "Default")) then e_hostRemark e else None);
    Some (pretty (e_port e)) ].
Definition DESCRIPTOR_LEVELS : nat := 3.

Definition descriptor (st : list Endpoint) (l i : nat) : option string :=
  st !! i ≫= λ e, mjoin (endpointDescriptors e !! l).

Definition rename (i : nat) (f : Endpoint → string) (st : list Endpoint) : list Endpoint :=
  alter (λ e, set_name e (e_nodeName e +:+ " · " +:+ f e)) i st.

Definition name_at (st : list Endpoint) (i : nat) : string := default "" (e_nodeName <$> st !! i).

(** The group is its indices; a level is used up at each call. *)
Fixpoint refineLabels (fuel : nat) (group : list nat) (level : nat) (st : list Endpoint) : list Endpoint :=
  match fuel with
  | O => st
  | S fuel =>
      if (length group <? 2)%nat then st else
      match js_find (λ l, (2 <=? length (js_uniq (descriptor st l <$> group)))%nat) (seq level (DESCRIPTOR_LEVELS - level)) with
      | Some l =>
          let values := (λ i, (i, descriptor st l i)) <$> group in
          let st := foldl (λ st iv, if truthy iv.2 then rename iv.1 (λ _, default "" iv.2) st else st) st values in
          let byLabel := foldl (group_add (name_at st) (λ _, []) (λ g i, g ++ [i])) [] group in
          foldl (λ st bucket, refineLabels fuel bucket.2 (S l) st) st byLabel
      | None => foldl (λ st i, rename i short_id st) st group
      end
  end.

(** [for (let n = 2; used.has(candidate); n++)], from [n]. *)
Fixpoint free_name (fuel : nat) (base : string) (n : Z) (used : list string) : option string :=
  match fuel with
  | O => None
  | S fuel => let candidate := base +:+ " " +:+ pretty n in
              if bool_decide (candidate ∈ used) then free_name fuel base (n + 1) used else Some candidate
  end.

(** The name an endpoint ends up with. *)
Definition claim_name (used : list string) (e : Endpoint) : option string :=
  if negb (bool_decide (e_nodeName e ∈ used)) then Some (e_nodeName e) else
  let candidate := e_nodeName e +:+ " · " +:+ short_id e in
  if negb (bool_decide (candidate ∈ used)) then Some candidate
  else free_name (S (length used)) candidate 2 used.

Fixpoint claim_names (used : list string) (es : list Endpoint) : option (list Endpoint) :=
  match es with
  | [] => Some []
  | e :: es => n ← claim_name used e; rest ← claim_names (used ++ [n]) es; Some (set_name e n :: rest)
  end.

(** The names, before the links follow them. *)
Definition endpoint_names (endpoints : list Endpoint) : option (list Endpoint) :=
  let groups := foldl (group_add (name_at endpoints) (λ _, []) (λ g i, g ++ [i])) [] (seq 0 (length endpoints)) in
  claim_names [] (foldl (λ st g, refineLabels (S DESCRIPTOR_LEVELS) g.2 0 st) endpoints groups).

(** A link under another name. *)
Definition withUriRemark (uri remark : string) : string :=
  if bool_decide (uri = "") then uri
  else if starts_with "vmess://" uri then
    match vmess_named (str_drop 8 uri) remark with Some payload => "vmess://" +:+ payload | None => uri end
  else
    let base := match index_of_char "#" uri with Some i => str_take i uri | None => uri end in
    base +:+ "#" +:+ encodeURIComponent remark.

Definition follow_name (before e : Endpoint) : Endpoint :=
  if bool_decide (e_nodeName e = e_nodeName before) then e else set_uri e (withUriRemark (e_uri e) (e_nodeName e)).

(** [disambiguateEndpointLabels]; [None] is a loop that did not end. *)
Definition disambiguateEndpointLabels (endpoints : list Endpoint) : option (list Endpoint) :=
  zip_with follow_name endpoints <$> endpoint_names endpoints.

(** ** Dealing the lines *)
Definition keyOf (e : Endpoint) : string :=
  e_nodeName e +:+ "|" +:+ e_host e +:+ "|" +:+ pretty (e_port e) +:+ "|" +:+ transport_key e.

(** The lines an endpoint holds. *)
Definition exits_at (heap : list CascadeExit) (e : Endpoint) : list CascadeExit :=
  omap (λ i, heap !! i) (default [] (e_exits e)).

Definition collect_exit (i : nat) (key : string) (m : list (string * per_cascade)) (x : CascadeExit) :=
  if truthy (x_cascadeId x)
  then let c := default "" (x_cascadeId x) in jm_set c (jm_set key i (default [] (jm_get c m))) m else m.

Definition entriesByCascade (heap : list CascadeExit) (endpoints : list Endpoint) : list (string * per_cascade) :=
  foldl (λ m ie, foldl (collect_exit ie.1 (keyOf ie.2)) m (exits_at heap ie.2)) [] (imap (λ i e, (i, e)) endpoints).

Definition offeredBy (heap : list CascadeExit) (cascadeId : string) (st : list Endpoint) (perCascade : per_cascade)
    : list (Z * list string) :=
  foldl (λ m ki, foldl (λ m x, if bool_decide (x_cascadeId x = Some cascadeId)
                                then jm_set (x_tag x) (set_add ki.1 (default [] (jm_get (x_tag x) m))) m else m)
                       m (default [] (exits_at heap <$> st !! ki.2))) [] perCascade.

(** The first entry offering the tag, from the tag's place in the order. *)
Definition holder (order : list string) (tag : Z) (offering : list string) : option string :=
  let n := Z.of_nat (length order) in
  js_find (λ key, bool_decide (key ∈ offering))
    (omap (λ i, order !! Z.to_nat ((tag mod n + Z.of_nat i) mod n)) (seq 0 (length order))).

Definition holderOf (order : list string) (offered : list (Z * list string)) : list (Z * string) :=
  foldl (λ m tk, match holder order tk.1 tk.2 with Some key => jm_set tk.1 key m | None => m end) [] offered.

Definition keeps_line (heap : list CascadeExit) (cascadeId key : string) (held : list (Z * string)) (i : nat) : bool :=
  match heap !! i with
  | Some x => negb (bool_decide (x_cascadeId x = Some cascadeId)) || bool_decide (jm_get (x_tag x) held = Some key)
  | None => true
  end.

Definition deal_cascade (heap : list CascadeExit) (userId : string) (st : list Endpoint) (cp : string * per_cascade)
    : list Endpoint :=
  let '(cascadeId, perCascade) := cp in
  if (length perCascade <? 2)%nat then st else
  let order := fst <$> rendezvousOrder weigh ((λ k, (k, None)) <$> jm_keys perCascade) userId in
  let held := holderOf order (offeredBy heap cascadeId st perCascade) in
  foldl (λ st ki, alter (λ e, set_exits e (Some (filter (λ i, keeps_line heap cascadeId ki.1 held i = true) (default [] (e_exits e)))))
                        ki.2 st) st perCascade.

Definition deal_lines (heap : list CascadeExit) (userId : string) (endpoints : list Endpoint) : list Endpoint :=
  foldl (deal_cascade heap userId) endpoints (entriesByCascade heap endpoints).

Definition collapseCascadeLines (heap : list CascadeExit) (userId : string) (endpoints : list Endpoint) : list Endpoint :=
  filter (λ e, e_exits e ≠ Some []) (deal_lines heap userId endpoints).

(** ** Naming the lines apart *)
Definition labels_seen (heap : list CascadeExit) (endpoints : list Endpoint) (label : string) : nat :=
  length (filter (λ x, x_label x = label) (endpoints ≫= exits_at heap)).

Definition line_suffix (e : Endpoint) : string :=
  let network := if bool_decide (e_protocol e = "xray") && negb (isPlainXray e) then e_network e else None in
  match (if truthy network then jm_get (default "" network) TRANSPORT_LABEL else None) with
  | Some t => t
  | None => if truthy (e_hostRemark e) && negb (bool_decide (e_hostRemark e = Some "Default"))
            then default "" (e_hostRemark e) else e_nodeName e
  end.

(** [seen] is counted before any label is written. *)
Definition relabel (seen : string → nat) (heap : list CascadeExit) (e : Endpoint) : list CascadeExit :=
  foldl (λ h i, alter (λ x, if (seen (x_label x) <? 2)%nat then x
                            else mkExit (x_label x +:+ " · " +:+ line_suffix e) (x_tag x) (x_cascadeId x)) i h)
        heap (default [] (e_exits e)).

Definition disambiguateCascadeLabels (heap : list CascadeExit) (endpoints : list Endpoint) : list CascadeExit :=
  foldl (relabel (labels_seen heap endpoints)) heap endpoints.

(** The tail of [generateSubscription]. *)
Definition subscription_endpoints (heap : list CascadeExit) (userId : string) (endpoints : list Endpoint)
    : option (list Endpoint) :=
  named ← disambiguateEndpointLabels endpoints;
  let dealt := collapseCascadeLines heap userId named in
  Some (dealt ≫= expandCascadeEntry (disambiguateCascadeLabels heap dealt)).
End Lines.

(** ** The tag read back *)

(** The route xray reads in a UUID: its third group, a big-endian 16-bit
    number in hexadecimal. *)
Definition vlessRoute_of (uuid : string) : option Z :=
  match js_split "-" uuid with
  | [_; _; c; _; _] => all_digits 16 (list_ascii_of_string c)
  | _ => None
  end.

(** Five groups, the third of four characters. *)
Definition uuid_shape (uuid : string) : Prop := ∃ a b c d e, uuid = js_join "-" [a; b; c; d; e] ∧
  Forall (char_free "-") [a; b; c; d; e] ∧ String.length c = 4%nat.

(** A hexadecimal digit, written and read. *)
Lemma hex_digit d : 0 <= d < 16 → ∃ c, hex_char d = String c "" ∧ base_digit 16 c = Some d ∧ c ≠ "-"%char.
Proof.
  intros Hd. assert (forallb (λ n, match hex_char (Z.of_nat n) with
      | String c EmptyString => bool_decide (base_digit 16 c = Some (Z.of_nat n) ∧ c ≠ "-"%char) | _ => false end) (seq 0 16) = true) as H.
  { vm_compute. reflexivity. }
  rewrite forallb_forall in H. specialize (H (Z.to_nat d)). rewrite Z2Nat.id in H by lia.
  specialize (H ltac:(apply in_seq; lia)). destruct (hex_char d) as [|c [|]]; [done| |done].
  bool_prop. exists c. tauto.
Qed.

Definition hex_digits (ds : list Z) : string := foldr (λ d s, hex_char d +:+ s) "" ds.

Lemma hex_digits_read ds acc n : Forall (λ d, 0 <= d < 16) ds →
  take_digits 16 acc n (list_ascii_of_string (hex_digits ds))
  = (foldl (λ a d, a * 16 + d) acc ds, n + Z.of_nat (length ds), []) ∧
  char_free "-" (hex_digits ds) ∧ String.length (hex_digits ds) = length ds.
Proof.
  intros Hds. revert acc n. induction Hds as [|d ds Hd _ IH]; intros acc n; simpl.
  - split; [by rewrite Z.add_0_r|]. split; [by intros ?%not_elem_of_nil|done].
  - destruct (hex_digit d Hd) as (c & -> & Hc & Hne). simpl. rewrite Hc.
    change ("" +:+ hex_digits ds) with (hex_digits ds).
    destruct (IH (acc * 16 + d) (n + 1)) as (-> & Hfree & Hlen). split; [by replace (n + 1 + Z.of_nat (length ds)) with (n + Z.of_nat (S (length ds))) by lia|].
    split; [|by rewrite Hlen]. unfold char_free in *. simpl. by apply not_elem_of_cons.
Qed.

Lemma to_hex_step fuel n : to_hex (S fuel) n = (if n <? 16 then "" else to_hex fuel (n / 16)) +:+ hex_char (n mod 16).
Proof. done. Qed.

Lemma hex_char_one d : 0 <= d < 16 → String.length (hex_char d) = 1%nat.
Proof. intros Hd. by destruct (hex_digit d Hd) as (c & -> & _). Qed.

Lemma js_and_16 t : 0 <= t < 65536 → js_and t 65535 = t.
Proof.
  intros Ht. unfold js_and. rewrite !to_i32_small by lia. change 65535 with (Z.ones 16).
  rewrite Z.land_ones by lia. apply Z.mod_small. lia.
Qed.

(** The four digits of a tag. *)
Lemma tag_group_digits t : 0 <= t < 65536 →
  tag_group t = hex_digits [t / 4096; t / 256 mod 16; t / 16 mod 16; t mod 16].
Proof.
  intros Ht. unfold tag_group. rewrite js_and_16 by done.
  assert (∀ d, 0 <= d < 16 → String.length (hex_char d) = 1%nat) as H1 by apply hex_char_one.
  pose proof (Z.mod_pos_bound t 16 ltac:(lia)). pose proof (Z.mod_pos_bound (t / 16) 16 ltac:(lia)).
  pose proof (Z.mod_pos_bound (t / 256) 16 ltac:(lia)).
  assert (t / 16 / 16 = t / 256) as E1 by (rewrite Z.div_div by lia; f_equal; lia).
  assert (t / 256 / 16 = t / 4096) as E2 by (rewrite Z.div_div by lia; f_equal; lia).
  assert (t / 4096 < 16 ∧ 0 <= t / 4096) as [? ?] by (split; [apply Z.div_lt_upper_bound; lia|apply Z.div_pos; lia]).
  assert (∀ a b : string, String.length (a +:+ b) = (String.length a + String.length b)%nat) as Hlen.
  { intros a b. induction a as [|c a IH]; simpl; [done|by rewrite IH]. }
  unfold hex_digits. cbn [foldr]. rewrite !str_app_nil, to_hex_step. destruct (Z.ltb_spec t 16).
  { assert (t / 16 = 0) as E0 by (apply Z.div_small; lia).
    assert (t / 4096 = 0 ∧ t / 256 mod 16 = 0 ∧ t / 16 mod 16 = 0) as (-> & -> & ->)
      by (rewrite <-E2, <-E1, E0; done).
    unfold pad_start. rewrite Hlen, H1 by done. reflexivity. }
  rewrite to_hex_step, E1. destruct (Z.ltb_spec (t / 16) 16).
  { assert (t / 256 = 0) as E0 by (rewrite <-E1; apply Z.div_small; split; [apply Z.div_pos; lia|done]). rewrite <-E2, E0.
    unfold pad_start. rewrite !Hlen, !H1 by done. reflexivity. }
  rewrite to_hex_step, E2. destruct (Z.ltb_spec (t / 256) 16).
  { rewrite <-E2, (Z.div_small (t / 256) 16) by (split; [apply Z.div_pos; lia|done]).
    unfold pad_start. rewrite !Hlen, !H1 by done. by rewrite <-!str_app_assoc. }
  rewrite to_hex_step. rewrite (proj2 (Z.ltb_lt (t / 4096) 16)) by done.
  rewrite (Z.mod_small (t / 4096)) by done. unfold pad_start. rewrite !Hlen, !H1 by done. by rewrite <-!str_app_assoc.
Qed.

(** C37. The tag goes into a UUID and is read back from it, whatever the UUID's
    third group held; the other groups stay, the shape stays, and a second tag
    replaces the first. *)
Theorem tag_round_trip uuid t t' : uuid_shape uuid → 0 <= t < 65536 → 0 <= t' < 65536 →
  let tagged := withVlessRouteTag uuid t in
  vlessRoute_of tagged = Some t ∧ uuid_shape tagged ∧ withVlessRouteTag tagged t' = withVlessRouteTag uuid t' ∧
  (∀ i, i ≠ 2%nat → js_split "-" tagged !! i = js_split "-" uuid !! i) ∧
  (withVlessRouteTag uuid t = withVlessRouteTag uuid t' → t = t').
Proof.
  intros (a & b & c & d & e & -> & Hfree & Hc) Ht Ht'. cbv zeta.
  assert (∀ c', char_free "-" c' → js_split "-" (js_join "-" [a; b; c'; d; e]) = [a; b; c'; d; e]) as Hsplit.
  { intros c' Hc'. apply js_split_join; [done|]. decompose_Forall_hyps. by repeat constructor. }
  assert (∀ t, 0 <= t < 65536 → char_free "-" (tag_group t) ∧ String.length (tag_group t) = 4%nat ∧
            all_digits 16 (list_ascii_of_string (tag_group t)) = Some t) as Hgroup.
  { clear. intros t Ht. rewrite tag_group_digits by done.
    pose proof (Z.mod_pos_bound t 16 ltac:(lia)). pose proof (Z.mod_pos_bound (t / 16) 16 ltac:(lia)).
    pose proof (Z.mod_pos_bound (t / 256) 16 ltac:(lia)).
    assert (t / 4096 < 16 ∧ 0 <= t / 4096) as [? ?] by (split; [apply Z.div_lt_upper_bound; lia|apply Z.div_pos; lia]).
    destruct (hex_digits_read [t / 4096; t / 256 mod 16; t / 16 mod 16; t mod 16] 0 0) as (Hread & ? & ?);
      [repeat (apply Forall_cons_2; [done|]); apply Forall_nil_2|].
    split; [done|]. split; [done|]. unfold all_digits. rewrite Hread. simpl. f_equal.
    pose proof (Z.div_mod t 16 ltac:(lia)). pose proof (Z.div_mod (t / 16) 16 ltac:(lia)).
    pose proof (Z.div_mod (t / 256) 16 ltac:(lia)).
    assert (t / 16 / 16 = t / 256) by (rewrite Z.div_div by lia; f_equal; lia).
    assert (t / 256 / 16 = t / 4096) by (rewrite Z.div_div by lia; f_equal; lia). lia. }
  assert (∀ c' t, char_free "-" c' → String.length c' = 4%nat →
    withVlessRouteTag (js_join "-" [a; b; c'; d; e]) t = js_join "-" [a; b; tag_group t; d; e]) as Htag.
  { intros c' t0 Hc' Hl. unfold withVlessRouteTag. by rewrite Hsplit, Hl. }
  assert (char_free "-" c) as Hcfree by (by decompose_Forall_hyps).
  destruct (Hgroup t Ht) as (Hf & Hl & Hv). rewrite !Htag by done. rewrite !Hsplit by done.
  split; [unfold vlessRoute_of; by rewrite Hsplit|]. split.
  { exists a, b, (tag_group t), d, e. split; [done|]. split; [|done]. decompose_Forall_hyps. by repeat constructor. }
  split; [done|]. split.
  { intros [|[|[|[|[|i]]]]] Hi; done. }
  intros E. destruct (Hgroup t' Ht') as (Hf' & _ & Hv'). apply (f_equal (js_split "-")) in E.
  rewrite !Hsplit in E by done. injection E as E. rewrite E in Hv. congruence.
Qed.

Theorem tag_round_trip_witness :
  vlessRoute_of (withVlessRouteTag "11111111-1111-4111-8111-111111111111" 513) = Some 513 ∧
  withVlessRouteTag "11111111-1111-4111-8111-111111111111" 513 = "11111111-1111-0201-8111-111111111111".
Proof.
  split; [|vm_compute; reflexivity].
  apply (tag_round_trip "11111111-1111-4111-8111-111111111111" 513 1); [|lia..].
  exists "11111111", "1111", "4111", "8111", "111111111111". split; [done|]. split; [|done].
  apply (bool_decide_unpack _). vm_compute. exact I.
Defined.

(** ** Names apart *)
Section Names.
Context (sha256hex : string → string).

(** All of an endpoint but its name. *)
Definition nameless (e : Endpoint) : Endpoint := set_name e "".

Lemma str_prefix_inj (s t u : string) : s +:+ t = s +:+ u → t = u.
Proof. apply str_app_inj. Qed.

Lemma free_name_found base n used : ∃ c, free_name (S (length used)) base n used = Some c ∧ c ∉ used.
Proof.
  assert (∀ fuel n, (∃ c, free_name fuel base n used = Some c ∧ c ∉ used) ∨
    ∀ i, (i < fuel)%nat → base +:+ " " +:+ pretty (n + Z.of_nat i) ∈ used) as H.
  { intros fuel. induction fuel as [|fuel IH]; intros m; simpl; [right; lia|].
    case_bool_decide as Hin; [|by left; eauto]. destruct (IH (m + 1)) as [?|Hall]; [by left|]. right.
    intros [|i] Hi; [by rewrite Z.add_0_r|]. replace (m + Z.of_nat (S i)) with (m + 1 + Z.of_nat i) by lia. apply Hall. lia. }
  destruct (H (S (length used)) n) as [?|Hall]; [done|]. exfalso.
  assert ((λ i, base +:+ " " +:+ pretty (n + Z.of_nat i)) <$> seq 0 (S (length used)) ⊆+ used) as Hs.
  { apply NoDup_submseteq.
    - apply NoDup_fmap_2_strong; [|apply NoDup_seq]. intros i j _ _ E. apply str_prefix_inj, str_prefix_inj in E.
      apply (inj pretty) in E. lia.
    - intros x (i & -> & Hi%elem_of_seq)%list_elem_of_fmap. apply Hall. lia. }
  apply submseteq_length in Hs. rewrite length_fmap, length_seq in Hs. lia.
Qed.

Lemma claim_name_fresh used e : ∃ n, claim_name sha256hex used e = Some n ∧ n ∉ used ∧ (e_nodeName e ∉ used → n = e_nodeName e).
Proof.
  unfold claim_name. case_bool_decide as Hin; simpl; [|by exists (e_nodeName e)].
  case_bool_decide as Hin2; simpl; [|by eexists].
  destruct (free_name_found (e_nodeName e +:+ " · " +:+ short_id sha256hex e) 2 used) as (c & Hc & Hfree). by exists c.
Qed.

Lemma claim_names_spec used es : ∃ out, claim_names sha256hex used es = Some out ∧
  nameless <$> out = nameless <$> es ∧
  (NoDup used → NoDup (used ++ (e_nodeName <$> out))) ∧
  (NoDup (used ++ (e_nodeName <$> es)) → out = es).
Proof.
  revert used. induction es as [|e es IH]; intros used.
  - exists []. simpl. split; [done|]. split; [done|]. split; [|done]. intros. by rewrite app_nil_r.
  - cbn [claim_names]. destruct (claim_name_fresh used e) as (n & Hn & Hfree & Hsame). rewrite Hn. cbn.
    destruct (IH (used ++ [n])) as (out & Hout & Hrest & Hnd & Hid). rewrite Hout. cbn. eexists. split; [done|].
    split; [cbn; by rewrite Hrest|]. rewrite !fmap_cons. cbn. split.
    + intros Hu. rewrite cons_middle, (assoc_L (++)). apply Hnd. apply NoDup_app. split; [done|].
      split; [|apply NoDup_singleton]. by intros x Hx ->%list_elem_of_singleton.
    + intros Hu. assert (e_nodeName e ∉ used) as Hni.
      { apply NoDup_app in Hu as (_ & Hd & _). intros Hin. apply (Hd _ Hin). by left. }
      rewrite (Hsame Hni) in *. rewrite Hid; [by destruct e|]. by rewrite <-(assoc_L (++)).
Qed.

Lemma rename_nameless i f st : nameless <$> rename i f st = nameless <$> st.
Proof.
  unfold rename. apply list_eq. intros j. rewrite !list_lookup_fmap.
  rewrite list_lookup_alter. case_decide; [subst|done]. by destruct (st !! j).
Qed.

Lemma foldl_keeps {A B} (f : A → B → A) (P : A → Prop) l a : P a → (∀ a b, P a → P (f a b)) → P (foldl f a l).
Proof. revert a. induction l as [|b l IH]; intros a Ha Hf; simpl; [done|]. apply IH; auto. Qed.

Lemma refine_nameless fuel group level st :
  nameless <$> refineLabels sha256hex fuel group level st = nameless <$> st.
Proof.
  revert group level st. induction fuel as [|fuel IH]; intros group level st; simpl; [done|].
  destruct (_ <? 2)%nat; [done|]. destruct (js_find _ _) as [l|].
  - apply (foldl_keeps _ (λ st', nameless <$> st' = nameless <$> st)).
    + apply (foldl_keeps _ (λ st', nameless <$> st' = nameless <$> st)); [done|].
      intros st' iv Hst'. destruct (truthy _); [by rewrite rename_nameless|done].
    + intros st' b Hst'. by rewrite IH.
  - apply (foldl_keeps _ (λ st', nameless <$> st' = nameless <$> st)); [done|].
    intros st' i Hst'. by rewrite rename_nameless.
Qed.

(** A group of one is left alone. *)
Lemma refine_small fuel g level st : (length g ≤ 1)%nat → refineLabels sha256hex fuel g level st = st.
Proof. destruct fuel, g as [|i [|j g]]; try done. simpl. lia. Qed.

Lemma group_lists {X} (key : X → string) (xs : list X) g :
  jm_get g (foldl (group_add key (λ _, []) (λ g i, g ++ [i])) [] xs)
  = match filter (λ x, key x = g) xs with [] => None | l => Some l end.
Proof.
  rewrite jm_get_group. unfold group_value. destruct (filter _ xs) as [|x l] eqn:E; [done|].
  f_equal. assert (∀ l acc, foldl (λ g (i : X), g ++ [i]) acc l = acc ++ l) as ->; [|done].
  clear. intros l. induction l as [|x l IH]; intros acc; simpl; [by rewrite app_nil_r|]. by rewrite IH, <-(assoc_L (++)).
Qed.

Lemma names_apart endpoints : ∃ out, endpoint_names sha256hex endpoints = Some out ∧
  NoDup (e_nodeName <$> out) ∧ nameless <$> out = nameless <$> endpoints ∧
  (NoDup (e_nodeName <$> endpoints) → out = endpoints).
Proof.
  unfold endpoint_names. set (groups := foldl _ [] (seq 0 (length endpoints))).
  set (st := foldl _ endpoints groups).
  assert (nameless <$> st = nameless <$> endpoints) as Hst.
  { apply (foldl_keeps _ (λ st', nameless <$> st' = nameless <$> endpoints)); [done|].
    intros st' g Hst'. by rewrite refine_nameless. }
  destruct (claim_names_spec [] st) as (out & Hout & Hrest & Hnd & Hid). exists out. split; [done|].
  split; [apply Hnd; constructor|]. split; [by rewrite Hrest|]. intros Hdist.
  assert (st = endpoints) as Heq; [|rewrite Heq in Hid; by apply Hid].
  assert (∀ g, g ∈ groups → (length g.2 ≤ 1)%nat) as Hsmall.
  { intros [name g] Hg. apply jm_elem_get in Hg; [|apply jm_wf_group]. unfold groups in Hg. rewrite group_lists in Hg.
    destruct (filter _ _) as [|i l] eqn:E; [done|]. injection Hg as <-. cbn.
    destruct l as [|j l]; [cbn; lia|]. exfalso.
    assert (NoDup (i :: j :: l)) as Hl by (rewrite <-E; apply NoDup_filter, NoDup_seq).
    assert (∀ k, k ∈ i :: j :: l → (k < length endpoints)%nat ∧ name_at endpoints k = name) as Hk.
    { intros k Hk. rewrite <-E in Hk. apply list_elem_of_filter in Hk as [Hn Hk%elem_of_seq]. split; [lia|done]. }
    destruct (Hk i) as [Hi Hni]; [set_solver|]. destruct (Hk j) as [Hj Hnj]; [set_solver|].
    apply lookup_lt_is_Some in Hi as [ei Hi], Hj as [ej Hj]. unfold name_at in Hni, Hnj. rewrite Hi in Hni. rewrite Hj in Hnj.
    cbn in Hni, Hnj. apply NoDup_cons in Hl as [Hl _]. apply Hl.
    assert (i = j) as ->; [|by left].
    apply (NoDup_lookup (e_nodeName <$> endpoints) i j name Hdist); rewrite list_lookup_fmap, ?Hi, ?Hj; cbn; congruence. }
  clear -Hsmall. unfold st. clear st. induction groups as [|g groups IH]; [done|].
  match goal with |- foldl ?F ?a (?x :: ?l) = _ => change (foldl F (F a x) l = a) end. cbv beta.
  rewrite refine_small by (apply Hsmall; left). apply IH. intros g' Hg'. apply Hsmall. by right.
Qed.

(** Everything but the name and the link. *)
Definition bare (e : Endpoint) : Endpoint := set_uri (nameless e) "".

Lemma follow_all vmess_named es out : nameless <$> out = nameless <$> es →
  let linked := zip_with (follow_name vmess_named) es out in
  e_nodeName <$> linked = e_nodeName <$> out ∧ bare <$> linked = bare <$> es ∧
  (out = es → linked = es) ∧
  ∀ i e e', es !! i = Some e → linked !! i = Some e' →
    e_uri e' = if bool_decide (e_nodeName e' = e_nodeName e) then e_uri e
               else withUriRemark vmess_named (e_uri e) (e_nodeName e').
Proof.
  cbv zeta. revert out. induction es as [|e es IH]; intros [|o out] Hs; try discriminate Hs; [done|].
  rewrite !fmap_cons in Hs. assert (nameless o = nameless e ∧ nameless <$> out = nameless <$> es) as [Ho Hs'] by (split; congruence).
  destruct (IH out Hs') as (H1 & H2 & H3 & H4). cbn [zip_with]. rewrite !fmap_cons. unfold follow_name at 1 3 5.
  assert (e_uri o = e_uri e) as Huri by (change (e_uri (nameless o) = e_uri (nameless e)); by rewrite Ho).
  assert (bare o = bare e) as Hbare by (unfold bare; by rewrite Ho).
  split; [|split; [|split]].
  - rewrite H1. f_equal. by case_bool_decide.
  - rewrite H2. f_equal. by case_bool_decide.
  - intros [= -> ->]. rewrite H3 by done. by rewrite bool_decide_eq_true_2.
  - intros [|i] x y Hx Hy; [|by apply (H4 i x y)]. cbn in Hx, Hy. injection Hx as <-. injection Hy as <-.
    unfold follow_name. rewrite <-Huri. destruct (decide (e_nodeName o = e_nodeName e)) as [E|E].
    + by rewrite !bool_decide_eq_true_2.
    + rewrite (bool_decide_eq_false_2 (e_nodeName o = _)) by done. cbn. by rewrite bool_decide_eq_false_2.
Qed.

Lemma labels_apart vmess_named endpoints : ∃ out, disambiguateEndpointLabels sha256hex vmess_named endpoints = Some out ∧
  NoDup (e_nodeName <$> out) ∧ bare <$> out = bare <$> endpoints ∧
  (NoDup (e_nodeName <$> endpoints) → out = endpoints) ∧
  ∀ i e e', endpoints !! i = Some e → out !! i = Some e' →
    e_uri e' = if bool_decide (e_nodeName e' = e_nodeName e) then e_uri e
               else withUriRemark vmess_named (e_uri e) (e_nodeName e').
Proof.
  destruct (names_apart endpoints) as (out & Hout & Hnd & Hrest & Hid).
  destruct (follow_all vmess_named endpoints out Hrest) as (H1 & H2 & H3 & H4).
  unfold disambiguateEndpointLabels. rewrite Hout. eexists. split; [done|]. rewrite H1.
  do 2 (split; [done|]). split; [|done]. intros Hnames. by apply H3, Hid.
Qed.
End Names.

(** The names end up apart, on every list of endpoints: the loops end, no
    two endpoints share a name, only names and links have changed, a list whose
    names were apart is left as it was, and a link changes exactly when its
    endpoint's name does, to carry the new one. *)
Theorem endpoint_names_apart sha256hex vmess_named endpoints : ∃ out, disambiguateEndpointLabels sha256hex vmess_named endpoints = Some out ∧
  NoDup (e_nodeName <$> out) ∧ bare <$> out = bare <$> endpoints ∧
  (NoDup (e_nodeName <$> endpoints) → out = endpoints) ∧
  ∀ i e e', endpoints !! i = Some e → out !! i = Some e' →
    e_uri e' = if bool_decide (e_nodeName e' = e_nodeName e) then e_uri e
               else withUriRemark vmess_named (e_uri e) (e_nodeName e').
Proof. apply labels_apart. Qed.

(** ** The deal *)
Section Deal.
Context (weigh : Z → Z → Z) (heap : list CascadeExit) (userId : string).

Definition carries (c : string) (t : Z) (e : Endpoint) : Prop :=
  ∃ x, x ∈ exits_at heap e ∧ x_cascadeId x = Some c ∧ x_tag x = t.

#[global] Instance carries_dec c t e : Decision (carries c t e).
Proof.
  refine (cast_if (decide (Exists (λ x, x_cascadeId x = Some c ∧ x_tag x = t) (exits_at heap e))));
    abstract (unfold carries; by rewrite <-Exists_exists).
Defined.

(** *** What is collected *)
Definition flat (st : list Endpoint) : list (nat * string * CascadeExit) :=
  imap (λ i e, (i, e)) st ≫= λ ie, (λ x, (ie.1, keyOf ie.2, x)) <$> exits_at heap ie.2.

Lemma foldl_bind {A B C} (f : A → C → A) (g : B → list C) l a :
  foldl (λ a b, foldl f a (g b)) a l = foldl f a (l ≫= g).
Proof. revert a. induction l as [|b l IH]; intros a; simpl; [done|]. by rewrite foldl_app, IH. Qed.

Lemma foldl_fmap {A B C} (f : A → C → A) (g : B → C) l a : foldl (λ a b, f a (g b)) a l = foldl f a (g <$> l).
Proof. revert a. induction l as [|b l IH]; intros a; simpl; [done|]. by rewrite IH. Qed.

Definition collect_one (m : list (string * per_cascade)) (ikx : nat * string * CascadeExit) :=
  collect_exit ikx.1.1 ikx.1.2 m ikx.2.

Lemma entries_flat st : entriesByCascade heap st = foldl collect_one [] (flat st).
Proof.
  unfold entriesByCascade, flat. rewrite <-foldl_bind. 
  assert (∀ l m, foldl (λ m ie, foldl (collect_exit ie.1 (keyOf ie.2)) m (exits_at heap ie.2)) m l
    = foldl (λ m (ie : nat * Endpoint), foldl collect_one m ((λ x, (ie.1, keyOf ie.2, x)) <$> exits_at heap ie.2)) m l) as ->; [|done].
  intros l. induction l as [|ie l IH]; intros m; simpl; [done|]. rewrite IH. f_equal.
  by rewrite <-(foldl_fmap collect_one (λ x, (ie.1, keyOf ie.2, x))).
Qed.

Lemma flat_elem st i key x : (i, key, x) ∈ flat st ↔ ∃ e, st !! i = Some e ∧ key = keyOf e ∧ x ∈ exits_at heap e.
Proof.
  unfold flat. rewrite list_elem_of_bind. split.
  - intros ([j e] & Hx & Hin). apply list_elem_of_lookup in Hin as [k Hk]. rewrite list_lookup_imap in Hk.
    destruct (st !! k) as [e'|] eqn:E; [|done]. simpl in Hk. injection Hk as <- <-.
    apply list_elem_of_fmap in Hx as (x' & [= -> -> ->] & Hx). by exists e'.
  - intros (e & He & -> & Hx). exists (i, e). split; [by apply list_elem_of_fmap; exists x|].
    apply list_elem_of_lookup. exists i. by rewrite list_lookup_imap, He.
Qed.

Definition of_cascade (c : string) (x : CascadeExit) : Prop := x_cascadeId x = Some c ∧ c ≠ "".

Lemma truthy_some (o : option string) : truthy o = true ↔ ∃ s, o = Some s ∧ s ≠ "".
Proof.
  destruct o as [[|a s]|]; simpl; [split; [done|by intros (s & [= <-] & ?)]| |split; [done|by intros (? & ? & _)]].
  split; [|done]. intros _. by exists (String a s).
Qed.

Lemma collect_spec l c key i :
  (jm_get key (default [] (jm_get c (foldl collect_one [] l))) = Some i → ∃ x, (i, key, x) ∈ l ∧ of_cascade c x) ∧
  (∀ x, (i, key, x) ∈ l → of_cascade c x → ∃ j, jm_get key (default [] (jm_get c (foldl collect_one [] l))) = Some j).
Proof.
  induction l as [|[[i' key'] x'] l [IH1 IH2]] using rev_ind; [by split; [|intros x ?%not_elem_of_nil]|].
  rewrite foldl_app. simpl. set (m := foldl collect_one [] l) in *. unfold collect_one, collect_exit. simpl.
  destruct (truthy (x_cascadeId x')) eqn:Et.
  - apply truthy_some in Et as (c' & Ec & Hne). rewrite Ec. simpl. rewrite jm_get_set.
    destruct (decide (c = c')) as [->|Hc]; simpl.
    + rewrite jm_get_set. destruct (decide (key = key')) as [->|Hk].
      * split; [|by eauto]. intros [= <-]. exists x'. split; [set_solver|done].
      * split; [intros (x & ? & ?)%IH1; exists x; set_solver|].
        intros x [Hx|[= -> -> ->]%list_elem_of_singleton]%elem_of_app Hof; [by eapply IH2|done].
    + split; [intros (x & ? & ?)%IH1; exists x; set_solver|].
      intros x [Hx|[= -> -> ->]%list_elem_of_singleton]%elem_of_app Hof; [by eapply IH2|].
      destruct Hof as [Hof _]. congruence.
  - split; [intros (x & ? & ?)%IH1; exists x; set_solver|].
    intros x [Hx|[= -> -> ->]%list_elem_of_singleton]%elem_of_app Hof; [by eapply IH2|].
    destruct Hof as [Hof Hne]. assert (truthy (x_cascadeId x') = true) as Ht; [|congruence]. apply truthy_some. by exists c.
Qed.

Lemma collect_wf l : jm_wf (foldl collect_one [] l) ∧ (∀ c pc, (c, pc) ∈ foldl collect_one [] l → jm_wf pc ∧ c ≠ "").
Proof.
  induction l as [|[[i key] x] l [IH1 IH2]] using rev_ind; [split; [apply jm_wf_nil|by intros ?? ?%not_elem_of_nil]|].
  rewrite foldl_app. simpl. set (m := foldl collect_one [] l) in *. unfold collect_one, collect_exit. simpl.
  destruct (truthy (x_cascadeId x)) eqn:Et; [|done]. split; [by apply jm_wf_set|]. intros c pc Hin.
  apply jm_elem_get in Hin; [|by apply jm_wf_set]. rewrite jm_get_set in Hin. case_decide as Hc.
  - injection Hin as <-. split.
    + apply jm_wf_set. destruct (jm_get _ m) as [pc'|] eqn:E; [|apply jm_wf_nil]. simpl.
      apply jm_get_Some_elem in E. by apply (IH2 _ _ E).
    + apply truthy_some in Et as (c' & Ec & Hne). rewrite Ec in Hc. simpl in Hc. by subst.
  - apply (IH2 c). by apply jm_get_Some_elem.
Qed.

(** The entries of a cascade, by key. *)
Lemma per_cascade_spec st c pc key i : NoDup (keyOf <$> st) → (c, pc) ∈ entriesByCascade heap st →
  (key, i) ∈ pc ↔ ∃ e t, st !! i = Some e ∧ key = keyOf e ∧ carries c t e.
Proof.
  rewrite entries_flat. intros Hnd Hin. destruct (collect_wf (flat st)) as [Hwf Hall].
  destruct (Hall c pc Hin) as [Hpc Hne]. apply jm_elem_get in Hin; [|done].
  destruct (collect_spec (flat st) c key i) as [H1 H2]. rewrite Hin in H1, H2. simpl in H1, H2. split.
  - intros Hk%(jm_elem_get _ _ _ Hpc). destruct (H1 Hk) as (x & (e & He & -> & Hx)%flat_elem & [Hc _]).
    exists e, (x_tag x). do 2 (split; [done|]). by exists x.
  - intros (e & t & He & -> & x & Hx & Hc & Ht). apply jm_get_Some_elem.
    destruct (H2 x) as [j Hj]; [apply flat_elem; by exists e|by split|].
    assert (i = j) as ->; [|done]. destruct (collect_spec (flat st) c (keyOf e) j) as [H1' _].
    rewrite Hin in H1'. destruct (H1' Hj) as (x' & (e' & He' & Hk & _)%flat_elem & _).
    apply (NoDup_lookup (keyOf <$> st) i j (keyOf e) Hnd); rewrite list_lookup_fmap, ?He, ?He'; simpl; congruence.
Qed.

Lemma cascade_collected st c t i e : st !! i = Some e → carries c t e → c ≠ "" →
  ∃ pc, (c, pc) ∈ entriesByCascade heap st.
Proof.
  intros He (x & Hx & Hc & Ht) Hne. rewrite entries_flat.
  destruct (collect_spec (flat st) c (keyOf e) i) as [_ H2]. destruct (H2 x) as [j Hj]; [apply flat_elem; by exists e|by split|].
  destruct (jm_get c (foldl collect_one [] (flat st))) as [pc|] eqn:E; [|done].
  exists pc. by apply jm_get_Some_elem.
Qed.

(** *** The order and the holder *)
Lemma holder_found order t ks k : k ∈ order → k ∈ ks → ∃ k', holder order t ks = Some k' ∧ k' ∈ ks ∧ k' ∈ order.
Proof.
  intros Ho Hk. unfold holder. set (n := Z.of_nat (length order)).
  assert (0 < n) as Hn by (unfold n; destruct order; [by apply not_elem_of_nil in Ho|simpl; lia]).
  destruct (js_find _ _) as [k'|] eqn:E.
  - apply js_find_Some in E as [Hin Hb]. exists k'. bool_prop. split; [done|]. split; [done|].
    apply list_elem_of_omap in Hin as (i & _ & Hi). by apply list_elem_of_lookup_2 in Hi.
  - exfalso. pose proof (proj1 (js_find_None _ _) E k) as Hno.
    assert (k ∈ omap (λ i, order !! Z.to_nat ((t mod n + Z.of_nat i) mod n)) (seq 0 (length order))) as Hin.
    { apply list_elem_of_lookup in Ho as [q Hq]. apply list_elem_of_omap.
      assert (Z.of_nat q < n) as Hqn by (apply lookup_lt_Some in Hq; unfold n; lia).
      pose proof (Z.mod_pos_bound (Z.of_nat q - t mod n) n Hn).
      exists (Z.to_nat ((Z.of_nat q - t mod n) mod n)). split; [apply elem_of_seq; unfold n in *; lia|].
      rewrite Z2Nat.id by lia. rewrite Zplus_mod_idemp_r. replace (t mod n + (Z.of_nat q - t mod n)) with (Z.of_nat q) by lia.
      rewrite Z.mod_small, Nat2Z.id by lia. done. }
    specialize (Hno Hin). cbv beta in Hno. by rewrite bool_decide_true in Hno.
Qed.

Lemma order_elem (pc : per_cascade) k : k ∈ fst <$> rendezvousOrder weigh ((λ k, (k, None : option Z)) <$> jm_keys pc) userId ↔ k ∈ jm_keys pc.
Proof.
  unfold rendezvousOrder. generalize (jm_keys pc) as ks. intros ks. rewrite list_elem_of_fmap. split.
  - intros (y & -> & Hy%elem_of_sort_by). by apply list_elem_of_fmap in Hy as (x & -> & Hx).
  - intros Hk. exists (k, None). split; [done|]. apply elem_of_sort_by, list_elem_of_fmap. by exists k.
Qed.

Lemma held_get order offered t : jm_wf offered →
  jm_get t (holderOf order offered) = jm_get t offered ≫= holder order t.
Proof.
  intros Hwf. unfold holderOf.
  assert (∀ l m, NoDup (jm_keys l) → jm_get t (foldl (λ m tk, match holder order tk.1 tk.2 with
      Some key => jm_set tk.1 key m | None => m end) m l)
    = match jm_get t l ≫= holder order t with Some k => Some k | None => jm_get t m end) as H.
  { intros l. induction l as [|[t' ks] l IH]; intros m Hl; simpl; [done|]. apply NoDup_cons in Hl as [Hni Hl].
    rewrite IH by done. destruct (decide (t = t')) as [->|Hne].
    - assert (jm_get t' l = None) as -> by (by apply jm_get_None). simpl.
      destruct (holder order t' ks); [by rewrite jm_get_set_eq|done].
    - destruct (jm_get t l ≫= holder order t); [done|]. destruct (holder order t' ks); [by rewrite jm_get_set_ne|done]. }
  rewrite H by done. by destruct (_ ≫= _).
Qed.

Lemma offered_spec st c pc t key :
  key ∈ default [] (jm_get t (offeredBy heap c st pc)) ↔
  ∃ j e, (key, j) ∈ pc ∧ st !! j = Some e ∧ carries c t e.
Proof.
  unfold offeredBy.
  set (step := λ (key : string) m (x : CascadeExit), if bool_decide (x_cascadeId x = Some c)
     then jm_set (x_tag x) (set_add key (default [] (jm_get (x_tag x) m))) m else m).
  assert (∀ k xs (m : list (Z * list string)), key ∈ default [] (jm_get t (foldl (step k) m xs)) ↔
    key ∈ default [] (jm_get t m) ∨ (key = k ∧ ∃ x, x ∈ xs ∧ x_cascadeId x = Some c ∧ x_tag x = t)) as Hstep.
  { intros k xs. induction xs as [|x xs IH]; intros m; simpl; [set_solver|]. rewrite IH. unfold step at 1.
    case_bool_decide as Hc; [rewrite jm_get_set; destruct (decide (t = x_tag x)) as [->|]; simpl; [rewrite elem_of_set_add|]|];
      setoid_rewrite elem_of_cons; naive_solver. }
  assert (∀ l m, key ∈ default [] (jm_get t (foldl (λ m ki, foldl (step ki.1) m (default [] (exits_at heap <$> st !! ki.2))) m l)) ↔
    key ∈ default [] (jm_get t m) ∨ ∃ j e, (key, j) ∈ l ∧ st !! j = Some e ∧ carries c t e) as H.
  { intros l. induction l as [|[k j] l IH]; intros m; simpl; [set_solver|]. rewrite IH, Hstep.
    setoid_rewrite elem_of_cons. unfold carries. destruct (st !! j) as [e|] eqn:Ej; simpl.
    - split.
      + intros [[?|(-> & ?)]|(j' & e' & ? & ? & ?)]; [by left|right; exists j, e; by eauto|right; exists j', e'; by eauto].
      + intros [?|(j' & e' & [[= -> ->]|?] & He & Hx)]; [by left; left|left; right; simplify_eq; by eauto|right; by eauto].
    - split.
      + intros [[?|(-> & ? & ?%not_elem_of_nil & _)]|(j' & e' & ? & ? & ?)]; [by left|done|right; exists j', e'; by eauto].
      + intros [?|(j' & e' & [[= -> ->]|?] & He & Hx)]; [by left; left|congruence|right; by eauto]. }
  transitivity (key ∈ default [] (jm_get t ([] : list (Z * list string))) ∨ ∃ j e, (key, j) ∈ pc ∧ st !! j = Some e ∧ carries c t e);
    [exact (H pc [])|]. simpl. split; [intros [?%not_elem_of_nil|]; done|by right].
Qed.

Lemma offered_wf c st pc : jm_wf (offeredBy heap c st pc).
Proof.
  unfold offeredBy. apply (foldl_keeps _ jm_wf); [apply jm_wf_nil|]. intros m ki Hm.
  apply (foldl_keeps _ jm_wf); [done|]. intros m' x Hm'. case_bool_decide; [by apply jm_wf_set|done].
Qed.

(** *** One cascade's deal *)
Definition exitless (e : Endpoint) : Endpoint := set_exits e None.
Definition carrier (st : list Endpoint) (c : string) (t : Z) (j : nat) : Prop := ∃ e, st !! j = Some e ∧ carries c t e.

Lemma alter_all (f : string → Endpoint → Endpoint) (pc : per_cascade) (st : list Endpoint) (j : nat) : NoDup (pc.*2) →
  (∀ k, (k, j) ∈ pc → foldl (λ st ki, alter (f ki.1) ki.2 st) st pc !! j = f k <$> st !! j) ∧
  (j ∉ pc.*2 → foldl (λ st ki, alter (f ki.1) ki.2 st) st pc !! j = st !! j).
Proof.
  revert st. induction pc as [|[k' j'] pc IH]; intros st Hnd; [by split; [intros k ?%not_elem_of_nil|]|].
  simpl in Hnd. apply NoDup_cons in Hnd as [Hni Hnd]. simpl. destruct (IH (alter (f k') j' st) Hnd) as [H1 H2]. split.
  - intros k [[= -> ->]|Hin]%elem_of_cons.
    + rewrite H2 by done. rewrite list_lookup_alter. by rewrite decide_True.
    + rewrite (H1 k Hin), list_lookup_alter, decide_False; [done|]. intros ->. apply Hni.
      apply list_elem_of_fmap. by exists (k, j).
  - intros Hj. apply not_elem_of_cons in Hj as [Hne Hj]. rewrite H2 by done. by rewrite list_lookup_alter, decide_False.
Qed.

Lemma exits_elem e x : x ∈ exits_at heap e ↔ ∃ i, i ∈ default [] (e_exits e) ∧ heap !! i = Some x.
Proof. unfold exits_at. apply list_elem_of_omap. Qed.

Definition kept (c key : string) (held : list (Z * string)) (e : Endpoint) : Endpoint :=
  set_exits e (Some (filter (λ i, keeps_line heap c key held i = true) (default [] (e_exits e)))).

Lemma carries_kept c key held e c' t :
  carries c' t (kept c key held e) ↔ carries c' t e ∧ (c' ≠ c ∨ jm_get t held = Some key).
Proof.
  unfold carries. setoid_rewrite exits_elem. simpl. setoid_rewrite list_elem_of_filter. split.
  - intros (x & (i & (Hk & Hi) & Hx) & Hc & Ht). split; [by eauto 6|]. unfold keeps_line in Hk. rewrite Hx in Hk.
    apply orb_true_iff in Hk as [Hk|Hk]; bool_prop; [left; congruence|right; by subst t].
  - intros ((x & (i & Hi & Hx) & Hc & Ht) & Hor). exists x. split; [|done]. exists i. split; [|done]. split; [|done].
    unfold keeps_line. rewrite Hx, Hc, Ht. apply orb_true_iff. rewrite negb_true_iff, bool_decide_eq_false, bool_decide_eq_true.
    destruct Hor as [?|?]; [left; congruence|by right].
Qed.

Lemma deal_cascade_spec st0 st c pc :
  NoDup (keyOf <$> st0) → (c, pc) ∈ entriesByCascade heap st0 →
  (∀ t j, carrier st c t j ↔ carrier st0 c t j) →
  let st' := deal_cascade weigh heap userId st (c, pc) in
  exitless <$> st' = exitless <$> st ∧
  (∀ c' t j, c' ≠ c → carrier st' c' t j ↔ carrier st c' t j) ∧
  (∀ t j, carrier st' c t j → carrier st0 c t j) ∧
  (∀ t j, carrier st0 c t j → ∃ j', carrier st0 c t j' ∧ ∀ j'', carrier st' c t j'' ↔ j'' = j').
Proof.
  intros Hnd Hin Hsame st'. pose proof (per_cascade_spec st0 c pc) as Hpc.
  assert (jm_wf pc) as Hwf by (rewrite entries_flat in Hin; destruct (collect_wf (flat st0)) as [_ H]; by apply (H c)).
  assert (∀ t j, carrier st0 c t j → ∃ e, st0 !! j = Some e ∧ (keyOf e, j) ∈ pc) as Hcar.
  { intros t j (e & He & Hc). exists e. split; [done|]. apply Hpc; [done..|]. by exists e, t. }
  unfold deal_cascade in st'. destruct (Nat.ltb_spec (length pc) 2) as [Hshort|Hlong].
  { subst st'. split; [done|]. split; [done|]. split; [by intros t j ?%Hsame|]. intros t j Hj. exists j. split; [done|].
    intros j''. rewrite Hsame. split; [|by intros ->]. intros Hj''.
    apply Hcar in Hj as (e & _ & H1), Hj'' as (e'' & _ & H2).
    destruct pc as [|p [|q pc]]; [by apply not_elem_of_nil in H1| |simpl in Hshort; lia].
    apply list_elem_of_singleton in H1, H2. by simplify_eq. }
  set (order := fst <$> _) in st'. set (held := holderOf order (offeredBy heap c st pc)) in st'.
  assert (NoDup (pc.*2)) as Hsnd.
  { unfold jm_wf, jm_keys in Hwf. apply NoDup_fmap_2_strong; [|by eapply NoDup_fmap_1].
    intros [k1 i1] [k2 i2] H1 H2 E. simpl in E. subst i2. apply Hpc in H1 as (e1 & _ & E1 & -> & _); [|done..].
    apply Hpc in H2 as (e2 & _ & E2 & -> & _); [|done..]. by simplify_eq. }
  assert (∀ j, (∀ k, (k, j) ∈ pc → st' !! j = kept c k held <$> st !! j) ∧ (j ∉ pc.*2 → st' !! j = st !! j)) as Hlook
    by exact (λ j, alter_all (λ k, kept c k held) pc st j Hsnd). clearbody st'.
  assert (∀ c' t j, carrier st' c' t j ↔ carrier st c' t j ∧ (c' = c → ∀ k, (k, j) ∈ pc → jm_get t held = Some k)) as Hcarrier.
  { intros c' t j. destruct (Hlook j) as [Hyes Hno]. destruct (decide (j ∈ pc.*2)) as [Hj|Hj].
    - apply list_elem_of_fmap in Hj as ([k j'] & -> & Hj). simpl in *. unfold carrier. rewrite (Hyes k Hj).
      assert (∀ k', (k', j') ∈ pc → k' = k) as Hfun.
      { intros k' H'. apply Hpc in H' as (e1 & _ & E1 & -> & _); [|done..]. apply Hpc in Hj as (e2 & _ & E2 & -> & _); [|done..].
        by simplify_eq. }
      split.
      + intros (e' & (e & He & ->)%fmap_Some & Hc). apply carries_kept in Hc as [Hc Hor].
        split; [by exists e|]. intros -> k' ->%Hfun. by destruct Hor.
      + intros [(e & He & Hc) Hheld]. exists (kept c k held e). rewrite He. split; [done|]. apply carries_kept. split; [done|].
        destruct (decide (c' = c)); [right; by apply Hheld|by left].
    - unfold carrier. rewrite (Hno Hj). split; [|tauto]. intros H'. split; [done|]. intros _ k Hk. exfalso. apply Hj.
      apply list_elem_of_fmap. by exists (k, j). }
  split; [|split; [|split]].
  - apply list_eq. intros j. rewrite !list_lookup_fmap. destruct (Hlook j) as [Hyes Hno].
    destruct (decide (j ∈ pc.*2)) as [Hj|Hj]; [|by rewrite Hno].
    apply list_elem_of_fmap in Hj as ([k j'] & -> & Hj). simpl in *. rewrite (Hyes k Hj). by destruct (st !! j').
  - intros c' t j Hne. rewrite Hcarrier. tauto.
  - intros t j [H' _]%Hcarrier. by apply Hsame.
  - intros t j Hj. destruct (Hcar t j Hj) as (e & He & Hk).
    assert (∀ k, k ∈ default [] (jm_get t (offeredBy heap c st pc)) ↔ ∃ j', (k, j') ∈ pc ∧ carrier st0 c t j') as Hoff.
    { intros k. rewrite offered_spec. setoid_rewrite <-Hsame. unfold carrier. naive_solver. }
    assert (keyOf e ∈ default [] (jm_get t (offeredBy heap c st pc))) as Hke by (apply Hoff; by exists j).
    destruct (jm_get t (offeredBy heap c st pc)) as [ks|] eqn:Eks; [|by apply not_elem_of_nil in Hke]. simpl in Hoff, Hke.
    destruct (holder_found order t ks (keyOf e)) as (k' & Hk' & Hin' & _); [|done|].
    { unfold order. apply order_elem. apply list_elem_of_fmap. by exists (keyOf e, j). }
    assert (jm_get t held = Some k') as Hheld by (unfold held; rewrite held_get, Eks by apply offered_wf; done).
    apply Hoff in Hin' as (j' & Hpj & Hj'). exists j'. split; [done|]. intros j''. rewrite Hcarrier, Hsame. split.
    + intros [Hj'' Hall]. destruct (Hcar t j'' Hj'') as (e'' & _ & Hk''). specialize (Hall eq_refl _ Hk'').
      rewrite Hheld in Hall. injection Hall as ->. apply (jm_elem_get _ _ _ Hwf) in Hpj, Hk''. congruence.
    + intros ->. split; [done|]. intros _ k Hkj. rewrite Hheld. f_equal.
      apply Hpc in Hkj as (e1 & _ & E1 & -> & _); [|done..]. apply Hpc in Hpj as (e2 & _ & E2 & -> & _); [|done..]. by simplify_eq.
Qed.

(** *** All the cascades *)
Lemma keyOf_exitless e e' : exitless e = exitless e' → keyOf e = keyOf e'.
Proof. intros E. change (keyOf (exitless e) = keyOf (exitless e')). by rewrite E. Qed.

Lemma deal_all st0 done todo st : NoDup (keyOf <$> st0) → NoDup (todo.*1) →
  (∀ cp, cp ∈ todo → cp ∈ entriesByCascade heap st0) → (∀ c, c ∈ done → c ∉ todo.*1) →
  exitless <$> st = exitless <$> st0 →
  (∀ c t j, carrier st c t j → carrier st0 c t j) →
  (∀ c t j, c ∉ done → carrier st c t j ↔ carrier st0 c t j) →
  (∀ c t j, c ∈ done → carrier st0 c t j → ∃ j', carrier st0 c t j' ∧ ∀ j'', carrier st c t j'' ↔ j'' = j') →
  let st' := foldl (deal_cascade weigh heap userId) st todo in
  exitless <$> st' = exitless <$> st0 ∧
  (∀ c t j, carrier st' c t j → carrier st0 c t j) ∧
  (∀ c t j, c ∈ done ++ todo.*1 → carrier st0 c t j → ∃ j', carrier st0 c t j' ∧ ∀ j'', carrier st' c t j'' ↔ j'' = j').
Proof.
  intros Hnd. revert done st. induction todo as [|[c pc] todo IH]; intros done st Htodo Hin Hdis Hex Hsub Hsame Hone.
  { simpl. rewrite app_nil_r. done. }
  simpl in Htodo. apply NoDup_cons in Htodo as [Hc Htodo].
  assert (c ∉ done) as Hcd by (intros H; apply (Hdis c H); by left).
  destruct (deal_cascade_spec st0 st c pc Hnd) as (H1 & H2 & H3 & H4); [apply Hin; by left|by intros; apply Hsame|].
  destruct (IH (c :: done) (deal_cascade weigh heap userId st (c, pc))) as (R1 & R2 & R3).
  - done.
  - intros cp Hcp. apply Hin. by right.
  - intros c' [->|Hc']%elem_of_cons; [done|]. intros H. apply (Hdis c' Hc'). by right.
  - by rewrite H1.
  - intros c' t j Hj. destruct (decide (c' = c)) as [->|Hne]; [by apply H3|]. by apply Hsub, H2.
  - intros c' t j Hc'. apply not_elem_of_cons in Hc' as [Hne Hc']. by rewrite H2, Hsame.
  - intros c' t j Hc' Hj. destruct (decide (c' = c)) as [->|Hne]; [by apply H4 in Hj|].
    apply elem_of_cons in Hc' as [?|Hc']; [done|]. destruct (Hone c' t j Hc' Hj) as (j' & ? & Hj'). exists j'.
    split; [done|]. intros j''. by rewrite H2.
  - split; [done|]. split; [done|]. intros c' t j Hc'. apply R3. simpl in Hc'. set_solver.
Qed.

Lemma filter_one {A} (P : A → Prop) `{∀ x, Decision (P x)} (l : list A) j x :
  l !! j = Some x → P x → (∀ k y, l !! k = Some y → P y → k = j) → filter P l = [x].
Proof.
  revert j. induction l as [|y l IH]; intros j Hj Hx Hall; [done|]. rewrite filter_cons. destruct j as [|j]; simpl in Hj.
  - injection Hj as ->. rewrite decide_True by done. f_equal. apply filter_none. intros z Hz Hp.
    apply list_elem_of_lookup in Hz as [k Hk]. by specialize (Hall (S k) z Hk Hp).
  - rewrite decide_False by (intros Hy; by specialize (Hall 0%nat y eq_refl Hy)).
    apply (IH j); [done|done|]. intros k z Hk Hz. by injection (Hall (S k) z Hk Hz).
Qed.

(** Each line goes to one of the endpoints that offered it. *)
Lemma lines_dealt endpoints c t : NoDup (keyOf <$> endpoints) → c ≠ "" →
  let out := collapseCascadeLines weigh heap userId endpoints in
  (∀ e, e ∈ out → e_exits e ≠ Some []) ∧
  ((∃ e, e ∈ endpoints ∧ carries c t e) →
   ∃ e e', e ∈ endpoints ∧ carries c t e ∧ exitless e' = exitless e ∧ filter (carries c t) out = [e']) ∧
  ((∀ e, e ∈ endpoints → ¬ carries c t e) → filter (carries c t) out = []).
Proof.
  intros Hnd Hne out. destruct (collect_wf (flat endpoints)) as [Hwf _]. rewrite <-entries_flat in Hwf.
  destruct (deal_all endpoints [] (entriesByCascade heap endpoints) endpoints) as (H1 & H2 & H3); try done.
  1, 2: by intros c' ?%not_elem_of_nil || by intros c' t' j' ?%not_elem_of_nil.
  set (st := foldl (deal_cascade weigh heap userId) endpoints (entriesByCascade heap endpoints)) in *.
  assert (filter (carries c t) out = filter (carries c t) st) as Hout.
  { unfold out, collapseCascadeLines. apply list_filter_filter_l. intros e (x & (i & Hi & _)%exits_elem & _) E.
    rewrite E in Hi. by apply not_elem_of_nil in Hi. }
  split; [by intros e [? _]%list_elem_of_filter|]. rewrite Hout. split.
  - intros (e & He & Hc). apply list_elem_of_lookup in He as [j Hj].
    destruct (cascade_collected endpoints c t j e Hj Hc Hne) as [pc Hpc].
    destruct (H3 c t j) as (j' & (e0 & He0 & Hc0) & Honly); [apply list_elem_of_fmap; by exists (c, pc)|by exists e|].
    destruct (proj2 (Honly j') eq_refl) as (e' & He' & Hc'). exists e0, e'.
    split; [by apply list_elem_of_lookup_2 in He0|]. split; [done|]. split.
    + assert ((exitless <$> st) !! j' = (exitless <$> endpoints) !! j') as E by (by rewrite H1).
      rewrite !list_lookup_fmap, He', He0 in E. by apply (inj Some) in E.
    + apply (filter_one _ _ j'); [done..|]. intros k y Hk Hy. apply Honly. by exists y.
  - intros Hno. apply filter_none. intros e He Hc. apply list_elem_of_lookup in He as [j Hj].
    destruct (H2 c t j) as (e0 & He0 & Hc0); [by exists e|]. apply (Hno e0); [by apply list_elem_of_lookup_2 in He0|done].
Qed.
End Deal.

(** ** Keys apart *)
Definition bar_free (s : string) : Prop := char_free "|" s.

Lemma last_sep_inj (s1 s2 t1 t2 : string) : bar_free t1 → bar_free t2 → s1 +:+ "|" +:+ t1 = s2 +:+ "|" +:+ t2 → s1 = s2 ∧ t1 = t2.
Proof.
  intros H1 H2 E. apply (f_equal list_ascii_of_string) in E. rewrite !list_ascii_app in E. simpl in E.
  assert (∀ (l1 l2 m1 m2 : list ascii), "|"%char ∉ m1 → "|"%char ∉ m2 → l1 ++ "|"%char :: m1 = l2 ++ "|"%char :: m2 → l1 = l2 ∧ m1 = m2) as Hl.
  { clear. intros l1 l2 m1. revert l1 l2. induction m1 as [|a m1 IH] using rev_ind; intros l1 l2 m2 H1 H2 E.
    - destruct m2 as [|b m2 _] using rev_ind; [by apply app_inj_tail in E as [-> _]|].
      rewrite app_comm_cons, (assoc_L (++)) in E. apply app_inj_tail in E as [_ E]. subst b. set_solver.
    - destruct m2 as [|b m2 _] using rev_ind.
      + rewrite app_comm_cons, (assoc_L (++)) in E. apply app_inj_tail in E as [_ E]. subst a. set_solver.
      + rewrite !app_comm_cons, !(assoc_L (++)) in E. apply app_inj_tail in E as [E ->].
        destruct (IH l1 l2 m2) as [-> ->]; set_solver. }
  apply Hl in E as [E1 E2]; [|done..]. by split; apply list_ascii_inj.
Qed.

(** Hosts, ports and transports have no bar. *)
Definition ways_ok (e : Endpoint) : Prop := bar_free (e_host e) ∧ 0 <= e_port e ∧ bar_free (transport_key e).

Lemma keyOf_inj e e' : ways_ok e → ways_ok e' → keyOf e = keyOf e' → e_nodeName e = e_nodeName e'.
Proof.
  intros (H1 & H2 & H3) (H1' & H2' & H3'). unfold keyOf.
  assert (∀ n h p t : string, n +:+ "|" +:+ h +:+ "|" +:+ p +:+ "|" +:+ t = ((n +:+ "|" +:+ h) +:+ "|" +:+ p) +:+ "|" +:+ t) as Hassoc
    by (intros; by rewrite !str_app_assoc).
  rewrite !Hassoc. intros [E _]%last_sep_inj; [|done..]. apply last_sep_inj in E as [E _]; [|by apply pretty_char_free..].
  by apply last_sep_inj in E as [E _].
Qed.

Lemma ways_bare e e' : bare e = bare e' → ways_ok e → ways_ok e'.
Proof.
  intros E. change (ways_ok e) with (ways_ok (bare e)). change (ways_ok e') with (ways_ok (bare e')). by rewrite E.
Qed.

Lemma named_keys_apart sha256hex vmess_named endpoints named : Forall ways_ok endpoints →
  disambiguateEndpointLabels sha256hex vmess_named endpoints = Some named → bare <$> named = bare <$> endpoints ∧ NoDup (keyOf <$> named).
Proof.
  intros Hways Hn. destruct (labels_apart sha256hex vmess_named endpoints) as (out & Hout & Hnd & Hrest & _). simplify_eq.
  split; [done|].
  assert (∀ e, e ∈ named → ways_ok e) as Hw.
  { intros e He. apply (list_elem_of_fmap_2 bare) in He. rewrite Hrest in He.
    apply list_elem_of_fmap in He as (e0 & E & He0). rewrite Forall_forall in Hways.
    by apply (ways_bare e0); [|apply Hways]. }
  apply NoDup_fmap_2_strong; [|by eapply NoDup_fmap_1]. intros e e' He He' E. apply keyOf_inj in E; [|by apply Hw..].
  by apply (NoDup_fmap_elem e_nodeName named).
Qed.

(** C12. Each line of the pool is dealt once.  After the names are told apart
    and the lines dealt, a cascade's line that some endpoint offered is held by
    exactly one endpoint of the list, which offered it and has changed in its
    name, its link and its lines only; a line nobody offered is held by none; and no
    endpoint is left with an empty list, as a direct server. *)
Theorem lines_dealt_once sha256hex vmess_named weigh heap userId endpoints named c t : Forall ways_ok endpoints → c ≠ "" →
  disambiguateEndpointLabels sha256hex vmess_named endpoints = Some named →
  let out := collapseCascadeLines weigh heap userId named in
  (∀ e, e ∈ out → e_exits e ≠ Some []) ∧
  ((∃ e, e ∈ endpoints ∧ carries heap c t e) →
   ∃ e e', e ∈ endpoints ∧ carries heap c t e ∧ exitless (bare e') = exitless (bare e) ∧
     filter (carries heap c t) out = [e']) ∧
  ((∀ e, e ∈ endpoints → ¬ carries heap c t e) → filter (carries heap c t) out = []).
Proof.
  intros Hways Hne Hn. destruct (named_keys_apart _ _ _ _ Hways Hn) as [Hrest Hkeys].
  destruct (lines_dealt weigh heap userId named c t Hkeys Hne) as (H1 & H2 & H3).
  assert (∀ e e', bare e = bare e' → carries heap c t e → carries heap c t e') as Hcar.
  { intros e e' E. change (carries heap c t e) with (carries heap c t (bare e)).
    change (carries heap c t e') with (carries heap c t (bare e')). by rewrite E. }
  split; [done|]. split.
  - intros (e & He & Hc). destruct H2 as (e1 & e' & He1 & Hc1 & Hsame & Hf).
    { apply (list_elem_of_fmap_2 bare) in He. rewrite <-Hrest in He. apply list_elem_of_fmap in He as (e1 & E & He1).
      exists e1. split; [done|]. by apply (Hcar e). }
    apply (list_elem_of_fmap_2 bare) in He1. rewrite Hrest in He1. apply list_elem_of_fmap in He1 as (e0 & E & He0).
    exists e0, e'. split; [done|]. split; [by apply (Hcar e1)|]. split; [|done].
    change (bare (exitless e') = exitless (bare e0)). rewrite Hsame. change (exitless (bare e1) = exitless (bare e0)).
    by rewrite E.
  - intros Hno. apply H3. intros e He Hc. apply (list_elem_of_fmap_2 bare) in He. rewrite Hrest in He.
    apply list_elem_of_fmap in He as (e0 & E & He0). apply (Hno e0 He0). by apply (Hcar e).
Qed.

(** ** A pool of two *)
Definition ex_uuid : string := "11111111-1111-4111-8111-111111111111".
Definition ex_entry (name host sub : string) : Endpoint :=
  mkEndpoint "xray" name name (Some host) host 443 (sub +:+ "://" +:+ ex_uuid +:+ "@" +:+ host +:+ ":443#" +:+ name)
    None (Some sub) (Some "raw") ex_uuid (Some [0%nat; 1%nat]) None.
Definition ex_heap : list CascadeExit := [mkExit "ru → NL" 1 (Some "k"); mkExit "ru → SE" 2 (Some "k")].
Definition ex_pool (sub : string) : list Endpoint := [ex_entry "ru-1" "a.example" "vless"; ex_entry "ru-2" "b.example" sub].

Lemma rendezvous_two weigh userId a b :
  rendezvousOrder weigh [a; b] userId = [a; b] ∨ rendezvousOrder weigh [a; b] userId = [b; a].
Proof. unfold rendezvousOrder. simpl. destruct (hrw_leb _ _ _ _); auto. Qed.

Lemma ex_pool_apart sha256hex vmess_named sub : disambiguateEndpointLabels sha256hex vmess_named (ex_pool sub) = Some (ex_pool sub).
Proof.
  destruct (labels_apart sha256hex vmess_named (ex_pool sub)) as (out & -> & _ & _ & H & _). f_equal. apply H.
  apply (bool_decide_unpack _). vm_compute. exact I.
Qed.

(** A pool with a trojan way in.  The deal counts it among the entries, but
    a trojan credential carries no tag and the endpoint goes out once, as it
    is: of the cascade's two lines the one dealt to it is in no endpoint the
    subscription hands out, for every user and whatever the order. *)
Theorem line_lost_to_trojan sha256hex vmess_named weigh userId : ∃ out t,
  subscription_endpoints sha256hex vmess_named weigh ex_heap userId (ex_pool "trojan") = Some out ∧ t ∈ [1; 2] ∧
  (∀ e, e ∈ ex_pool "trojan" → carries ex_heap "k" t e) ∧
  ∀ e, e ∈ out → vlessRoute_of (e_uuid e) ≠ Some t.
Proof.
  unfold subscription_endpoints. rewrite ex_pool_apart. cbn [mbind option_bind].
  assert (∀ t e, t ∈ [1; 2] → e ∈ ex_pool "trojan" → carries ex_heap "k" t e) as Hall.
  { intros t e Ht He. apply (bool_decide_unpack _).
    repeat (apply elem_of_cons in Ht as [->|Ht]; [repeat (apply elem_of_cons in He as [->|He]; [vm_compute; exact I|]);
      by apply not_elem_of_nil in He|]). by apply not_elem_of_nil in Ht. }
  assert (∀ order, rendezvousOrder weigh [("ru-1|a.example|443|raw", None); ("ru-2|b.example|443|raw", None)] userId = order →
    collapseCascadeLines weigh ex_heap userId (ex_pool "trojan")
    = filter (λ e, e_exits e ≠ Some [])
        (let held := holderOf (fst <$> order) [(1, ["ru-1|a.example|443|raw"; "ru-2|b.example|443|raw"]);
                                               (2, ["ru-1|a.example|443|raw"; "ru-2|b.example|443|raw"])] in
         [kept ex_heap "k" "ru-1|a.example|443|raw" held (ex_entry "ru-1" "a.example" "vless");
          kept ex_heap "k" "ru-2|b.example|443|raw" held (ex_entry "ru-2" "b.example" "trojan")])) as Hdeal.
  { intros order <-. reflexivity. }
  destruct (rendezvous_two weigh userId ("ru-1|a.example|443|raw", None) ("ru-2|b.example|443|raw", None)) as [E|E];
    rewrite (Hdeal _ E); clear Hdeal E.
  1: eexists _, 1. 2: eexists _, 2.
  all: split; [vm_compute; reflexivity|]; split; [set_solver|]; split; [intros e; apply Hall; set_solver|].
  all: intros e He; repeat (apply elem_of_cons in He as [->|He]; [by vm_compute|]); by apply not_elem_of_nil in He.
Qed.

(** ** Lines of one endpoint *)
Lemma relabel_other seen heap e i : i ∉ default [] (e_exits e) → relabel seen heap e !! i = heap !! i.
Proof.
  unfold relabel. generalize (default [] (e_exits e)) as xs. intros xs. revert heap.
  induction xs as [|x xs IH]; intros heap Hi; simpl; [done|]. apply not_elem_of_cons in Hi as [Hne Hi].
  rewrite IH by done. by rewrite list_lookup_alter, decide_False.
Qed.

Lemma relabel_own seen heap e i : NoDup (default [] (e_exits e)) → i ∈ default [] (e_exits e) →
  relabel seen heap e !! i = (λ x, if (seen (x_label x) <? 2)%nat then x
    else mkExit (x_label x +:+ " · " +:+ line_suffix e) (x_tag x) (x_cascadeId x)) <$> heap !! i.
Proof.
  unfold relabel. generalize (default [] (e_exits e)) as xs. intros xs. revert heap.
  induction xs as [|x xs IH]; intros heap Hnd Hi; simpl; [by apply not_elem_of_nil in Hi|]. apply NoDup_cons in Hnd as [Hx Hnd].
  apply elem_of_cons in Hi as [->|Hi].
  - clear IH. set (h := alter _ x heap). assert (∀ h, foldl (λ h i, alter (λ x, if (seen (x_label x) <? 2)%nat then x
      else mkExit (x_label x +:+ " · " +:+ line_suffix e) (x_tag x) (x_cascadeId x)) i h) h xs !! x = h !! x) as ->.
    { clear -Hx. induction xs as [|y xs IH]; intros h; simpl; [done|]. apply not_elem_of_cons in Hx as [Hne Hx].
      rewrite IH by done. by rewrite list_lookup_alter, decide_False. }
    unfold h. by rewrite list_lookup_alter, decide_True.
  - rewrite IH by done. rewrite list_lookup_alter, decide_False; [done|]. by intros ->.
Qed.

Lemma relabels_other seen heap es i : (∀ e, e ∈ es → i ∉ default [] (e_exits e)) → foldl (relabel seen) heap es !! i = heap !! i.
Proof.
  revert heap. induction es as [|e es IH]; intros heap Hi; simpl; [done|].
  rewrite IH by set_solver. apply relabel_other, Hi. by left.
Qed.

(** Two lines of one endpoint that read alike still do after the lines are
    told apart: what is appended is the endpoint's, the same for both.  A
    cascade with two directions in one country hands out two such lines. *)
Theorem alike_lines_stay heap pre e post i j x y :
  let es := pre ++ e :: post in
  NoDup (default [] (e_exits e)) → i ∈ default [] (e_exits e) → j ∈ default [] (e_exits e) →
  (∀ e', e' ∈ pre ++ post → i ∉ default [] (e_exits e') ∧ j ∉ default [] (e_exits e')) →
  heap !! i = Some x → heap !! j = Some y → x_label x = x_label y →
  ∃ x' y', disambiguateCascadeLabels heap es !! i = Some x' ∧ disambiguateCascadeLabels heap es !! j = Some y' ∧
    x_label x' = x_label y' ∧ x_tag x' = x_tag x ∧ x_tag y' = x_tag y.
Proof.
  intros es Hnd Hi Hj Hother Hx Hy Hl.
  assert (∀ k z, k ∈ default [] (e_exits e) → (∀ e', e' ∈ pre ++ post → k ∉ default [] (e_exits e')) → heap !! k = Some z →
    disambiguateCascadeLabels heap es !! k = Some (if (labels_seen heap es (x_label z) <? 2)%nat then z
      else mkExit (x_label z +:+ " · " +:+ line_suffix e) (x_tag z) (x_cascadeId z))) as H.
  { intros k z Hk Hoth Hz. unfold disambiguateCascadeLabels, es. rewrite foldl_app. simpl.
    rewrite relabels_other by (intros; apply Hoth; set_solver). rewrite relabel_own by done.
    rewrite relabels_other by (intros; apply Hoth; set_solver). by rewrite Hz. }
  rewrite (H i x), (H j y); [|done|naive_solver|done|done|naive_solver|done]. eexists _, _. split; [done|]. split; [done|].
  rewrite Hl. by destruct (_ <? 2)%nat.
Qed.

Theorem alike_lines_stay_witness : ∃ x' y',
  disambiguateCascadeLabels [mkExit "ru → NL" 1 (Some "k"); mkExit "ru → NL" 2 (Some "k")] [ex_entry "ru-1" "a.example" "vless"] !! 0%nat = Some x' ∧
  disambiguateCascadeLabels [mkExit "ru → NL" 1 (Some "k"); mkExit "ru → NL" 2 (Some "k")] [ex_entry "ru-1" "a.example" "vless"] !! 1%nat = Some y' ∧
  x_label x' = x_label y' ∧ x_tag x' = 1 ∧ x_tag y' = 2.
Proof.
  apply (alike_lines_stay [mkExit "ru → NL" 1 (Some "k"); mkExit "ru → NL" 2 (Some "k")] [] (ex_entry "ru-1" "a.example" "vless") []
           0%nat 1%nat (mkExit "ru → NL" 1 (Some "k")) (mkExit "ru → NL" 2 (Some "k"))); try done.
  - apply (bool_decide_unpack _). vm_compute. exact I.
  - by left.
  - right. by left.
  - by intros e' ?%not_elem_of_nil.
Defined.

Definition ex_weigh (h w : Z) : Z := h * w.

Theorem lines_dealt_once_witness : ∃ e e', e ∈ ex_pool "vless" ∧ carries ex_heap "k" 2 e ∧
  exitless (bare e') = exitless (bare e) ∧
  filter (carries ex_heap "k" 2) (collapseCascadeLines ex_weigh ex_heap "ann" (ex_pool "vless")) = [e'].
Proof.
  apply (lines_dealt_once (λ s, s) (λ _ _, None) ex_weigh ex_heap "ann" (ex_pool "vless") (ex_pool "vless") "k" 2).
  - repeat (apply Forall_cons_2; [split; [|split; [done|]]; apply (bool_decide_unpack _); vm_compute; exact I|]). apply Forall_nil_2.
  - done.
  - apply ex_pool_apart.
  - exists (ex_entry "ru-1" "a.example" "vless"). split; [by left|]. apply (bool_decide_unpack _). vm_compute. exact I.
Defined.

(** ** The order of a user's nodes *)
Lemma sorted_filter {A} (R : relation A) (P : A → Prop) `{∀ x, Decision (P x)} l :
  StronglySorted R l → StronglySorted R (filter P l).
Proof.
  induction 1 as [|x l Hl IH Hx]; [constructor|]. rewrite filter_cons. case_decide; [|done]. constructor; [done|].
  rewrite Forall_forall in Hx |- *. intros y [_ Hy]%list_elem_of_filter. by apply Hx.
Qed.

(** The order of a user's nodes: a permutation of them that depends on
    nothing but the set, and when a node leaves, the others keep their order,
    so that only those who were on it move. *)
Theorem rendezvous_stable weigh userId nodes nodes' gone : NoDup (nodes.*1) → nodes' ≡ₚ nodes →
  let order := rendezvousOrder weigh nodes userId in
  order ≡ₚ nodes ∧ rendezvousOrder weigh nodes' userId = order ∧
  rendezvousOrder weigh (filter (λ n, n.1 ≠ gone) nodes) userId = filter (λ n, n.1 ≠ gone) order.
Proof.
  intros Hnd Hp order. assert (order ≡ₚ nodes) as Ho by apply sort_by_perm. split; [done|].
  assert (∀ l, l ≡ₚ order ∨ l ≡ₚ filter (λ n, n.1 ≠ gone) order → ∀ l', l ≡ₚ l' →
    StronglySorted (λ a b, hrw_leb weigh userId a b = true) l → StronglySorted (λ a b, hrw_leb weigh userId a b = true) l' → l = l') as Huniq.
  { intros l Hl l' Hll H1 H2. apply (StronglySorted_unique_strong (λ a b, hrw_leb weigh userId a b = true)); try done.
    intros a b Ha Hb Hab Hba. apply (NoDup_fmap_elem fst nodes); [done|..|by apply (hrw_antisym weigh userId)].
    - rewrite <-Ho. destruct Hl as [Hl|Hl]; rewrite Hl in Ha; [done|]. by apply list_elem_of_filter in Ha as [_ Ha].
    - rewrite <-Ho. rewrite <-Hll in Hb. destruct Hl as [Hl|Hl]; rewrite Hl in Hb; [done|]. by apply list_elem_of_filter in Hb as [_ Hb]. }
  split.
  - apply Huniq; [left; unfold order, rendezvousOrder; by rewrite !sort_by_perm| |apply rendezvous_sorted..].
    unfold order, rendezvousOrder. by rewrite !sort_by_perm.
  - assert (rendezvousOrder weigh (filter (λ n, n.1 ≠ gone) nodes) userId ≡ₚ filter (λ n, n.1 ≠ gone) order) as Hf.
    { unfold rendezvousOrder. rewrite sort_by_perm. by rewrite Ho. }
    apply Huniq; [by right|done|apply rendezvous_sorted|apply sorted_filter, rendezvous_sorted].
Qed.

Theorem rendezvous_stable_witness :
  rendezvousOrder ex_weigh (filter (λ n, n.1 ≠ "b") [("a", None); ("b", Some 1000); ("c", None)]) "ann"
  = filter (λ n, n.1 ≠ "b") (rendezvousOrder ex_weigh [("a", None); ("b", Some 1000); ("c", None)] "ann").
Proof.
  apply (rendezvous_stable ex_weigh "ann" [("a", None); ("b", Some 1000); ("c", None)] [("a", None); ("b", Some 1000); ("c", None)] "b");
    [apply (bool_decide_unpack _); vm_compute; exact I|done].
Defined.
