(* ===== verification/BindingsCache.v ===== *)
(** The cache of a squad set's bindings
    (apps/panel-backend/src/modules/subscription/subscription.bindings-cache.ts).

    The module keeps a version, a store of entries and the loads under way.
    Requests, busts and the loads' steps interleave: a load begins at a request,
    reads the database at some later moment, and ends by giving its rows or an
    error.  What is loaded is kept as its key and, for the statements, as the
    version the module had when the database was read ([asof]): rows read under
    version [v] hold every change whose bust is among the first [v].

    A load is its number; the requests that wait on it are listed with the
    version they came at. *)

From S2P Require Import Prelude Js.

Local Open Scope string_scope.
Local Open Scope list_scope.
Local Open Scope Z_scope.

Definition TTL_MS : Z := 60000.
Definition MAX_ENTRIES : nat := 500.

(** [bindingsCacheKey]. *)
Definition bindingsCacheKey (groupIds : list string) : string := js_join "," (sort_by str_leb groupIds).

Record rows := mkRows { of_key : string; asof : nat }.
Record Entry := mkEntry { en_version : nat; en_expiresAt : Z; en_value : rows }.
(** A load under way: its key, the version captured, the caller's clock, and
    what it has read. *)
Record Flight := mkFlight { fl_key : string; fl_version : nat; fl_now : Z; fl_read : option rows }.

Record cache := mkCache {
  version : nat;
  store : list (string * Entry);
  inflight : list (string * nat);            (* key, load *)
  flights : list (nat * Flight);             (* the loads that have not ended *)
  next_flight : nat;
  waiting : list (nat * (string * nat));     (* load; the request's key and version *)
  answers : list ((string * nat) * rows)     (* the requests answered *)
}.

Definition empty_cache : cache := mkCache 0 [] [] [] 0 [] [].

Inductive event :=
  | Request (key : string) (nowMs : Z)
  | Bust
  | ReadRows (f : nat)
  | LoadEnds (f : nat)
  | LoadFails (f : nat).

Definition set_flights (c : cache) (fs : list (nat * Flight)) : cache :=
  mkCache (version c) (store c) (inflight c) fs (next_flight c) (waiting c) (answers c).

(** [getCachedBindings], up to the first wait. *)
Definition get_cached (c : cache) (key : string) (nowMs : Z) : cache :=
  let asked := (key, version c) in
  let join f := mkCache (version c) (store c) (inflight c) (flights c) (next_flight c) (waiting c ++ [(f, asked)]) (answers c) in
  let start :=
    let f := next_flight c in
    mkCache (version c) (store c) (jm_set key f (inflight c))
      (flights c ++ [(f, mkFlight key (version c) nowMs None)]) (S f) (waiting c ++ [(f, asked)]) (answers c) in
  let pending :=
    match jm_get key (inflight c) with
    | Some f => match jm_get f (flights c) with
                | Some fl => if (fl_version fl =? version c)%nat then join f else start
                | None => start
                end
    | None => start
    end in
  match jm_get key (store c) with
  | Some hit => if (en_version hit =? version c)%nat && (nowMs <? en_expiresAt hit)
                then mkCache (version c) (store c) (inflight c) (flights c) (next_flight c) (waiting c)
                       (answers c ++ [(asked, en_value hit)])
                else pending
  | None => pending
  end.

Definition bustBindingsCache (c : cache) : cache :=
  mkCache (S (version c)) (store c) (inflight c) (flights c) (next_flight c) (waiting c) (answers c).

Definition delete_key {V} (k : string) (m : list (string * V)) : list (string * V) := filter (λ kv, kv.1 ≠ k) m.

(** Room for a new key, and the entry unless a newer one is there. *)
Definition store_rows (s : list (string * Entry)) (key : string) (loadedVersion : nat) (nowMs : Z) (value : rows)
    : list (string * Entry) :=
  let s := if (MAX_ENTRIES <=? length s)%nat && negb (bool_decide (key ∈ jm_keys s))
           then match s with (oldest, _) :: _ => delete_key oldest s | [] => s end else s in
  match jm_get key s with
  | Some current => if (en_version current <=? loadedVersion)%nat
                    then jm_set key (mkEntry loadedVersion (nowMs + TTL_MS) value) s else s
  | None => jm_set key (mkEntry loadedVersion (nowMs + TTL_MS) value) s
  end.

Definition end_flight (c : cache) (f : nat) (fl : Flight) (value : option rows) : cache :=
  mkCache (version c)
    (match value with Some v => store_rows (store c) (fl_key fl) (fl_version fl) (fl_now fl) v | None => store c end)
    (if bool_decide (jm_get (fl_key fl) (inflight c) = Some f) then delete_key (fl_key fl) (inflight c) else inflight c)
    (filter (λ kv, kv.1 ≠ f) (flights c))
    (next_flight c)
    (filter (λ w, w.1 ≠ f) (waiting c))
    (match value with
     | Some v => answers c ++ ((λ w : nat * (string * nat), (w.2, v)) <$> filter (λ w, w.1 = f) (waiting c))
     | None => answers c
     end).

Definition step (c : cache) (ev : event) : cache :=
  match ev with
  | Request key nowMs => get_cached c key nowMs
  | Bust => bustBindingsCache c
  | ReadRows f =>
      match jm_get f (flights c) with
      | Some fl => set_flights c (jm_set f (mkFlight (fl_key fl) (fl_version fl) (fl_now fl)
                                    (Some (mkRows (fl_key fl) (version c)))) (flights c))
      | None => c
      end
  | LoadEnds f =>
      match jm_get f (flights c) with
      | Some fl => match fl_read fl with Some v => end_flight c f fl (Some v) | None => c end
      | None => c
      end
  | LoadFails f =>
      match jm_get f (flights c) with Some fl => end_flight c f fl None | None => c end
  end.

Definition run (evs : list event) : cache := foldl step empty_cache evs.

(** ** The invariant *)
Record inv (c : cache) : Prop := {
  i_store : ∀ k e, jm_get k (store c) = Some e → of_key (en_value e) = k ∧ (en_version e ≤ asof (en_value e))%nat;
  i_store_wf : jm_wf (store c);
  i_size : (length (store c) ≤ MAX_ENTRIES)%nat;
  i_flights_wf : jm_wf (flights c);
  i_fresh : ∀ f fl, jm_get f (flights c) = Some fl → (f < next_flight c)%nat ∧ (fl_version fl ≤ version c)%nat ∧
    ∀ v, fl_read fl = Some v → of_key v = fl_key fl ∧ (fl_version fl ≤ asof v)%nat;
  i_inflight : ∀ k f, jm_get k (inflight c) = Some f → ∃ fl, jm_get f (flights c) = Some fl ∧ fl_key fl = k;
  i_inflight_wf : jm_wf (inflight c);
  i_current : ∀ f fl, jm_get f (flights c) = Some fl → fl_version fl = version c → jm_get (fl_key fl) (inflight c) = Some f;
  i_single : ∀ f g fl gl, jm_get f (flights c) = Some fl → jm_get g (flights c) = Some gl →
    fl_key fl = fl_key gl → fl_version fl = fl_version gl → f = g;
  i_waiting : ∀ f k v, (f, (k, v)) ∈ waiting c →
    ∃ fl, jm_get f (flights c) = Some fl ∧ fl_key fl = k ∧ fl_version fl = v;
  i_answers : ∀ k v r, ((k, v), r) ∈ answers c → of_key r = k ∧ (v ≤ asof r)%nat
}.

(** ** Lemmas on maps *)
Lemma store_set_length {K V} `{EqDecision K} (k : K) (v : V) m :
  (k ∈ jm_keys m → length (jm_set k v m) = length m) ∧ (k ∉ jm_keys m → length (jm_set k v m) = S (length m)).
Proof.
  unfold jm_keys. induction m as [|[k' v'] m [IH1 IH2]]; simpl; [by split; [intros ?%not_elem_of_nil|]|].
  case_decide as Hk; simpl; [subst; split; [done|]; intros Hni; by destruct Hni; left|].
  split; intros Hin; f_equal; [apply IH1|apply IH2]; set_solver.
Qed.

Lemma jm_get_delete {K V} `{EqDecision K} (k k' : K) (m : list (K * V)) :
  jm_get k (filter (λ kv, kv.1 ≠ k') m) = if decide (k = k') then None else jm_get k m.
Proof.
  induction m as [|[k2 v] m IH]; [by case_decide|]. destruct (decide (k2 = k')) as [->|Hne].
  - rewrite filter_cons_False by (simpl; tauto). rewrite IH. simpl. case_decide; [done|]. done.
  - rewrite filter_cons_True by done. simpl. rewrite IH. do 2 case_decide; congruence.
Qed.

Lemma jm_wf_delete {K V} `{EqDecision K} (k : K) (m : list (K * V)) : jm_wf m → jm_wf (filter (λ kv, kv.1 ≠ k) m).
Proof. apply NoDup_fmap_filter. Qed.

Lemma jm_get_snoc {K V} `{EqDecision K} (k k' : K) (v : V) m :
  jm_get k (m ++ [(k', v)]) = match jm_get k m with Some x => Some x | None => if decide (k = k') then Some v else None end.
Proof. induction m as [|[k2 v2] m IH]; simpl; [done|]. by destruct (decide (k = k2)). Qed.

Lemma store_rows_ok s key ver now v : jm_wf s → (length s ≤ MAX_ENTRIES)%nat →
  let s' := store_rows s key ver now v in
  jm_wf s' ∧ (length s' ≤ MAX_ENTRIES)%nat ∧
  ∀ k e, jm_get k s' = Some e → jm_get k s = Some e ∨ (k = key ∧ e = mkEntry ver (now + TTL_MS) v).
Proof.
  intros Hwf Hlen. unfold store_rows. cbv zeta. set (s0 := if _ && _ then _ else s).
  assert (jm_wf s0 ∧ (length s0 ≤ MAX_ENTRIES)%nat ∧ (key ∉ jm_keys s0 → length s0 < MAX_ENTRIES)%nat ∧
          ∀ k e, jm_get k s0 = Some e → jm_get k s = Some e) as (Hwf0 & Hlen0 & Hroom & Hsub).
  { unfold s0. destruct (Nat.leb_spec MAX_ENTRIES (length s)); simpl; [|by repeat split; try lia].
    case_bool_decide as Hin; simpl; [split; [done|]; split; [done|]; split; [tauto|done]|].
    destruct s as [|[oldest e] s']; [simpl in *; unfold MAX_ENTRIES in *; lia|]. unfold delete_key.
    assert (length (filter (λ kv : string * Entry, kv.1 ≠ oldest) ((oldest, e) :: s')) ≤ length s')%nat.
    { rewrite filter_cons, decide_False by tauto. apply length_filter. }
    simpl in Hlen. split; [by apply jm_wf_delete|]. split; [lia|]. split; [lia|]. intros k e'.
    rewrite jm_get_delete. by case_decide. }
  assert (∀ e0, jm_wf (jm_set key e0 s0) ∧ (length (jm_set key e0 s0) ≤ MAX_ENTRIES)%nat) as Hset.
  { intros e0. split; [by apply jm_wf_set|]. destruct (store_set_length key e0 s0) as [H1 H2].
    destruct (decide (key ∈ jm_keys s0)); [by rewrite H1|]. rewrite H2 by done. by apply Hroom. }
  clearbody s0. destruct (jm_get key s0) as [current|] eqn:E; [destruct (en_version current <=? ver)%nat|].
  2: { split; [done|]. split; [done|]. intros k e Hk. left. by apply Hsub. }
  all: destruct (Hset (mkEntry ver (now + TTL_MS) v)); split; [done|]; split; [done|]; intros k e; rewrite jm_get_set.
  all: case_decide; [intros [= <-]; by right|left; by apply Hsub].
Qed.

(** ** Every step keeps it *)
Lemma inv_empty : inv empty_cache.
Proof.
  split; simpl; try done; try apply jm_wf_nil; [unfold MAX_ENTRIES; lia|by intros ??? ?%not_elem_of_nil..].
Qed.

Lemma inv_bust c : inv c → inv (bustBindingsCache c).
Proof.
  intros []. split; simpl; try done.
  - intros f fl Hf. destruct (i_fresh0 f fl Hf) as (? & ? & ?). split; [done|]. split; [lia|done].
  - intros f fl Hf Hv. destruct (i_fresh0 f fl Hf) as (_ & ? & _). lia.
Qed.

Lemma inv_read c f fl : inv c → jm_get f (flights c) = Some fl →
  inv (set_flights c (jm_set f (mkFlight (fl_key fl) (fl_version fl) (fl_now fl) (Some (mkRows (fl_key fl) (version c)))) (flights c))).
Proof.
  intros [] Hf. set (fl' := mkFlight _ _ _ _).
  assert (∀ g gl, jm_get g (jm_set f fl' (flights c)) = Some gl → ∃ gl0, jm_get g (flights c) = Some gl0 ∧
    fl_key gl = fl_key gl0 ∧ fl_version gl = fl_version gl0) as Hback.
  { intros g gl. rewrite jm_get_set. case_decide; [intros [= <-]; subst; by exists fl|]. intros Hg. by exists gl. }
  assert (∀ g gl0, jm_get g (flights c) = Some gl0 → ∃ gl, jm_get g (jm_set f fl' (flights c)) = Some gl ∧
    fl_key gl = fl_key gl0 ∧ fl_version gl = fl_version gl0) as Hforth.
  { intros g gl0 Hg. rewrite jm_get_set. case_decide; [subst; simplify_eq; by exists fl'|by exists gl0]. }
  split; simpl; try done.
  - by apply jm_wf_set.
  - intros g gl. rewrite jm_get_set. case_decide; [|apply i_fresh0]. subst. intros [= <-]. simpl.
    destruct (i_fresh0 f fl Hf) as (? & ? & _). split; [done|]. split; [done|]. by intros v [= <-].
  - intros k g Hk. destruct (i_inflight0 k g Hk) as (gl0 & Hg & Hkey). destruct (Hforth g gl0 Hg) as (gl & ? & ? & _).
    exists gl. split; [done|]. congruence.
  - intros g gl (gl0 & Hg & Hk & Hv)%Hback Hver. rewrite Hk. apply i_current0; congruence.
  - intros g h gl hl (gl0 & Hg & Hk & Hv)%Hback (hl0 & Hh & Hk' & Hv')%Hback ??. eapply i_single0; [exact Hg|exact Hh|congruence..].
  - intros g k v Hin. destruct (i_waiting0 g k v Hin) as (gl0 & Hg & <- & <-). by apply Hforth.
Qed.

Lemma inv_end c f fl value : inv c → jm_get f (flights c) = Some fl →
  (∀ v, value = Some v → fl_read fl = Some v) → inv (end_flight c f fl value).
Proof.
  intros [] Hf Hval. unfold end_flight.
  assert (∀ g gl, jm_get g (filter (λ kv, kv.1 ≠ f) (flights c)) = Some gl ↔ g ≠ f ∧ jm_get g (flights c) = Some gl) as Hfl.
  { intros g gl. rewrite jm_get_delete. case_decide; naive_solver. }
  assert (∀ v, value = Some v → of_key v = fl_key fl ∧ (fl_version fl ≤ asof v)%nat) as Hv.
  { intros v Hvv. destruct (i_fresh0 f fl Hf) as (_ & _ & H). by apply H, Hval. }
  set (infl := if bool_decide _ then _ else inflight c).
  assert (∀ k g, jm_get k infl = Some g → jm_get k (inflight c) = Some g ∧ g ≠ f) as Hsub.
  { intros k g. unfold infl. case_bool_decide as Hown.
    - unfold delete_key. rewrite jm_get_delete. case_decide as Hk; [done|]. intros Hg. split; [done|]. intros ->.
      destruct (i_inflight0 k f Hg) as (fl' & ? & <-). simplify_eq.
    - intros Hg. split; [done|]. intros ->. apply Hown. destruct (i_inflight0 k f Hg) as (fl' & ? & <-). by simplify_eq. }
  assert (∀ k g, jm_get k (inflight c) = Some g → g ≠ f → jm_get k infl = Some g) as Hkeep.
  { intros k g Hg Hne. unfold infl. case_bool_decide as Hown; [|done]. unfold delete_key. rewrite jm_get_delete.
    rewrite decide_False; [done|]. intros ->. congruence. }
  split; simpl.
  - destruct value as [v|]; [|done]. destruct (store_rows_ok (store c) (fl_key fl) (fl_version fl) (fl_now fl) v) as (_ & _ & Hs); [done..|].
    intros k e [Hk|[-> ->]]%Hs; [by apply i_store0|]. simpl. by apply Hv.
  - destruct value as [v|]; [|done]. by apply store_rows_ok.
  - destruct value as [v|]; [|done]. by apply store_rows_ok.
  - by apply jm_wf_delete.
  - intros g gl [_ Hg]%Hfl. by apply i_fresh0.
  - intros k g [Hg Hne]%Hsub. destruct (i_inflight0 k g Hg) as (gl & ? & ?). exists gl. split; [by apply Hfl|done].
  - unfold infl. case_bool_decide; [by apply jm_wf_delete|done].
  - intros g gl [Hne Hg]%Hfl Hver. apply Hkeep; [by apply i_current0|done].
  - intros g h gl hl [_ Hg]%Hfl [_ Hh]%Hfl. by apply i_single0.
  - intros g k v [Hne Hin]%list_elem_of_filter. destruct (i_waiting0 g k v Hin) as (gl & ? & ? & ?). exists gl.
    split; [by apply Hfl|done].
  - destruct value as [v|]; [|done]. intros k ver r [Hin|Hin]%elem_of_app; [by apply i_answers0|].
    apply list_elem_of_fmap in Hin as ([g [k' ver']] & [= -> -> ->] & [Hg Hin]%list_elem_of_filter). simpl in Hg. subst g.
    destruct (i_waiting0 f _ _ Hin) as (fl' & Hf' & <- & <-). simplify_eq. destruct (Hv v eq_refl) as [? ?]. done.
Qed.

Lemma inv_request c key now : inv c → inv (get_cached c key now).
Proof.
  intros Hinv. pose proof Hinv as []. unfold get_cached.
  assert (∀ f fl, jm_get f (flights c) = Some fl → fl_version fl = version c → fl_key fl = key → 
    inv (mkCache (version c) (store c) (inflight c) (flights c) (next_flight c) (waiting c ++ [(f, (key, version c))]) (answers c))) as Hjoin.
  { intros f fl Hf Hv Hk. split; simpl; try done.
    intros g k v [Hin|[= -> -> ->]%list_elem_of_singleton]%elem_of_app; [by apply i_waiting0|by exists fl]. }
  assert ((∀ f fl, jm_get f (flights c) = Some fl → fl_key fl = key → fl_version fl ≠ version c) →
    inv (mkCache (version c) (store c) (jm_set key (next_flight c) (inflight c))
      (flights c ++ [(next_flight c, mkFlight key (version c) now None)]) (S (next_flight c))
      (waiting c ++ [(next_flight c, (key, version c))]) (answers c))) as Hstart.
  { intros Hno. set (n := next_flight c). set (new := mkFlight key (version c) now None).
    assert (∀ g gl, jm_get g (flights c ++ [(n, new)]) = Some gl ↔
      (g ≠ n ∧ jm_get g (flights c) = Some gl) ∨ (g = n ∧ gl = new)) as Hfl.
    { intros g gl. rewrite jm_get_snoc. destruct (jm_get g (flights c)) as [x|] eqn:E.
      - assert (g ≠ n) by (destruct (i_fresh0 g x E); unfold n; lia). naive_solver.
      - case_decide; naive_solver. }
    split; simpl; try done.
    - unfold jm_wf, jm_keys in *. rewrite fmap_app. apply NoDup_app. split; [done|]. split; [|apply NoDup_singleton].
      intros g Hg ->%list_elem_of_singleton. apply jm_get_is_Some in Hg as [x Hx]. destruct (i_fresh0 n x Hx). unfold n in *. lia.
    - intros g gl [[_ Hg]|[-> ->]]%Hfl.
      + destruct (i_fresh0 g gl Hg) as (? & ? & ?). split; [lia|done].
      + unfold new, n. simpl. split; [lia|]. split; [lia|done].
    - intros k g. rewrite jm_get_set. case_decide as Hk.
      + intros [= <-]. subst k. exists new. split; [apply Hfl; by right|done].
      + intros Hg. destruct (i_inflight0 k g Hg) as (gl & Hgl & ?). exists gl. split; [|done]. apply Hfl. left.
        split; [|done]. destruct (i_fresh0 g gl Hgl). unfold n. lia.
    - by apply jm_wf_set.
    - intros g gl [[_ Hg]|[-> ->]]%Hfl Hver; rewrite jm_get_set.
      + case_decide as Hk; [by destruct (Hno g gl Hg Hk)|by apply i_current0].
      + by rewrite decide_True.
    - intros g h gl hl [[_ Hg]|[-> ->]]%Hfl [[_ Hh]|[-> ->]]%Hfl Hk Hv; [by eapply i_single0| | |done].
      + by destruct (Hno g gl Hg Hk).
      + by destruct (Hno h hl Hh (eq_sym Hk)).
    - intros g k v [Hin|[= -> -> ->]%list_elem_of_singleton]%elem_of_app.
      + destruct (i_waiting0 g k v Hin) as (gl & Hg & ? & ?). exists gl. split; [|done]. apply Hfl. left. split; [|done].
        destruct (i_fresh0 g gl Hg). unfold n. lia.
      + exists new. split; [apply Hfl; by right|done]. }
  assert (inv match jm_get key (inflight c) with
    | Some f => match jm_get f (flights c) with
                | Some fl => if (fl_version fl =? version c)%nat
                             then mkCache (version c) (store c) (inflight c) (flights c) (next_flight c) (waiting c ++ [(f, (key, version c))]) (answers c)
                             else mkCache (version c) (store c) (jm_set key (next_flight c) (inflight c))
                                    (flights c ++ [(next_flight c, mkFlight key (version c) now None)]) (S (next_flight c))
                                    (waiting c ++ [(next_flight c, (key, version c))]) (answers c)
                | None => mkCache (version c) (store c) (jm_set key (next_flight c) (inflight c))
                            (flights c ++ [(next_flight c, mkFlight key (version c) now None)]) (S (next_flight c))
                            (waiting c ++ [(next_flight c, (key, version c))]) (answers c)
                end
    | None => mkCache (version c) (store c) (jm_set key (next_flight c) (inflight c))
                (flights c ++ [(next_flight c, mkFlight key (version c) now None)]) (S (next_flight c))
                (waiting c ++ [(next_flight c, (key, version c))]) (answers c)
    end) as Hpending.
  { destruct (jm_get key (inflight c)) as [f|] eqn:Ef.
    - destruct (i_inflight0 key f Ef) as (fl & Hf & Hk). rewrite Hf. destruct (Nat.eqb_spec (fl_version fl) (version c)) as [Hv|Hv].
      + by apply (Hjoin f fl).
      + apply Hstart. intros g gl Hg Hgk Hgv. pose proof (i_current0 g gl Hg Hgv) as Hcur. rewrite Hgk in Hcur. simplify_eq.
    - apply Hstart. intros g gl Hg Hgk Hgv. pose proof (i_current0 g gl Hg Hgv) as Hcur. rewrite Hgk in Hcur. congruence. }
  destruct (jm_get key (store c)) as [hit|] eqn:Ehit; [|exact Hpending]. destruct (_ && _) eqn:Eb; [|exact Hpending]. bool_prop.
  split; simpl; try done. intros k v r [Hin|[= -> -> ->]%list_elem_of_singleton]%elem_of_app; [by apply i_answers0|].
  destruct (i_store0 key hit Ehit) as [? ?]. split; [done|]. lia.
Qed.

Lemma inv_step c ev : inv c → inv (step c ev).
Proof.
  intros Hinv. destruct ev as [key now| |f|f|f]; simpl.
  - by apply inv_request.
  - by apply inv_bust.
  - destruct (jm_get f (flights c)) eqn:E; [by apply inv_read|done].
  - destruct (jm_get f (flights c)) as [fl|] eqn:E; [|done]. destruct (fl_read fl) as [v|] eqn:Ev; [|done].
    apply inv_end; [done..|]. congruence.
  - destruct (jm_get f (flights c)) eqn:E; [|done]. by apply inv_end.
Qed.

Lemma inv_run evs : inv (run evs).
Proof.
  unfold run. generalize inv_empty. generalize empty_cache. induction evs as [|ev evs IH]; intros c Hc; simpl; [done|].
  apply IH. by apply inv_step.
Qed.

(** C23. Whatever the interleaving of requests, busts and loads: a request is
    answered with the rows of its own squads, read under the version it came at
    or a later one, so they hold every change busted before it; two loads for
    the same squads are never under way at one version; the store holds at most
    [MAX_ENTRIES]; and a request waits on a load that is still under way. *)
Theorem bindings_fresh evs : let c := run evs in
  (∀ k v r, ((k, v), r) ∈ answers c → of_key r = k ∧ (v ≤ asof r)%nat) ∧
  (∀ f g fl gl, jm_get f (flights c) = Some fl → jm_get g (flights c) = Some gl →
     fl_key fl = fl_key gl → fl_version fl = fl_version gl → f = g) ∧
  (length (store c) ≤ MAX_ENTRIES)%nat ∧
  (∀ f k v, (f, (k, v)) ∈ waiting c → is_Some (jm_get f (flights c))).
Proof.
  destruct (inv_run evs). cbv zeta. split; [done|]. split; [done|]. split; [done|].
  intros f k v Hin. destruct (i_waiting0 f k v Hin) as (fl & -> & _). by eexists.
Qed.

(** A bust lands while a load is under way: the next request starts its own. *)
Example ex_race : answers (run [Request "a" 0; ReadRows 0; Bust; Request "a" 5; LoadEnds 0; ReadRows 1; LoadEnds 1; Request "a" 9])
  = [(("a", 0%nat), mkRows "a" 0); (("a", 1%nat), mkRows "a" 1); (("a", 1%nat), mkRows "a" 1)].
Proof. vm_compute. reflexivity. Qed.

(** The key does not depend on the order of the squads. *)
Lemma key_order gs gs' : gs ≡ₚ gs' → bindingsCacheKey gs = bindingsCacheKey gs'.
Proof.
  intros Hp. unfold bindingsCacheKey. f_equal. apply (StronglySorted_unique_strong (λ a b, str_leb a b = true)).
  - intros a b _ _. apply str_leb_antisym.
  - apply sort_by_sorted; [apply str_leb_total|apply str_leb_trans].
  - apply sort_by_sorted; [apply str_leb_total|apply str_leb_trans].
  - by rewrite !sort_by_perm.
Qed.
