(* ===== verification/CoreVersions.v ===== *)
(** The versions of a node's cores
    (packages/shared/src/core-versions.ts,
    apps/panel-backend/src/modules/nodes/node-core-versions.ts).

    The manifest lists what may be installed, component by component; a node
    stores what its operator chose, a missing choice being the pin; a report is
    judged against both.  A component is a constructor where the source has one
    of eight names.  An intent is the object's entries: only its keys matter,
    and their order for the list of problems. *)

From S2P Require Import Prelude Js Json Awg3Geometry TopologyRead BindingsCache.

Local Open Scope string_scope.
Local Open Scope list_scope.
Local Open Scope Z_scope.

(** ** The manifest *)
Inductive CoreComponent :=
  | c_xray | c_singbox | c_hysteria | c_amneziawg_module | c_amneziawg_tools | c_mtg | c_mita | c_caddy_naive.

#[global] Instance CoreComponent_eq_dec : EqDecision CoreComponent.
Proof. solve_decision. Defined.

Definition CORE_COMPONENTS : list CoreComponent :=
  [c_xray; c_singbox; c_hysteria; c_amneziawg_module; c_amneziawg_tools; c_mtg; c_mita; c_caddy_naive].

Definition component_name (c : CoreComponent) : string :=
  match c with
  | c_xray => "xray" | c_singbox => "singbox" | c_hysteria => "hysteria"
  | c_amneziawg_module => "amneziawg-module" | c_amneziawg_tools => "amneziawg-tools"
  | c_mtg => "mtg" | c_mita => "mita" | c_caddy_naive => "caddy-naive"
  end.

(** [CORE_COMPONENTS.includes(key)], with the component. *)
Definition component_of (key : string) : option CoreComponent :=
  js_find (λ c, bool_decide (component_name c = key)) CORE_COMPONENTS.

Record CoreAsset := mkAsset { a_file : string; a_sha256 : string }.
Record CoreRelease := mkRelease {
  r_version : string;
  r_tag : string;
  r_repo : option string;
  r_assets : option (list (string * CoreAsset));   (* by architecture *)
  r_commit : option string;
  r_why : string;
  r_checkedAt : string
}.
Record CoreCeiling := mkCeiling { ce_max : string; ce_reason : string }.
Record CoreKnownBad := mkBad { kb_from : option string; kb_before : option string; kb_reason : string }.
Inductive VersionField := version_field | toolsVersion_field.
Record CoreVersionEntry := mkEntry {
  en_engine : string;
  en_field : VersionField;
  en_pinned : option string;
  en_unpinnedReason : option string;
  en_releases : list CoreRelease;
  en_ceiling : option CoreCeiling;
  en_knownBad : list CoreKnownBad
}.

Definition XRAY_MLKEM : string := "XTLS/REALITY 8cdf7bf (xray 26.9.8) makes the server refuse a ClientHello that does not offer X25519MLKEM768 ahead of X25519. Our inter-hop legs dial from sing-box, whose uTLS (metacubex v1.8.7) offers neither in its Firefox nor its Chrome fingerprint, so a node on such an xray refuses every leg a sing-box chain dials into it while every config loads cleanly. Read from source on 2026-09-23, no fix upstream (SagerNet/sing-box #4520).".
Definition AWG_GENERATION : string := "The AmneziaWG 2.x line: neither the 1.x generation the fleet's clients speak nor the 3.1 module that carries both (Ф7.0 on se-02, 26.09). Never measured here, so never installed.".

Definition CORE_VERSIONS (c : CoreComponent) : CoreVersionEntry :=
  match c with
  | c_xray => mkEntry "xray" version_field (Some "26.3.27") None
      [mkRelease "26.3.27" "v26.3.27" None
          (Some [("amd64", mkAsset "Xray-linux-64.zip" "23cd9af937744d97776ee35ecad4972cf4b2109d1e0fe6be9930467608f7c8ae");
           ("arm64", mkAsset "Xray-linux-arm64-v8a.zip" "4d30283ae614e3057f730f67cd088a42be6fdf91f8639d82cb69e48cde80413c");
           ("armv7", mkAsset "Xray-linux-arm32-v7a.zip" "c7265ae13c63ca0241a037df4ef960ad37938c8a67d984cc08834b2cfdf5654b")]) None
          "What all four stand nodes run (read 2026-09-11) and what CI tests against." "2026-09-23"]
      (Some (mkCeiling "26.7.28" XRAY_MLKEM)) [mkBad (Some "26.9.8") None XRAY_MLKEM]
  | c_singbox => mkEntry "singbox" version_field (Some "1.13.14") None
      [mkRelease "1.13.14" "core-singbox-v1.13.14" (Some "icecompany-tech/core-builds")
          (Some [("amd64", mkAsset "sing-box-1.13.14-iceslab-linux-amd64.tar.gz" "8c982dfa05d5d2bf508a3e282fa3cceb22b0d6e7993b845f4e82df32660ae19e");
           ("arm64", mkAsset "sing-box-1.13.14-iceslab-linux-arm64.tar.gz" "fe2d649ed6e8f6caad76fbfb88dad6c776a4ada0a50f24d72fc2c849dd56585d");
           ("armv7", mkAsset "sing-box-1.13.14-iceslab-linux-armv7.tar.gz" "8df14db0c67735b76e49da9e614d4973e9ea9a4eeb3610de38e05ab8e01c3d11")]) None
          "The stable line on 2026-09-21; 1.14 is in beta and drops older config forms. Our build since A-212, so the per-user counters (v2ray_api) are in the binary. CI runs the config checks against this archive." "2026-10-22"]
      None []
  | c_hysteria => mkEntry "hysteria" version_field (Some "2.12.3") None
      [mkRelease "2.12.3" "app/v2.12.3" None
          (Some [("amd64", mkAsset "hysteria-linux-amd64" "8c7a68a906998b747a0db87586e364f995fbfddb95693ae6e2fdb68a6e920d3e");
           ("arm64", mkAsset "hysteria-linux-arm64" "c8dc653c3ba0a28d29a26b8fa52d2086f27c0927afddce95c09965e7174e78b0");
           ("armv7", mkAsset "hysteria-linux-arm" "cc4bc596c2db473dd7ec1bbcc3cd10e0cb60302759facd95e0be73bc8751e110")]) None
          "The release the phase-6 hand-off was measured against on 2026-09-23: a socks5 outbound with no acl carries every user to the chain." "2026-09-23"]
      None []
  | c_amneziawg_module => mkEntry "amneziawg" version_field (Some "3.1.20260906") None
      [mkRelease "3.1.20260906" "v3.1.20260906" None
          None (Some "4569c4c67f3a57414969260cafbbd04694fbaae0")
          "Carries 1.x and 3.1 interfaces side by side, both with zero negative controls (Ф7.0, se-02, 6.8.0-48, 26.09)." "2026-09-26";
       mkRelease "1.0.20260611" "v1.0.20260611" None
          None (Some "2a6e1a02ac024f54a23e18f894a279b7f870b8fb")
          "What ru-01 and se-01 carried before Ф7.1 (read 2026-09-21); 1.x only." "2026-09-21"]
      None [mkBad (Some "2") (Some "3") AWG_GENERATION]
  | c_amneziawg_tools => mkEntry "amneziawg" toolsVersion_field (Some "3.1.20260812") None
      [mkRelease "3.1.20260812" "v3.1.20260812" None
          None (Some "ee0f0a9aa34ff0a0da4b3433b9512781cfe02843")
          "Configures the 1.x interface of the 3.1 module without loss, and the 3.1 one (Ф7.0, se-02, 26.09). The 1.x tools misread a 1.x module's H values on display." "2026-09-26";
       mkRelease "1.0.20260618-2" "v1.0.20260618-2" None
          None (Some "61e741780e8465a67a7d7fb6cffe14a8a15d624a")
          "What ru-01 and se-01 carried before Ф7.1 (read 2026-09-21)." "2026-09-21"]
      None [mkBad (Some "2") (Some "3") AWG_GENERATION]
  | c_mtg => mkEntry "mtproto" version_field (Some "2.2.8") None
      [mkRelease "2.2.8" "v2.2.8" None
          (Some [("amd64", mkAsset "mtg-2.2.8-linux-amd64.tar.gz" "7ef19d079d85f4e00d4f8334ec1f3f3c8718e3d0ed1f3109ea9a8673138a2102");
           ("arm64", mkAsset "mtg-2.2.8-linux-arm64.tar.gz" "562a94dd4cafcb8f179b76cfeafb76da12747c8e230bc76235bf8746cc189644");
           ("armv7", mkAsset "mtg-2.2.8-linux-armv7.tar.gz" "494ee3794ed00201e5333b478236ce2f434b33f2d3445f227debe9fc386bbef0")]) None
          "The release current on 2026-09-23, when the bootstrap stopped taking latest." "2026-09-23"]
      None []
  | c_mita => mkEntry "mieru" version_field (Some "3.37.0") None
      [mkRelease "3.37.0" "v3.37.0" None
          (Some [("amd64", mkAsset "mita_3.37.0_amd64.deb" "22248dc1568280a8b1bdaf55051a59b3d64ac1edb4ec4918e3925088f78a35de");
           ("arm64", mkAsset "mita_3.37.0_arm64.deb" "d82a7d3c76e8dad42c2736955c5c08ad7ad8f99cafefe2ef4cd1f497ec8d3caa")]) None
          "The release current on 2026-09-23, when the bootstrap stopped taking latest." "2026-09-23"]
      None []
  | c_caddy_naive => mkEntry "naive" version_field None (Some "Built on the node by xcaddy from the @naive branch of klzgrad/forwardproxy, which publishes no release to pin: the version is whatever Caddy and the branch were on the day of the build.")
      []
      None []
  end.

(** ** Versions *)
Definition suffix_char (c : ascii) : bool :=
  let n := nat_of_ascii c in
  ((48 <=? n)%nat && (n <=? 57)%nat) || ((65 <=? n)%nat && (n <=? 90)%nat) || ((97 <=? n)%nat && (n <=? 122)%nat) || (n =? 46)%nat.

(** [\d+], as a number: a double, and past the largest of them the infinity,
    for which 2^1024 stands. *)
Definition segment (s : string) : option Z :=
  (λ v, Z.min (fl_round v) (2 ^ 1024)) <$> all_digits 10 (list_ascii_of_string s).

Definition segments (nums : string) : list Z := omap segment (js_split "." nums).

(** [VERSION_SHAPE.exec(s)]: its two groups. *)
Definition version_shape (s : string) : option (string * option string) :=
  let body := match s with String c rest => if bool_decide (c = "v"%char) then rest else s | EmptyString => s end in
  let '(nums, suffix) := match index_of_char "-" body with
                         | Some i => (str_take i body, Some (str_drop (S i) body))
                         | None => (body, None)
                         end in
  if forallb (λ x, bool_decide (is_Some (segment x))) (js_split "." nums) &&
     match suffix with
     | Some x => negb (bool_decide (x = "")) && forallb suffix_char (list_ascii_of_string x)
     | None => true
     end
  then Some (nums, suffix) else None.

Definition normalizeCoreVersion (raw : option string) : option string :=
  let v := js_trim (default "" raw) in
  if bool_decide (v = "") then None else
  match version_shape v with
  | Some (nums, Some suffix) => Some (nums +:+ "-" +:+ suffix)
  | Some (nums, None) => Some nums
  | None => None
  end.

(** [undefined] is [None]. *)
Definition compareCoreVersions (a b : string) : option comparison :=
  match version_shape (js_trim a), version_shape (js_trim b) with
  | Some (na, sa), Some (nb, sb) =>
      let x := segments na in
      let y := segments nb in
      match js_find (λ i, negb (nth i x 0 =? nth i y 0)) (seq 0 (Nat.max (length x) (length y))) with
      | Some i => Some (if nth i x 0 <? nth i y 0 then Lt else Gt)
      | None => if bool_decide (default "" sa = default "" sb) then Some Eq else None
      end
  | _, _ => None
  end.

Definition isAtLeast (v bound : string) : bool :=
  match compareCoreVersions v bound with Some Eq | Some Gt => true | _ => false end.

(** ** A node's choice *)
Abbreviation NodeCoreVersions := (list (string * string)).

Definition coreReleaseOf (c : CoreComponent) (version : string) : option CoreRelease :=
  let v := normalizeCoreVersion (Some version) in
  js_find (λ r, bool_decide (Some (r_version r) = v)) (en_releases (CORE_VERSIONS c)).

Definition intent_of (intent : NodeCoreVersions) (c : CoreComponent) : option string := jm_get (component_name c) intent.

(** [intent[component] ?? CORE_VERSIONS[component].pinned]. *)
Definition wanted (intent : NodeCoreVersions) (c : CoreComponent) : option string :=
  match intent_of intent c with Some v => Some v | None => en_pinned (CORE_VERSIONS c) end.

(** A line of the list of problems. *)
Inductive problem :=
  | NotAComponent (key : string)
  | NotListed (c : CoreComponent) (version : string) (listed : list string)
  | NothingListed (c : CoreComponent).

Definition check_entry (kv : string * string) : list problem :=
  match component_of kv.1 with
  | None => [NotAComponent kv.1]
  | Some c =>
      match coreReleaseOf c kv.2 with
      | Some _ => []
      | None => match en_releases (CORE_VERSIONS c) with
                | [] => [NothingListed c]
                | rs => [NotListed c kv.2 (r_version <$> rs)]
                end
      end
  end.

Definition checkCoreVersionIntent (intent : NodeCoreVersions) : list problem := intent ≫= check_entry.

(** A release as it travels: [repo], [why] and [checkedAt] stay behind. *)
Record BootRelease := mkBoot {
  bo_version : string; bo_tag : string; bo_assets : option (list (string * CoreAsset)); bo_commit : option string }.

Definition boot_release (r : CoreRelease) : BootRelease := mkBoot (r_version r) (r_tag r) (r_assets r) (r_commit r).

Definition resolve_step (intent : NodeCoreVersions) (c : CoreComponent) : result (list problem) (list (CoreComponent * BootRelease)) :=
  match wanted intent c with
  | None => Ok []
  | Some version => match coreReleaseOf c version with
                    | Some r => Ok [(c, boot_release r)]
                    | None => Throw []      (* reading a field of [undefined] *)
                    end
  end.

Fixpoint resolve_all (intent : NodeCoreVersions) (cs : list CoreComponent)
    : result (list problem) (list (CoreComponent * BootRelease)) :=
  match cs with
  | [] => Ok []
  | c :: cs => x ← resolve_step intent c; rest ← resolve_all intent cs; Ok (x ++ rest)
  end.

Definition resolveCoreVersions (intent : NodeCoreVersions) : result (list problem) (list (CoreComponent * BootRelease)) :=
  match checkCoreVersionIntent intent with
  | [] => resolve_all intent CORE_COMPONENTS
  | problems => Throw problems
  end.

(** ** A report against the manifest *)
Inductive CoreVersionVerdict :=
  | VUnknown
  | VKnownBad (reason : string)
  | VAboveCeiling (ceiling reason : string)
  | VUnpinned (reason : string)
  | VIntended (isPin : bool)
  | VDrift (intended : string).

Definition bad_range (v : string) (bad : CoreKnownBad) : bool :=
  match kb_from bad with None => true | Some f => isAtLeast v f end &&
  match kb_before bad with None => true | Some b => bool_decide (compareCoreVersions v b = Some Lt) end.

Definition above_ceiling (entry : CoreVersionEntry) (v : string) : option CoreCeiling :=
  match en_ceiling entry with
  | Some ce => if bool_decide (compareCoreVersions v (ce_max ce) = Some Gt) then Some ce else None
  | None => None
  end.

Definition judgeCoreVersion (c : CoreComponent) (reported : option string) (intent : NodeCoreVersions) : CoreVersionVerdict :=
  match normalizeCoreVersion reported with
  | None => VUnknown
  | Some v =>
      let entry := CORE_VERSIONS c in
      match js_find (bad_range v) (en_knownBad entry) with
      | Some bad => VKnownBad (kb_reason bad)
      | None =>
          match above_ceiling entry v with
          | Some ce => VAboveCeiling (ce_max ce) (ce_reason ce)
          | None =>
              match wanted intent c with
              | None => VUnpinned (default "" (en_unpinnedReason entry))
              | Some intended => if bool_decide (compareCoreVersions v intended = Some Eq)
                                 then VIntended (bool_decide (Some intended = en_pinned entry)) else VDrift intended
              end
          end
      end
  end.

(** ** Commands *)
Definition CORE_NODE_DIR : string := "/opt/iceslab-node".

Definition ENGINE_BOOTSTRAP : list (string * string) :=
  [("xray", "bootstrap-xray.sh"); ("singbox", "bootstrap-singbox.sh"); ("hysteria", "bootstrap-hysteria.sh");
   ("amneziawg", "bootstrap-amneziawg.sh"); ("mtproto", "bootstrap-mtg.sh"); ("mieru", "bootstrap-mieru.sh");
   ("naive", "bootstrap-naive.sh")].

Definition bootstrap_script (engine : string) : string :=
  "bash " +:+ CORE_NODE_DIR +:+ "/apps/node/scripts/" +:+ default "undefined" (jm_get engine ENGINE_BOOTSTRAP).

Definition CORE_ENV_PREFIX (c : CoreComponent) : string :=
  match c with
  | c_xray => "XRAY" | c_singbox => "SINGBOX" | c_hysteria => "HYSTERIA"
  | c_amneziawg_module => "AWG_MODULE" | c_amneziawg_tools => "AWG_TOOLS"
  | c_mtg => "MTG" | c_mita => "MIERU" | c_caddy_naive => "CADDY_NAIVE"
  end.

Definition coreEnvPair (c : CoreComponent) : option (string * string) :=
  match en_releases (CORE_VERSIONS c) with
  | [] => None
  | release :: _ =>
      let p := CORE_ENV_PREFIX c in
      Some (if truthy (r_commit release) then (p +:+ "_TAG", p +:+ "_SHA") else (p +:+ "_VERSION", p +:+ "_SHA256"))
  end.

Definition componentsOfEngine (engine : string) : list CoreComponent :=
  filter (λ c, en_engine (CORE_VERSIONS c) = engine) CORE_COMPONENTS.

Inductive why_not := NoArch | NoAsset | Unpinned.

(** What one component adds to the command: its two variables, or why not. *)
Definition install_vars (intent : NodeCoreVersions) (arch : option string) (c : CoreComponent) : list string + why_not :=
  match wanted intent c ≫= coreReleaseOf c, coreEnvPair c with
  | Some release, Some (p1, p2) =>
      match r_commit release with
      | Some commit => inl [p1 +:+ "=" +:+ r_tag release; p2 +:+ "=" +:+ commit]
      | None =>
          match arch with
          | None => inr NoArch
          | Some arch =>
              match r_assets release ≫= jm_get arch with
              | Some asset => inl [p1 +:+ "=" +:+ r_version release; p2 +:+ "=" +:+ a_sha256 asset]
              | None => inr NoAsset
              end
          end
      end
  | _, _ => inr Unpinned
  end.

Record InstallCommand := mkCommand { ic_command : string; ic_pinned : bool; ic_why : option why_not }.

Definition install_step (intent : NodeCoreVersions) (arch : option string) (st : list string * option why_not) (c : CoreComponent)
    : list string * option why_not :=
  match install_vars intent arch c with
  | inl vars => (st.1 ++ vars, st.2)
  | inr w => (st.1, Some (default w st.2))
  end.

Definition coreInstallCommand (engine : string) (intent : NodeCoreVersions) (arch : option string) : InstallCommand :=
  let '(vars, why) := foldl (install_step intent arch) ([], None) (componentsOfEngine engine) in
  mkCommand ((if bool_decide (vars = []) then "sudo " else "sudo env " +:+ js_join " " vars +:+ " ") +:+
             bootstrap_script engine +:+ " --restart-agent")
            (bool_decide (why = None)) why.

Definition coreRemoveCommand (engine : string) : string :=
  "sudo " +:+ bootstrap_script engine +:+ " --remove --restart-agent".

(** ** The stored intent *)

(** [readCoreVersions]. *)
Definition read_entry (kv : string * jvalue) : list (string * string) :=
  match component_of kv.1, kv.2 with Some _, JStr v => [(kv.1, v)] | _, _ => [] end.

Definition readCoreVersions (raw : jvalue) : NodeCoreVersions :=
  match raw with JObj fields => fields ≫= read_entry | _ => [] end.

(** A patch: [None] is [null], back to the pin. *)
Definition patch_step (next : NodeCoreVersions) (kv : string * option string) : NodeCoreVersions :=
  match kv.2 with
  | None => filter (λ e, e.1 ≠ kv.1) next
  | Some v => jm_set kv.1 v next
  end.

Definition applyCoreVersionsPatch (stored : NodeCoreVersions) (patch : option (list (string * option string)))
    : result (list problem) NodeCoreVersions :=
  let next := match patch with None => [] | Some p => foldl patch_step stored p end in
  match checkCoreVersionIntent next with
  | [] => Ok next
  | problems => Throw problems
  end.

(** ** The order of versions *)
Section Order.

Definition is_version (s : string) : Prop := is_Some (version_shape (js_trim s)).
(** A version's numbers, padded with zeros, and its suffix. *)
Definition seg (s : string) (i : nat) : Z :=
  match version_shape (js_trim s) with Some (nums, _) => nth i (segments nums) 0 | None => 0 end.
Definition suffix_of (s : string) : string :=
  match version_shape (js_trim s) with Some (_, Some x) => x | _ => "" end.

Definition same_numbers (a b : string) : Prop := ∀ i, seg a i = seg b i.
Definition precedes (a b : string) : Prop := ∃ i, (∀ j, (j < i)%nat → seg a j = seg b j) ∧ seg a i < seg b i.

Lemma find_seq (f : nat → bool) k n :
  match js_find f (seq k n) with
  | Some i => (k ≤ i < k + n)%nat ∧ f i = true ∧ ∀ j, (k ≤ j < i)%nat → f j = false
  | None => ∀ j, (k ≤ j < k + n)%nat → f j = false
  end.
Proof.
  revert k. induction n as [|n IH]; intros k; simpl; [lia|]. destruct (f k) eqn:E; simpl.
  - split; [lia|]. split; [done|]. lia.
  - specialize (IH (S k)). destruct (js_find f (seq (S k) n)) as [i|].
    + destruct IH as (H1 & H2 & H3). split; [lia|]. split; [done|]. intros j Hj.
      destruct (decide (j = k)) as [->|]; [done|]. apply H3. lia.
    + intros j Hj. destruct (decide (j = k)) as [->|]; [done|]. apply IH. lia.
Qed.

(** What a comparison says. *)
Lemma compare_says a b : is_version a → is_version b →
  match compareCoreVersions a b with
  | Some Lt => precedes a b
  | Some Gt => precedes b a
  | Some Eq => same_numbers a b ∧ suffix_of a = suffix_of b
  | None => same_numbers a b ∧ suffix_of a ≠ suffix_of b
  end.
Proof.
  intros [[na sa] Ha] [[nb sb] Hb].
  assert (∀ i, seg a i = nth i (segments na) 0) as Hsa by (intros i; unfold seg; by rewrite Ha).
  assert (∀ i, seg b i = nth i (segments nb) 0) as Hsb by (intros i; unfold seg; by rewrite Hb).
  assert (suffix_of a = default "" sa) as Hxa by (unfold suffix_of; rewrite Ha; by destruct sa).
  assert (suffix_of b = default "" sb) as Hxb by (unfold suffix_of; rewrite Hb; by destruct sb).
  unfold compareCoreVersions. rewrite Ha, Hb, Hxa, Hxb. cbv zeta.
  pose proof (find_seq (λ i, negb (nth i (segments na) 0 =? nth i (segments nb) 0)) 0
                (Nat.max (length (segments na)) (length (segments nb)))) as Hf.
  destruct (js_find _ _) as [i|].
  - destruct Hf as (Hi & Hd & Hj).
    assert (∀ j, (j < i)%nat → seg a j = seg b j) as Hpre.
    { intros j Hlt. specialize (Hj j ltac:(lia)). rewrite Hsa, Hsb. bool_prop. lia. }
    apply negb_true_iff, Z.eqb_neq in Hd. rewrite <-Hsa, <-Hsb in *.
    destruct (Z.ltb_spec (seg a i) (seg b i)); exists i; (split; [|lia]); intros j Hlt; [|symmetry]; by apply Hpre.
  - assert (same_numbers a b) as Hsame.
    { intros i. rewrite Hsa, Hsb.
      destruct (decide (i < Nat.max (length (segments na)) (length (segments nb)))%nat) as [Hlt|Hge].
      - specialize (Hf i ltac:(lia)). bool_prop. lia.
      - rewrite !nth_overflow by lia. done. }
    by case_bool_decide.
Qed.

Lemma compare_versions a b r : compareCoreVersions a b = Some r → is_version a ∧ is_version b.
Proof.
  unfold compareCoreVersions, is_version. destruct (version_shape (js_trim a)) as [[]|]; [|done].
  by destruct (version_shape (js_trim b)) as [[]|].
Qed.

Lemma precedes_not_same a b : precedes a b → ¬ same_numbers a b.
Proof. intros (i & _ & Hi) Hs. rewrite (Hs i) in Hi. lia. Qed.

Lemma follows_not_same a b : precedes b a → ¬ same_numbers a b.
Proof. intros (i & _ & Hi) Hs. rewrite (Hs i) in Hi. lia. Qed.

Lemma precedes_asym a b : precedes a b → ¬ precedes b a.
Proof.
  intros (i & Hi & Hlt) (j & Hj & Hlt'). destruct (lt_eq_lt_dec i j) as [[Hij| ->]|Hij].
  - rewrite (Hj i Hij) in Hlt. lia.
  - lia.
  - rewrite (Hi j Hij) in Hlt'. lia.
Qed.

Lemma precedes_trans a b c : precedes a b → precedes b c → precedes a c.
Proof.
  intros (i & Hi & Hlt) (j & Hj & Hlt'). exists (Nat.min i j). split.
  - intros k Hk. rewrite Hi by lia. apply Hj. lia.
  - destruct (lt_eq_lt_dec i j) as [[Hij| ->]|Hij].
    + rewrite Nat.min_l by lia. by rewrite <-Hj.
    + rewrite Nat.min_id. lia.
    + rewrite Nat.min_r by lia. by rewrite Hi.
Qed.

Lemma compare_Lt a b : compareCoreVersions a b = Some Lt ↔ is_version a ∧ is_version b ∧ precedes a b.
Proof.
  split.
  - intros H. destruct (compare_versions _ _ _ H) as [Ha Hb]. pose proof (compare_says a b Ha Hb) as Hs. by rewrite H in Hs.
  - intros (Ha & Hb & Hp). pose proof (compare_says a b Ha Hb) as Hs.
    destruct (compareCoreVersions a b) as [[]|]; try done.
    + destruct Hs as [Hs _]. by destruct (precedes_not_same a b Hp).
    + by destruct (precedes_asym a b Hp).
    + destruct Hs as [Hs _]. by destruct (precedes_not_same a b Hp).
Qed.

Lemma compare_Gt a b : compareCoreVersions a b = Some Gt ↔ is_version a ∧ is_version b ∧ precedes b a.
Proof.
  split.
  - intros H. destruct (compare_versions _ _ _ H) as [Ha Hb]. pose proof (compare_says a b Ha Hb) as Hs. by rewrite H in Hs.
  - intros (Ha & Hb & Hp). pose proof (compare_says a b Ha Hb) as Hs.
    destruct (compareCoreVersions a b) as [[]|]; try done.
    + destruct Hs as [Hs _]. by destruct (follows_not_same a b Hp).
    + by destruct (precedes_asym a b Hs).
    + destruct Hs as [Hs _]. by destruct (follows_not_same a b Hp).
Qed.

Lemma compare_Eq a b : compareCoreVersions a b = Some Eq ↔
  is_version a ∧ is_version b ∧ same_numbers a b ∧ suffix_of a = suffix_of b.
Proof.
  split.
  - intros H. destruct (compare_versions _ _ _ H) as [Ha Hb]. pose proof (compare_says a b Ha Hb) as Hs. by rewrite H in Hs.
  - intros (Ha & Hb & Hp & Hx). pose proof (compare_says a b Ha Hb) as Hs.
    destruct (compareCoreVersions a b) as [[]|]; [done|by destruct (precedes_not_same a b Hs)|by destruct (follows_not_same a b Hs)|].
    by destruct Hs.
Qed.

Lemma compare_None a b : compareCoreVersions a b = None ↔
  ¬ (is_version a ∧ is_version b) ∨ (same_numbers a b ∧ suffix_of a ≠ suffix_of b).
Proof.
  split.
  - intros H. destruct (version_shape (js_trim a)) as [va|] eqn:Ea; [|left; intros [[? ?] _]; congruence].
    destruct (version_shape (js_trim b)) as [vb|] eqn:Eb; [|left; intros [_ [? ?]]; congruence].
    pose proof (compare_says a b ltac:(by exists va) ltac:(by exists vb)) as Hs. rewrite H in Hs. by right.
  - intros H. destruct (compareCoreVersions a b) as [r|] eqn:E; [|done]. exfalso.
    destruct (compare_versions _ _ _ E) as [Ha Hb]. destruct H as [H|[Hn Hx]]; [by apply H|].
    pose proof (compare_says a b Ha Hb) as Hs. rewrite E in Hs. destruct r; [by destruct Hs| |].
    + by destruct (precedes_not_same a b Hs).
    + by destruct (follows_not_same a b Hs).
Qed.
End Order.

(** ** The shape of a version *)
Lemma split_pieces c l x cur : x ∈ cur ∨ x ∈ l → x = c ∨ ∃ p, p ∈ split_chars c cur l ∧ x ∈ p.
Proof.
  revert cur. induction l as [|d l IH]; intros cur [H|H]; simpl.
  - right. exists (reverse cur). split; [by left|]. by apply elem_of_reverse.
  - by apply not_elem_of_nil in H.
  - case_decide as Hd.
    + right. exists (reverse cur). split; [by left|]. by apply elem_of_reverse.
    + apply IH. left. by right.
  - apply elem_of_cons in H as [->|H].
    + case_decide as Hd; [by left|]. apply IH. left. by left.
    + case_decide as Hd.
      * destruct (IH [] (or_intror H)) as [?|(p & Hp & Hx)]; [by left|]. right. exists p. split; [by right|done].
      * apply IH. by right.
Qed.

Definition version_char (c : ascii) : bool := suffix_char c || bool_decide (c = "-"%char).

Lemma version_char_plain c : version_char c = true → is_ws c = false.
Proof. by destruct c as [[] [] [] [] [] [] [] []]. Qed.

Lemma digit_char c : is_Some (base_digit 10 c) → suffix_char c = true ∧ c ≠ "-"%char ∧ c ≠ "v"%char.
Proof. by destruct c as [[] [] [] [] [] [] [] []]; vm_compute; intros []. Qed.

Lemma take_digits_all l cnt acc v n : take_digits 10 acc cnt l = (v, n, []) → Forall (λ c, is_Some (base_digit 10 c)) l.
Proof.
  revert cnt acc. induction l as [|c l IH]; intros cnt acc H; [constructor|]. simpl in H.
  destruct (base_digit 10 c) eqn:Ed; [|done]. constructor; [by rewrite Ed|by eapply IH].
Qed.

Lemma segment_chars s : is_Some (segment s) → s ≠ "" ∧ Forall (λ c, is_Some (base_digit 10 c)) (list_ascii_of_string s).
Proof.
  unfold segment, all_digits. rewrite fmap_is_Some.
  destruct (take_digits 10 0 0 _) as [[v n] rest] eqn:E. destruct (Z.ltb_spec 0 n); [|by intros []].
  simpl. case_bool_decide as Hr; [|by intros []]. subst rest. intros _. split; [|by eapply take_digits_all].
  intros ->. simpl in E. injection E as <- <-. lia.
Qed.

(** The two groups of a version. *)
Definition shape_ok (nums : string) (suffix : option string) : bool :=
  forallb (λ x, bool_decide (is_Some (segment x))) (js_split "." nums) &&
  match suffix with
  | Some x => negb (bool_decide (x = "")) && forallb suffix_char (list_ascii_of_string x)
  | None => true
  end.

Definition version_text (nums : string) (suffix : option string) : string :=
  match suffix with Some x => nums +:+ "-" +:+ x | None => nums end.

Lemma version_shape_ok s nums suffix : version_shape s = Some (nums, suffix) → shape_ok nums suffix = true.
Proof.
  unfold version_shape. intros H.
  destruct (index_of_char "-" _); match type of H with (if ?b then _ else _) = _ => destruct b eqn:E; [|done] end;
    by injection H as <- <-.
Qed.

Lemma nums_chars nums suffix c : shape_ok nums suffix = true → c ∈ list_ascii_of_string nums →
  suffix_char c = true ∧ c ≠ "-"%char ∧ c ≠ "v"%char.
Proof.
  unfold shape_ok. rewrite andb_true_iff, forallb_forall. intros [Hall _] Hc.
  destruct (split_pieces "." (list_ascii_of_string nums) c []) as [->|(p & Hp & Hin)]; [by right|done|].
  assert (is_Some (segment (string_of_list_ascii p))) as Hseg.
  { apply (bool_decide_eq_true_1 _), Hall, list_elem_of_In. unfold js_split. by apply list_elem_of_fmap_2. }
  apply segment_chars in Hseg as [_ Hd]. rewrite list_ascii_of_string_of_list_ascii, Forall_forall in Hd.
  by apply digit_char, Hd.
Qed.

Lemma nums_nonempty nums suffix : shape_ok nums suffix = true → nums ≠ "".
Proof. by intros H ->. Qed.

Lemma str_drop_app s c t : str_drop (S (String.length s)) (s +:+ String c t) = t.
Proof. by induction s as [|d s IH]. Qed.

Lemma version_text_shape nums suffix : shape_ok nums suffix = true →
  version_shape (version_text nums suffix) = Some (nums, suffix).
Proof.
  intros H. pose proof (nums_nonempty _ _ H) as Hne.
  destruct nums as [|d rest]; [done|].
  assert (char_free "-" (String d rest)) as Hfree.
  { intros Hin. by apply (nums_chars _ _ _ H) in Hin as (_ & ? & _). }
  assert (d ≠ "v"%char) as Hd by (apply (nums_chars _ _ d H); by left).
  unfold version_shape.
  assert (∀ t, (match String d rest +:+ t with String c r => if bool_decide (c = "v"%char) then r else String d rest +:+ t
                | EmptyString => String d rest +:+ t end) = String d rest +:+ t) as Hbody.
  { intros t. simpl. by rewrite bool_decide_false. }
  destruct suffix as [x|]; cbn [version_text].
  - rewrite Hbody. change ("-" +:+ x) with (String "-" x). rewrite index_of_char_app by done.
    rewrite str_take_app, str_drop_app.
    by fold (shape_ok (String d rest) (Some x)); rewrite H.
  - rewrite bool_decide_false by done. destruct (index_of_char_none _ _ Hfree) as [-> _].
    by fold (shape_ok (String d rest) None); rewrite H.
Qed.

Lemma version_text_trim nums suffix : shape_ok nums suffix = true → js_trim (version_text nums suffix) = version_text nums suffix.
Proof.
  intros H. unfold js_trim. rewrite trim_chars_id; [by rewrite string_of_list_ascii_of_string|].
  assert (Forall (λ c, version_char c = true) (list_ascii_of_string (version_text nums suffix))) as Hv.
  { assert (Forall (λ c, version_char c = true) (list_ascii_of_string nums)) as Hn.
    { apply Forall_forall. intros c Hc. unfold version_char. by rewrite (proj1 (nums_chars _ _ c H Hc)). }
    destruct suffix as [x|]; cbn [version_text]; [|done].
    rewrite !list_ascii_app. apply Forall_app_2; [done|]. constructor; [done|].
    unfold shape_ok in H. rewrite !andb_true_iff in H. destruct H as (_ & _ & H). rewrite forallb_forall in H.
    apply Forall_forall. intros c Hc%list_elem_of_In. unfold version_char. by rewrite H. }
  eapply Forall_impl; [exact Hv|]. apply version_char_plain.
Qed.

(** The form of the manifest: a projection, and the same version. *)
Lemma normalize_spec raw v : normalizeCoreVersion (Some raw) = Some v →
  ∃ nums suffix, version_shape (js_trim raw) = Some (nums, suffix) ∧ v = version_text nums suffix ∧
    js_trim v = v ∧ version_shape v = Some (nums, suffix).
Proof.
  unfold normalizeCoreVersion. change (default "" (Some raw)) with raw. cbv zeta. intros Hv. case_bool_decide; [done|].
  destruct (version_shape (js_trim raw)) as [[nums suffix]|] eqn:E; [|discriminate Hv].
  assert (v = version_text nums suffix) as -> by (destruct suffix; cbn [version_text]; congruence).
  pose proof (version_shape_ok _ _ _ E) as Hok. exists nums, suffix.
  split; [done|]. split; [done|]. split; [by apply version_text_trim|by apply version_text_shape].
Qed.

Lemma normalize_same raw v : normalizeCoreVersion (Some raw) = Some v →
  compareCoreVersions raw v = Some Eq ∧ normalizeCoreVersion (Some v) = Some v.
Proof.
  intros (nums & suffix & E & -> & Ht & Hs)%normalize_spec. split.
  - apply compare_Eq. unfold is_version, same_numbers, seg, suffix_of. rewrite Ht, Hs, E. naive_solver.
  - unfold normalizeCoreVersion. set (v := version_text nums suffix) in *. change (default "" (Some v)) with v. cbv zeta. rewrite Ht, Hs. rewrite bool_decide_false; [by destruct suffix|].
    intros Hnil. rewrite Hnil in Hs. by vm_compute in Hs.
Qed.

(** Versions are ordered by their numbers, padded with zeros, one by one:
    the comparison says less, more or equal exactly where the order does, equal
    only for equal suffixes too, and nothing when only the suffixes differ or
    one of them is no version; it is antisymmetric and transitive, and a report
    compares equal to its normal form, which is normal. *)
Theorem versions_ordered :
  (∀ a b, compareCoreVersions a b = Some Lt ↔ is_version a ∧ is_version b ∧ precedes a b) ∧
  (∀ a b, compareCoreVersions a b = Some Eq ↔ is_version a ∧ is_version b ∧ same_numbers a b ∧ suffix_of a = suffix_of b) ∧
  (∀ a b, compareCoreVersions a b = None ↔
    ¬ (is_version a ∧ is_version b) ∨ (same_numbers a b ∧ suffix_of a ≠ suffix_of b)) ∧
  (∀ a b, compareCoreVersions b a = CompOpp <$> compareCoreVersions a b) ∧
  (∀ a b c r, compareCoreVersions a b = Some r → compareCoreVersions b c = Some r → compareCoreVersions a c = Some r) ∧
  (∀ raw v, normalizeCoreVersion (Some raw) = Some v →
    compareCoreVersions raw v = Some Eq ∧ normalizeCoreVersion (Some v) = Some v).
Proof.
  split; [apply compare_Lt|]. split; [apply compare_Eq|]. split; [apply compare_None|].
  split; [|split; [|apply normalize_same]].
  - intros a b. destruct (compareCoreVersions a b) as [[]|] eqn:E; cbn.
    + apply compare_Eq in E. apply compare_Eq. unfold same_numbers in *. naive_solver.
    + apply compare_Lt in E. apply compare_Gt. tauto.
    + apply compare_Gt in E. apply compare_Lt. tauto.
    + apply compare_None in E. apply compare_None. unfold same_numbers in *. naive_solver.
  - intros a b c [] H1 H2.
    + apply compare_Eq in H1, H2. apply compare_Eq. destruct H1 as (? & ? & H1 & ?), H2 as (? & ? & H2 & ?).
      do 2 (split; [done|]). split; [|congruence]. intros i. by rewrite H1.
    + apply compare_Lt in H1, H2. apply compare_Lt. destruct H1 as (? & ? & ?), H2 as (? & ? & ?).
      do 2 (split; [done|]). by apply (precedes_trans a b c).
    + apply compare_Gt in H1, H2. apply compare_Gt. destruct H1 as (? & ? & ?), H2 as (? & ? & ?).
      do 2 (split; [done|]). by apply (precedes_trans c b a).
Qed.

(** ** The manifest *)

(** Neither refused nor of two kinds, and in normal form. *)
Definition release_fit (c : CoreComponent) (r : CoreRelease) : bool :=
  let e := CORE_VERSIONS c in
  bool_decide (normalizeCoreVersion (Some (r_version r)) = Some (r_version r)) &&
  bool_decide (js_find (bad_range (r_version r)) (en_knownBad e) = None) &&
  bool_decide (above_ceiling e (r_version r) = None) &&
  negb (bool_decide (is_Some (r_assets r)) && bool_decide (is_Some (r_commit r))) &&
  (bool_decide (is_Some (r_assets r)) || truthy (r_commit r)) &&
  bool_decide (truthy (r_commit r) = bool_decide (is_Some (r_commit r))).

#[global] Instance CoreKnownBad_eq_dec : EqDecision CoreKnownBad.
Proof. solve_decision. Defined.
#[global] Instance CoreCeiling_eq_dec : EqDecision CoreCeiling.
Proof. solve_decision. Defined.

Definition pin_listed (c : CoreComponent) : bool :=
  match en_pinned (CORE_VERSIONS c) with Some v => bool_decide (is_Some (coreReleaseOf c v)) | None => true end.

Lemma manifest_fit : forallb (λ c, forallb (release_fit c) (en_releases (CORE_VERSIONS c)) && pin_listed c) CORE_COMPONENTS = true.
Proof. vm_compute. reflexivity. Qed.

Lemma all_components c : c ∈ CORE_COMPONENTS.
Proof. apply (bool_decide_unpack _). by destruct c. Qed.

Lemma release_is_fit c r : r ∈ en_releases (CORE_VERSIONS c) → release_fit c r = true.
Proof.
  intros Hr. pose proof manifest_fit as H. rewrite forallb_forall in H.
  specialize (H c (proj1 (list_elem_of_In _ _) (all_components c))). apply andb_true_iff in H as [H _].
  rewrite forallb_forall in H. by apply H, list_elem_of_In.
Qed.

Lemma pin_is_listed c v : en_pinned (CORE_VERSIONS c) = Some v → is_Some (coreReleaseOf c v).
Proof.
  intros Hv. pose proof manifest_fit as H. rewrite forallb_forall in H.
  specialize (H c (proj1 (list_elem_of_In _ _) (all_components c))). apply andb_true_iff in H as [_ H].
  unfold pin_listed in H. rewrite Hv in H. by apply bool_decide_eq_true in H.
Qed.

Lemma component_of_name c : component_of (component_name c) = Some c.
Proof. by destruct c. Qed.
Lemma component_of_Some key c : component_of key = Some c → key = component_name c.
Proof. unfold component_of. intros [_ H]%js_find_Some. by apply bool_decide_eq_true in H. Qed.
Lemma component_name_inj c c' : component_name c = component_name c' → c = c'.
Proof. intros H. apply (f_equal component_of) in H. rewrite !component_of_name in H. by injection H. Qed.

Lemma releaseOf_Some c version r : coreReleaseOf c version = Some r →
  r ∈ en_releases (CORE_VERSIONS c) ∧ normalizeCoreVersion (Some version) = Some (r_version r).
Proof. unfold coreReleaseOf. intros [Hr Hv]%js_find_Some. apply bool_decide_eq_true in Hv. done. Qed.

(** An installed release is what was wanted. *)
Lemma judge_release c r intent version : wanted intent c = Some version → coreReleaseOf c version = Some r →
  judgeCoreVersion c (Some (r_version r)) intent = VIntended (bool_decide (Some version = en_pinned (CORE_VERSIONS c))).
Proof.
  intros Hw [Hr Hn]%releaseOf_Some. pose proof (release_is_fit c r Hr) as Hfit. unfold release_fit in Hfit.
  rewrite !andb_true_iff, !bool_decide_eq_true in Hfit. destruct Hfit as (((((Hnorm & Hbad) & Hce) & _) & _) & _).
  unfold judgeCoreVersion. rewrite Hnorm, Hbad, Hce, Hw. rewrite bool_decide_true; [done|].
  destruct (normalize_same _ _ Hn) as [Heq _]. destruct versions_ordered as (_ & _ & _ & Hanti & _).
  by rewrite Hanti, Heq.
Qed.

(** ** What a node is told to install *)
Lemma bad_entry intent kv : checkCoreVersionIntent intent = [] → kv ∈ intent → check_entry kv = [].
Proof.
  intros H Hin. unfold checkCoreVersionIntent in H. induction intent as [|e intent IH]; [by apply not_elem_of_nil in Hin|].
  cbn in H. apply app_eq_nil in H as [H1 H2]. apply elem_of_cons in Hin as [->|Hin]; [done|by apply IH].
Qed.

Lemma wanted_listed intent c version : checkCoreVersionIntent intent = [] → wanted intent c = Some version →
  is_Some (coreReleaseOf c version).
Proof.
  intros Hi. unfold wanted, intent_of. destruct (jm_get (component_name c) intent) as [v|] eqn:E.
  - intros [= <-]. apply jm_get_Some_elem in E. apply (bad_entry _ _ Hi) in E. unfold check_entry in E. cbn [fst snd] in E.
    rewrite component_of_name in E. destruct (coreReleaseOf c v); [done|]. by destruct (en_releases _).
  - apply pin_is_listed.
Qed.

(** The releases handed out: one for each component something is wanted of. *)
Definition handed (intent : NodeCoreVersions) (cs : list CoreComponent) : list (CoreComponent * BootRelease) :=
  omap (λ c, r ← wanted intent c ≫= coreReleaseOf c; Some (c, boot_release r)) cs.

Lemma resolve_all_ok intent cs : checkCoreVersionIntent intent = [] → resolve_all intent cs = Ok (handed intent cs).
Proof.
  intros Hi. unfold handed. induction cs as [|c cs IH]; [done|]. cbn [resolve_all omap list_omap]. unfold resolve_step.
  destruct (wanted intent c) as [v|] eqn:Hw; cbn.
  - destruct (wanted_listed intent c v Hi Hw) as [r Hr]. rewrite Hr. cbn. rewrite IH. done.
  - rewrite IH. done.
Qed.

Lemma resolve_cores intent : resolveCoreVersions intent =
  match checkCoreVersionIntent intent with [] => Ok (handed intent CORE_COMPONENTS) | ps => Throw ps end.
Proof. unfold resolveCoreVersions. destruct (checkCoreVersionIntent intent) eqn:E; [by apply resolve_all_ok|done]. Qed.

Lemma handed_elem intent c b : (c, b) ∈ handed intent CORE_COMPONENTS ↔
  ∃ version r, wanted intent c = Some version ∧ coreReleaseOf c version = Some r ∧ b = boot_release r.
Proof.
  unfold handed. rewrite list_elem_of_omap. split.
  - intros (c' & _ & H). destruct (wanted intent c') as [v|] eqn:Hw; [|done]. cbn in H.
    destruct (coreReleaseOf c' v) as [r|] eqn:Hr; [|done]. cbn in H. injection H as -> <-. eauto.
  - intros (v & r & Hw & Hr & ->). exists c. split; [apply all_components|]. rewrite Hw. cbn. by rewrite Hr.
Qed.

Lemma handed_keys intent : (handed intent CORE_COMPONENTS).*1 `sublist_of` CORE_COMPONENTS.
Proof.
  unfold handed. generalize CORE_COMPONENTS. intros cs. induction cs as [|c cs IH]; [constructor|].
  cbn [omap list_omap]. destruct (_ ≫= (λ r, _)) as [[c' b]|] eqn:E; [|by apply sublist_cons].
  assert (c' = c) as -> by (destruct (wanted intent c ≫= coreReleaseOf c); [by injection E|done]).
  rewrite fmap_cons. by apply sublist_skip.
Qed.

(** What a node is told to install is what it is held to.  A choice of
    listed releases resolves, to one release for every component that has a
    choice or a pin and none for the rest; a node that installs those versions
    is judged to run what was intended in every component, never known-bad,
    above a ceiling or drifted; any other choice is refused with its problems. *)
Theorem installed_as_told intent :
  match resolveCoreVersions intent with
  | Ok out =>
      checkCoreVersionIntent intent = [] ∧ NoDup out.*1 ∧
      (∀ c, c ∈ out.*1 ↔ is_Some (wanted intent c)) ∧
      ∀ c b, (c, b) ∈ out → ∃ version, wanted intent c = Some version ∧
        compareCoreVersions version (bo_version b) = Some Eq ∧
        judgeCoreVersion c (Some (bo_version b)) intent = VIntended (bool_decide (Some version = en_pinned (CORE_VERSIONS c)))
  | Throw problems => problems = checkCoreVersionIntent intent ∧ problems ≠ []
  end.
Proof.
  rewrite resolve_cores. destruct (checkCoreVersionIntent intent) as [|p ps] eqn:E; [|done]. split; [done|]. split; [|split].
  - eapply sublist_NoDup; [|apply handed_keys]. apply (bool_decide_unpack _). by vm_compute.
  - intros c. rewrite list_elem_of_fmap. split.
    + intros ([c' b] & -> & (v & r & Hw & _)%handed_elem). by exists v.
    + intros [v Hw]. destruct (wanted_listed intent c v E Hw) as [r Hr]. exists (c, boot_release r). split; [done|].
      apply handed_elem. eauto.
  - intros c b (v & r & Hw & Hr & ->)%handed_elem. exists v. split; [done|]. split; [|by apply judge_release].
    apply releaseOf_Some in Hr as [_ Hn]. by apply normalize_same in Hn as [? _].
Qed.

(** ** A patch of the intent *)
Definition patched (v : option (option string)) (old : option string) : option string :=
  match v with Some (Some w) => Some w | Some None => None | None => old end.

Lemma patch_steps p stored k : NoDup p.*1 →
  jm_get k (foldl patch_step stored p) = patched (jm_get k p) (jm_get k stored).
Proof.
  revert stored. induction p as [|[k0 v] p IH]; intros stored Hnd; [done|].
  rewrite fmap_cons in Hnd. apply NoDup_cons in Hnd as [Hk Hnd]. cbn [foldl]. rewrite IH by done. clear IH.
  unfold patch_step. change (jm_get k ((k0, v) :: p)) with (if decide (k = k0) then Some v else jm_get k p). cbn [fst snd]. destruct (decide (k = k0)) as [->|Hne].
  - assert (jm_get k0 p = None) as -> by by apply jm_get_None.
    destruct v as [v|]; cbn; [by rewrite jm_get_set_eq|]. rewrite jm_get_delete. by rewrite decide_True.
  - f_equal. destruct v as [v|]; [by apply jm_get_set_ne|].
    rewrite jm_get_delete. by rewrite decide_False.
Qed.

(** The stored column, written and read back. *)
Definition intent_json (intent : NodeCoreVersions) : jvalue := JObj ((λ kv, (kv.1, JStr kv.2)) <$> intent).

Lemma read_written intent : checkCoreVersionIntent intent = [] → readCoreVersions (intent_json intent) = intent.
Proof.
  intros H. unfold readCoreVersions, intent_json.
  assert (∀ kv, kv ∈ intent → is_Some (component_of kv.1)) as Hall.
  { intros kv Hin. apply (bad_entry _ _ H) in Hin. unfold check_entry in Hin. destruct (component_of kv.1); [done|discriminate]. }
  clear H. induction intent as [|[k v] intent IH]; [done|]. rewrite fmap_cons, bind_cons.
  rewrite IH by (intros kv Hkv; apply Hall; by right). unfold read_entry at 1. cbn [fst snd].
  destruct (Hall (k, v)) as [c Hc]; [by left|]. cbn [fst] in Hc. by rewrite Hc.
Qed.

Lemma patch_steps_wf p stored : jm_wf stored → jm_wf (foldl patch_step stored p).
Proof.
  revert stored. induction p as [|[k v] p IH]; intros stored H; [done|]. cbn [foldl]. apply IH.
  unfold patch_step. destruct v; [by apply jm_wf_set|by apply jm_wf_delete].
Qed.

Lemma entry_listed kv : check_entry kv = [] ↔ ∃ c, kv.1 = component_name c ∧ is_Some (coreReleaseOf c kv.2).
Proof.
  unfold check_entry. destruct kv as [k v]. cbn [fst snd]. split.
  - destruct (component_of k) as [c|] eqn:Hc; [|done]. intros H. exists c. apply component_of_Some in Hc. split; [done|].
    destruct (coreReleaseOf c v); [done|]. by destruct (en_releases _).
  - intros (c & -> & [r Hr]). by rewrite component_of_name, Hr.
Qed.

Lemma intent_listed intent : checkCoreVersionIntent intent = [] ↔ ∀ kv, kv ∈ intent → check_entry kv = [].
Proof.
  split; [intros H kv; by apply bad_entry|]. intros H. unfold checkCoreVersionIntent.
  induction intent as [|e intent IH]; [done|]. rewrite bind_cons, H by left. apply IH. intros kv Hkv. apply H. by right.
Qed.

(** A patch sets what it names, puts back on the pin what it nulls and keeps
    the rest, in whatever order it comes; the result is stored exactly when all
    of it is listed releases of components, and what is stored reads back as
    itself and resolves. *)
Theorem patch_exact stored patch : jm_wf stored → NoDup patch.*1 →
  let next := foldl patch_step stored patch in
  (∀ k, jm_get k next = patched (jm_get k patch) (jm_get k stored)) ∧
  match applyCoreVersionsPatch stored (Some patch) with
  | Ok stored' => stored' = next ∧ readCoreVersions (intent_json next) = next ∧ (∃ out, resolveCoreVersions next = Ok out) ∧
      ∀ k v, jm_get k next = Some v → ∃ c, k = component_name c ∧ is_Some (coreReleaseOf c v)
  | Throw problems => problems ≠ [] ∧
      ∃ k v, jm_get k next = Some v ∧ ∀ c, k = component_name c → coreReleaseOf c v = None
  end.
Proof.
  intros Hwf Hnd next. split; [intros k; by apply patch_steps|]. unfold applyCoreVersionsPatch. fold next.
  destruct (checkCoreVersionIntent next) as [|p ps] eqn:E.
  - split; [done|]. split; [by apply read_written|]. split; [rewrite resolve_cores, E; by eexists|].
    intros k v Hk%jm_get_Some_elem. apply (bad_entry _ _ E), entry_listed in Hk. done.
  - split; [done|]. destruct (list_find (λ kv, check_entry kv ≠ []) next) as [[i [k v]]|] eqn:Ef.
    + apply list_find_Some in Ef as (Hi & Hbad & _). exists k, v. split.
      * apply jm_elem_get; [by apply patch_steps_wf|by eapply list_elem_of_lookup_2].
      * intros c ->. destruct (coreReleaseOf c v) eqn:Hr; [|done]. destruct Hbad. apply entry_listed. exists c. cbn. by rewrite Hr.
    + apply list_find_None in Ef. exfalso. assert (checkCoreVersionIntent next = []) as Hn; [|congruence].
      apply intent_listed. intros kv Hkv. rewrite Forall_forall in Ef. specialize (Ef kv Hkv).
      destruct (check_entry kv); [done|]. by destruct Ef.
Qed.

(** ** The command that installs an engine *)
Lemma install_fold intent arch cs vars why :
  (foldl (install_step intent arch) (vars, why) cs).1 =
    vars ++ (cs ≫= λ c, match install_vars intent arch c with inl vs => vs | inr _ => [] end) ∧
  ((foldl (install_step intent arch) (vars, why) cs).2 = None ↔
    why = None ∧ ∀ c, c ∈ cs → ∃ vs, install_vars intent arch c = inl vs).
Proof.
  revert vars why. induction cs as [|c cs IH]; intros vars why.
  - cbn. rewrite app_nil_r. split; [done|]. split; [|tauto]. intros ->. split; [done|]. by intros c ?%not_elem_of_nil.
  - cbn [foldl]. unfold install_step at 2 4. rewrite bind_cons. cbn [fst snd].
    destruct (install_vars intent arch c) as [vs|w] eqn:E.
    + destruct (IH (vars ++ vs) why) as [-> ->]. rewrite <-(assoc_L (++)). split; [done|]. apply and_iff_compat_l. split.
      * intros H c' [->|Hc]%elem_of_cons; [by eexists|by apply H].
      * intros H c' Hc. apply H. by right.
    + destruct (IH vars (Some (default w why))) as [-> ->]. split; [done|]. split; [by intros []|].
      intros [_ H]. destruct (H c) as [vs Hvs]; [by left|]. congruence.
Qed.

(** The pair of variables of a release for an architecture. *)
Definition pair_of (c : CoreComponent) (r : CoreRelease) (arch : string) : option (list string) :=
  let p := CORE_ENV_PREFIX c in
  match r_commit r, r_assets r ≫= jm_get arch with
  | Some commit, _ => Some [p +:+ "_TAG=" +:+ r_tag r; p +:+ "_SHA=" +:+ commit]
  | None, Some asset => Some [p +:+ "_VERSION=" +:+ r_version r; p +:+ "_SHA256=" +:+ a_sha256 asset]
  | None, None => None
  end.

(** Every release of a component is of one kind, the kind its variables are
    named for. *)
Lemma kinds_agree : forallb (λ c, forallb (λ r, bool_decide (truthy (r_commit r) =
  match en_releases (CORE_VERSIONS c) with r0 :: _ => truthy (r_commit r0) | [] => false end)) (en_releases (CORE_VERSIONS c)))
  CORE_COMPONENTS = true.
Proof. vm_compute. reflexivity. Qed.

Lemma env_pair_of c r : r ∈ en_releases (CORE_VERSIONS c) →
  coreEnvPair c = let p := CORE_ENV_PREFIX c in
    Some (if bool_decide (is_Some (r_commit r)) then (p +:+ "_TAG", p +:+ "_SHA") else (p +:+ "_VERSION", p +:+ "_SHA256")).
Proof.
  intros Hr. pose proof kinds_agree as H. rewrite forallb_forall in H.
  specialize (H c (proj1 (list_elem_of_In _ _) (all_components c))). rewrite forallb_forall in H.
  specialize (H r (proj1 (list_elem_of_In _ _) Hr)). apply bool_decide_eq_true in H.
  pose proof (release_is_fit c r Hr) as Hfit. unfold release_fit in Hfit. rewrite !andb_true_iff in Hfit.
  destruct Hfit as [_ Hk]. apply bool_decide_eq_true in Hk. rewrite <-Hk, H. unfold coreEnvPair.
  destruct (en_releases (CORE_VERSIONS c)); [by apply not_elem_of_nil in Hr|done].
Qed.

Lemma install_vars_of intent arch c r : wanted intent c ≫= coreReleaseOf c = Some r →
  install_vars intent (Some arch) c = match pair_of c r arch with Some vs => inl vs | None => inr NoAsset end.
Proof.
  intros Hr. assert (r ∈ en_releases (CORE_VERSIONS c)) as Hin.
  { destruct (wanted intent c); [|done]. by apply releaseOf_Some in Hr as [? _]. }
  unfold install_vars. rewrite Hr, (env_pair_of c r Hin). unfold pair_of.
  assert (∀ p k v : string, (p +:+ k) +:+ "=" +:+ v = p +:+ k +:+ "=" +:+ v) as Hv by (intros; by rewrite str_app_assoc).
  destruct (r_commit r) as [commit|]; cbv beta iota zeta.
  - rewrite bool_decide_true by done. by rewrite !Hv.
  - rewrite bool_decide_false by (by intros []). destruct (r_assets r ≫= jm_get arch); [|done]. by rewrite !Hv.
Qed.

Lemma install_vars_pair intent arch c vs : install_vars intent (Some arch) c = inl vs ↔
  ∃ r, wanted intent c ≫= coreReleaseOf c = Some r ∧ pair_of c r arch = Some vs.
Proof.
  destruct (wanted intent c ≫= coreReleaseOf c) as [r|] eqn:Hr.
  - rewrite (install_vars_of _ _ _ _ Hr). split.
    + destruct (pair_of c r arch) as [vs'|] eqn:E; [|done]. intros H. exists r. split; [done|]. congruence.
    + intros (r' & E & H). assert (r' = r) as -> by congruence. by rewrite H.
  - unfold install_vars. rewrite Hr. naive_solver.
Qed.

(** The install command says it is pinned exactly when every component of
    the engine has a release wanted of it that exists for the machine, and it
    then carries, for each of them in turn, the two variables of that release:
    tag and commit of one built from source, version and checksum of a binary. *)
Theorem install_command engine intent arch :
  let cmd := coreInstallCommand engine intent (Some arch) in
  let pairs c := default [] ((wanted intent c ≫= coreReleaseOf c) ≫= λ r, pair_of c r arch) in
  (ic_pinned cmd = true ↔
    ∀ c, c ∈ componentsOfEngine engine → ∃ r, wanted intent c ≫= coreReleaseOf c = Some r ∧ is_Some (pair_of c r arch)) ∧
  (ic_pinned cmd = bool_decide (ic_why cmd = None)) ∧
  let vars := componentsOfEngine engine ≫= pairs in
  ic_command cmd = (if bool_decide (vars = []) then "sudo " else "sudo env " +:+ js_join " " vars +:+ " ") +:+
                   bootstrap_script engine +:+ " --restart-agent".
Proof.
  cbv zeta. unfold coreInstallCommand.
  destruct (install_fold intent (Some arch) (componentsOfEngine engine) [] None) as [Hvars Hwhy].
  destruct (foldl _ _ _) as [vars why]. cbn [fst snd] in Hvars, Hwhy. cbn [ic_pinned ic_why ic_command]. split; [|split; [done|]].
  - rewrite bool_decide_eq_true, Hwhy. split.
    + intros [_ H] c [vs Hvs]%H. apply install_vars_pair in Hvs as (r & ? & ?). eauto.
    + intros H. split; [done|]. intros c (r & Hr & [vs Hvs])%H. exists vs. apply install_vars_pair. eauto.
  - assert (vars = componentsOfEngine engine ≫= λ c, default [] ((wanted intent c ≫= coreReleaseOf c) ≫= λ r, pair_of c r arch)) as <-; [|done].
    rewrite Hvars. rewrite app_nil_l. apply list_bind_ext; [|done]. intros c.
    destruct (install_vars intent (Some arch) c) as [vs|w] eqn:E.
    + apply install_vars_pair in E as (r & -> & Hp). cbn. by rewrite Hp.
    + destruct (wanted intent c ≫= coreReleaseOf c) as [r|] eqn:Hr; [|done]. cbn.
      destruct (pair_of c r arch) as [vs|] eqn:Hp; [|done]. 
      assert (install_vars intent (Some arch) c = inl vs) by (apply install_vars_pair; eauto). congruence.
Qed.

(** ** A node moved back to the older AmneziaWG module *)
Definition ex_stored : NodeCoreVersions := [("xray", "26.3.27"); ("singbox", "1.13.14")].
Definition ex_patch : list (string * option string) := [("xray", None); ("amneziawg-module", Some "v1.0.20260611")].

Example ex_applied : applyCoreVersionsPatch ex_stored (Some ex_patch)
  = Ok [("singbox", "1.13.14"); ("amneziawg-module", "v1.0.20260611")].
Proof. vm_compute. reflexivity. Qed.

Example ex_judged : judgeCoreVersion c_amneziawg_module (Some "1.0.20260611 ") (foldl patch_step ex_stored ex_patch) = VIntended false
  ∧ judgeCoreVersion c_xray (Some "v26.8.1") [] = VAboveCeiling "26.7.28" XRAY_MLKEM
  ∧ judgeCoreVersion c_xray (Some "26.10") [] = VKnownBad XRAY_MLKEM
  ∧ judgeCoreVersion c_xray (Some "26.9.8-rc1") [] = VAboveCeiling "26.7.28" XRAY_MLKEM.
Proof. vm_compute. done. Qed.

Theorem patch_exact_witness :
  jm_get "amneziawg-module" (foldl patch_step ex_stored ex_patch) = Some "v1.0.20260611" ∧
  jm_get "xray" (foldl patch_step ex_stored ex_patch) = None.
Proof.
  destruct (patch_exact ex_stored ex_patch) as [H _].
  - apply (bool_decide_unpack _). vm_compute. exact I.
  - apply (bool_decide_unpack _). vm_compute. exact I.
  - split; rewrite H; vm_compute; reflexivity.
Defined.
