(* ===== verification/NodeEngines.v ===== *)
(** Which engines a node runs, and what is refused because of them
    (apps/panel-backend/src/modules/nodes: node-engines.ts,
    node-intended-engines.ts, node-cascade-needs.ts, node-core-gate.ts;
    modules/cascades/cell-carriage.ts and the two gates of cascade.service.ts
    that ask it; packages/shared/src/adapters.ts).

    An engine is its name: what a node reports may be any.  [undefined] and
    [null] of an optional field of a report are [None].  Errors are
    constructors with the fields their messages are built from. *)

From S2P Require Import Prelude Js Json Directions CascadeValidation TopologyLinks CoreVersions.

Local Open Scope string_scope.
Local Open Scope list_scope.
Local Open Scope Z_scope.

(** ** The report *)
Record ReservedPort := mkReserved { rp_owner : string; rp_port : Z; rp_transport : Transport }.

Record NodeCoreInfo := mkCore {
  ci_name : string;
  ci_engine : option string;
  ci_version : option string;
  ci_toolsVersion : option string;
  ci_awgProtocol : option Z;
  ci_awgGenerations : option (list Z);
  ci_installed : option bool;
  ci_reservedPorts : option (list ReservedPort);
  ci_neededBy : option Z
}.

Record NodeCores := mkCores {
  nc_arch : option string;
  nc_chainEngine : option string;
  nc_cores : list NodeCoreInfo
}.

Record ChainStatus := mkChain { ch_running : bool; ch_reservedPorts : list ReservedPort }.

(** The columns of a node the gates select. *)
Record NodeFacts := mkNode {
  nd_id : string;
  nd_name : string;
  nd_cores : option NodeCores;
  nd_chainStatus : option ChainStatus;
  nd_coreVersions : jvalue
}.

(** ** Engines *)
Definition ENGINE_NAMES : list string := ["xray"; "hysteria"; "singbox"; "amneziawg"; "naive"; "mieru"; "mtproto"].

Definition PROTOCOL_NAMES : list string :=
  ["hysteria"; "xray"; "amneziawg"; "naive"; "shadowsocks"; "mtproto"; "mieru"; "tuic"; "anytls"; "shadowtls"].

Definition nativeEngineFor (protocol : string) : string :=
  if decide (protocol = "shadowsocks") then "xray"
  else if decide (protocol ∈ ["tuic"; "anytls"; "shadowtls"]) then "singbox"
  else protocol.

Record ProfileKind := mkKind { k_protocol : string; k_engine : option string; k_awgProtocol : option Z }.

Definition effectiveEngineOf (profile : ProfileKind) : string :=
  default (nativeEngineFor (k_protocol profile)) (k_engine profile).

Definition counts (c : NodeCoreInfo) : bool := negb (bool_decide (ci_installed c = Some false)).

Definition reportedEngines (cores : option NodeCores) : option (list string) :=
  match cores with
  | None => None
  | Some cores =>
      if existsb (λ c, bool_decide (ci_engine c = None)) (nc_cores cores) then None
      else Some (js_uniq (omap ci_engine (filter (λ c, counts c = true) (nc_cores cores))))
  end.

(** The three columns that say what a node is set up to carry. *)
Record EnginesRow := mkEngines { e_intended : option (list string); e_protocol : string; e_singbox : bool }.

Definition engineSet (engines : list string) : list string := filter (.∈ engines) ENGINE_NAMES.

Definition NO_CORE_LABEL : string := "none".

Definition intendedEngines (node : EnginesRow) : list string :=
  match e_intended node with
  | Some (e :: es) => engineSet (e :: es)
  | _ =>
      if decide (e_protocol node = "none") then if e_singbox node then ["singbox"] else []
      else engineSet (nativeEngineFor (e_protocol node) :: if e_singbox node then ["singbox"] else [])
  end.

Definition nodeRendersProfile (cores : option NodeCores) (profile : ProfileKind) : option bool :=
  (λ engines, bool_decide (effectiveEngineOf profile ∈ engines)) <$> reportedEngines cores.

Record Renderable := mkRenderable { rn_ok : bool; rn_engines : list string; rn_wanted : string; rn_justEnabled : bool }.

Definition renderableAtSave (cores : option NodeCores) (row : EnginesRow) (profile : ProfileKind) : Renderable :=
  let wanted := effectiveEngineOf profile in
  match reportedEngines cores with
  | None => mkRenderable true [] wanted false
  | Some engines =>
      let has := bool_decide (wanted ∈ engines) in
      mkRenderable has engines wanted (negb has && bool_decide (wanted ∈ intendedEngines row))
  end.

Definition nodeProtocolOf (engines : list string) : string := default NO_CORE_LABEL (head (engineSet engines)).

Definition readIntendedEngines (node : EnginesRow) : list string := intendedEngines node.

Definition stored_engines (engines : list string) : EnginesRow :=
  mkEngines (Some engines) (nodeProtocolOf engines) (bool_decide ("singbox" ∈ engines)).

Definition intendedFromReport (stored : EnginesRow) (declared : option (list string)) : option EnginesRow :=
  match declared with
  | None => None
  | Some declared =>
      let next := engineSet declared in
      if bool_decide (next = readIntendedEngines stored) then None else Some (stored_engines next)
  end.

Record NodeEnginesInput := mkInput {
  in_intended : option (list string); in_protocol : option string; in_singbox : option bool }.

(** [singboxEngine] contradicts the set. *)
Inductive engines_error := INVALID_ENGINES (singbox : bool) (engines : list string).

Definition resolveNodeEngines (input : NodeEnginesInput) (stored : option EnginesRow) : result engines_error EnginesRow :=
  engines ←
    match in_intended input with
    | Some intended =>
        let engines := engineSet intended in
        match in_singbox input with
        | Some s => if bool_decide (s = bool_decide ("singbox" ∈ engines)) then Ok engines
                    else Throw (INVALID_ENGINES s engines)
        | None => Ok engines
        end
    | None =>
        let engines := match stored with
                       | Some row => readIntendedEngines row
                       | None => [nativeEngineFor (default "xray" (in_protocol input))]
                       end in
        Ok (match in_singbox input with
            | Some true => engineSet (engines ++ ["singbox"])
            | Some false => filter (λ e, e ≠ "singbox") engines
            | None => engines
            end)
    end;
  Ok (stored_engines engines).

(** ** Who can end a leg *)
Inductive CarriageBasis := by_chain | by_engines | by_unknown.
Record CellCarriage := mkCarriage { ca_ok : bool; ca_by : CarriageBasis; ca_engines : list string }.

Definition judge (node : NodeFacts) (enough : list string → bool) (chainOnly : bool) : CellCarriage :=
  match nd_chainStatus node with
  | Some (mkChain true _) => mkCarriage true by_chain []
  | block =>
      if bool_decide (is_Some block) && negb chainOnly then mkCarriage true by_unknown [] else
      match reportedEngines (nd_cores node) with
      | None => mkCarriage true by_unknown []
      | Some engines => mkCarriage (enough engines) by_engines engines
      end
  end.

Definition chainEngineOf (node : NodeFacts) : option string := nd_cores node ≫= nc_chainEngine.

(** The engines that may end a leg of this cell on this node. *)
Definition carriers (node : NodeFacts) (cell : string) : list string :=
  if truthy (chainEngineOf node) then [default "" (chainEngineOf node)] else LINK_CELL_ENGINES cell.

Definition carriesCellAtSave (node : NodeFacts) (cell : string) : CellCarriage :=
  judge node (λ engines, existsb (λ e, bool_decide (e ∈ carriers node cell)) engines)
    (bool_decide (is_Some (chainEngineOf node))).

Definition canRunChainAtSave (node : NodeFacts) : CellCarriage :=
  judge node (λ engines, bool_decide ("singbox" ∈ engines)) (bool_decide (is_Some (chainEngineOf node))).

(** ** The gates of a cascade save *)
Record CellConflict := mkConflict { cc_node : string; cc_cell : string; cc_engines : list string; cc_chain : option string }.
Inductive carriage_error :=
  | CELL_NOT_CARRIED (conflicts : list CellConflict)
  | ENTRY_CANNOT_CHAIN (conflicts : list (string * list string)) (protocol : string).

(** [prisma.node.findMany({ where: { id: { in: ids } } })] of the rows there are. *)
Definition nodes_in (ids : list string) (rows : list NodeFacts) : list NodeFacts := filter (λ n, nd_id n ∈ ids) rows.

Definition node_by (id : string) (rows : list NodeFacts) : option NodeFacts := js_find (λ n, bool_decide (nd_id n = id)) rows.

(** One receiving side: what it adds, with the nodes named so far. *)
Definition cell_step (rows : list NodeFacts) (st : list CellConflict * list string) (w : string * string)
    : list CellConflict * list string :=
  match node_by w.1 rows with
  | None => st
  | Some node =>
      let carriage := carriesCellAtSave node w.2 in
      if ca_ok carriage then st else
      let chainEngine := chainEngineOf node in
      if truthy chainEngine && bool_decide (nd_id node ∈ st.2) then st else
      (st.1 ++ [mkConflict (nd_name node) w.2 (ca_engines carriage) (if truthy chainEngine then chainEngine else None)],
       set_add (nd_id node) st.2)
  end.

(** One node of the cascade. *)
Definition chain_step (rows : list NodeFacts) (st : list CellConflict * list string) (id : string)
    : list CellConflict * list string :=
  match node_by id rows with
  | None => st
  | Some node =>
      if bool_decide (id ∈ st.2) then st else
      let chainEngine := chainEngineOf node in
      if negb (truthy chainEngine) then st else
      let verdict := canRunChainAtSave node in
      if ca_ok verdict then st else
      (st.1 ++ [mkConflict (nd_name node) "any" (ca_engines verdict) chainEngine], set_add id st.2)
  end.

Definition every_node (positions : list CascadePositionInput) (directions : list ResolvedDirection) : list string :=
  js_uniq ((positions ≫= p_nodeIds) ++ (directions ≫= rd_nodeIds)).

Definition assertNodesCarryCells (table : list NodeFacts) (positions : option (list CascadePositionInput))
    (directions : option (list ResolvedDirection)) : result carriage_error unit :=
  match positions, directions with
  | Some positions, Some directions =>
      let wanted := topologyReceivingCells positions directions in
      if bool_decide (wanted = []) then Ok tt else
      let everyNode := every_node positions directions in
      let rows := nodes_in (js_uniq (wanted.*1 ++ everyNode)) table in
      let conflicts := (foldl (chain_step rows) (foldl (cell_step rows) ([], []) wanted) everyNode).1 in
      throw_if (negb (bool_decide (conflicts = []))) (CELL_NOT_CARRIED conflicts)
  | _, _ => Ok tt
  end.

Definition assertEntryCanChain (table : list NodeFacts) (positions : option (list CascadePositionInput))
    : result carriage_error unit :=
  match positions ≫= js_find (λ p, p_position p =? 0) with
  | None => Ok tt
  | Some entry =>
      if negb (entryReachesCascadeOnlyThroughChain (p_entryProtocol entry)) || bool_decide (p_nodeIds entry = []) then Ok tt else
      let conflicts := (λ n, (nd_name n, ca_engines (canRunChainAtSave n))) <$>
                       filter (λ n, ca_ok (canRunChainAtSave n) = false) (nodes_in (p_nodeIds entry) table) in
      throw_if (negb (bool_decide (conflicts = []))) (ENTRY_CANNOT_CHAIN conflicts (default "" (p_entryProtocol entry)))
  end.

(** ** What cascades ask of a node *)
Record NeedCascade := mkNeed {
  nc_id : string; nc_name : string; nc_enabled : bool;
  nc_hops : list string;
  nc_positions : list (Z * option string * list string);   (* position, entryProtocol, nodes *)
  nc_directions : list (list string);
  nc_tunnels : list (string * string)
}.
Record NeedRef := mkRef { nr_id : string; nr_name : string; nr_enabled : bool }.

Definition ref_of (c : NeedCascade) : NeedRef := mkRef (nc_id c) (nc_name c) (nc_enabled c).

Abbreviation NeedAcc := (list (string * list (string * list (string * NeedRef)))).

Definition need (wanted : list string) (c : NeedCascade) (acc : NeedAcc) (ne : string * string) : NeedAcc :=
  if bool_decide (ne.1 ∈ wanted) then
    let engines := default [] (jm_get ne.1 acc) in
    let refs := default [] (jm_get ne.2 engines) in
    jm_set ne.1 (jm_set ne.2 (jm_set (nc_id c) (ref_of c) refs) engines) acc
  else acc.

Definition is_v4 (c : NeedCascade) : bool := negb (bool_decide (nc_positions c = [])) || negb (bool_decide (nc_directions c = [])).

(** The pairs (node, engine) one cascade calls [need] with, in order. *)
Definition position_needs (p : Z * option string * list string) : list (string * string) :=
  p.2 ≫= λ n, (n, "singbox") :: (if p.1.1 =? 0 then [(n, nativeEngineFor (default "xray" p.1.2))] else []).

Definition cascade_needs (c : NeedCascade) : list (string * string) :=
  (if is_v4 c then (nc_positions c ≫= position_needs) ++ (mjoin (nc_directions c) ≫= λ n, [(n, "singbox")])
   else (λ n, (n, "xray")) <$> nc_hops c) ++
  (nc_tunnels c ≫= λ t, [(t.1, "amneziawg"); (t.2, "amneziawg")]).

(** The cascades of the query: those that touch one of the nodes. *)
Definition touches (nodeIds : list string) (c : NeedCascade) : bool :=
  existsb (λ n, bool_decide (n ∈ nodeIds))
    (nc_hops c ++ (nc_positions c ≫= snd) ++ mjoin (nc_directions c) ++ (nc_tunnels c ≫= λ t, [t.1; t.2])).

Section Needs.
Context (localeCompare : string → string → bool).

(** One node's needs, in the order of [ENGINE_NAMES]. *)
Definition needs_out (engines : list (string * list (string * NeedRef))) : list (string * list NeedRef) :=
  (λ e, (e, sort_by (λ a b, localeCompare (nr_name a) (nr_name b)) (default [] (jm_get e engines)).*2)) <$>
  filter (.∈ jm_keys engines) ENGINE_NAMES.

Definition cascadeNeedsByNode (table : list NeedCascade) (nodeIds : list string) : list (string * list (string * list NeedRef)) :=
  if bool_decide (nodeIds = []) then [] else
  let cascades := filter (λ c, touches nodeIds c = true) table in
  let acc := foldl (λ acc c, foldl (need nodeIds c) acc (cascade_needs c)) [] cascades in
  (λ kv, (kv.1, needs_out kv.2)) <$> acc.
End Needs.

(** ** The core gate *)
Inductive BadVerdict := known_bad | above_the_ceiling.
Inductive gate_error :=
  | CORE_NOT_ON_NODE (node engine : string) (how : InstallCommand)
  | CORE_VERSION_REFUSED (node engine : string) (c : CoreComponent) (version : string) (verdict : BadVerdict) (reason : string)
  | AWG_PROTOCOL_MISMATCH (node : string)
  | AWG_AGENT_TOO_OLD (node : string) (neverReported : bool)
  | AWG_SUBNET_OVERLAP (node subnet other otherSubnet : string).

Definition AWG_PROTOCOLS : list Z := [1; 3].

Definition awg_row (c : NodeCoreInfo) : bool :=
  bool_decide (ci_name c = "amneziawg") && bool_decide (ci_engine c ∈ [None; Some "amneziawg"]).

Definition agentCarriesAwg3 (cores : option NodeCores) : bool :=
  match cores ≫= λ cs, js_find awg_row (nc_cores cs) with
  | Some row => match ci_awgGenerations row with Some gs => bool_decide (3 ∈ gs) | None => false end
  | None => false
  end.

Definition reportedAwgProtocol (cores : option NodeCores) : option Z :=
  match cores ≫= λ cs, js_find (λ c, awg_row c && counts c) (nc_cores cs) with
  | Some row => match ci_awgProtocol row with Some g => if bool_decide (g ∈ AWG_PROTOCOLS) then Some g else None | None => None end
  | None => None
  end.

Definition profileAwgProtocol (profile : ProfileKind) : option Z :=
  if bool_decide (k_protocol profile = "amneziawg") then Some (if bool_decide (k_awgProtocol profile = Some 3) then 3 else 1) else None.

Definition assertAwgProtocolOnNode (node : NodeFacts) (profile : ProfileKind) : result gate_error unit :=
  if negb (bool_decide (profileAwgProtocol profile = Some 3)) then Ok tt else
  _ ← throw_if (bool_decide (reportedAwgProtocol (nd_cores node) = Some 1)) (AWG_PROTOCOL_MISMATCH (nd_name node));
  throw_if (negb (agentCarriesAwg3 (nd_cores node)))
    (AWG_AGENT_TOO_OLD (nd_name node) (bool_decide (nd_cores node = None))).

Definition core_field (f : VersionField) (c : NodeCoreInfo) : option string :=
  match f with version_field => ci_version c | toolsVersion_field => ci_toolsVersion c end.

(** The version some present row reports for a component. *)
Definition reported_version (present : list NodeCoreInfo) (c : CoreComponent) : option string :=
  js_find (λ v, negb (bool_decide (js_trim v = ""))) (omap (core_field (en_field (CORE_VERSIONS c))) present).

Definition check_component (node : string) (engine : string) (present : list NodeCoreInfo) (intent : list (string * string))
    (c : CoreComponent) : result gate_error unit :=
  match reported_version present c with
  | None => Ok tt
  | Some reported =>
      match judgeCoreVersion c (Some reported) intent with
      | VKnownBad reason => Throw (CORE_VERSION_REFUSED node engine c (js_trim reported) known_bad reason)
      | VAboveCeiling _ reason => Throw (CORE_VERSION_REFUSED node engine c (js_trim reported) above_the_ceiling reason)
      | _ => Ok tt
      end
  end.

Definition engine_rows (node : NodeFacts) (engine : string) : list NodeCoreInfo :=
  match nd_cores node with
  | Some cores => filter (λ c, ci_engine c = Some engine) (nc_cores cores)
  | None => []
  end.

Definition assertCoreOnNode (node : NodeFacts) (profile : ProfileKind) : result gate_error unit :=
  let engine := effectiveEngineOf profile in
  let rows := engine_rows node engine in
  if bool_decide (rows = []) then assertAwgProtocolOnNode node profile else
  let present := filter (λ c, counts c = true) rows in
  let intent := readCoreVersions (nd_coreVersions node) in
  _ ← throw_if (bool_decide (present = []))
        (CORE_NOT_ON_NODE (nd_name node) engine (coreInstallCommand engine intent (nd_cores node ≫= nc_arch)));
  _ ← for_each (check_component (nd_name node) engine present intent) (componentsOfEngine engine);
  assertAwgProtocolOnNode node profile.

(** ** How many hosts need a core *)
Definition coreRowKey (protocol engine : string) : string := protocol +:+ "|" +:+ engine.

(** A host of the query: enabled, of an enabled binding, with the binding's node and profile. *)
Record HostNeed := mkHostNeed { hn_enabled : bool; hn_bindingEnabled : bool; hn_node : string; hn_profile : ProfileKind }.

Definition count_host (out : list (string * list (string * Z))) (h : HostNeed) : list (string * list (string * Z)) :=
  let key := coreRowKey (k_protocol (hn_profile h)) (effectiveEngineOf (hn_profile h)) in
  let perNode := default [] (jm_get (hn_node h) out) in
  jm_set (hn_node h) (jm_set key (default 0 (jm_get key perNode) + 1) perNode) out.

Definition hostsByEngine (table : list HostNeed) (nodeIds : list string) : list (string * list (string * Z)) :=
  if bool_decide (nodeIds = []) then [] else
  foldl count_host [] (filter (λ h, hn_enabled h = true ∧ hn_bindingEnabled h = true ∧ hn_node h ∈ nodeIds) table).

Definition set_neededBy (n : Z) (c : NodeCoreInfo) : NodeCoreInfo :=
  mkCore (ci_name c) (ci_engine c) (ci_version c) (ci_toolsVersion c) (ci_awgProtocol c) (ci_awgGenerations c)
    (ci_installed c) (ci_reservedPorts c) (Some n).

Definition withNeededBy (cores : option NodeCores) (counts : option (list (string * Z))) : option NodeCores :=
  (λ cs, mkCores (nc_arch cs) (nc_chainEngine cs)
    ((λ c, match ci_engine c with
           | None => c
           | Some e => set_neededBy (default 0 (counts ≫= jm_get (coreRowKey (ci_name c) e))) c
           end) <$> nc_cores cs)) <$> cores.

(** ** The set of engines *)
Lemma elem_of_engineSet e l : e ∈ engineSet l ↔ e ∈ ENGINE_NAMES ∧ e ∈ l.
Proof. unfold engineSet. rewrite list_elem_of_filter. tauto. Qed.

Lemma engineSet_ext l l' : (∀ e, e ∈ ENGINE_NAMES → e ∈ l ↔ e ∈ l') → engineSet l = engineSet l'.
Proof. intros H. by apply filter_same_in. Qed.

Lemma engineSet_idem l : engineSet (engineSet l) = engineSet l.
Proof. apply engineSet_ext. intros e He. rewrite elem_of_engineSet. tauto. Qed.

Lemma engineSet_filter (P : string → Prop) `{∀ e, Decision (P e)} l :
  engineSet l = l → engineSet (filter P l) = filter P l.
Proof.
  intros Hl. rewrite <-Hl at 2. unfold engineSet at 2. rewrite list_filter_filter. apply filter_same_in.
  intros e He. rewrite list_elem_of_filter. tauto.
Qed.

Lemma engineSet_single e : e ∈ ENGINE_NAMES → engineSet [e] = [e].
Proof.
  intros He. repeat (apply elem_of_cons in He as [->|He]; [reflexivity|]). by apply not_elem_of_nil in He.
Qed.

(** Every protocol an installer can be asked for has its engine. *)
Lemma native_known p : p ∈ PROTOCOL_NAMES → nativeEngineFor p ∈ ENGINE_NAMES.
Proof.
  intros Hp. apply (bool_decide_unpack _).
  repeat (apply elem_of_cons in Hp as [->|Hp]; [vm_compute; exact I|]). by apply not_elem_of_nil in Hp.
Qed.

Lemma intended_canonical row : engineSet (readIntendedEngines row) = readIntendedEngines row.
Proof.
  unfold readIntendedEngines, intendedEngines. destruct (e_intended row) as [[|e es]|]; [| apply engineSet_idem|].
  all: case_decide; [by destruct (e_singbox row)|apply engineSet_idem].
Qed.

(** What is written is what is read. *)
Lemma stored_reads l : engineSet l = l → readIntendedEngines (stored_engines l) = l.
Proof.
  intros Hl. destruct l as [|e l]; [reflexivity|]. exact Hl.
Qed.

(** What a row that was written says: the set in its order, and the two columns
    kept in step with it. *)
Definition in_step (row : EnginesRow) : Prop :=
  ∃ l, engineSet l = l ∧ row = stored_engines l.

Lemma in_step_reads row : in_step row →
  e_intended row = Some (readIntendedEngines row) ∧
  e_protocol row = default NO_CORE_LABEL (head (readIntendedEngines row)) ∧
  (e_singbox row = true ↔ "singbox" ∈ readIntendedEngines row).
Proof.
  intros (l & Hl & ->). rewrite stored_reads by done. split; [done|]. split.
  - cbn. unfold nodeProtocolOf. by rewrite Hl.
  - apply bool_decide_eq_true.
Qed.

Definition after_report (stored : EnginesRow) (declared : list string) : EnginesRow :=
  default stored (intendedFromReport stored (Some declared)).

(** The stored engines follow the report and settle at once: after a report
    the node reads as declared, another report of the same set (in any order,
    with repeats or engines the panel does not know) writes nothing, what was
    written is in step, and an agent that says nothing changes nothing. *)
Theorem intent_follows_report stored declared :
  let next := after_report stored declared in
  readIntendedEngines next = engineSet declared ∧
  (∀ again, (∀ e, e ∈ ENGINE_NAMES → e ∈ again ↔ e ∈ declared) → intendedFromReport next (Some again) = None) ∧
  (in_step stored ∨ next ≠ stored → in_step next) ∧
  intendedFromReport stored None = None.
Proof.
  assert (readIntendedEngines (after_report stored declared) = engineSet declared) as Hread.
  { unfold after_report, intendedFromReport. case_bool_decide as Hd; cbn [default from_option id]; [done|].
    apply stored_reads, engineSet_idem. }
  cbv zeta. split; [done|]. split; [|split; [|done]].
  - intros again Hag. unfold intendedFromReport. rewrite bool_decide_true; [done|].
    rewrite Hread. by apply engineSet_ext.
  - unfold after_report, intendedFromReport. case_bool_decide as Hd; cbn [default from_option id].
    + by intros [?|[]].
    + intros _. eexists. split; [apply engineSet_idem|done].
Qed.

(** A create or an old update is refused only where it contradicts itself;
    otherwise the three columns are in step, the set is the one asked for, and
    saving again with nothing said changes nothing. *)
Theorem engines_resolved input stored :
  (∀ p, in_protocol input = Some p → p ∈ PROTOCOL_NAMES) →
  match resolveNodeEngines input stored with
  | Ok row => in_step row ∧ resolveNodeEngines (mkInput None None None) (Some row) = Ok row ∧
      ∀ e, e ∈ readIntendedEngines row ↔ e ∈ ENGINE_NAMES ∧
        match in_intended input with
        | Some l => e ∈ l
        | None =>
            let before := match stored with
                          | Some row => readIntendedEngines row
                          | None => [nativeEngineFor (default "xray" (in_protocol input))]
                          end in
            match in_singbox input with
            | Some true => e ∈ before ∨ e = "singbox"
            | Some false => e ∈ before ∧ e ≠ "singbox"
            | None => e ∈ before
            end
        end
  | Throw (INVALID_ENGINES s l) => ∃ asked, in_intended input = Some asked ∧ in_singbox input = Some s ∧
      l = engineSet asked ∧ (s = true ↔ "singbox" ∉ asked)
  end.
Proof.
  intros Hp.
  assert (∀ l, engineSet l = l → in_step (stored_engines l) ∧
    resolveNodeEngines (mkInput None None None) (Some (stored_engines l)) = Ok (stored_engines l)) as Hstep.
  { intros l Hl. split; [by exists l|]. unfold resolveNodeEngines. cbn [in_intended in_singbox]. by rewrite stored_reads. }
  unfold resolveNodeEngines at 1. destruct (in_intended input) as [l|].
  - assert (∀ e, e ∈ readIntendedEngines (stored_engines (engineSet l)) ↔ e ∈ ENGINE_NAMES ∧ e ∈ l) as Hread.
    { intros e. rewrite stored_reads by apply engineSet_idem. apply elem_of_engineSet. }
    destruct (in_singbox input) as [s|]; [case_bool_decide as Hs|]; cbn [mbind result_bind].
    + destruct (Hstep (engineSet l)) as [H1 H2]; [apply engineSet_idem|]. exact (conj H1 (conj H2 Hread)).
    + exists l. refine (conj eq_refl (conj eq_refl (conj eq_refl _))). assert ("singbox" ∈ engineSet l ↔ "singbox" ∈ l) as Hx.
      { rewrite elem_of_engineSet. split; [by intros []|]. intros ?. split; [|done]. apply (bool_decide_unpack _). by vm_compute. }
      rewrite <-Hx. destruct s; case_bool_decide; naive_solver.
    + destruct (Hstep (engineSet l)) as [H1 H2]; [apply engineSet_idem|]. exact (conj H1 (conj H2 Hread)).
  - cbv zeta. set (before := match stored with Some row => _ | None => _ end).
    assert (engineSet before = before) as Hb.
    { unfold before. destruct stored as [row|]; [apply intended_canonical|]. apply engineSet_single, native_known.
      destruct (in_protocol input) as [p|]; [by apply Hp|]. apply (bool_decide_unpack _). by vm_compute. }
    assert (∀ e, e ∈ before → e ∈ ENGINE_NAMES) as Hin by (intros e He; rewrite <-Hb in He; by apply elem_of_engineSet in He as []).
    assert ("singbox" ∈ ENGINE_NAMES) as Hsb by (apply (bool_decide_unpack _); by vm_compute).
    destruct (in_singbox input) as [[|]|]; cbn [mbind result_bind].
    + destruct (Hstep (engineSet (before ++ ["singbox"]))) as [H1 H2]; [apply engineSet_idem|]. refine (conj H1 (conj H2 _)).
      intros e. rewrite stored_reads by apply engineSet_idem. rewrite elem_of_engineSet, elem_of_app, list_elem_of_singleton. reflexivity.
    + assert (engineSet (filter (λ e, e ≠ "singbox") before) = filter (λ e, e ≠ "singbox") before) as Hf by by apply engineSet_filter.
      destruct (Hstep _ Hf) as [H1 H2]. refine (conj H1 (conj H2 _)). intros e. rewrite stored_reads by exact Hf. rewrite list_elem_of_filter. split; [intros [? ?]; auto|tauto].
    + destruct (Hstep _ Hb) as [H1 H2]. refine (conj H1 (conj H2 _)). intros e. rewrite stored_reads by exact Hb. split; [auto|tauto].
Qed.

(** ** What a report says *)
Lemma reported_says cores engines : reportedEngines cores = Some engines → ∃ cs, cores = Some cs ∧
  (∀ c, c ∈ nc_cores cs → ci_engine c ≠ None) ∧
  ∀ e, e ∈ engines ↔ ∃ c, c ∈ nc_cores cs ∧ ci_engine c = Some e ∧ ci_installed c ≠ Some false.
Proof.
  unfold reportedEngines. destruct cores as [cs|]; [|done]. destruct (existsb _ _) eqn:Hx; [done|].
  intros H. apply (inj Some) in H as <-. exists cs. split; [done|]. split.
  - intros c Hc Hn. assert (existsb (λ c, bool_decide (ci_engine c = None)) (nc_cores cs) = true); [|congruence].
    apply existsb_exists. exists c. split; [by apply list_elem_of_In|by apply bool_decide_true].
  - intros e. rewrite elem_of_js_uniq, list_elem_of_omap. split.
    + intros (c & [Hi Hc]%list_elem_of_filter & He). exists c. split; [done|]. split; [done|].
      unfold counts in Hi. by apply negb_true_iff, bool_decide_eq_false in Hi.
    + intros (c & Hc & He & Hi). exists c. split; [|done]. apply list_elem_of_filter. split; [|done].
      unfold counts. by rewrite bool_decide_false.
Qed.

Lemma reported_none cores : reportedEngines cores = None ↔
  cores = None ∨ ∃ cs c, cores = Some cs ∧ c ∈ nc_cores cs ∧ ci_engine c = None.
Proof.
  unfold reportedEngines. destruct cores as [cs|]; [|naive_solver]. destruct (existsb _ _) eqn:Hx.
  - split; [|done]. intros _. right. apply existsb_exists in Hx as (c & Hc & Hb).
    exists cs, c. split; [done|]. split; [by apply list_elem_of_In|by apply bool_decide_eq_true in Hb].
  - split; [done|]. intros [?|(cs' & c & Hcs & Hc & Hn)]; [done|]. apply (inj Some) in Hcs as <-.
    assert (existsb (λ c, bool_decide (ci_engine c = None)) (nc_cores cs) = true); [|congruence].
    apply existsb_exists. exists c. split; [by apply list_elem_of_In|by apply bool_decide_true].
Qed.

(** A node is refused by a fact only: nothing the chain process said speaks for
    it, and it named the engine of every core it has, none of them enough. *)
Definition refused_by_fact (node : NodeFacts) (enough : string → Prop) : Prop :=
  (∀ ch, nd_chainStatus node = Some ch → ch_running ch = false ∧ is_Some (chainEngineOf node)) ∧
  ∃ cs, nd_cores node = Some cs ∧ ∀ c, c ∈ nc_cores cs → ∃ e, ci_engine c = Some e ∧ (ci_installed c ≠ Some false → ¬ enough e).

Lemma judge_refuses node enough (P : string → Prop) :
  (∀ l, enough l = true ↔ ∃ e, e ∈ l ∧ P e) →
  ca_ok (judge node enough (bool_decide (is_Some (chainEngineOf node)))) = false ↔ refused_by_fact node P.
Proof.
  intros Henough. unfold judge, refused_by_fact.
  assert (∀ engines, reportedEngines (nd_cores node) = Some engines → enough engines = false ↔
    ∃ cs, nd_cores node = Some cs ∧ ∀ c, c ∈ nc_cores cs → ∃ e, ci_engine c = Some e ∧ (ci_installed c ≠ Some false → ¬ P e)) as Hfact.
  { intros engines Hr. apply reported_says in Hr as (cs & Hcs & Hnamed & Hin).
    rewrite <-not_true_iff_false, Henough. split.
    - intros Hno. exists cs. split; [done|]. intros c Hc. destruct (ci_engine c) as [e|] eqn:He; [|by destruct (Hnamed c)].
      exists e. split; [done|]. intros Hi HP. apply Hno. exists e. split; [|done]. apply Hin. eauto.
    - intros (cs' & Hcs' & Hall) (e & (c & Hc & He & Hi)%Hin & HP).
      assert (cs' = cs) as -> by congruence. destruct (Hall c Hc) as (e' & He' & Hn). assert (e' = e) as -> by congruence. by apply Hn. }
  assert (reportedEngines (nd_cores node) = None → ¬ ∃ cs, nd_cores node = Some cs ∧
    ∀ c, c ∈ nc_cores cs → ∃ e, ci_engine c = Some e ∧ (ci_installed c ≠ Some false → ¬ P e)) as Hsilent.
  { intros [Hn|(cs & c & Hcs & Hc & Hn)]%reported_none (cs' & Hcs' & Hall); [congruence|].
    assert (cs' = cs) as -> by congruence. destruct (Hall c Hc) as (e & ? & _). congruence. }
  destruct (nd_chainStatus node) as [[[|] rp]|]; cbn [ca_ok].
  - split; [done|]. intros [H _]. by destruct (H _ eq_refl).
  - rewrite bool_decide_true by eauto. case_bool_decide as Hc; cbn [negb andb].
    + destruct (reportedEngines _) as [es|] eqn:Hr; cbn [ca_ok].
      * rewrite (Hfact _ eq_refl). split; [intros H; split; [|done]|by intros []]. intros ch Hch. apply (inj Some) in Hch as <-. done.
      * split; [done|]. intros [_ H]. by destruct (Hsilent eq_refl).
    + split; [done|]. intros [H _]. by destruct (H _ eq_refl).
  - rewrite bool_decide_false by (by intros []). cbn [andb]. destruct (reportedEngines _) as [es|] eqn:Hr; cbn [ca_ok].
    + rewrite (Hfact _ eq_refl). split; [intros H; split; [|done]|by intros []]. by intros ch Hch.
    + split; [done|]. intros [_ H]. by destruct (Hsilent eq_refl).
Qed.

Lemma cell_refused node cell : ca_ok (carriesCellAtSave node cell) = false ↔ refused_by_fact node (λ e, e ∈ carriers node cell).
Proof.
  apply judge_refuses. intros l. rewrite existsb_exists. split.
  - intros (e & He & Hb). exists e. split; [by apply list_elem_of_In|by apply bool_decide_eq_true in Hb].
  - intros (e & He & Hb). exists e. split; [by apply list_elem_of_In|by apply bool_decide_true].
Qed.

Lemma chain_refused node : ca_ok (canRunChainAtSave node) = false ↔ refused_by_fact node (λ e, e = "singbox").
Proof.
  apply judge_refuses. intros l. rewrite bool_decide_eq_true. naive_solver.
Qed.

(** ** The gate of a cascade save *)
Section Gate.
Context (table : list NodeFacts) (ids_apart : NoDup (nd_id <$> table)).

Lemma node_by_row rows id node : NoDup (nd_id <$> rows) →
  node_by id rows = Some node ↔ node ∈ rows ∧ nd_id node = id.
Proof.
  intros Hnd. unfold node_by. split.
  - intros [H Hb]%js_find_Some. split; [done|]. by apply bool_decide_eq_true in Hb.
  - intros [Hn <-]. destruct (js_find _ rows) as [n|] eqn:E.
    + apply js_find_Some in E as [Hin Hb]. apply bool_decide_eq_true in Hb. f_equal. by apply (NoDup_fmap_elem nd_id rows).
    + pose proof (proj1 (js_find_None _ _) E node Hn) as H. cbv beta in H. by rewrite bool_decide_true in H.
Qed.

(** What the gate asks of a leg's receiving side, and of every node. *)
Definition blocked_cell (rows : list NodeFacts) (w : string * string) (node : NodeFacts) : Prop :=
  node_by w.1 rows = Some node ∧ ca_ok (carriesCellAtSave node w.2) = false.
Definition blocked_chain (rows : list NodeFacts) (id : string) (node : NodeFacts) : Prop :=
  node_by id rows = Some node ∧ truthy (chainEngineOf node) = true ∧ ca_ok (canRunChainAtSave node) = false.

(** The state of the loops: the conflicts are of the named nodes, each node
    with a chain engine once. *)
Definition named_ok (rows : list NodeFacts) (named : list string) (cs : list CellConflict) : Prop :=
  NoDup named ∧
  (∀ id, id ∈ named ↔ ∃ node c, node_by id rows = Some node ∧ c ∈ cs ∧ cc_node c = nd_name node) ∧
  (∀ c, c ∈ cs → ∃ node, node ∈ rows ∧ nd_id node ∈ named ∧ cc_node c = nd_name node ∧
                  cc_chain c = (if truthy (chainEngineOf node) then chainEngineOf node else None)) ∧
  NoDup (cc_node <$> filter (λ c, is_Some (cc_chain c)) cs).

Lemma named_add rows named cs node c :
  NoDup (nd_id <$> rows) → NoDup (nd_name <$> rows) → named_ok rows named cs → node ∈ rows →
  cc_node c = nd_name node → cc_chain c = (if truthy (chainEngineOf node) then chainEngineOf node else None) →
  (truthy (chainEngineOf node) = true → nd_id node ∉ named) →
  named_ok rows (set_add (nd_id node) named) (cs ++ [c]).
Proof.
  intros Hids Hnames (Hnd & Hiff & Hcs & Honce) Hrow Hname Hchain Hnew. split_and!.
  - by apply NoDup_set_add.
  - intros id. rewrite elem_of_set_add, Hiff. split.
    + intros [->|(n & c' & Hn & Hc & He)].
      * exists node, c. split; [by apply node_by_row|]. split; [|done]. apply elem_of_app. right. by left.
      * exists n, c'. split; [done|]. split; [|done]. apply elem_of_app. by left.
    + intros (n & c' & Hn & [Hc|Hc]%elem_of_app & He); [right; eauto|]. left.
      apply list_elem_of_singleton in Hc as ->. apply node_by_row in Hn as [Hn <-]; [|done]. f_equal.
      apply (NoDup_fmap_elem nd_name rows); [done..|]. congruence.
  - intros c' [Hc|Hc%list_elem_of_singleton]%elem_of_app.
    + destruct (Hcs c' Hc) as (n & ? & ? & ?). exists n. split; [done|]. split; [|done]. apply elem_of_set_add. by right.
    + subst c'. exists node. split; [done|]. split; [|done]. apply elem_of_set_add. by left.
  - rewrite filter_app, fmap_app. apply NoDup_app. split; [done|].
    assert (∀ x, x ∈ cc_node <$> filter (λ c, is_Some (cc_chain c)) [c] → x = nd_name node ∧ truthy (chainEngineOf node) = true) as Hx.
    { intros x (c' & -> & [Hs ->%list_elem_of_singleton]%list_elem_of_filter)%list_elem_of_fmap. split; [done|].
      rewrite Hchain in Hs. destruct (truthy _); [done|by destruct Hs]. }
    split.
    + intros x Hin Hin'. apply Hx in Hin' as [-> Ht]. apply (Hnew Ht). apply Hiff.
      apply list_elem_of_fmap in Hin as (c' & Hn & [_ Hc']%list_elem_of_filter). exists node, c'. split; [by apply node_by_row|]. done.
    + rewrite filter_cons. case_decide; [apply NoDup_singleton|apply NoDup_nil_2].
Qed.

Lemma cells_named rows ws st : NoDup (nd_id <$> rows) → NoDup (nd_name <$> rows) → named_ok rows st.2 st.1 →
  named_ok rows (foldl (cell_step rows) st ws).2 (foldl (cell_step rows) st ws).1 ∧
  ∀ id, id ∈ (foldl (cell_step rows) st ws).2 ↔ id ∈ st.2 ∨ ∃ w node, w ∈ ws ∧ w.1 = id ∧ blocked_cell rows w node.
Proof.
  intros Hids Hnames. revert st. induction ws as [|w ws IH]; intros st Hst.
  { split; [done|]. intros id. split; [by left|]. intros [?|(w & n & ?%not_elem_of_nil & _)]; done. }
  cbn [foldl]. assert (named_ok rows (cell_step rows st w).2 (cell_step rows st w).1 ∧
    ∀ id, id ∈ (cell_step rows st w).2 ↔ id ∈ st.2 ∨ ∃ node, w.1 = id ∧ blocked_cell rows w node) as [H1 H2].
  { unfold cell_step, blocked_cell. destruct (node_by w.1 rows) as [node|] eqn:En; [|naive_solver].
    pose proof En as [Hrow Hid]%node_by_row; [|done].
    destruct (ca_ok _) eqn:Eok; [naive_solver congruence|].
    destruct (truthy (chainEngineOf node)) eqn:Et; [case_bool_decide as Hin|]; cbn [andb].
    - split; [done|]. intros id. split; [by left|]. intros [?|(n & <- & _)]; [done|]. by rewrite <-Hid.
    - cbn [fst snd]. split; [apply named_add; try done; cbn; by rewrite Et|].
      intros id. rewrite elem_of_set_add. naive_solver.
    - cbn [fst snd]. split; [apply named_add; try done; cbn; by rewrite Et|].
      intros id. rewrite elem_of_set_add. naive_solver. }
  destruct (IH _ H1) as [H3 H4]. split; [done|]. intros id. rewrite H4, H2.
  setoid_rewrite elem_of_cons. naive_solver.
Qed.

Lemma chains_named rows ids st : NoDup (nd_id <$> rows) → NoDup (nd_name <$> rows) → named_ok rows st.2 st.1 →
  named_ok rows (foldl (chain_step rows) st ids).2 (foldl (chain_step rows) st ids).1 ∧
  ∀ id, id ∈ (foldl (chain_step rows) st ids).2 ↔ id ∈ st.2 ∨ id ∈ ids ∧ ∃ node, blocked_chain rows id node.
Proof.
  intros Hids Hnames. revert st. induction ids as [|i ids IH]; intros st Hst.
  { split; [done|]. intros id. split; [by left|]. intros [?|[?%not_elem_of_nil _]]; done. }
  cbn [foldl]. assert (named_ok rows (chain_step rows st i).2 (chain_step rows st i).1 ∧
    ∀ id, id ∈ (chain_step rows st i).2 ↔ id ∈ st.2 ∨ id = i ∧ ∃ node, blocked_chain rows id node) as [H1 H2].
  { unfold chain_step, blocked_chain. destruct (node_by i rows) as [node|] eqn:En; [|naive_solver].
    pose proof En as [Hrow Hid]%node_by_row; [|done].
    case_bool_decide as Hin; [naive_solver|].
    destruct (truthy (chainEngineOf node)) eqn:Et; cbn [negb]; [|naive_solver congruence].
    destruct (ca_ok _) eqn:Eok; [naive_solver congruence|]. cbn [fst snd]. rewrite <-Hid. split.
    - apply named_add; try done; [cbn; by rewrite Et|]. intros _. by rewrite Hid.
    - intros id. rewrite elem_of_set_add. naive_solver. }
  destruct (IH _ H1) as [H3 H4]. split; [done|]. intros id. rewrite H4, H2.
  rewrite elem_of_cons. naive_solver.
Qed.

End Gate.

(** The nodes of the gate's query. *)
Lemma gate_rows table ids : NoDup (nd_id <$> table) →
  ∀ id node, node_by id (nodes_in ids table) = Some node ↔ id ∈ ids ∧ node ∈ table ∧ nd_id node = id.
Proof.
  intros Hnd id node. rewrite node_by_row by (by apply NoDup_fmap_filter). unfold nodes_in. rewrite list_elem_of_filter. naive_solver.
Qed.

(** C29. A cascade save is refused exactly when some node cannot carry its part:
    a receiving side whose report rules its cell out, or a node whose agent
    carries legs through its chain process alone and whose report rules the
    chain out.  The refusal names every such node and no other, a node with a
    chain engine once. *)
Theorem cells_gate table ps ds :
  NoDup (nd_id <$> table) → NoDup (nd_name <$> table) →
  let blocked node :=
    (∃ cell, (nd_id node, cell) ∈ topologyReceivingCells ps ds ∧ refused_by_fact node (λ e, e ∈ carriers node cell)) ∨
    nd_id node ∈ every_node ps ds ∧ truthy (chainEngineOf node) = true ∧ topologyReceivingCells ps ds ≠ [] ∧
    refused_by_fact node (λ e, e = "singbox") in
  match assertNodesCarryCells table (Some ps) (Some ds) with
  | Ok _ => ∀ node, node ∈ table → ¬ blocked node
  | Throw (CELL_NOT_CARRIED cs) => cs ≠ [] ∧
      (∀ node, node ∈ table → blocked node ↔ nd_name node ∈ cc_node <$> cs) ∧
      (∀ c, c ∈ cs → ∃ node, node ∈ table ∧ cc_node c = nd_name node) ∧
      NoDup (cc_node <$> filter (λ c, is_Some (cc_chain c)) cs)
  | Throw _ => False
  end.
Proof.
  intros Hids Hnames blocked. unfold assertNodesCarryCells. cbv zeta.
  case_bool_decide as Hw.
  { intros node _ [(cell & Hc & _)|(_ & _ & ? & _)]; [|done]. rewrite Hw in Hc. by apply not_elem_of_nil in Hc. }
  set (wanted := topologyReceivingCells ps ds) in *. set (everyNode := every_node ps ds) in *.
  set (rows := nodes_in _ table).
  assert (NoDup (nd_id <$> rows)) as Hri by by apply NoDup_fmap_filter.
  assert (NoDup (nd_name <$> rows)) as Hrn by by apply NoDup_fmap_filter.
  assert (named_ok rows ([] : list string) []) as H0.
  { split_and!; [constructor| |by intros c ?%not_elem_of_nil|constructor]. intros id. split; [by intros ?%not_elem_of_nil|].
    by intros (? & ? & _ & ?%not_elem_of_nil & _). }
  destruct (cells_named rows wanted ([], []) Hri Hrn H0) as [H1 Hnamed1].
  destruct (chains_named rows everyNode _ Hri Hrn H1) as [H2 Hnamed2].
  destruct (foldl (chain_step rows) _ everyNode) as [cs named]. cbn [fst snd] in *.
  destruct H2 as (_ & Hiff & Hcs & Honce).
  assert (∀ node, node ∈ table → blocked node ↔ nd_id node ∈ named) as Hblocked.
  { intros node Hn. rewrite Hnamed2, Hnamed1. unfold blocked, blocked_cell, blocked_chain. subst rows.
    setoid_rewrite (gate_rows table _ Hids). split.
    - intros [(cell & Hc & Hf)|(He & Ht & _ & Hf)].
      + left. right. exists (nd_id node, cell), node. split; [done|]. split; [done|]. split; [|by apply cell_refused].
        split; [|done]. rewrite elem_of_js_uniq, elem_of_app. left. by apply (list_elem_of_fmap_2 fst) in Hc.
      + right. split; [done|]. exists node. split; [|split; [done|by apply chain_refused]].
        split; [|done]. rewrite elem_of_js_uniq, elem_of_app. by right.
    - intros [[?%not_elem_of_nil|([id cell] & n & Hc & Hi & (_ & Hn' & Hid) & Hr)]|(He & n & (_ & Hn' & Hid) & Ht & Hr)]; [done| |].
      + assert (n = node) as -> by (apply (NoDup_fmap_elem nd_id table); cbn [fst] in *; congruence). left. exists cell.
        cbn [fst snd] in *. split; [by rewrite <-Hi|by apply cell_refused].
      + assert (n = node) as -> by by apply (NoDup_fmap_elem nd_id table). right. split_and!; [done..|by apply chain_refused]. }
  destruct (decide (cs = [])) as [->|Hne].
  - cbn. intros node Hn Hb%Hblocked; [|done]. apply Hiff in Hb as (? & ? & _ & ?%not_elem_of_nil & _). done.
  - rewrite bool_decide_false by done. cbn [negb throw_if]. split; [done|]. split; [|split; [|done]].
    + intros node Hn. rewrite Hblocked by done. rewrite Hiff. split.
      * intros (n & c & Hnb & Hc & He). subst rows. apply gate_rows in Hnb as (_ & Hn' & Hid); [|done].
        assert (n = node) as -> by by apply (NoDup_fmap_elem nd_id table).
        rewrite <-He. by apply list_elem_of_fmap_2.
      * intros (c & He & Hc)%list_elem_of_fmap. destruct (Hcs c Hc) as (n & Hn' & Hin & Hne' & _).
        subst rows. apply list_elem_of_filter in Hn' as [Hi Hn'].
        assert (n = node) as -> by (apply (NoDup_fmap_elem nd_name table); congruence).
        exists node, c. split; [by apply gate_rows|]. split; [done|congruence].
    + intros c Hc. destruct (Hcs c Hc) as (n & Hn & _ & He & _). exists n. split; [|done].
      subst rows. by apply list_elem_of_filter in Hn as [].
Qed.

(** ** What a node must keep *)
Definition need_get (acc : NeedAcc) (n e i : string) : option NeedRef :=
  jm_get n acc ≫= λ engines, jm_get e engines ≫= jm_get i.

Definition acc_wf (acc : NeedAcc) : Prop :=
  jm_wf acc ∧ ∀ n engines, jm_get n acc = Some engines →
    engines ≠ [] ∧ jm_wf engines ∧ ∀ e refs, jm_get e engines = Some refs → jm_wf refs ∧ refs ≠ [].

Lemma jm_set_not_nil {K V} `{EqDecision K} (k : K) (v : V) m : jm_set k v m ≠ [].
Proof. destruct m as [|[k' v'] m]; cbn; [done|]. by case_decide. Qed.

Lemma need_wf wanted c acc ne : acc_wf acc → acc_wf (need wanted c acc ne).
Proof.
  intros [Hwf Hin]. unfold need. case_bool_decide; [|done]. cbv zeta. split; [by apply jm_wf_set|].
  intros n engines. rewrite jm_get_set. case_decide as Hn; [|by apply Hin]. intros E. apply (inj Some) in E as <-.
  assert (jm_wf (default [] (jm_get ne.1 acc)) ∧ ∀ e refs, jm_get e (default [] (jm_get ne.1 acc)) = Some refs → jm_wf refs ∧ refs ≠ []) as [H1 H2].
  { destruct (jm_get ne.1 acc) as [es|] eqn:Es; cbn [default from_option id]; [by apply (Hin ne.1)|]. split; [apply jm_wf_nil|done]. }
  split; [apply jm_set_not_nil|]. split; [by apply jm_wf_set|]. intros e refs. rewrite jm_get_set. case_decide; [|by apply H2].
  intros E. apply (inj Some) in E as <-. split; [|apply jm_set_not_nil]. apply jm_wf_set.
  destruct (jm_get ne.2 _) as [rs|] eqn:Er; cbn [default from_option id]; [by apply (H2 ne.2)|apply jm_wf_nil].
Qed.

Lemma need_get_need wanted c acc ne n e i : need_get (need wanted c acc ne) n e i =
  if decide (n ∈ wanted ∧ ne = (n, e) ∧ nc_id c = i) then Some (ref_of c) else need_get acc n e i.
Proof.
  unfold need. destruct ne as [n' e']. cbn [fst snd]. case_bool_decide as Hw.
  2:{ rewrite decide_False; [done|]. intros (Hn & E & _). congruence. }
  unfold need_get. rewrite jm_get_set. destruct (decide (n = n')) as [->|Hn].
  2:{ rewrite decide_False; [done|]. intros (_ & E & _). congruence. }
  cbn [mbind option_bind]. rewrite jm_get_set. destruct (decide (e = e')) as [->|He].
  2:{ rewrite decide_False by (intros (_ & E & _); congruence). destruct (jm_get n' acc); done. }
  cbn [mbind option_bind]. rewrite jm_get_set. destruct (decide (i = nc_id c)) as [->|Hi].
  { by rewrite decide_True. }
  rewrite decide_False by (intros (_ & _ & E); congruence).
  destruct (jm_get n' acc) as [es|]; cbn [default from_option id mbind option_bind]; [|done].
  destruct (jm_get e' es); done.
Qed.

Lemma needs_folded wanted cs acc : acc_wf acc → NoDup (nc_id <$> cs) →
  let acc' := foldl (λ acc c, foldl (need wanted c) acc (cascade_needs c)) acc cs in
  acc_wf acc' ∧ ∀ n e i r, need_get acc' n e i = Some r ↔
    (∃ c, c ∈ cs ∧ nc_id c = i ∧ n ∈ wanted ∧ (n, e) ∈ cascade_needs c ∧ r = ref_of c) ∨
    (need_get acc n e i = Some r ∧ ¬ ∃ c, c ∈ cs ∧ nc_id c = i ∧ n ∈ wanted ∧ (n, e) ∈ cascade_needs c).
Proof.
  assert (∀ c ns acc, acc_wf acc → acc_wf (foldl (need wanted c) acc ns) ∧ ∀ n e i,
    need_get (foldl (need wanted c) acc ns) n e i =
      if decide (n ∈ wanted ∧ (n, e) ∈ ns ∧ nc_id c = i) then Some (ref_of c) else need_get acc n e i) as Hinner.
  { intros c ns. induction ns as [|ne ns IH]; intros acc0 Hwf.
    - split; [done|]. intros n e i. cbn. rewrite decide_False; [done|]. by intros (_ & ?%not_elem_of_nil & _).
    - cbn [foldl]. destruct (IH _ (need_wf wanted c acc0 ne Hwf)) as [H1 H2]. split; [done|].
      intros n e i. rewrite H2, need_get_need. pose proof (elem_of_cons ns (n, e) ne) as Hc.
      repeat case_decide; try done; naive_solver congruence. }
  revert acc. induction cs as [|c cs IH]; intros acc Hwf Hnd; cbv zeta.
  { split; [done|]. intros n e i r. split; [intros H; right; split; [done|]|]; naive_solver by (set_solver). }
  rewrite fmap_cons in Hnd. apply NoDup_cons in Hnd as [Hnew Hnd]. cbn [foldl].
  destruct (Hinner c (cascade_needs c) acc Hwf) as [Hw1 Hg1]. destruct (IH _ Hw1 Hnd) as [Hw2 Hg2]. split; [done|].
  intros n e i r. rewrite Hg2, Hg1. setoid_rewrite elem_of_cons. case_decide as Hd.
  - destruct Hd as (Hn & Hin & Hic). split.
    + intros [(c' & ? & ?)|[E _]]; [left; naive_solver|]. left. exists c. naive_solver.
    + intros [(c' & [->|Hc'] & Hi & _ & _ & ->)|[_ []]]; [|exfalso; apply Hnew; rewrite Hic, <-Hi; by apply list_elem_of_fmap_2|].
      * right. split; [done|]. intros (c' & Hc' & Hi' & _). apply Hnew. rewrite Hic, <-Hi'. by apply list_elem_of_fmap_2.
      * exists c. naive_solver.
  - split.
    + intros [(c' & ? & ?)|[E Hno]]; [left; naive_solver|]. right. split; [done|]. intros (c' & [->|Hc'] & Hi & Hn & Hin); [by apply Hd|naive_solver].
    + intros [(c' & [->|Hc'] & Hi & Hn & Hin & ->)|[E Hno]]; [by destruct Hd|left; naive_solver|]. right. split; [done|]. naive_solver.
Qed.

(** A cascade keeps an engine on a node for one of four reasons. *)
Lemma elem_of_needs c n e : (n, e) ∈ cascade_needs c ↔
  ((is_v4 c = true ∧ ((e = "singbox" ∧ ((∃ p, p ∈ nc_positions c ∧ n ∈ p.2) ∨ ∃ d, d ∈ nc_directions c ∧ n ∈ d)) ∨
                     ∃ p, p ∈ nc_positions c ∧ n ∈ p.2 ∧ p.1.1 = 0 ∧ e = nativeEngineFor (default "xray" p.1.2))) ∨
  (is_v4 c = false ∧ e = "xray" ∧ n ∈ nc_hops c)) ∨
  (e = "amneziawg" ∧ ∃ t, t ∈ nc_tunnels c ∧ (n = t.1 ∨ n = t.2)).
Proof.
  unfold cascade_needs. rewrite elem_of_app.
  assert ((n, e) ∈ nc_tunnels c ≫= (λ t, [(t.1, "amneziawg"); (t.2, "amneziawg")]) ↔
          e = "amneziawg" ∧ ∃ t, t ∈ nc_tunnels c ∧ (n = t.1 ∨ n = t.2)) as ->.
  { rewrite list_elem_of_bind. setoid_rewrite elem_of_cons. setoid_rewrite list_elem_of_singleton.
    split; [intros (t & [E|E] & Ht)|intros (-> & t & Ht & [->| ->])]; [| |by eauto..].
    all: injection E as -> ->; split; [done|]; eauto. }
  apply or_iff_compat_r. destruct (is_v4 c).
  - rewrite elem_of_app, !list_elem_of_bind.
    assert ((∃ p, (n, e) ∈ position_needs p ∧ p ∈ nc_positions c) ↔
      (e = "singbox" ∧ ∃ p, p ∈ nc_positions c ∧ n ∈ p.2) ∨
      ∃ p, p ∈ nc_positions c ∧ n ∈ p.2 ∧ p.1.1 = 0 ∧ e = nativeEngineFor (default "xray" p.1.2)) as ->.
    { unfold position_needs. setoid_rewrite list_elem_of_bind. setoid_rewrite elem_of_cons. split.
      - intros (p & (m & [E|Hin] & Hm) & Hp).
        + injection E as -> ->. left. eauto.
        + destruct (Z.eqb_spec p.1.1 0); [|by apply not_elem_of_nil in Hin]. apply list_elem_of_singleton in Hin.
          injection Hin as -> ->. right. eauto.
      - intros [(-> & p & Hp & Hn)|(p & Hp & Hn & H0 & ->)]; exists p; (split; [|done]); exists n; (split; [|done]); [by left|].
        right. rewrite H0. cbn [Z.eqb]. by left. }
    assert ((∃ m, (n, e) ∈ [(m, "singbox")] ∧ m ∈ mjoin (nc_directions c)) ↔ e = "singbox" ∧ ∃ d, d ∈ nc_directions c ∧ n ∈ d) as ->.
    { setoid_rewrite list_elem_of_singleton. setoid_rewrite list_elem_of_join. split.
      - intros (m & E & d & ? & ?). injection E as -> ->. eauto.
      - intros (-> & d & ? & ?). eauto. }
    intuition congruence.
  - rewrite list_elem_of_fmap. split.
    + intros (m & E & Hm). injection E as -> ->. by right.
    + intros [[? _]|(_ & -> & Hn)]; [done|]. eauto.
Qed.

Lemma jm_first {K V} `{EqDecision K} (m : list (K * V)) : m ≠ [] → ∃ k v, jm_get k m = Some v.
Proof. destruct m as [|[k v] m]; [done|]. intros _. exists k, v. cbn. by rewrite decide_True. Qed.

Lemma needs_touch ids c n e : n ∈ ids → (n, e) ∈ cascade_needs c → touches ids c = true.
Proof.
  intros Hn Hin. unfold touches. apply existsb_exists. exists n. split; [|by apply bool_decide_true].
  apply list_elem_of_In. rewrite !elem_of_app.
  apply elem_of_needs in Hin as [[(_ & [[_ [(p & Hp & Hin)|(d & Hd & Hin)]]|(p & Hp & Hin & _)])|(_ & _ & Hin)]|(_ & t & Ht & Hor)].
  - right; left. apply list_elem_of_bind. eauto.
  - right; right; left. apply list_elem_of_join. eauto.
  - right; left. apply list_elem_of_bind. eauto.
  - by left.
  - right; right; right. apply list_elem_of_bind. exists t. split; [|done]. destruct Hor as [->| ->]; [by left|by right; left].
Qed.

(** For the nodes asked about, the answer keeps, per node and engine, the
    cascades that need it and no others, each once and with its name and
    switch; a node no cascade asks anything of is absent, and no engine is
    listed with nothing behind it. *)
Theorem cascade_needs_exact localeCompare table ids : NoDup (nc_id <$> table) → NoDup ids →
  let out := cascadeNeedsByNode localeCompare table ids in
  jm_wf out ∧
  (∀ n, n ∈ jm_keys out ↔ n ∈ ids ∧ ∃ c e, c ∈ table ∧ (n, e) ∈ cascade_needs c) ∧
  ∀ n needs, jm_get n out = Some needs →
    (∀ e refs, (e, refs) ∈ needs → e ∈ ENGINE_NAMES ∧ refs ≠ [] ∧ NoDup (nr_id <$> refs) ∧
       ∀ r, r ∈ refs ↔ ∃ c, c ∈ table ∧ (n, e) ∈ cascade_needs c ∧ r = ref_of c) ∧
    (∀ e c, e ∈ ENGINE_NAMES → c ∈ table → (n, e) ∈ cascade_needs c → ∃ refs, (e, refs) ∈ needs).
Proof.
  intros Hnd Hids out. unfold out, cascadeNeedsByNode.
  assert (∀ n e c, n ∈ ids → c ∈ table → (n, e) ∈ cascade_needs c → c ∈ filter (λ c, touches ids c = true) table) as Htouch.
  { intros n e c Hn Hc Hin. apply list_elem_of_filter. split; [by eapply needs_touch|done]. }
  case_bool_decide as Hempty.
  { split; [apply jm_wf_nil|]. split; [|done]. intros n. rewrite Hempty. split; [by intros ?%not_elem_of_nil|by intros [?%not_elem_of_nil _]]. }
  set (cs := filter _ table) in *.
  destruct (needs_folded ids cs []) as [[Hwf Hin] Hget].
  { split; [apply jm_wf_nil|done]. }
  { by apply NoDup_fmap_filter. }
  set (acc := foldl _ [] cs) in *. cbv zeta.
  assert (∀ n e i r, need_get acc n e i = Some r ↔ ∃ c, c ∈ table ∧ nc_id c = i ∧ n ∈ ids ∧ (n, e) ∈ cascade_needs c ∧ r = ref_of c) as Hspec.
  { intros n e i r. rewrite Hget. split.
    - intros [(c & [_ Hc]%list_elem_of_filter & ?)|[? _]]; [by exists c|done].
    - intros (c & Hc & Hi & Hn & He & Hr). left. exists c. split; [by eapply Htouch|done]. }
  assert (∀ n, n ∈ jm_keys acc ↔ n ∈ ids ∧ ∃ c e, c ∈ table ∧ (n, e) ∈ cascade_needs c) as Hkeys.
  { intros n. rewrite <-jm_get_is_Some. split.
    - intros [es Hes]. destruct (Hin n es Hes) as (Hne & _ & Hrefs). destruct (jm_first es Hne) as (e & refs & He).
      destruct (Hrefs e refs He) as [_ Hr]. destruct (jm_first refs Hr) as (i & r & Hi).
      destruct (proj1 (Hspec n e i r)) as (c & Hc & _ & Hn & Hneed & _); [unfold need_get; by rewrite Hes; cbn; rewrite He|]. eauto.
    - intros (Hn & c & e & Hc & He). pose proof (proj2 (Hspec n e (nc_id c) (ref_of c)) (ex_intro _ c (conj Hc (conj eq_refl (conj Hn (conj He eq_refl)))))) as H.
      unfold need_get in H. destruct (jm_get n acc); [by eexists|done]. }
  split; [|split].
  - unfold jm_wf, jm_keys. rewrite <-list_fmap_compose. exact Hwf.
  - intros n. rewrite <-Hkeys. unfold jm_keys. rewrite <-list_fmap_compose. done.
  - intros n needs. rewrite jm_get_map. destruct (jm_get n acc) as [es|] eqn:Hes; [|done]. intros E. apply (inj Some) in E as <-.
    destruct (Hin n es Hes) as (_ & Hwes & Hrefs).
    assert (n ∈ ids) as Hn.
    { assert (n ∈ jm_keys acc) as [? _]%Hkeys; [|done]. apply jm_get_is_Some. by exists es. }
    split.
    + intros e refs (e' & E & [He Hname]%list_elem_of_filter)%list_elem_of_fmap. injection E as -> ->.
      apply jm_get_is_Some in He as [rs Hrs]. destruct (Hrefs e' rs Hrs) as [Hwrs Hne]. rewrite Hrs. cbn [default from_option id].
      split; [done|]. split; [|split].
      * intros Hnil. pose proof (sort_by_length (λ a b, localeCompare (nr_name a) (nr_name b)) rs.*2) as Hl. rewrite Hnil, length_fmap in Hl. by destruct rs.
      * rewrite (sort_by_perm _ rs.*2). rewrite <-list_fmap_compose.
        assert (nr_id ∘ snd <$> rs = jm_keys rs) as ->; [|exact Hwrs].
        unfold jm_keys. apply list_fmap_ext. intros i [k r] Hk. cbn. apply list_elem_of_lookup_2 in Hk.
        apply jm_elem_get in Hk; [|done].
        destruct (proj1 (Hspec n e' k r)) as (c & _ & <- & _ & _ & ->); [|done]. unfold need_get. rewrite Hes. cbn. by rewrite Hrs.
      * intros r. rewrite elem_of_sort_by. split.
        -- intros ([k r'] & -> & Hk)%list_elem_of_fmap. apply jm_elem_get in Hk; [|done].
           destruct (proj1 (Hspec n e' k r')) as (c & ? & _ & _ & ? & ->); [|by eauto]. unfold need_get. rewrite Hes. cbn. by rewrite Hrs.
        -- intros (c & Hc & Hneed & ->). 
           assert (need_get acc n e' (nc_id c) = Some (ref_of c)) as H by (apply Hspec; eauto 6).
           unfold need_get in H. rewrite Hes in H. cbn in H. rewrite Hrs in H. cbn in H. apply jm_get_Some_elem in H.
           by apply (list_elem_of_fmap_2 snd) in H.
    + intros e c Hname Hc Hneed. assert (need_get acc n e (nc_id c) = Some (ref_of c)) as H by (apply Hspec; eauto 6).
      unfold need_get in H. rewrite Hes in H. cbn in H. destruct (jm_get e es) as [rs|] eqn:Hrs; [|done].
      eexists. unfold needs_out. apply list_elem_of_fmap. exists e. split; [done|]. apply list_elem_of_filter. split; [|done].
      apply jm_get_is_Some. by exists rs.
Qed.

(** A save whose entry is served only through the chain is refused exactly
    when a node of that entry rules the chain out by its report, and the refusal
    names those nodes with what they reported. *)
Theorem entry_gate table ps :
  NoDup (nd_id <$> table) →
  match assertEntryCanChain table (Some ps) with
  | Ok _ => ∀ p node, js_find (λ p, p_position p =? 0) ps = Some p → entryReachesCascadeOnlyThroughChain (p_entryProtocol p) = true →
      node ∈ table → nd_id node ∈ p_nodeIds p → ¬ refused_by_fact node (λ e, e = "singbox")
  | Throw (ENTRY_CANNOT_CHAIN cs protocol) => ∃ p, js_find (λ p, p_position p =? 0) ps = Some p ∧
      p_entryProtocol p = Some protocol ∧ entryReachesCascadeOnlyThroughChain (Some protocol) = true ∧ cs ≠ [] ∧
      ∀ name engines, (name, engines) ∈ cs ↔ ∃ node, node ∈ table ∧ nd_id node ∈ p_nodeIds p ∧ nd_name node = name ∧
        refused_by_fact node (λ e, e = "singbox") ∧ engines = ca_engines (canRunChainAtSave node)
  | Throw _ => False
  end.
Proof.
  intros Hids. unfold assertEntryCanChain. cbn [mbind option_bind]. destruct (js_find _ ps) as [p|]; [|done].
  destruct (entryReachesCascadeOnlyThroughChain (p_entryProtocol p)) eqn:He; cbn [negb orb].
  2:{ intros p' node Hp Hch. apply (inj Some) in Hp as <-. congruence. }
  case_bool_decide as Hnil.
  { intros p' node Hp _ _ Hin. apply (inj Some) in Hp as <-. rewrite Hnil in Hin. by apply not_elem_of_nil in Hin. }
  set (blocked := filter _ (nodes_in _ _)).
  assert (∀ node, node ∈ blocked ↔ node ∈ table ∧ nd_id node ∈ p_nodeIds p ∧ refused_by_fact node (λ e, e = "singbox")) as Hb.
  { intros node. unfold blocked, nodes_in. rewrite !list_elem_of_filter, chain_refused. tauto. }
  cbv zeta. case_bool_decide as Hc; cbn [negb throw_if].
  - intros p' node Hp _ Hn Hin Hf. apply (inj Some) in Hp as <-. apply fmap_nil_inv in Hc.
    assert (node ∈ blocked) as Hx by by apply Hb. rewrite Hc in Hx. by apply not_elem_of_nil in Hx.
  - exists p. split; [done|]. destruct (p_entryProtocol p) as [proto|]; [|done]. cbn [default from_option id]. split; [done|]. split; [done|]. split; [done|].
    intros name engines. rewrite list_elem_of_fmap. split.
    + intros (node & E & (Hn & Hin & Hf)%Hb). injection E as -> ->. exists node. done.
    + intros (node & Hn & Hin & <- & Hf & ->). exists node. split; [done|]. by apply Hb.
Qed.

(** ** The core gate *)

(** The verdict on a component that refuses. *)
Definition bad_verdict (v : CoreVersionVerdict) : bool :=
  match v with VKnownBad _ | VAboveCeiling _ _ => true | _ => false end.

Lemma check_component_ok node engine present intent c :
  check_component node engine present intent c = Ok tt ↔
  ∀ v, reported_version present c = Some v → bad_verdict (judgeCoreVersion c (Some v) intent) = false.
Proof.
  unfold check_component. destruct (reported_version present c) as [v|]; [|naive_solver].
  assert ((∀ v', Some v = Some v' → bad_verdict (judgeCoreVersion c (Some v') intent) = false) ↔
          bad_verdict (judgeCoreVersion c (Some v) intent) = false) as ->.
  { split; [intros H; by apply H|]. intros H v' E. apply (inj Some) in E as <-. done. }
  by destruct (judgeCoreVersion c (Some v) intent).
Qed.

Definition present_rows (node : NodeFacts) (engine : string) : list NodeCoreInfo :=
  filter (λ c, counts c = true) (engine_rows node engine).

(** The generation half: a 3.1 profile needs an agent that says it carries 3.1
    and a module that does not say it is 1.x. *)
Definition awg_fits (node : NodeFacts) (profile : ProfileKind) : Prop :=
  k_protocol profile = "amneziawg" → k_awgProtocol profile = Some 3 →
  reportedAwgProtocol (nd_cores node) ≠ Some 1 ∧ agentCarriesAwg3 (nd_cores node) = true.

Lemma awg_gate node profile : assertAwgProtocolOnNode node profile = Ok tt ↔ awg_fits node profile.
Proof.
  unfold assertAwgProtocolOnNode, awg_fits, profileAwgProtocol.
  destruct (decide (k_protocol profile = "amneziawg")) as [Hp|Hp].
  2:{ rewrite (bool_decide_false _ Hp), bool_decide_false by done. cbn [negb]. split; [by intros|done]. }
  rewrite (bool_decide_true _ Hp). destruct (decide (k_awgProtocol profile = Some 3)) as [Hg|Hg].
  2:{ rewrite (bool_decide_false _ Hg), bool_decide_false by done. cbn [negb]. split; [by intros|done]. }
  rewrite (bool_decide_true _ Hg), bool_decide_true by done. cbn [negb].
  destruct (decide (reportedAwgProtocol (nd_cores node) = Some 1)) as [Hr|Hr].
  { rewrite (bool_decide_true _ Hr). cbn [throw_if mbind result_bind]. split; [discriminate|]. intros H. by destruct (H Hp Hg) as [? _]. }
  rewrite (bool_decide_false _ Hr). cbn [throw_if mbind result_bind].
  destruct (agentCarriesAwg3 _); cbn [negb throw_if]; [by split|]. split; [done|]. intros H. by destruct (H Hp Hg) as [_ ?].
Qed.

(** The gate in front of a host: it lets a profile onto a node exactly when
    nothing in the node's report speaks against it: no row of the engine at all,
    or one installed, with no version that is known-bad or above a ceiling, and
    the AmneziaWG generation carried.  A node that runs what its operator's
    choice resolves to is never refused for its versions. *)
Theorem core_gate node profile :
  let engine := effectiveEngineOf profile in
  let intent := readCoreVersions (nd_coreVersions node) in
  (assertCoreOnNode node profile = Ok tt ↔
    awg_fits node profile ∧
    (engine_rows node engine ≠ [] →
      present_rows node engine ≠ [] ∧
      ∀ c v, c ∈ componentsOfEngine engine → reported_version (present_rows node engine) c = Some v →
        bad_verdict (judgeCoreVersion c (Some v) intent) = false)) ∧
  (∀ out, resolveCoreVersions intent = Ok out →
    (∀ c v, c ∈ componentsOfEngine engine → reported_version (present_rows node engine) c = Some v → ∃ b, (c, b) ∈ out ∧ v = bo_version b) →
    awg_fits node profile → (engine_rows node engine ≠ [] → present_rows node engine ≠ []) →
    assertCoreOnNode node profile = Ok tt).
Proof.
  assert (assertCoreOnNode node profile = Ok tt ↔
    awg_fits node profile ∧
    (engine_rows node (effectiveEngineOf profile) ≠ [] →
      present_rows node (effectiveEngineOf profile) ≠ [] ∧
      ∀ c v, c ∈ componentsOfEngine (effectiveEngineOf profile) →
        reported_version (present_rows node (effectiveEngineOf profile)) c = Some v →
        bad_verdict (judgeCoreVersion c (Some v) (readCoreVersions (nd_coreVersions node))) = false)) as Hgate.
  { unfold assertCoreOnNode. fold (present_rows node (effectiveEngineOf profile)). cbv zeta.
    case_bool_decide as Hrows; [rewrite awg_gate; naive_solver|].
    case_bool_decide as Hpres; cbn [throw_if mbind result_bind]; [naive_solver|].
    rewrite bind_unit_ok, awg_gate, for_each_ok, Forall_forall. setoid_rewrite check_component_ok. naive_solver. }
  cbv zeta. split; [done|]. intros out Hout Hruns Hawg Hpres. apply Hgate. split; [done|]. intros Hrows. split; [by apply Hpres|].
  intros c v Hc Hv. destruct (Hruns c v Hc Hv) as (b & Hb & ->).
  rewrite resolve_cores in Hout. destruct (checkCoreVersionIntent _) eqn:E; [|done].
  assert (handed (readCoreVersions (nd_coreVersions node)) CORE_COMPONENTS = out) as <- by congruence.
  apply handed_elem in Hb as (version & r & Hw & Hr & ->). cbn [bo_version boot_release].
  by rewrite (judge_release c r _ version Hw Hr).
Qed.

(** ** The hint beside a core *)
Definition key_of (h : HostNeed) : string := coreRowKey (k_protocol (hn_profile h)) (effectiveEngineOf (hn_profile h)).
Definition count_get (out : list (string * list (string * Z))) (n key : string) : Z :=
  default 0 (jm_get n out ≫= jm_get key).

Lemma count_step out h n key : count_get (count_host out h) n key =
  count_get out n key + (if decide (hn_node h = n ∧ key_of h = key) then 1 else 0).
Proof.
  unfold count_host, count_get. fold (key_of h). cbv zeta. rewrite jm_get_set. destruct (decide (n = hn_node h)) as [->|Hn].
  2:{ rewrite decide_False by (intros []; congruence). by rewrite Z.add_0_r. }
  cbn [mbind option_bind]. rewrite jm_get_set. destruct (decide (key = key_of h)) as [->|Hk].
  - rewrite decide_True by done. by destruct (jm_get (hn_node h) out).
  - rewrite decide_False by (intros []; congruence). rewrite Z.add_0_r. by destruct (jm_get (hn_node h) out).
Qed.

Lemma count_hosts hs out n key : count_get (foldl count_host out hs) n key =
  count_get out n key + Z.of_nat (length (filter (λ h, hn_node h = n ∧ key_of h = key) hs)).
Proof.
  revert out. induction hs as [|h hs IH]; intros out; [rewrite filter_nil; cbn [foldl length]; lia|]. cbn [foldl]. rewrite IH, count_step, filter_cons.
  case_decide; cbn [length]; lia.
Qed.

Lemma key_inj p e p' e' : char_free "|" p → char_free "|" p' → coreRowKey p e = coreRowKey p' e' → p = p' ∧ e = e'.
Proof.
  rewrite !char_free_has. intros Hp Hp' H. by apply (str_sep_inj "|").
Qed.

(** The hint of a core row counts the hosts it serves: enabled, of an enabled
    binding on this node, of the row's protocol and rendered by the row's engine;
    a row that does not name its engine gets none. *)
Theorem needed_by_exact table ids n cores :
  n ∈ ids → (∀ h, h ∈ table → k_protocol (hn_profile h) ∈ PROTOCOL_NAMES) →
  (∀ c, c ∈ nc_cores cores → ci_name c ∈ PROTOCOL_NAMES) →
  match withNeededBy (Some cores) (jm_get n (hostsByEngine table ids)) with
  | None => False
  | Some out => Forall2 (λ c c', ci_name c' = ci_name c ∧ ci_engine c' = ci_engine c ∧
      match ci_engine c with
      | None => c' = c
      | Some e => ci_neededBy c' = Some (Z.of_nat (length (filter (λ h, hn_enabled h = true ∧ hn_bindingEnabled h = true ∧ hn_node h = n ∧
                    k_protocol (hn_profile h) = ci_name c ∧ effectiveEngineOf (hn_profile h) = e) table)))
      end) (nc_cores cores) (nc_cores out)
  end.
Proof.
  intros Hn Htable Hcores. unfold withNeededBy. cbn [fmap option_fmap option_map nc_cores].
  assert (∀ p, p ∈ PROTOCOL_NAMES → char_free "|" p) as Hfree.
  { intros p Hp. unfold char_free. apply (bool_decide_unpack _).
    repeat (apply elem_of_cons in Hp as [->|Hp]; [vm_compute; exact I|]). by apply not_elem_of_nil in Hp. }
  assert (∀ name e, name ∈ PROTOCOL_NAMES → count_get (hostsByEngine table ids) n (coreRowKey name e) =
    Z.of_nat (length (filter (λ h, hn_enabled h = true ∧ hn_bindingEnabled h = true ∧ hn_node h = n ∧
                    k_protocol (hn_profile h) = name ∧ effectiveEngineOf (hn_profile h) = e) table))) as Hcount.
  { intros name e Hname. unfold hostsByEngine. rewrite bool_decide_false by (intros ->; by apply not_elem_of_nil in Hn).
    rewrite count_hosts, list_filter_filter. unfold count_get at 1. cbn [jm_get mbind option_bind default from_option id].
    rewrite Z.add_0_l. do 2 f_equal. apply filter_same_in. intros h Hh. unfold key_of. split.
    - intros ([-> Hk] & ? & ? & _). apply key_inj in Hk as [<- <-]; [done|by apply Hfree, Htable|by apply Hfree].
    - intros (? & ? & -> & <- & <-). done. }
  induction (nc_cores cores) as [|c cs IH]; [constructor|]. rewrite fmap_cons. constructor; [|apply IH; intros c' Hc'; apply Hcores; by right].
  destruct (ci_engine c) as [e|] eqn:He; [|done]. split; [done|]. split; [by rewrite <-He|].
  cbn [ci_neededBy set_neededBy]. f_equal. rewrite <-Hcount by (apply Hcores; by left). done.
Qed.

(** ** A leg between two nodes of agents that carry legs through the chain *)
Definition ex_core (name engine : string) : NodeCoreInfo :=
  mkCore name (Some engine) None None None None (Some true) None None.
Definition ex_node (id name : string) (chainEngine : option string) (cores : list NodeCoreInfo) : NodeFacts :=
  mkNode id name (Some (mkCores (Some "amd64") chainEngine cores)) None JNull.
Definition ex_entry := ex_node "n1" "entry" (Some "singbox") [ex_core "xray" "xray"].
Definition ex_exit := ex_node "n2" "exit" (Some "singbox") [ex_core "xray" "xray"].
Definition ex_old := ex_node "n3" "old" None [ex_core "xray" "xray"].
Definition ex_table := [ex_entry; ex_exit; ex_old].
Definition ex_ps := [mkPosition ["n1"] 0 (Some "xray") (Some "vless") None].
Definition ex_ds (cell : option string) (node : string) := [mkResolvedDirection None (Some 1) [node] None None cell None].

Example ex_by_engine : carriesCellAtSave ex_old "vless" = mkCarriage true by_engines ["xray"] ∧
  carriesCellAtSave ex_old "hy2" = mkCarriage false by_engines ["xray"] ∧
  assertNodesCarryCells [ex_old] (Some ex_ps) (Some (ex_ds (Some "hy2") "n3")) =
    Throw (CELL_NOT_CARRIED [mkConflict "old" "hy2" ["xray"] None]).
Proof. split; [|split]; vm_compute; reflexivity. Qed.

Theorem cells_gate_witness :
  assertNodesCarryCells ex_table (Some ex_ps) (Some (ex_ds None "n2")) =
    Throw (CELL_NOT_CARRIED [mkConflict "exit" "vless" ["xray"] (Some "singbox"); mkConflict "entry" "any" ["xray"] (Some "singbox")]) ∧
  ∀ c, c ∈ [mkConflict "exit" "vless" ["xray"] (Some "singbox"); mkConflict "entry" "any" ["xray"] (Some "singbox")] →
    ∃ node, node ∈ ex_table ∧ cc_node c = nd_name node.
Proof.
  assert (assertNodesCarryCells ex_table (Some ex_ps) (Some (ex_ds None "n2")) =
    Throw (CELL_NOT_CARRIED [mkConflict "exit" "vless" ["xray"] (Some "singbox"); mkConflict "entry" "any" ["xray"] (Some "singbox")])) as E
    by (vm_compute; reflexivity).
  split; [exact E|].
  pose proof (cells_gate ex_table ex_ps (ex_ds None "n2")) as H. cbv zeta in H. rewrite E in H. apply H.
  - apply (bool_decide_unpack _). vm_compute. exact I.
  - apply (bool_decide_unpack _). vm_compute. exact I.
Defined.

(** ** A cascade with a hysteria entry, a transit and a tunnel *)
Definition ex_cascade := mkNeed "c1" "west" true [] [(0, Some "hysteria", ["n1"]); (1, None, ["n2"])] [["n3"]] [("n2", "n3")].

Theorem cascade_needs_exact_witness :
  let out := cascadeNeedsByNode str_leb [ex_cascade] ["n1"; "n3"; "n9"] in
  out = [("n1", [("hysteria", [ref_of ex_cascade]); ("singbox", [ref_of ex_cascade])]);
         ("n3", [("singbox", [ref_of ex_cascade]); ("amneziawg", [ref_of ex_cascade])])] ∧
  ("n9" ∉ jm_keys out).
Proof.
  cbv zeta. split; [vm_compute; reflexivity|].
  destruct (cascade_needs_exact str_leb [ex_cascade] ["n1"; "n3"; "n9"]) as (_ & Hkeys & _).
  - apply (bool_decide_unpack _). vm_compute. exact I.
  - apply (bool_decide_unpack _). vm_compute. exact I.
  - cbv zeta in Hkeys. rewrite Hkeys. intros (_ & c & e & ->%list_elem_of_singleton & Hin).
    assert ("n9" ∈ (cascade_needs ex_cascade).*1) as H by by apply (list_elem_of_fmap_2 fst) in Hin.
    revert H. apply (bool_decide_unpack _). vm_compute. exact I.
Defined.

Theorem engines_resolved_witness :
  resolveNodeEngines (mkInput None (Some "tuic") (Some false)) None = Ok (stored_engines []) ∧ in_step (stored_engines []).
Proof.
  assert (resolveNodeEngines (mkInput None (Some "tuic") (Some false)) None = Ok (stored_engines [])) as E by (vm_compute; reflexivity).
  split; [exact E|]. pose proof (engines_resolved (mkInput None (Some "tuic") (Some false)) None) as H. rewrite E in H.
  apply H. intros p Hp. assert (p = "tuic") as -> by (cbn in Hp; congruence). apply (bool_decide_unpack _). vm_compute. exact I.
Defined.
