(* ===== verification/NodePorts.v ===== *)
(** Who holds a port of a node, and how a binding takes one
    (apps/panel-backend/src/modules/nodes: node-ports.ts, node-adapter-slot.ts,
    the subnet gate of node-core-gate.ts; modules/profiles: profiles.service.ts
    [createBinding], [updateBinding], [deleteBinding] and the transport moves of
    [updateProfile], profiles.transport.ts; modules/cascades/cascade.service.ts
    [assertLinkPortsFree]).

    The database is its tables as lists of rows, in the order a query without
    [orderBy] answers them; a join looks the row up by its id.  A save runs to
    its end by itself.  Stamps and events of a save are left out. *)

From S2P Require Import Prelude Js Json Directions LinkCreds CascadeValidation TopologyLinks Subnet Awg3Geometry CoreVersions NodeEngines.

Local Open Scope string_scope.
Local Open Scope list_scope.
Local Open Scope Z_scope.

(** ** The tables *)
Record Profile := mkProfile {
  pf_id : string; pf_name : string; pf_protocol : string; pf_engine : option string;
  pf_awgProtocol : option Z; pf_config : jvalue; pf_enabled : bool }.
Record Binding := mkBinding {
  bi_id : string; bi_profileId : string; bi_nodeId : string; bi_port : Z;
  bi_publicHost : option string; bi_publicPort : option Z; bi_overrides : jvalue;
  bi_transport : Transport; bi_enabled : bool }.
Record NodeRow := mkNodeRow { no_facts : NodeFacts; no_engines : EnginesRow; no_deleted : bool }.
Record LinkRow := mkLinkRow { lk_cascade : string; lk_toNodeId : string; lk_port : Z; lk_config : jvalue }.
Record TunnelRow := mkTunnelRow { tu_cascade : string; tu_toNodeId : string; tu_port : Z }.
Record HopRow := mkHopRow { hr_nodeId : string; hr_position : Z; hr_linkConfig : jvalue }.
Record HopCascade := mkHopCascade { hc_name : string; hc_hops : list HopRow }.
Record HostRow := mkHostRow {
  ho_id : string; ho_binding : string; ho_remark : string; ho_priority : Z; ho_sni : option string; ho_layer : string }.
Record Db := mkDb {
  db_profiles : list Profile;
  db_bindings : list Binding;
  db_nodes : list NodeRow;
  db_links : list LinkRow;
  db_tunnels : list TunnelRow;
  db_hops : list HopCascade;
  db_hosts : list HostRow
}.

Definition profile_by (db : Db) (id : string) : option Profile := js_find (λ p, bool_decide (pf_id p = id)) (db_profiles db).
Definition row_by (db : Db) (id : string) : option NodeRow := js_find (λ n, bool_decide (nd_id (no_facts n) = id)) (db_nodes db).
Definition binding_by (db : Db) (id : string) : option Binding := js_find (λ b, bool_decide (bi_id b = id)) (db_bindings db).

(** ** Who holds what *)
Inductive PortOwner :=
  | ProfileOwner (name : string) (port : Z) (transport : Transport)
  | CascadeOwner (name : string) (port : Z) (transport : Transport)
  | ServiceOwner (ownerKey : string) (port : Z) (transport : Transport).

Definition owner_transport (o : PortOwner) : Transport :=
  match o with ProfileOwner _ _ t | CascadeOwner _ _ t | ServiceOwner _ _ t => t end.

Inductive PortCertainty := full | partial.

Definition certaintyOf (inventory : option NodeCores) : PortCertainty :=
  match inventory with
  | None => partial
  | Some cores =>
      if bool_decide (nc_cores cores = []) then partial
      else if forallb (λ c, bool_decide (is_Some (ci_reservedPorts c))) (nc_cores cores) then full else partial
  end.

(** A cell the table does not have answers TCP. *)
Definition legTransports (config : jvalue) : list Transport :=
  match jfield_str "protocol" config with
  | None => [tcp]
  | Some cell => match LINK_CELL_TRANSPORTS cell with [] => [tcp] | ts => ts end
  end.

(** What a stored credential of a hop claims on [ports]. *)
Definition hop_claims (name : string) (ports : list Z) (cred : jvalue) : list (string * Z * Transport) :=
  match jnum (jfield "port" cred) with
  | Some port => if bool_decide (port ∈ ports) then (λ t, (name, port, t)) <$> legTransports cred else []
  | None => []
  end.

Fixpoint chain_claims (name nodeId : string) (ports : list Z) (hops : list HopRow) : list (string * Z * Transport) :=
  match hops with
  | a :: (b :: _) as rest =>
      (if bool_decide (hr_nodeId b = nodeId) then hop_claims name ports (hr_linkConfig a) else []) ++
      chain_claims name nodeId ports rest
  | _ => []
  end.

Definition exit_claims (name nodeId : string) (ports : list Z) (hops : list HopRow) : list (string * Z * Transport) :=
  tail hops ≫= λ h, if bool_decide (hr_nodeId h = nodeId) then hop_claims name ports (hr_linkConfig h) else [].

Definition in_position_order (hops : list HopRow) : list HopRow := sort_by (λ a b, hr_position a <=? hr_position b) hops.

Definition legacyHopLinkPorts (db : Db) (nodeId : string) (ports : list Z) : list (string * Z * Transport) :=
  if negb (existsb (λ p, LINK_PORT_BASE <=? p) ports) then [] else
  filter (λ c, nodeId ∈ hr_nodeId <$> hc_hops c) (db_hops db) ≫= λ c,
    let hops := in_position_order (hc_hops c) in
    chain_claims (hc_name c) nodeId ports hops ++ exit_claims (hc_name c) nodeId ports hops.

(** The rows of the three queries. *)
Definition binding_claims (db : Db) (nodeId : string) (ports : list Z) (except : option string) : list PortOwner :=
  omap (λ b, (λ p, ProfileOwner (pf_name p) (bi_port b) (bi_transport b)) <$> profile_by db (bi_profileId b))
    (filter (λ b, bi_nodeId b = nodeId ∧ bi_port b ∈ ports ∧ (truthy except = true → Some (bi_id b) ≠ except)) (db_bindings db)).

Definition cascade_claims (db : Db) (nodeId : string) (ports : list Z) : list (string * Z * Transport) :=
  (filter (λ l, lk_toNodeId l = nodeId ∧ lk_port l ∈ ports) (db_links db) ≫= λ l,
     (λ t, (lk_cascade l, lk_port l, t)) <$> legTransports (lk_config l)) ++
  ((λ t, (tu_cascade t, tu_port t, udp)) <$> filter (λ t, tu_toNodeId t = nodeId ∧ tu_port t ∈ ports) (db_tunnels db)) ++
  legacyHopLinkPorts db nodeId ports.

Definition reserved_ports (node : option NodeRow) : list ReservedPort :=
  match node with
  | None => []
  | Some n =>
      (match nd_cores (no_facts n) with Some cs => nc_cores cs ≫= λ c, default [] (ci_reservedPorts c) | None => [] end) ++
      match nd_chainStatus (no_facts n) with Some ch => ch_reservedPorts ch | None => [] end
  end.

Definition portClaimsOnNode (db : Db) (nodeId : string) (ports : list Z) (except : option string) : list PortOwner * PortCertainty :=
  if bool_decide (ports = []) then ([], full) else
  let wanted := js_uniq ports in
  let node := row_by db nodeId in
  (binding_claims db nodeId wanted except ++
   ((λ '(name, port, t), CascadeOwner name port t) <$> js_uniq (cascade_claims db nodeId wanted)) ++
   ((λ rp, ServiceOwner (rp_owner rp) (rp_port rp) (rp_transport rp)) <$>
      filter (λ rp, rp_port rp ∈ wanted) (reserved_ports node)),
   certaintyOf (node ≫= λ n, nd_cores (no_facts n))).

Definition portOwnersOnNode (db : Db) (nodeId : string) (ports : list Z) (except : option string) : list PortOwner :=
  (portClaimsOnNode db nodeId ports except).1.

(** ** A cascade save asks about its legs *)
Definition cred_port (c : LinkCred) : Z := port c.
Definition receivingLinkPorts (hops : list string) (creds : list (option LinkCred)) : list (string * Z * Transport) :=
  zip (tail hops) creds ≫= λ hc,
    match hc.2 with
    | Some c => (λ t, (hc.1, cred_port c, t)) <$> LINK_CELL_TRANSPORTS (protocol c)
    | None => []
    end.

Record PortConflict := mkPortConflict { pc_nodeName : string; pc_port : Z; pc_transport : Transport; pc_profileName : string }.

(** The ports wanted on a node over a transport: [byNode]. *)
Definition ports_wanted (wanted : list (string * Z * Transport)) (node : string) (t : Transport) : list Z :=
  js_uniq ((λ w, w.1.2) <$> filter (λ w, w.1.1 = node ∧ w.2 = t) wanted).
Definition transports_wanted (wanted : list (string * Z * Transport)) (node : string) : list Transport :=
  js_uniq (snd <$> filter (λ w, w.1.1 = node) wanted).

Definition conflicts_on (db : Db) (wanted : list (string * Z * Transport)) (node : string) (t : Transport) : list PortConflict :=
  omap (λ o, match o with
             | ProfileOwner name port t' =>
                 if bool_decide (t' = t)
                 then Some (mkPortConflict (match row_by db node with Some n => nd_name (no_facts n) | None => node end) port t name)
                 else None
             | _ => None
             end) (portOwnersOnNode db node (ports_wanted wanted node t) None).

Definition assertLinkPortsFree (db : Db) (fromHops : list (string * Z * Transport))
    (positions : option (list CascadePositionInput)) (directions : option (list ResolvedDirection))
    : result (list PortConflict) unit :=
  let wanted := fromHops ++ match positions, directions with
                            | Some ps, Some ds => topologyReceivingPorts ps ds
                            | _, _ => []
                            end in
  if bool_decide (wanted = []) then Ok tt else
  let conflicts := js_uniq (fst <$> (fst <$> wanted)) ≫= λ node,
                     transports_wanted wanted node ≫= λ t, conflicts_on db wanted node t in
  throw_if (negb (bool_decide (conflicts = []))) conflicts.

(** ** Sockets and engines of a profile *)
Definition PROTOCOL_TRANSPORT (p : string) : Transport :=
  if bool_decide (p ∈ ["hysteria"; "tuic"; "amneziawg"]) then udp else tcp.

Definition merged_field (k : string) (config overrides : jvalue) : option jvalue :=
  match jfield k overrides with Some v => Some v | None => jfield k config end.

Definition transportForBinding (protocol : string) (config overrides : jvalue) : Transport :=
  if bool_decide (protocol = "xray") && bool_decide (jstr (merged_field "network" config overrides) = Some "kcp") then udp
  else PROTOCOL_TRANSPORT protocol.

Inductive SingboxXrayField := security_field | realityMode_field | network_field | realityServerNames_field.

(** [v !== undefined && v !== null && v !== '' && v !== name]. *)
Definition set_other (v : option jvalue) (name : string) : bool :=
  match v with
  | None | Some JNull => false
  | Some (JStr s) => negb (bool_decide (s = "")) && negb (bool_decide (s = name))
  | Some _ => true
  end.

(** The field of a merged config sing-box refuses. *)
Definition singboxRefusesXrayField (protocol : string) (engine : option string) (field : string → option jvalue)
    : option SingboxXrayField :=
  if negb (bool_decide (protocol = "xray" ∧ engine = Some "singbox")) then None
  else if bool_decide (jstr (field "subprotocol") ∈ [Some "socks"; Some "http"]) then None
  else if set_other (field "security") "reality" then Some security_field
  else if bool_decide (jstr (field "realityMode") = Some "self-steal") then Some realityMode_field
  else if set_other (field "network") "raw" then Some network_field
  else match field "realityServerNames" with
       | Some (JArr (_ :: _ :: _)) => Some realityServerNames_field
       | _ => None
       end.

Definition adapterSlot (k : ProfileKind) : string :=
  if bool_decide (k_protocol k = "amneziawg")
  then "amneziawg|" +:+ (if bool_decide (k_awgProtocol k = Some 3) then "3" else "1")
  else k_protocol k +:+ "|" +:+ effectiveEngineOf k.

Definition MULTI_INBOUND_ADAPTERS : list string :=
  ["xray|xray"; "mieru|mieru"; "xray|singbox"; "tuic|singbox"; "anytls|singbox"; "hysteria|singbox";
   "shadowsocks|singbox"; "shadowtls|singbox"].

Definition kind_of (p : Profile) : ProfileKind := mkKind (pf_protocol p) (pf_engine p) (pf_awgProtocol p).

Definition MIERU_DEFAULT_MTU : Z := 1400.
Definition mieruMtu (config overrides : jvalue) : Z := default MIERU_DEFAULT_MTU (jnum (merged_field "mtu" config overrides)).

(** ** Subnets of the two AmneziaWG interfaces *)
(** [Number] of a run of digits; 2^1024 stands for the infinity. *)
Definition digits_value (s : string) : option Z := segment s.

Definition v4Range (cidr : string) : option (Z * Z) :=
  match js_split "/" (js_trim cidr) with
  | [ip; bits] =>
      match digits_value <$> js_split "." ip, digits_value bits with
      | [Some a; Some b; Some c; Some d], Some bits =>
          if 32 <? bits then None else
          let ip := fl_add (fl_add (fl_add (js_ushr (js_shl a 24) 0) (js_shl b 16)) (js_shl c 8)) d in
          let size := 2 ^ (32 - bits) in
          let start := ip / size * size in
          Some (start, fl_add start (size - 1))
      | _, _ => None
      end
  | _ => None
  end.

Definition subnetsOverlap (a b : string) : bool :=
  match v4Range a, v4Range b with
  | Some x, Some y => (x.1 <=? y.2) && (y.1 <=? x.2)
  | _, _ => false
  end.

Definition AWG_DEFAULT_SUBNET : string := "10.66.66.0/24".
Definition subnet_of (config : jvalue) : string := default AWG_DEFAULT_SUBNET (jfield_str "subnet" config).

(** ** The gates of a binding *)
Inductive bind_error :=
  | PROFILE_NOT_FOUND (id : string) | NODE_NOT_FOUND (id : string) | BINDING_NOT_FOUND (id : string)
  | PORT_IN_USE (port : Z) (node profile : string) (t : Transport)
  | PORT_HELD_BY_CASCADE (port : Z) (node cascade : string)
  | PORT_HELD_BY_CORE_SERVICE (port : Z) (node ownerKey : string) (t : Transport) (conflicts : list PortOwner)
  | CORE_GATE (e : gate_error)
  | PROFILE_DOES_NOT_RUN (node wanted : string) (engines : list string) (canWait : bool)
  | ENGINE_NOT_FOR_TRANSPORT (f : SingboxXrayField) (inOverrides : bool)
  | MIERU_MTU_MISMATCH (node : string) (mtu wanted : Z) (heldBy : string)
  | ADAPTER_SLOT_TAKEN (node slot heldBy : string)
  | TRANSPORT_MOVE_BLOCKED (t : Transport) (conflicts : list (string * Z * string))
  | UNIQUE_VIOLATION.

Definition lift_gate {A} (r : result gate_error A) : result bind_error A :=
  match r with Ok a => Ok a | Throw e => Throw (CORE_GATE e) end.

Definition assertPortFreeOfOthers (db : Db) (nodeId : string) (port : Z) (t : Transport) (nodeName : option string)
    (except : option string) : result bind_error unit :=
  let owners := filter (λ o, owner_transport o = t) (portOwnersOnNode db nodeId [port] except) in
  let name := match nodeName with
              | Some n => n
              | None => match row_by db nodeId with Some n => nd_name (no_facts n) | None => nodeId end
              end in
  match omap (λ o, match o with CascadeOwner c _ _ => Some c | _ => None end) owners,
        omap (λ o, match o with ServiceOwner k _ _ => Some k | _ => None end) owners with
  | c :: _, _ => Throw (PORT_HELD_BY_CASCADE port name c)
  | [], k :: _ => Throw (PORT_HELD_BY_CORE_SERVICE port name k t owners)
  | [], [] => Ok tt
  end.

Definition assertNodeRendersProfile (node : NodeRow) (k : ProfileKind) : result bind_error unit :=
  let r := renderableAtSave (nd_cores (no_facts node)) (no_engines node) k in
  throw_if (negb (rn_ok r))
    (PROFILE_DOES_NOT_RUN (nd_name (no_facts node)) (rn_wanted r) (rn_engines r) (rn_justEnabled r)).

Definition field_name (f : SingboxXrayField) : string :=
  match f with security_field => "security" | realityMode_field => "realityMode" | network_field => "network"
             | realityServerNames_field => "realityServerNames" end.

Definition assertSingboxServesBinding (k : ProfileKind) (config overrides : jvalue) : result bind_error unit :=
  match singboxRefusesXrayField (k_protocol k) (k_engine k) (λ key, merged_field key config overrides) with
  | None => Ok tt
  | Some f => Throw (ENGINE_NOT_FOR_TRANSPORT f (bool_decide (is_Some (jfield (field_name f) overrides))))
  end.

(** The other generation's profiles on the node, in the order of the bindings. *)
Definition awg_others (db : Db) (nodeId profileId : string) : list Profile :=
  filter (λ p, pf_protocol p = "amneziawg" ∧ pf_id p ≠ profileId)
    (omap (λ b, profile_by db (bi_profileId b)) (filter (λ b, bi_nodeId b = nodeId) (db_bindings db))).

Definition assertAwgSubnetFree (db : Db) (node : NodeFacts) (profileId : string) (k : ProfileKind) (config : jvalue)
    : result bind_error unit :=
  match profileAwgProtocol k with
  | None => Ok tt
  | Some mine =>
      for_each (λ o, if bool_decide (profileAwgProtocol (kind_of o) = Some mine) then Ok tt else
                     throw_if (subnetsOverlap (subnet_of config) (subnet_of (pf_config o)))
                       (CORE_GATE (AWG_SUBNET_OVERLAP (nd_name node) (subnet_of config) (pf_name o) (subnet_of (pf_config o)))))
        (awg_others db (nd_id node) profileId)
  end.

(** The adapter of a binding's profile, and who a slot is held by. *)
Definition first_remark (db : Db) (binding : string) : option string :=
  ho_remark <$> head (sort_by (λ a b, ho_priority a <=? ho_priority b) (filter (λ h, ho_binding h = binding) (db_hosts db))).

Definition others_on (db : Db) (nodeId : string) (except : option string) : list (Binding * Profile) :=
  omap (λ b, pair b <$> profile_by db (bi_profileId b))
    (filter (λ b, bi_nodeId b = nodeId ∧ (truthy except = true → Some (bi_id b) ≠ except)) (db_bindings db)).

Definition assertAdapterSlotFree (db : Db) (node : NodeFacts) (profileId : string) (k : ProfileKind) (config overrides : jvalue)
    (except : option string) : result bind_error unit :=
  let slot := adapterSlot k in
  let own (bp : Binding * Profile) := bool_decide (bi_profileId bp.1 = profileId) in
  match js_find (λ bp, own bp || bool_decide (adapterSlot (kind_of bp.2) = slot)) (others_on db (nd_id node) except) with
  | None => Ok tt
  | Some held =>
      let heldBy := default (pf_name held.2) (first_remark db (bi_id held.1)) in
      if bool_decide (slot ∈ MULTI_INBOUND_ADAPTERS) then
        if bool_decide (slot = "mieru|mieru") then
          let mtu := mieruMtu (if own held then config else pf_config held.2) (bi_overrides held.1) in
          let wanted := mieruMtu config overrides in
          throw_if (negb (mtu =? wanted)) (MIERU_MTU_MISMATCH (nd_name node) mtu wanted heldBy)
        else Ok tt
      else Throw (ADAPTER_SLOT_TAKEN (nd_name node) slot heldBy)
  end.

(** A-195: the adapters of a node that hold two pushed bindings or more, with
    the one the node serves, the last by port. *)
Record SlotConflict := mkSlotConflict { sc_slot : string; sc_bindings : list (string * string * Z); sc_served : option string }.

Definition pushed_on (db : Db) (nodeId : string) : list (Binding * Profile) :=
  sort_by (λ a b, bi_port a.1 <=? bi_port b.1)
    (filter (λ bp, bi_enabled bp.1 = true ∧ pf_enabled bp.2 = true) (others_on db nodeId None)).

Definition by_slot (rows : list (Binding * Profile)) : list (string * list (Binding * Profile)) :=
  foldl (λ m r, let slot := adapterSlot (kind_of r.2) in
                if bool_decide (slot ∈ MULTI_INBOUND_ADAPTERS) then m
                else jm_set slot (default [] (jm_get slot m) ++ [r]) m) [] rows.

Definition adapterSlotConflicts (db : Db) (nodeId : string) : list SlotConflict :=
  (λ sh, mkSlotConflict sh.1 ((λ bp, (bi_id bp.1, pf_name bp.2, bi_port bp.1)) <$> sh.2) ((λ bp, bi_id bp.1) <$> last sh.2)) <$>
  filter (λ sh, (2 ≤ length sh.2)%nat) (by_slot (pushed_on db nodeId)).

Definition assertBindingFitsNode (db : Db) (node : NodeRow) (p : Profile) (overrides : jvalue) : result bind_error unit :=
  _ ← lift_gate (assertCoreOnNode (no_facts node) (kind_of p));
  _ ← assertNodeRendersProfile node (kind_of p);
  _ ← assertSingboxServesBinding (kind_of p) (pf_config p) overrides;
  _ ← assertAwgSubnetFree db (no_facts node) (pf_id p) (kind_of p) (pf_config p);
  assertAdapterSlotFree db (no_facts node) (pf_id p) (kind_of p) (pf_config p) overrides None.

(** ** The saves *)
Definition storedPublicPort (publicPort : option Z) (port : Z) : option Z :=
  match publicPort with Some p => if p =? port then None else Some p | None => None end.

Record CreateBinding := mkCreate {
  cr_profileId : string; cr_nodeId : string; cr_port : Z; cr_publicHost : option string; cr_publicPort : option Z;
  cr_overrides : option jvalue; cr_enabled : bool }.

Definition on_socket (nodeId : string) (port : Z) (t : Transport) (b : Binding) : bool :=
  bool_decide (bi_nodeId b = nodeId ∧ bi_port b = port ∧ bi_transport b = t).

(** The row the unique key [(nodeId, port, transport)] finds. *)
Definition holder_of (db : Db) (nodeId : string) (port : Z) (t : Transport) : option Binding :=
  js_find (on_socket nodeId port t) (db_bindings db).

Definition name_of_profile (db : Db) (b : Binding) : string := match profile_by db (bi_profileId b) with Some p => pf_name p | None => "" end.
Definition name_of_node (db : Db) (b : Binding) : string := match row_by db (bi_nodeId b) with Some n => nd_name (no_facts n) | None => "" end.

Definition set_bindings (bs : list Binding) (db : Db) : Db :=
  mkDb (db_profiles db) bs (db_nodes db) (db_links db) (db_tunnels db) (db_hops db) (db_hosts db).
Definition set_hosts (hs : list HostRow) (db : Db) : Db :=
  mkDb (db_profiles db) (db_bindings db) (db_nodes db) (db_links db) (db_tunnels db) (db_hops db) hs.

Definition ensureDefaultHost (id hostId : string) (db : Db) : Db :=
  if existsb (λ h, bool_decide (ho_binding h = id)) (db_hosts db) then db
  else set_hosts (db_hosts db ++ [mkHostRow hostId id "Default" 0 None "default"]) db.

(** [newId] and [hostId] are the ids the database gives. *)
Definition createBinding (db : Db) (input : CreateBinding) (newId hostId : string) : result bind_error (Binding * Db) :=
  match profile_by db (cr_profileId input) with
  | None => Throw (PROFILE_NOT_FOUND (cr_profileId input))
  | Some p =>
      match js_find (λ n, bool_decide (nd_id (no_facts n) = cr_nodeId input) && negb (no_deleted n)) (db_nodes db) with
      | None => Throw (NODE_NOT_FOUND (cr_nodeId input))
      | Some node =>
          let overrides := default JNull (cr_overrides input) in
          let t := transportForBinding (pf_protocol p) (pf_config p) overrides in
          _ ← match holder_of db (cr_nodeId input) (cr_port input) t with
              | Some held => Throw (PORT_IN_USE (cr_port input) (nd_name (no_facts node)) (name_of_profile db held) t)
              | None => Ok tt
              end;
          _ ← assertPortFreeOfOthers db (cr_nodeId input) (cr_port input) t (Some (nd_name (no_facts node))) None;
          _ ← assertBindingFitsNode db node p overrides;
          let b := mkBinding newId (cr_profileId input) (cr_nodeId input) (cr_port input) (cr_publicHost input)
                     (storedPublicPort (cr_publicPort input) (cr_port input)) overrides t (cr_enabled input) in
          Ok (b, ensureDefaultHost newId hostId (set_bindings (db_bindings db ++ [b]) db))
      end
  end.

(** A field that is absent is no edit. *)
Record UpdateBinding := mkUpdate {
  up_port : option Z; up_publicHost : option (option string); up_publicPort : option (option Z);
  up_overrides : option jvalue; up_enabled : option bool }.

Definition next_binding (existing : Binding) (input : UpdateBinding) (t : Transport) : Binding :=
  let port := default (bi_port existing) (up_port input) in
  mkBinding (bi_id existing) (bi_profileId existing) (bi_nodeId existing) port
    (default (bi_publicHost existing) (up_publicHost input))
    (match up_publicPort input with
     | Some p => storedPublicPort p port
     | None => if negb (port =? bi_port existing) && bool_decide (bi_publicPort existing = Some (bi_port existing)) then None
               else bi_publicPort existing
     end)
    (default (bi_overrides existing) (up_overrides input)) t (default (bi_enabled existing) (up_enabled input)).

Definition updateBinding (db : Db) (id : string) (input : UpdateBinding) : result bind_error (Binding * Db) :=
  match binding_by db id with
  | None => Throw (BINDING_NOT_FOUND id)
  | Some existing =>
      match profile_by db (bi_profileId existing) with
      | None => Throw (PROFILE_NOT_FOUND (bi_profileId existing))
      | Some p =>
          let overrides := default (bi_overrides existing) (up_overrides input) in
          _ ← assertSingboxServesBinding (kind_of p) (pf_config p) overrides;
          _ ← (if bool_decide (pf_protocol p = "mieru") && bool_decide (is_Some (up_overrides input)) then
                 match row_by db (bi_nodeId existing) with
                 | None => Throw (NODE_NOT_FOUND (bi_nodeId existing))
                 | Some node => assertAdapterSlotFree db (no_facts node) (bi_profileId existing) (mkKind (pf_protocol p) (pf_engine p) None)
                                  (pf_config p) overrides (Some (bi_id existing))
                 end
               else Ok tt);
          let t := transportForBinding (pf_protocol p) (pf_config p) overrides in
          let port := default (bi_port existing) (up_port input) in
          _ ← (if negb (port =? bi_port existing) || negb (bool_decide (t = bi_transport existing)) then
                 _ ← match holder_of db (bi_nodeId existing) port t with
                     | Some held => throw_if (negb (bool_decide (bi_id held = id)))
                                      (PORT_IN_USE port (name_of_node db held) (name_of_profile db held) t)
                     | None => Ok tt
                     end;
                 assertPortFreeOfOthers db (bi_nodeId existing) port t None (Some id)
               else Ok tt);
          let b := next_binding existing input t in
          Ok (b, set_bindings ((λ x, if bool_decide (bi_id x = id) then b else x) <$> db_bindings db) db)
      end
  end.

Definition deleteBinding (db : Db) (id : string) : result bind_error Db :=
  match binding_by db id with
  | None => Throw (BINDING_NOT_FOUND id)
  | Some _ => Ok (set_hosts (filter (λ h, ho_binding h ≠ id) (db_hosts db))
                   (set_bindings (filter (λ b, bi_id b ≠ id) (db_bindings db)) db))
  end.

(** ** What an edit of a profile asks of its bindings *)

(** The slot question, asked of every binding of a profile that moves to another
    adapter, or of a mieru profile that is retuned. *)
Definition assertSlotsOfProfile (db : Db) (p : Profile) (next : ProfileKind) (config : jvalue) (configEdited : bool)
    : result bind_error unit :=
  let mieruRetuned := bool_decide (pf_protocol p = "mieru") && configEdited in
  if negb (bool_decide (adapterSlot next = adapterSlot (kind_of p))) || mieruRetuned then
    for_each (λ b, match row_by db (bi_nodeId b) with
                   | Some node => if no_deleted node then Ok tt
                                  else assertAdapterSlotFree db (no_facts node) (pf_id p) next config (bi_overrides b) (Some (bi_id b))
                   | None => Ok tt
                   end) (filter (λ b, bi_profileId b = pf_id p) (db_bindings db))
  else Ok tt.

(** The bindings a new config moves onto another socket. *)
Definition transport_moves (db : Db) (p : Profile) (config : jvalue) : list (Binding * Transport) :=
  filter (λ m, m.2 ≠ bi_transport m.1)
    ((λ b, (b, transportForBinding (pf_protocol p) config (bi_overrides b))) <$>
     filter (λ b, bi_profileId b = pf_id p) (db_bindings db)).

Definition moved_onto (moves : list (Binding * Transport)) (b : Binding) : bool :=
  existsb (λ m, on_socket (bi_nodeId m.1) (bi_port m.1) m.2 b) moves.

Definition set_transport (id : string) (t : Transport) (b : Binding) : Binding :=
  if bool_decide (bi_id b = id)
  then mkBinding (bi_id b) (bi_profileId b) (bi_nodeId b) (bi_port b) (bi_publicHost b) (bi_publicPort b) (bi_overrides b) t (bi_enabled b)
  else b.

(** One update of the transaction: the unique key refuses it when another row
    holds the socket. *)
Definition write_move (db : Db) (m : Binding * Transport) : result bind_error Db :=
  match js_find (λ b, on_socket (bi_nodeId m.1) (bi_port m.1) m.2 b && negb (bool_decide (bi_id b = bi_id m.1))) (db_bindings db) with
  | Some _ => Throw UNIQUE_VIOLATION
  | None => Ok (set_bindings (set_transport (bi_id m.1) m.2 <$> db_bindings db) db)
  end.

Definition set_config (id : string) (config : jvalue) (db : Db) : Db :=
  mkDb ((λ p, if bool_decide (pf_id p = id)
              then mkProfile (pf_id p) (pf_name p) (pf_protocol p) (pf_engine p) (pf_awgProtocol p) config (pf_enabled p) else p)
          <$> db_profiles db)
    (db_bindings db) (db_nodes db) (db_links db) (db_tunnels db) (db_hops db) (db_hosts db).

Definition writeConfig (db : Db) (p : Profile) (config : jvalue) : result bind_error Db :=
  let moves := transport_moves db p config in
  let taken := filter (λ b, bi_profileId b ≠ pf_id p ∧ moved_onto moves b = true) (db_bindings db) in
  _ ← match taken with
      | [] => Ok tt
      | b :: _ => Throw (TRANSPORT_MOVE_BLOCKED (bi_transport b) ((λ t, (name_of_node db t, bi_port t, name_of_profile db t)) <$> taken))
      end;
  db' ← fold_res write_move db moves;
  Ok (set_config (pf_id p) config db').

(** ** What the answer holds *)

(** Who listens on a port by a cascade's rows. *)
Definition hop_claim (cred : jvalue) (port : Z) (t : Transport) : Prop :=
  jnum (jfield "port" cred) = Some port ∧ t ∈ legTransports cred.

(** The hop the code pairs with a credential: the one after its holder, or its
    holder itself when that is not the first. *)
Definition hop_listens (hops : list HopRow) (nodeId : string) (port : Z) (t : Transport) : Prop :=
  ∃ i receiver cred, hops !! S i = Some receiver ∧ hr_nodeId receiver = nodeId ∧ hop_claim cred port t ∧
    (cred = hr_linkConfig receiver ∨ ∃ sender, hops !! i = Some sender ∧ cred = hr_linkConfig sender).

(** Hop credentials are read only when some port asked about is a leg's. *)
Definition cascade_holds (db : Db) (ports : list Z) (nodeId : string) (port : Z) (name : string) (t : Transport) : Prop :=
  (∃ l, l ∈ db_links db ∧ lk_toNodeId l = nodeId ∧ lk_port l = port ∧ lk_cascade l = name ∧ t ∈ legTransports (lk_config l)) ∨
  (∃ u, u ∈ db_tunnels db ∧ tu_toNodeId u = nodeId ∧ tu_port u = port ∧ tu_cascade u = name ∧ t = udp) ∨
  ((∃ p, p ∈ ports ∧ LINK_PORT_BASE <= p) ∧
   ∃ c, c ∈ db_hops db ∧ hc_name c = name ∧ hop_listens (in_position_order (hc_hops c)) nodeId port t).

Lemma elem_of_hop_claims name ports cred n port t :
  (n, port, t) ∈ hop_claims name ports cred ↔ n = name ∧ port ∈ ports ∧ hop_claim cred port t.
Proof.
  unfold hop_claims, hop_claim. destruct (jnum _) as [p|]; [|split; [by intros ?%not_elem_of_nil|naive_solver]].
  case_bool_decide as Hp.
  - rewrite list_elem_of_fmap. split; [intros (t' & E & Ht); injection E as -> -> ->; done|].
    intros (-> & Hin & E & Ht). apply (inj Some) in E as ->. eauto.
  - split; [by intros ?%not_elem_of_nil|]. intros (_ & Hin & E & _). apply (inj Some) in E as ->. done.
Qed.

Lemma elem_of_chain_claims name nodeId ports hops x : x ∈ chain_claims name nodeId ports hops ↔
  ∃ i a b, hops !! i = Some a ∧ hops !! S i = Some b ∧ hr_nodeId b = nodeId ∧ x ∈ hop_claims name ports (hr_linkConfig a).
Proof.
  induction hops as [|a [|b hops] IH].
  - split; [by intros ?%not_elem_of_nil|]. by intros ([|i] & ? & ? & ? & _).
  - split; [by intros ?%not_elem_of_nil|]. intros (i & ? & ? & _ & H & _). by destruct i.
  - change (chain_claims name nodeId ports (a :: b :: hops)) with
      ((if bool_decide (hr_nodeId b = nodeId) then hop_claims name ports (hr_linkConfig a) else []) ++ chain_claims name nodeId ports (b :: hops)).
    rewrite elem_of_app, IH. split.
    + intros [H|(i & a' & b' & H1 & H2 & H3)].
      * case_bool_decide; [|by apply not_elem_of_nil in H]. by exists 0%nat, a, b.
      * by exists (S i), a', b'.
    + intros ([|i] & a' & b' & H1 & H2 & H3 & H4).
      * left. cbn in H1, H2. assert (a' = a) as -> by congruence. assert (b' = b) as -> by congruence. by rewrite bool_decide_true.
      * right. by exists i, a', b'.
Qed.

Lemma elem_of_exit_claims name nodeId ports hops x : x ∈ exit_claims name nodeId ports hops ↔
  ∃ i b, hops !! S i = Some b ∧ hr_nodeId b = nodeId ∧ x ∈ hop_claims name ports (hr_linkConfig b).
Proof.
  unfold exit_claims. rewrite list_elem_of_bind. split.
  - intros (h & Hx & Hh). apply list_elem_of_lookup in Hh as [i Hi]. rewrite lookup_tail in Hi. exists i, h.
    case_bool_decide; [done|by apply not_elem_of_nil in Hx].
  - intros (i & b & Hi & Hn & Hx). exists b. rewrite bool_decide_true by done. split; [done|].
    apply list_elem_of_lookup. exists i. by rewrite lookup_tail.
Qed.

Lemma elem_of_legacy db nodeId ports name port t : (name, port, t) ∈ legacyHopLinkPorts db nodeId ports ↔
  port ∈ ports ∧ (∃ p, p ∈ ports ∧ LINK_PORT_BASE <= p) ∧
  ∃ c, c ∈ db_hops db ∧ hc_name c = name ∧ hop_listens (in_position_order (hc_hops c)) nodeId port t.
Proof.
  unfold legacyHopLinkPorts. destruct (existsb _ ports) eqn:Hb; cbn [negb].
  2:{ split; [by intros ?%not_elem_of_nil|]. intros (_ & (p & Hp & Hge) & _).
      assert (existsb (λ p, LINK_PORT_BASE <=? p) ports = true); [|congruence]. apply existsb_exists.
      exists p. split; [by apply list_elem_of_In|lia]. }
  apply existsb_exists in Hb as (p & Hp%list_elem_of_In & Hge). rewrite list_elem_of_bind.
  setoid_rewrite list_elem_of_filter. cbv zeta. setoid_rewrite elem_of_app. setoid_rewrite elem_of_chain_claims. setoid_rewrite elem_of_exit_claims.
  setoid_rewrite elem_of_hop_claims. unfold hop_listens. split.
  - intros (c & Hor & Hin & Hc).
    assert (port ∈ ports) by naive_solver. split; [done|]. split; [exists p; split; [done|lia]|]. exists c.
    destruct Hor as [(i & a & b & Ha & Hb & Hn & -> & _ & Hcl)|(i & b & Hb & Hn & -> & _ & Hcl)]; split_and!; try done.
    + exists i, b, (hr_linkConfig a). split_and!; try done. right. eauto.
    + exists i, b, (hr_linkConfig b). split_and!; try done. by left.
  - intros (Hport & _ & c & Hc & <- & i & b & cred & Hb & Hn & Hcl & Hor). exists c. split; [|split; [|done]].
    + destruct Hor as [->|(a & Ha & ->)]; [right; by exists i, b|left; by exists i, a, b].
    + apply list_elem_of_fmap. exists b. split; [done|]. apply list_elem_of_lookup_2 in Hb.
      unfold in_position_order in Hb. by apply elem_of_sort_by in Hb.
Qed.

Lemma elem_of_cascade_claims db nodeId ports name port t :
  (name, port, t) ∈ cascade_claims db nodeId ports ↔ port ∈ ports ∧ cascade_holds db ports nodeId port name t.
Proof.
  unfold cascade_claims, cascade_holds. rewrite !elem_of_app, elem_of_legacy, list_elem_of_bind, list_elem_of_fmap.
  setoid_rewrite list_elem_of_filter. setoid_rewrite list_elem_of_fmap. split.
  - intros [(l & (t' & E & Ht) & (Hto & Hp) & Hl)|[(u & E & (Hto & Hp) & Hu)|(Hp & Hge & Hc)]].
    + injection E as -> -> ->. split; [done|]. left. by exists l.
    + injection E as -> -> ->. split; [done|]. right; left. by exists u.
    + split; [done|]. by right; right.
  - intros (Hp & [(l & Hl & Hto & <- & <- & Ht)|[(u & Hu & Hto & <- & <- & ->)|[Hge Hc]]]).
    + left. exists l. split; [by exists t|done].
    + right; left. exists u. done.
    + by right; right.
Qed.

Lemma binding_claims_kind db nodeId ports except o : o ∈ binding_claims db nodeId ports except → ∃ n q t, o = ProfileOwner n q t.
Proof.
  unfold binding_claims. intros (b & _ & E)%list_elem_of_omap. destruct (profile_by _ _); [|done]. injection E as <-. eauto.
Qed.

Lemma profile_claims db nodeId ports except name port t : ProfileOwner name port t ∈ (portClaimsOnNode db nodeId ports except).1 ↔
  port ∈ ports ∧ ∃ b p, b ∈ db_bindings db ∧ bi_nodeId b = nodeId ∧ bi_port b = port ∧ bi_transport b = t ∧
     (truthy except = true → Some (bi_id b) ≠ except) ∧ profile_by db (bi_profileId b) = Some p ∧ pf_name p = name.
Proof.
  unfold portClaimsOnNode. case_bool_decide as Hp.
  { rewrite Hp. split; [by intros ?%not_elem_of_nil|by intros [?%not_elem_of_nil _]]. }
  cbn [fst]. rewrite !elem_of_app. split.
  - intros [H|[H|H]].
    + unfold binding_claims in H. apply list_elem_of_omap in H as (b & (Hf & Hb)%list_elem_of_filter & E).
      destruct Hf as (Hn & Hport & Hex). rewrite elem_of_js_uniq in Hport. destruct (profile_by db (bi_profileId b)) as [p|] eqn:Ep; [|done].
      cbn in E. injection E as <- <- <-. split; [done|]. exists b, p. done.
    + by apply list_elem_of_fmap in H as ([[??]?] & E & _).
    + by apply list_elem_of_fmap in H as (? & E & _).
  - intros (Hport & b & p & Hb & Hn & <- & <- & Hex & Hpr & <-). left. unfold binding_claims. apply list_elem_of_omap.
    exists b. rewrite Hpr. split; [|done]. apply list_elem_of_filter. by rewrite elem_of_js_uniq.
Qed.

Lemma port_claims db nodeId ports except name port t :
  CascadeOwner name port t ∈ (portClaimsOnNode db nodeId ports except).1 ↔ port ∈ ports ∧ cascade_holds db ports nodeId port name t.
Proof.
  unfold portClaimsOnNode. case_bool_decide as Hp.
  { rewrite Hp. split; [by intros ?%not_elem_of_nil|by intros [?%not_elem_of_nil _]]. }
  cbn [fst]. rewrite !elem_of_app.
  assert ((∃ p, p ∈ js_uniq ports ∧ LINK_PORT_BASE <= p) ↔ ∃ p, p ∈ ports ∧ LINK_PORT_BASE <= p) as Hge by (setoid_rewrite elem_of_js_uniq; done).
  assert ((name, port, t) ∈ js_uniq (cascade_claims db nodeId (js_uniq ports)) ↔ port ∈ ports ∧ cascade_holds db ports nodeId port name t) as <-.
  { rewrite elem_of_js_uniq, elem_of_cascade_claims, elem_of_js_uniq. unfold cascade_holds. by rewrite Hge. }
  split.
  - intros [H|[H|H]].
    + by apply binding_claims_kind in H as (? & ? & ? & ?).
    + apply list_elem_of_fmap in H as ([[n q] t'] & E & Hin). by injection E as -> -> ->.
    + by apply list_elem_of_fmap in H as (? & E & _).
  - intros H. right; left. by apply (list_elem_of_fmap_2 (λ '(name, port, t), CascadeOwner name port t)) in H.
Qed.

Lemma service_claims db nodeId ports except key port t : ServiceOwner key port t ∈ (portClaimsOnNode db nodeId ports except).1 ↔
  port ∈ ports ∧ mkReserved key port t ∈ reserved_ports (row_by db nodeId).
Proof.
  unfold portClaimsOnNode. case_bool_decide as Hp.
  { rewrite Hp. split; [by intros ?%not_elem_of_nil|by intros [?%not_elem_of_nil _]]. }
  cbn [fst]. rewrite !elem_of_app. split.
  - intros [H|[H|H]].
    + by apply binding_claims_kind in H as (? & ? & ? & ?).
    + by apply list_elem_of_fmap in H as ([[??]?] & E & _).
    + apply list_elem_of_fmap in H as ([k q t'] & E & [Hq Hin]%list_elem_of_filter). cbn in E. injection E as -> -> ->.
      cbn in Hq. by rewrite elem_of_js_uniq in Hq.
  - intros (Hport & H). right; right. apply list_elem_of_fmap. exists (mkReserved key port t). split; [done|].
    apply list_elem_of_filter. by rewrite elem_of_js_uniq.
Qed.

Definition is_cascade (o : PortOwner) : bool := match o with CascadeOwner _ _ _ => true | _ => false end.

(** The answer to who holds a port names every claim and makes none up: the
    bindings on those ports but the one being edited, each cascade's legs,
    tunnels and hop credentials once per socket, and the services the node
    reported; and it calls itself complete only when every core of the node has
    spoken about its ports. *)
Theorem port_claims_exact db nodeId ports except :
  let '(owners, certainty) := portClaimsOnNode db nodeId ports except in
  (∀ name port t, ProfileOwner name port t ∈ owners ↔ port ∈ ports ∧ ∃ b p, b ∈ db_bindings db ∧ bi_nodeId b = nodeId ∧
     bi_port b = port ∧ bi_transport b = t ∧ (truthy except = true → Some (bi_id b) ≠ except) ∧
     profile_by db (bi_profileId b) = Some p ∧ pf_name p = name) ∧
  (∀ name port t, CascadeOwner name port t ∈ owners ↔ port ∈ ports ∧ cascade_holds db ports nodeId port name t) ∧
  (∀ key port t, ServiceOwner key port t ∈ owners ↔ port ∈ ports ∧ mkReserved key port t ∈ reserved_ports (row_by db nodeId)) ∧
  NoDup (filter (λ o, is_cascade o = true) owners) ∧
  (ports ≠ [] → certainty = full ↔
     ∃ n cs, row_by db nodeId = Some n ∧ nd_cores (no_facts n) = Some cs ∧ nc_cores cs ≠ [] ∧
       ∀ c, c ∈ nc_cores cs → is_Some (ci_reservedPorts c)).
Proof.
  pose proof (λ n p t, profile_claims db nodeId ports except n p t) as H1.
  pose proof (λ n p t, port_claims db nodeId ports except n p t) as H2.
  pose proof (λ k p t, service_claims db nodeId ports except k p t) as H3.
  destruct (portClaimsOnNode db nodeId ports except) as [owners certainty] eqn:E. cbn [fst] in H1, H2, H3.
  split; [done|]. split; [done|]. split; [done|]. revert E. unfold portClaimsOnNode. case_bool_decide as Hp.
  { intros E. injection E as <- <-. split; [apply NoDup_nil_2|done]. }
  cbv zeta. intros E. injection E as <- <-. split.
  - rewrite !filter_app. rewrite (filter_none _ (binding_claims _ _ _ _)).
    2:{ by intros o (? & ? & ? & ->)%binding_claims_kind. }
    rewrite (filter_none _ (_ <$> filter _ _)).
    2:{ by intros o (? & -> & _)%list_elem_of_fmap. }
    rewrite app_nil_r, app_nil_l. apply NoDup_filter. apply NoDup_fmap_2; [|apply NoDup_js_uniq].
    intros [[??]?] [[??]?] E. by injection E as -> -> ->.
  - intros _. unfold certaintyOf. destruct (row_by db nodeId) as [n|]; cbn [mbind option_bind]; [|naive_solver].
    destruct (nd_cores (no_facts n)) as [inv|] eqn:En; [|naive_solver].
    case_bool_decide as Hc; [split; [done|]; intros (n' & inv' & E & E' & Hne & _); congruence|].
    destruct (forallb _ _) eqn:Hf.
    + split; [|done]. intros _. exists n, inv. rewrite forallb_forall in Hf. split_and!; [done..|].
      intros c Hin. specialize (Hf c (proj1 (list_elem_of_In _ _) Hin)). by apply bool_decide_eq_true in Hf.
    + split; [done|]. intros (n' & inv' & E & E' & _ & Hall). exfalso.
      assert (n' = n) as -> by congruence. assert (inv' = inv) as -> by congruence.
      assert (forallb (λ c, bool_decide (is_Some (ci_reservedPorts c))) (nc_cores inv) = true); [|congruence].
      apply forallb_forall. intros c Hin%list_elem_of_In. apply bool_decide_true. by apply Hall.
Qed.

(** ** One listener per socket *)
Definition socket_of (b : Binding) : string * Z * Transport := (bi_nodeId b, bi_port b, bi_transport b).

(** The hop that does listen by a credential: in a chain, whose first hop holds
    one, the hop after the one that holds it; in a balancer its holder. *)
Definition holds_cred (h : HopRow) : Prop := is_Some (jnum (jfield "port" (hr_linkConfig h))).

Definition hop_receives (hops : list HopRow) (nodeId : string) (port : Z) (t : Transport) : Prop :=
  ∃ first i sender receiver, hops !! 0%nat = Some first ∧ hops !! i = Some sender ∧ hops !! S i = Some receiver ∧
    hr_nodeId receiver = nodeId ∧
    (holds_cred first ∧ hop_claim (hr_linkConfig sender) port t ∨ ¬ holds_cred first ∧ hop_claim (hr_linkConfig receiver) port t).

(** The sockets a cascade's receiving ends listen on. *)
Definition cascade_listens (db : Db) (nodeId : string) (port : Z) (t : Transport) : Prop :=
  (∃ l, l ∈ db_links db ∧ lk_toNodeId l = nodeId ∧ lk_port l = port ∧ t ∈ legTransports (lk_config l)) ∨
  (∃ u, u ∈ db_tunnels db ∧ tu_toNodeId u = nodeId ∧ tu_port u = port ∧ t = udp) ∨
  (∃ c, c ∈ db_hops db ∧ hop_receives (in_position_order (hc_hops c)) nodeId port t).

(** Hop credentials sit on the ports the panel gives legs. *)
Definition hop_ports_ok (db : Db) : Prop := ∀ c h p, c ∈ db_hops db → h ∈ hc_hops c →
  jnum (jfield "port" (hr_linkConfig h)) = Some p → LINK_PORT_BASE <= p.

(** No two bindings share a socket, and none shares one with a listener of a
    cascade; rows point at rows that exist. *)
Record sockets_ok (db : Db) : Prop := {
  so_ids : NoDup (bi_id <$> db_bindings db);
  so_apart : NoDup (socket_of <$> db_bindings db);
  so_profiles b : b ∈ db_bindings db → is_Some (profile_by db (bi_profileId b));
  so_hops : hop_ports_ok db;
  so_free b : b ∈ db_bindings db → ¬ cascade_listens db (bi_nodeId b) (bi_port b) (bi_transport b)
}.

(** Whoever listens is among those the panel says hold the port. *)
Lemma listens_held db n p t : hop_ports_ok db → cascade_listens db n p t → ∃ c, cascade_holds db [p] n p c t.
Proof.
  intros Hops [(l & ? & ? & ? & ?)|[(u & ? & ? & ? & ?)|(c & Hc & first & i & a & b & _ & Ha & Hb & Hn & Hcl)]].
  - exists (lk_cascade l). left. by exists l.
  - exists (tu_cascade u). right; left. by exists u.
  - assert (∀ j h, in_position_order (hc_hops c) !! j = Some h → h ∈ hc_hops c) as Hin.
    { intros j h Hj%list_elem_of_lookup_2. unfold in_position_order in Hj. by apply elem_of_sort_by in Hj. }
    exists (hc_name c). right; right.
    assert (∀ h, h ∈ hc_hops c → hop_claim (hr_linkConfig h) p t → ∃ q, q ∈ [p] ∧ LINK_PORT_BASE <= q) as Hbase.
    { intros h Hh [Hq _]. exists p. split; [by left|]. by apply (Hops c h). }
    destruct Hcl as [[_ Hcl]|[_ Hcl]].
    + split; [by apply (Hbase a); [apply (Hin i)|]|]. exists c. split; [done|]. split; [done|]. exists i, b, (hr_linkConfig a).
      split_and!; [done..|]. right. by exists a.
    + split; [by apply (Hbase b); [apply (Hin (S i))|]|]. exists c. split; [done|]. split; [done|]. exists i, b, (hr_linkConfig b).
      split_and!; [done..|]. by left.
Qed.

Lemma on_socket_true n p t b : on_socket n p t b = true ↔ socket_of b = (n, p, t).
Proof. unfold on_socket, socket_of. rewrite bool_decide_eq_true. split; [by intros (-> & -> & ->)|]. intros E. by injection E as -> -> ->. Qed.

Lemma holder_None db n p t : holder_of db n p t = None ↔ (n, p, t) ∉ socket_of <$> db_bindings db.
Proof.
  unfold holder_of. rewrite js_find_None. split.
  - intros H (b & E & Hb)%list_elem_of_fmap. specialize (H b Hb). apply not_true_iff_false in H. apply H. by apply on_socket_true.
  - intros H b Hb. apply not_true_iff_false. rewrite on_socket_true. intros E. apply H. rewrite <-E. by apply list_elem_of_fmap_2.
Qed.

Lemma free_of_others db n p t name except : hop_ports_ok db →
  assertPortFreeOfOthers db n p t name except = Ok tt → ¬ cascade_listens db n p t.
Proof.
  intros Hops H Hl. destruct (listens_held _ _ _ _ Hops Hl) as [c Hc]. revert H. unfold assertPortFreeOfOthers. cbv zeta. intros H.
  assert (CascadeOwner c p t ∈ portOwnersOnNode db n [p] except) as Ho.
  { pose proof (port_claims db n [p] except) as Hx. unfold portOwnersOnNode. apply Hx. split; [by left|done]. }
  destruct (omap _ (filter _ _)) as [|c' cs] eqn:E; [|done].
  assert (c ∈ omap (λ o, match o with CascadeOwner c _ _ => Some c | _ => None end)
            (filter (λ o, owner_transport o = t) (portOwnersOnNode db n [p] except))) as Hin.
  { apply list_elem_of_omap. exists (CascadeOwner c p t). split; [|done]. by apply list_elem_of_filter. }
  rewrite E in Hin. by apply not_elem_of_nil in Hin.
Qed.

(** A binding added or changed in a table keeps the rest. *)
Lemma sockets_add db b : sockets_ok db → bi_id b ∉ bi_id <$> db_bindings db → socket_of b ∉ socket_of <$> db_bindings db →
  is_Some (profile_by db (bi_profileId b)) → ¬ cascade_listens db (bi_nodeId b) (bi_port b) (bi_transport b) →
  sockets_ok (set_bindings (db_bindings db ++ [b]) db).
Proof.
  intros [Hids Hapart Hfk Hops Hfree] Hid Hs Hp Hc. constructor; cbn [db_bindings set_bindings].
  - rewrite fmap_app. apply NoDup_app. split; [done|]. split; [|apply NoDup_singleton].
    intros x Hx ->%list_elem_of_singleton. done.
  - rewrite fmap_app. apply NoDup_app. split; [done|]. split; [|apply NoDup_singleton].
    intros x Hx ->%list_elem_of_singleton. done.
  - intros b' [Hb| ->%list_elem_of_singleton]%elem_of_app; [by apply Hfk|done].
  - exact Hops.
  - intros b' [Hb| ->%list_elem_of_singleton]%elem_of_app; [by apply (Hfree b')|apply Hc].
Qed.

Definition replace_binding (b : Binding) (bs : list Binding) : list Binding :=
  (λ x, if bool_decide (bi_id x = bi_id b) then b else x) <$> bs.

Lemma elem_of_replace b bs x : x ∈ replace_binding b bs → x = b ∨ x ∈ bs ∧ bi_id x ≠ bi_id b.
Proof. intros (y & -> & Hy)%list_elem_of_fmap. case_bool_decide; [by left|by right]. Qed.

Lemma replace_ids b bs : bi_id <$> replace_binding b bs = bi_id <$> bs.
Proof. unfold replace_binding. rewrite <-list_fmap_compose. apply list_fmap_ext. intros i x _. cbn. by case_bool_decide. Qed.

Lemma replace_sockets b bs : NoDup (bi_id <$> bs) → NoDup (socket_of <$> bs) →
  (∀ x, x ∈ bs → socket_of x = socket_of b → bi_id x = bi_id b) → NoDup (socket_of <$> replace_binding b bs).
Proof.
  unfold replace_binding. induction bs as [|x bs IH]; intros Hids Hapart Hs; [constructor|]. rewrite !fmap_cons in *.
  apply NoDup_cons in Hids as [Hx Hids]. apply NoDup_cons in Hapart as [Hsx Hapart]. apply NoDup_cons. split.
  - intros (y & E & Hy)%list_elem_of_fmap. pose proof Hy as Hy'. apply elem_of_replace in Hy' as [->|[Hy' Hne]].
    + case_bool_decide as Hi; [|apply Hi, Hs; [by left|done]].
      apply Hx. rewrite Hi, <-(replace_ids b). by apply list_elem_of_fmap_2.
    + case_bool_decide as Hi.
      * assert (bi_id y = bi_id b) by (apply Hs; [by right|done]). done.
      * apply Hsx. rewrite E. by apply list_elem_of_fmap_2.
  - apply IH; [done..|]. intros y Hy. apply Hs. by right.
Qed.

Lemma sockets_replace db b : sockets_ok db →
  (∀ x, x ∈ db_bindings db → socket_of x = socket_of b → bi_id x = bi_id b) →
  is_Some (profile_by db (bi_profileId b)) → ¬ cascade_listens db (bi_nodeId b) (bi_port b) (bi_transport b) →
  sockets_ok (set_bindings (replace_binding b (db_bindings db)) db).
Proof.
  intros [Hids Hapart Hfk Hops Hfree] Hs Hp Hc. constructor; cbn [db_bindings set_bindings].
  - by rewrite replace_ids.
  - by apply replace_sockets.
  - intros x [->|[Hx _]]%elem_of_replace; [done|by apply Hfk].
  - exact Hops.
  - intros x [->|[Hx _]]%elem_of_replace; [apply Hc|by apply (Hfree x)].
Qed.

Lemma sockets_hosts db hs : sockets_ok db → sockets_ok (set_hosts hs db).
Proof. intros [H1 H2 H3 H4 H5]. by constructor. Qed.

Lemma sockets_filter db (P : Binding → Prop) `{∀ b, Decision (P b)} : sockets_ok db →
  sockets_ok (set_bindings (filter P (db_bindings db)) db).
Proof.
  intros [H1 H2 H3 H4 H5]. constructor; cbn [db_bindings set_bindings].
  - by apply NoDup_fmap_filter.
  - by apply NoDup_fmap_filter.
  - intros b [_ Hb]%list_elem_of_filter. by apply H3.
  - exact H4.
  - intros b [_ Hb]%list_elem_of_filter. by apply (H5 b).
Qed.

(** ** The gate of a cascade save *)
Definition wanted_of (fromHops : list (string * Z * Transport)) (ps : option (list CascadePositionInput))
    (ds : option (list ResolvedDirection)) : list (string * Z * Transport) :=
  fromHops ++ match ps, ds with Some ps, Some ds => topologyReceivingPorts ps ds | _, _ => [] end.

Lemma elem_of_conflicts db wanted node t c : c ∈ conflicts_on db wanted node t ↔
  ∃ b p, b ∈ db_bindings db ∧ (node, bi_port b, t) ∈ wanted ∧ socket_of b = (node, bi_port b, t) ∧
    profile_by db (bi_profileId b) = Some p ∧
    c = mkPortConflict (match row_by db node with Some n => nd_name (no_facts n) | None => node end) (bi_port b) t (pf_name p).
Proof.
  unfold conflicts_on. rewrite list_elem_of_omap. unfold portOwnersOnNode.
  assert (∀ port, port ∈ ports_wanted wanted node t ↔ (node, port, t) ∈ wanted) as Hw.
  { intros port. unfold ports_wanted. rewrite elem_of_js_uniq, list_elem_of_fmap. setoid_rewrite list_elem_of_filter. split.
    - intros ([[n q] t'] & -> & (E1 & E2) & H). cbn in *. by subst.
    - intros H. by exists (node, port, t). }
  pose proof (profile_claims db node (ports_wanted wanted node t) None) as Hx. split.
  - intros (o & Ho & E). destruct o as [name port t'|n q t'|n q t']; [|done|done]. case_bool_decide as Ht; [|done]. subst t'.
    apply Hx in Ho as (Hp & b & p & Hb & Hn & Hq & Ht & _ & Hpr & Hname). exists b, p. rewrite Hq. split; [done|]. split; [by apply Hw|].
    split; [by rewrite <-Hn, <-Hq, <-Ht|]. split; [done|]. apply (inj Some) in E as <-. by rewrite Hname.
  - intros (b & p & Hb & Hin & Hs & Hpr & ->). exists (ProfileOwner (pf_name p) (bi_port b) t). split; [|by rewrite bool_decide_true].
    apply Hx. split; [by apply Hw|]. exists b, p. unfold socket_of in Hs.
    assert (bi_nodeId b = node ∧ bi_transport b = t) as [? ?] by (split; congruence). by split_and!.
Qed.

(** What the gate answers: it refuses exactly when a binding sits on a socket
    some leg wants, and names each such binding's profile. *)
Lemma link_gate db fromHops ps ds : (∀ b, b ∈ db_bindings db → is_Some (profile_by db (bi_profileId b))) →
  match assertLinkPortsFree db fromHops ps ds with
  | Ok _ => ∀ b, b ∈ db_bindings db → socket_of b ∉ wanted_of fromHops ps ds
  | Throw cs => cs ≠ [] ∧ ∀ c, c ∈ cs ↔ ∃ b p, b ∈ db_bindings db ∧ socket_of b ∈ wanted_of fromHops ps ds ∧ profile_by db (bi_profileId b) = Some p ∧
      c = mkPortConflict (match row_by db (bi_nodeId b) with Some n => nd_name (no_facts n) | None => bi_nodeId b end) (bi_port b) (bi_transport b) (pf_name p)
  end.
Proof.
  intros Hfk. unfold assertLinkPortsFree. cbv zeta. fold (wanted_of fromHops ps ds). set (wanted := wanted_of fromHops ps ds).
  case_bool_decide as Hw.
  { intros b _. rewrite Hw. apply not_elem_of_nil. }
  set (cs := js_uniq _ ≫= _).
  assert (∀ c, c ∈ cs ↔ ∃ b p, b ∈ db_bindings db ∧ socket_of b ∈ wanted ∧ profile_by db (bi_profileId b) = Some p ∧
      c = mkPortConflict (match row_by db (bi_nodeId b) with Some n => nd_name (no_facts n) | None => bi_nodeId b end) (bi_port b) (bi_transport b) (pf_name p)) as Hcs.
  { intros c. unfold cs. rewrite list_elem_of_bind. setoid_rewrite list_elem_of_bind. setoid_rewrite elem_of_conflicts. split.
    - intros (node & (t & (b & p & Hb & Hin & Hs & Hpr & ->) & _) & _). exists b, p. rewrite Hs.
      assert (bi_nodeId b = node ∧ bi_transport b = t) as [-> ->] by (unfold socket_of in Hs; split; congruence). done.
    - intros (b & p & Hb & Hin & Hpr & ->). exists (bi_nodeId b). split.
      + exists (bi_transport b). split; [by exists b, p|]. unfold transports_wanted. rewrite elem_of_js_uniq.
        apply list_elem_of_fmap. exists (socket_of b). split; [done|]. by apply list_elem_of_filter.
      + rewrite elem_of_js_uniq, <-list_fmap_compose. apply list_elem_of_fmap. by exists (socket_of b). }
  case_bool_decide as Hnil; cbn [negb throw_if]; [|done].
  intros b Hb Hin. destruct (Hfk b Hb) as [p Hp].
  assert (mkPortConflict (match row_by db (bi_nodeId b) with Some n => nd_name (no_facts n) | None => bi_nodeId b end) (bi_port b) (bi_transport b) (pf_name p) ∈ cs) as H.
  { apply Hcs. by exists b, p. }
  rewrite Hnil in H. by apply not_elem_of_nil in H.
Qed.

(** What the two saves did. *)
Lemma createBinding_ok db input newId hostId b db' : createBinding db input newId hostId = Ok (b, db') →
  ∃ p node, profile_by db (cr_profileId input) = Some p ∧ bi_id b = newId ∧ bi_profileId b = cr_profileId input ∧
    bi_overrides b = default JNull (cr_overrides input) ∧
    node ∈ db_nodes db ∧ nd_id (no_facts node) = bi_nodeId b ∧ no_deleted node = false ∧
    socket_of b = (cr_nodeId input, cr_port input, transportForBinding (pf_protocol p) (pf_config p) (bi_overrides b)) ∧
    holder_of db (bi_nodeId b) (bi_port b) (bi_transport b) = None ∧
    assertPortFreeOfOthers db (bi_nodeId b) (bi_port b) (bi_transport b) (Some (nd_name (no_facts node))) None = Ok tt ∧
    assertBindingFitsNode db node p (bi_overrides b) = Ok tt ∧
    db' = ensureDefaultHost newId hostId (set_bindings (db_bindings db ++ [b]) db).
Proof.
  unfold createBinding. destruct (profile_by db _) as [p|] eqn:Hp; [|done].
  destruct (js_find _ (db_nodes db)) as [node|] eqn:Hn; [|done]. cbv zeta.
  apply js_find_Some in Hn as [Hin Hb]. apply andb_true_iff in Hb as [Hid Hdel].
  apply bool_decide_eq_true in Hid. apply negb_true_iff in Hdel.
  destruct (holder_of _ _ _ _) eqn:Hh; [done|]. cbn [mbind result_bind].
  destruct (assertPortFreeOfOthers _ _ _ _ _ _) as [[]|] eqn:Hf; [|done]. cbn [mbind result_bind].
  destruct (assertBindingFitsNode _ _ _ _) as [[]|] eqn:Hg; [|done]. cbn [mbind result_bind].
  intros E. injection E as <- <-. exists p, node. cbn. by split_and!.
Qed.

Lemma updateBinding_ok db id input b db' : updateBinding db id input = Ok (b, db') →
  ∃ existing p, existing ∈ db_bindings db ∧ bi_id existing = id ∧ profile_by db (bi_profileId existing) = Some p ∧
    bi_id b = id ∧ bi_nodeId b = bi_nodeId existing ∧ bi_profileId b = bi_profileId existing ∧
    bi_overrides b = default (bi_overrides existing) (up_overrides input) ∧
    (pf_protocol p = "mieru" → is_Some (up_overrides input) → ∃ node, row_by db (bi_nodeId existing) = Some node ∧
       assertAdapterSlotFree db (no_facts node) (bi_profileId existing) (mkKind (pf_protocol p) (pf_engine p) None) (pf_config p)
         (bi_overrides b) (Some id) = Ok tt) ∧
    (socket_of b = socket_of existing ∨
     (∀ held, holder_of db (bi_nodeId b) (bi_port b) (bi_transport b) = Some held → bi_id held = id) ∧
     assertPortFreeOfOthers db (bi_nodeId b) (bi_port b) (bi_transport b) None (Some id) = Ok tt) ∧
    db' = set_bindings (replace_binding b (db_bindings db)) db.
Proof.
  unfold updateBinding. destruct (binding_by db id) as [existing|] eqn:Hb; [|done].
  apply js_find_Some in Hb as [Hin Hid]. apply bool_decide_eq_true in Hid.
  destruct (profile_by db _) as [p|] eqn:Hp; [|done]. cbv zeta.
  destruct (assertSingboxServesBinding _ _ _) as [[]|]; [|done]. cbn [mbind result_bind]. intros H.
  apply bind_unit_ok in H as [Hm H]. apply bind_unit_ok in H as [Hs H]. injection H as <- <-.
  exists existing, p. cbn [next_binding bi_id bi_nodeId bi_profileId bi_overrides bi_port bi_transport socket_of].
  split_and!; try done.
  - intros Hmieru Hov. rewrite (bool_decide_true _ Hmieru), (bool_decide_true _ Hov) in Hm. cbn [andb] in Hm.
    destruct (row_by db _) as [node|] eqn:Hn; [|done]. exists node. by rewrite <-Hid.
  - unfold socket_of. cbn [next_binding bi_id bi_nodeId bi_profileId bi_overrides bi_port bi_transport].
    destruct (_ || _) eqn:Hmoved.
    + right. apply bind_unit_ok in Hs as [Hh Hf]. split; [|done]. intros held Hheld. rewrite Hheld in Hh.
      apply throw_if_ok, negb_false_iff, bool_decide_eq_true in Hh. done.
    + left. apply orb_false_iff in Hmoved as [H1 H2]. apply negb_false_iff, Z.eqb_eq in H1.
      apply negb_false_iff, bool_decide_eq_true in H2. congruence.
  - f_equal. unfold replace_binding. cbn [next_binding bi_id]. by rewrite Hid.
Qed.

(** ** The saves keep sockets apart *)
Lemma sockets_default_host db id host : sockets_ok db → sockets_ok (ensureDefaultHost id host db).
Proof. unfold ensureDefaultHost. destruct (existsb _ _); [done|apply sockets_hosts]. Qed.

Lemma create_keeps db input newId hostId b db' : sockets_ok db → newId ∉ bi_id <$> db_bindings db →
  createBinding db input newId hostId = Ok (b, db') → sockets_ok db'.
Proof.
  intros Hok Hnew H. apply createBinding_ok in H as (p & node & Hp & Hid & Hpid & _ & _ & _ & _ & _ & Hh & Hf & _ & ->).
  apply holder_None in Hh. apply sockets_default_host, sockets_add; [done|by rewrite Hid|done|by rewrite Hpid, Hp|].
  eapply free_of_others; [apply Hok|exact Hf].
Qed.

Lemma update_keeps db id input b db' : sockets_ok db → updateBinding db id input = Ok (b, db') → sockets_ok db'.
Proof.
  intros Hok H. apply updateBinding_ok in H as (e & p & He & Hid & Hp & Hbid & Hn & Hpid & _ & _ & Hmove & ->).
  assert (is_Some (profile_by db (bi_profileId b))) as Hfk by (rewrite Hpid, Hp; by eexists).
  destruct Hmove as [Hsame|[Hh Hf]].
  - apply sockets_replace; [done| |done|].
    + intros x Hx E. rewrite Hsame in E. assert (x = e) as -> by (by apply (NoDup_fmap_elem socket_of (db_bindings db)); [apply so_apart|..]).
      congruence.
    + pose proof (so_free _ Hok e He) as Hfree. unfold socket_of in Hsame. by injection Hsame as -> -> ->.
  - apply sockets_replace; [done| |done|by eapply free_of_others; [apply Hok|]].
    intros x Hx E. rewrite Hbid. destruct (holder_of db (bi_nodeId b) (bi_port b) (bi_transport b)) as [h|] eqn:Eh.
    + rewrite <-(Hh h eq_refl). f_equal. apply js_find_Some in Eh as [Hin Hon]. apply on_socket_true in Hon.
      apply (NoDup_fmap_elem socket_of (db_bindings db)); [by apply so_apart|done..|]. rewrite E, Hon. done.
    + apply holder_None in Eh. destruct Eh. change (socket_of b ∈ socket_of <$> db_bindings db). rewrite <-E. by apply list_elem_of_fmap_2.
Qed.

Lemma delete_keeps db id db' : sockets_ok db → deleteBinding db id = Ok db' → sockets_ok db'.
Proof.
  intros Hok H. unfold deleteBinding in H. destruct (binding_by db id); [|done]. injection H as <-.
  by apply sockets_hosts, sockets_filter.
Qed.

(** ** One inbound per adapter *)

(** Two bindings of a node on one adapter: one that holds several, and for mieru
    all with one MTU. *)
Definition slots_ok (db : Db) : Prop := ∀ b1 b2 p1 p2,
  b1 ∈ db_bindings db → b2 ∈ db_bindings db → bi_id b1 ≠ bi_id b2 → bi_nodeId b1 = bi_nodeId b2 →
  profile_by db (bi_profileId b1) = Some p1 → profile_by db (bi_profileId b2) = Some p2 →
  adapterSlot (kind_of p1) = adapterSlot (kind_of p2) →
  adapterSlot (kind_of p1) ∈ MULTI_INBOUND_ADAPTERS ∧
  (adapterSlot (kind_of p1) = "mieru|mieru" → mieruMtu (pf_config p1) (bi_overrides b1) = mieruMtu (pf_config p2) (bi_overrides b2)).

Definition protocols_known (db : Db) : Prop := ∀ p, p ∈ db_profiles db → pf_protocol p ∈ PROTOCOL_NAMES.

Lemma elem_of_others_on db n except b p : (b, p) ∈ others_on db n except ↔
  b ∈ db_bindings db ∧ bi_nodeId b = n ∧ (truthy except = true → Some (bi_id b) ≠ except) ∧ profile_by db (bi_profileId b) = Some p.
Proof.
  unfold others_on. rewrite list_elem_of_omap. setoid_rewrite list_elem_of_filter. split.
  - intros (x & ((Hn & Hex) & Hx) & E). destruct (profile_by db (bi_profileId x)) as [q|] eqn:Hq; [|done].
    cbn in E. injection E as -> ->. done.
  - intros (Hb & Hn & Hex & Hp). exists b. by rewrite Hp.
Qed.

(** What the slot gate leaves. *)
Lemma slot_free db node p k config overrides except b' p' :
  slots_ok db → NoDup (bi_id <$> db_bindings db) → profile_by db (pf_id p) = Some p → pf_config p = config →
  adapterSlot k = adapterSlot (kind_of p) →
  assertAdapterSlotFree db node (pf_id p) k config overrides except = Ok tt →
  (b', p') ∈ others_on db (nd_id node) except → adapterSlot (kind_of p') = adapterSlot k →
  adapterSlot k ∈ MULTI_INBOUND_ADAPTERS ∧
  (adapterSlot k = "mieru|mieru" → mieruMtu config overrides = mieruMtu (pf_config p') (bi_overrides b')).
Proof.
  intros Hok Hids Hp Hconf Hk Hgate Hb' Hslot. unfold assertAdapterSlotFree in Hgate. cbv zeta in Hgate.
  destruct (js_find _ (others_on _ _ _)) as [[b q]|] eqn:Hfind.
  2:{ pose proof (proj1 (js_find_None _ _) Hfind _ Hb') as H. cbn in H. rewrite (bool_decide_true _ Hslot), orb_true_r in H. done. }
  apply js_find_Some in Hfind as [Hin Hheld]. cbn [fst snd] in *.
  pose proof Hin as (Hb & Hn & Hex & Hq)%elem_of_others_on. pose proof Hb' as (Hb'' & Hn' & _ & Hq')%elem_of_others_on.
  assert (adapterSlot (kind_of q) = adapterSlot k ∧ (if bool_decide (bi_profileId b = pf_id p) then config else pf_config q) = pf_config q) as [Hqs Hqc].
  { destruct (decide (bi_profileId b = pf_id p)) as [Hown|Hown].
    - rewrite (bool_decide_true _ Hown). rewrite Hown, Hp in Hq. apply (inj Some) in Hq as <-. split; [by symmetry|done].
    - rewrite (bool_decide_false _ Hown). apply orb_true_iff in Hheld as [Hheld|Hheld]; apply bool_decide_eq_true in Hheld; [done|by split]. }
  rewrite Hqc in Hgate. destruct (decide (adapterSlot k ∈ MULTI_INBOUND_ADAPTERS)) as [Hmulti|Hmulti];
    [rewrite (bool_decide_true _ Hmulti) in Hgate|by rewrite (bool_decide_false _ Hmulti) in Hgate]. split; [done|]. intros Hm. rewrite (bool_decide_true _ Hm) in Hgate.
  apply throw_if_ok, negb_false_iff, Z.eqb_eq in Hgate.
  destruct (decide (bi_id b = bi_id b')) as [E|E].
  - assert (b = b') as -> by by apply (NoDup_fmap_elem bi_id (db_bindings db)). congruence.
  - rewrite <-Hgate. apply (Hok b b' q p'); [done|done|done|congruence|done|done|congruence|congruence].
Qed.

Lemma slot_mieru k : k_protocol k ∈ PROTOCOL_NAMES → adapterSlot k = "mieru|mieru" → k_protocol k = "mieru".
Proof.
  destruct k as [pr en awg]. unfold adapterSlot. cbn [k_protocol k_awgProtocol]. intros Hp.
  destruct (decide (pr = "mieru")) as [->|Hne]; [done|].
  repeat (apply elem_of_cons in Hp as [->|Hp]; [|]); [..|by apply not_elem_of_nil in Hp].
  all: try done.
  all: cbn; try case_bool_decide; discriminate.
Qed.

Lemma slots_same_profiles db bs : slots_ok db → (∀ b, b ∈ bs → b ∈ db_bindings db) → slots_ok (set_bindings bs db).
Proof. intros Hok Hin b1 b2 p1 p2 H1 H2. apply Hok; by apply Hin. Qed.

Lemma slots_with db bs b p : slots_ok db → profile_by db (bi_profileId b) = Some p →
  (∀ x, x ∈ bs → x = b ∨ x ∈ db_bindings db ∧ bi_id x ≠ bi_id b) →
  (∀ b' p', b' ∈ db_bindings db → bi_id b' ≠ bi_id b → bi_nodeId b' = bi_nodeId b → profile_by db (bi_profileId b') = Some p' →
     adapterSlot (kind_of p') = adapterSlot (kind_of p) → adapterSlot (kind_of p) ∈ MULTI_INBOUND_ADAPTERS ∧
     (adapterSlot (kind_of p) = "mieru|mieru" → mieruMtu (pf_config p) (bi_overrides b) = mieruMtu (pf_config p') (bi_overrides b'))) →
  slots_ok (set_bindings bs db).
Proof.
  intros Hok Hp Hbs Hnew b1 b2 p1 p2 H1 H2 Hne Hn Hp1 Hp2 Hs. cbn [db_bindings set_bindings] in H1, H2.
  change (profile_by (set_bindings bs db)) with (profile_by db) in *.
  destruct (Hbs b1 H1) as [->|[Hb1 Hi1]], (Hbs b2 H2) as [->|[Hb2 Hi2]]; [done| | |by apply (Hok b1 b2 p1 p2)].
  - assert (p1 = p) as -> by congruence. destruct (Hnew b2 p2) as [? Hm]; auto.
  - assert (p2 = p) as -> by congruence. destruct (Hnew b1 p1) as [? Hm]; auto. rewrite Hs. split; [done|]. intros E. symmetry. by apply Hm.
Qed.

Lemma by_slot_groups rows : jm_wf (by_slot rows) ∧ ∀ slot, jm_get slot (by_slot rows) =
  if decide (slot ∈ MULTI_INBOUND_ADAPTERS) then None
  else match filter (λ r : Binding * Profile, adapterSlot (kind_of r.2) = slot) rows with [] => None | l => Some l end.
Proof.
  induction rows as [|r rows [IHwf IH]] using rev_ind.
  - split; [apply jm_wf_nil|]. intros slot. by case_decide.
  - unfold by_slot in *. rewrite foldl_app. cbn [foldl]. cbv zeta. case_bool_decide as Hm.
    + split; [done|]. intros slot. rewrite IH. case_decide as Hs; [done|]. rewrite filter_app.
      rewrite (filter_none _ [r]); [by rewrite app_nil_r|]. intros x ->%list_elem_of_singleton Hx. congruence.
    + split; [by apply jm_wf_set|]. intros slot. rewrite jm_get_set, filter_app. rewrite filter_cons, filter_nil.
      destruct (decide (slot = adapterSlot (kind_of r.2))) as [->|Hne].
      * rewrite decide_False by done. rewrite decide_True by done. rewrite IH, decide_False by done.
        by destruct (filter _ rows).
      * rewrite IH. case_decide; [done|]. rewrite decide_False by congruence. by rewrite app_nil_r.
Qed.

(** What the report of a node's slots lists: every single-inbound adapter with
    two pushed bindings or more, all of them in port order, the last served. *)
Lemma slot_conflicts_exact db n sc : sc ∈ adapterSlotConflicts db n ↔
  ∃ rows, rows = filter (λ r : Binding * Profile, adapterSlot (kind_of r.2) = sc_slot sc) (pushed_on db n) ∧
    sc_slot sc ∉ MULTI_INBOUND_ADAPTERS ∧ (2 ≤ length rows)%nat ∧
    sc = mkSlotConflict (sc_slot sc) ((λ bp, (bi_id bp.1, pf_name bp.2, bi_port bp.1)) <$> rows) ((λ bp, bi_id bp.1) <$> last rows).
Proof.
  unfold adapterSlotConflicts. rewrite list_elem_of_fmap. setoid_rewrite list_elem_of_filter.
  destruct (by_slot_groups (pushed_on db n)) as [Hwf Hget]. split.
  - intros ([slot rows] & -> & Hl & Hin). apply jm_elem_get in Hin; [|done]. rewrite Hget in Hin. case_decide as Hm; [done|].
    cbn [sc_slot fst snd] in *. exists rows. destruct (filter _ _); [done|]. by apply (inj Some) in Hin as <-.
  - intros (rows & Hrows & Hm & Hl & Hsc). exists (sc_slot sc, rows). split; [done|]. split; [done|].
    apply jm_get_Some_elem. rewrite Hget, decide_False by done. rewrite <-Hrows. by destruct rows; [cbn in Hl; lia|].
Qed.

Lemma others_apart db (l : list Binding) : NoDup (bi_id <$> l) →
  NoDup ((λ bp : Binding * Profile, bi_id bp.1) <$> omap (λ b, pair b <$> profile_by db (bi_profileId b)) l).
Proof.
  induction l as [|x l IH]; [done|]. rewrite fmap_cons. intros [Hx Hl']%NoDup_cons. cbn [omap list_omap].
  destruct (profile_by db (bi_profileId x)) as [q|]; cbn [fmap option_fmap option_map]; [|by apply IH].
  rewrite fmap_cons. apply NoDup_cons. split; [|by apply IH]. intros ([y q'] & E' & (z & Hz & Hzq)%list_elem_of_omap)%list_elem_of_fmap.
  apply Hx. cbn in E'. rewrite E'. destruct (profile_by db (bi_profileId z)); [|done]. cbn in Hzq. injection Hzq as <- _. by apply list_elem_of_fmap_2.
Qed.

Lemma slots_quiet db n : slots_ok db → NoDup (bi_id <$> db_bindings db) → adapterSlotConflicts db n = [].
Proof.
  intros Hok Hids.
  destruct (adapterSlotConflicts db n) as [|sc scs] eqn:E; [done|].
  assert (sc ∈ adapterSlotConflicts db n) as (rows & Hrows & Hm & Hl & _)%slot_conflicts_exact by (rewrite E; by left).
  exfalso. assert (NoDup rows) as Hnd.
  { rewrite Hrows. apply NoDup_filter. unfold pushed_on. rewrite sort_by_perm. apply NoDup_filter. unfold others_on.
    apply (NoDup_fmap_1 (λ bp : Binding * Profile, bi_id bp.1)).
    apply (others_apart db). by apply NoDup_fmap_filter. }
  destruct rows as [|[b1 p1] [|[b2 p2] rest]]; [cbn in Hl; lia|cbn in Hl; lia|].
  assert (∀ b p, (b, p) ∈ (b1, p1) :: (b2, p2) :: rest → adapterSlot (kind_of p) = sc_slot sc ∧ b ∈ db_bindings db ∧ bi_nodeId b = n ∧ profile_by db (bi_profileId b) = Some p) as Hall.
  { intros b p Hin. rewrite Hrows in Hin. apply list_elem_of_filter in Hin as [Hs Hin]. unfold pushed_on in Hin.
    apply elem_of_sort_by, list_elem_of_filter in Hin as [_ Hin]. apply elem_of_others_on in Hin as (? & ? & _ & ?). done. }
  destruct (Hall b1 p1) as (Hs1 & Hb1 & Hn1 & Hp1); [by left|]. destruct (Hall b2 p2) as (Hs2 & Hb2 & Hn2 & Hp2); [by right; left|].
  destruct (Hok b1 b2 p1 p2) as [Hmulti _]; [done|done| |congruence|done|done|congruence|].
  - intros Ei. assert (b1 = b2) as -> by (by apply (NoDup_fmap_elem bi_id (db_bindings db))).
    assert (p1 = p2) as -> by congruence. apply NoDup_cons in Hnd as [Hnd _]. apply Hnd. by left.
  - congruence.
Qed.

(** A saved binding never puts a second inbound on an adapter that holds one,
    nor a second MTU on mieru: creating, editing and deleting bindings keep it
    so, and where it holds no node has a conflict to report. *)
Theorem bindings_keep_slots db : slots_ok db → NoDup (bi_id <$> db_bindings db) → protocols_known db →
  (∀ input newId hostId b db', newId ∉ bi_id <$> db_bindings db → createBinding db input newId hostId = Ok (b, db') → slots_ok db') ∧
  (∀ id input b db', updateBinding db id input = Ok (b, db') → slots_ok db') ∧
  (∀ id db', deleteBinding db id = Ok db' → slots_ok db') ∧
  ∀ n, adapterSlotConflicts db n = [].
Proof.
  intros Hok Hids Hknown.
  assert (∀ id p, profile_by db id = Some p → pf_id p = id ∧ profile_by db (pf_id p) = Some p ∧ pf_protocol p ∈ PROTOCOL_NAMES) as Hby.
  { intros id p Hp. pose proof Hp as [Hin Hid]%js_find_Some. apply bool_decide_eq_true in Hid. rewrite Hid. auto. }
  split_and!.
  - intros input newId hostId b db' Hnew H. apply createBinding_ok in H as (p & node & Hp & Hid & Hpid & Hov & _ & Hnode & _ & _ & _ & _ & Hfits & ->).
    destruct (Hby _ _ Hp) as (Hpp & Hpp' & _).
    assert (slots_ok (set_bindings (db_bindings db ++ [b]) db)) as Hs.
    { apply (slots_with db _ b p); [done|by rewrite Hpid| |].
      - intros x [Hx| ->%list_elem_of_singleton]%elem_of_app; [right|by left]. split; [done|]. rewrite Hid. intros E. apply Hnew.
        rewrite <-E. by apply list_elem_of_fmap_2.
      - intros b' p' Hb' _ Hn Hp' Hslot. unfold assertBindingFitsNode in Hfits.
        apply bind_unit_ok in Hfits as [_ Hfits]. apply bind_unit_ok in Hfits as [_ Hfits]. apply bind_unit_ok in Hfits as [_ Hfits].
        apply bind_unit_ok in Hfits as [_ Hfits]. eapply slot_free; try done. apply elem_of_others_on. by rewrite Hnode. }
    unfold ensureDefaultHost. by destruct (existsb _ _).
  - intros id input b db' H. apply updateBinding_ok in H as (e & p & He & Hid & Hp & Hbid & Hn & Hpid & Hov & Hmieru & _ & ->).
    destruct (Hby _ _ Hp) as (Hpp & Hpp' & Hkn). apply (slots_with db _ b p); [done|by rewrite Hpid|apply elem_of_replace|].
    intros b' p' Hb' Hne Hn' Hp' Hslot.
    destruct (Hok e b' p p') as [Hm Hmtu]; [done|done|congruence|congruence|done|done|done|]. split; [done|].
    intros Hsm. destruct (up_overrides input) as [ov|] eqn:Eov; [|rewrite Hov; by apply Hmtu].
    destruct Hmieru as (node & Hnode & Hgate); [by apply (slot_mieru (kind_of p))|done|].
    pose proof Hnode as [_ Hnid]%js_find_Some. apply bool_decide_eq_true in Hnid. rewrite <-Hpp in Hgate.
    assert (adapterSlot (mkKind (pf_protocol p) (pf_engine p) None) = adapterSlot (kind_of p)) as Hk.
    { unfold adapterSlot. cbn. rewrite (slot_mieru (kind_of p) Hkn Hsm : pf_protocol p = "mieru"). done. }
    destruct (slot_free db (no_facts node) p _ _ _ _ b' p' Hok Hids Hpp' eq_refl Hk Hgate) as [_ Hx]; [|by rewrite Hk|apply Hx; by rewrite Hk].
    apply elem_of_others_on. split; [done|]. split; [congruence|]. split; [|done]. intros _. congruence.
  - intros id db' H. unfold deleteBinding in H. destruct (binding_by db id); [|done]. injection H as <-.
    apply (slots_same_profiles db); [done|]. intros x [_ ?]%list_elem_of_filter. done.
  - intros n. by apply slots_quiet.
Qed.

(** ** The blocks of two interfaces *)
Definition cidr (ip p : Z) : string := intToIp ip +:+ "/" +:+ pretty p.

Lemma take_digits_count base acc cnt l : cnt <= (take_digits base acc cnt l).1.2.
Proof.
  revert acc cnt. induction l as [|c l IH]; intros acc cnt; cbn; [lia|]. destruct (base_digit base c); [|cbn; lia].
  etrans; [|apply IH]. lia.
Qed.

Lemma segment_pretty n : 0 <= n < 2 ^ 53 → segment (pretty n) = Some n.
Proof.
  intros Hn. unfold segment, all_digits. destruct (take_digits_pretty n [] ltac:(lia) I) as (k & Hk & E).
  rewrite app_nil_r in E. pose proof (take_digits_count 10 0 0 (list_ascii_of_string (pretty n))) as Hc. rewrite E in Hc |- *. cbn [fst snd] in Hc.
  rewrite (proj2 (Z.ltb_lt 0 k)) by lia. rewrite bool_decide_true by done. cbn [andb fmap option_fmap option_map].
  rewrite fl_round_small by lia. rewrite Z.min_l; [done|]. assert (2 ^ 53 < 2 ^ 1024) by (by apply Z.pow_lt_mono_r). lia.
Qed.

Lemma v4Range_block ip p : 0 <= ip < 2 ^ 32 → 0 <= p <= 32 →
  v4Range (cidr ip p) = Some (ip / 2 ^ (32 - p) * 2 ^ (32 - p), ip / 2 ^ (32 - p) * 2 ^ (32 - p) + (2 ^ (32 - p) - 1)).
Proof.
  intros Hip Hp. unfold v4Range.
  assert (js_trim (cidr ip p) = cidr ip p) as ->.
  { unfold js_trim. rewrite trim_chars_id; [by rewrite string_of_list_ascii_of_string|]. unfold cidr. rewrite !list_ascii_app.
    apply Forall_app. split; [|apply Forall_app; split].
    - eapply Forall_impl; [by apply intToIp_chars|]. intros c [?| ->]; [by apply digit_not_ws|done].
    - by repeat constructor.
    - eapply Forall_impl; [apply pretty_digits; lia|]. intros c ?. by apply digit_not_ws. }
  assert (js_split "/" (cidr ip p) = [intToIp ip; pretty p]) as ->.
  { change (cidr ip p) with (js_join "/" [intToIp ip; pretty p]). apply js_split_join; [done|]. constructor; [|constructor; [|constructor]].
    - intros Hin. pose proof (intToIp_chars ip Hip) as Hc. rewrite Forall_forall in Hc. destruct (Hc _ Hin) as [?|?]; done.
    - apply pretty_char_free; [lia|done]. }
  rewrite intToIp_split by done. rewrite <-list_fmap_compose.
  assert (digits_value ∘ pretty <$> octets ip = Some <$> octets ip) as ->.
  { apply list_fmap_ext. intros i v Hv%list_elem_of_lookup_2. cbn. pose proof (octets_range ip Hip) as Ho. rewrite Forall_forall in Ho.
    apply segment_pretty. specialize (Ho v Hv). lia. }
  unfold digits_value. rewrite segment_pretty by lia. rewrite octets_eq by done. cbn [fmap list_fmap].
  destruct (Z.ltb_spec 32 p); [lia|].
  assert (fl_add (fl_add (fl_add (js_ushr (js_shl (ip / 2 ^ 24) 24) 0) (js_shl (ip / 2 ^ 16 mod 256) 16)) (js_shl (ip / 2 ^ 8 mod 256) 8)) (ip mod 256) = ip) as ->.
  { pose proof (octets_sum ip Hip) as Hs. rewrite octets_eq in Hs by done. cbn [foldl] in Hs.
    assert (0 <= ip / 2 ^ 24 < 256) by (split; [apply Z.div_pos; lia|apply Z.div_lt_upper_bound; lia]).
    pose proof (Z.mod_pos_bound (ip / 2 ^ 16) 256 ltac:(lia)). pose proof (Z.mod_pos_bound (ip / 2 ^ 8) 256 ltac:(lia)).
    pose proof (Z.mod_pos_bound ip 256 ltac:(lia)).
    assert (∀ v k, 0 <= v < 256 → 0 <= k < 32 → js_ushr (js_shl v k) 0 = to_u32 (v * 2 ^ k)) as Hshl.
    { intros v k Hv Hk. rewrite js_ushr_0. unfold js_shl. rewrite to_u32_i32, (Z.mod_small k 32), to_i32_small, Z.shiftl_mul_pow2 by lia. done. }
    assert (∀ v k, 0 <= v < 256 → 0 <= k <= 16 → js_shl v k = v * 2 ^ k) as Hsmall.
    { intros v k Hv Hk. unfold js_shl. assert (2 ^ k <= 2 ^ 16) by (apply Z.pow_le_mono_r; lia). assert (0 < 2 ^ k) by (apply Z.pow_pos_nonneg; lia).
      rewrite (Z.mod_small k 32), (to_i32_small v), Z.shiftl_mul_pow2 by lia. apply to_i32_small. nia. }
    rewrite Hshl, !Hsmall by lia. clear Hshl Hsmall.
    generalize dependent (ip / 2 ^ 24). intros a. generalize dependent (ip / 2 ^ 16 mod 256). intros b.
    generalize dependent (ip / 2 ^ 8 mod 256). intros c. generalize dependent (ip mod 256). intros d Hb Hc Hd Hs Ha.
    change (2 ^ 24) with 16777216. change (2 ^ 16) with 65536. change (2 ^ 8) with 256.
    rewrite to_u32_small by lia. rewrite (fl_add_small (a * 16777216)) by lia.
    rewrite (fl_add_small (a * 16777216 + b * 65536)) by lia. rewrite fl_add_small; lia. }
  assert (0 < 2 ^ (32 - p) <= 2 ^ 32) as Hsz by (split; [apply Z.pow_pos_nonneg; lia|apply Z.pow_le_mono_r; lia]).
  pose proof (Z.mul_div_le ip (2 ^ (32 - p)) ltac:(lia)). assert (0 <= ip / 2 ^ (32 - p)) by (apply Z.div_pos; lia).
  rewrite fl_add_small; [done|]. nia.
Qed.

(** Two subnets are told to overlap exactly when some address lies in the
    blocks of both. *)
Theorem subnets_share_address ip p ip' p' :
  0 <= ip < 2 ^ 32 → 0 <= ip' < 2 ^ 32 → 0 <= p <= 32 → 0 <= p' <= 32 →
  subnetsOverlap (cidr ip p) (cidr ip' p') = true ↔
  ∃ a, a / 2 ^ (32 - p) = ip / 2 ^ (32 - p) ∧ a / 2 ^ (32 - p') = ip' / 2 ^ (32 - p').
Proof.
  intros Hip Hip' Hp Hp'. unfold subnetsOverlap. rewrite !v4Range_block by done. cbn [fst snd].
  assert (0 < 2 ^ (32 - p)) as Hs by (apply Z.pow_pos_nonneg; lia). assert (0 < 2 ^ (32 - p')) as Hs' by (apply Z.pow_pos_nonneg; lia).
  generalize dependent (2 ^ (32 - p)). generalize dependent (2 ^ (32 - p')). intros s' Hs' s Hs.
  assert (∀ a q k, 0 < k → a / k = q ↔ q * k <= a <= q * k + (k - 1)) as Hblock.
  { intros a q k Hk. split.
    - intros <-. pose proof (Z.mul_div_le a k Hk). pose proof (Z.mul_succ_div_gt a k Hk). lia.
    - intros H. symmetry. apply (Z.div_unique_pos a k q (a - q * k)); lia. }
  rewrite andb_true_iff, !Z.leb_le. split.
  - intros [H1 H2]. exists (Z.max (ip / s * s) (ip' / s' * s')). rewrite !Hblock by done. lia.
  - intros (a & H1%Hblock & H2%Hblock); [lia|done|done].
Qed.

(** ** Saves on a node of three protocols *)
Definition w_node : NodeRow := mkNodeRow (mkNode "n1" "ru-01" None None JNull) (mkEngines (Some []) "none" false) false.
Definition w_profile (id protocol : string) (config : jvalue) : Profile := mkProfile id id protocol None None config true.
Definition w_binding (id profile : string) (port : Z) (t : Transport) : Binding :=
  mkBinding id profile "n1" port None None JNull t true.
Definition raw : jvalue := JObj [("network", JStr "raw")].
Definition kcp : jvalue := JObj [("network", JStr "kcp")].

(** An xray profile on the number a tunnel holds over UDP. *)
Definition mv_profile := w_profile "x" "xray" raw.
Definition mv_db := mkDb [mv_profile; w_profile "h" "hysteria" (JObj [])] [w_binding "b1" "x" 27000 tcp] [w_node] []
  [mkTunnelRow "west" "n1" 27000] [] [].

Lemma mv_ok : sockets_ok mv_db.
Proof.
  constructor.
  - apply (bool_decide_unpack _). vm_compute. exact I.
  - apply (bool_decide_unpack _). vm_compute. exact I.
  - intros b ->%list_elem_of_singleton. by eexists.
  - by intros c h p ?%not_elem_of_nil.
  - intros b ->%list_elem_of_singleton [(l & Hl & _)|[(u & _ & _ & _ & Ht)|(c & Hc & _)]].
    + by apply not_elem_of_nil in Hl.
    + discriminate Ht.
    + by apply not_elem_of_nil in Hc.
Qed.

Definition w_create (profile : string) (port : Z) : CreateBinding := mkCreate profile "n1" port None None None true.

(** An edit of the profile does not ask about cascades: moved to kcp, the
    binding takes the UDP socket the tunnel listens on. *)
Theorem move_takes_tunnel_port :
  sockets_ok mv_db ∧ ∃ db', writeConfig mv_db mv_profile kcp = Ok db' ∧
    bi_transport <$> db_bindings db' = [udp] ∧ ¬ sockets_ok db'.
Proof.
  split; [exact mv_ok|]. eexists. split; [vm_compute; reflexivity|]. split; [reflexivity|].
  intros [_ _ _ _ Hfree]. eapply Hfree; [by left|]. right; left. eexists. split; [by left|]. done.
Qed.

(** Two mieru profiles of one MTU, one of them bound twice. *)
Definition mtu (n : Z) : jvalue := JObj [("mtu", JNum n)].
Definition mt_profile := w_profile "m" "mieru" (mtu 1400).
Definition mt_db := mkDb [mt_profile; w_profile "q" "mieru" (mtu 1400)]
  [w_binding "b1" "m" 1001 tcp; w_binding "b2" "m" 1002 tcp; w_binding "b3" "q" 1003 tcp] [w_node] [] [] [] [].

Lemma mt_ok : slots_ok mt_db.
Proof.
  intros b1 b2 p1 p2 H1 H2 _ _ Hp1 Hp2 _.
  assert (∀ b p, b ∈ db_bindings mt_db → profile_by mt_db (bi_profileId b) = Some p →
    adapterSlot (kind_of p) = "mieru|mieru" ∧ mieruMtu (pf_config p) (bi_overrides b) = 1400) as H.
  { intros b p Hb Hp. repeat (apply elem_of_cons in Hb as [->|Hb]; [vm_compute in Hp; injection Hp as <-; split; reflexivity|]).
    by apply not_elem_of_nil in Hb. }
  destruct (H b1 p1 H1 Hp1) as [-> ->]. destruct (H b2 p2 H2 Hp2) as [_ ->]. split; [|done].
  apply (bool_decide_unpack _). vm_compute. exact I.
Qed.

Theorem bindings_keep_slots_witness :
  createBinding mt_db (mkCreate "m" "n1" 1004 None None (Some (mtu 1300)) true) "b4" "h4" = Throw (MIERU_MTU_MISMATCH "ru-01" 1400 1300 "m") ∧
  adapterSlotConflicts mt_db "n1" = [].
Proof.
  split; [vm_compute; reflexivity|].
  apply (bindings_keep_slots mt_db mt_ok).
  - apply (bool_decide_unpack _). vm_compute. exact I.
  - intros p Hp. repeat (apply elem_of_cons in Hp as [->|Hp]; [apply (bool_decide_unpack _); vm_compute; exact I|]).
    by apply not_elem_of_nil in Hp.
Defined.

(** Retuning a mieru profile bound twice on a node passes the MTU gate,
    because each of its bindings is compared with the other one of its own, and
    leaves the node with two MTUs. *)
Theorem retune_slips_through :
  slots_ok mt_db ∧ assertSlotsOfProfile mt_db mt_profile (kind_of mt_profile) (mtu 1300) true = Ok tt ∧
  ∃ db', writeConfig mt_db mt_profile (mtu 1300) = Ok db' ∧ ¬ slots_ok db'.
Proof.
  split; [exact mt_ok|]. split; [vm_compute; reflexivity|]. eexists. split; [vm_compute; reflexivity|].
  intros H. set (db' := mkDb _ _ _ _ _ _ _) in H.
  destruct (H (w_binding "b1" "m" 1001 tcp) (w_binding "b3" "q" 1003 tcp) (w_profile "m" "mieru" (mtu 1300)) (w_profile "q" "mieru" (mtu 1400)))
    as [_ Hm]; [by left|by right; right; left|done|done|reflexivity|reflexivity|reflexivity|]. specialize (Hm eq_refl). discriminate Hm.
Qed.

(** A 3.1 profile's binding, and a 1.x profile with a subnet of its own. *)
Definition sn_other := mkProfile "a3" "a3" "amneziawg" None (Some 3) (JObj [("subnet", JStr "10.66.66.0/24")]) true.
Definition sn_profile := w_profile "a1" "amneziawg" (JObj [("subnet", JStr "10.70.0.0/24")]).
Definition sn_overrides : jvalue := JObj [("subnet", JStr "10.66.66.0/24")].
Definition sn_db := mkDb [sn_other; sn_profile] [w_binding "b3" "a3" 51820 udp] [w_node] [] [] [] [].

(** The subnet gate reads the profile alone: a binding whose overrides give
    it the other generation's subnet is accepted, and that merged subnet is what
    the node is sent. *)
Theorem override_subnet_unseen :
  (∃ b db', createBinding sn_db (mkCreate "a1" "n1" 51821 None None (Some sn_overrides) true) "b1" "h1" = Ok (b, db')) ∧
  option_map (λ v, subnetsOverlap (default "" (jstr (Some v))) (subnet_of (pf_config sn_other)))
    (merged_field "subnet" (pf_config sn_profile) sn_overrides) = Some true.
Proof. split; [eexists; eexists; vm_compute; reflexivity|vm_compute; reflexivity]. Qed.

(** A chain of three hops saved before the topology tables: the credential of
    the transit is dialled by it and listened on by the exit. *)
Definition oc_hop (node : string) (pos port : Z) : HopRow :=
  mkHopRow node pos (JObj [("protocol", JStr "vless"); ("port", JNum port)]).
Definition oc_db := mkDb [w_profile "x" "xray" raw] [] [w_node] [] []
  [mkHopCascade "old" [oc_hop "n0" 0 24000; oc_hop "n1" 1 24001; mkHopRow "n2" 2 JNull]] [].

Example transit_overclaims :
  portOwnersOnNode oc_db "n1" [24000; 24001] None = [CascadeOwner "old" 24000 tcp; CascadeOwner "old" 24001 tcp] ∧
  portOwnersOnNode oc_db "n2" [24000; 24001] None = [CascadeOwner "old" 24001 tcp] ∧
  createBinding oc_db (w_create "x" 24001) "b1" "h1" = Throw (PORT_HELD_BY_CASCADE 24001 "ru-01" "old").
Proof. vm_compute. done. Qed.

(** 10.66.66.0/24 and a block of 10.66.64.0/20 share addresses, and 10.67.0.0/16 is apart. *)
Theorem subnets_share_address_witness :
  cidr 172114432 24 = "10.66.66.0/24" ∧ ∃ a, a / 2 ^ 8 = 172114432 / 2 ^ 8 ∧ a / 2 ^ 12 = 172113920 / 2 ^ 12.
Proof.
  split; [vm_compute; reflexivity|]. apply (subnets_share_address 172114432 24 172113920 20); [lia..|]. vm_compute. reflexivity.
Defined.
