(* ===== verification/PortSaves.v ===== *)
(** Every save that takes or frees a port of a node
    (apps/panel-backend/src/modules: hosts/hosts.service.ts [createHost],
    [updateHost], [deleteHost]; profiles/host-fields.ts [checkSniConsistency];
    profiles/profiles.service.ts [deleteProfile] and, with NodePorts.v, the
    saves of bindings; nodes/nodes.service.ts [deleteNode];
    cascades/cascade.service.ts [createCascade], [updateCascade],
    [deleteCascade] with their port gate, their hop rows and, from
    TopologySave.v, their topology and tunnels).

    The panel is the tables those saves read and write; [view] is the joins the
    port questions of NodePorts.v are asked of.  A save runs to its end by
    itself, and one that throws leaves the panel as it was.  Of a host, what
    does not decide its binding is left out, and of a cascade save the gates on
    anything but ports are a parameter: they refuse or let pass, and write
    nothing.  Re-keying a tunnel and giving REALITY to old legs put another
    credential on the port a row has, and are left out. *)

From S2P Require Import Prelude Js Json Draws Directions CascadeValidation LinkCreds TopologyLinks CascadeTunnel.
From S2P Require Import TopologySave CascadeExclusive CascadeSave CoreVersions NodeEngines NodePorts.

Local Open Scope string_scope.
Local Open Scope list_scope.
Local Open Scope Z_scope.

(** ** The panel *)
Record StoredCascade := mkStored {
  sc_id : string; sc_name : string; sc_mode : mode; sc_hops : list HopRow; sc_topology : Topology }.

Record Panel := mkPanel {
  pn_profiles : list Profile;
  pn_bindings : list Binding;
  pn_nodes : list NodeRow;
  pn_hosts : list HostRow;
  pn_cascades : list StoredCascade;
  pn_tunnels : list CascadeTunnel.TunnelRow
}.

Definition links_of (c : StoredCascade) : list NodePorts.LinkRow :=
  (λ l, NodePorts.mkLinkRow (sc_name c) (lr_to l) (lr_port l) (lr_config l)) <$> link_rows (sc_topology c).

Definition cascade_by (cs : list StoredCascade) (id : string) : option StoredCascade :=
  js_find (λ c, bool_decide (sc_id c = id)) cs.

(** A tunnel with its cascade's name. *)
Definition tunnel_of (cs : list StoredCascade) (t : CascadeTunnel.TunnelRow) : NodePorts.TunnelRow :=
  NodePorts.mkTunnelRow (default "" (sc_name <$> cascade_by cs (t_cascade t))) (t_to t) (t_port t).

Definition view (pn : Panel) : Db :=
  mkDb (pn_profiles pn) (pn_bindings pn) (pn_nodes pn) (pn_cascades pn ≫= links_of)
    (tunnel_of (pn_cascades pn) <$> pn_tunnels pn)
    ((λ c, mkHopCascade (sc_name c) (sc_hops c)) <$> pn_cascades pn) (pn_hosts pn).

(** A save that touches no cascade row, written back. *)
Definition with_db (pn : Panel) (db : Db) : Panel :=
  mkPanel (db_profiles db) (db_bindings db) (db_nodes db) (db_hosts db) (pn_cascades pn) (pn_tunnels pn).

Definition set_cascades (cs : list StoredCascade) (ts : list CascadeTunnel.TunnelRow) (pn : Panel) : Panel :=
  mkPanel (pn_profiles pn) (pn_bindings pn) (pn_nodes pn) (pn_hosts pn) cs ts.

(** ** Hosts *)
Inductive host_error :=
  | HOST_NOT_FOUND (id : string)
  | SNI_MISMATCH (sni : string) (expected : list string)
  | BINDING (e : bind_error).

Definition lift_bind {A} (r : result bind_error A) : result host_error A :=
  match r with Ok a => Ok a | Throw e => Throw (BINDING e) end.

(** The server names the profile answers for, when the override is none of
    them. *)
Definition checkSniConsistency (p : Profile) (sniOverride : option string) (securityLayer : string) : option (list string) :=
  match sniOverride with
  | None => None
  | Some sni =>
      if negb (bool_decide (pf_protocol p = "xray")) || bool_decide (sni = "") then None
      else if bool_decide (securityLayer = "tls") || bool_decide (securityLayer = "none") then None
      else if match jfield "security" (pf_config p) with
              | None | Some JNull => false
              | Some v => negb (bool_decide (jstr (Some v) = Some "reality"))
              end then None
      else if bool_decide (jfield_str "realityMode" (pf_config p) = Some "self-steal") then None
      else
        let all := match jfield "realityServerNames" (pf_config p) with
                   | Some (JArr l) => omap (λ v, jstr (Some v)) l | _ => [] end in
        let names := if bool_decide (pf_engine p = Some "singbox") then take 1 all else all in
        if bool_decide (names = []) || bool_decide (sni ∈ names) then None else Some names
  end.

Definition assertSniMatchesProfileConfig (p : Profile) (sniOverride : option string) (securityLayer : string)
    : result host_error unit :=
  match sniOverride, checkSniConsistency p sniOverride securityLayer with
  | Some sni, Some expected => Throw (SNI_MISMATCH sni expected)
  | _, _ => Ok tt
  end.

(** A binding to attach to, or a profile, a node and a port. *)
Inductive host_target :=
  | OnBinding (bindingId : string)
  | OnPort (profileId nodeId : string) (port : Z).

Record CreateHostInput := mkCreateHost {
  ch_target : host_target; ch_remark : string; ch_priority : Z; ch_sniOverride : option string; ch_securityLayer : string }.

(** The binding a host goes onto: one that is there, or one to create. *)
Inductive host_plan :=
  | Existing (bindingId : string)
  | NewBinding (nodeId : string) (port : Z) (overrides : jvalue) (publicHost : option string) (enabled : bool).

(** The checks of a new binding: the socket, the two claimants no index can
    see, the node. *)
Definition assertNewBinding (db : Db) (node : NodeRow) (p : Profile) (port : Z) (overrides : jvalue) : result bind_error unit :=
  let t := transportForBinding (pf_protocol p) (pf_config p) overrides in
  let name := nd_name (no_facts node) in
  _ ← match holder_of db (nd_id (no_facts node)) port t with
      | Some held => Throw (PORT_IN_USE port name (name_of_profile db held) t)
      | None => Ok tt
      end;
  _ ← assertPortFreeOfOthers db (nd_id (no_facts node)) port t (Some name) None;
  assertBindingFitsNode db node p overrides.

Definition binding_at (db : Db) (profileId nodeId : string) (port : Z) : option Binding :=
  js_find (λ b, bool_decide (bi_profileId b = profileId ∧ bi_nodeId b = nodeId ∧ bi_port b = port)) (db_bindings db).

Definition live_node (db : Db) (id : string) : option NodeRow :=
  js_find (λ n, bool_decide (nd_id (no_facts n) = id) && negb (no_deleted n)) (db_nodes db).

Definition planHostCreate (db : Db) (target : host_target) : result bind_error (host_plan * Profile) :=
  match target with
  | OnBinding bindingId =>
      match binding_by db bindingId ≫= λ b, pair b <$> profile_by db (bi_profileId b) with
      | None => Throw (BINDING_NOT_FOUND bindingId)
      | Some (b, p) => Ok (Existing (bi_id b), p)
      end
  | OnPort profileId nodeId port =>
      match profile_by db profileId with
      | None => Throw (PROFILE_NOT_FOUND profileId)
      | Some p =>
          match live_node db nodeId with
          | None => Throw (NODE_NOT_FOUND nodeId)
          | Some node =>
              match binding_at db profileId nodeId port with
              | Some existing =>
                  _ ← lift_gate (assertCoreOnNode (no_facts node) (kind_of p));
                  Ok (Existing (bi_id existing), p)
              | None =>
                  _ ← assertNewBinding db node p port JNull;
                  Ok (NewBinding nodeId port JNull None true, p)
              end
          end
      end
  end.

(** The binding a host goes onto, with the row it needs. *)
Definition take_plan (db : Db) (p : Profile) (plan : host_plan) (newId : string) : string * Db :=
  match plan with
  | Existing id => (id, db)
  | NewBinding nodeId port overrides publicHost enabled =>
      (newId, set_bindings (db_bindings db ++
         [mkBinding newId (pf_id p) nodeId port publicHost None overrides
            (transportForBinding (pf_protocol p) (pf_config p) overrides) enabled]) db)
  end.

Definition createHost (db : Db) (i : CreateHostInput) (newId hostId : string) : result host_error Db :=
  '(plan, p) ← lift_bind (planHostCreate db (ch_target i));
  _ ← assertSniMatchesProfileConfig p (ch_sniOverride i) (ch_securityLayer i);
  let '(bindingId, db) := take_plan db p plan newId in
  Ok (set_hosts (db_hosts db ++ [mkHostRow hostId bindingId (ch_remark i) (ch_priority i) (ch_sniOverride i) (ch_securityLayer i)]) db).

(** What a new port moves. *)
Inductive port_move := move_host | move_binding.

Record UpdateHostInput := mkUpdateHost {
  uh_port : option Z; uh_portMove : option port_move; uh_confirmSharedPort : option bool;
  uh_remark : option string; uh_priority : option Z; uh_sniOverride : option (option string); uh_securityLayer : option string }.

Definition host_by (db : Db) (id : string) : option HostRow := js_find (λ h, bool_decide (ho_id h = id)) (db_hosts db).
Definition hosts_on (db : Db) (bindingId : string) : list HostRow := filter (λ h, ho_binding h = bindingId) (db_hosts db).

(** Where a host moved alone goes; nothing when it is the binding that moves. *)
Definition planHostMove (db : Db) (from : Binding) (p : Profile) (port : Z) (alone : bool) : result bind_error (option host_plan) :=
  match binding_at db (bi_profileId from) (bi_nodeId from) port with
  | Some target => Ok (Some (Existing (bi_id target)))
  | None =>
      if alone then Ok None else
      match row_by db (bi_nodeId from) with
      | None => Throw (NODE_NOT_FOUND (bi_nodeId from))
      | Some node =>
          _ ← assertNewBinding db node p port (bi_overrides from);
          Ok (Some (NewBinding (bi_nodeId from) port (bi_overrides from) (bi_publicHost from) (bi_enabled from)))
      end
  end.

Definition drop_if_empty (bindingId : string) (db : Db) : Db :=
  if bool_decide (hosts_on db bindingId = []) then set_bindings (filter (λ b, bi_id b ≠ bindingId) (db_bindings db)) db else db.

Definition next_host (h : HostRow) (i : UpdateHostInput) (bindingId : string) : HostRow :=
  mkHostRow (ho_id h) bindingId (default (ho_remark h) (uh_remark i)) (default (ho_priority h) (uh_priority i))
    (default (ho_sni h) (uh_sniOverride i)) (default (ho_layer h) (uh_securityLayer i)).

Definition write_host (h : HostRow) (db : Db) : Db :=
  set_hosts ((λ x, if bool_decide (ho_id x = ho_id h) then h else x) <$> db_hosts db) db.

Definition only_port (port : Z) : UpdateBinding := mkUpdate (Some port) None None None None.

Definition updateHost (db : Db) (id : string) (i : UpdateHostInput) (newId : string) : result host_error Db :=
  match host_by db id with
  | None => Throw (HOST_NOT_FOUND id)
  | Some h =>
      match binding_by db (ho_binding h) ≫= λ b, pair b <$> profile_by db (bi_profileId b) with
      | None => Throw (BINDING (BINDING_NOT_FOUND (ho_binding h)))
      | Some (b, p) =>
          _ ← assertSniMatchesProfileConfig p (default (ho_sni h) (uh_sniOverride i)) (default (ho_layer h) (uh_securityLayer i));
          match uh_port i with
          | Some port =>
              if port =? bi_port b then Ok (write_host (next_host h i (bi_id b)) db) else
              let mode := match uh_portMove i with
                          | Some m => m
                          | None => if bool_decide (uh_confirmSharedPort i = Some true) then move_binding else move_host
                          end in
              hostMove ← match mode with
                         | move_host => lift_bind (planHostMove db b p port (bool_decide (length (hosts_on db (bi_id b)) = 1%nat)))
                         | move_binding => Ok None
                         end;
              match hostMove with
              | None =>
                  '(_, db') ← lift_bind (updateBinding db (bi_id b) (only_port port));
                  Ok (write_host (next_host h i (bi_id b)) db')
              | Some plan =>
                  let '(targetId, db') := take_plan db p plan newId in
                  Ok (drop_if_empty (bi_id b) (write_host (next_host h i targetId) db'))
              end
          | None => Ok (write_host (next_host h i (bi_id b)) db)
          end
      end
  end.

Definition deleteHost (db : Db) (id : string) : result host_error Db :=
  match host_by db id with
  | None => Throw (HOST_NOT_FOUND id)
  | Some h => Ok (drop_if_empty (ho_binding h) (set_hosts (filter (λ x, ho_id x ≠ id) (db_hosts db)) db))
  end.

(** ** Rows that go with a profile or a node *)
Definition deleteProfile (db : Db) (id : string) : result bind_error Db :=
  match profile_by db id with
  | None => Throw (PROFILE_NOT_FOUND id)
  | Some _ =>
      let gone := bi_id <$> filter (λ b, bi_profileId b = id) (db_bindings db) in
      Ok (mkDb (filter (λ p, pf_id p ≠ id) (db_profiles db)) (filter (λ b, bi_profileId b ≠ id) (db_bindings db))
            (db_nodes db) (db_links db) (db_tunnels db) (db_hops db) (filter (λ h, ho_binding h ∉ gone) (db_hosts db)))
  end.

(** The nodes a cascade names, in either shape. *)
Definition names_node (id : string) (c : StoredCascade) : bool :=
  bool_decide (id ∈ (hr_nodeId <$> sc_hops c) ++ (position_rows (sc_topology c) ≫= p_nodeIds) ++
                     (direction_rows (sc_topology c) ≫= dr_nodes)).

Definition deleteNode (pn : Panel) (id : string) : option Panel :=
  match live_node (view pn) id with
  | None => None
  | Some _ =>
      if existsb (names_node id) (pn_cascades pn) then None else
      let gone := bi_id <$> filter (λ b, bi_nodeId b = id) (pn_bindings pn) in
      Some (mkPanel (pn_profiles pn) (filter (λ b, bi_nodeId b ≠ id) (pn_bindings pn))
              ((λ n, if bool_decide (nd_id (no_facts n) = id) then mkNodeRow (no_facts n) (no_engines n) true else n) <$> pn_nodes pn)
              (filter (λ h, ho_binding h ∉ gone) (pn_hosts pn)) (pn_cascades pn) (pn_tunnels pn))
  end.

(** ** Cascades *)
Inductive cascade_error :=
  | CascadeNotFound (id : string)
  | InternalError
  | Refused
  | Invalid (e : validation_error)
  | CellError (e : link_error)
  | LinkPortsInUse (cs : list PortConflict)
  | TopologyError (e : TopologySave.save_error)
  | NameTaken (name : string).

Definition lift_err {E A} (f : E → cascade_error) (r : result E A) : result cascade_error A :=
  match r with Ok a => Ok a | Throw e => Throw (f e) end.

(** [mode], and the hops in the order of their positions. *)
Definition save_hops (p : Payload) (kept : mode) : result cascade_error (option (list CascadeHopInput) * mode) :=
  folded ← match pl_topology p with
           | None => Ok None
           | Some (ps, ds) => match tryFoldPositions ps ds with Some f => Ok f | None => Throw InternalError end
           end;
  let m := effective_mode folded p kept in
  match legacy_hops folded p with
  | None => Ok (None, m)
  | Some l => hops ← lift_err Invalid (validateCascadeHops l m); Ok (Some hops, m)
  end.

Definition is_balancer (m : mode) : bool := match m with balancer => true | chain => false end.

(** The cell of each credential: a balancer's legs all speak the entry's. *)
Definition cred_cells (m : mode) (hops : list CascadeHopInput) : result link_error (list string) :=
  if is_balancer m
  then map_res (λ _, normalizeLinkProtocol (head hops ≫= h_linkProtocol)) (tail hops)
  else map_res (λ h, normalizeLinkProtocol (h_linkProtocol h)) (take (length hops - 1) hops).

(** The credential a hop's row holds. *)
Definition credIdx (m : mode) (n idx : nat) : option nat :=
  if is_balancer m then match idx with O => None | S i => Some i end
  else if (idx <? n - 1)%nat then Some idx else None.

Definition hop_rows (m : mode) (hops : list CascadeHopInput) (creds : list LinkCred) : list HopRow :=
  imap (λ idx h, mkHopRow (h_nodeId h) (h_position h)
                   (match credIdx m (length hops) idx ≫= λ i, creds !! i with
                    | Some c => serializeLinkCred c | None => JNull end)) hops.

Definition udp_profiles (db : Db) (node : string) (port : Z) : list string :=
  omap (λ o, match o with ProfileOwner name _ udp => Some name | _ => None end) (portOwnersOnNode db node [port] None).
Definition node_name (db : Db) (node : string) : string :=
  match row_by db node with Some n => nd_name (no_facts n) | None => node end.

Record CascadeInput := mkCascadeInput { in_name : option string; in_payload : Payload }.

Section CascadeSaves.
Context {R G : Type} `{Random R} `{TunnelRandom G} (fuel : nat).
(** The other gates of a save, by the cascade's id; and the policy rules that
    name a direction. *)
Context (refused : Panel → option string → CascadeInput → bool) (policies : list (string * string)).

(** The credentials of the hops and what is asked of the ports. *)
Definition gate_ports (pn : Panel) (p : Payload) (m : mode) (hops : list CascadeHopInput) (r : R)
    : result cascade_error (list LinkCred * R) :=
  cells ← lift_err CellError (cred_cells m hops);
  '(creds, r) ← lift_err CellError (generateLinkCreds cells None r);
  _ ← lift_err LinkPortsInUse (assertLinkPortsFree (view pn) (receivingLinkPorts (h_nodeId <$> hops) (Some <$> creds))
                                 (fst <$> pl_topology p) (snd <$> pl_topology p));
  Ok (creds, r).

(** The transaction's topology part; [ids] are the rows' ids the database
    gives. *)
Definition save_rows (pn : Panel) (c : StoredCascade) (t : option ValidatedTopology) (ids : list string) (r : R) (g : G)
    : option (result cascade_error (StoredCascade * list CascadeTunnel.TunnelRow)) :=
  match t with
  | None => Some (Ok (c, pn_tunnels pn))
  | Some v =>
      '(res, _, _) ← writeTopologyV4 fuel (udp_profiles (view pn)) (node_name (view pn)) (sc_id c) policies ids
                       (v_positions v) (v_directions v) (sc_topology c) (pn_tunnels pn) r g;
      Some ('(top, tunnels) ← lift_err TopologyError res;
            Ok (mkStored (sc_id c) (sc_name c) (sc_mode c) (sc_hops c) top, tunnels))
  end.

Definition validated (p : Payload) : result cascade_error (option ValidatedTopology) :=
  match pl_topology p with
  | None => Ok None
  | Some (ps, ds) => v ← lift_err Invalid (validateCascadeTopology ps ds); Ok (Some v)
  end.

Definition no_topology : Topology := mkTopology 1 [] [] [].

(** The unique key on the name, asked by the transaction's first write. *)
Definition name_taken (pn : Panel) (id name : string) : bool :=
  existsb (λ c, bool_decide (sc_name c = name) && negb (bool_decide (sc_id c = id))) (pn_cascades pn).

Definition createCascade (pn : Panel) (newId : string) (i : CascadeInput) (ids : list string) (r : R) (g : G)
    : option (result cascade_error Panel) :=
  let p := in_payload i in
  match ('(hops, m) ← save_hops p chain;
         '(creds, r) ← gate_ports pn p m (default [] hops) r;
         _ ← throw_if (refused pn None i) Refused;
         t ← validated p;
         let name := default "" (in_name i) in
         _ ← throw_if (name_taken pn newId name) (NameTaken name);
         Ok (default [] hops, m, creds, t, r)) with
  | Throw e => Some (Throw e)
  | Ok (hops, m, creds, t, r) =>
      res ← save_rows pn (mkStored newId (default "" (in_name i)) m (hop_rows m hops creds) no_topology) t ids r g;
      Some ('(c, ts) ← res; Ok (set_cascades (pn_cascades pn ++ [c]) ts pn))
  end.

(** The hop rows an update leaves: the new ones; none when a topology that does
    not fold replaces them; else the stored ones. *)
Definition next_hops (c : StoredCascade) (p : Payload) (m : mode) (hops : option (list CascadeHopInput)) (creds : list LinkCred)
    : list HopRow :=
  match hops, pl_topology p with
  | Some hops, _ => hop_rows m hops creds
  | None, Some _ => []
  | None, None => sc_hops c
  end.

Definition replace_cascade (c : StoredCascade) (cs : list StoredCascade) : list StoredCascade :=
  (λ x, if bool_decide (sc_id x = sc_id c) then c else x) <$> cs.

Definition updateCascade (pn : Panel) (id : string) (i : CascadeInput) (ids : list string) (r : R) (g : G)
    : option (result cascade_error Panel) :=
  match cascade_by (pn_cascades pn) id with
  | None => Some (Throw (CascadeNotFound id))
  | Some c =>
      let p := in_payload i in
      match ('(hops, m) ← save_hops p (sc_mode c);
             '(creds, r) ← gate_ports pn p m (default [] hops) r;
             _ ← throw_if (refused pn (Some id) i) Refused;
             t ← validated p;
             let name := default (sc_name c) (in_name i) in
             _ ← throw_if (name_taken pn id name) (NameTaken name);
             Ok (hops, m, creds, t, r)) with
      | Throw e => Some (Throw e)
      | Ok (hops, m, creds, t, r) =>
          res ← save_rows pn (mkStored id (default (sc_name c) (in_name i)) (default (sc_mode c) (pl_mode p))
                                (next_hops c p m hops creds) (sc_topology c)) t ids r g;
          Some ('(c, ts) ← res; Ok (set_cascades (replace_cascade c (pn_cascades pn)) ts pn))
      end
  end.

Definition deleteCascade (pn : Panel) (id : string) : option Panel :=
  match cascade_by (pn_cascades pn) id with
  | None => None
  | Some c =>
      if existsb (λ p : string * string, bool_decide (p.1 ∈ dr_id <$> direction_rows (sc_topology c))) policies then None else
      Some (set_cascades (filter (λ c, sc_id c ≠ id) (pn_cascades pn)) (filter (λ t, t_cascade t ≠ id) (pn_tunnels pn)) pn)
  end.

(** ** Saves in sequence *)
Inductive save :=
  | SaveBinding (input : CreateBinding) (newId hostId : string)
  | EditBinding (id : string) (input : UpdateBinding)
  | DropBinding (id : string)
  | EditConfig (profileId : string) (config : jvalue)
  | DropProfile (id : string)
  | SaveHost (input : CreateHostInput) (newId hostId : string)
  | EditHost (id : string) (input : UpdateHostInput) (newId : string)
  | DropHost (id : string)
  | DropNode (id : string)
  | SaveCascade (newId : string) (input : CascadeInput) (ids : list string) (r : R) (g : G)
  | EditCascade (id : string) (input : CascadeInput) (ids : list string) (r : R) (g : G)
  | DropCascade (id : string).

Definition after {E} (pn : Panel) (r : result E Db) : Panel :=
  match r with Ok db => with_db pn db | Throw _ => pn end.
Definition answered (pn : Panel) (r : option (result cascade_error Panel)) : Panel :=
  match r with Some (Ok pn') => pn' | _ => pn end.

Definition run_save (pn : Panel) (s : save) : Panel :=
  let db := view pn in
  match s with
  | SaveBinding i b h => after pn (snd <$> createBinding db i b h)
  | EditBinding id i => after pn (snd <$> updateBinding db id i)
  | DropBinding id => after pn (deleteBinding db id)
  | EditConfig id config => match profile_by db id with Some p => after pn (writeConfig db p config) | None => pn end
  | DropProfile id => after pn (deleteProfile db id)
  | SaveHost i b h => after pn (createHost db i b h)
  | EditHost id i b => after pn (updateHost db id i b)
  | DropHost id => after pn (deleteHost db id)
  | DropNode id => default pn (deleteNode pn id)
  | SaveCascade id i ids r g => answered pn (createCascade pn id i ids r g)
  | EditCascade id i ids r g => answered pn (updateCascade pn id i ids r g)
  | DropCascade id => default pn (deleteCascade pn id)
  end.

Definition run_saves (pn : Panel) (ss : list save) : Panel := foldl run_save pn ss.
End CascadeSaves.

(** ** What stays when no cascade row changes *)
Definition same_cascades (db db' : Db) : Prop :=
  db_links db' = db_links db ∧ db_tunnels db' = db_tunnels db ∧ db_hops db' = db_hops db.

Lemma view_with_db pn db : same_cascades (view pn) db → view (with_db pn db) = db.
Proof. intros (H1 & H2 & H3). destruct db. cbn in *. by subst. Qed.

Lemma same_default_host id host db : same_cascades db (ensureDefaultHost id host db).
Proof. unfold ensureDefaultHost. by destruct (existsb _ _). Qed.

Lemma same_create db i b h x db' : createBinding db i b h = Ok (x, db') → same_cascades db db'.
Proof.
  intros (p & n & _ & _ & _ & _ & _ & _ & _ & _ & _ & _ & _ & ->)%createBinding_ok. apply (same_default_host b h (set_bindings _ db)).
Qed.

Lemma same_update db id i x db' : updateBinding db id i = Ok (x, db') → same_cascades db db'.
Proof. by intros (e & p & _ & _ & _ & _ & _ & _ & _ & _ & _ & ->)%updateBinding_ok. Qed.

(** ** An edit of a profile's config *)
Lemma write_move_ok db m db' : write_move db m = Ok db' →
  db' = set_bindings (set_transport (bi_id m.1) m.2 <$> db_bindings db) db ∧
  ∀ b, b ∈ db_bindings db → socket_of b = (bi_nodeId m.1, bi_port m.1, m.2) → bi_id b = bi_id m.1.
Proof.
  unfold write_move. destruct (js_find _ _) eqn:E; [done|]. intros [= <-]. split; [done|]. rewrite js_find_None in E.
  intros b Hb Hs. specialize (E b Hb). apply andb_false_iff in E as [E|E].
  - by rewrite (proj2 (on_socket_true _ _ _ _) Hs) in E.
  - apply negb_false_iff, bool_decide_eq_true in E. done.
Qed.

(** A row some moves may have moved. *)
Definition moved_row (ms : list (Binding * Transport)) (b b' : Binding) : Prop :=
  bi_id b' = bi_id b ∧ bi_profileId b' = bi_profileId b ∧ bi_nodeId b' = bi_nodeId b ∧ bi_port b' = bi_port b ∧
  (bi_transport b' = bi_transport b ∨ ∃ m, m ∈ ms ∧ bi_id m.1 = bi_id b ∧ bi_transport b' = m.2).

Lemma moves_rows ms : ∀ db db', fold_res write_move db ms = Ok db' →
  NoDup (bi_id <$> db_bindings db) → NoDup (socket_of <$> db_bindings db) →
  (∀ m, m ∈ ms → ∃ b, b ∈ db_bindings db ∧ bi_id b = bi_id m.1 ∧ bi_nodeId b = bi_nodeId m.1 ∧ bi_port b = bi_port m.1) →
  same_cascades db db' ∧ db_profiles db' = db_profiles db ∧ bi_id <$> db_bindings db' = bi_id <$> db_bindings db ∧
  NoDup (socket_of <$> db_bindings db') ∧ ∀ b', b' ∈ db_bindings db' → ∃ b, b ∈ db_bindings db ∧ moved_row ms b b'.
Proof.
  induction ms as [|m ms IH]; intros db db' H Hids Hs Hms.
  { injection H as <-. split; [done|]. split; [done|]. split; [done|]. split; [done|]. intros b Hb. exists b. split; [done|].
    repeat split. by left. }
  change (write_move db m ≫= (λ s, fold_res write_move s ms) = Ok db') in H.
  destruct (write_move db m) as [db1|] eqn:E1; [|done]. apply write_move_ok in E1 as [-> Hfree].
  set (bs1 := set_transport (bi_id m.1) m.2 <$> db_bindings db) in *.
  destruct (Hms m) as (b0 & Hb0 & Hid0 & Hn0 & Hp0); [by left|].
  set (b1 := set_transport (bi_id m.1) m.2 b0).
  assert (bi_id <$> bs1 = bi_id <$> db_bindings db) as Eids.
  { unfold bs1. rewrite <-list_fmap_compose. apply list_fmap_ext. intros k x _. cbn. unfold set_transport. by case_bool_decide. }
  assert (bs1 = replace_binding b1 (db_bindings db)) as Ebs.
  { unfold bs1, replace_binding. apply list_fmap_ext. intros k x Hx%list_elem_of_lookup_2. cbn.
    assert (bi_id b1 = bi_id m.1) as -> by (unfold b1, set_transport; by case_bool_decide).
    case_bool_decide as Hi; [|unfold set_transport; by rewrite bool_decide_false].
    assert (x = b0) as -> by (apply (NoDup_fmap_elem bi_id (db_bindings db)); [done..|congruence]). done. }
  assert (socket_of b1 = (bi_nodeId m.1, bi_port m.1, m.2)) as Es1.
  { unfold b1, set_transport. rewrite bool_decide_true by done. unfold socket_of. cbn. by rewrite Hn0, Hp0. }
  destruct (IH (set_bindings bs1 db) db' H) as (Hsame & Hpf & Hid' & Hnd & Hrows).
  - cbn. by rewrite Eids.
  - cbn. rewrite Ebs. apply replace_sockets; [done..|]. intros x Hx E. rewrite Es1 in E. rewrite (Hfree x Hx E).
    unfold b1, set_transport. by case_bool_decide.
  - intros m' Hm'. destruct (Hms m') as (b & Hb & ? & ? & ?); [by right|]. exists (set_transport (bi_id m.1) m.2 b).
    split; [by apply list_elem_of_fmap_2|]. unfold set_transport. by case_bool_decide.
  - split; [exact Hsame|]. split; [exact Hpf|]. split; [by rewrite Hid'; cbn|]. split; [exact Hnd|]. intros b' Hb'.
    destruct (Hrows b' Hb') as (x & (b & -> & Hb)%list_elem_of_fmap & H1 & H2 & H3 & H4 & H5). exists b. split; [done|].
    unfold moved_row. rewrite H1, H2, H3, H4. unfold set_transport in H5 |- *. case_bool_decide as Hi; cbn in H5 |- *.
    + split_and!; try done. right. destruct H5 as [H5|(m' & Hm' & E & H5)].
      * exists m. split; [by left|]. split; [congruence|done].
      * exists m'. split; [by right|]. done.
    + split_and!; try done. destruct H5 as [H5|(m' & Hm' & E & H5)]; [by left|]. right. exists m'. split; [by right|done].
Qed.

Lemma writeConfig_keeps db p config db' : sockets_ok db → p ∈ db_profiles db →
  (∀ m, m ∈ transport_moves db p config → ¬ cascade_listens db (bi_nodeId m.1) (bi_port m.1) m.2) →
  writeConfig db p config = Ok db' → sockets_ok db' ∧ same_cascades db db'.
Proof.
  intros Hok Hp Hmoves. unfold writeConfig. cbv zeta. destruct (filter _ (db_bindings db)) as [|b0 bs0]; [|done]. cbn [mbind result_bind].
  destruct (fold_res write_move db (transport_moves db p config)) as [db1|] eqn:E; [|done]. cbn [mbind result_bind]. intros [= <-].
  assert (∀ m, m ∈ transport_moves db p config → m.1 ∈ db_bindings db) as Hin.
  { intros m (_ & Hm)%list_elem_of_filter. apply list_elem_of_fmap in Hm as (b & -> & Hb). by apply list_elem_of_filter in Hb as [_ ?]. }
  destruct (moves_rows _ _ _ E) as (Hsame & Hpf & Hids & Hnd & Hrows); [apply Hok..| |].
  { intros m Hm. exists m.1. split; [by apply Hin|done]. }
  split; [|exact Hsame]. constructor; cbn [set_config db_bindings].
  - rewrite Hids. apply Hok.
  - exact Hnd.
  - intros b' Hb'. destruct (Hrows b' Hb') as (b & Hb & _ & -> & _). destruct (so_profiles _ Hok b Hb) as [q Hq].
    unfold profile_by in *. cbn [set_config db_profiles]. rewrite Hpf. apply js_find_Some in Hq as [Hq Hqid].
    destruct (js_find _ (_ <$> db_profiles db)) eqn:En; [by eexists|]. exfalso. rewrite js_find_None in En.
    assert (bool_decide (pf_id (if bool_decide (pf_id q = pf_id p)
      then mkProfile (pf_id q) (pf_name q) (pf_protocol q) (pf_engine q) (pf_awgProtocol q) config (pf_enabled q) else q) = bi_profileId b) = false) as Hf.
    { apply (En _). apply list_elem_of_fmap. by exists q. }
    destruct (bool_decide (pf_id q = pf_id p)); cbn in Hf; congruence.
  - destruct Hsame as (_ & _ & Hh). unfold hop_ports_ok. cbn [set_config db_hops]. rewrite Hh. apply Hok.
  - intros b' Hb'. destruct (Hrows b' Hb') as (b & Hb & _ & _ & -> & -> & Ht).
    assert (cascade_listens (set_config (pf_id p) config db1) (bi_nodeId b) (bi_port b) (bi_transport b') ↔
      cascade_listens db (bi_nodeId b) (bi_port b) (bi_transport b')) as ->.
    { destruct Hsame as (H1 & H2 & H3). unfold cascade_listens. cbn [set_config db_links db_tunnels db_hops]. by rewrite H1, H2, H3. }
    destruct Ht as [->|(m & Hm & Hid & ->)]; [by apply (so_free _ Hok)|].
    assert (m.1 = b) as <-; [|by apply Hmoves]. apply (NoDup_fmap_elem bi_id (db_bindings db)); [apply Hok|by apply Hin|done|done].
Qed.

(** ** Hosts *)
Lemma new_binding_keeps db node p port overrides newId publicHost enabled : sockets_ok db →
  newId ∉ bi_id <$> db_bindings db → profile_by db (pf_id p) = Some p →
  assertNewBinding db node p port overrides = Ok tt →
  sockets_ok (set_bindings (db_bindings db ++
    [mkBinding newId (pf_id p) (nd_id (no_facts node)) port publicHost None overrides
       (transportForBinding (pf_protocol p) (pf_config p) overrides) enabled]) db).
Proof.
  intros Hok Hnew Hp H. unfold assertNewBinding in H. cbv zeta in H. destruct (holder_of _ _ _ _) eqn:Hh; [done|].
  cbn [mbind result_bind] in H. apply bind_unit_ok in H as [Hf _].
  apply sockets_add; [done|done|by apply holder_None|cbn; by rewrite Hp|]. eapply free_of_others; [apply Hok|exact Hf].
Qed.

Lemma profile_by_id db id p : profile_by db id = Some p → pf_id p = id ∧ profile_by db (pf_id p) = Some p.
Proof. intros H. pose proof H as [_ Hid%bool_decide_eq_true]%js_find_Some. by rewrite Hid. Qed.

(** A plan is sound when the row it takes is. *)
Definition plan_ok (db : Db) (p : Profile) (plan : host_plan) : Prop :=
  profile_by db (pf_id p) = Some p ∧
  match plan with
  | Existing _ => True
  | NewBinding nodeId port overrides _ _ => ∃ node, nd_id (no_facts node) = nodeId ∧ assertNewBinding db node p port overrides = Ok tt
  end.

Lemma take_plan_keeps db p plan newId id db' : sockets_ok db → newId ∉ bi_id <$> db_bindings db → plan_ok db p plan →
  take_plan db p plan newId = (id, db') → sockets_ok db' ∧ same_cascades db db'.
Proof.
  intros Hok Hnew [Hp Hplan] E. destruct plan as [b|n port ov ph en]; injection E as <- <-; [done|]. split; [|done].
  destruct Hplan as (node & <- & H). by apply new_binding_keeps.
Qed.

Lemma plan_create_ok db target plan p : planHostCreate db target = Ok (plan, p) → plan_ok db p plan.
Proof.
  unfold planHostCreate. destruct target as [b|pr n port].
  - destruct (binding_by db b) as [x|]; [|done]. cbn [mbind option_bind]. destruct (profile_by db (bi_profileId x)) as [q|] eqn:Hq; [|done].
    cbn [fmap option_fmap option_map]. intros [= <- <-]. split; [by apply (profile_by_id db (bi_profileId x))|done].
  - destruct (profile_by db pr) as [q|] eqn:Hq; [|done]. destruct (live_node db n) as [node|] eqn:Hn; [|done].
    apply js_find_Some in Hn as [_ Hn]. apply andb_true_iff in Hn as [Hid _]. apply bool_decide_eq_true in Hid.
    destruct (binding_at db pr n port) as [e|]; intros H; apply bind_unit_ok in H as [Ha H]; injection H as <- <-;
      (split; [by apply (profile_by_id db pr)|]); [done|]. by exists node.
Qed.

Lemma plan_move_ok db from p port alone plan : profile_by db (pf_id p) = Some p →
  planHostMove db from p port alone = Ok (Some plan) → plan_ok db p plan.
Proof.
  unfold planHostMove. intros Hp. destruct (binding_at _ _ _ _) as [x|]; [intros [= <-]; by split|]. destruct alone; [done|].
  destruct (row_by db (bi_nodeId from)) as [node|] eqn:Hn; [|done]. apply js_find_Some in Hn as [_ Hn%bool_decide_eq_true].
  intros H. apply bind_unit_ok in H as [Ha H]. injection H as <-. split; [done|]. by exists node.
Qed.

Lemma drop_if_empty_keeps id db : sockets_ok db → sockets_ok (drop_if_empty id db).
Proof. unfold drop_if_empty. intros. case_bool_decide; [by apply sockets_filter|done]. Qed.

Lemma same_drop id db : same_cascades db (drop_if_empty id db).
Proof. unfold drop_if_empty. by case_bool_decide. Qed.

Lemma lift_bind_ok {A} (r : result bind_error A) a : lift_bind r = Ok a → r = Ok a.
Proof. destruct r; cbn; congruence. Qed.

Lemma createHost_keeps db i newId hostId db' : sockets_ok db → newId ∉ bi_id <$> db_bindings db →
  createHost db i newId hostId = Ok db' → sockets_ok db' ∧ same_cascades db db'.
Proof.
  intros Hok Hnew. unfold createHost. destruct (planHostCreate db (ch_target i)) as [[plan p]|] eqn:Hp; [|done]. cbn.
  destruct (assertSniMatchesProfileConfig _ _ _); [|done]. cbn. destruct (take_plan db p plan newId) as [b db1] eqn:E.
  intros [= <-]. apply plan_create_ok in Hp. destruct (take_plan_keeps _ _ _ _ _ _ Hok Hnew Hp E) as [H1 H2].
  split; [by apply sockets_hosts|exact H2].
Qed.

Lemma updateHost_keeps db id i newId db' : sockets_ok db → newId ∉ bi_id <$> db_bindings db →
  updateHost db id i newId = Ok db' → sockets_ok db' ∧ same_cascades db db'.
Proof.
  intros Hok Hnew. unfold updateHost. destruct (host_by db id) as [h|]; [|done].
  destruct (binding_by db (ho_binding h)) as [b|]; [|done]. cbn [mbind option_bind].
  destruct (profile_by db (bi_profileId b)) as [p|] eqn:Hp; [|done]. cbn [fmap option_fmap option_map].
  apply profile_by_id in Hp as [_ Hp]. intros H. apply bind_unit_ok in H as [_ H].
  destruct (uh_port i) as [port|]; [|injection H as <-; split; [by apply sockets_hosts|done]].
  destruct (port =? bi_port b); [injection H as <-; split; [by apply sockets_hosts|done]|]. cbv zeta in H.
  set (mv := match uh_portMove i with
             | Some m => m
             | None => if bool_decide (uh_confirmSharedPort i = Some true) then move_binding else move_host
             end) in H.
  match type of H with mbind _ ?x = _ => destruct x as [[plan|]|] eqn:Hm end; cbn [mbind result_bind] in H; [| |done].
  - destruct (take_plan db p plan newId) as [b1 db1] eqn:E. injection H as <-.
    assert (planHostMove db b p port (bool_decide (length (hosts_on db (bi_id b)) = 1%nat)) = Ok (Some plan)) as Hplan.
    { destruct mv; [by apply lift_bind_ok in Hm|done]. }
    apply plan_move_ok in Hplan; [|done]. destruct (take_plan_keeps _ _ _ _ _ _ Hok Hnew Hplan E) as [H1 H2].
    split; [by apply drop_if_empty_keeps, sockets_hosts|].
    destruct (same_drop (bi_id b) (write_host (next_host h i b1) db1)) as (E1 & E2 & E3). destruct H2 as (F1 & F2 & F3).
    split_and!; [rewrite E1|rewrite E2|rewrite E3]; done.
  - destruct (updateBinding db (bi_id b) (only_port port)) as [[x db1]|] eqn:E; [|done]. cbn in H. injection H as <-.
    split; [apply sockets_hosts; by eapply update_keeps|exact (same_update _ _ _ _ _ E)].
Qed.

Lemma deleteHost_keeps db id db' : sockets_ok db → deleteHost db id = Ok db' → sockets_ok db' ∧ same_cascades db db'.
Proof.
  intros Hok. unfold deleteHost. destruct (host_by db id) as [h|]; [|done]. intros [= <-].
  split; [by apply drop_if_empty_keeps, sockets_hosts|]. apply (same_drop (ho_binding h) (set_hosts _ db)).
Qed.

(** ** Profiles and nodes that go *)
Lemma sockets_sub db db' : sockets_ok db → same_cascades db db' →
  NoDup (bi_id <$> db_bindings db') → NoDup (socket_of <$> db_bindings db') →
  (∀ b, b ∈ db_bindings db' → b ∈ db_bindings db ∧ is_Some (profile_by db' (bi_profileId b))) → sockets_ok db'.
Proof.
  intros Hok (E1 & E2 & E3) Hi Hs Hb. constructor; [done|done|intros b H; by apply Hb| |].
  - unfold hop_ports_ok. rewrite E3. apply Hok.
  - intros b H Hl. apply (so_free _ Hok b); [by apply Hb|]. unfold cascade_listens in *. by rewrite E1, E2, E3 in Hl.
Qed.

Lemma deleteProfile_keeps db id db' : sockets_ok db → deleteProfile db id = Ok db' → sockets_ok db' ∧ same_cascades db db'.
Proof.
  intros Hok. unfold deleteProfile. destruct (profile_by db id); [|done]. cbv zeta. intros [= <-]. split; [|done].
  apply (sockets_sub db); cbn [db_bindings]; [done|done| | |].
  - apply NoDup_fmap_filter, Hok.
  - apply NoDup_fmap_filter, Hok.
  - intros b [Hne Hb]%list_elem_of_filter. split; [done|]. destruct (so_profiles _ Hok b Hb) as [q Hq]. unfold profile_by in *.
    cbn [db_profiles]. apply js_find_Some in Hq as [Hq Hid]. pose proof Hid as Hid'. apply bool_decide_eq_true in Hid'.
    destruct (js_find _ (filter _ _)) eqn:En; [by eexists|]. exfalso. rewrite js_find_None in En.
    rewrite (En q) in Hid; [done|]. apply list_elem_of_filter. split; [congruence|done].
Qed.

(** ** What a cascade save writes listens only where the gate asked *)
Lemma sorted_by_seqZ {A} (f : A → Z) i n l : f <$> l = seqZ i n → StronglySorted (λ a b, (f a <=? f b) = true) l.
Proof.
  revert i n. induction l as [|x l IH]; intros i n E; [constructor|].
  destruct (decide (0 < n)) as [Hn|Hn]; [|by rewrite seqZ_nil in E by lia].
  rewrite fmap_cons, seqZ_cons in E by lia. injection E as Ei E. constructor; [by eapply IH|].
  apply Forall_forall. intros y Hy. apply (list_elem_of_fmap_2 f) in Hy. rewrite E in Hy. apply elem_of_seqZ in Hy. apply Z.leb_le. lia.
Qed.

Lemma cred_transports c : legTransports (serializeLinkCred c) = LINK_CELL_TRANSPORTS (protocol c).
Proof. by destruct c. Qed.

Lemma cred_port_field c : jnum (jfield "port" (serializeLinkCred c)) = Some (port c).
Proof. by destruct c. Qed.

Lemma cred_claim c p t : hop_claim (serializeLinkCred c) p t → p = port c ∧ t ∈ LINK_CELL_TRANSPORTS (protocol c).
Proof. unfold hop_claim. rewrite cred_port_field, cred_transports. intros [[= <-] ?]. done. Qed.

Lemma null_claim p t : ¬ hop_claim JNull p t.
Proof. by intros [? _]. Qed.

Section HopCreds.
Context {R : Type} `{RandomOk R}.

Lemma linkCreds_from_ok cells : ∀ i r creds r', Forall (λ c, c ∈ LINK_CELLS) cells →
  linkCreds_from i cells None r = Ok (creds, r') →
  length creds = length cells ∧ ∀ c, c ∈ creds → LINK_PORT_BASE <= port c.
Proof.
  induction cells as [|cell cells IH]; intros i r creds r' Hc E.
  { injection E as <- <-. split; [done|]. by intros c ?%not_elem_of_nil. }
  apply Forall_cons in Hc as [Hcell Hc]. cbn [linkCreds_from] in E. unfold mbind, gen_bind in E.
  destruct (newLinkCred_ok cell (LINK_PORT_BASE + Z.of_nat i) None r Hcell) as (c & r1 & E1 & _ & _ & Hp & _); [done|].
  rewrite E1 in E. destruct (linkCreds_from (S i) cells None r1) as [[cs r2]|] eqn:E2; [|done]. injection E as <- <-.
  destruct (IH _ _ _ _ Hc E2) as [Hl Hb]. split; [cbn; by rewrite Hl|].
  intros x [->|Hx]%elem_of_cons; [rewrite Hp; lia|by apply Hb].
Qed.

Lemma cred_cells_ok m hops cells : cred_cells m hops = Ok cells →
  length cells = (length hops - 1)%nat ∧ Forall (λ c, c ∈ LINK_CELLS) cells.
Proof.
  assert (∀ p c, normalizeLinkProtocol p = Ok c → c ∈ LINK_CELLS) as Hn.
  { intros p c. unfold normalizeLinkProtocol. destruct (linkCellFor p) eqn:E; [|done]. intros [= <-]. by eapply linkCellFor_known. }
  unfold cred_cells. destruct (is_balancer m); intros Hf%map_res_ok; (split; [apply Forall2_length in Hf|]).
  - destruct hops; cbn in *; lia.
  - apply Forall_forall. intros c Hc. destruct (Forall2_elem_r _ _ _ _ Hf Hc) as (x & _ & Hx). by eapply Hn.
  - rewrite length_take in Hf. lia.
  - apply Forall_forall. intros c Hc. destruct (Forall2_elem_r _ _ _ _ Hf Hc) as (x & _ & Hx). by eapply Hn.
Qed.
End HopCreds.

(** Hops in order, with a credential for each but one. *)
Definition hops_whole (hops : list CascadeHopInput) (creds : list LinkCred) : Prop :=
  h_position <$> hops = seqZ 0 (Z.of_nat (length hops)) ∧ length creds = (length hops - 1)%nat ∧
  ∀ c, c ∈ creds → LINK_PORT_BASE <= port c.

Lemma hop_rows_lookup m hops creds i row : hop_rows m hops creds !! i = Some row → ∃ h, hops !! i = Some h ∧
  hr_nodeId row = h_nodeId h ∧
  (hr_linkConfig row = JNull ∨ ∃ k c, credIdx m (length hops) i = Some k ∧ creds !! k = Some c ∧ hr_linkConfig row = serializeLinkCred c).
Proof.
  unfold hop_rows. rewrite list_lookup_imap. destruct (hops !! i) as [h|]; [|done]. cbn. intros [= <-]. exists h. split; [done|]. split; [done|].
  cbn. destruct (credIdx m (length hops) i) as [k|]; [|by left]. cbn. destruct (creds !! k) as [c|] eqn:E; [|by left]. right. by exists k, c.
Qed.

Lemma hop_rows_order m hops creds : hops_whole hops creds → in_position_order (hop_rows m hops creds) = hop_rows m hops creds.
Proof.
  intros (Hp & _). unfold in_position_order. apply sort_by_sorted_id. apply (sorted_by_seqZ hr_position 0 (Z.of_nat (length hops))).
  rewrite <-Hp. unfold hop_rows. apply list_eq. intros i. rewrite !list_lookup_fmap, list_lookup_imap. by destruct (hops !! i).
Qed.

(** The hops listen where [receivingLinkPorts] says. *)
Lemma hops_listen m hops creds n p t : hops_whole hops creds →
  hop_receives (in_position_order (hop_rows m hops creds)) n p t →
  (n, p, t) ∈ receivingLinkPorts (h_nodeId <$> hops) (Some <$> creds).
Proof.
  intros Hw. rewrite hop_rows_order by done. destruct Hw as (_ & Hlen & _).
  intros (first & i & a & b & H0 & Ha & Hb & Hn & Hcl).
  destruct (hop_rows_lookup _ _ _ _ _ Hb) as (hb & Ehb & Enb & _).
  assert (∀ c, creds !! i = Some c → p = port c → t ∈ LINK_CELL_TRANSPORTS (protocol c) →
    (n, p, t) ∈ receivingLinkPorts (h_nodeId <$> hops) (Some <$> creds)) as Hgo.
  { intros c Hc -> Ht. unfold receivingLinkPorts. apply list_elem_of_bind. exists (h_nodeId hb, Some c). split.
    - cbn. rewrite <-Enb, Hn. by apply list_elem_of_fmap_2.
    - apply list_elem_of_lookup. exists i. apply lookup_zip_Some. rewrite lookup_tail, !list_lookup_fmap, Ehb, Hc. done. }
  assert (S i < length hops)%nat as Hi by (by eapply lookup_lt_Some).
  destruct (is_balancer m) eqn:Em.
  - destruct Hcl as [[[q Hq] _]|[_ Hcl]].
    { destruct (hop_rows_lookup _ _ _ _ _ H0) as (_ & _ & _ & [E|(k & c & E & _)]); [by rewrite E in Hq|].
      unfold credIdx in E. by rewrite Em in E. }
    destruct (hop_rows_lookup _ _ _ _ _ Hb) as (_ & _ & _ & [E|(k & c & E & Hc & Er)]); [rewrite E in Hcl; by apply null_claim in Hcl|].
    unfold credIdx in E. rewrite Em in E. injection E as <-. rewrite Er in Hcl. apply cred_claim in Hcl as [-> Ht]. by apply (Hgo c).
  - destruct Hcl as [[_ Hcl]|[Hnone _]].
    + destruct (hop_rows_lookup _ _ _ _ _ Ha) as (_ & _ & _ & [E|(k & c & E & Hc & Er)]); [rewrite E in Hcl; by apply null_claim in Hcl|].
      unfold credIdx in E. rewrite Em in E. destruct (i <? _)%nat; [|done]. injection E as <-.
      rewrite Er in Hcl. apply cred_claim in Hcl as [-> Ht]. by apply (Hgo c).
    + destruct Hnone. unfold holds_cred. unfold hop_rows in H0. rewrite list_lookup_imap in H0.
      destruct (hops !! 0%nat) as [h0|]; [|done]. cbn in H0. injection H0 as <-. cbn [hr_linkConfig].
      unfold credIdx. rewrite Em. rewrite (proj2 (Nat.ltb_lt 0 (length hops - 1))) by lia. cbn [mbind option_bind].
      destruct (creds !! 0%nat) as [c|] eqn:E; [rewrite cred_port_field; by eexists|]. apply lookup_ge_None in E. lia.
Qed.

Lemma hop_rows_ports m hops creds h p : hops_whole hops creds → h ∈ hop_rows m hops creds →
  jnum (jfield "port" (hr_linkConfig h)) = Some p → LINK_PORT_BASE <= p.
Proof.
  intros (_ & _ & Hb) (i & Hi)%list_elem_of_lookup. destruct (hop_rows_lookup _ _ _ _ _ Hi) as (_ & _ & _ & [->|(k & c & _ & Hc & ->)]); [done|].
  rewrite cred_port_field. intros [= <-]. apply Hb. by eapply list_elem_of_lookup_2.
Qed.

(** ** Tunnels *)
(** A tunnel after a save was there before, or no profile holds its port. *)
Lemma tunnels_asked {G} `{TunnelRandom G} fuel up nn cid ps ds table g table' g' :
  writeTunnels fuel up nn cid ps ds table g = Some (Ok table', g') →
  ∀ t, t ∈ table' → t ∈ table ∨ up (t_to t) (t_port t) = [].
Proof.
  unfold writeTunnels. cbv zeta. case_bool_decide.
  { intros [= <- <-] t [_ Ht]%list_elem_of_filter. by left. }
  destruct (freeTunnelIndexes _ _) as [ix|]; [|done]. destruct (create_rows _ _ _ g) as [[created g1]|]; [|done]. cbn [mbind option_bind].
  destruct (CascadeTunnel.conflicts up nn created) as [|c cs] eqn:Ec; [|done]. intros [= <- <-] t [Ht|Ht]%elem_of_app.
  - left. by apply list_elem_of_filter in Ht as [_ ?].
  - right. destruct (up (t_to t) (t_port t)) as [|name l] eqn:E; [done|]. exfalso.
    assert ((nn (t_to t), t_port t, name) ∈ CascadeTunnel.conflicts up nn created) as Hin.
    { unfold CascadeTunnel.conflicts. apply list_elem_of_bind. exists t. split; [|done]. rewrite E. by left. }
    rewrite Ec in Hin. by apply not_elem_of_nil in Hin.
Qed.

Lemma udp_free db n p : udp_profiles db n p = [] → (∀ b, b ∈ db_bindings db → is_Some (profile_by db (bi_profileId b))) →
  ∀ b, b ∈ db_bindings db → socket_of b ≠ (n, p, udp).
Proof.
  intros He Hfk b Hb E. unfold socket_of in E. injection E as <- <- Et. destruct (Hfk b Hb) as [q Hq].
  assert (pf_name q ∈ udp_profiles db (bi_nodeId b) (bi_port b)) as Hin; [|rewrite He in Hin; by apply not_elem_of_nil in Hin].
  unfold udp_profiles. apply list_elem_of_omap. exists (ProfileOwner (pf_name q) (bi_port b) udp). split; [|done].
  unfold portOwnersOnNode. apply profile_claims. split; [by left|]. exists b, q. done.
Qed.

(** ** Link rows *)
Section LinkRows.
Context {R G : Type} `{RandomOk R} `{TunnelRandomOk G patience} (fuel : nat).

(** What the request and the database give a topology's save. *)
Definition ids_ok (top : Topology) (ids : list string) (ds : list ResolvedDirection) : Prop :=
  NoDup ids ∧ (∀ i, i ∈ ids → i ∉ dr_id <$> direction_rows top) ∧ (length ds <= length ids)%nat.

Lemma written_links up nn cid policies ids ps ds v top tunnels (r : R) (g : G) top' tunnels' r' g' :
  topology_ok top → ids_ok top ids ds → validateCascadeTopology ps ds = Ok v → typed_topology (by_position ps) (pair 0 <$> ds) →
  writeTopologyV4 fuel up nn cid policies ids (v_positions v) (v_directions v) top tunnels r g = Some (Ok (top', tunnels'), r', g') →
  topology_ok top' ∧ (∀ t, t ∈ tunnels' → t ∈ tunnels ∨ up (t_to t) (t_port t) = []) ∧
  ∀ row t, row ∈ link_rows top' → t ∈ legTransports (lr_config row) → (lr_to row, lr_port row, t) ∈ topologyReceivingPorts ps ds.
Proof.
  intros Hok (Hnd & Hfresh & Hen) Hv Ht Hs.
  assert (v_positions v = by_position ps ∧ v_directions v = ds) as [Eps Eds].
  { apply validate_ok_iff in Hv as (_ & _ & _ & _ & _ & _ & _ & _ & ->). done. }
  rewrite Eds in Hs. split; [|split].
  - destruct (save_inv _ _ _ _ _ _ _ _ _ _ _ _ _ _ _ _ Hs) as (rs & n & ls & E & Hn & _ & _ & ->).
    destruct (rows_ok top ds rs n (v_positions v) ids Hok (resolve_ok _ _ _ _ Hok E) Hnd Hfresh Hen Hn) as [? ? ? ?]. by constructor.
  - unfold writeTopologyV4 in Hs. cbv zeta in Hs. destruct (resolve_tags _ _ _ _) as [rs n]. destruct (_ <? _); [done|].
    destruct (negb _); [done|]. destruct (generateTopologyLinks _ _ _ r) as [[ls r0]|]; [|done].
    destruct (writeTunnels _ _ _ _ _ _ _ g) as [[[tb|] g1]|] eqn:Et; [|done..]. cbn [mbind option_bind] in Hs. injection Hs as _ <- _ _.
    by eapply tunnels_asked.
  - destruct (save_inv _ _ _ _ _ _ _ _ _ _ _ _ _ _ _ _ Hs) as (rs & n & ls & E & _ & _ & (r0 & El) & ->).
    pose proof (resolve_ok _ _ _ _ Hok E) as Hres.
    assert ((tagged <$> rs).*2 = ds) as E2 by (rewrite <-list_fmap_compose; apply (res_directions _ _ _ _ Hres)).
    assert (NoDup (tagged <$> rs).*1) as Hnd1 by (rewrite <-list_fmap_compose; apply (res_tags _ _ _ _ Hres)).
    assert (typed_topology (v_positions v) (tagged <$> rs)) as Ht'.
    { rewrite Eps. split; [apply Ht|]. intros d Hd. apply (list_elem_of_fmap_2 snd) in Hd. rewrite E2 in Hd.
      by apply (proj2 Ht (0, d.2)), (list_elem_of_fmap_2 (pair 0)). }
    rewrite <-E2 in Hv. destruct (validated_facts _ _ _ Hv Hnd1 Ht') as (Hc & _ & _).
    destruct (receiving_matches_links ps (tagged <$> rs) v Hv Hnd1 Ht') as (legs & Eplan & _ & _ & Hports & _).
    rewrite plan_eq in Eplan by done. injection Eplan as <-.
    destruct (generate_ok (storedLinkMap (link_rows top)) (v_positions v) (tagged <$> rs) r (storedLinks_parsed _) Hc Ht')
      as (m & ls' & r1 & E' & _ & Hf). rewrite El in E'. injection E' as <- <-.
    intros row t Hrow Htr. cbn [link_rows] in Hrow. apply list_elem_of_fmap in Hrow as (l & -> & Hl).
    destruct (Forall2_elem_r _ _ _ _ Hf Hl) as (p & Hp & Hm). rewrite E2 in Hports. apply Hports. exists p.
    cbn [link_row_of lr_to lr_port lr_config] in Htr |- *. rewrite cred_transports, (made_cell _ _ _ _ Hm) in Htr.
    pose proof (made_ends _ _ _ _ Hm) as He. unfold leg_ends in He. injection He as _ -> _.
    split; [done|]. split; [done|]. split; [by rewrite (made_port _ _ _ _ Hm)|done].
Qed.
End LinkRows.

(** ** The panel's invariant *)
Record panel_ok (pn : Panel) : Prop := {
  po_sockets : sockets_ok (view pn);
  po_cascades : NoDup (sc_id <$> pn_cascades pn);
  po_topologies c : c ∈ pn_cascades pn → topology_ok (sc_topology c)
}.

(** Where one stored cascade listens, its tunnels apart. *)
Definition row_listens (c : StoredCascade) (n : string) (p : Z) (t : Transport) : Prop :=
  (∃ row, row ∈ link_rows (sc_topology c) ∧ lr_to row = n ∧ lr_port row = p ∧ t ∈ legTransports (lr_config row)) ∨
  hop_receives (in_position_order (sc_hops c)) n p t.

Lemma view_listens pn n p t : cascade_listens (view pn) n p t ↔
  (∃ c, c ∈ pn_cascades pn ∧ row_listens c n p t) ∨
  (∃ u, u ∈ pn_tunnels pn ∧ t_to u = n ∧ t_port u = p ∧ t = udp).
Proof.
  unfold cascade_listens, row_listens. cbn [view db_links db_tunnels db_hops]. split.
  - intros [(l & Hl & H1 & H2 & H3)|[(u & Hu & H1 & H2 & H3)|(c & Hc & Hr)]].
    + apply list_elem_of_bind in Hl as (c & Hl & Hc). apply list_elem_of_fmap in Hl as (row & -> & Hrow). left. exists c. split; [done|].
      left. by exists row.
    + apply list_elem_of_fmap in Hu as (x & -> & Hx). right. by exists x.
    + apply list_elem_of_fmap in Hc as (x & -> & Hx). left. exists x. split; [done|]. by right.
  - intros [(c & Hc & [(row & Hrow & H1 & H2 & H3)|Hr])|(u & Hu & H1 & H2 & H3)].
    + left. exists (NodePorts.mkLinkRow (sc_name c) (lr_to row) (lr_port row) (lr_config row)). split; [|done].
      apply list_elem_of_bind. exists c. split; [|done]. by apply (list_elem_of_fmap_2 (λ l, NodePorts.mkLinkRow (sc_name c) (lr_to l) (lr_port l) (lr_config l))).
    + right; right. exists (mkHopCascade (sc_name c) (sc_hops c)). split; [|done].
      by apply (list_elem_of_fmap_2 (λ c, mkHopCascade (sc_name c) (sc_hops c))).
    + right; left. exists (tunnel_of (pn_cascades pn) u). split; [by apply list_elem_of_fmap_2|done].
Qed.

Lemma view_hop_ports pn : hop_ports_ok (view pn) ↔ ∀ c h p, c ∈ pn_cascades pn → h ∈ sc_hops c →
  jnum (jfield "port" (hr_linkConfig h)) = Some p → LINK_PORT_BASE <= p.
Proof.
  unfold hop_ports_ok. cbn [view db_hops]. split.
  - intros H c h p Hc. apply (H (mkHopCascade (sc_name c) (sc_hops c))). by apply (list_elem_of_fmap_2 (λ c, mkHopCascade (sc_name c) (sc_hops c))).
  - intros H c h p (x & -> & Hx)%list_elem_of_fmap. by apply (H x).
Qed.

(** New cascade rows keep the sockets when whatever they add nobody holds. *)
Lemma cascades_written pn cs ts : sockets_ok (view pn) →
  (∀ c h p, c ∈ cs → h ∈ sc_hops c → jnum (jfield "port" (hr_linkConfig h)) = Some p → LINK_PORT_BASE <= p) →
  (∀ c n p t, c ∈ cs → row_listens c n p t → (∃ c0, c0 ∈ pn_cascades pn ∧ row_listens c0 n p t) ∨ (n, p, t) ∉ socket_of <$> pn_bindings pn) →
  (∀ u, u ∈ ts → u ∈ pn_tunnels pn ∨ (t_to u, t_port u, udp) ∉ socket_of <$> pn_bindings pn) →
  sockets_ok (view (set_cascades cs ts pn)).
Proof.
  intros Hok Hhops Hrows Htun. constructor; [apply Hok|apply Hok|apply (so_profiles _ Hok)|by apply view_hop_ports|].
  intros b Hb Hl. assert (socket_of b ∈ socket_of <$> pn_bindings pn) as Hin by by apply list_elem_of_fmap_2.
  assert (¬ cascade_listens (view pn) (bi_nodeId b) (bi_port b) (bi_transport b)) as Hfree by by apply (so_free _ Hok).
  rewrite view_listens in Hfree. apply view_listens in Hl as [(c & Hc & Hr)|(u & Hu & H1 & H2 & H3)]; cbn [set_cascades pn_cascades pn_tunnels] in *.
  - destruct (Hrows c _ _ _ Hc Hr) as [(c0 & ? & ?)|Hno]; [apply Hfree; left; by exists c0|done].
  - destruct (Htun u Hu) as [Hold|Hno]; [apply Hfree; right; by exists u|]. apply Hno. rewrite H1, H2, <-H3. done.
Qed.

(** ** Saves of cascades *)
Section Kept.
Context {R G : Type} `{RandomOk R} `{TunnelRandomOk G patience} (fuel : nat).
Context (refused : Panel → option string → CascadeInput → bool) (policies : list (string * string)).

(** What the request's schema and the database promise a cascade's save: cells
    and knobs that exist, and fresh ids for the rows of directions. *)
Definition payload_ok (top : Topology) (ids : list string) (p : Payload) : Prop :=
  ∀ ps ds, pl_topology p = Some (ps, ds) → ids_ok top ids ds ∧ typed_topology ps (pair 0 <$> ds).

Lemma gate_asked pn p kept hops m r creds r' : sockets_ok (view pn) → save_hops p kept = Ok (hops, m) →
  gate_ports pn p m (default [] hops) r = Ok (creds, r') →
  hops_whole (default [] hops) creds ∧
  ∀ n q t, (n, q, t) ∈ wanted_of (receivingLinkPorts (h_nodeId <$> default [] hops) (Some <$> creds)) (fst <$> pl_topology p) (snd <$> pl_topology p) →
    (n, q, t) ∉ socket_of <$> pn_bindings pn.
Proof.
  intros Hok Hh Hg. unfold gate_ports in Hg.
  destruct (cred_cells m (default [] hops)) as [cells|] eqn:Ec; [|done]. cbn in Hg. apply cred_cells_ok in Ec as [Hlen Hcells].
  destruct (generateLinkCreds cells None r) as [[cs r1]|] eqn:El; [|done]. cbn in Hg.
  apply bind_unit_ok in Hg as [Hgate Hg]. injection Hg as <- <-.
  apply linkCreds_from_ok in El as [Hl Hb]; [|done]. split.
  - split; [|split; [by rewrite Hl|done]]. unfold save_hops in Hh.
    destruct (match pl_topology p with None => _ | Some _ => _ end) as [folded|]; [|done]. cbn [mbind result_bind] in Hh.
    destruct (legacy_hops folded p) as [l|]; [|by injection Hh as <- _].
    destruct (validateCascadeHops l (effective_mode folded p kept)) as [vs|] eqn:Ev; [|done]. cbn in Hh. injection Hh as <- _. cbn [default].
    unfold validateCascadeHops in Ev. cbv zeta in Ev. apply bind_unit_ok in Ev as [_ Ev]. apply bind_unit_ok in Ev as [_ Ev].
    apply bind_unit_ok in Ev as [Hc Ev]. apply bind_unit_ok in Ev as [_ Ev]. apply bind_unit_ok in Ev as [_ Ev]. injection Ev as <-.
    apply throw_if_ok, negb_false_iff, contiguous_seqZ in Hc. by rewrite length_fmap in Hc.
  - intros n q t Hw (b & E & Hb')%list_elem_of_fmap.
    pose proof (link_gate (view pn) (receivingLinkPorts (h_nodeId <$> default [] hops) (Some <$> cs)) (fst <$> pl_topology p) (snd <$> pl_topology p)
      (so_profiles _ Hok)) as Hx.
    destruct (assertLinkPortsFree _ _ _ _) as [[]|]; [|done]. apply (Hx b Hb'). by rewrite <-E.
Qed.

(** What the transaction wrote of a cascade row whose hops are already set. *)
Definition wrote (pn : Panel) (p : Payload) (c c' : StoredCascade) (ts : list CascadeTunnel.TunnelRow) : Prop :=
  sc_id c' = sc_id c ∧ sc_hops c' = sc_hops c ∧ topology_ok (sc_topology c') ∧
  (∀ row, row ∈ link_rows (sc_topology c') → row ∈ link_rows (sc_topology c) ∨
     ∀ t, t ∈ legTransports (lr_config row) →
       (lr_to row, lr_port row, t) ∈ wanted_of [] (fst <$> pl_topology p) (snd <$> pl_topology p)) ∧
  ∀ u, u ∈ ts → u ∈ pn_tunnels pn ∨ (t_to u, t_port u, udp) ∉ socket_of <$> pn_bindings pn.

Lemma rows_wrote pn p c t ids r g c' ts : sockets_ok (view pn) → topology_ok (sc_topology c) → payload_ok (sc_topology c) ids p →
  validated p = Ok t → save_rows fuel policies pn c t ids r g = Some (Ok (c', ts)) → wrote pn p c c' ts.
Proof.
  intros Hok Htop Hp Hv Hs. unfold validated in Hv. destruct (pl_topology p) as [[ps ds]|] eqn:Ep.
  - destruct (validateCascadeTopology ps ds) as [v|] eqn:Ev; [|done]. cbn in Hv. injection Hv as <-. cbn [save_rows] in Hs.
    destruct (writeTopologyV4 _ _ _ _ _ _ _ _ _ _ r g) as [[[res r1] g1]|] eqn:Ew; [|done]. cbn in Hs.
    destruct res as [[top tb]|]; [|done]. cbn in Hs. injection Hs as <- <-.
    destruct (Hp ps ds Ep) as [Hids Ht].
    assert (typed_topology (by_position ps) (pair 0 <$> ds)) as Ht'.
    { split; [|apply Ht]. intros x k Hx. apply Ht. by rewrite <-(by_position_perm ps). }
    destruct (written_links fuel _ _ _ _ _ _ _ _ _ _ _ _ _ _ _ _ Htop Hids Ev Ht' Ew) as (Htop' & Htun & Hlinks).
    unfold wrote. cbn. rewrite Ep. split; [done|]. split; [done|]. split; [done|]. split.
    + intros row Hrow. right. intros t. by apply Hlinks.
    + intros u Hu. destruct (Htun u Hu) as [?|Hno]; [by left|right]. intros (b & E & Hb)%list_elem_of_fmap.
      by apply (udp_free _ _ _ Hno (so_profiles _ Hok) b Hb).
  - injection Hv as <-. injection Hs as <- <-. unfold wrote. split; [done|]. split; [done|]. split; [done|]. split; [by left|by left].
Qed.

(** A row the transaction wrote, with hops that are new or were there. *)
Lemma wrote_listens pn p kept hops m r creds r' c c' ts : sockets_ok (view pn) → save_hops p kept = Ok (hops, m) →
  gate_ports pn p m (default [] hops) r = Ok (creds, r') → wrote pn p c c' ts →
  sc_hops c = hop_rows m (default [] hops) creds ∨ sc_hops c = [] ∨ (∃ c0, c0 ∈ pn_cascades pn ∧ sc_hops c = sc_hops c0) →
  link_rows (sc_topology c) = [] ∨ (∃ c0, c0 ∈ pn_cascades pn ∧ sc_topology c = sc_topology c0) →
  (∀ h q, h ∈ sc_hops c' → jnum (jfield "port" (hr_linkConfig h)) = Some q → LINK_PORT_BASE <= q) ∧
  ∀ n q t, row_listens c' n q t → (∃ c0, c0 ∈ pn_cascades pn ∧ row_listens c0 n q t) ∨ (n, q, t) ∉ socket_of <$> pn_bindings pn.
Proof.
  intros Hok Hh Hg (_ & Ehops & _ & Hlinks & _) Hhops Htop. destruct (gate_asked _ _ _ _ _ _ _ _ Hok Hh Hg) as [Hw Hfree].
  assert (∀ n q t, (n, q, t) ∈ wanted_of [] (fst <$> pl_topology p) (snd <$> pl_topology p) → (n, q, t) ∉ socket_of <$> pn_bindings pn) as Hfree'.
  { intros n q t Hin. apply Hfree. unfold wanted_of in *. apply elem_of_app. by right. }
  rewrite Ehops. split.
  - intros h q Hin Hq. destruct Hhops as [E|[E|(c0 & Hc0 & E)]]; rewrite E in Hin.
    + by eapply hop_rows_ports.
    + by apply not_elem_of_nil in Hin.
    + by apply (proj1 (view_hop_ports pn) (so_hops _ Hok) c0 h q).
  - intros n q t [(row & Hrow & <- & <- & Ht)|Hr].
    + destruct (Hlinks row Hrow) as [Hold|Hnew]; [|right; by apply Hfree', Hnew]. left.
      destruct Htop as [E|(c0 & Hc0 & E)]; rewrite E in Hold; [by apply not_elem_of_nil in Hold|].
      exists c0. split; [done|]. left. by exists row.
    + rewrite Ehops in Hr. destruct Hhops as [E|[E|(c0 & Hc0 & E)]]; rewrite E in Hr.
      * right. apply Hfree. unfold wanted_of. apply elem_of_app. left. by eapply hops_listen.
      * by destruct Hr as (? & ? & ? & ? & ? & _).
      * left. exists c0. split; [done|]. by right.
Qed.

Lemma cascade_by_Some cs id c : cascade_by cs id = Some c → c ∈ cs ∧ sc_id c = id.
Proof. by intros [? ?%bool_decide_eq_true]%js_find_Some. Qed.

Lemma createCascade_keeps pn newId i ids r g pn' : panel_ok pn → newId ∉ sc_id <$> pn_cascades pn →
  payload_ok no_topology ids (in_payload i) →
  createCascade fuel refused policies pn newId i ids r g = Some (Ok pn') → panel_ok pn'.
Proof.
  intros [Hok Hids Htops] Hnew Hp. unfold createCascade. cbv zeta.
  destruct (save_hops (in_payload i) chain) as [[hops m]|] eqn:Eh; [|done]. cbn [mbind result_bind].
  destruct (gate_ports pn (in_payload i) m (default [] hops) r) as [[creds r1]|] eqn:Eg; [|done]. cbn [mbind result_bind].
  destruct (refused pn None i); [done|]. cbn [throw_if mbind result_bind].
  destruct (validated (in_payload i)) as [t|] eqn:Ev; [|done]. cbn [mbind result_bind].
  destruct (name_taken _ _ _); [done|]. cbn [throw_if mbind result_bind].
  destruct (save_rows _ _ _ _ _ _ _ _) as [[[c ts]|]|] eqn:Es; [|done..]. cbn. intros [= <-].
  set (c0 := mkStored newId _ m (hop_rows m (default [] hops) creds) no_topology) in Es.
  assert (topology_ok (sc_topology c0)) as Ht0.
  { constructor; cbn; [constructor|constructor|constructor|]. unfold MAX_DIRECTION_TAG. lia. }
  pose proof (rows_wrote pn _ c0 _ _ _ _ _ _ Hok Ht0 Hp Ev Es) as Hw.
  destruct (wrote_listens pn _ _ _ _ _ _ _ c0 c ts Hok Eh Eg Hw) as [Hports Hls]; [by left|by left|].
  pose proof Hw as (Eid & _ & Ht & _ & Htun). constructor; cbn [set_cascades pn_cascades].
  - apply cascades_written; [done| | |done].
    + intros x h q [Hx| ->%list_elem_of_singleton]%elem_of_app; [|apply Hports]. by apply (proj1 (view_hop_ports pn) (so_hops _ Hok)).
    + intros x n q t' [Hx| ->%list_elem_of_singleton]%elem_of_app Hr; [|by apply Hls]. left. by exists x.
  - rewrite fmap_app. apply NoDup_app. split; [done|]. split; [|apply NoDup_singleton].
    intros x Hx ->%list_elem_of_singleton. by rewrite Eid in Hx.
  - intros x [Hx| ->%list_elem_of_singleton]%elem_of_app; [by apply Htops|done].
Qed.

Lemma updateCascade_keeps pn id i ids r g pn' : panel_ok pn →
  (∀ c, c ∈ pn_cascades pn → sc_id c = id → payload_ok (sc_topology c) ids (in_payload i)) →
  updateCascade fuel refused policies pn id i ids r g = Some (Ok pn') → panel_ok pn'.
Proof.
  intros [Hok Hids Htops] Hp. unfold updateCascade. destruct (cascade_by _ _) as [c1|] eqn:Ec; [|done]. cbv zeta.
  apply cascade_by_Some in Ec as [Hc1 Hid1]. specialize (Hp c1 Hc1 Hid1).
  destruct (save_hops (in_payload i) (sc_mode c1)) as [[hops m]|] eqn:Eh; [|done]. cbn [mbind result_bind].
  destruct (gate_ports pn (in_payload i) m (default [] hops) r) as [[creds r1]|] eqn:Eg; [|done]. cbn [mbind result_bind].
  destruct (refused pn (Some id) i); [done|]. cbn [throw_if mbind result_bind].
  destruct (validated (in_payload i)) as [t|] eqn:Ev; [|done]. cbn [mbind result_bind].
  destruct (name_taken _ _ _); [done|]. cbn [throw_if mbind result_bind].
  destruct (save_rows _ _ _ _ _ _ _ _) as [[[c ts]|]|] eqn:Es; [|done..]. cbn. intros [= <-].
  set (c0 := mkStored id _ _ (next_hops c1 (in_payload i) m hops creds) (sc_topology c1)) in Es.
  pose proof (rows_wrote pn _ c0 _ _ _ _ _ _ Hok (Htops c1 Hc1) Hp Ev Es) as Hw.
  destruct (wrote_listens pn _ _ _ _ _ _ _ c0 c ts Hok Eh Eg Hw) as [Hports Hls].
  { unfold c0. cbn [sc_hops]. unfold next_hops. destruct hops as [hs|]; [by left|right].
    destruct (pl_topology (in_payload i)); [by left|]. right. by exists c1. }
  { right. by exists c1. }
  pose proof Hw as (Eid & _ & Ht & _ & Htun).
  assert (∀ x, x ∈ replace_cascade c (pn_cascades pn) → x = c ∨ x ∈ pn_cascades pn) as Hrep.
  { intros x (y & -> & Hy)%list_elem_of_fmap. case_bool_decide; [by left|by right]. }
  constructor; cbn [set_cascades pn_cascades].
  - apply cascades_written; [done| | |done].
    + intros x h q [->|Hx]%Hrep; [apply Hports|]. by apply (proj1 (view_hop_ports pn) (so_hops _ Hok)).
    + intros x n q t' [->|Hx]%Hrep Hr; [by apply Hls|]. left. by exists x.
  - unfold replace_cascade. rewrite <-list_fmap_compose.
    assert (sc_id ∘ (λ x, if bool_decide (sc_id x = sc_id c) then c else x) <$> pn_cascades pn = sc_id <$> pn_cascades pn) as ->; [|done].
    apply list_fmap_ext. intros k x _. cbn. by case_bool_decide.
  - intros x [->|Hx]%Hrep; [done|by apply Htops].
Qed.
End Kept.

Lemma deleteCascade_keeps policies pn id pn' : panel_ok pn → deleteCascade policies pn id = Some pn' → panel_ok pn'.
Proof.
  intros [Hok Hids Htops]. unfold deleteCascade. destruct (cascade_by _ _); [|done]. destruct (existsb _ _); [done|]. intros [= <-].
  assert (∀ x, x ∈ filter (λ c, sc_id c ≠ id) (pn_cascades pn) → x ∈ pn_cascades pn) as Hsub by by intros x [_ ?]%list_elem_of_filter.
  constructor; cbn [set_cascades pn_cascades].
  - apply cascades_written; [done| | |].
    + intros c h p Hc. by apply (proj1 (view_hop_ports pn) (so_hops _ Hok)), Hsub.
    + intros c n p t Hc Hr. left. exists c. split; [by apply Hsub|done].
    + intros u [_ Hu]%list_elem_of_filter. by left.
  - by apply NoDup_fmap_filter.
  - intros c Hc. by apply Htops, Hsub.
Qed.

Lemma panel_with_db pn db : panel_ok pn → sockets_ok db ∧ same_cascades (view pn) db → panel_ok (with_db pn db).
Proof. intros [Hok Hids Htops] [Hdb Hsame]. constructor; [by rewrite view_with_db|done|done]. Qed.

Lemma deleteNode_keeps pn id pn' : panel_ok pn → deleteNode pn id = Some pn' → panel_ok pn'.
Proof.
  intros [Hok Hids Htops]. unfold deleteNode. destruct (live_node _ _); [|done]. destruct (existsb _ _); [done|]. cbv zeta. intros [= <-].
  constructor; [|done|done]. apply (sockets_sub (view pn)); [done|done| | |]; cbn [view db_bindings pn_bindings].
  - apply NoDup_fmap_filter, Hok.
  - apply NoDup_fmap_filter, Hok.
  - intros b [_ Hb]%list_elem_of_filter. split; [done|]. by apply (so_profiles _ Hok).
Qed.

(** ** Any saves, one after another *)
Section Sequence.
Context {R G : Type} `{RandomOk R} `{TunnelRandomOk G patience} (fuel : nat).
Context (refused : Panel → option string → CascadeInput → bool) (policies : list (string * string)).

(** What a save may count on: ids the database gives are new, and what the
    schema of a cascade's request promises.  An edit of a profile's config asks
    nothing of cascades: here it moves no binding onto one's listener. *)
Definition accepted (pn : Panel) (s : save (R := R) (G := G)) : Prop :=
  match s with
  | SaveBinding _ newId _ | SaveHost _ newId _ | EditHost _ _ newId => newId ∉ bi_id <$> pn_bindings pn
  | EditConfig id config => ∀ p m, profile_by (view pn) id = Some p → m ∈ transport_moves (view pn) p config →
      ¬ cascade_listens (view pn) (bi_nodeId m.1) (bi_port m.1) m.2
  | SaveCascade newId i ids _ _ => newId ∉ sc_id <$> pn_cascades pn ∧ payload_ok no_topology ids (in_payload i)
  | EditCascade id i ids _ _ => ∀ c, c ∈ pn_cascades pn → sc_id c = id → payload_ok (sc_topology c) ids (in_payload i)
  | _ => True
  end.

Fixpoint all_accepted (pn : Panel) (ss : list save) : Prop :=
  match ss with
  | [] => True
  | s :: ss => accepted pn s ∧ all_accepted (run_save fuel refused policies pn s) ss
  end.

Lemma save_keeps pn s : panel_ok pn → accepted pn s → panel_ok (run_save fuel refused policies pn s).
Proof.
  intros Hok Ha. pose proof Hok as [Hs _ _].
  destruct s as [i b h|id i|id|id config|id|i b h|id i b|id|id|id i ids r g|id i ids r g|id]; cbn [run_save accepted] in *; cbv zeta.
  - destruct (createBinding _ i b h) as [[x db]|] eqn:E; [|done]. apply panel_with_db; [done|].
    split; [by eapply create_keeps|by eapply same_create].
  - destruct (updateBinding _ id i) as [[x db]|] eqn:E; [|done]. apply panel_with_db; [done|].
    split; [by eapply update_keeps|by eapply same_update].
  - destruct (deleteBinding _ id) as [db|] eqn:E; [|done]. apply panel_with_db; [done|]. split; [by eapply delete_keeps|].
    unfold deleteBinding in E. destruct (binding_by _ _); [|done]. by injection E as <-.
  - destruct (profile_by (view pn) id) as [p|] eqn:Ep; [|done]. destruct (writeConfig (view pn) p config) as [db|] eqn:E; [|done].
    apply panel_with_db; [done|]. eapply writeConfig_keeps; [done|by apply js_find_Some in Ep as [? _]| |done].
    intros m. by apply Ha.
  - destruct (deleteProfile _ id) as [db|] eqn:E; [|done]. apply panel_with_db; [done|]. by eapply deleteProfile_keeps.
  - destruct (createHost _ i b h) as [db|] eqn:E; [|done]. apply panel_with_db; [done|]. by eapply createHost_keeps.
  - destruct (updateHost _ id i b) as [db|] eqn:E; [|done]. apply panel_with_db; [done|]. by eapply updateHost_keeps.
  - destruct (deleteHost _ id) as [db|] eqn:E; [|done]. apply panel_with_db; [done|]. by eapply deleteHost_keeps.
  - destruct (deleteNode pn id) as [pn'|] eqn:E; [|done]. by eapply deleteNode_keeps.
  - destruct (createCascade _ _ _ _ _ _ _ _ _) as [[pn'|]|] eqn:E; [|done..]. destruct Ha. by eapply createCascade_keeps.
  - destruct (updateCascade _ _ _ _ _ _ _ _ _) as [[pn'|]|] eqn:E; [|done..]. by eapply updateCascade_keeps.
  - destruct (deleteCascade policies pn id) as [pn'|] eqn:E; [|done]. by eapply deleteCascade_keeps.
Qed.

(** C28. Whatever the saves are, and in whatever order they come, no two
    listeners end up on one socket of a node: bindings saved, edited and deleted
    by themselves or under a host that is created, moved or deleted, cascades
    created, edited and deleted with their hops, legs and tunnels, profiles and
    nodes deleted.  No two bindings share node, port and transport, and no
    binding shares them with a hop, a leg or a tunnel a cascade listens on.  One
    save asks nothing of cascades and is counted only where it moves no binding
    onto their listeners: an edit of a profile's config. *)
Theorem saves_keep_sockets pn ss : panel_ok pn → all_accepted pn ss →
  let pn' := run_saves fuel refused policies pn ss in
  panel_ok pn' ∧
  (∀ b1 b2, b1 ∈ pn_bindings pn' → b2 ∈ pn_bindings pn' → socket_of b1 = socket_of b2 → b1 = b2) ∧
  ∀ b, b ∈ pn_bindings pn' → ¬ cascade_listens (view pn') (bi_nodeId b) (bi_port b) (bi_transport b).
Proof.
  intros Hok Ha pn'. assert (panel_ok pn') as Hok'.
  { unfold pn', run_saves. clear pn'. revert pn Hok Ha. induction ss as [|s ss IH]; intros pn Hok Ha; [done|]. destruct Ha as [Hs Ha].
    apply IH; [by apply save_keeps|done]. }
  split; [done|]. destruct Hok' as [[H1' H2' _ _ H5'] _ _]. split; [|exact H5'].
  intros b1 b2 Hb1 Hb2 E. by apply (NoDup_fmap_elem socket_of (pn_bindings pn')).
Qed.
End Sequence.

(** ** A day of saves *)
Definition d_node (id : string) : NodeRow := mkNodeRow (mkNode id id None None JNull) (mkEngines (Some []) "none" false) false.
Definition d_panel : Panel :=
  mkPanel [w_profile "x" "xray" raw; w_profile "h" "hysteria" (JObj [])] [] (d_node <$> ["n1"; "n2"; "n3"]) [] [] [].

Definition d_cascade (exit : string) (u : option string) : CascadeInput :=
  mkCascadeInput (Some "west") (mkPayload None None (Some
    ([mkPosition ["n1"] 0 (Some "xray") (Some "vless") (Some (mkLegParams None u))],
     [mkResolvedDirection None None [exit] None (Some "NL") None None]))).

Definition d_host (node : string) (port : Z) : CreateHostInput := mkCreateHost (OnPort "x" node port) "Default" 0 None "default".
Definition d_binding (node : string) (port : Z) : CreateBinding := mkCreate "h" node port None None None true.

(** A host on the exit and a cascade whose leg rides a tunnel; then its two
    sockets asked for and refused, the host moved, the cascade led to another
    exit without a tunnel, and the tunnel's socket taken. *)
Definition d_saves : list (save (R := Z) (G := Z)) :=
  [SaveHost (d_host "n2" 443) "b1" "h1";
   SaveCascade "c1" (d_cascade "n2" (Some "awg")) ["row-1"] 100 0;
   SaveHost (d_host "n2" 24000) "b2" "h2";
   SaveBinding (d_binding "n2" 27000) "b3" "h3";
   EditHost "h1" (mkUpdateHost (Some 8443) None None None None None None) "b4";
   EditCascade "c1" (d_cascade "n3" None) ["row-2"] 200 0;
   SaveBinding (d_binding "n2" 27000) "b5" "h5";
   SaveHost (d_host "n3" 24001) "b6" "h6";
   SaveHost (d_host "n3" 24000) "b7" "h7"].

Definition d_run (k : nat) : Panel := run_saves 16 (λ _ _ _, false) [] d_panel (take k d_saves).

Definition d_listeners (pn : Panel) : list (string * Z * Transport) :=
  (pn_cascades pn ≫= λ c, link_rows (sc_topology c) ≫= λ l, (λ t, (lr_to l, lr_port l, t)) <$> legTransports (lr_config l)) ++
  ((λ u, (t_to u, t_port u, udp)) <$> pn_tunnels pn).

Lemma d_typed exit u : typed_topology [mkPosition ["n1"] 0 (Some "xray") (Some "vless") (Some (mkLegParams None u))]
  (pair 0 <$> [mkResolvedDirection None None [exit] None (Some "NL") None None]).
Proof.
  split.
  - intros p k ->%list_elem_of_singleton. done.
  - intros d ->%list_elem_of_singleton. split; [done|]. intros k. done.
Qed.

Ltac d_fresh := let Hin := fresh in intros Hin; vm_compute in Hin;
  repeat (apply elem_of_cons in Hin as [Hin|Hin]; [discriminate Hin|]); by apply not_elem_of_nil in Hin.

Theorem saves_keep_sockets_witness :
  socket_of <$> pn_bindings (d_run 5) = [("n2", 8443, tcp)] ∧
  d_listeners (d_run 5) = [("n2", 24000, tcp); ("n2", 27000, udp)] ∧
  socket_of <$> pn_bindings (d_run 9) = [("n2", 8443, tcp); ("n2", 27000, udp); ("n3", 24001, tcp)] ∧
  d_listeners (d_run 9) = [("n3", 24000, tcp)] ∧
  ∀ b, b ∈ pn_bindings (d_run 9) → ¬ cascade_listens (view (d_run 9)) (bi_nodeId b) (bi_port b) (bi_transport b).
Proof.
  split; [vm_compute; reflexivity|]. split; [vm_compute; reflexivity|]. split; [vm_compute; reflexivity|].
  split; [vm_compute; reflexivity|].
  eapply (saves_keep_sockets (patience := 4) 16 (λ _ _ _, false) [] d_panel d_saves).
  - constructor; [|apply NoDup_nil_2|by intros c ?%not_elem_of_nil].
    constructor; [apply NoDup_nil_2|apply NoDup_nil_2|by intros b ?%not_elem_of_nil|by intros c h p ?%not_elem_of_nil|by intros b ?%not_elem_of_nil].
  - unfold d_saves. cbn [all_accepted]. repeat (split; [lazymatch goal with
      | |- accepted _ (SaveCascade _ _ _ _ _) => split; [d_fresh|];
          intros ps ds E; injection E as <- <-; split; [|apply d_typed];
          split; [apply NoDup_singleton|]; split; [intros j _; apply not_elem_of_nil|vm_compute; lia]
      | |- accepted _ (EditCascade _ _ _ _ _) =>
          intros c Hc _ ps ds E; injection E as <- <-; split; [|apply d_typed]; split; [apply NoDup_singleton|]; split;
          [vm_compute in Hc; apply list_elem_of_singleton in Hc as ->; intros j ->%list_elem_of_singleton; d_fresh
          |vm_compute; lia]
      | |- accepted ?pn (SaveHost _ ?n _) => change (n ∉ bi_id <$> pn_bindings pn); d_fresh
      | |- accepted ?pn (SaveBinding _ ?n _) => change (n ∉ bi_id <$> pn_bindings pn); d_fresh
      | |- accepted ?pn (EditHost _ _ ?n) => change (n ∉ bi_id <$> pn_bindings pn); d_fresh
      end|]). exact I.
Defined.
