(* ===== verification/UserLife.v ===== *)
(** The life of a user (apps/panel-backend/src/modules/users: users.service.ts,
    users.cron.ts, users.events.ts, users.queue.ts): the status an edit leaves
    it in, the crons that end and renew it, and the jobs that make the nodes
    follow.

    The database is a map of rows; dates are milliseconds, bytes are integers.
    A row keeps the columns these functions read, and its squads.  A job of the
    queue [node-users] is its name, its user, its jobId and how often it has
    been tried.  An event's handler runs with its emitter, except the one of
    [user.traffic-reset], which reads before it writes and is two steps.  Of a
    node the model keeps the last request it took about each user; a job reads
    the database when it starts, and its requests land when it ends. *)

From S2P Require Import Prelude Js UserReach.

Local Open Scope string_scope.
Local Open Scope list_scope.
Local Open Scope Z_scope.

(** ** Users *)
Inductive Status := active | disabled | expired | limited.
#[global] Instance Status_eq_dec : EqDecision Status.
Proof. solve_decision. Defined.

Inductive TrafficLimitStrategy := no_reset | day | week | month | rolling.
#[global] Instance TrafficLimitStrategy_eq_dec : EqDecision TrafficLimitStrategy.
Proof. solve_decision. Defined.

Record UserTraffic := mkTraffic { usedTrafficBytes : Z; lastTrafficResetAt : option Z }.

Record User := mkUser {
  status : Status;
  expireAt : option Z;
  trafficLimitBytes : option Z;
  trafficLimitStrategy : TrafficLimitStrategy;
  deletedAt : option Z;
  updatedAt : Z;
  traffic : option UserTraffic;
  groupIds : list string
}.

(** What an edit may carry ([UpdateUserSchema]); of a nullish field, [None] is
    absent and [Some None] is null.  [status] is active or disabled only. *)
Record UpdateUserInput := mkUpdate {
  in_status : option Status;
  in_expireAt : option (option Z);
  in_trafficLimitGb : option (option Z);
  in_trafficLimitStrategy : option TrafficLimitStrategy;
  in_groupIds : option (list string)
}.

Definition BYTES_PER_GB : Z := 1073741824.
Definition ALL_SQUAD_ID : string := "00000000-0000-0000-0000-000000000001".

Definition gbToBytes (gb : option Z) : option Z := (λ g, g * BYTES_PER_GB) <$> gb.

Definition is_set {A} (o : option A) : bool := match o with Some _ => true | None => false end.

Definition used (x : User) : Z := default 0 (usedTrafficBytes <$> traffic x).

(** [expireAt && expireAt < now] *)
Definition passed (now : Z) (e : option Z) : bool := match e with Some t => t <? now | None => false end.

(** [limit !== null && used >= limit] *)
Definition spent (limit : option Z) (n : Z) : bool := match limit with Some l => l <=? n | None => false end.

Definition edited_expiry (x : User) (input : UpdateUserInput) : option Z :=
  match in_expireAt input with Some e => e | None => expireAt x end.
Definition edited_limit (x : User) (input : UpdateUserInput) : option Z :=
  match in_trafficLimitGb input with Some gb => gbToBytes gb | None => trafficLimitBytes x end.

Definition byFacts (now : Z) (x : User) (input : UpdateUserInput) : Status :=
  if passed now (edited_expiry x input) then expired
  else if spent (edited_limit x input) (used x) then limited else active.

Definition statusAfterEdit (now : Z) (existing : User) (input : UpdateUserInput) : option Status :=
  match in_status input with
  | Some disabled => Some disabled
  | Some active => Some (byFacts now existing input)
  | Some s => Some s
  | None =>
      let touched := (bool_decide (status existing = expired) && is_set (in_expireAt input)) ||
                     (bool_decide (status existing = limited) && is_set (in_trafficLimitGb input)) in
      if negb touched then None else
      let next := byFacts now existing input in
      if bool_decide (next = status existing) then None else Some next
  end.

Definition live (x : User) : bool := negb (is_set (deletedAt x)).
Definition alive_row (x : User) : bool := live x && bool_decide (status x = active).

(** ** Jobs and nodes *)

(** [addUser] or [removeUser]; [j_day] is the day of the jobId the reconcile
    gives, [j_made] the attempts made. *)
Record Job := mkJob { j_add : bool; j_user : string; j_day : option Z; j_made : nat }.
#[global] Instance Job_eq_dec : EqDecision Job.
Proof. solve_decision. Defined.

Definition ATTEMPTS : nat := 3.

(** A request to an agent: put the user on these inbounds, or take it off. *)
Inductive Sent := SentAdd (inboundIds : list string) | SentRemove.
#[global] Instance Sent_eq_dec : EqDecision Sent.
Proof. solve_decision. Defined.

Record Run := mkRun { r_job : Job; r_calls : list (string * Sent) }.

Record NodeRow := mkNodeRow { nd_id : string; nd_deleted : bool; nd_disabled : bool; nd_lastInboundSyncAt : option Z }.

Record World := mkWorld {
  users : gmap string User;
  tables : Db;                                  (* what the squads reach; its [members] are in the rows *)
  queue : list Job;                             (* waiting *)
  runs : list Run;                              (* taken by a worker *)
  failed : list Job;                            (* out of attempts *)
  kept : list (string * Z);                     (* jobIds of finished jobs the queue still knows *)
  resets : list string;                         (* user.traffic-reset emitted, handler not begun *)
  lifts : list string;                          (* the handler has read a limited user *)
  edits : list (string * (UpdateUserInput * User)); (* an edit that has read the row *)
  held : gmap (string * string) Sent            (* node and user: the last request taken *)
}.

Definition on_users (f : gmap string User → gmap string User) (w : World) : World :=
  mkWorld (f (users w)) (tables w) (queue w) (runs w) (failed w) (kept w) (resets w) (lifts w) (edits w) (held w).
Definition on_queue (f : list Job → list Job) (w : World) : World :=
  mkWorld (users w) (tables w) (f (queue w)) (runs w) (failed w) (kept w) (resets w) (lifts w) (edits w) (held w).
Definition on_resets (f : list string → list string) (w : World) : World :=
  mkWorld (users w) (tables w) (queue w) (runs w) (failed w) (kept w) (f (resets w)) (lifts w) (edits w) (held w).
Definition on_lifts (f : list string → list string) (w : World) : World :=
  mkWorld (users w) (tables w) (queue w) (runs w) (failed w) (kept w) (resets w) (f (lifts w)) (edits w) (held w).
Definition on_edits (f : list (string * (UpdateUserInput * User)) → list (string * (UpdateUserInput * User))) (w : World) : World :=
  mkWorld (users w) (tables w) (queue w) (runs w) (failed w) (kept w) (resets w) (lifts w) (f (edits w)) (held w).
Definition on_tables (T : Db) (w : World) : World :=
  mkWorld (users w) T (queue w) (runs w) (failed w) (kept w) (resets w) (lifts w) (edits w) (held w).

Definition addUser (u : string) : Job := mkJob true u None 0.
Definition removeUser (u : string) : Job := mkJob false u None 0.

(** [nodeUsersQueue.add] without a jobId *)
Definition add_jobs (js : list Job) : World → World := on_queue (λ q, q ++ js).

Definition job_ids (w : World) : list (string * Z) :=
  omap (λ j, (λ d, (j_user j, d)) <$> j_day j) (queue w ++ (r_job <$> runs w) ++ failed w) ++ kept w.

(** With a jobId: a job the queue still knows is not added again. *)
Definition add_job_once (j : Job) (w : World) : World :=
  match j_day j with
  | Some d => if bool_decide ((j_user j, d) ∈ job_ids w) then w else add_jobs [j] w
  | None => add_jobs [j] w
  end.

(** ** Events *)

(** The handler of [user.status-changed], without the alert. *)
Definition onStatusChanged (u : string) (from to : Status) : World → World :=
  add_jobs ((if bool_decide (to = active) then [] else [removeUser u]) ++
            (if bool_decide (to = active) && negb (bool_decide (from = active)) then [addUser u] else [])).

(** The handler of [user.updated]. *)
Definition onUserUpdated (u : string) (changes : list string) : World → World :=
  add_jobs (if bool_decide ("groupIds" ∈ changes) || bool_decide ("credentials" ∈ changes) then [addUser u] else []).

(** The handler of [user.traffic-reset], up to its read and from its write. *)
Definition onTrafficReset_read (u : string) (w : World) : World :=
  match users w !! u with
  | Some x => if live x && bool_decide (status x = limited) then on_lifts (λ l, l ++ [u]) w else w
  | None => w
  end.

Definition with_status (now : Z) (s : Status) (x : User) : User :=
  mkUser s (expireAt x) (trafficLimitBytes x) (trafficLimitStrategy x) (deletedAt x) now (traffic x) (groupIds x).

Definition onTrafficReset_write (now : Z) (u : string) (w : World) : World :=
  onStatusChanged u limited active (on_users (alter (with_status now active) u) w).

(** ** The service *)
Inductive UserError := UserNotFoundError (id : string).

Definition findActiveById (u : string) (w : World) : option User :=
  match users w !! u with Some x => if live x then Some x else None | None => None end.

(** The columns of a new user. *)
Definition created (now : Z) (expireAt expireDays trafficLimitGb : option Z) (strategy : TrafficLimitStrategy)
    (groups : list string) : User :=
  mkUser active
    (match expireAt with Some t => Some t | None => (λ d, now + d * 24 * 60 * 60 * 1000) <$> expireDays end)
    (gbToBytes trafficLimitGb) strategy None now (Some (mkTraffic 0 None))
    (if bool_decide (groups = []) then [ALL_SQUAD_ID] else groups).

Definition createUser (u : string) (x : User) (w : World) : World :=
  add_jobs [addUser u] (on_users (<[u := x]>) w).

Definition edited (now : Z) (next : option Status) (input : UpdateUserInput) (x : User) : User :=
  mkUser (default (status x) next) (edited_expiry x input) (edited_limit x input)
    (default (trafficLimitStrategy x) (in_trafficLimitStrategy input)) (deletedAt x) now (traffic x)
    (match in_groupIds input with
     | Some gs => if bool_decide (gs = []) then [ALL_SQUAD_ID] else gs
     | None => groupIds x
     end).

Definition changedFields (next : option Status) (input : UpdateUserInput) : list string :=
  (if is_set next then ["status"] else []) ++
  (if is_set (in_trafficLimitGb input) then ["trafficLimitBytes"] else []) ++
  (if is_set (in_trafficLimitStrategy input) then ["trafficLimitStrategy"] else []) ++
  (if is_set (in_expireAt input) then ["expireAt"] else []) ++
  (if is_set (in_groupIds input) then ["groupIds"] else []).

(** [updateUser] from its write on; [existing] is the row it read. *)
Definition updateUser_write (now : Z) (u : string) (input : UpdateUserInput) (existing : User) (w : World) : World :=
  let next := statusAfterEdit now existing input in
  let w := on_users (alter (edited now next input) u) w in
  let w := onUserUpdated u (changedFields next input) w in
  match next with
  | Some s => if bool_decide (s = status existing) then w else onStatusChanged u (status existing) s w
  | None => w
  end.

Definition updateUser (now : Z) (u : string) (input : UpdateUserInput) (w : World) : result UserError World :=
  match findActiveById u w with
  | Some existing => Ok (updateUser_write now u input existing w)
  | None => Throw (UserNotFoundError u)
  end.

Definition soft_deleted (now : Z) (x : User) : User :=
  mkUser (status x) (expireAt x) (trafficLimitBytes x) (trafficLimitStrategy x) (Some now) now (traffic x) (groupIds x).

Definition deleteUser (now : Z) (u : string) (w : World) : result UserError World :=
  match findActiveById u w with
  | Some _ => Ok (add_jobs [removeUser u] (on_users (alter (soft_deleted now) u) w))
  | None => Throw (UserNotFoundError u)
  end.

Definition with_traffic (f : option UserTraffic → option UserTraffic) (x : User) : User :=
  mkUser (status x) (expireAt x) (trafficLimitBytes x) (trafficLimitStrategy x) (deletedAt x) (updatedAt x)
    (f (traffic x)) (groupIds x).

Definition resetUserTraffic (now : Z) (u : string) (w : World) : result UserError World :=
  match findActiveById u w with
  | Some _ =>
      Ok (on_resets (λ l, l ++ [u]) (on_users (alter (with_traffic (λ _, Some (mkTraffic 0 (Some now)))) u) w))
  | None => Throw (UserNotFoundError u)
  end.

Definition DAY_MS : Z := 24 * 60 * 60 * 1000.

(** The date the bulk action [extend] sends to [updateUser]. *)
Definition extended (now : Z) (expireDays : Z) (x : User) : Z :=
  match expireAt x with Some t => if now <? t then t else now | None => now end + expireDays * DAY_MS.

Definition bulk_extend (now : Z) (expireDays : Z) (u : string) (w : World) : result UserError World :=
  match findActiveById u w with
  | Some x => updateUser now u (mkUpdate None (Some (Some (extended now expireDays x))) None None None) w
  | None => Throw (UserNotFoundError u)
  end.

(** ** The crons *)
Definition ids_where (p : User → bool) (w : World) : list string :=
  fst <$> filter (λ kv, p kv.2 = true) (map_to_list (users w)).

Definition update_where (p : User → bool) (f : User → User) : World → World :=
  on_users (fmap (λ x, if p x then f x else x)).

Definition due_expired (now : Z) (x : User) : bool :=
  bool_decide (status x = active) && live x && passed now (expireAt x).

Definition due_exceeded (x : User) : bool :=
  bool_decide (status x = active) && live x &&
  match traffic x with Some t => spent (trafficLimitBytes x) (usedTrafficBytes t) | None => false end.

(** The statement, the removals queued by the cron, then the events'. *)
Definition flip_due (p : User → bool) (now : Z) (s : Status) (w : World) : World :=
  let ids := ids_where p w in
  foldl (λ w u, onStatusChanged u active s w) (add_jobs (removeUser <$> ids) (update_where p (with_status now s) w)) ids.

Definition findExpiredUsers (now : Z) (w : World) : World := flip_due (due_expired now) now expired w.
Definition findExceededTrafficUsers (now : Z) (w : World) : World := flip_due due_exceeded now limited w.

Definition reset_where (p : User → bool) (now : Z) (w : World) : World :=
  on_resets (λ l, l ++ ids_where p w)
    (update_where p (with_traffic (fmap (λ _, mkTraffic 0 (Some now)))) w).

Definition resetTrafficForStrategy (s : TrafficLimitStrategy) (now : Z) : World → World :=
  reset_where (λ x, bool_decide (trafficLimitStrategy x = s) && live x) now.

Definition ROLLING_WINDOW_MS : Z := 30 * 24 * 60 * 60 * 1000.

Definition rolling_due (now : Z) (x : User) : bool :=
  bool_decide (trafficLimitStrategy x = rolling) && live x &&
  match traffic x ≫= lastTrafficResetAt with Some t => t <? now - ROLLING_WINDOW_MS | None => true end.

Definition resetTrafficRolling (now : Z) : World → World := reset_where (rolling_due now) now.

Definition orphan (now : Z) (x : User) : bool :=
  (now - 24 * 60 * 60 * 1000 <=? updatedAt x) && (updatedAt x <=? now - 15 * 60 * 1000) &&
  (negb (bool_decide (status x = active)) || negb (live x)).

Definition reconcileOrphanNodeUsers (now : Z) (w : World) : World :=
  foldl (λ w u, add_job_once (mkJob false u (Some (now / 86400000)) 0) w) w (ids_where (orphan now) w).

(** ** The worker *)
Section Worker.
Context (fleet : list NodeRow).

Definition fetchActiveNodes : list NodeRow := filter (λ n, negb (nd_deleted n) && negb (nd_disabled n) = true) fleet.

(** [reachOfUsers([u])] for an active user of these squads. *)
Definition reach_of (T : Db) (u : string) (gs : list string) : list (string * list string) :=
  default [] (jm_get u (reachOfUsers
    (mkDb ((λ g, mkMember u g true) <$> gs) (groupProfile T) (groupHost T) (bindings T) (cascades T) (deadIds T)
          (groupCascadeOff T) (groupCascadeExit T) (groupRoutePolicy T)) (Some [u]) None)).

(** What [syncAddUser] sends a node, if anything. *)
Definition add_call (reach : list (string * list string)) (n : NodeRow) : option (string * Sent) :=
  match jm_get (nd_id n) reach with
  | None => Some (nd_id n, SentRemove)
  | Some inboundIds => if is_set (nd_lastInboundSyncAt n) then Some (nd_id n, SentAdd inboundIds) else None
  end.

(** [None] is a job that skips. *)
Definition syncAddUser (u : string) (w : World) : option (list (string * Sent)) :=
  match findActiveById u w with
  | Some x => if bool_decide (status x = active)
              then Some (omap (add_call (reach_of (tables w) u (groupIds x))) fetchActiveNodes) else None
  | None => None
  end.

Definition syncRemoveUser (u : string) (w : World) : option (list (string * Sent)) :=
  let skip := match users w !! u with Some x => live x && bool_decide (status x = active) | None => false end in
  if skip then None else Some ((λ n, (nd_id n, SentRemove)) <$> fetchActiveNodes).

Definition job_calls (j : Job) : World → option (list (string * Sent)) :=
  if j_add j then syncAddUser (j_user j) else syncRemoveUser (j_user j).

Definition keep_id (j : Job) (l : list (string * Z)) : list (string * Z) :=
  match j_day j with Some d => (j_user j, d) :: l | None => l end.

(** A worker takes the job waiting between [q1] and [q2] and reads. *)
Definition start (q1 : list Job) (j : Job) (q2 : list Job) (w : World) : World :=
  match job_calls j w with
  | Some calls => mkWorld (users w) (tables w) (q1 ++ q2) (runs w ++ [mkRun j calls]) (failed w) (kept w)
                    (resets w) (lifts w) (edits w) (held w)
  | None => mkWorld (users w) (tables w) (q1 ++ q2) (runs w) (failed w) (keep_id j (kept w))
              (resets w) (lifts w) (edits w) (held w)
  end.

Definition deliver (took : string → bool) (u : string) (calls : list (string * Sent)) (h : gmap (string * string) Sent) :=
  foldl (λ h c, if took c.1 then <[(c.1, u) := c.2]> h else h) h calls.

(** [fanOut]: the calls of the run between [r1] and [r2] end; [took] says which
    nodes took theirs, [ok] which answered.  A failure throws, and the queue
    tries the job again while it has attempts left. *)
Definition land (took ok : string → bool) (r1 : list Run) (r : Run) (r2 : list Run) (w : World) : World :=
  let j := r_job r in
  let h := deliver took (j_user j) (r_calls r) (held w) in
  if forallb (λ c, ok c.1) (r_calls r)
  then mkWorld (users w) (tables w) (queue w) (r1 ++ r2) (failed w) (keep_id j (kept w)) (resets w) (lifts w) (edits w) h
  else
    let again := mkJob (j_add j) (j_user j) (j_day j) (S (j_made j)) in
    if (S (j_made j) <? ATTEMPTS)%nat
    then mkWorld (users w) (tables w) (queue w ++ [again]) (r1 ++ r2) (failed w) (kept w) (resets w) (lifts w) (edits w) h
    else mkWorld (users w) (tables w) (queue w) (r1 ++ r2) (failed w ++ [again]) (kept w) (resets w) (lifts w) (edits w) h.

(** The handler of [squad.changed]: the active members are rolled out again. *)
Definition squadChanged (squad : string) (T : Db) (w : World) : World :=
  add_jobs (addUser <$> ids_where (λ x, bool_decide (squad ∈ groupIds x) && alive_row x) w) (on_tables T w).

(** ** Steps

    Requests, crons, handlers and workers in any order; an edit reads the row and
    writes later, whatever comes between.  With [serial] no two jobs of one user
    run at once, and an edit that writes finds the status it has read. *)
Inductive step (serial : bool) (w : World) : World → Prop :=
  | step_create u now e d gb s gs : users w !! u = None →
      step serial w (createUser u (created now e d gb s gs) w)
  | step_update now u input w' : updateUser now u input w = Ok w' → step serial w w'
  | step_delete now u w' : deleteUser now u w = Ok w' → step serial w w'
  | step_reset now u w' : resetUserTraffic now u w = Ok w' → step serial w w'
  | step_extend now d u w' : bulk_extend now d u w = Ok w' → step serial w w'
  | step_bill u f : step serial w (on_users (alter (with_traffic f) u) w)
  | step_strategy s now : step serial w (resetTrafficForStrategy s now w)
  | step_rolling now : step serial w (resetTrafficRolling now w)
  | step_expire now : step serial w (findExpiredUsers now w)
  | step_exceed now : step serial w (findExceededTrafficUsers now w)
  | step_reconcile now : step serial w (reconcileOrphanNodeUsers now w)
  | step_handle u r1 r2 : resets w = r1 ++ u :: r2 →
      step serial w (onTrafficReset_read u (on_resets (λ _, r1 ++ r2) w))
  | step_lift now u l1 l2 : lifts w = l1 ++ u :: l2 →
      step serial w (onTrafficReset_write now u (on_lifts (λ _, l1 ++ l2) w))
  | step_squad squad T : (∀ u gs, squad ∉ gs → reach_of T u gs = reach_of (tables w) u gs) →
      step serial w (squadChanged squad T w)
  | step_start q1 j q2 : queue w = q1 ++ j :: q2 →
      (serial = true → ∀ r, r ∈ runs w → j_user (r_job r) ≠ j_user j) →
      step serial w (start q1 j q2 w)
  | step_land took ok r1 r r2 : runs w = r1 ++ r :: r2 → (∀ n, ok n = true → took n = true) →
      step serial w (land took ok r1 r r2 w)
  | step_forget ids : step serial w (mkWorld (users w) (tables w) (queue w) (runs w) (failed w)
      (filter (.∉ ids) (kept w)) (resets w) (lifts w) (edits w) (held w))
  | step_read u input x : findActiveById u w = Some x →
      step serial w (on_edits (λ l, l ++ [(u, (input, x))]) w)
  | step_write now u input x l1 l2 : edits w = l1 ++ (u, (input, x)) :: l2 →
      (serial = true → ∀ y, users w !! u = Some y → status y = status x) →
      step serial w (updateUser_write now u input x (on_edits (λ _, l1 ++ l2) w)).
End Worker.

(** ** Small facts *)
Lemma elem_of_ids_where p w u : u ∈ ids_where p w ↔ ∃ x, users w !! u = Some x ∧ p x = true.
Proof.
  unfold ids_where. rewrite list_elem_of_fmap. split.
  - intros ([u' x] & -> & [Hp Hin]%list_elem_of_filter). exists x. by apply elem_of_map_to_list in Hin.
  - intros (x & Hx & Hp). exists (u, x). split; [done|]. apply list_elem_of_filter. split; [done|]. by apply elem_of_map_to_list.
Qed.

Lemma add_jobs_app js ks w : add_jobs ks (add_jobs js w) = add_jobs (js ++ ks) w.
Proof. unfold add_jobs, on_queue. cbn. by rewrite app_assoc. Qed.

Lemma add_jobs_nil w : add_jobs [] w = w.
Proof. unfold add_jobs, on_queue. destruct w. cbn. by rewrite app_nil_r. Qed.

Lemma foldl_add_jobs (f : string → list Job) us w :
  foldl (λ w u, add_jobs (f u) w) w us = add_jobs (us ≫= f) w.
Proof.
  revert w. induction us as [|u us IH]; intros w; cbn; [by rewrite add_jobs_nil|].
  rewrite IH. apply add_jobs_app.
Qed.

Lemma flip_due_jobs p now s w : s ≠ active →
  flip_due p now s w = add_jobs ((removeUser <$> ids_where p w) ++ (removeUser <$> ids_where p w))
    (update_where p (with_status now s) w).
Proof.
  intros Hs. unfold flip_due, onStatusChanged. rewrite foldl_add_jobs, add_jobs_app. f_equal. f_equal.
  rewrite bool_decide_eq_false_2 by done. cbn. induction (ids_where p w) as [|u us IH]; cbn; [done|]. by rewrite <-IH.
Qed.

Lemma lookup_alter_row (f : User → User) (m : gmap string User) u v :
  alter f u m !! v = if decide (u = v) then f <$> m !! v else m !! v.
Proof. case_decide; [subst; by rewrite lookup_alter_eq|by rewrite lookup_alter_ne]. Qed.

(** ** The nodes follow the status *)
Section Follow.
Context (fleet : list NodeRow).

Definition row_alive (o : option User) : bool := match o with Some x => alive_row x | None => false end.
Definition alive (w : World) (u : string) : bool := row_alive (users w !! u).

(** What the nodes are to be told of the user, as the database stands. *)
Definition right_calls (w : World) (u : string) : list (string * Sent) :=
  if alive w u
  then omap (add_call (reach_of (tables w) u (default [] (groupIds <$> users w !! u)))) (fetchActiveNodes fleet)
  else (λ n, (nd_id n, SentRemove)) <$> fetchActiveNodes fleet.

(** A node that took no request about the user holds none. *)
Definition holds (h : gmap (string * string) Sent) (u : string) (c : string * Sent) : Prop :=
  default SentRemove (h !! (c.1, u)) = c.2.

Definition settled (w : World) (u : string) : Prop := Forall (holds (held w) u) (right_calls w u).

Definition wanted (w : World) (u : string) : Prop := ∃ j, j ∈ queue w ∧ j_user j = u ∧ j_add j = alive w u.

Definition idle (w : World) (u : string) : Prop := ∀ r, r ∈ runs w → j_user (r_job r) ≠ u.

(** The user is where it belongs, or the job that puts it there waits, runs, or
    has used up its attempts. *)
Definition followed (w : World) (u : string) : Prop :=
  wanted w u ∨ (∃ j, j ∈ failed w ∧ j_user j = u) ∨
  (∃ r, r ∈ runs w ∧ j_user (r_job r) = u ∧ j_add (r_job r) = alive w u ∧ r_calls r = right_calls w u) ∨
  (idle w u ∧ settled w u).

Definition single (w : World) : Prop := NoDup ((λ r, j_user (r_job r)) <$> runs w).
Definition consistent (w : World) : Prop := single w ∧ ∀ u, followed w u.

Lemma job_calls_right j w :
  job_calls fleet j w = if bool_decide (j_add j = alive w (j_user j)) then Some (right_calls w (j_user j)) else None.
Proof.
  unfold job_calls, syncAddUser, syncRemoveUser, findActiveById, right_calls, alive, row_alive, alive_row.
  destruct (j_add j), (users w !! j_user j) as [x|]; cbn; try done;
    destruct (live x); cbn; try done; destruct (decide (status x = active)) as [E|E];
    rewrite ?(bool_decide_true _ E), ?(bool_decide_false _ E); done.
Qed.

(** What a request, a cron or a handler does: runs and nodes are left alone, no
    job is lost, and a user whose calls change has a job that makes them. *)
Definition same_for (w w' : World) (u : string) : Prop :=
  alive w' u = alive w u ∧ right_calls w' u = right_calls w u.

Record follows (w w' : World) : Prop := mkFollows {
  fo_runs : runs w' = runs w;
  fo_failed : failed w' = failed w;
  fo_held : held w' = held w;
  fo_queue : ∀ j, j ∈ queue w → j ∈ queue w';
  fo_user : ∀ u, wanted w' u ∨ same_for w w' u
}.

Lemma follows_consistent w w' : follows w w' → consistent w → consistent w'.
Proof.
  intros [Hr Hf Hh Hq Hu] [Hs Hall]. split; [unfold single; by rewrite Hr|]. intros u.
  destruct (Hu u) as [Hw|[Ha Hc]]; [by left|].
  destruct (Hall u) as [(j & Hj & Hju & Hja)|[(j & Hj & Hju)|[(r & Hin & Hru & Hra & Hrc)|[Hi Hset]]]].
  - left. exists j. rewrite Ha. auto.
  - right; left. exists j. by rewrite Hf.
  - right; right; left. exists r. by rewrite Hr, Ha, Hc.
  - right; right; right. split; [intros r; rewrite Hr; apply Hi|]. unfold settled. by rewrite Hc, Hh.
Qed.

Lemma same_calls w w' u : tables w' = tables w → alive w' u = alive w u →
  (alive w u = true → groupIds <$> users w' !! u = groupIds <$> users w !! u) → same_for w w' u.
Proof.
  intros HT Ha Hg. split; [done|]. unfold right_calls. rewrite Ha, HT. destruct (alive w u) eqn:E; [|done]. by rewrite Hg.
Qed.

(** The rows of one map against another, by one user. *)
Lemma same_row w w' u : tables w' = tables w → users w' !! u = users w !! u → same_for w w' u.
Proof. intros HT Hu. apply same_calls; [done|unfold alive; by rewrite Hu|intros _; by rewrite Hu]. Qed.

Lemma same_mapped w w' u (f : User → User) : tables w' = tables w → users w' !! u = f <$> users w !! u →
  (∀ x, users w !! u = Some x → alive_row (f x) = alive_row x ∧ (alive_row x = true → groupIds (f x) = groupIds x)) →
  same_for w w' u.
Proof.
  intros HT Hu Hf. unfold alive in *. destruct (users w !! u) as [x|] eqn:E; cbn in Hu.
  - destruct (Hf x eq_refl) as [Ha Hg]. apply same_calls; [done| |]; unfold alive; rewrite Hu, E; cbn; [done|].
    intros Hax. by rewrite Hg.
  - apply same_row; [done|]. by rewrite Hu, E.
Qed.

Lemma wanted_add js w u j : j ∈ js → j_user j = u → j_add j = alive w u → wanted (add_jobs js w) u.
Proof. intros Hj Hu Ha. exists j. split; [|done]. cbn. apply elem_of_app. by right. Qed.

Lemma follows_jobs js w w' : follows w w' → follows w (add_jobs js w').
Proof.
  intros [Hr Hf Hh Hq Hu]. split; try done.
  - intros j Hj. cbn. apply elem_of_app. left. auto.
  - intros u. destruct (Hu u) as [(j & Hj & Hju & Hja)|Hs]; [left|by right].
    exists j. split; [|done]. cbn. apply elem_of_app. by left.
Qed.

Lemma follows_refl w : follows w w.
Proof. split; try done. intros u. by right. Qed.

(** A change of one row, followed by jobs. *)
Lemma follows_alter (f : User → User) v js w :
  (∀ x, users w !! v = Some x →
     (∃ j, j ∈ js ∧ j_user j = v ∧ j_add j = alive_row (f x)) ∨
     (alive_row (f x) = alive_row x ∧ (alive_row x = true → groupIds (f x) = groupIds x))) →
  follows w (add_jobs js (on_users (alter f v) w)).
Proof.
  intros Hf. split; try done; [intros j Hj; cbn; apply elem_of_app; by left|]. intros u.
  destruct (decide (v = u)) as [<-|Hne].
  - destruct (users w !! v) as [x|] eqn:E.
    + destruct (Hf x eq_refl) as [(j & Hj & Hju & Hja)|Hsame].
      * left. exists j. split; [cbn; apply elem_of_app; by right|]. split; [done|].
        rewrite Hja. unfold alive. cbn. by rewrite lookup_alter_eq, E.
      * right. eapply (same_mapped _ _ _ f); [done|cbn; by rewrite lookup_alter_eq|]. rewrite E. intros y. congruence.
    + right. apply same_row; [done|]. cbn. by rewrite lookup_alter_eq, E.
  - right. apply same_row; [done|]. cbn. by rewrite lookup_alter_ne.
Qed.

(** A change of every row that [p] picks, followed by jobs. *)
Lemma follows_where p (f : User → User) js w :
  (∀ u x, users w !! u = Some x → p x = true →
     (∃ j, j ∈ js ∧ j_user j = u ∧ j_add j = alive_row (f x)) ∨
     (alive_row (f x) = alive_row x ∧ (alive_row x = true → groupIds (f x) = groupIds x))) →
  follows w (add_jobs js (update_where p f w)).
Proof.
  intros Hf. split; try done; [intros j Hj; cbn; apply elem_of_app; by left|]. intros u.
  destruct (users w !! u) as [x|] eqn:E; [destruct (p x) eqn:Ep|].
  - destruct (Hf u x E Ep) as [(j & Hj & Hju & Hja)|Hsame].
    + left. exists j. split; [cbn; apply elem_of_app; by right|]. split; [done|].
      rewrite Hja. unfold alive. cbn. by rewrite lookup_fmap, E; cbn; rewrite Ep.
    + right. eapply (same_mapped _ _ _ f); [done|cbn; rewrite lookup_fmap, E; cbn; by rewrite Ep|].
      rewrite E. intros y. congruence.
  - right. apply same_row; [done|]. cbn. rewrite lookup_fmap, E. cbn. by rewrite Ep.
  - right. apply same_row; [done|]. cbn. by rewrite lookup_fmap, E.
Qed.

(** Lists of handlers under way do not matter. *)
Lemma follows_ext w w' v v' : users v = users w → tables v = tables w → queue v = queue w → runs v = runs w →
  failed v = failed w → held v = held w →
  users v' = users w' → tables v' = tables w' → queue v' = queue w' → runs v' = runs w' →
  failed v' = failed w' → held v' = held w' → follows w w' → follows v v'.
Proof.
  intros E1 E2 E3 E4 E5 E6 F1 F2 F3 F4 F5 F6 [Hr Hf Hh Hq Hu].
  split; [congruence|congruence|congruence|intros j; rewrite E3, F3; apply Hq|].
  intros u. unfold wanted, same_for, right_calls, alive in *. rewrite E1, E2, F1, F2, F3. apply Hu.
Qed.

(** ** Every operation follows *)
Lemma active_live u x w : findActiveById u w = Some x → users w !! u = Some x ∧ live x = true.
Proof.
  unfold findActiveById. destruct (users w !! u) as [y|]; [|done]. destruct (live y) eqn:E; [|done]. by intros [= ->].
Qed.

Lemma status_alive x : live x = true → alive_row x = bool_decide (status x = active).
Proof. unfold alive_row. by intros ->. Qed.

(** The jobs of an edit: out of or into [active], or squads changed. *)
Definition edit_jobs (u : string) (input : UpdateUserInput) (x : User) (next : option Status) : list Job :=
  (if bool_decide ("groupIds" ∈ changedFields next input) || bool_decide ("credentials" ∈ changedFields next input)
   then [addUser u] else []) ++
  match next with
  | Some s => if bool_decide (s = status x) then [] else
      (if bool_decide (s = active) then [] else [removeUser u]) ++
      (if bool_decide (s = active) && negb (bool_decide (status x = active)) then [addUser u] else [])
  | None => []
  end.

Lemma updateUser_jobs now u input x w : let next := statusAfterEdit now x input in
  updateUser_write now u input x w = add_jobs (edit_jobs u input x next) (on_users (alter (edited now next input) u) w).
Proof.
  unfold updateUser_write, edit_jobs, onUserUpdated, onStatusChanged. cbn zeta.
  destruct (statusAfterEdit now x input) as [s|]; [destruct (bool_decide (s = status x))|];
    by rewrite ?add_jobs_app, ?app_nil_r.
Qed.

Lemma groups_reported next input gs : in_groupIds input = Some gs →
  bool_decide ("groupIds" ∈ changedFields next input) = true.
Proof. intros E. apply bool_decide_true. unfold changedFields. rewrite E. cbn. rewrite !elem_of_app. right; right; right; right. set_solver. Qed.

Lemma edit_follows now u input x w : (∀ y, users w !! u = Some y → status y = status x) →
  follows w (updateUser_write now u input x w).
Proof.
  intros Hx. rewrite updateUser_jobs. apply follows_alter. intros y E. specialize (Hx y E).
  set (next := statusAfterEdit now x input).
  destruct (live y) eqn:Hl; [|right; unfold alive_row, live in *; cbn; by rewrite Hl].
  assert (live (edited now next input y) = true) as Hl' by done.
  rewrite !status_alive by done. cbn. rewrite Hx. unfold edit_jobs.
  destruct (decide (default (status x) next = status x)) as [Hs|Hs].
  - rewrite Hs. destruct (in_groupIds input) as [gs|] eqn:Eg; [|by right].
    destruct (decide (status x = active)) as [Ha|Ha]; [left|right; by rewrite !(bool_decide_false _ Ha)].
    exists (addUser u). rewrite (groups_reported next input gs) by done. cbn. split; [set_solver|]. split; [done|].
    by rewrite (bool_decide_true _ Ha).
  - destruct next as [s|]; cbn in Hs |- *; [|done]. rewrite (bool_decide_false _ Hs).
    destruct (decide (s = active)) as [->|Ha]; left.
    + exists (addUser u). rewrite !(bool_decide_true _ (eq_refl active)). cbn.
      rewrite (bool_decide_false (status x = active)) by congruence. cbn. set_solver.
    + exists (removeUser u). rewrite !(bool_decide_false _ Ha). cbn. set_solver.
Qed.

Lemma read_follows f w : follows w (on_edits f w).
Proof. eapply (follows_ext w w); [.. | apply follows_refl]; done. Qed.

Lemma write_follows now u input x f w : (∀ y, users w !! u = Some y → status y = status x) →
  follows w (updateUser_write now u input x (on_edits f w)).
Proof.
  intros Hx. eapply (follows_ext (on_edits f w)); [.. | by apply (edit_follows now u input x (on_edits f w))]; done.
Qed.

Lemma update_follows now u input w w' : updateUser now u input w = Ok w' → follows w w'.
Proof.
  unfold updateUser. destruct (findActiveById u w) as [x|] eqn:E; [|done]. intros [= <-].
  apply active_live in E as [Hx Hl]. apply edit_follows. naive_solver.
Qed.

Lemma create_follows u now e d gb s gs w : users w !! u = None →
  follows w (createUser u (created now e d gb s gs) w).
Proof.
  intros Hu. unfold createUser. split; try done; [intros j Hj; cbn; apply elem_of_app; by left|]. intros v.
  destruct (decide (u = v)) as [<-|Hne].
  - left. eapply (wanted_add _ _ _ (addUser u)); [set_solver|done|]. unfold alive. cbn. by rewrite lookup_insert_eq.
  - right. apply same_row; [done|]. cbn. by rewrite lookup_insert_ne.
Qed.

Lemma delete_follows now u w w' : deleteUser now u w = Ok w' → follows w w'.
Proof.
  unfold deleteUser. destruct (findActiveById u w) as [x|]; [|done]. intros [= <-]. apply follows_alter.
  intros y _. left. exists (removeUser u). set_solver.
Qed.

(** Traffic alone moves nobody. *)
Lemma traffic_follows f u w : follows w (on_users (alter (with_traffic f) u) w).
Proof. rewrite <-add_jobs_nil. apply follows_alter. intros x _. by right. Qed.

Lemma reset_follows now u w w' : resetUserTraffic now u w = Ok w' → follows w w'.
Proof.
  unfold resetUserTraffic. destruct (findActiveById u w); [|done]. intros [= <-].
  eapply follows_ext; [.. | apply (traffic_follows (λ _, Some (mkTraffic 0 (Some now))) u w)]; done.
Qed.

Lemma reset_where_follows p now w : follows w (reset_where p now w).
Proof.
  eapply (follows_ext w (add_jobs [] (update_where p (with_traffic (fmap (λ _, mkTraffic 0 (Some now)))) w))); try done.
  - by rewrite add_jobs_nil.
  - apply follows_where. intros u x _ _. by right.
Qed.

Lemma extend_follows now d u w w' : bulk_extend now d u w = Ok w' → follows w w'.
Proof. unfold bulk_extend. destruct (findActiveById u w); [|done]. apply update_follows. Qed.

Lemma flip_follows p now s w : s ≠ active → follows w (flip_due p now s w).
Proof.
  intros Hs. rewrite flip_due_jobs by done. apply follows_where. intros u x Hx Hp. left. exists (removeUser u).
  split; [apply elem_of_app; left; apply list_elem_of_fmap; exists u; split; [done|]; apply elem_of_ids_where; eauto|].
  split; [done|]. unfold alive_row. cbn. by rewrite (bool_decide_false _ Hs), andb_false_r.
Qed.

Lemma add_once_follows j w w' : follows w w' → follows w (add_job_once j w').
Proof.
  intros H. unfold add_job_once. destruct (j_day j) as [d|]; [|by apply follows_jobs].
  destruct (bool_decide _); [done|by apply follows_jobs].
Qed.

Lemma reconcile_follows now w : follows w (reconcileOrphanNodeUsers now w).
Proof.
  unfold reconcileOrphanNodeUsers. generalize (ids_where (orphan now) w). intros us.
  enough (∀ w', follows w w' → follows w (foldl (λ w u, add_job_once (mkJob false u (Some (now / 86400000)) 0) w) w' us))
    as H by apply H, follows_refl.
  induction us as [|u us IH]; intros w' H; [done|]. apply IH. by apply (add_once_follows (mkJob false u (Some (now / 86400000)) 0)).
Qed.

Lemma handle_follows u rs w : follows w (onTrafficReset_read u (on_resets rs w)).
Proof.
  unfold onTrafficReset_read. destruct (users (on_resets rs w) !! u) as [x|];
    [destruct (live x && bool_decide (status x = limited))|]; (eapply (follows_ext w w); [.. | apply follows_refl]; done).
Qed.

Lemma lift_follows now u ls w : follows w (onTrafficReset_write now u (on_lifts ls w)).
Proof.
  eapply (follows_ext w (onStatusChanged u limited active (on_users (alter (with_status now active) u) w))); try done.
  unfold onStatusChanged. apply follows_alter. intros x _. destruct (live x) eqn:El; [left|right].
  - exists (addUser u). split; [set_solver|]. split; [done|]. unfold alive_row, live in *. cbn. by rewrite El.
  - unfold alive_row, live in *. cbn. by rewrite El.
Qed.

Lemma squad_follows squad T w : (∀ u gs, squad ∉ gs → reach_of T u gs = reach_of (tables w) u gs) →
  follows w (squadChanged squad T w).
Proof.
  intros HT. unfold squadChanged. split; try done; [intros j Hj; cbn; apply elem_of_app; by left|]. intros u.
  destruct (alive w u) eqn:Ea; [|right; split; [done|]; unfold right_calls; change (alive (add_jobs _ _) u) with (alive w u); by rewrite Ea].
  unfold alive, row_alive in Ea. destruct (users w !! u) as [x|] eqn:E; [|done].
  destruct (decide (squad ∈ groupIds x)) as [Hin|Hout].
  - left. eapply (wanted_add _ _ _ (addUser u)); [|done|unfold alive; cbn; by rewrite E].
    apply list_elem_of_fmap. exists u. split; [done|]. apply elem_of_ids_where. exists x. by rewrite (bool_decide_true _ Hin).
  - right. split; [done|]. unfold right_calls. change (alive (add_jobs _ _) u) with (alive w u).
    unfold alive. rewrite E. cbn. rewrite E. cbn. by rewrite HT.
Qed.

(** ** Workers *)
Hypothesis fleet_ids : NoDup (nd_id <$> fleet).

Lemma add_call_node reach n c : add_call reach n = Some c → c.1 = nd_id n.
Proof. unfold add_call. destruct (jm_get _ _); [destruct (is_set _)|]; intros E; simplify_eq; done. Qed.

Lemma right_calls_once w u : NoDup (right_calls w u).*1.
Proof.
  assert (NoDup (nd_id <$> fetchActiveNodes fleet)) as H.
  { unfold fetchActiveNodes. by apply NoDup_fmap_filter. }
  unfold right_calls. destruct (alive w u).
  - clear fleet_ids. induction (fetchActiveNodes fleet) as [|n ns IH]; cbn; [constructor|].
    apply NoDup_cons in H as [Hn H]. specialize (IH H).
    destruct (add_call _ n) as [c|] eqn:Ec; [|done]. cbn. constructor; [|done]. rewrite (add_call_node _ _ _ Ec).
    intros (d & Hd & Hin)%list_elem_of_fmap. apply list_elem_of_omap in Hin as (m & Hm & Em).
    apply Hn, list_elem_of_fmap. exists m. split; [|done]. rewrite Hd. by eapply add_call_node.
  - rewrite <-list_fmap_compose. cbn. done.
Qed.

Lemma deliver_other took u v calls h n : u ≠ v → deliver took u calls h !! (n, v) = h !! (n, v).
Proof.
  intros Hne. unfold deliver. revert h. induction calls as [|c cs IH]; intros h; cbn; [done|]. rewrite IH.
  destruct (took c.1); [|done]. apply lookup_insert_ne. congruence.
Qed.

Lemma deliver_out took u calls h n : n ∉ calls.*1 → deliver took u calls h !! (n, u) = h !! (n, u).
Proof.
  unfold deliver. revert h. induction calls as [|c cs IH]; intros h; cbn; [done|]. rewrite not_elem_of_cons. intros [Hn Hc].
  rewrite IH by done. destruct (took c.1); [|done]. apply lookup_insert_ne. congruence.
Qed.

Lemma deliver_all took u calls h : NoDup calls.*1 → (∀ c, c ∈ calls → took c.1 = true) →
  Forall (holds (deliver took u calls h) u) calls.
Proof.
  revert h. induction calls as [|c cs IH]; intros h Hnd Ht; [constructor|].
  cbn in Hnd. apply NoDup_cons in Hnd as [Hc Hnd]. unfold deliver. cbn. rewrite (Ht c) by set_solver. constructor.
  - unfold holds. fold (deliver took u cs (<[(c.1, u):=c.2]> h)). rewrite deliver_out by done. by rewrite lookup_insert_eq.
  - apply IH; [done|]. intros d Hd. apply Ht. set_solver.
Qed.

Lemma single_middle r1 r r2 : NoDup ((λ r, j_user (r_job r)) <$> (r1 ++ r :: r2)) →
  NoDup ((λ r, j_user (r_job r)) <$> (r1 ++ r2)) ∧ ∀ s, s ∈ r1 ++ r2 → j_user (r_job s) ≠ j_user (r_job r).
Proof.
  rewrite fmap_app. cbn. intros H. assert (NoDup (j_user (r_job r) :: ((λ r, j_user (r_job r)) <$> (r1 ++ r2)))) as H'.
  { rewrite fmap_app. eapply NoDup_Permutation_proper; [|exact H]. by rewrite Permutation_middle. }
  apply NoDup_cons in H' as [Hn Hnd]. split; [done|]. intros s Hs E. apply Hn, list_elem_of_fmap. eauto.
Qed.

(** A job other than [j] that waited still waits. *)
Lemma other_waits q1 (j : Job) q2 j' : j' ∈ q1 ++ j :: q2 → j' ≠ j → j' ∈ q1 ++ q2.
Proof. rewrite !elem_of_app, elem_of_cons. naive_solver. Qed.

Lemma start_consistent q1 j q2 w : queue w = q1 ++ j :: q2 → idle w (j_user j) →
  consistent w → consistent (start fleet q1 j q2 w).
Proof.
  intros Hq Hidle [Hs Hall]. unfold start. rewrite job_calls_right.
  destruct (decide (j_add j = alive w (j_user j))) as [Ha|Ha]; rewrite ?(bool_decide_true _ Ha), ?(bool_decide_false _ Ha).
  - split.
    + unfold single. cbn. rewrite fmap_app. cbn. apply NoDup_app. split; [done|]. split; [|apply NoDup_singleton].
      intros v (r & -> & Hr)%list_elem_of_fmap. rewrite list_elem_of_singleton. by apply Hidle.
    + intros u. destruct (decide (u = j_user j)) as [->|Hne].
      { right; right; left. exists (mkRun j (right_calls w (j_user j))). cbn. set_solver. }
      destruct (Hall u) as [(j' & Hj & Hju & Hja)|[(j' & Hj)|[(r & Hin & Hr)|[Hi Hset]]]].
      * left. exists j'. split; [|done]. cbn. rewrite Hq in Hj. apply (other_waits _ _ _ _ Hj). congruence.
      * right; left. eauto.
      * right; right; left. exists r. cbn. split; [set_solver|done].
      * right; right; right. split; [|done]. intros r. cbn. rewrite elem_of_app, list_elem_of_singleton.
        intros [Hr| ->]; [by apply Hi|done].
  - split; [done|]. intros u. destruct (Hall u) as [(j' & Hj & Hju & Hja)|H]; [left|right; done].
    exists j'. split; [|done]. cbn. rewrite Hq in Hj. apply (other_waits _ _ _ _ Hj). congruence.
Qed.

Section Land.
Context (took ok : string → bool) (r1 : list Run) (r : Run) (r2 : list Run) (w : World).
Let w' := land took ok r1 r r2 w.

Lemma land_same u : alive w' u = alive w u ∧ right_calls w' u = right_calls w u.
Proof.
  unfold w', land. destruct (forallb _ _); [done|]. destruct (_ <? _)%nat; done.
Qed.

Lemma land_fields : runs w' = r1 ++ r2 ∧ held w' = deliver took (j_user (r_job r)) (r_calls r) (held w) ∧
  (∀ j, j ∈ queue w → j ∈ queue w') ∧ (∀ j, j ∈ failed w → j ∈ failed w') ∧
  (forallb (λ c, ok c.1) (r_calls r) = true ∨
   ∃ j, j_user j = j_user (r_job r) ∧ j_add j = j_add (r_job r) ∧ (j ∈ queue w' ∨ j ∈ failed w')).
Proof.
  unfold w', land. set (again := mkJob _ _ _ _).
  destruct (forallb _ _); [|destruct (_ <? _)%nat]; cbn; repeat split; auto.
  - intros j Hj. apply elem_of_app. by left.
  - right. exists again. split; [done|]. split; [done|]. left. set_solver.
  - intros j Hj. apply elem_of_app. by left.
  - right. exists again. split; [done|]. split; [done|]. right. set_solver.
Qed.

Lemma land_other u : followed w u → u ≠ j_user (r_job r) → runs w = r1 ++ r :: r2 → followed w' u.
Proof.
  intros H Hne Hr. destruct (land_same u) as [Ha Hc]. destruct land_fields as (Hr' & Hh & Hq & Hf & _).
  destruct H as [(j & Hj & Hju & Hja)|[(j & Hj & Hju)|[(s & Hs & Hsu & Hsa & Hsc)|[Hi Hset]]]].
  - left. exists j. rewrite Ha. auto.
  - right; left. eauto.
  - right; right; left. exists s. rewrite Hr', Ha, Hc. split; [|done].
    rewrite Hr, elem_of_app, elem_of_cons in Hs. rewrite elem_of_app. naive_solver.
  - right; right; right. split.
    + intros s. rewrite Hr'. intros Hs. apply Hi. rewrite Hr. set_solver.
    + unfold settled. rewrite Hc, Hh. eapply Forall_impl; [exact Hset|]. intros c. unfold holds. by rewrite deliver_other by congruence.
Qed.

Lemma land_consistent : runs w = r1 ++ r :: r2 → (∀ n, ok n = true → took n = true) → consistent w → consistent w'.
Proof.
  intros Hr Htook [Hs Hall]. unfold single in Hs. rewrite Hr in Hs. apply single_middle in Hs as [Hnd Hfree].
  destruct land_fields as (Hr' & Hh & Hq & Hf & Hend). split; [unfold single; by rewrite Hr'|]. intros u.
  destruct (decide (u = j_user (r_job r))) as [->|Hne]; [|by apply land_other].
  destruct (land_same (j_user (r_job r))) as [Ha Hc].
  destruct (Hall (j_user (r_job r))) as [(j & Hj & Hju & Hja)|[(j & Hj & Hju)|[(s & Hin & Hsu & Hsa & Hsc)|[Hi _]]]].
  - left. exists j. rewrite Ha. auto.
  - right; left. eauto.
  - assert (s = r) as ->.
    { rewrite Hr, elem_of_app, elem_of_cons in Hin. destruct Hin as [Hin|[?|Hin]]; [|done|];
        (exfalso; eapply Hfree; [|exact Hsu]; set_solver). }
    destruct Hend as [Hok|(j & Hju & Hja & [Hj|Hj])].
    + right; right; right. split; [intros s; rewrite Hr'; apply Hfree|]. unfold settled. rewrite Hc, Hh, <-Hsc.
      apply deliver_all; [rewrite Hsc; apply right_calls_once|]. intros c Hcin. apply Htook.
      rewrite forallb_forall in Hok. by apply Hok, list_elem_of_In.
    + left. exists j. rewrite Ha, Hja. auto.
    + right; left. eauto.
  - exfalso. apply (Hi r); [|done]. rewrite Hr. set_solver.
Qed.
End Land.

Lemma step_consistent w w' : step fleet true w w' → consistent w → consistent w'.
Proof.
  destruct 1; try done;
    try (apply follows_consistent; eauto using create_follows, update_follows, delete_follows, reset_follows,
      extend_follows, traffic_follows, reset_where_follows, flip_follows, reconcile_follows, handle_follows,
      lift_follows, squad_follows, read_follows; fail).
  - apply start_consistent; [done|]. unfold idle. eauto.
  - by apply land_consistent.
  - apply follows_consistent, write_follows. auto.
Qed.
End Follow.

(** No job of the queue is left, none has run out of attempts. *)
Definition quiet (w : World) : Prop := queue w = [] ∧ runs w = [] ∧ failed w = [].

(** What the nodes hold of every user is what the database asks: an active user
    is on exactly the inbounds its squads reach, on the nodes that have taken a
    push; any other user is on no node. *)
Definition as_stored (fleet : list NodeRow) (w : World) : Prop := ∀ u n, n ∈ fetchActiveNodes fleet →
  match users w !! u with
  | Some x => if alive_row x
              then match jm_get (nd_id n) (reach_of (tables w) u (groupIds x)) with
                   | Some ids => nd_lastInboundSyncAt n = None ∨ held w !! (nd_id n, u) = Some (SentAdd ids)
                   | None => default SentRemove (held w !! (nd_id n, u)) = SentRemove
                   end
              else default SentRemove (held w !! (nd_id n, u)) = SentRemove
  | None => default SentRemove (held w !! (nd_id n, u)) = SentRemove
  end.

Lemma quiet_stored fleet w : consistent fleet w → quiet w → as_stored fleet w.
Proof.
  intros [_ Hall] (Hq & Hr & Hf) u n Hn.
  destruct (Hall u) as [(j & Hj & _)|[(j & Hj & _)|[(r & Hin & _)|[_ Hset]]]];
    [rewrite Hq in Hj|rewrite Hf in Hj|rewrite Hr in Hin|]; try (by apply not_elem_of_nil in Hj || by apply not_elem_of_nil in Hin).
  unfold settled, right_calls, alive, row_alive in Hset. rewrite Forall_forall in Hset.
  assert (∀ P : Prop, (∀ c, c ∈ (λ n, (nd_id n, SentRemove)) <$> fetchActiveNodes fleet → holds (held w) u c) →
    (holds (held w) u (nd_id n, SentRemove) → P) → P) as Hrem.
  { intros P H HP. apply HP, H. apply list_elem_of_fmap. eauto. }
  destruct (users w !! u) as [x|] eqn:E; [destruct (alive_row x)|]; [|by apply (Hrem _ Hset)..]. cbn in Hset.
  assert (∀ c, add_call (reach_of (tables w) u (groupIds x)) n = Some c → holds (held w) u c) as Hadd.
  { intros c Hc. apply Hset, list_elem_of_omap. eauto. }
  unfold add_call in Hadd. destruct (jm_get (nd_id n) _) as [ids|]; [|by apply (Hadd _ eq_refl)].
  destruct (nd_lastInboundSyncAt n); [right|by left]. specialize (Hadd _ eq_refl). unfold holds in Hadd. cbn in Hadd.
  destruct (held w !! (nd_id n, u)); cbn in Hadd; congruence.
Qed.

(** ** Start of the panel *)
Definition fresh (T : Db) : World := mkWorld ∅ T [] [] [] [] [] [] [] ∅.

Lemma fresh_consistent fleet T : consistent fleet (fresh T).
Proof.
  split; [constructor|]. intros u. right; right; right. split; [intros r Hr; by apply not_elem_of_nil in Hr|].
  unfold settled, right_calls, alive. cbn. rewrite lookup_empty. cbn. rewrite Forall_fmap. apply Forall_true. done.
Qed.

Lemma reachable_consistent fleet T w : NoDup (nd_id <$> fleet) → rtc (step fleet true) (fresh T) w → consistent fleet w.
Proof.
  intros Hnd H. pose proof (fresh_consistent fleet T) as Hc. induction H as [|w1 w2 w3 H _ IH]; [done|].
  apply IH. by eapply step_consistent.
Qed.

(** One worker, with every node answering, until the queue is empty. *)
Fixpoint work_off (fleet : list NodeRow) (n : nat) (w : World) : World :=
  match n, queue w with
  | S n, j :: q =>
      let w := start fleet [] j q w in
      work_off fleet n (match runs w with r :: rs => land (λ _, true) (λ _, true) [] r rs w | [] => w end)
  | _, _ => w
  end.

Lemma forallb_all {A} (l : list A) : forallb (λ _, true) l = true.
Proof. by induction l. Qed.

Lemma work_one fleet j q w : queue w = j :: q → runs w = [] → failed w = [] →
  let w1 := start fleet [] j q w in
  let w2 := match runs w1 with r :: rs => land (λ _, true) (λ _, true) [] r rs w1 | [] => w1 end in
  rtc (step fleet true) w w2 ∧ queue w2 = q ∧ runs w2 = [] ∧ failed w2 = [].
Proof.
  intros Hq Hr Hf w1 w2.
  assert (step fleet true w w1) as Hstart.
  { apply step_start; [done|]. rewrite Hr. intros _ r []%not_elem_of_nil. }
  assert (queue w1 = q ∧ failed w1 = []) as [Hq1 Hf1] by (unfold w1, start; destruct (job_calls fleet j w); done).
  destruct (runs w1) as [|r rs] eqn:Er; subst w2; cbv beta iota.
  - split; [by apply rtc_once|done].
  - assert (rs = []) as ->.
    { revert Er. unfold w1, start. destruct (job_calls fleet j w); cbn; rewrite Hr; cbn; congruence. }
    split; [eapply rtc_l; [done|]; apply rtc_once; by apply step_land|].
    unfold land. rewrite forallb_all. cbn. done.
Qed.

Lemma work_off_quiet fleet n w : (length (queue w) ≤ n)%nat → runs w = [] → failed w = [] →
  rtc (step fleet true) w (work_off fleet n w) ∧ quiet (work_off fleet n w).
Proof.
  revert w. induction n as [|n IH]; intros w Hn Hr Hf; cbn; destruct (queue w) as [|j q] eqn:Hq; cbn in Hn; try lia.
  - split; [apply rtc_refl|]. done.
  - split; [apply rtc_refl|]. done.
  - destruct (work_one fleet j q w Hq Hr Hf) as (Hrun & Hq2 & Hr2 & Hf2).
    destruct (IH _ ltac:(rewrite Hq2; lia) Hr2 Hf2) as [Hrest Hquiet]. split; [by etrans|done].
Qed.

(** C9. The nodes follow the status.  Start with no users and let creations,
    edits, deletions, resets, the crons, squad changes, jobs and failed requests
    come in any order, anything between an edit's reading and its writing, as
    long as no two jobs of one user run at once and no edit writes over a status
    that has changed since it read the row: for every user the nodes hold what the database asks, or the job that brings them there
    waits, runs, or has used up its attempts.  So once nothing waits or runs and
    no job has failed for good, an active user is on exactly the inbounds its
    squads reach and any other user on none; and a worker that works off what
    waits gets there. *)
Theorem nodes_follow_status fleet T w : NoDup (nd_id <$> fleet) → rtc (step fleet true) (fresh T) w →
  (∀ u, followed fleet w u) ∧ (quiet w → as_stored fleet w) ∧
  (runs w = [] → failed w = [] → let w' := work_off fleet (length (queue w)) w in quiet w' ∧ as_stored fleet w').
Proof.
  intros Hnd Hreach. pose proof (reachable_consistent _ _ _ Hnd Hreach) as Hc. split; [apply Hc|]. split.
  - intros Hquiet. by apply quiet_stored.
  - intros Hr Hf w'. destruct (work_off_quiet fleet (length (queue w)) w ltac:(done) Hr Hf) as [Hrest Hquiet].
    split; [done|]. apply quiet_stored; [|done]. apply (reachable_consistent fleet T); [done|]. by etrans.
Qed.

(** ** What the crons make of a row *)
Definition after_crons (now : Z) (x : User) : User :=
  let y := if due_expired now x then with_status now expired x else x in
  if due_exceeded y then with_status now limited y else y.

Lemma not_due now x : status x ≠ active → due_expired now x = false ∧ due_exceeded x = false.
Proof. intros H. unfold due_expired, due_exceeded. by rewrite (bool_decide_false _ H). Qed.

Lemma after_crons_settled now x : due_expired now (after_crons now x) = false ∧ due_exceeded (after_crons now x) = false.
Proof.
  unfold after_crons. destruct (due_expired now x) eqn:E.
  - rewrite (proj2 (not_due now (with_status now expired x) ltac:(done))). by apply not_due.
  - destruct (due_exceeded x) eqn:E2; [by apply not_due|done].
Qed.

Lemma flip_rows p now s w u : s ≠ active →
  users (flip_due p now s w) !! u = (λ x, if p x then with_status now s x else x) <$> users w !! u.
Proof. intros Hs. rewrite flip_due_jobs by done. cbn. by rewrite lookup_fmap. Qed.

Lemma flip_queue p now s w : s ≠ active → queue (flip_due p now s w) =
  queue w ++ (removeUser <$> ids_where p w) ++ (removeUser <$> ids_where p w).
Proof. intros Hs. by rewrite flip_due_jobs by done. Qed.

Lemma flipped_ids p w u : removeUser u ∈ (removeUser <$> ids_where p w) ++ (removeUser <$> ids_where p w) ↔
  ∃ x, users w !! u = Some x ∧ p x = true.
Proof.
  rewrite elem_of_app, list_elem_of_fmap, <-elem_of_ids_where. split.
  - intros [(v & E & H)|(v & E & H)]; injection E as ->; done.
  - intros H. left. eauto.
Qed.

(** The crons end exactly the users that are due.  The expiry and the quota
    cron, run one after the other, leave every row as it is but for the status of
    an active, undeleted one whose date has passed (expired) or whose traffic is
    spent (limited); they queue removals of exactly those users and of nobody
    else; and afterwards nobody is due, so that a second run changes nothing. *)
Theorem crons_exact now w : let w' := findExceededTrafficUsers now (findExpiredUsers now w) in
  (∀ u, users w' !! u = after_crons now <$> users w !! u) ∧
  (∀ u x, users w' !! u = Some x → due_expired now x = false ∧ due_exceeded x = false) ∧
  (∃ js, queue w' = queue w ++ js ∧ (∀ j, j ∈ js → j = removeUser (j_user j)) ∧
     ∀ u, removeUser u ∈ js ↔ ∃ x, users w !! u = Some x ∧ (due_expired now x = true ∨ due_exceeded x = true)) ∧
  users (findExceededTrafficUsers now (findExpiredUsers now w')) = users w'.
Proof.
  assert (∀ w u, users (findExceededTrafficUsers now (findExpiredUsers now w)) !! u = after_crons now <$> users w !! u) as Hrows.
  { intros v u. unfold findExceededTrafficUsers, findExpiredUsers. rewrite !flip_rows by done.
    destruct (users v !! u); done. }
  intros w'. assert (∀ u x, users w' !! u = Some x → due_expired now x = false ∧ due_exceeded x = false) as Hdue.
  { intros u x. unfold w'. rewrite Hrows. destruct (users w !! u) as [y|]; [|done]. cbn. intros E. apply (inj Some) in E as <-.
    apply after_crons_settled. }
  split; [apply Hrows|]. split; [done|]. split.
  - eexists. split; [unfold w', findExceededTrafficUsers; rewrite flip_queue by done; unfold findExpiredUsers;
      rewrite flip_queue, <-app_assoc by done; reflexivity|]. split.
    + intros j. rewrite !elem_of_app, !list_elem_of_fmap. naive_solver.
    + intros u. rewrite elem_of_app, !flipped_ids. setoid_rewrite (flip_rows _ now expired w u); [|done]. split.
      * intros [(x & Hx & Hp)|(x & Hx & Hp)]; [eauto|]. destruct (users w !! u) as [y|] eqn:E; [|done]. cbn in Hx.
        apply (inj Some) in Hx. exists y. split; [done|]. destruct (due_expired now y) eqn:Ey; [by left|right; congruence].
      * intros (x & Hx & Hp). rewrite Hx. cbn. destruct (due_expired now x) eqn:Ex; [left; eauto|right].
        exists x. split; [done|]. by destruct Hp.
  - apply map_eq. intros u. rewrite Hrows. destruct (users w' !! u) as [x|] eqn:E; [|done]. cbn. f_equal.
    destruct (Hdue u x E) as [H1 H2]. unfold after_crons. by rewrite H1, H2.
Qed.

(** ** Where an edit lands *)

(** The quotas the schema lets in are positive. *)
Definition quotas_positive (x : User) (input : UpdateUserInput) : Prop :=
  (∀ l, trafficLimitBytes x = Some l → 0 < l) ∧ (∀ g, in_trafficLimitGb input = Some (Some g) → 0 < g).

Lemma edited_positive x input l : quotas_positive x input → edited_limit x input = Some l → 0 < l.
Proof.
  intros [Hx Hi]. unfold edited_limit, gbToBytes, BYTES_PER_GB. destruct (in_trafficLimitGb input) as [[g|]|]; cbn; [|done|apply Hx].
  intros E. apply (inj Some) in E as <-. specialize (Hi g eq_refl). lia.
Qed.

Lemma spent_row x input : quotas_positive x input → spent (edited_limit x input) (used x) =
  match traffic x with Some t => spent (edited_limit x input) (usedTrafficBytes t) | None => false end.
Proof.
  intros Hq. unfold used, spent. destruct (traffic x); [done|]. destruct (edited_limit x input) as [l|] eqn:E; [|done].
  apply Z.leb_gt. cbn. by eapply edited_positive.
Qed.

Lemma facts_agree now next input x : live x = true → quotas_positive x input →
  byFacts now x input = status (after_crons now (with_status now active (edited now next input x))).
Proof.
  intros Hl Hq. unfold byFacts, after_crons. rewrite spent_row by done.
  assert (due_expired now (with_status now active (edited now next input x)) = passed now (edited_expiry x input)) as ->.
  { unfold due_expired, live in *. cbn. by rewrite Hl. }
  destruct (passed now (edited_expiry x input)).
  - rewrite (proj2 (not_due now (with_status now expired _) ltac:(done))). done.
  - assert (due_exceeded (with_status now active (edited now next input x)) =
      match traffic x with Some t => spent (edited_limit x input) (usedTrafficBytes t) | None => false end) as ->.
    { unfold due_exceeded, live in *. cbn. by rewrite Hl. }
    by destruct (match traffic x with Some t => _ | None => _ end).
Qed.

Lemma settled_row now x : status x = status (after_crons now (with_status now active x)) →
  due_expired now x = false ∧ due_exceeded x = false.
Proof.
  intros E. destruct (decide (status x = active)) as [Ha|]; [|by apply not_due].
  destruct (after_crons_settled now (with_status now active x)) as [H1 H2]. rewrite Ha in E.
  assert (due_expired now (with_status now active x) = due_expired now x) as E1 by (unfold due_expired, live; cbn; by rewrite Ha).
  assert (due_exceeded (with_status now active x) = due_exceeded x) as E2 by (unfold due_exceeded, live; cbn; by rewrite Ha).
  unfold after_crons in E. rewrite E1 in E. destruct (due_expired now x).
  - rewrite (proj2 (not_due now (with_status now expired _) ltac:(done))) in E. done.
  - split; [done|]. rewrite E2 in E. by destruct (due_exceeded x).
Qed.

(** The edit asks for activity, or touches what holds the user back. *)
Definition reconsiders (x : User) (input : UpdateUserInput) : Prop :=
  in_status input = Some active ∨
  (in_status input = None ∧ ((status x = expired ∧ is_set (in_expireAt input) = true) ∨
                            (status x = limited ∧ is_set (in_trafficLimitGb input) = true))).

Lemma reconsidered now x input : reconsiders x input →
  default (status x) (statusAfterEdit now x input) = byFacts now x input.
Proof.
  unfold statusAfterEdit. generalize (byFacts now x input). intros next [->|[-> [[-> ->]|[-> ->]]]]; [done|..];
    by destruct next.
Qed.

Lemma left_alone now x input : in_status input = None → ¬ reconsiders x input → statusAfterEdit now x input = None.
Proof.
  unfold statusAfterEdit, reconsiders. intros -> H. destruct (_ || _) eqn:E; [|done]. exfalso. apply H. right. split; [done|].
  apply orb_true_iff in E as [[E%bool_decide_eq_true ?]%andb_true_iff|[E%bool_decide_eq_true ?]%andb_true_iff]; auto.
Qed.

(** C10. An edit lands on the facts.  Editing a user goes through whenever the
    user exists.  Disabling is taken as said.  An edit that asks for activity, or
    that touches the date of an expired or the quota of a limited user, leaves
    exactly the status the expiry and quota crons would give the edited row were
    it active, and the crons then leave it alone: nobody is brought back to be
    taken off at the next tick, and nobody stays out whose reason is gone.  Any
    other edit keeps the status.  Date and quota are the edit's where it names
    them. *)
Theorem edit_lands_on_facts now u input w x : findActiveById u w = Some x → quotas_positive x input →
  ∃ w' x', updateUser now u input w = Ok w' ∧ users w' !! u = Some x' ∧
    expireAt x' = edited_expiry x input ∧ trafficLimitBytes x' = edited_limit x input ∧
    (in_status input = Some disabled → status x' = disabled) ∧
    (reconsiders x input → status x' = status (after_crons now (with_status now active x')) ∧
       due_expired now x' = false ∧ due_exceeded x' = false) ∧
    (in_status input = None → ¬ reconsiders x input → status x' = status x).
Proof.
  intros Hx Hq. unfold updateUser. rewrite Hx. apply active_live in Hx as [Hx Hl].
  eexists _, (edited now (statusAfterEdit now x input) input x). split; [done|]. split.
  { rewrite updateUser_jobs. cbn. by rewrite lookup_alter_eq, Hx. }
  split; [done|]. split; [done|]. split; [|split].
  - cbn. unfold statusAfterEdit. by intros ->.
  - intros Hr. assert (status (edited now (statusAfterEdit now x input) input x) = byFacts now x input) as Hs by by apply reconsidered.
    rewrite (facts_agree now (statusAfterEdit now x input)) in Hs by done. split; [done|]. by apply settled_row.
  - intros Hn Hr. cbn. by rewrite left_alone.
Qed.

(** Extending brings an expired user back.  The bulk extension of an existing
    user sets the date the given days past now or past the old date, whichever is
    later; an expired user comes back as active, or as limited where its traffic
    is spent, and any other status stays. *)
Theorem extend_revives now d u w x : findActiveById u w = Some x → 0 < d →
  (∀ l, trafficLimitBytes x = Some l → 0 < l) →
  ∃ w' x', bulk_extend now d u w = Ok w' ∧ users w' !! u = Some x' ∧
    expireAt x' = Some (Z.max now (default now (expireAt x)) + d * DAY_MS) ∧
    status x' = if decide (status x = expired)
                then (if spent (trafficLimitBytes x) (used x) then limited else active) else status x.
Proof.
  intros Hx Hd Hl. unfold bulk_extend, updateUser. rewrite Hx. pose proof (active_live _ _ _ Hx) as [Hu _].
  set (input := mkUpdate _ _ _ _ _). assert (extended now d x = Z.max now (default now (expireAt x)) + d * DAY_MS) as He.
  { unfold extended. destruct (expireAt x) as [t|]; cbn; [|lia]. destruct (Z.ltb_spec now t); lia. }
  eexists _, (edited now (statusAfterEdit now x input) input x). split; [done|]. split.
  { rewrite updateUser_jobs. cbn. by rewrite lookup_alter_eq, Hu. }
  split; [by cbn; rewrite <-He|]. cbn [status edited]. case_decide as Hs.
  - rewrite reconsidered by (right; cbn; auto). unfold byFacts. cbn. rewrite (proj2 (Z.ltb_ge _ _)); [done|].
    rewrite He. unfold DAY_MS. lia.
  - rewrite left_alone; [done|done|]. intros [?|[_ [[? _]|[_ ?]]]]; cbn in *; congruence.
Qed.

(** The lift after a traffic reset looks at nothing but the status it read: a
    user whose date has passed is made active and rolled out, and is due at the
    next tick. *)
Theorem lift_ignores_date now u w x : users w !! u = Some x → live x = true → passed now (expireAt x) = true →
  ∃ x', users (onTrafficReset_write now u w) !! u = Some x' ∧ alive_row x' = true ∧ due_expired now x' = true ∧
    addUser u ∈ queue (onTrafficReset_write now u w).
Proof.
  intros Hx Hl Hp. exists (with_status now active x). unfold live in Hl. split; [cbn; by rewrite lookup_alter_eq, Hx|].
  split; [unfold alive_row, live; cbn; by rewrite Hl|]. split; [unfold due_expired, live; cbn; by rewrite Hl, Hp|].
  cbn. set_solver.
Qed.

(** ** Examples *)
Definition ex_fleet : list NodeRow := [mkNodeRow "n2" false false (Some 0)].
Definition all_nodes : string → bool := λ _, true.
Definition ex_user (e : option Z) : User := created 0 e None (Some 1) month ["nl"].
Definition ex_created (e : option Z) : World := createUser "bob" (ex_user e) (fresh ex_db).
Definition ok_or (w : World) (r : result UserError World) : World := match r with Ok w => w | Throw _ => w end.
Definition ex_edit (s : option Status) (e : option (option Z)) : UpdateUserInput := mkUpdate s e None None None.

Lemma ex_start e : rtc (step ex_fleet false) (fresh ex_db) (ex_created e) ∧ rtc (step ex_fleet true) (fresh ex_db) (ex_created e).
Proof. split; apply rtc_once, step_create; apply lookup_empty. Qed.

(** An edit moves bob out of his squads while a flush bills him. *)
Definition ex_input : UpdateUserInput := mkUpdate None None None None (Some []).
Definition ex_edit_1 := on_edits (λ l, l ++ [("bob", (ex_input, ex_user None))]) (ex_created None).
Definition ex_edit_2 := on_users (alter (with_traffic (fmap (λ t, mkTraffic 7 (lastTrafficResetAt t)))) "bob") ex_edit_1.
Definition ex_edit_3 := updateUser_write 5 "bob" ex_input (ex_user None) (on_edits (λ _, []) ex_edit_2).

Theorem nodes_follow_status_witness :
  as_stored ex_fleet (work_off ex_fleet 1 (ex_created None)) ∧
  held (work_off ex_fleet 1 (ex_created None)) !! ("n2", "bob") = Some (SentAdd ["b2"]) ∧
  as_stored ex_fleet (work_off ex_fleet 2 ex_edit_3) ∧
  held (work_off ex_fleet 2 ex_edit_3) !! ("n2", "bob") = Some SentRemove.
Proof.
  destruct (nodes_follow_status ex_fleet ex_db (ex_created None)) as (_ & _ & H);
    [apply NoDup_singleton|apply ex_start|].
  destruct (nodes_follow_status ex_fleet ex_db ex_edit_3) as (_ & _ & H3); [apply NoDup_singleton| |].
  - etrans; [apply ex_start|].
    apply (rtc_l _ _ ex_edit_1); [by eapply (step_read _ _ _ "bob" ex_input)|].
    apply (rtc_l _ _ ex_edit_2); [apply step_bill|].
    apply rtc_once. apply (step_write _ _ _ 5 "bob" ex_input _ [] []); [reflexivity|].
    intros _ y Hy. vm_compute in Hy. injection Hy as <-. reflexivity.
  - split; [apply H; reflexivity|]. split; [vm_compute; reflexivity|].
    split; [apply H3; reflexivity|vm_compute; reflexivity].
Defined.

Theorem edit_lands_on_facts_witness :
  let w := findExpiredUsers 200 (ex_created (Some 100)) in
  ∃ w' x', updateUser 201 "bob" (ex_edit None (Some (Some 1000))) w = Ok w' ∧ users w' !! "bob" = Some x' ∧
    status x' = active ∧ due_expired 201 x' = false.
Proof.
  intros w. destruct (edit_lands_on_facts 201 "bob" (ex_edit None (Some (Some 1000))) w
    (with_status 200 expired (ex_user (Some 100)))) as (w' & x' & Hok & Hx & He & _ & _ & Hre & _).
  - vm_compute. reflexivity.
  - split; [intros l E; vm_compute in E; injection E as <-; reflexivity|done].
  - exists w', x'. split; [exact Hok|]. split; [exact Hx|]. destruct Hre as (_ & Hdue & _).
    { right. vm_compute. split; [reflexivity|]. left. split; reflexivity. }
    split; [|exact Hdue]. vm_compute in Hok. injection Hok as <-. vm_compute in Hx. injection Hx as <-. reflexivity.
Defined.

(** ** Orders the code allows and its comments exclude *)

(** An edit disables the user while the job that puts it on the nodes is past its
    look at the status; the removal overtakes it. *)
Definition late_1 := start ex_fleet [] (addUser "bob") [] (ex_created None).
Definition late_2 := ok_or late_1 (updateUser 1 "bob" (ex_edit (Some disabled) None) late_1).
Definition late_3 := start ex_fleet [] (removeUser "bob") [] late_2.
Definition add_run : Run := mkRun (addUser "bob") [("n2", SentAdd ["b2"])].
Definition remove_run : Run := mkRun (removeUser "bob") [("n2", SentRemove)].
Definition late_4 := land all_nodes all_nodes [add_run] remove_run [] late_3.
Definition late_5 := land all_nodes all_nodes [] add_run [] late_4.

(** A late request outlives the removal.  Where two jobs of one user may run
    at once, as the five workers allow, every job can succeed and the queue empty
    out with a node still holding a user the operator has disabled. *)
Theorem late_request_outlives : ∃ fleet T w u x n ids, NoDup (nd_id <$> fleet) ∧
  rtc (step fleet false) (fresh T) w ∧ quiet w ∧
  users w !! u = Some x ∧ status x = disabled ∧ held w !! (n, u) = Some (SentAdd ids).
Proof.
  exists ex_fleet, ex_db, late_5, "bob", (edited 1 (Some disabled) (ex_edit (Some disabled) None) (ex_user None)), "n2", ["b2"].
  split; [apply NoDup_singleton|]. split; [|split; [vm_compute; done|by vm_compute]].
  etrans; [apply ex_start|].
  apply (rtc_l _ _ late_1); [by apply step_start|].
  apply (rtc_l _ _ late_2); [by eapply (step_update _ _ _ 1 "bob")|].
  apply (rtc_l _ _ late_3); [by apply step_start|].
  apply (rtc_l _ _ late_4); [by apply step_land|].
  apply rtc_once. by apply step_land.
Qed.

(** An operator extends a user whose date passes meanwhile. *)
Definition race_1 := start ex_fleet [] (addUser "bob") [] (ex_created (Some 100)).
Definition race_2 := land all_nodes all_nodes [] add_run [] race_1.
Definition race_input : UpdateUserInput := ex_edit (Some active) (Some (Some 1000)).
Definition race_3 := on_edits (λ l, l ++ [("bob", (race_input, ex_user (Some 100)))]) race_2.
Definition race_4 := findExpiredUsers 200 race_3.
Definition race_5 := start ex_fleet [] (removeUser "bob") [removeUser "bob"] race_4.
Definition race_6 := land all_nodes all_nodes [] remove_run [] race_5.
Definition race_7 := start ex_fleet [] (removeUser "bob") [] race_6.
Definition race_8 := land all_nodes all_nodes [] remove_run [] race_7.
Definition race_9 := updateUser_write 201 "bob" race_input (ex_user (Some 100)) (on_edits (λ _, []) race_8).

(** An edit races the expiry cron.  An edit that extends an active user and
    has read the row before the cron ends it writes [active] over [expired] and,
    comparing with the row it read, tells nobody: the user is active, the queue
    is empty, and a node its squads reach has it off. *)
Theorem edit_races_expiry : ∃ fleet T w u x n ids, NoDup (nd_id <$> fleet) ∧
  rtc (step fleet false) (fresh T) w ∧ quiet w ∧ users w !! u = Some x ∧ alive_row x = true ∧
  jm_get n (reach_of (tables w) u (groupIds x)) = Some ids ∧ held w !! (n, u) = Some SentRemove.
Proof.
  exists ex_fleet, ex_db, race_9, "bob",
    (edited 201 (Some active) race_input (with_status 200 expired (ex_user (Some 100)))), "n2", ["b2"].
  split; [apply NoDup_singleton|]. split; [|split; [vm_compute; done|by vm_compute]].
  etrans; [apply ex_start|].
  apply (rtc_l _ _ race_1); [by apply step_start|].
  apply (rtc_l _ _ race_2); [by apply step_land|].
  apply (rtc_l _ _ race_3); [by eapply (step_read _ _ _ "bob" race_input)|].
  apply (rtc_l _ _ race_4); [apply step_expire|].
  apply (rtc_l _ _ race_5); [by apply step_start|].
  apply (rtc_l _ _ race_6); [by apply step_land|].
  apply (rtc_l _ _ race_7); [by apply step_start|].
  apply (rtc_l _ _ race_8); [by apply step_land|].
  apply rtc_once. apply (step_write _ _ _ 201 "bob" race_input _ [] []); [reflexivity|intros [=]].
Qed.

(** The reset of a limited user, disabled between the handler's two statements. *)
Definition lift_1 := on_users (alter (with_traffic (fmap (λ t, mkTraffic (2 * BYTES_PER_GB) (lastTrafficResetAt t)))) "bob") (ex_created None).
Definition lift_2 := findExceededTrafficUsers 1 lift_1.
Definition lift_3 := ok_or lift_2 (resetUserTraffic 2 "bob" lift_2).
Definition lift_4 := onTrafficReset_read "bob" (on_resets (λ _, []) lift_3).
Definition lift_5 := ok_or lift_4 (updateUser 3 "bob" (ex_edit (Some disabled) None) lift_4).
Definition lift_6 := onTrafficReset_write 4 "bob" (on_lifts (λ _, []) lift_5).

(** A traffic reset revives a disabled user.  The handler reads that the user
    is limited and writes active without looking again: a user disabled in
    between is active, and is rolled out. *)
Theorem lift_revives_disabled : ∃ fleet T w w' u x x', rtc (step fleet true) (fresh T) w ∧ step fleet true w w' ∧
  users w !! u = Some x ∧ status x = disabled ∧ users w' !! u = Some x' ∧ alive_row x' = true ∧ addUser u ∈ queue w'.
Proof.
  exists ex_fleet, ex_db, lift_5, lift_6, "bob", (default (ex_user None) (users lift_5 !! "bob")),
    (default (ex_user None) (users lift_6 !! "bob")).
  split; [|split; [by apply (step_lift _ _ _ 4 "bob" [] [])|]].
  - etrans; [apply ex_start|].
    apply (rtc_l _ _ lift_1); [apply step_bill|].
    apply (rtc_l _ _ lift_2); [apply step_exceed|].
    apply (rtc_l _ _ lift_3); [by apply (step_reset _ _ _ 2 "bob")|].
    apply (rtc_l _ _ lift_4); [by apply (step_handle _ _ _ "bob" [] [])|].
    apply rtc_once. by eapply (step_update _ _ _ 3 "bob").
  - repeat (split; [vm_compute; reflexivity|]). apply (bool_decide_unpack _). vm_compute. exact I.
Qed.
