(* ===== verification/Sessions.v ===== *)
(** Who is let in: sessions and API tokens
    (apps/panel-backend/src/modules/auth: auth.hook.ts, revoked-tokens.ts, the
    sign-out and password routes of auth.routes.ts).

    Redis keeps the marks of signed-out sessions and of ended ones, with their
    expiry; time is milliseconds.  [jwtVerify] is @fastify/jwt: the claims of a
    token whose signature and expiry stand.  Which token of a request it reads,
    the header's or the cookie's, is a parameter too, as is sha256 in hex.  A
    claim of another type than the code tests for is [None]. *)

From S2P Require Import Prelude Js.

Local Open Scope string_scope.
Local Open Scope list_scope.
Local Open Scope Z_scope.

Record Claims := mkClaims {
  c_sub : option string; c_jti : option string; c_iatMs : option Z; c_iat : Z; c_exp : option Z }.

Record ApiTokenRow := mkApiToken {
  t_id : string; t_tokenHash : string; t_name : string; t_scopes : list string;
  t_createdByAdminId : option string; t_lastUsedAt : option Z }.

Record AdminRow := mkAdminRow { d_id : string; d_role : string; d_deleted : bool }.

Record World := mkWorld {
  redis : gmap string (string * Z);     (* value, and the millisecond it expires *)
  apiTokens : list ApiTokenRow;
  admins : list AdminRow
}.

Record Request := mkRequest { authorization : option string; auth_cookie : option string }.

Inductive outcome :=
  | Through (admin : option (string * string)) (apiToken : option (string * string * list string))
  | Refuse (code : Z) (message : string).

#[global] Instance outcome_eq_dec : EqDecision outcome.
Proof. solve_decision. Defined.

(** ** Marks *)
Definition revokedKey (jti : string) : string := "auth:revoked:" +:+ jti.
Definition endedKey (adminId : string) : string := "auth:sessions-ended:" +:+ adminId.

Definition redis_get (now : Z) (key : string) (w : World) : option string :=
  match redis w !! key with Some (v, expires) => if now <? expires then Some v else None | None => None end.

(** [redis.set(key, value, 'EX', ttl)] *)
Definition redis_set (now : Z) (key value : string) (ttl : Z) (w : World) : World :=
  mkWorld (<[key := (value, now + ttl * 1000)]> (redis w)) (apiTokens w) (admins w).

Definition revokeToken (jti : string) (exp now : Z) (w : World) : World :=
  let ttl := exp - now / 1000 in
  if ttl <=? 0 then w else redis_set now (revokedKey jti) "1" ttl w.

Definition endSessionsBefore (adminId : string) (atMs ttlSeconds : Z) (w : World) : World :=
  redis_set atMs (endedKey adminId) (pretty atMs) (Z.max 1 ttlSeconds) w.

Inductive SessionState := Live | SignedOut | Ended.
#[global] Instance SessionState_eq_dec : EqDecision SessionState.
Proof. solve_decision. Defined.

Definition sessionState (now : Z) (jti adminId : string) (issuedMs : Z) (w : World) : SessionState :=
  match redis_get now (revokedKey jti) w with
  | Some _ => SignedOut
  | None =>
      match redis_get now (endedKey adminId) w with
      | Some endedAt => match sf_to_int (js_Number endedAt) with
                        | Some t => if issuedMs <=? t then Ended else Live
                        | None => Live
                        end
      | None => Live
      end
  end.

(** ** Headers *)

(** [/^Bearer\s+(...)$/]: what follows the word and the white space. *)
Definition after_bearer (fold : bool) (s : string) : option (list ascii) :=
  let l := list_ascii_of_string s in
  let word := string_of_list_ascii (take 6 l) in
  if bool_decide ((if fold then js_lower word else word) = (if fold then "bearer" else "Bearer")) then
    match drop 6 l with
    | c :: rest => if is_ws c then Some (drop_ws rest) else None
    | [] => None
    end
  else None.

Definition token_char (c : ascii) : bool :=
  let n := nat_of_ascii c in
  ((65 <=? n) && (n <=? 90) || ((97 <=? n) && (n <=? 122)) || ((48 <=? n) && (n <=? 57)) || (n =? 95) || (n =? 45))%nat.

(** [/^Bearer\s+(icp_[A-Za-z0-9_-]+)$/] *)
Definition api_token_of (s : string) : option string :=
  match after_bearer false s with
  | Some l =>
      if bool_decide (take 4 l = list_ascii_of_string "icp_") && negb (bool_decide (drop 4 l = [])) && forallb token_char (drop 4 l)
      then Some (string_of_list_ascii l) else None
  | None => None
  end.

(** [/^Bearer\s+(\S+)$/i] *)
Definition bearer_of (s : string) : option string :=
  match after_bearer true s with
  | Some l => if negb (bool_decide (l = [])) && forallb (λ c, negb (is_ws c)) l then Some (string_of_list_ascii l) else None
  | None => None
  end.

Definition hex_char (c : ascii) : bool :=
  let n := nat_of_ascii c in
  ((48 <=? n) && (n <=? 57) || ((97 <=? n) && (n <=? 102)) || ((65 <=? n) && (n <=? 70)))%nat.

(** [ADMIN_ID] *)
Definition is_admin_id (s : string) : bool :=
  let part (n : nat) (p : string) := (String.length p =? n)%nat && forallb hex_char (list_ascii_of_string p) in
  match js_split "-" s with
  | [a; b; c; d; e] => part 8%nat a && part 4%nat b && part 4%nat c && part 4%nat d && part 12%nat e
  | _ => false
  end.

Section Auth.
Context (sha256hex : string → string).
Context (jwtVerify : string → Z → option Claims).
Context (session_token : Request → option string).

(** ** The hook *)
Definition touch (now : Z) (row : ApiTokenRow) (w : World) : World :=
  if 60000 <? now - default 0 (t_lastUsedAt row)
  then mkWorld (redis w) ((λ t, if bool_decide (t_id t = t_id row)
                               then mkApiToken (t_id t) (t_tokenHash t) (t_name t) (t_scopes t) (t_createdByAdminId t) (Some now)
                               else t) <$> apiTokens w) (admins w)
  else w.

Definition tryApiToken (now : Z) (r : Request) (w : World) : option ApiTokenRow * World :=
  match authorization r ≫= api_token_of with
  | None => (None, w)
  | Some plaintext =>
      match js_find (λ t, bool_decide (t_tokenHash t = sha256hex plaintext)) (apiTokens w) with
      | None => (None, w)
      | Some row => (Some row, touch now row w)
      end
  end.

Definition findAdminById (id : string) (w : World) : option AdminRow :=
  if bool_decide (id = "") then None else
  match js_find (λ a, bool_decide (d_id a = id)) (admins w) with
  | Some a => if d_deleted a then None else Some a
  | None => None
  end.

Definition MISSING : outcome := Refuse 401 "Missing or invalid token".

(** [answers]: Redis answers within [CHECK_TIMEOUT_MS]. *)
Definition requireAuth (answers : bool) (now : Z) (r : Request) (w : World) : outcome * World :=
  match tryApiToken now r w with
  | (Some row, w) =>
      (Through (match t_createdByAdminId row with
                | Some id => if bool_decide (id = "") then None else Some (id, "admin")
                | None => None
                end) (Some (t_id row, t_name row, t_scopes row)), w)
  | (None, w) =>
      match session_token r ≫= λ tok, jwtVerify tok now with
      | None => (MISSING, w)
      | Some p =>
          match c_sub p with
          | Some sub =>
              if negb (is_admin_id sub) then (MISSING, w) else
              match c_jti p with
              | Some jti =>
                  if bool_decide (jti = "") then (MISSING, w) else
                  let issuedMs := default (c_iat p * 1000) (c_iatMs p) in
                  if negb answers then (Refuse 503 "Session check unavailable, try again", w) else
                  match sessionState now jti sub issuedMs w with
                  | SignedOut => (Refuse 401 "Signed out", w)
                  | Ended => (Refuse 401 "Session ended by a password change", w)
                  | Live =>
                      match findAdminById sub w with
                      | None => (Refuse 401 "Admin no longer exists", w)
                      | Some a => (Through (Some (d_id a, d_role a)) None, w)
                      end
                  end
              | None => (MISSING, w)
              end
          | None => (MISSING, w)
          end
      end
  end.

Definition requireSession (o : outcome) : outcome :=
  match o with
  | Through _ (Some _) => Refuse 403 "API tokens cannot manage 2FA, log in as admin"
  | _ => o
  end.

(** ** Sign-out and password change *)

(** [new Set([bearer, cookie])] *)
Definition presented (r : Request) : list string :=
  js_uniq (filter (λ t, t ≠ "") (omap id [authorization r ≫= bearer_of; auth_cookie r])).

Definition revoke_one (now : Z) (w : World) (tok : string) : World :=
  match jwtVerify tok now with
  | Some p => match c_jti p, c_exp p with Some jti, Some exp => revokeToken jti exp now w | _, _ => w end
  | None => w
  end.

Definition logout (now : Z) (r : Request) (w : World) : World := foldl (revoke_one now) w (presented r).

(** The password route once the checks have passed: [user] is the session's claims. *)
Definition password_changed (now : Z) (adminId : string) (user : Claims) (w : World) : World :=
  endSessionsBefore adminId now (default 0 (c_exp user) - c_iat user + 60) w.

Inductive event := Logout (r : Request) | PasswordChange (adminId : string) (user : Claims).

Definition happen (now : Z) (ev : event) (w : World) : World :=
  match ev with Logout r => logout now r w | PasswordChange id user => password_changed now id user w end.

Definition history (w : World) (h : list (Z * event)) : World := foldl (λ w e, happen e.1 e.2 w) w h.

(** ** What the marks say *)

(** The session of this id was presented at a sign-out. *)
Definition signed_out (h : list (Z * event)) (jti : string) : Prop :=
  ∃ t r tok p, (t, Logout r) ∈ h ∧ tok ∈ presented r ∧ jwtVerify tok t = Some p ∧ c_jti p = Some jti.

(** The admin's password was changed at or after this moment. *)
Definition ended_since (h : list (Z * event)) (adminId : string) (issuedMs : Z) : Prop :=
  ∃ t user, (t, PasswordChange adminId user) ∈ h ∧ issuedMs <= t.

Definition in_order (h : list (Z * event)) : Prop := StronglySorted (λ a b : Z * event, a.1 <= b.1) h.

Definition issuedMs (p : Claims) : Z := default (c_iat p * 1000) (c_iatMs p).

(** @fastify/jwt takes no expired token. *)
Hypothesis jwt_expires : ∀ tok now p e, jwtVerify tok now = Some p → c_exp p = Some e → now < e * 1000.
(** An id is drawn for one sign-in, so it names one expiry. *)
Hypothesis jwt_id : ∀ tok tok' t t' p p' j, jwtVerify tok t = Some p → jwtVerify tok' t' = Some p' →
  c_jti p = Some j → c_jti p' = Some j → c_exp p = c_exp p'.

Lemma keys_apart j a : revokedKey j ≠ endedKey a.
Proof. discriminate. Qed.

Lemma revokedKey_inj j j' : revokedKey j = revokedKey j' → j = j'.
Proof. unfold revokedKey. by intros [= H]. Qed.

Lemma endedKey_inj a a' : endedKey a = endedKey a' → a = a'.
Proof. unfold endedKey. by intros [= H]. Qed.

Lemma history_snoc w h e : history w (h ++ [e]) = happen e.1 e.2 (history w h).
Proof. unfold history. by rewrite foldl_app. Qed.

Lemma revokeToken_other j e t w k : k ≠ revokedKey j → redis (revokeToken j e t w) !! k = redis w !! k.
Proof. intros H. unfold revokeToken. destruct (_ <=? 0); [done|]. cbn. by rewrite lookup_insert_ne by congruence. Qed.

Lemma revoke_one_ended t w tok a : redis (revoke_one t w tok) !! endedKey a = redis w !! endedKey a.
Proof.
  unfold revoke_one. destruct (jwtVerify tok t) as [p|]; [|done]. destruct (c_jti p), (c_exp p); try done.
  apply revokeToken_other. intros E. by apply (keys_apart s a).
Qed.

Lemma logout_ended t r w a : redis (logout t r w) !! endedKey a = redis w !! endedKey a.
Proof.
  unfold logout. generalize (presented r). intros toks. revert w.
  induction toks as [|tok toks IH]; intros w; cbn; [done|]. by rewrite IH, revoke_one_ended.
Qed.

Lemma revoke_one_rows t w tok : apiTokens (revoke_one t w tok) = apiTokens w ∧ admins (revoke_one t w tok) = admins w.
Proof.
  unfold revoke_one, revokeToken. destruct (jwtVerify tok t) as [p|]; [|done]. destruct (c_jti p), (c_exp p); try done.
  by destruct (_ <=? 0).
Qed.

Lemma happen_rows t ev w : apiTokens (happen t ev w) = apiTokens w ∧ admins (happen t ev w) = admins w.
Proof.
  destruct ev as [r|a user]; [|done]. unfold happen, logout. generalize (presented r). intros toks. revert w.
  induction toks as [|tok toks IH]; intros w; [done|]. cbn. destruct (IH (revoke_one t w tok)) as [-> ->]. apply revoke_one_rows.
Qed.

Lemma history_rows w h : apiTokens (history w h) = apiTokens w ∧ admins (history w h) = admins w.
Proof.
  induction h as [|e h IH] using rev_ind; [done|]. rewrite history_snoc.
  destruct (happen_rows e.1 e.2 (history w h)) as [-> ->]. apply IH.
Qed.

(** The mark of a signed-out session outlives the session. *)
Section Revoked.
Context (j : string) (e : Z).
Hypothesis exp_of_j : ∀ tok t p, jwtVerify tok t = Some p → c_jti p = Some j → c_exp p = Some e.

Definition marked (w : World) : Prop := ∃ v x, redis w !! revokedKey j = Some (v, x) ∧ e * 1000 <= x.

Lemma revoke_marks t w : t < e * 1000 → marked (revokeToken j e t w).
Proof.
  intros Ht. unfold revokeToken. pose proof (Z.div_mod t 1000 ltac:(lia)) as Hd. pose proof (Z.mod_pos_bound t 1000 ltac:(lia)) as Hm.
  destruct (Z.leb_spec (e - t / 1000) 0) as [H|H]; [lia|].
  exists "1", (t + (e - t / 1000) * 1000). cbn. split; [apply lookup_insert_eq|]. lia.
Qed.

Definition names_j (t : Z) (tok : string) : Prop := ∃ p, jwtVerify tok t = Some p ∧ c_jti p = Some j.

Lemma names_dec t tok : names_j t tok ∨ ¬ names_j t tok.
Proof.
  unfold names_j. destruct (jwtVerify tok t) as [p|]; [|right; naive_solver].
  destruct (decide (c_jti p = Some j)); [left; eauto|right; naive_solver].
Qed.

Lemma revoke_hit t w tok : names_j t tok → marked (revoke_one t w tok).
Proof.
  intros (p & Ev & Hj). pose proof (exp_of_j _ _ _ Ev Hj) as He. unfold revoke_one. rewrite Ev, Hj, He.
  apply revoke_marks. eauto.
Qed.

Lemma revoke_miss t w tok : ¬ names_j t tok → redis (revoke_one t w tok) !! revokedKey j = redis w !! revokedKey j.
Proof.
  intros Hn. unfold revoke_one. destruct (jwtVerify tok t) as [p|] eqn:Ev; [|done].
  destruct (c_jti p) as [j'|] eqn:Ej; [|done]. destruct (c_exp p) as [e'|]; [|done].
  apply revokeToken_other. intros E. apply revokedKey_inj in E. apply Hn. exists p. by rewrite Ej, E.
Qed.

Lemma revoke_keeps t w tok : marked w → marked (revoke_one t w tok).
Proof.
  intros Hw. destruct (names_dec t tok) as [H|H]; [by apply revoke_hit|]. unfold marked. by rewrite revoke_miss.
Qed.

Lemma revoke_all_keeps t toks w : marked w → marked (foldl (revoke_one t) w toks).
Proof. revert w. induction toks; cbn; auto using revoke_keeps. Qed.

Lemma logout_keeps t r w : marked w → marked (logout t r w).
Proof. apply revoke_all_keeps. Qed.

Lemma logout_hit t r w tok : tok ∈ presented r → names_j t tok → marked (logout t r w).
Proof.
  unfold logout. generalize (presented r). intros toks. revert w.
  induction toks as [|tok' toks IH]; intros w Hin Hn; [by apply not_elem_of_nil in Hin|]. cbn.
  apply elem_of_cons in Hin as [->|Hin]; [by apply revoke_all_keeps, revoke_hit|by apply IH].
Qed.

Lemma logout_miss t r w : (∀ tok, tok ∈ presented r → ¬ names_j t tok) →
  redis (logout t r w) !! revokedKey j = redis w !! revokedKey j.
Proof.
  unfold logout. generalize (presented r). intros toks. revert w.
  induction toks as [|tok toks IH]; intros w Hn; cbn; [done|]. rewrite IH by (intros; apply Hn; set_solver).
  apply revoke_miss, Hn. set_solver.
Qed.

Lemma presented_dec t r : (∃ tok, tok ∈ presented r ∧ names_j t tok) ∨ ∀ tok, tok ∈ presented r → ¬ names_j t tok.
Proof.
  generalize (presented r). intros toks. induction toks as [|tok toks [(tok' & Hin & Hn)|IH]].
  - right. set_solver.
  - left. exists tok'. set_solver.
  - destruct (names_dec t tok); [left; exists tok; set_solver|right; set_solver].
Qed.

Lemma marks_of_history w h : redis w !! revokedKey j = None →
  (signed_out h j ∧ marked (history w h)) ∨ (¬ signed_out h j ∧ redis (history w h) !! revokedKey j = None).
Proof.
  intros H0. induction h as [|[t ev] h IH] using rev_ind.
  - right. split; [|done]. intros (? & ? & ? & ? & []%not_elem_of_nil & _).
  - rewrite history_snoc. cbn [fst snd]. destruct ev as [r|a user]; cbn [happen].
    + destruct (presented_dec t r) as [(tok & Hin & Hn)|Hno].
      * left. split; [|by eapply logout_hit]. destruct Hn as (p & ? & ?). exists t, r, tok, p. set_solver.
      * destruct IH as [[Hs Hm]|[Hs Hm]].
        -- left. split; [|by apply logout_keeps]. destruct Hs as (t' & r' & tok & p & ? & ?). exists t', r', tok, p. set_solver.
        -- right. rewrite logout_miss by done. split; [|done]. intros (t' & r' & tok & p & Hin & Htok & Hp & Hj).
           apply elem_of_app in Hin as [Hin|[= -> ->]%list_elem_of_singleton]; [apply Hs; exists t', r', tok, p; done|].
           apply (Hno tok Htok). exists p. done.
    + assert (redis (password_changed t a user (history w h)) !! revokedKey j = redis (history w h) !! revokedKey j) as Hsame.
      { cbn. rewrite lookup_insert_ne; [done|]. intros E. by apply (keys_apart j a). }
      destruct IH as [[Hs Hm]|[Hs Hm]].
      * left. split; [|unfold marked in *; by rewrite Hsame]. destruct Hs as (t' & r' & tok & p & ? & ?). exists t', r', tok, p. set_solver.
      * right. rewrite Hsame. split; [|done]. intros (t' & r' & tok & p & Hin & Hrest).
        apply elem_of_app in Hin as [Hin|Hin%list_elem_of_singleton]; [|done]. apply Hs. exists t', r', tok, p. done.
Qed.

Lemma revoked_get w h now : redis w !! revokedKey j = None → now < e * 1000 →
  is_Some (redis_get now (revokedKey j) (history w h)) ↔ signed_out h j.
Proof.
  intros H0 Hnow. unfold redis_get. destruct (marks_of_history w h H0) as [[Hs (v & x & Hv & Hx)]|[Hs Hv]]; rewrite Hv.
  - rewrite (proj2 (Z.ltb_lt now x)) by lia. split; [done|by eexists].
  - split; [by intros []|done].
Qed.
End Revoked.

(** The last password change is the one in force. *)
Definition mark_life (user : Claims) : Z := Z.max 1 (default 0 (c_exp user) - c_iat user + 60) * 1000.

Lemma in_order_snoc h x : in_order (h ++ [x]) → in_order h ∧ ∀ y, y ∈ h → y.1 <= x.1.
Proof.
  unfold in_order. intros H. induction h as [|z h IH]; [split; [constructor|set_solver]|].
  cbn in H. apply StronglySorted_inv in H as [H Hz]. destruct (IH H) as [IH1 IH2].
  rewrite Forall_forall in Hz. split.
  - constructor; [done|]. rewrite Forall_forall. intros y Hy. apply Hz. set_solver.
  - intros y [->|Hy]%elem_of_cons; [apply Hz; set_solver|by apply IH2].
Qed.

Lemma ended_of_history w h a : redis w !! endedKey a = None → in_order h →
  ((∀ t user, (t, PasswordChange a user) ∉ h) ∧ redis (history w h) !! endedKey a = None) ∨
  (∃ t user, (t, PasswordChange a user) ∈ h ∧ redis (history w h) !! endedKey a = Some (pretty t, t + mark_life user) ∧
     ∀ t' user', (t', PasswordChange a user') ∈ h → t' <= t).
Proof.
  intros H0. induction h as [|[t ev] h IH] using rev_ind; intros Hord.
  - left. split; [|done]. intros t user. apply not_elem_of_nil.
  - apply in_order_snoc in Hord as [Hord Hlast]. specialize (IH Hord). rewrite history_snoc. cbn [fst snd] in Hlast |- *.
    assert (∀ t' u', (t', PasswordChange a u') ∈ h ++ [(t, ev)] → (t', PasswordChange a u') ∈ h ∨ (t' = t ∧ ev = PasswordChange a u')) as Hin.
    { intros t' u' [?|E%list_elem_of_singleton]%elem_of_app; [by left|right]. by injection E as -> ->. }
    assert ((∃ user, ev = PasswordChange a user) ∨ ∀ user, ev ≠ PasswordChange a user) as [[user ->]|Hev].
    { destruct ev as [r|a' user]; [by right|]. destruct (decide (a' = a)) as [->|]; [left; eauto|right; congruence]. }
    + right. exists t, user. split; [set_solver|].
      split; [apply lookup_insert_eq|]. intros t' u' Ht'. apply Hin in Ht' as [Ht'|[-> _]]; [|lia]. by apply (Hlast _ Ht').
    + assert (redis (happen t ev (history w h)) !! endedKey a = redis (history w h) !! endedKey a) as ->.
      { destruct ev as [r|a' user]; [apply logout_ended|]. cbn. rewrite lookup_insert_ne; [done|].
        intros E%endedKey_inj. subst. by apply (Hev user). }
      destruct IH as [[Hno Hnone]|(t0 & u0 & Ht0 & Hsome & Hmax)].
      * left. split; [|done]. intros t' u' Ht'. apply Hin in Ht' as [Ht'|[_ Hx]]; [by apply (Hno _ _ Ht')|by apply (Hev u')].
      * right. exists t0, u0. split; [set_solver|]. split; [done|].
        intros t' u' Ht'. apply Hin in Ht' as [Ht'|[_ Hx]]; [by eapply Hmax|by apply Hev in Hx].
Qed.

(** An expired mark ends no session that still lives. *)
Definition outlived (h : list (Z * event)) (adminId : string) (p : Claims) (e : Z) : Prop :=
  ∀ t user, (t, PasswordChange adminId user) ∈ h → e * 1000 <= issuedMs p + mark_life user.

Lemma ended_get w h a now p e : redis w !! endedKey a = None → in_order h →
  (∀ x, x ∈ h → 0 <= x.1 <= now) → now < 2 ^ 53 → now < e * 1000 → outlived h a p e →
  (∃ v t, redis_get now (endedKey a) (history w h) = Some v ∧ sf_to_int (js_Number v) = Some t ∧ issuedMs p <= t) ↔
  ended_since h a (issuedMs p).
Proof.
  intros H0 Hord Htimes Hnow He Hlife. unfold redis_get.
  destruct (ended_of_history w h a H0 Hord) as [[Hno ->]|(t & user & Hin & -> & Hmax)].
  - split; [naive_solver|]. intros (t & user & Hin & _). by apply Hno in Hin.
  - pose proof (Htimes _ Hin) as Ht. cbn in Ht. split.
    + intros (v & t' & Hv & Ht' & Hle). destruct (now <? _); [|done]. apply (inj Some) in Hv as <-.
      rewrite js_Number_pretty in Ht' by lia. apply (inj Some) in Ht' as <-. by exists t, user.
    + intros (t' & user' & Hin' & Hle). pose proof (Hmax _ _ Hin') as Ht'. pose proof (Hlife _ _ Hin) as Hl.
      rewrite (proj2 (Z.ltb_lt now _)) by lia. exists (pretty t), t. rewrite js_Number_pretty by lia. split; [done|]. split; [done|lia].
Qed.

(** C30. A session ends when it is ended, and only then.  After any history of
    sign-outs and password changes a token that still verifies is refused as
    signed out exactly when it was presented at a sign-out, as ended exactly when
    it was not and its admin's password was changed at or after its issue, and
    let in as its admin otherwise, provided the marks live as long as the token;
    and where Redis does not answer it is refused. *)
Theorem sessions_exact w h now r p sub j e a :
  redis w = ∅ → in_order h → (∀ x, x ∈ h → 0 <= x.1 <= now) → now < 2 ^ 53 →
  authorization r ≫= api_token_of = None → (session_token r ≫= λ tok, jwtVerify tok now) = Some p →
  c_sub p = Some sub → is_admin_id sub = true → c_jti p = Some j → j ≠ "" → c_exp p = Some e → outlived h sub p e →
  findAdminById sub w = Some a →
  let o := (requireAuth true now r (history w h)).1 in
  (o = Refuse 401 "Signed out" ↔ signed_out h j) ∧
  (o = Refuse 401 "Session ended by a password change" ↔ ¬ signed_out h j ∧ ended_since h sub (issuedMs p)) ∧
  (o = Through (Some (d_id a, d_role a)) None ↔ ¬ signed_out h j ∧ ¬ ended_since h sub (issuedMs p)) ∧
  (requireAuth false now r (history w h)).1 = Refuse 503 "Session check unavailable, try again".
Proof.
  intros H0 Hord Htimes Hnow Hapi Htok Hsub Hid Hj Hj0 He Hlife Ha o.
  destruct (session_token r) as [tok|] eqn:Er; [|done]. cbn in Htok.
  assert (now < e * 1000) as Hexp by eauto.
  assert (is_Some (redis_get now (revokedKey j) (history w h)) ↔ signed_out h j) as Hrev.
  { apply (revoked_get j e); [|by rewrite H0, lookup_empty|done]. intros tok' t' p' Hp' Hj'. rewrite <-He. symmetry. by eapply jwt_id. }
  pose proof (ended_get w h sub now p e ltac:(by rewrite H0, lookup_empty) Hord Htimes Hnow Hexp Hlife) as Hend.
  assert (∀ ans, (requireAuth ans now r (history w h)).1 =
    if negb ans then Refuse 503 "Session check unavailable, try again" else
    match sessionState now j sub (issuedMs p) (history w h) with
    | SignedOut => Refuse 401 "Signed out" | Ended => Refuse 401 "Session ended by a password change"
    | Live => Through (Some (d_id a, d_role a)) None end) as Hreq.
  { intros ans. unfold requireAuth, tryApiToken. rewrite Hapi, Er. cbn. rewrite Htok, Hsub, Hid, Hj. cbn.
    rewrite (bool_decide_false _ Hj0). destruct ans; [|done]. cbn. fold (issuedMs p).
    assert (findAdminById sub (history w h) = Some a) as -> by (unfold findAdminById; by rewrite (proj2 (history_rows w h))).
    by destruct (sessionState _ _ _ _ _). }
  unfold o. rewrite Hreq, (Hreq false). cbn. split_and!; [..|done].
  all: unfold sessionState; destruct (redis_get now (revokedKey j) (history w h)) as [v|] eqn:Ev;
    [assert (signed_out h j) as Hs by (by apply Hrev; eexists); naive_solver|
     assert (¬ signed_out h j) as Hs by (intros Hs; by apply Hrev in Hs as [? ?])].
  all: destruct (redis_get now (endedKey sub) (history w h)) as [v|] eqn:Ee;
    [destruct (sf_to_int (js_Number v)) as [t|] eqn:En; [destruct (Z.leb_spec (issuedMs p) t)|]|].
  all: try (assert (ended_since h sub (issuedMs p)) as Hes by (apply Hend; exists v, t; done); naive_solver).
  all: assert (¬ ended_since h sub (issuedMs p)) as Hes
    by (intros Hx; apply Hend in Hx as (v' & t' & Hv' & Ht' & Hle'); simplify_eq; try lia); naive_solver.
Qed.
End Auth.

(** ** Examples *)
Definition ex_sub : string := "00000000-0000-4000-8000-0000000000aa".
Definition ex_old : Claims := mkClaims (Some ex_sub) (Some "a") (Some 1000) 1 (Some 604801).
Definition ex_new : Claims := mkClaims (Some ex_sub) (Some "b") (Some 5000) 5 (Some 3605).

(** Two sessions of one admin, the first signed for a week, the second for an hour. *)
Definition ex_verify (tok : string) (now : Z) : option Claims :=
  let live (p : Claims) := if now <? default 0 (c_exp p) * 1000 then Some p else None in
  if bool_decide (tok = "A") then live ex_old else if bool_decide (tok = "B") then live ex_new else None.

Definition ex_world : World := mkWorld ∅ [] [mkAdminRow ex_sub "admin" false].
Definition ex_request (tok : string) : Request := mkRequest None (Some tok).
Definition ex_taken (r : Request) : option string := auth_cookie r.

Lemma ex_verify_cases tok now p : ex_verify tok now = Some p →
  (p = ex_old ∧ now < 604801000) ∨ (p = ex_new ∧ now < 3605000).
Proof.
  unfold ex_verify. destruct (bool_decide (tok = "A")); [|destruct (bool_decide (tok = "B")); [|done]]; cbn;
    (destruct (_ <? _) eqn:Hl; [apply Z.ltb_lt in Hl|done]); intros E; apply (inj Some) in E as <-; auto.
Qed.

Lemma ex_expires tok now p e : ex_verify tok now = Some p → c_exp p = Some e → now < e * 1000.
Proof. intros [[-> H]|[-> H]]%ex_verify_cases E; apply (inj Some) in E as <-; lia. Qed.

Lemma ex_ids tok tok' t t' p p' j : ex_verify tok t = Some p → ex_verify tok' t' = Some p' →
  c_jti p = Some j → c_jti p' = Some j → c_exp p = c_exp p'.
Proof. intros [[-> _]|[-> _]]%ex_verify_cases [[-> _]|[-> _]]%ex_verify_cases E E'; cbn in *; congruence. Qed.

Theorem sessions_exact_witness :
  (requireAuth (λ s, s) ex_verify ex_taken true 3000 (ex_request "A")
     (history ex_verify ex_world [(2000, Logout (ex_request "A"))])).1 = Refuse 401 "Signed out".
Proof.
  apply (sessions_exact (λ s, s) ex_verify ex_taken ex_expires ex_ids ex_world [(2000, Logout (ex_request "A"))] 3000
    (ex_request "A") ex_old ex_sub "a" 604801 (mkAdminRow ex_sub "admin" false)); try reflexivity.
  - repeat constructor.
  - intros x ->%list_elem_of_singleton. cbn. lia.
  - done.
  - intros t user Hin%list_elem_of_singleton. done.
  - exists 2000, (ex_request "A"), "A", ex_old. split; [by apply list_elem_of_singleton|].
    split; [|split; [vm_compute; reflexivity|reflexivity]]. apply (bool_decide_unpack _). vm_compute. exact I.
Defined.

(** A lowered lifetime revives ended sessions.  The mark of a password change
    lives as long as the session that changed it: where sessions were once signed
    for longer, one that the change ended is let in again when the mark is gone. *)
Theorem lowered_lifetime_revives : ∃ verify taken w h r p t1 t2 id role,
  (∀ tok now q e, verify tok now = Some q → c_exp q = Some e → now < e * 1000) ∧
  (∀ tok tok' t t' q q' j, verify tok t = Some q → verify tok' t' = Some q' → c_jti q = Some j → c_jti q' = Some j → c_exp q = c_exp q') ∧
  (taken r ≫= λ tok, verify tok t1) = Some p ∧ ended_since h id (issuedMs p) ∧ t1 < t2 ∧
  (requireAuth (λ s, s) verify taken true t1 r (history verify w h)).1 = Refuse 401 "Session ended by a password change" ∧
  (requireAuth (λ s, s) verify taken true t2 r (history verify w h)).1 = Through (Some (id, role)) None.
Proof.
  exists ex_verify, ex_taken, ex_world, [(10000, PasswordChange ex_sub ex_new)], (ex_request "A"), ex_old, 20000, 3670001, ex_sub, "admin".
  split; [exact ex_expires|]. split; [exact ex_ids|]. split; [vm_compute; reflexivity|].
  split; [exists 10000, ex_new; split; [by apply list_elem_of_singleton|done]|]. split; [lia|].
  split; vm_compute; reflexivity.
Qed.
