(* ===== verification/Scopes.v ===== *)
(** What an API token may do, and what it is shown
    (apps/panel-backend/src/modules/auth: scope.hook.ts, token-secrets.ts;
    modules/api-tokens/api-tokens.routes.ts and the reader of
    modules/named-outbounds/named-outbounds.routes.ts).

    A route is its method and the pattern it was registered under.  A reply and
    a body are JSON; [undefined] in a body is an absent entry. *)

From S2P Require Import Prelude Js Json.

Local Open Scope string_scope.
Local Open Scope list_scope.

(** ** Scopes *)
Definition is_read (method : string) : bool := bool_decide (method = "GET") || bool_decide (method = "HEAD").

(** [url.slice('/api/'.length).split('/')[0]] of a url that starts so. *)
Definition api_resource (url : string) : option string :=
  if bool_decide (str_take 5 url = "/api/") then Some (default "" (head (js_split "/" (str_drop 5 url)))) else None.

Definition requiredScopeFor (method : string) (url : option string) : option string :=
  match url with
  | None => None
  | Some url =>
      match api_resource url with
      | None => None
      | Some resource =>
          if bool_decide (url = "/api/users/:id/endpoints") && is_read method then Some "sub:read" else
          if bool_decide (url = "/api/nodes/:id/chain-secret") then Some "nodes:write" else
          if bool_decide (resource = "") then None else
          Some (resource +:+ ":" +:+ (if is_read method then "read" else "write"))
      end
  end.

Definition SCOPEABLE_RESOURCES : list string :=
  ["users"; "nodes"; "profiles"; "bindings"; "hosts"; "squads"; "srr"; "regions"; "cascades"; "hwid-devices";
   "settings"; "recipes"; "dashboard"; "system"; "route-policies"; "node-policies"; "named-outbounds"; "geo-sets";
   "routing-presets"; "subscription-templates"].

Definition UNSCOPED_RESOURCES : list string := ["api-tokens"; "auth"; "internal"; "audit"].

Definition KNOWN_SCOPES : list string :=
  ["*"; "sub:read"] ++ (SCOPEABLE_RESOURCES ≫= λ r, [r +:+ ":read"; r +:+ ":write"]).

Definition isKnownScope (scope : string) : bool := bool_decide (scope ∈ KNOWN_SCOPES).

(** [CreateInput.scopes] *)
Definition mintable (scopes : list string) : bool :=
  (length scopes <=? 32)%nat && forallb (λ s, (String.length s <=? 64)%nat) scopes && forallb isKnownScope scopes.

Inductive passage := Pass (redacted : bool) | Forbidden (message : string).
#[global] Instance passage_eq_dec : EqDecision passage.
Proof. solve_decision. Defined.

Definition isRestrictedToken (token : option (list string)) : bool :=
  match token with
  | Some scopes => negb (bool_decide (scopes = [])) && negb (bool_decide ("*" ∈ scopes))
  | None => false
  end.

(** [token] is [request.apiToken]'s scopes. *)
Definition enforceScopes (token : option (list string)) (method : string) (url : option string) : passage :=
  match token with
  | None => Pass false
  | Some scopes =>
      if bool_decide (scopes = []) || bool_decide ("*" ∈ scopes) then Pass false else
      match requiredScopeFor method url with
      | None => Forbidden "API token scope does not grant access to this route"
      | Some required =>
          if bool_decide (required ∈ scopes) then Pass (isRestrictedToken token)
          else Forbidden ("API token is missing the required scope (" +:+ required +:+ ") for this route")
      end
  end.

(** ** Secrets *)
Definition SERVER_SECRET_KEYS : list string :=
  ["obfsPassword"; "tlsKey"; "realityPrivateKey"; "serverPrivateKey"; "serverPsk"; "ssPassword"].

Fixpoint withoutServerSecrets (value : jvalue) : jvalue :=
  match value with
  | JArr xs => JArr (map withoutServerSecrets xs)
  | JObj fields =>
      JObj ((fix go (fs : list (string * jvalue)) :=
        match fs with
        | [] => []
        | (k, v) :: fs => if bool_decide (k ∈ SERVER_SECRET_KEYS) then go fs else (k, withoutServerSecrets v) :: go fs
        end) fields)
  | v => v
  end.

(** What a route's reply becomes ([redactRepliesOf]). *)
Definition serialised (p : passage) (payload : jvalue) : option jvalue :=
  match p with
  | Pass true => Some (withoutServerSecrets payload)
  | Pass false => Some payload
  | Forbidden _ => None
  end.

Definition keep_one (stored : list (string * jvalue)) (out : list (string * jvalue)) (key : string) : list (string * jvalue) :=
  match jm_get key out, jm_get key stored with
  | None, Some v => jm_set key v out
  | _, _ => out
  end.

Definition keepStoredSecrets (sent stored : jvalue) (keys : list string) : jvalue :=
  match sent, stored with
  | JObj s, JObj t => JObj (foldl (keep_one t) s keys)
  | _, _ => sent
  end.

(** The body of a PUT; [stored] [None] is [undefined]. *)
Definition withStoredSecrets (token : option (list string)) (body : jvalue) (field : string) (stored : option jvalue)
    (keys : list string) : jvalue :=
  if negb (isRestrictedToken token) then body else
  match body with
  | JObj b =>
      match jm_get field b with
      | Some sent => JObj (jm_set field (match stored with Some t => keepStoredSecrets sent t keys | None => sent end) b)
      | None => body
      end
  | _ => body
  end.

Definition UPSTREAM_SECRETS : list string := ["password"].

(** [forReader] on the outbound's [config]. *)
Definition forReader (token : option (list string)) (config : jvalue) : jvalue :=
  if negb (isRestrictedToken token) then config else
  match config with
  | JObj fs => JObj (filter (λ kv, kv.1 ≠ "password") fs)
  | _ => config
  end.

(** ** What a scoped token reaches *)
Lemma str_app_inj_r (a b c : string) : a +:+ c = b +:+ c → a = b.
Proof.
  intros H. apply (f_equal list_ascii_of_string) in H. rewrite !list_ascii_app in H. apply app_inv_tail in H.
  by rewrite <-(string_of_list_ascii_of_string a), H, string_of_list_ascii_of_string.
Qed.

Lemma verbs_apart a b : a +:+ ":read" ≠ b +:+ ":write".
Proof.
  intros H. apply (f_equal list_ascii_of_string) in H. rewrite !list_ascii_app in H.
  apply (f_equal (@reverse _)) in H. rewrite !reverse_app in H. discriminate.
Qed.

Lemma known_iff s : s ∈ KNOWN_SCOPES ↔ s = "*" ∨ s = "sub:read" ∨ ∃ r, r ∈ SCOPEABLE_RESOURCES ∧ (s = r +:+ ":read" ∨ s = r +:+ ":write").
Proof.
  unfold KNOWN_SCOPES. rewrite elem_of_app, !elem_of_cons, elem_of_nil, list_elem_of_bind.
  setoid_rewrite elem_of_cons. setoid_rewrite elem_of_cons. setoid_rewrite elem_of_nil. naive_solver.
Qed.

Lemma required_known method url s : requiredScopeFor method (Some url) = Some s → isKnownScope s = true →
  ∃ r, api_resource url = Some r ∧ r ∈ "sub" :: SCOPEABLE_RESOURCES.
Proof.
  unfold requiredScopeFor, isKnownScope. rewrite bool_decide_eq_true, known_iff.
  destruct (api_resource url) as [r|] eqn:Er; [|done]. intros H Hs. exists r. split; [done|].
  destruct (bool_decide (url = "/api/users/:id/endpoints") && is_read method) eqn:E1.
  { apply andb_true_iff in E1 as [->%bool_decide_eq_true _]. vm_compute in Er. apply (inj Some) in Er as <-. set_solver. }
  destruct (bool_decide (url = "/api/nodes/:id/chain-secret")) eqn:E2.
  { apply bool_decide_eq_true in E2 as ->. vm_compute in Er. apply (inj Some) in Er as <-. set_solver. }
  destruct (bool_decide (r = "")) eqn:E3; [done|]. apply (inj Some) in H as <-.
  destruct Hs as [Hs|[Hs|(r' & Hr' & Hs)]].
  - exfalso. apply (f_equal (str_has ":")) in Hs. rewrite str_has_app in Hs.
    destruct (is_read method); cbn in Hs; destruct (str_has ":" r); discriminate.
  - destruct (is_read method).
    + change "sub:read" with ("sub" +:+ ":read") in Hs. apply str_app_inj_r in Hs as ->. set_solver.
    + symmetry in Hs. change "sub:read" with ("sub" +:+ ":read") in Hs. by apply verbs_apart in Hs.
  - destruct (is_read method), Hs as [Hs|Hs].
    + apply str_app_inj_r in Hs as ->. set_solver.
    + by apply verbs_apart in Hs.
    + symmetry in Hs. by apply verbs_apart in Hs.
    + apply str_app_inj_r in Hs as ->. set_solver.
Qed.

Lemma required_reads method url r : requiredScopeFor method (Some url) = Some (r +:+ ":read") → is_read method = true.
Proof.
  unfold requiredScopeFor. destruct (api_resource url) as [r'|]; [|done].
  destruct (bool_decide (url = "/api/users/:id/endpoints") && is_read method) eqn:E1; [by apply andb_true_iff in E1 as [_ ?]|].
  destruct (bool_decide (url = "/api/nodes/:id/chain-secret")).
  { intros E. apply (inj Some) in E. symmetry in E. change "nodes:write" with ("nodes" +:+ ":write") in E. by apply verbs_apart in E. }
  destruct (bool_decide (r' = "")); [done|]. destruct (is_read method); [done|].
  intros E. apply (inj Some) in E. symmetry in E. by apply verbs_apart in E.
Qed.

(** A token minted with scopes of its own. *)
Definition scoped (scopes : list string) : Prop := mintable scopes = true ∧ scopes ≠ [] ∧ "*" ∉ scopes.

Definition only_reads (scopes : list string) : Prop := ∀ s, s ∈ scopes → ∃ r, s = r +:+ ":read".

(** C31. A scoped token reaches what its scopes name.  A token minted with scopes
    (known ones, none of them [*]) passes a route exactly when it holds the scope
    the route asks for; what it is then shown is redacted.  A route it passes lies
    under /api/ in a resource that scopes are offered for, so it never reaches
    tokens, sign-in, the nodes' own interface or the audit log; and a token of
    reading scopes passes GET and HEAD only. *)
Theorem scopes_confine scopes method url : scoped scopes →
  (enforceScopes (Some scopes) method url = Pass true ↔ ∃ s, requiredScopeFor method url = Some s ∧ s ∈ scopes) ∧
  enforceScopes (Some scopes) method url ≠ Pass false ∧
  (enforceScopes (Some scopes) method url = Pass true →
    (∃ path r, url = Some path ∧ api_resource path = Some r ∧ r ∈ "sub" :: SCOPEABLE_RESOURCES ∧ r ∉ UNSCOPED_RESOURCES) ∧
    (only_reads scopes → is_read method = true)).
Proof.
  intros (Hmint & Hne & Hstar). apply andb_true_iff in Hmint as [_ Hknown]. rewrite forallb_forall in Hknown.
  assert (enforceScopes (Some scopes) method url = Pass true ↔ ∃ s, requiredScopeFor method url = Some s ∧ s ∈ scopes) as Hiff.
  { unfold enforceScopes, isRestrictedToken. rewrite !(bool_decide_false _ Hne), !(bool_decide_false _ Hstar). cbn.
    destruct (requiredScopeFor method url) as [s|]; [|naive_solver].
    destruct (decide (s ∈ scopes)) as [Hs|Hs]; rewrite ?(bool_decide_true _ Hs), ?(bool_decide_false _ Hs); naive_solver. }
  split; [done|]. split.
  { unfold enforceScopes, isRestrictedToken. rewrite !(bool_decide_false _ Hne), !(bool_decide_false _ Hstar). cbn.
    destruct (requiredScopeFor method url); [|done]. by destruct (bool_decide (s ∈ scopes)). }
  intros (s & Hs & Hin)%Hiff. destruct url as [url|]; [|done]. split.
  - destruct (required_known method url s Hs) as (r & Hr & Hres); [by apply Hknown, list_elem_of_In|].
    exists url, r. split; [done|]. split; [done|]. split; [done|]. intros Hu.
    assert (Forall (λ r, r ∉ UNSCOPED_RESOURCES) ("sub" :: SCOPEABLE_RESOURCES)) as Hall
      by (apply (bool_decide_unpack _); vm_compute; exact I).
    rewrite Forall_forall in Hall. by apply (Hall r).
  - intros Hreads. destruct (Hreads s Hin) as [r ->]. by eapply required_reads.
Qed.

(** ** What it is shown *)
Inductive place := Key (k : string) | Index (i : nat).

Fixpoint at_path (path : list place) (v : jvalue) : option jvalue :=
  match path with
  | [] => Some v
  | Key k :: path => match v with JObj fs => jm_get k fs ≫= at_path path | _ => None end
  | Index i :: path => match v with JArr xs => xs !! i ≫= at_path path | _ => None end
  end.

(** The path goes through a key that is server material. *)
Definition through_secret (path : list place) : bool :=
  existsb (λ p, match p with Key k => bool_decide (k ∈ SERVER_SECRET_KEYS) | Index _ => false end) path.

Definition strip_fields : list (string * jvalue) → list (string * jvalue) :=
  fix go fs := match fs with
  | [] => []
  | (k, v) :: fs => if bool_decide (k ∈ SERVER_SECRET_KEYS) then go fs else (k, withoutServerSecrets v) :: go fs
  end.

Lemma strip_get k fs : jm_get k (strip_fields fs) =
  if bool_decide (k ∈ SERVER_SECRET_KEYS) then None else withoutServerSecrets <$> jm_get k fs.
Proof.
  induction fs as [|[k' v] fs IH]; [by destruct (bool_decide _)|]. cbn [strip_fields].
  destruct (bool_decide (k' ∈ SERVER_SECRET_KEYS)) eqn:E.
  - rewrite IH. cbn. destruct (decide (k = k')) as [->|]; [by rewrite E|done].
  - cbn. destruct (decide (k = k')) as [->|]; [by rewrite E|done].
Qed.

Lemma strip_at path v : at_path path (withoutServerSecrets v) =
  if through_secret path then None else withoutServerSecrets <$> at_path path v.
Proof.
  revert v. induction path as [|[k|i] path IH]; intros v; [done| |].
  - cbn [at_path through_secret existsb]. destruct v as [| | | | |fs]; cbn [withoutServerSecrets]; try by destruct (_ || _).
    fold strip_fields. rewrite strip_get. destruct (bool_decide (k ∈ SERVER_SECRET_KEYS)); [done|]. cbn [orb].
    destruct (jm_get k fs) as [u|]; cbn; [apply IH|by destruct (existsb _ _)].
  - cbn [at_path through_secret existsb]. destruct v as [| | | |xs|]; cbn [withoutServerSecrets orb]; try by destruct (existsb _ _).
    rewrite list_lookup_fmap. destruct (xs !! i) as [u|]; cbn; [apply IH|by destruct (existsb _ _)].
Qed.

Lemma at_path_snoc path p v : at_path (path ++ [p]) v = at_path path v ≫= at_path [p].
Proof.
  revert v. induction path as [|[k|i] path IH]; intros v; [done| |]; cbn [app at_path].
  - destruct v; try done. destruct (jm_get k fields); [apply IH|done].
  - destruct v; try done. destruct (xs !! i); [apply IH|done].
Qed.

(** Everything of a value but what lies behind the secret keys is shown. *)
Definition scalar (v : jvalue) : bool := negb (is_object v).

(** C32. A scoped token is shown no server secret and everything else.  In a reply
    to a token with scopes of its own no secret key appears at any depth; every
    scalar elsewhere is where it was, and nothing is added.  A session and a full
    token are shown the reply as it is. *)
Theorem secrets_hidden token method url payload :
  match serialised (enforceScopes token method url) payload with
  | Some shown =>
      if isRestrictedToken token
      then (∀ path, through_secret path = true → at_path path shown = None) ∧
           (∀ path v, through_secret path = false → scalar v = true → (at_path path shown = Some v ↔ at_path path payload = Some v))
      else shown = payload
  | None => isRestrictedToken token = true
  end.
Proof.
  assert (∀ v s, scalar s = true → withoutServerSecrets v = s ↔ v = s) as Hsc.
  { intros v s Hs. split; [|intros ->; by destruct s]. destruct v; cbn; intros <-; try done. }
  unfold serialised, enforceScopes, isRestrictedToken. destruct token as [scopes|]; [|done].
  destruct (decide (scopes = [])) as [Hn|Hn]; rewrite ?(bool_decide_true _ Hn), ?(bool_decide_false _ Hn); [done|]. cbn.
  destruct (decide ("*" ∈ scopes)) as [Hs|Hs]; rewrite ?(bool_decide_true _ Hs), ?(bool_decide_false _ Hs); [done|]. cbn.
  destruct (requiredScopeFor method url) as [s|]; [|done]. destruct (bool_decide (s ∈ scopes)); [|done]. cbn. split.
  - intros path Hp. by rewrite strip_at, Hp.
  - intros path v Hp Hv. rewrite strip_at, Hp. destruct (at_path path payload) as [u|]; cbn; [|done].
    split; intros E; apply (inj Some) in E; f_equal; by apply Hsc.
Qed.

(** ** Writing back *)
Lemma keep_one_get t out key k : jm_get k (keep_one t out key) =
  match jm_get k out with Some v => Some v | None => if decide (k = key) then jm_get k t else None end.
Proof.
  unfold keep_one. destruct (jm_get key out) as [u|] eqn:Eo.
  - destruct (jm_get k out) eqn:Ek; [done|]. case_decide; [congruence|done].
  - destruct (jm_get key t) as [v|] eqn:Et.
    + rewrite jm_get_set. case_decide as Hk; [subst; by rewrite Eo|]. by destruct (jm_get k out).
    + destruct (jm_get k out); [done|]. case_decide; [congruence|done].
Qed.

Lemma keep_get keys s t k : jm_get k (foldl (keep_one t) s keys) =
  match jm_get k s with Some v => Some v | None => if decide (k ∈ keys) then jm_get k t else None end.
Proof.
  revert s. induction keys as [|key keys IH]; intros s; cbn [foldl].
  - destruct (jm_get k s); [done|]. case_decide as H; [by apply not_elem_of_nil in H|done].
  - rewrite IH, keep_one_get. destruct (jm_get k s); [done|]. destruct (decide (k = key)) as [->|Hne].
    + rewrite (decide_True _ _ (list_elem_of_here key keys)). destruct (jm_get key t); [done|]. by case_decide.
    + destruct (decide (k ∈ keys)) as [Hk|Hk]; [rewrite decide_True by set_solver|rewrite decide_False by set_solver]; done.
Qed.

(** Secrets stand at the top of a configuration and nowhere below. *)
Definition secrets_on_top (fs : list (string * jvalue)) : Prop :=
  ∀ k v, jm_get k fs = Some v → k ∉ SERVER_SECRET_KEYS → withoutServerSecrets v = v.

(** A body with some of its entries set. *)
Definition set_all (edits base : list (string * jvalue)) : list (string * jvalue) :=
  foldl (λ m (e : string * jvalue), jm_set e.1 e.2 m) base edits.

Lemma set_all_get edits base k : jm_get k (set_all edits base) =
  match jm_get k (set_all edits []) with Some v => Some v | None => jm_get k base end.
Proof.
  unfold set_all. induction edits as [|e es IH] using rev_ind; [done|]. rewrite !foldl_app. cbn. rewrite !jm_get_set.
  case_decide; [done|]. apply IH.
Qed.

(** What a scoped token reads and writes back is kept whole.  For a stored
    configuration whose secrets stand at its top, a token with scopes of its own
    that reads it, sets what it wants and puts it back stores its edits, every
    secret it did not send and every other entry as it was.  A session's and a
    full token's body is taken as sent. *)
Theorem write_back_keeps token cfg edits body rest :
  secrets_on_top cfg → body = ("config", JObj (set_all edits (strip_fields cfg))) :: rest →
  let after := withStoredSecrets token (JObj body) "config" (Some (JObj cfg)) SERVER_SECRET_KEYS in
  if isRestrictedToken token
  then ∃ out, jfield "config" after = Some (JObj out) ∧
       ∀ k, jm_get k out = match jm_get k (set_all edits []) with
                           | Some v => Some v | None => jm_get k cfg end
  else after = JObj body.
Proof.
  intros Htop -> after. unfold after, withStoredSecrets. destruct (isRestrictedToken token); [|done]. cbn.
  eexists. split; [reflexivity|]. intros k. rewrite keep_get.
  rewrite (set_all_get edits (strip_fields cfg)). destruct (jm_get k (set_all edits [])); [done|]. rewrite strip_get.
  destruct (decide (k ∈ SERVER_SECRET_KEYS)) as [Hk|Hk]; rewrite ?(bool_decide_true _ Hk), ?(bool_decide_false _ Hk); [done|].
  destruct (jm_get k cfg) as [v|] eqn:E; [|done]. cbn. by rewrite (Htop k v E Hk).
Qed.

(** Below the top a hidden secret is not put back. *)
Example nested_secret_lost :
  let cfg := JObj [("tls", JObj [("tlsKey", JStr "k")])] in
  keepStoredSecrets (withoutServerSecrets cfg) cfg SERVER_SECRET_KEYS = JObj [("tls", JObj [])].
Proof. vm_compute. reflexivity. Qed.

Theorem scopes_confine_witness : scoped ["users:read"; "nodes:read"] ∧
  enforceScopes (Some ["users:read"; "nodes:read"]) "GET" (Some "/api/users") = Pass true ∧
  enforceScopes (Some ["users:read"; "nodes:read"]) "PUT" (Some "/api/users/:id") ≠ Pass true.
Proof.
  assert (scoped ["users:read"; "nodes:read"]) as H.
  { split; [vm_compute; reflexivity|]. split; [done|]. apply (bool_decide_unpack _). vm_compute. exact I. }
  split; [exact H|]. split.
  - apply (scopes_confine _ "GET" (Some "/api/users") H). exists "users:read". split; [vm_compute; reflexivity|].
    apply (bool_decide_unpack _). vm_compute. exact I.
  - intros Hp. destruct (scopes_confine _ "PUT" (Some "/api/users/:id") H) as (_ & _ & Hr).
    destruct (Hr Hp) as [_ Hread]. assert (is_read "PUT" = true) as Hc; [|vm_compute in Hc; discriminate].
    apply Hread. intros s Hs. apply elem_of_cons in Hs as [->|Hs]; [by exists "users"|].
    apply list_elem_of_singleton in Hs as ->. by exists "nodes".
Defined.

Theorem write_back_keeps_witness :
  let cfg := [("method", JStr "aes"); ("serverPsk", JStr "secret")] in
  withStoredSecrets (Some ["profiles:write"]) (JObj [("config", JObj [("method", JStr "chacha")])]) "config" (Some (JObj cfg)) SERVER_SECRET_KEYS
    = JObj [("config", JObj [("method", JStr "chacha"); ("serverPsk", JStr "secret")])] ∧ secrets_on_top cfg.
Proof.
  intros cfg. assert (secrets_on_top cfg) as Htop.
  { intros k v Hv _. unfold cfg in Hv. cbn in Hv. repeat case_decide; try done; apply (inj Some) in Hv as <-; reflexivity. }
  pose proof (write_back_keeps (Some ["profiles:write"]) cfg [("method", JStr "chacha")] _ [] Htop eq_refl) as H.
  split; [|exact Htop]. vm_compute in H |- *. reflexivity.
Defined.
