(* ===== verification/LoginCap.v ===== *)
(** The cap on refused sign-ins in the audit log
    (apps/panel-backend/src/modules/audit/login-cap.ts).

    One window of the cap: its counters in Redis, the rows written and the
    summary rows.  [admitRefusedSignIn] is up to three statements, an INCR of
    the network's counter, one of the counter of all, and the upsert of a
    summary; refusals interleave between them.  A refusal is its network.  The
    windows do not meet, as every key and every summary carries its start. *)

From S2P Require Import Prelude.

Local Open Scope string_scope.
Local Open Scope list_scope.
Local Open Scope Z_scope.

Record LoginCapLimits := mkLimits { perNetwork : Z; all_limit : Z; windowSeconds : Z }.

Definition windowStart (limits : LoginCapLimits) (now : Z) : Z :=
  let windowMs := windowSeconds limits * 1000 in now / windowMs * windowMs.

(** What a summary row is for: a network, or all of them. *)
Inductive SummaryKey := Net (network : string) | All.
#[global] Instance SummaryKey_eq_dec : EqDecision SummaryKey.
Proof. solve_decision. Defined.
#[global] Instance SummaryKey_countable : Countable SummaryKey.
Proof.
  apply (inj_countable' (λ k, match k with Net n => Some n | All => None end)
    (λ o, match o with Some n => Net n | None => All end)). by intros [].
Defined.

Record Window := mkWindow {
  counters : gmap SummaryKey Z;            (* the counters in Redis *)
  summaries : gmap SummaryKey Z;           (* detail.suppressed of the summary rows *)
  rows : list string;                      (* the refusals written as rows *)
  at_all : list string;                    (* passed their network's cap, the second INCR to come *)
  at_summary : list (SummaryKey * Z);      (* past a cap, the upsert to come *)
  refused : list string;                   (* every refusal whose counter answered *)
  past_all : list string                   (* of them, those the cap of all stopped *)
}.

Section Cap.
Context (limits : LoginCapLimits).

Definition count_of (k : SummaryKey) (w : Window) : Z := default 0 (counters w !! k).
Definition suppressed (k : SummaryKey) (w : Window) : Z := default 0 (summaries w !! k).

(** The first INCR. *)
Definition admit_network (network : string) (w : Window) : Window :=
  let n := count_of (Net network) w + 1 in
  let over := perNetwork limits <? n in
  mkWindow (<[Net network := n]> (counters w)) (summaries w) (rows w)
    (if over then at_all w else at_all w ++ [network])
    (if over then at_summary w ++ [(Net network, n - perNetwork limits)] else at_summary w)
    (refused w ++ [network]) (past_all w).

(** The second. *)
Definition admit_all (a1 : list string) (network : string) (a2 : list string) (w : Window) : Window :=
  let n := count_of All w + 1 in
  let over := all_limit limits <? n in
  mkWindow (<[All := n]> (counters w)) (summaries w)
    (if over then rows w else rows w ++ [network]) (a1 ++ a2)
    (if over then at_summary w ++ [(All, n - all_limit limits)] else at_summary w)
    (refused w) (if over then past_all w ++ [network] else past_all w).

(** [INSERT ... ON CONFLICT DO UPDATE], the larger count kept. *)
Definition summarise (l1 : list (SummaryKey * Z)) (k : SummaryKey) (n : Z) (l2 : list (SummaryKey * Z)) (w : Window) : Window :=
  mkWindow (counters w) (<[k := match summaries w !! k with Some m => Z.max m n | None => n end]> (summaries w))
    (rows w) (at_all w) (l1 ++ l2) (refused w) (past_all w).

Inductive admitting (w : Window) : Window → Prop :=
  | adm_network network : admitting w (admit_network network w)
  | adm_all a1 network a2 : at_all w = a1 ++ network :: a2 → admitting w (admit_all a1 network a2 w)
  | adm_summary l1 k n l2 : at_summary w = l1 ++ (k, n) :: l2 → admitting w (summarise l1 k n l2 w).

Definition opened : Window := mkWindow ∅ ∅ [] [] [] [] [].

(** How often a network is in a list. *)
Definition times (network : string) (l : list string) : Z := Z.of_nat (length (filter (.= network) l)).

Lemma times_app n l1 l2 : times n (l1 ++ l2) = times n l1 + times n l2.
Proof. unfold times. rewrite filter_app, length_app. lia. Qed.

Lemma times_one n m : times n [m] = if decide (m = n) then 1 else 0.
Proof. unfold times. rewrite filter_cons, filter_nil. by case_decide. Qed.

Lemma times_mid n l1 m l2 : times n (l1 ++ m :: l2) = times n (l1 ++ l2) + times n [m].
Proof. change (m :: l2) with ([m] ++ l2). rewrite !times_app. lia. Qed.

Lemma times_nonneg n l : 0 <= times n l.
Proof. unfold times. lia. Qed.

(** The largest count on its way to the summary of [k]. *)
Fixpoint coming (k : SummaryKey) (l : list (SummaryKey * Z)) : Z :=
  match l with [] => 0 | p :: l => if decide (p.1 = k) then Z.max p.2 (coming k l) else coming k l end.

Lemma coming_nonneg k l : 0 <= coming k l.
Proof. induction l as [|p l IH]; cbn; [done|]. case_decide; lia. Qed.

Lemma coming_app k l1 l2 : coming k (l1 ++ l2) = Z.max (coming k l1) (coming k l2).
Proof.
  induction l1 as [|p l1 IH]; cbn; [|case_decide; rewrite ?IH; lia]. pose proof (coming_nonneg k l2). lia.
Qed.

Lemma coming_one k k' n : coming k [(k', n)] = if decide (k' = k) then Z.max n 0 else 0.
Proof. done. Qed.

Lemma coming_mid k l1 k' n l2 : coming k (l1 ++ (k', n) :: l2) = Z.max (coming k (l1 ++ l2)) (coming k [(k', n)]).
Proof. change ((k', n) :: l2) with ([(k', n)] ++ l2). rewrite !coming_app. lia. Qed.

Definition limit_of (k : SummaryKey) : Z := match k with Net _ => perNetwork limits | All => all_limit limits end.

Record balanced (w : Window) : Prop := mkBalanced {
  ba_net : ∀ n, count_of (Net n) w = times n (refused w);
  ba_all : count_of All w = Z.of_nat (length (rows w) + length (past_all w));
  ba_rows : Z.of_nat (length (rows w)) = Z.min (count_of All w) (all_limit limits);
  ba_passed : ∀ n, times n (rows w) + times n (at_all w) + times n (past_all w) = Z.min (times n (refused w)) (perNetwork limits);
  ba_summary : ∀ k, Z.max (suppressed k w) (coming k (at_summary w)) = Z.max 0 (count_of k w - limit_of k);
  ba_positive : ∀ k, 0 <= suppressed k w;
  ba_pending : Forall (λ p, 0 < p.2) (at_summary w)
}.

Hypothesis limits_nonneg : 0 <= perNetwork limits ∧ 0 <= all_limit limits.

Lemma opened_balanced : balanced opened.
Proof.
  split; try constructor; intros; unfold count_of, suppressed, times; cbn; rewrite ?lookup_empty; cbn; try lia.
  destruct k; cbn; lia.
Qed.

Lemma count_set k k' n w s r a l f p :
  count_of k (mkWindow (<[k' := n]> (counters w)) s r a l f p) = if decide (k' = k) then n else count_of k w.
Proof. unfold count_of. cbn. case_decide; [subst; by rewrite lookup_insert_eq|by rewrite lookup_insert_ne]. Qed.

Lemma network_balanced network w : balanced w → balanced (admit_network network w).
Proof.
  intros [Hn Ha Hr Hp Hs Hpos Hpend]. unfold admit_network. set (n := count_of (Net network) w + 1).
  pose proof (Hn network) as Hnet. pose proof (times_nonneg network (refused w)) as Hnn.
  assert (∀ m, times m (refused w ++ [network]) = times m (refused w) + if decide (network = m) then 1 else 0) as Ht
    by (intros m; by rewrite times_app, times_one).
  split.
  - intros m. rewrite count_set. cbn [refused]. rewrite Ht. destruct (decide (network = m)) as [->|Hne].
    + rewrite decide_True by done. unfold n. lia.
    + rewrite decide_False by congruence. rewrite Hn. lia.
  - rewrite count_set. rewrite decide_False by done. exact Ha.
  - rewrite count_set. rewrite decide_False by done. exact Hr.
  - intros m. cbn [rows at_all past_all refused]. rewrite Ht. specialize (Hp m).
    destruct (Z.ltb_spec (perNetwork limits) n); [|rewrite times_app, times_one]; destruct (decide (network = m)) as [->|]; lia.
  - intros k. rewrite count_set. cbn [at_summary]. unfold suppressed in *. cbn [summaries]. specialize (Hs k).
    destruct (Z.ltb_spec (perNetwork limits) n); [rewrite coming_app, coming_one|];
      (destruct (decide (Net network = k)) as [<-|]; [cbn [limit_of] in *; lia|lia]).
  - exact Hpos.
  - cbn [at_summary]. destruct (Z.ltb_spec (perNetwork limits) n); [|done]. apply Forall_app. split; [done|].
    constructor; [cbn; lia|constructor].
Qed.

Lemma all_balanced a1 network a2 w : at_all w = a1 ++ network :: a2 → balanced w → balanced (admit_all a1 network a2 w).
Proof.
  intros Ea [Hn Ha Hr Hp Hs Hpos Hpend]. unfold admit_all. set (n := count_of All w + 1). split.
  - intros m. rewrite count_set. rewrite decide_False by done. apply Hn.
  - rewrite count_set. rewrite decide_True by done. cbn [rows past_all].
    destruct (Z.ltb_spec (all_limit limits) n); rewrite length_app; cbn; unfold n; lia.
  - rewrite count_set. rewrite decide_True by done. cbn [rows].
    destruct (Z.ltb_spec (all_limit limits) n); rewrite ?length_app; cbn; unfold n in *; lia.
  - intros m. cbn [rows at_all past_all refused]. specialize (Hp m). rewrite Ea, times_mid in Hp.
    destruct (Z.ltb_spec (all_limit limits) n); [rewrite (times_app m (past_all w))|rewrite (times_app m (rows w))]; lia.
  - intros k. rewrite count_set. cbn [at_summary]. unfold suppressed in *. cbn [summaries]. specialize (Hs k).
    destruct (Z.ltb_spec (all_limit limits) n); [rewrite coming_app, coming_one|];
      (destruct (decide (All = k)) as [<-|]; [cbn [limit_of] in *; lia|lia]).
  - exact Hpos.
  - cbn [at_summary]. destruct (Z.ltb_spec (all_limit limits) n); [|done]. apply Forall_app. split; [done|].
    constructor; [cbn; lia|constructor].
Qed.

Lemma summary_balanced l1 k n l2 w : at_summary w = l1 ++ (k, n) :: l2 → balanced w → balanced (summarise l1 k n l2 w).
Proof.
  intros El [Hn Ha Hr Hp Hs Hpos Hpend]. unfold summarise. rewrite El in Hpend.
  apply Forall_app in Hpend as [Hpend1 [Hpendn Hpend2]%Forall_cons]. cbn in Hpendn. split; try done.
  - intros k'. specialize (Hs k'). rewrite El, coming_mid, coming_one in Hs. cbn [at_summary]. change (count_of k' _) with (count_of k' w).
    unfold suppressed in *. cbn [summaries]. pose proof (coming_nonneg k' (l1 ++ l2)). pose proof (Hpos k') as Hk'.
    destruct (decide (k = k')) as [->|Hne].
    + rewrite lookup_insert_eq. cbn. destruct (summaries w !! k'); cbn in *; lia.
    + rewrite lookup_insert_ne by done. lia.
  - intros k'. unfold suppressed in *. cbn. pose proof (Hpos k') as Hk'. destruct (decide (k = k')) as [->|Hne].
    + rewrite lookup_insert_eq. cbn. destruct (summaries w !! k') eqn:E; cbn in *; lia.
    + by rewrite lookup_insert_ne by done.
  - cbn. by apply Forall_app.
Qed.

Lemma admitted_balanced w : rtc admitting opened w → balanced w.
Proof.
  intros H. remember opened as w0 eqn:E. assert (balanced w0) as H0 by (subst; apply opened_balanced). clear E.
  induction H as [|w1 w2 w3 Hstep _ IH]; [done|]. apply IH.
  destruct Hstep; [by apply network_balanced|by apply all_balanced|by apply summary_balanced].
Qed.

(** C35. No refused sign-in is lost and the log stays short.  However refusals of
    one window interleave, at most the network's cap of them is written per
    network and at most the cap of all in all, and a summary never counts too
    much.  When none is under way every refusal of a network is a row, or counted
    by the network's summary, or one of those the summary of all counts; rows are
    withheld only past a cap, and each summary holds exactly the overshoot. *)
Theorem refusals_accounted w : rtc admitting opened w →
  Z.of_nat (length (rows w)) <= all_limit limits ∧
  (∀ n, times n (rows w) <= perNetwork limits) ∧
  (∀ n, suppressed (Net n) w <= Z.max 0 (times n (refused w) - perNetwork limits)) ∧
  (at_all w = [] → at_summary w = [] →
    (∀ n, times n (refused w) = times n (rows w) + times n (past_all w) + suppressed (Net n) w) ∧
    suppressed All w = Z.of_nat (length (past_all w)) ∧
    (∀ n, suppressed (Net n) w = Z.max 0 (times n (refused w) - perNetwork limits)) ∧
    (past_all w ≠ [] → Z.of_nat (length (rows w)) = all_limit limits)).
Proof.
  intros [Hn Ha Hr Hp Hs Hpos _]%admitted_balanced.
  assert (∀ n, 0 <= times n (rows w) ∧ 0 <= times n (at_all w) ∧ 0 <= times n (past_all w)) as Hpp by (intros; split_and!; apply times_nonneg).
  split; [lia|]. split; [intros n; specialize (Hp n); specialize (Hpp n); lia|]. split.
  { intros n. specialize (Hs (Net n)). rewrite Hn in Hs. cbn in Hs. lia. }
  intros E1 E2. rewrite E2 in Hs. cbn in Hs.
  assert (∀ n, suppressed (Net n) w = Z.max 0 (times n (refused w) - perNetwork limits)) as Hnet.
  { intros n. specialize (Hs (Net n)). rewrite Hn in Hs. cbn in Hs. specialize (Hpos (Net n)). lia. }
  split; [|split; [|split; [done|]]].
  - intros n. rewrite Hnet. specialize (Hp n). rewrite E1 in Hp. change (times n []) with 0 in Hp. lia.
  - specialize (Hs All). specialize (Hpos All). cbn in Hs. lia.
  - destruct (past_all w); [done|]. intros _. cbn in Ha. lia.
Qed.
End Cap.

(** Three refusals of one network and one of another, at most one row each. *)
Definition ex_limits : LoginCapLimits := mkLimits 1 1 3600.
Definition ex_1 := admit_network ex_limits "10.0.0.0/24" opened.
Definition ex_2 := admit_network ex_limits "10.0.0.0/24" ex_1.
Definition ex_3 := admit_network ex_limits "10.9.0.0/24" ex_2.
Definition ex_4 := admit_all ex_limits [] "10.0.0.0/24" ["10.9.0.0/24"] ex_3.
Definition ex_5 := admit_all ex_limits [] "10.9.0.0/24" [] ex_4.
Definition ex_6 := summarise [] (Net "10.0.0.0/24") 1 [(All, 1)] ex_5.
Definition ex_7 := summarise [] All 1 [] ex_6.

Theorem refusals_accounted_witness : rows ex_7 = ["10.0.0.0/24"] ∧ suppressed All ex_7 = 1 ∧
  suppressed (Net "10.0.0.0/24") ex_7 = 1 ∧ times "10.9.0.0/24" (past_all ex_7) = 1.
Proof.
  destruct (refusals_accounted ex_limits ltac:(split; done) ex_7) as (_ & _ & _ & H).
  - apply (rtc_l _ _ ex_1); [apply adm_network|]. apply (rtc_l _ _ ex_2); [apply adm_network|].
    apply (rtc_l _ _ ex_3); [apply adm_network|]. apply (rtc_l _ _ ex_4); [by apply adm_all|].
    apply (rtc_l _ _ ex_5); [by apply adm_all|]. apply (rtc_l _ _ ex_6); [by apply adm_summary|].
    apply rtc_once. by apply adm_summary.
  - destruct H as (H1 & H2 & H3 & _); [reflexivity|reflexivity|]. split; [reflexivity|]. split; [exact H2|].
    split; [rewrite H3; reflexivity|reflexivity].
Defined.
