(* ===== verification/GuardedFetch.v ===== *)
(** Fetching an address an operator typed
    (apps/panel-backend/src/lib/util/guarded-fetch.ts and
    modules/recipes/recipes.ssrf.ts).

    [parseURL] is the language's URL parser: protocol and hostname, or an
    exception; [resolve] is [new URL(loc, at).toString()].  [fetchImpl] answers
    one request without following redirects.  A body is the chunks its reader
    gives. *)

From S2P Require Import Prelude Js Subnet PolicyEntries.

Local Open Scope string_scope.
Local Open Scope list_scope.
Local Open Scope Z_scope.

(** ** Hosts *)

(** [h.toLowerCase().replace(/^\[|\]$/g, '')] *)
Definition strip_brackets (l : list ascii) : list ascii :=
  let l := match l with c :: l' => if bool_decide (c = "["%char) then l' else l | [] => l end in
  match reverse l with c :: r => if bool_decide (c = "]"%char) then reverse r else l | [] => l end.

Definition bare_host (host : string) : string := string_of_list_ascii (strip_brackets (list_ascii_of_string (js_lower host))).

(** [/^172\.(1[6-9]|2\d|3[01])\./] *)
Definition private_172 (h : string) : bool :=
  existsb (λ n, starts_with ("172." +:+ pretty n +:+ ".") h) (seqZ 16 16).

(** [BLOCKED_HOST_PATTERNS] *)
Definition blocked_pattern (h : string) : bool :=
  starts_with "127." h || starts_with "10." h || starts_with "192.168." h || private_172 h ||
  starts_with "169.254." h || starts_with "0." h.

(** [0{0,4}:] at the head of [l]: what follows. *)
Fixpoint zero_group (n : nat) (l : list ascii) : option (list ascii) :=
  match l with
  | c :: l' => if bool_decide (c = ":"%char) then Some l'
               else match n with S n => if bool_decide (c = "0"%char) then zero_group n l' else None | O => None end
  | [] => None
  end.

(** [/^(0{0,4}:){0,n}:?ffff:/] *)
Fixpoint mapped_after (n : nat) (l : list ascii) : bool :=
  let tail := starts_with "ffff:" (string_of_list_ascii l) || starts_with ":ffff:" (string_of_list_ascii l) in
  tail || match n with S n => match zero_group 4 l with Some l' => mapped_after n l' | None => false end | O => false end.

Definition starts_any (ps : list string) (h : string) : bool := existsb (λ p, starts_with p h) ps.

Definition isBlockedHost (host : string) : bool :=
  let h := bare_host host in
  if bool_decide (h = "localhost") || ends_with ".localhost" h || ends_with ".internal" h || ends_with ".local" h ||
     bool_decide (h = "0.0.0.0") then true else
  if str_has ":" h && (bool_decide (h = "::1") || starts_any ["fc"; "fd"] h || starts_any ["fe8"; "fe9"; "fea"; "feb"] h) then true else
  if str_has ":" h && (mapped_after 5 (list_ascii_of_string h) || starts_with "::ffff:" h || starts_with "64:ff9b:" h) then true else
  blocked_pattern h.

(** ** Requests *)
Record Url := mkUrl { u_protocol : string; u_hostname : string }.

Inductive fetch_kind := KAddress | KRedirect | KTooLarge.

Inductive fetch_error :=
  | GuardedFetchError (message : string) (kind : fetch_kind) (status : option Z)
  | PlainError (message : string)
  | InvalidUrl.           (* the TypeError of [new URL] *)

Definition quoted (s : string) : string := String "034" s +:+ String "034" EmptyString.

Record Response (Body : Type) := mkResponse { r_status : Z; r_location : option string; r_body : Body }.
Arguments mkResponse {Body}.
Arguments r_status {Body}.
Arguments r_location {Body}.
Arguments r_body {Body}.

Section Fetch.
Context {Body : Type}.
Context (parseURL : string → option Url) (resolve : string → string → option string).
Context (fetchImpl : string → Response Body).

Definition assertPublicHttpUrl (raw : string) : result fetch_error Url :=
  match parseURL raw with
  | None => Throw (GuardedFetchError (quoted raw +:+ " is not a URL") KAddress None)
  | Some u =>
      if negb (bool_decide (u_protocol u = "https:")) && negb (bool_decide (u_protocol u = "http:"))
      then Throw (GuardedFetchError ("only http and https are fetched, not " +:+ u_protocol u) KAddress None) else
      if isBlockedHost (u_hostname u)
      then Throw (GuardedFetchError ("the host " +:+ u_hostname u +:+ " is not fetched (loopback, private or metadata)") KAddress None)
      else Ok u
  end.

(** [assertFetchableUrl] of the recipe sources: https only. *)
Definition assertFetchableUrl (raw : string) : result fetch_error Url :=
  match parseURL raw with
  | None => Throw (PlainError "Source URL is not a valid URL")
  | Some u =>
      if negb (bool_decide (u_protocol u = "https:")) then Throw (PlainError "Source URL must use https") else
      if isBlockedHost (u_hostname u)
      then Throw (PlainError "Source URL host is not allowed (loopback / private / metadata)") else Ok u
  end.

Definition MAX_REDIRECTS : nat := 3.

Definition is_redirect (status : Z) : bool := negb ((status <? 300) || (400 <=? status) || (status =? 304)).

(** The loop from a hop on, [more] redirects being allowed; beside the answer the
    addresses that were requested. *)
Fixpoint hops (url : string) (more : nat) (at_ : string) : list string * result fetch_error (Response Body) :=
  match assertPublicHttpUrl at_ with
  | Throw e => ([], Throw e)
  | Ok _ =>
      let res := fetchImpl at_ in
      if negb (is_redirect (r_status res)) then ([at_], Ok res) else
      match r_location res with
      | None | Some EmptyString => ([at_], Throw (GuardedFetchError ("redirect " +:+ pretty (r_status res) +:+ " without a Location from " +:+ at_) KRedirect (Some (r_status res))))
      | Some loc =>
          match resolve loc at_ with
          | None => ([at_], Throw InvalidUrl)
          | Some next =>
              match more with
              | O => ([at_], Throw (GuardedFetchError ("more than " +:+ pretty MAX_REDIRECTS +:+ " redirects from " +:+ url) KRedirect None))
              | S more => let '(asked, r) := hops url more next in (at_ :: asked, r)
              end
          end
      end
  end.

Definition fetchGuarded (url : string) : list string * result fetch_error (Response Body) := hops url MAX_REDIRECTS url.
End Fetch.

(** ** The body *)

Definition tooLarge (status maxBytes : Z) : fetch_error :=
  GuardedFetchError ("the body is larger than " +:+ pretty maxBytes +:+ " bytes") KTooLarge (Some status).

(** The reader's loop: what was read of the body, and the bytes or a refusal. *)
Fixpoint read_chunks {A} (status maxBytes total : Z) (got : list A) (chunks : list (list A)) : Z * result fetch_error (list A) :=
  match chunks with
  | [] => (total, Ok got)
  | value :: chunks =>
      let total := total + Z.of_nat (length value) in
      if maxBytes <? total then (total, Throw (tooLarge status maxBytes)) else read_chunks status maxBytes total (got ++ value) chunks
  end.

(** [len] is the Content-Length where it is a finite number; [body] [None] is a
    response without a stream, whose bytes are [all]. *)
Definition readBoundedBytes {A} (status : Z) (len : option Z) (body : option (list (list A))) (all : list A) (maxBytes : Z)
    : Z * result fetch_error (list A) :=
  if match len with Some n => maxBytes <? n | None => false end then (0, Throw (tooLarge status maxBytes)) else
  match body with
  | None => (Z.of_nat (length all), if maxBytes <? Z.of_nat (length all) then Throw (tooLarge status maxBytes) else Ok all)
  | Some chunks => read_chunks status maxBytes 0 [] chunks
  end.

(** ** Where requests go *)
Definition public_http (parseURL : string → option Url) (at_ : string) : Prop :=
  ∃ u, parseURL at_ = Some u ∧ (u_protocol u = "https:" ∨ u_protocol u = "http:") ∧ isBlockedHost (u_hostname u) = false.

Lemma assertPublic_iff parseURL at_ : is_ok (assertPublicHttpUrl parseURL at_) ↔ public_http parseURL at_.
Proof.
  unfold assertPublicHttpUrl, public_http. destruct (parseURL at_) as [u|]; [|cbn; naive_solver].
  destruct (decide (u_protocol u = "https:")) as [H1|H1]; rewrite ?(bool_decide_true _ H1), ?(bool_decide_false _ H1); cbn;
    [|destruct (decide (u_protocol u = "http:")) as [H2|H2]; rewrite ?(bool_decide_true _ H2), ?(bool_decide_false _ H2); cbn];
    destruct (isBlockedHost (u_hostname u)) eqn:E; cbn; naive_solver congruence.
Qed.

(** A chain of redirects, each taken from the answer before it. *)
Inductive redirects {Body} (resolve : string → string → option string) (fetchImpl : string → Response Body) : list string → Prop :=
  | redir_one at_ : redirects resolve fetchImpl [at_]
  | redir_more at_ loc next rest : is_redirect (r_status (fetchImpl at_)) = true → r_location (fetchImpl at_) = Some loc →
      resolve loc at_ = Some next → redirects resolve fetchImpl (next :: rest) → redirects resolve fetchImpl (at_ :: next :: rest).

Section Hops.
Context {Body : Type} (parseURL : string → option Url) (resolve : string → string → option string)
  (fetchImpl : string → Response Body).

(** What may be said of the addresses requested and the answer. *)
Record asked_well (n : nat) (at_ : string) (asked : list string) (r : result fetch_error (Response Body)) : Prop := mkAsked {
  aw_public : Forall (public_http parseURL) asked;
  aw_few : (length asked <= S n)%nat;
  aw_chain : asked = [] ∨ (head asked = Some at_ ∧ redirects resolve fetchImpl asked);
  aw_last : ∀ res, r = Ok res → ∃ a, last asked = Some a ∧ res = fetchImpl a ∧ is_redirect (r_status res) = false
}.

Lemma asked_none n at_ e : asked_well n at_ [] (Throw e).
Proof. split; [constructor|cbn; lia|by left|done]. Qed.

Lemma asked_one n at_ r : public_http parseURL at_ →
  (∀ res, r = Ok res → res = fetchImpl at_ ∧ is_redirect (r_status res) = false) → asked_well n at_ [at_] r.
Proof.
  intros Hp Hr. split; [by repeat constructor|cbn; lia|right; split; [done|constructor]|].
  intros res E. destruct (Hr res E). by exists at_.
Qed.

Lemma asked_more n at_ loc next asked r : public_http parseURL at_ → is_redirect (r_status (fetchImpl at_)) = true →
  r_location (fetchImpl at_) = Some loc → resolve loc at_ = Some next → asked_well n next asked r → asked_well (S n) at_ (at_ :: asked) r.
Proof.
  intros Hp Hr Hl Hn [H1 H2 H3 H4]. split; [by constructor|cbn; lia| |].
  - right. split; [done|]. destruct H3 as [->|[Hh Hc]]; [constructor|].
    destruct asked as [|a rest]; [done|]. apply (inj Some) in Hh as ->. by eapply redir_more.
  - intros res E. destruct (H4 res E) as (a & Ha & ?). exists a. split; [|done]. by destruct asked.
Qed.

Lemma hops_asked url n at_ : let p := hops parseURL resolve fetchImpl url n at_ in asked_well n at_ p.1 p.2.
Proof.
  revert at_. induction n as [|n IH]; intros at_; cbn [hops];
    (destruct (assertPublicHttpUrl parseURL at_) as [u|e] eqn:Ea; [|apply asked_none]);
    (assert (public_http parseURL at_) as Hp by (apply assertPublic_iff; by rewrite Ea));
    (destruct (is_redirect (r_status (fetchImpl at_))) eqn:Er; cbn [negb];
      [|apply asked_one; [done|intros res E; cbn in E; by simplify_eq]]);
    (destruct (r_location (fetchImpl at_)) as [[|c loc]|] eqn:El; [by apply asked_one| |by apply asked_one]);
    (destruct (resolve (String c loc) at_) as [next|] eqn:En; [|by apply asked_one]).
  - by apply asked_one.
  - specialize (IH next). cbn zeta in IH. destruct (hops parseURL resolve fetchImpl url n next) as [asked r]. cbn in *.
    by eapply asked_more.
Qed.

(** C33. Only public addresses are asked.  Whatever an address answers, every
    request goes to an http or https address whose host is not blocked, the first
    to the address given and each further one to where the answer before sent it;
    there are at most four; and an answer handed back is the last one's and no
    redirect. *)
Theorem fetch_stays_public url : let p := fetchGuarded parseURL resolve fetchImpl url in
  Forall (public_http parseURL) p.1 ∧ (length p.1 <= 4)%nat ∧
  (p.1 = [] ∨ (head p.1 = Some url ∧ redirects resolve fetchImpl p.1)) ∧
  (∀ res, p.2 = Ok res → ∃ a, last p.1 = Some a ∧ res = fetchImpl a ∧ is_redirect (r_status res) = false).
Proof. destruct (hops_asked url MAX_REDIRECTS url) as [H1 H2 H3 H4]. done. Qed.
End Hops.

(** ** How much is read *)
Lemma read_chunks_spec {A} status maxBytes total got (chunks : list (list A)) : total <= maxBytes →
  let all := total + Z.of_nat (length (mjoin chunks)) in let p := read_chunks status maxBytes total got chunks in
  p.2 = (if all <=? maxBytes then Ok (got ++ mjoin chunks) else Throw (tooLarge status maxBytes)) ∧ p.1 <= all ∧
  (∀ b, (∀ c, c ∈ chunks → Z.of_nat (length c) <= b) → 0 <= b → p.1 <= maxBytes + b).
Proof.
  revert total got. induction chunks as [|c cs IH]; intros total got Ht; cbn [read_chunks].
  - cbn. rewrite Z.add_0_r, app_nil_r. rewrite (proj2 (Z.leb_le _ _) Ht). split; [done|]. split; [lia|]. intros; lia.
  - change (mjoin (c :: cs)) with (c ++ mjoin cs). rewrite length_app. destruct (Z.ltb_spec maxBytes (total + Z.of_nat (length c))) as [H|H].
    + cbn. rewrite (proj2 (Z.leb_gt _ _)) by lia. split; [done|]. split; [lia|]. intros b Hb _. specialize (Hb c ltac:(set_solver)). lia.
    + destruct (IH (total + Z.of_nat (length c)) (got ++ c) H) as (H1 & H2 & H3). cbn zeta in *. rewrite H1.
      replace (total + Z.of_nat (length c) + Z.of_nat (length (mjoin cs))) with (total + Z.of_nat (length c + length (mjoin cs))) in * by lia.
      rewrite <-app_assoc. split; [done|]. split; [lia|]. intros b Hb Hb0. apply H3; [|done]. intros d Hd. apply Hb. set_solver.
Qed.

(** A body is read up to its bound.  The bytes come back whole exactly when
    the declared length, if any, and the length of the body keep to the bound;
    else the answer is refused, with nothing read where the declared length says
    so, and otherwise at most one chunk past the bound. *)
Theorem body_bounded {A} status len (chunks : list (list A)) all maxBytes b : 0 <= maxBytes → 0 <= b →
  (∀ c, c ∈ chunks → Z.of_nat (length c) <= b) →
  let p := readBoundedBytes status len (Some chunks) all maxBytes in
  let declared_ok := match len with Some n => n <=? maxBytes | None => true end in
  p.2 = (if declared_ok && (Z.of_nat (length (mjoin chunks)) <=? maxBytes) then Ok (mjoin chunks) else Throw (tooLarge status maxBytes)) ∧
  p.1 <= maxBytes + b ∧ (declared_ok = false → p.1 = 0).
Proof.
  intros Hm Hb Hc p declared_ok. unfold p, readBoundedBytes, declared_ok.
  destruct (read_chunks_spec status maxBytes 0 [] chunks Hm) as (H1 & _ & H3). cbn zeta in *. rewrite Z.add_0_l in H1.
  destruct len as [n|]; [destruct (Z.ltb_spec maxBytes n)|].
  - rewrite (proj2 (Z.leb_gt n maxBytes)) by lia. cbn. split; [done|]. split; [lia|done].
  - rewrite (proj2 (Z.leb_le n maxBytes)) by lia. rewrite H1. split; [done|]. split; [by apply H3|done].
  - rewrite H1. split; [done|]. split; [by apply H3|done].
Qed.

(** ** Which IPv4 addresses are blocked *)
Lemma starts_part p p' q r : char_free "." p → char_free "." p' →
  starts_with (p +:+ "." +:+ q) (p' +:+ "." +:+ r) = bool_decide (p = p') && starts_with q r.
Proof.
  unfold char_free. revert p'. induction p as [|c p IH]; intros p' Hp Hp'; destruct p' as [|c' p']; cbn in *.
  - done.
  - rewrite not_elem_of_cons in Hp'. change (bool_decide ("."%char = c') && starts_with q (p' +:+ "." +:+ r) = bool_decide ("" = String c' p') && starts_with q r).
    by rewrite !bool_decide_false by naive_solver.
  - rewrite not_elem_of_cons in Hp. change (bool_decide (c = "."%char) && starts_with (p +:+ "." +:+ q) r = bool_decide (String c p = "") && starts_with q r).
    by rewrite !bool_decide_false by naive_solver.
  - rewrite !not_elem_of_cons in Hp, Hp'.
    change (bool_decide (c = c') && starts_with (p +:+ "." +:+ q) (p' +:+ "." +:+ r) = bool_decide (String c p = String c' p') && starts_with q r).
    rewrite IH by naive_solver. rewrite andb_assoc. f_equal. apply eq_true_iff_eq. rewrite andb_true_iff, !bool_decide_eq_true. naive_solver.
Qed.

Lemma pretty_part a k : 0 <= a → 0 <= k → bool_decide (pretty k = pretty a) = (a =? k).
Proof.
  intros Ha Hk. destruct (Z.eqb_spec a k) as [->|Hne]; [by apply bool_decide_true|]. apply bool_decide_false. intros E.
  destruct (take_digits_pretty a [] Ha I) as (x & _ & Ea), (take_digits_pretty k [] Hk I) as (y & _ & Ek).
  rewrite E in Ek. rewrite Ek in Ea. by injection Ea.
Qed.

Lemma octet_one a k r : 0 <= a → 0 <= k → starts_with (pretty k +:+ ".") (pretty a +:+ "." +:+ r) = (a =? k).
Proof.
  intros Ha Hk. change (pretty k +:+ ".") with (pretty k +:+ "." +:+ ""). rewrite starts_part by (by apply pretty_char_free).
  rewrite pretty_part by done. by rewrite andb_true_r.
Qed.

Lemma octet_two a b k l r : 0 <= a → 0 <= b → 0 <= k → 0 <= l →
  starts_with (pretty k +:+ "." +:+ pretty l +:+ ".") (pretty a +:+ "." +:+ pretty b +:+ "." +:+ r) = (a =? k) && (b =? l).
Proof. intros. rewrite starts_part by (by apply pretty_char_free). by rewrite pretty_part, octet_one. Qed.

Lemma private_172_octets a b r : 0 <= a → 0 <= b →
  private_172 (pretty a +:+ "." +:+ pretty b +:+ "." +:+ r) = (a =? 172) && (16 <=? b) && (b <=? 31).
Proof.
  intros Ha Hb. unfold private_172. apply eq_true_iff_eq. rewrite existsb_exists, !andb_true_iff, Z.eqb_eq, !Z.leb_le.
  assert (∀ k, 0 <= k → starts_with ("172." +:+ pretty k +:+ ".") (pretty a +:+ "." +:+ pretty b +:+ "." +:+ r) = (a =? 172) && (b =? k)) as Hk.
  { intros k Hk. change ("172." +:+ pretty k +:+ ".") with (pretty 172 +:+ "." +:+ pretty k +:+ "."). by apply octet_two. }
  split.
  - intros (k & Hi%list_elem_of_In%elem_of_seqZ & Hs). rewrite Hk in Hs by lia.
    apply andb_true_iff in Hs as [?%Z.eqb_eq ?%Z.eqb_eq]. lia.
  - intros [[-> H1] H2]. exists b. split; [apply list_elem_of_In, elem_of_seqZ; lia|]. rewrite Hk by lia. by rewrite !Z.eqb_refl.
Qed.

Lemma str_drop_chars c n s : c ∈ list_ascii_of_string (str_drop n s) → c ∈ list_ascii_of_string s.
Proof.
  revert n. induction s as [|d s IH]; intros [|n] H; cbn in *; try done. apply elem_of_cons. right. by eapply IH.
Qed.

(** Digits and dots alone: nothing of the names and the IPv6 forms applies. *)
Section Dotted.
Context (h : string).
Hypothesis h_chars : Forall (λ c, is_digit c = true ∨ c = "."%char) (list_ascii_of_string h).

Lemma dotted_char c : c ∈ list_ascii_of_string h → is_digit c = true ∨ c = "."%char.
Proof. rewrite Forall_forall in h_chars. apply h_chars. Qed.

Lemma digit_lower c : is_digit c = true ∨ c = "."%char → char_lower c = c.
Proof. intros [H| ->]; [|done]. apply is_digit_cases in H. by repeat (destruct H as [->|H]; [reflexivity|]); subst. Qed.

Lemma dotted_lower : js_lower h = h.
Proof.
  induction h as [|c s IH]; [done|]. cbn in *. apply Forall_cons in h_chars as [Hc Hs]. by rewrite digit_lower, IH.
Qed.

Lemma dotted_free c : is_digit c = false → c ≠ "."%char → c ∉ list_ascii_of_string h.
Proof. intros Hd Hp [H|H]%dotted_char; congruence. Qed.

Lemma brackets_kept l : "["%char ∉ l → "]"%char ∉ l → strip_brackets l = l.
Proof.
  intros Ho Hc. unfold strip_brackets.
  assert (match l with c :: l' => if bool_decide (c = "["%char) then l' else l | [] => l end = l) as ->.
  { destruct l as [|c l]; [done|]. rewrite bool_decide_false by set_solver. done. }
  destruct (reverse l) as [|c r] eqn:E; [done|]. rewrite bool_decide_false; [done|]. intros ->. apply Hc.
  apply elem_of_reverse. rewrite E. set_solver.
Qed.

Lemma dotted_bare : bare_host h = h.
Proof.
  unfold bare_host. rewrite dotted_lower, brackets_kept by (by apply dotted_free).
  apply string_of_list_ascii_of_string.
Qed.


Lemma dotted_ends suf c : c ∈ list_ascii_of_string suf → is_digit c = false → c ≠ "."%char → ends_with suf h = false.
Proof.
  intros Hc Hd Hp. apply not_true_is_false. unfold ends_with. rewrite andb_true_iff, bool_decide_eq_true. intros [_ E].
  apply (dotted_free c Hd Hp). apply (str_drop_chars _ (String.length h - String.length suf)). by rewrite E.
Qed.

Lemma dotted_not s c : c ∈ list_ascii_of_string s → is_digit c = false → c ≠ "."%char → bool_decide (h = s) = false.
Proof. intros Hc Hd Hp. apply bool_decide_false. intros E. apply (dotted_free c Hd Hp). by rewrite E. Qed.

Lemma dotted_blocked : isBlockedHost h = bool_decide (h = "0.0.0.0") || blocked_pattern h.
Proof.
  unfold isBlockedHost. rewrite dotted_bare.
  rewrite (dotted_not "localhost" "l"), (dotted_ends ".localhost" "l"), (dotted_ends ".internal" "l"), (dotted_ends ".local" "l") by (done || set_solver).
  assert (str_has ":" h = false) as -> by (apply char_free_has; by apply dotted_free). cbn.
  by destruct (bool_decide (h = "0.0.0.0")).
Qed.
End Dotted.

(** The networks the guard names. *)
Definition blocked_blocks : list (Z * Z) :=
  [(127 * 2 ^ 24, 8); (10 * 2 ^ 24, 8); (192 * 2 ^ 24 + 168 * 2 ^ 16, 16); (172 * 2 ^ 24 + 16 * 2 ^ 16, 12);
   (169 * 2 ^ 24 + 254 * 2 ^ 16, 16); (0, 8)].

Definition within (n : Z) (block : Z * Z) : Prop := n / 2 ^ (32 - block.2) = block.1 / 2 ^ (32 - block.2).

(** The guard blocks exactly the networks it names.  Of the IPv4 addresses,
    as a parsed URL writes them, those of 127/8, 10/8, 192.168/16, 172.16/12,
    169.254/16 and 0/8 are blocked and no other. *)
Theorem ipv4_blocked_iff n : 0 <= n < 2 ^ 32 →
  isBlockedHost (intToIp n) = true ↔ Exists (within n) blocked_blocks.
Proof.
  intros Hn. rewrite dotted_blocked by (by apply intToIp_chars).
  pose proof (octets_range n Hn) as Hr. rewrite (octets_eq n Hn) in Hr. repeat (apply Forall_cons in Hr as [? Hr]).
  assert (intToIp n = pretty (n / 2 ^ 24) +:+ "." +:+ pretty (n / 2 ^ 16 mod 256) +:+ "." +:+
    pretty (n / 2 ^ 8 mod 256) +:+ "." +:+ pretty (n mod 256)) as E.
  { change (intToIp n) with (js_join "." (pretty <$> octets n)). by rewrite (octets_eq n Hn). }
  set (a := n / 2 ^ 24) in *. set (b := n / 2 ^ 16 mod 256) in *.
  set (r := pretty (n / 2 ^ 8 mod 256) +:+ "." +:+ pretty (n mod 256)) in *.
  assert (n / 2 ^ 16 = a * 256 + b) as Hq.
  { unfold a, b. pose proof (Z.div_mod (n / 2 ^ 16) 256 ltac:(lia)). rewrite Z.div_div in H3 by lia. change (2 ^ 16 * 256) with (2 ^ 24) in H3. lia. }
  assert (blocked_pattern (intToIp n) = (a =? 127) || (a =? 10) || (a =? 192) && (b =? 168) || (a =? 172) && (16 <=? b) && (b <=? 31) ||
    (a =? 169) && (b =? 254) || (a =? 0)) as ->.
  { unfold blocked_pattern. rewrite E.
    change "127." with (pretty 127 +:+ "."). change "10." with (pretty 10 +:+ "."). change "0." with (pretty 0 +:+ ".").
    change "192.168." with (pretty 192 +:+ "." +:+ pretty 168 +:+ "."). change "169.254." with (pretty 169 +:+ "." +:+ pretty 254 +:+ ".").
    by rewrite !octet_one, !octet_two, private_172_octets by lia. }
  assert (bool_decide (intToIp n = "0.0.0.0") = true → a = 0) as Hz.
  { intros Hz%bool_decide_eq_true. assert (n = 0) as ->; [|done].
    pose proof (ipToInt_intToIp n Hn) as Hi. rewrite Hz in Hi. vm_compute in Hi. congruence. }
  unfold blocked_blocks, within. rewrite !Exists_cons, Exists_nil. cbn [fst snd].
  change (32 - 8) with 24. change (32 - 16) with 16. change (32 - 12) with 20. fold a.
  assert (n / 2 ^ 20 = a * 16 + b / 16) as ->.
  { change (2 ^ 20) with (2 ^ 16 * 16). rewrite <-Z.div_div by lia. rewrite Hq.
    replace (a * 256 + b) with (a * 16 * 16 + b) by lia. rewrite Z.div_add_l by lia. done. }
  rewrite Hq. pose proof (Z.div_mod b 16 ltac:(lia)) as Hb. pose proof (Z.mod_pos_bound b 16 ltac:(lia)) as Hb'.
  change (127 * 2 ^ 24 / 2 ^ 24) with 127. change (10 * 2 ^ 24 / 2 ^ 24) with 10. change (0 / 2 ^ 24) with 0.
  change ((192 * 2 ^ 24 + 168 * 2 ^ 16) / 2 ^ 16) with (192 * 256 + 168). change ((169 * 2 ^ 24 + 254 * 2 ^ 16) / 2 ^ 16) with (169 * 256 + 254).
  change ((172 * 2 ^ 24 + 16 * 2 ^ 16) / 2 ^ 20) with (172 * 16 + 1).
  rewrite !orb_true_iff, !andb_true_iff, !Z.eqb_eq, !Z.leb_le. split.
  - intros [H'|H']; [apply Hz in H'; lia|]. lia.
  - intros H'. right. lia.
Qed.

(** What resolves to this machine or to metadata and is let through: the
    unspecified IPv6 address, localhost with its final dot, and the metadata
    address of a cloud that keeps it in 100.64/10. *)
Example unblocked_roads :
  isBlockedHost "[::]" = false ∧ isBlockedHost "localhost." = false ∧ isBlockedHost "100.100.100.200" = false.
Proof. repeat split; vm_compute; reflexivity. Qed.

Example blocked_roads :
  isBlockedHost "[::1]" = true ∧ isBlockedHost "[::ffff:7f00:1]" = true ∧ isBlockedHost "[64:ff9b::7f00:1]" = true ∧
  isBlockedHost "a.Localhost" = true ∧ isBlockedHost "fc-cdn.com" = false ∧ isBlockedHost "8.8.8.8" = false.
Proof. repeat split; vm_compute; reflexivity. Qed.

Theorem ipv4_blocked_iff_witness : 0 <= 2886729729 < 2 ^ 32 ∧ isBlockedHost (intToIp 2886729729) = true.
Proof.
  assert (0 <= 2886729729 < 2 ^ 32) as H by lia. split; [exact H|]. apply (ipv4_blocked_iff 2886729729 H).
  unfold blocked_blocks. do 3 apply Exists_cons_tl. apply Exists_cons_hd. reflexivity.
Defined.

Theorem body_bounded_witness : readBoundedBytes 200 (Some 4) (Some [[1; 2]; [3; 4; 5]]) [] 4 = (5, Throw (tooLarge 200 4)).
Proof.
  destruct (body_bounded 200 (Some 4) [[1; 2]; [3; 4; 5]] [] 4 3 ltac:(lia) ltac:(lia)) as (H1 & _ & _).
  - intros c Hc. repeat (apply elem_of_cons in Hc as [->|Hc]; [cbn; lia|]). by apply not_elem_of_nil in Hc.
  - cbn in H1. apply (f_equal (λ x, (5, x))) in H1. exact H1.
Defined.
