(* ===== verification/RuleFold.v ===== *)
(** The patterns of the User-Agent rules
    (apps/panel-backend/src/modules/srr/linear-regex.ts): the inline flags taken
    off, and a case-blind pattern folded to lower case, since the linear engine
    does not take the flag [i].

    [RegExp] is JavaScript's: [read] parses a pattern one symbol at a time and
    [finds] says what it matches, captures aside, with the flags i, m and s.  A
    character is a code unit below 256.  What [read] does not parse (back
    references and look-around, which the linear engine refuses, named groups,
    [\0], [\c], [\k], a range with a class at an end, a brace that is no count) it
    answers with [None]. *)

From S2P Require Import Prelude Js.
From Stdlib Require Import Btauto.

Local Open Scope list_scope.
Local Open Scope char_scope.

(** ** [foldPatternCase] *)

(** The braces after [\p], [\P] and [\u], when they are closed. *)
Definition braced (next : ascii) (rest : list ascii) : bool :=
  ((next =? "p") || (next =? "P") || (next =? "u")) &&
  match rest with "{" :: _ => bool_decide ("}" ∈ rest) | _ => false end.

Fixpoint fold_chars (inside : bool) (l : list ascii) : list ascii :=
  match l with
  | [] => []
  | c :: rest =>
      if inside then c :: fold_chars (negb (c =? "}")) rest
      else if negb (c =? "\") then char_lower c :: fold_chars false rest
      else match rest with
           | [] => [c]
           | next :: rest' => c :: next :: fold_chars (braced next rest') rest'
           end
  end.

Definition foldPatternCase (pattern : list ascii) : list ascii := fold_chars false pattern.

(** ** [compileLinearRule], up to the [RegExp] it makes *)
Definition is_flag (c : ascii) : bool := bool_decide (c ∈ ["i"; "m"; "s"; "u"; "x"]).

Fixpoint flag_run (l : list ascii) : list ascii * list ascii :=
  match l with
  | c :: rest => if is_flag c then let '(fl, r) := flag_run rest in (c :: fl, r) else ([], l)
  | [] => ([], [])
  end.

(** [pattern.match]: an opening group of flags, one at least, and the rest. *)
Definition inline_flags (pattern : list ascii) : option (list ascii * list ascii) :=
  match pattern with
  | "(" :: "?" :: l =>
      match flag_run l with
      | (f :: fl, ")" :: body) => Some (f :: fl, body)
      | _ => None
      end
  | _ => None
  end.

Record Compiled := mkCompiled { source : list ascii; rest_flags : list ascii; fold : bool }.

(** [flags.replace('i', '')]: the first one. *)
Fixpoint without_first (c : ascii) (l : list ascii) : list ascii :=
  match l with [] => [] | d :: l => if d =? c then l else d :: without_first c l end.

Definition compile_rule (pattern : list ascii) : Compiled :=
  let '(flags, body) := match inline_flags pattern with
                        | Some (fl, body) => (filter (λ c, c ∈ ["i"; "m"; "s"]) fl, body)
                        | None => ([], pattern)
                        end in
  let fold := bool_decide ("i" ∈ flags) in
  mkCompiled (if fold then foldPatternCase body else body) (without_first "i" flags ++ ["l"]) fold.

(** [rule.fold ? input.toLowerCase() : input]. *)
Definition subject (rule : Compiled) (input : list ascii) : list ascii :=
  if fold rule then map char_lower input else input.

(** ** What a pattern says *)
Inductive Item := One (raw : bool) (c : ascii) | Range (rl : bool) (lo : ascii) (rh : bool) (hi : ascii) | Kind (k : ascii).

Inductive Node :=
  | Empty
  | Chr (raw : bool) (c : ascii)     (* [raw]: as it stands, not by an escape *)
  | Any
  | Cls (k : ascii)                  (* d D w W s S *)
  | CharSet (neg : bool) (items : list Item)
  | Seq (a b : Node)
  | Or (a b : Node)
  | Rep (lo : nat) (hi : option nat) (a : Node)
  | Bol | Eol
  | Edge (neg : bool).

(** *** Symbols *)
Inductive Sym := Mark (c : ascii) | Lit (c : ascii) | Esc (c : ascii) | Trail.

Definition is_mark (c : ascii) : bool :=
  bool_decide (c ∈ ["|"; "("; ")"; "*"; "+"; "?"; "{"; "}"; "["; "]"; "^"; "$"; "."; "-"; ","; ":"]) || is_digit c.

Fixpoint lex (l : list ascii) : list Sym :=
  match l with
  | [] => []
  | c :: rest =>
      if c =? "\" then match rest with [] => [Trail] | next :: rest' => Esc next :: lex rest' end
      else (if is_mark c then Mark c else Lit c) :: lex rest
  end.

(** *** The parser

    A frame for each open group: the alternatives and the terms read, last
    first, and whether the last term takes a quantifier. *)
Inductive Quantifiable := Not | Atom | Counted.
Record Frame := mkFrame { alts : list Node; terms : list Node; last : Quantifiable }.

Definition seq_of (terms : list Node) : Node := foldl (λ acc t, Seq t acc) Empty terms.
Definition close (f : Frame) : Node := foldl (λ acc t, Or t acc) (seq_of (terms f)) (alts f).

Inductive Pending := PNone | PAtom (i : Item) | PDash (i : Item).

Inductive Mode :=
  | Plain | Open | OpenQ
  | Count (lo : option nat) (hi : option (option nat))
  | Hex (digits : nat) (v : Z)
  | ClassStart
  | Class (neg : bool) (items : list Item) (p : Pending)
  | ClassHex (digits : nat) (v : Z) (neg : bool) (items : list Item) (p : Pending).

Record Parser := mkParser { top : Frame; stack : list Frame; mode : Mode }.

Definition new_frame : Frame := mkFrame [] [] Not.
Definition term (q : Quantifiable) (n : Node) (p : Parser) : Parser :=
  mkParser (mkFrame (alts (top p)) (n :: terms (top p)) q) (stack p) Plain.
Definition push (p : Parser) : Parser := mkParser new_frame (top p :: stack p) Plain.
Definition to_mode (m : Mode) (p : Parser) : Parser := mkParser (top p) (stack p) m.

(** A quantifier on the last term; a [?] after one makes it lazy. *)
Definition quantify (lo : nat) (hi : option nat) (p : Parser) : option Parser :=
  match last (top p), terms (top p) with
  | Atom, t :: ts => Some (mkParser (mkFrame (alts (top p)) (Rep lo hi t :: ts) Counted) (stack p) Plain)
  | _, _ => None
  end.

Definition control (c : ascii) : option ascii :=
  if c =? "t" then Some "009" else if c =? "n" then Some "010" else if c =? "v" then Some "011"
  else if c =? "f" then Some "012" else if c =? "r" then Some "013" else None.

Definition is_class (c : ascii) : bool := bool_decide (c ∈ ["d"; "D"; "w"; "W"; "s"; "S"]).
Definition unread_escape (c : ascii) : bool := is_digit c || (c =? "c") || (c =? "k").

Definition hex_value (s : Sym) : option Z :=
  match s with Mark c | Lit c => base_digit 16 c | _ => None end.

Definition step_escape (c : ascii) (p : Parser) : option Parser :=
  if is_class c then Some (term Atom (Cls c) p)
  else if c =? "b" then Some (term Not (Edge false) p)
  else if c =? "B" then Some (term Not (Edge true) p)
  else if c =? "x" then Some (to_mode (Hex 2 0) p)
  else if c =? "u" then Some (to_mode (Hex 4 0) p)
  else if unread_escape c then None
  else match control c with
       | Some d => Some (term Atom (Chr false d) p)
       | None => Some (term Atom (Chr false c) p)
       end.

Definition step_mark (c : ascii) (p : Parser) : option Parser :=
  if c =? "|" then Some (mkParser (mkFrame (seq_of (terms (top p)) :: alts (top p)) [] Not) (stack p) Plain)
  else if c =? "(" then Some (to_mode Open p)
  else if c =? ")" then
    match stack p with
    | f :: fs => Some (term Atom (close (top p)) (mkParser f fs Plain))
    | [] => None
    end
  else if c =? "*" then quantify 0 None p
  else if c =? "+" then quantify 1 None p
  else if c =? "?" then
    match last (top p) with
    | Counted => Some (mkParser (mkFrame (alts (top p)) (terms (top p)) Not) (stack p) Plain)
    | _ => quantify 0 (Some 1%nat) p
    end
  else if c =? "{" then Some (to_mode (Count None None) p)
  else if c =? "[" then Some (to_mode ClassStart p)
  else if c =? "^" then Some (term Not Bol p)
  else if c =? "$" then Some (term Not Eol p)
  else if c =? "." then Some (term Atom Any p)
  else Some (term Atom (Chr false c) p).

Definition step_plain (s : Sym) (p : Parser) : option Parser :=
  match s with
  | Mark c => step_mark c p
  | Lit c => Some (term Atom (Chr true c) p)
  | Esc c => step_escape c p
  | Trail => None
  end.

Definition more_digits (c : ascii) (n : option nat) : option nat :=
  Some (10 * default 0 n + (Ascii.nat_of_ascii c - 48))%nat.

Definition step_count (lo : option nat) (hi : option (option nat)) (s : Sym) (p : Parser) : option Parser :=
  match s with
  | Mark c =>
      if is_digit c then
        Some (to_mode (match hi with None => Count (more_digits c lo) None | Some h => Count lo (Some (more_digits c h)) end) p)
      else if c =? "," then match lo, hi with Some _, None => Some (to_mode (Count lo (Some None)) p) | _, _ => None end
      else if c =? "}" then
        match lo, hi with
        | Some n, None => quantify n (Some n) p
        | Some n, Some None => quantify n None p
        | Some n, Some (Some k) => if (n <=? k)%nat then quantify n (Some k) p else None
        | None, _ => None
        end
      else None
  | _ => None
  end.

(** *** Inside brackets *)
Definition code (c : ascii) : Z := Z.of_nat (Ascii.nat_of_ascii c).

Definition add_pending (items : list Item) (p : Pending) : list Item :=
  match p with PNone => items | PAtom i => i :: items | PDash i => One false "-" :: i :: items end.

Definition class_atom (neg : bool) (items : list Item) (pend : Pending) (i : Item) (p : Parser) : option Parser :=
  match pend with
  | PNone => Some (to_mode (Class neg items (PAtom i)) p)
  | PAtom j => Some (to_mode (Class neg (j :: items) (PAtom i)) p)
  | PDash (One rl lo) =>
      match i with
      | One rh hi => if (code lo <=? code hi)%Z then Some (to_mode (Class neg (Range rl lo rh hi :: items) PNone) p) else None
      | _ => None
      end
  | PDash _ => None
  end.

Definition step_class (neg : bool) (items : list Item) (pend : Pending) (s : Sym) (p : Parser) : option Parser :=
  match s with
  | Mark c =>
      if c =? "]" then Some (term Atom (CharSet neg (add_pending items pend)) p)
      else if c =? "-" then
        match pend with
        | PAtom i => Some (to_mode (Class neg items (PDash i)) p)
        | _ => class_atom neg items pend (One false c) p
        end
      else class_atom neg items pend (One false c) p
  | Lit c => class_atom neg items pend (One true c) p
  | Esc c =>
      if is_class c then class_atom neg items pend (Kind c) p
      else if c =? "b" then class_atom neg items pend (One false "008") p
      else if c =? "x" then Some (to_mode (ClassHex 2 0 neg items pend) p)
      else if c =? "u" then Some (to_mode (ClassHex 4 0 neg items pend) p)
      else if unread_escape c then None
      else match control c with
           | Some d => class_atom neg items pend (One false d) p
           | None => class_atom neg items pend (One false c) p
           end
  | Trail => None
  end.

(** A digit of an escape: the escape goes on, or its character is there. *)
Definition step_hex (digits : nat) (v : Z) (s : Sym) : option (Z + ascii) :=
  d ← hex_value s;
  let v := (16 * v + d)%Z in
  match digits with
  | S (S _) => Some (inl v)
  | _ => if (v <? 256)%Z then Some (inr (Ascii.ascii_of_nat (Z.to_nat v))) else None
  end.

Definition is_sym (m : ascii) (s : Sym) : bool := match s with Mark c => c =? m | _ => false end.

Definition step (p : Parser) (s : Sym) : option Parser :=
  match mode p with
  | Plain => step_plain s p
  | Open => if is_sym "?" s then Some (to_mode OpenQ p) else step_plain s (push p)
  | OpenQ => if is_sym ":" s then Some (push p) else None
  | Count lo hi => step_count lo hi s p
  | Hex digits v =>
      r ← step_hex digits v s;
      match r with inl v => Some (to_mode (Hex (pred digits) v) p) | inr c => Some (term Atom (Chr false c) p) end
  | ClassStart => if is_sym "^" s then Some (to_mode (Class true [] PNone) p) else step_class false [] PNone s p
  | Class neg items pend => step_class neg items pend s p
  | ClassHex digits v neg items pend =>
      r ← step_hex digits v s;
      match r with
      | inl v => Some (to_mode (ClassHex (pred digits) v neg items pend) p)
      | inr c => class_atom neg items pend (One false c) p
      end
  end.

Fixpoint steps (p : Parser) (l : list Sym) : option Parser :=
  match l with [] => Some p | s :: l => p ← step p s; steps p l end.

Definition read (pattern : list ascii) : option Node :=
  p ← steps (mkParser new_frame [] Plain) (lex pattern);
  match stack p, mode p with [], Plain => Some (close (top p)) | _, _ => None end.

(** *** Matching *)
Record Flags := mkFlags { fl_blind : bool; fl_multiline : bool; fl_dotall : bool }.

Definition all_chars : list ascii := map Ascii.ascii_of_nat (seq 0 256).
Definition alike (c d : ascii) : bool := char_lower c =? char_lower d.

(** A character set holds a character; with [i], one that differs in case. *)
Definition hits (blind : bool) (P : ascii → bool) (c : ascii) : bool :=
  if blind then existsb (λ d, alike d c && P d) all_chars else P c.

Definition is_word (c : ascii) : bool :=
  is_digit c || ((65 <=? code c) && (code c <=? 90) || (97 <=? code c) && (code c <=? 122) || (code c =? 95))%Z.
Definition is_newline (c : ascii) : bool := bool_decide (c ∈ ["010"; "013"]).

Definition in_class (k c : ascii) : bool :=
  if k =? "d" then is_digit c else if k =? "D" then negb (is_digit c)
  else if k =? "w" then is_word c else if k =? "W" then negb (is_word c)
  else if k =? "s" then is_ws c else negb (is_ws c).

Definition in_item (i : Item) (c : ascii) : bool :=
  match i with
  | One _ d => c =? d
  | Range _ lo _ hi => ((code lo <=? code c) && (code c <=? code hi))%Z
  | Kind k => in_class k c
  end.

Definition in_items (items : list Item) (c : ascii) : bool := existsb (λ i, in_item i c) items.

(** What a term of one character takes. *)
Definition takes (f : Flags) (n : Node) (c : ascii) : bool :=
  match n with
  | Chr _ d => hits (fl_blind f) (λ c, c =? d) c
  | Any => fl_dotall f || negb (is_newline c)
  | Cls k => hits (fl_blind f) (in_class k) c
  | CharSet neg items => xorb neg (hits (fl_blind f) (in_items items) c)
  | _ => false
  end.

Definition word_at (s : list ascii) (i : nat) : bool := match s !! i with Some c => is_word c | None => false end.
Definition word_before (s : list ascii) (i : nat) : bool := match i with 0%nat => false | S i => word_at s i end.
Definition newline_at (s : list ascii) (i : nat) : bool := match s !! i with Some c => is_newline c | None => false end.

Definition at_start (f : Flags) (s : list ascii) (i : nat) : bool :=
  match i with 0%nat => true | S i => fl_multiline f && newline_at s i end.
Definition at_end (f : Flags) (s : list ascii) (i : nat) : bool :=
  (length s <=? i)%nat || fl_multiline f && newline_at s i.

Fixpoint times (R : nat → nat → Prop) (k i j : nat) : Prop :=
  match k with 0%nat => i = j | S k => ∃ h, R i h ∧ times R k h j end.

(** The pattern takes the text from i to j. *)
Fixpoint spans (f : Flags) (s : list ascii) (n : Node) (i j : nat) : Prop :=
  match n with
  | Empty => i = j
  | Chr _ _ | Any | Cls _ | CharSet _ _ => j = S i ∧ ∃ c, s !! i = Some c ∧ takes f n c = true
  | Seq a b => ∃ h, spans f s a i h ∧ spans f s b h j
  | Or a b => spans f s a i j ∨ spans f s b i j
  | Rep lo hi a => ∃ k, (lo ≤ k)%nat ∧ (∀ h, hi = Some h → (k ≤ h)%nat) ∧ times (spans f s a) k i j
  | Bol => i = j ∧ at_start f s i = true
  | Eol => i = j ∧ at_end f s i = true
  | Edge neg => i = j ∧ xorb neg (xorb (word_before s i) (word_at s i)) = true
  end.

(** [re.test(s)]. *)
Definition finds (f : Flags) (n : Node) (s : list ascii) : Prop := ∃ i j, (i ≤ length s)%nat ∧ spans f s n i j.

(** ** A pattern folded *)
Definition lower_if (raw : bool) (c : ascii) : ascii := if raw then char_lower c else c.

Definition fold_item (i : Item) : Item :=
  match i with
  | One raw c => One raw (lower_if raw c)
  | Range rl lo rh hi => Range rl (lower_if rl lo) rh (lower_if rh hi)
  | Kind k => Kind k
  end.

Fixpoint fold_node (n : Node) : Node :=
  match n with
  | Chr raw c => Chr raw (lower_if raw c)
  | CharSet neg items => CharSet neg (map fold_item items)
  | Seq a b => Seq (fold_node a) (fold_node b)
  | Or a b => Or (fold_node a) (fold_node b)
  | Rep lo hi a => Rep lo hi (fold_node a)
  | n => n
  end.

(** The folded set holds the small letter of exactly the characters that the
    set holds in some case. *)
Definition folds (P P' : ascii → bool) : bool :=
  forallb (λ c, eqb (P' (char_lower c)) (hits true P c)) all_chars.

Definition item_ok (i : Item) : bool :=
  match i with
  | One raw c => raw || (char_lower c =? c)
  | Range rl lo rh hi =>
      (code (lower_if rl lo) <=? code (lower_if rh hi))%Z && folds (in_item i) (in_item (fold_item i))
  | Kind k => is_class k
  end.

(** A pattern the fold is right for: no capital letter stands behind an escape,
    and no range runs from one case into other characters. *)
Fixpoint folds_well (n : Node) : bool :=
  match n with
  | Chr raw c => raw || (char_lower c =? c)
  | Cls k => is_class k
  | CharSet _ items => forallb item_ok items
  | Seq a b | Or a b => folds_well a && folds_well b
  | Rep _ _ a => folds_well a
  | _ => true
  end.

(** No [\p{..}], [\P{..}], [\u{..}], which the fold leaves as they are. *)
Fixpoint unbraced (l : list ascii) : bool :=
  match l with
  | [] => true
  | c :: rest =>
      if negb (c =? "\") then unbraced rest
      else match rest with [] => true | next :: rest' => negb (braced next rest') && unbraced rest' end
  end.

(** ** Facts checked on every character *)
Lemma char_listed c : In c all_chars.
Proof.
  unfold all_chars. apply in_map_iff. exists (Ascii.nat_of_ascii c).
  split; [apply Ascii.ascii_nat_embedding|]. apply in_seq. pose proof (Ascii.nat_ascii_bounded c). lia.
Qed.

Lemma every_char (P : ascii → bool) : forallb P all_chars = true → ∀ c, P c = true.
Proof. intros H c. rewrite forallb_forall in H. apply H, char_listed. Qed.

Ltac each_char c := revert c; apply every_char; vm_compute; reflexivity.

Lemma lower_backslash c : (char_lower c =? "\") = (c =? "\").
Proof. apply eqb_prop. each_char c. Qed.

Lemma lower_mark c : is_mark (char_lower c) = is_mark c.
Proof. apply eqb_prop. each_char c. Qed.

Lemma mark_small c : is_mark c = true → char_lower c = c.
Proof.
  assert (implb (is_mark c) (char_lower c =? c) = true) as Hi by each_char c. intros H. rewrite H in Hi. by apply Ascii.eqb_eq.
Qed.

Lemma lower_hex c : base_digit 16 (char_lower c) = base_digit 16 c.
Proof. assert (bool_decide (base_digit 16 (char_lower c) = base_digit 16 c) = true) as H by each_char c. by apply bool_decide_eq_true in H. Qed.

Lemma lower_word c : is_word (char_lower c) = is_word c.
Proof. apply eqb_prop. each_char c. Qed.

Lemma lower_newline c : is_newline (char_lower c) = is_newline c.
Proof. apply eqb_prop. each_char c. Qed.

Lemma lower_twice c : char_lower (char_lower c) = char_lower c.
Proof. apply Ascii.eqb_eq. each_char c. Qed.

Lemma hits_blind P c : hits true P c = true ↔ ∃ d, char_lower d = char_lower c ∧ P d = true.
Proof.
  unfold hits. rewrite existsb_exists. split.
  - intros (d & _ & H). apply andb_true_iff in H as [H1 H2]. exists d. split; [by apply Ascii.eqb_eq|done].
  - intros (d & H1 & H2). exists d. split; [|unfold alike; by rewrite H1, Ascii.eqb_refl, H2].
    apply char_listed.
Qed.

Lemma lower_class k c : is_class k = true → in_class k (char_lower c) = in_class k c.
Proof.
  unfold is_class. rewrite bool_decide_eq_true. intros Hk. apply eqb_prop. revert c. apply every_char.
  repeat (apply elem_of_cons in Hk as [->|Hk]; [vm_compute; reflexivity|]). by apply not_elem_of_nil in Hk.
Qed.

Lemma class_folds k c : is_class k = true → in_class k (char_lower c) = hits true (in_class k) c.
Proof.
  intros Hk. apply eq_true_iff_eq. rewrite hits_blind. split; [intros H; exists c; by rewrite lower_class in H|].
  intros (d & <- & H). by rewrite lower_class.
Qed.

Lemma folds_spec P P' : folds P P' = true → ∀ c, P' (char_lower c) = hits true P c.
Proof. intros H c. by apply eqb_prop, (every_char _ H). Qed.

Lemma one_folds raw d c : raw || (char_lower d =? d) = true → (char_lower c =? lower_if raw d) = hits true (λ c, c =? d) c.
Proof.
  intros Hok. apply eq_true_iff_eq. rewrite hits_blind, Ascii.eqb_eq.
  assert (lower_if raw d = char_lower d) as ->. { destruct raw; [done|]. cbn in *. symmetry. by apply Ascii.eqb_eq. }
  split; [intros ->; exists d; by rewrite Ascii.eqb_refl|].
  intros (e & He & ->%Ascii.eqb_eq). by rewrite <- He.
Qed.

(** ** The fold reads as the pattern folded *)
Definition low (s : Sym) : Sym := match s with Lit c => Lit (char_lower c) | s => s end.

Lemma lex_fold l : unbraced l = true → lex (foldPatternCase l) = map low (lex l).
Proof.
  unfold foldPatternCase. remember (length l) as k eqn:Ek. assert (length l ≤ k)%nat as Hk by lia. clear Ek.
  revert l Hk. induction k as [|k IH]; intros [|c rest] Hk Hu; try done; [cbn in Hk; lia|].
  cbn [fold_chars unbraced lex] in *. destruct (c =? "\") eqn:Ec; cbn [negb] in *.
  - destruct rest as [|next rest']; [cbn; by rewrite Ec|]. apply andb_true_iff in Hu as [Hb Hu].
    apply negb_true_iff in Hb. rewrite Hb. cbn [lex]. rewrite Ec. cbn. by rewrite IH by (cbn in *; done || lia).
  - cbn [lex]. rewrite lower_backslash, Ec, lower_mark. cbn. rewrite IH by (cbn in *; done || lia).
    destruct (is_mark c) eqn:Em; cbn; [by rewrite mark_small|done].
Qed.

Definition fold_frame (f : Frame) : Frame := mkFrame (map fold_node (alts f)) (map fold_node (terms f)) (last f).
Definition fold_pending (p : Pending) : Pending :=
  match p with PNone => PNone | PAtom i => PAtom (fold_item i) | PDash i => PDash (fold_item i) end.
Definition fold_mode (m : Mode) : Mode :=
  match m with
  | Class neg items p => Class neg (map fold_item items) (fold_pending p)
  | ClassHex k v neg items p => ClassHex k v neg (map fold_item items) (fold_pending p)
  | m => m
  end.
Definition fold_parser (p : Parser) : Parser := mkParser (fold_frame (top p)) (map fold_frame (stack p)) (fold_mode (mode p)).

Definition ok_mode (m : Mode) : bool :=
  match m with Class _ items _ | ClassHex _ _ _ items _ => forallb item_ok items | _ => true end.
Definition ok_frame (f : Frame) : bool := forallb folds_well (alts f) && forallb folds_well (terms f).
Definition ok_parser (p : Parser) : bool := ok_frame (top p) && forallb ok_frame (stack p) && ok_mode (mode p).

Lemma fold_seq ts : fold_node (seq_of ts) = seq_of (map fold_node ts).
Proof. unfold seq_of. change Empty with (fold_node Empty) at 2. generalize Empty. induction ts as [|t ts IH]; intros e; [done|]. cbn. by rewrite IH. Qed.

Lemma fold_close f : fold_node (close f) = close (fold_frame f).
Proof.
  unfold close, fold_frame. cbn. rewrite <- fold_seq. generalize (seq_of (terms f)). generalize (alts f).
  intros ts. induction ts as [|t ts IH]; intros e; [done|]. cbn. by rewrite IH.
Qed.

Lemma ok_seq ts : folds_well (seq_of ts) = forallb folds_well ts.
Proof.
  unfold seq_of. rewrite <- (andb_true_r (forallb _ _)). change true with (folds_well Empty). generalize Empty.
  induction ts as [|t ts IH]; intros e; [by cbn|]. cbn. rewrite IH. cbn. btauto.
Qed.

Lemma ok_close f : folds_well (close f) = ok_frame f.
Proof.
  unfold close, ok_frame. rewrite <- (ok_seq (terms f)). generalize (seq_of (terms f)). generalize (alts f).
  intros ts. induction ts as [|t ts IH]; intros e; [by cbn|]. cbn. rewrite IH. cbn. btauto.
Qed.

(** One step of the parser on a symbol, and on the symbol folded. *)
Definition simulates (step_s step_l : Parser → option Parser) : Prop :=
  ∀ p p', step_s p = Some p' → ok_parser p' = true → ok_mode (mode p) = true →
  step_l (fold_parser p) = Some (fold_parser p') ∧ ok_parser p = true.

Ltac ok_solve := unfold ok_parser, ok_frame in *; cbn in *; rewrite ?andb_true_iff in *; naive_solver.

Lemma term_ok q n p : ok_parser (term q n p) = true → ok_mode (mode p) = true → ok_parser p = true ∧ folds_well n = true.
Proof. destruct p as [[al te la] st mo]. ok_solve. Qed.

Lemma mode_ok m p : ok_parser (to_mode m p) = true → ok_mode (mode p) = true → ok_parser p = true ∧ ok_mode m = true.
Proof. destruct p as [[al te la] st mo]. ok_solve. Qed.

Lemma term_simulates q n n' : fold_node n = n' → simulates (λ p, Some (term q n p)) (λ p, Some (term q n' p)).
Proof. intros <- p p' [= <-] Hok Hm. split; [done|]. by eapply term_ok. Qed.

Lemma mode_simulates m m' : fold_mode m = m' → simulates (λ p, Some (to_mode m p)) (λ p, Some (to_mode m' p)).
Proof. intros <- p p' [= <-] Hok Hm. split; [done|]. by eapply mode_ok. Qed.

Lemma quantify_simulates lo hi : simulates (quantify lo hi) (quantify lo hi).
Proof.
  intros [[al te la] st mo] p' H Hok Hm. unfold quantify in *. cbn in *. destruct la; try done. destruct te as [|t te]; [done|].
  injection H as <-. split; [done|]. ok_solve.
Qed.

Lemma none_simulates g : simulates (λ _, None) g.
Proof. by intros p p'. Qed.

Lemma close_simulates : simulates
  (λ p, match stack p with f :: fs => Some (term Atom (close (top p)) (mkParser f fs Plain)) | [] => None end)
  (λ p, match stack p with f :: fs => Some (term Atom (close (top p)) (mkParser f fs Plain)) | [] => None end).
Proof.
  intros [t [|f fs] mo] p' H Hok Hm; [done|]. cbn in *. injection H as <-. split.
  - change (Some (term Atom (close (fold_frame t)) (fold_parser (mkParser f fs Plain))) =
      Some (fold_parser (term Atom (close t) (mkParser f fs Plain)))). by rewrite <- fold_close.
  - apply term_ok in Hok as [Hok Ht]; [|done]. rewrite ok_close in Ht. unfold ok_parser in *. cbn in *. rewrite Ht, Hm.
    rewrite !andb_true_iff in *. naive_solver.
Qed.

Lemma bar_simulates : simulates
  (λ p, Some (mkParser (mkFrame (seq_of (terms (top p)) :: alts (top p)) [] Not) (stack p) Plain))
  (λ p, Some (mkParser (mkFrame (seq_of (terms (top p)) :: alts (top p)) [] Not) (stack p) Plain)).
Proof.
  intros [[al te la] st mo] p' [= <-] Hok Hm. split; [unfold fold_parser, fold_frame; cbn; by rewrite fold_seq|].
  unfold ok_parser, ok_frame in *. cbn in *. rewrite ok_seq in Hok. rewrite Hm. rewrite !andb_true_iff in *. naive_solver.
Qed.

Lemma lazy_simulates : simulates
  (λ p, match last (top p) with
        | Counted => Some (mkParser (mkFrame (alts (top p)) (terms (top p)) Not) (stack p) Plain)
        | _ => quantify 0 (Some 1%nat) p end)
  (λ p, match last (top p) with
        | Counted => Some (mkParser (mkFrame (alts (top p)) (terms (top p)) Not) (stack p) Plain)
        | _ => quantify 0 (Some 1%nat) p end).
Proof.
  intros p p' H Hok Hm. cbn. destruct (last (top p)) eqn:El; [by eapply quantify_simulates|by eapply quantify_simulates|].
  injection H as <-. split; [done|]. destruct p as [[al te la] st mo]. ok_solve.
Qed.

Lemma step_mark_simulates c : simulates (step_mark c) (step_mark c).
Proof.
  unfold step_mark. destruct (c =? "|"); [apply bar_simulates|]. destruct (c =? "("); [by apply mode_simulates|].
  destruct (c =? ")"); [apply close_simulates|]. do 2 (destruct (_ =? _); [apply quantify_simulates|]).
  destruct (c =? "?"); [apply lazy_simulates|]. do 2 (destruct (_ =? _); [by apply mode_simulates|]).
  do 3 (destruct (_ =? _); [by apply term_simulates|]). by apply term_simulates.
Qed.

Lemma step_escape_simulates c : simulates (step_escape c) (step_escape c).
Proof.
  unfold step_escape. destruct (is_class c); [by apply term_simulates|].
  do 2 (destruct (_ =? _); [by apply term_simulates|]). do 2 (destruct (_ =? _); [by apply mode_simulates|]).
  destruct (unread_escape c); [apply none_simulates|]. destruct (control c); by apply term_simulates.
Qed.

Lemma step_plain_simulates s : simulates (step_plain s) (step_plain (low s)).
Proof.
  destruct s as [c|c|c|]; cbn; [apply step_mark_simulates|by apply term_simulates|apply step_escape_simulates|apply none_simulates].
Qed.

Lemma step_count_simulates lo hi s : simulates (step_count lo hi s) (step_count lo hi (low s)).
Proof.
  unfold step_count. destruct s as [c|c|c|]; cbn [low]; try apply none_simulates.
  destruct (is_digit c); [by destruct hi; apply mode_simulates|]. destruct (c =? ",").
  { destruct lo as [n|], hi as [h|]; try apply none_simulates. by apply mode_simulates. }
  destruct (c =? "}"); [|apply none_simulates]. destruct lo as [n|]; [|apply none_simulates].
  destruct hi as [[k|]|]; try apply quantify_simulates. destruct (_ <=? _)%nat; [apply quantify_simulates|apply none_simulates].
Qed.

(** In brackets the items read so far are part of the mode. *)
Definition class_simulates (items : list Item) (step_s step_l : Parser → option Parser) : Prop :=
  ∀ p p', step_s p = Some p' → ok_parser p' = true → ok_mode (mode p) = true →
  step_l (fold_parser p) = Some (fold_parser p') ∧ ok_parser p = true ∧ forallb item_ok items = true.

Lemma class_mode neg items pend items' : (forallb item_ok items' = true → forallb item_ok items = true) →
  class_simulates items (λ p, Some (to_mode (Class neg items' pend) p))
    (λ p, Some (to_mode (Class neg (map fold_item items') (fold_pending pend)) p)).
Proof. intros Hi p p' [= <-] Hok Hm. split; [done|]. apply mode_ok in Hok as [H1 H2]; [|done]. split; [done|by apply Hi]. Qed.

Lemma class_none items g : class_simulates items (λ _, None) g.
Proof. by intros p p'. Qed.

Lemma class_atom_simulates neg items pend i :
  class_simulates items (class_atom neg items pend i) (class_atom neg (map fold_item items) (fold_pending pend) (fold_item i)).
Proof.
  unfold class_atom. destruct pend as [|j|j]; cbn [fold_pending].
  - by apply (class_mode neg items (PAtom i)).
  - apply (class_mode neg items (PAtom i) (j :: items)). cbn. rewrite andb_true_iff. tauto.
  - destruct j as [rl lo| |]; cbn [fold_item]; try apply class_none. destruct i as [rh hi| |]; cbn [fold_item]; try apply class_none.
    destruct (code lo <=? code hi)%Z; [|apply class_none]. intros p p' H Hok Hm. injection H as <-.
    pose proof Hok as [H1 H2]%mode_ok; [|done]. cbn [ok_mode forallb item_ok] in H2. rewrite !andb_true_iff in H2.
    destruct H2 as [[H2 _] H3]. by rewrite H2.
Qed.

Lemma add_pending_fold items p : map fold_item (add_pending items p) = add_pending (map fold_item items) (fold_pending p).
Proof. by destruct p. Qed.

Lemma add_pending_ok items p : forallb item_ok (add_pending items p) = true → forallb item_ok items = true.
Proof. destruct p; cbn; rewrite ?andb_true_iff; tauto. Qed.

Lemma set_simulates neg items pend :
  class_simulates items (λ p, Some (term Atom (CharSet neg (add_pending items pend)) p))
    (λ p, Some (term Atom (CharSet neg (add_pending (map fold_item items) (fold_pending pend))) p)).
Proof.
  intros p p' [= <-] Hok Hm. split; [rewrite <- add_pending_fold; done|].
  apply term_ok in Hok as [H1 H2]; [|done]. split; [done|]. by eapply add_pending_ok.
Qed.

Lemma class_hex k v neg items pend :
  class_simulates items (λ p, Some (to_mode (ClassHex k v neg items pend) p))
    (λ p, Some (to_mode (ClassHex k v neg (map fold_item items) (fold_pending pend)) p)).
Proof. intros p p' [= <-] Hok Hm. split; [done|]. by apply mode_ok in Hok. Qed.

Lemma step_class_simulates neg items pend s :
  class_simulates items (step_class neg items pend s) (step_class neg (map fold_item items) (fold_pending pend) (low s)).
Proof.
  unfold step_class. destruct s as [c|c|c|]; cbn [low]; [| | |apply class_none].
  - destruct (c =? "]"); [apply set_simulates|]. destruct (c =? "-"); [|apply (class_atom_simulates neg items pend (One false c))].
    destruct pend as [|i|i]; [apply (class_atom_simulates neg items PNone (One false c))|by apply (class_mode neg items (PDash i))|].
    apply (class_atom_simulates neg items (PDash i) (One false c)).
  - apply (class_atom_simulates neg items pend (One true c)).
  - destruct (is_class c); [apply (class_atom_simulates neg items pend (Kind c))|].
    destruct (c =? "b"); [apply (class_atom_simulates neg items pend (One false "008"))|].
    do 2 (destruct (_ =? _); [apply class_hex|]). destruct (unread_escape c); [apply class_none|].
    destruct (control c) as [d|]; [apply (class_atom_simulates neg items pend (One false d))|apply (class_atom_simulates neg items pend (One false c))].
Qed.

Lemma step_hex_low k v s : step_hex k v (low s) = step_hex k v s.
Proof. unfold step_hex. destruct s; cbn; by rewrite ?lower_hex. Qed.

Lemma push_parser p : fold_parser (push p) = push (fold_parser p).
Proof. done. Qed.

Lemma push_ok p : ok_parser (push p) = true → ok_mode (mode p) = true → ok_parser p = true.
Proof. destruct p as [[al te la] st mo]. ok_solve. Qed.

(** The mode is replaced at every step, so what it holds is added back. *)
Lemma class_parser items step_s step_l p p' : class_simulates items step_s step_l →
  step_s (to_mode Plain p) = Some p' → ok_parser p' = true → ok_mode (mode p) = forallb item_ok items →
  step_l (to_mode Plain (fold_parser p)) = Some (fold_parser p') ∧ ok_parser p = true.
Proof.
  intros Hc Hs Hok Em. destruct (Hc (to_mode Plain p) p' Hs Hok eq_refl) as (H1 & H2 & H3). split; [done|].
  unfold ok_parser in *. cbn [top stack mode to_mode ok_mode] in H2. by rewrite Em, H3.
Qed.

(** A step of the parser on the folded symbol is the folded step. *)
Lemma step_fold p s p' : step p s = Some p' → ok_parser p' = true → step (fold_parser p) (low s) = Some (fold_parser p') ∧ ok_parser p = true.
Proof.
  intros Hs Hok. unfold step in *. cbn [mode fold_parser].
  assert (∀ m, is_sym m (low s) = is_sym m s) as Hl by by destruct s.
  destruct (mode p) as [| | |lo hi|k v| |neg items pend|k v neg items pend] eqn:Em; cbn [fold_mode]; rewrite ?Hl.
  - apply step_plain_simulates; [done|done|by rewrite Em].
  - destruct (is_sym "?" s); [apply (mode_simulates OpenQ OpenQ eq_refl p p'); [done|done|by rewrite Em]|].
    destruct (step_plain_simulates s (push p) p' Hs Hok eq_refl) as [H1 H2]. split; [done|]. apply push_ok; [done|by rewrite Em].
  - destruct (is_sym ":" s); [|done]. injection Hs as <-. split; [done|]. apply push_ok; [done|by rewrite Em].
  - apply step_count_simulates; [done|done|by rewrite Em].
  - rewrite step_hex_low. destruct (step_hex k v s) as [[v'|c]|]; [| |done]; cbn in *.
    + apply (mode_simulates (Hex (pred k) v') _ eq_refl p p'); [done|done|by rewrite Em].
    + apply (term_simulates Atom (Chr false c) _ eq_refl p p'); [done|done|by rewrite Em].
  - destruct (is_sym "^" s); [apply (mode_simulates (Class true [] PNone) _ eq_refl p p'); [done|done|by rewrite Em]|].
    apply (class_parser [] _ _ p p' (step_class_simulates false [] PNone s)); [done|done|by rewrite Em].
  - apply (class_parser items _ _ p p' (step_class_simulates neg items pend s)); [done|done|by rewrite Em].
  - rewrite step_hex_low. destruct (step_hex k v s) as [[v'|c]|]; [| |done]; cbn [mbind option_bind] in *.
    + apply (class_parser items _ _ p p' (class_hex (pred k) v' neg items pend)); [done|done|by rewrite Em].
    + apply (class_parser items _ _ p p' (class_atom_simulates neg items pend (One false c))); [done|done|by rewrite Em].
Qed.

Lemma steps_fold l p p' : steps p l = Some p' → ok_parser p' = true →
  steps (fold_parser p) (map low l) = Some (fold_parser p') ∧ ok_parser p = true.
Proof.
  revert p. induction l as [|s l IH]; intros p H Hok; cbn [steps map] in *; [by injection H as <-|].
  destruct (step p s) as [q|] eqn:Es; cbn [mbind option_bind] in H; [|done]. destruct (IH q H Hok) as [H1 H2].
  destruct (step_fold p s q Es H2) as [-> H3]. by split.
Qed.

Lemma read_folded l n : unbraced l = true → read l = Some n → folds_well n = true → read (foldPatternCase l) = Some (fold_node n).
Proof.
  unfold read. intros Hu Hr Hn. rewrite lex_fold by done. destruct (steps _ (lex l)) as [p|] eqn:Es; cbn [mbind option_bind] in Hr; [|done].
  destruct p as [tp [|] mo]; [|done]. destruct mo; try done. cbn in Hr. injection Hr as <-. rewrite ok_close in Hn.
  destruct (steps_fold _ _ _ Es) as [H _]; [unfold ok_parser; cbn; by rewrite Hn|].
  change (mkParser new_frame [] Plain) with (fold_parser (mkParser new_frame [] Plain)) at 1. rewrite H. cbn. by rewrite fold_close.
Qed.

(** ** The folded pattern on the text in small letters *)
Definition blind (b : bool) (f : Flags) : Flags := mkFlags b (fl_multiline f) (fl_dotall f).

Lemma item_folds i c : item_ok i = true → in_item (fold_item i) (char_lower c) = hits true (in_item i) c.
Proof.
  destruct i as [raw d|rl lo rh hi|k]; cbn [item_ok].
  - apply one_folds.
  - intros [_ H]%andb_true_iff. by apply (folds_spec _ _ H).
  - by apply class_folds.
Qed.

Lemma items_fold items c : forallb item_ok items = true → in_items (map fold_item items) (char_lower c) = hits true (in_items items) c.
Proof.
  intros Hok. apply eq_true_iff_eq. rewrite hits_blind. induction items as [|i items IH]; [naive_solver|].
  cbn in Hok. apply andb_true_iff in Hok as [Hi Hok]. cbn [map in_items existsb]. rewrite orb_true_iff, item_folds by done.
  rewrite hits_blind. unfold in_items in IH. rewrite (IH Hok). setoid_rewrite orb_true_iff. naive_solver.
Qed.

Lemma takes_fold f n c : folds_well n = true → takes (blind false f) (fold_node n) (char_lower c) = takes (blind true f) n c.
Proof.
  destruct n as [|raw d| |k|neg items|a b|a b|lo hi a| | |neg]; cbn [folds_well fold_node]; intros Hok; try done.
  - by apply one_folds.
  - cbn. by rewrite lower_newline.
  - by apply class_folds.
  - cbn. f_equal. by apply items_fold.
Qed.

Lemma low_at s i : map char_lower s !! i = char_lower <$> s !! i.
Proof. apply list_lookup_fmap. Qed.

Lemma low_word s i : word_at (map char_lower s) i = word_at s i.
Proof. unfold word_at. rewrite low_at. destruct (s !! i); cbn; [apply lower_word|done]. Qed.

Lemma low_newline s i : newline_at (map char_lower s) i = newline_at s i.
Proof. unfold newline_at. rewrite low_at. destruct (s !! i); cbn; [apply lower_newline|done]. Qed.

Lemma times_iff (R R' : nat → nat → Prop) k i j : (∀ i j, R i j ↔ R' i j) → times R k i j ↔ times R' k i j.
Proof. intros HR. revert i. induction k as [|k IH]; intros i; cbn; [done|]. setoid_rewrite HR. by setoid_rewrite IH. Qed.

Lemma one_char f s n i j :
  (∀ c, takes (blind false f) (fold_node n) (char_lower c) = takes (blind true f) n c) →
  (j = S i ∧ ∃ c, map char_lower s !! i = Some c ∧ takes (blind false f) (fold_node n) c = true) ↔
  (j = S i ∧ ∃ c, s !! i = Some c ∧ takes (blind true f) n c = true).
Proof.
  intros Ht. rewrite low_at. f_equiv. destruct (s !! i) as [d|]; cbn; [|naive_solver]. split.
  - intros (e & [= <-] & H). exists d. by rewrite <- Ht.
  - intros (e & [= <-] & H). exists (char_lower d). by rewrite Ht.
Qed.

Lemma spans_fold f s n i j : folds_well n = true →
  spans (blind false f) (map char_lower s) (fold_node n) i j ↔ spans (blind true f) s n i j.
Proof.
  revert i j. induction n as [|raw d| |k|neg items|a IHa b IHb|a IHa b IHb|lo hi a IHa| | |neg]; intros i j Hok.
  - done.
  - apply (one_char f s (Chr raw d)). intros. by apply takes_fold.
  - apply (one_char f s Any). intros. by apply takes_fold.
  - apply (one_char f s (Cls k)). intros. by apply takes_fold.
  - apply (one_char f s (CharSet neg items)). intros. by apply takes_fold.
  - cbn in *. apply andb_true_iff in Hok as [Ha Hb]. setoid_rewrite IHa; [|done]. by setoid_rewrite IHb.
  - cbn in *. apply andb_true_iff in Hok as [Ha Hb]. by rewrite IHa, IHb.
  - cbn in *. f_equiv. intros k. rewrite (times_iff _ (spans (blind true f) s a)); [done|]. intros. by apply IHa.
  - cbn. destruct i; cbn; [done|]. by rewrite low_newline.
  - cbn. unfold at_end. by rewrite length_map, low_newline.
  - cbn. rewrite low_word. destruct i; cbn; [done|]. by rewrite low_word.
Qed.

Lemma finds_fold f s n : folds_well n = true → finds (blind false f) (fold_node n) (map char_lower s) ↔ finds (blind true f) n s.
Proof. intros Hok. unfold finds. rewrite length_map. by setoid_rewrite spans_fold. Qed.

(** ** A rule runs as it reads *)
Definition flags_of (fl : list ascii) : Flags :=
  mkFlags (bool_decide ("i" ∈ fl)) (bool_decide ("m" ∈ fl)) (bool_decide ("s" ∈ fl)).

(** The flags and the body of a rule. *)
Definition parts (pattern : list ascii) : list ascii * list ascii := default ([], pattern) (inline_flags pattern).

Lemma without_first_other c x l : x ≠ c → x ∈ without_first c l ↔ x ∈ l.
Proof.
  intros Hx. induction l as [|d l IH]; [done|]. cbn. destruct (Ascii.eqb_spec d c) as [->|Hd]; rewrite ?elem_of_cons, ?IH; naive_solver.
Qed.

Lemma without_first_gone c l : NoDup l → c ∉ without_first c l.
Proof.
  induction 1 as [|d l Hd Hl IH]; [apply not_elem_of_nil|]. cbn. destruct (Ascii.eqb_spec d c) as [->|Hdc]; [done|].
  rewrite not_elem_of_cons. naive_solver.
Qed.

Lemma compile_parts pattern fl body : parts pattern = (fl, body) →
  compile_rule pattern =
    let kept := filter (λ c, c ∈ ["i"; "m"; "s"]) fl in
    mkCompiled (if bool_decide ("i" ∈ fl) then foldPatternCase body else body) (without_first "i" kept ++ ["l"]) (bool_decide ("i" ∈ fl)).
Proof.
  unfold parts, compile_rule. intros E. 
  assert (∀ fl : list ascii, bool_decide ("i" ∈ filter (λ c, c ∈ ["i"; "m"; "s"]) fl) = bool_decide ("i" ∈ fl)) as Hi.
  { intros l. apply bool_decide_ext. rewrite list_elem_of_filter. set_solver. }
  destruct (inline_flags pattern) as [[l b]|]; cbn in E; injection E as <- <-; cbn zeta; by rewrite ?Hi.
Qed.

(** C13. A User-Agent rule runs as it reads.  The pattern that is compiled, with
    the flags that are left, finds in what it is given exactly what the operator's
    pattern finds with all its flags, case-blind included, in the User-Agent as
    it came; where the pattern is case-blind, if no capital letter stands behind
    an escape and no range runs from one case into other characters. *)
Theorem rule_runs_as_read pattern fl body n input : parts pattern = (fl, body) → NoDup fl → read body = Some n →
  ("i" ∈ fl → unbraced body = true ∧ folds_well n = true) →
  let rule := compile_rule pattern in
  ∃ n', read (source rule) = Some n' ∧ "i" ∉ rest_flags rule ∧
    (finds (flags_of (rest_flags rule)) n' (subject rule input) ↔ finds (flags_of fl) n input).
Proof.
  intros E Hd Hr Hf rule. subst rule. rewrite (compile_parts _ _ _ E). set (kept := filter _ fl). cbn.
  assert ("i" ∉ without_first "i" kept ++ ["l"]) as Hni.
  { rewrite elem_of_app. intros [H|H]; [|set_solver]. revert H. by apply without_first_gone, NoDup_filter. }
  assert (∀ x, x ∈ ["m"; "s"] → bool_decide (x ∈ without_first "i" kept ++ ["l"]) = bool_decide (x ∈ fl)) as Hx.
  { intros x Hx. apply bool_decide_ext. rewrite elem_of_app, without_first_other by set_solver. unfold kept. rewrite list_elem_of_filter. set_solver. }
  assert (flags_of (without_first "i" kept ++ ["l"]) = blind false (flags_of fl)) as ->.
  { unfold flags_of, blind. cbn [fl_multiline fl_dotall]. f_equal; [by apply bool_decide_false|apply Hx|apply Hx]; by repeat constructor. }
  unfold subject. cbn. case_bool_decide as Hi.
  - destruct (Hf Hi) as [Hu Hw]. exists (fold_node n). split; [by apply read_folded|]. split; [done|].
    rewrite finds_fold by done. unfold blind, flags_of. cbn. by rewrite (bool_decide_true ("i" ∈ fl)).
  - exists n. split; [done|]. split; [done|]. unfold blind, flags_of. cbn. by rewrite (bool_decide_false ("i" ∈ fl)).
Qed.

(** A capital letter behind an escape stays, and meets small letters only: the
    rule finds nothing at all. *)
Theorem escaped_capital_lost : ∃ pattern fl body n n', parts pattern = (fl, body) ∧ read body = Some n ∧
  finds (flags_of fl) n (list_ascii_of_string "Happ/1.0") ∧
  read (source (compile_rule pattern)) = Some n' ∧
  ∀ input, ¬ finds (flags_of (rest_flags (compile_rule pattern))) n' (subject (compile_rule pattern) input).
Proof.
  exists (list_ascii_of_string "(?i)\x48app"). do 4 eexists. split; [vm_compute; reflexivity|].
  split; [vm_compute; reflexivity|]. split; [|split; [vm_compute; reflexivity|]].
  - exists 0%nat, 4%nat. split; [cbn; lia|]. cbn. exists 1%nat. split; [split; [done|]; eexists; split; [done|vm_compute; reflexivity]|].
    exists 2%nat. split; [split; [done|]; eexists; split; [done|vm_compute; reflexivity]|].
    exists 3%nat. split; [split; [done|]; eexists; split; [done|vm_compute; reflexivity]|].
    exists 4%nat. split; [split; [done|]; eexists; split; [done|vm_compute; reflexivity]|done].
  - intros input (i & j & _ & h & (_ & c & Hc & Ht) & _). change (map char_lower input !! i = Some c) in Hc.
    rewrite low_at in Hc. destruct (input !! i) as [d|]; [|done]. injection Hc as <-. change ((char_lower d =? "H") = true) in Ht. revert Ht.
    assert (negb (char_lower d =? "H") = true) as Hn by each_char d. apply negb_true_iff in Hn. by rewrite Hn.
Qed.

(** A range from one case into the other loses what lies between. *)
Theorem range_shrinks : ∃ pattern fl body n n', parts pattern = (fl, body) ∧ read body = Some n ∧
  finds (flags_of fl) n ["_"] ∧ read (source (compile_rule pattern)) = Some n' ∧
  ¬ finds (flags_of (rest_flags (compile_rule pattern))) n' (subject (compile_rule pattern) ["_"]).
Proof.
  exists (list_ascii_of_string "(?i)[A-z]"). do 4 eexists. split; [vm_compute; reflexivity|].
  split; [vm_compute; reflexivity|]. split; [|split; [vm_compute; reflexivity|]].
  - exists 0%nat, 1%nat. split; [cbn; lia|]. exists 1%nat. split; [|done]. split; [done|]. eexists. split; [done|vm_compute; reflexivity].
  - intros (i & j & _ & h & (_ & c & Hc & Ht) & _). change (map char_lower ["_"] !! i = Some c) in Hc.
    destruct i as [|i]; [injection Hc as <-; by vm_compute in Ht|]. by destruct i.
Qed.

Example folds_escapes : foldPatternCase (list_ascii_of_string "A\D[B-Z]\p{Lu}") = list_ascii_of_string "a\D[b-z]\p{Lu}".
Proof. reflexivity. Qed.

Theorem rule_runs_as_read_witness :
  let rule := compile_rule (list_ascii_of_string "(?i)^Happ/[A-F\d]+") in
  ∃ n n', read (list_ascii_of_string "^Happ/[A-F\d]+") = Some n ∧ read (source rule) = Some n' ∧
    (finds (flags_of (rest_flags rule)) n' (subject rule (list_ascii_of_string "HAPP/e")) ↔
     finds (flags_of ["i"]) n (list_ascii_of_string "HAPP/e")).
Proof.
  cbn zeta. eexists.
  destruct (rule_runs_as_read (list_ascii_of_string "(?i)^Happ/[A-F\d]+") ["i"] (list_ascii_of_string "^Happ/[A-F\d]+") _
    (list_ascii_of_string "HAPP/e") eq_refl ltac:(apply NoDup_singleton) eq_refl ltac:(intros _; split; vm_compute; reflexivity)) as (n' & H1 & _ & H2).
  exists n'. split; [reflexivity|]. split; [exact H1|exact H2].
Defined.
