(* ===== verification/ResponseRules.v ===== *)
(** The rules that choose a subscription's format by the client's User-Agent
    (apps/panel-backend/src/modules/srr/srr.service.ts, srr.schemas.ts,
    srr.routes.ts; resolveFormat of modules/subscription/subscription.routes.ts;
    templateTypeForFormat of packages/shared/src/transport-support.ts): what a
    save accepts, the compiled list kept for a minute, and the walk.

    [RegExp] is a parameter here: [None] where the constructor throws, else the
    test.  [RuleFold] says what it finds in a rule.  The rows are in the order the
    database answers without an ORDER BY; equal priorities keep it. *)

From S2P Require Import Prelude Js RuleFold.
From stdpp Require Import relations.

Local Open Scope string_scope.
Local Open Scope list_scope.
Local Open Scope Z_scope.

Definition UA_MAX_LENGTH : nat := 256.
Definition SRR_CACHE_TTL_MS : Z := 60000.

Definition FORMAT_NAMES : list string :=
  ["plain"; "raw"; "json"; "clash"; "mihomo"; "stash"; "clash-legacy"; "singbox"; "wgconf"; "amneziavpn";
   "xrayjson"; "xrayjson-array"; "xkeen"; "outline"; "surge"; "quantumultx"; "loon"].

Definition TEMPLATE_FORMATS : list (string * string) :=
  [("mihomo", "mihomo"); ("stash", "stash"); ("clash", "clash-legacy"); ("singbox", "singbox");
   ("xray-json-array", "xrayjson-array"); ("xray-json", "xrayjson")].

Definition templateTypeForFormat (format : string) : option string :=
  if bool_decide (format = "clash") then Some "mihomo"
  else fst <$> js_find (λ t, bool_decide (t.2 = format)) TEMPLATE_FORMATS.

Definition isFormat (format : string) : bool := bool_decide (format ∈ FORMAT_NAMES).

(** ** Rows and requests *)
Record Rule := mkRule {
  sr_id : Z;
  sr_name : string;
  sr_pattern : string;
  sr_format : string;
  sr_priority : Z;
  sr_enabled : bool;
  sr_template : option string
}.

(** [CreateSrrSchema] and [UpdateSrrSchema] before they are checked; an absent
    field is [None], and for the template [Some None] is null. *)
Record Input := mkInput {
  in_name : option string;
  in_pattern : option string;
  in_format : option string;
  in_priority : option Z;
  in_enabled : option bool;
  in_template : option (option string)
}.

Inductive srr_error := BAD_REQUEST | TEMPLATE_NOT_FOR_FORMAT (format : string) | TEMPLATE_NOT_FOUND (type name : string)
  | RULE_CONFLICT (name : string) | RULE_NOT_FOUND.

Section rules.
Context (RegExp : list ascii → list ascii → option (list ascii → bool)).
(** The templates the panel has, [findTemplate]. *)
Context (findTemplate : string → string → bool).

(** ** A rule compiled *)
Record LinearRule := mkLinear { re : list ascii → bool; lr_fold : bool }.

Definition compileLinearRule (pattern : string) : option LinearRule :=
  let c := compile_rule (list_ascii_of_string pattern) in
  t ← RegExp (source c) (rest_flags c);
  Some (mkLinear t (fold c)).

Definition testLinearRule (rule : LinearRule) (input : string) : bool :=
  re rule (list_ascii_of_string (if lr_fold rule then js_lower input else input)).

Record CompiledRule := mkCompiledRule { cr_re : LinearRule; cr_format : string; cr_name : string; cr_template : option string }.

Definition priority_leb (a b : Rule) : bool := sr_priority a <=? sr_priority b.

Definition compiled_of (r : Rule) : option CompiledRule :=
  c ← compileLinearRule (sr_pattern r);
  Some (mkCompiledRule c (sr_format r) (sr_name r) (sr_template r)).

(** [getCompiledRules], past its cache. *)
Definition compiled_rules (rows : list Rule) : list CompiledRule :=
  omap compiled_of (sort_by priority_leb (List.filter sr_enabled rows)).

(** [matchRuleForUserAgent]. *)
Definition matchRule (rules : list CompiledRule) (userAgent : option string) : option CompiledRule :=
  match userAgent with
  | Some ua =>
      if bool_decide (ua = "") then None
      else js_find (λ r, testLinearRule (cr_re r) (str_take UA_MAX_LENGTH ua)) rules
  | None => None
  end.

(** [resolveFormat]. *)
Definition resolveFormat (query : option string) (accept : string) (defaultFormat : string)
    (rules : list CompiledRule) (userAgent : option string) : string * option string :=
  let rest := if str_includes "application/json" (js_lower accept) then ("json", None) else (defaultFormat, None) in
  match query with
  | Some f => (f, None)
  | None =>
      match matchRule rules userAgent with
      | Some r => if isFormat (cr_format r) then (cr_format r, cr_template r) else rest
      | None => rest
      end
  end.

(** [checkStoredRules]: the enabled rules that are not served. *)
Definition checkStoredRules (rows : list Rule) : list string :=
  map sr_name (List.filter (λ r, sr_enabled r && bool_decide (compileLinearRule (sr_pattern r) = None)) rows).

(** ** The routes *)
Definition between (lo hi : nat) (s : string) : bool := ((lo <=? String.length s) && (String.length s <=? hi))%nat.
Definition opt_all {A} (f : A → bool) (o : option A) : bool := match o with Some a => f a | None => true end.

Definition name_ok (s : string) : bool := between 1 64 s.
(** [UaPatternField]: its length, and no [ruleProblem]. *)
Definition pattern_ok (s : string) : bool := between 1 512 s && bool_decide (is_Some (compileLinearRule s)).
Definition priority_ok (p : Z) : bool := (0 <=? p) && (p <=? 10000).
Definition template_ok (t : option string) : bool := opt_all (λ s, between 1 64 (js_trim s)) t.

Definition fields_ok (i : Input) : bool :=
  opt_all name_ok (in_name i) && opt_all pattern_ok (in_pattern i) && opt_all isFormat (in_format i) &&
  opt_all priority_ok (in_priority i) && opt_all template_ok (in_template i).

Definition templateRefusal (format : string) (template : option string) : result srr_error unit :=
  match template with
  | None => Ok tt
  | Some name =>
      match (if isFormat format then templateTypeForFormat format else None) with
      | None => Throw (TEMPLATE_NOT_FOR_FORMAT format)
      | Some type => throw_if (negb (findTemplate type name)) (TEMPLATE_NOT_FOUND type name)
      end
  end.

Definition name_taken (id : Z) (name : string) (rows : list Rule) : bool :=
  existsb (λ r, bool_decide (sr_name r = name) && negb (sr_id r =? id)) rows.

(** The template as the schema leaves it: trimmed. *)
Definition template_of (i : Input) : option (option string) := option_map (option_map js_trim) (in_template i).

(** [POST /api/srr]. *)
Definition create (id : Z) (i : Input) (rows : list Rule) : result srr_error (list Rule) :=
  match in_name i, in_pattern i, in_format i with
  | Some name, Some pattern, Some format =>
      let template := default None (template_of i) in
      throw_if (negb (fields_ok i)) BAD_REQUEST ≫= λ _,
      templateRefusal format template ≫= λ _,
      throw_if (name_taken id name rows) (RULE_CONFLICT name) ≫= λ _,
      Ok (rows ++ [mkRule id name pattern format (default 100 (in_priority i)) (default true (in_enabled i)) template])
  | _, _, _ => Throw BAD_REQUEST
  end.

Definition edited (i : Input) (r : Rule) : Rule :=
  mkRule (sr_id r) (default (sr_name r) (in_name i)) (default (sr_pattern r) (in_pattern i)) (default (sr_format r) (in_format i))
    (default (sr_priority r) (in_priority i)) (default (sr_enabled r) (in_enabled i)) (default (sr_template r) (template_of i)).

(** The pair as it will stand, where the request names one half of it. *)
Definition update_refusal (i : Input) (stored : option Rule) : result srr_error unit :=
  match (if bool_decide (in_format i ≠ None ∨ in_template i ≠ None) then stored else None) with
  | Some s => templateRefusal (default (sr_format s) (in_format i)) (default (sr_template s) (template_of i))
  | None => Ok tt
  end.

(** [PUT /api/srr/:id]. *)
Definition update (id : Z) (i : Input) (rows : list Rule) : result srr_error (list Rule) :=
  throw_if (negb (fields_ok i)) BAD_REQUEST ≫= λ _,
  let stored := js_find (λ r, sr_id r =? id) rows in
  update_refusal i stored ≫= λ _,
  match stored with
  | None => Throw RULE_NOT_FOUND
  | Some s =>
      throw_if (name_taken id (default (sr_name s) (in_name i)) rows)
        (RULE_CONFLICT (default (sr_name s) (in_name i))) ≫= λ _,
      Ok (map (λ r, if sr_id r =? id then edited i r else r) rows)
  end.

(** [DELETE /api/srr/:id]. *)
Definition delete (id : Z) (rows : list Rule) : result srr_error (list Rule) :=
  if existsb (λ r, sr_id r =? id) rows then Ok (List.filter (λ r, negb (sr_id r =? id)) rows) else Throw RULE_NOT_FOUND.

Inductive Request := Create (id : Z) (i : Input) | Update (id : Z) (i : Input) | Delete (id : Z).

Definition handle (q : Request) (rows : list Rule) : result srr_error (list Rule) :=
  match q with Create id i => create id i rows | Update id i => update id i rows | Delete id => delete id rows end.

(** ** The cache *)
Record World := mkWorld {
  rows : list Rule;
  cache : option (list CompiledRule * Z);
  now : Z;
  loads : list (list Rule);     (* what the loads under way have read *)
  owed : nat                    (* saves whose [invalidateSrrCache] is still to run *)
}.

Definition live (w : World) : option (list CompiledRule) :=
  match cache w with Some (rules, expiresAt) => if now w <? expiresAt then Some rules else None | None => None end.

(** With [alone] no save falls while a load is under way. *)
Inductive step (alone : bool) (w : World) : World → Prop :=
  | step_tick d : 0 <= d → step alone w (mkWorld (rows w) (cache w) (now w + d) (loads w) (owed w))
  | step_save q rows' : handle q (rows w) = Ok rows' →
      (∀ id i, q = Create id i → id ∉ map sr_id (rows w)) → (alone = true → loads w = []) →
      step alone w (mkWorld rows' (cache w) (now w) (loads w) (S (owed w)))
  | step_drop : (0 < owed w)%nat → step alone w (mkWorld (rows w) None (now w) (loads w) (pred (owed w)))
  | step_load : live w = None → step alone w (mkWorld (rows w) (cache w) (now w) (rows w :: loads w) (owed w))
  | step_store l1 read l2 : loads w = l1 ++ read :: l2 →
      step alone w (mkWorld (rows w) (Some (compiled_rules read, now w + SRR_CACHE_TTL_MS)) (now w) (l1 ++ l2) (owed w)).

Definition fresh : World := mkWorld [] None 0 [] 0.

(** ** What the walk answers *)
Lemma priority_total a b : priority_leb a b = false → priority_leb b a = true.
Proof. unfold priority_leb. lia. Qed.

Lemma priority_trans a b c : priority_leb a b = true → priority_leb b c = true → priority_leb a c = true.
Proof. unfold priority_leb. lia. Qed.

(** A rule matches a User-Agent, if the engine runs it. *)
Definition rule_matches (ua : string) (r : Rule) : bool :=
  match compileLinearRule (sr_pattern r) with Some c => testLinearRule c (str_take UA_MAX_LENGTH ua) | None => false end.

Lemma walk_sorted ua rs : StronglySorted (λ a b, priority_leb a b = true) rs →
  match js_find (λ r, testLinearRule (cr_re r) (str_take UA_MAX_LENGTH ua)) (omap compiled_of rs) with
  | Some c => ∃ r, r ∈ rs ∧ compiled_of r = Some c ∧ rule_matches ua r = true ∧
      ∀ r', r' ∈ rs → rule_matches ua r' = true → sr_priority r <= sr_priority r'
  | None => ∀ r, r ∈ rs → rule_matches ua r = false
  end.
Proof.
  induction 1 as [|r rs Hs IH Hr]; [set_solver|]. rewrite Forall_forall in Hr. cbn [omap list_omap].
  assert (rule_matches ua r = match compiled_of r with Some c => testLinearRule (cr_re c) (str_take UA_MAX_LENGTH ua) | None => false end) as Em.
  { unfold rule_matches, compiled_of. by destruct (compileLinearRule _). }
  destruct (compiled_of r) as [c|] eqn:Ec; cbn [js_find]; [destruct (testLinearRule _ _) eqn:Et|].
  - exists r. split; [set_solver|]. split; [done|]. split; [done|]. intros r' [->|Hin]%elem_of_cons _; [lia|].
    specialize (Hr r' Hin). unfold priority_leb in Hr. lia.
  - destruct (js_find _ _) as [d|].
    + destruct IH as (q & Hq & Hc & Hm & Hle). exists q. split; [set_solver|]. split; [done|]. split; [done|].
      intros r' [->|Hin]%elem_of_cons Hm'; [congruence|by apply Hle].
    + intros q [->|Hin]%elem_of_cons; [done|by apply IH].
  - destruct (js_find _ _) as [d|].
    + destruct IH as (q & Hq & Hc & Hm & Hle). exists q. split; [set_solver|]. split; [done|]. split; [done|].
      intros r' [->|Hin]%elem_of_cons Hm'; [congruence|by apply Hle].
    + intros q [->|Hin]%elem_of_cons; [done|by apply IH].
Qed.

(** A client that names no format gets the one of the enabled rule of the
    smallest priority that matches its User-Agent, with that rule's template; when
    none matches, or the rule's format is no longer served, JSON for a client that
    accepts it and else the operator's default. *)
Theorem format_by_first_rule rows ua accept default :
  ua ≠ "" →
  let answer := resolveFormat None accept default (compiled_rules rows) (Some ua) in
  let fallback := (if str_includes "application/json" (js_lower accept) then "json" else default, None) in
  (∃ r, r ∈ rows ∧ sr_enabled r = true ∧ rule_matches ua r = true ∧
    (∀ r', r' ∈ rows → sr_enabled r' = true → rule_matches ua r' = true → sr_priority r <= sr_priority r') ∧
    answer = if isFormat (sr_format r) then (sr_format r, sr_template r) else fallback) ∨
  (∀ r, r ∈ rows → sr_enabled r = true → rule_matches ua r = false) ∧ answer = fallback.
Proof.
  intros Hua answer fallback. subst answer. unfold resolveFormat, matchRule. rewrite bool_decide_false by done.
  assert ((if str_includes "application/json" (js_lower accept) then ("json", None) else (default, None)) = fallback) as ->.
  { unfold fallback. by destruct (str_includes _ _). }
  pose proof (walk_sorted ua _ (sort_by_sorted priority_leb priority_total priority_trans (List.filter sr_enabled rows))) as H.
  assert (∀ r, r ∈ sort_by priority_leb (List.filter sr_enabled rows) ↔ r ∈ rows ∧ sr_enabled r = true) as Hin.
  { intros r. by rewrite elem_of_sort_by, list_elem_of_In, filter_In, <- list_elem_of_In. }
  unfold compiled_rules. destruct (js_find _ _) as [c|]; [left|right].
  - destruct H as (r & Hr & Hc & Hm & Hle). apply Hin in Hr as [Hr He]. exists r. do 3 (split; [done|]). split.
    + intros r' Hr' He' Hm'. apply Hle; [|done]. by apply Hin.
    + unfold compiled_of in Hc. destruct (compileLinearRule _); [|done]. by injection Hc as <-.
  - split; [|done]. intros r Hr He. apply H. by apply Hin.
Qed.

(** ** What the routes keep *)
Record table_ok (rows : list Rule) : Prop := {
  t_runs : ∀ r, r ∈ rows → is_Some (compileLinearRule (sr_pattern r)) ∧ isFormat (sr_format r) = true;
  t_names : NoDup (map sr_name rows);
  t_ids : NoDup (map sr_id rows)
}.

Lemma not_taken id name rows : name_taken id name rows = false → ∀ r, r ∈ rows → sr_name r = name → sr_id r = id.
Proof.
  unfold name_taken. intros H r Hr Hn. destruct (decide (sr_id r = id)) as [|Hid]; [done|]. exfalso.
  apply not_true_iff_false in H. apply H, existsb_exists. exists r. split; [by apply list_elem_of_In|].
  by rewrite bool_decide_true, (proj2 (Z.eqb_neq _ _) Hid) by done.
Qed.

Lemma NoDup_map_filter {A B} (f : A → B) (P : A → bool) l : NoDup (map f l) → NoDup (map f (List.filter P l)).
Proof.
  induction l as [|x l IH]; [done|]. cbn. intros [Hx Hl]%NoDup_cons. destruct (P x); [|by apply IH]. cbn. apply NoDup_cons. split; [|by apply IH].
  intros H. apply Hx. apply list_elem_of_fmap in H as (y & -> & Hy). apply list_elem_of_fmap. exists y. split; [done|].
  rewrite list_elem_of_In, filter_In, <- list_elem_of_In in Hy. by destruct Hy.
Qed.

Lemma fields_run i : fields_ok i = true →
  (∀ p, in_pattern i = Some p → is_Some (compileLinearRule p)) ∧ (∀ f, in_format i = Some f → isFormat f = true).
Proof.
  unfold fields_ok. rewrite !andb_true_iff. intros [[[[_ Hp] Hf] _] _]. split.
  - intros p E. rewrite E in Hp. apply andb_true_iff in Hp as [_ Hp]. by apply bool_decide_eq_true in Hp.
  - intros f E. by rewrite E in Hf.
Qed.

Lemma create_ok id i rows rows' : create id i rows = Ok rows' → id ∉ map sr_id rows → table_ok rows → table_ok rows'.
Proof.
  unfold create. destruct (in_name i) as [name|] eqn:En, (in_pattern i) as [p|] eqn:Ep, (in_format i) as [f|] eqn:Ef; try done.
  cbn zeta. destruct (fields_ok i) eqn:Ei; [|done]. destruct (templateRefusal _ _); [|done]. cbn.
  destruct (name_taken id name rows) eqn:Et; [done|]. intros [= <-] Hid [H1 H2 H3]. destruct (fields_run i Ei) as [Hp Hf]. split.
  - intros r [Hr| ->%list_elem_of_singleton]%elem_of_app; [by apply H1|]. split; [by apply Hp|by apply Hf].
  - rewrite map_app. apply NoDup_app. split; [done|]. split; [|apply NoDup_singleton]. intros n Hn ->%list_elem_of_singleton.
    apply list_elem_of_fmap in Hn as (r & Hr & Hin). apply Hid, list_elem_of_fmap. exists r. split; [|done]. symmetry. by eapply not_taken.
  - rewrite map_app. apply NoDup_app. split; [done|]. split; [|apply NoDup_singleton]. by intros n Hn ->%list_elem_of_singleton.
Qed.

Lemma update_ok id i rows rows' : update id i rows = Ok rows' → table_ok rows → table_ok rows'.
Proof.
  unfold update. destruct (fields_ok i) eqn:Ei; [|done]. cbn. destruct (update_refusal _ _); [|done]. cbn.
  destruct (js_find _ rows) as [s|] eqn:Es; [|done]. destruct (name_taken _ _ rows) eqn:Et; [done|]. cbn. intros [= <-] [H1 H2 H3].
  destruct (fields_run i Ei) as [Hp Hf]. apply js_find_Some in Es as [Hs Hid]. apply Z.eqb_eq in Hid.
  assert (map sr_id (map (λ r, if sr_id r =? id then edited i r else r) rows) = map sr_id rows) as Eids.
  { rewrite map_map. apply map_ext. intros r. by destruct (sr_id r =? id). }
  split; [| |by rewrite Eids].
  - intros r (q & -> & Hq)%list_elem_of_fmap. destruct (H1 q Hq). destruct (sr_id q =? id); [|done]. cbn. split.
    + destruct (in_pattern i); [by apply Hp|done].
    + destruct (in_format i); [by apply Hf|done].
  - rewrite map_map. apply NoDup_fmap_2_strong; [|by eapply NoDup_fmap_1].
    assert (∀ q, q ∈ rows → sr_id q = id → q = s) as Hone.
    { intros q Hq Eq. apply (NoDup_fmap_elem sr_id rows); [done|done|done|congruence]. }
    intros x y Hx Hy. destruct (Z.eqb_spec (sr_id x) id) as [Ex|Ex], (Z.eqb_spec (sr_id y) id) as [Ey|Ey]; cbn.
    + intros _. by rewrite (Hone x), (Hone y).
    + rewrite (Hone x Hx Ex). intros E. exfalso. apply Ey. by apply (not_taken _ _ _ Et y).
    + rewrite (Hone y Hy Ey). intros E. exfalso. apply Ex. by apply (not_taken _ _ _ Et x).
    + intros E. by apply (NoDup_fmap_elem sr_name rows).
Qed.

Lemma delete_ok id rows rows' : delete id rows = Ok rows' → table_ok rows → table_ok rows'.
Proof.
  unfold delete. destruct (existsb _ _); [|done]. intros [= <-] [H1 H2 H3]. split; [|by apply NoDup_map_filter..].
  intros r. rewrite list_elem_of_In, filter_In, <- list_elem_of_In. intros [Hr _]. by apply H1.
Qed.

Record settled (alone : bool) (w : World) : Prop := {
  s_table : table_ok (rows w);
  s_loads : alone = true → ∀ read, read ∈ loads w → read = rows w;
  s_cache : alone = true → owed w = 0%nat → ∀ rules e, cache w = Some (rules, e) → rules = compiled_rules (rows w)
}.

Lemma step_settled alone w w' : step alone w w' → settled alone w → settled alone w'.
Proof.
  intros Hst [H1 H2 H3]. destruct Hst as [d Hd|q rows' Hq Hid Ha|Ho|Hl|l1 read l2 El]; (split; cbn; [try done|try done|try done]).
  - destruct q as [id i|id i|id]; cbn in Hq.
    + eapply create_ok; [done| |done]. by apply (Hid id i).
    + by eapply update_ok.
    + by eapply delete_ok.
  - intros E read. rewrite (Ha E). by intros ?%not_elem_of_nil.
  - intros E read [->|Hin]%elem_of_cons; [done|by apply H2].
  - intros E r Hr. apply (H2 E). rewrite El. set_solver.
  - intros E _ rules e [= <- _]. rewrite (H2 E read); [done|]. rewrite El. set_solver.
Qed.

Lemma reached_settled alone w : rtc (step alone) fresh w → settled alone w.
Proof.
  intros H. assert (settled alone fresh) as H0. { split; cbn; [split; cbn; [set_solver|constructor|constructor]|set_solver|done]. }
  revert H0. induction H as [|v v' w Hst _ IH]; [done|]. intros Hv. apply IH. by eapply step_settled.
Qed.

(** C14. Through any sequence of saves and requests, no stored rule is one the
    engine cannot run, no two rules have one name, and every format is served;
    and the list a request finds in the cache is the compiled table, once the save
    has dropped the cache, if no save fell while a load was under way. *)
Theorem rules_kept_served alone w : rtc (step alone) fresh w →
  checkStoredRules (rows w) = [] ∧ NoDup (map sr_name (rows w)) ∧ (∀ r, r ∈ rows w → isFormat (sr_format r) = true) ∧
  (alone = true → owed w = 0%nat → ∀ rules, live w = Some rules → rules = compiled_rules (rows w)).
Proof.
  intros [[H1 H2 H3] Hl Hc]%reached_settled. split; [|split; [done|split; [by intros r []%H1|]]].
  - unfold checkStoredRules. replace (List.filter _ (rows w)) with (@nil Rule); [done|]. symmetry.
    assert (∀ l, (∀ r, r ∈ l → is_Some (compileLinearRule (sr_pattern r))) →
      List.filter (λ r, sr_enabled r && bool_decide (compileLinearRule (sr_pattern r) = None)) l = []) as Hf.
    { induction l as [|r l IH]; intros Hr; [done|]. cbn. destruct (Hr r) as [c Ec]; [set_solver|].
      rewrite bool_decide_false by congruence. rewrite andb_false_r. apply IH. set_solver. }
    apply Hf. intros r []%H1. done.
  - intros E Ho rules. unfold live. destruct (cache w) as [[rs e]|] eqn:Ec; [|done]. destruct (now w <? e); [|done].
    intros [= <-]. by eapply Hc.
Qed.
End rules.

(** ** Runs *)

(** An engine of literal text: a pattern is found where it stands. *)
Definition literal (src _ : list ascii) : option (list ascii → bool) :=
  Some (λ s, str_includes (string_of_list_ascii src) (string_of_list_ascii s)).

Definition happ : Input := mkInput (Some "Happ") (Some "(?i)Happ") (Some "singbox") (Some 10) None None.
Definition happ_row : Rule := mkRule 1 "Happ" "(?i)Happ" "singbox" 10 true None.

Example case_blind_rule : matchRule (compiled_rules literal [happ_row]) (Some "HAPP/3") = matchRule (compiled_rules literal [happ_row]) (Some "happ/3") ∧
  cr_name <$> matchRule (compiled_rules literal [happ_row]) (Some "HAPP/3") = Some "Happ".
Proof. split; reflexivity. Qed.

(** A list read before a save and kept after it is served for a minute, although
    the save has dropped the cache. *)
Theorem stale_load_outlives_bust : ∃ w, rtc (step literal (λ _ _, true) false) fresh w ∧ owed w = 0%nat ∧ loads w = [] ∧
  live w = Some [] ∧ rows w = [happ_row] ∧
  (resolveFormat None "" "plain" [] (Some "Happ/3")).1 = "plain" ∧
  (resolveFormat None "" "plain" (compiled_rules literal (rows w)) (Some "Happ/3")).1 = "singbox".
Proof.
  exists (mkWorld [happ_row] (Some ([], 60000)) 0 [] 0). split; [|repeat split; reflexivity].
  eapply rtc_l; [by apply step_load|]. cbn.
  eapply rtc_l; [apply (step_save _ _ _ _ (Create 1 happ) [happ_row]); [reflexivity|set_solver|done]|]. cbn.
  eapply rtc_l; [apply step_drop; cbn; lia|]. cbn.
  apply rtc_once. exact (step_store literal (λ _ _, true) false (mkWorld [happ_row] None 0 [[]] 0) [] [] [] eq_refl).
Qed.

Theorem format_by_first_rule_witness :
  (resolveFormat None "" "plain" (compiled_rules literal [happ_row]) (Some "Happ/3")).1 = "singbox" ∧
  ∃ r, r ∈ [happ_row] ∧ rule_matches literal "Happ/3" r = true.
Proof.
  split; [reflexivity|].
  destruct (format_by_first_rule literal (λ _ _, true) [happ_row] "Happ/3" "" "plain" ltac:(discriminate)) as [(r & Hr & _ & Hm & _)|[H _]].
  - by exists r.
  - exists happ_row. split; [by apply list_elem_of_singleton|reflexivity].
Defined.

Theorem rules_kept_served_witness : ∃ w, rtc (step literal (λ _ _, true) true) fresh w ∧
  live w = Some (compiled_rules literal [happ_row]) ∧ checkStoredRules literal (rows w) = [].
Proof.
  set (w := mkWorld [happ_row] (Some (compiled_rules literal [happ_row], 60000)) 0 [] 0).
  assert (rtc (step literal (λ _ _, true) true) fresh w) as H.
  { eapply rtc_l; [apply (step_save _ _ _ _ (Create 1 happ) [happ_row]); [reflexivity|set_solver|done]|]. cbn.
    eapply rtc_l; [apply step_drop; cbn; lia|]. cbn.
    eapply rtc_l; [by apply step_load|]. cbn. apply rtc_once.
    exact (step_store literal (λ _ _, true) true (mkWorld [happ_row] None 0 [[happ_row]] 0) [] [happ_row] [] eq_refl). }
  exists w. split; [exact H|]. split; [reflexivity|].
  exact (proj1 (rules_kept_served literal (λ _ _, true) true w H)).
Defined.
